(* ===== verification/_CoqProject ===== *)
-Q . S2P
Prelude.v
BigNumbers.v
Fractions.v
VertexSets.v
StructureGraph.v
Attractors.v
ParityGame.v
Worklist.v
Solver.v
Arena.v
SolverCorrect.v
SolverExtended.v
SolverCheck.v
SolverTheorems.v
Evidence.v
FatalAttractors.v
GraphGame.v
MinRankAttractor.v
FatalAttractorsCorrect.v
FatalTheorems.v
FindLoops.v
FindLoopsCorrect.v
FindLoopsTheorems.v
PartialSolve.v
Observations.v
Terms.v
DataExpressions.v
PbesExpressions.v
PbesNormalize.v
PbesRewriters.v
QuantifiersInside.v
GraphBuilder.v
GraphBuilderCorrect.v
GraphBuilderErrors.v
GraphBuilderTheorems.v
GraphBuilderErase.v
Instantiation.v
InstantiationCorrect.v
OnTheFly.v
RplusCorrect.v
OnTheFlyGraph.v
OnTheFlyReport.v
OnTheFlySolve.v
OnTheFlyPrune.v
OnTheFlyExtract.v
OnTheFlyRun.v
OnTheFlyTheorems.v
SmallProgress.v
ProgressMeasures.v
ProgressGame.v
GameDeterminacy.v
BesSolution.v
SmallProgressInit.v
SmallProgressCorrect.v
PostfixGenerator.v
StandardForm.v
StandardFormCorrect.v
GaussElimination.v
BesSolveTheorems.v
SharedMutex.v
Lts.v
LtsCalls.v
Scc.v
SccCorrect.v
SccTheorems.v
LtsAlgorithm.v
Reachability.v
Bisimulation.v
LtsMerge.v
BisimPartition.v
BisimCorrect.v
BisimRefine.v
BisimInitial.v
BisimQuotient.v
BisimTheorems.v
WeakBisimulation.v
TauClosure.v
TauClosureCorrect.v
WeakReduce.v
ActionLabelString.v
