(* ===== verification/Prelude.v ===== *)
(** * A verification library for the mCRL2 toolset

    mCRL2 verifies a modal formula on a process by translating the question to
    a parameterised boolean equation system (PBES), rewriting its right hand
    sides, instantiating it to a structure graph - a parity game - and solving
    that game; the solution comes with a strategy from which a counter example
    is extracted.  Probabilities are exact fractions over big natural numbers.
    A process is also explored to a labelled transition system (LTS), which is
    reduced and compared.  Terms are shared between threads under a lock made for
    them.  This library models the chain from the formulas to the solved game, the
    solvers for boolean equation systems, the numbers, the LTS class with its bisimulation reductions and the operations
    around it, and the lock.  The sources are under [libraries/]; below, [pbes/],
    [data/], [core/], [lts/] and [utilities/] stand for their include directories.

    ** Parts and files

    - [Prelude.v]: exceptions ([outcome]), machine words ([wrap]: unsigned
      64-bit wrap-around), shared list and string lemmas, tactics and hints.

    - [BigNumbers.v] ([utilities/big_numbers.h]): the digit functions
      ([add_single_number] ... [remove_common_divisor]) as Z arithmetic modulo
      2^64, and module [Big], the class [big_natural_number]: a list of 64-bit
      digits, least significant first, without leading zero ([is_well_defined]
      of the code, the invariant [well_defined] here).  Buffers passed by reference are
      arguments and results.
    - [Fractions.v] ([utilities/probabilistic_arbitrary_precision_fraction.h]):
      module [Fraction]; the static scratch numbers are threaded through.

    - [VertexSets.v] ([pbes/pbessolve_vertex_set.h]): [Deque], [VSet] (a vector
      and a bit set kept in step), [lazy_union], [StrategyVector].
    - [StructureGraph.v] ([pbes/structure_graph.h],
      [pbes/simple_structure_graph.h]): vertices, the exclusion set, and the
      interface the solver templates use as the classes [StructureGraph] and
      [StructureGraphLaws] with both graph types as instances.
    - [Attractors.v] ([pbes/pbessolve_attractors.h]): [attr_default_generic]
      over any graph and any strategy recorder (class [Strategy]).
    - [Solver.v] ([pbes/solve_structure_graph.h]): [solve_recursive] (with and
      without [use_toms_optimization]), [solve_recursive_extended],
      [check_solve_recursive_solution], [solve_partitions], [solve] and the
      public functions.  [Worklist.v] holds the exploration loop over
      [std::set] that the check and the extraction of evidence share.
    - [Evidence.v]: the overloads of [extract_minimal_structure_graph].
    - Specification and proofs of the solver: [ParityGame.v] (plays, strategies,
      who wins, also in a part of a game; no code), [Arena.v] (a structure graph as a game),
      [SolverCorrect.v], [SolverExtended.v], [SolverCheck.v], and the theorems
      in [SolverTheorems.v].

    - [Terms.v] ([core/optimized_boolean_operators.h]): boolean terms over the
      class [TermTraits] ([core::term_traits]), the optimized operators, and
      the meaning of terms in a [model] of the data (class [TermTraitsSound]).
    - [DataExpressions.v] ([data/expression_traits.h],
      [data/standard_utility.h], [utilities/detail/join.h]) and
      [PbesExpressions.v] ([pbes/pbes_expression.h], [pbes/join.h],
      [pbes/normalize.h], [pbes/complement.h], [pbes/is_monotonous.h]): the two
      instances of the traits and the functions on them.
    - [PbesNormalize.v]: theorems on normal form, monotonicity, split and join.
    - [PbesRewriters.v] ([pbes/rewriters/simplify_rewriter.h],
      [simplify_quantifiers_rewriter.h]) and [QuantifiersInside.v]
      ([quantifiers_inside_rewriter.h] of [data/] and [pbes/]).

    - [GraphBuilder.v] ([pbes/structure_graph_builder.h],
      [pbes/pbesinst_structure_graph.h]): both builders, with adding, finalizing
      and erasing; proofs in [GraphBuilderCorrect.v], [GraphBuilderErrors.v],
      [GraphBuilderErase.v] and [GraphBuilderTheorems.v].
    - [Instantiation.v] ([pbes/pbesinst_lazy.h]): the exploration loop, with the
      virtual functions as the class [Algorithm] and the structure graph
      algorithm as an instance; proofs in [InstantiationCorrect.v].
    - Partial solvers that run during instantiation: [FatalAttractors.v]
      ([pbes/pbesinst_fatal_attractors.h]; proofs in [MinRankAttractor.v],
      [FatalAttractorsCorrect.v], [FatalTheorems.v]), [FindLoops.v]
      ([pbes/pbesinst_find_loops.h]; [FindLoopsCorrect.v],
      [FindLoopsTheorems.v]) and [PartialSolve.v]
      ([pbes/pbesinst_partial_solve.h]).  [GraphGame.v] is the game of a graph
      that is not complete yet; [Observations.v] says that solvers change
      strategies only.
    - [OnTheFly.v] ([pbes/pbesinst_structure_graph2.h]): instantiation with
      solving, an instance of [Algorithm] that calls the builders and the partial
      solvers; proofs in [RplusCorrect.v] (simplification with solved vertices),
      [OnTheFlyGraph.v], [OnTheFlyReport.v], [OnTheFlySolve.v],
      [OnTheFlyPrune.v], [OnTheFlyExtract.v] (what is kept at the end),
      [OnTheFlyRun.v] and [OnTheFlyTheorems.v].

    - [SmallProgress.v] ([pbes/small_progress_measures.h]): the progress measures
      algorithm; theory in [ProgressMeasures.v] (measures as numbers),
      [ProgressGame.v] (the iteration on a game), [GameDeterminacy.v] (from the
      recursive solver) and [BesSolution.v] (the solution of a boolean equation
      system as nested fixed points), proofs in [SmallProgressInit.v] and
      [SmallProgressCorrect.v].
    - [PostfixGenerator.v] ([utilities/number_postfix_generator.h],
      [text_utility.h]): fresh names.  [StandardForm.v] ([pbes/normal_forms.h]):
      the standard recursive form that the algorithm starts with; proofs in
      [StandardFormCorrect.v], with what happens to variables that have the names of
      the constants.
    - [GaussElimination.v] ([pbes/gauss_elimination_algorithm.h],
      [pbes/pbes_gauss_elimination.h]): the other solver, over any rewriter that
      keeps its promise (class [BesRewriter]).  The results on both solvers are
      in [BesSolveTheorems.v].

    - [SharedMutex.v] ([utilities/shared_mutex.h]): module [SharedMutex], the
      busy-forbidden protocol: a program counter per thread, one access to an
      atomic flag or to the mutex per step; module [Registry], the objects that
      share the data of a mutex.
    - [Lts.v] ([lts/lts.h], [lts/transition.h], [lts/lts_utilities.h]): the class
      [lts] over any label types (the label classes are parameters), its sort
      orders, the vectors indexed by state, hiding and renaming of labels.
      [LtsCalls.v]: sequences of calls against a specification by the lists of
      labels and transitions that the object stands for.
    - [Scc.v] ([lts/detail/liblts_scc.h]): the iterative numbering of strongly
      connected components over tau steps and the reduction; proofs in
      [SccCorrect.v] (the loop) and [SccTheorems.v] (the results).
    - [LtsAlgorithm.v], [Reachability.v] ([lts/lts_algorithm.h]), [LtsMerge.v]
      ([lts/detail/liblts_merge.h]) and [ActionLabelString.v]
      ([lts/action_label_string.h]).
    - [BisimPartition.v] ([lts/detail/liblts_bisim.h]): the partitioner of Groote
      and Vaandrager ([partitioner]: the blocks with bottom and non-bottom states,
      the index of every state, the flags and the queue), the quotient, reduction
      and comparison.  The theory of strong and branching bisimulation is in
      [Bisimulation.v] (no code); the proofs are in [BisimCorrect.v] (splitting a
      block), [BisimRefine.v] (the loops), [BisimInitial.v] (the first partition),
      [BisimQuotient.v] (the quotient) and [BisimTheorems.v] (the results).
    - [TauClosure.v] ([lts/detail/liblts_tau_star_reduce.h]): closing the
      transitions under tau steps, [tau_star_reduce], and the removal of redundant
      transitions; theory in [WeakBisimulation.v] (weak bisimulation and traces, no
      code), proofs in [TauClosureCorrect.v].  [WeakReduce.v]
      ([lts/detail/liblts_weak_bisim.h]): weak bisimulation reduction over any
      bisimulation reduction that keeps its promise (class [BisimulationReducer]).

    ** Correspondence

    A class is a record (or an inductive type where the code has term
    constructors), a method a function that takes and returns the record; a
    mutated reference parameter is an argument and a result.  An exception is
    [Throws] with its message.  A loop that is not structural takes fuel and
    returns [None] without it; a failing assertion or undefined behaviour is
    also [None], or, in a function that returns an [outcome], an exception whose
    message says so.  The theorems show that neither happens.  Container indices
    are [nat]: the code's 32-bit [index_type] limits graphs to 2^32 - 1
    vertices, a limit that the code does not check and that the theorems on
    construction and on solving on the fly do not repeat; ranks are compared
    with the largest [std::size_t] where the code does so.
    A [std::set] of terms, ordered by address, is a list without duplicates; where
    the order is visible it is a parameter [term_less], and the order of an
    [unordered_set] is a parameter [hash_order] that permutes its elements.

    Code outside the model is a parameter with its promises as hypotheses: the
    rewriter [R] of the instantiation returns a constant or a formula without
    constants, built from variables, conjunctions and disjunctions; a
    bisimulation reduction used for weak bisimulation, without preserving
    divergence, is a [BisimulationReducer] (it may drop state labels); the
    rewriter of Gauss elimination is a [BesRewriter] (on formulas whose variables
    have no parameters).
    The theorems on solving on the fly are about the options whose partial
    solver is sound, and about graphs of fewer than 2^63 vertices; those on
    progress measures about systems of fewer than 2^31 equations, and those on
    the standard form about closed systems whose variables are not called [True]
    or [False] and have numeric postfixes below 2^31 ([usable_names]).

    ** Fuel

    [attr_fuel]: every iteration takes a vertex from the queue, and each of the
    [extent] vertices refills it at most once.  [solve_fuel]: each recursion
    level excludes at least one more vertex.  [explore] and the check: every
    vertex is done once.  [is_monotonous]: the number of nodes.  Pushing
    quantifiers inside: a weight that decreases although operands are rejoined.
    The gcd loops, printing and division of numbers: bounds on the value.
    [while_work] of the component numbering: twice the number of states, since a
    state is pushed once and taken back once per successor that is entered.
    [explore] of [Reachability.v]: every state is pushed once.  [hide_loop]: every
    round reads a character.  [refine_fuel]: a round takes a block from the
    queue; a split adds two blocks to it and can make the partition unstable, which
    refills the queue once, and there are fewer splits than states.
    [order_recursively_on_tau_reachability]: a path visits a state once.
    [close_loop]: every round but the last adds a pair of states.  The attractors
    of [FatalAttractors.v] take one round per queue element (a vertex may be
    queued twice), its outer loops one round per vertex of the graph that is cut
    off or solved; [find_loop] goes as deep as there are vertices not visited;
    the search of [prune_todo_list] visits a vertex once; the guards of
    [OnTheFly.v] double a number below 2^64.  [SG1] follows the formula.  The
    exploration of [Instantiation.v] needs a round per reachable variable, of
    which there may be infinitely many: its theorems assume a finite set that
    contains them.  The rounds of progress measures are bounded by the number of
    vertices times the number of measures, each round but the last raises one.
    Iteration in Gauss elimination ends after two rounds, and decimal digits are
    bounded by the binary logarithm.  The
    theorems about these functions state that a result is returned.

    ** What the theorems show

    - Solver: [solve_recursive] returns the winning partition of the game and,
      without Tom's optimisation, winning strategies; so does the extended
      solver, where plays may end in [true] or [false]; the self-check never
      throws; [solve_structure_graph] returns the winner of the initial vertex;
      the winning mapping has a vertex for every formula; the attractor is the
      least closed set.  Who wins is defined by infinite and maximal finite
      plays, not by the algorithm.
    - Construction: the graph that a builder makes of a list of equations has
      exactly their solutions, and a formula that cannot be represented is
      rejected with an exception; erasing vertices gives the graph of the others;
      instantiation ends if finitely many variables are reachable, and the graph
      consists of exactly their equations.
    - Solving on the fly: [fatal_attractors_original] and [find_loops] add to the
      solved sets only vertices that their player wins in every completion of the
      graph; [fatal_attractors] and [find_loops2] do if the assertion after the
      call holds; simplification is equivalent for the valuations that agree with
      the solved vertices; the whole run ends with solved sets that are
      winning regions and either a solved initial variable or nothing left to
      explore; the graph it leaves is exactly the part that the initial vertex
      needs, has only explored variables, can be given to the solver, and its
      initial vertex has the same winner; the assertions on the way hold.
    - Boolean equation systems: the standard form keeps the solution; the progress
      measures algorithm ends, and it and Gauss elimination return the value of
      the first variable in the solution.  The solution is defined by nested fixed
      points, without either algorithm.
    - Evidence: the extracted vertices are those reachable under the winner's
      strategy, and all are won.
    - Formulas: [normalize] preserves meaning and removes negation and
      implication; it throws exactly if [is_monotonous] is false; accepted
      formulas are monotone; the rewriters preserve meaning, the simplifier
      reaches a normal form; splitting and joining lose nothing.
    - Numbers: arithmetic, comparison and printing compute on values, keep the
      invariant and throw exactly where they should.
    - Lock: the protocol refines an abstract readers-writer lock, no assertion
      fails, and threads that only finish their calls always can.
    - Transition systems: every sequence of calls within its ranges gives the
      labels and transitions of its specification and keeps the object
      well-formed, and a call fails exactly if its assertion does; the component
      numbering ends and numbers exactly the strongly connected components in
      reverse topological order; the reduction is branching bisimilar to its input;
      reachability keeps exactly the reachable part; merging gives both behaviours
      side by side; hiding removes exactly the named actions; sorted labels are
      canonical.
    - Bisimulation: the partitioner ends and its classes are those of strong,
      branching or divergence preserving branching bisimilarity; the reduced
      transition system is bisimilar to its input, without bisimilar states and
      without double transitions; comparison decides whether the initial states are
      bisimilar, or raises the exception for labels hidden in one system only.
      Bisimilarity is the greatest bisimulation, defined without the algorithm;
      divergence is an observable loop at states on a cycle of tau steps.
    - Weak equivalences: the closure under tau steps is exact; weak bisimulation
      reduction gives a weakly bisimilar transition system without weakly bisimilar
      states, tau loops or redundant transitions; [tau_star_reduce] keeps the weak
      traces and removes internal actions.
    - Deviations found: [pbes_quantifiers_inside_imp_wrong],
      [complement_forall_wrong], [divide_single_number_exact_iff],
      [move_assign_destroy_fails], [is_deterministic_hidden_wrong],
      [reachability_check_unhides], [merge_states_twice],
      [sort_multiactions_residue], [fatal_attractors_unsound],
      [find_loops_no_strategy], [Rplus_negation],
      [make_standard_form_name_clash]; [partial_solve_correct] says that
      [partial_solve] computes attractors and nothing more.

    ** Not modelled

    The term library (sharing, garbage collection), parsing, printing of
    formulas, the data rewriters, type checking and enumeration, the process,
    LPS, PRES, symbolic and SMT libraries, the PBES transformations that need
    the data rewriter (constant and parameter elimination, stategraph), the other
    LTS reductions and formats, the counter example formulas of the bisimulation
    partitioner, and the tools.  Instantiation is modelled with one thread.  The
    lock is modelled with sequentially consistent atomics.  In data expressions
    only the boolean structure is visible: any other term is a symbol applied to
    variables.  Hashing, logging and timing are left out.

    The later bisimulation algorithms and simulation of the LTS library,
    divergence preserving weak bisimulation and weak comparison, and
    instantiation with several threads are parts that could be added to this
    library with its present means. *)

From Stdlib Require Import ZArith Lia.
From stdpp Require Import base strings numbers list.

Declare Scope mcrl2_scope.
Delimit Scope mcrl2_scope with mcrl2.

(** ** Exceptions

    A C++ function that may throw [mcrl2::runtime_error] returns an [outcome]. *)

Inductive outcome (A : Type) : Type :=
| Returns (a : A)
| Throws (message : string).
Arguments Returns {A} a.
Arguments Throws {A} message.

Definition outcome_bind {A B : Type} (x : outcome A) (f : A -> outcome B) : outcome B :=
  match x with
  | Returns a => f a
  | Throws m => Throws m
  end.

Notation "'let!' x ':=' c 'in' k" := (outcome_bind c (fun x => k))
  (at level 10, x pattern, c at level 100, k at level 200) : mcrl2_scope.

(** ** Strings *)

Lemma string_app_assoc (s t u : string) : (s +:+ t) +:+ u = s +:+ (t +:+ u).
Proof.
  induction s as [|c s IH]; [reflexivity|].
  change (String c ((s +:+ t) +:+ u) = String c (s +:+ (t +:+ u))). by f_equal.
Qed.

(** ** Bit sets ([boost::dynamic_bitset<>])

    A bit set of size [n] is a list of [n] booleans.  Reading or writing a bit
    outside the set is undefined in boost (an assertion in debug builds); the
    model reads [false] there and writes nothing, and the theorems keep every
    index inside the set. *)

Abbreviation bitset := (list bool).

Definition bitset_empty (n : nat) : bitset := replicate n false.

Definition bit (b : bitset) (u : nat) : bool := default false (b !! u).

Definition set_bit (u : nat) (x : bool) (b : bitset) : bitset := <[u := x]> b.

(** [operator|] on sets of the same size. *)
Definition bitset_or (b c : bitset) : bitset := zip_with orb b c.

(** [all], [count], [is_subset_of] and [==]. *)
Definition bitset_all (b : bitset) : bool := forallb id b.

Definition bitset_count (b : bitset) : nat := length (filter (fun x => x = true) b).

Definition bitset_subset (b c : bitset) : bool := forallb (fun p => implb p.1 p.2) (zip b c).

Definition bitset_eqb (b c : bitset) : bool := bool_decide (b = c).

Lemma bit_empty n u : bit (bitset_empty n) u = false.
Proof.
  unfold bit, bitset_empty. destruct (replicate n false !! u) as [x|] eqn:E; [|done].
  by apply lookup_replicate in E as [-> _].
Qed.

Lemma length_set_bit u x b : length (set_bit u x b) = length b.
Proof. apply length_insert. Qed.

Lemma bit_lt b u : bit b u = true -> u < length b.
Proof. unfold bit. destruct (b !! u) eqn:E; [|done]. intros _. by eapply lookup_lt_Some. Qed.

Lemma bit_set_bit b u v x :
  u < length b -> bit (set_bit u x b) v = if decide (u = v) then x else bit b v.
Proof.
  intros H. unfold bit, set_bit. case_decide as E.
  - subst. by rewrite list_lookup_insert_eq.
  - by rewrite list_lookup_insert_ne.
Qed.

Lemma bit_or b c u :
  length b = length c -> bit (bitset_or b c) u = bit b u || bit c u.
Proof.
  intros Hlen. unfold bit, bitset_or. rewrite lookup_zip_with.
  destruct (b !! u) as [x|] eqn:Eb; cbn.
  - apply lookup_lt_Some in Eb. rewrite Hlen in Eb.
    apply lookup_lt_is_Some in Eb as [y ->]. done.
  - apply lookup_ge_None in Eb. rewrite Hlen in Eb. apply lookup_ge_None in Eb.
    by rewrite Eb.
Qed.

Lemma bitset_ext (b c : bitset) :
  length b = length c -> (forall u, bit b u = bit c u) -> b = c.
Proof.
  intros Hlen H. apply list_eq. intros i. specialize (H i). unfold bit in H.
  destruct (b !! i) as [x|] eqn:Eb, (c !! i) as [y|] eqn:Ec; cbn in H; try congruence.
  - apply lookup_lt_Some in Eb. apply lookup_ge_None in Ec. lia.
  - apply lookup_lt_Some in Ec. apply lookup_ge_None in Eb. lia.
Qed.

Lemma bitset_all_spec b : bitset_all b = true <-> forall u, u < length b -> bit b u = true.
Proof.
  unfold bitset_all. rewrite forallb_forall. split.
  - intros H u Hu. unfold bit. apply lookup_lt_is_Some in Hu as [x Hx]. rewrite Hx. cbn.
    apply (H x). apply list_elem_of_In, list_elem_of_lookup. eauto.
  - intros H x Hx. apply list_elem_of_In, list_elem_of_lookup in Hx as [i Hi].
    specialize (H i (lookup_lt_Some _ _ _ Hi)). unfold bit in H. by rewrite Hi in H.
Qed.

(** ** Lists of distinct indices *)

Lemma NoDup_bounded_length (l : list nat) n :
  NoDup l -> (forall u, u ∈ l -> u < n) -> length l <= n.
Proof.
  intros Hl Hb. rewrite <- (length_seq n 0). apply submseteq_length, NoDup_submseteq; [done|].
  intros u Hu. apply elem_of_seq. specialize (Hb u Hu). lia.
Qed.

Lemma filter_length_le (P Q : nat -> bool) (l : list nat) :
  (forall u, P u = true -> Q u = true) ->
  length (filter (fun u => P u = true) l) <= length (filter (fun u => Q u = true) l).
Proof.
  intros H. induction l as [|x l IH]; [done|]. rewrite !filter_cons.
  repeat case_decide; cbn; try lia. exfalso. auto.
Qed.

Lemma filter_length_lt (P Q : nat -> bool) (l : list nat) x :
  (forall u, P u = true -> Q u = true) -> x ∈ l -> Q x = true -> P x = false ->
  length (filter (fun u => P u = true) l) < length (filter (fun u => Q u = true) l).
Proof.
  intros H Hx HQ HP. induction l as [|y l IH]; [by apply elem_of_nil in Hx|].
  pose proof (filter_length_le P Q l H). rewrite !filter_cons.
  apply elem_of_cons in Hx as [->|Hx].
  - repeat case_decide; cbn; try lia; congruence.
  - specialize (IH Hx). repeat case_decide; cbn; try lia. exfalso. auto.
Qed.

(** The position of the first occurrence of an element. *)
Fixpoint index_of (u : nat) (l : list nat) : nat :=
  match l with
  | [] => 0
  | x :: l => if decide (x = u) then 0 else S (index_of u l)
  end.

Lemma index_of_app u pre post : u ∉ pre -> index_of u (pre ++ u :: post) = length pre.
Proof.
  induction pre as [|x pre IH]; intros Hu; cbn; [by rewrite decide_True|].
  apply not_elem_of_cons in Hu as [Hx Hu]. rewrite decide_False by done. by rewrite IH.
Qed.

Lemma index_of_lt u pre post : u ∈ pre -> index_of u (pre ++ post) < length pre.
Proof.
  induction pre as [|x pre IH]; intros Hu; [by apply elem_of_nil in Hu|]. cbn.
  case_decide as E; [lia|]. apply elem_of_cons in Hu as [->|Hu]; [done|].
  specialize (IH Hu). lia.
Qed.

(** ** Machine words: [std::size_t] on the supported 64-bit platforms *)

Local Open Scope Z_scope.

(** [std::numeric_limits<std::size_t>::digits] *)
Definition no_of_bits_per_digit : Z := 64.

Definition word_modulus : Z := 2 ^ no_of_bits_per_digit.

(** Reduction of an unsigned result to its width. *)
Definition wrap (z : Z) : Z := z mod word_modulus.

Definition is_word (z : Z) : Prop := 0 <= z < word_modulus.

Lemma word_modulus_val : word_modulus = 18446744073709551616.
Proof. reflexivity. Qed.

Lemma wrap_is_word z : is_word (wrap z).
Proof. apply Z.mod_pos_bound. reflexivity. Qed.

Lemma wrap_small z : is_word z -> wrap z = z.
Proof. apply Z.mod_small. Qed.

(** [wrap_spec] turns one occurrence of [wrap] into a linear constraint: the
    form in which [lia] can use it. *)
Lemma wrap_spec z : exists q, z = word_modulus * q + wrap z /\ is_word (wrap z).
Proof.
  exists (z / word_modulus). split; [apply Z.div_mod; discriminate|apply wrap_is_word].
Qed.

(** Replace every [wrap] of the goal by a fresh word and its defining
    equation. *)
Ltac unwrap :=
  repeat match goal with
  | |- context [wrap ?z] =>
      let w := fresh "w" in let q := fresh "q" in
      let Hq := fresh "Hq" in let Hw := fresh "Hw" in
      destruct (wrap_spec z) as (q & Hq & Hw);
      set (w := wrap z) in *; clearbody w
  end.

Ltac word_lia := unfold is_word in *; rewrite ?word_modulus_val in *; lia.

Create HintDb words.
#[export] Hint Resolve wrap_is_word : words.
