(* ===== verification/BigNumbers.v ===== *)
(** * Arbitrary-precision natural numbers
    ([libraries/utilities/include/mcrl2/utilities/big_numbers.h])

    The class [big_natural_number] stores a number as a vector of 64-bit
    digits, the most significant digit last.  [Section Digits] models the
    functions of [namespace detail] on single digits, with the wrap-around of
    [std::size_t] written out; [Module Big] models the class.  The meaning of a
    digit vector is [value]; the class invariant ([is_well_defined] in the
    code) is [well_defined]. *)

From Stdlib Require Import ZArith Lia Ascii.
From stdpp Require Import base strings numbers list.
From S2P Require Import Prelude.

Local Open Scope Z_scope.
Local Open Scope mcrl2_scope.

(** ** Operations on single digits ([namespace detail]) *)

Definition add_single_number (n1 n2 carry : Z) : Z * Z :=
  let result := wrap (n1 + n2 + carry) in
  let carry' :=
    if carry =? 0
    then if result <? n1 then 1 else carry
    else if result >? n1 then 0 else carry in
  (result, carry').

Definition subtract_single_number (n1 n2 carry : Z) : Z * Z :=
  let result := wrap (n1 - n2 - carry) in
  let carry' :=
    if carry =? 0
    then if result >? n1 then 1 else carry
    else if result <? n1 then 0 else carry in
  (result, carry').

(** [(1LL << (no_of_bits_per_digit/2)) - 1] *)
Definition half_mask : Z := Z.shiftl 1 (no_of_bits_per_digit / 2) - 1.

Definition half_bits : Z := no_of_bits_per_digit / 2.

Definition multiply_single_number (n1 n2 multiplication_carry : Z) : Z * Z :=
  let n1ls := Z.land n1 half_mask in
  let n1ms := Z.shiftr n1 half_bits in
  let n2ls := Z.land n2 half_mask in
  let n2ms := Z.shiftr n2 half_bits in
  let '(r0, c0) := add_single_number (wrap (n1ls * n2ls)) multiplication_carry 0 in
  let cumulative_carry0 := c0 in
  let '(r1, c1) :=
    add_single_number r0 (wrap (Z.shiftl (wrap (n1ms * n2ls)) half_bits)) 0 in
  let cumulative_carry1 := wrap (cumulative_carry0 + c1) in
  let '(r2, c2) :=
    add_single_number r1 (wrap (Z.shiftl (wrap (n1ls * n2ms)) half_bits)) 0 in
  let cumulative_carry2 := wrap (cumulative_carry1 + c2) in
  let m0 := cumulative_carry2 in
  let m1 := wrap (m0 + Z.shiftr (wrap (n1ms * n2ls)) half_bits) in
  let m2 := wrap (m1 + Z.shiftr (wrap (n1ls * n2ms)) half_bits) in
  let m3 := wrap (m2 + wrap (n1ms * n2ms)) in
  (r2, m3).

Definition divide_single_number (p q remainder : Z) : Z * Z :=
  let pms := wrap (Z.shiftr p half_bits + wrap (Z.shiftl remainder half_bits)) in
  let resultms := pms / q in
  let remainderms := pms mod q in
  let pls := wrap (Z.land p half_mask + wrap (Z.shiftl remainderms half_bits)) in
  let resultls := pls / q in
  let remainder' := pls mod q in
  (wrap (resultls + wrap (Z.shiftl resultms half_bits)), remainder').

(** The loop [while (remainder>0)] of [greatest_common_divisor]; the first
    argument bounds the number of iterations. *)
Fixpoint gcd_loop (fuel : nat) (p q remainder : Z) : option Z :=
  match fuel with
  | O => None
  | S fuel =>
      if remainder >? 0
      then gcd_loop fuel q remainder (q mod remainder)
      else Some q
  end.

Definition greatest_common_divisor (p q : Z) : option Z :=
  if p =? 0 then Some q
  else if q =? 0 then Some p
  else
    let '(p, q) := if p <? q then (q, p) else (p, q) in
    gcd_loop (Z.to_nat (2 * no_of_bits_per_digit + 1)) p q (p mod q).

Definition remove_common_divisor (p q : Z) : option (Z * Z) :=
  match greatest_common_divisor p q with
  | Some gcd => Some (p / gcd, q / gcd)
  | None => None
  end.

(** ** Correctness of the digit operations *)

Section Digits.

Definition is_carry (c : Z) : Prop := c = 0 \/ c = 1.

Lemma add_single_number_spec n1 n2 c r c' :
  is_word n1 -> is_word n2 -> is_carry c ->
  add_single_number n1 n2 c = (r, c') ->
  r + word_modulus * c' = n1 + n2 + c /\ is_word r /\ is_carry c'.
Proof.
  intros H1 H2 Hc [= <- <-]. unwrap.
  unfold is_carry in *.
  destruct (Z.eqb_spec c 0), (Z.ltb_spec w n1), (Z.gtb_spec w n1); word_lia.
Qed.

Lemma subtract_single_number_spec n1 n2 c r c' :
  is_word n1 -> is_word n2 -> is_carry c ->
  subtract_single_number n1 n2 c = (r, c') ->
  r - word_modulus * c' = n1 - n2 - c /\ is_word r /\ is_carry c'.
Proof.
  intros H1 H2 Hc [= <- <-]. unwrap.
  unfold is_carry in *.
  destruct (Z.eqb_spec c 0), (Z.ltb_spec w n1), (Z.gtb_spec w n1); word_lia.
Qed.

Lemma half_split n :
  is_word n ->
  Z.land n half_mask = n mod 2 ^ 32 /\ Z.shiftr n half_bits = n / 2 ^ 32.
Proof.
  intros _. split.
  - apply (Z.land_ones n 32). lia.
  - apply Z.shiftr_div_pow2. discriminate.
Qed.

Lemma shiftl_half n : Z.shiftl n half_bits = n * 2 ^ 32.
Proof. apply Z.shiftl_mul_pow2. discriminate. Qed.

Lemma shiftr_half n : Z.shiftr n half_bits = n / 2 ^ 32.
Proof. apply Z.shiftr_div_pow2. discriminate. Qed.

Definition is_half (h : Z) : Prop := 0 <= h < 4294967296.

Lemma half_decompose n :
  is_word n -> exists h l, n = 4294967296 * h + l /\ is_half h /\ is_half l /\
    Z.land n half_mask = l /\ Z.shiftr n half_bits = h.
Proof.
  intros Hn. destruct (half_split n Hn) as [-> ->].
  exists (n / 2 ^ 32), (n mod 2 ^ 32).
  pose proof (Z.div_mod n (2 ^ 32) ltac:(lia)).
  pose proof (Z.mod_pos_bound n (2 ^ 32) ltac:(lia)).
  unfold is_half. repeat split; try lia;
    [apply Z.div_pos; word_lia|apply Z.div_lt_upper_bound; word_lia].
Qed.

Lemma half_mul h l : is_half h -> is_half l -> 0 <= h * l <= 18446744065119617025.
Proof. unfold is_half. nia. Qed.

Lemma half_mul_word h l : is_half h -> is_half l -> wrap (h * l) = h * l.
Proof. intros Hh Hl. apply wrap_small. pose proof (half_mul h l Hh Hl). word_lia. Qed.

(** Shifting a word half a digit to the left keeps its low half. *)
Lemma shiftl_half_wrap n :
  is_word n -> exists h l, n = 4294967296 * h + l /\ is_half h /\ is_half l /\
    wrap (Z.shiftl n half_bits) = 4294967296 * l /\ Z.shiftr n half_bits = h.
Proof.
  intros Hn. destruct (half_decompose n Hn) as (h & l & E & Hh & Hl & _ & Er).
  exists h, l. repeat split; auto; try apply Hh; try apply Hl.
  rewrite shiftl_half. change (2 ^ 32) with 4294967296.
  symmetry. apply Z.mod_unique with h; [left|]; unfold is_half in *; word_lia.
Qed.

Lemma multiply_single_number_spec n1 n2 c :
  is_word n1 -> is_word n2 -> is_word c ->
  let '(r, c') := multiply_single_number n1 n2 c in
  r + word_modulus * c' = n1 * n2 + c /\ is_word r /\ is_word c'.
Proof.
  intros H1 H2 Hc. unfold multiply_single_number.
  destruct (half_decompose n1 H1) as (h1 & l1 & -> & Hh1 & Hl1 & -> & ->).
  destruct (half_decompose n2 H2) as (h2 & l2 & -> & Hh2 & Hl2 & -> & ->).
  rewrite !half_mul_word by assumption.
  pose proof (half_mul l1 l2 Hl1 Hl2). pose proof (half_mul h1 l2 Hh1 Hl2).
  pose proof (half_mul l1 h2 Hl1 Hh2). pose proof (half_mul h1 h2 Hh1 Hh2).
  destruct (shiftl_half_wrap (h1 * l2)) as (a & b & Eab & Ha & Hb & -> & ->); [word_lia|].
  destruct (shiftl_half_wrap (l1 * h2)) as (d & e & Ede & Hd & He & -> & ->); [word_lia|].
  unfold is_half in *.
  destruct (add_single_number _ _ _) as [r0 c0] eqn:E0.
  apply add_single_number_spec in E0 as (E0 & Hr0 & Hc0); [|word_lia|exact Hc|now left].
  destruct (add_single_number r0 _ _) as [r1 c1] eqn:E1.
  apply add_single_number_spec in E1 as (E1 & Hr1 & Hc1); [|word_lia|word_lia|now left].
  destruct (add_single_number r1 _ _) as [r2 c2] eqn:E2.
  apply add_single_number_spec in E2 as (E2 & Hr2 & Hc2); [|word_lia|word_lia|now left].
  unfold is_carry in *.
  assert (Hlow : (4294967296 * h1 + l1) * (4294967296 * h2 + l2) =
    word_modulus * (h1 * h2) + 4294967296 * (h1 * l2) + 4294967296 * (l1 * h2) + l1 * l2)
    by (rewrite word_modulus_val; ring).
  rewrite Hlow, Eab, Ede.
  assert (Hprod : h1 * h2 + a + d + (c0 + c1 + c2) < word_modulus) by word_lia.
  rewrite !(wrap_small (c0 + c1)), !(wrap_small (c0 + c1 + c2)) by word_lia.
  rewrite !(wrap_small (c0 + c1 + c2 + a)) by word_lia.
  rewrite !(wrap_small (c0 + c1 + c2 + a + d)) by word_lia.
  rewrite !(wrap_small (c0 + c1 + c2 + a + d + h1 * h2)) by word_lia.
  word_lia.
Qed.

(** The digit product is the full 128-bit product: for all 64-bit [n1],
    [n2] and carry, the returned low digit and the new carry together are
    exactly [n1 * n2 + carry], although every intermediate step is computed
    modulo 2^64. *)
Lemma multiply_single_number_full n1 n2 c :
  is_word n1 -> is_word n2 -> is_word c ->
  let '(r, c') := multiply_single_number n1 n2 c in
  r + word_modulus * c' = n1 * n2 + c /\ is_word r /\ is_word c'.
Proof. apply multiply_single_number_spec. Qed.

Lemma shiftl_half_small n :
  is_half n -> wrap (Z.shiftl n half_bits) = 4294967296 * n.
Proof.
  intros Hn. rewrite shiftl_half. rewrite wrap_small; unfold is_half in *; word_lia.
Qed.

(** One half step of the schoolbook division: the quotient of a half digit
    fits in half a digit as long as the running remainder is below [q]. *)
Lemma half_quotient q r l :
  0 < q -> 0 <= r < q -> is_half l -> is_half ((4294967296 * r + l) / q).
Proof.
  intros Hq Hr Hl. unfold is_half in *. split; [apply Z.div_pos; lia|].
  apply Z.div_lt_upper_bound; nia.
Qed.

Lemma divide_single_number_spec p q r :
  is_word p -> 0 < q <= 4294967296 -> 0 <= r < q ->
  divide_single_number p q r =
    ((r * word_modulus + p) / q, (r * word_modulus + p) mod q) /\
  is_word ((r * word_modulus + p) / q).
Proof.
  intros Hp Hq Hr. unfold divide_single_number.
  destruct (half_decompose p Hp) as (h & l & -> & Hh & Hl & -> & ->).
  rewrite (shiftl_half_small r) by (unfold is_half; lia).
  rewrite (wrap_small (h + _)) by (unfold is_half in *; word_lia).
  rewrite (Z.add_comm h). set (pms := 4294967296 * r + h).
  pose proof (Z.mod_pos_bound pms q ltac:(lia)) as Hrem.
  pose proof (Z.div_mod pms q ltac:(lia)) as Epms.
  assert (Hms : is_half (pms / q)) by (apply half_quotient; auto; lia).
  set (rms := pms mod q) in *. set (qms := pms / q) in *.
  rewrite (shiftl_half_small rms) by (unfold is_half; lia).
  rewrite (wrap_small (l + _)) by (unfold is_half in *; word_lia).
  rewrite (Z.add_comm l). set (pls := 4294967296 * rms + l).
  assert (Hls : is_half (pls / q)) by (apply half_quotient; auto; lia).
  pose proof (Z.div_mod pls q ltac:(lia)) as Epls.
  pose proof (Z.mod_pos_bound pls q ltac:(lia)) as Hrem'.
  rewrite (shiftl_half_small qms) by exact Hms.
  rewrite (wrap_small (_ + _)) by (unfold is_half in *; word_lia).
  set (t := _ + (4294967296 * h + l)).
  assert (Et : t = q * (pls / q + 4294967296 * qms) + pls mod q)
    by (unfold t, pms, pls in *; rewrite word_modulus_val; lia).
  rewrite <- (Z.div_unique_pos t q _ _ Hrem' Et), <- (Z.mod_unique_pos t q _ _ Hrem' Et).
  split; [reflexivity|]. unfold is_half in *. word_lia.
Qed.

(** The digit division is exact, quotient and remainder, for every divisor of
    at most 2^32 and every incoming remainder below it.  These are the
    divisors (10 and 2) the library itself uses. *)
Lemma divide_single_number_exact p q r :
  is_word p -> 0 < q <= 2 ^ 32 -> 0 <= r < q ->
  let '(d, r') := divide_single_number p q r in
  r * word_modulus + p = q * d + r' /\ 0 <= r' < q /\ is_word d.
Proof.
  intros Hp Hq Hr. change (2 ^ 32) with 4294967296 in Hq.
  destruct (divide_single_number_spec p q r Hp Hq Hr) as [-> Hw].
  split; [apply Z.div_mod; lia|]. split; [apply Z.mod_pos_bound; lia|exact Hw].
Qed.

(** C40: the digit division is exact - quotient and remainder, for every digit
    and every incoming remainder below the divisor - if and only if the divisor
    is at most 2^32.  The comment above [divide_single_number] only asks that the
    remainder is below the divisor; for a larger divisor the shift of the
    remainder drops its high half. *)
Theorem divide_single_number_exact_iff q :
  0 < q < word_modulus ->
  (forall p r, is_word p -> 0 <= r < q ->
     let '(d, r') := divide_single_number p q r in
     r * word_modulus + p = q * d + r' /\ 0 <= r' < q /\ is_word d) <->
  q <= 2 ^ 32.
Proof.
  intros Hq. split.
  - intros H. destruct (Z.le_gt_cases q (2 ^ 32)) as [|Hwide]; [done|exfalso].
    specialize (H 0 (2 ^ 32) ltac:(word_lia) ltac:(lia)).
    assert (E : divide_single_number 0 q (2 ^ 32) = (0 / q + 0, 0 mod q)).
    { unfold divide_single_number. rewrite !shiftr_half, !shiftl_half.
      change (wrap (0 / 2 ^ 32 + wrap (2 ^ 32 * 2 ^ 32))) with 0.
      by rewrite Z.div_0_l, Z.mod_0_l by lia. }
    rewrite E, Z.div_0_l, Z.mod_0_l in H by lia. rewrite word_modulus_val in H. lia.
  - intros Hle p r Hp Hr. apply divide_single_number_exact; [done|lia|done].
Qed.

Lemma gcd_loop_spec fuel p q :
  0 < q <= p -> Z.log2 p + Z.log2 q < Z.of_nat fuel ->
  gcd_loop fuel p q (p mod q) = Some (Z.gcd p q).
Proof.
  revert p q. induction fuel as [|fuel IH]; intros p q Hq Hf.
  { pose proof (Z.log2_nonneg p). pose proof (Z.log2_nonneg q). lia. }
  pose proof (Z.mod_pos_bound p q ltac:(lia)) as Hm.
  pose proof (Z.div_mod p q ltac:(lia)) as Hd.
  cbn [gcd_loop]. destruct (Z.gtb_spec (p mod q) 0) as [Hpos|Hz].
  - rewrite IH.
    + f_equal. rewrite (Z.gcd_comm q), Z.gcd_mod, Z.gcd_comm by lia. reflexivity.
    + lia.
    + assert (1 <= p / q) by (apply Z.div_le_lower_bound; lia).
      assert (2 * (p mod q) <= p) by nia.
      pose proof (Z.log2_le_mono _ _ H0) as Hl.
      rewrite Z.log2_double in Hl by lia. lia.
  - assert (E : p mod q = 0) by lia.
    f_equal. apply Z.mod_divide in E; [|lia].
    rewrite Z.gcd_comm. symmetry. apply Z.divide_gcd_iff; [lia|exact E].
Qed.

Lemma log2_word n : is_word n -> Z.log2 n < 64.
Proof.
  intros Hn. destruct (Z.eq_dec n 0) as [->|]; [reflexivity|].
  apply Z.log2_lt_pow2; [word_lia|]. change (2 ^ 64) with word_modulus. word_lia.
Qed.

(** The Euclidean loop on machine words terminates within its 129 iterations
    and computes the greatest common divisor. *)
Lemma greatest_common_divisor_spec p q :
  is_word p -> is_word q -> greatest_common_divisor p q = Some (Z.gcd p q).
Proof.
  intros Hp Hq. unfold greatest_common_divisor.
  pose proof (log2_word p Hp). pose proof (log2_word q Hq).
  destruct (Z.eqb_spec p 0) as [->|Hp0].
  { f_equal. symmetry. apply Z.gcd_0_l_nonneg. word_lia. }
  destruct (Z.eqb_spec q 0) as [->|Hq0].
  { f_equal. symmetry. apply Z.gcd_0_r_nonneg. word_lia. }
  destruct (Z.ltb_spec p q).
  - rewrite gcd_loop_spec, Z.gcd_comm; [reflexivity|word_lia|].
    rewrite Z2Nat.id; unfold no_of_bits_per_digit; lia.
  - rewrite gcd_loop_spec; [reflexivity|word_lia|].
    rewrite Z2Nat.id; unfold no_of_bits_per_digit; lia.
Qed.

Lemma word_div n d : is_word n -> 0 < d -> is_word (n / d).
Proof.
  intros Hn Hd. split; [apply Z.div_pos; word_lia|].
  apply Z.div_lt_upper_bound; [exact Hd|]. unfold is_word in Hn. nia.
Qed.

(** [remove_common_divisor] terminates on all machine words that are not
    both zero, keeps the ratio and leaves coprime numbers, which is what its
    closing assertion checks. *)
Lemma remove_common_divisor_coprime p q :
  is_word p -> is_word q -> (p, q) <> (0, 0) ->
  exists p' q', remove_common_divisor p q = Some (p', q') /\
    p * q' = q * p' /\ greatest_common_divisor p' q' = Some 1.
Proof.
  intros Hp Hq H0. unfold remove_common_divisor.
  rewrite greatest_common_divisor_spec by assumption.
  exists (p / Z.gcd p q), (q / Z.gcd p q). split; [reflexivity|].
  assert (Hg : Z.gcd p q <> 0).
  { intros E. apply Z.gcd_eq_0 in E as [-> ->]. now apply H0. }
  pose proof (Z.gcd_nonneg p q).
  destruct (Z.gcd_divide_l p q) as [a Ha], (Z.gcd_divide_r p q) as [b Hb].
  assert (Ea : p / Z.gcd p q = a) by (rewrite Ha at 1; apply Z.div_mul, Hg).
  assert (Eb : q / Z.gcd p q = b) by (rewrite Hb at 1; apply Z.div_mul, Hg).
  split.
  - rewrite Ea, Eb, Ha at 1. rewrite Hb at 2. ring.
  - rewrite greatest_common_divisor_spec.
    + f_equal. apply Z.gcd_div_gcd; auto.
    + apply word_div; [exact Hp|lia].
    + apply word_div; [exact Hq|lia].
Qed.

End Digits.

(** ** The class [big_natural_number] *)

Module Big.

(** [std::vector<std::size_t> m_number], least significant digit first. *)
Definition big_natural_number : Type := list Z.

(** [for( ; m_number.size()>0 && m_number.back()==0 ; ) m_number.pop_back();]:
    on the reversed vector the loop drops a prefix of zeros. *)
Fixpoint drop_leading_zeros (digits : list Z) : list Z :=
  match digits with
  | d :: rest => if d =? 0 then drop_leading_zeros rest else digits
  | [] => []
  end.

Definition remove_significant_digits_that_are_zero (n : big_natural_number)
  : big_natural_number :=
  reverse (drop_leading_zeros (reverse n)).

(** The condition asserted by [is_well_defined]. *)
Definition is_well_defined (n : big_natural_number) : bool :=
  match last n with
  | None => true
  | Some d => negb (d =? 0)
  end.

(** The loop of [multiply_by] over the digits, with its final carry. *)
Fixpoint multiply_digits (digits : list Z) (n carry : Z) : list Z * Z :=
  match digits with
  | [] => ([], carry)
  | i :: rest =>
      let '(i', carry') := multiply_single_number i n carry in
      let '(rest', carry'') := multiply_digits rest n carry' in
      (i' :: rest', carry'')
  end.

Definition multiply_by (this : big_natural_number) (n carry : Z) : big_natural_number :=
  let '(digits, carry) := multiply_digits this n carry in
  remove_significant_digits_that_are_zero
    (if carry =? 0 then digits else digits ++ [carry]).

(** [big_natural_number(const std::size_t n)] *)
Definition of_size_t (n : Z) : big_natural_number := if n >? 0 then [n] else [].

(** The code of a character, and [isdigit]. *)
Definition char_code (c : ascii) : Z := Z.of_nat (nat_of_ascii c).

Definition isdigit (c : ascii) : bool := (48 <=? char_code c) && (char_code c <=? 57).

(** The loop of the constructor from a string; [s] is the whole string, for
    the message of the exception. *)
Fixpoint parse_digits (s : string) (rest : string) (this : big_natural_number)
  : outcome big_natural_number :=
  match rest with
  | EmptyString => Returns this
  | String c rest =>
      if negb (isdigit c)
      then Throws ("Number " +:+ s +:+ " contains symbol '" +:+ String c ""
                     +:+ "' which is not a digit.")
      else parse_digits s rest
             (if char_code c >=? 48
              then multiply_by this 10 (wrap (char_code c - 48)) else this)
  end.

(** [big_natural_number(const std::string& s)] *)
Definition of_string (s : string) : outcome big_natural_number := parse_digits s s [].

Definition push_back (this : big_natural_number) (n : Z) : big_natural_number := this ++ [n].

Definition is_zero (this : big_natural_number) : bool :=
  Nat.eqb (length this) 0.

Definition is_number (this : big_natural_number) (n : Z) : bool :=
  if n =? 0 then Nat.eqb (length this) 0
  else match this with
       | [d] => d =? n
       | _ => false
       end.

Definition clear (this : big_natural_number) : big_natural_number := [].

(** [explicit operator std::size_t() const] *)
Definition to_size_t (this : big_natural_number) : outcome Z :=
  match this with
  | [] => Returns 0
  | [d] => Returns d
  | _ => Throws ("It is not possible to transform a big natural number into a machine "
                   +:+ "size number if it does not fit.")
  end.

Definition size (this : big_natural_number) : nat := length this.

(** [operator[]]; [m_number.at(n)] throws outside the vector. *)
Definition digit (this : big_natural_number) (n : nat) : outcome Z :=
  match this !! n with
  | Some d => Returns d
  | None => Throws "vector::_M_range_check"
  end.

Fixpoint digits_eqb (x y : list Z) : bool :=
  match x, y with
  | [], [] => true
  | a :: x, b :: y => (a =? b) && digits_eqb x y
  | _, _ => false
  end.

(** [operator==] and [operator!=] *)
Definition eqb (this other : big_natural_number) : bool := digits_eqb this other.
Definition neqb (this other : big_natural_number) : bool := negb (eqb this other).

(** The loop of [operator<] from the most significant digit down. *)
Fixpoint less_digits (i j : list Z) : bool :=
  match i, j with
  | a :: i, b :: j => if a <? b then true else if a >? b then false else less_digits i j
  | _, _ => false
  end.

Definition ltb (this other : big_natural_number) : bool :=
  if (length this <? length other)%nat then true
  else if (length other <? length this)%nat then false
  else less_digits (reverse this) (reverse other).

Definition gtb (this other : big_natural_number) : bool := ltb other this.
Definition leb (this other : big_natural_number) : bool := negb (gtb this other).
Definition geb (this other : big_natural_number) : bool := leb other this.

(** The loop of [divide_by]: it visits the digits from the most significant
    one down, here as a list in that order. *)
Fixpoint divide_digits (digits : list Z) (n remainder : Z) : list Z * Z :=
  match digits with
  | [] => ([], remainder)
  | i :: rest =>
      let '(i', remainder') := divide_single_number i n remainder in
      let '(rest', remainder'') := divide_digits rest n remainder' in
      (i' :: rest', remainder'')
  end.

(** The new value of the number and the returned remainder. *)
Definition divide_by (this : big_natural_number) (n : Z) : big_natural_number * Z :=
  let '(digits, remainder) := divide_digits (reverse this) n 0 in
  (remove_significant_digits_that_are_zero (reverse digits), remainder).

(** The loop of [add], from the current index on, with the digits of [this] and
    [other] that remain: first the two cases where one of the numbers is
    exhausted, with the digit pushed for the last carry. *)
Fixpoint add_digits_other (other : list Z) (carry : Z) : list Z :=
  match other with
  | [] => if carry >? 0 then [carry] else []
  | b :: other =>
      let '(d, carry) := add_single_number 0 b carry in d :: add_digits_other other carry
  end.

Fixpoint add_digits_this (this : list Z) (carry : Z) : list Z :=
  match this with
  | [] => if carry >? 0 then [carry] else []
  | a :: this =>
      let '(d, carry) := add_single_number a 0 carry in d :: add_digits_this this carry
  end.

Fixpoint add_digits (this other : list Z) (carry : Z) : list Z :=
  match this, other with
  | [], _ => add_digits_other other carry
  | _, [] => add_digits_this this carry
  | a :: this, b :: other =>
      let '(d, carry) := add_single_number a b carry in d :: add_digits this other carry
  end.

Definition add (this other : big_natural_number) : big_natural_number :=
  add_digits this other 0.

(** [operator+] *)
Definition plus (this other : big_natural_number) : big_natural_number := add this other.

(** The loop of [subtract]; it runs over all digits of [this], which has at
    least as many digits as [other]. *)
Fixpoint subtract_digits (this other : list Z) (carry : Z) : list Z * Z :=
  match this with
  | [] => ([], carry)
  | a :: this =>
      let '(b, other') := match other with [] => (0, []) | b :: other' => (b, other') end in
      let '(d, carry) := subtract_single_number a b carry in
      let '(rest, carry) := subtract_digits this other' carry in
      (d :: rest, carry)
  end.

(** [operator<<] and [pp]: repeated division by ten; [fuel] bounds the number
    of iterations of [for( ; !n.is_zero() ; )].  The characters are produced
    least significant first. *)
Definition digit_char (remainder : Z) : ascii := ascii_of_nat (Z.to_nat (48 + remainder)).

Fixpoint print_digits (fuel : nat) (n : big_natural_number) (s : string) : option string :=
  match fuel with
  | O => None
  | S fuel =>
      if is_zero n then Some s
      else let '(n, remainder) := divide_by n 10 in
           print_digits fuel n (String (digit_char remainder) s)
  end.

(** A digit of 64 bits has at most twenty decimal digits. *)
Definition pp (l : big_natural_number) : option string :=
  match print_digits (S (20 * length l)) l "" with
  | Some EmptyString => Some "0"
  | s => s
  end.

Definition pp_or_empty (l : big_natural_number) : string := default "" (pp l).

(** [subtract]: the value left in [this], and the message when the exception is
    thrown.  In the second case [this] has already been overwritten. *)
Definition subtract (this other : big_natural_number)
  : big_natural_number * option string :=
  if (length this <? length other)%nat
  then (this, Some ("Subtracting numbers " +:+ pp_or_empty this +:+ " and "
          +:+ pp_or_empty other +:+ " yields a non representable negative result (1)."))
  else
    let '(digits, carry) := subtract_digits this other 0 in
    if carry >? 0
    then (digits, Some ("Subtracting numbers " +:+ pp_or_empty digits +:+ " and "
            +:+ pp_or_empty other +:+ " yields a non representable negative result (2)."))
    else (remove_significant_digits_that_are_zero digits, None).

(** [operator-] *)
Definition minus (this other : big_natural_number) : outcome big_natural_number :=
  match subtract this other with
  | (result, None) => Returns result
  | (_, Some message) => Throws message
  end.

(** [multiply]: one iteration of the loop over the digits of [other] ... *)
Definition multiply_step (this : big_natural_number)
    (state : nat * big_natural_number * big_natural_number) (d : Z)
  : nat * big_natural_number * big_natural_number :=
  let '(offset, result, _) := state in
  let buffer := multiply_by (replicate offset 0 ++ this) d 0 in
  (S offset, add result buffer, buffer).

(** ... and the whole loop: the new values of [result] and of
    [calculation_buffer_for_multiplicand]. *)
Definition multiply (this other result buffer : big_natural_number)
  : big_natural_number * big_natural_number :=
  let '(_, result, buffer) := foldl (multiply_step this) (0%nat, result, buffer) other in
  (result, buffer).

(** [operator*] *)
Definition times (this other : big_natural_number) : big_natural_number :=
  fst (multiply this other [] []).

(** The bitwise loop of [div_mod] on [result], [remainder] and
    [calculation_buffer_divisor]. *)
Fixpoint div_mod_loop (iterations : nat) (result remainder divisor : big_natural_number)
  : outcome (big_natural_number * big_natural_number * big_natural_number) :=
  match iterations with
  | O => Returns (result, remainder, divisor)
  | S iterations =>
      let! (result, remainder) :=
        (if ltb remainder divisor
         then Returns (multiply_by result 2 0, remainder)
         else match subtract remainder divisor with
              | (remainder, None) => Returns (multiply_by result 2 1, remainder)
              | (_, Some message) => Throws message
              end) in
      div_mod_loop iterations result remainder (fst (divide_by divisor 2))
  end.

(** [div_mod]: the new values of [result], [remainder] and
    [calculation_buffer_divisor]. *)
Definition div_mod (this other buffer : big_natural_number)
  : outcome (big_natural_number * big_natural_number * big_natural_number) :=
  match this, other with
  | [a], [b] =>
      let d := a / b in
      let m := a mod b in
      Returns ((if d =? 0 then [] else [d]), (if m =? 0 then [] else [m]), buffer)
  | _, _ =>
      if (length this <? length other)%nat then Returns ([], this, buffer)
      else
        let k := (1 + length this - length other)%nat in
        let divisor :=
          remove_significant_digits_that_are_zero (replicate k 0 ++ other) in
        let! (result, remainder, divisor) :=
          div_mod_loop (Z.to_nat no_of_bits_per_digit *
                        (length this - length other + 1) + 1)%nat [] this divisor in
        Returns (remove_significant_digits_that_are_zero result, remainder, divisor)
  end.

(** [operator/] *)
Definition divide (this other : big_natural_number) : outcome big_natural_number :=
  if is_zero other then Throws "Division by zero."
  else if is_zero this then Returns this
  else match this, other with
       | [a], [b] => Returns (of_size_t (a / b))
       | _, _ => let! (result, _, _) := div_mod this other [] in Returns result
       end.

(** [operator%] *)
Definition modulo (this other : big_natural_number) : outcome big_natural_number :=
  if is_zero other || is_zero this then Returns this
  else match this, other with
       | [a], [b] => Returns (of_size_t (a mod b))
       | _, _ => let! (_, remainder, _) := div_mod this other [] in Returns remainder
       end.

(** *** Meaning and invariant *)

Definition value (n : big_natural_number) : Z :=
  foldr (fun d v => d + word_modulus * v) 0 n.

(** The invariant of the class: machine-word digits, and no most significant
    digit that is zero. *)
Definition well_defined (n : big_natural_number) : Prop :=
  Forall is_word n /\ is_well_defined n = true.

Lemma value_cons d n : value (d :: n) = d + word_modulus * value n.
Proof. reflexivity. Qed.

Lemma value_nil : value [] = 0.
Proof. reflexivity. Qed.

Lemma value_app x y :
  value (x ++ y) = value x + word_modulus ^ Z.of_nat (length x) * value y.
Proof.
  induction x as [|d x IH]; [change (value y = 0 + 1 * value y); ring|].
  rewrite length_cons, Nat2Z.inj_succ, Z.pow_succ_r by lia.
  cbn [app value foldr] in *. fold (value (x ++ y)). fold (value x).
  unfold value in *. rewrite IH. ring.
Qed.

Lemma value_zeros k : value (replicate k 0) = 0.
Proof. induction k; cbn in *; unfold value in *; lia. Qed.

Lemma pow_modulus_pos n : 0 < word_modulus ^ Z.of_nat n.
Proof. apply Z.pow_pos_nonneg; [reflexivity|lia]. Qed.

Lemma pow_modulus_succ n :
  word_modulus ^ Z.of_nat (S n) = word_modulus * word_modulus ^ Z.of_nat n.
Proof. rewrite Nat2Z.inj_succ. apply Z.pow_succ_r. lia. Qed.

Lemma value_bound n :
  Forall is_word n -> 0 <= value n < word_modulus ^ Z.of_nat (length n).
Proof.
  induction 1 as [|d n Hd _ IH]; [cbn; lia|].
  rewrite length_cons, pow_modulus_succ. cbn [value foldr]. fold (value n).
  unfold is_word in Hd. nia.
Qed.

Lemma well_defined_lower n :
  well_defined n -> n <> [] -> word_modulus ^ Z.of_nat (length n - 1) <= value n.
Proof.
  intros [Hd Hw] Hn. unfold is_well_defined in Hw.
  destruct (last n) as [d|] eqn:E; [|by apply last_None in E].
  apply last_Some in E as [m ->]. rewrite value_app, length_app. cbn [length].
  replace (length m + 1 - 1)%nat with (length m) by lia.
  apply Forall_app in Hd as [Hm Hd]. rewrite Forall_singleton in Hd.
  pose proof (value_bound m Hm). pose proof (pow_modulus_pos (length m)).
  destruct (Z.eqb_spec d 0); [done|]. change (value [d]) with (d + word_modulus * 0).
  unfold is_word in Hd. nia.
Qed.

Lemma drop_leading_zeros_spec l :
  exists k, l = replicate k 0 ++ drop_leading_zeros l /\
            head (drop_leading_zeros l) <> Some 0.
Proof.
  induction l as [|d l (k & IH & Hh)]; [by exists 0%nat|]. cbn.
  destruct (Z.eqb_spec d 0) as [->|Hd].
  - exists (S k). split; [cbn; by f_equal|exact Hh].
  - exists 0%nat. split; [done|]. cbn. congruence.
Qed.

Lemma remove_spec n :
  exists k, n = remove_significant_digits_that_are_zero n ++ replicate k 0 /\
            is_well_defined (remove_significant_digits_that_are_zero n) = true.
Proof.
  destruct (drop_leading_zeros_spec (reverse n)) as (k & E & Hh). exists k. split.
  - apply (f_equal reverse) in E. rewrite reverse_involutive, reverse_app in E.
    by rewrite reverse_replicate in E.
  - unfold is_well_defined, remove_significant_digits_that_are_zero.
    rewrite last_reverse. destruct (head _) as [d|] eqn:Eh; [|done].
    destruct (Z.eqb_spec d 0); [congruence|done].
Qed.

Lemma remove_value n : value (remove_significant_digits_that_are_zero n) = value n.
Proof.
  destruct (remove_spec n) as (k & E & _). rewrite E at 2.
  rewrite value_app, value_zeros. lia.
Qed.

Lemma remove_well_defined n :
  Forall is_word n -> well_defined (remove_significant_digits_that_are_zero n).
Proof.
  intros Hn. destruct (remove_spec n) as (k & E & Hw). split; [|exact Hw].
  rewrite E in Hn. by apply Forall_app in Hn as [? _].
Qed.

Lemma well_defined_nil : well_defined [].
Proof. by split. Qed.

Lemma is_word_1 : is_word 1.
Proof. word_lia. Qed.

Lemma is_word_0 : is_word 0.
Proof. word_lia. Qed.

#[local] Hint Resolve well_defined_nil is_word_0 is_word_1 remove_well_defined : words.

(** *** Multiplication of a number by a digit *)

Lemma multiply_digits_spec l n c :
  Forall is_word l -> is_word n -> is_word c ->
  let '(l', c') := multiply_digits l n c in
  value l' + word_modulus ^ Z.of_nat (length l) * c' = value l * n + c /\
  length l' = length l /\ Forall is_word l' /\ is_word c'.
Proof.
  intros Hl Hn. revert c. induction Hl as [|d l Hd _ IH]; intros c Hc.
  { cbn. repeat split; auto; try lia; apply Hc. }
  cbn [multiply_digits].
  pose proof (multiply_single_number_spec d n c Hd Hn Hc) as Hs.
  destruct (multiply_single_number d n c) as [d' c1]. destruct Hs as (Es & Hd' & Hc1).
  specialize (IH c1 Hc1). destruct (multiply_digits l n c1) as [l' c2].
  destruct IH as (E & Hlen & Hl' & Hc2).
  split; [|split; [cbn; lia|split; [by constructor|exact Hc2]]].
  rewrite length_cons, pow_modulus_succ. cbn [value foldr].
  fold (value l'). fold (value l). nia.
Qed.

Lemma multiply_by_spec l n c :
  Forall is_word l -> is_word n -> is_word c ->
  value (multiply_by l n c) = value l * n + c /\ well_defined (multiply_by l n c).
Proof.
  intros Hl Hn Hc. unfold multiply_by.
  pose proof (multiply_digits_spec l n c Hl Hn Hc) as Hs.
  destruct (multiply_digits l n c) as [l' c']. destruct Hs as (E & Hlen & Hl' & Hc').
  rewrite remove_value. destruct (Z.eqb_spec c' 0) as [->|Hne].
  - split; [lia|auto with words].
  - rewrite value_app, Hlen. cbn [value foldr]. split; [lia|].
    apply remove_well_defined, Forall_app. auto.
Qed.

(** *** Addition *)

(** What each of the addition loops produces: [l] digits, and the last carry
    pushed behind them when it is not zero. *)
Definition sum_with_carry (r : list Z) (len : nat) (total : Z) : Prop :=
  exists l c, r = l ++ (if c >? 0 then [c] else []) /\ length l = len /\
    Forall is_word l /\ is_carry c /\
    value l + word_modulus ^ Z.of_nat len * c = total.

Lemma sum_with_carry_nil c :
  is_carry c -> sum_with_carry (if c >? 0 then [c] else []) 0 c.
Proof. intros Hc. exists [], c. repeat split; auto. cbn. lia. Qed.

Lemma sum_with_carry_cons d r len total a b c c' :
  is_word d -> d + word_modulus * c' = a + b + c ->
  sum_with_carry r len (total + c') ->
  sum_with_carry (d :: r) (S len) (a + b + word_modulus * total + c).
Proof.
  intros Hd Ed (l & c1 & -> & Hlen & Hl & Hc1 & E). exists (d :: l), c1.
  split; [done|]. split; [cbn; lia|]. split; [by constructor|]. split; [done|].
  rewrite pow_modulus_succ. cbn [value foldr]. fold (value l). nia.
Qed.

Lemma add_digits_other_spec y c :
  Forall is_word y -> is_carry c ->
  sum_with_carry (add_digits_other y c) (length y) (value y + c).
Proof.
  intros Hy. revert c. induction Hy as [|b y Hb _ IH]; intros c Hc.
  { by apply sum_with_carry_nil. }
  cbn [add_digits_other]. destruct (add_single_number 0 b c) as [d c'] eqn:E.
  apply add_single_number_spec in E as (E & Hd & Hc'); auto with words.
  replace (value (b :: y) + c) with (0 + b + word_modulus * value y + c)
    by (rewrite value_cons; lia).
  by apply (sum_with_carry_cons _ _ _ _ _ _ _ _ Hd E), IH.
Qed.

Lemma add_digits_this_spec x c :
  Forall is_word x -> is_carry c ->
  sum_with_carry (add_digits_this x c) (length x) (value x + c).
Proof.
  intros Hx. revert c. induction Hx as [|a x Ha _ IH]; intros c Hc.
  { by apply sum_with_carry_nil. }
  cbn [add_digits_this]. destruct (add_single_number a 0 c) as [d c'] eqn:E.
  apply add_single_number_spec in E as (E & Hd & Hc'); auto with words.
  replace (value (a :: x) + c) with (a + 0 + word_modulus * value x + c)
    by (rewrite value_cons; lia).
  by apply (sum_with_carry_cons _ _ _ _ _ _ _ _ Hd E), IH.
Qed.

Lemma add_digits_spec x y c :
  Forall is_word x -> Forall is_word y -> is_carry c ->
  sum_with_carry (add_digits x y c) (length x `max` length y) (value x + value y + c).
Proof.
  intros Hx. revert y c. induction Hx as [|a x Ha Hx IH]; intros y c Hy Hc.
  { cbn [add_digits length Nat.max]. apply add_digits_other_spec; auto. }
  destruct Hy as [|b y Hb Hy].
  { change (add_digits (a :: x) [] c) with (add_digits_this (a :: x) c).
    replace (value (a :: x) + value [] + c) with (value (a :: x) + c)
      by (rewrite value_nil; lia).
    apply add_digits_this_spec; auto. }
  cbn [add_digits]. destruct (add_single_number a b c) as [d c'] eqn:E.
  apply add_single_number_spec in E as (E & Hd & Hc'); auto.
  replace (value (a :: x) + value (b :: y) + c)
    with (a + b + word_modulus * (value x + value y) + c)
    by (rewrite !value_cons; lia).
  by apply (sum_with_carry_cons _ _ _ _ _ _ _ _ Hd E), IH.
Qed.

Lemma well_defined_of_bound l :
  Forall is_word l -> (l <> [] -> word_modulus ^ Z.of_nat (length l - 1) <= value l) ->
  well_defined l.
Proof.
  intros Hl Hb. split; [exact Hl|]. unfold is_well_defined.
  destruct (last l) as [d|] eqn:E; [|done].
  apply last_Some in E as [m ->]. destruct (Z.eqb_spec d 0) as [->|]; [|done].
  rewrite value_app, length_app in Hb. cbn [length] in Hb.
  replace (length m + 1 - 1)%nat with (length m) in Hb by lia.
  apply Forall_app in Hl as [Hm _]. pose proof (value_bound m Hm).
  specialize (Hb ltac:(by destruct m)). change (value [0]) with 0 in Hb. lia.
Qed.

Lemma add_value x y :
  Forall is_word x -> Forall is_word y -> value (add x y) = value x + value y.
Proof.
  intros Hx Hy. unfold add.
  destruct (add_digits_spec x y 0 Hx Hy) as (l & c & -> & Hlen & Hl & Hc & E); [by left|].
  rewrite value_app, Hlen. unfold is_carry in Hc.
  destruct Hc as [->| ->]; cbn [Z.gtb Z.compare];
    rewrite ?value_cons, value_nil; lia.
Qed.

Lemma add_well_defined x y :
  well_defined x -> well_defined y -> well_defined (add x y).
Proof.
  intros Hx Hy. pose proof (add_value x y (proj1 Hx) (proj1 Hy)) as Ev. revert Ev.
  unfold add.
  destruct (add_digits_spec x y 0 (proj1 Hx) (proj1 Hy))
    as (l & c & -> & Hlen & Hl & [->| ->] & E); [by left|..];
    cbn [Z.gtb Z.compare]; rewrite ?app_nil_r; intros Ev.
  - apply well_defined_of_bound; [exact Hl|]. intros Hne. rewrite Ev, Hlen.
    pose proof (value_bound x (proj1 Hx)). pose proof (value_bound y (proj1 Hy)).
    destruct (Nat.max_spec (length x) (length y)) as [[? ->]|[? ->]].
    + assert (Hy0 : y <> []) by (intros ->; cbn in *; lia).
      pose proof (well_defined_lower y Hy Hy0). lia.
    + assert (Hx0 : x <> []) by (intros ->; destruct l; cbn in *; [done|lia]).
      pose proof (well_defined_lower x Hx Hx0). lia.
  - split; [apply Forall_app; auto with words|]. unfold is_well_defined. by rewrite last_snoc.
Qed.

Lemma add_spec x y :
  well_defined x -> well_defined y ->
  value (add x y) = value x + value y /\ well_defined (add x y).
Proof.
  intros Hx Hy. split; [apply add_value; [apply Hx|apply Hy]|by apply add_well_defined].
Qed.

(** C4: addition of big numbers is addition of their values, and the result
    again satisfies the class invariant (no leading zero digit, all digits
    64-bit), whatever the number of digits and carries. *)
Theorem add_correct x y :
  well_defined x -> well_defined y ->
  value (add x y) = value x + value y /\ well_defined (add x y).
Proof. apply add_spec. Qed.

(** *** Comparison *)

Lemma value_snoc x d : value (x ++ [d]) = value x + word_modulus ^ Z.of_nat (length x) * d.
Proof. rewrite value_app, value_cons, value_nil. lia. Qed.

Lemma less_digits_spec i j :
  Forall is_word i -> Forall is_word j -> length i = length j ->
  less_digits i j = true <-> value (reverse i) < value (reverse j).
Proof.
  intros Hi. revert j. induction Hi as [|a i Ha Hi IH]; intros j Hj Hlen.
  { destruct j; [cbn; split; [done|lia]|done]. }
  destruct Hj as [|b j Hb Hj]; [done|]. injection Hlen as Hlen.
  rewrite !reverse_cons, !value_snoc, !length_reverse, <- Hlen.
  pose proof (value_bound (reverse i)) as Bi. pose proof (value_bound (reverse j)) as Bj.
  rewrite length_reverse, Forall_reverse in Bi, Bj. rewrite <- Hlen in Bj.
  specialize (Bi Hi). specialize (Bj Hj). specialize (IH j Hj Hlen).
  cbn [less_digits]. destruct (Z.ltb_spec a b); [split; [nia|done]|].
  destruct (Z.gtb_spec a b); [split; [done|nia]|].
  assert (a = b) as -> by lia. rewrite IH. lia.
Qed.

Lemma shorter_is_less x y :
  well_defined x -> well_defined y -> (length x < length y)%nat -> value x < value y.
Proof.
  intros Hx Hy Hlen. pose proof (value_bound x (proj1 Hx)) as Bx.
  assert (Hy0 : y <> []) by (intros ->; cbn in *; lia).
  pose proof (well_defined_lower y Hy Hy0) as By.
  pose proof (Z.pow_le_mono_r word_modulus (Z.of_nat (length x)) (Z.of_nat (length y - 1))
    ltac:(reflexivity) ltac:(lia)). lia.
Qed.

Lemma ltb_spec x y :
  well_defined x -> well_defined y -> ltb x y = true <-> value x < value y.
Proof.
  intros Hx Hy. unfold ltb.
  destruct (Nat.ltb_spec (length x) (length y)).
  { split; [intros _; by apply shorter_is_less|done]. }
  destruct (Nat.ltb_spec (length y) (length x)).
  { pose proof (shorter_is_less y x Hy Hx ltac:(lia)). split; [done|lia]. }
  rewrite less_digits_spec, !reverse_involutive; [done|..].
  - apply Forall_reverse, Hx.
  - apply Forall_reverse, Hy.
  - rewrite !length_reverse. lia.
Qed.

Lemma ltb_reflect x y :
  well_defined x -> well_defined y -> BoolSpec (value x < value y) (value y <= value x) (ltb x y).
Proof.
  intros Hx Hy. pose proof (ltb_spec x y Hx Hy) as H.
  destruct (ltb x y); constructor; [by apply H|].
  destruct (Z.lt_ge_cases (value x) (value y)) as [Hlt|]; [|lia]. by apply H in Hlt.
Qed.

Lemma same_length_value_inj x y :
  Forall is_word x -> Forall is_word y -> length x = length y -> value x = value y -> x = y.
Proof.
  intros Hx. revert y. induction Hx as [|a x Ha Hx IH]; intros y Hy Hlen E.
  { by destruct y. }
  destruct Hy as [|b y Hb Hy]; [done|]. injection Hlen as Hlen.
  rewrite !value_cons in E. unfold is_word in *.
  assert (value x = value y) by nia. f_equal; [lia|by apply IH].
Qed.

Lemma well_defined_unique x y :
  well_defined x -> well_defined y -> value x = value y -> x = y.
Proof.
  intros Hx Hy E. apply same_length_value_inj; [apply Hx|apply Hy| |done].
  destruct (Nat.lt_total (length x) (length y)) as [H|[H|H]]; [|done|].
  - pose proof (shorter_is_less x y Hx Hy H). lia.
  - pose proof (shorter_is_less y x Hy Hx H). lia.
Qed.

Lemma digits_eqb_eq x y : digits_eqb x y = true <-> x = y.
Proof.
  revert y. induction x as [|a x IH]; intros [|b y]; cbn; try (split; congruence).
  rewrite andb_true_iff, Z.eqb_eq, IH. split; [intros [-> ->]; done|intros [= -> ->]; done].
Qed.

(** Representations are unique and the comparison operators decide the
    order of the values: [==] holds exactly for equal values, [<] exactly for
    a smaller value, and [<=], [>], [>=] follow. *)
Lemma comparison_correct x y :
  well_defined x -> well_defined y ->
  (eqb x y = true <-> value x = value y) /\
  (ltb x y = true <-> value x < value y) /\
  (leb x y = true <-> value x <= value y) /\
  (gtb x y = true <-> value x > value y) /\
  (geb x y = true <-> value x >= value y).
Proof.
  intros Hx Hy. unfold geb, leb, gtb, eqb. rewrite digits_eqb_eq.
  destruct (ltb_reflect x y Hx Hy), (ltb_reflect y x Hy Hx); repeat split; cbn;
    try done; try lia; intros; try congruence; by apply well_defined_unique.
Qed.

(** *** Subtraction *)

Lemma subtract_digits_spec x y c :
  Forall is_word x -> Forall is_word y -> is_carry c -> (length y <= length x)%nat ->
  let '(d, c') := subtract_digits x y c in
  value d - word_modulus ^ Z.of_nat (length x) * c' = value x - value y - c /\
  length d = length x /\ Forall is_word d /\ is_carry c'.
Proof.
  intros Hx. revert y c. induction Hx as [|a x Ha Hx IH]; intros y c Hy Hc Hlen.
  { destruct y; [|cbn in Hlen; lia]. cbn. repeat split; auto; lia. }
  cbn [subtract_digits].
  destruct (match y with [] => (0, []) | b :: y' => (b, y') end) as [b y'] eqn:Ey.
  assert (Hby : is_word b /\ Forall is_word y' /\ value y = b + word_modulus * value y' /\
    (length y' <= length x)%nat).
  { destruct Hy as [|b0 y0 Hb0 Hy0]; injection Ey as <- <-; cbn in Hlen;
      repeat split; auto with words; try apply Hb0; cbn; lia. }
  destruct Hby as (Hb & Hy' & Ev & Hlen').
  destruct (subtract_single_number a b c) as [d c1] eqn:E.
  apply subtract_single_number_spec in E as (E & Hd & Hc1); auto.
  specialize (IH y' c1 Hy' Hc1 Hlen'). destruct (subtract_digits x y' c1) as [l c2].
  destruct IH as (E' & Hl & Hw & Hc2).
  split; [|split; [cbn; lia|split; [by constructor|done]]].
  rewrite length_cons, pow_modulus_succ, !value_cons, Ev. nia.
Qed.

Lemma subtract_spec x y :
  well_defined x -> well_defined y -> value y <= value x ->
  exists r, subtract x y = (r, None) /\ value r = value x - value y /\ well_defined r.
Proof.
  intros Hx Hy Hle. unfold subtract.
  destruct (Nat.ltb_spec (length x) (length y)) as [Hl|Hl].
  { pose proof (shorter_is_less x y Hx Hy Hl). lia. }
  pose proof (subtract_digits_spec x y 0 (proj1 Hx) (proj1 Hy) ltac:(by left) Hl) as Hs.
  destruct (subtract_digits x y 0) as [d c]. destruct Hs as (E & Hlen & Hd & Hc).
  pose proof (value_bound d Hd). rewrite Hlen in *.
  destruct Hc as [->| ->]; [|lia]. cbn [Z.gtb Z.compare].
  eexists. split; [done|]. rewrite remove_value. split; [lia|auto with words].
Qed.

Lemma subtract_throws x y :
  well_defined x -> well_defined y -> value x < value y ->
  exists r message, subtract x y = (r, Some message).
Proof.
  intros Hx Hy Hlt. unfold subtract.
  destruct (Nat.ltb_spec (length x) (length y)) as [Hl|Hl]; [eauto|].
  pose proof (subtract_digits_spec x y 0 (proj1 Hx) (proj1 Hy) ltac:(by left) Hl) as Hs.
  destruct (subtract_digits x y 0) as [d c]. destruct Hs as (E & Hlen & Hd & Hc).
  pose proof (value_bound d Hd). destruct Hc as [->| ->]; [lia|]. cbn [Z.gtb Z.compare]. eauto.
Qed.

(** [operator-] returns the difference of the values, in normal form, when
    the difference is not negative, and throws otherwise. *)
Lemma minus_correct x y :
  well_defined x -> well_defined y ->
  match minus x y with
  | Returns r => value y <= value x /\ value r = value x - value y /\ well_defined r
  | Throws _ => value x < value y
  end.
Proof.
  intros Hx Hy. unfold minus.
  destruct (Z.le_gt_cases (value y) (value x)) as [Hle|Hlt].
  - destruct (subtract_spec x y Hx Hy Hle) as (r & -> & ? & ?). auto.
  - destruct (subtract_throws x y Hx Hy ltac:(lia)) as (r & m & ->). lia.
Qed.

(** *** Multiplication *)

Lemma multiply_loop_spec x y offset result buffer :
  Forall is_word x -> Forall is_word y -> well_defined result ->
  let '(_, r, _) := foldl (multiply_step x) (offset, result, buffer) y in
  value r = value result + value x * (word_modulus ^ Z.of_nat offset * value y) /\
  well_defined r.
Proof.
  intros Hx Hy. revert offset result buffer.
  induction Hy as [|d y Hd Hy IH]; intros offset result buffer Hr.
  { cbn [foldl]. rewrite value_nil. split; [lia|done]. }
  cbn [foldl multiply_step].
  destruct (multiply_by_spec (replicate offset 0 ++ x) d 0) as [Em Hm]; auto with words.
  { apply Forall_app. split; [apply Forall_replicate; auto with words|exact Hx]. }
  rewrite value_app, value_zeros, length_replicate in Em.
  pose proof (add_spec result _ Hr Hm) as [Ea Ha].
  specialize (IH (S offset) _ (multiply_by (replicate offset 0 ++ x) d 0) Ha).
  destruct (foldl _ _ _) as [[? r] ?]. destruct IH as [E Hw]. split; [|exact Hw].
  rewrite E, Ea, Em, pow_modulus_succ, value_cons. ring.
Qed.

Lemma times_spec x y :
  well_defined x -> well_defined y ->
  value (times x y) = value x * value y /\ well_defined (times x y).
Proof.
  intros [Hx _] [Hy _]. unfold times, multiply.
  pose proof (multiply_loop_spec x y 0 [] [] Hx Hy well_defined_nil) as H.
  destruct (foldl _ _ _) as [[? r] ?]. destruct H as [E Hr]. cbn [fst].
  split; [|exact Hr]. rewrite E, value_nil. change (word_modulus ^ Z.of_nat 0) with 1. ring.
Qed.

(** [multiply] adds the product of the two numbers to the accumulator
    [result] that is passed in and keeps it in normal form, whatever the old
    contents of the calculation buffer (so with a cleared [result] it is the
    product, as [operator*] uses it). *)
Lemma multiply_correct x y result buffer :
  well_defined x -> well_defined y -> well_defined result ->
  let '(r, _) := multiply x y result buffer in
  value r = value x * value y + value result /\ well_defined r.
Proof.
  intros [Hx _] [Hy _] Hr. unfold multiply.
  pose proof (multiply_loop_spec x y 0 result buffer Hx Hy Hr) as H.
  destruct (foldl _ _ _) as [[? r] ?]. destruct H as [E Hw].
  split; [|exact Hw]. rewrite E. change (word_modulus ^ Z.of_nat 0) with 1. ring.
Qed.

(** *** Division by a digit *)

Lemma divide_digits_spec l n r :
  Forall is_word l -> 0 < n <= 4294967296 -> 0 <= r < n ->
  let '(l', r') := divide_digits l n r in
  r * word_modulus ^ Z.of_nat (length l) + value (reverse l) = n * value (reverse l') + r' /\
  0 <= r' < n /\ length l' = length l /\ Forall is_word l'.
Proof.
  intros Hl Hn. revert r. induction Hl as [|d l Hd Hl IH]; intros r Hr.
  { cbn. repeat split; auto; lia. }
  cbn [divide_digits].
  destruct (divide_single_number_spec d n r Hd Hn Hr) as [-> Hw].
  set (t := r * word_modulus + d) in *.
  pose proof (Z.mod_pos_bound t n ltac:(lia)) as Hm.
  pose proof (Z.div_mod t n ltac:(lia)) as Et.
  specialize (IH (t mod n) Hm). destruct (divide_digits l n (t mod n)) as [l' r'].
  destruct IH as (E & Hr' & Hlen & Hl'). repeat split; try lia; [|cbn; lia|by constructor].
  rewrite !reverse_cons, !value_snoc, !length_reverse, length_cons, pow_modulus_succ, Hlen.
  set (P := word_modulus ^ Z.of_nat (length l)) in *.
  transitivity (P * t + value (reverse l)); [unfold t; ring|].
  rewrite Et at 1. lia.
Qed.

Lemma divide_by_spec x n :
  Forall is_word x -> 0 < n <= 4294967296 ->
  let '(q, r) := divide_by x n in
  value x = n * value q + r /\ 0 <= r < n /\ well_defined q.
Proof.
  intros Hx Hn. unfold divide_by.
  pose proof (divide_digits_spec (reverse x) n 0) as H.
  rewrite Forall_reverse in H. specialize (H Hx Hn ltac:(lia)).
  destruct (divide_digits (reverse x) n 0) as [l r]. destruct H as (E & Hr & _ & Hl).
  rewrite remove_value. rewrite reverse_involutive in E.
  split; [lia|]. split; [exact Hr|]. by apply remove_well_defined, Forall_reverse.
Qed.

Lemma divide_by_value x n :
  Forall is_word x -> 0 < n <= 4294967296 ->
  value (fst (divide_by x n)) = value x / n /\ well_defined (fst (divide_by x n)).
Proof.
  intros Hx Hn. pose proof (divide_by_spec x n Hx Hn) as H.
  destruct (divide_by x n) as [q r]. destruct H as (E & Hr & Hq). cbn [fst].
  split; [|exact Hq]. apply Z.div_unique_pos with r; lia.
Qed.

(** *** The general division *)

(** The invariant of the bitwise loop.  [d] iterations are still to be done;
    the divisor has been shifted [d - 1] bits. *)
Lemma div_mod_loop_spec d a b result remainder divisor :
  well_defined result -> well_defined remainder -> well_defined divisor ->
  0 < b -> value divisor = b * 2 ^ Z.of_nat d / 2 ->
  a = value result * (b * 2 ^ Z.of_nat d) + value remainder ->
  value remainder < b * 2 ^ Z.of_nat d ->
  exists q r buffer, div_mod_loop d result remainder divisor = Returns (q, r, buffer) /\
  a = value q * b + value r /\ value r < b /\ well_defined q /\ well_defined r.
Proof.
  intros Hq Hr Hd Hb. revert result remainder divisor Hq Hr Hd.
  induction d as [|d IH]; intros result remainder divisor Hq Hr Hd Ed Ea Hlt.
  { cbn in *. rewrite Z.mul_1_r in *. eauto 8. }
  rewrite Nat2Z.inj_succ, Z.pow_succ_r in * by lia. set (D := 2 ^ Z.of_nat d) in *.
  assert (HD : 0 < D) by (apply Z.pow_pos_nonneg; lia).
  replace (b * (2 * D)) with (b * D * 2) in Ed by ring. rewrite Z.div_mul in Ed by lia.
  destruct (divide_by_value divisor 2 (proj1 Hd) ltac:(lia)) as [Ev Hv].
  pose proof (value_bound remainder (proj1 Hr)) as Br.
  cbn [div_mod_loop]. rewrite Ed in Ev.
  destruct (ltb_reflect remainder divisor Hr Hd) as [Hc|Hc].
  - destruct (multiply_by_spec result 2 0 (proj1 Hq)) as [Em Hm]; [word_lia..|].
    apply IH; auto; [|lia]. rewrite Em. nia.
  - destruct (multiply_by_spec result 2 1 (proj1 Hq)) as [Em Hm]; [word_lia..|].
    destruct (subtract_spec remainder divisor Hr Hd Hc) as (r & -> & Er & Hr').
    apply IH; auto; [|lia]. rewrite Em, Er. nia.
Qed.

Lemma word_modulus_pow k : word_modulus ^ Z.of_nat k = 2 ^ Z.of_nat (64 * k).
Proof.
  unfold word_modulus, no_of_bits_per_digit. rewrite <- Z.pow_mul_r by lia. f_equal. lia.
Qed.

Lemma div_mod_long x y :
  well_defined x -> well_defined y -> y <> [] -> (length y <= length x)%nat ->
  let divisor :=
    remove_significant_digits_that_are_zero (replicate (1 + length x - length y) 0 ++ y) in
  exists q r buffer,
    div_mod_loop (Z.to_nat no_of_bits_per_digit * (length x - length y + 1) + 1)%nat
      [] x divisor = Returns (q, r, buffer) /\
  value x = value q * value y + value r /\ value r < value y /\
  well_defined q /\ well_defined r.
Proof.
  intros Hx Hy Hy0 Hlen divisor.
  pose proof (well_defined_lower y Hy Hy0) as Hl.
  pose proof (pow_modulus_pos (length y - 1)).
  pose proof (value_bound x (proj1 Hx)) as Bx.
  set (k := (length x - length y + 1)%nat).
  change (Z.to_nat no_of_bits_per_digit) with 64%nat.
  assert (Hdiv : value divisor = value y * 2 ^ Z.of_nat (64 * k + 1) / 2).
  { unfold divisor. rewrite remove_value, value_app, value_zeros, length_replicate.
    replace (1 + length x - length y)%nat with k by lia.
    rewrite word_modulus_pow, Nat2Z.inj_add, Z.pow_add_r by lia.
    change (2 ^ Z.of_nat 1) with 2. rewrite Z.mul_assoc, Z.div_mul by lia. ring. }
  apply div_mod_loop_spec; auto with words; [|lia|..].
  - apply remove_well_defined, Forall_app. split; [|apply Hy].
    apply Forall_replicate; auto with words.
  - rewrite Nat2Z.inj_add, Z.pow_add_r by lia. rewrite <- word_modulus_pow.
    change (2 ^ Z.of_nat 1) with 2.
    assert (word_modulus ^ Z.of_nat (length x) =
      word_modulus ^ Z.of_nat (length y - 1) * word_modulus ^ Z.of_nat k).
    { rewrite <- Z.pow_add_r by lia. f_equal. destruct y; [done|cbn in *; lia]. }
    pose proof (pow_modulus_pos k). nia.
Qed.

Lemma single_digit_well_defined n : is_word n -> well_defined (if n =? 0 then [] else [n]).
Proof.
  intros Hn. destruct (Z.eqb_spec n 0); [auto with words|].
  split; [auto|]. cbn. by destruct (Z.eqb_spec n 0).
Qed.

Lemma single_digit_value n : value (if n =? 0 then [] else [n]) = n.
Proof. destruct (Z.eqb_spec n 0); rewrite ?value_cons, value_nil; lia. Qed.

Lemma value_pos x : well_defined x -> x <> [] -> 0 < value x.
Proof.
  intros Hx H0. pose proof (well_defined_lower x Hx H0).
  pose proof (pow_modulus_pos (length x - 1)). lia.
Qed.

Lemma div_mod_spec x y buffer :
  well_defined x -> well_defined y -> y <> [] ->
  exists q r buffer', div_mod x y buffer = Returns (q, r, buffer') /\
  value x = value q * value y + value r /\ value r < value y /\
  well_defined q /\ well_defined r.
Proof.
  intros Hx Hy Hy0. pose proof (value_pos y Hy Hy0).
  assert (Hlong : exists q r buffer',
      (if (length x <? length y)%nat then Returns ([], x, buffer)
       else
        let k := (1 + length x - length y)%nat in
        let divisor := remove_significant_digits_that_are_zero (replicate k 0 ++ y) in
        let! (result, remainder, divisor) :=
          div_mod_loop (Z.to_nat no_of_bits_per_digit *
                        (length x - length y + 1) + 1)%nat [] x divisor in
        Returns (remove_significant_digits_that_are_zero result, remainder, divisor))
      = Returns (q, r, buffer') /\
    value x = value q * value y + value r /\ value r < value y /\
    well_defined q /\ well_defined r).
  { destruct (Nat.ltb_spec (length x) (length y)) as [Hl|Hl].
    - pose proof (shorter_is_less x y Hx Hy Hl). exists [], x, buffer. rewrite value_nil. auto with words lia.
    - destruct (div_mod_long x y Hx Hy Hy0 Hl) as (q & r & d & E & Ev & Hlt & Hq & Hr). cbv zeta in *. rewrite E.
      eexists _, r, d. split; [done|]. rewrite remove_value. split; [done|]. split; [done|]. split; [|done].
      apply remove_well_defined, Hq. }
  unfold div_mod.
  destruct x as [|a [|a' x]]; [exact Hlong| |exact Hlong].
  destruct y as [|b [|b' y]]; [done| |exact Hlong]. clear Hlong.
  assert (Ha : is_word a) by (by destruct Hx as [Hx _]; inversion Hx).
  eexists _, _, _. split; [done|].
  rewrite !value_cons, !value_nil, !single_digit_value in *.
  pose proof (Z.mod_pos_bound a b ltac:(lia)). pose proof (Z.div_mod a b ltac:(lia)).
  split; [lia|]. split; [lia|]. split; apply single_digit_well_defined.
  - apply word_div; [exact Ha|lia].
  - destruct Hy as [Hy _]. inversion Hy; subst. word_lia.
Qed.

(** Quotient and remainder in the form of the integer operations. *)
Lemma div_mod_values x y buffer :
  well_defined x -> well_defined y -> y <> [] ->
  exists q r buffer', div_mod x y buffer = Returns (q, r, buffer') /\
  value q = value x / value y /\ value r = value x mod value y /\
  well_defined q /\ well_defined r.
Proof.
  intros Hx Hy Hy0. destruct (div_mod_spec x y buffer Hx Hy Hy0) as (q & r & b & Ed & E & Hlt & Hq & Hr).
  pose proof (value_bound r (proj1 Hr)). exists q, r, b. split; [done|].
  split; [|split; [|done]].
  - apply Z.div_unique_pos with (value r); lia.
  - apply Z.mod_unique_pos with (value q); lia.
Qed.

(** C38: for every dividend and every non-zero divisor, [div_mod] returns - no
    subtraction of its bitwise loop throws - and leaves the quotient and the
    remainder of the values, both in normal form. *)
Theorem div_mod_correct x y buffer :
  well_defined x -> well_defined y -> is_zero y = false ->
  exists q r buffer', div_mod x y buffer = Returns (q, r, buffer') /\
  value q = value x / value y /\ value r = value x mod value y /\
  well_defined q /\ well_defined r.
Proof. intros Hx Hy Hz. apply div_mod_values; [done|done|]. by intros ->. Qed.

(** *** Printing and parsing *)

Lemma digit_char_code r : 0 <= r < 10 -> char_code (digit_char r) = 48 + r.
Proof.
  intros Hr. unfold char_code, digit_char. rewrite nat_ascii_embedding by lia. lia.
Qed.

(** Reading one decimal digit behind a number [q] gives [10 * q + r]. *)
Lemma parse_digit whole rest q r n :
  well_defined q -> well_defined n -> 0 <= r < 10 -> value n = 10 * value q + r ->
  parse_digits whole (String (digit_char r) rest) q = parse_digits whole rest n.
Proof.
  intros Hq Hn Hr E. cbn [parse_digits].
  unfold isdigit. rewrite (digit_char_code r Hr).
  destruct (Z.leb_spec 48 (48 + r)); [|lia]. destruct (Z.leb_spec (48 + r) 57); [|lia].
  cbn [negb andb]. destruct (Z.geb_spec (48 + r) 48); [|lia].
  replace (48 + r - 48) with r by lia. rewrite (wrap_small r) by word_lia. f_equal.
  destruct (multiply_by_spec q 10 r (proj1 Hq)) as [Em Hm]; [word_lia..|].
  apply well_defined_unique; auto. lia.
Qed.

Lemma print_digits_spec k n s :
  well_defined n -> value n < 10 ^ Z.of_nat k ->
  exists t, print_digits (S k) n s = Some (t +:+ s) /\
    (n <> [] -> t <> "") /\
    forall whole rest, parse_digits whole (t +:+ rest) [] = parse_digits whole rest n.
Proof.
  revert n s. induction k as [|k IH]; intros n s Hn Hlt.
  - assert (n = []) as ->.
    { destruct n; [done|]. pose proof (value_pos _ Hn ltac:(done)).
      change (10 ^ Z.of_nat 0) with 1 in Hlt. lia. }
    exists "". done.
  - destruct (decide (n = [])) as [->|Hn0]; [by exists ""|].
    assert (Hz : is_zero n = false) by (by destruct n).
    remember (S k) as fuel eqn:Ef. cbn [print_digits]. rewrite Hz.
    pose proof (divide_by_spec n 10 (proj1 Hn) ltac:(lia)) as Hd.
    destruct (divide_by n 10) as [q r]. destruct Hd as (E & Hr & Hq).
    pose proof (value_bound q (proj1 Hq)).
    rewrite Ef, Nat2Z.inj_succ, Z.pow_succ_r in Hlt by lia.
    destruct (IH q (String (digit_char r) s) Hq ltac:(lia)) as (t & -> & _ & Hp).
    exists (t +:+ String (digit_char r) ""). split; [|split].
    + by rewrite string_app_assoc.
    + intros _. by destruct t.
    + intros whole rest. rewrite string_app_assoc, Hp.
      by apply parse_digit.
Qed.

Lemma pp_spec n :
  well_defined n -> exists s, pp n = Some s /\ of_string s = Returns n.
Proof.
  intros Hn. destruct (decide (n = [])) as [->|Hn0]; [by exists "0"|].
  unfold pp, of_string.
  destruct (print_digits_spec (20 * length n) n "" Hn) as (t & -> & Ht & Hp).
  { pose proof (value_bound n (proj1 Hn)).
    assert (word_modulus ^ Z.of_nat (length n) <= 10 ^ Z.of_nat (20 * length n)); [|lia].
    rewrite Nat2Z.inj_mul, Z.pow_mul_r by lia. apply Z.pow_le_mono_l.
    split; [done|by vm_compute]. }
  specialize (Ht Hn0). exists (t +:+ ""). split; [by destruct t|]. apply Hp.
Qed.

(** C39: printing a number in decimal and reading it back gives the same digit
    vector; in particular the printing loop of [operator<<] terminates and the
    constructor accepts its output. *)
Theorem pp_of_string_roundtrip n :
  well_defined n -> exists s, pp n = Some s /\ of_string s = Returns n.
Proof. apply pp_spec. Qed.

Lemma of_size_t_spec n : is_word n -> value (of_size_t n) = n /\ well_defined (of_size_t n).
Proof.
  intros Hn. replace (of_size_t n) with (if n =? 0 then [] else [n]).
  - split; [apply single_digit_value|by apply single_digit_well_defined].
  - unfold of_size_t. destruct (Z.eqb_spec n 0), (Z.gtb_spec n 0); auto; word_lia.
Qed.

(** [operator/] throws exactly on a zero divisor and otherwise returns the
    integer quotient; [operator%] returns the dividend for a zero divisor and
    otherwise the remainder.  Both take a shortcut for single-digit operands
    and for a zero dividend that agrees with the general algorithm. *)
Lemma divide_modulo_correct x y :
  well_defined x -> well_defined y ->
  match divide x y with
  | Throws _ => value y = 0
  | Returns q => value y <> 0 /\ value q = value x / value y /\ well_defined q
  end /\
  exists r, modulo x y = Returns r /\
    value r = (if value y =? 0 then value x else value x mod value y) /\ well_defined r.
Proof.
  intros Hx Hy. unfold divide, modulo.
  destruct (decide (y = [])) as [->|Hy0]; [split; [done|by exists x]|].
  pose proof (value_pos y Hy Hy0) as Hpos.
  replace (is_zero y) with false by (by destruct y). cbn [orb].
  replace (value y =? 0) with false by (symmetry; apply Z.eqb_neq; lia).
  destruct (decide (x = [])) as [->|Hx0].
  { cbn [is_zero length Nat.eqb]. rewrite value_nil, Z.div_0_l, Z.mod_0_l by lia.
    split; [auto with lia|by exists []]. }
  replace (is_zero x) with false by (by destruct x).
  destruct (div_mod_values x y [] Hx Hy Hy0) as (q & r & b & E & Eq & Er & Hq & Hr).
  destruct x as [|a [|a' x]]; [done| |rewrite E; cbn [outcome_bind]; split; [auto with lia|by exists r]].
  destruct y as [|b0 [|b' y]]; [done| |rewrite E; cbn [outcome_bind]; split; [auto with lia|by exists r]].
  clear E. rewrite !value_cons, !value_nil, !Z.mul_0_r, !Z.add_0_r in *.
  assert (is_word a) by (destruct Hx as [Hx _]; by inversion Hx).
  assert (is_word b0) by (destruct Hy as [Hy _]; by inversion Hy).
  pose proof (Z.mod_pos_bound a b0 Hpos).
  destruct (of_size_t_spec (a / b0)) as [? ?]; [by apply word_div|].
  destruct (of_size_t_spec (a mod b0)) as [? ?]; [word_lia|]. split; [auto with lia|eauto].
Qed.

(** *** Witnesses *)

Lemma well_defined_decide n :
  forallb (fun d => (0 <=? d) && (d <? word_modulus)) n && is_well_defined n = true ->
  well_defined n.
Proof.
  rewrite andb_true_iff, forallb_forall. intros [Hn Hw]. split; [|exact Hw].
  apply Forall_forall. intros d Hd. apply list_elem_of_In, Hn in Hd. unfold is_word. lia.
Qed.

(** 2^64 - 1 and 2^128 - 1. *)
Definition ex1 : big_natural_number := [18446744073709551615].
Definition ex2 : big_natural_number := [18446744073709551615; 18446744073709551615].

Lemma add_correct_witness :
  value (add ex2 ex1) = 2 ^ 128 + 2 ^ 64 - 2 /\ well_defined (add ex2 ex1).
Proof.
  refine (add_correct ex2 ex1 _ _); by apply well_defined_decide.
Defined.

Lemma div_mod_correct_witness :
  exists q r buffer, div_mod ex2 [0; 10] [] = Returns (q, r, buffer) /\
  value q = value ex2 / value [0; 10] /\ value r = value ex2 mod value [0; 10] /\
  well_defined q /\ well_defined r.
Proof.
  apply (div_mod_correct ex2 [0; 10] []); [by apply well_defined_decide..|reflexivity].
Defined.

Lemma pp_of_string_roundtrip_witness : exists s, pp ex2 = Some s /\ of_string s = Returns ex2.
Proof. apply (pp_of_string_roundtrip ex2). by apply well_defined_decide. Defined.

End Big.

(** ** Witness for the digit operations *)

(** 10 is small enough, 2^32 + 1 is not. *)
Lemma divide_single_number_exact_iff_witness :
  (let '(d, r') := divide_single_number 7 10 3 in
   3 * word_modulus + 7 = 10 * d + r' /\ 0 <= r' < 10 /\ is_word d) /\
  ~ (forall p r, is_word p -> 0 <= r < 2 ^ 32 + 1 ->
     let '(d, r') := divide_single_number p (2 ^ 32 + 1) r in
     r * word_modulus + p = (2 ^ 32 + 1) * d + r' /\ 0 <= r' < 2 ^ 32 + 1 /\ is_word d).
Proof.
  split.
  - apply (divide_single_number_exact_iff 10); [word_lia|lia|word_lia|lia].
  - intros H. apply (divide_single_number_exact_iff (2 ^ 32 + 1)) in H; [lia|word_lia].
Defined.
