(* ===== verification/Fractions.v ===== *)
(** * Probabilities as fractions of big numbers
    ([utilities/probabilistic_arbitrary_precision_fraction.h])

    A probability is a pair of big natural numbers in lowest terms.  The
    operators compute through three thread-local scratch numbers ([buffer1],
    [buffer2], [buffer3]) that survive from call to call; they are modelled as
    a state [buffers] that every operator receives and returns.  The meaning of
    a fraction is the rational number [to_Q]. *)

From Stdlib Require Import ZArith QArith Qreduction Lia.
From stdpp Require Import base strings numbers list.
From S2P Require Import Prelude BigNumbers.
Import Big.

Local Open Scope Z_scope.
Local Open Scope mcrl2_scope.

Module Fraction.

Record fraction : Type := mk_fraction
  { enumerator : big_natural_number; denominator : big_natural_number }.

(** The thread-local scratch numbers of the class. *)
Record buffers : Type := mk_buffers
  { buffer1 : big_natural_number; buffer2 : big_natural_number;
    buffer3 : big_natural_number }.

(** ** Greatest common divisor *)

(** The loop of [greatest_common_divisor_destructive]: [remainder] is
    [buffer_remainder] after [y.div_mod(x, ...)]; [fuel] bounds the number of
    iterations. *)
Fixpoint gcd_destructive_loop (fuel : nat) (x remainder buffer : big_natural_number)
  : outcome (option (big_natural_number * big_natural_number)) :=
  match fuel with
  | O => Returns None
  | S fuel =>
      if is_zero remainder then Returns (Some (x, buffer))
      else
        let y := x in
        let x := remainder in
        let! (_, remainder, buffer) := div_mod y x buffer in
        gcd_destructive_loop fuel x remainder buffer
  end.

(** The result left in [x], and the scratch number [buffer]. *)
Definition greatest_common_divisor_destructive (x y buffer : big_natural_number)
  : outcome (option (big_natural_number * big_natural_number)) :=
  if is_zero x then Returns (Some (y, buffer))
  else if is_zero y then Returns (Some (x, buffer))
  else
    let '(x, y) := if gtb x y then (y, x) else (x, y) in
    let! (_, remainder, buffer) := div_mod y x buffer in
    gcd_destructive_loop
      (Z.to_nat (no_of_bits_per_digit * Z.of_nat (length x + length y)) + 1)
      x remainder buffer.

Definition greatest_common_divisor (x y : big_natural_number) : outcome (option big_natural_number) :=
  let! r := greatest_common_divisor_destructive x y [] in Returns (option_map fst r).

(** [remove_common_factors]: the new enumerator and denominator. *)
Definition remove_common_factors (enumerator denominator : big_natural_number)
  : outcome (option (big_natural_number * big_natural_number)) :=
  let! r := greatest_common_divisor_destructive enumerator denominator [] in
  match r with
  | None => Returns None
  | Some (gcd, _) =>
      let! (enumerator', _, buffer) := div_mod enumerator gcd [] in
      let! (denominator', _, _) := div_mod denominator gcd buffer in
      Returns (Some (enumerator', denominator'))
  end.

(** ** Constructors *)

Definition make (enumerator denominator : big_natural_number) : outcome (option fraction) :=
  let! r := remove_common_factors enumerator denominator in
  Returns (option_map (fun '(e, d) => mk_fraction e d) r).

(** The constructor from two strings of digits. *)
Definition make_from_strings (enumerator denominator : string) : outcome (option fraction) :=
  let! e := of_string enumerator in
  let! d := of_string denominator in
  make e d.

Definition zero : outcome (option fraction) := make (of_size_t 0) (of_size_t 1).
Definition one : outcome (option fraction) := make (of_size_t 1) (of_size_t 1).

(** The default constructor. *)
Definition default_fraction : fraction := mk_fraction [] (of_size_t 1).

(** ** Comparison *)

Definition eqb (this other : fraction) : bool :=
  Big.eqb (enumerator this) (enumerator other) &&
  Big.eqb (denominator this) (denominator other).

Definition neqb (this other : fraction) : bool := negb (eqb this other).

Definition ltb (this other : fraction) (b : buffers) : bool * buffers :=
  let '(b1, b3) := multiply (enumerator this) (denominator other) [] (buffer3 b) in
  let '(b2, b3) := multiply (enumerator other) (denominator this) [] b3 in
  (Big.ltb b1 b2, mk_buffers b1 b2 b3).

Definition gtb (this other : fraction) (b : buffers) : bool * buffers := ltb other this b.

Definition leb (this other : fraction) (b : buffers) : bool * buffers :=
  let '(r, b) := gtb this other b in (negb r, b).

Definition geb (this other : fraction) (b : buffers) : bool * buffers := leb other this b.

(** ** Arithmetic *)

Definition plus (this other : fraction) (b : buffers) : outcome (option fraction) * buffers :=
  let '(b1, b3) := multiply (enumerator this) (denominator other) [] (buffer3 b) in
  let '(b2, b3) := multiply (enumerator other) (denominator this) [] b3 in
  let b1 := add b1 b2 in
  let '(b2, b3) := multiply (denominator this) (denominator other) [] b3 in
  (make b1 b2, mk_buffers b1 b2 b3).

Definition minus (this other : fraction) (b : buffers)
  : outcome (option fraction) * buffers :=
  let '(b1, b3) := multiply (enumerator this) (denominator other) [] (buffer3 b) in
  let '(b2, b3) := multiply (enumerator other) (denominator this) [] b3 in
  match subtract b1 b2 with
  | (b1, Some message) => (Throws message, mk_buffers b1 b2 b3)
  | (b1, None) =>
      let '(b2, b3) := multiply (denominator this) (denominator other) [] b3 in
      (make b1 b2, mk_buffers b1 b2 b3)
  end.

Definition times (this other : fraction) (b : buffers) : outcome (option fraction) * buffers :=
  let '(b1, b3) := multiply (enumerator this) (enumerator other) [] (buffer3 b) in
  let '(b2, b3) := multiply (denominator this) (denominator other) [] b3 in
  (make b1 b2, mk_buffers b1 b2 b3).

Definition divide (this other : fraction) (b : buffers) : outcome (option fraction) * buffers :=
  let '(b1, b3) := multiply (enumerator this) (denominator other) [] (buffer3 b) in
  let '(b2, b3) := multiply (denominator this) (enumerator other) [] b3 in
  (make b1 b2, mk_buffers b1 b2 b3).

(** [pp]: enumerator, a slash, denominator. *)
Definition pp (l : fraction) : option string :=
  match Big.pp (enumerator l), Big.pp (denominator l) with
  | Some e, Some d => Some (e +:+ "/" +:+ d)
  | _, _ => None
  end.

(** ** Meaning and invariant *)

Definition to_Q (f : fraction) : Q :=
  Qmake (value (enumerator f)) (Z.to_pos (value (denominator f))).

(** Well-formed digit vectors, a positive denominator and lowest terms. *)
Definition normalised (f : fraction) : Prop :=
  well_defined (enumerator f) /\ well_defined (denominator f) /\
  0 < value (denominator f) /\
  Z.gcd (value (enumerator f)) (value (denominator f)) = 1.

(** ** The greatest common divisor is computed *)

Lemma log2_value x : well_defined x -> Z.log2 (value x) <= 64 * Z.of_nat (length x).
Proof.
  intros Hx. pose proof (value_bound x (proj1 Hx)) as B.
  destruct (Z.eq_dec (value x) 0) as [->|]; [cbn; lia|].
  rewrite word_modulus_pow in B. apply Z.lt_le_incl, Z.log2_lt_pow2; lia.
Qed.

Lemma is_zero_value x : well_defined x -> is_zero x = (value x =? 0).
Proof.
  intros Hx. destruct x as [|d x]; [reflexivity|].
  pose proof (value_pos (d :: x) Hx ltac:(done)).
  symmetry. apply Z.eqb_neq. lia.
Qed.

(** One Euclidean step: [div_mod] leaves the remainder of the values. *)
Lemma remainder_step y x buffer :
  well_defined y -> well_defined x -> 0 < value x ->
  exists q r b, div_mod y x buffer = Returns (q, r, b) /\
  value r = value y mod value x /\ well_defined r.
Proof.
  intros Hy Hx Hp. assert (Hx0 : x <> []) by (intros ->; cbn in Hp; lia).
  destruct (div_mod_values y x buffer Hy Hx Hx0) as (q & r & b & E & _ & Er & _ & Hr). eauto 6.
Qed.

Lemma gcd_destructive_loop_spec fuel y x remainder buffer :
  well_defined x -> well_defined remainder -> 0 < value x <= y ->
  value remainder = y mod value x ->
  Z.log2 y + Z.log2 (value x) < Z.of_nat fuel ->
  exists g b, gcd_destructive_loop fuel x remainder buffer = Returns (Some (g, b)) /\
    value g = Z.gcd y (value x) /\ well_defined g.
Proof.
  revert y x remainder buffer.
  induction fuel as [|fuel IH]; intros y x remainder buffer Hx Hr Hp Er Hf.
  { pose proof (Z.log2_nonneg y). pose proof (Z.log2_nonneg (value x)). lia. }
  cbn [gcd_destructive_loop]. rewrite (is_zero_value remainder Hr), Er.
  pose proof (Z.mod_pos_bound y (value x) ltac:(lia)) as Hm.
  pose proof (Z.div_mod y (value x) ltac:(lia)) as Hd.
  destruct (Z.eqb_spec (y mod value x) 0) as [Hz|Hz].
  - exists x, buffer. split; [done|]. split; [|exact Hx].
    apply Z.mod_divide in Hz; [|lia].
    rewrite Z.gcd_comm. symmetry. apply Z.divide_gcd_iff; [lia|exact Hz].
  - destruct (remainder_step x remainder buffer Hx Hr ltac:(lia)) as (q & r & b & -> & Er' & Hr').
    cbn [outcome_bind]. rewrite <- Er in *.
    destruct (IH (value x) remainder r b) as (g & b' & -> & Eg & Hg); auto; [lia| |].
    + assert (1 <= y / value x) by (apply Z.div_le_lower_bound; lia).
      assert (H2 : 2 * value remainder <= y) by nia.
      apply Z.log2_le_mono in H2. rewrite Z.log2_double in H2 by lia. lia.
    + exists g, b'. split; [done|]. split; [|exact Hg].
      rewrite Eg, Er, (Z.gcd_comm (value x)), Z.gcd_mod, Z.gcd_comm by lia. reflexivity.
Qed.

Lemma gcd_destructive_spec x y buffer :
  well_defined x -> well_defined y ->
  exists g b, greatest_common_divisor_destructive x y buffer = Returns (Some (g, b)) /\
    value g = Z.gcd (value x) (value y) /\ well_defined g.
Proof.
  intros Hx Hy. unfold greatest_common_divisor_destructive.
  pose proof (value_bound x (proj1 Hx)) as Bx. pose proof (value_bound y (proj1 Hy)) as By.
  rewrite (is_zero_value x Hx), (is_zero_value y Hy).
  destruct (Z.eqb_spec (value x) 0) as [Ex|Ex].
  { exists y, buffer. rewrite Ex, Z.gcd_0_l_nonneg by lia. auto. }
  destruct (Z.eqb_spec (value y) 0) as [Ey|Ey].
  { exists x, buffer. rewrite Ey, Z.gcd_0_r_nonneg by lia. auto. }
  assert (Hord : forall u v, well_defined u -> well_defined v -> 0 < value u <= value v ->
    exists g b, (let! (_, remainder, buffer) := div_mod v u buffer in
      gcd_destructive_loop
        (Z.to_nat (no_of_bits_per_digit * Z.of_nat (length u + length v)) + 1)
        u remainder buffer) = Returns (Some (g, b)) /\
      value g = Z.gcd (value v) (value u) /\ well_defined g).
  { intros u v Hu Hv Hp. destruct (remainder_step v u buffer Hv Hu ltac:(lia)) as (q & r & b & -> & Er & Hr).
    apply gcd_destructive_loop_spec; auto.
    pose proof (log2_value u Hu). pose proof (log2_value v Hv).
    unfold no_of_bits_per_digit. lia. }
  unfold Big.gtb. destruct (ltb_reflect y x Hy Hx).
  - apply Hord; auto; lia.
  - rewrite Z.gcd_comm. apply Hord; auto; lia.
Qed.

Lemma remove_common_factors_spec e d :
  well_defined e -> well_defined d -> 0 < value d ->
  exists e' d', remove_common_factors e d = Returns (Some (e', d')) /\
    value e' = value e / Z.gcd (value e) (value d) /\
    value d' = value d / Z.gcd (value e) (value d) /\
    well_defined e' /\ well_defined d'.
Proof.
  intros He Hd Hp. unfold remove_common_factors.
  destruct (gcd_destructive_spec e d [] He Hd) as (g & b & -> & Eg & Hg).
  assert (Hg0 : 0 < value g).
  { pose proof (Z.gcd_nonneg (value e) (value d)).
    destruct (Z.eq_dec (value g) 0) as [E|]; [|lia].
    rewrite Eg in E. apply Z.gcd_eq_0_r in E. lia. }
  assert (Hgn : g <> []) by (intros ->; cbn in Hg0; lia).
  destruct (div_mod_values e g [] He Hg Hgn) as (e' & r1 & b1 & E1 & Ee & _ & He' & _).
  destruct (div_mod_values d g b1 Hd Hg Hgn) as (d' & r2 & b2 & E2 & Ed & _ & Hd' & _).
  exists e', d'. rewrite <- Eg. cbn [outcome_bind]. rewrite E1. cbn [outcome_bind]. by rewrite E2.
Qed.

(** Dividing by the greatest common divisor keeps the rational number. *)
Lemma reduced_spec e d :
  0 <= e -> 0 < d -> let g := Z.gcd e d in
  0 < d / g /\ Z.gcd (e / g) (d / g) = 1 /\ e / g * d = e * (d / g).
Proof.
  intros He Hd g.
  assert (Hg : 0 < g).
  { unfold g. pose proof (Z.gcd_nonneg e d).
    destruct (Z.eq_dec (Z.gcd e d) 0) as [E|]; [apply Z.gcd_eq_0_r in E|]; lia. }
  destruct (Z.gcd_divide_l e d) as [a Ha], (Z.gcd_divide_r e d) as [b Hb].
  fold g in Ha, Hb.
  assert (Ea : e / g = a) by (rewrite Ha; apply Z.div_mul; lia).
  assert (Eb : d / g = b) by (rewrite Hb; apply Z.div_mul; lia).
  split; [nia|]. split; [apply Z.gcd_div_gcd; [lia|reflexivity]|].
  rewrite Ea, Eb. transitivity (a * (b * g)); [by rewrite <- Hb|].
  transitivity (a * g * b); [ring|by rewrite <- Ha].
Qed.

Lemma value_nonneg x : well_defined x -> 0 <= value x.
Proof. intros Hx. apply (value_bound x (proj1 Hx)). Qed.

Lemma make_spec e d :
  well_defined e -> well_defined d -> 0 < value d ->
  exists f, make e d = Returns (Some f) /\ normalised f /\
    Qeq (to_Q f) (Qmake (value e) (Z.to_pos (value d))).
Proof.
  intros He Hd Hp. unfold make.
  destruct (remove_common_factors_spec e d He Hd Hp)
    as (e' & d' & -> & Ee & Ed & He' & Hd').
  pose proof (value_bound e (proj1 He)).
  destruct (reduced_spec (value e) (value d) ltac:(lia) Hp) as (Hpos & Hgcd & Hrat).
  exists (mk_fraction e' d'). split; [done|].
  unfold normalised, to_Q, Qeq. cbn [enumerator denominator Qnum Qden].
  rewrite Ee, Ed. split; [done|]. by rewrite !Z2Pos.id by lia.
Qed.

(** ** The operators compute the rational operations *)

(** The two products formed by the comparison and by addition do not depend
    on what the scratch numbers held before. *)
Lemma product_spec x y buffer :
  well_defined x -> well_defined y ->
  let '(r, _) := multiply x y [] buffer in value r = value x * value y /\ well_defined r.
Proof.
  intros [Hx _] [Hy _]. unfold multiply.
  pose proof (multiply_loop_spec x y 0 [] buffer Hx Hy well_defined_nil) as H.
  destruct (foldl _ _ _) as [[? r] ?]. destruct H as [E Hr]. split; [|exact Hr].
  rewrite E, value_nil. change (word_modulus ^ Z.of_nat 0) with 1. ring.
Qed.

Ltac product x y :=
  match goal with
  | |- context [multiply x y [] ?b] =>
      let H := fresh "Hprod" in let r := fresh "r" in let b' := fresh "b" in
      pose proof (product_spec x y b ltac:(assumption) ltac:(assumption)) as H;
      destruct (multiply x y [] b) as [r b']; destruct H
  end.

(** Name the parts of two normalised fractions. *)
Ltac open_fractions f g :=
  let ef := fresh "ef" in let df := fresh "df" in
  let eg := fresh "eg" in let dg := fresh "dg" in
  destruct f as [ef df], g as [eg dg];
  repeat match goal with
  | H : normalised _ |- _ => destruct H as (? & ? & ? & ?)
  end; cbn [enumerator denominator] in *.

(** addition, multiplication and division of normalised fractions return,
    whatever the scratch numbers hold, a normalised fraction that denotes the
    rational sum, product and quotient (for division the divisor is not zero). *)
Lemma arithmetic_correct f g b :
  normalised f -> normalised g ->
  (exists r, fst (plus f g b) = Returns (Some r) /\ normalised r /\
     Qeq (to_Q r) (Qplus (to_Q f) (to_Q g))) /\
  (exists r, fst (times f g b) = Returns (Some r) /\ normalised r /\
     Qeq (to_Q r) (Qmult (to_Q f) (to_Q g))) /\
  (Qeq (to_Q g) 0 \/
   exists r, fst (divide f g b) = Returns (Some r) /\ normalised r /\
     Qeq (Qmult (to_Q r) (to_Q g)) (to_Q f)).
Proof.
  intros Hf Hg. open_fractions f g.
  unfold plus, times, divide, to_Q. cbn [enumerator denominator].
  split; [|split].
  - product ef dg. product eg df. product df dg.
    destruct (add_spec r r0) as [Ea Ha]; auto.
    destruct (make_spec (add r r0) r1) as (s & -> & Hs & Es); auto; [nia|].
    exists s. split; [done|]. split; [done|]. rewrite Es. unfold Qeq, Qplus. cbn [Qnum Qden].
    rewrite !Pos2Z.inj_mul, !Z2Pos.id by nia. rewrite Ea. nia.
  - product ef eg. product df dg.
    destruct (make_spec r r0) as (s & -> & Hs & Es); auto; [nia|].
    exists s. split; [done|]. split; [done|]. rewrite Es. unfold Qeq, Qmult. cbn [Qnum Qden].
    rewrite !Pos2Z.inj_mul, !Z2Pos.id by nia. nia.
  - pose proof (value_nonneg eg ltac:(assumption)).
    destruct (Z.eq_dec (value eg) 0) as [E|E]; [left; unfold Qeq; cbn; lia|right].
    product ef dg. product df eg.
    destruct (make_spec r r0) as (s & -> & Hs & Es); auto; [nia|].
    exists s. split; [done|]. split; [done|].
    change (Qmake (value (enumerator s)) (Z.to_pos (value (denominator s)))) with (to_Q s).
    rewrite Es. unfold Qeq, Qmult. cbn [Qnum Qden].
    rewrite !Pos2Z.inj_mul, !Z2Pos.id by nia. nia.
Qed.

(** subtraction of normalised fractions throws exactly when the result
    would be negative, and otherwise returns the normalised difference. *)
Lemma minus_rational f g b :
  normalised f -> normalised g ->
  match fst (minus f g b) with
  | Throws _ => (to_Q f < to_Q g)%Q
  | Returns (Some r) => (to_Q g <= to_Q f)%Q /\ normalised r /\
      Qeq (to_Q r) (Qminus (to_Q f) (to_Q g))
  | Returns None => False
  end.
Proof.
  intros Hf Hg. open_fractions f g.
  unfold minus, to_Q. cbn [enumerator denominator].
  product ef dg. product eg df.
  unfold Qlt, Qle. cbn [Qnum Qden]. rewrite !Z2Pos.id by lia.
  destruct (Z.le_gt_cases (value r0) (value r)) as [Hle|Hgt].
  - destruct (subtract_spec r r0) as (d & -> & Ed & Hd); auto. product df dg. cbn [fst].
    destruct (make_spec d r1) as (s & -> & Hs & Es); auto; [nia|].
    split; [lia|]. split; [done|].
    change (Qmake (value (enumerator s)) (Z.to_pos (value (denominator s)))) with (to_Q s).
    rewrite Es. unfold Qeq, Qminus, Qplus, Qopp. cbn [Qnum Qden].
    rewrite !Pos2Z.inj_mul, !Z2Pos.id by nia. rewrite Ed. nia.
  - destruct (subtract_throws r r0) as (d & m & ->); auto. cbn [fst]. lia.
Qed.

(** Two fractions in lowest terms with the same value have the same parts. *)
Lemma lowest_terms_unique a b c d :
  0 <= a -> 0 <= c -> 0 < b -> 0 < d -> Z.gcd a b = 1 -> Z.gcd c d = 1 ->
  a * d = c * b -> a = c /\ b = d.
Proof.
  intros Ha Hc Hb Hd Gab Gcd E.
  assert (Hbd : (b | d)).
  { apply (Z.gauss b a d); [exists c; lia|by rewrite Z.gcd_comm]. }
  assert (Hdb : (d | b)).
  { apply (Z.gauss d c b); [exists a; lia|by rewrite Z.gcd_comm]. }
  assert (b = d) as -> by (apply Z.divide_antisym_nonneg; auto; lia).
  split; [nia|done].
Qed.

Lemma ltb_compare f g b :
  normalised f -> normalised g ->
  BoolSpec (to_Q f < to_Q g)%Q (to_Q g <= to_Q f)%Q (fst (ltb f g b)).
Proof.
  intros Hf Hg. open_fractions f g. unfold ltb, to_Q, Qlt, Qle.
  cbn [enumerator denominator Qnum Qden]. rewrite !Z2Pos.id by lia.
  product ef dg. product eg df. cbn [fst].
  destruct (ltb_reflect r r0); auto; constructor; lia.
Qed.

(** On normalised fractions [==] decides equality of the rational
    numbers and [<], [<=], [>], [>=] their order, whatever the scratch numbers
    hold. *)
Lemma comparison_rational f g b :
  normalised f -> normalised g ->
  (eqb f g = true <-> Qeq (to_Q f) (to_Q g)) /\
  (fst (ltb f g b) = true <-> (to_Q f < to_Q g)%Q) /\
  (fst (leb f g b) = true <-> (to_Q f <= to_Q g)%Q) /\
  (fst (gtb f g b) = true <-> (to_Q g < to_Q f)%Q) /\
  (fst (geb f g b) = true <-> (to_Q g <= to_Q f)%Q).
Proof.
  intros Hf Hg.
  assert (Hlt : forall f g, normalised f -> normalised g ->
    (fst (ltb f g b) = true <-> (to_Q f < to_Q g)%Q) /\
    (fst (leb g f b) = true <-> (to_Q g <= to_Q f)%Q)).
  { intros f' g' Hf' Hg'. unfold leb, gtb.
    pose proof (ltb_compare f' g' b Hf' Hg') as H.
    destruct (ltb f' g' b) as [r b']. cbn [fst negb] in *.
    destruct H as [H|H]; cbn; (split; split; try done; intros H'; exfalso);
      [apply Qlt_not_le in H|apply Qle_not_lt in H]; contradiction. }
  split; [|split; [apply (Hlt f g); auto|split; [apply (Hlt g f); auto|
    split; [apply (Hlt g f); auto|unfold geb; apply (Hlt f g); auto]]]].
  unfold eqb, Big.eqb. rewrite andb_true_iff, !digits_eqb_eq. open_fractions f g.
  unfold to_Q, Qeq. cbn [enumerator denominator Qnum Qden]. rewrite !Z2Pos.id by lia.
  split; [intros [-> ->]; lia|]. intros E.
  destruct (lowest_terms_unique (value ef) (value df) (value eg) (value dg));
    auto using value_nonneg.
  split; by apply well_defined_unique.
Qed.

(** ** Witnesses *)

Definition one_third : fraction := mk_fraction [1] [3].
Definition one_half : fraction := mk_fraction [1] [2].
Definition dirty : buffers := mk_buffers [4; 5] [6] [7; 8; 9].

Lemma one_third_normalised : normalised one_third.
Proof. repeat split; by repeat constructor. Qed.

Lemma one_half_normalised : normalised one_half.
Proof. repeat split; by repeat constructor. Qed.

End Fraction.
