(* ===== verification/VertexSets.v ===== *)
(** * Vertex sets of the structure-graph solver
    ([libraries/pbes/include/mcrl2/pbes/pbessolve_vertex_set.h])

    A [vertex_set] keeps its elements twice: as a vector in insertion order
    and as a bit set of fixed extent; a [deque_vertex_set] is the same with a
    queue in place of the vector.  [vs_ok] and [dvs_ok] are the invariants that
    tie the two representations together (what [self_check] tests, and that
    the vector has no duplicates).  Vertex indices are natural numbers;
    [undefined_vertex()], the largest unsigned int, is [None] wherever the code
    stores or returns it. *)

From Stdlib Require Import Lia.
From stdpp Require Import base strings numbers pretty sets list sorting.
From S2P Require Import Prelude.

(** ** The interface of the template parameter [VertexSet] *)

Class VertexSet (S : Type) := vs_contains : S -> nat -> bool.

(** ** [deque_vertex_set] *)

Module Deque.

Record deque_vertex_set : Type := mk_deque
  { m_vertices : list nat; m_include : bitset }.

Definition make (N : nat) : deque_vertex_set := mk_deque [] (bitset_empty N).

Definition is_empty (d : deque_vertex_set) : bool :=
  match m_vertices d with [] => true | _ => false end.

Definition contains (d : deque_vertex_set) (u : nat) : bool := bit (m_include d) u.

Definition insert (d : deque_vertex_set) (u : nat) : deque_vertex_set :=
  if bit (m_include d) u then d
  else mk_deque (m_vertices d ++ [u]) (set_bit u true (m_include d)).

Definition clear (d : deque_vertex_set) : deque_vertex_set :=
  mk_deque [] (bitset_empty (length (m_include d))).

Definition extent (d : deque_vertex_set) : nat := length (m_include d).

Definition size (d : deque_vertex_set) : nat := length (m_vertices d).

(** The constructor from a range. *)
Definition of_range (N : nat) (l : list nat) : deque_vertex_set := foldl insert (make N) l.

(** [pop_front] on a non-empty queue: the element and the rest; [None] stands
    for the undefined behaviour of [front()] on an empty queue. *)
Definition pop_front (d : deque_vertex_set) : option (nat * deque_vertex_set) :=
  match m_vertices d with
  | [] => None
  | u :: rest => Some (u, mk_deque rest (set_bit u false (m_include d)))
  end.

Definition pop_back (d : deque_vertex_set) : option (nat * deque_vertex_set) :=
  match last (m_vertices d) with
  | None => None
  | Some u =>
      Some (u, mk_deque (take (length (m_vertices d) - 1) (m_vertices d))
                        (set_bit u false (m_include d)))
  end.

Definition eqb (d e : deque_vertex_set) : bool := bitset_eqb (m_include d) (m_include e).

(** Invariant: the queue holds, once each, exactly the indices whose bit is
    set; the bit set has [n] bits. *)
Definition ok (n : nat) (d : deque_vertex_set) : Prop :=
  length (m_include d) = n /\ NoDup (m_vertices d) /\
  forall u, u ∈ m_vertices d <-> bit (m_include d) u = true.

Lemma deque_ok_lt n d u : ok n d -> u ∈ m_vertices d -> u < n.
Proof. intros (<- & _ & H) Hu. by apply bit_lt, H. Qed.

Lemma deque_ok_length n d : ok n d -> length (m_vertices d) <= n.
Proof.
  intros Hd. apply NoDup_bounded_length; [apply Hd|]. intros u. by apply deque_ok_lt.
Qed.

Lemma deque_make_ok n : ok n (make n).
Proof.
  split; [apply length_replicate|]. split; [constructor|]. intros u.
  cbn. rewrite bit_empty. set_solver.
Qed.

Lemma deque_insert_ok n d u : ok n d -> u < n -> ok n (insert d u).
Proof.
  intros (Hlen & Hnd & H) Hu. unfold insert. destruct (bit (m_include d) u) eqn:E; [done|].
  split; [cbn; by rewrite length_set_bit|]. split; cbn.
  - apply NoDup_app. split; [done|]. split; [|apply NoDup_singleton].
    intros v Hv ->%list_elem_of_singleton. apply H in Hv. congruence.
  - intros v. rewrite elem_of_app, list_elem_of_singleton, bit_set_bit, H by lia.
    case_decide; [subst; tauto|]. split; [intros [?|?]; congruence|auto].
Qed.

Lemma deque_insert_elem n d u v :
  ok n d -> v ∈ m_vertices (insert d u) <-> v = u \/ v ∈ m_vertices d.
Proof.
  intros (_ & _ & H). unfold insert. destruct (bit (m_include d) u) eqn:E; cbn.
  - apply H in E. split; [auto|intros [->|]; done].
  - rewrite elem_of_app, list_elem_of_singleton. tauto.
Qed.

Lemma deque_pop_front_ok n d u d' :
  ok n d -> pop_front d = Some (u, d') ->
  ok n d' /\ m_vertices d = u :: m_vertices d' /\ (u ∉ m_vertices d') /\ u < n.
Proof.
  intros (Hlen & Hnd & H). unfold pop_front.
  destruct (m_vertices d) as [|w rest] eqn:E; [done|].
  intros [= -> <-]. apply NoDup_cons in Hnd as [Hu Hnd].
  assert (u < n) by (rewrite <- Hlen; apply bit_lt, H; left).
  cbn. split; [|done]. split; [cbn; by rewrite length_set_bit|]. split; [done|].
  intros v. cbn. rewrite bit_set_bit by lia. specialize (H v).
  rewrite elem_of_cons in H. case_decide; [subst; split; done|].
  rewrite <- H. split; [auto|intros [->|]; done].
Qed.

End Deque.

#[export] Instance deque_VertexSet : VertexSet Deque.deque_vertex_set := Deque.contains.

(** ** [vertex_set] *)

Module VSet.

Record vertex_set : Type := mk_vset { m_vertices : list nat; m_include : bitset }.

Definition make (N : nat) : vertex_set := mk_vset [] (bitset_empty N).

(** [self_check]: throws when the vector holds an element that is outside the
    extent or whose bit is not set. *)
Fixpoint self_check_loop (include : bitset) (vertices : list nat) : outcome bool :=
  match vertices with
  | [] => Returns true
  | v :: rest =>
      if length include <=? v
      then Throws ("The value " +:+ pretty v +:+ " is bigger than I.size() = "
                     +:+ pretty (length include))
      else if negb (bit include v)
      then Throws ("Inconsistency detected with element " +:+ pretty v +:+ "!")
      else self_check_loop include rest
  end.

Definition self_check (V : vertex_set) : outcome bool :=
  self_check_loop (m_include V) (m_vertices V).

Definition is_empty (V : vertex_set) : bool :=
  match m_vertices V with [] => true | _ => false end.

Definition contains (V : vertex_set) (u : nat) : bool := bit (m_include V) u.

Definition insert (V : vertex_set) (u : nat) : vertex_set :=
  if bit (m_include V) u then V
  else mk_vset (m_vertices V ++ [u]) (set_bit u true (m_include V)).

Definition of_range (N : nat) (l : list nat) : vertex_set := foldl insert (make N) l.

(** [while (m < n) { m *= 2; }]; [fuel] bounds the iterations. *)
Fixpoint double_until (fuel m n : nat) : nat :=
  match fuel with
  | O => m
  | S fuel => if m <? n then double_until fuel (m * 2) n else m
  end.

(** [resize]: at least [n] bits, in steps of powers of two from 1024 up. *)
Definition resize (V : vertex_set) (n : nat) : vertex_set :=
  let m := length (m_include V) in
  let m := if m <? 1024 then 1024 else m in
  let m := double_until n m n in
  mk_vset (m_vertices V)
    (m_include V ++ replicate (m - length (m_include V)) false).

Definition truncate (V : vertex_set) (n : nat) : vertex_set :=
  if n <? length (m_include V)
  then mk_vset (m_vertices V)
         (foldl (fun b u => set_bit u true b) (bitset_empty n) (m_vertices V))
  else V.

Definition sort (V : vertex_set) : vertex_set :=
  mk_vset (merge_sort (≤) (m_vertices V)) (m_include V).

Definition clear (V : vertex_set) : vertex_set :=
  mk_vset [] (bitset_empty (length (m_include V))).

Definition extent (V : vertex_set) : nat := length (m_include V).

Definition size (V : vertex_set) : nat := length (m_vertices V).

Definition pop_back (V : vertex_set) : option (nat * vertex_set) :=
  match last (m_vertices V) with
  | None => None
  | Some u =>
      Some (u, mk_vset (take (length (m_vertices V) - 1) (m_vertices V))
                       (set_bit u false (m_include V)))
  end.

Definition eqb (V W : vertex_set) : bool := bitset_eqb (m_include V) (m_include W).

Definition set_union (V W : vertex_set) : vertex_set := foldl insert V (m_vertices W).

(** [set_intersection] is a template on its first argument; this is the
    instance for [vertex_set]. *)
Definition set_intersection (V W : vertex_set) : vertex_set :=
  foldl (fun r v => if contains W v then insert r v else r) (make (extent V)) (m_vertices V).

Definition set_minus (V W : vertex_set) : vertex_set :=
  foldl (fun r v => if negb (contains W v) then insert r v else r)
    (make (extent V)) (m_vertices V).

Definition is_subset_of (V W : vertex_set) : bool :=
  bitset_subset (m_include V) (m_include W).

(** *** Invariant *)

Definition ok (n : nat) (V : vertex_set) : Prop :=
  length (m_include V) = n /\ NoDup (m_vertices V) /\
  forall u, u ∈ m_vertices V <-> bit (m_include V) u = true.

Lemma contains_elem n V u : ok n V -> contains V u = true <-> u ∈ m_vertices V.
Proof. intros (_ & _ & H). symmetry. apply H. Qed.

Lemma contains_false n V u : ok n V -> contains V u = false <-> u ∉ m_vertices V.
Proof.
  intros H. rewrite <- (contains_elem n V u H). by destruct (contains V u).
Qed.

Lemma ok_lt n V u : ok n V -> u ∈ m_vertices V -> u < n.
Proof. intros (<- & _ & H) Hu. by apply bit_lt, H. Qed.

Lemma ok_length n V : ok n V -> length (m_vertices V) <= n.
Proof. intros HV. apply NoDup_bounded_length; [apply HV|]. intros u. by apply ok_lt. Qed.

Lemma make_ok n : ok n (make n).
Proof.
  split; [apply length_replicate|]. split; [constructor|]. intros u.
  cbn. rewrite bit_empty. set_solver.
Qed.

Lemma insert_ok n V u : ok n V -> u < n -> ok n (insert V u).
Proof.
  intros (Hlen & Hnd & H) Hu. unfold insert. destruct (bit (m_include V) u) eqn:E; [done|].
  split; [cbn; by rewrite length_set_bit|]. split; cbn.
  - apply NoDup_app. split; [done|]. split; [|apply NoDup_singleton].
    intros v Hv ->%list_elem_of_singleton. apply H in Hv. congruence.
  - intros v. rewrite elem_of_app, list_elem_of_singleton, bit_set_bit, H by lia.
    case_decide; [subst; tauto|]. split; [intros [?|?]; congruence|auto].
Qed.

Lemma insert_elem n V u v :
  ok n V -> v ∈ m_vertices (insert V u) <-> v = u \/ v ∈ m_vertices V.
Proof.
  intros (_ & _ & H). unfold insert. destruct (bit (m_include V) u) eqn:E; cbn.
  - apply H in E. split; [auto|intros [->|]; done].
  - rewrite elem_of_app, list_elem_of_singleton. tauto.
Qed.

(** Inserting a fresh element appends it to the vector. *)
Lemma insert_fresh n V u :
  ok n V -> u ∉ m_vertices V -> m_vertices (insert V u) = m_vertices V ++ [u].
Proof.
  intros (_ & _ & H) Hu. unfold insert. destruct (bit (m_include V) u) eqn:E; [|done].
  by apply H in E.
Qed.

(** The conditional insertion loop shared by the set operations. *)
Lemma insert_if_loop n (p : nat -> bool) l V :
  ok n V -> (forall u, u ∈ l -> u < n) ->
  let R := foldl (fun r v => if p v then insert r v else r) V l in
  ok n R /\ forall u, u ∈ m_vertices R <-> u ∈ m_vertices V \/ (u ∈ l /\ p u = true).
Proof.
  revert V. induction l as [|v l IH]; intros V HV Hl; cbn.
  { split; [done|]. set_solver. }
  assert (Hv : v < n) by (apply Hl; left).
  destruct (p v) eqn:Ep.
  - destruct (IH (insert V v)) as [Hok He]; [by apply insert_ok|set_solver|].
    split; [done|]. intros u. rewrite He, (insert_elem n V v u HV), elem_of_cons.
    split; [intros [[->|]|]; tauto|intros [|[[->|] ?]]; tauto].
  - destruct (IH V HV) as [Hok He]; [set_solver|].
    split; [done|]. intros u. rewrite He, elem_of_cons.
    split; [tauto|intros [|[[->|] ?]]; [tauto|congruence|tauto]].
Qed.

Lemma insert_loop n l V :
  ok n V -> (forall u, u ∈ l -> u < n) ->
  ok n (foldl insert V l) /\
  forall u, u ∈ m_vertices (foldl insert V l) <-> u ∈ m_vertices V \/ u ∈ l.
Proof.
  intros HV Hl. destruct (insert_if_loop n (fun _ => true) l V HV Hl) as [H1 H2].
  split; [done|]. intros u. rewrite H2. tauto.
Qed.

Lemma of_range_ok n l :
  (forall u, u ∈ l -> u < n) ->
  ok n (of_range n l) /\ forall u, u ∈ m_vertices (of_range n l) <-> u ∈ l.
Proof.
  intros Hl. destruct (insert_loop n l (make n) (make_ok n) Hl) as [H1 H2].
  split; [done|]. intros u. rewrite H2. cbn. set_solver.
Qed.

Lemma set_union_ok n V W :
  ok n V -> ok n W ->
  ok n (set_union V W) /\
  forall u, u ∈ m_vertices (set_union V W) <-> u ∈ m_vertices V \/ u ∈ m_vertices W.
Proof. intros HV HW. apply insert_loop; [done|]. intros u. by apply ok_lt. Qed.

Lemma set_intersection_ok n V W :
  ok n V -> ok n W ->
  ok n (set_intersection V W) /\
  forall u, u ∈ m_vertices (set_intersection V W) <-> u ∈ m_vertices V /\ u ∈ m_vertices W.
Proof.
  intros HV HW. unfold set_intersection, extent. rewrite (proj1 HV).
  destruct (insert_if_loop n (contains W) (m_vertices V) (make n)) as [H1 H2];
    [apply make_ok|intros u; by apply ok_lt|].
  split; [exact H1|]. intros u. rewrite H2, (contains_elem n W u HW). cbn. set_solver.
Qed.

Lemma set_minus_ok n V W :
  ok n V -> ok n W ->
  ok n (set_minus V W) /\
  forall u, u ∈ m_vertices (set_minus V W) <-> u ∈ m_vertices V /\ u ∉ m_vertices W.
Proof.
  intros HV HW. unfold set_minus, extent. rewrite (proj1 HV).
  destruct (insert_if_loop n (fun v => negb (contains W v)) (m_vertices V) (make n))
    as [H1 H2]; [apply make_ok|intros u; by apply ok_lt|].
  split; [exact H1|]. intros u.
  rewrite H2, negb_true_iff, (contains_false n W u HW). cbn. set_solver.
Qed.

Lemma eqb_spec n V W :
  ok n V -> ok n W ->
  eqb V W = true <-> forall u, u ∈ m_vertices V <-> u ∈ m_vertices W.
Proof.
  intros (HlV & _ & HV) (HlW & _ & HW). unfold eqb, bitset_eqb.
  rewrite bool_decide_eq_true. split.
  - intros E u. by rewrite HV, HW, E.
  - intros E. apply bitset_ext; [congruence|]. intros u. specialize (E u).
    rewrite HV, HW in E. by apply eq_true_iff_eq.
Qed.

Lemma is_subset_of_spec n V W :
  ok n V -> ok n W ->
  is_subset_of V W = true <-> forall u, u ∈ m_vertices V -> u ∈ m_vertices W.
Proof.
  intros (HlV & _ & HV) (HlW & _ & HW). unfold is_subset_of, bitset_subset.
  rewrite forallb_forall. split.
  - intros H u Hu. apply HW. apply HV in Hu. unfold bit in *.
    destruct (m_include V !! u) as [x|] eqn:E; [|done]. cbn in Hu. subst.
    destruct (lookup_lt_is_Some_2 (m_include W) u) as [y Ey].
    { apply lookup_lt_Some in E. lia. }
    specialize (H (true, y)). rewrite Ey. cbn in *. apply H.
    apply list_elem_of_In, list_elem_of_lookup. exists u.
    by rewrite lookup_zip_with, E, Ey.
  - intros H [x y] Hxy. apply list_elem_of_In, list_elem_of_lookup in Hxy as [u Hu].
    rewrite lookup_zip_with in Hu.
    destruct (m_include V !! u) as [x'|] eqn:Ex, (m_include W !! u) as [y'|] eqn:Ey;
      cbn in Hu; try done. injection Hu as -> ->. cbn.
    destruct x; [|done]. cbn. specialize (H u). rewrite HV, HW in H. unfold bit in H.
    rewrite Ex, Ey in H. by apply H.
Qed.

Lemma sort_ok n V :
  ok n V -> ok n (sort V) /\ forall u, u ∈ m_vertices (sort V) <-> u ∈ m_vertices V.
Proof.
  intros (Hlen & Hnd & H).
  assert (E : forall u, u ∈ m_vertices (sort V) <-> u ∈ m_vertices V).
  { intros u. cbn. by rewrite merge_sort_Permutation. }
  split; [|exact E]. split; [exact Hlen|]. split.
  - cbn. by rewrite merge_sort_Permutation.
  - intros u. rewrite E. apply H.
Qed.

(** on well-formed sets of one extent, union, intersection and difference
    compute the set operations and keep the vector and the bit set in step;
    [==] decides equality and [is_subset_of] inclusion of the sets. *)
Lemma set_operations_correct n V W :
  ok n V -> ok n W ->
  (ok n (set_union V W) /\ ok n (set_intersection V W) /\ ok n (set_minus V W)) /\
  (forall u, contains (set_union V W) u = contains V u || contains W u) /\
  (forall u, contains (set_intersection V W) u = contains V u && contains W u) /\
  (forall u, contains (set_minus V W) u = contains V u && negb (contains W u)) /\
  (eqb V W = true <-> forall u, contains V u = contains W u) /\
  (is_subset_of V W = true <-> forall u, contains V u = true -> contains W u = true).
Proof.
  intros HV HW.
  destruct (set_union_ok n V W HV HW) as [HU EU].
  destruct (set_intersection_ok n V W HV HW) as [HI EI].
  destruct (set_minus_ok n V W HV HW) as [HM EM].
  split; [done|].
  split; [|split; [|split; [|split]]].
  - intros u. apply eq_true_iff_eq. rewrite orb_true_iff.
    rewrite !(contains_elem n) by eassumption. apply EU.
  - intros u. apply eq_true_iff_eq. rewrite andb_true_iff.
    rewrite !(contains_elem n) by eassumption. apply EI.
  - intros u. apply eq_true_iff_eq. rewrite andb_true_iff, negb_true_iff.
    rewrite !(contains_elem n), (contains_false n) by eassumption. apply EM.
  - rewrite (eqb_spec n V W HV HW). split; intros E u; specialize (E u).
    + apply eq_true_iff_eq. by rewrite !(contains_elem n) by eassumption.
    + by rewrite <- (contains_elem n V u HV), <- (contains_elem n W u HW), E.
  - rewrite (is_subset_of_spec n V W HV HW).
    split; intros E u; specialize (E u); rewrite !(contains_elem n) in * by eassumption; auto.
Qed.

End VSet.

#[export] Instance vertex_set_VertexSet : VertexSet VSet.vertex_set := VSet.contains.

(** [lazy_union]: the union of two sets as a membership test only. *)
Record lazy_union : Type := mk_lazy_union { lu_A : VSet.vertex_set; lu_B : VSet.vertex_set }.

Definition lazy_union_contains (V : lazy_union) (u : nat) : bool :=
  VSet.contains (lu_A V) u || VSet.contains (lu_B V) u.

#[export] Instance lazy_union_VertexSet : VertexSet lazy_union := lazy_union_contains.

(** ** [strategy_vector]: a strategy that grows on demand *)

Module StrategyVector.

(** [std::vector<index_type> m_strategy]; [None] is [undefined_vertex()]. *)
Abbreviation strategy_vector := (list (option nat)).

Definition resize (tau : strategy_vector) (n : nat) : strategy_vector :=
  let m := length tau in
  let m := if m <? 16 then 16 else m in
  let m := VSet.double_until n m n in
  tau ++ replicate (m - length tau) None.

(** The growth at the start of both versions of [operator[]]. *)
Definition grown (tau : strategy_vector) (i : nat) : strategy_vector :=
  if length tau <=? i then resize tau (i + 1) else tau.

(** Reading [tau[i]]: the value, and the vector, which may have grown. *)
Definition get (tau : strategy_vector) (i : nat) : option nat * strategy_vector :=
  (default None (grown tau i !! i), grown tau i).

(** [tau[i] = v] *)
Definition set (tau : strategy_vector) (i : nat) (v : option nat) : strategy_vector :=
  <[i := v]> (grown tau i).

Definition size (tau : strategy_vector) : nat := length tau.

Definition truncate (tau : strategy_vector) (n : nat) : strategy_vector :=
  if n <? length tau then take n tau else tau.

Lemma double_until_ge fuel m n :
  0 < m -> n <= m + fuel -> n <= VSet.double_until fuel m n.
Proof.
  revert m. induction fuel as [|fuel IH]; intros m Hm Hn; cbn [VSet.double_until]; [lia|].
  destruct (Nat.ltb_spec m n); [|lia]. apply IH; lia.
Qed.

Lemma grown_length tau i : i < length (grown tau i).
Proof.
  unfold grown, resize. destruct (Nat.leb_spec (length tau) i) as [H|H]; [|done].
  rewrite length_app, length_replicate.
  assert (Hd : i + 1 <= VSet.double_until (i + 1)
                         (if length tau <? 16 then 16 else length tau) (i + 1)).
  { apply double_until_ge; [|lia]. destruct (Nat.ltb_spec (length tau) 16); lia. }
  cbn zeta. lia.
Qed.

Lemma grown_lookup tau i j : default None (grown tau i !! j) = default None (tau !! j).
Proof.
  unfold grown, resize. destruct (length tau <=? i); [|done].
  destruct (decide (j < length tau)) as [H|H]; [by rewrite lookup_app_l|].
  rewrite lookup_app_r by lia. rewrite (lookup_ge_None_2 tau j) by lia. cbn.
  destruct (replicate _ None !! _) as [x|] eqn:E; [|done].
  by apply lookup_replicate in E as [-> _].
Qed.

(** A [strategy_vector] behaves as a total map from vertices to optional
    vertices: a write is read back, other entries are unchanged, and the growth
    of the vector (on reads and on writes, at any index) is not observable. *)
Lemma strategy_vector_read_write tau i j k v :
  fst (get (set (snd (get tau k)) i v) j) =
  if decide (i = j) then v else fst (get tau j).
Proof.
  unfold get, set. cbn [fst snd]. rewrite !grown_lookup. case_decide as E.
  - subst. rewrite list_lookup_insert_eq by apply grown_length. done.
  - rewrite list_lookup_insert_ne by done. by rewrite !grown_lookup.
Qed.

End StrategyVector.
