(* ===== verification/StructureGraph.v ===== *)
(** * Structure graphs
    ([structure_graph.h] and [simple_structure_graph.h] of [libraries/pbes])

    A structure graph is a parity game whose vertices carry a decoration
    (disjunction, conjunction, true, false or none), a rank and their
    predecessors and successors as index vectors.  [structure_graph] has a bit
    set of excluded vertices that its range functions filter out;
    [simple_structure_graph] is the same interface without exclusion.  The
    algorithms are templates over that interface, modelled by the type class
    [StructureGraph]; [graph_ok] is what they rely on. *)

From Stdlib Require Import Lia NArith.
From stdpp Require Import base strings numbers sets list.
From S2P Require Import Prelude VertexSets.

(** [structure_graph::decoration_type], with the numeric values of the enum. *)
Inductive decoration_type : Type :=
| d_disjunction | d_conjunction | d_true | d_false | d_none.

#[export] Instance decoration_type_eq_dec : EqDecision decoration_type.
Proof. solve_decision. Defined.

Definition decoration_value (d : decoration_type) : nat :=
  match d with
  | d_disjunction => 0
  | d_conjunction => 1
  | d_true => 2
  | d_false => 3
  | d_none => 4
  end.

(** [operator<<] on decorations. *)
Definition decoration_to_string (d : decoration_type) : string :=
  match d with
  | d_conjunction => "conjunction"
  | d_disjunction => "disjunction"
  | d_true => "true"
  | d_false => "false"
  | d_none => "none"
  end.

(** [data::undefined_index()], the largest [std::size_t]. *)
Definition undefined_index : N := 18446744073709551615%N.

(** ** The interface of the template parameter [StructureGraph] *)

Class StructureGraph (G : Type) := mk_StructureGraph {
  sg_extent : G -> nat;
  sg_contains : G -> nat -> bool;
  sg_decoration : G -> nat -> decoration_type;
  sg_rank : G -> nat -> N;
  sg_predecessors : G -> nat -> list nat;
  sg_successors : G -> nat -> list nat;
  sg_strategy : G -> nat -> option nat;
  (** [G.find_vertex(u).strategy = v]: the attribute is [mutable]. *)
  sg_set_strategy : nat -> option nat -> G -> G
}.

(** What the attribute update promises: it is read back, and nothing else of
    the graph changes. *)
Class StructureGraphLaws (G : Type) `{StructureGraph G} := {
  strategy_set : forall g u v w, u < sg_extent g ->
    sg_strategy (sg_set_strategy u v g) w = if decide (u = w) then v else sg_strategy g w;
  extent_set : forall g u v, sg_extent (sg_set_strategy u v g) = sg_extent g;
  contains_set : forall g u v w,
    sg_contains (sg_set_strategy u v g) w = sg_contains g w;
  decoration_set : forall g u v w,
    sg_decoration (sg_set_strategy u v g) w = sg_decoration g w;
  rank_set : forall g u v w, sg_rank (sg_set_strategy u v g) w = sg_rank g w;
  predecessors_set : forall g u v w,
    sg_predecessors (sg_set_strategy u v g) w = sg_predecessors g w;
  successors_set : forall g u v w,
    sg_successors (sg_set_strategy u v g) w = sg_successors g w
}.

(** A vertex that the graph has and that is not excluded. *)
Definition in_graph {G} `{StructureGraph G} (g : G) (u : nat) : Prop :=
  u < sg_extent g /\ sg_contains g u = true.

(** Well-formedness: the ranges only yield vertices of the graph, and the
    predecessor and successor vectors describe the same edges. *)
Record graph_ok {G} `{StructureGraph G} (g : G) : Prop := {
  successors_in : forall u v, v ∈ sg_successors g u -> in_graph g v;
  predecessors_in : forall u v, u ∈ sg_predecessors g v -> in_graph g u;
  edges_match : forall u v, in_graph g u -> in_graph g v ->
    u ∈ sg_predecessors g v <-> v ∈ sg_successors g u
}.

(** ** [structure_graph] *)

Module SG.

Section Graph.
Context {pbes_expression : Type}.

Record vertex : Type := mk_vertex {
  formula : pbes_expression;
  v_decoration : decoration_type;
  v_rank : N;
  v_predecessors : list nat;
  v_successors : list nat;
  v_strategy : option nat
}.

(** [predecessors.erase(std::remove(...))]: all occurrences go. *)
Definition remove_predecessor (v : vertex) (u : nat) : vertex :=
  mk_vertex (formula v) (v_decoration v) (v_rank v)
    (filter (fun w => w <> u) (v_predecessors v)) (v_successors v) (v_strategy v).

Definition remove_successor (v : vertex) (u : nat) : vertex :=
  mk_vertex (formula v) (v_decoration v) (v_rank v) (v_predecessors v)
    (filter (fun w => w <> u) (v_successors v)) (v_strategy v).

Definition vertex_is_defined (v : vertex) : bool :=
  (negb (bool_decide (v_decoration v = d_none)) || negb (v_rank v =? undefined_index)%N) &&
  (negb (match v_successors v with [] => true | _ => false end) ||
   bool_decide (v_decoration v = d_true) || bool_decide (v_decoration v = d_false)).

Record structure_graph : Type := mk_graph {
  m_vertices : list vertex;
  m_initial_vertex : nat;
  m_exclude : bitset
}.

Definition initial_vertex (G : structure_graph) : nat := m_initial_vertex G.

Definition extent (G : structure_graph) : nat := length (m_vertices G).

(** [find_vertex]; an index outside the vector is undefined in the code. *)
Definition find_vertex (G : structure_graph) (u : nat) : option vertex := m_vertices G !! u.

Definition decoration (G : structure_graph) (u : nat) : decoration_type :=
  from_option v_decoration d_none (find_vertex G u).

Definition rank (G : structure_graph) (u : nat) : N :=
  from_option v_rank undefined_index (find_vertex G u).

Definition all_predecessors (G : structure_graph) (u : nat) : list nat :=
  from_option v_predecessors [] (find_vertex G u).

Definition all_successors (G : structure_graph) (u : nat) : list nat :=
  from_option v_successors [] (find_vertex G u).

Definition contains (G : structure_graph) (u : nat) : bool := negb (bit (m_exclude G) u).

(** The filtered ranges. *)
Definition vertices (G : structure_graph) : list vertex :=
  omap (find_vertex G) (filter (fun i => contains G i = true) (seq 0 (extent G))).

Definition predecessors (G : structure_graph) (u : nat) : list nat :=
  filter (fun i => contains G i = true) (all_predecessors G u).

Definition successors (G : structure_graph) (u : nat) : list nat :=
  filter (fun i => contains G i = true) (all_successors G u).

Definition strategy (G : structure_graph) (u : nat) : option nat :=
  from_option v_strategy None (find_vertex G u).

Definition is_empty (G : structure_graph) : bool := bitset_all (m_exclude G).

Definition is_defined (G : structure_graph) : bool := forallb vertex_is_defined (m_vertices G).

Definition with_strategy (v : option nat) (x : vertex) : vertex :=
  mk_vertex (formula x) (v_decoration x) (v_rank x) (v_predecessors x) (v_successors x) v.

(** The assignment of [global_strategy::set_strategy]. *)
Definition set_strategy (u : nat) (v : option nat) (G : structure_graph) : structure_graph :=
  mk_graph (alter (with_strategy v) u (m_vertices G)) (m_initial_vertex G) (m_exclude G).

(** [std::swap(G.exclude(), exclude)] *)
Definition with_exclude (exclude : bitset) (G : structure_graph) : structure_graph :=
  mk_graph (m_vertices G) (m_initial_vertex G) exclude.

(** [structure_graph_predecessors] and [structure_graph_successors]: the ranges
    copied into vectors by a loop of [push_back]. *)
Definition structure_graph_predecessors (G : structure_graph) (u : nat) : list nat :=
  foldl (fun result v => result ++ [v]) [] (predecessors G u).

Definition structure_graph_successors (G : structure_graph) (u : nat) : list nat :=
  foldl (fun result v => result ++ [v]) [] (successors G u).

#[export] Instance structure_graph_StructureGraph : StructureGraph structure_graph :=
  mk_StructureGraph _ extent contains decoration rank predecessors successors strategy
    set_strategy.

(** ** Laws *)

Lemma find_vertex_set u v G w :
  find_vertex (set_strategy u v G) w =
  if decide (u = w) then with_strategy v <$> find_vertex G w else find_vertex G w.
Proof.
  unfold find_vertex, set_strategy. cbn. case_decide as E; [subst|].
  - apply list_lookup_alter_eq.
  - by apply list_lookup_alter_ne.
Qed.

Lemma attribute_set {A} (f : vertex -> A) (d : A) u v G w :
  (forall x, f (with_strategy v x) = f x) ->
  from_option f d (find_vertex (set_strategy u v G) w) = from_option f d (find_vertex G w).
Proof.
  intros Hf. rewrite find_vertex_set. case_decide; [|done].
  destruct (find_vertex G w); [|done]. apply Hf.
Qed.

#[export] Instance structure_graph_laws : StructureGraphLaws structure_graph.
Proof.
  split; cbn.
  - intros g u v w Hu. unfold strategy. rewrite find_vertex_set. case_decide as E; [|done].
    subst. destruct (lookup_lt_is_Some_2 (m_vertices g) w Hu) as [x Hx].
    unfold find_vertex. by rewrite Hx.
  - intros. unfold extent. apply length_alter.
  - done.
  - intros. by apply attribute_set.
  - intros. by apply attribute_set.
  - intros. unfold predecessors. f_equal. by apply attribute_set.
  - intros. unfold successors. f_equal. by apply attribute_set.
Qed.

(** The well-formedness of the stored graph, before exclusion. *)
Record structure_graph_ok (G : structure_graph) : Prop := {
  exclude_length : length (m_exclude G) = extent G;
  all_successors_in : forall u v, v ∈ all_successors G u -> v < extent G;
  all_edges_match : forall u v, u ∈ all_predecessors G v <-> v ∈ all_successors G u
}.

Lemma elem_of_successors G u v :
  v ∈ successors G u <-> contains G v = true /\ v ∈ all_successors G u.
Proof. unfold successors. by rewrite list_elem_of_filter. Qed.

Lemma elem_of_predecessors G u v :
  u ∈ predecessors G v <-> contains G u = true /\ u ∈ all_predecessors G v.
Proof. unfold predecessors. by rewrite list_elem_of_filter. Qed.

Lemma all_predecessors_in G u v :
  structure_graph_ok G -> u ∈ all_predecessors G v -> u < extent G.
Proof.
  intros HG Hu. apply (all_edges_match G HG) in Hu. unfold all_successors in Hu.
  destruct (find_vertex G u) as [x|] eqn:E; [|by apply elem_of_nil in Hu].
  by apply lookup_lt_Some in E.
Qed.

Lemma structure_graph_ok_graph_ok G : structure_graph_ok G -> graph_ok G.
Proof.
  intros HG. split; cbn.
  - intros u v Hv. apply elem_of_successors in Hv as [Hc Hv].
    split; [by apply (all_successors_in G HG u)|done].
  - intros u v Hu. apply elem_of_predecessors in Hu as [Hc Hu].
    split; [by apply (all_predecessors_in G u v)|done].
  - intros u v [Hu Cu] [Hv Cv]. cbn in *.
    rewrite elem_of_predecessors, elem_of_successors, (all_edges_match G HG). tauto.
Qed.

Lemma with_exclude_ok e G :
  structure_graph_ok G -> length e = extent G -> structure_graph_ok (with_exclude e G).
Proof. intros [H1 H2 H3] He. by split. Qed.

Lemma set_strategy_ok u v G :
  structure_graph_ok G -> structure_graph_ok (set_strategy u v G).
Proof.
  intros HG.
  assert (Hs : forall w, all_successors (set_strategy u v G) w = all_successors G w)
    by (intros; by apply attribute_set).
  assert (Hp : forall w, all_predecessors (set_strategy u v G) w = all_predecessors G w)
    by (intros; by apply attribute_set).
  assert (He : extent (set_strategy u v G) = extent G) by apply length_alter.
  split.
  - rewrite He. apply HG.
  - intros w x. rewrite Hs, He. apply HG.
  - intros w x. rewrite Hs, Hp. apply HG.
Qed.

End Graph.
Arguments vertex : clear implicits.
Arguments structure_graph : clear implicits.

End SG.

#[export] Existing Instance SG.structure_graph_StructureGraph.
#[export] Existing Instance SG.structure_graph_laws.

(** ** [simple_structure_graph] *)

Module SSG.

Section Graph.
Context {pbes_expression : Type}.

(** A reference to a vertex vector. *)
Record simple_structure_graph : Type := mk_simple { m_vertices : list (SG.vertex pbes_expression) }.

Definition find_vertex (G : simple_structure_graph) (u : nat)
  : option (SG.vertex pbes_expression) := m_vertices G !! u.

Definition decoration (G : simple_structure_graph) (u : nat) : decoration_type :=
  from_option SG.v_decoration d_none (find_vertex G u).

Definition extent (G : simple_structure_graph) : nat := length (m_vertices G).

Definition rank (G : simple_structure_graph) (u : nat) : N :=
  from_option SG.v_rank undefined_index (find_vertex G u).

Definition predecessors (G : simple_structure_graph) (u : nat) : list nat :=
  from_option SG.v_predecessors [] (find_vertex G u).

Definition successors (G : simple_structure_graph) (u : nat) : list nat :=
  from_option SG.v_successors [] (find_vertex G u).

Definition strategy (G : simple_structure_graph) (u : nat) : option nat :=
  from_option SG.v_strategy None (find_vertex G u).

Definition contains (G : simple_structure_graph) (u : nat) : bool := true.

Definition is_empty (G : simple_structure_graph) : bool :=
  match m_vertices G with [] => true | _ => false end.

Definition size (G : simple_structure_graph) : nat := length (m_vertices G).

Definition set_strategy (u : nat) (v : option nat) (G : simple_structure_graph)
  : simple_structure_graph :=
  mk_simple (alter (SG.with_strategy v) u (m_vertices G)).

#[export] Instance simple_StructureGraph : StructureGraph simple_structure_graph :=
  mk_StructureGraph _ extent contains decoration rank predecessors successors strategy
    set_strategy.

Lemma simple_find_vertex_set u v G w :
  find_vertex (set_strategy u v G) w =
  if decide (u = w) then SG.with_strategy v <$> find_vertex G w else find_vertex G w.
Proof.
  unfold find_vertex, set_strategy. cbn. case_decide as E; [subst|].
  - apply list_lookup_alter_eq.
  - by apply list_lookup_alter_ne.
Qed.

Lemma simple_attribute_set {A} (f : SG.vertex pbes_expression -> A) (d : A) u v G w :
  (forall x, f (SG.with_strategy v x) = f x) ->
  from_option f d (find_vertex (set_strategy u v G) w) = from_option f d (find_vertex G w).
Proof.
  intros Hf. rewrite simple_find_vertex_set. case_decide; [|done].
  destruct (find_vertex G w); [|done]. apply Hf.
Qed.

#[export] Instance simple_laws : StructureGraphLaws simple_structure_graph.
Proof.
  split; cbn.
  - intros g u v w Hu. unfold strategy. rewrite simple_find_vertex_set. case_decide as E; [|done].
    subst. destruct (lookup_lt_is_Some_2 (m_vertices g) w Hu) as [x Hx].
    unfold find_vertex. by rewrite Hx.
  - intros. unfold extent. apply length_alter.
  - done.
  - intros. by apply simple_attribute_set.
  - intros. by apply simple_attribute_set.
  - intros. by apply simple_attribute_set.
  - intros. by apply simple_attribute_set.
Qed.

End Graph.
Arguments simple_structure_graph : clear implicits.

End SSG.

#[export] Existing Instance SSG.simple_StructureGraph.
#[export] Existing Instance SSG.simple_laws.
