(* ===== verification/Attractors.v ===== *)
(** * Attractor sets
    ([libraries/pbes/include/mcrl2/pbes/pbessolve_attractors.h])

    [attr_default_generic] extends a vertex set [A] to the set of vertices from
    which player [alpha] can force the play into [A], by a breadth-first search
    over predecessors; every vertex it adds gets a strategy through the
    template parameter [Strategy].  The specification is the inductive
    predicate [attractor]; [attr_trace] describes the order in which the loop
    adds vertices, from which the later theorems on strategies follow. *)

From Stdlib Require Import Lia NArith.
From stdpp Require Import base strings numbers sets list.
From S2P Require Import Prelude VertexSets StructureGraph.

(** ** The template parameter [Strategy] *)

Class Strategy (S : Type) := set_strategy : nat -> option nat -> S -> S.

(** [no_strategy] *)
Definition no_strategy : Type := unit.
Definition no_strategy_set (u : nat) (v : option nat) (s : no_strategy) : no_strategy := s.
#[export] Instance no_strategy_Strategy : Strategy no_strategy := no_strategy_set.

(** [global_strategy]: the annotation goes into the vertices of the graph. *)
Record global_strategy (G : Type) : Type := mk_global { gs_graph : G }.
Arguments mk_global {G} _.
Arguments gs_graph {G} _.
Definition global_strategy_set {G} `{StructureGraph G} (u : nat) (v : option nat)
    (s : global_strategy G) : global_strategy G :=
  mk_global (sg_set_strategy u v (gs_graph s)).
#[export] Instance global_strategy_Strategy {G} `{StructureGraph G} :
  Strategy (global_strategy G) := global_strategy_set.

(** [local_strategy]: the annotation goes into [tau[alpha]]. *)
Record local_strategy : Type := mk_local
  { tau0 : StrategyVector.strategy_vector; tau1 : StrategyVector.strategy_vector;
    ls_alpha : nat }.
Definition local_strategy_set (u : nat) (v : option nat) (s : local_strategy)
  : local_strategy :=
  if ls_alpha s =? 0
  then mk_local (StrategyVector.set (tau0 s) u v) (tau1 s) (ls_alpha s)
  else mk_local (tau0 s) (StrategyVector.set (tau1 s) u v) (ls_alpha s).
#[export] Instance local_strategy_Strategy : Strategy local_strategy := local_strategy_set.

(** [global_local_strategy] *)
Record global_local_strategy (G : Type) : Type := mk_global_local
  { gls_global : global_strategy G; gls_local : local_strategy }.
Arguments mk_global_local {G} _ _.
Arguments gls_global {G} _.
Arguments gls_local {G} _.
Definition global_local_strategy_set {G} `{StructureGraph G} (u : nat) (v : option nat)
    (s : global_local_strategy G) : global_local_strategy G :=
  mk_global_local (global_strategy_set u v (gls_global s))
                  (local_strategy_set u v (gls_local s)).
#[export] Instance global_local_strategy_Strategy {G} `{StructureGraph G} :
  Strategy (global_local_strategy G) := global_local_strategy_set.

(** ** The algorithm *)

Section Algorithm.
Context {G : Type} `{StructureGraph G}.

(** [includes_successors]: succ(u) is a subset of A. *)
Definition includes_successors {V} `{VertexSet V} (g : G) (u : nat) (A : V) : bool :=
  forallb (vs_contains A) (sg_successors g u).

(** [find_successor_in] (of [pbessolve_vertex_set.h]): the first successor of
    [u] in [A]. *)
Definition find_successor_in {V} `{VertexSet V} (g : G) (u : nat) (A : V) : option nat :=
  List.find (vs_contains A) (sg_successors g u).

(** [insert_predecessors]: inserts pred(u) \ A into todo. *)
Definition insert_predecessors (g : G) (u : nat) (A : VSet.vertex_set)
    (todo : Deque.deque_vertex_set) : Deque.deque_vertex_set :=
  foldl (fun todo v => if negb (VSet.contains A v) then Deque.insert todo v else todo)
    todo (sg_predecessors g u).

(** [exclusive_predecessors]: pred(A) \ A. *)
Definition exclusive_predecessors (g : G) (A : VSet.vertex_set) : Deque.deque_vertex_set :=
  foldl (fun todo u =>
      foldl (fun todo v => if negb (VSet.contains A v) then Deque.insert todo v else todo)
        todo (sg_predecessors g u))
    (Deque.make (sg_extent g)) (VSet.m_vertices A).

Context {S : Type} `{Strategy S}.

(** The loop [while (!todo.is_empty())]; the first argument bounds the number
    of iterations. *)
Fixpoint attr_loop (fuel : nat) (g : G) (A : VSet.vertex_set) (alpha : nat)
    (todo : Deque.deque_vertex_set) (tau : S) : option (VSet.vertex_set * S) :=
  match fuel with
  | O => None
  | Datatypes.S fuel =>
      match Deque.pop_front todo with
      | None => Some (A, tau)
      | Some (u, todo) =>
          if (decoration_value (sg_decoration g u) =? alpha) || includes_successors g u A
          then
            let tau := set_strategy u (find_successor_in g u A) tau in
            let A := VSet.insert A u in
            attr_loop fuel g A alpha (insert_predecessors g u A todo) tau
          else attr_loop fuel g A alpha todo tau
      end
  end.

(** Every iteration takes a vertex from the queue and at most [extent]
    vertices can be added, each refilling the queue at most once. *)
Definition attr_fuel (g : G) : nat := Datatypes.S ((sg_extent g + 1) * (sg_extent g + 1)).

Definition attr_default_generic (g : G) (A : VSet.vertex_set) (alpha : nat) (tau : S)
  : option (VSet.vertex_set * S) :=
  attr_loop (attr_fuel g) g A alpha (exclusive_predecessors g A) tau.

End Algorithm.

(** [attr_default]: strategies are stored in the graph. *)
Definition attr_default {G} `{StructureGraph G} (g : G) (A : VSet.vertex_set) (alpha : nat)
  : option (VSet.vertex_set * G) :=
  match attr_default_generic g A alpha (mk_global g) with
  | Some (A, s) => Some (A, gs_graph s)
  | None => None
  end.

Definition attr_default_no_strategy {G} `{StructureGraph G} (g : G) (A : VSet.vertex_set)
    (alpha : nat) : option VSet.vertex_set :=
  match attr_default_generic g A alpha (tt : no_strategy) with
  | Some (A, _) => Some A
  | None => None
  end.

Definition attr_default_with_tau {G} `{StructureGraph G} (g : G) (A : VSet.vertex_set)
    (alpha : nat) (tau : StrategyVector.strategy_vector * StrategyVector.strategy_vector)
  : option (VSet.vertex_set * G *
            (StrategyVector.strategy_vector * StrategyVector.strategy_vector)) :=
  match attr_default_generic g A alpha
          (mk_global_local (mk_global g) (mk_local (fst tau) (snd tau) alpha)) with
  | Some (A, s) =>
      Some (A, gs_graph (gls_global s), (tau0 (gls_local s), tau1 (gls_local s)))
  | None => None
  end.

(** ** Specification *)

Section Spec.
Context {G : Type} `{StructureGraph G}.

(** [u] can be attracted to the set [A] in one step by player [alpha]. *)
Definition attractable (g : G) (alpha : nat) (A : nat -> Prop) (u : nat) : Prop :=
  in_graph g u /\ (exists v, v ∈ sg_successors g u /\ A v) /\
  (decoration_value (sg_decoration g u) = alpha \/
   forall v, v ∈ sg_successors g u -> A v).

(** The attractor of [A0]: the least set that contains [A0] and every vertex
    that is owned by [alpha] and has a successor in the set, or that has
    successors and all of them in the set. *)
Inductive attractor (g : G) (alpha : nat) (A0 : nat -> Prop) : nat -> Prop :=
| attractor_base u : A0 u -> attractor g alpha A0 u
| attractor_own u v :
    in_graph g u -> decoration_value (sg_decoration g u) = alpha ->
    v ∈ sg_successors g u -> attractor g alpha A0 v -> attractor g alpha A0 u
| attractor_all u v :
    in_graph g u -> v ∈ sg_successors g u ->
    (forall w, w ∈ sg_successors g u -> attractor g alpha A0 w) ->
    attractor g alpha A0 u.

(** The order in which the loop extends the vector [A]: each pair is a vertex
    that is added and the strategy recorded for it. *)
Inductive attr_trace (g : G) (alpha : nat) : list nat -> list (nat * option nat) -> Prop :=
| trace_nil A : attr_trace g alpha A []
| trace_cons A u v L :
    u ∉ A -> in_graph g u -> v ∈ sg_successors g u -> v ∈ A ->
    (decoration_value (sg_decoration g u) = alpha \/
     forall w, w ∈ sg_successors g u -> w ∈ A) ->
    attr_trace g alpha (A ++ [u]) L ->
    attr_trace g alpha A ((u, Some v) :: L).

Lemma attr_trace_sound g alpha A0 A L :
  attr_trace g alpha A L ->
  (forall u, u ∈ A -> attractor g alpha A0 u) ->
  forall u, u ∈ A ++ L.*1 -> attractor g alpha A0 u.
Proof.
  induction 1 as [A|A u v L Hu Hin Hv HvA Hd HL IH]; intros HA.
  - intros u. rewrite app_nil_r. apply HA.
  - intros w Hw. apply IH.
    + intros x [Hx| ->%list_elem_of_singleton]%elem_of_app; [by apply HA|].
      destruct Hd as [Hd|Hd]; [eapply attractor_own|eapply attractor_all]; eauto.
    + rewrite <- app_assoc. exact Hw.
Qed.

(** Where an added vertex stands: the recorded successor, and all successors of
    a vertex of the other player, come before it. *)
Lemma attr_trace_prefix g alpha A L u v :
  attr_trace g alpha A L -> (u, v) ∈ L ->
  exists pre post w, A ++ L.*1 = pre ++ u :: post /\ (u ∉ pre) /\ in_graph g u /\
    v = Some w /\ w ∈ pre /\ w ∈ sg_successors g u /\
    (decoration_value (sg_decoration g u) = alpha \/
     forall x, x ∈ sg_successors g u -> x ∈ pre).
Proof.
  induction 1 as [A|A u' w L Hu Hin Hw HwA Hd HL IH]; intros Huv; [by apply elem_of_nil in Huv|].
  apply elem_of_cons in Huv as [[= -> ->]|Huv].
  - exists A, L.*1, w. done.
  - destruct (IH Huv) as (pre & post & x & E & ?). exists pre, post, x.
    split; [|done]. cbn. by rewrite <- E, <- app_assoc.
Qed.

(** A set that no vertex outside can be attracted to contains the attractor. *)
Lemma attractor_complete g alpha A0 (A : nat -> Prop) :
  (forall u, A0 u -> A u) ->
  (forall u, attractable g alpha A u -> A u) ->
  forall u, attractor g alpha A0 u -> A u.
Proof.
  intros H0 Hc. fix IH 2. intros u [w Hw|w v Hin Hd Hv Ha|w v Hin Hv Ha].
  - by apply H0.
  - apply Hc. split; [done|]. split; [exists v; split; [done|by apply IH]|by left].
  - apply Hc. split; [done|]. split; [exists v; split; [done|by apply IH, Ha]|].
    right. intros x Hx. by apply IH, Ha.
Qed.

End Spec.

(** ** Correctness of the loop *)

Section Correct.
Context {G : Type} `{StructureGraph G}.

Lemma deque_insert_loop m n A l d :
  VSet.ok m A -> Deque.ok n d -> (forall v, v ∈ l -> v < n) ->
  let R := foldl (fun todo v => if negb (VSet.contains A v) then Deque.insert todo v else todo)
             d l in
  Deque.ok n R /\
  forall u, u ∈ Deque.m_vertices R <->
    u ∈ Deque.m_vertices d \/ (u ∈ l /\ u ∉ VSet.m_vertices A).
Proof.
  intros HA. revert d. induction l as [|v l IH]; intros d Hd Hl; cbn.
  { split; [done|]. set_solver. }
  assert (Hv : v < n) by (apply Hl; left).
  destruct (VSet.contains A v) eqn:Ev; cbn [negb].
  - destruct (IH d Hd) as [Hok He]; [set_solver|]. split; [done|]. intros u.
    apply (VSet.contains_elem m A v HA) in Ev. rewrite He, elem_of_cons.
    split; [tauto|intros [|[[->|] ?]]; tauto].
  - destruct (IH (Deque.insert d v)) as [Hok He];
      [by apply Deque.deque_insert_ok|set_solver|].
    apply (VSet.contains_false m A v HA) in Ev.
    split; [done|]. intros u. rewrite He, (Deque.deque_insert_elem n d v u Hd), elem_of_cons.
    split; [intros [[->|]|]; tauto|intros [|[[->|] ?]]; tauto].
Qed.

Lemma insert_predecessors_spec m g u A d :
  graph_ok g -> VSet.ok m A -> Deque.ok (sg_extent g) d ->
  Deque.ok (sg_extent g) (insert_predecessors g u A d) /\
  forall w, w ∈ Deque.m_vertices (insert_predecessors g u A d) <->
    w ∈ Deque.m_vertices d \/ (w ∈ sg_predecessors g u /\ w ∉ VSet.m_vertices A).
Proof.
  intros Hg HA Hd. apply (deque_insert_loop m); auto.
  intros v Hv. by apply (predecessors_in g Hg v u Hv).
Qed.

Lemma exclusive_predecessors_spec m g A :
  graph_ok g -> VSet.ok m A ->
  Deque.ok (sg_extent g) (exclusive_predecessors g A) /\
  forall w, w ∈ Deque.m_vertices (exclusive_predecessors g A) <->
    (exists u, u ∈ VSet.m_vertices A /\ w ∈ sg_predecessors g u) /\ w ∉ VSet.m_vertices A.
Proof.
  intros Hg HA. unfold exclusive_predecessors.
  assert (Hl : forall l d, Deque.ok (sg_extent g) d ->
    let R := foldl (fun todo u => insert_predecessors g u A todo) d l in
    Deque.ok (sg_extent g) R /\ forall w, w ∈ Deque.m_vertices R <->
      w ∈ Deque.m_vertices d \/
      ((exists u, u ∈ l /\ w ∈ sg_predecessors g u) /\ w ∉ VSet.m_vertices A)).
  { induction l as [|u l IH]; intros d Hd; cbn.
    - split; [done|]. set_solver.
    - destruct (insert_predecessors_spec m g u A d Hg HA Hd) as [H1 E1].
      destruct (IH _ H1) as [H2 E2]. split; [done|]. intros w. rewrite E2, E1.
      setoid_rewrite elem_of_cons. naive_solver. }
  destruct (Hl (VSet.m_vertices A) (Deque.make (sg_extent g))) as [H1 E1];
    [apply Deque.deque_make_ok|].
  split; [exact H1|]. intros w. etransitivity; [apply E1|]. cbn. set_solver.
Qed.

Lemma includes_successors_spec n g u A :
  VSet.ok n A ->
  includes_successors g u A = true <->
  forall v, v ∈ sg_successors g u -> v ∈ VSet.m_vertices A.
Proof.
  intros HA. unfold includes_successors. rewrite forallb_forall.
  split; intros Hs v Hv.
  - apply (VSet.contains_elem n A v HA), Hs, list_elem_of_In, Hv.
  - apply (VSet.contains_elem n A v HA), Hs, list_elem_of_In, Hv.
Qed.

Lemma find_successor_in_spec n g u A v0 :
  VSet.ok n A -> v0 ∈ sg_successors g u -> v0 ∈ VSet.m_vertices A ->
  exists v, find_successor_in g u A = Some v /\
    v ∈ sg_successors g u /\ v ∈ VSet.m_vertices A.
Proof.
  intros HA Hs Hv. unfold find_successor_in.
  destruct (List.find _ _) as [v|] eqn:E.
  - apply find_some in E as [E1 E2]. exists v. split; [done|].
    split; [by apply list_elem_of_In|by apply (VSet.contains_elem n A v HA)].
  - exfalso. apply list_elem_of_In in Hs. pose proof (find_none _ _ E v0 Hs) as Hf.
    apply (VSet.contains_elem n A v0 HA) in Hv. unfold vs_contains, vertex_set_VertexSet in Hf.
    congruence.
Qed.

Context {S : Type} `{Strategy S}.

(** What the loop does to the strategy: the recorded pairs, in order. *)
Definition apply_strategies (L : list (nat * option nat)) (tau : S) : S :=
  foldl (fun s p => set_strategy p.1 p.2 s) tau L.

(** The loop invariant; [m] is the extent of the set [A], which may be larger
    than that of the graph ([vertex_set::resize] rounds it up). *)
Record loop_inv (m : nat) (g : G) (alpha : nat) (A : VSet.vertex_set) (d : Deque.deque_vertex_set)
  : Prop := {
  inv_A : VSet.ok m A;
  inv_todo : Deque.ok (sg_extent g) d;
  inv_A_in : forall u, u ∈ VSet.m_vertices A -> in_graph g u;
  inv_todo_out : forall u, u ∈ Deque.m_vertices d ->
    in_graph g u /\ (u ∉ VSet.m_vertices A) /\
    exists v, v ∈ sg_successors g u /\ v ∈ VSet.m_vertices A;
  inv_closed : forall u, u ∉ VSet.m_vertices A ->
    attractable g alpha (fun v => v ∈ VSet.m_vertices A) u -> u ∈ Deque.m_vertices d
}.

Lemma loop_inv_skip m g alpha A d u d' :
  loop_inv m g alpha A d -> Deque.pop_front d = Some (u, d') ->
  decoration_value (sg_decoration g u) <> alpha -> includes_successors g u A = false ->
  loop_inv m g alpha A d'.
Proof.
  intros [HA Hd Hin Hout Hcl] Hp Hdec Hinc.
  destruct (Deque.deque_pop_front_ok _ _ _ _ Hd Hp) as (Hd' & E & _ & _).
  split; auto.
  - intros w Hw. apply Hout. rewrite E. by right.
  - intros w Hw Ha. specialize (Hcl w Hw Ha). rewrite E in Hcl.
    apply elem_of_cons in Hcl as [->|]; [|done].
    destruct Ha as (_ & _ & [|Hall]); [done|].
    apply (includes_successors_spec _ g u A HA) in Hall. congruence.
Qed.

Lemma loop_inv_add m g alpha A d u d' :
  graph_ok g -> sg_extent g <= m -> loop_inv m g alpha A d -> Deque.pop_front d = Some (u, d') ->
  loop_inv m g alpha (VSet.insert A u) (insert_predecessors g u (VSet.insert A u) d').
Proof.
  intros Hg Hm [HA Hd Hin Hout Hcl] Hp.
  destruct (Deque.deque_pop_front_ok _ _ _ _ Hd Hp) as (Hd' & E & Hnd & Hlt).
  assert (Hu : u ∈ Deque.m_vertices d) by (rewrite E; left).
  destruct (Hout u Hu) as (Hgu & HuA & v & Hv & HvA).
  assert (HA' : VSet.ok m (VSet.insert A u)) by (apply VSet.insert_ok; [done|lia]).
  pose proof (fun w => VSet.insert_elem _ A u w HA) as EA.
  destruct (insert_predecessors_spec m g u (VSet.insert A u) d' Hg HA' Hd') as [H1 E1].
  split; auto.
  - intros w. rewrite EA. intros [->|]; auto.
  - intros w. rewrite E1, EA. intros [Hw|[Hw Hn]].
    + destruct (Hout w) as (? & ? & x & ? & ?); [rewrite E; by right|].
      split; [done|]. split; [intros [->|]; done|]. exists x. rewrite EA. auto.
    + pose proof (predecessors_in g Hg w u Hw) as Hgw. split; [done|].
      split; [exact Hn|]. exists u. rewrite EA. split; [|auto]. by apply (edges_match g Hg).
  - intros w Hw (Hgw & (x & Hx & HxA) & Hatt). rewrite E1. rewrite EA in Hw.
    destruct (decide (u ∈ sg_successors g w)) as [Huw|Huw].
    { right. rewrite EA. split; [by apply (edges_match g Hg)|exact Hw]. }
    left.
    assert (w ∈ Deque.m_vertices d) as Hwd.
    { apply Hcl; [tauto|]. split; [done|]. rewrite EA in HxA. split.
      - exists x. destruct HxA as [->|]; [done|auto].
      - destruct Hatt as [?|Hall]; [by left|right]. intros y Hy.
        specialize (Hall y Hy). rewrite EA in Hall. by destruct Hall as [->|]. }
    rewrite E in Hwd. apply elem_of_cons in Hwd as [->|]; [tauto|done].
Qed.

(** The number of iterations still needed. *)
Definition loop_measure (g : G) (A : VSet.vertex_set) (d : Deque.deque_vertex_set) : nat :=
  (sg_extent g - length (VSet.m_vertices A)) * (sg_extent g + 1) +
  length (Deque.m_vertices d).

Lemma loop_inv_length m g alpha A d :
  loop_inv m g alpha A d -> length (VSet.m_vertices A) <= sg_extent g.
Proof.
  intros Hinv. apply NoDup_bounded_length; [apply (inv_A _ _ _ _ _ Hinv)|].
  intros u Hu. apply (inv_A_in _ _ _ _ _ Hinv u Hu).
Qed.

Lemma attr_loop_spec m fuel g alpha A d tau :
  graph_ok g -> sg_extent g <= m -> loop_inv m g alpha A d -> loop_measure g A d < fuel ->
  exists A' L, attr_loop fuel g A alpha d tau = Some (A', apply_strategies L tau) /\
    VSet.ok m A' /\ VSet.m_vertices A' = VSet.m_vertices A ++ L.*1 /\
    attr_trace g alpha (VSet.m_vertices A) L /\
    forall u, attractable g alpha (fun v => v ∈ VSet.m_vertices A') u ->
      u ∈ VSet.m_vertices A'.
Proof.
  intros Hg Hext. revert A d tau.
  induction fuel as [|fuel IH]; intros A d tau Hinv Hm; [lia|]. cbn [attr_loop].
  destruct (Deque.pop_front d) as [[u d']|] eqn:Hp.
  - pose proof (Deque.deque_pop_front_ok _ _ _ _ (inv_todo _ _ _ _ _ Hinv) Hp)
      as (Hd' & E & _ & Hlt).
    destruct (_ || _) eqn:Ec.
    + destruct (inv_todo_out _ _ _ _ _ Hinv u) as (Hgu & HuA & v0 & Hv0 & HvA);
        [rewrite E; left|].
      pose proof (inv_A _ _ _ _ _ Hinv) as HA.
      destruct (find_successor_in_spec _ g u A v0 HA Hv0 HvA) as (v & -> & Hv & HvA').
      pose proof (loop_inv_add m g alpha A d u d' Hg Hext Hinv Hp) as Hinv'.
      pose proof (VSet.insert_fresh _ A u HA HuA) as Ei.
      destruct (IH _ _ (set_strategy u (Some v) tau) Hinv') as (A' & L & -> & HA' & EA' & HL & Hc).
      { unfold loop_measure in *. pose proof (loop_inv_length _ _ _ _ _ Hinv').
        pose proof (Deque.deque_ok_length _ _ (inv_todo _ _ _ _ _ Hinv')).
        rewrite Ei, length_app in *. cbn [length] in *. nia. }
      exists A', ((u, Some v) :: L). split; [done|]. split; [done|].
      split; [rewrite EA', Ei, <- app_assoc; done|]. split; [|done].
      rewrite Ei in HL. eapply trace_cons; eauto.
      apply orb_true_iff in Ec as [Ec|Ec]; [left; by apply Nat.eqb_eq|right].
      by apply (includes_successors_spec _ g u A HA).
    + apply orb_false_iff in Ec as [Ec1 Ec2]. apply Nat.eqb_neq in Ec1.
      apply IH; [by eapply loop_inv_skip|].
      unfold loop_measure in *. rewrite E in Hm. cbn in Hm. lia.
  - assert (E : Deque.m_vertices d = []).
    { unfold Deque.pop_front in Hp. by destruct (Deque.m_vertices d). }
    exists A, []. split; [done|]. split; [apply Hinv|]. cbn. rewrite app_nil_r.
    split; [done|]. split; [constructor|]. intros u Hu.
    destruct (decide (u ∈ VSet.m_vertices A)) as [|Hn]; [done|].
    pose proof (inv_closed _ _ _ _ _ Hinv u Hn Hu) as Hd. rewrite E in Hd.
    by apply elem_of_nil in Hd.
Qed.

Lemma attr_default_generic_spec m g alpha A tau :
  graph_ok g -> sg_extent g <= m -> VSet.ok m A ->
  (forall u, u ∈ VSet.m_vertices A -> in_graph g u) ->
  exists A' L, attr_default_generic g A alpha tau = Some (A', apply_strategies L tau) /\
    VSet.ok m A' /\ VSet.m_vertices A' = VSet.m_vertices A ++ L.*1 /\
    attr_trace g alpha (VSet.m_vertices A) L /\
    forall u, attractable g alpha (fun v => v ∈ VSet.m_vertices A') u ->
      u ∈ VSet.m_vertices A'.
Proof.
  intros Hg Hm HA Hin. apply attr_loop_spec; [done|done| |].
  - destruct (exclusive_predecessors_spec m g A Hg HA) as [H1 E1].
    split; auto.
    + intros u Hu. apply E1 in Hu as [(w & Hw & Hp) Hn].
      pose proof (predecessors_in g Hg u w Hp). split; [done|]. split; [done|].
      exists w. split; [by apply (edges_match g Hg); auto|done].
    + intros u Hu (Hgu & (v & Hv & HvA) & _). apply E1. split; [|done].
      exists v. split; [done|]. apply (edges_match g Hg); auto.
  - unfold loop_measure, attr_fuel.
    pose proof (Deque.deque_ok_length _ _ (proj1 (exclusive_predecessors_spec m g A Hg HA))). nia.
Qed.

(** C8: [attr_default_generic] terminates within its fuel on every well-formed
    graph and returns exactly the attractor: the least set containing [A] that
    is closed under forced moves of player [alpha], for either kind of
    structure graph, any strategy recorder and any set extent [m] that holds
    the vertices. *)
Theorem attr_default_generic_correct m g alpha A tau :
  graph_ok g -> sg_extent g <= m -> VSet.ok m A ->
  (forall u, u ∈ VSet.m_vertices A -> in_graph g u) ->
  exists A' tau', attr_default_generic g A alpha tau = Some (A', tau') /\
    VSet.ok m A' /\
    forall u, VSet.contains A' u = true <->
      attractor g alpha (fun v => VSet.contains A v = true) u.
Proof.
  intros Hg Hm HA Hin.
  destruct (attr_default_generic_spec m g alpha A tau Hg Hm HA Hin)
    as (A' & L & E & HA' & EA & HL & Hc).
  exists A', (apply_strategies L tau). split; [done|]. split; [done|]. intros u.
  rewrite (VSet.contains_elem _ A' u HA'). split.
  - rewrite EA. apply (attr_trace_sound g alpha _ _ _ HL).
    intros w Hw. apply attractor_base. by apply (VSet.contains_elem _ A w HA).
  - apply (attractor_complete g alpha _ (fun v => v ∈ VSet.m_vertices A')); [|exact Hc].
    intros w Hw. apply (VSet.contains_elem _ A w HA) in Hw. rewrite EA. set_solver.
Qed.

End Correct.
