(* ===== verification/ParityGame.v ===== *)
(** * Parity games: plays, winning regions and the steps of Zielonka's algorithm

    The specification against which the structure-graph solver is proved.  A
    game is a graph on natural numbers with an owner and a rank per vertex;
    player 0 owns disjunctive, player 1 conjunctive vertices, and the least
    rank seen infinitely often decides an infinite play (even for player 0).
    [wins_from] is the game-theoretic definition over infinite and maximal
    finite plays; [region] is the finite certificate the proofs build (a closed
    set in which every cycle has the right parity).  [region_wins] connects the
    two.  The remaining lemmas are the set-level steps of the recursive
    algorithm and, at the end, ways to carry regions from one game to another;
    they do not mention the code. *)

From Stdlib Require Import Lia NArith Classical.
From stdpp Require Import base option numbers sets list relations.
From S2P Require Import Prelude.

(** ** Walks *)

Inductive walk (R : nat -> nat -> Prop) : nat -> list nat -> nat -> Prop :=
| walk_nil x : walk R x [] x
| walk_cons x y l z : R x y -> walk R y l z -> walk R x (y :: l) z.

Section Walks.
Context (R : nat -> nat -> Prop).

Lemma walk_app x l y m z : walk R x l y -> walk R y m z -> walk R x (l ++ m) z.
Proof. induction 1; intros; [done|]. cbn. econstructor; eauto. Qed.

Lemma walk_split x l1 a l2 z :
  walk R x (l1 ++ a :: l2) z -> walk R x (l1 ++ [a]) a /\ walk R a l2 z.
Proof.
  revert x. induction l1 as [|b l1 IH]; intros x Hw; cbn in *.
  - inversion Hw; subst. split; [|done]. econstructor; [done|constructor].
  - inversion Hw; subst. destruct (IH b) as [Hl Hr]; [done|].
    split; [by econstructor|done].
Qed.

(** A set that is closed under the steps contains every vertex after its first. *)
Lemma walk_closed (P : nat -> Prop) x l z :
  (forall u v, P u -> R u v -> P v) -> P x -> walk R x l z ->
  P z /\ forall y, y ∈ l -> P y.
Proof.
  intros Hc Hx Hw. induction Hw as [x|x y l z Hs Hw IH].
  - split; [done|]. intros y Hy. by apply elem_of_nil in Hy.
  - destruct (IH (Hc _ _ Hx Hs)) as [Hz Hl]. split; [done|].
    intros w [->|]%elem_of_cons; [exact (Hc _ _ Hx Hs)|auto].
Qed.

Lemma walk_last x l z : walk R x l z -> l <> [] -> z ∈ l.
Proof.
  induction 1 as [|x y l z _ Hw IH]; [done|]. intros _.
  destruct l as [|w l]; [inversion Hw; left|right; by apply IH].
Qed.

Lemma walk_rotate x l a :
  walk R x l x -> a ∈ l ->
  exists l', walk R a l' a /\ l' <> [] /\ forall y, y ∈ l' <-> y ∈ l.
Proof.
  intros Hw Ha. apply list_elem_of_split in Ha as (l1 & l2 & ->).
  apply walk_split in Hw as [H1 H2]. exists (l2 ++ l1 ++ [a]). split; [|split].
  - by eapply walk_app.
  - by destruct l2, l1.
  - intros y. set_solver.
Qed.

Lemma cycle_closed (P : nat -> Prop) x l a :
  (forall u v, P u -> R u v -> P v) -> walk R x l x -> a ∈ l -> P a ->
  forall y, y ∈ l -> P y.
Proof.
  intros Hc Hw Ha HP y Hy. destruct (walk_rotate x l a Hw Ha) as (l' & Hw' & _ & E).
  apply E in Hy. by eapply (walk_closed P).
Qed.

(** A cycle through a set in which every step outside [T] descends meets [T]. *)
Lemma cycle_meets (A T : nat -> Prop) (mu : nat -> nat) x l a :
  (forall u v, A u -> ~ T u -> R u v -> A v /\ mu v < mu u) ->
  walk R x l x -> a ∈ l -> A a -> exists t, t ∈ l /\ T t.
Proof.
  intros Hd Hw Ha HA. apply NNPP. intros Hno.
  destruct (walk_rotate x l a Hw Ha) as (l' & Hw' & Hne & E).
  assert (Hdesc : forall u m v, walk R u m v -> A u -> ~ T u ->
    (forall y, y ∈ m -> ~ T y) -> m <> [] -> mu v < mu u).
  { induction 1 as [u|u y m v Hs Hm IH]; intros HAu HTu HT Hm0; [done|].
    destruct (Hd u y HAu HTu Hs) as [HAy Hlt].
    destruct m as [|w m]; [inversion Hm; subst; lia|].
    assert (mu v < mu y); [|lia]. apply IH; auto; [apply HT; left|].
    intros z Hz. apply HT. by right. }
  assert (mu a < mu a); [|lia]. apply (Hdesc a l' a); auto.
  - intros HT. apply Hno. eauto.
  - intros y Hy HT. apply Hno. exists y. split; [by apply E|done].
Qed.

End Walks.

Lemma walk_mono (R R' : nat -> nat -> Prop) (P : nat -> Prop) x l z :
  (forall u v, P u -> P v -> R u v -> R' u v) ->
  P x -> (forall y, y ∈ l -> P y) -> walk R x l z -> walk R' x l z.
Proof.
  intros Hm Hx Hl Hw. induction Hw as [x|x y l z Hs Hw IH]; [constructor|].
  econstructor; [apply Hm; auto; apply Hl; left|].
  apply IH; [apply Hl; left|]. intros w Hw'. apply Hl. by right.
Qed.

(** ** Games *)

(** The player who wins at a rank: 0 for even, 1 for odd. *)
Definition parity (r : N) : nat := N.to_nat (r mod 2).

Lemma parity_lt m : parity m < 2.
Proof. unfold parity. pose proof (N.mod_lt m 2). lia. Qed.

Section Game.
(** Edges, owners, ranks, and the player who wins a play that ends in a vertex
    without successors. *)
Context (E : nat -> nat -> Prop) (own : nat -> nat -> Prop) (rk : nat -> N)
        (dead : nat -> nat).

Implicit Types (X W A T : nat -> Prop) (sigma : nat -> option nat).

Definition has_successor X (u : nat) : Prop := exists v, E u v /\ X v.

(** A move in the subgame [X] when player [alpha] follows [sigma]. *)
Definition move X (alpha : nat) sigma (u v : nat) : Prop :=
  E u v /\ X v /\ (own alpha u -> sigma u = Some v).

(** *** Plays and winning *)

(** The least rank that occurs infinitely often along [f] is won by [alpha]. *)
Definition infinite_play_won (alpha : nat) (f : nat -> nat) : Prop :=
  exists r, parity r = alpha /\
    (forall n, exists m, n <= m /\ rk (f m) = r) /\
    (exists n, forall m, n <= m -> (r <= rk (f m))%N).

(** Player [alpha] wins from [u] with [sigma]: all infinite plays that follow
    [sigma] are won; wherever such a play can get, [sigma] can continue, and
    where the play cannot continue [alpha] is the winner. *)
Definition wins_from X (alpha : nat) sigma (u : nat) : Prop :=
  (forall f, f 0 = u -> (forall i, move X alpha sigma (f i) (f (S i))) ->
     infinite_play_won alpha f) /\
  (forall w, rtc (move X alpha sigma) u w ->
     (own alpha w -> has_successor X w ->
        exists v, sigma w = Some v /\ E w v /\ X v) /\
     (~ has_successor X w -> dead w = alpha)).

(** *** Winning regions *)

Definition good_cycle (alpha : nat) (l : list nat) : Prop :=
  exists y, y ∈ l /\ parity (rk y) = alpha /\ forall z, z ∈ l -> (rk y <= rk z)%N.

Record region X (alpha : nat) sigma W : Prop := {
  region_sub : forall u, W u -> X u;
  region_own : forall u, W u -> own alpha u -> has_successor X u ->
    exists v, sigma u = Some v /\ E u v /\ X v /\ W v;
  region_opp : forall u v, W u -> ~ own alpha u -> E u v -> X v -> W v;
  region_dead : forall u, W u -> ~ has_successor X u -> dead u = alpha;
  region_cycle : forall x l, W x -> l <> [] -> walk (move X alpha sigma) x l x ->
    good_cycle alpha l
}.

Lemma region_closed X alpha sigma W u v :
  region X alpha sigma W -> W u -> move X alpha sigma u v -> W v.
Proof.
  intros HW Hu (He & Hx & Hs). destruct (classic (own alpha u)) as [Ho|Ho].
  - destruct (region_own _ _ _ _ HW u Hu Ho) as (w & Hw & _ & _ & HWw); [by exists v|].
    specialize (Hs Ho). congruence.
  - by eapply (region_opp _ _ _ _ HW).
Qed.

(** A cycle of a larger game that stays inside a region is a good one. *)
Lemma region_cycle_within X X' alpha sigma W x l :
  region X' alpha sigma W -> walk (move X alpha sigma) x l x -> l <> [] ->
  (forall y, y ∈ l -> W y) -> good_cycle alpha l.
Proof.
  intros HW Hw Hl HWl. pose proof (walk_last _ _ _ _ Hw Hl) as Hx.
  apply (region_cycle _ _ _ _ HW x l (HWl x Hx) Hl).
  apply (walk_mono (move X alpha sigma) _ W); auto.
  intros u v _ Hv (He & _ & Hs). split; [done|]. split; [by apply HW|done].
Qed.

(** The certificate only looks at the strategy inside the set. *)
Lemma region_ext X alpha sigma sigma' W :
  (forall u, W u -> sigma u = sigma' u) -> region X alpha sigma W -> region X alpha sigma' W.
Proof.
  intros Hs HW. split.
  - apply HW.
  - intros u Hu. rewrite <- Hs by done. by apply HW.
  - apply HW.
  - apply HW.
  - intros x l Hx Hl Hw. apply (region_cycle _ _ _ _ HW x l Hx Hl).
    assert (Hc : forall u v, W u -> move X alpha sigma' u v -> W v).
    { intros u v Hu Hm. apply (region_closed _ _ _ _ _ _ HW Hu).
      unfold move in *. by rewrite Hs. }
    destruct (walk_closed _ W x l x Hc Hx Hw) as [_ Hl'].
    apply (walk_mono (move X alpha sigma') _ W); auto.
    intros u v Hu _ Hm. unfold move in *. by rewrite Hs.
Qed.

Lemma region_set_ext X alpha sigma W W' :
  (forall u, W u <-> W' u) -> region X alpha sigma W -> region X alpha sigma W'.
Proof.
  intros HE [H1 H2 H3 H4 H5]. split.
  - intros u Hu. apply H1. by apply HE.
  - intros u Hu Ho Hs. destruct (H2 u) as (v & ? & ? & ? & ?); auto; [by apply HE|].
    exists v. rewrite <- HE. auto.
  - intros u v Hu Ho He Hx. apply HE. eapply H3; eauto. by apply HE.
  - intros u Hu. apply H4. by apply HE.
  - intros x l Hx. apply H5. by apply HE.
Qed.

Lemma move_game_ext X X' alpha sigma u v :
  (forall w, X w <-> X' w) -> move X alpha sigma u v -> move X' alpha sigma u v.
Proof. intros HE (? & ? & ?). split; [done|]. split; [by apply HE|done]. Qed.

Lemma has_successor_game_ext X X' u :
  (forall w, X w <-> X' w) -> has_successor X u -> has_successor X' u.
Proof. intros HE (v & ? & ?). exists v. split; [done|by apply HE]. Qed.

Lemma region_game_ext X X' alpha sigma W :
  (forall u, X u <-> X' u) -> region X alpha sigma W -> region X' alpha sigma W.
Proof.
  intros HE HW. assert (HE' : forall u, X' u <-> X u) by (intros; by rewrite HE). split.
  - intros u Hu. by apply HE, (region_sub _ _ _ _ HW).
  - intros u Hu Ho Hs. destruct (region_own _ _ _ _ HW u Hu Ho) as (v & ? & ? & ? & ?).
    + by eapply has_successor_game_ext.
    + exists v. rewrite <- HE. auto.
  - intros u v Hu Ho He Hx. eapply (region_opp _ _ _ _ HW); eauto. by apply HE.
  - intros u Hu Hd. apply (region_dead _ _ _ _ HW u Hu). intros Hs. apply Hd.
    by eapply has_successor_game_ext.
  - intros x l Hx Hl Hw. apply (region_cycle _ _ _ _ HW x l Hx Hl).
    apply (walk_mono (move X' alpha sigma) _ (fun _ => True)); auto.
    intros u v _ _. by apply move_game_ext.
Qed.

Lemma region_empty X alpha sigma W : (forall u, ~ W u) -> region X alpha sigma W.
Proof. intros HW. split; intros; exfalso; eapply HW; eauto. Qed.

(** A region is one in every subgame that contains it. *)
Lemma region_restrict X X' alpha sigma W :
  (forall u, X' u -> X u) -> (forall u, W u -> X' u) ->
  region X alpha sigma W -> region X' alpha sigma W.
Proof.
  intros HXX HWX HW.
  assert (Hs : forall u, has_successor X' u -> has_successor X u).
  { intros u (v & He & Hv). exists v. auto. }
  split.
  - done.
  - intros u Hu Ho Hsu. destruct (region_own _ _ _ _ HW u Hu Ho (Hs u Hsu)) as (v & ? & ? & ? & ?).
    eauto 10.
  - intros u v Hu Ho He Hx. eapply (region_opp _ _ _ _ HW); eauto.
  - intros u Hu Hd. apply (region_dead _ _ _ _ HW u Hu). intros Hsu. apply Hd.
    destruct (classic (own alpha u)) as [Ho|Ho].
    + destruct (region_own _ _ _ _ HW u Hu Ho Hsu) as (v & _ & ? & _ & ?). exists v. auto.
    + destruct Hsu as (v & He & Hv). exists v. split; [done|]. apply HWX.
      by eapply (region_opp _ _ _ _ HW).
  - intros x l Hx Hl Hw. apply (region_cycle _ _ _ _ HW x l Hx Hl).
    apply (walk_mono (move X' alpha sigma) _ (fun _ => True)); auto.
    intros u v _ _ (He & Hv & Hsg). split; [done|]. split; [by apply HXX|done].
Qed.

(** *** A winning region wins *)

Definition infinitely_often (f : nat -> nat) (v : nat) : Prop :=
  forall n, exists m, n <= m /\ f m = v.

(** Vertices that are not visited infinitely often are left behind. *)
Lemma eventually_infinitely_often (f : nat -> nat) k :
  exists n, forall m, n <= m -> f m < k -> infinitely_often f (f m).
Proof.
  induction k as [|k [n IH]]; [exists 0; lia|].
  destruct (classic (infinitely_often f k)) as [Hk|Hk].
  - exists n. intros m Hm Hlt. destruct (decide (f m = k)) as [->|]; [done|].
    apply IH; lia.
  - apply not_all_ex_not in Hk as [b Hb]. exists (n `max` b). intros m Hm Hlt.
    destruct (decide (f m = k)) as [Ek|]; [|apply IH; lia].
    exfalso. apply Hb. exists m. split; [lia|done].
Qed.

Lemma minimal_rank (P : nat -> Prop) x :
  P x -> exists y, P y /\ forall z, P z -> (rk y <= rk z)%N.
Proof.
  remember (rk x) as r eqn:Er. revert x Er.
  induction r as [r IH] using (well_founded_induction N.lt_wf_0). intros x -> Hx.
  destruct (classic (exists z, P z /\ (rk z < rk x)%N)) as [(z & Hz & Hlt)|Hno].
  - by apply (IH (rk z) Hlt z).
  - exists x. split; [done|]. intros z Hz. apply N.nlt_ge. intros Hlt. apply Hno. eauto.
Qed.

Lemma play_walk X alpha sigma (f : nat -> nat) i k :
  (forall j, move X alpha sigma (f j) (f (S j))) ->
  walk (move X alpha sigma) (f i) (f <$> seq (S i) k) (f (i + k)).
Proof.
  intros Hf. revert i. induction k as [|k IH]; intros i; cbn.
  - replace (i + 0) with i by lia. constructor.
  - replace (i + S k) with (S i + k) by lia. econstructor; [apply Hf|apply IH].
Qed.

Lemma region_infinite X alpha sigma W n f :
  region X alpha sigma W -> (forall u, W u -> u < n) -> W (f 0) ->
  (forall i, move X alpha sigma (f i) (f (S i))) -> infinite_play_won alpha f.
Proof.
  intros HW Hn H0 Hf.
  assert (HWf : forall i, W (f i)).
  { induction i; [done|]. by eapply region_closed. }
  destruct (eventually_infinitely_often f n) as [b Hb].
  assert (Hinf : forall m, b <= m -> infinitely_often f (f m)) by auto.
  destruct (minimal_rank (infinitely_often f) (f b)) as (x & Hx & Hmin); [by apply Hinf|].
  destruct (Hx b) as (i & Hi & Ei). destruct (Hx (S i)) as (j & Hj & Ej).
  pose proof (play_walk X alpha sigma f i (j - i) Hf) as Hw.
  replace (i + (j - i)) with j in Hw by lia. rewrite Ej, <- Ei in Hw.
  assert (Hjl : f j ∈ f <$> seq (S i) (j - i)).
  { apply list_elem_of_fmap_2, elem_of_seq. lia. }
  destruct (region_cycle _ _ _ _ HW (f i) _ (HWf i)
    ltac:(intros En; rewrite En in Hjl; by apply elem_of_nil in Hjl) Hw)
    as (y & Hy & Hpar & Hle).
  apply list_elem_of_fmap in Hy as (m & -> & Hm%elem_of_seq).
  specialize (Hle _ Hjl). rewrite Ej in Hle.
  assert (Er : rk (f m) = rk x).
  { apply N.le_antisymm; [done|]. apply Hmin, Hinf. lia. }
  exists (rk x). split; [by rewrite <- Er|]. split.
  - intros k. destruct (Hx k) as (p & Hp & <-). eauto.
  - exists b. intros p Hp. apply Hmin, Hinf, Hp.
Qed.

Lemma region_wins X alpha sigma W n u :
  region X alpha sigma W -> (forall v, W v -> v < n) -> W u ->
  wins_from X alpha sigma u.
Proof.
  intros HW Hn Hu. split.
  - intros f <- Hf. by eapply region_infinite.
  - intros w Hr.
    assert (HWw : W w).
    { induction Hr as [|x y z Hxy _ IH]; [done|]. apply IH. by eapply region_closed. }
    split; [|by apply HW].
    intros Ho Hs. destruct (region_own _ _ _ _ HW w HWw Ho Hs) as (v & ? & ? & ? & ?). eauto.
Qed.

(** ** Attractors at the level of sets

    [attracts X alpha sigma T A mu]: in the subgame [X] player [alpha] forces
    the play from [A] into [T] by following [sigma], the measure [mu] going down
    outside [T]; and [A] is closed, so it is the whole attractor. *)
Record attracts X (alpha : nat) sigma T A (mu : nat -> nat) : Prop := {
  att_target : forall u, T u -> A u;
  att_sub : forall u, A u -> X u;
  att_own : forall u, A u -> ~ T u -> own alpha u ->
    exists v, sigma u = Some v /\ E u v /\ X v /\ A v /\ mu v < mu u;
  att_opp : forall u, A u -> ~ T u -> ~ own alpha u ->
    has_successor X u /\ forall v, E u v -> X v -> A v /\ mu v < mu u;
  att_closed : forall u, X u -> (exists v, E u v /\ X v /\ A v) ->
    own alpha u \/ (forall v, E u v -> X v -> A v) -> A u
}.

Lemma attracts_step X alpha sigma T A mu u v :
  attracts X alpha sigma T A mu -> A u -> ~ T u -> move X alpha sigma u v ->
  A v /\ mu v < mu u.
Proof.
  intros HA Hu HT (He & Hx & Hs). destruct (classic (own alpha u)) as [Ho|Ho].
  - destruct (att_own _ _ _ _ _ _ HA u Hu HT Ho) as (w & Hw & _ & _ & ? & ?).
    specialize (Hs Ho). assert (w = v) as -> by congruence. done.
  - destruct (att_opp _ _ _ _ _ _ HA u Hu HT Ho) as [_ H]. by apply H.
Qed.

Lemma attracts_has_successor X alpha sigma T A mu u :
  attracts X alpha sigma T A mu -> A u -> ~ T u -> has_successor X u.
Proof.
  intros HA Hu HT. destruct (classic (own alpha u)) as [Ho|Ho].
  - destruct (att_own _ _ _ _ _ _ HA u Hu HT Ho) as (w & _ & ? & ? & _). by exists w.
  - by destruct (att_opp _ _ _ _ _ _ HA u Hu HT Ho).
Qed.

Lemma attracts_ext X alpha sigma sigma' T A mu :
  (forall u, A u -> ~ T u -> sigma u = sigma' u) ->
  attracts X alpha sigma T A mu -> attracts X alpha sigma' T A mu.
Proof.
  intros Hs [H1 H2 H3 H4 H5]. split; auto.
  intros u Hu HT Ho. rewrite <- Hs by done. auto.
Qed.

Lemma attracts_game_ext X X' alpha sigma T A mu :
  (forall u, X u <-> X' u) ->
  attracts X alpha sigma T A mu -> attracts X' alpha sigma T A mu.
Proof.
  intros HE [H1 H2 H3 H4 H5]. split.
  - done.
  - intros u Hu. by apply HE, H2.
  - intros u Hu HT Ho. destruct (H3 u Hu HT Ho) as (v & ? & ? & ? & ? & ?).
    exists v. rewrite <- HE. auto.
  - intros u Hu HT Ho. destruct (H4 u Hu HT Ho) as [Hs Hall].
    split; [by eapply has_successor_game_ext|]. intros v He Hx. apply Hall; [done|by apply HE].
  - intros u Hx (v & He & Hv & HA) Hd. apply H5; [by apply HE| |].
    + exists v. rewrite HE. auto.
    + destruct Hd as [|Hd]; [by left|right]. intros w Hw Hxw. apply Hd; [done|by apply HE].
Qed.

(** The attractor of a winning region, for the same player, is one. *)
Lemma attractor_region X alpha sigma T A mu :
  attracts X alpha sigma T A mu -> region X alpha sigma T -> region X alpha sigma A.
Proof.
  intros HA HT. split.
  - apply HA.
  - intros u Hu Ho Hs. destruct (classic (T u)) as [HTu|HTu].
    + destruct (region_own _ _ _ _ HT u HTu Ho Hs) as (v & ? & ? & ? & Hv).
      exists v. repeat split; auto. by apply (att_target _ _ _ _ _ _ HA).
    + destruct (att_own _ _ _ _ _ _ HA u Hu HTu Ho) as (v & ? & ? & ? & ? & _). eauto.
  - intros u v Hu Ho He Hx. destruct (classic (T u)) as [HTu|HTu].
    + apply (att_target _ _ _ _ _ _ HA). by eapply (region_opp _ _ _ _ HT).
    + destruct (att_opp _ _ _ _ _ _ HA u Hu HTu Ho) as [_ H]. by apply H.
  - intros u Hu Hd. destruct (classic (T u)) as [HTu|HTu]; [by apply HT|].
    exfalso. apply Hd. by eapply attracts_has_successor.
  - intros x l Hx Hl Hw.
    pose proof (walk_last _ _ _ _ Hw Hl) as Hxl.
    destruct (cycle_meets (move X alpha sigma) A T mu x l x) as (t & Ht & HTt); auto.
    { intros u v. by apply attracts_step. }
    apply (region_cycle _ _ _ _ HT x l); auto.
    apply (cycle_closed _ T x l t (fun u v => region_closed _ _ _ _ u v HT) Hw Ht HTt x Hxl).
Qed.

(** ** The steps of the recursive algorithm *)

Implicit Types (mu : nat -> nat).

Definition minus X A (u : nat) : Prop := X u /\ ~ A u.

(** A vertex that is not attracted keeps a successor outside, and if it is
    owned by [alpha] it has no successor inside. *)
Lemma outside_successor X alpha sigma T A mu u :
  attracts X alpha sigma T A mu -> minus X A u -> has_successor X u ->
  has_successor (minus X A) u.
Proof.
  intros HA [Hx Hn] (v & He & Hv). apply NNPP. intros Hno. apply Hn.
  assert (Hall : forall w, E u w -> X w -> A w).
  { intros w Hw Hxw. apply NNPP. intros HAw. apply Hno. by exists w. }
  apply (att_closed _ _ _ _ _ _ HA); [done|exists v; auto|by right].
Qed.

Lemma outside_own X alpha sigma T A mu u v :
  attracts X alpha sigma T A mu -> minus X A u -> own alpha u -> E u v -> X v -> ~ A v.
Proof.
  intros HA [Hx Hn] Ho He Hv HAv. apply Hn.
  apply (att_closed _ _ _ _ _ _ HA); [done|by exists v|by left].
Qed.

(** Vertices that neither player owns have at most one successor. *)
Hypothesis unowned : forall u v w,
  ~ own 0 u -> ~ own 1 u -> E u v -> E u w -> v = w.

Definition opponents (alpha beta : nat) : Prop :=
  (alpha = 0 /\ beta = 1) \/ (alpha = 1 /\ beta = 0).

(** No vertex has two owners. *)
Hypothesis one_owner : forall u, own 0 u -> own 1 u -> False.

Lemma two_owners u alpha beta : opponents alpha beta -> own alpha u -> own beta u -> False.
Proof. intros [[-> ->]|[-> ->]]; eauto. Qed.

Lemma outside_opponent X alpha beta sigma T A mu u v :
  opponents alpha beta -> attracts X alpha sigma T A mu -> minus X A u -> ~ own beta u ->
  E u v -> X v -> ~ A v.
Proof.
  intros Hne HA Hu Ho He Hv HAv.
  destruct (classic (own alpha u)) as [Hoa|Hoa]; [by eapply outside_own|].
  destruct Hu as [Hx Hn]. apply Hn.
  apply (att_closed _ _ _ _ _ _ HA); [done|by exists v|right].
  intros w Hw _. destruct Hne as [[-> ->]|[-> ->]]; by rewrite (unowned u w v).
Qed.

(** A region of [beta] outside an attractor of [alpha] is one in the whole
    game: [alpha] cannot leave it. *)
Lemma region_lift X alpha beta sigma tau T A mu W :
  opponents alpha beta -> attracts X alpha tau T A mu ->
  region (minus X A) beta sigma W -> region X beta sigma W.
Proof.
  intros Hne HA HW.
  assert (Hsub : forall u, W u -> minus X A u) by apply HW.
  assert (Hopp : forall u v, W u -> ~ own beta u -> E u v -> X v -> W v).
  { intros u v Hu Ho He Hx. eapply (region_opp _ _ _ _ HW); eauto.
    split; [done|]. eapply outside_opponent; eauto. }
  assert (Hclosed : forall u v, W u -> move X beta sigma u v -> W v).
  { intros u v Hu (He & Hx & Hs). destruct (classic (own beta u)) as [Ho|Ho]; [|eauto].
    destruct (region_own _ _ _ _ HW u Hu Ho) as (w & Hw & _ & _ & HWw).
    - eapply outside_successor; eauto. by exists v.
    - specialize (Hs Ho). assert (v = w) as -> by congruence. done. }
  split.
  - intros u Hu. apply (Hsub u Hu).
  - intros u Hu Ho Hs. destruct (region_own _ _ _ _ HW u Hu Ho) as (w & Hw & He & [Hx _] & HWw).
    + eapply outside_successor; eauto.
    + eauto.
  - exact Hopp.
  - intros u Hu Hd. apply (region_dead _ _ _ _ HW u Hu). intros (v & He & [Hx _]).
    apply Hd. by exists v.
  - intros x l Hx Hl Hw. apply (region_cycle _ _ _ _ HW x l Hx Hl).
    destruct (walk_closed _ W x l x Hclosed Hx Hw) as [_ Hall].
    apply (walk_mono (move X beta sigma) _ W); auto.
    intros u v Hu Hv (He & Hxv & Hs). split; [done|]. split; [by apply Hsub|done].
Qed.

(** A region of the rest of the game is added to an attractor of the same
    player that is a region. *)
Lemma region_union X alpha sigma T B mu W :
  attracts X alpha sigma T B mu -> region X alpha sigma B ->
  region (minus X B) alpha sigma W ->
  region X alpha sigma (fun u => W u \/ B u).
Proof.
  intros HA HB HW.
  assert (Hsub : forall u, W u -> minus X B u) by apply HW.
  assert (Hown : forall u, W u -> own alpha u -> has_successor X u ->
    exists v, sigma u = Some v /\ E u v /\ X v /\ W v).
  { intros u Hu Ho Hs. destruct (region_own _ _ _ _ HW u Hu Ho) as (w & ? & ? & [? _] & ?).
    - eapply outside_successor; eauto.
    - eauto. }
  assert (Hstep : forall u v, W u -> move X alpha sigma u v -> W v \/ B v).
  { intros u v Hu (He & Hx & Hs). destruct (classic (own alpha u)) as [Ho|Ho].
    - destruct (Hown u Hu Ho) as (w & Hw & _ & _ & HWw); [by exists v|].
      specialize (Hs Ho). assert (v = w) as -> by congruence. by left.
    - destruct (classic (B v)) as [|Hn]; [by right|left].
      by eapply (region_opp _ _ _ _ HW). }
  split.
  - intros u [Hu|Hu]; [apply (Hsub u Hu)|by apply HB].
  - intros u [Hu|Hu] Ho Hs.
    + destruct (Hown u Hu Ho Hs) as (v & ? & ? & ? & ?). eauto 10.
    + destruct (region_own _ _ _ _ HB u Hu Ho Hs) as (v & ? & ? & ? & ?). eauto 10.
  - intros u v [Hu|Hu] Ho He Hx.
    + apply (Hstep u v Hu). by split.
    + right. by eapply (region_opp _ _ _ _ HB).
  - intros u [Hu|Hu] Hd; [|by apply HB].
    apply (region_dead _ _ _ _ HW u Hu). intros (v & He & [Hx _]). apply Hd. by exists v.
  - intros x l Hx Hl Hw.
    assert (Hc : forall u v, (W u \/ B u) -> move X alpha sigma u v -> W v \/ B v).
    { intros u v [Hu|Hu] Hm; [by eapply Hstep|right]. by eapply region_closed. }
    destruct (walk_closed _ _ x l x Hc Hx Hw) as [_ Hall].
    destruct (classic (exists b, b ∈ l /\ B b)) as [(b & Hb & HBb)|Hno].
    + eapply (region_cycle_within X X alpha sigma B); eauto.
      intros y Hy. apply (cycle_closed (move X alpha sigma) B x l b); auto.
      intros u v. by apply region_closed.
    + assert (HWl : forall y, y ∈ l -> W y).
      { intros y Hy. destruct (Hall y Hy) as [|HBy]; [done|]. exfalso. eauto. }
      by eapply region_cycle_within.
Qed.

(** The attractor [A] of the vertices [U] of least rank, together with a region
    of the same player outside [A], is a region inside any set [Y] that the
    opponent cannot leave: a cycle either meets [A], hence [U], or stays
    outside. *)
Lemma region_least_rank X alpha sigma U A mu W Y m :
  attracts X alpha sigma U A mu -> region (minus X A) alpha sigma W ->
  (forall u, Y u <-> A u \/ W u) ->
  parity m = alpha -> (forall u, U u -> rk u = m) -> (forall u, X u -> (m <= rk u)%N) ->
  (forall u, U u -> ~ has_successor X u -> dead u = alpha) ->
  (forall u, U u -> own alpha u -> has_successor X u ->
     exists v, sigma u = Some v /\ E u v /\ X v /\ Y v) ->
  (forall u v, Y u -> ~ own alpha u -> E u v -> X v -> Y v) ->
  region X alpha sigma Y.
Proof.
  intros HA HW HY Hm HU Hmin Hdead HUs Hopp.
  assert (Hsub : forall u, W u -> minus X A u) by apply HW.
  assert (HYX : forall u, Y u -> X u).
  { intros u Hu. apply HY in Hu as [Hu|Hu]; [by apply HA|apply (Hsub u Hu)]. }
  assert (Hown : forall u, Y u -> own alpha u -> has_successor X u ->
    exists v, sigma u = Some v /\ E u v /\ X v /\ Y v).
  { intros u Hu Ho Hs. apply HY in Hu as [Hu|Hu].
    - destruct (classic (U u)) as [HUu|HUu]; [by apply HUs|].
      destruct (att_own _ _ _ _ _ _ HA u Hu HUu Ho) as (v & ? & ? & ? & ? & _).
      exists v. repeat split; auto. apply HY. by left.
    - destruct (region_own _ _ _ _ HW u Hu Ho) as (v & ? & ? & [? _] & ?).
      + eapply outside_successor; eauto.
      + exists v. repeat split; auto. apply HY. by right. }
  assert (Hc : forall u v, Y u -> move X alpha sigma u v -> Y v).
  { intros u v Hu (He & Hx & Hs). destruct (classic (own alpha u)) as [Ho|Ho]; [|eauto].
    destruct (Hown u Hu Ho) as (w & Hw & _ & _ & HYw); [by exists v|].
    specialize (Hs Ho). assert (v = w) as -> by congruence. done. }
  split; [done|done|done| |].
  - intros u Hu Hd. apply HY in Hu as [Hu|Hu].
    + destruct (classic (U u)) as [HUu|HUu]; [by apply Hdead|].
      exfalso. apply Hd. by eapply attracts_has_successor.
    + apply (region_dead _ _ _ _ HW u Hu). intros (v & He & [Hx _]). apply Hd. by exists v.
  - intros x l Hx Hl Hw. destruct (walk_closed _ _ x l x Hc Hx Hw) as [_ Hall].
    destruct (classic (exists a, a ∈ l /\ A a)) as [(a & Ha & HAa)|Hno].
    + destruct (cycle_meets (move X alpha sigma) A U mu x l a) as (t & Ht & HUt); auto.
      { intros u v. by apply attracts_step. }
      exists t. split; [done|]. rewrite (HU t HUt). split; [done|].
      intros z Hz. apply Hmin, HYX, Hall, Hz.
    + assert (HWl : forall y, y ∈ l -> W y).
      { intros y Hy. specialize (Hall y Hy). apply HY in Hall as [HAy|]; [|done].
        exfalso. eauto. }
      by eapply region_cycle_within.
Qed.

(** Attractors of the two players that start from vertices without successors
    are disjoint, and each of them is an attractor outside the other. *)
Lemma attracts_disjoint X alpha beta sigma tau S T C D mu nu :
  opponents alpha beta ->
  attracts X alpha sigma S C mu -> attracts X beta tau T D nu ->
  (forall u v, S u \/ T u -> ~ E u v) -> (forall u, S u -> T u -> False) ->
  forall u, C u -> D u -> False.
Proof.
  intros Hop HC HD Hdead Hdis u. remember (mu u) as n eqn:En. revert u En.
  induction n as [n IH] using (well_founded_induction lt_wf). intros u -> Hu Hv.
  assert (Hstep : ~ S u -> ~ T u -> False).
  { intros HS HT.
    assert (Hc : exists v, E u v /\ X v /\ C v /\ D v /\ mu v < mu u).
    { destruct (classic (own alpha u)) as [Ho|Ho].
      - destruct (att_own _ _ _ _ _ _ HC u Hu HS Ho) as (v & _ & He & Hx & HCv & Hlt).
        assert (~ own beta u -> D v).
        { intros Hb. by apply (att_opp _ _ _ _ _ _ HD u Hv HT Hb). }
        destruct (classic (own beta u)) as [Hb|Hb]; [|eauto 10].
        destruct (att_own _ _ _ _ _ _ HD u Hv HT Hb) as (w & _ & He' & Hx' & HDw & _).
        exfalso. apply (two_owners u alpha beta Hop Ho Hb).
      - destruct (attracts_has_successor _ _ _ _ _ _ u HD Hv HT) as (w & Hw & Hxw).
        destruct (att_opp _ _ _ _ _ _ HC u Hu HS Ho) as [_ Hall].
        destruct (classic (own beta u)) as [Hb|Hb].
        + destruct (att_own _ _ _ _ _ _ HD u Hv HT Hb) as (v & _ & He & Hx & HDv & _).
          destruct (Hall v He Hx). eauto 10.
        + destruct (att_opp _ _ _ _ _ _ HD u Hv HT Hb) as [_ Hall'].
          destruct (Hall w Hw Hxw), (Hall' w Hw Hxw). eauto 10. }
    destruct Hc as (v & _ & _ & HCv & HDv & Hlt). by apply (IH (mu v) Hlt v). }
  destruct (classic (S u)) as [HS|HS].
  - destruct (classic (T u)) as [HT|HT]; [eauto|].
    destruct (attracts_has_successor _ _ _ _ _ _ u HD Hv HT) as (w & Hw & _).
    by apply (Hdead u w); [left|].
  - destruct (classic (T u)) as [HT|HT]; [|auto].
    destruct (attracts_has_successor _ _ _ _ _ _ u HC Hu HS) as (w & Hw & _).
    by apply (Hdead u w); [right|].
Qed.

Lemma attracts_minus X alpha beta sigma tau S T C D mu nu :
  opponents alpha beta ->
  attracts X alpha sigma S C mu -> attracts X beta tau T D nu ->
  (forall u, C u -> D u -> False) ->
  attracts (minus X C) beta tau T D nu.
Proof.
  intros Hop HC HD Hdis. split.
  - apply HD.
  - intros u Hu. split; [by apply HD|]. eauto.
  - intros u Hu HT Ho. destruct (att_own _ _ _ _ _ _ HD u Hu HT Ho) as (v & ? & ? & ? & ? & ?).
    exists v. unfold minus. eauto 10.
  - intros u Hu HT Ho. destruct (att_opp _ _ _ _ _ _ HD u Hu HT Ho) as [(v & He & Hx) Hall].
    split; [|by intros w Hw [Hxw _]; auto].
    destruct (Hall v He Hx) as [HDv _]. exists v. unfold minus. eauto 10.
  - intros u Hu (v & He & [Hx _] & HDv) Hd. apply (att_closed _ _ _ _ _ _ HD).
    + apply Hu.
    + by exists v.
    + destruct (classic (own beta u)) as [|Ho]; [by left|right]. destruct Hd as [|Hd]; [done|].
      intros w Hw Hxw. apply Hd; [done|]. split; [done|].
      eapply outside_opponent; eauto.
Qed.

(** A set of vertices without successors that [alpha] wins. *)
Lemma region_terminal X alpha sigma T :
  (forall u, T u -> X u) -> (forall u v, T u -> ~ E u v) -> (forall u, T u -> dead u = alpha) ->
  region X alpha sigma T.
Proof.
  intros HX HE Hd. split; auto.
  - intros u Hu _ (v & He & _). by apply HE in He.
  - intros u v Hu _ He. by apply HE in He.
  - intros x l Hx Hl Hw. inversion Hw as [|? y ? ? [He _] _]; subst; [done|].
    exfalso. by apply (HE x y).
Qed.

(** ** Nobody else wins

    The play in which both players follow their strategies. *)
Section Both.
Context (own_dec : forall alpha u, {own alpha u} + {~ own alpha u}).
Context (X : nat -> Prop) (any : nat -> option nat).
Hypothesis any_spec : forall u, has_successor X u -> exists v, any u = Some v /\ E u v /\ X v.

Definition both_next (sigma tau : nat -> option nat) (u : nat) : option nat :=
  if own_dec 0 u then sigma u else if own_dec 1 u then tau u else any u.

Fixpoint both_play (sigma tau : nat -> option nat) (u n : nat) : nat :=
  match n with
  | 0 => u
  | S n => let w := both_play sigma tau u n in default w (both_next sigma tau w)
  end.

Lemma both_play_moves sigma tau u n :
  wins_from X 0 sigma u -> wins_from X 1 tau u ->
  let f := both_play sigma tau u in
  rtc (move X 0 sigma) u (f n) /\ rtc (move X 1 tau) u (f n) /\
  move X 0 sigma (f n) (f (S n)) /\ move X 1 tau (f n) (f (S n)).
Proof.
  intros [_ H0] [_ H1] f.
  assert (Hstep : forall w, rtc (move X 0 sigma) u w -> rtc (move X 1 tau) u w ->
    let w' := default w (both_next sigma tau w) in
    move X 0 sigma w w' /\ move X 1 tau w w').
  { intros w R0 R1. destruct (H0 w R0) as [O0 D0], (H1 w R1) as [O1 D1].
    assert (Hs : has_successor X w).
    { apply NNPP. intros Hn. specialize (D0 Hn). specialize (D1 Hn). congruence. }
    unfold both_next, move. destruct (own_dec 0 w) as [Ho|Ho].
    - destruct (O0 Ho Hs) as (v & -> & ? & ?). cbn. repeat split; auto.
      intros Ho'. destruct (one_owner w Ho Ho').
    - destruct (own_dec 1 w) as [Ho'|Ho'].
      + destruct (O1 Ho' Hs) as (v & -> & ? & ?). cbn. repeat split; auto. by intros.
      + destruct (any_spec w Hs) as (v & -> & ? & ?). cbn. repeat split; auto; by intros. }
  induction n as [|n (R0 & R1 & M0 & M1)].
  - split; [done|]. split; [done|]. apply (Hstep u); done.
  - assert (R0' : rtc (move X 0 sigma) u (f (S n))) by (by eapply rtc_r).
    assert (R1' : rtc (move X 1 tau) u (f (S n))) by (by eapply rtc_r).
    split; [done|]. split; [done|]. by apply (Hstep (f (S n))).
Qed.

Lemma winners_disjoint sigma tau u :
  wins_from X 0 sigma u -> wins_from X 1 tau u -> False.
Proof.
  intros W0 W1. pose proof (fun n => both_play_moves sigma tau u n W0 W1) as Hp. cbn in Hp.
  destruct W0 as [P0 _], W1 as [P1 _].
  destruct (P0 (both_play sigma tau u)) as (r & Er & Hr & n & Hn); [done|apply Hp|].
  destruct (P1 (both_play sigma tau u)) as (q & Eq & Hq & k & Hk); [done|apply Hp|].
  assert (r = q); [|congruence]. apply N.le_antisymm.
  - destruct (Hq n) as (i & Hi & <-). by apply Hn.
  - destruct (Hr k) as (i & Hi & <-). by apply Hk.
Qed.

End Both.

End Game.

(** ** Winning in one game and in another

    A winning strategy gives a winning region, the converse of [region_wins];
    regions of one player can be joined, restricted to a part of the game, taken
    from a part to the whole, and carried over to a game with other vertex
    numbers. *)

(** The [p]-th step of a walk. *)
Lemma walk_lookup (R : nat -> nat -> Prop) x l z p a b :
  walk R x l z -> (x :: l) !! p = Some a -> l !! p = Some b -> R a b.
Proof.
  intros Hw. revert p. induction Hw as [x|x y l z Hs Hw IH]; intros p Ha Hb; [done|].
  destruct p as [|p]; [by simplify_eq/=|]. by apply (IH p).
Qed.

Section Transfer.
Context (E : nat -> nat -> Prop) (own : nat -> nat -> Prop) (rk : nat -> N) (dead : nat -> nat).
Implicit Types (X V W S : nat -> Prop) (sigma tau : nat -> option nat).
Abbreviation move := (move E own).
Abbreviation region := (region E own rk dead).
Abbreviation wins_from := (wins_from E own rk dead).
Abbreviation has_successor := (has_successor E).

(** *** From winning to a region *)

Lemma wins_move X alpha sigma u v : wins_from X alpha sigma u -> move X alpha sigma u v -> wins_from X alpha sigma v.
Proof.
  intros [H1 H2] Huv. split; [|intros w Hw; apply H2; by eapply rtc_l].
  intros f Hf0 Hf. destruct (H1 (fun i => match i with 0 => u | S i => f i end)) as (r & Hr & Hi & n & Hn); [done| |].
  { intros [|i]; [by rewrite Hf0|apply Hf]. }
  exists r. split; [done|]. split.
  - intros k. destruct (Hi (S k)) as (m & Hm & Em). destruct m as [|m]; [lia|]. exists m. split; [lia|done].
  - exists n. intros m Hm. apply (Hn (S m)). lia.
Qed.

Lemma wins_rtc X alpha sigma u v : wins_from X alpha sigma u -> rtc (move X alpha sigma) u v -> wins_from X alpha sigma v.
Proof. intros Hu Huv. induction Huv as [|x y z Hxy _ IH]; [done|]. apply IH. by eapply wins_move. Qed.

(** Going round a cycle for ever is a play. *)
Lemma wins_cycle X alpha sigma x l :
  wins_from X alpha sigma x -> l <> [] -> walk (move X alpha sigma) x l x -> good_cycle rk alpha l.
Proof.
  intros [Hw _] Hl Hwalk. set (k := length l). assert (Hk : 0 < k) by (destruct l; cbn in *; [done|lia]).
  pose (f i := default x ((x :: l) !! (i mod k))).
  assert (Hlast : l !! (k - 1) = Some x).
  { clear -Hwalk Hl. subst k. induction Hwalk as [|x y l z Hs Hw IH]; [done|]. destruct l as [|w l]; [by inversion Hw|].
    cbn in *. rewrite Nat.sub_0_r in IH. by apply IH. }
  assert (Hnext : forall i, l !! (i mod k) = Some (f (S i))).
  { intros i. unfold f. pose proof (Nat.mod_upper_bound i k ltac:(lia)) as Hi.
    destruct (decide (S (i mod k) = k)) as [Ei|Ei].
    - assert (Es : S i mod k = 0).
      { symmetry. apply (Nat.mod_unique _ _ (S (i / k))); [lia|]. pose proof (Nat.div_mod_eq i k). nia. }
      rewrite Es. cbn. rewrite <- Hlast. f_equal. lia.
    - assert (Es : S i mod k = S (i mod k)).
      { symmetry. apply (Nat.mod_unique _ _ (i / k)); [lia|]. pose proof (Nat.div_mod_eq i k). lia. }
      rewrite Es, lookup_cons_ne_0 by done. rewrite Nat.pred_succ. by destruct (lookup_lt_is_Some_2 l (i mod k) Hi) as [y ->]. }
  destruct (Hw f) as (r & Hr & Hi & n & Hn).
  - unfold f. by rewrite Nat.mod_small.
  - intros i. eapply walk_lookup; [exact Hwalk| |apply Hnext]. unfold f.
    destruct (lookup_lt_is_Some_2 (x :: l) (i mod k)) as [y ->]; [|done].
    cbn. pose proof (Nat.mod_upper_bound i k). fold k. lia.
  - destruct (Hi 1) as (m & Hm & <-). destruct m as [|m]; [lia|]. exists (f (S m)).
    split; [by eapply list_elem_of_lookup_2, Hnext|]. split; [done|].
    intros z [p Hp]%list_elem_of_lookup. pose proof (lookup_lt_Some _ _ _ Hp) as Hlt. fold k in Hlt.
    pose proof (Hnext (p + n * k)) as Hz. rewrite Nat.Div0.mod_add, Nat.mod_small, Hp in Hz by done.
    injection Hz as ->. apply Hn. nia.
Qed.

Lemma wins_region X alpha sigma u :
  wins_from X alpha sigma u -> X u -> region X alpha sigma (rtc (move X alpha sigma) u).
Proof.
  intros Hu HX. split.
  - intros w Hw. apply rtc_inv_r in Hw as [<-|(y & _ & Hm)]; [done|apply Hm].
  - intros w Hw Ho Hs. destruct (proj1 (proj2 Hu w Hw) Ho Hs) as (v & H1 & H2 & H3). exists v.
    repeat split; auto. eapply rtc_r; [exact Hw|]. by split.
  - intros w v Hw Ho He Hx. eapply rtc_r; [exact Hw|]. by split.
  - intros w Hw Hs. by apply (proj2 Hu w Hw).
  - intros x l Hx Hl Hw. apply (wins_cycle X alpha sigma x l); auto. by apply (wins_rtc X alpha sigma u).
Qed.

(** *** Joining, restricting and extending *)

(** Two regions of a player: inside the first its strategy is followed. *)
Lemma region_join X alpha sigma tau S W `{forall u, Decision (S u)} :
  region X alpha tau S -> region X alpha sigma W ->
  region X alpha (fun u => if decide (S u) then tau u else sigma u) (fun u => S u \/ W u).
Proof.
  intros HS HW. set (rho u := if decide (S u) then tau u else sigma u).
  assert (HS' : region X alpha rho S).
  { apply (region_ext _ _ _ _ _ _ tau); [|done]. intros u Hu. unfold rho. by rewrite decide_True. }
  assert (Hrho : forall u, ~ S u -> rho u = sigma u) by (intros u Hu; unfold rho; by rewrite decide_False).
  assert (Hopp : forall u v, S u \/ W u -> ~ own alpha u -> E u v -> X v -> S v \/ W v).
  { intros u v [Hu|Hu] Ho He Hx; [left; by apply (region_opp _ _ _ _ _ _ _ _ HS' u)|right; by apply (region_opp _ _ _ _ _ _ _ _ HW u)]. }
  assert (Hown : forall u, S u \/ W u -> own alpha u -> has_successor X u -> exists v, rho u = Some v /\ E u v /\ X v /\ (S v \/ W v)).
  { intros u Hu Ho Hs. destruct (decide (S u)) as [HSu|HSu].
    - destruct (region_own _ _ _ _ _ _ _ _ HS' u HSu Ho Hs) as (v & ? & ? & ? & ?). eauto 10.
    - rewrite Hrho by done. destruct Hu as [|Hu]; [done|].
      destruct (region_own _ _ _ _ _ _ _ _ HW u Hu Ho Hs) as (v & ? & ? & ? & ?). eauto 10. }
  split; auto.
  - intros u [Hu|Hu]; [by apply HS'|by apply HW].
  - intros u [Hu|Hu] Hd; [by apply HS'|by apply HW].
  - intros x l Hx Hl Hw.
    assert (Hc : forall u v, S u \/ W u -> move X alpha rho u v -> S v \/ W v).
    { intros u v Hu (He & Hv & Hs). destruct (classic (own alpha u)) as [Ho|Ho]; [|by apply (Hopp u)].
      destruct (Hown u Hu Ho) as (w & Hw' & _ & _ & HSW); [by exists v|]. specialize (Hs Ho). by simplify_eq. }
    destruct (walk_closed _ _ x l x Hc Hx Hw) as [_ Hall].
    destruct (classic (exists b, b ∈ l /\ S b)) as [(b & Hb & HSb)|Hno].
    + eapply (region_cycle_within _ _ _ _ X X alpha rho S); eauto.
      intros y Hy. apply (cycle_closed (move X alpha rho) S x l b); auto. intros u v. by apply (region_closed _ _ rk dead).
    + assert (HWl : forall y, y ∈ l -> W y /\ ~ S y).
      { intros y Hy. destruct (Hall y Hy) as [HSy|]; [destruct Hno; eauto|]. split; [done|]. intros HSy. eauto. }
      destruct (HWl x (walk_last _ _ _ _ Hw Hl)) as [HWx HSx]. apply (region_cycle _ _ _ _ _ _ _ _ HW x l HWx Hl).
      apply (walk_mono (move X alpha rho) _ (fun u => ~ S u)); auto; [|intros y Hy; by apply HWl].
      intros u v Hu _ (He & Hv & Hs). rewrite Hrho in Hs by done. by split.
Qed.

Lemma move_mono V X alpha sigma u v : (forall w, V w -> X w) -> move V alpha sigma u v -> move X alpha sigma u v.
Proof. intros HV (He & Hv & Hs). split; [done|]. split; [by apply HV|done]. Qed.

(** A part of the game in which the player can go on. *)
Lemma region_part X V alpha sigma W :
  (forall u, V u -> X u) ->
  (forall u v, V u -> W u -> own alpha u -> sigma u = Some v -> X v -> V v) ->
  (forall u, V u -> has_successor X u -> has_successor V u) ->
  region X alpha sigma W -> region V alpha sigma (fun u => V u /\ W u).
Proof.
  intros HV Hown Hs [H1 H2 H3 H4 H5]. split.
  - by intros u [Hu _].
  - intros u [Hu HW] Ho (v & He & Hv). destruct (H2 u HW Ho) as (w & Hw & Hew & HXw & HWw); [exists v; auto|].
    assert (HVw : V w) by (by apply (Hown u)). by exists w.
  - intros u v [Hu HW] Ho He Hv. split; [done|]. apply (H3 u); auto.
  - intros u [Hu HW] Hd. apply H4; [done|]. intros Hsu. apply Hd. by apply Hs.
  - intros x l [Hx HW] Hl Hw. apply (H5 x l HW Hl). apply (walk_mono (move V alpha sigma) _ (fun _ => True)); auto.
    intros u v _ _. by apply move_mono.
Qed.

(** A part of the game that the opponent cannot leave. *)
Lemma region_whole X V alpha sigma W :
  (forall u, V u -> X u) ->
  (forall u v, W u -> ~ own alpha u -> E u v -> X v -> V v) ->
  (forall u, V u -> has_successor X u -> has_successor V u) ->
  region V alpha sigma W -> region X alpha sigma W.
Proof.
  intros HV Hopp Hs HW. pose proof HW as [H1 H2 H3 H4 H5]. split; auto.
  - intros u Hu Ho Hsu. destruct (H2 u Hu Ho (Hs u (H1 u Hu) Hsu)) as (v & ? & ? & ? & ?). exists v. auto.
  - intros u v Hu Ho He Hv. apply (H3 u); auto. by apply (Hopp u).
  - intros u Hu Hd. apply H4; [done|]. intros (v & He & Hv). apply Hd. exists v. auto.
  - intros x l Hx Hl Hw. apply (H5 x l Hx Hl).
    assert (Hm : forall u v, W u -> move X alpha sigma u v -> W v /\ move V alpha sigma u v).
    { intros u v Hu (He & Hv & Hsg). destruct (classic (own alpha u)) as [Ho|Ho].
      - destruct (H2 u Hu Ho) as (w & Hw' & He' & HVw & HWw); [apply Hs; [by apply H1|by exists v]|].
        specialize (Hsg Ho). assert (w = v) as -> by congruence. split; [done|]. by split.
      - assert (HVv : V v) by (by apply (Hopp u)). split; [by apply (H3 u)|]. by split. }
    destruct (walk_closed _ W x l x (fun u v Hu Huv => proj1 (Hm u v Hu Huv)) Hx Hw) as [_ HWl].
    apply (walk_mono (move X alpha sigma) _ W); auto. intros u v Hu _ Huv. by apply Hm.
Qed.

End Transfer.

(** *** Other numbers *)

(** [f] and [g] are inverse to each other and respect the games on [X] and [X']. *)
Record game_iso (E E' : nat -> nat -> Prop) (own own' : nat -> nat -> Prop) (rk rk' : nat -> N) (dead dead' : nat -> nat)
    (X X' : nat -> Prop) (f g : nat -> option nat) : Prop := {
  iso_inverse : forall i u, f i = Some u <-> g u = Some i;
  iso_X : forall u, X u <-> is_Some (g u);
  iso_X' : forall i, X' i <-> is_Some (f i);
  iso_E : forall i u j v, f i = Some u -> f j = Some v -> E' i j <-> E u v;
  iso_own : forall i u alpha, f i = Some u -> own' alpha i <-> own alpha u;
  iso_rk : forall i u, f i = Some u -> rk' i = rk u;
  iso_dead : forall i u, f i = Some u -> ~ has_successor E X u -> dead' i = dead u
}.

Section Iso.
Context {E E' : nat -> nat -> Prop} {own own' : nat -> nat -> Prop} {rk rk' : nat -> N} {dead dead' : nat -> nat}.
Context {X X' : nat -> Prop} {f g : nat -> option nat}.
Hypothesis HI : game_iso E E' own own' rk rk' dead dead' X X' f g.

Lemma iso_successor i u : f i = Some u -> has_successor E' X' i <-> has_successor E X u.
Proof.
  intros Hi. split.
  - intros (j & He & [v Hv]%(iso_X' _ _ _ _ _ _ _ _ _ _ _ _ HI)). exists v. split; [by apply (iso_E _ _ _ _ _ _ _ _ _ _ _ _ HI i u j v)|].
    apply (iso_X _ _ _ _ _ _ _ _ _ _ _ _ HI). exists j. by apply (iso_inverse _ _ _ _ _ _ _ _ _ _ _ _ HI).
  - intros (v & He & [j Hj]%(iso_X _ _ _ _ _ _ _ _ _ _ _ _ HI)). apply (iso_inverse _ _ _ _ _ _ _ _ _ _ _ _ HI) in Hj.
    exists j. split; [by apply (iso_E _ _ _ _ _ _ _ _ _ _ _ _ HI i u j v)|]. apply (iso_X' _ _ _ _ _ _ _ _ _ _ _ _ HI). by exists v.
Qed.

Lemma iso_sym : game_iso E' E own' own rk' rk dead' dead X' X g f.
Proof.
  pose proof iso_successor as Hs. destruct HI as [I1 I2 I3 I4 I5 I6 I7]. split.
  - intros i u. by rewrite I1.
  - done.
  - done.
  - intros u i v j Hu%I1 Hv%I1. symmetry. by apply I4.
  - intros u i alpha Hu%I1. symmetry. by apply I5.
  - intros u i Hu%I1. symmetry. by apply I6.
  - intros u i Hu%I1 Hd. symmetry. apply I7; [done|]. intros H. apply Hd. by apply (Hs i u).
Qed.

Definition iso_strategy (sigma : nat -> option nat) (i : nat) : option nat := u ← f i; v ← sigma u; g v.

Lemma iso_move alpha sigma i u j :
  f i = Some u -> move E' own' X' alpha (iso_strategy sigma) i j ->
  exists v, f j = Some v /\ move E own X alpha sigma u v.
Proof.
  destruct HI as [I1 I2 I3 I4 I5 I6 I7]. intros Hi (He & [v Hv]%I3 & Hs). exists v. split; [done|].
  split; [by apply (I4 i u j v)|]. split; [apply I2; exists j; by apply I1|]. intros Ho%(I5 i u alpha Hi).
  specialize (Hs Ho). unfold iso_strategy in Hs. rewrite Hi in Hs. cbn in Hs.
  apply bind_Some in Hs as (w & Hw & Hg). apply I1 in Hg. congruence.
Qed.

Lemma iso_walk alpha sigma i l j u :
  f i = Some u -> walk (move E' own' X' alpha (iso_strategy sigma)) i l j ->
  exists m v, f j = Some v /\ walk (move E own X alpha sigma) u m v /\ Forall2 (fun y w => f y = Some w) l m.
Proof.
  intros Hi Hw. revert u Hi. induction Hw as [i|i y l j Hm Hw IH]; intros u Hi.
  - exists [], u. split; [done|]. split; constructor.
  - destruct (iso_move alpha sigma i u y Hi Hm) as (w & Hy & Hmw). destruct (IH w Hy) as (m & v & Hj & Hwm & HF).
    exists (w :: m), v. split; [done|]. split; [by econstructor|by constructor].
Qed.

Lemma region_iso alpha sigma W :
  region E own rk dead X alpha sigma W ->
  region E' own' rk' dead' X' alpha (iso_strategy sigma) (fun i => exists u, f i = Some u /\ W u).
Proof.
  pose proof iso_successor as Hs. pose proof HI as [I1 I2 I3 I4 I5 I6 I7]. intros [H1 H2 H3 H4 H5]. split.
  - intros i (u & Hi & _). apply I3. by exists u.
  - intros i (u & Hi & HW) Ho%(I5 i u alpha Hi) Hsu%(Hs i u Hi). destruct (H2 u HW Ho Hsu) as (v & Hv & He & HX & HWv).
    destruct (proj1 (I2 v) HX) as [j Hj]. pose proof (proj2 (I1 j v) Hj) as Hj'. exists j.
    unfold iso_strategy. rewrite Hi. cbn. rewrite Hv. cbn. rewrite Hj. split; [done|].
    split; [by apply (I4 i u j v)|]. split; [apply I3; by exists v|by exists v].
  - intros i j (u & Hi & HW) Ho He [v Hv]%I3. exists v. split; [done|].
    apply (H3 u v); [done|by rewrite <- (I5 i u alpha Hi)|by apply (I4 i u j v)|apply I2; exists j; by apply I1].
  - intros i (u & Hi & HW) Hd. assert (Hd' : ~ has_successor E X u) by (by rewrite <- (Hs i u Hi)).
    rewrite (I7 i u Hi Hd'). by apply H4.
  - intros i l (u & Hi & HW) Hl Hw. destruct (iso_walk alpha sigma i l i u Hi Hw) as (m & v & Hv & Hwm & HF).
    assert (v = u) as -> by congruence. destruct (H5 u m HW) as (y & Hy & Hp & Hmin); [|done|].
    { intros ->. by apply Forall2_nil_inv_r in HF. }
    apply list_elem_of_lookup in Hy as [p Hy]. destruct (Forall2_lookup_r _ _ _ _ _ HF Hy) as (z & Hz & Hzy).
    exists z. rewrite (I6 z y Hzy). split; [by apply list_elem_of_lookup_2 in Hz|]. split; [done|].
    intros z' [q Hz']%list_elem_of_lookup. destruct (Forall2_lookup_l _ _ _ _ _ HF Hz') as (y' & Hy' & Hzy').
    rewrite (I6 z' y' Hzy'). apply Hmin. by apply list_elem_of_lookup_2 in Hy'.
Qed.

End Iso.
