(* ===== verification/Worklist.v ===== *)
(** * Exploration with a [std::set] of vertices to do

    [check_solve_recursive_solution] and the three overloads of
    [extract_minimal_structure_graph] are the same loop over two
    [std::set<index_type>]: the least element of [todo] is taken out, put into
    [done] and visited, and its targets that are not done are put into [todo].
    A [std::set] is modelled by the increasing list of its elements, so that
    [*todo.begin()] is the head.  [explore_spec]: the loop ends and [done] holds
    exactly the reachable vertices, each of which was visited once. *)

From Stdlib Require Import Lia Sorted.
From stdpp Require Import base numbers sets list relations.
From S2P Require Import Prelude.

(** ** [std::set] *)

Fixpoint set_insert (x : nat) (l : list nat) : list nat :=
  match l with
  | [] => [x]
  | y :: r => if x <? y then x :: l else if x =? y then l else y :: set_insert x r
  end.

Definition set_contains (l : list nat) (x : nat) : bool := bool_decide (x ∈ l).

Lemma elem_of_set_insert x y l : y ∈ set_insert x l <-> y = x \/ y ∈ l.
Proof.
  induction l as [|z l IH]; cbn [set_insert]; [set_solver|].
  destruct (Nat.ltb_spec x z), (Nat.eqb_spec x z); set_solver.
Qed.

Lemma set_insert_sorted x l : StronglySorted lt l -> StronglySorted lt (set_insert x l).
Proof.
  induction 1 as [|y l Hs IH Hf]; cbn [set_insert]; [repeat constructor|].
  destruct (Nat.ltb_spec x y) as [Hlt|Hge].
  - constructor; [by constructor|]. constructor; [done|].
    eapply Forall_impl; [exact Hf|]. cbn. lia.
  - destruct (Nat.eqb_spec x y) as [->|Hne]; [by constructor|]. constructor; [done|].
    apply Forall_forall. intros z Hz. apply elem_of_set_insert in Hz as [->|Hz]; [lia|].
    by apply (proj1 (Forall_forall _ _) Hf).
Qed.

Lemma sorted_head x l : StronglySorted lt (x :: l) -> x ∉ l.
Proof.
  intros H Hx. apply StronglySorted_inv in H as [_ Hf].
  apply (proj1 (Forall_forall _ _) Hf) in Hx. lia.
Qed.

(** ** The loop *)

Section Explore.
Context {S : Type}.
(** What a visit does besides finding targets, and the targets; [None] when the
    code would use the undefined vertex as an index. *)
Context (visit : nat -> S -> S) (targets : nat -> option (list nat)).

Definition todo_step (done : list nat) (todo : list nat) (v : nat) : list nat :=
  if set_contains done v then todo else set_insert v todo.

Fixpoint explore (fuel : nat) (todo done : list nat) (s : S) : option (list nat * S) :=
  match fuel with
  | O => None
  | Datatypes.S fuel =>
      match todo with
      | [] => Some (done, s)
      | u :: todo =>
          let done := set_insert u done in
          match targets u with
          | None => None
          | Some l => explore fuel (foldl (todo_step done) todo l) done (visit u s)
          end
      end
  end.

Definition step (u v : nat) : Prop := exists l, targets u = Some l /\ v ∈ l.

Lemma todo_loop done todo l :
  StronglySorted lt todo ->
  StronglySorted lt (foldl (todo_step done) todo l) /\
  forall v, v ∈ foldl (todo_step done) todo l <-> v ∈ todo \/ (v ∈ l /\ v ∉ done).
Proof.
  revert todo. induction l as [|x l IH]; intros todo Ht; cbn [foldl].
  { split; [done|]. set_solver. }
  destruct (IH (todo_step done todo x)) as [H1 H2].
  { unfold todo_step. destruct (set_contains _ _); [done|by apply set_insert_sorted]. }
  split; [done|]. intros v. rewrite H2. unfold todo_step, set_contains.
  case_bool_decide as Hx; [set_solver|]. rewrite elem_of_set_insert, elem_of_cons.
  split; [intros [[->|]|[]]; tauto|]. intros [|[[->|] ?]]; tauto.
Qed.

(** The invariant: both sets are reachable, disjoint, and the targets of what
    is done are known. *)
Record explore_inv (n init : nat) (todo done order : list nat) : Prop := {
  inv_sorted : StronglySorted lt todo;
  inv_disjoint : forall u, u ∈ todo -> u ∈ done -> False;
  inv_init : init ∈ todo \/ init ∈ done;
  inv_reach : forall u, u ∈ todo \/ u ∈ done -> rtc step init u;
  inv_closed : forall u v, u ∈ done -> step u v -> v ∈ todo \/ v ∈ done;
  inv_order : NoDup order /\ forall u, u ∈ order <-> u ∈ done;
  inv_bound : forall u, u ∈ done -> u < n
}.

Lemma explore_inv_step n init u todo done order l :
  u < n -> targets u = Some l -> explore_inv n init (u :: todo) done order ->
  explore_inv n init (foldl (todo_step (set_insert u done)) todo l) (set_insert u done)
    (order ++ [u]).
Proof.
  intros Hu El [H1 H2 H3 H4 H5 [H6 H7] H8].
  pose proof (sorted_head _ _ H1) as Hnin. apply StronglySorted_inv in H1 as [H1 _].
  destruct (todo_loop (set_insert u done) todo l H1) as [Hs He].
  assert (Hin : forall v, v ∈ set_insert u done <-> v = u \/ v ∈ done)
    by (intros; apply elem_of_set_insert).
  split.
  - done.
  - intros v. rewrite He, Hin. intros [Hv|[_ Hv]]; [|done].
    intros [->|Hd]; [done|]. apply (H2 v); [by right|done].
  - rewrite He, Hin. destruct H3 as [[->|H3]%elem_of_cons|H3]; auto.
  - intros v. rewrite He, Hin. intros [[Hv|[Hv _]]|[->|Hv]].
    + apply H4. left. by right.
    + apply (rtc_r _ u); [apply H4; left; left|]. by exists l.
    + apply H4. left. left.
    + apply H4. by right.
  - intros v w. rewrite He, !Hin. intros Hv Hs'.
    destruct (decide (w = u)) as [->|Hwu]; [tauto|].
    destruct (decide (w ∈ done)) as [|Hwd]; [tauto|].
    left. destruct Hv as [->|Hv].
    + right. destruct Hs' as (l' & El' & Hw). rewrite El in El'. injection El' as ->.
      split; [done|tauto].
    + destruct (H5 v w Hv Hs') as [[->|]%elem_of_cons|]; [done|by left|done].
  - split.
    + apply NoDup_app. split; [done|]. split; [|apply NoDup_singleton].
      intros x Hx ->%list_elem_of_singleton. apply H7 in Hx. apply (H2 u); [left|done].
    + intros x. rewrite elem_of_app, list_elem_of_singleton, H7, Hin. tauto.
  - intros x. rewrite Hin. intros [->|]; auto.
Qed.

Lemma explore_loop n init fuel todo done order s :
  (forall u, rtc step init u -> u < n /\ exists l, targets u = Some l) ->
  explore_inv n init todo done order -> n < fuel + length order ->
  exists done' order', explore fuel todo done s =
      Some (done', foldl (fun s u => visit u s) s order') /\
    explore_inv n init [] done' (order ++ order').
Proof.
  intros Hr. revert todo done order s.
  induction fuel as [|fuel IH]; intros todo done order s Hinv Hf.
  { destruct (inv_order _ _ _ _ _ Hinv) as [Hnd He].
    assert (length order <= n); [|lia]. apply NoDup_bounded_length; [done|].
    intros u Hu. apply (inv_bound _ _ _ _ _ Hinv). by apply He. }
  destruct todo as [|u todo]; cbn [explore].
  { exists done, []. rewrite app_nil_r. done. }
  destruct (Hr u) as [Hu [l El]]; [apply (inv_reach _ _ _ _ _ Hinv); left; left|].
  rewrite El.
  destruct (IH _ _ _ (visit u s) (explore_inv_step n init u todo done order l Hu El Hinv))
    as (done' & order' & E & Hinv').
  { rewrite length_app. cbn. lia. }
  exists done', (u :: order'). split; [exact E|]. by rewrite <- app_assoc in Hinv'.
Qed.

(** With more fuel than vertices the loop ends; the vertices done are the ones
    that are reachable, and each is visited once. *)
Lemma explore_spec n init s :
  (forall u, rtc step init u -> u < n /\ exists l, targets u = Some l) ->
  exists done order,
    explore (Datatypes.S n) [init] [] s = Some (done, foldl (fun s u => visit u s) s order) /\
    NoDup order /\ (forall u, u ∈ order <-> rtc step init u) /\
    (forall u, u ∈ done <-> rtc step init u).
Proof.
  intros Hr. destruct (explore_loop n init (Datatypes.S n) [init] [] [] s Hr)
    as (done & order & E & Hinv).
  - split; [repeat constructor|set_solver|left; left| |set_solver| |set_solver].
    + intros u [->%list_elem_of_singleton|H]; [done|by apply elem_of_nil in H].
    + split; [constructor|set_solver].
  - cbn. lia.
  - cbn in Hinv. destruct Hinv as [_ _ H3 H4 H5 [H6 H7] _].
    assert (Hd : forall u, u ∈ done <-> rtc step init u).
    { intros u. split; [intros Hu; apply H4; by right|]. intros Hu.
      assert (Hc : forall x y, x ∈ done -> rtc step x y -> y ∈ done).
      { intros x y Hx Hy. induction Hy as [|x y z Hs _ IH]; [done|]. apply IH.
        destruct (H5 x y Hx Hs) as [H|]; [by apply elem_of_nil in H|done]. }
      apply (Hc init); [|done]. destruct H3 as [H|]; [by apply elem_of_nil in H|done]. }
    exists done, order. split; [done|]. split; [done|]. split; [|done].
    intros u. by rewrite H7.
Qed.

End Explore.

(** Two relations that agree on a set closed under the second reach the same
    vertices. *)
Lemma rtc_closed_iff (R R' : nat -> nat -> Prop) (P : nat -> Prop) x y :
  (forall u v, P u -> R u v <-> R' u v) -> (forall u v, P u -> R' u v -> P v) -> P x ->
  rtc R x y <-> rtc R' x y.
Proof.
  intros HR Hc HP. split; intros Hr.
  - induction Hr as [|u v w Huv _ IH]; [done|]. apply HR in Huv; [|done].
    apply (rtc_l _ _ v); [done|]. apply IH. by eapply Hc.
  - induction Hr as [|u v w Huv _ IH]; [done|].
    apply (rtc_l _ _ v); [by apply HR|]. apply IH. by eapply Hc.
Qed.

Lemma rtc_invariant (R : nat -> nat -> Prop) (P : nat -> Prop) x y :
  (forall u v, P u -> R u v -> P v) -> P x -> rtc R x y -> P y.
Proof. intros Hc Hx Hr. induction Hr as [|u v w Huv _ IH]; [done|]. apply IH. by eapply Hc. Qed.
