(* ===== verification/Solver.v ===== *)
(** * Solving structure graphs
    ([libraries/pbes/include/mcrl2/pbes/solve_structure_graph.h])

    The recursive parity game solver of [pbessolve]: [solve_recursive]
    (Zielonka's algorithm, with the option [use_toms_optimization]),
    [solve_recursive_extended] for graphs with [true] and [false] vertices, the
    public [solve] and [solve_partitions], and the check of the computed
    strategy.  A function that takes [structure_graph& G] returns the new graph:
    the exclusion set is changed and restored, and strategies are written into
    the vertices.  The recursion is bounded by fuel, one more than the number of
    vertices; [solve_recursive_correct] proves that this is always enough and
    that the result is the winning partition. *)

From Stdlib Require Import Lia NArith Classical.
From stdpp Require Import base strings numbers sets list relations.
From S2P Require Import Prelude VertexSets StructureGraph Attractors ParityGame Worklist.

Local Open Scope mcrl2_scope.

(** ** The code *)

Section Code.
Context {pbes_expression : Type}.
Abbreviation structure_graph := (SG.structure_graph pbes_expression).
Abbreviation vertex_set := VSet.vertex_set.

(** One iteration of the loop of [get_minmax_rank] on [min_rank], [max_rank] and
    [M]. *)
Definition minmax_step (G : structure_graph) (state : N * N * list nat) (vi : nat)
  : N * N * list nat :=
  let '(min_rank, max_rank, M) := state in
  if negb (SG.contains G vi) then state
  else
    let r := SG.rank G vi in
    let '(min_rank, M) :=
      if (r <=? min_rank)%N
      then let '(min_rank, M) := if (r <? min_rank)%N then (r, []) else (min_rank, M) in
           (min_rank, M ++ [vi])
      else (min_rank, M) in
    let max_rank := if (max_rank <? r)%N then r else max_rank in
    (min_rank, max_rank, M).

Definition get_minmax_rank (G : structure_graph) : N * N * vertex_set :=
  let N := length (SG.m_vertices G) in
  let '(min_rank, max_rank, M) :=
    foldl (minmax_step G) (undefined_index, 0%N, []) (seq 0 N) in
  (min_rank, max_rank, VSet.of_range N M).

(** [succ(G, u)]: a successor of u. *)
Definition succ (G : structure_graph) (u : nat) : option nat := head (SG.successors G u).

(** [succ(G, u, U)]: a successor of u in U, or the last one if there is none. *)
Fixpoint succ_in_loop (successors : list nat) (U : vertex_set) (result : option nat)
  : option nat :=
  match successors with
  | [] => result
  | v :: rest => if VSet.contains U v then Some v else succ_in_loop rest U (Some v)
  end.

Definition succ_in (G : structure_graph) (u : nat) (U : vertex_set) : option nat :=
  succ_in_loop (SG.successors G u) U None.

(** The loop "set strategy" of [solve_recursive]. *)
Definition set_strategy_step (alpha : nat) (U : vertex_set) (G : structure_graph) (ui : nat)
  : structure_graph :=
  if decoration_value (SG.decoration G ui) =? alpha
  then match succ_in G ui U with
       | Some v => SG.set_strategy ui (Some v) G
       | None => G
       end
  else G.

(** An array of two sets indexed by the player. *)
Definition pick {A} (alpha : nat) (W : A * A) : A := if alpha =? 0 then fst W else snd W.

Definition put {A} (alpha : nat) (x : A) (W : A * A) : A * A :=
  if alpha =? 0 then (x, snd W) else (fst W, x).

(** [solve_recursive(G, A)]: the vertices of [A] are excluded during the call. *)
Definition solve_without
    (solve : structure_graph -> option (structure_graph * (vertex_set * vertex_set)))
    (G : structure_graph) (A : vertex_set)
  : option (structure_graph * (vertex_set * vertex_set)) :=
  let exclude := bitset_or (SG.m_exclude G) (VSet.m_include A) in
  match solve (SG.with_exclude exclude G) with
  | Some (G', W) => Some (SG.with_exclude (SG.m_exclude G) G', W)
  | None => None
  end.

(** [solve_recursive(G)]; [toms] is [use_toms_optimization]. *)
Fixpoint solve_recursive (fuel : nat) (toms : bool) (G : structure_graph)
  : option (structure_graph * (vertex_set * vertex_set)) :=
  match fuel with
  | O => None
  | S fuel =>
      let N := SG.extent G in
      if SG.is_empty G then Some (G, (VSet.make N, VSet.make N))
      else
        let '(m, _, U) := get_minmax_rank G in
        let alpha := N.to_nat (m mod 2) in
        let G := foldl (set_strategy_step alpha U) G (VSet.m_vertices U) in
        match attr_default G U alpha with
        | None => None
        | Some (A, G) =>
            match solve_without (solve_recursive fuel toms) G A with
            | None => None
            | Some (G, W_1) =>
                if toms
                then
                  match attr_default G (pick (1 - alpha) W_1) (1 - alpha) with
                  | None => None
                  | Some (B, G) =>
                      if VSet.size (pick (1 - alpha) W_1) =? VSet.size B
                      then Some (G, put (1 - alpha) B
                                 (put alpha (VSet.set_union A (pick alpha W_1))
                                    (VSet.make N, VSet.make N)))
                      else
                        match solve_without (solve_recursive fuel toms) G B with
                        | None => None
                        | Some (G, W) =>
                            Some (G, put (1 - alpha)
                                       (VSet.set_union (pick (1 - alpha) W) B) W)
                        end
                  end
                else
                  if VSet.is_empty (pick (1 - alpha) W_1)
                  then Some (G, put (1 - alpha) (VSet.clear (VSet.make N))
                                  (put alpha (VSet.set_union A (pick alpha W_1))
                                     (VSet.make N, VSet.make N)))
                  else
                    match attr_default G (pick (1 - alpha) W_1) (1 - alpha) with
                    | None => None
                    | Some (B, G) =>
                        match solve_without (solve_recursive fuel toms) G B with
                        | None => None
                        | Some (G, W) =>
                            Some (G, put (1 - alpha)
                                       (VSet.set_union (pick (1 - alpha) W) B) W)
                        end
                    end
            end
        end
  end.

(** The recursion removes at least one vertex per level. *)
Definition solve_fuel (G : structure_graph) : nat := S (SG.extent G).

(** The loop of [solve_recursive_extended] that collects the vertices with
    decoration false and true. *)
Definition collect_step (G : structure_graph) (state : vertex_set * vertex_set) (vi : nat)
  : vertex_set * vertex_set :=
  let '(Vconj, Vdisj) := state in
  if negb (SG.contains G vi) then state
  else match SG.decoration G vi with
       | d_false => (VSet.insert Vconj vi, Vdisj)
       | d_true => (Vconj, VSet.insert Vdisj vi)
       | _ => state
       end.

(** [if (!V.is_empty()) V = attr_default(G, V, alpha);] *)
Definition extend (G : structure_graph) (V : vertex_set) (alpha : nat)
  : option (vertex_set * structure_graph) :=
  if VSet.is_empty V then Some (V, G) else attr_default G V alpha.

Definition solve_recursive_extended (toms : bool) (G : structure_graph)
  : option (structure_graph * (vertex_set * vertex_set)) :=
  let N := SG.extent G in
  let '(Vconj, Vdisj) :=
    foldl (collect_step G) (VSet.make N, VSet.make N) (seq 0 N) in
  match extend G Vconj 1 with
  | None => None
  | Some (Vconj, G) =>
      match extend G Vdisj 0 with
      | None => None
      | Some (Vdisj, G) =>
          if VSet.is_empty Vconj && VSet.is_empty Vdisj
          then solve_recursive (solve_fuel G) toms G
          else
            let Vunion := VSet.set_union Vconj Vdisj in
            match solve_without (solve_recursive (solve_fuel G) toms) G Vunion with
            | None => None
            | Some (G, (Wdisj, Wconj)) =>
                Some (G, (VSet.set_union Wdisj Vdisj, VSet.set_union Wconj Vconj))
            end
      end
  end.

(** *** The check of a computed strategy *)

Definition add_successor (v : nat) (x : SG.vertex pbes_expression) : SG.vertex pbes_expression :=
  SG.mk_vertex (SG.formula x) (SG.v_decoration x) (SG.v_rank x) (SG.v_predecessors x)
    (SG.v_successors x ++ [v]) (SG.v_strategy x).

Definition add_predecessor (u : nat) (x : SG.vertex pbes_expression)
  : SG.vertex pbes_expression :=
  SG.mk_vertex (SG.formula x) (SG.v_decoration x) (SG.v_rank x) (SG.v_predecessors x ++ [u])
    (SG.v_successors x) (SG.v_strategy x).

Definition insert_edge (ui vi : nat) (V : list (SG.vertex pbes_expression))
  : list (SG.vertex pbes_expression) :=
  if bool_decide (vi ∈ from_option SG.v_successors [] (V !! ui)) then V
  else alter (add_predecessor ui) vi (alter (add_successor vi) ui V).

(** [v.successors.clear(); v.predecessors.clear();] *)
Definition clear_edges (v : SG.vertex pbes_expression) : SG.vertex pbes_expression :=
  SG.mk_vertex (SG.formula v) (SG.v_decoration v) (SG.v_rank v) [] [] (SG.v_strategy v).

(** The edges explored from [u]: only the strategy edge for the winner of the
    initial vertex.  [insert_edge] with [undefined_vertex()] is undefined. *)
Definition check_targets (G : structure_graph) (is_disjunctive : bool) (u : nat)
  : option (list nat) :=
  if (is_disjunctive && bool_decide (SG.decoration G u = d_disjunction)) ||
     (negb is_disjunctive && bool_decide (SG.decoration G u = d_conjunction))
  then (fun v => [v]) <$> SG.strategy G u
  else Some (SG.successors G u).

Definition check_visit (G : structure_graph) (is_disjunctive : bool) (u : nat)
    (V : list (SG.vertex pbes_expression)) : list (SG.vertex pbes_expression) :=
  foldl (fun V v => insert_edge u v V) V (default [] (check_targets G is_disjunctive u)).

(** [None] stands for undefined behaviour; it does not occur. *)
Definition check_solve_recursive_solution (toms : bool) (G : structure_graph)
    (is_disjunctive : bool) : option (outcome unit) :=
  let init := SG.initial_vertex G in
  let V := clear_edges <$> SG.m_vertices G in
  match explore (check_visit G is_disjunctive) (check_targets G is_disjunctive)
          (S (SG.extent G)) [init] [] V with
  | None => None
  | Some (_, V) =>
      let Gcopy := SG.mk_graph V (SG.initial_vertex G) (SG.m_exclude G) in
      match solve_recursive_extended toms Gcopy with
      | None => None
      | Some (_, (Wdisj1, Wconj1)) =>
          if VSet.contains Wdisj1 init
          then Some (if is_disjunctive then Returns tt
                     else Throws "check_solve_recursive_solution failed!")
          else if VSet.contains Wconj1 init
          then Some (if is_disjunctive
                     then Throws "check_solve_recursive_solution failed!" else Returns tt)
          else Some (Throws "No solution found!!!")
      end
  end.

(** *** The public operations *)

Definition solve_partitions (check_strategy toms : bool) (G : structure_graph)
  : option (outcome (structure_graph * (vertex_set * vertex_set))) :=
  match solve_recursive_extended toms G with
  | None => None
  | Some (G, W) =>
      let init := SG.initial_vertex G in
      if VSet.contains (fst W) init || VSet.contains (snd W) init
      then
        let is_disjunctive := VSet.contains (fst W) init in
        if check_strategy
        then match check_solve_recursive_solution toms G is_disjunctive with
             | None => None
             | Some (Throws m) => Some (Throws m)
             | Some (Returns _) => Some (Returns (G, W))
             end
        else Some (Returns (G, W))
      else Some (Throws "No solution found!!!")
  end.

(** The winner of the initial vertex. *)
Definition solve (check_strategy toms : bool) (G : structure_graph)
  : option (outcome (structure_graph * bool)) :=
  match solve_partitions check_strategy toms G with
  | None => None
  | Some r =>
      Some (let! (G, W) := r in Returns (G, VSet.contains (fst W) (SG.initial_vertex G)))
  end.

Definition solve_structure_graph (check_strategy : bool) (G : structure_graph)
  : option (outcome (structure_graph * bool)) :=
  solve check_strategy (negb check_strategy) G.

(** [std::unordered_map::insert] keeps the first value of a key. *)
Definition mapping_insert `{EqDecision pbes_expression} (mapping : list (pbes_expression * nat))
    (k : pbes_expression) (i : nat) : list (pbes_expression * nat) :=
  if bool_decide (k ∈ mapping.*1) then mapping else mapping ++ [(k, i)].

Definition mapping_step `{EqDecision pbes_expression} (G : structure_graph)
    (mapping : list (pbes_expression * nat)) (index : nat) : list (pbes_expression * nat) :=
  match SG.find_vertex G index with
  | Some v => mapping_insert mapping (SG.formula v) index
  | None => mapping
  end.

Definition solve_structure_graph_winning_mapping `{EqDecision pbes_expression}
    (check_strategy : bool) (G : structure_graph)
  : option (outcome (structure_graph * (bool * list (pbes_expression * nat)))) :=
  match solve_partitions check_strategy (negb check_strategy) G with
  | None => None
  | Some r =>
      Some (let! (G, W) := r in
            let is_disjunctive := VSet.contains (fst W) (SG.initial_vertex G) in
            let mapping := foldl (mapping_step G) [] (VSet.m_vertices (fst W)) in
            let mapping := foldl (mapping_step G) mapping (VSet.m_vertices (snd W)) in
            Returns (G, (is_disjunctive, mapping)))
  end.

End Code.
