(* ===== verification/Arena.v ===== *)
(** * Structure graphs as parity games

    The part of a structure graph that the solver never changes - decorations,
    ranks and edges - is its [arena].  The arena determines the parity game
    ([edge], [owner], [ar_rank], [ar_dead]); the exclusion set determines the
    subgame [inside].  The lemmas of this file restate the results on
    attractors and on the small loops of the solver in these terms. *)

From Stdlib Require Import Lia NArith Classical.
From stdpp Require Import base strings numbers sets list relations.
From S2P Require Import Prelude VertexSets StructureGraph Attractors ParityGame Solver.

Section Arena.
Context {pbes_expression : Type}.
Abbreviation structure_graph := (SG.structure_graph pbes_expression).
Abbreviation vertex_set := VSet.vertex_set.

Implicit Types G : structure_graph.

Definition static_vertex : Type := decoration_type * N * list nat * list nat.

Definition static (v : SG.vertex pbes_expression) : static_vertex :=
  (SG.v_decoration v, SG.v_rank v, SG.v_predecessors v, SG.v_successors v).

Definition arena (G : structure_graph) : list static_vertex := static <$> SG.m_vertices G.

Definition ar_decoration (a : list static_vertex) (u : nat) : decoration_type :=
  from_option (fun x => x.1.1.1) d_none (a !! u).
Definition ar_rank (a : list static_vertex) (u : nat) : N :=
  from_option (fun x => x.1.1.2) undefined_index (a !! u).
Definition ar_successors (a : list static_vertex) (u : nat) : list nat :=
  from_option (fun x => x.2) [] (a !! u).
Definition ar_predecessors (a : list static_vertex) (u : nat) : list nat :=
  from_option (fun x => x.1.2) [] (a !! u).

(** The game of an arena. *)
Definition edge (a : list static_vertex) (u v : nat) : Prop := v ∈ ar_successors a u.
Definition owner (a : list static_vertex) (alpha u : nat) : Prop :=
  decoration_value (ar_decoration a u) = alpha.

#[export] Instance owner_dec a alpha u : Decision (owner a alpha u).
Proof. unfold owner. apply _. Defined.

(** The winner where a play ends: the decoration decides for [true] and
    [false]; any other vertex without successors counts as a loop on itself
    (in graphs that are [is_defined] there is none). *)
Definition ar_dead (a : list static_vertex) (u : nat) : nat :=
  match ar_decoration a u with
  | d_true => 0
  | d_false => 1
  | _ => parity (ar_rank a u)
  end.

Definition wins (G : structure_graph) (alpha : nat) (sigma : nat -> option nat) (u : nat)
  : Prop :=
  wins_from (edge (arena G)) (owner (arena G)) (ar_rank (arena G)) (ar_dead (arena G))
    (in_graph G) alpha sigma u.

Abbreviation game_region a := (region (edge a) (owner a) (ar_rank a) (ar_dead a)).
Abbreviation game_attracts a := (attracts (edge a) (owner a)).

(** What the solver assumes of a graph: well-formed edge vectors, at most one
    successor for a vertex without an owner, ranks that fit a [std::size_t]. *)
Record valid (G : structure_graph) : Prop := {
  valid_ok : SG.structure_graph_ok G;
  valid_unowned : forall u v w,
    SG.decoration G u <> d_disjunction -> SG.decoration G u <> d_conjunction ->
    v ∈ SG.all_successors G u -> w ∈ SG.all_successors G u -> v = w;
  valid_rank : forall u, (SG.rank G u <= undefined_index)%N
}.

Lemma arena_lookup G u : arena G !! u = static <$> (SG.m_vertices G !! u).
Proof. apply list_lookup_fmap. Qed.

Lemma arena_length G : length (arena G) = SG.extent G.
Proof. apply length_fmap. Qed.

Lemma decoration_arena G u : SG.decoration G u = ar_decoration (arena G) u.
Proof.
  unfold SG.decoration, SG.find_vertex, ar_decoration. rewrite arena_lookup.
  by destruct (SG.m_vertices G !! u).
Qed.

Lemma rank_arena G u : SG.rank G u = ar_rank (arena G) u.
Proof.
  unfold SG.rank, SG.find_vertex, ar_rank. rewrite arena_lookup.
  by destruct (SG.m_vertices G !! u).
Qed.

Lemma successors_arena G u : SG.all_successors G u = ar_successors (arena G) u.
Proof.
  unfold SG.all_successors, SG.find_vertex, ar_successors. rewrite arena_lookup.
  by destruct (SG.m_vertices G !! u).
Qed.

Lemma predecessors_arena G u : SG.all_predecessors G u = ar_predecessors (arena G) u.
Proof.
  unfold SG.all_predecessors, SG.find_vertex, ar_predecessors. rewrite arena_lookup.
  by destruct (SG.m_vertices G !! u).
Qed.

Lemma arena_set_strategy u v G : arena (SG.set_strategy u v G) = arena G.
Proof.
  apply list_eq. intros i. rewrite !arena_lookup. cbn [SG.set_strategy SG.m_vertices].
  destruct (decide (u = i)) as [->|Hne].
  - rewrite list_lookup_alter_eq. by destruct (SG.m_vertices G !! i).
  - by rewrite list_lookup_alter_ne.
Qed.

(** Two graphs that differ at most in their strategies. *)
Record same_game (G G' : structure_graph) : Prop := {
  same_arena : arena G' = arena G;
  same_exclude : SG.m_exclude G' = SG.m_exclude G;
  same_initial : SG.m_initial_vertex G' = SG.m_initial_vertex G
}.

#[export] Instance same_game_equiv : Equivalence same_game.
Proof.
  split.
  - by split.
  - intros x y [H1 H2 H3]. split; congruence.
  - intros x y z [H1 H2 H3] [H4 H5 H6]. split; congruence.
Qed.

Lemma same_extent G G' : arena G' = arena G -> SG.extent G' = SG.extent G.
Proof. intros H. by rewrite <- !arena_length, H. Qed.

Lemma same_in_graph G G' u : same_game G G' -> in_graph G' u <-> in_graph G u.
Proof.
  intros [H1 H2 _]. unfold in_graph. cbn. unfold SG.contains.
  by rewrite (same_extent G G' H1), H2.
Qed.

Lemma valid_arena G G' :
  arena G' = arena G -> length (SG.m_exclude G') = length (SG.m_exclude G) ->
  valid G -> valid G'.
Proof.
  intros Ha Hl [[H1 H2 H3] H4 H5]. pose proof (same_extent G G' Ha) as He.
  split; [split|..].
  - congruence.
  - intros u v. rewrite He, successors_arena, Ha, <- successors_arena. apply H2.
  - intros u v. rewrite successors_arena, predecessors_arena, Ha, <- successors_arena,
      <- predecessors_arena. apply H3.
  - intros u v w. rewrite !decoration_arena, successors_arena, Ha.
    rewrite <- !decoration_arena, <- successors_arena. apply H4.
  - intros u. rewrite rank_arena, Ha, <- rank_arena. apply H5.
Qed.

Lemma same_game_valid G G' : same_game G G' -> valid G -> valid G'.
Proof. intros [H1 H2 _]. apply valid_arena; [done|by rewrite H2]. Qed.

Lemma elem_of_sg_successors G u v :
  valid G -> v ∈ SG.successors G u <-> edge (arena G) u v /\ in_graph G v.
Proof.
  intros HG. unfold edge, in_graph. rewrite SG.elem_of_successors, <- successors_arena. cbn.
  split; [|tauto]. intros [Hc Hv]. split; [done|]. split; [|done].
  by apply (SG.all_successors_in G (valid_ok G HG) u).
Qed.

Lemma owner_unique G : valid G -> forall u v w,
  ~ owner (arena G) 0 u -> ~ owner (arena G) 1 u ->
  edge (arena G) u v -> edge (arena G) u w -> v = w.
Proof.
  intros HG u v w H0 H1 Hv Hw. unfold edge, owner in *.
  rewrite <- successors_arena in *. rewrite <- decoration_arena in *.
  apply (valid_unowned G HG u); auto; intros E; rewrite E in *; done.
Qed.

(** ** The strategy updates of the attractor computation *)

Definition record_strategies (L : list (nat * option nat)) (G : structure_graph)
  : structure_graph := foldl (fun g p => SG.set_strategy p.1 p.2 g) G L.

Lemma record_strategies_apply L G :
  gs_graph (apply_strategies L (mk_global G)) = record_strategies L G.
Proof. revert G. induction L as [|p L IH]; intros G; [done|]. apply IH. Qed.

Lemma set_strategy_same u v G : same_game G (SG.set_strategy u v G).
Proof. split; [apply arena_set_strategy|done|done]. Qed.

Lemma record_strategies_same L G : same_game G (record_strategies L G).
Proof.
  revert G. induction L as [|p L IH]; intros G; [done|].
  etransitivity; [apply (set_strategy_same p.1 p.2)|apply IH].
Qed.

Lemma strategy_set_ne u v G w : u <> w -> SG.strategy (SG.set_strategy u v G) w = SG.strategy G w.
Proof.
  intros Hne. unfold SG.strategy. rewrite SG.find_vertex_set. by rewrite decide_False.
Qed.

Lemma strategy_set_eq u v G : u < SG.extent G -> SG.strategy (SG.set_strategy u v G) u = v.
Proof. intros Hu. pose proof (strategy_set G u v u Hu) as E. by rewrite decide_True in E. Qed.

Lemma record_strategies_ne L G u :
  u ∉ L.*1 -> SG.strategy (record_strategies L G) u = SG.strategy G u.
Proof.
  revert G. induction L as [|[w v] L IH]; intros G Hu; [done|].
  cbn in Hu. apply not_elem_of_cons in Hu as [Hne Hu].
  change (SG.strategy (record_strategies L (SG.set_strategy w v G)) u = SG.strategy G u).
  rewrite IH by done. by apply strategy_set_ne.
Qed.

Lemma record_strategies_eq L G u v :
  NoDup L.*1 -> (forall w, w ∈ L.*1 -> w < SG.extent G) -> (u, v) ∈ L ->
  SG.strategy (record_strategies L G) u = v.
Proof.
  revert G. induction L as [|[w x] L IH]; intros G Hnd Hlt Huv; [by apply elem_of_nil in Huv|].
  cbn in Hnd, Hlt. apply NoDup_cons in Hnd as [Hw Hnd].
  change (SG.strategy (record_strategies L (SG.set_strategy w x G)) u = v).
  apply elem_of_cons in Huv as [[= -> ->]|Huv].
  - rewrite record_strategies_ne by done. apply strategy_set_eq, Hlt. left.
  - apply IH; auto. intros y Hy.
    rewrite (same_extent _ _ (same_arena _ _ (set_strategy_same w x G))). apply Hlt. by right.
Qed.

(** ** [attr_default] computes an attractor of the game *)

(** A vertex that the loop adds gets a strategy into the part that was there
    before it; the position in the vector is the distance. *)
Lemma attracted_strategy G alpha (A : VSet.vertex_set) (L : list (nat * option nat)) :
  NoDup L.*1 -> (forall u, u ∈ L.*1 -> u < SG.extent G) ->
  attr_trace G alpha (VSet.m_vertices A) L ->
  let V := VSet.m_vertices A ++ L.*1 in
  forall u, u ∈ V -> u ∉ VSet.m_vertices A ->
    exists w, SG.strategy (record_strategies L G) u = Some w /\ w ∈ SG.successors G u /\
      w ∈ V /\ index_of w V < index_of u V /\
      (owner (arena G) alpha u \/ forall x, x ∈ SG.successors G u ->
         x ∈ V /\ index_of x V < index_of u V).
Proof.
  intros HndL HLlt HL V u Hu Hn. apply elem_of_app in Hu as [|Hu]; [done|].
  apply list_elem_of_fmap in Hu as ([u' v] & -> & Huv). cbn in *.
  destruct (attr_trace_prefix G alpha _ L u' v HL Huv)
    as (pre & post & w & Ep & Hup & Hgu & -> & Hwp & Hws & Hd).
  exists w. split; [by apply record_strategies_eq|]. split; [done|].
  unfold V. rewrite Ep, (index_of_app u' pre post Hup).
  split; [set_solver|]. split; [by apply index_of_lt|].
  destruct Hd as [Hd|Hd]; [left; unfold owner; rewrite <- decoration_arena; exact Hd|right].
  intros x Hx. specialize (Hd x Hx). split; [set_solver|]. by apply index_of_lt.
Qed.

Lemma attr_default_spec G A alpha :
  valid G -> VSet.ok (SG.extent G) A -> (forall u, u ∈ VSet.m_vertices A -> in_graph G u) ->
  exists A' G' mu, attr_default G A alpha = Some (A', G') /\
    VSet.ok (SG.extent G) A' /\ same_game G G' /\
    (forall u, u ∉ VSet.m_vertices A' \/ u ∈ VSet.m_vertices A ->
       SG.strategy G' u = SG.strategy G u) /\
    game_attracts (arena G) (in_graph G) alpha (SG.strategy G')
      (fun u => u ∈ VSet.m_vertices A) (fun u => u ∈ VSet.m_vertices A') mu /\
    (length (VSet.m_vertices A') = length (VSet.m_vertices A) ->
       VSet.m_vertices A' = VSet.m_vertices A).
Proof.
  intros HG HA Hin.
  pose proof (SG.structure_graph_ok_graph_ok G (valid_ok G HG)) as Hg.
  destruct (attr_default_generic_spec _ G alpha A (mk_global G) Hg (le_n _) HA Hin)
    as (A' & L & E & HA' & EA & HL & Hc).
  assert (Hnd : NoDup (VSet.m_vertices A ++ L.*1)) by (rewrite <- EA; apply HA').
  apply NoDup_app in Hnd as (_ & Hdis & HndL).
  assert (HLlt : forall u, u ∈ L.*1 -> u < SG.extent G).
  { intros u Hu. apply (VSet.ok_lt _ _ _ HA'). rewrite EA. set_solver. }
  exists A', (record_strategies L G), (fun u => index_of u (VSet.m_vertices A')).
  unfold attr_default. rewrite E, record_strategies_apply. split; [done|]. split; [done|].
  split; [apply record_strategies_same|]. split; [|split].
  { intros u [Hu|Hu]; apply record_strategies_ne; [|by apply Hdis].
    rewrite EA in Hu. set_solver. }
  2: { rewrite EA, length_app. intros Hlen. destruct L.*1; [by rewrite app_nil_r|cbn in Hlen; lia]. }
  pose proof (attracted_strategy G alpha A L HndL HLlt HL) as Hpre. rewrite <- EA in Hpre.
  split.
  - intros u Hu. rewrite EA. set_solver.
  - intros u Hu. destruct (decide (u ∈ VSet.m_vertices A)) as [Ha|Ha]; [auto|].
    rewrite EA in Hu. apply elem_of_app in Hu as [|Hu]; [done|].
    apply list_elem_of_fmap in Hu as ([u' v] & -> & Huv).
    by destruct (attr_trace_prefix G alpha _ L u' v HL Huv) as (? & ? & ? & ? & ? & ? & _).
  - intros u Hu Hn Ho. destruct (Hpre u Hu Hn) as (w & Hs & Hw & HwA & Hlt & _).
    apply elem_of_sg_successors in Hw as [He Hx]; [|done]. eauto 10.
  - intros u Hu Hn Ho. destruct (Hpre u Hu Hn) as (w & Hs & Hw & HwA & Hlt & Hd).
    destruct Hd as [|Hd]; [done|]. split.
    + apply elem_of_sg_successors in Hw as [He Hx]; [|done]. by exists w.
    + intros v He Hx. apply Hd, elem_of_sg_successors; auto.
  - intros u Hx (v & He & Hv & HvA) Hd. apply Hc. split; [done|]. split.
    + exists v. split; [|done]. by apply elem_of_sg_successors.
    + destruct Hd as [Hd|Hd]; [left; unfold owner in Hd; by rewrite <- decoration_arena in Hd|right].
      intros w Hw. apply elem_of_sg_successors in Hw as [? ?]; auto.
Qed.

Lemma one_owner_arena G u : owner (arena G) 0 u -> owner (arena G) 1 u -> False.
Proof. unfold owner. lia. Qed.

(** No vertex is won by both players. *)
Lemma wins_exclusive_spec G sigma tau u :
  valid G -> wins G 0 sigma u -> wins G 1 tau u -> False.
Proof.
  intros HG. unfold wins. apply (winners_disjoint _ _ _ _ (one_owner_arena G) (owner_dec (arena G)) _ (fun v => head (SG.successors G v))).
  intros v (w & He & Hw).
  assert (Hv : w ∈ SG.successors G v) by (by apply elem_of_sg_successors).
  destruct (SG.successors G v) as [|x l] eqn:E; [by apply elem_of_nil in Hv|].
  exists x. split; [done|]. apply elem_of_sg_successors; [done|]. rewrite E. left.
Qed.

End Arena.
