(* ===== verification/SolverCorrect.v ===== *)
(** * Correctness of the structure-graph solver

    The loops of [solve_recursive] and the induction over its recursion: the
    two returned sets partition the vertices of the graph, each is won by its
    player, and without the option [use_toms_optimization] the strategies that
    are left in the graph are winning. *)

From Stdlib Require Import Lia NArith Classical.
From stdpp Require Import base strings numbers sets list relations.
From S2P Require Import Prelude VertexSets StructureGraph Attractors ParityGame Solver Arena.

Section Loops.
Context {pbes_expression : Type}.
Abbreviation structure_graph := (SG.structure_graph pbes_expression).
Implicit Types G : structure_graph.

(** ** The rank loop *)

(** What [minmax_step] maintains for the vertices below [k]. *)
Definition minmax_inv G (k : nat) (state : N * N * list nat) : Prop :=
  let '(mn, _, M) := state in
  (mn <= undefined_index)%N /\ ((mn < undefined_index)%N -> M <> []) /\
  (forall u, u < k -> SG.contains G u = true -> (mn <= SG.rank G u)%N) /\
  (forall u, u ∈ M <-> u < k /\ SG.contains G u = true /\ SG.rank G u = mn).

Lemma minmax_step_inv G k state :
  valid G -> minmax_inv G k state -> minmax_inv G (S k) (minmax_step G state k).
Proof.
  intros HG. destruct state as [[mn mx] M]. intros (Hb & Hne & Hle & HM).
  unfold minmax_step. pose proof (valid_rank G HG k) as Hr.
  assert (Hlt : forall u, u < S k <-> u < k \/ u = k) by lia.
  destruct (SG.contains G k) eqn:Ec; cbn [negb].
  2: { split; [done|]. split; [done|]. split; intros u.
       - intros [Hu| ->]%Hlt Hc; [auto|congruence].
       - rewrite HM, Hlt. split; [tauto|]. intros ([?| ->] & ? & ?); [tauto|congruence]. }
  destruct (N.leb_spec (SG.rank G k) mn) as [H1|H1];
    [destruct (N.ltb_spec (SG.rank G k) mn) as [H2|H2]|].
  - split; [done|]. split; [done|]. split; intros u.
    + intros [Hu| ->]%Hlt Hc; [specialize (Hle u Hu Hc)|]; lia.
    + cbn [app]. rewrite list_elem_of_singleton, Hlt. split; [intros ->; auto|].
      intros ([Hu| ->] & Hc & E); [specialize (Hle u Hu Hc); lia|done].
  - assert (E : SG.rank G k = mn) by lia.
    split; [done|]. split; [intros _ Hnil; by destruct M|]. split; intros u.
    + intros [Hu| ->]%Hlt Hc; [auto|lia].
    + rewrite elem_of_app, list_elem_of_singleton, HM, Hlt.
      split; [intros [?| ->]; tauto|]. intros ([?| ->] & ? & ?); tauto.
  - split; [done|]. split; [done|]. split; intros u.
    + intros [Hu| ->]%Hlt Hc; [auto|lia].
    + rewrite HM, Hlt. split; [tauto|]. intros ([?| ->] & ? & ?); [tauto|lia].
Qed.

Lemma minmax_loop G k :
  valid G ->
  minmax_inv G k (foldl (minmax_step G) (undefined_index, 0%N, []) (seq 0 k)).
Proof.
  intros HG. induction k as [|k IH].
  - cbn. split; [done|]. split; [lia|]. split; [lia|]. intros u.
    rewrite elem_of_nil. split; [done|lia].
  - rewrite seq_S, foldl_app. cbn. by apply minmax_step_inv.
Qed.

Lemma get_minmax_rank_spec G m mx U :
  valid G -> get_minmax_rank G = (m, mx, U) ->
  VSet.ok (SG.extent G) U /\
  (forall u, u ∈ VSet.m_vertices U <-> in_graph G u /\ SG.rank G u = m) /\
  (forall u, in_graph G u -> (m <= SG.rank G u)%N) /\
  (forall u, in_graph G u -> VSet.m_vertices U <> []).
Proof.
  intros HG. unfold get_minmax_rank.
  pose proof (minmax_loop G (length (SG.m_vertices G)) HG) as Hinv.
  destruct (foldl _ _ _) as [[m' mx'] M]. intros [= <- <- <-].
  destruct Hinv as (Hb & Hne & Hle & HM).
  destruct (VSet.of_range_ok (length (SG.m_vertices G)) M) as [Hok He].
  { intros u Hu. apply HM in Hu as (? & _). done. }
  split; [exact Hok|]. split; [|split].
  - intros u. rewrite He, HM. unfold in_graph. cbn. unfold SG.extent. tauto.
  - intros u [Hu Hc]. exact (Hle u Hu Hc).
  - intros u [Hu Hc] Hnil. cbn in Hu, Hc.
    assert (Hall : forall w, w ∉ M) by (intros w Hw; apply He in Hw; rewrite Hnil in Hw; set_solver).
    destruct M as [|w M]; [|by apply (Hall w); left].
    assert (m' = undefined_index) as ->.
    { apply N.le_antisymm; [done|]. apply N.nlt_ge. intros Hlt. by apply Hne. }
    assert (SG.rank G u = undefined_index).
    { apply N.le_antisymm; [by apply valid_rank|by apply Hle]. }
    apply (Hall u), HM. done.
Qed.

(** ** The strategy loop *)

Lemma same_successors G G' u : same_game G G' -> SG.successors G' u = SG.successors G u.
Proof.
  intros [Ha He _]. unfold SG.successors. rewrite !successors_arena, Ha.
  unfold SG.contains. by rewrite He.
Qed.

Lemma same_decoration G G' u : same_game G G' -> SG.decoration G' u = SG.decoration G u.
Proof. intros [Ha _ _]. by rewrite !decoration_arena, Ha. Qed.

Lemma succ_in_loop_elem l U r : l <> [] ->
  exists v, succ_in_loop l U r = Some v /\ v ∈ l.
Proof.
  revert r. induction l as [|x l IH]; intros r Hl; [done|]. cbn.
  destruct (VSet.contains U x); [exists x; split; [done|left]|].
  destruct l as [|y l]; [exists x; split; [done|left]|].
  destruct (IH (Some x)) as (v & E & Hv); [done|]. exists v. split; [done|by right].
Qed.

Lemma set_strategy_loop alpha U l G :
  NoDup l -> (forall u, u ∈ l -> u < SG.extent G) ->
  let G' := foldl (set_strategy_step alpha U) G l in
  same_game G G' /\
  (forall u, u ∉ l -> SG.strategy G' u = SG.strategy G u) /\
  (forall u, u ∈ l -> decoration_value (SG.decoration G u) = alpha ->
     SG.successors G u <> [] ->
     exists v, SG.strategy G' u = Some v /\ v ∈ SG.successors G u).
Proof.
  revert G. induction l as [|x l IH]; intros G Hnd Hlt; cbn [foldl].
  { split; [done|]. split; [done|]. intros u Hu. by apply elem_of_nil in Hu. }
  apply NoDup_cons in Hnd as [Hx Hnd].
  assert (Hs : same_game G (set_strategy_step alpha U G x) /\
    forall u, u <> x -> SG.strategy (set_strategy_step alpha U G x) u = SG.strategy G u).
  { unfold set_strategy_step. destruct (_ =? _); [|done].
    destruct (succ_in G x U); [|done]. split; [apply set_strategy_same|].
    intros u Hu. by apply strategy_set_ne. }
  destruct Hs as [Hs1 Hs2]. set (G1 := set_strategy_step alpha U G x) in *.
  destruct (IH G1 Hnd) as (H1 & H2 & H3).
  { intros u Hu. rewrite (same_extent _ _ (same_arena _ _ Hs1)). apply Hlt. by right. }
  split; [by etransitivity|]. split.
  - intros u Hu. apply not_elem_of_cons in Hu as [Hu1 Hu2]. rewrite H2 by done. by apply Hs2.
  - intros u Hu Hd Hne. apply elem_of_cons in Hu as [->|Hu].
    + rewrite H2 by done. destruct (succ_in_loop_elem (SG.successors G x) U None Hne) as (v & E & Hv).
      exists v. split; [|done]. unfold G1, set_strategy_step. rewrite Hd, Nat.eqb_refl.
      unfold succ_in. rewrite E. apply strategy_set_eq, Hlt. left.
    + rewrite <- (same_successors _ _ u Hs1) in *. apply H3; auto.
      by rewrite (same_decoration _ _ u Hs1).
Qed.

(** ** Subgraphs *)

Definition sub G (A : VSet.vertex_set) : structure_graph :=
  SG.with_exclude (bitset_or (SG.m_exclude G) (VSet.m_include A)) G.

Lemma sub_in_graph G A u :
  valid G -> VSet.ok (SG.extent G) A ->
  in_graph (sub G A) u <-> minus (in_graph G) (fun v => v ∈ VSet.m_vertices A) u.
Proof.
  intros HG (Hlen & _ & HA). unfold in_graph, minus. cbn. unfold SG.contains. cbn.
  rewrite bit_or, HA by (rewrite Hlen; apply (valid_ok G HG)).
  destruct (bit (SG.m_exclude G) u), (bit (VSet.m_include A) u); cbn; intuition congruence.
Qed.

Lemma sub_valid G A : valid G -> VSet.ok (SG.extent G) A -> valid (sub G A).
Proof.
  intros HG (Hlen & _ & _). apply (valid_arena G); [done| |done].
  cbn. unfold bitset_or. rewrite length_zip_with, Hlen.
  pose proof (SG.exclude_length G (valid_ok G HG)). lia.
Qed.

Lemma is_empty_spec G : valid G -> SG.is_empty G = true <-> forall u, ~ in_graph G u.
Proof.
  intros HG. unfold SG.is_empty. rewrite bitset_all_spec.
  rewrite (SG.exclude_length G (valid_ok G HG)). unfold in_graph. cbn. unfold SG.contains.
  split.
  - intros H u [Hu Hc]. rewrite (H u Hu) in Hc. done.
  - intros H u Hu. destruct (bit (SG.m_exclude G) u) eqn:E; [done|].
    exfalso. apply (H u). by rewrite E.
Qed.

(** The number of vertices that are not excluded. *)
Definition card G : nat :=
  length (filter (fun u => SG.contains G u = true) (seq 0 (SG.extent G))).

Lemma card_le G : card G <= SG.extent G.
Proof. unfold card. rewrite <- (length_seq (SG.extent G) 0) at 2. apply length_filter. Qed.

Lemma card_sub G A a :
  valid G -> VSet.ok (SG.extent G) A -> in_graph G a -> a ∈ VSet.m_vertices A ->
  card (sub G A) < card G.
Proof.
  intros HG HA [Ha Hc] HaA. pose proof (fun u => sub_in_graph G A u HG HA) as Hs.
  assert (Hlen : length (SG.m_exclude G) = length (VSet.m_include A)).
  { rewrite (SG.exclude_length G (valid_ok G HG)). symmetry. apply HA. }
  unfold card. apply (filter_length_lt _ _ _ a).
  - intros u. unfold SG.contains. cbn. rewrite bit_or by done.
    by destruct (bit (SG.m_exclude G) u).
  - apply elem_of_seq. cbn in Ha. cbn. unfold SG.extent in *. cbn. lia.
  - exact Hc.
  - unfold SG.contains. cbn. rewrite bit_or by done. apply HA in HaA. rewrite HaA.
    by rewrite orb_true_r.
Qed.

Lemma card_same G G' : same_game G G' -> card G' = card G.
Proof.
  intros Hs. unfold card. rewrite (same_extent _ _ (same_arena _ _ Hs)).
  unfold SG.contains. by rewrite (same_exclude _ _ Hs).
Qed.

End Loops.

Section Main.
Context {pbes_expression : Type}.
Abbreviation structure_graph := (SG.structure_graph pbes_expression).
Implicit Types G : structure_graph.
Abbreviation elements V := (fun u => u ∈ VSet.m_vertices V).
Abbreviation game_region a := (region (edge a) (owner a) (ar_rank a) (ar_dead a)).
Abbreviation game_attracts a := (attracts (edge a) (owner a)).

(** What a call of [solve_recursive] establishes; [sigma] certifies both winning
    sets, and is the strategy stored in the graph unless Tom's optimisation is
    used. *)
Record solution (toms : bool) G G' (W : VSet.vertex_set * VSet.vertex_set)
    (sigma : nat -> option nat) : Prop := {
  sol_same : same_game G G';
  sol_frame : forall u, ~ in_graph G u -> SG.strategy G' u = SG.strategy G u;
  sol_ok : forall alpha, VSet.ok (SG.extent G) (pick alpha W);
  sol_cover : forall alpha u, in_graph G u <->
    u ∈ VSet.m_vertices (pick alpha W) \/ u ∈ VSet.m_vertices (pick (1 - alpha) W);
  sol_disjoint : forall alpha u, alpha < 2 ->
    u ∈ VSet.m_vertices (pick alpha W) -> u ∈ VSet.m_vertices (pick (1 - alpha) W) -> False;
  sol_region : forall alpha, alpha < 2 ->
    game_region (arena G) (in_graph G) alpha sigma (elements (pick alpha W));
  sol_sigma : toms = false -> forall u, in_graph G u -> sigma u = SG.strategy G' u
}.

(** No vertex of the graph is decorated true or false. *)
Definition proper G : Prop :=
  forall u, in_graph G u -> SG.decoration G u <> d_true /\ SG.decoration G u <> d_false.

Lemma proper_dead G u :
  proper G -> in_graph G u -> ar_dead (arena G) u = parity (SG.rank G u).
Proof.
  intros HG Hu. destruct (HG u Hu) as [H1 H2]. unfold ar_dead.
  rewrite <- rank_arena. rewrite decoration_arena in H1, H2.
  by destruct (ar_decoration (arena G) u).
Qed.

Lemma pick_put_eq {A} alpha (x : A) W : pick alpha (put alpha x W) = x.
Proof. unfold pick, put. by destruct (alpha =? 0). Qed.

Lemma pick_put_other {A} alpha (x : A) W :
  alpha < 2 -> pick alpha (put (1 - alpha) x W) = pick alpha W /\
               pick (1 - alpha) (put alpha x W) = pick (1 - alpha) W.
Proof. intros H. destruct alpha as [|[|]]; [done|done|lia]. Qed.

(** Both players at once, from one of them. *)
Lemma two_players (P : nat -> Prop) alpha : alpha < 2 -> P alpha -> P (1 - alpha) ->
  forall beta, beta < 2 -> P beta.
Proof.
  intros Ha H1 H2 beta Hb. destruct (decide (beta = alpha)) as [->|Hn]; [done|].
  by replace beta with (1 - alpha) by lia.
Qed.

Lemma pick_cases {A} alpha beta (W : A * A) : alpha < 2 ->
  (pick beta W = pick alpha W /\ pick (1 - beta) W = pick (1 - alpha) W) \/
  (pick beta W = pick (1 - alpha) W /\ pick (1 - beta) W = pick alpha W).
Proof. destruct alpha as [|[|]], beta as [|[|]]; cbn; auto; lia. Qed.

(** Assembling a solution from the facts for [alpha] and its opponent. *)
Lemma make_solution toms G G' W sigma alpha :
  alpha < 2 -> same_game G G' ->
  (forall u, ~ in_graph G u -> SG.strategy G' u = SG.strategy G u) ->
  VSet.ok (SG.extent G) (pick alpha W) -> VSet.ok (SG.extent G) (pick (1 - alpha) W) ->
  (forall u, in_graph G u <->
     u ∈ VSet.m_vertices (pick alpha W) \/ u ∈ VSet.m_vertices (pick (1 - alpha) W)) ->
  (forall u, u ∈ VSet.m_vertices (pick alpha W) ->
     u ∈ VSet.m_vertices (pick (1 - alpha) W) -> False) ->
  game_region (arena G) (in_graph G) alpha sigma (elements (pick alpha W)) ->
  game_region (arena G) (in_graph G) (1 - alpha) sigma (elements (pick (1 - alpha) W)) ->
  (toms = false -> forall u, in_graph G u -> sigma u = SG.strategy G' u) ->
  solution toms G G' W sigma.
Proof.
  intros Ha Hs Hf Ho1 Ho2 Hc Hd Hr1 Hr2 Hsig. split; auto.
  - intros beta. by destruct (pick_cases alpha beta W Ha) as [[-> _]|[-> _]].
  - intros beta u. rewrite Hc.
    destruct (pick_cases alpha beta W Ha) as [[-> ->]|[-> ->]]; tauto.
  - intros beta u _. destruct (pick_cases alpha beta W Ha) as [[-> ->]|[-> ->]]; eauto.
  - by apply (two_players _ alpha).
Qed.

(** The recursive calls go to [solve_without]. *)
Lemma solve_without_spec solve toms G A :
  valid G -> VSet.ok (SG.extent G) A ->
  (exists G' W sigma, solve (sub G A) = Some (G', W) /\ solution toms (sub G A) G' W sigma) ->
  exists G' W sigma, solve_without solve G A = Some (G', W) /\ same_game G G' /\
    (forall u, ~ minus (in_graph G) (elements A) u ->
       SG.strategy G' u = SG.strategy G u) /\
    (forall alpha, VSet.ok (SG.extent G) (pick alpha W)) /\
    (forall alpha u, minus (in_graph G) (elements A) u <->
       u ∈ VSet.m_vertices (pick alpha W) \/ u ∈ VSet.m_vertices (pick (1 - alpha) W)) /\
    (forall alpha u, alpha < 2 -> u ∈ VSet.m_vertices (pick alpha W) ->
       u ∈ VSet.m_vertices (pick (1 - alpha) W) -> False) /\
    (forall alpha, alpha < 2 ->
       game_region (arena G) (minus (in_graph G) (elements A)) alpha sigma
         (elements (pick alpha W))) /\
    (toms = false -> forall u, minus (in_graph G) (elements A) u ->
       sigma u = SG.strategy G' u).
Proof.
  intros HG HA (G' & W & sigma & E & Hsol).
  pose proof (fun u => sub_in_graph G A u HG HA) as Hin.
  destruct Hsol as [Hs Hf Ho Hc Hd Hr Hsig].
  exists (SG.with_exclude (SG.m_exclude G) G'), W, sigma.
  unfold solve_without. fold (sub G A). rewrite E. split; [done|].
  assert (Hst : forall u, SG.strategy (SG.with_exclude (SG.m_exclude G) G') u =
    SG.strategy G' u) by done.
  split; [by destruct Hs; split|]. split; [|split; [|split; [|split; [|split]]]].
  - intros u Hu. rewrite Hst, Hf; [done|]. by rewrite Hin.
  - exact Ho.
  - intros alpha u. by rewrite <- Hin.
  - exact Hd.
  - intros alpha Ha. apply (region_game_ext _ _ _ _ (in_graph (sub G A))); auto.
  - intros Ht u Hu. rewrite Hst. apply Hsig; [done|]. by apply Hin.
Qed.

(** The same in terms of a graph [G] that differs from [G2] only in its
    strategies: a solution of [G] without [A]. *)
Record rest_solution (toms : bool) G (A : VSet.vertex_set) G2 G'
    (W : VSet.vertex_set * VSet.vertex_set) (sigma : nat -> option nat) : Prop := {
  rest_same : same_game G G';
  rest_frame : forall u, ~ minus (in_graph G) (elements A) u ->
    SG.strategy G' u = SG.strategy G2 u;
  rest_ok : forall alpha, VSet.ok (SG.extent G) (pick alpha W);
  rest_cover : forall alpha u, minus (in_graph G) (elements A) u <->
    u ∈ VSet.m_vertices (pick alpha W) \/ u ∈ VSet.m_vertices (pick (1 - alpha) W);
  rest_disjoint : forall alpha u, alpha < 2 -> u ∈ VSet.m_vertices (pick alpha W) ->
    u ∈ VSet.m_vertices (pick (1 - alpha) W) -> False;
  rest_region : forall alpha, alpha < 2 ->
    game_region (arena G) (minus (in_graph G) (elements A)) alpha sigma (elements (pick alpha W));
  rest_sigma : toms = false -> forall u, minus (in_graph G) (elements A) u ->
    sigma u = SG.strategy G' u
}.

Lemma solve_without_rest solve toms G G2 A :
  valid G -> same_game G G2 -> VSet.ok (SG.extent G) A ->
  (exists G' W sigma, solve (sub G2 A) = Some (G', W) /\ solution toms (sub G2 A) G' W sigma) ->
  exists G' W sigma, solve_without solve G2 A = Some (G', W) /\
    rest_solution toms G A G2 G' W sigma.
Proof.
  intros HG Hs HA Hsolve. pose proof (same_extent _ _ (same_arena _ _ Hs)) as He.
  destruct (solve_without_spec solve toms G2 A (same_game_valid _ _ Hs HG)) as
    (G' & W & sigma & E & Hs' & Hf & Hok & Hc & Hd & Hr & Hsig); [by rewrite He|done|].
  assert (HX : forall u, minus (in_graph G2) (elements A) u <-> minus (in_graph G) (elements A) u).
  { intros u. unfold minus. by rewrite (same_in_graph _ _ u Hs). }
  rewrite He in Hok. rewrite (same_arena _ _ Hs) in Hr.
  exists G', W, sigma. split; [done|]. split; auto.
  - by etransitivity.
  - intros u Hu. apply Hf. by rewrite HX.
  - intros alpha u. by rewrite <- HX.
  - intros alpha Ha. apply (region_game_ext _ _ _ _ _ _ _ _ _ HX). auto.
  - intros Ht u Hu. apply Hsig; [done|]. by apply HX.
Qed.

Section Rest.
Context {toms : bool} {G : structure_graph} {A : VSet.vertex_set} {G2 G' : structure_graph}
  {W : VSet.vertex_set * VSet.vertex_set} {sigma : nat -> option nat}
  (HR : rest_solution toms G A G2 G' W sigma).

Lemma rest_out gamma u : u ∈ VSet.m_vertices (pick gamma W) -> minus (in_graph G) (elements A) u.
Proof. intros Hu. apply (rest_cover _ _ _ _ _ _ _ HR gamma). by left. Qed.

(** A strategy that agrees with [sigma] outside [A] will do. *)
Lemma rest_region_ext gamma tau :
  gamma < 2 -> (forall u, u ∉ VSet.m_vertices A -> tau u = sigma u) ->
  game_region (arena G) (minus (in_graph G) (elements A)) gamma tau (elements (pick gamma W)).
Proof.
  intros Hg Ht. apply (region_ext _ _ _ _ _ _ sigma); [|by apply (rest_region _ _ _ _ _ _ _ HR)].
  intros u Hu. symmetry. apply Ht. by apply (rest_out gamma).
Qed.

(** The two sets and [A] cover the graph. *)
Lemma rest_cover_all gamma u :
  (u ∈ VSet.m_vertices A -> in_graph G u) ->
  in_graph G u <-> u ∈ VSet.m_vertices A \/ u ∈ VSet.m_vertices (pick gamma W) \/
    u ∈ VSet.m_vertices (pick (1 - gamma) W).
Proof.
  intros HA. split.
  - intros Hu. destruct (decide (u ∈ VSet.m_vertices A)) as [|Hn]; [auto|]. right.
    apply (rest_cover _ _ _ _ _ _ _ HR). by split.
  - intros [H|H]; [auto|]. by apply (rest_cover _ _ _ _ _ _ _ HR) in H as [? _].
Qed.

End Rest.

(** ** The second recursive call *)

Lemma opponents_other alpha : alpha < 2 -> opponents alpha (1 - alpha).
Proof. unfold opponents. lia. Qed.

Lemma opponents_sym alpha beta : opponents alpha beta -> opponents beta alpha.
Proof. unfold opponents. lia. Qed.

(** The opponent's attractor [B] of a region [S] of his, together with a
    solution of the rest of the game. *)
Lemma second_call toms solve G G4 S B alpha sigma1 mu :
  alpha < 2 -> valid G -> same_game G G4 ->
  (forall u, ~ in_graph G u -> SG.strategy G4 u = SG.strategy G u) ->
  VSet.ok (SG.extent G) B ->
  game_attracts (arena G) (in_graph G) (1 - alpha) (SG.strategy G4) (elements S) (elements B) mu ->
  game_region (arena G) (in_graph G) (1 - alpha) sigma1 (elements S) ->
  (toms = false -> forall u, u ∈ VSet.m_vertices S -> sigma1 u = SG.strategy G4 u) ->
  (exists G' W sigma, solve (sub G4 B) = Some (G', W) /\ solution toms (sub G4 B) G' W sigma) ->
  exists G5 W tau, solve_without solve G4 B = Some (G5, W) /\
    solution toms G G5 (put (1 - alpha) (VSet.set_union (pick (1 - alpha) W) B) W) tau.
Proof.
  intros Ha HG Hs Hf HB HA HS Hsig1 Hsolve.
  destruct (solve_without_rest solve toms G G4 B HG Hs HB Hsolve) as (G5 & W & sigma2 & E & HR).
  set (tau := fun u => if decide (u ∈ VSet.m_vertices B)
    then if decide (u ∈ VSet.m_vertices S) then sigma1 u else SG.strategy G4 u else sigma2 u).
  assert (Hr : forall gamma, gamma < 2 -> game_region (arena G) (minus (in_graph G) (elements B))
    gamma tau (elements (pick gamma W))).
  { intros gamma Hg. apply (rest_region_ext HR); [done|]. intros u Hu. unfold tau. by rewrite decide_False. }
  assert (HAt : game_attracts (arena G) (in_graph G) (1 - alpha) tau (elements S) (elements B) mu).
  { apply (attracts_ext _ _ _ _ (SG.strategy G4)); [|done].
    intros u Hu Hn. unfold tau. by rewrite decide_True, decide_False. }
  assert (HSt : game_region (arena G) (in_graph G) (1 - alpha) tau (elements S)).
  { apply (region_ext _ _ _ _ _ _ sigma1); [|done].
    intros u Hu. unfold tau. rewrite decide_True; [by rewrite decide_True|].
    by apply (att_target _ _ _ _ _ _ _ _ HA). }
  pose proof (rest_frame _ _ _ _ _ _ _ HR) as Hf5.
  destruct (VSet.set_union_ok _ _ _ (rest_ok _ _ _ _ _ _ _ HR (1 - alpha)) HB) as [Hu1 Hu2].
  exists G5, W, tau. split; [done|].
  apply (make_solution toms G G5 _ tau alpha);
    rewrite ?pick_put_eq, ?(proj1 (pick_put_other alpha _ _ Ha)); auto.
  - apply (rest_same _ _ _ _ _ _ _ HR).
  - intros u Hu. rewrite Hf5; [by apply Hf|]. by intros [].
  - apply (rest_ok _ _ _ _ _ _ _ HR).
  - intros u. rewrite Hu2, (rest_cover_all HR alpha u); [tauto|].
    apply (att_sub _ _ _ _ _ _ _ _ HA).
  - intros u H. rewrite Hu2. intros [H'|H']; [by apply (rest_disjoint _ _ _ _ _ _ _ HR alpha u)|].
    by apply (rest_out HR alpha u H).
  - eapply (region_lift _ _ _ _ (owner_unique G HG)); [|exact HAt|by apply Hr].
    apply opponents_sym, opponents_other; lia.
  - apply (region_set_ext _ _ _ _ _ _ _
      (fun u => u ∈ VSet.m_vertices (pick (1 - alpha) W) \/ u ∈ VSet.m_vertices B)).
    + intros u. by rewrite Hu2.
    + eapply region_union; [exact HAt|by eapply attractor_region|apply Hr; lia].
  - intros Ht u Hu. unfold tau. case_decide as H1; [|by apply (rest_sigma _ _ _ _ _ _ _ HR)].
    rewrite Hf5 by (intros []; done). case_decide; [by apply Hsig1|done].
Qed.

(** ** The first recursive call *)

(** The state after the first recursive call: [A] is the attractor of the
    vertices [U] of least rank [m], [W1] solves the rest. *)
Record first_split (toms : bool) G (m : N) (U A : VSet.vertex_set) G3
    (W1 : VSet.vertex_set * VSet.vertex_set) (sigma1 : nat -> option nat) (mu : nat -> nat)
  : Prop := {
  fs_same : same_game G G3;
  fs_frame : forall u, ~ in_graph G u -> SG.strategy G3 u = SG.strategy G u;
  fs_target : forall u, u ∈ VSet.m_vertices U <-> in_graph G u /\ SG.rank G u = m;
  fs_least : forall u, in_graph G u -> (m <= SG.rank G u)%N;
  fs_attr_ok : VSet.ok (SG.extent G) A;
  fs_attracts : game_attracts (arena G) (in_graph G) (parity m) (SG.strategy G3)
    (elements U) (elements A) mu;
  fs_strategy : forall u, u ∈ VSet.m_vertices U -> owner (arena G) (parity m) u ->
    has_successor (edge (arena G)) (in_graph G) u ->
    exists v, SG.strategy G3 u = Some v /\ edge (arena G) u v /\ in_graph G v;
  fs_ok : forall alpha, VSet.ok (SG.extent G) (pick alpha W1);
  fs_cover : forall alpha u, minus (in_graph G) (elements A) u <->
    u ∈ VSet.m_vertices (pick alpha W1) \/ u ∈ VSet.m_vertices (pick (1 - alpha) W1);
  fs_disjoint : forall alpha u, alpha < 2 -> u ∈ VSet.m_vertices (pick alpha W1) ->
    u ∈ VSet.m_vertices (pick (1 - alpha) W1) -> False;
  fs_region : forall alpha, alpha < 2 ->
    game_region (arena G) (minus (in_graph G) (elements A)) alpha sigma1
      (elements (pick alpha W1));
  fs_sigma : toms = false -> forall u, minus (in_graph G) (elements A) u ->
    sigma1 u = SG.strategy G3 u
}.

Lemma proper_sub G G2 A :
  valid G2 -> VSet.ok (SG.extent G2) A -> same_game G G2 -> proper G -> proper (sub G2 A).
Proof.
  intros HG2 HA Hs Hp u Hu. apply sub_in_graph in Hu as [Hu _]; [|done|done].
  apply (same_in_graph _ _ u Hs) in Hu.
  change (SG.decoration (sub G2 A) u) with (SG.decoration G2 u).
  rewrite (same_decoration _ _ u Hs). by apply Hp.
Qed.

Lemma nonempty_graph G : valid G -> SG.is_empty G = false -> exists u, in_graph G u.
Proof.
  intros HG Hne. apply NNPP. intros Hno. assert (SG.is_empty G = true); [|congruence].
  apply is_empty_spec; [done|]. intros u Hu. eauto.
Qed.

Lemma nonempty_element (U : VSet.vertex_set) :
  VSet.m_vertices U <> [] -> exists u, u ∈ VSet.m_vertices U.
Proof. destruct (VSet.m_vertices U) as [|a l]; [done|]. intros _. exists a. left. Qed.

Lemma first_call toms solve G m mx U :
  valid G -> proper G -> SG.is_empty G = false -> get_minmax_rank G = (m, mx, U) ->
  (forall G', valid G' -> proper G' -> card G' < card G ->
     exists G'' W sigma, solve G' = Some (G'', W) /\ solution toms G' G'' W sigma) ->
  exists A G2 G3 W1 sigma1 mu,
    attr_default (foldl (set_strategy_step (parity m) U) G (VSet.m_vertices U)) U (parity m)
      = Some (A, G2) /\
    solve_without solve G2 A = Some (G3, W1) /\
    first_split toms G m U A G3 W1 sigma1 mu.
Proof.
  intros HG Hp Hne Em IH.
  destruct (get_minmax_rank_spec G m mx U HG Em) as (HU & HUe & Hmin & HUne).
  destruct (set_strategy_loop (parity m) U (VSet.m_vertices U) G) as (Hs1 & Hf1 & Hst1);
    [apply HU|by intros u; apply VSet.ok_lt|].
  set (G1 := foldl _ _ _) in *.
  pose proof (same_game_valid _ _ Hs1 HG) as HG1.
  pose proof (same_extent _ _ (same_arena _ _ Hs1)) as He1.
  destruct (attr_default_spec G1 U (parity m)) as (A & G2 & mu & EA & HA & Hs2 & Hf2 & Hatt & _);
    [done|by rewrite He1|intros u Hu; apply (same_in_graph _ _ u Hs1); by apply HUe|].
  assert (Hs12 : same_game G G2) by (by etransitivity).
  pose proof (same_game_valid _ _ Hs12 HG) as HG2.
  rewrite He1 in HA. rewrite (same_arena _ _ Hs1) in Hatt.
  apply (attracts_game_ext _ _ _ _ _ _ _ _ _ (fun u => same_in_graph _ _ u Hs1)) in Hatt.
  assert (HA2 : VSet.ok (SG.extent G2) A) by (by rewrite (same_extent _ _ (same_arena _ _ Hs12))).
  destruct (solve_without_rest solve toms G G2 A HG Hs12 HA) as (G3 & W1 & sigma1 & E3 & HR).
  { apply IH; [by apply sub_valid|by apply (proper_sub G)|].
    destruct (nonempty_graph G HG Hne) as [w Hw]. destruct (nonempty_element U (HUne w Hw)) as [a Ha].
    rewrite <- (card_same _ _ Hs12). apply (card_sub _ _ a); [done|done| |].
    - apply (same_in_graph _ _ a Hs12). by apply HUe.
    - by apply (att_target _ _ _ _ _ _ _ _ Hatt). }
  exists A, G2, G3, W1, sigma1, mu. split; [done|]. split; [done|].
  pose proof (rest_frame _ _ _ _ _ _ _ HR) as Hf3.
  assert (Hf3' : forall u, u ∈ VSet.m_vertices A -> SG.strategy G3 u = SG.strategy G2 u).
  { intros u Hu. apply Hf3. by intros []. }
  pose proof (att_target _ _ _ _ _ _ _ _ Hatt) as HUA.
  split; auto; try apply HR.
  - intros u Hu. rewrite Hf3, Hf2, Hf1; [done|..].
    + intros Hu'. apply Hu. by apply HUe.
    + left. intros Hu'. apply Hu. by apply (att_sub _ _ _ _ _ _ _ _ Hatt).
    + by intros [].
  - apply (attracts_ext _ _ _ _ (SG.strategy G2)); [|done]. intros u Hu _. symmetry. auto.
  - intros u Hu Ho (v & Hv & Hx). rewrite Hf3', Hf2 by auto.
    destruct (Hst1 u Hu) as (w & Ew & Hw).
    + rewrite decoration_arena. exact Ho.
    + assert (Hvs : v ∈ SG.successors G u) by (by apply elem_of_sg_successors).
      intros En. rewrite En in Hvs. by apply elem_of_nil in Hvs.
    + exists w. split; [done|]. by apply elem_of_sg_successors in Hw.
Qed.

(** ** The result when no second call is made *)

(** The attractor of the least rank and the set won in the rest form a region
    if the moves from [U] stay inside. *)
Lemma own_region toms G m U A G3 W1 sigma1 mu tau Y :
  let alpha := parity m in
  proper G -> first_split toms G m U A G3 W1 sigma1 mu ->
  game_attracts (arena G) (in_graph G) alpha tau (elements U) (elements A) mu ->
  game_region (arena G) (minus (in_graph G) (elements A)) alpha tau (elements (pick alpha W1)) ->
  (forall u, Y u <-> u ∈ VSet.m_vertices A \/ u ∈ VSet.m_vertices (pick alpha W1)) ->
  (forall u v, Y u -> ~ owner (arena G) alpha u -> edge (arena G) u v -> in_graph G v -> Y v) ->
  (forall u, u ∈ VSet.m_vertices U -> owner (arena G) alpha u ->
     has_successor (edge (arena G)) (in_graph G) u ->
     exists v, tau u = Some v /\ edge (arena G) u v /\ in_graph G v /\ Y v) ->
  game_region (arena G) (in_graph G) alpha tau Y.
Proof.
  intros alpha Hp HF Hatt HrT HY Hcl Hch.
  assert (HUr : forall u, u ∈ VSet.m_vertices U -> in_graph G u /\ ar_rank (arena G) u = m).
  { intros u Hu. rewrite <- rank_arena. by apply (fs_target _ _ _ _ _ _ _ _ _ HF). }
  apply (region_least_rank _ _ _ _ (in_graph G) alpha tau (elements U) (elements A) mu
    (elements (pick alpha W1)) _ m); auto.
  - intros u Hu. by apply HUr.
  - intros u Hx. rewrite <- rank_arena. by apply (fs_least _ _ _ _ _ _ _ _ _ HF).
  - intros u Hu _. destruct (HUr u Hu) as [Hx Hr].
    rewrite (proper_dead G u Hp Hx), rank_arena, Hr. done.
Qed.

(** [tauU] continues from [U] inside the winning set; outside [U] the strategies
    of the attractor and of the first call are used. *)
Lemma no_second_call toms G m U A G3 W1 sigma1 mu G4 B W0 tauU :
  let alpha := parity m in
  let Y u := u ∈ VSet.m_vertices A \/ u ∈ VSet.m_vertices (pick alpha W1) in
  valid G -> proper G -> first_split toms G m U A G3 W1 sigma1 mu ->
  same_game G G4 -> (forall u, ~ in_graph G u -> SG.strategy G4 u = SG.strategy G u) ->
  VSet.ok (SG.extent G) B ->
  (forall u, u ∈ VSet.m_vertices B <-> u ∈ VSet.m_vertices (pick (1 - alpha) W1)) ->
  (forall u v, Y u -> ~ owner (arena G) alpha u -> edge (arena G) u v -> in_graph G v -> Y v) ->
  (forall u, u ∈ VSet.m_vertices U -> owner (arena G) alpha u ->
     has_successor (edge (arena G)) (in_graph G) u ->
     exists v, tauU u = Some v /\ edge (arena G) u v /\ in_graph G v /\ Y v) ->
  (toms = false -> forall u, tauU u = SG.strategy G4 u /\ SG.strategy G3 u = SG.strategy G4 u) ->
  exists tau, solution toms G G4
    (put (1 - alpha) B (put alpha (VSet.set_union A (pick alpha W1)) W0)) tau.
Proof.
  intros alpha Y HG Hp HF Hs Hf HB HBe Hcl Hch Hsig.
  pose proof (parity_lt m) as Ha. fold alpha in Ha.
  set (tau := fun u => if decide (u ∈ VSet.m_vertices A)
    then if decide (u ∈ VSet.m_vertices U) then tauU u else SG.strategy G3 u else sigma1 u).
  pose proof (fs_attracts _ _ _ _ _ _ _ _ _ HF) as Hatt.
  assert (HattT : game_attracts (arena G) (in_graph G) alpha tau (elements U) (elements A) mu).
  { apply (attracts_ext _ _ _ _ (SG.strategy G3)); [|done].
    intros u Hu Hn. unfold tau. by rewrite decide_True, decide_False. }
  assert (Hout : forall gamma u, u ∈ VSet.m_vertices (pick gamma W1) ->
    minus (in_graph G) (elements A) u).
  { intros gamma u Hu. apply (fs_cover _ _ _ _ _ _ _ _ _ HF gamma). by left. }
  assert (HrT : forall gamma, gamma < 2 ->
    game_region (arena G) (minus (in_graph G) (elements A)) gamma tau (elements (pick gamma W1))).
  { intros gamma Hg. apply (region_ext _ _ _ _ _ _ sigma1); [|by apply (fs_region _ _ _ _ _ _ _ _ _ HF)].
    intros u Hu. unfold tau. rewrite decide_False; [done|]. by apply (Hout gamma). }
  destruct (VSet.set_union_ok _ _ _ (fs_attr_ok _ _ _ _ _ _ _ _ _ HF)
    (fs_ok _ _ _ _ _ _ _ _ _ HF alpha)) as [Hu1 Hu2].
  exists tau. apply (make_solution toms G G4 _ tau alpha); auto;
    rewrite ?pick_put_eq, ?(proj1 (pick_put_other alpha _ _ Ha)), ?pick_put_eq; auto.
  - intros u. rewrite Hu2, HBe. pose proof (fs_cover _ _ _ _ _ _ _ _ _ HF alpha u) as Hc.
    split.
    + intros Hx. destruct (decide (u ∈ VSet.m_vertices A)) as [|Hn]; [auto|].
      destruct Hc as [[H|H] _]; [by split|auto..].
    + intros [[H|H]|H]; [by apply (att_sub _ _ _ _ _ _ _ _ Hatt)|apply (Hout alpha u H)|
        apply (Hout _ u H)].
  - intros u. rewrite Hu2, HBe. intros [H|H] H'.
    + by apply (Hout _ u H').
    + by apply (fs_disjoint _ _ _ _ _ _ _ _ _ HF alpha u).
  - apply (own_region toms G m U A G3 W1 sigma1 mu); auto.
    + intros u v. rewrite !Hu2. apply Hcl.
    + intros u Hu Ho Hsu. destruct (Hch u Hu Ho Hsu) as (v & Ev & ? & ? & ?).
      exists v. rewrite Hu2. split; [|done]. unfold tau.
      rewrite decide_True by (by apply (att_target _ _ _ _ _ _ _ _ Hatt)).
      by rewrite decide_True.
  - apply (region_set_ext _ _ _ _ _ _ _ (elements (pick (1 - alpha) W1)));
      [intros u; by rewrite HBe|].
    eapply (region_lift _ _ _ _ (owner_unique G HG)); [by apply opponents_other|exact HattT|].
    apply HrT. lia.
  - intros Ht u Hu. destruct (Hsig Ht u) as [E1 E2]. unfold tau.
    case_decide as H1; [case_decide; congruence|].
    rewrite <- E2. by apply (fs_sigma _ _ _ _ _ _ _ _ _ HF).
Qed.

(** ** The recursion *)

Lemma vertices_nil_elem V : VSet.is_empty V = true <-> forall u, u ∉ VSet.m_vertices V.
Proof.
  unfold VSet.is_empty. destruct (VSet.m_vertices V) as [|x l]; split; try done.
  - intros _ u Hu. by apply elem_of_nil in Hu.
  - intros H. exfalso. apply (H x). left.
Qed.

(** Tom's shortcut: the opponent's set is its own attractor. *)
Lemma toms_result G m U A G3 W1 sigma1 mu G4 B W0 nu :
  let alpha := parity m in
  valid G -> proper G -> first_split true G m U A G3 W1 sigma1 mu ->
  same_game G G4 -> (forall u, ~ in_graph G u -> SG.strategy G4 u = SG.strategy G u) ->
  VSet.ok (SG.extent G) B ->
  game_attracts (arena G) (in_graph G) (1 - alpha) (SG.strategy G4)
    (elements (pick (1 - alpha) W1)) (elements B) nu ->
  VSet.m_vertices B = VSet.m_vertices (pick (1 - alpha) W1) ->
  exists tau, solution true G G4
    (put (1 - alpha) B (put alpha (VSet.set_union A (pick alpha W1)) W0)) tau.
Proof.
  intros alpha HG Hp HF Hs Hf HB Hatt HBe. pose proof (parity_lt m) as Ha. fold alpha in Ha.
  pose proof (fs_cover _ _ _ _ _ _ _ _ _ HF alpha) as Hc.
  pose proof (fs_attracts _ _ _ _ _ _ _ _ _ HF) as HattA.
  assert (HY : forall u, minus (in_graph G) (elements B) u <->
    u ∈ VSet.m_vertices A \/ u ∈ VSet.m_vertices (pick alpha W1)).
  { intros u. specialize (Hc u). unfold minus in *. rewrite HBe. split.
    - intros [Hx Hn]. destruct (decide (u ∈ VSet.m_vertices A)) as [|Hn']; [auto|tauto].
    - intros [H|H].
      + split; [by apply (att_sub _ _ _ _ _ _ _ _ HattA)|]. intros Hb. tauto.
      + split; [tauto|]. intros Hb. by apply (fs_disjoint _ _ _ _ _ _ _ _ _ HF alpha u). }
  apply (no_second_call true G m U A G3 W1 sigma1 mu G4 B W0
    (fun u => snd <$> list_find (fun v => v ∉ VSet.m_vertices B) (SG.successors G u))); auto.
  - intros u. by rewrite HBe.
  - intros u v Hu Ho He Hv. apply HY in Hu. apply HY. split; [done|].
    eapply (outside_opponent _ _ (owner_unique G HG) _ (1 - alpha) alpha _ _ (elements B));
      eauto. by apply opponents_sym, opponents_other.
  - intros u Hu Ho Hsu.
    assert (HuY : minus (in_graph G) (elements B) u).
    { apply HY. left. by apply (att_target _ _ _ _ _ _ _ _ HattA). }
    destruct (outside_successor _ _ _ _ _ _ _ _ _ Hatt HuY Hsu) as (v & He & Hx & Hn).
    destruct (list_find_elem_of (fun v => v ∉ VSet.m_vertices B) (SG.successors G u) v)
      as [[i w] Ew]; [by apply elem_of_sg_successors|done|].
    rewrite Ew. cbn. apply list_find_Some in Ew as (Hl & Hw & _).
    apply list_elem_of_lookup_2, elem_of_sg_successors in Hl as [He' Hx']; [|done].
    exists w. split; [done|]. split; [done|]. split; [done|]. apply HY. by split.
  - done.
Qed.

(** The opponent's set of the first call is a region of the whole game. *)
Lemma first_split_region toms G m U A G3 W1 sigma1 mu :
  valid G -> first_split toms G m U A G3 W1 sigma1 mu ->
  game_region (arena G) (in_graph G) (1 - parity m) sigma1
    (elements (pick (1 - parity m) W1)).
Proof.
  intros HG HF. pose proof (parity_lt m).
  eapply (region_lift _ _ _ _ (owner_unique G HG)); [by apply opponents_other| |].
  - apply (fs_attracts _ _ _ _ _ _ _ _ _ HF).
  - apply (fs_region _ _ _ _ _ _ _ _ _ HF). lia.
Qed.

(** The attractor [B] of that set, computed in the graph [G3]. *)
Lemma second_attractor toms G m U A G3 W1 sigma1 mu :
  let alpha := parity m in let S := pick (1 - alpha) W1 in
  valid G -> first_split toms G m U A G3 W1 sigma1 mu ->
  exists B G4 nu, attr_default G3 S (1 - alpha) = Some (B, G4) /\
    VSet.ok (SG.extent G) B /\ same_game G G4 /\
    (forall u, ~ in_graph G u -> SG.strategy G4 u = SG.strategy G u) /\
    (toms = false -> forall u, u ∈ VSet.m_vertices S -> sigma1 u = SG.strategy G4 u) /\
    game_attracts (arena G) (in_graph G) (1 - alpha) (SG.strategy G4)
      (elements S) (elements B) nu /\
    (VSet.size S = VSet.size B -> VSet.m_vertices B = VSet.m_vertices S).
Proof.
  intros alpha S HG HF. pose proof (fs_same _ _ _ _ _ _ _ _ _ HF) as Hs.
  pose proof (same_extent _ _ (same_arena _ _ Hs)) as He.
  assert (HSx : forall u, u ∈ VSet.m_vertices S -> minus (in_graph G) (elements A) u).
  { intros u Hu. apply (fs_cover _ _ _ _ _ _ _ _ _ HF (1 - alpha)). by left. }
  destruct (attr_default_spec G3 S (1 - alpha))
    as (B & G4 & nu & E & HB & Hs4 & Hf4 & Hatt & Hlen).
  - by apply (same_game_valid G).
  - rewrite He. apply (fs_ok _ _ _ _ _ _ _ _ _ HF).
  - intros u Hu. apply (same_in_graph _ _ u Hs), (HSx u Hu).
  - rewrite He in HB. rewrite (same_arena _ _ Hs) in Hatt.
    apply (attracts_game_ext _ _ _ _ _ _ _ _ _ (fun u => same_in_graph _ _ u Hs)) in Hatt.
    exists B, G4, nu. split; [done|]. split; [done|]. split; [by etransitivity|].
    split; [|split; [|split; [done|by unfold VSet.size; auto]]].
    + intros u Hu. rewrite Hf4; [by apply (fs_frame _ _ _ _ _ _ _ _ _ HF)|].
      left. intros Hb. apply Hu. by apply (att_sub _ _ _ _ _ _ _ _ Hatt).
    + intros Ht u Hu. rewrite Hf4 by auto. apply (fs_sigma _ _ _ _ _ _ _ _ _ HF Ht); auto.
Qed.

Lemma second_step toms solve G m U A G3 W1 sigma1 mu B G4 nu :
  let alpha := parity m in let S := pick (1 - alpha) W1 in
  valid G -> proper G -> first_split toms G m U A G3 W1 sigma1 mu ->
  VSet.ok (SG.extent G) B -> same_game G G4 ->
  (forall u, ~ in_graph G u -> SG.strategy G4 u = SG.strategy G u) ->
  (toms = false -> forall u, u ∈ VSet.m_vertices S -> sigma1 u = SG.strategy G4 u) ->
  game_attracts (arena G) (in_graph G) (1 - alpha) (SG.strategy G4)
    (elements S) (elements B) nu ->
  (exists u, u ∈ VSet.m_vertices B) ->
  (forall G', valid G' -> proper G' -> card G' < card G ->
     exists G'' W sigma, solve G' = Some (G'', W) /\ solution toms G' G'' W sigma) ->
  exists G5 W tau, solve_without solve G4 B = Some (G5, W) /\
    solution toms G G5 (put (1 - alpha) (VSet.set_union (pick (1 - alpha) W) B) W) tau.
Proof.
  intros alpha S HG Hp HF HB Hs Hf Hsig Hatt [b Hb] IH.
  assert (HB4 : VSet.ok (SG.extent G4) B) by (by rewrite (same_extent _ _ (same_arena _ _ Hs))).
  pose proof (same_game_valid _ _ Hs HG) as HG4.
  eapply second_call; eauto; [apply parity_lt|by eapply first_split_region|].
  apply IH; [by apply sub_valid|by apply (proper_sub G)|].
  rewrite <- (card_same _ _ Hs). apply (card_sub _ _ b); auto.
  apply (same_in_graph _ _ b Hs). by apply (att_sub _ _ _ _ _ _ _ _ Hatt).
Qed.

(** The original algorithm, when the opponent wins nothing outside [A]. *)
Lemma original_result G m U A G3 W1 sigma1 mu :
  let alpha := parity m in let N := SG.extent G in
  valid G -> proper G -> first_split false G m U A G3 W1 sigma1 mu ->
  (forall u, u ∉ VSet.m_vertices (pick (1 - alpha) W1)) ->
  exists tau, solution false G G3
    (put (1 - alpha) (VSet.clear (VSet.make N))
       (put alpha (VSet.set_union A (pick alpha W1)) (VSet.make N, VSet.make N))) tau.
Proof.
  intros alpha N HG Hp HF Hnone.
  assert (HY : forall v, in_graph G v ->
    v ∈ VSet.m_vertices A \/ v ∈ VSet.m_vertices (pick alpha W1)).
  { intros v Hx. pose proof (fs_cover _ _ _ _ _ _ _ _ _ HF alpha v) as Hc.
    destruct (decide (v ∈ VSet.m_vertices A)) as [|Hn]; [by left|right].
    destruct Hc as [[H|H] _]; [by split|done|by apply Hnone in H]. }
  apply (no_second_call false G m U A G3 W1 sigma1 mu G3 _ _ (SG.strategy G3));
    auto; try apply HF.
  - unfold VSet.clear. cbn. unfold bitset_empty. rewrite length_replicate. apply VSet.make_ok.
  - intros u. cbn. rewrite elem_of_nil. split; [done|]. intros Hu. by apply Hnone in Hu.
  - intros u Hu Ho Hsu. destruct (fs_strategy _ _ _ _ _ _ _ _ _ HF u Hu Ho Hsu)
      as (v & ? & ? & Hx). exists v. auto.
Qed.

Lemma empty_solution toms G :
  valid G -> SG.is_empty G = true ->
  solution toms G G (VSet.make (SG.extent G), VSet.make (SG.extent G)) (SG.strategy G).
Proof.
  intros HG Ee. pose proof (proj1 (is_empty_spec G HG) Ee) as Hemp.
  assert (Hnil : forall u, ~ u ∈ @nil nat) by (intros u; apply not_elem_of_nil).
  apply (make_solution _ _ _ _ _ 0); cbn [pick fst snd Nat.eqb Nat.sub];
    try apply VSet.make_ok; try (apply region_empty, Hnil); try reflexivity; auto with lia.
  - intros u. split; [by intros ?%Hemp|]. intros [H|H]; by apply Hnil in H.
  - intros u H. by apply Hnil in H.
Qed.

(** With more fuel than vertices [solve_recursive] returns the winning
    partition. *)
Lemma solve_recursive_spec fuel toms G :
  valid G -> proper G -> card G < fuel ->
  exists G' W sigma, solve_recursive fuel toms G = Some (G', W) /\ solution toms G G' W sigma.
Proof.
  revert G. induction fuel as [|fuel IH]; intros G HG Hp Hf; [lia|]. cbn [solve_recursive].
  destruct (SG.is_empty G) eqn:Ee.
  { eexists _, _, _. split; [done|]. by apply empty_solution. }
  destruct (get_minmax_rank G) as [[m mx] U] eqn:Em.
  change (N.to_nat (m mod 2)) with (parity m).
  assert (IH' : forall G', valid G' -> proper G' -> card G' < card G ->
    exists G'' W sigma, solve_recursive fuel toms G' = Some (G'', W) /\
      solution toms G' G'' W sigma).
  { intros G' H1 H2 H3. apply IH; [done|done|lia]. }
  destruct (first_call toms (solve_recursive fuel toms) G m mx U HG Hp Ee Em IH')
    as (A & G2 & G3 & W1 & sigma1 & mu & -> & -> & HF).
  destruct (second_attractor toms G m U A G3 W1 sigma1 mu HG HF)
    as (B & G4 & nu & EB & HB & Hs4 & Hf4 & Hsig & Hatt & Hlen).
  assert (Hsecond : (exists u, u ∈ VSet.m_vertices B) ->
    exists G' W sigma,
      match solve_without (solve_recursive fuel toms) G4 B with
      | Some (G5, W) => Some (G5, put (1 - parity m) (VSet.set_union (pick (1 - parity m) W) B) W)
      | None => None
      end = Some (G', W) /\ solution toms G G' W sigma).
  { intros Hb. destruct (second_step toms _ G m U A G3 W1 sigma1 mu B G4 nu
      HG Hp HF HB Hs4 Hf4 Hsig Hatt Hb IH') as (G5 & W & tau & -> & Hsol). eauto. }
  pose proof (att_target _ _ _ _ _ _ _ _ Hatt) as Hsub.
  destruct toms.
  - rewrite EB. destruct (Nat.eqb_spec (VSet.size (pick (1 - parity m) W1)) (VSet.size B))
      as [Hsz|Hsz].
    + destruct (toms_result G m U A G3 W1 sigma1 mu G4 B
        (VSet.make (SG.extent G), VSet.make (SG.extent G)) nu HG Hp HF Hs4 Hf4 HB Hatt (Hlen Hsz))
        as [tau Htau]. eauto.
    + apply Hsecond. destruct (VSet.m_vertices B) as [|b l] eqn:El; [|exists b; left].
      exfalso. apply Hsz. unfold VSet.size. rewrite El.
      destruct (VSet.m_vertices (pick (1 - parity m) W1)) as [|c l] eqn:El'; [done|].
      exfalso. apply (not_elem_of_nil c), Hsub. left.
  - destruct (VSet.is_empty (pick (1 - parity m) W1)) eqn:Eemp.
    + pose proof (proj1 (vertices_nil_elem _) Eemp) as Hnone.
      destruct (original_result G m U A G3 W1 sigma1 mu HG Hp HF Hnone) as [tau Htau]. eauto.
    + rewrite EB. apply Hsecond.
      destruct (VSet.m_vertices (pick (1 - parity m) W1)) as [|c l] eqn:El.
      * exfalso. unfold VSet.is_empty in Eemp. by rewrite El in Eemp.
      * exists c. apply Hsub. left.
Qed.

End Main.
