(* ===== verification/SolverCheck.v ===== *)
(** * The self-check of the solver

    [check_solve_recursive_solution] explores the graph from the initial vertex,
    following only the computed strategy of the winner, copies the edges it
    meets into a new graph and solves that graph.  The lemmas below describe the
    copy; since the winner's region is also one in the copy, the second solution
    agrees with the first and no exception is thrown. *)

From Stdlib Require Import Lia NArith Classical.
From stdpp Require Import base strings numbers sets list relations.
From S2P Require Import Prelude VertexSets StructureGraph Attractors ParityGame Worklist Solver.
From S2P Require Import Arena SolverCorrect SolverExtended.

Section Edges.
Context {pbes_expression : Type}.
Abbreviation structure_graph := (SG.structure_graph pbes_expression).
Abbreviation vertex_vector := (list (SG.vertex pbes_expression)).
Implicit Types (G : structure_graph) (V : vertex_vector).

(** ** Inserting edges *)

Definition succs V (u : nat) : list nat := from_option SG.v_successors [] (V !! u).
Definition preds V (u : nat) : list nat := from_option SG.v_predecessors [] (V !! u).

(** What [insert_edge] leaves alone. *)
Definition labels V : list (decoration_type * N * option nat) :=
  (fun v => (SG.v_decoration v, SG.v_rank v, SG.v_strategy v)) <$> V.

Definition matched V : Prop := forall u v, u ∈ preds V v <-> v ∈ succs V u.

Lemma alter_labels f u V :
  (forall x, SG.v_decoration (f x) = SG.v_decoration x /\ SG.v_rank (f x) = SG.v_rank x /\
             SG.v_strategy (f x) = SG.v_strategy x) ->
  labels (alter f u V) = labels V.
Proof.
  intros Hf. apply list_eq. intros i. unfold labels. rewrite !list_lookup_fmap.
  destruct (decide (u = i)) as [->|Hn]; [|by rewrite list_lookup_alter_ne].
  rewrite list_lookup_alter_eq. destruct (V !! i) as [x|]; [|done]. cbn.
  by destruct (Hf x) as (-> & -> & ->).
Qed.

Lemma lookup_alter_attr {A} (g : SG.vertex pbes_expression -> A) (d : A) f u V w :
  from_option g d (alter f u V !! w) =
  if decide (u = w) then from_option (fun x => g (f x)) d (V !! w)
  else from_option g d (V !! w).
Proof.
  case_decide as E; [subst|by rewrite list_lookup_alter_ne].
  rewrite list_lookup_alter_eq. by destruct (V !! w).
Qed.

Lemma insert_edge_spec u v V :
  u < length V -> v < length V -> matched V ->
  let V' := insert_edge u v V in
  labels V' = labels V /\ matched V' /\
  (forall x y, y ∈ succs V' x <-> y ∈ succs V x \/ (x = u /\ y = v)).
Proof.
  intros Hu Hv Hm V'.
  assert (Hs : forall x y, y ∈ succs V' x <-> y ∈ succs V x \/ (x = u /\ y = v)).
  { intros x y. unfold V', insert_edge. fold (succs V u). case_bool_decide as E.
    - split; [auto|]. by intros [|[-> ->]].
    - unfold succs at 1. rewrite lookup_alter_attr.
      assert (E1 : from_option SG.v_successors [] (alter (add_successor v) u V !! x) =
        if decide (u = x) then succs V x ++ [v] else succs V x).
      { rewrite lookup_alter_attr. unfold succs. case_decide as Ex; [subst|done].
        destruct (lookup_lt_is_Some_2 V x Hu) as [z Hz]. by rewrite Hz. }
      assert (E2 : (if decide (v = x)
        then from_option (fun z => SG.v_successors (add_predecessor u z)) []
               (alter (add_successor v) u V !! x)
        else from_option SG.v_successors [] (alter (add_successor v) u V !! x)) =
        if decide (u = x) then succs V x ++ [v] else succs V x).
      { rewrite <- E1. destruct (decide (v = x)); [|reflexivity]. by destruct (alter _ _ _ !! x). }
      rewrite E2. destruct (decide (u = x)) as [->|Hx];
        rewrite ?elem_of_app, ?list_elem_of_singleton; intuition congruence. }
  assert (Hp : forall x y, x ∈ preds V' y <-> x ∈ preds V y \/ (x = u /\ y = v)).
  { intros x y. unfold V', insert_edge. fold (succs V u). case_bool_decide as E.
    - split; [auto|]. intros [|[-> ->]]; [done|by apply Hm].
    - unfold preds at 1. rewrite lookup_alter_attr.
      assert (E1 : forall z, from_option SG.v_predecessors [] (alter (add_successor v) u V !! z)
        = preds V z).
      { intros z. rewrite lookup_alter_attr. unfold preds. by case_decide; destruct (V !! z). }
      case_decide as Ev; [subst|rewrite E1; set_solver].
      destruct (lookup_lt_is_Some_2 (alter (add_successor y) u V) y) as [z Hz];
        [by rewrite length_alter|].
      specialize (E1 y). rewrite Hz in *. cbn in *. rewrite E1. set_solver. }
  split; [|split; [|done]].
  - unfold V', insert_edge. case_bool_decide; [done|]. by rewrite !alter_labels.
  - intros x y. rewrite Hs, Hp, (Hm x y). done.
Qed.

Lemma labels_length V V' : labels V' = labels V -> length V' = length V.
Proof. intros H. apply (f_equal length) in H. unfold labels in H. by rewrite !length_fmap in H. Qed.

(** A loop of insertions adds exactly its edges. *)
Lemma insert_edges_spec (L : list (nat * nat)) V :
  (forall p, p ∈ L -> p.1 < length V /\ p.2 < length V) -> matched V ->
  let V' := foldl (fun V p => insert_edge p.1 p.2 V) V L in
  labels V' = labels V /\ matched V' /\
  (forall x y, y ∈ succs V' x <-> y ∈ succs V x \/ (x, y) ∈ L).
Proof.
  revert V. induction L as [|[u v] L IH]; intros V HL Hm; cbn [foldl fst snd].
  { split; [done|]. split; [done|]. intros x y. set_solver. }
  destruct (HL (u, v)) as [Hu Hv]; [left|].
  destruct (insert_edge_spec u v V Hu Hv Hm) as (H1 & H2 & H3).
  destruct (IH (insert_edge u v V)) as (I1 & I2 & I3); [|done|].
  { intros p Hp. rewrite (labels_length _ _ H1). apply HL. by right. }
  split; [congruence|]. split; [done|]. intros x y. rewrite I3, H3, elem_of_cons.
  rewrite pair_eq. tauto.
Qed.

(** The visits of the exploration insert the edges to the targets. *)
Definition explored_edges G (is_disjunctive : bool) (order : list nat) : list (nat * nat) :=
  concat ((fun u => pair u <$> default [] (check_targets G is_disjunctive u)) <$> order).

Lemma check_visits G is_disjunctive order V :
  foldl (fun V u => check_visit G is_disjunctive u V) V order =
  foldl (fun V p => insert_edge p.1 p.2 V) V (explored_edges G is_disjunctive order).
Proof.
  revert V. induction order as [|u order IH]; intros V; [done|].
  unfold explored_edges. cbn [fmap list_fmap concat foldl]. rewrite foldl_app, IH. f_equal.
  unfold check_visit. generalize (default [] (check_targets G is_disjunctive u)). intros l.
  revert V. clear IH. induction l as [|v l IH]; intros V; [done|]. cbn. apply IH.
Qed.

Lemma elem_of_explored G is_disjunctive order u v :
  (u, v) ∈ explored_edges G is_disjunctive order <->
  u ∈ order /\ step (check_targets G is_disjunctive) u v.
Proof.
  unfold explored_edges, step. rewrite list_elem_of_In, in_concat. split.
  - intros (l & Hl & Huv). apply list_elem_of_In, list_elem_of_fmap in Hl as (w & -> & Hw).
    apply list_elem_of_In, list_elem_of_fmap in Huv as (x & [= -> ->] & Hx).
    split; [done|]. destruct (check_targets G is_disjunctive w) as [l|]; [eauto|].
    by apply elem_of_nil in Hx.
  - intros (Hu & l & El & Hv).
    exists (pair u <$> l). split.
    + apply list_elem_of_In, list_elem_of_fmap. exists u. by rewrite El.
    + apply list_elem_of_In, list_elem_of_fmap. eauto.
Qed.

End Edges.

Section Check.
Context {pbes_expression : Type}.
Abbreviation structure_graph := (SG.structure_graph pbes_expression).
Abbreviation elements V := (fun u => u ∈ VSet.m_vertices V).
Abbreviation game_region a := (region (edge a) (owner a) (ar_rank a) (ar_dead a)).
Implicit Types G : structure_graph.

(** Every vertex of the graph other than [true] and [false] has a successor in
    it; without excluded vertices this is [is_defined]. *)
Definition total G : Prop := forall u, in_graph G u ->
  SG.decoration G u <> d_true -> SG.decoration G u <> d_false -> SG.successors G u <> [].

(** The number of the player who wins. *)
Definition winner (is_disjunctive : bool) : nat := if is_disjunctive then 0 else 1.

Lemma winner_lt is_disjunctive : winner is_disjunctive < 2.
Proof. destruct is_disjunctive; cbn; lia. Qed.

Lemma check_targets_owner G is_disjunctive u :
  check_targets G is_disjunctive u =
  if decide (owner (arena G) (winner is_disjunctive) u)
  then (fun v => [v]) <$> SG.strategy G u else Some (SG.successors G u).
Proof.
  unfold check_targets. rewrite decoration_arena.
  destruct (decide (owner (arena G) (winner is_disjunctive) u)) as [Ho|Ho]; unfold owner in Ho;
    by destruct is_disjunctive, (ar_decoration (arena G) u).
Qed.

Lemma check_step_move G is_disjunctive W u :
  let alpha := winner is_disjunctive in
  valid G -> total G ->
  game_region (arena G) (in_graph G) alpha (SG.strategy G) W -> W u ->
  (exists l, check_targets G is_disjunctive u = Some l) /\
  (forall v, step (check_targets G is_disjunctive) u v <->
     move (edge (arena G)) (owner (arena G)) (in_graph G) alpha (SG.strategy G) u v).
Proof.
  intros alpha HG Ht HW Hu. unfold step, move. rewrite check_targets_owner. fold alpha.
  destruct (decide (owner (arena G) alpha u)) as [Ho|Ho].
  - destruct (region_own _ _ _ _ _ _ _ _ HW u Hu Ho) as (v & Ev & He & Hx & _).
    { destruct (SG.successors G u) as [|w l] eqn:E.
      - exfalso. apply (Ht u); [by apply HW| | |done]; rewrite decoration_arena;
          intros E'; unfold owner in Ho; rewrite E' in Ho; unfold alpha, winner in Ho;
          by destruct is_disjunctive.
      - exists w. apply elem_of_sg_successors; [done|]. rewrite E. left. }
    rewrite Ev. cbn. split; [eauto|]. intros w. split.
    + intros (l & [= <-] & ->%list_elem_of_singleton). auto.
    + intros (_ & _ & Hw). specialize (Hw Ho). injection Hw as ->. exists [w].
      split; [done|left].
  - split; [eauto|]. intros w. split.
    + intros (l & [= <-] & Hw). apply elem_of_sg_successors in Hw as [? ?]; [|done].
      split; [done|]. split; [done|]. intros Ho'. by destruct (Ho Ho').
    + intros (He & Hx & _). exists (SG.successors G u). split; [done|].
      by apply elem_of_sg_successors.
Qed.

(** The vertices that are explored stay in the winner's region. *)
Lemma check_reach_region G is_disjunctive W u v :
  valid G -> total G ->
  game_region (arena G) (in_graph G) (winner is_disjunctive) (SG.strategy G) W ->
  W u -> rtc (step (check_targets G is_disjunctive)) u v -> W v.
Proof.
  intros HG Ht HW Hu Hr. induction Hr as [|u w v Hs _ IH]; [done|]. apply IH.
  apply (check_step_move G is_disjunctive W u HG Ht HW Hu) in Hs. by eapply region_closed.
Qed.

(** The copy of the explored part. *)
Record explored_copy G (is_disjunctive : bool) (V : list (SG.vertex pbes_expression)) : Prop := {
  copy_labels : labels V = labels (SG.m_vertices G);
  copy_matched : matched V;
  copy_edges : forall x y, y ∈ succs V x <->
    rtc (step (check_targets G is_disjunctive)) (SG.initial_vertex G) x /\
    step (check_targets G is_disjunctive) x y
}.

Lemma check_explore G is_disjunctive W :
  valid G -> total G ->
  game_region (arena G) (in_graph G) (winner is_disjunctive) (SG.strategy G) W ->
  W (SG.initial_vertex G) ->
  exists done V,
    explore (check_visit G is_disjunctive) (check_targets G is_disjunctive) (S (SG.extent G))
      [SG.initial_vertex G] [] (clear_edges <$> SG.m_vertices G) = Some (done, V) /\
    explored_copy G is_disjunctive V.
Proof.
  intros HG Ht HW Hi.
  pose proof (fun v => check_reach_region G is_disjunctive W _ v HG Ht HW Hi) as HR.
  destruct (explore_spec (check_visit G is_disjunctive) (check_targets G is_disjunctive)
    (SG.extent G) (SG.initial_vertex G) (clear_edges <$> SG.m_vertices G))
    as (done & order & E & _ & Ho & _).
  { intros u Hu. split.
    - destruct (region_sub _ _ _ _ _ _ _ _ HW u (HR u Hu)) as [Hlt _]. exact Hlt.
    - by apply (check_step_move G is_disjunctive W u HG Ht HW), HR. }
  exists done, (foldl (fun V u => check_visit G is_disjunctive u V)
    (clear_edges <$> SG.m_vertices G) order). split; [exact E|]. rewrite check_visits.
  set (V0 := clear_edges <$> SG.m_vertices G).
  assert (Hs0 : forall x, succs V0 x = []).
  { intros x. unfold succs, V0. rewrite list_lookup_fmap. by destruct (SG.m_vertices G !! x). }
  assert (Hp0 : forall x, preds V0 x = []).
  { intros x. unfold preds, V0. rewrite list_lookup_fmap. by destruct (SG.m_vertices G !! x). }
  destruct (insert_edges_spec (explored_edges G is_disjunctive order) V0) as (H1 & H2 & H3).
  - intros [u v] Hp. unfold V0. rewrite length_fmap.
    apply elem_of_explored in Hp as [Hu Hs]. apply Ho in Hu. pose proof (HR u Hu) as HWu.
    destruct (region_sub _ _ _ _ _ _ _ _ HW u HWu) as [Hlt _]. split; [exact Hlt|].
    apply (check_step_move G is_disjunctive W u HG Ht HW HWu) in Hs as (_ & [Hv _] & _).
    exact Hv.
  - intros u v. rewrite Hs0, Hp0. set_solver.
  - split.
    + rewrite H1. unfold labels, V0. rewrite <- list_fmap_compose. done.
    + done.
    + intros x y. rewrite H3, Hs0, elem_of_explored, Ho. set_solver.
Qed.

Definition copy_graph G (V : list (SG.vertex pbes_expression)) : structure_graph :=
  SG.mk_graph V (SG.initial_vertex G) (SG.m_exclude G).

Lemma copy_attributes G is_disjunctive V u :
  explored_copy G is_disjunctive V ->
  SG.extent (copy_graph G V) = SG.extent G /\
  SG.decoration (copy_graph G V) u = SG.decoration G u /\
  SG.rank (copy_graph G V) u = SG.rank G u.
Proof.
  intros HV. pose proof (copy_labels _ _ _ HV) as HL. split; [by apply labels_length|].
  unfold labels in HL. apply (f_equal (lookup u)) in HL. rewrite !list_lookup_fmap in HL.
  unfold SG.decoration, SG.rank, SG.find_vertex. cbn.
  destruct (V !! u), (SG.m_vertices G !! u); cbn in *; split; congruence.
Qed.

Lemma copy_in_graph G is_disjunctive V u :
  explored_copy G is_disjunctive V -> in_graph (copy_graph G V) u <-> in_graph G u.
Proof.
  intros HV. unfold in_graph. cbn [sg_extent sg_contains SG.structure_graph_StructureGraph].
  by destruct (copy_attributes G is_disjunctive V u HV) as [-> _].
Qed.

Section Region.
Variables (G : structure_graph) (is_disjunctive : bool) (W : nat -> Prop)
  (V : list (SG.vertex pbes_expression)).
Hypothesis HG : valid G.
Hypothesis Ht : total G.
Hypothesis HW :
  game_region (arena G) (in_graph G) (winner is_disjunctive) (SG.strategy G) W.
Hypothesis Hi : W (SG.initial_vertex G).
Hypothesis HV : explored_copy G is_disjunctive V.

Abbreviation Gc := (copy_graph G V).
Abbreviation R := (rtc (step (check_targets G is_disjunctive)) (SG.initial_vertex G)).

Lemma copy_edge x y : edge (arena Gc) x y <->
  R x /\ move (edge (arena G)) (owner (arena G)) (in_graph G) (winner is_disjunctive)
           (SG.strategy G) x y.
Proof.
  unfold edge at 1. rewrite <- successors_arena. change (SG.all_successors Gc x) with (succs V x).
  rewrite (copy_edges _ _ _ HV). split; intros [HR Hs]; (split; [done|]);
    apply (check_step_move G is_disjunctive W x HG Ht HW); auto;
    by apply (check_reach_region G is_disjunctive W _ x HG Ht HW Hi).
Qed.

Lemma copy_owner alpha x : owner (arena Gc) alpha x <-> owner (arena G) alpha x.
Proof.
  unfold owner. rewrite <- !decoration_arena.
  by destruct (copy_attributes G is_disjunctive V x HV) as (_ & -> & _).
Qed.

Lemma copy_rank x : ar_rank (arena Gc) x = ar_rank (arena G) x.
Proof.
  rewrite <- !rank_arena. by destruct (copy_attributes G is_disjunctive V x HV) as (_ & _ & ->).
Qed.

Lemma copy_dead x : ar_dead (arena Gc) x = ar_dead (arena G) x.
Proof.
  unfold ar_dead. rewrite copy_rank, <- !decoration_arena.
  by destruct (copy_attributes G is_disjunctive V x HV) as (_ & -> & _).
Qed.

Lemma copy_valid : valid Gc.
Proof.
  pose proof (fun x => copy_attributes G is_disjunctive V x HV) as HA.
  assert (Hsub : forall x y, y ∈ SG.all_successors Gc x ->
    y ∈ SG.all_successors G x /\ in_graph G y).
  { intros x y Hy. rewrite successors_arena in Hy. apply copy_edge in Hy as (_ & He & Hx & _).
    unfold edge in He. by rewrite <- successors_arena in He. }
  split; [split|..].
  - destruct (HA 0) as [-> _]. apply (SG.exclude_length G (valid_ok G HG)).
  - intros x y Hy. destruct (HA 0) as [-> _]. destruct (Hsub x y Hy) as [_ [Hlt _]]. exact Hlt.
  - intros x y. apply (copy_matched _ _ _ HV).
  - intros x y z. destruct (HA x) as (_ & -> & _). intros H1 H2 Hy Hz.
    apply (valid_unowned G HG x); auto; by apply Hsub.
  - intros x. destruct (HA x) as (_ & _ & ->). apply (valid_rank G HG).
Qed.

Lemma copy_terminal : terminal G -> terminal Gc.
Proof.
  intros HT x Hx. destruct (copy_attributes G is_disjunctive V x HV) as (_ & E & _).
  rewrite E in Hx. destruct (SG.all_successors Gc x) as [|y l] eqn:Es; [done|].
  assert (Hy : edge (arena Gc) x y).
  { unfold edge. rewrite <- successors_arena, Es. left. }
  apply copy_edge in Hy as (_ & He & _). by destruct (terminal_edge G x y HT Hx).
Qed.

(** The explored vertices are a region of the winner in the copy. *)
Lemma copy_region : game_region (arena Gc) (in_graph Gc) (winner is_disjunctive) (SG.strategy G) R.
Proof.
  assert (HR : forall x, R x -> W x).
  { intros x. by apply (check_reach_region G is_disjunctive W). }
  assert (Hmove : forall x y, R x -> move (edge (arena G)) (owner (arena G)) (in_graph G)
    (winner is_disjunctive) (SG.strategy G) x y -> R y).
  { intros x y Hx Hm. eapply rtc_r; [exact Hx|].
    by apply (check_step_move G is_disjunctive W x HG Ht HW (HR x Hx)). }
  assert (Hsub : forall x y, edge (arena Gc) x y -> edge (arena G) x y /\ in_graph G y).
  { intros x y He. by apply copy_edge in He as (_ & ? & ? & _). }
  assert (Hsucc : forall x, R x -> has_successor (edge (arena G)) (in_graph G) x ->
    exists y, move (edge (arena G)) (owner (arena G)) (in_graph G)
      (winner is_disjunctive) (SG.strategy G) x y).
  { intros x Hx Hs. destruct (decide (owner (arena G) (winner is_disjunctive) x)) as [Ho|Ho].
    - destruct (region_own _ _ _ _ _ _ _ _ HW x (HR x Hx) Ho Hs) as (y & ? & ? & ? & _).
      exists y. by split.
    - destruct Hs as (y & ? & ?). exists y. split; [done|]. split; [done|].
      intros Ho'. by destruct (Ho Ho'). }
  assert (Hsub' : forall x, has_successor (edge (arena Gc)) (in_graph Gc) x ->
    has_successor (edge (arena G)) (in_graph G) x).
  { intros x (y & He & _). exists y. by apply Hsub. }
  split.
  - intros x Hx. apply (copy_in_graph G is_disjunctive V x HV), HW. auto.
  - intros x Hx Ho Hs. apply copy_owner in Ho.
    destruct (Hsucc x Hx (Hsub' x Hs)) as (y & Hm). pose proof Hm as (He & Hy & Hsg).
    exists y. split; [by apply Hsg|]. split; [by apply copy_edge|].
    split; [by apply (copy_in_graph G is_disjunctive V y HV)|by apply (Hmove x)].
  - intros x y Hx _ He _. apply copy_edge in He as [_ Hm]. by apply (Hmove x).
  - intros x Hx Hd. rewrite copy_dead. apply (region_dead _ _ _ _ _ _ _ _ HW x (HR x Hx)).
    intros Hs. apply Hd. destruct (Hsucc x Hx Hs) as (y & Hm). exists y.
    split; [by apply copy_edge|]. apply (copy_in_graph G is_disjunctive V y HV). apply Hm.
  - intros x l Hx Hl Hw.
    destruct (region_cycle _ _ _ _ _ _ _ _ HW x l (HR x Hx) Hl) as (y & Hy & Hp & Hle).
    + apply (walk_mono _ _ (fun _ => True)) with (4 := Hw); auto.
      intros u v _ _ (He & _ & _). by apply copy_edge in He as [_ Hm].
    + exists y. split; [done|]. rewrite copy_rank. split; [done|].
      intros z Hz. rewrite copy_rank. auto.
Qed.

End Region.

End Check.
