(* ===== verification/SolverTheorems.v ===== *)
(** * What the structure-graph solver promises

    The theorems about the functions of [solve_structure_graph.h], stated with
    the game-theoretic [wins] of [Arena.v], and a concrete graph on which they
    are applied. *)

From Stdlib Require Import Lia NArith Classical.
From stdpp Require Import base strings numbers sets list relations.
From S2P Require Import Prelude VertexSets StructureGraph Attractors ParityGame Worklist Solver.
From S2P Require Import Arena SolverCorrect SolverExtended SolverCheck.

(** ** Deciding the preconditions *)

Section Preconditions.
Context {pbes_expression : Type}.
Abbreviation structure_graph := (SG.structure_graph pbes_expression).
Implicit Types G : structure_graph.

Definition on_vertices G (p : nat -> bool) : bool := forallb p (seq 0 (SG.extent G)).

Definition vertex_ok G (u : nat) : bool :=
  forallb (fun v => (v <? SG.extent G) && bool_decide (u ∈ SG.all_predecessors G v))
    (SG.all_successors G u) &&
  forallb (fun v => bool_decide (u ∈ SG.all_successors G v)) (SG.all_predecessors G u) &&
  (bool_decide (SG.decoration G u = d_disjunction) ||
   bool_decide (SG.decoration G u = d_conjunction) || (length (SG.all_successors G u) <=? 1)) &&
  (SG.rank G u <=? undefined_index)%N.

Definition valid_b G : bool :=
  (length (SG.m_exclude G) =? SG.extent G) && on_vertices G (vertex_ok G).

Definition is_constant (d : decoration_type) : bool :=
  bool_decide (d = d_true) || bool_decide (d = d_false).

Definition terminal_b G : bool :=
  on_vertices G (fun u => negb (is_constant (SG.decoration G u)) ||
    bool_decide (SG.all_successors G u = [])).

Definition proper_b G : bool :=
  on_vertices G (fun u => negb (SG.contains G u && is_constant (SG.decoration G u))).

Definition total_b G : bool :=
  on_vertices G (fun u => negb (SG.contains G u) || is_constant (SG.decoration G u) ||
    negb (bool_decide (SG.successors G u = []))).

Lemma on_vertices_spec G p u : on_vertices G p = true -> u < SG.extent G -> p u = true.
Proof.
  unfold on_vertices. rewrite forallb_forall. intros H Hu. apply H, in_seq. lia.
Qed.

Lemma outside_vertex G u : ~ u < SG.extent G ->
  SG.all_successors G u = [] /\ SG.all_predecessors G u = [] /\
  SG.decoration G u = d_none /\ SG.rank G u = undefined_index.
Proof.
  intros Hu. unfold SG.all_successors, SG.all_predecessors, SG.decoration, SG.rank, SG.find_vertex.
  rewrite (lookup_ge_None_2 (SG.m_vertices G) u) by (unfold SG.extent in Hu; lia). done.
Qed.

Lemma is_constant_spec d : is_constant d = true <-> d = d_true \/ d = d_false.
Proof. unfold is_constant. by rewrite orb_true_iff, !bool_decide_eq_true. Qed.

Lemma valid_b_sound G : valid_b G = true -> valid G.
Proof.
  intros [Hl Hv]%andb_true_iff. apply Nat.eqb_eq in Hl.
  assert (Hok : forall u, u < SG.extent G -> vertex_ok G u = true)
    by (intros u; by apply on_vertices_spec).
  assert (Hsucc : forall u v, v ∈ SG.all_successors G u ->
    v < SG.extent G /\ u ∈ SG.all_predecessors G v).
  { intros u v Huv. destruct (decide (u < SG.extent G)) as [Hu|Hu].
    - pose proof (Hok u Hu) as H. unfold vertex_ok in H. rewrite !andb_true_iff in H.
      destruct H as (((H & _) & _) & _). rewrite forallb_forall in H.
      apply list_elem_of_In in Huv. specialize (H v Huv). apply andb_true_iff in H as [H1 H2].
      apply Nat.ltb_lt in H1. by apply bool_decide_eq_true in H2.
    - destruct (outside_vertex G u Hu) as (E & _). rewrite E in Huv. by apply elem_of_nil in Huv. }
  assert (Hpred : forall u v, u ∈ SG.all_predecessors G v -> v ∈ SG.all_successors G u).
  { intros u v Huv. destruct (decide (v < SG.extent G)) as [Hu|Hu].
    - pose proof (Hok v Hu) as H. unfold vertex_ok in H. rewrite !andb_true_iff in H.
      destruct H as (((_ & H) & _) & _). rewrite forallb_forall in H.
      apply list_elem_of_In in Huv. specialize (H u Huv). by apply bool_decide_eq_true in H.
    - destruct (outside_vertex G v Hu) as (_ & E & _). rewrite E in Huv. by apply elem_of_nil in Huv. }
  split; [split|..].
  - done.
  - intros u v Huv. by apply (Hsucc u).
  - intros u v. split; [apply Hpred|]. intros Huv. by apply Hsucc.
  - intros u v w H1 H2 Hv' Hw'. destruct (decide (u < SG.extent G)) as [Hu|Hu].
    + pose proof (Hok u Hu) as H. unfold vertex_ok in H. rewrite !andb_true_iff in H.
      destruct H as ((_ & H) & _). rewrite !orb_true_iff, !bool_decide_eq_true in H.
      destruct H as [[H|H]|H]; [done|done|]. apply Nat.leb_le in H.
      destruct (SG.all_successors G u) as [|x [|y l]]; [by apply elem_of_nil in Hv'| |cbn in H; lia].
      apply list_elem_of_singleton in Hv' as ->. by apply list_elem_of_singleton in Hw' as ->.
    + destruct (outside_vertex G u Hu) as (E & _). rewrite E in Hv'. by apply elem_of_nil in Hv'.
  - intros u. destruct (decide (u < SG.extent G)) as [Hu|Hu].
    + pose proof (Hok u Hu) as H. unfold vertex_ok in H. rewrite !andb_true_iff in H.
      destruct H as (_ & H). by apply N.leb_le.
    + by destruct (outside_vertex G u Hu) as (_ & _ & _ & ->).
Qed.

Lemma terminal_b_sound G : terminal_b G = true -> terminal G.
Proof.
  intros H u Hu. destruct (decide (u < SG.extent G)) as [Hlt|Hge].
  - apply (on_vertices_spec G _ u H) in Hlt as Hp. apply is_constant_spec in Hu.
    rewrite Hu in Hp. by apply bool_decide_eq_true in Hp.
  - by destruct (outside_vertex G u Hge) as (E & _).
Qed.

Lemma proper_b_sound G : proper_b G = true -> proper G.
Proof.
  intros H u [Hu Hc]. pose proof (on_vertices_spec G _ u H Hu) as Hp. cbn in Hc, Hp.
  rewrite Hc in Hp. cbn in Hp. apply negb_true_iff in Hp.
  split; intros E; rewrite E in Hp; done.
Qed.

Lemma total_b_sound G : total_b G = true -> total G.
Proof.
  intros H u [Hu Hc] H1 H2. pose proof (on_vertices_spec G _ u H Hu) as Hp. cbn in Hc, Hp.
  rewrite Hc in Hp. cbn in Hp. apply orb_true_iff in Hp as [Hp|Hp].
  - by apply is_constant_spec in Hp as [?|?].
  - apply negb_true_iff in Hp. by apply bool_decide_eq_false in Hp.
Qed.

End Preconditions.

(** ** The theorems *)

Section Theorems.
Context {pbes_expression : Type}.
Abbreviation structure_graph := (SG.structure_graph pbes_expression).
Implicit Types G : structure_graph.

(** Some strategy of the player wins. *)
Definition won G (alpha u : nat) : Prop := exists sigma, wins G alpha sigma u.

Lemma solution_wins toms G G' W sigma alpha u :
  alpha < 2 -> solution toms G G' W sigma -> u ∈ VSet.m_vertices (pick alpha W) ->
  wins G alpha sigma u.
Proof.
  intros Ha Hs Hu. eapply (region_wins _ _ _ _ _ _ _ _ (SG.extent G)).
  - by apply (sol_region _ _ _ _ _ Hs).
  - intros v. apply (VSet.ok_lt _ _ _ (sol_ok _ _ _ _ _ Hs alpha)).
  - exact Hu.
Qed.

(** The set of a player is a region for the stored strategies. *)
Lemma stored_region G G' W sigma alpha :
  alpha < 2 -> solution false G G' W sigma ->
  region (edge (arena G)) (owner (arena G)) (ar_rank (arena G)) (ar_dead (arena G))
    (in_graph G) alpha (SG.strategy G') (fun u => u ∈ VSet.m_vertices (pick alpha W)).
Proof.
  intros Ha Hs. apply (region_ext _ _ _ _ _ _ sigma); [|by apply (sol_region _ _ _ _ _ Hs)].
  intros v Hv. apply (sol_sigma _ _ _ _ _ Hs eq_refl), (sol_cover _ _ _ _ _ Hs alpha).
  left. exact Hv.
Qed.

Lemma winner_region G G' W sigma b :
  solution false G G' W sigma ->
  region (edge (arena G)) (owner (arena G)) (ar_rank (arena G)) (ar_dead (arena G))
    (in_graph G) (winner b) (SG.strategy G') (fun u => u ∈ VSet.m_vertices (pick (winner b) W)).
Proof. apply stored_region, winner_lt. Qed.

Lemma solution_stored G G' W sigma alpha u :
  alpha < 2 -> solution false G G' W sigma -> u ∈ VSet.m_vertices (pick alpha W) ->
  wins G alpha (SG.strategy G') u.
Proof.
  intros Ha Hs Hu. eapply (region_wins _ _ _ _ _ _ _ _ (SG.extent G)).
  - by apply stored_region with sigma.
  - intros v. apply (VSet.ok_lt _ _ _ (sol_ok _ _ _ _ _ Hs alpha)).
  - exact Hu.
Qed.

(** The partition as the code sees it, by [contains]. *)
Lemma solution_contains toms G G' W0 W1 sigma u :
  solution toms G G' (W0, W1) sigma ->
  (in_graph G u ->
     (VSet.contains W0 u = true /\ VSet.contains W1 u = false /\ u ∈ VSet.m_vertices W0) \/
     (VSet.contains W0 u = false /\ VSet.contains W1 u = true /\ u ∈ VSet.m_vertices W1)) /\
  (~ in_graph G u -> VSet.contains W0 u = false /\ VSet.contains W1 u = false).
Proof.
  intros Hs. pose proof (sol_ok _ _ _ _ _ Hs 0) as H0. pose proof (sol_ok _ _ _ _ _ Hs 1) as H1.
  pose proof (sol_cover _ _ _ _ _ Hs 0 u) as Hc.
  pose proof (sol_disjoint _ _ _ _ _ Hs 0 u Nat.lt_0_2) as Hd. cbn in H0, H1, Hc, Hd.
  rewrite !(VSet.contains_elem _ _ u H0), !(VSet.contains_elem _ _ u H1),
    !(VSet.contains_false _ _ u H0), !(VSet.contains_false _ _ u H1). rewrite Hc. tauto.
Qed.

Lemma won_pick toms G G' W0 W1 sigma u :
  valid G -> solution toms G G' (W0, W1) sigma -> in_graph G u ->
  (VSet.contains W0 u = true <-> won G 0 u) /\ (VSet.contains W1 u = true <-> won G 1 u).
Proof.
  intros HG Hs Hu. destruct (proj1 (solution_contains _ _ _ _ _ _ u Hs) Hu) as [(-> & -> & H)|(-> & -> & H)].
  - assert (Hw := solution_wins _ _ _ _ _ 0 u Nat.lt_0_2 Hs H).
    split; [split; [by exists sigma|done]|]. split; [done|]. intros [tau Htau].
    destruct (wins_exclusive_spec G sigma tau u HG Hw Htau).
  - assert (Hw := solution_wins _ _ _ _ _ 1 u Nat.lt_1_2 Hs H).
    split; [|split; [by exists sigma|done]]. split; [done|]. intros [tau Htau].
    destruct (wins_exclusive_spec G tau sigma u HG Htau Hw).
Qed.

(** C1: [solve_recursive] terminates within the given fuel on every well-formed
    graph without [true] and [false] vertices; the two sets it returns partition
    the vertices of the graph, every vertex is won by the player of its set with
    the strategies the solver left in the graph, and apart from these strategies
    the graph (its exclusion set included) is unchanged. *)
Theorem solve_recursive_correct G :
  valid G -> proper G ->
  exists G' W0 W1,
    solve_recursive (solve_fuel G) false G = Some (G', (W0, W1)) /\ same_game G G' /\
    forall u,
      (in_graph G u ->
         (VSet.contains W0 u = true /\ VSet.contains W1 u = false /\
            wins G 0 (SG.strategy G') u) \/
         (VSet.contains W0 u = false /\ VSet.contains W1 u = true /\
            wins G 1 (SG.strategy G') u)) /\
      (~ in_graph G u -> VSet.contains W0 u = false /\ VSet.contains W1 u = false).
Proof.
  intros HG Hp. destruct (solve_recursive_spec (solve_fuel G) false G HG Hp)
    as (G' & [W0 W1] & sigma & E & Hs).
  { unfold solve_fuel. pose proof (card_le G). lia. }
  exists G', W0, W1. split; [done|]. split; [apply Hs|]. intros u.
  destruct (solution_contains _ _ _ _ _ _ u Hs) as [H1 H2]. split; [|exact H2].
  intros Hu. destruct (H1 Hu) as [(? & ? & H)|(? & ? & H)]; [left|right];
    (split; [done|]); (split; [done|]).
  - apply (solution_stored _ _ _ _ 0 u Nat.lt_0_2 Hs H).
  - apply (solution_stored _ _ _ _ 1 u Nat.lt_1_2 Hs H).
Qed.

(** C9: with [use_toms_optimization] the partition is still the winning one:
    a vertex is in the set of a player exactly if some strategy of that player
    wins from it. *)
Theorem solve_recursive_toms_correct G :
  valid G -> proper G ->
  exists G' W0 W1,
    solve_recursive (solve_fuel G) true G = Some (G', (W0, W1)) /\ same_game G G' /\
    forall u, in_graph G u ->
      (VSet.contains W0 u = true <-> won G 0 u) /\
      (VSet.contains W1 u = true <-> won G 1 u) /\
      VSet.contains W0 u = negb (VSet.contains W1 u).
Proof.
  intros HG Hp. destruct (solve_recursive_spec (solve_fuel G) true G HG Hp)
    as (G' & [W0 W1] & sigma & E & Hs).
  { unfold solve_fuel. pose proof (card_le G). lia. }
  exists G', W0, W1. split; [done|]. split; [apply Hs|]. intros u Hu.
  destruct (won_pick _ _ _ _ _ _ u HG Hs Hu) as [H0 H1]. split; [done|]. split; [done|].
  by destruct (proj1 (solution_contains _ _ _ _ _ _ u Hs) Hu) as [(-> & -> & _)|(-> & -> & _)].
Qed.

(** C5: [solve_recursive_extended], in both modes, on graphs in which [true] and
    [false] vertices have no successors: the result is the winning partition,
    where a play that reaches [true] is won by player 0 and one that reaches
    [false] by player 1; without Tom's optimisation the stored strategies win. *)
Theorem solve_recursive_extended_correct toms G :
  valid G -> terminal G ->
  exists G' W0 W1,
    solve_recursive_extended toms G = Some (G', (W0, W1)) /\ same_game G G' /\
    (forall u, in_graph G u ->
      (VSet.contains W0 u = true <-> won G 0 u) /\
      (VSet.contains W1 u = true <-> won G 1 u) /\
      VSet.contains W0 u = negb (VSet.contains W1 u)) /\
    (toms = false -> forall u,
      (u ∈ VSet.m_vertices W0 -> wins G 0 (SG.strategy G') u) /\
      (u ∈ VSet.m_vertices W1 -> wins G 1 (SG.strategy G') u)).
Proof.
  intros HG Ht. destruct (solve_recursive_extended_spec toms G HG Ht)
    as (G' & [W0 W1] & sigma & E & Hs).
  exists G', W0, W1. split; [done|]. split; [apply Hs|]. split.
  - intros u Hu. destruct (won_pick _ _ _ _ _ _ u HG Hs Hu) as [H0 H1].
    split; [done|]. split; [done|].
    by destruct (proj1 (solution_contains _ _ _ _ _ _ u Hs) Hu) as [(-> & -> & _)|(-> & -> & _)].
  - intros -> u. split; intros Hu.
    + apply (solution_stored _ _ _ _ 0 u Nat.lt_0_2 Hs Hu).
    + apply (solution_stored _ _ _ _ 1 u Nat.lt_1_2 Hs Hu).
Qed.

(** ** The check and the public operations *)

Lemma same_game_total G G' : same_game G G' -> total G -> total G'.
Proof.
  intros Hs Ht u Hu. rewrite !(same_decoration _ _ u Hs), (same_successors _ _ u Hs).
  apply Ht. by apply (same_in_graph _ _ u Hs).
Qed.

Lemma same_game_terminal G G' : same_game G G' -> terminal G -> terminal G'.
Proof.
  intros Hs Ht u. rewrite !(same_decoration _ _ u Hs), successors_arena, (same_arena _ _ Hs),
    <- successors_arena. apply Ht.
Qed.

(** The check accepts every stored strategy that is winning. *)
Lemma check_succeeds toms G is_disjunctive W :
  valid G -> terminal G -> total G ->
  region (edge (arena G)) (owner (arena G)) (ar_rank (arena G)) (ar_dead (arena G))
    (in_graph G) (winner is_disjunctive) (SG.strategy G) W ->
  W (SG.initial_vertex G) ->
  check_solve_recursive_solution toms G is_disjunctive = Some (Returns tt).
Proof.
  intros HG HT Ht HW Hi. unfold check_solve_recursive_solution.
  destruct (check_explore G is_disjunctive W HG Ht HW Hi) as (done' & V & -> & HV).
  fold (copy_graph G V).
  pose proof (copy_valid G is_disjunctive W V HG Ht HW Hi HV) as HGc.
  destruct (solve_recursive_extended_spec toms (copy_graph G V) HGc)
    as (G1 & [Wd Wc] & sigma & -> & Hs).
  { by apply (copy_terminal G is_disjunctive W). }
  assert (Hin : in_graph (copy_graph G V) (SG.initial_vertex G)).
  { apply (copy_in_graph G is_disjunctive V _ HV). by apply HW. }
  assert (Hwon : won (copy_graph G V) (winner is_disjunctive) (SG.initial_vertex G)).
  { exists (SG.strategy G).
    apply (region_wins _ _ _ _ _ _ _ _ (SG.extent (copy_graph G V)) _
      (copy_region G is_disjunctive W V HG Ht HW Hi HV)); [|done].
    intros v Hv. by destruct (region_sub _ _ _ _ _ _ _ _
      (copy_region G is_disjunctive W V HG Ht HW Hi HV) v Hv). }
  destruct (won_pick _ _ _ _ _ _ _ HGc Hs Hin) as [H0 H1].
  destruct (proj1 (solution_contains _ _ _ _ _ _ _ Hs) Hin) as [(E0 & E1 & _)|(E0 & E1 & _)];
    rewrite E0, ?E1; destruct is_disjunctive; try done; exfalso.
  - apply H1 in Hwon. congruence.
  - apply H0 in Hwon. congruence.
Qed.

Lemma solve_partitions_spec (check_strategy toms : bool) G :
  valid G -> terminal G -> in_graph G (SG.initial_vertex G) ->
  (check_strategy = true -> toms = false /\ total G) ->
  exists G' W0 W1 sigma, solve_partitions check_strategy toms G = Some (Returns (G', (W0, W1))) /\
    solution toms G G' (W0, W1) sigma.
Proof.
  intros HG HT Hi Hc. destruct (solve_recursive_extended_spec toms G HG HT)
    as (G' & [W0 W1] & sigma & E & Hs).
  exists G', W0, W1, sigma. split; [|done]. unfold solve_partitions. rewrite E.
  pose proof (sol_same _ _ _ _ _ Hs) as Hsame.
  replace (SG.initial_vertex G') with (SG.initial_vertex G) by (symmetry; apply Hsame).
  cbn [fst snd].
  assert (Hcheck : forall is_disjunctive,
    SG.initial_vertex G ∈ VSet.m_vertices (pick (winner is_disjunctive) (W0, W1)) ->
    check_strategy = true ->
    check_solve_recursive_solution toms G' is_disjunctive = Some (Returns tt)).
  { intros b Hb Hct. destruct (Hc Hct) as [-> Ht].
    apply (check_succeeds _ _ _ (fun u => u ∈ VSet.m_vertices (pick (winner b) (W0, W1)))).
    - by apply (same_game_valid G).
    - by apply (same_game_terminal G).
    - by apply (same_game_total G).
    - rewrite (same_arena _ _ Hsame).
      apply (region_game_ext _ _ _ _ (in_graph G)); [intros; symmetry; by apply same_in_graph|].
      by apply winner_region with sigma.
    - unfold SG.initial_vertex. rewrite (same_initial _ _ Hsame). exact Hb. }
  destruct (proj1 (solution_contains _ _ _ _ _ _ _ Hs) Hi) as [(-> & -> & H)|(-> & -> & H)];
    cbn [orb]; destruct check_strategy; try done.
  - by rewrite (Hcheck true).
  - by rewrite (Hcheck false).
Qed.

(** C6: [solve_partitions] with [check_strategy] never throws: the check
    re-solves the part of the game that the computed strategy leaves and finds
    the same winner; the partition returned is the winning one. *)
Theorem solve_partitions_check_passes G :
  valid G -> terminal G -> total G -> in_graph G (SG.initial_vertex G) ->
  exists G' W0 W1,
    solve_partitions true false G = Some (Returns (G', (W0, W1))) /\
    forall u, in_graph G u ->
      (VSet.contains W0 u = true <-> won G 0 u) /\ (VSet.contains W1 u = true <-> won G 1 u).
Proof.
  intros HG HT Ht Hi. destruct (solve_partitions_spec true false G HG HT Hi)
    as (G' & W0 & W1 & sigma & E & Hs); [done|].
  exists G', W0, W1. split; [done|]. intros u Hu. by apply (won_pick _ _ _ _ _ _ u HG Hs).
Qed.

(** C2: [solve_structure_graph] returns true exactly if player 0 wins the
    initial vertex, and false exactly if player 1 does; it never throws. *)
Theorem solve_structure_graph_correct (check_strategy : bool) G :
  valid G -> terminal G -> total G -> in_graph G (SG.initial_vertex G) ->
  exists G' r, solve_structure_graph check_strategy G = Some (Returns (G', r)) /\
    same_game G G' /\
    (r = true <-> won G 0 (SG.initial_vertex G)) /\
    (r = false <-> won G 1 (SG.initial_vertex G)).
Proof.
  intros HG HT Ht Hi.
  destruct (solve_partitions_spec check_strategy (negb check_strategy) G HG HT Hi)
    as (G' & W0 & W1 & sigma & E & Hs); [by intros ->|].
  exists G', (VSet.contains W0 (SG.initial_vertex G')). unfold solve_structure_graph, solve.
  rewrite E. split; [done|]. split; [apply Hs|].
  pose proof (sol_same _ _ _ _ _ Hs) as Hsame.
  replace (SG.initial_vertex G') with (SG.initial_vertex G) by (symmetry; apply Hsame).
  destruct (won_pick _ _ _ _ _ _ _ HG Hs Hi) as [H0 H1].
  split; [done|]. rewrite <- H1.
  by destruct (proj1 (solution_contains _ _ _ _ _ _ _ Hs) Hi) as [(-> & -> & _)|(-> & -> & _)].
Qed.

(** What a loop of [mapping_step] keeps: keys are unique, and a key belongs to
    the vertex it is mapped to. *)
Lemma mapping_loop `{EqDecision pbes_expression} G l M :
  NoDup M.*1 -> (forall k i, (k, i) ∈ M -> exists v, SG.find_vertex G i = Some v /\ SG.formula v = k) ->
  let M' := foldl (mapping_step G) M l in
  NoDup M'.*1 /\
  (forall k i, (k, i) ∈ M' -> exists v, SG.find_vertex G i = Some v /\ SG.formula v = k) /\
  (forall k i, (k, i) ∈ M' -> (k, i) ∈ M \/ i ∈ l) /\
  (forall k, k ∈ M.*1 -> k ∈ M'.*1) /\
  (forall i v, i ∈ l -> SG.find_vertex G i = Some v -> SG.formula v ∈ M'.*1).
Proof.
  revert M. induction l as [|x l IH]; intros M Hnd HM; cbn [foldl].
  { repeat split; auto. intros i v Hi. by apply elem_of_nil in Hi. }
  assert (Hstep : NoDup (mapping_step G M x).*1 /\
    (forall k i, (k, i) ∈ mapping_step G M x ->
       exists v, SG.find_vertex G i = Some v /\ SG.formula v = k) /\
    (forall k i, (k, i) ∈ mapping_step G M x -> (k, i) ∈ M \/ i = x) /\
    (forall k, k ∈ M.*1 -> k ∈ (mapping_step G M x).*1) /\
    (forall v, SG.find_vertex G x = Some v -> SG.formula v ∈ (mapping_step G M x).*1)).
  { unfold mapping_step, mapping_insert. destruct (SG.find_vertex G x) as [w|] eqn:Ex.
    2: { repeat split; auto. done. }
    case_bool_decide as Hk.
    { repeat split; auto. by intros v [= <-]. }
    rewrite fmap_app. cbn [fmap list_fmap fst]. repeat split.
    - apply NoDup_app. split; [done|]. split; [|apply NoDup_singleton].
      intros k Hk' ->%list_elem_of_singleton. done.
    - intros k i Hin. apply elem_of_app in Hin as [Hin|Hin]; [auto|].
      apply list_elem_of_singleton in Hin. injection Hin as -> ->. eauto.
    - intros k i Hin. apply elem_of_app in Hin as [Hin|Hin]; [auto|].
      apply list_elem_of_singleton in Hin. injection Hin as -> ->. auto.
    - intros k Hk'. apply elem_of_app. by left.
    - intros v [= <-]. apply elem_of_app. right. left. }
  destruct Hstep as (S1 & S2 & S3 & S4 & S5).
  destruct (IH _ S1 S2) as (I1 & I2 & I3 & I4 & I5).
  split; [done|]. split; [done|]. split; [|split].
  - intros k i Hk. destruct (I3 k i Hk) as [H|H]; [|right; by right].
    destruct (S3 k i H) as [H0|H0]; [by left|right; rewrite H0; left].
  - auto.
  - intros i v [->|Hi]%elem_of_cons Hv; [auto|eauto].
Qed.

(** [solve_structure_graph_winning_mapping] returns the winner of the
    initial vertex and a map whose keys are exactly the formulas of the vertices
    of the graph, won by either player, each mapped to a vertex of the graph
    with that formula. *)
Lemma winning_mapping_correct `{EqDecision pbes_expression} (check_strategy : bool) G :
  valid G -> terminal G -> total G -> in_graph G (SG.initial_vertex G) ->
  exists G' r mapping,
    solve_structure_graph_winning_mapping check_strategy G = Some (Returns (G', (r, mapping))) /\
    same_game G G' /\ (r = true <-> won G 0 (SG.initial_vertex G)) /\
    NoDup mapping.*1 /\
    (forall k i, (k, i) ∈ mapping -> in_graph G i /\
       exists v, SG.find_vertex G' i = Some v /\ SG.formula v = k) /\
    (forall i v, in_graph G i -> SG.find_vertex G' i = Some v -> SG.formula v ∈ mapping.*1).
Proof.
  intros HG HT Ht Hi.
  destruct (solve_partitions_spec check_strategy (negb check_strategy) G HG HT Hi)
    as (G' & W0 & W1 & sigma & E & Hs); [by intros ->|].
  destruct (mapping_loop G' (VSet.m_vertices W0) []) as (A1 & A2 & A3 & A4 & A5);
    [constructor|set_solver|].
  destruct (mapping_loop G' (VSet.m_vertices W1) _ A1 A2) as (B1 & B2 & B3 & B4 & B5).
  unfold solve_structure_graph_winning_mapping. rewrite E. cbn [outcome_bind fst snd].
  do 3 eexists. split; [reflexivity|]. split; [apply Hs|].
  pose proof (sol_same _ _ _ _ _ Hs) as Hsame.
  replace (SG.initial_vertex G') with (SG.initial_vertex G) by (symmetry; apply Hsame).
  split; [by apply (won_pick _ _ _ _ _ _ _ HG Hs Hi)|]. split; [exact B1|].
  pose proof (sol_cover _ _ _ _ _ Hs 0) as Hc. cbn in Hc. split.
  - intros k i Hk. split; [|by apply B2]. apply Hc.
    destruct (B3 k i Hk) as [H|]; [|by right]. destruct (A3 k i H) as [H'|]; [set_solver|by left].
  - intros i v Hx Hv. apply Hc in Hx as [H|H]; [apply B4; by apply (A5 i)|by apply (B5 i)].
Qed.

End Theorems.

(** ** A concrete graph

    Vertex 0 is the disjunction of 1 and 2, vertex 1 the conjunction of 0 and 3
    ([true]), vertex 2 repeats itself with an odd rank and 4 is [false]. *)

Definition example_vertices : list (SG.vertex nat) :=
  [SG.mk_vertex 100 d_disjunction 2 [1] [1; 2] None;
   SG.mk_vertex 101 d_conjunction 3 [0] [0; 3] None;
   SG.mk_vertex 102 d_none 1 [0; 2] [2] None;
   SG.mk_vertex 103 d_true 0 [1] [] None;
   SG.mk_vertex 104 d_false 0 [] [] None].

Definition example_graph : SG.structure_graph nat :=
  SG.mk_graph example_vertices 0 (bitset_empty 5).

(** The part of it without [true] and [false]. *)
Definition example_proper : SG.structure_graph nat :=
  SG.mk_graph example_vertices 0 [false; false; false; true; true].

Lemma solve_recursive_correct_witness :
  exists G' W0 W1, solve_recursive (solve_fuel example_proper) false example_proper =
    Some (G', (W0, W1)) /\ same_game example_proper G' /\
    forall u,
      (in_graph example_proper u ->
         (VSet.contains W0 u = true /\ VSet.contains W1 u = false /\
            wins example_proper 0 (SG.strategy G') u) \/
         (VSet.contains W0 u = false /\ VSet.contains W1 u = true /\
            wins example_proper 1 (SG.strategy G') u)) /\
      (~ in_graph example_proper u -> VSet.contains W0 u = false /\ VSet.contains W1 u = false).
Proof.
  apply solve_recursive_correct; [apply valid_b_sound|apply proper_b_sound]; vm_compute; done.
Defined.

Lemma solve_recursive_toms_correct_witness :
  exists G' W0 W1,
    solve_recursive (solve_fuel example_proper) true example_proper = Some (G', (W0, W1)) /\
    same_game example_proper G' /\
    forall u, in_graph example_proper u ->
      (VSet.contains W0 u = true <-> won example_proper 0 u) /\
      (VSet.contains W1 u = true <-> won example_proper 1 u) /\
      VSet.contains W0 u = negb (VSet.contains W1 u).
Proof.
  apply solve_recursive_toms_correct; [apply valid_b_sound|apply proper_b_sound]; vm_compute; done.
Defined.

Lemma solve_recursive_extended_correct_witness :
  exists G' W0 W1,
    solve_recursive_extended false example_graph = Some (G', (W0, W1)) /\
    same_game example_graph G' /\
    (forall u, in_graph example_graph u ->
      (VSet.contains W0 u = true <-> won example_graph 0 u) /\
      (VSet.contains W1 u = true <-> won example_graph 1 u) /\
      VSet.contains W0 u = negb (VSet.contains W1 u)) /\
    (false = false -> forall u,
      (u ∈ VSet.m_vertices W0 -> wins example_graph 0 (SG.strategy G') u) /\
      (u ∈ VSet.m_vertices W1 -> wins example_graph 1 (SG.strategy G') u)).
Proof.
  apply solve_recursive_extended_correct; [apply valid_b_sound|apply terminal_b_sound];
    vm_compute; done.
Defined.

Lemma example_preconditions :
  valid example_graph /\ terminal example_graph /\ total example_graph /\
  in_graph example_graph (SG.initial_vertex example_graph).
Proof.
  split; [apply valid_b_sound; vm_compute; done|].
  split; [apply terminal_b_sound; vm_compute; done|].
  split; [apply total_b_sound; vm_compute; done|]. split; cbn; [lia|done].
Qed.

Lemma solve_partitions_check_passes_witness :
  exists G' W0 W1,
    solve_partitions true false example_graph = Some (Returns (G', (W0, W1))) /\
    forall u, in_graph example_graph u ->
      (VSet.contains W0 u = true <-> won example_graph 0 u) /\
      (VSet.contains W1 u = true <-> won example_graph 1 u).
Proof. apply solve_partitions_check_passes; apply example_preconditions. Defined.

Lemma solve_structure_graph_correct_witness :
  exists G' r, solve_structure_graph true example_graph = Some (Returns (G', r)) /\
    same_game example_graph G' /\
    (r = true <-> won example_graph 0 (SG.initial_vertex example_graph)) /\
    (r = false <-> won example_graph 1 (SG.initial_vertex example_graph)).
Proof. apply solve_structure_graph_correct; apply example_preconditions. Defined.

(** The solver on the example: player 0 wins 0, 1 and 3 by moving from 0 to 1. *)
Example example_solved :
  match solve_recursive_extended false example_graph with
  | Some (G', (W0, W1)) =>
      (VSet.m_vertices (VSet.sort W0), VSet.m_vertices (VSet.sort W1), SG.strategy G' 0)
  | None => ([], [], None)
  end = ([0; 1; 3], [2; 4], Some 1).
Proof. vm_compute. done. Qed.

(** The attractor of the [true] vertex, for player 0 and without recording. *)
Lemma attr_default_generic_correct_witness :
  exists A' tau', attr_default_generic example_graph (VSet.of_range 5 [3]) 0 (tt : no_strategy)
      = Some (A', tau') /\ VSet.ok (sg_extent example_graph) A' /\
    forall u, VSet.contains A' u = true <->
      attractor example_graph 0 (fun v => VSet.contains (VSet.of_range 5 [3]) v = true) u.
Proof.
  apply (attr_default_generic_correct 5 example_graph 0 (VSet.of_range 5 [3]) (tt : no_strategy)).
  - apply SG.structure_graph_ok_graph_ok, valid_ok, example_preconditions.
  - cbn. lia.
  - apply VSet.of_range_ok. intros u ->%list_elem_of_singleton. lia.
  - intros u Hu. apply VSet.of_range_ok in Hu; [|intros v ->%list_elem_of_singleton; lia].
    apply list_elem_of_singleton in Hu as ->. split; cbn; [lia|done].
Defined.
