(* ===== verification/Evidence.v ===== *)
(** * Evidence extraction
    ([extract_minimal_structure_graph] of [pbessolve_vertex_set.h])

    The part of a solved graph that a counter example is made of: from a vertex,
    follow the strategy where the owner wins and every edge elsewhere.  The three
    overloads are explorations ([Worklist.v]).  The main theorem says that for a
    solved graph the extracted set stays inside the winner's region and is
    closed under the moves of the loser. *)

From Stdlib Require Import Lia NArith Classical.
From stdpp Require Import base strings numbers sets list relations.
From S2P Require Import Prelude VertexSets StructureGraph Attractors ParityGame Worklist Solver.
From S2P Require Import Arena SolverCorrect SolverExtended SolverCheck SolverTheorems.

(** ** The code *)

Section Code.
Context {G : Type} `{StructureGraph G}.

(** What is explored from [u] in the first overload; the assertion
    [v != undefined_vertex()] is the case [None]. *)
Definition extract_targets (g : G) (S0 S1 : VSet.vertex_set) (u : nat) : option (list nat) :=
  if (VSet.contains S0 u && bool_decide (sg_decoration g u = d_disjunction)) ||
     (VSet.contains S1 u && bool_decide (sg_decoration g u = d_conjunction))
  then (fun v => [v]) <$> sg_strategy g u
  else Some (sg_successors g u).

Definition extract_minimal_structure_graph (g : G) (init : nat) (S0 S1 : VSet.vertex_set)
  : option (list nat) :=
  fst <$> explore (fun _ s => s) (extract_targets g S0 S1) (S (sg_extent g)) [init] [] tt.

(** The second overload reads the strategies from two vectors, which grow when
    they are read. *)
Definition extract_targets_tau (g : G) (S0 S1 : VSet.vertex_set)
    (tau : StrategyVector.strategy_vector * StrategyVector.strategy_vector) (u : nat)
  : option (list nat) :=
  if VSet.contains S0 u && bool_decide (sg_decoration g u = d_disjunction)
  then (fun v => [v]) <$> fst (StrategyVector.get (fst tau) u)
  else if VSet.contains S1 u && bool_decide (sg_decoration g u = d_conjunction)
  then (fun v => [v]) <$> fst (StrategyVector.get (snd tau) u)
  else Some (sg_successors g u).

Definition extract_visit_tau (g : G) (S0 S1 : VSet.vertex_set) (u : nat)
    (tau : StrategyVector.strategy_vector * StrategyVector.strategy_vector)
  : StrategyVector.strategy_vector * StrategyVector.strategy_vector :=
  if VSet.contains S0 u && bool_decide (sg_decoration g u = d_disjunction)
  then (snd (StrategyVector.get (fst tau) u), snd tau)
  else if VSet.contains S1 u && bool_decide (sg_decoration g u = d_conjunction)
  then (fst tau, snd (StrategyVector.get (snd tau) u))
  else tau.

Definition extract_minimal_structure_graph_tau (g : G) (init : nat) (S0 S1 : VSet.vertex_set)
    (tau : StrategyVector.strategy_vector * StrategyVector.strategy_vector)
  : option (list nat * (StrategyVector.strategy_vector * StrategyVector.strategy_vector)) :=
  explore (extract_visit_tau g S0 S1) (extract_targets_tau g S0 S1 tau) (S (sg_extent g))
    [init] [] tau.

(** The third overload: only the winner is known. *)
Definition extract_minimal_structure_graph_winner (g : G) (init : nat) (is_disjunctive : bool)
  : option (list nat) :=
  let n := sg_extent g in
  let all := foldl VSet.insert (VSet.make n) (seq 0 n) in
  let empty := VSet.make n in
  if is_disjunctive
  then extract_minimal_structure_graph g init all empty
  else extract_minimal_structure_graph g init empty all.

End Code.

(** ** Correctness *)

Section Correct.
Context {pbes_expression : Type}.
Abbreviation structure_graph := (SG.structure_graph pbes_expression).
Implicit Types G : structure_graph.

(** On a winning set both rules for the strategy agree. *)
Lemma extract_targets_check G W0 W1 sigma toms G0 is_disjunctive u :
  solution toms G0 G (W0, W1) sigma ->
  u ∈ VSet.m_vertices (pick (winner is_disjunctive) (W0, W1)) ->
  extract_targets G W0 W1 u = check_targets G is_disjunctive u.
Proof.
  intros Hs Hu. unfold extract_targets, check_targets. cbn [sg_decoration sg_strategy
    sg_successors SG.structure_graph_StructureGraph].
  assert (Hin : in_graph G0 u) by (apply (sol_cover _ _ _ _ _ Hs (winner is_disjunctive)); by left).
  pose proof (sol_disjoint _ _ _ _ _ Hs 0 u Nat.lt_0_2) as Hd. cbn in Hd.
  destruct (proj1 (solution_contains _ _ _ _ _ _ _ Hs) Hin) as [(-> & -> & H)|(-> & -> & H)];
    destruct is_disjunctive; cbn in Hu |- *; try done; exfalso; eauto.
Qed.

(** Any exploration that agrees with the stored strategy on the winner's set
    yields the vertices reachable when the winner follows that strategy. *)
Lemma explore_winning {A} G G' W0 W1 sigma is_disjunctive (visit : nat -> A -> A) targets s :
  let W := pick (winner is_disjunctive) (W0, W1) in
  valid G -> total G -> solution false G G' (W0, W1) sigma ->
  (forall u, u ∈ VSet.m_vertices W -> targets u = check_targets G' is_disjunctive u) ->
  SG.initial_vertex G ∈ VSet.m_vertices W ->
  exists V s', explore visit targets (S (SG.extent G')) [SG.initial_vertex G] [] s = Some (V, s') /\
    (forall u, u ∈ V -> u ∈ VSet.m_vertices W) /\
    forall u, u ∈ V <->
      rtc (move (edge (arena G)) (owner (arena G)) (in_graph G) (winner is_disjunctive)
             (SG.strategy G')) (SG.initial_vertex G) u.
Proof.
  intros W HG Ht Hs HT Hi. pose proof (sol_same _ _ _ _ _ Hs) as Hsame.
  pose proof (same_game_valid _ _ Hsame HG) as HG'.
  pose proof (same_game_total _ _ Hsame Ht) as Ht'.
  pose proof (winner_region G G' (W0, W1) sigma is_disjunctive Hs) as HW. fold W in HW.
  assert (HX : forall u, in_graph G u <-> in_graph G' u)
    by (intros; symmetry; by apply same_in_graph).
  assert (HW' : region (edge (arena G')) (owner (arena G')) (ar_rank (arena G'))
    (ar_dead (arena G')) (in_graph G') (winner is_disjunctive) (SG.strategy G')
    (fun u => u ∈ VSet.m_vertices W)).
  { rewrite (same_arena _ _ Hsame). by apply (region_game_ext _ _ _ _ (in_graph G)). }
  assert (Hstep : forall u v, u ∈ VSet.m_vertices W ->
    step targets u v <->
    move (edge (arena G)) (owner (arena G)) (in_graph G) (winner is_disjunctive)
      (SG.strategy G') u v).
  { intros u v Hu. unfold step. rewrite (HT u Hu).
    destruct (check_step_move G' is_disjunctive _ u HG' Ht' HW' Hu) as [_ H].
    unfold step in H. rewrite H, (same_arena _ _ Hsame).
    split; apply move_game_ext; intros; by rewrite HX. }
  assert (Hclosed : forall x y, x ∈ VSet.m_vertices W ->
    move (edge (arena G)) (owner (arena G)) (in_graph G) (winner is_disjunctive)
      (SG.strategy G') x y -> y ∈ VSet.m_vertices W).
  { intros x y Hx Hm. apply (region_closed _ _ _ _ _ _ _ _ _ _ HW Hx Hm). }
  assert (Hreach : forall u, rtc (step targets) (SG.initial_vertex G) u <->
    rtc (move (edge (arena G)) (owner (arena G)) (in_graph G) (winner is_disjunctive)
      (SG.strategy G')) (SG.initial_vertex G) u).
  { intros u. apply (rtc_closed_iff _ _ (fun u => u ∈ VSet.m_vertices W));
      [exact Hstep|exact Hclosed|exact Hi]. }
  assert (HinW : forall u, rtc (step targets) (SG.initial_vertex G) u -> u ∈ VSet.m_vertices W).
  { intros u Hu. apply Hreach in Hu.
    apply (rtc_invariant _ (fun u => u ∈ VSet.m_vertices W) _ _ Hclosed Hi Hu). }
  destruct (explore_spec visit targets (SG.extent G') (SG.initial_vertex G) s)
    as (V & order & E & _ & _ & HV).
  { intros u Hu%HinW. split.
    - rewrite (same_extent _ _ (same_arena _ _ Hsame)).
      by destruct (region_sub _ _ _ _ _ _ _ _ HW u Hu).
    - rewrite (HT u Hu). by apply (check_step_move G' is_disjunctive _ u HG' Ht' HW' Hu). }
  eexists V, _. split; [exact E|]. split; [intros u Hu; by apply HinW, HV|].
  intros u. by rewrite HV, Hreach.
Qed.

Lemma extract_spec G G' W0 W1 sigma is_disjunctive :
  let W := pick (winner is_disjunctive) (W0, W1) in
  valid G -> total G -> solution false G G' (W0, W1) sigma ->
  SG.initial_vertex G ∈ VSet.m_vertices W ->
  exists V, extract_minimal_structure_graph G' (SG.initial_vertex G) W0 W1 = Some V /\
    (forall u, u ∈ V -> u ∈ VSet.m_vertices W) /\
    forall u, u ∈ V <->
      rtc (move (edge (arena G)) (owner (arena G)) (in_graph G) (winner is_disjunctive)
             (SG.strategy G')) (SG.initial_vertex G) u.
Proof.
  intros W HG Ht Hs Hi. destruct (explore_winning G G' W0 W1 sigma is_disjunctive
    (fun (_ : nat) (s : unit) => s) (extract_targets G' W0 W1) tt HG Ht Hs)
    as (V & s' & E & HVW & HV); [|exact Hi|].
  - intros u. by apply (extract_targets_check G' W0 W1 sigma false G).
  - exists V. unfold extract_minimal_structure_graph.
    change (sg_extent G') with (SG.extent G'). by rewrite E.
Qed.

(** C7: evidence for a solved graph. [solve_recursive_extended] followed by
    [extract_minimal_structure_graph] returns exactly the vertices that can be
    reached from the initial vertex when its winner follows the stored strategy
    and the opponent moves freely; all of them are won by that winner with that
    strategy. *)
Theorem extract_minimal_structure_graph_correct G :
  valid G -> terminal G -> total G -> in_graph G (SG.initial_vertex G) ->
  exists G' W0 W1 V alpha,
    solve_recursive_extended false G = Some (G', (W0, W1)) /\
    extract_minimal_structure_graph G' (SG.initial_vertex G) W0 W1 = Some V /\
    (alpha = 0 \/ alpha = 1) /\ SG.initial_vertex G ∈ V /\
    (forall u, u ∈ V <-> rtc (move (edge (arena G)) (owner (arena G)) (in_graph G) alpha
       (SG.strategy G')) (SG.initial_vertex G) u) /\
    (forall u, u ∈ V -> wins G alpha (SG.strategy G') u).
Proof.
  intros HG HT Ht Hi. destruct (solve_recursive_extended_spec false G HG HT)
    as (G' & [W0 W1] & sigma & E & Hs).
  assert (Hw : exists b, SG.initial_vertex G ∈ VSet.m_vertices (pick (winner b) (W0, W1))).
  { destruct (proj1 (solution_contains _ _ _ _ _ _ _ Hs) Hi) as [(_ & _ & H)|(_ & _ & H)];
      [by exists true|by exists false]. }
  destruct Hw as [b Hb].
  destruct (extract_spec G G' W0 W1 sigma b HG Ht Hs Hb) as (V & EV & HVW & HV).
  exists G', W0, W1, V, (winner b). split; [done|]. split; [done|].
  split; [destruct b; auto|]. split; [by apply HV|]. split; [done|].
  intros u Hu. apply (solution_stored G G' (W0, W1) sigma); [apply winner_lt|done|auto].
Qed.

(** With the full set for the winner and the empty one for the loser the first
    overload explores what the check explores. *)
Lemma extract_targets_winner G (is_disjunctive : bool) u :
  let n := SG.extent G in
  let all := foldl VSet.insert (VSet.make n) (seq 0 n) in
  extract_targets G (if is_disjunctive then all else VSet.make n)
    (if is_disjunctive then VSet.make n else all) u = check_targets G is_disjunctive u.
Proof.
  intros n all. unfold extract_targets, check_targets.
  cbn [sg_decoration sg_strategy sg_successors SG.structure_graph_StructureGraph].
  assert (Hempty : VSet.contains (VSet.make n) u = false)
    by (apply (VSet.contains_false n _ u (VSet.make_ok n)), not_elem_of_nil).
  destruct (VSet.of_range_ok n (seq 0 n)) as [Hok He]; [intros v Hv%elem_of_seq; lia|].
  change (VSet.of_range n (seq 0 n)) with all in *.
  destruct (decide (u < n)) as [Hu|Hu].
  - assert (Hall : VSet.contains all u = true).
    { apply (VSet.contains_elem n all u Hok), He, elem_of_seq. lia. }
    destruct is_disjunctive; rewrite Hall, Hempty; cbn; [by rewrite orb_false_r|done].
  - destruct (outside_vertex G u Hu) as (_ & _ & -> & _). by rewrite !andb_false_r.
Qed.

Lemma extract_winner_spec G G' W0 W1 sigma is_disjunctive :
  let W := pick (winner is_disjunctive) (W0, W1) in
  valid G -> total G -> solution false G G' (W0, W1) sigma ->
  SG.initial_vertex G ∈ VSet.m_vertices W ->
  exists V, extract_minimal_structure_graph_winner G' (SG.initial_vertex G) is_disjunctive = Some V /\
    (forall u, u ∈ V -> u ∈ VSet.m_vertices W) /\
    forall u, u ∈ V <->
      rtc (move (edge (arena G)) (owner (arena G)) (in_graph G) (winner is_disjunctive)
             (SG.strategy G')) (SG.initial_vertex G) u.
Proof.
  intros W HG Ht Hs Hi.
  destruct (explore_winning G G' W0 W1 sigma is_disjunctive (fun (_ : nat) (s : unit) => s) _ tt
    HG Ht Hs (fun u _ => extract_targets_winner G' is_disjunctive u) Hi) as (V & s' & E & H).
  exists V. split; [|exact H]. unfold extract_minimal_structure_graph_winner,
    extract_minimal_structure_graph. change (sg_extent G') with (SG.extent G').
  destruct is_disjunctive; by rewrite E.
Qed.

(** C10: the third overload, called with the winner of the initial vertex,
    returns the same set: with no knowledge of the winning sets it still stays
    inside the winner's region. *)
Theorem extract_winner_correct G :
  valid G -> terminal G -> total G -> in_graph G (SG.initial_vertex G) ->
  exists G' W0 W1 V,
    solve_recursive_extended false G = Some (G', (W0, W1)) /\
    extract_minimal_structure_graph_winner G' (SG.initial_vertex G)
      (VSet.contains W0 (SG.initial_vertex G)) = Some V /\
    let alpha := winner (VSet.contains W0 (SG.initial_vertex G)) in
    (forall u, u ∈ V <-> rtc (move (edge (arena G)) (owner (arena G)) (in_graph G) alpha
       (SG.strategy G')) (SG.initial_vertex G) u) /\
    (forall u, u ∈ V -> wins G alpha (SG.strategy G') u).
Proof.
  intros HG HT Ht Hi. destruct (solve_recursive_extended_spec false G HG HT)
    as (G' & [W0 W1] & sigma & E & Hs).
  set (b := VSet.contains W0 (SG.initial_vertex G)).
  assert (Hb : SG.initial_vertex G ∈ VSet.m_vertices (pick (winner b) (W0, W1))).
  { unfold b. destruct (proj1 (solution_contains _ _ _ _ _ _ _ Hs) Hi)
      as [(-> & _ & H)|(-> & _ & H)]; exact H. }
  destruct (extract_winner_spec G G' W0 W1 sigma b HG Ht Hs Hb) as (V & EV & HVW & HV).
  exists G', W0, W1, V. split; [done|]. split; [done|]. split; [done|].
  intros u Hu. apply (solution_stored G G' (W0, W1) sigma); [apply winner_lt|done|].
  by apply HVW.
Qed.

(** The second overload explores the same set when the two vectors hold the
    stored strategies on the winner's set. *)
Lemma extract_tau_spec G G' W0 W1 sigma is_disjunctive tau :
  let W := pick (winner is_disjunctive) (W0, W1) in
  valid G -> total G -> solution false G G' (W0, W1) sigma ->
  SG.initial_vertex G ∈ VSet.m_vertices W ->
  (forall u, u ∈ VSet.m_vertices W ->
     fst (StrategyVector.get (pick (winner is_disjunctive) tau) u) = SG.strategy G' u) ->
  exists V tau',
    extract_minimal_structure_graph_tau G' (SG.initial_vertex G) W0 W1 tau = Some (V, tau') /\
    (forall u, u ∈ V -> u ∈ VSet.m_vertices W) /\
    forall u, u ∈ V <->
      rtc (move (edge (arena G)) (owner (arena G)) (in_graph G) (winner is_disjunctive)
             (SG.strategy G')) (SG.initial_vertex G) u.
Proof.
  intros W HG Ht Hs Hi Htau. apply (explore_winning G G' W0 W1 sigma); auto.
  intros u Hu. rewrite <- (extract_targets_check G' W0 W1 sigma false G is_disjunctive u Hs Hu).
  unfold extract_targets_tau, extract_targets.
  cbn [sg_decoration sg_strategy sg_successors SG.structure_graph_StructureGraph].
  assert (Hin : in_graph G u)
    by (apply (sol_cover _ _ _ _ _ Hs (winner is_disjunctive)); by left).
  specialize (Htau u Hu).
  pose proof (sol_disjoint _ _ _ _ _ Hs 0 u Nat.lt_0_2) as Hd. cbn in Hd.
  destruct (proj1 (solution_contains _ _ _ _ _ _ _ Hs) Hin) as [(-> & -> & H)|(-> & -> & H)];
    cbn [andb orb]; rewrite ?orb_false_r; case_bool_decide; try done.
  - destruct is_disjunctive; [by rewrite <- Htau|exfalso; eauto].
  - destruct is_disjunctive; [exfalso; eauto|by rewrite <- Htau].
Qed.

End Correct.

Lemma extract_minimal_structure_graph_correct_witness :
  exists G' W0 W1 V alpha,
    solve_recursive_extended false example_graph = Some (G', (W0, W1)) /\
    extract_minimal_structure_graph G' (SG.initial_vertex example_graph) W0 W1 = Some V /\
    (alpha = 0 \/ alpha = 1) /\ SG.initial_vertex example_graph ∈ V /\
    (forall u, u ∈ V <-> rtc (move (edge (arena example_graph)) (owner (arena example_graph))
       (in_graph example_graph) alpha (SG.strategy G')) (SG.initial_vertex example_graph) u) /\
    (forall u, u ∈ V -> wins example_graph alpha (SG.strategy G') u).
Proof. apply extract_minimal_structure_graph_correct; apply example_preconditions. Defined.

Lemma extract_winner_correct_witness :
  exists G' W0 W1 V,
    solve_recursive_extended false example_graph = Some (G', (W0, W1)) /\
    extract_minimal_structure_graph_winner G' (SG.initial_vertex example_graph)
      (VSet.contains W0 (SG.initial_vertex example_graph)) = Some V /\
    let alpha := winner (VSet.contains W0 (SG.initial_vertex example_graph)) in
    (forall u, u ∈ V <-> rtc (move (edge (arena example_graph)) (owner (arena example_graph))
       (in_graph example_graph) alpha (SG.strategy G')) (SG.initial_vertex example_graph) u) /\
    (forall u, u ∈ V -> wins example_graph alpha (SG.strategy G') u).
Proof. apply extract_winner_correct; apply example_preconditions. Defined.
