(* ===== verification/FatalAttractors.v ===== *)
(** * Fatal attractors
    ([libraries/pbes/include/mcrl2/pbes/pbesinst_fatal_attractors.h])

    While a PBES is being instantiated, [pbesinst_structure_graph_algorithm2]
    looks for vertices of the graph built so far whose winner is already
    certain.  [S[0]] and [S[1]] hold the solved vertices, [tau[0]] and [tau[1]]
    the strategies for them.  For every rank [j], lowest first, the algorithms
    of this file look for a set from which player [j % 2] can return to the
    vertices of rank [j] forever, through ranks that are at least [j]
    ([fatal_attractors], [fatal_attractors_original]) or equal to [j]
    ([find_loops2]).

    [calculation_steps] is a counter the caller schedules with; the insertion
    counts that are only logged are left out.  A result [None] means that the
    fuel of a loop is used up; [FatalAttractorsCorrect.v] shows that this does
    not happen. *)

From Stdlib Require Import Lia NArith.
From stdpp Require Import base strings numbers sets list.
From S2P Require Import Prelude VertexSets StructureGraph Attractors ParityGame Solver.

Abbreviation vertex_set := VSet.vertex_set.
Abbreviation strategies := (StrategyVector.strategy_vector * StrategyVector.strategy_vector)%type.

(** The comparisons [std::greater_equal<>()] and [std::equal_to<>()]. *)
Definition greater_equal (x y : N) : bool := (y <=? x)%N.
Definition equal_to (x y : N) : bool := (x =? y)%N.

Section Code.
Context {G : Type} `{StructureGraph G}.

(** [attr_min_rank_todo_generic]: the predecessors of [A] in [U] with a
    suitable rank that are not in [A]. *)
Definition attr_min_rank_todo_generic (g : G) (A U : vertex_set) (j : N)
    (compare : N -> N -> bool) : Deque.deque_vertex_set :=
  foldl (fun todo v =>
      foldl (fun todo u =>
          if VSet.contains U u && compare (sg_rank g u) j && negb (VSet.contains A u)
          then Deque.insert todo u else todo)
        todo (sg_predecessors g v))
    (Deque.make (sg_extent g)) (VSet.m_vertices A).

(** [attr_min_rank_original_todo]: vertices of [A] are not left out. *)
Definition attr_min_rank_original_todo (g : G) (A U : vertex_set) (j : N)
  : Deque.deque_vertex_set :=
  foldl (fun todo v =>
      foldl (fun todo u =>
          if VSet.contains U u && greater_equal (sg_rank g u) j
          then Deque.insert todo u else todo)
        todo (sg_predecessors g v))
    (Deque.make (sg_extent g)) (VSet.m_vertices A).

(** [std::map<std::size_t, vertex_set>]: the entries by increasing key. *)
Fixpoint insert_in_rank_map (U_rank_map : list (N * vertex_set)) (u : nat) (j : N) (n : nat)
  : list (N * vertex_set) :=
  match U_rank_map with
  | [] => [(j, VSet.insert (VSet.make n) u)]
  | (k, U) :: rest =>
      if (j <? k)%N then (j, VSet.insert (VSet.make n) u) :: U_rank_map
      else if (j =? k)%N then (k, VSet.insert U u) :: rest
      else (k, U) :: insert_in_rank_map rest u j n
  end.

Definition compute_U_j_step (g : G) (U_j_map : list (N * vertex_set)) (u : nat)
  : list (N * vertex_set) :=
  let j := sg_rank g u in
  if (j =? undefined_index)%N then U_j_map
  else
    let alpha := parity j in
    if ((alpha =? 0) && bool_decide (sg_decoration g u = d_false)) ||
       ((alpha =? 1) && bool_decide (sg_decoration g u = d_true))
    then U_j_map
    else insert_in_rank_map U_j_map u j (sg_extent g).

Definition compute_U_j_map (g : G) (V : vertex_set) : list (N * vertex_set) :=
  foldl (compute_U_j_step g) [] (VSet.m_vertices V).

(** The condition under which the loop of [attr_min_rank_generic] considers a
    predecessor of a vertex that it has added. *)
Definition rank_or_undefined (compare : N -> N -> bool) (g : G) (j : N) (v : nat) : bool :=
  compare (sg_rank g v) j ||
  ((sg_rank g v =? undefined_index)%N && (decoration_value (sg_decoration g v) <=? 1)).

(** The loop of [attr_min_rank_generic]; the strategies go into the graph. *)
Fixpoint attr_min_rank_loop (fuel : nat) (g : G) (A : vertex_set) (alpha : nat)
    (U : vertex_set) (j : N) (compare : N -> N -> bool) (todo : Deque.deque_vertex_set)
  : option (vertex_set * G) :=
  match fuel with
  | O => None
  | Datatypes.S fuel =>
      match Deque.pop_front todo with
      | None => Some (A, g)
      | Some (u, todo) =>
          if (decoration_value (sg_decoration g u) =? alpha) || includes_successors g u A
          then
            let g := sg_set_strategy u (find_successor_in g u A) g in
            let A := VSet.insert A u in
            let todo :=
              foldl (fun todo v =>
                  if VSet.contains U v && rank_or_undefined compare g j v &&
                     negb (VSet.contains A v)
                  then Deque.insert todo v else todo)
                todo (sg_predecessors g u) in
            attr_min_rank_loop fuel g A alpha U j compare todo
          else attr_min_rank_loop fuel g A alpha U j compare todo
      end
  end.

Definition attr_min_rank_generic (g : G) (A : vertex_set) (alpha : nat) (U : vertex_set)
    (j : N) (compare : N -> N -> bool) : option (vertex_set * G) :=
  attr_min_rank_loop (attr_fuel g) g A alpha U j compare
    (attr_min_rank_todo_generic g A U j compare).

(** [attr_min_rank_original] *)
Fixpoint attr_min_rank_original_loop (fuel : nat) (g : G) (A X : vertex_set) (alpha : nat)
    (U : vertex_set) (j : N) (todo : Deque.deque_vertex_set) : option (vertex_set * G) :=
  match fuel with
  | O => None
  | Datatypes.S fuel =>
      match Deque.pop_front todo with
      | None => Some (X, g)
      | Some (u, todo) =>
          if (decoration_value (sg_decoration g u) =? alpha) ||
             includes_successors g u (mk_lazy_union A X)
          then
            let g := sg_set_strategy u (find_successor_in g u (mk_lazy_union A X)) g in
            let X := VSet.insert X u in
            let todo :=
              foldl (fun todo v =>
                  if VSet.contains U v && rank_or_undefined greater_equal g j v &&
                     negb (VSet.contains X v)
                  then Deque.insert todo v else todo)
                todo (sg_predecessors g u) in
            attr_min_rank_original_loop fuel g A X alpha U j todo
          else attr_min_rank_original_loop fuel g A X alpha U j todo
      end
  end.

(** The vertices of [A] in [todo] that can be attracted in one step. *)
Definition attr_min_rank_original_start (g : G) (A : vertex_set) (alpha : nat)
    (todo : Deque.deque_vertex_set) : vertex_set :=
  foldl (fun X u =>
      if VSet.contains A u &&
         ((decoration_value (sg_decoration g u) =? alpha) || includes_successors g u A)
      then VSet.insert X u else X)
    (VSet.make (VSet.extent A)) (Deque.m_vertices todo).

Definition attr_min_rank_original (g : G) (A : vertex_set) (alpha : nat) (U : vertex_set)
    (j : N) : option (vertex_set * G) :=
  let todo := attr_min_rank_original_todo g A U j in
  attr_min_rank_original_loop (2 * attr_fuel g) g A
    (attr_min_rank_original_start g A alpha todo) alpha U j todo.

(** The vertex set [V] of all vertices. *)
Definition all_vertices (g : G) : vertex_set :=
  foldl VSet.insert (VSet.make (sg_extent g)) (seq 0 (sg_extent g)).

(** The [while (X != Y)] loop of one iteration of [fatal_attractors_generic]. *)
Fixpoint fatal_attractor_loop (fuel : nat) (g : G) (U X Y : vertex_set) (alpha : nat)
    (V : vertex_set) (j : N) (compare : N -> N -> bool) (calculation_steps : nat)
  : option (vertex_set * vertex_set * G * nat) :=
  match fuel with
  | O => None
  | Datatypes.S fuel =>
      if VSet.eqb X Y then Some (X, Y, g, calculation_steps)
      else
        match attr_min_rank_generic g (VSet.set_intersection U Y) alpha V j compare with
        | None => None
        | Some (X, g) =>
            match attr_default g (VSet.set_minus Y X) (1 - alpha) with
            | None => None
            | Some (B, g) =>
                fatal_attractor_loop fuel g U X (VSet.set_minus Y B) alpha V j compare
                  (Datatypes.S calculation_steps)
            end
        end
  end.

(** [local_strategy(tau, alpha).set_strategy(v, w)] *)
Definition set_local_strategy (tau : strategies) (alpha v : nat) (w : option nat) : strategies :=
  let s := local_strategy_set v w (mk_local (fst tau) (snd tau) alpha) in (tau0 s, tau1 s).

(** "set strategy for v in X \ S[alpha]" *)
Definition fatal_strategy_step (g : G) (S_alpha U_j Y : vertex_set) (alpha : nat)
    (tau : strategies) (v : nat) : strategies :=
  if VSet.contains S_alpha v then tau
  else if ((alpha =? 0) && bool_decide (sg_decoration g v = d_disjunction)) ||
          ((alpha =? 1) && bool_decide (sg_decoration g v = d_conjunction))
  then if VSet.contains U_j v
       then set_local_strategy tau alpha v (find_successor_in g v Y)
       else set_local_strategy tau alpha v (sg_strategy g v)
  else tau.

(** What the algorithms of this file update: the graph (its strategies), the
    solved sets, their strategies and the step counter. *)
Record fatal_state : Type := mk_fatal {
  fs_graph : G;
  fs_S : vertex_set * vertex_set;
  fs_tau : strategies;
  fs_steps : nat
}.

(** The assignments after the fixed point is found: the strategies of [X], the
    insertion of [X] into [S[alpha]], and the attractor. *)
Definition fatal_add (g : G) (S : vertex_set * vertex_set) (tau : strategies)
    (U_j X Y : vertex_set) (alpha steps : nat) : option fatal_state :=
  let tau := foldl (fatal_strategy_step g (pick alpha S) U_j Y alpha) tau (VSet.m_vertices X) in
  let S_alpha := foldl VSet.insert (pick alpha S) (VSet.m_vertices X) in
  match attr_default_with_tau g S_alpha alpha tau with
  | None => None
  | Some (S_alpha, g, tau) => Some (mk_fatal g (put alpha S_alpha S) tau steps)
  end.

(** One iteration [for (auto& p: U_j_map)] of [fatal_attractors_generic]. *)
Definition fatal_iteration (V : vertex_set) (compare : N -> N -> bool) (st : fatal_state)
    (p : N * vertex_set) : option fatal_state :=
  let g := fs_graph st in
  let S := fs_S st in
  let j := fst p in
  let alpha := parity j in
  let U_j := VSet.set_minus (snd p) (pick (1 - alpha) S) in
  let U := VSet.set_union U_j (pick alpha S) in
  match attr_min_rank_generic g U alpha V j compare with
  | None => None
  | Some (X, g) =>
      match attr_default g (VSet.set_minus V X) (1 - alpha) with
      | None => None
      | Some (B, g) =>
          match fatal_attractor_loop (Datatypes.S (Datatypes.S (sg_extent g))) g U X
                  (VSet.set_minus V B) alpha V j compare (fs_steps st) with
          | None => None
          | Some (X, Y, g, steps) =>
              fatal_add g S (fs_tau st) U_j X Y alpha (steps + 2 * VSet.size X)
          end
      end
  end.

(** A loop over a list with a body that may run out of fuel. *)
Fixpoint fold_option {A B} (f : A -> B -> option A) (a : A) (l : list B) : option A :=
  match l with
  | [] => Some a
  | b :: l => match f a b with None => None | Some a => fold_option f a l end
  end.

(** The two attractor computations before the loop. *)
Definition fatal_start (g : G) (S : vertex_set * vertex_set) (tau : strategies) (steps : nat)
  : option fatal_state :=
  match attr_default_with_tau g (fst S) 0 tau with
  | None => None
  | Some (S0, g, tau) =>
      match attr_default_with_tau g (snd S) 1 tau with
      | None => None
      | Some (S1, g, tau) => Some (mk_fatal g (S0, S1) tau steps)
      end
  end.

Definition fatal_attractors_generic (compare : N -> N -> bool) (st : fatal_state)
  : option fatal_state :=
  let g := fs_graph st in
  let V := all_vertices g in
  let U_j_map := compute_U_j_map g V in
  match fatal_start g (fs_S st) (fs_tau st) (fs_steps st + sg_extent g) with
  | None => None
  | Some st => fold_option (fatal_iteration V compare) st U_j_map
  end.

Definition fatal_attractors (st : fatal_state) : option fatal_state :=
  fatal_attractors_generic greater_equal st.

Definition find_loops2 (st : fatal_state) : option fatal_state :=
  fatal_attractors_generic equal_to st.

(** The [while] loop of one iteration of [fatal_attractors_original]; the
    [break] returns. *)
Fixpoint fatal_original_loop (fuel : nat) (V : vertex_set) (j : N) (alpha : nat)
    (U_j X : vertex_set) (st : fatal_state) : option fatal_state :=
  match fuel with
  | O => None
  | Datatypes.S fuel =>
      if negb (VSet.is_empty U_j) && negb (VSet.eqb U_j X)
      then
        let X := U_j in
        match attr_min_rank_original (fs_graph st) (VSet.set_union X (pick alpha (fs_S st)))
                alpha V j with
        | None => None
        | Some (Y, g) =>
            if VSet.is_subset_of U_j Y
            then fatal_add g (fs_S st) (fs_tau st) U_j Y Y alpha (fs_steps st)
            else fatal_original_loop fuel V j alpha (VSet.set_intersection U_j Y) X
                   (mk_fatal g (fs_S st) (fs_tau st) (fs_steps st))
        end
      else Some st
  end.

Definition fatal_original_iteration (V : vertex_set) (st : fatal_state) (p : N * vertex_set)
  : option fatal_state :=
  let j := fst p in
  let alpha := parity j in
  let U_j := VSet.set_minus (snd p) (pick (1 - alpha) (fs_S st)) in
  let n := sg_extent (fs_graph st) in
  fatal_original_loop (Datatypes.S (Datatypes.S n)) V j alpha U_j (VSet.make n) st.

Definition fatal_attractors_original (st : fatal_state) : option fatal_state :=
  let g := fs_graph st in
  let V := all_vertices g in
  let U_j_map := compute_U_j_map g V in
  match fatal_start g (fs_S st) (fs_tau st) (fs_steps st) with
  | None => None
  | Some st => fold_option (fatal_original_iteration V) st U_j_map
  end.

(** [strategies_are_set_in_solved_nodes] of [pbesinst_structure_graph2.h], which
    is asserted after every call. *)
Definition strategies_are_set_in_solved_nodes (g : G) (S : vertex_set * vertex_set)
    (tau : strategies) : bool :=
  forallb (fun u => negb (bool_decide (sg_decoration g u = d_disjunction) &&
                          bool_decide (fst (StrategyVector.get (fst tau) u) = None)))
    (VSet.m_vertices (fst S)) &&
  forallb (fun u => negb (bool_decide (sg_decoration g u = d_conjunction) &&
                          bool_decide (fst (StrategyVector.get (snd tau) u) = None)))
    (VSet.m_vertices (snd S)).

End Code.
Arguments fatal_state G : clear implicits.
Arguments mk_fatal {G} _ _ _ _.
