(* ===== verification/GraphGame.v ===== *)
(** * The parity game of a structure graph, seen through the graph interface

    The algorithms on partially built graphs are templates over the interface
    [StructureGraph] and change nothing but the strategies of the vertices.
    [same_graph] is equality up to these strategies; [graph_region] says that a
    set is a winning region of the game of a graph.  What happens to a play
    that ends in a vertex without successors is a parameter [dead]: it is only
    known for [true] and [false], a vertex that has not been explored yet may
    turn out either way.  The last part gives the attractor computations in
    these terms, with the strategies they leave in [tau]. *)

From Stdlib Require Import Lia NArith Classical.
From stdpp Require Import base strings numbers sets list relations.
From S2P Require Import Prelude VertexSets StructureGraph Attractors ParityGame Solver FatalAttractors.

(** ** Equality up to strategies *)

Section Same.
Context {G : Type} `{StructureGraph G}.

Record same_graph (g g' : G) : Prop := {
  sgr_extent : sg_extent g' = sg_extent g;
  sgr_contains : forall u, sg_contains g' u = sg_contains g u;
  sgr_decoration : forall u, sg_decoration g' u = sg_decoration g u;
  sgr_rank : forall u, sg_rank g' u = sg_rank g u;
  sgr_predecessors : forall u, sg_predecessors g' u = sg_predecessors g u;
  sgr_successors : forall u, sg_successors g' u = sg_successors g u
}.

#[export] Instance same_graph_equiv : Equivalence same_graph.
Proof.
  split.
  - by split.
  - intros x y [H1 H2 H3 H4 H5 H6]. by split.
  - intros x y z [H1 H2 H3 H4 H5 H6] [K1 K2 K3 K4 K5 K6].
    split; intros; [by rewrite K1|by rewrite K2|by rewrite K3|by rewrite K4|by rewrite K5|by rewrite K6].
Qed.

Lemma same_graph_in g g' u : same_graph g g' -> in_graph g' u <-> in_graph g u.
Proof. intros Hs. unfold in_graph. by rewrite (sgr_extent _ _ Hs), (sgr_contains _ _ Hs). Qed.

Lemma same_graph_ok g g' : same_graph g g' -> graph_ok g -> graph_ok g'.
Proof.
  intros Hs [H1 H2 H3]. split; intros u v;
    rewrite ?(sgr_successors _ _ Hs), ?(sgr_predecessors _ _ Hs), ?(same_graph_in _ _ _ Hs); eauto.
Qed.

Lemma same_graph_trace g g' alpha A L :
  same_graph g g' -> attr_trace g' alpha A L -> attr_trace g alpha A L.
Proof.
  intros Hs. induction 1 as [A|A u v L Hu Hin Hv HvA Hd HL IH]; [constructor|].
  rewrite (sgr_successors _ _ Hs), (sgr_decoration _ _ Hs) in *.
  rewrite (same_graph_in _ _ _ Hs) in Hin. by econstructor.
Qed.

Lemma same_graph_attractable g g' alpha A u :
  same_graph g g' -> attractable g' alpha A u <-> attractable g alpha A u.
Proof.
  intros Hs. unfold attractable.
  by rewrite (sgr_successors _ _ Hs), (sgr_decoration _ _ Hs), (same_graph_in _ _ _ Hs).
Qed.

Lemma same_graph_includes g g' {V} `{VertexSet V} u (A : V) :
  same_graph g g' -> includes_successors g' u A = includes_successors g u A.
Proof. intros Hs. unfold includes_successors. by rewrite (sgr_successors _ _ Hs). Qed.

Lemma same_graph_find g g' {V} `{VertexSet V} u (A : V) :
  same_graph g g' -> find_successor_in g' u A = find_successor_in g u A.
Proof. intros Hs. unfold find_successor_in. by rewrite (sgr_successors _ _ Hs). Qed.

Context `{!StructureGraphLaws G}.

Lemma set_strategy_same_graph u v g : same_graph g (sg_set_strategy u v g).
Proof.
  split; intros; [apply extent_set|apply contains_set|apply decoration_set|apply rank_set
    |apply predecessors_set|apply successors_set].
Qed.

(** The recorded strategies of a trace, stored in the graph. *)
Definition record_graph (L : list (nat * option nat)) (g : G) : G :=
  foldl (fun g p => sg_set_strategy p.1 p.2 g) g L.

Lemma record_graph_same L g : same_graph g (record_graph L g).
Proof.
  revert g. induction L as [|p L IH]; intros g; [done|].
  etransitivity; [apply (set_strategy_same_graph p.1 p.2)|apply IH].
Qed.

Lemma record_graph_ne L g u :
  (forall w, w ∈ L.*1 -> w < sg_extent g) ->
  u ∉ L.*1 -> sg_strategy (record_graph L g) u = sg_strategy g u.
Proof.
  revert g. induction L as [|[w v] L IH]; intros g Hlt Hu; [done|]. cbn in Hu, Hlt.
  apply not_elem_of_cons in Hu as [Hne Hu].
  change (sg_strategy (record_graph L (sg_set_strategy w v g)) u = sg_strategy g u).
  rewrite IH; [|intros y Hy; rewrite extent_set; apply Hlt; by right|done].
  rewrite strategy_set by (apply Hlt; left). by rewrite decide_False.
Qed.

Lemma record_graph_eq L g u v :
  NoDup L.*1 -> (forall w, w ∈ L.*1 -> w < sg_extent g) -> (u, v) ∈ L ->
  sg_strategy (record_graph L g) u = v.
Proof.
  revert g. induction L as [|[w x] L IH]; intros g Hnd Hlt Huv; [by apply elem_of_nil in Huv|].
  cbn in Hnd, Hlt. apply NoDup_cons in Hnd as [Hw Hnd].
  change (sg_strategy (record_graph L (sg_set_strategy w x g)) u = v).
  assert (Hlt' : forall y, y ∈ L.*1 -> y < sg_extent (sg_set_strategy w x g)).
  { intros y Hy. rewrite extent_set. apply Hlt. by right. }
  apply elem_of_cons in Huv as [[= -> ->]|Huv]; [|by apply IH].
  rewrite record_graph_ne by done. rewrite strategy_set by (apply Hlt; left).
  by rewrite decide_True.
Qed.

End Same.

(** ** The strategies in [tau] *)

Definition tau_at (tau : strategies) (alpha u : nat) : option nat :=
  fst (StrategyVector.get (pick alpha tau) u).

Lemma strategy_vector_set_at t v w u :
  fst (StrategyVector.get (StrategyVector.set t v w) u) =
  if decide (v = u) then w else fst (StrategyVector.get t u).
Proof.
  unfold StrategyVector.get, StrategyVector.set. cbn [fst].
  rewrite !StrategyVector.grown_lookup. case_decide as E.
  - subst. by rewrite list_lookup_insert_eq by apply StrategyVector.grown_length.
  - rewrite list_lookup_insert_ne by done. by rewrite StrategyVector.grown_lookup.
Qed.

Lemma set_local_strategy_at tau alpha v w beta u :
  alpha < 2 -> beta < 2 ->
  tau_at (set_local_strategy tau alpha v w) beta u =
  if decide (alpha = beta /\ v = u) then w else tau_at tau beta u.
Proof.
  intros Ha Hb. unfold tau_at, set_local_strategy, local_strategy_set. cbn [ls_alpha tau0 tau1].
  assert (alpha = 0 \/ alpha = 1) as [->| ->] by lia;
    assert (beta = 0 \/ beta = 1) as [->| ->] by lia; unfold pick; cbn -[StrategyVector.get];
    rewrite ?strategy_vector_set_at; repeat case_decide; naive_solver lia.
Qed.

Definition record_tau (alpha : nat) (L : list (nat * option nat)) (tau : strategies)
  : strategies := foldl (fun t p => set_local_strategy t alpha p.1 p.2) tau L.

Lemma record_tau_ne alpha L tau beta u :
  alpha < 2 -> beta < 2 -> alpha <> beta \/ u ∉ L.*1 ->
  tau_at (record_tau alpha L tau) beta u = tau_at tau beta u.
Proof.
  intros Ha Hb. revert tau. induction L as [|[w v] L IH]; intros tau Hu; [done|].
  change (tau_at (record_tau alpha L (set_local_strategy tau alpha w v)) beta u
          = tau_at tau beta u).
  rewrite IH, set_local_strategy_at by set_solver. rewrite decide_False; [done|].
  intros [-> ->]. set_solver.
Qed.

Lemma record_tau_eq alpha L tau u v :
  alpha < 2 -> NoDup L.*1 -> (u, v) ∈ L -> tau_at (record_tau alpha L tau) alpha u = v.
Proof.
  intros Ha. revert tau. induction L as [|[w x] L IH]; intros tau Hnd Huv;
    [by apply elem_of_nil in Huv|].
  cbn in Hnd. apply NoDup_cons in Hnd as [Hw Hnd].
  change (tau_at (record_tau alpha L (set_local_strategy tau alpha w x)) alpha u = v).
  apply elem_of_cons in Huv as [[= -> ->]|Huv]; [|by apply IH].
  rewrite record_tau_ne, set_local_strategy_at by auto. by rewrite decide_True.
Qed.

(** ** Fatal sets

    A set [Z] from which player [alpha] reaches a winning region [W], or else
    returns to the vertices [U] of [Z], which have the least rank [j] of [Z]:
    together with [W] it is a winning region. *)

Section Fatal.
Context (E : nat -> nat -> Prop) (own : nat -> nat -> Prop) (rk : nat -> N)
        (dead : nat -> nat).

Record fatal (X : nat -> Prop) (alpha : nat) (sigma : nat -> option nat)
    (W Z U : nat -> Prop) (mu : nat -> nat) (j : N) : Prop := {
  fat_sub : forall u, Z u -> X u;
  fat_own : forall u, Z u -> ~ W u -> own alpha u -> has_successor E X u ->
    exists v, sigma u = Some v /\ E u v /\ X v /\ (Z v \/ W v) /\
      (U u \/ W v \/ mu v < mu u);
  fat_opp : forall u v, Z u -> ~ W u -> ~ own alpha u -> E u v -> X v ->
    (Z v \/ W v) /\ (U u \/ W v \/ mu v < mu u);
  fat_dead : forall u, Z u -> ~ W u -> ~ has_successor E X u -> dead u = alpha;
  fat_rank : forall u, Z u -> ~ W u -> (j <= rk u)%N;
  fat_target : forall u, Z u -> ~ W u -> U u -> rk u = j;
  fat_parity : parity j = alpha
}.

Lemma fatal_step X alpha sigma W Z U mu j u v :
  fatal X alpha sigma W Z U mu j -> Z u -> ~ W u -> move E own X alpha sigma u v ->
  (Z v \/ W v) /\ (U u \/ W v \/ mu v < mu u).
Proof.
  intros HZ Hu Hn (He & Hx & Hs). destruct (classic (own alpha u)) as [Ho|Ho].
  - destruct (fat_own _ _ _ _ _ _ _ _ HZ u Hu Hn Ho) as (w & Hw & _ & _ & ? & ?); [by exists v|].
    specialize (Hs Ho). assert (w = v) as -> by congruence. done.
  - by apply (fat_opp _ _ _ _ _ _ _ _ HZ u v).
Qed.

Lemma fatal_cycle X alpha sigma W Z U mu j x l :
  fatal X alpha sigma W Z U mu j -> l <> [] -> walk (move E own X alpha sigma) x l x ->
  (forall y, y ∈ l -> Z y /\ ~ W y) -> good_cycle rk alpha l.
Proof.
  intros HZ Hl Hw Hall. pose proof (walk_last _ _ _ _ Hw Hl) as Hxl.
  assert (Hw' : walk (fun u v => move E own X alpha sigma u v /\ ~ W v) x l x).
  { apply (walk_mono (move E own X alpha sigma) _ (fun u => Z u /\ ~ W u)); auto.
    intros u v _ [_ Hv] Hm. done. }
  destruct (cycle_meets (fun u v => move E own X alpha sigma u v /\ ~ W v)
    (fun u => Z u /\ ~ W u) U mu x l x) as (t & Ht & HU); auto.
  { intros u v [Hu Hn] HU [Hm Hv].
    destruct (fatal_step _ _ _ _ _ _ _ _ u v HZ Hu Hn Hm) as [[|] [|[|]]]; done. }
  destruct (Hall t Ht) as [HZt HWt]. exists t. split; [done|].
  rewrite (fat_target _ _ _ _ _ _ _ _ HZ t HZt HWt HU).
  split; [apply HZ|]. intros z Hz. destruct (Hall z Hz). by apply HZ.
Qed.

Lemma region_fatal X alpha sigma W Z U mu j :
  region E own rk dead X alpha sigma W -> fatal X alpha sigma W Z U mu j ->
  region E own rk dead X alpha sigma (fun u => Z u \/ W u).
Proof.
  intros HW HZ.
  assert (Hc : forall u v, (Z u \/ W u) -> move E own X alpha sigma u v -> Z v \/ W v).
  { intros u v Hu Hm. destruct (classic (W u)) as [HWu|HWu].
    - right. by eapply region_closed.
    - destruct Hu as [Hu|]; [|done]. by apply (fatal_step _ _ _ _ _ _ _ _ u v HZ). }
  split.
  - intros u [Hu|Hu]; [by apply HZ|by apply HW].
  - intros u Hu Ho Hs. destruct (classic (W u)) as [HWu|HWu].
    + destruct (region_own _ _ _ _ _ _ _ _ HW u HWu Ho Hs) as (v & ? & ? & ? & ?). eauto 10.
    + destruct Hu as [Hu|]; [|done].
      destruct (fat_own _ _ _ _ _ _ _ _ HZ u Hu HWu Ho Hs) as (v & ? & ? & ? & ? & _). eauto.
  - intros u v Hu Ho He Hx. apply (Hc u v Hu). by split.
  - intros u Hu Hd. destruct (classic (W u)) as [HWu|HWu]; [by apply HW|].
    destruct Hu as [Hu|]; [|done]. by apply (fat_dead _ _ _ _ _ _ _ _ HZ u).
  - intros x l Hx Hl Hw. destruct (walk_closed _ _ x l x Hc Hx Hw) as [_ Hall].
    destruct (classic (exists b, b ∈ l /\ W b)) as [(b & Hb & HWb)|Hno].
    + eapply (region_cycle_within E own rk dead X X alpha sigma W); eauto.
      intros y Hy. apply (cycle_closed (move E own X alpha sigma) W x l b); auto.
      intros u v. by apply (region_closed _ _ rk dead).
    + eapply fatal_cycle; eauto. intros y Hy. assert (HWy : ~ W y) by eauto.
      destruct (Hall y Hy) as [|]; done.
Qed.

End Fatal.

(** ** Winning regions of a graph *)

Section Regions.
Context {G : Type} `{StructureGraph G}.

Definition graph_edge (g : G) (u v : nat) : Prop := v ∈ sg_successors g u.

Definition graph_owner (g : G) (alpha u : nat) : Prop :=
  decoration_value (sg_decoration g u) = alpha.

#[export] Instance graph_owner_dec g alpha u : Decision (graph_owner g alpha u).
Proof. unfold graph_owner. apply _. Defined.

(** What is known about vertices without successors. *)
Definition dead_ok (g : G) (dead : nat -> nat) : Prop := forall u,
  (sg_decoration g u = d_true -> dead u = 0) /\ (sg_decoration g u = d_false -> dead u = 1).

Definition graph_region (g : G) (dead : nat -> nat) :=
  region (graph_edge g) (graph_owner g) (sg_rank g) dead (in_graph g).

(** Player [alpha] wins from [u] by following [sigma]. *)
Definition graph_wins (g : G) (dead : nat -> nat) :=
  wins_from (graph_edge g) (graph_owner g) (sg_rank g) dead (in_graph g).

Lemma graph_region_wins g dead alpha sigma W u :
  graph_region g dead alpha sigma W -> W u -> graph_wins g dead alpha sigma u.
Proof.
  intros HW Hu. eapply (region_wins _ _ _ _ _ _ _ W (sg_extent g)); eauto.
  intros v Hv. apply (region_sub _ _ _ _ _ _ _ _ HW v Hv).
Qed.

Lemma same_graph_has_successor g g' u :
  same_graph g g' ->
  has_successor (graph_edge g') (in_graph g') u <-> has_successor (graph_edge g) (in_graph g) u.
Proof.
  intros Hs. unfold has_successor, graph_edge. rewrite (sgr_successors _ _ Hs).
  by setoid_rewrite (fun v => same_graph_in _ _ v Hs).
Qed.

Lemma same_graph_region g g' dead alpha sigma W :
  same_graph g g' -> graph_region g dead alpha sigma W -> graph_region g' dead alpha sigma W.
Proof.
  intros Hs [H1 H2 H3 H4 H5].
  assert (Hm : forall u v, move (graph_edge g') (graph_owner g') (in_graph g') alpha sigma u v ->
    move (graph_edge g) (graph_owner g) (in_graph g) alpha sigma u v).
  { intros u v. unfold move, graph_edge, graph_owner.
    rewrite (sgr_successors _ _ Hs), (sgr_decoration _ _ Hs), (same_graph_in _ _ _ Hs). done. }
  split; unfold graph_owner, graph_edge in *.
  - intros u Hu. apply (same_graph_in _ _ _ Hs), H1, Hu.
  - intros u Hu Ho Hsu. rewrite (sgr_decoration _ _ Hs) in Ho.
    destruct (H2 u Hu Ho) as (v & ? & ? & ? & ?); [by apply (same_graph_has_successor g g')|].
    exists v. by rewrite (sgr_successors _ _ Hs), (same_graph_in _ _ _ Hs).
  - intros u v Hu. rewrite (sgr_decoration _ _ Hs), (sgr_successors _ _ Hs),
      (same_graph_in _ _ _ Hs). eauto.
  - intros u Hu Hn. apply (H4 u Hu). by rewrite <- (same_graph_has_successor g g').
  - intros x l Hx Hl Hw. destruct (H5 x l Hx Hl) as (y & Hy & Hp & Hmin).
    { apply (walk_mono (move (graph_edge g') (graph_owner g') (in_graph g') alpha sigma) _
        (fun _ => True)); auto. }
    exists y. split; [done|]. rewrite (sgr_rank _ _ Hs). split; [done|].
    intros z Hz. rewrite (sgr_rank _ _ Hs). by apply Hmin.
Qed.

(** ** The attractor computations *)

Context `{!StructureGraphLaws G}.

(** A trace as an attractor of the game. *)
Lemma trace_attracts g alpha sigma A L :
  graph_ok g -> (forall u, u ∈ A -> in_graph g u) -> attr_trace g alpha A L ->
  (forall u v, (u, v) ∈ L -> sigma u = v) ->
  (forall u, attractable g alpha (fun v => v ∈ A ++ L.*1) u -> u ∈ A ++ L.*1) ->
  attracts (graph_edge g) (graph_owner g) (in_graph g) alpha sigma
    (fun u => u ∈ A) (fun u => u ∈ A ++ L.*1) (fun u => index_of u (A ++ L.*1)).
Proof.
  intros Hg Hin HL Hsig Hc.
  assert (Hpre : forall u, u ∈ A ++ L.*1 -> u ∉ A ->
    exists w, sigma u = Some w /\ w ∈ sg_successors g u /\ in_graph g u /\
      w ∈ A ++ L.*1 /\ index_of w (A ++ L.*1) < index_of u (A ++ L.*1) /\
      (graph_owner g alpha u \/ forall x, x ∈ sg_successors g u ->
         x ∈ A ++ L.*1 /\ index_of x (A ++ L.*1) < index_of u (A ++ L.*1))).
  { intros u Hu Hn. apply elem_of_app in Hu as [|Hu]; [done|].
    apply list_elem_of_fmap in Hu as ([u' v] & -> & Huv). cbn.
    destruct (attr_trace_prefix g alpha A L u' v HL Huv)
      as (pre & post & w & Ep & Hup & Hgu & -> & Hwp & Hws & Hd).
    exists w. split; [by apply Hsig|]. split; [done|]. split; [done|].
    rewrite Ep, (index_of_app u' pre post Hup). split; [set_solver|].
    split; [by apply index_of_lt|]. destruct Hd as [Hd|Hd]; [by left|right].
    intros x Hx. specialize (Hd x Hx). split; [set_solver|by apply index_of_lt]. }
  split.
  - set_solver.
  - intros u Hu. destruct (decide (u ∈ A)); [auto|].
    by destruct (Hpre u Hu) as (w & _ & _ & ? & _).
  - intros u Hu Hn Ho. destruct (Hpre u Hu Hn) as (w & ? & Hw & _ & ? & ? & _).
    exists w. pose proof (successors_in g Hg u w Hw). done.
  - intros u Hu Hn Ho. destruct (Hpre u Hu Hn) as (w & _ & Hw & _ & _ & _ & Hd).
    destruct Hd as [|Hd]; [done|]. split; [|by intros v Hv _; apply Hd].
    exists w. split; [done|]. by apply (successors_in g Hg u).
  - intros u Hx (v & He & Hv & HvA) Hd. apply Hc. split; [done|].
    split; [by exists v|]. destruct Hd as [Hd|Hd]; [by left|right].
    intros w Hw. apply Hd; [done|]. by apply (successors_in g Hg u).
Qed.

Lemma apply_global L g : gs_graph (apply_strategies L (mk_global g)) = record_graph L g.
Proof. revert g. induction L as [|p L IH]; intros g; [done|]. apply IH. Qed.

Lemma apply_global_local L g tau alpha :
  let s := apply_strategies L (mk_global_local (mk_global g) (mk_local (fst tau) (snd tau) alpha)) in
  gs_graph (gls_global s) = record_graph L g /\
  (tau0 (gls_local s), tau1 (gls_local s)) = record_tau alpha L tau.
Proof.
  revert g tau. induction L as [|p L IH]; intros g tau; [by destruct tau|].
  set (t := set_local_strategy tau alpha p.1 p.2).
  specialize (IH (sg_set_strategy p.1 p.2 g) t). cbn -[set_local_strategy] in IH |- *.
  assert (E : mk_local t.1 t.2 alpha =
    local_strategy_set p.1 p.2 (mk_local tau.1 tau.2 alpha)).
  { unfold t, set_local_strategy, local_strategy_set. cbn. by destruct (alpha =? 0). }
  rewrite E in IH. exact IH.
Qed.

Lemma attr_default_same m g A alpha :
  graph_ok g -> sg_extent g <= m -> VSet.ok m A ->
  (forall u, u ∈ VSet.m_vertices A -> in_graph g u) ->
  exists A' L, attr_default g A alpha = Some (A', record_graph L g) /\
    VSet.ok m A' /\ VSet.m_vertices A' = VSet.m_vertices A ++ L.*1 /\
    attr_trace g alpha (VSet.m_vertices A) L /\
    forall u, attractable g alpha (fun v => v ∈ VSet.m_vertices A') u ->
      u ∈ VSet.m_vertices A'.
Proof.
  intros Hg Hm HA Hin.
  destruct (attr_default_generic_spec m g alpha A (mk_global g) Hg Hm HA Hin)
    as (A' & L & Ea & Hok & EA & HL & Hc).
  exists A', L. unfold attr_default. by rewrite Ea, apply_global.
Qed.

Lemma attr_default_with_tau_same m g A alpha tau :
  graph_ok g -> sg_extent g <= m -> VSet.ok m A ->
  (forall u, u ∈ VSet.m_vertices A -> in_graph g u) ->
  exists A' L, attr_default_with_tau g A alpha tau =
      Some (A', record_graph L g, record_tau alpha L tau) /\
    VSet.ok m A' /\ VSet.m_vertices A' = VSet.m_vertices A ++ L.*1 /\
    attr_trace g alpha (VSet.m_vertices A) L /\
    forall u, attractable g alpha (fun v => v ∈ VSet.m_vertices A') u ->
      u ∈ VSet.m_vertices A'.
Proof.
  intros Hg Hm HA Hin. unfold attr_default_with_tau.
  destruct (attr_default_generic_spec m g alpha A
    (mk_global_local (mk_global g) (mk_local (fst tau) (snd tau) alpha)) Hg Hm HA Hin)
    as (A' & L & -> & Hok & EA & HL & Hc).
  exists A', L. destruct (apply_global_local L g tau alpha) as [-> ->]. done.
Qed.

End Regions.
