(* ===== verification/MinRankAttractor.v ===== *)
(** * The attractors of [pbesinst_fatal_attractors.h]

    What [attr_min_rank_generic] and [attr_min_rank_original] compute, on any
    well-formed graph: that their loops end, in which order vertices are added,
    which strategy each added vertex gets, and for the first of them which
    vertices cannot be missing from the result.  The sets may have a larger
    extent than the graph. *)

From Stdlib Require Import Lia NArith Classical.
From stdpp Require Import base strings numbers sets list relations.
From S2P Require Import Prelude VertexSets StructureGraph Attractors ParityGame Solver FatalAttractors GraphGame.

(** ** Loops that fill a queue *)

Lemma deque_filter_loop n (p : nat -> bool) l d :
  Deque.ok n d -> (forall v, v ∈ l -> v < n) ->
  let R := foldl (fun todo v => if p v then Deque.insert todo v else todo) d l in
  Deque.ok n R /\
  forall u, u ∈ Deque.m_vertices R <-> u ∈ Deque.m_vertices d \/ (u ∈ l /\ p u = true).
Proof.
  revert d. induction l as [|v l IH]; intros d Hd Hl; cbn.
  { split; [done|]. set_solver. }
  assert (Hv : v < n) by (apply Hl; left). destruct (p v) eqn:Ev.
  - destruct (IH (Deque.insert d v)) as [Hok He]; [by apply Deque.deque_insert_ok|set_solver|].
    split; [done|]. intros u. rewrite He, (Deque.deque_insert_elem n d v u Hd), elem_of_cons.
    split; [intros [[->|]|]; tauto|intros [|[[->|] ?]]; tauto].
  - destruct (IH d Hd) as [Hok He]; [set_solver|]. split; [done|]. intros u.
    rewrite He, elem_of_cons. split; [tauto|intros [|[[->|] ?]]; [tauto|congruence|tauto]].
Qed.

Lemma deque_filter_ext (p q : nat -> bool) l d :
  (forall v, p v = q v) ->
  foldl (fun todo v => if p v then Deque.insert todo v else todo) d l =
  foldl (fun todo v => if q v then Deque.insert todo v else todo) d l.
Proof. intros E. revert d. induction l as [|v l IH]; intros d; cbn; [done|]. by rewrite E, IH. Qed.

(** Sets of different extents. *)
Lemma set_minus_mixed n m V W :
  VSet.ok n V -> VSet.ok m W ->
  VSet.ok n (VSet.set_minus V W) /\
  forall u, u ∈ VSet.m_vertices (VSet.set_minus V W) <->
    u ∈ VSet.m_vertices V /\ u ∉ VSet.m_vertices W.
Proof.
  intros HV HW. unfold VSet.set_minus, VSet.extent. rewrite (proj1 HV).
  destruct (VSet.insert_if_loop n (fun v => negb (VSet.contains W v)) (VSet.m_vertices V)
    (VSet.make n)) as [H1 H2]; [apply VSet.make_ok|intros u; by apply VSet.ok_lt|].
  split; [exact H1|]. intros u.
  rewrite H2, negb_true_iff, (VSet.contains_false m W u HW). cbn. set_solver.
Qed.

Lemma set_union_mixed n V W :
  VSet.ok n V -> (forall u, u ∈ VSet.m_vertices W -> u < n) ->
  VSet.ok n (VSet.set_union V W) /\
  forall u, u ∈ VSet.m_vertices (VSet.set_union V W) <->
    u ∈ VSet.m_vertices V \/ u ∈ VSet.m_vertices W.
Proof. apply VSet.insert_loop. Qed.

Section MinRank.
Context {G : Type} `{StructureGraph G} `{!StructureGraphLaws G}.

Lemma predecessor_filter (g : G) (p : nat -> bool) u d :
  graph_ok g -> Deque.ok (sg_extent g) d ->
  let R := foldl (fun todo v => if p v then Deque.insert todo v else todo) d
             (sg_predecessors g u) in
  Deque.ok (sg_extent g) R /\
  forall w, w ∈ Deque.m_vertices R <->
    w ∈ Deque.m_vertices d \/ (w ∈ sg_predecessors g u /\ p w = true).
Proof.
  intros Hg Hd. apply deque_filter_loop; [done|].
  intros v Hv. by apply (predecessors_in g Hg v u Hv).
Qed.

Lemma predecessors_filter (g : G) (p : nat -> bool) l d :
  graph_ok g -> Deque.ok (sg_extent g) d ->
  let R := foldl (fun todo u => foldl (fun todo v => if p v then Deque.insert todo v else todo)
                   todo (sg_predecessors g u)) d l in
  Deque.ok (sg_extent g) R /\
  forall w, w ∈ Deque.m_vertices R <->
    w ∈ Deque.m_vertices d \/ ((exists u, u ∈ l /\ w ∈ sg_predecessors g u) /\ p w = true).
Proof.
  intros Hg. revert d. induction l as [|u l IH]; intros d Hd; cbn.
  - split; [done|]. set_solver.
  - destruct (predecessor_filter g p u d Hg Hd) as [H1 E1].
    destruct (IH _ H1) as [H2 E2]. split; [done|]. intros w. rewrite E2, E1.
    split.
    + intros [[|[Hw Hp]]|[(x & Hx & Hw) Hp]]; [by left| |]; right; (split; [|done]).
      * exists u. split; [left|done].
      * exists x. split; [by right|done].
    + intros [|[(x & [->|Hx]%elem_of_cons & Hw) Hp]]; [tauto|tauto|right].
      split; [by exists x|done].
Qed.

(** ** [attr_min_rank_generic] *)

Section Generic.
Context (g0 : G) (m alpha : nat) (U : vertex_set) (j : N) (compare : N -> N -> bool).
Hypothesis Hg0 : graph_ok g0.
Hypothesis Hm : sg_extent g0 <= m.

(** Why a vertex is considered: its rank, or a successor that was added. *)
Definition considered (L : list (nat * option nat)) (u : nat) : Prop :=
  VSet.contains U u = true /\
  (compare (sg_rank g0 u) j = true \/
   (rank_or_undefined compare g0 j u = true /\
    exists w, w ∈ sg_successors g0 u /\ w ∈ L.*1)).

Record min_rank_inv (A0 : list nat) (A : vertex_set) (L : list (nat * option nat))
    (d : Deque.deque_vertex_set) : Prop := {
  mri_A : VSet.ok m A;
  mri_todo : Deque.ok (sg_extent g0) d;
  mri_split : VSet.m_vertices A = A0 ++ L.*1;
  mri_in : forall u, u ∈ VSet.m_vertices A -> in_graph g0 u;
  mri_todo_out : forall u, u ∈ Deque.m_vertices d ->
    in_graph g0 u /\ (u ∉ VSet.m_vertices A) /\ considered L u /\
    exists v, v ∈ sg_successors g0 u /\ v ∈ VSet.m_vertices A;
  mri_closed : forall u, u ∉ VSet.m_vertices A -> considered L u ->
    attractable g0 alpha (fun v => v ∈ VSet.m_vertices A) u -> u ∈ Deque.m_vertices d
}.

Lemma considered_app L L' u : considered L u -> considered (L ++ L') u.
Proof.
  intros [HU [Hc|[Hc (w & Hw & HL)]]]; split; auto. right. split; [done|].
  exists w. rewrite fmap_app. set_solver.
Qed.

Lemma considered_rank L u : considered L u -> rank_or_undefined compare g0 j u = true.
Proof. intros [_ [Hc|[Hc _]]]; [|done]. unfold rank_or_undefined. by rewrite Hc. Qed.

Lemma min_rank_inv_skip A0 A L d u d' :
  min_rank_inv A0 A L d -> Deque.pop_front d = Some (u, d') ->
  decoration_value (sg_decoration g0 u) <> alpha -> includes_successors g0 u A = false ->
  min_rank_inv A0 A L d'.
Proof.
  intros [HA Hd Hs Hin Hout Hcl] Hp Hdec Hinc.
  destruct (Deque.deque_pop_front_ok _ _ _ _ Hd Hp) as (Hd' & E & _ & _). split; auto.
  - intros w Hw. apply Hout. rewrite E. by right.
  - intros w Hw Hc Ha. specialize (Hcl w Hw Hc Ha). rewrite E in Hcl.
    apply elem_of_cons in Hcl as [->|]; [|done]. destruct Ha as (_ & _ & [|Hall]); [done|].
    apply (includes_successors_spec _ g0 u A HA) in Hall. congruence.
Qed.

Lemma min_rank_inv_add A0 A L d u d' v :
  min_rank_inv A0 A L d -> Deque.pop_front d = Some (u, d') ->
  let A' := VSet.insert A u in
  min_rank_inv A0 A' (L ++ [(u, v)])
    (foldl (fun todo v =>
        if VSet.contains U v && rank_or_undefined compare g0 j v && negb (VSet.contains A' v)
        then Deque.insert todo v else todo) d' (sg_predecessors g0 u)).
Proof.
  intros [HA Hd Hs Hin Hout Hcl] Hp A'.
  destruct (Deque.deque_pop_front_ok _ _ _ _ Hd Hp) as (Hd' & E & Hnd & Hlt).
  assert (Hu : u ∈ Deque.m_vertices d) by (rewrite E; left).
  destruct (Hout u Hu) as (Hgu & HuA & Hcu & _).
  assert (HA' : VSet.ok m A') by (apply VSet.insert_ok; [done|lia]).
  pose proof (fun w => VSet.insert_elem _ A u w HA) as EA. fold A' in EA.
  destruct (predecessor_filter g0 (fun v => VSet.contains U v && rank_or_undefined compare g0 j v
    && negb (VSet.contains A' v)) u d' Hg0 Hd') as [H1 E1].
  assert (Ep : forall w, w ∈ sg_predecessors g0 u /\ (VSet.contains U w &&
    rank_or_undefined compare g0 j w && negb (VSet.contains A' w)) = true <->
    w ∈ sg_predecessors g0 u /\ VSet.contains U w = true /\
    rank_or_undefined compare g0 j w = true /\ w ∉ VSet.m_vertices A').
  { intros w. rewrite !andb_true_iff, negb_true_iff, (VSet.contains_false m A' w HA'). tauto. }
  split; auto.
  - unfold A'. rewrite (VSet.insert_fresh _ A u HA HuA), Hs, fmap_app. cbn. by rewrite app_assoc.
  - intros w. rewrite EA. intros [->|]; auto.
  - intros w Hw. apply E1 in Hw as [Hw|Hw].
    + destruct (Hout w) as (? & ? & ? & x & ? & ?); [rewrite E; by right|].
      split; [done|]. rewrite EA. split; [intros [->|]; done|].
      split; [by apply considered_app|]. exists x. rewrite EA. auto.
    + apply Ep in Hw as (Hw & HwU & Hr & Hn). pose proof (predecessors_in g0 Hg0 w u Hw) as Hgw.
      assert (Hs' : u ∈ sg_successors g0 w) by (by apply (edges_match g0 Hg0)).
      split; [done|]. split; [done|]. split.
      * split; [done|]. right. split; [done|]. exists u. rewrite fmap_app. set_solver.
      * exists u. rewrite EA. auto.
  - intros w Hw Hc (Hgw & (x & Hx & HxA) & Hatt). apply E1.
    destruct (decide (u ∈ sg_successors g0 w)) as [Huw|Huw].
    { right. apply Ep. split; [by apply (edges_match g0 Hg0)|]. split; [apply Hc|].
      split; [by apply considered_rank in Hc|done]. }
    left. rewrite EA in Hw.
    assert (w ∈ Deque.m_vertices d) as Hwd; [|rewrite E in Hwd; apply elem_of_cons in Hwd as [->|]; tauto].
    apply Hcl; [tauto| |].
    + destruct Hc as [HcU [|[Hr (y & Hy & HyL)]]]; split; auto. right. split; [done|].
      exists y. split; [done|]. rewrite fmap_app in HyL. set_solver.
    + split; [done|]. rewrite EA in HxA. split; [exists x; destruct HxA as [->|]; [done|auto]|].
      destruct Hatt as [?|Hall]; [by left|right]. intros y Hy. specialize (Hall y Hy).
      rewrite EA in Hall. by destruct Hall as [->|].
Qed.

(** The vertices that were added, each with the reason for considering it. *)
Definition considered_trace (L : list (nat * option nat)) : Prop :=
  forall L1 p L2, L = L1 ++ p :: L2 -> considered L1 p.1.

Record min_rank_result (A0 : list nat) (A : vertex_set) (L : list (nat * option nat)) : Prop := {
  mrr_ok : VSet.ok m A;
  mrr_split : VSet.m_vertices A = A0 ++ L.*1;
  mrr_in : forall u, u ∈ VSet.m_vertices A -> in_graph g0 u;
  mrr_trace : attr_trace g0 alpha A0 L;
  mrr_considered : considered_trace L;
  mrr_closed : forall u, considered L u ->
    attractable g0 alpha (fun v => v ∈ VSet.m_vertices A) u -> u ∈ VSet.m_vertices A
}.

Lemma attr_trace_snoc A L u v :
  attr_trace g0 alpha A L -> u ∉ A ++ L.*1 -> in_graph g0 u -> v ∈ sg_successors g0 u ->
  v ∈ A ++ L.*1 ->
  (decoration_value (sg_decoration g0 u) = alpha \/
   forall w, w ∈ sg_successors g0 u -> w ∈ A ++ L.*1) ->
  attr_trace g0 alpha A (L ++ [(u, Some v)]).
Proof.
  induction 1 as [A|A x y L Hx Hin Hy HyA Hd HL IH]; intros Hu Hgu Hv HvA Hall; cbn in *.
  - rewrite app_nil_r in *. econstructor; eauto. constructor.
  - econstructor; eauto. apply IH; auto; by rewrite <- app_assoc.
Qed.

Lemma considered_trace_snoc L p :
  considered_trace L -> considered L p.1 -> considered_trace (L ++ [p]).
Proof.
  intros HL Hp L1 q L2 E. induction L2 as [|x L3 _] using rev_ind.
  - apply app_inj_tail in E as [-> ->]. done.
  - rewrite app_comm_cons, app_assoc in E. apply app_inj_tail in E as [-> ->]. by apply (HL L1 q L3).
Qed.

Lemma min_rank_inv_length A0 A L d :
  min_rank_inv A0 A L d -> length (VSet.m_vertices A) <= sg_extent g0.
Proof.
  intros Hinv. apply NoDup_bounded_length; [apply (mri_A _ _ _ _ Hinv)|].
  intros u Hu. apply (mri_in _ _ _ _ Hinv u Hu).
Qed.

Lemma min_rank_inv_end A0 A L d :
  min_rank_inv A0 A L d -> attr_trace g0 alpha A0 L -> considered_trace L ->
  Deque.pop_front d = None -> min_rank_result A0 A L.
Proof.
  intros [HA Hd Hs Hin Hout Hcl] HL Hc Hp.
  assert (E : Deque.m_vertices d = []).
  { unfold Deque.pop_front in Hp. by destruct (Deque.m_vertices d). }
  split; auto. intros u Hu Ha. destruct (decide (u ∈ VSet.m_vertices A)) as [|Hn]; [done|].
  specialize (Hcl u Hn Hu Ha). rewrite E in Hcl. by apply elem_of_nil in Hcl.
Qed.

Lemma attr_min_rank_loop_spec fuel g A0 A L d :
  same_graph g0 g -> min_rank_inv A0 A L d -> attr_trace g0 alpha A0 L -> considered_trace L ->
  loop_measure g0 A d < fuel ->
  exists A' L', attr_min_rank_loop fuel g A alpha U j compare d = Some (A', record_graph L' g) /\
    min_rank_result A0 A' (L ++ L').
Proof.
  revert g A L d. induction fuel as [|fuel IH]; intros g A L d Hsg Hinv HL Hc Hf; [lia|].
  cbn [attr_min_rank_loop]. destruct (Deque.pop_front d) as [[u d']|] eqn:Hp.
  2: { exists A, []. rewrite app_nil_r. split; [done|]. by eapply min_rank_inv_end. }
  pose proof (Deque.deque_pop_front_ok _ _ _ _ (mri_todo _ _ _ _ Hinv) Hp) as (Hd' & E & _ & Hlt).
  rewrite (sgr_decoration _ _ Hsg), (same_graph_includes _ _ _ _ Hsg),
    (same_graph_find _ _ _ _ Hsg).
  destruct (mri_todo_out _ _ _ _ Hinv u) as (Hgu & HuA & Hcu & v0 & Hv0 & HvA); [rewrite E; left|].
  pose proof (mri_A _ _ _ _ Hinv) as HA. destruct (_ || _) eqn:Ec.
  - destruct (find_successor_in_spec _ g0 u A v0 HA Hv0 HvA) as (v & -> & Hv & HvA').
    set (g1 := sg_set_strategy u (Some v) g).
    assert (Hsg1 : same_graph g0 g1) by (etransitivity; [exact Hsg|apply set_strategy_same_graph]).
    rewrite (sgr_predecessors _ _ Hsg1).
    pose proof (min_rank_inv_add A0 A L d u d' (Some v) Hinv Hp) as Hinv'. cbn zeta in Hinv'.
    assert (Er : forall w, rank_or_undefined compare g1 j w = rank_or_undefined compare g0 j w).
    { intros w. unfold rank_or_undefined. by rewrite (sgr_rank _ _ Hsg1), (sgr_decoration _ _ Hsg1). }
    rewrite (deque_filter_ext _ (fun w => VSet.contains U w && rank_or_undefined compare g0 j w &&
        negb (VSet.contains (VSet.insert A u) w))) by (intros w; by rewrite Er).
    destruct (IH g1 _ _ _ Hsg1 Hinv') as (A' & L' & -> & HR).
    + apply attr_trace_snoc; auto; rewrite <- (mri_split _ _ _ _ Hinv); [done|done|].
      apply orb_true_iff in Ec as [Ec|Ec]; [left; by apply Nat.eqb_eq|right].
      by apply (includes_successors_spec _ g0 u A HA).
    + by apply considered_trace_snoc.
    + unfold loop_measure in *. pose proof (min_rank_inv_length _ _ _ _ Hinv').
      pose proof (Deque.deque_ok_length _ _ (mri_todo _ _ _ _ Hinv')).
      rewrite (VSet.insert_fresh _ A u HA HuA), length_app in *. cbn [length] in *. nia.
    + exists A', ((u, Some v) :: L'). split; [done|]. by rewrite <- app_assoc in HR.
  - apply orb_false_iff in Ec as [Ec1 Ec2]. apply Nat.eqb_neq in Ec1.
    apply IH; auto; [by eapply min_rank_inv_skip|].
    unfold loop_measure in *. rewrite E in Hf. cbn in Hf. lia.
Qed.

Lemma attr_min_rank_generic_spec g A :
  same_graph g0 g -> VSet.ok m A -> (forall u, u ∈ VSet.m_vertices A -> in_graph g0 u) ->
  exists A' L, attr_min_rank_generic g A alpha U j compare = Some (A', record_graph L g) /\
    min_rank_result (VSet.m_vertices A) A' L.
Proof.
  intros Hsg HA Hin. unfold attr_min_rank_generic, attr_min_rank_todo_generic.
  pose proof (same_graph_ok _ _ Hsg Hg0) as Hg.
  destruct (predecessors_filter g (fun u => VSet.contains U u && compare (sg_rank g u) j &&
    negb (VSet.contains A u)) (VSet.m_vertices A) (Deque.make (sg_extent g)) Hg
    (Deque.deque_make_ok _)) as [H1 E1].
  set (d := foldl _ _ _) in *.
  assert (Ed : forall w, w ∈ Deque.m_vertices d <->
    (exists u, u ∈ VSet.m_vertices A /\ w ∈ sg_predecessors g0 u) /\
    VSet.contains U w = true /\ compare (sg_rank g0 w) j = true /\ w ∉ VSet.m_vertices A).
  { intros w. rewrite E1, !andb_true_iff, negb_true_iff, (VSet.contains_false m A w HA),
      (sgr_rank _ _ Hsg). setoid_rewrite (sgr_predecessors _ _ Hsg). cbn. set_solver. }
  rewrite (sgr_extent _ _ Hsg) in H1.
  destruct (attr_min_rank_loop_spec (attr_fuel g) g (VSet.m_vertices A) A [] d Hsg)
    as (A' & L & E & HR); [| | | |by exists A', L].
  - split; auto; [by rewrite app_nil_r| |].
    + intros u Hu. apply Ed in Hu as [(w & Hw & Hp) (HU & Hr & Hn)].
      pose proof (predecessors_in g0 Hg0 u w Hp). split; [done|]. split; [done|].
      split; [by split; [|left]|]. exists w. split; [by apply (edges_match g0 Hg0); auto|done].
    + intros u Hu [HU Hc] (Hgu & (v & Hv & HvA) & _). apply Ed. split; [|split; [done|]].
      * exists v. split; [done|]. apply (edges_match g0 Hg0); auto.
      * destruct Hc as [|[_ (w & _ & Hw)]]; [done|]. by apply elem_of_nil in Hw.
  - constructor.
  - intros L1 p L2 Eq. by destruct L1.
  - unfold loop_measure, attr_fuel. rewrite (sgr_extent _ _ Hsg).
    pose proof (Deque.deque_ok_length _ _ H1). nia.
Qed.

End Generic.

(** ** [attr_min_rank_original] *)

Section Original.
Context (g0 : G) (m alpha : nat) (U A : vertex_set) (j : N).
Hypothesis Hg0 : graph_ok g0.
Hypothesis Hm : sg_extent g0 <= m.
Hypothesis HA : VSet.ok m A.
Hypothesis HAin : forall u, u ∈ VSet.m_vertices A -> in_graph g0 u.

Definition in_either (X : list nat) (u : nat) : Prop := u ∈ VSet.m_vertices A \/ u ∈ X.

(** The strategy of a vertex outside [A] leads into [A] or to vertices that were
    added before it. *)
Definition ordered_strategies (g : G) (X : list nat) : Prop :=
  forall pre u post, X = pre ++ u :: post -> u ∉ VSet.m_vertices A ->
    exists w, sg_strategy g u = Some w /\ w ∈ sg_successors g0 u /\ in_either pre w /\
      (graph_owner g0 alpha u \/ forall x, x ∈ sg_successors g0 u -> in_either pre x).

Record original_inv (g : G) (X : vertex_set) (d : Deque.deque_vertex_set) : Prop := {
  oi_graph : same_graph g0 g;
  oi_X : VSet.ok m X;
  oi_todo : Deque.ok (sg_extent g0) d;
  oi_X_in : forall u, u ∈ VSet.m_vertices X ->
    rank_or_undefined greater_equal g0 j u = true /\
    attractable g0 alpha (in_either (VSet.m_vertices X)) u;
  oi_both : forall u, u ∈ VSet.m_vertices X -> u ∈ Deque.m_vertices d -> u ∈ VSet.m_vertices A;
  oi_order : ordered_strategies g (VSet.m_vertices X);
  oi_todo_in : forall u, u ∈ Deque.m_vertices d ->
    in_graph g0 u /\ rank_or_undefined greater_equal g0 j u = true /\
    exists v, v ∈ sg_successors g0 u /\ in_either (VSet.m_vertices X) v
}.

Lemma attractable_mono (P Q : nat -> Prop) u :
  (forall v, P v -> Q v) -> attractable g0 alpha P u -> attractable g0 alpha Q u.
Proof. intros HPQ (H1 & (v & Hv & HP) & H2). unfold attractable. naive_solver. Qed.

Lemma lazy_union_elem X u :
  VSet.ok m X -> vs_contains (mk_lazy_union A X) u = true <-> in_either (VSet.m_vertices X) u.
Proof.
  intros HX. unfold vs_contains, lazy_union_VertexSet, lazy_union_contains. cbn.
  by rewrite orb_true_iff, (VSet.contains_elem m A u HA), (VSet.contains_elem m X u HX).
Qed.

Lemma find_in_union X u v0 :
  VSet.ok m X -> v0 ∈ sg_successors g0 u -> in_either (VSet.m_vertices X) v0 ->
  exists v, find_successor_in g0 u (mk_lazy_union A X) = Some v /\
    v ∈ sg_successors g0 u /\ in_either (VSet.m_vertices X) v.
Proof.
  intros HX Hs Hv. unfold find_successor_in. destruct (List.find _ _) as [v|] eqn:E.
  - apply find_some in E as [E1 E2]. exists v. split; [done|].
    split; [by apply list_elem_of_In|by apply lazy_union_elem].
  - exfalso. apply list_elem_of_In in Hs. pose proof (find_none _ _ E v0 Hs) as Hf.
    apply (lazy_union_elem X v0 HX) in Hv. congruence.
Qed.

Lemma included_in_union X u :
  VSet.ok m X -> includes_successors g0 u (mk_lazy_union A X) = true ->
  forall v, v ∈ sg_successors g0 u -> in_either (VSet.m_vertices X) v.
Proof.
  intros HX. unfold includes_successors. rewrite forallb_forall. intros Hall v Hv.
  by apply lazy_union_elem, Hall, list_elem_of_In.
Qed.

(** The strategies after a vertex has been taken from the queue and added. *)
Lemma ordered_strategies_add g X u v :
  VSet.ok m X -> same_graph g0 g -> ordered_strategies g (VSet.m_vertices X) ->
  (u ∈ VSet.m_vertices X -> u ∈ VSet.m_vertices A) -> u < sg_extent g0 ->
  v ∈ sg_successors g0 u -> in_either (VSet.m_vertices X) v ->
  (graph_owner g0 alpha u \/ forall x, x ∈ sg_successors g0 u -> in_either (VSet.m_vertices X) x) ->
  ordered_strategies (sg_set_strategy u (Some v) g) (VSet.m_vertices (VSet.insert X u)).
Proof.
  intros HX Hs HO HuX Hu Hv HvX Hall.
  assert (Hst : forall w, sg_strategy (sg_set_strategy u (Some v) g) w =
    if decide (u = w) then Some v else sg_strategy g w).
  { intros w. apply strategy_set. by rewrite (sgr_extent _ _ Hs). }
  assert (Hold : forall pre w post, VSet.m_vertices X = pre ++ w :: post ->
    w ∉ VSet.m_vertices A -> u <> w).
  { intros pre w post E Hw ->. apply Hw, HuX. rewrite E. set_solver. }
  intros pre w post E Hw. rewrite Hst.
  destruct (decide (u ∈ VSet.m_vertices X)) as [HuX'|HuX'].
  - unfold VSet.insert in E. rewrite (proj1 (proj2 (proj2 HX) u) HuX') in E.
    rewrite decide_False by (by apply (Hold pre w post)). by apply (HO pre w post).
  - rewrite (VSet.insert_fresh m X u HX HuX') in E.
    destruct (decide (u = w)) as [->|Hne].
    + assert (pre = VSet.m_vertices X) as ->; [|by exists v].
      induction post as [|x post _] using rev_ind; [by apply app_inj_tail in E as [-> _]|].
      rewrite app_comm_cons, app_assoc in E. apply app_inj_tail in E as [E _].
      destruct HuX'. rewrite E. set_solver.
    + induction post as [|x post _] using rev_ind; [by apply app_inj_tail in E as [_ ->]|].
      rewrite app_comm_cons, app_assoc in E. apply app_inj_tail in E as [E _].
      by apply (HO pre w post).
Qed.

(** The queue after the predecessors of [u] have been inserted. *)
Definition original_todo (g : G) (X : vertex_set) (u : nat) (d : Deque.deque_vertex_set) :=
  foldl (fun todo v =>
      if VSet.contains U v && rank_or_undefined greater_equal g j v && negb (VSet.contains X v)
      then Deque.insert todo v else todo) d (sg_predecessors g u).

Lemma original_todo_spec g X u d :
  same_graph g0 g -> VSet.ok m X -> Deque.ok (sg_extent g0) d ->
  Deque.ok (sg_extent g0) (original_todo g X u d) /\
  forall w, w ∈ Deque.m_vertices (original_todo g X u d) <->
    w ∈ Deque.m_vertices d \/ (w ∈ sg_predecessors g0 u /\ VSet.contains U w = true /\
      rank_or_undefined greater_equal g0 j w = true /\ w ∉ VSet.m_vertices X).
Proof.
  intros Hs HX Hd. pose proof (same_graph_ok _ _ Hs Hg0) as Hg.
  rewrite <- (sgr_extent _ _ Hs) in Hd |- *.
  destruct (predecessor_filter g (fun v => VSet.contains U v &&
    rank_or_undefined greater_equal g j v && negb (VSet.contains X v)) u d Hg Hd) as [H1 E1].
  split; [exact H1|]. intros w. etransitivity; [apply E1|].
  rewrite !andb_true_iff, negb_true_iff, (VSet.contains_false m X w HX),
    (sgr_predecessors _ _ Hs). unfold rank_or_undefined.
  rewrite (sgr_rank _ _ Hs), (sgr_decoration _ _ Hs). tauto.
Qed.

Lemma original_inv_add g X d u d' v :
  original_inv g X d -> Deque.pop_front d = Some (u, d') ->
  v ∈ sg_successors g0 u -> in_either (VSet.m_vertices X) v ->
  (graph_owner g0 alpha u \/ forall x, x ∈ sg_successors g0 u -> in_either (VSet.m_vertices X) x) ->
  original_inv (sg_set_strategy u (Some v) g) (VSet.insert X u)
    (original_todo (sg_set_strategy u (Some v) g) (VSet.insert X u) u d').
Proof.
  intros [Hs HX Hd HXin Hboth Hord Hout] Hp Hv HvX Hall.
  destruct (Deque.deque_pop_front_ok _ _ _ _ Hd Hp) as (Hd' & E & Hnd & Hlt).
  assert (Hu : u ∈ Deque.m_vertices d) by (rewrite E; left).
  destruct (Hout u Hu) as (Hgu & Hru & _).
  assert (HX' : VSet.ok m (VSet.insert X u)) by (apply VSet.insert_ok; [done|lia]).
  pose proof (fun w => VSet.insert_elem _ X u w HX) as EX.
  assert (Hs' : same_graph g0 (sg_set_strategy u (Some v) g))
    by (etransitivity; [exact Hs|apply set_strategy_same_graph]).
  destruct (original_todo_spec _ (VSet.insert X u) u d' Hs' HX' Hd') as [H1 E1].
  assert (Hmono : forall w, in_either (VSet.m_vertices X) w ->
    in_either (VSet.m_vertices (VSet.insert X u)) w).
  { intros w. unfold in_either. rewrite EX. tauto. }
  split; auto.
  - intros w Hw. apply EX in Hw as [->|Hw].
    + split; [done|]. apply (attractable_mono (in_either (VSet.m_vertices X))); [done|].
      split; [done|]. split; [by exists v|done].
    + destruct (HXin w Hw) as [? Ha]. split; [done|]. by eapply attractable_mono.
  - intros w Hw Hd1. apply E1 in Hd1 as [Hd1|(_ & _ & _ & Hn)]; [|done].
    apply EX in Hw as [->|Hw]; [done|]. apply Hboth; [done|]. rewrite E. by right.
  - apply ordered_strategies_add; auto.
  - intros w Hw. apply E1 in Hw as [Hw|(Hw & _ & Hr & Hn)].
    + destruct (Hout w) as (? & ? & x & ? & ?); [rewrite E; by right|]. eauto 10.
    + pose proof (predecessors_in g0 Hg0 w u Hw) as Hgw. split; [done|]. split; [done|].
      exists u. split; [by apply (edges_match g0 Hg0)|]. right. rewrite EX. auto.
Qed.

(** The number of iterations still needed: a vertex that is in [X] and in the
    queue is in [A] and leaves the queue for good. *)
Definition in_both (X : vertex_set) (d : Deque.deque_vertex_set) : list nat :=
  filter (fun u => u ∈ VSet.m_vertices X) (Deque.m_vertices d).

Definition original_measure (X : vertex_set) (d : Deque.deque_vertex_set) : nat :=
  (sg_extent g0 - length (VSet.m_vertices X) + length (in_both X d)) * (sg_extent g0 + 1) +
  length (Deque.m_vertices d).

Lemma original_length g X d :
  original_inv g X d -> length (VSet.m_vertices X) <= sg_extent g0.
Proof.
  intros Hinv. apply NoDup_bounded_length; [apply (oi_X _ _ _ Hinv)|].
  intros u Hu. apply (oi_X_in _ _ _ Hinv u Hu).
Qed.

Lemma original_measure_add g g' X d u d' :
  original_inv g X d -> Deque.pop_front d = Some (u, d') -> same_graph g0 g' ->
  original_inv g' (VSet.insert X u) (original_todo g' (VSet.insert X u) u d') ->
  original_measure (VSet.insert X u) (original_todo g' (VSet.insert X u) u d') <
  original_measure X d.
Proof.
  intros Hinv Hp Hs Hinv'. pose proof (oi_todo _ _ _ Hinv) as Hd. pose proof (oi_X _ _ _ Hinv) as HX.
  destruct (Deque.deque_pop_front_ok _ _ _ _ Hd Hp) as (Hd' & E & Hnd & Hlt).
  assert (HX' : VSet.ok m (VSet.insert X u)) by (apply VSet.insert_ok; [done|lia]).
  destruct (original_todo_spec _ (VSet.insert X u) u d' Hs HX' Hd') as [H1 E1].
  set (d1 := original_todo _ _ _ _) in *.
  assert (Hsub : length (in_both (VSet.insert X u) d1) <= length (in_both X d')).
  { apply submseteq_length, NoDup_submseteq; [apply NoDup_filter, H1|]. intros w Hw.
    apply list_elem_of_filter in Hw as [HwX Hw]. apply list_elem_of_filter.
    apply E1 in Hw as [Hw|(_ & _ & _ & Hn)]; [|done]. split; [|done].
    apply (VSet.insert_elem m X u w HX) in HwX as [->|]; done. }
  pose proof (Deque.deque_ok_length _ _ H1) as Hl. pose proof (original_length _ _ _ Hinv').
  unfold original_measure, in_both in *. rewrite E, filter_cons.
  destruct (decide (u ∈ VSet.m_vertices X)) as [Hu|Hu].
  - assert (VSet.insert X u = X) as EX; [|rewrite EX in *; cbn [length] in *; nia].
    unfold VSet.insert. by rewrite (proj1 (proj2 (proj2 HX) u) Hu).
  - rewrite (VSet.insert_fresh m X u HX Hu), length_app in *. cbn [length] in *. nia.
Qed.

Lemma original_inv_skip g X d u d' :
  original_inv g X d -> Deque.pop_front d = Some (u, d') ->
  original_inv g X d' /\ original_measure X d' < original_measure X d.
Proof.
  intros [Hs HX Hd HXin Hboth Hord Hout] Hp.
  destruct (Deque.deque_pop_front_ok _ _ _ _ Hd Hp) as (Hd' & E & _ & _).
  assert (Hin : forall w, w ∈ Deque.m_vertices d' -> w ∈ Deque.m_vertices d)
    by (intros w Hw; rewrite E; by right).
  split; [split; auto|]. unfold original_measure, in_both. rewrite E, filter_cons.
  case_decide; cbn; nia.
Qed.

Lemma attr_min_rank_original_loop_spec fuel g X d :
  original_inv g X d -> original_measure X d < fuel ->
  exists Y g' d', attr_min_rank_original_loop fuel g A X alpha U j d = Some (Y, g') /\
    original_inv g' Y d'.
Proof.
  revert g X d. induction fuel as [|fuel IH]; intros g X d Hinv Hf; [lia|].
  cbn [attr_min_rank_original_loop]. destruct (Deque.pop_front d) as [[u d']|] eqn:Hp; [|by eauto].
  pose proof (oi_graph _ _ _ Hinv) as Hs. pose proof (oi_X _ _ _ Hinv) as HX.
  rewrite (sgr_decoration _ _ Hs), (same_graph_includes _ _ _ _ Hs), (same_graph_find _ _ _ _ Hs).
  destruct (original_inv_skip _ _ _ _ _ Hinv Hp) as [Hskip Hlt].
  destruct (_ || _) eqn:Ec; [|apply (IH g X d' Hskip); lia].
  pose proof (Deque.deque_pop_front_ok _ _ _ _ (oi_todo _ _ _ Hinv) Hp) as (_ & E & _ & _).
  destruct (oi_todo_in _ _ _ Hinv u) as (_ & _ & v0 & Hv0 & HvX); [rewrite E; left|].
  destruct (find_in_union X u v0 HX Hv0 HvX) as (v & -> & Hv & HvX').
  assert (Hinv' : original_inv (sg_set_strategy u (Some v) g) (VSet.insert X u)
    (original_todo (sg_set_strategy u (Some v) g) (VSet.insert X u) u d')).
  { apply (original_inv_add g X d u d' v Hinv Hp Hv HvX'). apply orb_true_iff in Ec.
    destruct Ec as [Ec|Ec]; [left; by apply Nat.eqb_eq|right]. by apply included_in_union. }
  pose proof (original_measure_add g _ X d u d' Hinv Hp (oi_graph _ _ _ Hinv') Hinv').
  apply (IH _ _ _ Hinv'). lia.
Qed.

Lemma attr_min_rank_original_start_spec g todo :
  same_graph g0 g -> (forall u, u ∈ Deque.m_vertices todo -> u < m) ->
  VSet.ok m (attr_min_rank_original_start g A alpha todo) /\
  forall u, u ∈ VSet.m_vertices (attr_min_rank_original_start g A alpha todo) <->
    u ∈ Deque.m_vertices todo /\ u ∈ VSet.m_vertices A /\
    (graph_owner g0 alpha u \/ includes_successors g0 u A = true).
Proof.
  intros Hs Ht. unfold attr_min_rank_original_start, VSet.extent. rewrite (proj1 HA).
  destruct (VSet.insert_if_loop m (fun u => VSet.contains A u &&
    ((decoration_value (sg_decoration g u) =? alpha) || includes_successors g u A))
    (Deque.m_vertices todo) (VSet.make m)) as [H1 E1]; [apply VSet.make_ok|done|].
  split; [exact H1|]. intros u. etransitivity; [apply E1|].
  rewrite andb_true_iff, orb_true_iff, Nat.eqb_eq, (VSet.contains_elem m A u HA),
    (sgr_decoration _ _ Hs), (same_graph_includes _ _ _ _ Hs). unfold graph_owner. cbn. set_solver.
Qed.

(** [attr_min_rank_original] ends; every vertex of the result is forced into
    [A] or the result in one step, has a suitable rank, and outside [A] a
    strategy that leads towards [A]. *)
Lemma attr_min_rank_original_spec g :
  same_graph g0 g ->
  exists Y g', attr_min_rank_original g A alpha U j = Some (Y, g') /\ same_graph g0 g' /\
    VSet.ok m Y /\ ordered_strategies g' (VSet.m_vertices Y) /\
    forall u, u ∈ VSet.m_vertices Y -> rank_or_undefined greater_equal g0 j u = true /\
      attractable g0 alpha (in_either (VSet.m_vertices Y)) u.
Proof.
  intros Hs. unfold attr_min_rank_original, attr_min_rank_original_todo.
  pose proof (same_graph_ok _ _ Hs Hg0) as Hg.
  destruct (predecessors_filter g (fun u => VSet.contains U u && greater_equal (sg_rank g u) j)
    (VSet.m_vertices A) (Deque.make (sg_extent g)) Hg (Deque.deque_make_ok _)) as [H1 E1].
  set (d := foldl _ _ _) in *. rewrite (sgr_extent _ _ Hs) in H1.
  assert (Ed : forall w, w ∈ Deque.m_vertices d -> in_graph g0 w /\
    rank_or_undefined greater_equal g0 j w = true /\
    exists u, u ∈ sg_successors g0 w /\ u ∈ VSet.m_vertices A).
  { intros w Hw. apply E1 in Hw as [Hw|[(u & Hu & Hw) Hc]]; [by apply elem_of_nil in Hw|].
    rewrite (sgr_predecessors _ _ Hs) in Hw. pose proof (predecessors_in g0 Hg0 w u Hw).
    split; [done|]. apply andb_true_iff in Hc as [_ Hc]. rewrite (sgr_rank _ _ Hs) in Hc.
    unfold rank_or_undefined. rewrite Hc. split; [done|]. exists u.
    split; [|done]. apply (edges_match g0 Hg0); auto. }
  destruct (attr_min_rank_original_start_spec g d Hs) as [HX EX].
  { intros u Hu. pose proof (Deque.deque_ok_lt _ _ _ H1 Hu). lia. }
  set (X := attr_min_rank_original_start g A alpha d) in *.
  assert (Hinv : original_inv g X d).
  { split; auto.
    - intros u Hu. apply EX in Hu as (Hd & HuA & Ho). destruct (Ed u Hd) as (? & ? & v & ? & ?).
      split; [done|]. split; [done|]. split; [exists v; split; [done|by left]|].
      destruct Ho as [|Ho]; [by left|right]. intros w Hw. left.
      by apply (includes_successors_spec m g0 u A HA).
    - intros u Hu _. by apply EX in Hu as (_ & ? & _).
    - intros pre u post E Hn. destruct Hn. apply (EX u). rewrite E. set_solver.
    - intros u Hu. destruct (Ed u Hu) as (? & ? & v & ? & ?). unfold in_either. eauto 10. }
  destruct (attr_min_rank_original_loop_spec (2 * attr_fuel g) g X d Hinv) as (Y & g' & d' & -> & HR).
  { unfold original_measure, attr_fuel. rewrite (sgr_extent _ _ Hs).
    pose proof (Deque.deque_ok_length _ _ H1). unfold in_both.
    pose proof (length_filter (fun u => u ∈ VSet.m_vertices X) (Deque.m_vertices d)). nia. }
  exists Y, g'. split; [done|]. split; [apply HR|]. split; [apply HR|]. split; apply HR.
Qed.

End Original.
End MinRank.
