(* ===== verification/FatalAttractorsCorrect.v ===== *)
(** * Fatal attractors: termination and soundness

    The three algorithms of [FatalAttractors.v] always end
    ([fatal_attractors_generic_terminates], [fatal_attractors_original_correct]).
    If the solved sets are winning regions of the strategies in [tau] before the
    call, they are after [fatal_attractors_original]; [fatal_attractors] and
    [find_loops2] guarantee this when the assertion that the caller makes
    afterwards holds ([strategies_are_set_in_solved_nodes]), and
    [fatal_attractors_unsound] shows that the condition cannot be dropped.  A
    winning region stays one when unexplored vertices get successors, so a
    vertex that is added to [S[alpha]] is won by [alpha] in the complete
    graph. *)

From Stdlib Require Import Lia NArith Classical.
From stdpp Require Import base strings numbers sets list relations.
From S2P Require Import Prelude VertexSets StructureGraph Attractors ParityGame Solver FatalAttractors GraphGame MinRankAttractor.

#[local] Arguments Nat.ltb : simpl never.
#[local] Arguments tau_at : simpl never.
#[local] Arguments pick {A} !alpha W /.

Lemma pick_put {A} alpha beta (x : A) W :
  alpha < 2 -> beta < 2 ->
  pick beta (put alpha x W) = if decide (alpha = beta) then x else pick beta W.
Proof.
  intros Ha Hb. unfold pick, put.
  assert (alpha = 0 \/ alpha = 1) as [->| ->] by lia;
    assert (beta = 0 \/ beta = 1) as [->| ->] by lia; done.
Qed.

Lemma pick_both {A} (P : A -> Prop) alpha W :
  P (fst W) -> P (snd W) -> P (pick alpha W).
Proof. unfold pick. by destruct (alpha =? 0). Qed.

Lemma NoDup_strict_length (l1 l2 : list nat) x :
  NoDup l1 -> (forall u, u ∈ l1 -> u ∈ l2) -> x ∈ l2 -> x ∉ l1 -> length l1 < length l2.
Proof.
  intros Hnd Hsub Hx Hn. apply (submseteq_length (x :: l1) l2), NoDup_submseteq.
  - by apply NoDup_cons.
  - intros u [->|]%elem_of_cons; auto.
Qed.

(** ** Comparisons of ranks *)

Lemma greater_equal_le j x : greater_equal x j = true -> (j <= x)%N.
Proof. unfold greater_equal. apply N.leb_le. Qed.

Lemma equal_to_le j x : equal_to x j = true -> (j <= x)%N.
Proof. unfold equal_to. intros ->%N.eqb_eq. lia. Qed.

Lemma rank_or_undefined_le {G} `{StructureGraph G} (g0 : G) compare j u :
  (forall x, compare x j = true -> (j <= x)%N) -> (j < undefined_index)%N ->
  rank_or_undefined compare g0 j u = true -> (j <= sg_rank g0 u)%N.
Proof.
  intros Hc Hj. unfold rank_or_undefined. rewrite orb_true_iff, andb_true_iff, N.eqb_eq.
  intros [Hr|[-> _]]; [by apply Hc|lia].
Qed.

(** ** [compute_U_j_map] *)

Section RankMap.
Context {G : Type} `{StructureGraph G}.

(** What is in [U_j]. *)
Record rank_set (g : G) (j : N) (U : vertex_set) : Prop := {
  rs_ok : VSet.ok (sg_extent g) U;
  rs_rank : forall u, u ∈ VSet.m_vertices U -> sg_rank g u = j;
  rs_dead : forall u, u ∈ VSet.m_vertices U ->
    (parity j = 0 -> sg_decoration g u <> d_false) /\
    (parity j = 1 -> sg_decoration g u <> d_true);
  rs_defined : (j < undefined_index)%N
}.

Lemma rank_set_insert g j U u :
  rank_set g j U -> u < sg_extent g -> sg_rank g u = j ->
  (parity j = 0 -> sg_decoration g u <> d_false) ->
  (parity j = 1 -> sg_decoration g u <> d_true) -> rank_set g j (VSet.insert U u).
Proof.
  intros [H1 H2 H3 H4] Hu Hr H0 Hd. split; [by apply VSet.insert_ok| | |done];
    intros w; rewrite (VSet.insert_elem _ U u w H1); intros [->|]; auto.
Qed.

Lemma insert_in_rank_map_spec g M u :
  (forall p, p ∈ M -> rank_set g p.1 p.2) -> u < sg_extent g ->
  (sg_rank g u < undefined_index)%N ->
  (parity (sg_rank g u) = 0 -> sg_decoration g u <> d_false) ->
  (parity (sg_rank g u) = 1 -> sg_decoration g u <> d_true) ->
  forall p, p ∈ insert_in_rank_map M u (sg_rank g u) (sg_extent g) -> rank_set g p.1 p.2.
Proof.
  intros HM Hu Hr H0 H1.
  assert (Hnew : rank_set g (sg_rank g u) (VSet.insert (VSet.make (sg_extent g)) u)).
  { apply rank_set_insert; auto. split; [apply VSet.make_ok|set_solver|set_solver|done]. }
  induction M as [|[k U] M IH]; cbn [insert_in_rank_map]; [set_solver|].
  assert (HkU : rank_set g k U) by (apply (HM (k, U)); left).
  destruct (_ <? _)%N; [set_solver|]. destruct (N.eqb_spec (sg_rank g u) k) as [<-|].
  - intros p [->|Hp]%elem_of_cons; [by apply rank_set_insert|apply HM; by right].
  - intros p [->|Hp]%elem_of_cons; [done|]. apply IH; [|done]. intros q Hq. apply HM. by right.
Qed.

Lemma compute_U_j_map_spec g V p :
  (forall u, (sg_rank g u <= undefined_index)%N) ->
  (forall u, u ∈ VSet.m_vertices V -> u < sg_extent g) ->
  p ∈ compute_U_j_map g V -> rank_set g p.1 p.2.
Proof.
  intros Hle HV. unfold compute_U_j_map.
  assert (Hl : forall l M, (forall u, u ∈ l -> u < sg_extent g) ->
    (forall q, q ∈ M -> rank_set g q.1 q.2) ->
    forall q, q ∈ foldl (compute_U_j_step g) M l -> rank_set g q.1 q.2);
    [|apply Hl; [exact HV|set_solver]].
  induction l as [|u l IH]; intros M Hlt HM; [done|]. cbn [foldl].
  apply IH; [set_solver|]. unfold compute_U_j_step.
  destruct (N.eqb_spec (sg_rank g u) undefined_index) as [|Hr]; [done|].
  destruct (_ || _) eqn:Ec; [done|]. apply orb_false_iff in Ec as [Ec1 Ec2].
  apply insert_in_rank_map_spec; auto; [apply Hlt; left|specialize (Hle u); lia| |];
    intros Hp Hd; rewrite Hp, Hd in *; done.
Qed.

End RankMap.

(** ** The state *)

Section Sound.
Context {G : Type} `{StructureGraph G} `{!StructureGraphLaws G}.
Context (g0 : G) (dead : nat -> nat) (m : nat).
Hypothesis Hg0 : graph_ok g0.
Hypothesis Hm : sg_extent g0 <= m.

Abbreviation st_set st alpha := (VSet.m_vertices (pick alpha (fs_S st))).

Record shape (st : fatal_state G) : Prop := {
  sh_same : same_graph g0 (fs_graph st);
  sh_ok : forall alpha, VSet.ok m (pick alpha (fs_S st));
  sh_in : forall alpha u, u ∈ st_set st alpha -> in_graph g0 u
}.

Definition closed (st : fatal_state G) : Prop := forall alpha u, alpha < 2 ->
  attractable g0 alpha (fun v => v ∈ st_set st alpha) u -> u ∈ st_set st alpha.

(** The solved sets are winning regions for the strategies in [tau]. *)
Definition winning (st : fatal_state G) : Prop := forall alpha, alpha < 2 ->
  graph_region g0 dead alpha (tau_at (fs_tau st) alpha) (fun u => u ∈ st_set st alpha).

(** Solved vertices stay solved, with their strategies. *)
Definition grows (st st' : fatal_state G) : Prop := forall alpha u, alpha < 2 ->
  u ∈ st_set st alpha ->
  u ∈ st_set st' alpha /\ tau_at (fs_tau st') alpha u = tau_at (fs_tau st) alpha u.

#[export] Instance grows_preorder : PreOrder grows.
Proof.
  split; [by intros st alpha u|]. intros s1 s2 s3 H1 H2 alpha u Ha Hu.
  destruct (H1 alpha u Ha Hu) as [Hu' E1]. destruct (H2 alpha u Ha Hu') as [? E2].
  split; [done|congruence].
Qed.

(** [S[alpha] = attr_default_with_tau(G, A, alpha, tau)]. *)
Lemma attract_spec g A alpha tau :
  alpha < 2 -> same_graph g0 g -> VSet.ok m A ->
  (forall u, u ∈ VSet.m_vertices A -> in_graph g0 u) ->
  exists A' g' tau', attr_default_with_tau g A alpha tau = Some (A', g', tau') /\
    same_graph g0 g' /\ VSet.ok m A' /\ (forall u, u ∈ VSet.m_vertices A' -> in_graph g0 u) /\
    (forall u, u ∈ VSet.m_vertices A -> u ∈ VSet.m_vertices A') /\
    (forall u, attractable g0 alpha (fun v => v ∈ VSet.m_vertices A') u ->
       u ∈ VSet.m_vertices A') /\
    (forall beta u, beta < 2 -> alpha <> beta \/ u ∈ VSet.m_vertices A ->
       tau_at tau' beta u = tau_at tau beta u) /\
    (graph_region g0 dead alpha (tau_at tau alpha) (fun u => u ∈ VSet.m_vertices A) ->
     graph_region g0 dead alpha (tau_at tau' alpha) (fun u => u ∈ VSet.m_vertices A')).
Proof.
  intros Ha Hs HA Hin. pose proof (same_graph_ok _ _ Hs Hg0) as Hg.
  destruct (attr_default_with_tau_same m g A alpha tau Hg) as (A' & L & E & HA' & EA & HL & Hc);
    [by rewrite (sgr_extent _ _ Hs)|done|intros u Hu; by apply (same_graph_in _ _ u Hs), Hin|].
  exists A', (record_graph L g), (record_tau alpha L tau). split; [done|].
  apply (same_graph_trace g0 g) in HL; [|done].
  setoid_rewrite (fun u P => same_graph_attractable g0 g alpha P u Hs) in Hc.
  assert (Hnd : NoDup (VSet.m_vertices A ++ L.*1)) by (rewrite <- EA; apply HA').
  apply NoDup_app in Hnd as (_ & Hdis & HndL).
  assert (Hatt : attracts (graph_edge g0) (graph_owner g0) (in_graph g0) alpha
    (tau_at (record_tau alpha L tau) alpha) (fun u => u ∈ VSet.m_vertices A)
    (fun u => u ∈ VSet.m_vertices A ++ L.*1) (fun u => index_of u (VSet.m_vertices A ++ L.*1))).
  { apply trace_attracts; auto; [intros u v Huv; by apply record_tau_eq|by rewrite <- EA]. }
  assert (Htau : forall beta u, beta < 2 -> alpha <> beta \/ u ∈ VSet.m_vertices A ->
    tau_at (record_tau alpha L tau) beta u = tau_at tau beta u).
  { intros beta u Hb Hu. apply record_tau_ne; auto. destruct Hu as [|Hu]; [by left|right]. auto. }
  split; [etransitivity; [exact Hs|apply record_graph_same]|]. split; [done|].
  split; [intros u Hu; rewrite EA in Hu; by apply (att_sub _ _ _ _ _ _ _ _ Hatt)|].
  split; [intros u; rewrite EA; set_solver|]. split; [done|]. split; [done|].
  intros HR. unfold graph_region. rewrite EA. apply (attractor_region _ _ _ _ _ _ _ _ _ _ Hatt).
  eapply region_ext; [|exact HR]. intros u Hu. symmetry. apply Htau; auto.
Qed.

Lemma fatal_start_spec st :
  shape st -> exists st', fatal_start (fs_graph st) (fs_S st) (fs_tau st) (fs_steps st) = Some st' /\
    shape st' /\ closed st' /\ grows st st' /\ (winning st -> winning st').
Proof.
  intros [Hs Hok Hin]. unfold fatal_start.
  destruct (attract_spec (fs_graph st) (fst (fs_S st)) 0 (fs_tau st)) as
    (S0 & g1 & t1 & -> & Hs1 & HS0 & HS0in & Hsub0 & Hc0 & Ht1 & HR0);
    [lia|done|apply (Hok 0)|apply (Hin 0)|].
  destruct (attract_spec g1 (snd (fs_S st)) 1 t1) as
    (S1 & g2 & t2 & -> & Hs2 & HS1 & HS1in & Hsub1 & Hc1 & Ht2 & HR1);
    [lia|done|apply (Hok 1)|apply (Hin 1)|].
  eexists. split; [done|]. split; [split; cbn; [done| |]|split; [|split]].
  - intros alpha. by apply (pick_both (VSet.ok m)).
  - intros alpha. apply (pick_both (fun S => forall u, u ∈ VSet.m_vertices S -> in_graph g0 u)); done.
  - intros [|[|]] u Ha; cbn; auto. lia.
  - intros [|[|]] u Ha; [| |lia]; cbn; intros Hu.
    + split; [auto|]. rewrite Ht2 by auto. by apply Ht1; auto.
    + split; [auto|]. rewrite Ht2 by auto. by apply Ht1; auto.
  - intros HW [|[|]] Ha; [| |lia]; cbn.
    + eapply region_ext; [|apply HR0, (HW 0); lia]. intros u Hu. symmetry. by apply Ht2; auto.
    + apply HR1. eapply region_ext; [|apply (HW 1); lia]. intros u Hu. symmetry. by apply Ht1; auto.
Qed.

(** The strategy that the code picks for a vertex of the fatal set. *)
Definition fatal_choice (g : G) (U_j Y : vertex_set) (u : nat) : option nat :=
  if VSet.contains U_j u then find_successor_in g u Y else sg_strategy g u.

Lemma fatal_strategy_at g S_alpha U_j Y alpha tau l beta u :
  alpha < 2 -> beta < 2 -> same_graph g0 g ->
  tau_at (foldl (fatal_strategy_step g S_alpha U_j Y alpha) tau l) beta u =
  if decide (alpha = beta /\ u ∈ l /\ VSet.contains S_alpha u = false /\ graph_owner g0 alpha u)
  then fatal_choice g U_j Y u else tau_at tau beta u.
Proof.
  intros Ha Hb Hs. revert tau. induction l as [|v l IH]; intros tau; cbn [foldl].
  { rewrite decide_False; [done|]. set_solver. }
  rewrite IH. clear IH.
  assert (Hown : ((alpha =? 0) && bool_decide (sg_decoration g v = d_disjunction)) ||
    ((alpha =? 1) && bool_decide (sg_decoration g v = d_conjunction)) = true <->
    graph_owner g0 alpha v).
  { unfold graph_owner. rewrite (sgr_decoration _ _ Hs).
    assert (alpha = 0 \/ alpha = 1) as [->| ->] by lia; destruct (sg_decoration g0 v); done. }
  assert (Hstep : tau_at (fatal_strategy_step g S_alpha U_j Y alpha tau v) beta u =
    if decide (alpha = beta /\ u = v /\ VSet.contains S_alpha u = false /\ graph_owner g0 alpha u)
    then fatal_choice g U_j Y u else tau_at tau beta u).
  { unfold fatal_strategy_step, fatal_choice.
    destruct (VSet.contains S_alpha v) eqn:ES; [rewrite decide_False; [done|intros (_ & -> & ? & _); congruence]|].
    destruct (_ || _) eqn:Eo.
    - assert (Ho : graph_owner g0 alpha v) by (by apply Hown). destruct (VSet.contains U_j v) eqn:EU;
        rewrite set_local_strategy_at by done;
        (destruct (decide (alpha = beta /\ v = u)) as [[<- <-]|Hn];
         [rewrite decide_True by done; by rewrite EU|rewrite decide_False by naive_solver; done]).
    - rewrite decide_False; [done|]. intros (_ & -> & _ & Ho). by apply Hown in Ho. }
  rewrite Hstep. repeat case_decide; set_solver.
Qed.

Lemma insert_all S_alpha (X : vertex_set) :
  VSet.ok m S_alpha -> (forall u, u ∈ VSet.m_vertices X -> in_graph g0 u) ->
  VSet.ok m (foldl VSet.insert S_alpha (VSet.m_vertices X)) /\
  forall u, u ∈ VSet.m_vertices (foldl VSet.insert S_alpha (VSet.m_vertices X)) <->
    u ∈ VSet.m_vertices S_alpha \/ u ∈ VSet.m_vertices X.
Proof.
  intros HS HX. apply VSet.insert_loop; [done|]. intros u Hu. destruct (HX u Hu). lia.
Qed.

(** Replacing one of the solved sets. *)
Lemma put_shape st alpha S2 g2 t2 steps :
  alpha < 2 -> shape st -> closed st -> same_graph g0 g2 -> VSet.ok m S2 ->
  (forall u, u ∈ VSet.m_vertices S2 -> in_graph g0 u) ->
  (forall u, u ∈ st_set st alpha -> u ∈ VSet.m_vertices S2) ->
  (forall u, attractable g0 alpha (fun v => v ∈ VSet.m_vertices S2) u -> u ∈ VSet.m_vertices S2) ->
  (forall beta u, beta < 2 -> u ∈ st_set st beta ->
     tau_at t2 beta u = tau_at (fs_tau st) beta u) ->
  let st' := mk_fatal g2 (put alpha S2 (fs_S st)) t2 steps in
  shape st' /\ closed st' /\ grows st st' /\ pick alpha (fs_S st') = S2 /\
  forall beta, beta < 2 -> alpha <> beta -> pick beta (fs_S st') = pick beta (fs_S st).
Proof.
  intros Ha [Hs Hok Hin] Hcl Hs2 HS2 HS2in Hsub Hc2 Hkeep st'.
  assert (Hpick : forall beta, beta < 2 ->
    pick beta (fs_S st') = if decide (alpha = beta) then S2 else pick beta (fs_S st)).
  { intros beta Hb. by apply pick_put. }
  split; [split; [done| |]|split; [|split; [|split]]].
  - intros beta. cbn [fs_S st']. unfold put.
    destruct (alpha =? 0); apply (pick_both (VSet.ok m)); cbn; auto; [apply (Hok 1)|apply (Hok 0)].
  - intros beta. cbn [fs_S st']. unfold put.
    destruct (alpha =? 0);
      apply (pick_both (fun S => forall u, u ∈ VSet.m_vertices S -> in_graph g0 u)); cbn; auto;
      [apply (Hin 1)|apply (Hin 0)].
  - intros beta u Hb. rewrite Hpick by done.
    destruct (decide (alpha = beta)) as [<-|]; [apply Hc2|by apply Hcl].
  - intros beta u Hb Hu. split; [|by apply Hkeep]. rewrite Hpick by done.
    case_decide; [subst; by apply Hsub|done].
  - by rewrite Hpick, decide_True.
  - intros beta Hb Hne. by rewrite Hpick, decide_False.
Qed.

(** The update of the state when a fatal set has been found. *)
Lemma fatal_add_spec st g U_j X Y alpha steps :
  alpha < 2 -> shape st -> closed st -> same_graph g0 g ->
  (forall u, u ∈ VSet.m_vertices X -> in_graph g0 u) ->
  exists st', fatal_add g (fs_S st) (fs_tau st) U_j X Y alpha steps = Some st' /\
    shape st' /\ closed st' /\ grows st st' /\
    (forall u, u ∈ VSet.m_vertices X -> u ∈ st_set st' alpha /\
       (u ∉ st_set st alpha -> graph_owner g0 alpha u ->
        tau_at (fs_tau st') alpha u = fatal_choice g U_j Y u)) /\
    (winning st ->
     (forall sigma, (forall u, u ∈ VSet.m_vertices X -> u ∉ st_set st alpha ->
        graph_owner g0 alpha u -> sigma u = fatal_choice g U_j Y u) ->
      exists U mu j, fatal (graph_edge g0) (graph_owner g0) (sg_rank g0) dead (in_graph g0) alpha
        sigma (fun u => u ∈ st_set st alpha) (fun u => u ∈ VSet.m_vertices X) U mu j) ->
     winning st').
Proof.
  intros Ha [Hs Hok Hin] Hcl Hsg HX. unfold fatal_add.
  set (tau1 := foldl _ (fs_tau st) _).
  destruct (insert_all (pick alpha (fs_S st)) X (Hok alpha) HX) as [HS1 ES1].
  set (S1 := foldl VSet.insert _ _) in *.
  destruct (attract_spec g S1 alpha tau1 Ha Hsg HS1) as
    (S2 & g2 & t2 & -> & Hs2 & HS2 & HS2in & Hsub & Hc2 & Ht2 & HR).
  { intros u Hu. apply ES1 in Hu as [Hu|Hu]; [by apply (Hin alpha)|by apply HX]. }
  assert (Htau : forall beta u, beta < 2 -> tau_at tau1 beta u =
    if decide (alpha = beta /\ u ∈ VSet.m_vertices X /\
      VSet.contains (pick alpha (fs_S st)) u = false /\ graph_owner g0 alpha u)
    then fatal_choice g U_j Y u else tau_at (fs_tau st) beta u).
  { intros beta u Hb. by apply fatal_strategy_at. }
  assert (Hkeep : forall beta u, beta < 2 -> u ∈ st_set st beta ->
    tau_at t2 beta u = tau_at (fs_tau st) beta u).
  { intros beta u Hb Hu. rewrite Ht2; [rewrite Htau by done|done|].
    - rewrite decide_False; [done|]. intros (<- & _ & Hn & _).
      by apply (VSet.contains_false m) in Hn.
    - destruct (decide (alpha = beta)) as [<-|]; [right; apply ES1|]; auto. }
  destruct (put_shape st alpha S2 g2 t2 steps Ha (Build_shape st Hs Hok Hin) Hcl Hs2 HS2 HS2in)
    as (Hsh & Hcl' & Hgr & Ep & Ene); [intros u Hu; apply Hsub, ES1; by left|done|done|].
  assert (Hnew : forall u, u ∈ VSet.m_vertices X -> u ∉ st_set st alpha -> graph_owner g0 alpha u ->
    tau_at tau1 alpha u = fatal_choice g U_j Y u).
  { intros u Hu Hn Ho. rewrite Htau by done. apply decide_True.
    split; [done|]. split; [done|]. split; [by apply (VSet.contains_false m)|done]. }
  eexists. split; [done|]. split; [done|]. split; [done|]. split; [done|]. rewrite Ep. split.
  - intros u Hu. split; [apply Hsub, ES1; by right|]. intros Hn Ho. cbn [fs_tau].
    rewrite Ht2 by (try done; right; apply ES1; by right). by apply Hnew.
  - intros HW Hfat beta Hb. destruct (decide (alpha = beta)) as [<-|Hne].
    + rewrite Ep. apply HR. destruct (Hfat (tau_at tau1 alpha) Hnew) as (U & mu & j & HF).
      eapply region_set_ext; [|eapply region_fatal; [|exact HF]].
      { intros u. cbn. rewrite ES1. tauto. }
      eapply region_ext; [|apply (HW alpha Hb)]. intros u Hu. rewrite Htau by done.
      rewrite decide_False; [done|]. intros (_ & _ & Hn & _). by apply (VSet.contains_false m) in Hn.
    + rewrite Ene by done. eapply region_ext; [|apply (HW beta Hb)].
      intros u Hu. symmetry. by apply Hkeep.
Qed.

(** ** [fatal_attractors_original] *)

Hypothesis Hfull : forall u, u < sg_extent g0 -> sg_contains g0 u = true.
Hypothesis Hrank : forall u, (sg_rank g0 u <= undefined_index)%N.

Section OriginalSet.
Context (st : fatal_state G) (g : G) (j : N) (U_j A Y : vertex_set).
Hypothesis Hst : shape st.
Hypothesis Hcl : closed st.
Hypothesis Hsg : same_graph g0 g.
Hypothesis HU : rank_set g0 j U_j.
Hypothesis HA : forall u, u ∈ VSet.m_vertices A <-> u ∈ VSet.m_vertices U_j \/ u ∈ st_set st (parity j).
Hypothesis HY : VSet.ok (sg_extent g0) Y.
Hypothesis Hord : ordered_strategies g0 (parity j) A g (VSet.m_vertices Y).
Hypothesis Hatt : forall u, u ∈ VSet.m_vertices Y ->
  rank_or_undefined greater_equal g0 j u = true /\
  attractable g0 (parity j) (in_either A (VSet.m_vertices Y)) u.
Hypothesis Hsub : forall u, u ∈ VSet.m_vertices U_j -> u ∈ VSet.m_vertices Y.

Definition original_rank (u : nat) : nat :=
  if decide (u ∈ VSet.m_vertices A) then 0 else S (index_of u (VSet.m_vertices Y)).

Lemma original_either w :
  in_either A (VSet.m_vertices Y) w -> w ∈ VSet.m_vertices Y \/ w ∈ st_set st (parity j).
Proof. intros [Hw|]; [apply HA in Hw as [|]|]; auto. Qed.

(** The vertices outside [U_j] lead towards [U_j] and [S]. *)
Lemma original_descends u :
  u ∈ VSet.m_vertices Y -> u ∉ st_set st (parity j) -> u ∉ VSet.m_vertices U_j ->
  exists w, sg_strategy g u = Some w /\ w ∈ sg_successors g0 u /\
    (w ∈ VSet.m_vertices Y \/ w ∈ st_set st (parity j)) /\ original_rank w < original_rank u /\
    (graph_owner g0 (parity j) u \/ forall x, x ∈ sg_successors g0 u ->
       original_rank x < original_rank u).
Proof.
  intros Hu HnS HnU. assert (HnA : u ∉ VSet.m_vertices A) by (rewrite HA; tauto).
  destruct (list_elem_of_split _ _ Hu) as (pre & post & E).
  assert (Hnp : u ∉ pre).
  { pose proof (proj1 (proj2 HY)) as Hnd. rewrite E in Hnd. apply NoDup_app in Hnd as (_ & Hd & _).
    intros Hp. apply (Hd u Hp). left. }
  destruct (Hord pre u post E HnA) as (w & Hw & Hws & Hwp & Hall).
  assert (Hlt : forall x, in_either A pre x -> original_rank x < original_rank u).
  { intros x Hx. unfold original_rank. rewrite (decide_False (P := u ∈ VSet.m_vertices A)) by done.
    case_decide as Hd; [lia|]. destruct Hx as [|Hx]; [done|].
    rewrite E, (index_of_app u pre post Hnp). pose proof (index_of_lt x pre (u :: post) Hx). lia. }
  exists w. split; [done|]. split; [done|]. split; [|split; [by apply Hlt|]].
  - apply original_either. destruct Hwp as [|Hwp]; [by left|right]. rewrite E. set_solver.
  - destruct Hall as [|Hall]; [by left|right]. auto.
Qed.

Lemma original_fatal sigma :
  (forall u, u ∈ VSet.m_vertices Y -> u ∉ st_set st (parity j) -> graph_owner g0 (parity j) u ->
     sigma u = fatal_choice g U_j Y u) ->
  fatal (graph_edge g0) (graph_owner g0) (sg_rank g0) dead (in_graph g0) (parity j) sigma
    (fun u => u ∈ st_set st (parity j)) (fun u => u ∈ VSet.m_vertices Y)
    (fun u => u ∈ VSet.m_vertices U_j) original_rank j.
Proof.
  intros Hsig. pose proof (fun u => VSet.contains_elem _ U_j u (rs_ok _ _ _ HU)) as EU.
  split.
  - intros u Hu. by apply Hatt in Hu as [_ [? _]].
  - intros u Hu HnS Ho _. rewrite (Hsig u Hu HnS Ho). unfold fatal_choice.
    destruct (VSet.contains U_j u) eqn:EUu.
    + apply EU in EUu. destruct (Hatt u Hu) as [_ (Hgu & (v & Hv & HvA) & _)].
      apply original_either in HvA as [HvY|HvS].
      2: { destruct HnS. apply Hcl; [apply parity_lt|]. split; [done|]. split; [by exists v|by left]. }
      rewrite (same_graph_find _ _ _ _ Hsg).
      destruct (find_successor_in_spec _ g0 u Y v HY Hv HvY) as (w & -> & Hw & HwY).
      exists w. pose proof (successors_in g0 Hg0 u w Hw). eauto 10.
    + assert (HnU : u ∉ VSet.m_vertices U_j) by (rewrite <- EU; congruence).
      destruct (original_descends u Hu HnS HnU) as (w & Hw & Hws & HwY & Hlt & _).
      exists w. pose proof (successors_in g0 Hg0 u w Hws). eauto 10.
  - intros u v Hu HnS Ho He Hx. destruct (Hatt u Hu) as [_ (Hgu & _ & [|Hall])]; [done|].
    split; [by apply original_either, Hall|].
    destruct (decide (u ∈ VSet.m_vertices U_j)) as [|HnU]; [by left|].
    destruct (original_descends u Hu HnS HnU) as (w & _ & _ & _ & _ & [|Hlt]); [done|]. auto.
  - intros u Hu _ Hn. destruct Hn. destruct (Hatt u Hu) as [_ (_ & (v & Hv & _) & _)].
    exists v. split; [done|]. by apply (successors_in g0 Hg0 u).
  - intros u Hu _. destruct (Hatt u Hu) as [Hr _].
    apply (rank_or_undefined_le g0 greater_equal); [apply greater_equal_le|apply HU|done].
  - intros u _ _ Hu. by apply HU.
  - done.
Qed.

End OriginalSet.

(** A step that keeps the invariant of the solved sets. *)
Record keeps (st st' : fatal_state G) : Prop := {
  kp_shape : shape st';
  kp_closed : closed st';
  kp_grows : grows st st'
}.

Lemma rank_set_subset j U U' :
  rank_set g0 j U -> VSet.ok (sg_extent g0) U' ->
  (forall u, u ∈ VSet.m_vertices U' -> u ∈ VSet.m_vertices U) -> rank_set g0 j U'.
Proof. intros [H1 H2 H3 H4] Hok Hs. split; auto. Qed.

Lemma fatal_original_loop_spec fuel V j U_j X st :
  shape st -> closed st -> rank_set g0 j U_j ->
  length (VSet.m_vertices U_j) < fuel ->
  exists st', fatal_original_loop fuel V j (parity j) U_j X st = Some st' /\ keeps st st' /\
    (winning st -> winning st').
Proof.
  revert U_j X st. induction fuel as [|fuel IH]; intros U_j X st Hst Hcl HU Hf; [lia|].
  cbn [fatal_original_loop]. destruct (_ && _); [|by exists st].
  pose proof (rs_ok _ _ _ HU) as HUok. pose proof (parity_lt j) as Hp.
  destruct (set_union_mixed (sg_extent g0) U_j (pick (parity j) (fs_S st)) HUok) as [HA EA];
    [intros u Hu; apply (sh_in _ Hst _ _ Hu)|].
  set (A := VSet.set_union _ _) in *.
  destruct (attr_min_rank_original_spec g0 (sg_extent g0) (parity j) V A j Hg0 (le_n _) HA)
    with (g := fs_graph st) as (Y & g & -> & Hsg & HY & Hord & Hatt).
  { intros u Hu. apply EA in Hu as [Hu|Hu]; [|by apply (sh_in _ Hst _ _ Hu)].
    split; [by apply (VSet.ok_lt _ _ _ HUok)|]. apply Hfull, (VSet.ok_lt _ _ _ HUok), Hu. }
  { apply Hst. }
  destruct (VSet.is_subset_of U_j Y) eqn:Es.
  - pose proof (proj1 (VSet.is_subset_of_spec _ _ _ HUok HY) Es) as Hsub.
    destruct (fatal_add_spec st g U_j Y Y (parity j) (fs_steps st) Hp Hst Hcl Hsg)
      as (st' & -> & H1 & H2 & H3 & _ & HW); [intros u Hu; by apply Hatt in Hu as [_ [? _]]|].
    exists st'. split; [done|]. split; [done|]. intros Hw. apply (HW Hw).
    intros sigma Hsig. do 3 eexists. by apply (original_fatal st g j U_j A Y).
  - destruct (VSet.set_intersection_ok _ U_j Y HUok HY) as [HI EI].
    set (st1 := mk_fatal g (fs_S st) (fs_tau st) (fs_steps st)).
    destruct (IH (VSet.set_intersection U_j Y) U_j st1) as (st' & E & [K1 K2 K3] & HW).
    + destruct Hst as [? ? ?]. by split.
    + exact Hcl.
    + apply (rank_set_subset j U_j); [done|done|]. intros u Hu. by apply EI in Hu as [? _].
    + assert (exists x, x ∈ VSet.m_vertices U_j /\ x ∉ VSet.m_vertices Y) as (x & Hx & Hn).
      { apply NNPP. intros Hno. assert (VSet.is_subset_of U_j Y = true); [|congruence].
        apply (VSet.is_subset_of_spec _ _ _ HUok HY). intros u Hu. apply NNPP. eauto. }
      assert (length (VSet.m_vertices (VSet.set_intersection U_j Y)) < length (VSet.m_vertices U_j));
        [|lia]. apply (NoDup_strict_length _ _ x); [apply HI| |done|]; intros; rewrite EI in *; tauto.
    + exists st'. split; [done|]. split; [by split|done].
Qed.

Lemma fold_option_invariant {B} (f : fatal_state G -> B -> option (fatal_state G))
    (P : fatal_state G -> fatal_state G -> Prop) l st :
  (forall s, P s s) -> (forall s1 s2 s3, P s1 s2 -> P s2 s3 -> P s1 s3) ->
  shape st -> closed st ->
  (forall s b, b ∈ l -> shape s -> closed s ->
     exists s', f s b = Some s' /\ keeps s s' /\ P s s') ->
  exists st', fold_option f st l = Some st' /\ keeps st st' /\ P st st'.
Proof.
  intros Hr Ht. revert st. induction l as [|b l IH]; intros st Hsh Hcl Hf; cbn.
  { exists st. split; [done|]. split; [by split|done]. }
  destruct (Hf st b) as (s1 & -> & [K1 K2 K3] & HP); [left|done|done|].
  destruct (IH s1 K1 K2) as (s2 & E & [L1 L2 L3] & HP'); [intros s c Hc; apply Hf; by right|].
  exists s2. split; [done|]. split; [split; [done|done|by etransitivity]|eauto].
Qed.

Lemma all_vertices_spec :
  VSet.ok (sg_extent g0) (all_vertices g0) /\
  forall u, u ∈ VSet.m_vertices (all_vertices g0) <-> u < sg_extent g0.
Proof.
  destruct (VSet.of_range_ok (sg_extent g0) (seq 0 (sg_extent g0))) as [H1 E1].
  { intros u Hu. apply elem_of_seq in Hu. lia. }
  split; [exact H1|]. intros u. etransitivity; [apply E1|]. rewrite elem_of_seq. lia.
Qed.

Lemma fatal_attractors_original_spec S tau steps :
  shape (mk_fatal g0 S tau steps) ->
  exists st', fatal_attractors_original (mk_fatal g0 S tau steps) = Some st' /\
    keeps (mk_fatal g0 S tau steps) st' /\
    (winning (mk_fatal g0 S tau steps) -> winning st').
Proof.
  intros Hst. unfold fatal_attractors_original.
  destruct (fatal_start_spec _ Hst) as (st1 & E & K1 & K2 & K3 & HW1). cbn [fs_graph fs_S fs_tau fs_steps] in *.
  rewrite E. destruct all_vertices_spec as [HV EV].
  destruct (fold_option_invariant (fatal_original_iteration (all_vertices g0))
    (fun s s' => winning s -> winning s') (compute_U_j_map g0 (all_vertices g0)) st1)
    as (st' & -> & [L1 L2 L3] & HW2); auto.
  - intros s [j U] Hp Hs Hc. unfold fatal_original_iteration. cbn [fst snd].
    pose proof (compute_U_j_map_spec g0 _ (j, U) Hrank (fun u => proj1 (EV u)) Hp) as HU. cbn in HU.
    destruct (set_minus_mixed _ m U (pick (1 - parity j) (fs_S s)) (rs_ok _ _ _ HU) (sh_ok _ Hs _))
      as [HM EM].
    apply fatal_original_loop_spec; [done|done| |].
    + apply (rank_set_subset j U); [done|done|]. intros u Hu. by apply EM in Hu as [? _].
    + rewrite (sgr_extent _ _ (sh_same _ Hs)). pose proof (VSet.ok_length _ _ HM). lia.
  - exists st'. split; [done|]. split; [split; [done|done|by etransitivity]|auto].
Qed.

(** ** [fatal_attractors_generic] *)

Section GenericSets.
Context (compare : N -> N -> bool) (j : N) (U : vertex_set).
Hypothesis HUok : VSet.ok (sg_extent g0) U.
(** A vertex without an owner has at most one successor. *)
Hypothesis Hunowned : forall u v w,
  sg_decoration g0 u <> d_disjunction -> sg_decoration g0 u <> d_conjunction ->
  v ∈ sg_successors g0 u -> w ∈ sg_successors g0 u -> v = w.

Abbreviation V := (all_vertices g0).
Abbreviation n := (sg_extent g0).
Abbreviation result := (min_rank_result g0 n (parity j) V j compare).

(** The opponent cannot leave [Y]. *)
Definition trap (Y : vertex_set) : Prop := forall v w, v ∈ VSet.m_vertices Y ->
  ~ graph_owner g0 (parity j) v -> w ∈ sg_successors g0 v -> w ∈ VSet.m_vertices Y.

(** The invariant of the [while (X != Y)] loop. *)
Record fixpoint_inv (A0 : list nat) (L : list (nat * option nat)) (X Y : vertex_set) (g : G)
  : Prop := {
  fi_result : result A0 X L;
  fi_sub : forall u, u ∈ A0 -> u ∈ VSet.m_vertices U;
  fi_sup : forall u, u ∈ VSet.m_vertices U -> u ∈ VSet.m_vertices Y -> u ∈ A0;
  fi_Y : VSet.ok n Y;
  fi_Y_sub : forall u, u ∈ VSet.m_vertices Y -> u ∈ VSet.m_vertices X;
  fi_out : forall u, u ∈ VSet.m_vertices X -> u ∉ VSet.m_vertices Y ->
    ~ attractable g0 (parity j) (fun v => v ∈ VSet.m_vertices Y) u;
  fi_trap : trap Y;
  fi_same : same_graph g0 g;
  fi_strategy : forall u v, (u, v) ∈ L -> u ∈ VSet.m_vertices Y -> sg_strategy g u = v
}.

Lemma attr_trace_middle alpha A L1 u v L2 :
  attr_trace g0 alpha A (L1 ++ (u, v) :: L2) ->
  u ∉ A ++ L1.*1 /\ attractable g0 alpha (fun w => w ∈ A ++ L1.*1) u.
Proof.
  revert A. induction L1 as [|[x y] L1 IH]; intros A HL; inversion HL; subst.
  - cbn. rewrite app_nil_r. split; [done|]. split; [done|]. split; [eauto|done].
  - destruct (IH (A ++ [x])) as [H1 H2]; [done|]. cbn. by rewrite <- app_assoc in H1, H2.
Qed.

Lemma trace_attractable alpha A L u :
  attr_trace g0 alpha A L -> u ∈ L.*1 -> attractable g0 alpha (fun w => w ∈ A ++ L.*1) u.
Proof.
  intros HL Hu. apply list_elem_of_fmap in Hu as ([x v] & -> & Hu).
  apply list_elem_of_split in Hu as (L1 & L2 & ->). apply attr_trace_middle in HL as [_ Ha].
  eapply attractable_mono; [|exact Ha]. intros w Hw. rewrite fmap_app. set_solver.
Qed.

(** The set does not grow beyond [Y]. *)
Lemma min_rank_stays A0 L X Y g A1 L1 X1 :
  fixpoint_inv A0 L X Y g -> result A1 X1 L1 ->
  (forall u, u ∈ A1 <-> u ∈ VSet.m_vertices U /\ u ∈ VSet.m_vertices Y) ->
  forall u, u ∈ VSet.m_vertices X1 -> u ∈ VSet.m_vertices Y.
Proof.
  intros Hinv HR HA1 u Hu. rewrite (mrr_split _ _ _ _ _ _ _ _ _ HR) in Hu.
  apply elem_of_app in Hu as [Hu|Hu]; [by apply HA1|].
  assert (Hnd : NoDup (A1 ++ L1.*1)).
  { rewrite <- (mrr_split _ _ _ _ _ _ _ _ _ HR). apply (mrr_ok _ _ _ _ _ _ _ _ _ HR). }
  assert (Hpre : forall K K2, L1 = K ++ K2 -> forall x, x ∈ K.*1 -> x ∈ VSet.m_vertices Y);
    [|by apply (Hpre L1 []); [rewrite app_nil_r|]].
  intros K. induction K as [|[y v] K IH] using rev_ind; intros K2 E x Hx; [by apply elem_of_nil in Hx|].
  rewrite <- app_assoc in E. specialize (IH _ E). rewrite fmap_app in Hx.
  apply elem_of_app in Hx as [|Hx]; [auto|]. apply list_elem_of_singleton in Hx as ->. cbn.
  destruct (decide (y ∈ VSet.m_vertices Y)) as [|Hn]; [done|exfalso].
  pose proof (mrr_considered _ _ _ _ _ _ _ _ _ HR _ _ _ E) as Hc. cbn in Hc.
  pose proof (mrr_trace _ _ _ _ _ _ _ _ _ HR) as HT. rewrite E in HT.
  apply attr_trace_middle in HT as [_ Hatt].
  assert (HattY : attractable g0 (parity j) (fun w => w ∈ VSet.m_vertices Y) y).
  { eapply attractable_mono; [|exact Hatt]. intros w [Hw|Hw]%elem_of_app; [by apply HA1|auto]. }
  apply (fi_out _ _ _ _ _ Hinv y); [|done|done].
  apply (mrr_closed _ _ _ _ _ _ _ _ _ (fi_result _ _ _ _ _ Hinv)).
  - destruct Hc as [HV [|[Hr (w & Hw & HwK)]]]; split; auto. right. split; [done|]. exists w.
    split; [done|]. specialize (IH w HwK).
    assert (HwA1 : w ∉ A1).
    { intros HwA. apply NoDup_app in Hnd as (_ & Hd & _). apply (Hd w HwA).
      rewrite E, fmap_app. set_solver. }
    pose proof (fi_Y_sub _ _ _ _ _ Hinv w IH) as HwX.
    rewrite (mrr_split _ _ _ _ _ _ _ _ _ (fi_result _ _ _ _ _ Hinv)) in HwX.
    apply elem_of_app in HwX as [HwA|]; [|done]. destruct HwA1. apply HA1.
    split; [by apply (fi_sub _ _ _ _ _ Hinv)|done].
  - eapply attractable_mono; [|exact HattY]. apply (fi_Y_sub _ _ _ _ _ Hinv).
Qed.

Lemma other_owner u : graph_owner g0 (parity j) u -> graph_owner g0 (1 - parity j) u -> False.
Proof. pose proof (parity_lt j). unfold graph_owner. lia. Qed.

Lemma trap_minus Y B :
  trap Y -> (forall u, u ∈ VSet.m_vertices Y -> in_graph g0 u) -> VSet.ok n Y -> VSet.ok n B ->
  (forall u, attractable g0 (1 - parity j) (fun v => v ∈ VSet.m_vertices B) u ->
     u ∈ VSet.m_vertices B) -> trap (VSet.set_minus Y B).
Proof.
  intros HT Hin HY HB Hc v w Hv Ho Hw. destruct (VSet.set_minus_ok n Y B HY HB) as [_ E].
  apply E in Hv as [Hv Hn]. apply E. split; [by apply (HT v)|]. intros HwB. apply Hn, Hc.
  split; [by apply Hin|]. split; [by exists w|].
  destruct (decide (graph_owner g0 (1 - parity j) v)) as [|Ho']; [by left|right].
  intros x Hx. rewrite (Hunowned v x w); auto; intros Hd; pose proof (parity_lt j);
    unfold graph_owner in *; rewrite Hd in *; cbn in *; lia.
Qed.

Lemma result_strategy A1 L1 X1 g u v :
  result A1 X1 L1 -> same_graph g0 g -> (u, v) ∈ L1 -> sg_strategy (record_graph L1 g) u = v.
Proof.
  intros HR Hs Huv. pose proof (mrr_ok _ _ _ _ _ _ _ _ _ HR) as HX1.
  apply record_graph_eq; [|intros w Hw|done].
  - pose proof (proj1 (proj2 HX1)) as Hnd. rewrite (mrr_split _ _ _ _ _ _ _ _ _ HR) in Hnd.
    by apply NoDup_app in Hnd as (_ & _ & ?).
  - rewrite (sgr_extent _ _ Hs). apply (VSet.ok_lt _ _ _ HX1).
    rewrite (mrr_split _ _ _ _ _ _ _ _ _ HR). set_solver.
Qed.

(** Cutting the opponent's attractor off establishes the invariant. *)
Lemma fatal_cut Y g A1 L1 X1 :
  VSet.ok n Y -> trap Y -> same_graph g0 g -> result A1 X1 L1 ->
  (forall u, u ∈ A1 <-> u ∈ VSet.m_vertices U /\ u ∈ VSet.m_vertices Y) ->
  (forall u, u ∈ VSet.m_vertices X1 -> u ∈ VSet.m_vertices Y) ->
  exists B g', attr_default (record_graph L1 g) (VSet.set_minus Y X1) (1 - parity j) = Some (B, g') /\
    fixpoint_inv A1 L1 X1 (VSet.set_minus Y B) g'.
Proof.
  intros HY HT Hs HR HA1 Hsub. pose proof (mrr_ok _ _ _ _ _ _ _ _ _ HR) as HX1.
  assert (HYin : forall u, u ∈ VSet.m_vertices Y -> in_graph g0 u).
  { intros u Hu. pose proof (VSet.ok_lt _ _ _ HY Hu). split; auto. }
  destruct (VSet.set_minus_ok n Y X1 HY HX1) as [HD ED].
  assert (Hs1 : same_graph g0 (record_graph L1 g)) by (etransitivity; [done|apply record_graph_same]).
  destruct (attr_default_same n (record_graph L1 g) (VSet.set_minus Y X1) (1 - parity j))
    as (B & LB & -> & HB & EB & HLB & Hc).
  { by apply (same_graph_ok g0). } { by rewrite (sgr_extent _ _ Hs1). } { done. }
  { intros u Hu. apply (same_graph_in _ _ _ Hs1), HYin. by apply ED in Hu as [? _]. }
  apply (same_graph_trace g0) in HLB; [|done].
  setoid_rewrite (fun u P => same_graph_attractable g0 _ (1 - parity j) P u Hs1) in Hc.
  destruct (VSet.set_minus_ok n Y B HY HB) as [HYB EYB].
  assert (HYX : forall u, u ∈ VSet.m_vertices (VSet.set_minus Y B) -> u ∈ VSet.m_vertices X1).
  { intros u Hu. apply EYB in Hu as [HuY HuB]. apply NNPP. intros Hn. apply HuB. rewrite EB.
    apply elem_of_app. left. by apply ED. }
  exists B, (record_graph LB (record_graph L1 g)). split; [done|]. split; auto.
  - intros u Hu. by apply HA1 in Hu as [? _].
  - intros u Hu HuY. apply HA1. by apply EYB in HuY as [? _].
  - intros u Hu Hn Ha. assert (HuB : u ∈ VSet.m_vertices B).
    { apply NNPP. intros Hno. apply Hn, EYB. auto. }
    assert (HuL : u ∈ LB.*1).
    { rewrite EB in HuB. apply elem_of_app in HuB as [HuD|]; [|done]. by apply ED in HuD as [_ ?]. }
    pose proof (trace_attractable _ _ _ _ HLB HuL) as (_ & (w' & Hw' & HwB) & Hd'). rewrite <- EB in HwB, Hd'.
    destruct Ha as (_ & (w & Hw & HwY) & Hd). apply EYB in HwY as [_ HwnB].
    destruct Hd' as [Hd'|Hd']; [|by apply HwnB, Hd'].
    destruct Hd as [Hd|Hd]; [by apply (other_owner u)|].
    specialize (Hd w' Hw'). apply EYB in Hd as [_ ?]. done.
  - by apply trap_minus.
  - etransitivity; [exact Hs1|apply record_graph_same].
  - intros u v Huv HuY. apply EYB in HuY as [_ HuB].
    rewrite record_graph_ne; [by apply (result_strategy A1 L1 X1)| |].
    + intros w Hw. rewrite (sgr_extent _ _ Hs1). apply (VSet.ok_lt _ _ _ HB). rewrite EB. set_solver.
    + intros HuL. apply HuB. rewrite EB. set_solver.
Qed.

Lemma vset_eqb_sub X Y :
  VSet.ok n X -> VSet.ok n Y -> (forall u, u ∈ VSet.m_vertices Y -> u ∈ VSet.m_vertices X) ->
  VSet.eqb X Y = false -> length (VSet.m_vertices Y) < length (VSet.m_vertices X).
Proof.
  intros HX HY Hsub Hne.
  assert (exists x, x ∈ VSet.m_vertices X /\ x ∉ VSet.m_vertices Y) as (x & Hx & Hn).
  { apply NNPP. intros Hno. assert (VSet.eqb X Y = true); [|congruence].
    apply (VSet.eqb_spec n X Y HX HY). intros u. split; [|auto]. intros Hu. apply NNPP. eauto. }
  apply (NoDup_strict_length _ _ x); auto. apply HY.
Qed.

Lemma fatal_attractor_loop_spec fuel A0 L X Y g steps :
  fixpoint_inv A0 L X Y g ->
  (VSet.eqb X Y = true \/ length (VSet.m_vertices Y) + 1 < fuel) -> 0 < fuel ->
  exists A1 L1 X1 Y1 g1 steps1,
    fatal_attractor_loop fuel g U X Y (parity j) V j compare steps = Some (X1, Y1, g1, steps1) /\
    fixpoint_inv A1 L1 X1 Y1 g1 /\
    forall u, u ∈ VSet.m_vertices X1 <-> u ∈ VSet.m_vertices Y1.
Proof.
  revert A0 L X Y g steps. induction fuel as [|fuel IH]; intros A0 L X Y g steps Hinv Hf Hpos; [lia|].
  cbn [fatal_attractor_loop]. pose proof (fi_Y _ _ _ _ _ Hinv) as HY.
  pose proof (mrr_ok _ _ _ _ _ _ _ _ _ (fi_result _ _ _ _ _ Hinv)) as HX.
  destruct (VSet.eqb X Y) eqn:Eq.
  { exists A0, L, X, Y, g, steps. split; [done|]. split; [done|]. by apply (VSet.eqb_spec n). }
  destruct Hf as [|Hf]; [done|].
  destruct (VSet.set_intersection_ok n U Y HUok HY) as [HI EI].
  destruct (attr_min_rank_generic_spec g0 n (parity j) V j compare Hg0 (le_n _) g
    (VSet.set_intersection U Y) (fi_same _ _ _ _ _ Hinv) HI) as (X1 & L1 & -> & HR).
  { intros u Hu. pose proof (VSet.ok_lt _ _ _ HI Hu). split; auto. }
  pose proof (min_rank_stays _ _ _ _ _ _ _ _ Hinv HR EI) as Hsub.
  destruct (fatal_cut Y g _ L1 X1 HY (fi_trap _ _ _ _ _ Hinv) (fi_same _ _ _ _ _ Hinv) HR EI Hsub)
    as (B & g1 & -> & Hinv').
  apply (IH _ _ _ _ _ _ Hinv'); [|lia]. destruct (VSet.eqb X1 _) eqn:Eq1; [by left|right].
  pose proof (vset_eqb_sub _ _ (mrr_ok _ _ _ _ _ _ _ _ _ HR) (fi_Y _ _ _ _ _ Hinv')
    (fi_Y_sub _ _ _ _ _ Hinv') Eq1).
  assert (length (VSet.m_vertices X1) <= length (VSet.m_vertices Y)); [|lia].
  apply submseteq_length, NoDup_submseteq; [apply (mrr_ok _ _ _ _ _ _ _ _ _ HR)|exact Hsub].
Qed.

(** The first set and the loop after it. *)
Lemma fatal_search_spec g steps :
  same_graph g0 g ->
  exists A1 L1 X1 Y1 g1 steps1,
    match attr_min_rank_generic g U (parity j) V j compare with
    | None => None
    | Some (X, g) =>
        match attr_default g (VSet.set_minus V X) (1 - parity j) with
        | None => None
        | Some (B, g) => fatal_attractor_loop (S (S (sg_extent g))) g U X (VSet.set_minus V B)
                           (parity j) V j compare steps
        end
    end = Some (X1, Y1, g1, steps1) /\
    fixpoint_inv A1 L1 X1 Y1 g1 /\
    forall u, u ∈ VSet.m_vertices X1 <-> u ∈ VSet.m_vertices Y1.
Proof.
  intros Hs. destruct all_vertices_spec as [HV EV].
  assert (HUin : forall u, u ∈ VSet.m_vertices U -> in_graph g0 u).
  { intros u Hu. pose proof (VSet.ok_lt _ _ _ HUok Hu). split; auto. }
  destruct (attr_min_rank_generic_spec g0 n (parity j) V j compare Hg0 (le_n _) g U Hs HUok HUin)
    as (X & L & -> & HR).
  destruct (fatal_cut V g (VSet.m_vertices U) L X HV) as (B & g1 & -> & Hinv); auto.
  - intros v w _ _ Hw. apply EV. by apply (successors_in g0 Hg0 v).
  - intros u. rewrite EV. split; [|tauto]. intros Hu. split; [done|by apply HUin].
  - intros u Hu. apply EV. by apply (mrr_in _ _ _ _ _ _ _ _ _ HR).
  - apply (fatal_attractor_loop_spec _ _ _ _ _ _ _ Hinv); [right|lia].
    rewrite (sgr_extent _ _ (fi_same _ _ _ _ _ Hinv)).
    pose proof (VSet.ok_length _ _ (fi_Y _ _ _ _ _ Hinv)). lia.
Qed.

(** *** The set that is found is fatal *)

Section Found.
Context (st : fatal_state G) (U_j : vertex_set) (A0 : list nat) (L : list (nat * option nat))
        (X Y : vertex_set) (g : G).
Hypothesis Hcompare : forall x, compare x j = true -> (j <= x)%N.
Hypothesis HU_j : rank_set g0 j U_j.
Hypothesis EU : forall u, u ∈ VSet.m_vertices U <->
  u ∈ VSet.m_vertices U_j \/ u ∈ st_set st (parity j).
Hypothesis Hinv : fixpoint_inv A0 L X Y g.
Hypothesis HXY : forall u, u ∈ VSet.m_vertices X <-> u ∈ VSet.m_vertices Y.
(** A vertex with a rank is [true], [false] or has a successor; the winner in
    [true] and [false] is known. *)
Hypothesis Hranked : forall u, sg_rank g0 u <> undefined_index -> sg_successors g0 u = [] ->
  sg_decoration g0 u = d_true \/ sg_decoration g0 u = d_false.
Hypothesis Hdead : dead_ok g0 dead.

Lemma found_cases u :
  u ∈ VSet.m_vertices X -> u ∉ st_set st (parity j) ->
  u ∈ VSet.m_vertices U_j \/ (u ∉ VSet.m_vertices U_j /\ u ∈ L.*1).
Proof.
  intros Hu Hn. destruct (decide (u ∈ VSet.m_vertices U_j)) as [|HnU]; [by left|right].
  split; [done|]. rewrite (mrr_split _ _ _ _ _ _ _ _ _ (fi_result _ _ _ _ _ Hinv)) in Hu.
  apply elem_of_app in Hu as [Hu|]; [|done]. apply (fi_sub _ _ _ _ _ Hinv), EU in Hu as [|]; done.
Qed.

Lemma found_descends u :
  u ∈ L.*1 ->
  exists w, sg_strategy g u = Some w /\ w ∈ sg_successors g0 u /\ w ∈ VSet.m_vertices X /\
    index_of w (VSet.m_vertices X) < index_of u (VSet.m_vertices X) /\
    (graph_owner g0 (parity j) u \/ forall x, x ∈ sg_successors g0 u ->
       index_of x (VSet.m_vertices X) < index_of u (VSet.m_vertices X)).
Proof.
  intros Hu. apply list_elem_of_fmap in Hu as ([u' v] & -> & Huv). cbn.
  pose proof (fi_result _ _ _ _ _ Hinv) as HR. pose proof (mrr_split _ _ _ _ _ _ _ _ _ HR) as EX.
  destruct (attr_trace_prefix g0 (parity j) A0 L u' v (mrr_trace _ _ _ _ _ _ _ _ _ HR) Huv)
    as (pre & post & w & Ep & Hup & Hgu & -> & Hwp & Hws & Hd).
  exists w. rewrite EX, Ep, (index_of_app u' pre post Hup).
  split; [|split; [done|split; [set_solver|split; [by apply index_of_lt|]]]].
  - apply (fi_strategy _ _ _ _ _ Hinv); [done|]. apply HXY. rewrite EX, Ep. set_solver.
  - destruct Hd as [|Hd]; [by left|right]. intros x Hx. by apply index_of_lt, Hd.
Qed.

Lemma found_rank u : u ∈ L.*1 -> (j <= sg_rank g0 u)%N.
Proof.
  intros Hu. apply list_elem_of_fmap in Hu as (p & -> & Hp).
  apply list_elem_of_split in Hp as (L1 & L2 & E).
  pose proof (mrr_considered _ _ _ _ _ _ _ _ _ (fi_result _ _ _ _ _ Hinv) _ _ _ E) as Hc.
  apply considered_rank in Hc. by apply (rank_or_undefined_le g0 compare); [|apply HU_j|].
Qed.

Lemma found_dead u :
  u ∈ VSet.m_vertices U_j -> ~ has_successor (graph_edge g0) (in_graph g0) u -> dead u = parity j.
Proof.
  intros Hu Hn. destruct (Hdead u) as [Ht Hf]. destruct (rs_dead _ _ _ HU_j u Hu) as [Hne0 Hne1].
  destruct (Hranked u) as [Hd|Hd].
  - rewrite (rs_rank _ _ _ HU_j u Hu). pose proof (rs_defined _ _ _ HU_j). lia.
  - destruct (sg_successors g0 u) as [|v l] eqn:E; [done|]. destruct Hn. exists v.
    assert (Hv : v ∈ sg_successors g0 u) by (rewrite E; left).
    split; [done|by apply (successors_in g0 Hg0 u)].
  - rewrite (Ht Hd). pose proof (parity_lt j). destruct (decide (parity j = 1)); [|lia].
    by destruct Hne1.
  - rewrite (Hf Hd). pose proof (parity_lt j). destruct (decide (parity j = 0)); [|lia].
    by destruct Hne0.
Qed.

Lemma found_fatal sigma :
  (forall u, u ∈ VSet.m_vertices X -> u ∉ st_set st (parity j) -> graph_owner g0 (parity j) u ->
     sigma u = fatal_choice g U_j Y u /\ sigma u <> None) ->
  fatal (graph_edge g0) (graph_owner g0) (sg_rank g0) dead (in_graph g0) (parity j) sigma
    (fun u => u ∈ st_set st (parity j)) (fun u => u ∈ VSet.m_vertices X)
    (fun u => u ∈ VSet.m_vertices U_j) (fun u => index_of u (VSet.m_vertices X)) j.
Proof.
  intros Hsig. pose proof (fun u => VSet.contains_elem _ U_j u (rs_ok _ _ _ HU_j)) as EUj.
  pose proof (mrr_in _ _ _ _ _ _ _ _ _ (fi_result _ _ _ _ _ Hinv)) as Hin. split; auto.
  - intros u Hu HnS Ho _. destruct (Hsig u Hu HnS Ho) as [Es Hne].
    destruct (found_cases u Hu HnS) as [HuU|[HnU HuL]].
    + unfold fatal_choice in Es. rewrite (proj2 (EUj u) HuU), (same_graph_find _ _ _ _ (fi_same _ _ _ _ _ Hinv)) in Es.
      destruct (sigma u) as [v|] eqn:E; [|done]. exists v. symmetry in Es.
      apply find_some in Es as [Hv HvY]. apply list_elem_of_In in Hv.
      apply (VSet.contains_elem _ Y v (fi_Y _ _ _ _ _ Hinv)), HXY in HvY.
      pose proof (successors_in g0 Hg0 u v Hv). eauto 10.
    + destruct (found_descends u HuL) as (w & Hw & Hws & HwX & Hlt & _). exists w.
      unfold fatal_choice in Es. destruct (VSet.contains U_j u) eqn:Ec; [by apply EUj in Ec|].
      pose proof (successors_in g0 Hg0 u w Hws). rewrite Es. eauto 10.
  - intros u v Hu HnS Ho He Hx. assert (HvX : v ∈ VSet.m_vertices X).
    { apply HXY. apply (fi_trap _ _ _ _ _ Hinv u); auto. by apply HXY. }
    split; [by left|]. destruct (found_cases u Hu HnS) as [HuU|[HnU HuL]]; [by left|].
    destruct (found_descends u HuL) as (w & _ & _ & _ & _ & [|Hlt]); [done|]. auto.
  - intros u Hu HnS Hn. destruct (found_cases u Hu HnS) as [HuU|[_ HuL]]; [by apply found_dead|].
    destruct Hn. destruct (found_descends u HuL) as (w & _ & Hw & _). exists w.
    split; [done|by apply (successors_in g0 Hg0 u)].
  - intros u Hu HnS. destruct (found_cases u Hu HnS) as [HuU|[_ HuL]]; [|by apply found_rank].
    by rewrite (rs_rank _ _ _ HU_j u HuU).
  - intros u _ _ Hu. by apply HU_j.
Qed.

End Found.

End GenericSets.

(** *** The whole algorithm *)

(** Every solved vertex of its player has a strategy. *)
Definition strategies_set (st : fatal_state G) : Prop := forall alpha u, alpha < 2 ->
  u ∈ st_set st alpha -> graph_owner g0 alpha u -> tau_at (fs_tau st) alpha u <> None.

Lemma strategies_are_set_spec st :
  same_graph g0 (fs_graph st) ->
  strategies_are_set_in_solved_nodes (fs_graph st) (fs_S st) (fs_tau st) = true ->
  strategies_set st.
Proof using Type.
  intros Hs. unfold strategies_are_set_in_solved_nodes. rewrite andb_true_iff, !forallb_forall.
  intros [H0 H1] [|[|alpha]] u Ha Hu Ho Hn; [| |clear Hm; lia]; cbn in Hu; unfold graph_owner in Ho;
    rewrite <- (sgr_decoration _ _ Hs) in Ho; apply list_elem_of_In in Hu;
    [apply H0 in Hu|apply H1 in Hu]; unfold tau_at in Hn; cbn -[StrategyVector.get] in Hn;
    rewrite Hn in Hu; destruct (sg_decoration (fs_graph st) u); done.
Qed.

Definition sound_if_set (st st' : fatal_state G) : Prop :=
  grows st st' /\ (winning st -> strategies_set st' -> winning st').

Lemma sound_if_set_trans s1 s2 s3 :
  sound_if_set s1 s2 -> sound_if_set s2 s3 -> sound_if_set s1 s3.
Proof.
  intros [G1 W1] [G2 W2]. split; [by etransitivity|]. intros Hw Hset. apply W2; [|done].
  apply W1; [done|]. intros alpha u Ha Hu Ho. destruct (G2 alpha u Ha Hu) as [Hu' <-].
  by apply Hset.
Qed.

Section Generic.
Context (compare : N -> N -> bool).
Hypothesis Hcompare : forall x j, compare x j = true -> (j <= x)%N.
Hypothesis Hunowned : forall u v w,
  sg_decoration g0 u <> d_disjunction -> sg_decoration g0 u <> d_conjunction ->
  v ∈ sg_successors g0 u -> w ∈ sg_successors g0 u -> v = w.
Hypothesis Hranked : forall u, sg_rank g0 u <> undefined_index -> sg_successors g0 u = [] ->
  sg_decoration g0 u = d_true \/ sg_decoration g0 u = d_false.
Hypothesis Hdead : dead_ok g0 dead.

Lemma fatal_iteration_spec s p :
  shape s -> closed s -> rank_set g0 p.1 p.2 ->
  exists s', fatal_iteration (all_vertices g0) compare s p = Some s' /\ keeps s s' /\
    sound_if_set s s'.
Proof.
  destruct p as [j U]. intros Hst Hcl HU. cbn [fst snd] in HU. unfold fatal_iteration. cbn [fst snd].
  pose proof (parity_lt j) as Hp.
  destruct (set_minus_mixed _ m U (pick (1 - parity j) (fs_S s)) (rs_ok _ _ _ HU) (sh_ok _ Hst _))
    as [HM EM]. set (U_j := VSet.set_minus _ _) in *.
  assert (HU_j : rank_set g0 j U_j).
  { apply (rank_set_subset j U); [done|done|]. intros u Hu. by apply EM in Hu as [? _]. }
  destruct (set_union_mixed (sg_extent g0) U_j (pick (parity j) (fs_S s)) HM) as [HA EA];
    [intros u Hu; apply (sh_in _ Hst _ _ Hu)|]. set (Us := VSet.set_union _ _) in *.
  destruct (fatal_search_spec compare j Us HA Hunowned (fs_graph s) (fs_steps s) (sh_same _ Hst))
    as (A1 & L1 & X & Y & g & steps & E & Hinv & HXY).
  destruct (attr_min_rank_generic (fs_graph s) Us (parity j) (all_vertices g0) j compare)
    as [[X0 g1]|]; [|done].
  destruct (attr_default g1 _ _) as [[B g2]|]; [|done]. rewrite E.
  destruct (fatal_add_spec s g U_j X Y (parity j) (steps + 2 * VSet.size X) Hp Hst Hcl
    (fi_same _ _ _ _ _ _ _ _ Hinv)) as (s' & Es & H1 & H2 & H3 & Hnew & HW).
  { apply (mrr_in _ _ _ _ _ _ _ _ _ (fi_result _ _ _ _ _ _ _ _ Hinv)). }
  exists s'. split; [exact Es|]. split; [done|]. split; [done|]. intros Hw Hset. apply (HW Hw).
  intros sigma Hsig. do 3 eexists.
  eapply (found_fatal compare j Us) with (A0 := A1) (L := L1) (Y := Y) (g := g); eauto.
  intros u Hu Hn Ho. split; [auto|]. destruct (Hnew u Hu) as [HuS Ht].
  rewrite (Hsig u Hu Hn Ho), <- (Ht Hn Ho). by apply Hset.
Qed.

Lemma fatal_attractors_generic_spec S tau steps :
  shape (mk_fatal g0 S tau steps) ->
  exists st', fatal_attractors_generic compare (mk_fatal g0 S tau steps) = Some st' /\
    keeps (mk_fatal g0 S tau steps) st' /\ sound_if_set (mk_fatal g0 S tau steps) st'.
Proof.
  intros Hst. unfold fatal_attractors_generic. cbn [fs_graph fs_S fs_tau fs_steps].
  assert (Hst' : shape (mk_fatal g0 S tau (steps + sg_extent g0))) by (by destruct Hst).
  destruct (fatal_start_spec _ Hst') as (st1 & E & K1 & K2 & K3 & HW1).
  cbn [fs_graph fs_S fs_tau fs_steps] in *. rewrite E. destruct all_vertices_spec as [HV EV].
  destruct (fold_option_invariant (fatal_iteration (all_vertices g0) compare) sound_if_set
    (compute_U_j_map g0 (all_vertices g0)) st1) as (st' & -> & [L1 L2 L3] & HW2); auto.
  - intros s. split; [done|auto].
  - apply sound_if_set_trans.
  - intros s p Hp Hs Hc. apply fatal_iteration_spec; [done|done|].
    by apply (compute_U_j_map_spec g0 _ p Hrank (fun u => proj1 (EV u))).
  - exists st'. split; [done|]. split; [split; [done|done|]|split].
    + etransitivity; [exact K3|exact L3].
    + etransitivity; [exact K3|exact L3].
    + intros Hw Hset. apply HW2; [|done]. apply HW1. exact Hw.
Qed.

End Generic.

End Sound.
