(* ===== verification/FatalTheorems.v ===== *)
(** * Partial solving with fatal attractors: the theorems

    The properties of the three algorithms of [pbesinst_fatal_attractors.h] on
    the graphs that occur while a PBES is being instantiated, and the graph on
    which [fatal_attractors] gives a vertex to the wrong player. *)

From Stdlib Require Import Lia NArith Classical.
From stdpp Require Import base strings numbers sets list relations.
From S2P Require Import Prelude VertexSets StructureGraph Attractors ParityGame Solver Arena SolverTheorems FatalAttractors GraphGame MinRankAttractor FatalAttractorsCorrect.

#[local] Arguments tau_at : simpl never.

Section Theorems.
Context {G : Type} `{StructureGraph G} `{!StructureGraphLaws G}.

(** A partially built graph: well-formed edges, no excluded vertices, ranks that
    fit a [std::size_t], at most one successor for a vertex without an owner;
    a vertex that has its rank (that is, has been explored) has successors,
    unless it is [true] or [false]. *)
Record partial_graph (g : G) : Prop := {
  pg_ok : graph_ok g;
  pg_full : forall u, u < sg_extent g -> sg_contains g u = true;
  pg_rank : forall u, (sg_rank g u <= undefined_index)%N;
  pg_unowned : forall u v w,
    sg_decoration g u <> d_disjunction -> sg_decoration g u <> d_conjunction ->
    v ∈ sg_successors g u -> w ∈ sg_successors g u -> v = w;
  pg_ranked : forall u, sg_rank g u <> undefined_index -> sg_successors g u = [] ->
    sg_decoration g u = d_true \/ sg_decoration g u = d_false
}.

(** The sets fit the graph: both have an extent [m] that is at least that of the
    graph, and contain vertices of the graph only. *)
Definition sets_fit (g : G) (m : nat) (S : vertex_set * vertex_set) : Prop :=
  sg_extent g <= m /\ forall alpha, VSet.ok m (pick alpha S) /\
    forall u, u ∈ VSet.m_vertices (pick alpha S) -> u < sg_extent g.

(** Each solved set is a winning region of its player for the strategies in
    [tau]. *)
Definition solved_regions (g : G) (dead : nat -> nat) (S : vertex_set * vertex_set)
    (tau : strategies) : Prop :=
  forall alpha, alpha < 2 ->
    graph_region g dead alpha (tau_at tau alpha) (fun u => u ∈ VSet.m_vertices (pick alpha S)).

(** What a partial solver returns: only the strategies in the graph have
    changed, the sets fit, and what was solved stays solved with the same
    strategy. *)
Record extends (g : G) (m : nat) (S : vertex_set * vertex_set) (tau : strategies)
    (st : fatal_state G) : Prop := {
  ex_graph : same_graph g (fs_graph st);
  ex_fit : sets_fit g m (fs_S st);
  ex_grows : forall alpha u, alpha < 2 -> u ∈ VSet.m_vertices (pick alpha S) ->
    u ∈ VSet.m_vertices (pick alpha (fs_S st)) /\
    tau_at (fs_tau st) alpha u = tau_at tau alpha u;
  ex_closed : forall alpha u, alpha < 2 ->
    attractable g alpha (fun v => v ∈ VSet.m_vertices (pick alpha (fs_S st))) u ->
    u ∈ VSet.m_vertices (pick alpha (fs_S st))
}.

Lemma sets_fit_shape g m S tau steps :
  partial_graph g -> sets_fit g m S -> shape g m (mk_fatal g S tau steps).
Proof.
  intros Hg [Hm HS]. split; [done|apply HS|]. intros alpha u Hu.
  assert (u < sg_extent g) by (by apply (HS alpha)). split; [done|by apply pg_full].
Qed.

Lemma keeps_extends g m S tau steps st :
  sets_fit g m S -> keeps g m (mk_fatal g S tau steps) st -> extends g m S tau st.
Proof.
  intros [Hm _] [[H1 H2 H3] H4 H5]. split; [done| |exact H5|exact H4].
  split; [done|]. intros alpha. split; [done|]. intros u Hu. by apply (H3 alpha).
Qed.

(** C21: [fatal_attractors_original] always returns, changes nothing of the graph
    but the strategies and keeps what was solved; when the solved sets are
    winning regions of the strategies in [tau] before the call, whatever
    unexplored vertices turn out to be ([dead]), they are after the call, so
    that every vertex of [S[alpha]] is won by [alpha] with [tau[alpha]]. *)
Theorem fatal_attractors_original_correct g m S tau steps :
  partial_graph g -> sets_fit g m S ->
  exists st, fatal_attractors_original (mk_fatal g S tau steps) = Some st /\
    extends g m S tau st /\
    forall dead, solved_regions g dead S tau ->
      solved_regions g dead (fs_S st) (fs_tau st) /\
      forall alpha u, alpha < 2 -> u ∈ VSet.m_vertices (pick alpha (fs_S st)) ->
        graph_wins g dead alpha (tau_at (fs_tau st) alpha) u.
Proof.
  intros Hg HS. pose proof (sets_fit_shape g m S tau steps Hg HS) as Hsh.
  destruct (fatal_attractors_original_spec g (fun _ => 0) m) with (S := S) (tau := tau)
    (steps := steps) as (st & E & HK & _); try apply Hg; [apply HS|done|].
  exists st. split; [done|]. split; [by eapply keeps_extends|]. intros dead HR.
  destruct (fatal_attractors_original_spec g dead m) with (S := S) (tau := tau)
    (steps := steps) as (st' & E' & _ & HW); try apply Hg; [apply HS|done|].
  assert (st' = st) as -> by congruence. specialize (HW HR). split; [exact HW|].
  intros alpha u Ha Hu. by apply (graph_region_wins g dead alpha _ _ u (HW alpha Ha)).
Qed.

(** C22: [fatal_attractors] and [find_loops2] always return: the iteration of [X]
    and [Y] reaches a fixed point for every rank.  They keep what was solved;
    and if the assertion [strategies_are_set_in_solved_nodes], which follows the
    call, holds, then winning regions stay winning regions. *)
Theorem fatal_attractors_correct g m S tau steps f :
  f = fatal_attractors \/ f = find_loops2 -> partial_graph g -> sets_fit g m S ->
  exists st, f (mk_fatal g S tau steps) = Some st /\ extends g m S tau st /\
    forall dead, dead_ok g dead -> solved_regions g dead S tau ->
      strategies_are_set_in_solved_nodes (fs_graph st) (fs_S st) (fs_tau st) = true ->
      solved_regions g dead (fs_S st) (fs_tau st) /\
      forall alpha u, alpha < 2 -> u ∈ VSet.m_vertices (pick alpha (fs_S st)) ->
        graph_wins g dead alpha (tau_at (fs_tau st) alpha) u.
Proof.
  intros Hf Hg HS. pose proof (sets_fit_shape g m S tau steps Hg HS) as Hsh.
  assert (exists compare, f = fatal_attractors_generic compare /\
    forall x j, compare x j = true -> (j <= x)%N) as (compare & -> & Hc).
  { destruct Hf as [-> | ->]; [exists greater_equal|exists equal_to]; split; auto; intros x j.
    - apply greater_equal_le.
    - apply equal_to_le. }
  pose (d0 := fun u => match sg_decoration g u with d_false => 1 | _ => 0 end).
  destruct (fatal_attractors_generic_spec g d0 m) with (compare := compare) (S := S) (tau := tau)
    (steps := steps) as (st & E & HK & _); try apply Hg; auto; [apply HS| |].
  { intros u. unfold d0. by split; intros ->. }
  exists st. split; [done|]. split; [by eapply keeps_extends|]. intros dead Hd HR Hset.
  destruct (fatal_attractors_generic_spec g dead m) with (compare := compare) (S := S) (tau := tau)
    (steps := steps) as (st' & E' & HK' & _ & HW); try apply Hg; auto; [apply HS|].
  assert (st' = st) as -> by congruence.
  apply strategies_are_set_spec with (g0 := g) in Hset; [|eapply sh_same, kp_shape, HK].
  specialize (HW HR Hset). split; [exact HW|].
  intros alpha u Ha Hu. by apply (graph_region_wins g dead alpha _ _ u (HW alpha Ha)).
Qed.

(** Both theorems apply to empty solved sets. *)
Lemma empty_fit g m : sg_extent g <= m -> sets_fit g m (VSet.make m, VSet.make m).
Proof.
  split; [done|]. intros alpha.
  apply (pick_both (fun V => VSet.ok m V /\ forall u, u ∈ VSet.m_vertices V -> u < sg_extent g));
    cbn; (split; [apply VSet.make_ok|intros u Hu; by apply elem_of_nil in Hu]).
Qed.

Lemma empty_regions g dead n tau : solved_regions g dead (VSet.make n, VSet.make n) tau.
Proof.
  intros alpha _. apply region_empty. intros u.
  apply (pick_both (fun V => u ∉ VSet.m_vertices V)); cbn; apply not_elem_of_nil.
Qed.

End Theorems.

(** ** Simple structure graphs *)

Section Simple.
Context {pbes_expression : Type}.
Implicit Types G : SSG.simple_structure_graph pbes_expression.

(** The same vertices as a [structure_graph] from which nothing is excluded. *)
Definition plain G : SG.structure_graph pbes_expression :=
  SG.mk_graph (SSG.m_vertices G) 0 (bitset_empty (length (SSG.m_vertices G))).

Definition ranked_b G : bool :=
  on_vertices (plain G) (fun u => (SSG.rank G u =? undefined_index)%N ||
    negb (bool_decide (SSG.successors G u = [])) || is_constant (SSG.decoration G u)).

Lemma simple_partial_graph G :
  valid_b (plain G) = true -> ranked_b G = true -> partial_graph G.
Proof.
  intros Hv%valid_b_sound Hr. pose proof (valid_ok _ Hv) as Hok.
  assert (Hp : forall u v, u ∈ SSG.predecessors G v <-> v ∈ SSG.successors G u).
  { intros u v. apply (SG.all_edges_match _ Hok). }
  assert (Hs : forall u v, v ∈ SSG.successors G u -> u < SSG.extent G /\ v < SSG.extent G).
  { intros u v Huv. split; [|by apply (SG.all_successors_in _ Hok u)].
    apply Hp in Huv. by apply (SG.all_predecessors_in (plain G) u v Hok). }
  split; cbn; [split| | | |]; cbn; unfold in_graph; cbn; auto.
  - intros u v Huv. split; [by apply (Hs u)|done].
  - intros u v Huv. apply Hp in Huv. split; [by apply (Hs u v)|done].
  - apply (valid_rank _ Hv).
  - apply (valid_unowned _ Hv).
  - intros u Hu Hn. destruct (decide (u < SSG.extent G)) as [Hlt|Hge].
    + pose proof (on_vertices_spec (plain G) _ u Hr Hlt) as H. cbn beta in H.
      rewrite !orb_true_iff, N.eqb_eq, negb_true_iff, bool_decide_eq_false in H.
      destruct H as [[?|?]|H]; [done|done|by apply is_constant_spec].
    + by destruct (outside_vertex (plain G) u Hge) as (_ & _ & _ & E).
Qed.

End Simple.

(** ** Examples *)

Definition otf_vertex (d : decoration_type) (r : N) (p s : list nat) : SG.vertex nat :=
  SG.mk_vertex 0 d r p s None.

(** [nu V = A || B], [nu C = A], [mu B = C || D], [mu A = E], [mu D = B],
    [mu E = A], as the vertices 0 (V), 1 (C), 2 (B), 3 (A), 4 (D) and 5 (E):
    every equation has the solution [false]. *)
Definition fatal_graph : SSG.simple_structure_graph nat :=
  SSG.mk_simple [
    otf_vertex d_disjunction 0 [] [3; 2];
    otf_vertex d_none 0 [2] [3];
    otf_vertex d_disjunction 1 [0; 4] [1; 4];
    otf_vertex d_none 1 [0; 1; 5] [5];
    otf_vertex d_none 1 [2] [2];
    otf_vertex d_none 1 [3] [3]
  ].

Definition empty_state {A} (g : SSG.simple_structure_graph A)
  : fatal_state (SSG.simple_structure_graph A) :=
  let n := SSG.extent g in mk_fatal g (VSet.make n, VSet.make n) ([], []) 0.

Definition solved_lists {A} (r : option (fatal_state (SSG.simple_structure_graph A)))
  : option (list nat * list nat) :=
  (fun st => (VSet.m_vertices (fst (fs_S st)), VSet.m_vertices (snd (fs_S st)))) <$> r.

Lemma fatal_graph_partial : partial_graph fatal_graph.
Proof. apply simple_partial_graph; vm_compute; done. Qed.

(** A cycle that has only vertices of rank 1. *)
Lemma rank_one_cycle (rk : nat -> N) l :
  l <> [] -> (forall y, y ∈ l -> rk y = 1%N) -> good_cycle rk 1 l.
Proof.
  intros Hl Hr. destruct l as [|y l]; [done|]. exists y. split; [left|].
  rewrite (Hr y) by left. split; [done|]. intros z Hz. by rewrite (Hr z Hz).
Qed.

(** Player 1 wins everywhere in the example: no cycle passes through 0 or 1. *)
Lemma fatal_graph_region dead sigma :
  graph_region fatal_graph dead 1 sigma (fun u => u < 6).
Proof.
  assert (Hs : forall u v, v ∈ sg_successors fatal_graph u -> u < 6 /\ v < 6 /\ v <> 0 /\
    (u = 1 \/ u = 3 \/ u = 5 -> v = 3 \/ v = 5)).
  { intros u v Hv. do 6 (destruct u as [|u]; [cbn in Hv; set_solver by lia|]).
    by apply elem_of_nil in Hv. }
  assert (Ho : forall u, ~ graph_owner fatal_graph 1 u).
  { intros u. do 6 (destruct u as [|u]; [done|]). done. }
  split.
  - intros u Hu. by split.
  - intros u _ Hu. by apply Ho in Hu.
  - intros u v _ _ Hv _. by apply (Hs u).
  - intros u Hu Hn. destruct Hn.
    do 6 (destruct u as [|u]; [eexists; split; [left|split; cbn; [lia|done]]|]). lia.
  - intros x l Hx Hl Hw. apply rank_one_cycle; [done|]. intros y Hy.
    set (R := move _ _ _ 1 sigma) in *.
    destruct (walk_rotate _ x l y Hw Hy) as (l' & Hw' & Hl' & El).
    assert (Hy' : y <> 0 /\ y <> 1).
    { inversion Hw' as [|? z ? ? (Hz & _) Hw2]; subst; [done|].
      destruct (Hs y z Hz) as (_ & _ & Hz0 & Hz1).
      split; intros ->.
      - destruct (walk_closed R (fun u => u <> 0) z l0 0) as [E _]; [|exact Hz0|exact Hw2|lia].
        intros u v _ (Huv & _). by apply (Hs u v).
      - destruct (walk_closed R (fun u => u = 3 \/ u = 5) z l0 1) as [E _]; [|apply Hz1; auto|exact Hw2|lia].
        intros u v Hu (Huv & _). apply (Hs u v Huv). lia. }
    assert (Hlt : y < 6).
    { inversion Hw' as [|? z ? ? (Hz & _) _]; subst; [done|]. by apply (Hs y z). }
    do 6 (destruct y as [|y]; [done || lia|]). lia.
Qed.

(** C26: the condition of [fatal_attractors_correct] is needed.  On a completely
    explored graph, with nothing solved before, [fatal_attractors] puts vertex 0
    into [S[0]] although player 1 wins from it; no strategy has been set for it,
    and [find_loops2] and [fatal_attractors_original] do not make the mistake.
    The cause is that the attractor that is cut from [Y] is computed in the
    whole graph: a vertex of [U_j] all of whose successors are lost, but not
    all in the last cut, remains. *)
Theorem fatal_attractors_unsound :
  exists st, fatal_attractors (empty_state fatal_graph) = Some st /\
    VSet.m_vertices (fst (fs_S st)) = [0] /\
    (forall dead sigma, graph_wins fatal_graph dead 1 sigma 0) /\
    strategies_are_set_in_solved_nodes (fs_graph st) (fs_S st) (fs_tau st) = false /\
    solved_lists (find_loops2 (empty_state fatal_graph)) = Some ([], [3; 5; 1]) /\
    solved_lists (fatal_attractors_original (empty_state fatal_graph)) = Some ([], [5; 3; 1]).
Proof.
  eexists. split; [vm_compute; reflexivity|]. split; [done|]. split; [|repeat split; vm_compute; reflexivity].
  intros dead sigma. apply (graph_region_wins fatal_graph dead 1 sigma (fun u => u < 6));
    [apply fatal_graph_region|lia].
Qed.

(** A graph that is being explored: [nu X = Y || Z], [mu Y = X], and [Z] has been
    discovered but not explored.  The sets have the extent 1024 that
    [vertex_set::resize] gives them. *)
Definition open_graph : SSG.simple_structure_graph nat :=
  SSG.mk_simple [
    otf_vertex d_disjunction 0 [1] [1; 2];
    otf_vertex d_none 1 [0] [0];
    otf_vertex d_none undefined_index [0] []
  ].

Definition open_state : fatal_state (SSG.simple_structure_graph nat) :=
  mk_fatal open_graph (VSet.make 1024, VSet.make 1024) ([], []) 0.

Lemma open_graph_partial : partial_graph open_graph.
Proof. apply simple_partial_graph; vm_compute; done. Qed.

Lemma open_fit : sets_fit open_graph 1024 (VSet.make 1024, VSet.make 1024).
Proof. apply empty_fit. cbn [SSG.simple_StructureGraph sg_extent]. unfold SSG.extent. cbn [SSG.m_vertices open_graph length]. lia. Qed.

Lemma solved_lists_elim {A} (r : option (fatal_state (SSG.simple_structure_graph A))) st l0 l1 :
  r = Some st -> solved_lists r = Some (l0, l1) ->
  VSet.m_vertices (fst (fs_S st)) = l0 /\ VSet.m_vertices (snd (fs_S st)) = l1.
Proof. intros ->. cbn. by intros [= <- <-]. Qed.

Lemma fatal_attractors_original_correct_witness :
  exists st, fatal_attractors_original open_state = Some st /\
    VSet.m_vertices (fst (fs_S st)) = [1; 0] /\
    forall dead, graph_wins open_graph dead 0 (tau_at (fs_tau st) 0) 0.
Proof.
  destruct (fatal_attractors_original_correct open_graph 1024 _ ([], []) 0 open_graph_partial open_fit)
    as (st & E & _ & HW).
  exists st. split; [exact E|].
  destruct (solved_lists_elim _ st [1; 0] [] E) as [E0 _]; [vm_compute; reflexivity|].
  split; [exact E0|]. intros dead. destruct (HW dead) as [_ Hwin]; [apply empty_regions|].
  apply (Hwin 0); [lia|]. cbn [pick Nat.eqb]. rewrite E0. right. left.
Defined.

Lemma fatal_attractors_correct_witness :
  exists st, fatal_attractors open_state = Some st /\
    VSet.m_vertices (fst (fs_S st)) = [0; 1] /\
    forall dead, dead_ok open_graph dead -> graph_wins open_graph dead 0 (tau_at (fs_tau st) 0) 0.
Proof.
  destruct (fatal_attractors_correct open_graph 1024 _ ([], []) 0 fatal_attractors (or_introl eq_refl)
    open_graph_partial open_fit) as (st & E & _ & HW).
  exists st. split; [exact E|].
  destruct (solved_lists_elim _ st [0; 1] [] E) as [E0 _]; [vm_compute; reflexivity|].
  split; [exact E0|]. intros dead Hd. destruct (HW dead Hd) as [_ Hwin]; [apply empty_regions| |].
  - assert (Hset : (fun st => strategies_are_set_in_solved_nodes (fs_graph st) (fs_S st) (fs_tau st))
      <$> fatal_attractors open_state = Some true) by (vm_compute; reflexivity).
    unfold open_state in Hset. rewrite E in Hset. by injection Hset.
  - apply (Hwin 0); [lia|]. cbn [pick Nat.eqb]. rewrite E0. left.
Defined.
