(* ===== verification/FindLoops.v ===== *)
(** * Detecting winning loops
    ([libraries/pbes/include/mcrl2/pbes/pbesinst_find_loops.h])

    [find_loops] looks for loops of explored variables of one rank, through
    vertices in which the owner of that rank chooses or nobody has a choice, and
    adds them to the solved sets.  [find_loop] is a depth first search from [v];
    [visited] keeps its outcomes, also between searches from different
    vertices.  The depth of the recursion is bounded by fuel; the result [None]
    means that it is used up. *)

From Stdlib Require Import Lia NArith.
From stdpp Require Import base strings numbers sets list gmap.
From S2P Require Import Prelude VertexSets StructureGraph Attractors ParityGame Solver FatalAttractors.

Abbreviation visited_map := (gmap nat bool).

Section Code.
Context {G : Type} `{StructureGraph G}.

(** The body of the loop over the successors of [w], for a given [find_loop]. *)
Fixpoint find_loop_successors
    (find_loop : G -> nat -> visited_map -> option (bool * G * visited_map))
    (g : G) (v w : nat) (successors : list nat) (visited : visited_map)
  : option (bool * G * visited_map) :=
  match successors with
  | [] => Some (false, g, visited)
  | u :: successors =>
      if u =? v then Some (true, sg_set_strategy w (Some v) g, <[w := true]> visited)
      else match find_loop g u visited with
           | None => None
           | Some (true, g, visited) =>
               Some (true, sg_set_strategy w (Some u) g, <[w := true]> visited)
           | Some (false, g, visited) => find_loop_successors find_loop g v w successors visited
           end
  end.

Fixpoint find_loop (fuel : nat) (U : vertex_set) (v : nat) (p : N) (g : G) (w : nat)
    (visited : visited_map) : option (bool * G * visited_map) :=
  match fuel with
  | O => None
  | Datatypes.S fuel =>
      if bool_decide (sg_decoration g w = d_true) || bool_decide (sg_decoration g w = d_false)
      then Some (false, g, visited)
      else if negb (sg_rank g w =? undefined_index)%N && negb (sg_rank g w =? p)%N
      then Some (false, g, visited)
      else
        match visited !! w with
        | Some b => Some (b, g, visited)
        | None =>
            if VSet.contains U w
            then
              let visited := <[w := false]> visited in
              if bool_decide (sg_decoration g w = d_none) ||
                 (decoration_value (sg_decoration g w) =? parity p)
              then find_loop_successors (find_loop fuel U v p) g v w (sg_successors g w) visited
              else Some (false, g, visited)
            else Some (false, g, visited)
        end
  end.

(** The variables of the loop over [done]. *)
Record loops_state : Type := mk_loops {
  lo_state : fatal_state G;
  lo_visited : visited_map;
  lo_b0 : bool;
  lo_b1 : bool
}.

(** [S[alpha].insert(u)] *)
Definition insert_solved (alpha u : nat) (S : vertex_set * vertex_set) : vertex_set * vertex_set :=
  put alpha (VSet.insert (pick alpha S) u) S.

(** [S[alpha] = attr_default_with_tau(G, S[alpha], alpha, tau)], if [b]. *)
Definition attract_if (b : bool) (alpha : nat) (st : fatal_state G) : option (fatal_state G) :=
  if b then
    match attr_default_with_tau (fs_graph st) (pick alpha (fs_S st)) alpha (fs_tau st) with
    | None => None
    | Some (S_alpha, g, tau) => Some (mk_fatal g (put alpha S_alpha (fs_S st)) tau (fs_steps st))
    end
  else Some st.

(** One round of the loop over [done]. *)
Definition find_loops_step (fuel : nat) (done : vertex_set) (ls : loops_state) (u : nat)
  : option loops_state :=
  let st := lo_state ls in
  let visited := match lo_visited ls !! u with
                 | Some _ => <[u := false]> (lo_visited ls)
                 | None => lo_visited ls
                 end in
  match find_loop fuel done u (sg_rank (fs_graph st) u) (fs_graph st) u visited with
  | None => None
  | Some (b, g, visited) =>
      let visited := <[u := b]> visited in
      let even := (sg_rank g u mod 2 =? 0)%N in
      let S := if b then insert_solved (if even then 0 else 1) u (fs_S st) else fs_S st in
      let b0 := lo_b0 ls || (b && even) in
      let b1 := lo_b1 ls || (b && negb even) in
      match attract_if b0 0 (mk_fatal g S (fs_tau st) (fs_steps st)) with
      | None => None
      | Some st =>
          match attract_if b1 1 st with
          | None => None
          | Some st => Some (mk_loops st visited b0 b1)
          end
      end
  end.

(** [find_vertex] is that of the graph builder.  A variable that has no vertex
    is skipped (in the code, an access out of bounds). *)
Context {X : Type} (find_vertex : X -> option nat).

(** The bit set [todo_]. *)
Definition todo_bits (n : nat) (todo : list X) : bitset :=
  foldl (fun bits x => match find_vertex x with Some u => set_bit u true bits | None => bits end)
    (bitset_empty n) todo.

Definition compute_done (n : nat) (discovered todo : list X) : vertex_set :=
  foldl (fun done x => match find_vertex x with
                       | Some u => if bit (todo_bits n todo) u then done else VSet.insert done u
                       | None => done
                       end)
    (VSet.make n) discovered.

Definition find_loops (discovered todo : list X) (st : fatal_state G) : option (fatal_state G) :=
  let n := VSet.extent (fst (fs_S st)) in
  let done := compute_done n discovered todo in
  match fold_option (find_loops_step (Datatypes.S (Datatypes.S (VSet.size done))) done)
          (mk_loops st ∅ false false) (VSet.m_vertices done) with
  | None => None
  | Some ls => Some (lo_state ls)
  end.

End Code.
Arguments loops_state G : clear implicits.
