(* ===== verification/FindLoopsCorrect.v ===== *)
(** * Winning loops are winning

    [find_loop] returns and finds a path of vertices of one rank back to its
    start or to a vertex from which an earlier search succeeded
    ([find_loop_spec]); the solved sets stay winning regions. *)

From Stdlib Require Import Lia NArith Classical.
From stdpp Require Import base strings numbers sets list gmap relations.
From S2P Require Import Prelude VertexSets StructureGraph Attractors ParityGame Solver FatalAttractors GraphGame MinRankAttractor FatalAttractorsCorrect FatalTheorems FindLoops.

(** ** Attractors of larger sets *)

Section Superset.
Context {G : Type} `{StructureGraph G} `{!StructureGraphLaws G}.

(** A trace from [A] is one from any set [R] that contains [A], without the
    vertices that are in [R] already. *)
Lemma attr_trace_superset g alpha A L R :
  attr_trace g alpha A L -> (forall u, u ∈ A -> u ∈ R) ->
  exists L', attr_trace g alpha R L' /\ NoDup L'.*1 /\ (forall u, u ∈ L'.*1 -> u ∉ R) /\
    forall u, u ∈ R ++ L'.*1 <-> u ∈ R \/ u ∈ L.*1.
Proof.
  intros HL. revert R. induction HL as [A|A u v L Hu Hin Hv HvA Hd HL IH]; intros R HR.
  { exists []. split; [constructor|]. split; [constructor|]. split; [set_solver|]. intros u. set_solver. }
  destruct (decide (u ∈ R)) as [HuR|HuR].
  - destruct (IH R) as (L' & H1 & H2 & H3 & H4); [set_solver|].
    exists L'. split; [done|]. split; [done|]. split; [done|]. intros w. rewrite H4. cbn. set_solver.
  - destruct (IH (R ++ [u])) as (L' & H1 & H2 & H3 & H4); [set_solver|].
    exists ((u, Some v) :: L'). split; [|split; [|split]].
    + constructor; auto. destruct Hd as [|Hd]; [by left|right; auto].
    + cbn. apply NoDup_cons. split; [|done]. intros Hin'. apply (H3 u Hin'). set_solver.
    + cbn. intros w [->|Hw]%elem_of_cons; [done|]. specialize (H3 w Hw). set_solver.
    + intros w. specialize (H4 w). cbn. set_solver.
Qed.

Definition trace_strategy (sigma : nat -> option nat) (L : list (nat * option nat)) (u : nat) : option nat :=
  match List.find (fun q => q.1 =? u) L with Some q => q.2 | None => sigma u end.

Lemma trace_strategy_in sigma L u v : NoDup L.*1 -> (u, v) ∈ L -> trace_strategy sigma L u = v.
Proof.
  unfold trace_strategy. induction L as [|[w x] L IH]; cbn; [intros _ H'; by apply elem_of_nil in H'|].
  intros [Hw Hnd]%NoDup_cons [[= -> ->]|Huv]%elem_of_cons; [by rewrite Nat.eqb_refl|].
  destruct (Nat.eqb_spec w u) as [->|]; [|auto]. destruct Hw. apply list_elem_of_fmap. by exists (u, v).
Qed.

Lemma trace_strategy_out sigma L u : u ∉ L.*1 -> trace_strategy sigma L u = sigma u.
Proof.
  unfold trace_strategy. induction L as [|[w x] L IH]; cbn; [done|].
  intros [Hw Hu]%not_elem_of_cons. destruct (Nat.eqb_spec w u) as [->|]; [done|auto].
Qed.

(** If [R] is a winning region that contains [A] and lies within the attractor
    of [A], then that attractor is a winning region. *)
Lemma attractor_region_superset g dead alpha sigma A L (R : list nat) :
  graph_ok g -> attr_trace g alpha A L -> graph_region g dead alpha sigma (fun u => u ∈ R) ->
  (forall u, u ∈ A -> u ∈ R) -> (forall u, u ∈ R -> u ∈ A ++ L.*1) ->
  (forall u, attractable g alpha (fun v => v ∈ A ++ L.*1) u -> u ∈ A ++ L.*1) ->
  exists sigma', graph_region g dead alpha sigma' (fun u => u ∈ A ++ L.*1).
Proof.
  intros Hg HL HR HAR HRT Hc. destruct (attr_trace_superset g alpha A L R HL HAR) as (L' & H1 & H2 & H3 & H4).
  assert (Heq : forall u, u ∈ R ++ L'.*1 <-> u ∈ A ++ L.*1).
  { intros u. rewrite H4. specialize (HAR u). specialize (HRT u). set_solver. }
  exists (trace_strategy sigma L').
  apply (region_set_ext _ _ _ _ _ _ _ (fun u => u ∈ R ++ L'.*1)); [done|].
  eapply attractor_region.
  - apply (trace_attracts g alpha (trace_strategy sigma L') R L' Hg).
    + apply HR.
    + done.
    + intros u v. by apply trace_strategy_in.
    + intros u [Hi [(v & Hv & HvT) Hd]]. apply Heq, Hc. split; [done|].
      split; [exists v; by rewrite <- Heq|]. destruct Hd as [|Hd]; [by left|right].
      intros w Hw. by apply Heq, Hd.
  - eapply region_ext; [|exact HR]. intros u Hu. symmetry. apply trace_strategy_out.
    intros HuL. by apply (H3 u HuL).
Qed.

End Superset.

(** ** The search *)

Section Search.
Context {G : Type} `{StructureGraph G} `{!StructureGraphLaws G}.
Context (g0 : G) (U : vertex_set) (m v : nat) (p : N).
Hypothesis HU : VSet.ok m U.
Hypothesis Hranked : forall u, u ∈ VSet.m_vertices U -> sg_rank g0 u <> undefined_index.

Implicit Types (visited : visited_map) (w : nat).

(** A vertex that the search passes through. *)
Definition loop_node w : Prop :=
  w ∈ VSet.m_vertices U /\ sg_rank g0 w = p /\
  (sg_decoration g0 w = d_none \/ graph_owner g0 (parity p) w).

(** A path to [goal]. *)
Inductive leads (goal : nat -> Prop) : nat -> list nat -> Prop :=
| leads_last w x : loop_node w -> x ∈ sg_successors g0 w -> goal x -> leads goal w [w]
| leads_next w x l : loop_node w -> x ∈ sg_successors g0 w -> leads goal x l -> leads goal w (w :: l).

Definition true_in visited w : Prop := visited !! w = Some true.

Definition loop_goal visited w : Prop := w = v \/ (true_in visited w /\ sg_rank g0 w = p).

(** What a search that starts in [w] does. *)
Record search visited w (b : bool) (g' : G) visited' : Prop := {
  se_same : same_graph g0 g';
  se_dom : forall x, is_Some (visited !! x) -> is_Some (visited' !! x);
  se_known : forall x, is_Some (visited' !! x) -> is_Some (visited !! x) \/ x ∈ VSet.m_vertices U;
  se_false : b = false -> forall x, true_in visited' x <-> true_in visited x;
  se_true : b = true -> (true_in visited w /\ sg_rank g0 w = p /\ visited' = visited) \/
    exists l, leads (loop_goal visited) w l /\
      forall x, true_in visited' x <-> true_in visited x \/ x ∈ l
}.

Definition known visited : Prop := forall x, is_Some (visited !! x) -> x ∈ VSet.m_vertices U.

(** The vertices that can still be visited. *)
Definition unvisited visited : nat :=
  length (List.filter (fun x => bool_decide (visited !! x = None)) (VSet.m_vertices U)).

Lemma filter_length_mono (f1 f2 : nat -> bool) l :
  (forall x, f1 x = true -> f2 x = true) -> length (List.filter f1 l) <= length (List.filter f2 l).
Proof.
  intros Hf. induction l as [|x l IH]; cbn; [lia|]. specialize (Hf x).
  destruct (f1 x), (f2 x); cbn; lia.
Qed.

Lemma filter_length_strict (f1 f2 : nat -> bool) l y :
  (forall x, f1 x = true -> f2 x = true) -> y ∈ l -> f1 y = false -> f2 y = true ->
  length (List.filter f1 l) < length (List.filter f2 l).
Proof.
  intros Hf Hy H1 H2. induction l as [|x l IH]; [by apply elem_of_nil in Hy|].
  pose proof (filter_length_mono f1 f2 l Hf) as Hm. cbn.
  apply elem_of_cons in Hy as [->|Hy]; [rewrite H1, H2; cbn; lia|].
  specialize (IH Hy). specialize (Hf x). destruct (f1 x), (f2 x); cbn; lia.
Qed.

Lemma unvisited_mono visited visited' :
  (forall x, is_Some (visited !! x) -> is_Some (visited' !! x)) -> unvisited visited' <= unvisited visited.
Proof.
  intros Hd. apply filter_length_mono. intros x. rewrite !bool_decide_eq_true.
  rewrite !eq_None_not_Some. naive_solver.
Qed.

Lemma unvisited_insert visited w :
  visited !! w = None -> w ∈ VSet.m_vertices U -> unvisited (<[w := false]> visited) < unvisited visited.
Proof.
  intros Hw Hin. apply (filter_length_strict _ _ _ w); [|done| |].
  - intros x. rewrite !bool_decide_eq_true. by intros [? _]%lookup_insert_None.
  - rewrite bool_decide_eq_false. by rewrite lookup_insert_eq.
  - by rewrite bool_decide_eq_true.
Qed.

(** Without a new success nothing is lost. *)
Lemma leads_goal_ext (P Q : nat -> Prop) w l :
  (forall x, P x -> Q x) -> leads P w l -> leads Q w l.
Proof. intros HPQ. induction 1; [eapply leads_last; eauto|eapply leads_next; eauto]. Qed.

(** The loop over the successors, for a search with the specification. *)
Lemma find_loop_successors_spec f w l g visited visited0 :
  (forall g visited x, same_graph g0 g -> known visited -> unvisited visited <= unvisited visited0 ->
     exists b g' visited', f g x visited = Some (b, g', visited') /\ search visited x b g' visited') ->
  loop_node w -> (forall x, x ∈ l -> x ∈ sg_successors g0 w) -> same_graph g0 g -> known visited ->
  unvisited visited <= unvisited visited0 -> is_Some (visited !! w) ->
  exists b g' visited', find_loop_successors f g v w l visited = Some (b, g', visited') /\
    same_graph g0 g' /\ known visited' /\
    (forall x, is_Some (visited !! x) -> is_Some (visited' !! x)) /\
    (b = false -> forall x, true_in visited' x <-> true_in visited x) /\
    (b = true -> exists l, leads (loop_goal visited) w l /\
       forall x, true_in visited' x <-> true_in visited x \/ x ∈ l).
Proof.
  intros Hf Hw. revert g visited. induction l as [|u l IH]; intros g visited Hl Hs Hk Hm Hvw; cbn.
  { exists false, g, visited. split; [done|]. split; [done|]. split; [done|]. split; [auto|]. by split. }
  assert (Hins : forall (visited' : visited_map) x, true_in (<[w := true]> visited') x <->
    true_in visited' x \/ x = w).
  { intros visited' x. unfold true_in. destruct (decide (x = w)) as [->|Hx].
    - rewrite lookup_insert_eq. tauto.
    - rewrite lookup_insert_ne by done. naive_solver. }
  assert (Hins' : forall (visited' : visited_map) x, is_Some (visited' !! x) -> is_Some (<[w := true]> visited' !! x)).
  { intros visited' x. destruct (decide (x = w)) as [->|Hx]; [by rewrite lookup_insert_eq|].
    by rewrite lookup_insert_ne. }
  assert (Hkin : forall visited', known visited' -> known (<[w := true]> visited')).
  { intros visited' Hk' x. destruct (decide (x = w)) as [->|Hx]; [intros _; apply Hw|].
    rewrite lookup_insert_ne by done. apply Hk'. }
  destruct (Nat.eqb_spec u v) as [Euv|Huv].
  { exists true, (sg_set_strategy w (Some v) g), (<[w := true]> visited). split; [done|].
    split; [etransitivity; [done|apply set_strategy_same_graph]|].
    split; [by apply Hkin|]. split; [by apply Hins'|]. split; [done|]. intros _. exists [w].
    split; [apply (leads_last _ w u); [done|apply Hl; left|by left]|].
    intros x. rewrite Hins. set_solver. }
  destruct (Hf g visited u Hs Hk Hm) as (b & g1 & vis1 & -> & [S1 D1 K1 F1 T1]).
  assert (Hk1 : known vis1). { intros x Hx. destruct (K1 x Hx); auto. }
  destruct b.
  - exists true, (sg_set_strategy w (Some u) g1), (<[w := true]> vis1). split; [done|].
    split; [etransitivity; [done|apply set_strategy_same_graph]|].
    split; [by apply Hkin|]. split; [auto|]. split; [done|]. intros _.
    destruct (T1 eq_refl) as [(Htu & Hru & ->)|(P & HP & HT)].
    + exists [w]. split; [apply (leads_last _ w u); [done|apply Hl; left|by right]|].
      intros x. rewrite Hins. set_solver.
    + exists (w :: P). split; [apply (leads_next _ w u); [done|apply Hl; left|done]|].
      intros x. rewrite Hins, HT. set_solver.
  - specialize (F1 eq_refl).
    destruct (IH g1 vis1) as (b & g2 & vis2 & E & S2 & K2 & D2 & F2 & T2); auto.
    + intros x Hx. apply Hl. by right.
    + etransitivity; [|exact Hm]. by apply unvisited_mono.
    + exists b, g2, vis2. split; [done|]. split; [done|]. split; [done|]. split; [auto|]. split.
      * intros Hb x. by rewrite F2, F1.
      * intros Hb. destruct (T2 Hb) as (P & HP & HT). exists P. split.
        -- eapply leads_goal_ext; [|exact HP]. intros x [|[Hx ?]]; [by left|right]. by rewrite <- F1.
        -- intros x. by rewrite HT, F1.
Qed.

Lemma find_loop_spec fuel g w visited :
  same_graph g0 g -> known visited -> unvisited visited < fuel ->
  exists b g' visited', find_loop fuel U v p g w visited = Some (b, g', visited') /\
    search visited w b g' visited'.
Proof.
  revert g w visited. induction fuel as [|fuel IH]; intros g w visited Hs Hk Hf; [lia|].
  cbn [find_loop]. rewrite (sgr_decoration _ _ Hs), (sgr_rank _ _ Hs), (sgr_successors _ _ Hs).
  assert (Hno : exists b g' visited', Some (false, g, visited) = Some (b, g', visited') /\
    search visited w b g' visited').
  { exists false, g, visited. split; [done|]. split; auto. done. }
  destruct (_ || _); [exact Hno|]. destruct (_ && _) eqn:Er; [exact Hno|].
  destruct (visited !! w) as [b|] eqn:Ew.
  { exists b, g, visited. split; [done|]. split; auto. intros ->. left. split; [done|]. split; [|done].
    assert (Hr : sg_rank g0 w <> undefined_index) by (apply Hranked, Hk; by rewrite Ew).
    apply andb_false_iff in Er. rewrite !negb_false_iff, !N.eqb_eq in Er. by destruct Er. }
  destruct (VSet.contains U w) eqn:EU; [|exact Hno]. apply (VSet.contains_elem m U w HU) in EU.
  assert (Hins : forall x, is_Some (visited !! x) -> is_Some (<[w := false]> visited !! x)).
  { intros x. destruct (decide (x = w)) as [->|]; [by rewrite lookup_insert_eq|by rewrite lookup_insert_ne]. }
  assert (Hkw : known (<[w := false]> visited)).
  { intros x. destruct (decide (x = w)) as [->|]; [done|]. rewrite lookup_insert_ne by done. apply Hk. }
  assert (Htrue : forall x, true_in (<[w := false]> visited) x <-> true_in visited x).
  { intros x. unfold true_in. destruct (decide (x = w)) as [->|].
    - rewrite lookup_insert_eq, Ew. done.
    - by rewrite lookup_insert_ne. }
  destruct (_ || _) eqn:Ed.
  - pose proof (unvisited_insert visited w Ew EU) as Hlt.
    destruct (find_loop_successors_spec (find_loop fuel U v p) w (sg_successors g0 w) g
      (<[w := false]> visited) (<[w := false]> visited)) as (b & g' & vis' & E & S' & K' & D' & F' & T'); auto.
    + intros g1 vis1 x Hs1 Hk1 Hm1. apply IH; [done|done|lia].
    + split; [done|]. split.
      * apply andb_false_iff in Er. rewrite !negb_false_iff, !N.eqb_eq in Er.
        destruct Er as [Er|]; [|done]. by apply Hranked in EU.
      * apply orb_true_iff in Ed as [Ed|Ed]; [left; by apply bool_decide_eq_true in Ed|right].
        unfold graph_owner. by apply Nat.eqb_eq.
    + by rewrite lookup_insert_eq.
    + exists b, g', vis'. split; [done|]. split; auto.
      * intros Hb x. by rewrite F', Htrue.
      * intros Hb. right. destruct (T' Hb) as (P & HP & HT). exists P. split.
        -- eapply leads_goal_ext; [|exact HP]. intros x [|[Hx ?]]; [by left|right]. by rewrite <- Htrue.
        -- intros x. by rewrite HT, Htrue.
  - exists false, g, (<[w := false]> visited). split; [done|]. split; auto. done.
Qed.

End Search.

(** ** The solved sets *)

Section Solved.
Context {G : Type} `{StructureGraph G} `{!StructureGraphLaws G}.
Context (g0 : G) (m : nat).
Hypothesis Hg0 : graph_ok g0.
Hypothesis Hm : sg_extent g0 <= m.
Hypothesis Hunowned : forall u v w,
  sg_decoration g0 u <> d_disjunction -> sg_decoration g0 u <> d_conjunction ->
  v ∈ sg_successors g0 u -> w ∈ sg_successors g0 u -> v = w.

Abbreviation st_set st alpha := (VSet.m_vertices (pick alpha (fs_S st))).

(** Some strategy wins from all vertices of the solved sets. *)
Definition winnable (dead : nat -> nat) (st : fatal_state G) : Prop := forall alpha, alpha < 2 ->
  exists sigma, graph_region g0 dead alpha sigma (fun u => u ∈ st_set st alpha).

Lemma put_other {A} (alpha beta : nat) (x : A) (S : A * A) :
  alpha < 2 -> beta < 2 -> beta <> alpha -> pick beta (put alpha x S) = pick beta S.
Proof. intros. destruct alpha as [|[|]], beta as [|[|]]; done || lia. Qed.

Lemma put_same {A} (alpha : nat) (x : A) (S : A * A) : alpha < 2 -> pick alpha (put alpha x S) = x.
Proof. intros. destruct alpha as [|[|]]; done || lia. Qed.

Lemma put_all {A} (P : A -> Prop) (alpha : nat) (x : A) (S : A * A) :
  P x -> (forall beta, P (pick beta S)) -> forall beta, P (pick beta (put alpha x S)).
Proof.
  intros Hx HS [|beta]; unfold put, pick; cbn; (destruct (alpha =? 0); cbn; [|done || apply (HS 0)]);
    first [done|apply (HS 0)|apply (HS 1)].
Qed.

Lemma attract_if_spec b alpha st :
  alpha < 2 -> shape g0 m st ->
  exists st', attract_if b alpha st = Some st' /\ shape g0 m st' /\ grows st st' /\
    (forall beta, beta < 2 -> beta <> alpha -> pick beta (fs_S st') = pick beta (fs_S st)) /\
    (b = true -> forall u, attractable g0 alpha (fun v => v ∈ st_set st' alpha) u -> u ∈ st_set st' alpha) /\
    (forall dead sigma (R : list nat), graph_region g0 dead alpha sigma (fun u => u ∈ R) ->
       (forall u, u ∈ st_set st alpha -> u ∈ R) -> (forall u, u ∈ R -> u ∈ st_set st' alpha) ->
       exists sigma', graph_region g0 dead alpha sigma' (fun u => u ∈ st_set st' alpha)).
Proof.
  intros Ha [Hs Hok Hin]. destruct b; cbn [attract_if].
  - pose proof (same_graph_ok _ _ Hs Hg0) as Hg.
    destruct (attr_default_with_tau_same m (fs_graph st) (pick alpha (fs_S st)) alpha (fs_tau st) Hg)
      as (A' & L & -> & HA' & EA & HL & Hc);
      [by rewrite (sgr_extent _ _ Hs)|apply Hok|intros u Hu; by apply (same_graph_in _ _ u Hs), (Hin alpha)|].
    apply (same_graph_trace g0) in HL; [|done].
    setoid_rewrite (fun u P => same_graph_attractable g0 _ alpha P u Hs) in Hc.
    assert (Hnd : NoDup (st_set st alpha ++ L.*1)) by (rewrite <- EA; apply HA').
    apply NoDup_app in Hnd as (_ & Hdis & _).
    eexists. split; [done|]. split; [split; cbn|].
    + etransitivity; [exact Hs|apply record_graph_same].
    + by apply (put_all (VSet.ok m)).
    + assert (HinA : forall u, u ∈ VSet.m_vertices A' -> in_graph g0 u).
      { intros u. rewrite EA. intros [Hu|Hu]%elem_of_app; [by apply (Hin alpha)|].
        apply list_elem_of_fmap in Hu as ([u' x] & -> & Hx).
        by destruct (attr_trace_prefix _ _ _ _ _ _ HL Hx) as (_ & _ & _ & _ & _ & ? & _). }
      by apply (put_all (fun S => forall u, u ∈ VSet.m_vertices S -> in_graph g0 u)).
    + split; [|split; [|split]]; cbn [fs_S fs_tau].
      * intros beta u Hb Hu. cbn [fs_S fs_tau]. destruct (decide (beta = alpha)) as [->|Hne].
        -- rewrite put_same by done. split; [rewrite EA; set_solver|]. apply record_tau_ne; auto.
        -- rewrite put_other by done. split; [done|]. apply record_tau_ne; auto.
      * intros beta Hb Hne. by apply put_other.
      * intros _ u. rewrite put_same by done. apply Hc.
      * intros dead sigma R HR H1 H2. rewrite put_same in H2 |- * by done. rewrite EA in *.
        apply (attractor_region_superset g0 dead alpha sigma _ L R); auto.
  - exists st. split; [done|]. split; [by split|]. split; [by intros beta u|]. split; [done|]. split; [done|].
    intros dead sigma R HR H1 H2. exists sigma.
    apply (region_set_ext _ _ _ _ _ _ _ (fun u => u ∈ R)); [|done]. intros u. split; auto.
Qed.

(** *** Paths found by the search *)

Lemma leads_node (U : vertex_set) (p : N) goal w l :
  leads g0 U p goal w l -> w ∈ l /\ forall x, x ∈ l -> loop_node g0 U p x /\
    exists y, y ∈ sg_successors g0 x /\ (y ∈ l \/ goal y).
Proof.
  induction 1 as [w x Hw Hx Hg|w x l Hw Hx HL [IH1 IH2]].
  - split; [left|]. intros y ->%list_elem_of_singleton. split; [done|]. exists x. auto.
  - split; [left|]. intros y [->|Hy]%elem_of_cons.
    + split; [done|]. exists x. split; [done|]. left. by right.
    + destruct (IH2 y Hy) as [Hn (z & Hz & Hz')]. split; [done|]. exists z. split; [done|].
      destruct Hz'; [left; by right|by right].
Qed.

Lemma loop_node_single (U : vertex_set) (p : N) x y z :
  loop_node g0 U p x -> ~ graph_owner g0 (parity p) x ->
  y ∈ sg_successors g0 x -> z ∈ sg_successors g0 x -> y = z.
Proof.
  intros (_ & _ & Hd) Ho. destruct Hd as [Hd|]; [|done]. apply Hunowned; congruence.
Qed.

(** A path is attracted to its goal. *)
Lemma leads_attracted (U : vertex_set) (p : N) (T goal : nat -> Prop) w l :
  (forall u, attractable g0 (parity p) T u -> T u) -> (forall x, goal x -> T x) ->
  (forall u, u ∈ VSet.m_vertices U -> in_graph g0 u) ->
  leads g0 U p goal w l -> forall x, x ∈ l -> T x.
Proof.
  intros Hc Hg HUin HL.
  assert (Hstep : forall w x, loop_node g0 U p w -> x ∈ sg_successors g0 w -> T x -> T w).
  { intros y x Hn Hx HT. apply Hc. split; [apply HUin, Hn|]. split; [by exists x|].
    destruct (decide (graph_owner g0 (parity p) y)) as [|Ho]; [by left|right].
    intros z Hz. by rewrite (loop_node_single U p y z x Hn Ho Hz Hx). }
  induction HL as [w x Hw Hx HG|w x l Hw Hx HL IH].
  - intros y ->%list_elem_of_singleton. by apply (Hstep w x); auto.
  - intros y [->|Hy]%elem_of_cons; [|auto]. apply (Hstep w x); auto.
    apply IH. by apply (leads_node U p goal).
Qed.

(** The path and the solved set form a winning region. *)
Lemma leads_region (U : vertex_set) (p : N) goal w l dead sigma (S : list nat) :
  (forall u, u ∈ VSet.m_vertices U -> in_graph g0 u) ->
  leads g0 U p goal w l -> (forall x, goal x -> x ∈ l \/ x ∈ S) ->
  graph_region g0 dead (parity p) sigma (fun u => u ∈ S) ->
  exists sigma', graph_region g0 dead (parity p) sigma' (fun u => u ∈ S ++ l).
Proof.
  intros HUin HL Hg HR. destruct (leads_node U p goal w l HL) as [_ Hn].
  set (next := fun x => if decide (x ∈ S) then sigma x
    else head (filter (fun y => y ∈ l ++ S) (sg_successors g0 x))).
  assert (Hnext : forall x, x ∈ l -> x ∉ S -> exists y, next x = Some y /\ y ∈ sg_successors g0 x /\
    (y ∈ l \/ y ∈ S)).
  { intros x Hx HxS. destruct (Hn x Hx) as (_ & y & Hy & Hyl). unfold next. rewrite decide_False by done.
    destruct (filter _ (sg_successors g0 x)) as [|z rest] eqn:Ef.
    - assert (y ∈ filter (fun y => y ∈ l ++ S) (sg_successors g0 x)) as Hf; [|rewrite Ef in Hf; by apply elem_of_nil in Hf].
      apply list_elem_of_filter. split; [|done]. apply elem_of_app. destruct Hyl as [|Hyl]; auto. 
    - exists z. split; [done|]. assert (z ∈ filter (fun y => y ∈ l ++ S) (sg_successors g0 x)) as Hf by (rewrite Ef; left).
      apply list_elem_of_filter in Hf as [Hf ?]. split; [done|]. by apply elem_of_app. }
  exists next. apply (region_set_ext _ _ _ _ _ _ _ (fun u => u ∈ l \/ u ∈ S)); [intros u; rewrite elem_of_app; tauto|].
  apply (region_fatal _ _ _ _ _ _ _ _ _ (fun _ => True) (fun _ => 0) p).
  - eapply region_ext; [|exact HR]. intros u Hu. unfold next. by rewrite decide_True.
  - assert (Hsucc : forall u, u ∈ l -> u ∉ S -> has_successor (graph_edge g0) (in_graph g0) u).
    { intros u Hu HuS. destruct (Hnext u Hu HuS) as (v & _ & Hv & _). exists v. split; [done|].
      by apply (successors_in g0 Hg0 u). }
    split; auto.
    + intros u Hu. apply HUin. by apply (Hn u).
    + intros u Hu HuS _ _. destruct (Hnext u Hu HuS) as (v & Hv & He & Hv'). exists v.
      split; [done|]. split; [done|]. split; [by apply (successors_in g0 Hg0 u)|]. auto.
    + intros u v Hu HuS Ho He Hv. destruct (Hnext u Hu HuS) as (v' & _ & He' & Hv').
      destruct (Hn u Hu) as [Hnu _]. rewrite (loop_node_single U p u v v' Hnu Ho He He'). auto.
    + intros u Hu HuS Hno. by destruct Hno; apply Hsucc.
    + intros u Hu HuS. destruct (Hn u Hu) as [(_ & -> & _) _]. lia.
    + intros u Hu HuS _. by destruct (Hn u Hu) as [(_ & -> & _) _].
Qed.

(** *** The loop over the explored variables *)

Context (done : vertex_set).
Hypothesis Hdone : VSet.ok m done.
Hypothesis Hdone_in : forall u, u ∈ VSet.m_vertices done -> in_graph g0 u.
Hypothesis Hdone_ranked : forall u, u ∈ VSet.m_vertices done -> sg_rank g0 u <> undefined_index.

(** Vertices from which a search succeeded are solved. *)
Record loops_ok (ls : loops_state G) : Prop := {
  lk_shape : shape g0 m (lo_state ls);
  lk_known : known done (lo_visited ls);
  lk_true : forall x, true_in (lo_visited ls) x ->
    x ∈ st_set (lo_state ls) (parity (sg_rank g0 x))
}.

(** What a search from [u] adds to the solved sets: nothing, or a path. *)
Definition search_path (st : fatal_state G) (u : nat) (b : bool) (l : list nat) : Prop :=
  if b then exists goal, leads g0 done (sg_rank g0 u) goal u l /\
    forall x, goal x -> x = u \/ x ∈ st_set st (parity (sg_rank g0 u))
  else l = [].

Lemma find_loop_step ls u :
  loops_ok ls -> u ∈ VSet.m_vertices done ->
  exists b g visited l,
    find_loop (Datatypes.S (Datatypes.S (VSet.size done))) done u (sg_rank (fs_graph (lo_state ls)) u)
      (fs_graph (lo_state ls)) u
      (match lo_visited ls !! u with Some _ => <[u := false]> (lo_visited ls) | None => lo_visited ls end)
      = Some (b, g, visited) /\ same_graph g0 g /\ known done (<[u := b]> visited) /\
    search_path (lo_state ls) u b l /\
    forall x, true_in (<[u := b]> visited) x -> true_in (lo_visited ls) x \/ x ∈ l.
Proof.
  intros [[Hs Hok Hin] Hk Ht] Hu. set (vis := match lo_visited ls !! u with Some _ => _ | None => _ end).
  assert (Hkv : known done vis).
  { intros x. unfold vis. destruct (lo_visited ls !! u); [|apply Hk].
    destruct (decide (x = u)) as [->|]; [done|]. rewrite lookup_insert_ne by done. apply Hk. }
  assert (Htv : forall x, true_in vis x -> true_in (lo_visited ls) x).
  { intros x. unfold vis, true_in. destruct (lo_visited ls !! u); [|done].
    destruct (decide (x = u)) as [->|]; [by rewrite lookup_insert_eq|by rewrite lookup_insert_ne]. }
  assert (Hvu : ~ true_in vis u).
  { unfold vis, true_in. destruct (lo_visited ls !! u) eqn:E; [by rewrite lookup_insert_eq|congruence]. }
  rewrite (sgr_rank _ _ Hs).
  destruct (find_loop_spec g0 done m u (sg_rank g0 u) Hdone Hdone_ranked
    (Datatypes.S (Datatypes.S (VSet.size done))) (fs_graph (lo_state ls)) u vis Hs Hkv)
    as (b & g & vis' & E & [S1 D1 K1 F1 T1]).
  { unfold unvisited, VSet.size. pose proof (List.filter_length_le (fun x => bool_decide (vis !! x = None))
      (VSet.m_vertices done)). lia. }
  assert (Hku : forall b, known done (<[u := b]> vis')).
  { intros b' x. destruct (decide (x = u)) as [->|]; [done|]. rewrite lookup_insert_ne by done.
    intros Hx. destruct (K1 x Hx); auto. }
  destruct b.
  - destruct (T1 eq_refl) as [(? & _)|(l & HL & HT)]; [done|].
    exists true, g, vis', l. split; [done|]. split; [done|]. split; [auto|]. split.
    + exists (loop_goal g0 u (sg_rank g0 u) vis). split; [done|]. intros x [->|[Hx Hr]]; [by left|right].
      rewrite <- Hr. by apply Ht, Htv.
    + intros x. unfold true_in at 1. destruct (decide (x = u)) as [->|].
      * intros _. right. by apply (leads_node done (sg_rank g0 u) _ u l HL).
      * rewrite lookup_insert_ne by done. intros [?|?]%HT; auto.
  - exists false, g, vis', []. split; [done|]. split; [done|]. split; [auto|]. split; [done|].
    intros x. unfold true_in at 1. destruct (decide (x = u)) as [->|]; [by rewrite lookup_insert_eq|].
    rewrite lookup_insert_ne by done. intros Hx. left. apply Htv. by apply (F1 eq_refl).
Qed.

Lemma even_parity (r : N) : (if (r mod 2 =? 0)%N then 0 else 1) = parity r.
Proof.
  unfold parity. assert (Hlt : (r mod 2 < 2)%N) by (by apply N.mod_lt). revert Hlt.
  generalize (r mod 2)%N. intros k Hk. destruct (N.eqb_spec k 0); lia.
Qed.

(** The state after the insertion of [u]. *)
Definition with_solved (g : G) (b : bool) (u : nat) (st : fatal_state G) : fatal_state G :=
  mk_fatal g (if b then insert_solved (if (sg_rank g u mod 2 =? 0)%N then 0 else 1) u (fs_S st) else fs_S st)
    (fs_tau st) (fs_steps st).

Lemma with_solved_spec g b u st :
  shape g0 m st -> same_graph g0 g -> u ∈ VSet.m_vertices done ->
  shape g0 m (with_solved g b u st) /\ grows st (with_solved g b u st) /\
  (forall alpha x, alpha < 2 -> x ∈ st_set (with_solved g b u st) alpha <->
     x ∈ st_set st alpha \/ (b = true /\ alpha = parity (sg_rank g0 u) /\ x = u)).
Proof.
  intros [Hs Hok Hin] Hsg Hu. pose proof (Hdone_in u Hu) as Hgu.
  assert (Hlt : u < m) by (destruct Hgu; lia). unfold with_solved. destruct b; cbn [fs_S fs_tau fs_graph].
  - rewrite even_parity, (sgr_rank _ _ Hsg). set (a := parity (sg_rank g0 u)).
    assert (Ha : a < 2) by apply parity_lt. unfold insert_solved.
    assert (Hel : forall alpha x, alpha < 2 ->
      x ∈ VSet.m_vertices (pick alpha (put a (VSet.insert (pick a (fs_S st)) u) (fs_S st))) <->
      x ∈ st_set st alpha \/ (true = true /\ alpha = a /\ x = u)).
    { intros alpha x Hal. destruct (decide (alpha = a)) as [->|Hne].
      - rewrite put_same, (VSet.insert_elem m) by auto. tauto.
      - rewrite put_other by done. tauto. }
    split; [split; cbn [fs_S fs_graph]|split; [|done]].
    + done.
    + apply (put_all (VSet.ok m)); [by apply VSet.insert_ok|done].
    + apply (put_all (fun S => forall u, u ∈ VSet.m_vertices S -> in_graph g0 u)); [|done].
      intros x. rewrite (VSet.insert_elem m) by auto. intros [->|Hx]; [done|by apply (Hin a)].
    + intros alpha x Hal Hx. cbn [fs_S fs_tau]. rewrite Hel by done. auto.
  - split; [by split|]. split; [by intros alpha x|]. intros alpha x _. naive_solver.
Qed.

Lemma search_path_region st u b l alpha dead sigma :
  search_path st u b l -> alpha < 2 ->
  graph_region g0 dead alpha sigma (fun x => x ∈ st_set st alpha) ->
  exists sigma' (R : list nat), graph_region g0 dead alpha sigma' (fun x => x ∈ R) /\
    forall x, x ∈ R <-> x ∈ st_set st alpha \/ (alpha = parity (sg_rank g0 u) /\ x ∈ l).
Proof.
  intros Hp Ha HR. destruct b; cbn in Hp.
  - destruct Hp as (goal & HL & Hg). destruct (decide (alpha = parity (sg_rank g0 u))) as [->|Hne].
    + destruct (leads_region done (sg_rank g0 u) goal u l dead sigma
        (st_set st (parity (sg_rank g0 u))) Hdone_in HL) as [sigma' HR']; [|exact HR|].
      { intros x [->|?]%Hg; [left; by apply (leads_node done _ _ u l HL)|by right]. }
      exists sigma', (st_set st (parity (sg_rank g0 u)) ++ l). split; [done|]. intros x. rewrite elem_of_app. tauto.
    + exists sigma, (st_set st alpha). split; [done|]. tauto.
  - subst l. exists sigma, (st_set st alpha). split; [done|]. intros x. set_solver.
Qed.

(** The two attractor computations of a round. *)
Definition round_attractors (b0 b1 : bool) (st : fatal_state G) : option (fatal_state G) :=
  match attract_if b0 0 st with None => None | Some st => attract_if b1 1 st end.

Lemma round_attractors_spec b0 b1 st :
  shape g0 m st ->
  exists st', round_attractors b0 b1 st = Some st' /\ shape g0 m st' /\ grows st st' /\
    forall alpha, alpha < 2 ->
      ((if alpha =? 0 then b0 else b1) = true -> forall u,
         attractable g0 alpha (fun v => v ∈ st_set st' alpha) u -> u ∈ st_set st' alpha) /\
      (forall dead sigma (R : list nat), graph_region g0 dead alpha sigma (fun u => u ∈ R) ->
         (forall u, u ∈ st_set st alpha -> u ∈ R) -> (forall u, u ∈ R -> u ∈ st_set st' alpha) ->
         exists sigma', graph_region g0 dead alpha sigma' (fun u => u ∈ st_set st' alpha)).
Proof.
  intros Hst. unfold round_attractors.
  destruct (attract_if_spec b0 0 st) as (st1 & -> & Hst1 & Hg1 & Ho1 & Hc1 & HR1); [lia|done|].
  destruct (attract_if_spec b1 1 st1) as (st2 & -> & Hst2 & Hg2 & Ho2 & Hc2 & HR2); [lia|done|].
  exists st2. split; [done|]. split; [done|]. split; [by etransitivity|].
  intros [|[|]] Ha; [| |lia]; cbn [Nat.eqb]; rewrite ?(Ho2 0), <- ?(Ho1 1) by lia; by split.
Qed.

Lemma find_loops_step_spec ls u :
  loops_ok ls -> u ∈ VSet.m_vertices done ->
  exists ls', find_loops_step (Datatypes.S (Datatypes.S (VSet.size done))) done ls u = Some ls' /\
    loops_ok ls' /\ grows (lo_state ls) (lo_state ls') /\
    forall dead, winnable dead (lo_state ls) -> winnable dead (lo_state ls').
Proof.
  intros Hls Hu. pose proof Hls as [Hst Hk Ht]. unfold find_loops_step.
  destruct (find_loop_step ls u Hls Hu) as (b & g & vis & l & -> & Hsg & Hkv & Hp & Htv).
  set (b0 := lo_b0 ls || _). set (b1 := lo_b1 ls || _).
  change (mk_fatal g _ _ _) with (with_solved g b u (lo_state ls)).
  destruct (with_solved_spec g b u (lo_state ls) Hst Hsg Hu) as (Hst1 & Hg1 & Hel).
  destruct (round_attractors_spec b0 b1 _ Hst1) as (st' & E & Hst' & Hg2 & Hatt).
  assert (Eb : match attract_if b0 0 (with_solved g b u (lo_state ls)) with
    | None => None
    | Some st => match attract_if b1 1 st with None => None | Some st => Some (mk_loops st (<[u := b]> vis) b0 b1) end
    end = Some (mk_loops st' (<[u := b]> vis) b0 b1)).
  { unfold round_attractors in E. destruct (attract_if b0 0 _) as [st1|]; [|done]. by rewrite E. }
  rewrite Eb. clear Eb E. eexists. split; [done|]. cbn [lo_state].
  set (a := parity (sg_rank g0 u)) in *. assert (Ha : a < 2) by apply parity_lt.
  assert (Hsub : forall alpha x, alpha < 2 -> x ∈ st_set (lo_state ls) alpha -> x ∈ st_set st' alpha).
  { intros alpha x Hal Hx. by apply Hg2, Hg1. }
  assert (Hpath : forall x, x ∈ l -> x ∈ st_set st' a).
  { destruct b; cbn in Hp; [|subst l; intros x Hx; by apply elem_of_nil in Hx].
    destruct Hp as (goal & HL & Hg). apply (leads_attracted done (sg_rank g0 u)
      (fun x => x ∈ st_set st' a) goal u l); auto.
    - apply Hatt; [done|]. assert (Ep : (if (sg_rank g u mod 2 =? 0)%N then 0 else 1) = a).
      { by rewrite even_parity, (sgr_rank _ _ Hsg). }
      unfold b0, b1. rewrite <- Ep. destruct (_ =? 0)%N; cbn; apply orb_true_r.
    - intros x [->|Hx]%Hg; [|auto]. apply Hg2; [done|]. apply Hel; auto. }
  split; [split; cbn [lo_state lo_visited]|split].
  - done.
  - done.
  - intros x [Hx|Hx]%Htv; [apply Hsub; [apply parity_lt|by apply Ht]|].
    assert (Hr : sg_rank g0 x = sg_rank g0 u).
    { destruct b; cbn in Hp; [|subst l; by apply elem_of_nil in Hx].
      destruct Hp as (goal & HL & _). by destruct (proj2 (leads_node done _ goal u l HL) x Hx) as [(_ & ? & _) _]. }
    rewrite Hr. by apply Hpath.
  - by etransitivity.
  - intros dead HW alpha Hal. destruct (HW alpha Hal) as [sigma HR].
    destruct (search_path_region _ u b l alpha dead sigma Hp Hal HR) as (sigma' & R & HR' & ER).
    apply (proj2 (Hatt alpha Hal) dead sigma' R HR').
    + intros x. rewrite (Hel alpha x Hal), ER. intros [?|(-> & -> & ->)]; [auto|]. right. split; [done|].
      cbn in Hp. destruct Hp as (goal & HL & _). by apply (leads_node done _ goal u l HL).
    + intros x. rewrite ER. intros [?|[-> ?]]; auto.
Qed.

End Solved.
