(* ===== verification/FindLoopsTheorems.v ===== *)
(** * Winning loops: the theorems

    [find_loops] returns and is sound: there is a strategy with which the owner
    of a solved set wins from each of its vertices.  It does not record that
    strategy: [find_loops_no_strategy] shows a run after which the assertion
    [strategies_are_set_in_solved_nodes] fails and no counter example can be
    extracted, and a loop that it does not find. *)

From Stdlib Require Import Lia NArith.
From stdpp Require Import base strings numbers sets list gmap.
From S2P Require Import Prelude VertexSets StructureGraph Attractors ParityGame Worklist Solver Evidence.
From S2P Require Import FatalAttractors GraphGame MinRankAttractor FatalAttractorsCorrect FatalTheorems FindLoops FindLoopsCorrect.

Section Theorems.
Context {G : Type} `{StructureGraph G} `{!StructureGraphLaws G}.
Context {X : Type} (find_vertex : X -> option nat).

(** ** The explored variables *)

Definition has_vertex (l : list X) (u : nat) : Prop := exists x, x ∈ l /\ find_vertex x = Some u.

Lemma todo_bits_spec n todo u :
  u < n -> (forall v, has_vertex todo v -> v < n) ->
  bit (todo_bits find_vertex n todo) u = true <-> has_vertex todo u.
Proof.
  intros Hu. unfold todo_bits.
  assert (Hl : forall l bits, length bits = n -> (forall v, has_vertex l v -> v < n) ->
    bit (foldl (fun bits x => match find_vertex x with Some u => set_bit u true bits | None => bits end) bits l) u
      = true <-> bit bits u = true \/ has_vertex l u).
  { induction l as [|x l IH]; intros bits Hb Hlt; cbn.
    { unfold has_vertex. set_solver. }
    assert (Hlt' : forall v, has_vertex l v -> v < n).
    { intros v (y & Hy & Hf). apply Hlt. exists y. split; [by right|done]. }
    assert (Hc : has_vertex (x :: l) u <-> find_vertex x = Some u \/ has_vertex l u).
    { unfold has_vertex. setoid_rewrite elem_of_cons. naive_solver. }
    rewrite Hc. destruct (find_vertex x) as [v|] eqn:Ex.
    - assert (v < n) by (apply Hlt; exists x; split; [left|done]).
      rewrite IH by (rewrite ?length_set_bit; done). rewrite bit_set_bit by lia.
      case_decide; [subst; tauto|]. naive_solver.
    - rewrite IH by done. naive_solver. }
  intros Hlt. rewrite Hl by (try apply length_replicate; done). rewrite bit_empty. naive_solver.
Qed.

Lemma compute_done_spec n discovered todo :
  (forall v, has_vertex todo v -> v < n) -> (forall v, has_vertex discovered v -> v < n) ->
  VSet.ok n (compute_done find_vertex n discovered todo) /\
  forall u, u ∈ VSet.m_vertices (compute_done find_vertex n discovered todo) ->
    has_vertex discovered u /\ ~ has_vertex todo u.
Proof.
  intros Ht Hd. unfold compute_done.
  assert (Hl : forall l V, (forall x, x ∈ l -> x ∈ discovered) -> VSet.ok n V ->
    (forall u, u ∈ VSet.m_vertices V -> has_vertex discovered u /\ ~ has_vertex todo u) ->
    let V' := foldl (fun done x => match find_vertex x with
      | Some u => if bit (todo_bits find_vertex n todo) u then done else VSet.insert done u
      | None => done end) V l in
    VSet.ok n V' /\ forall u, u ∈ VSet.m_vertices V' -> has_vertex discovered u /\ ~ has_vertex todo u).
  { induction l as [|x l IH]; intros V Hsub HV Hel; [done|]. cbn.
    assert (Hsub' : forall y, y ∈ l -> y ∈ discovered) by (intros y Hy; apply Hsub; by right).
    destruct (find_vertex x) as [u|] eqn:Ex; [|by apply IH].
    assert (Hu : has_vertex discovered u) by (exists x; split; [apply Hsub; left|done]).
    specialize (Hd u Hu). destruct (bit (todo_bits find_vertex n todo) u) eqn:Eb; [by apply IH|].
    apply IH; [done|by apply VSet.insert_ok|]. intros w. rewrite (VSet.insert_elem n) by done.
    intros [->|Hw]; [|by apply Hel]. split; [done|]. intros Htu.
    apply (todo_bits_spec n todo u Hd Ht) in Htu. congruence. }
  apply Hl; [done|apply VSet.make_ok|]. intros u Hu. by apply elem_of_nil in Hu.
Qed.

(** C23: [find_loops] always returns, and it is sound: if the solved sets were
    winning regions (for some strategies), they still are, with the vertices on
    the loops that were found and everything attracted to them.  Solved vertices
    stay solved with their strategies in [tau], and only strategies change in
    the graph.  The variables that are discovered but not in the to-do list must
    have their rank, as the code asserts. *)
Theorem find_loops_correct g m S tau steps discovered todo :
  partial_graph g -> sets_fit g m S ->
  (forall u, has_vertex todo u -> u < sg_extent g) ->
  (forall u, has_vertex discovered u -> u < sg_extent g /\
     (sg_rank g u = undefined_index -> has_vertex todo u)) ->
  exists st, find_loops find_vertex discovered todo (mk_fatal g S tau steps) = Some st /\
    same_graph g (fs_graph st) /\ sets_fit g m (fs_S st) /\
    (forall alpha u, alpha < 2 -> u ∈ VSet.m_vertices (pick alpha S) ->
       u ∈ VSet.m_vertices (pick alpha (fs_S st)) /\ tau_at (fs_tau st) alpha u = tau_at tau alpha u) /\
    forall dead,
      (forall alpha, alpha < 2 -> exists sigma,
         graph_region g dead alpha sigma (fun u => u ∈ VSet.m_vertices (pick alpha S))) ->
      forall alpha, alpha < 2 -> exists sigma,
        graph_region g dead alpha sigma (fun u => u ∈ VSet.m_vertices (pick alpha (fs_S st))) /\
        forall u, u ∈ VSet.m_vertices (pick alpha (fs_S st)) -> graph_wins g dead alpha sigma u.
Proof.
  intros Hg HS Ht Hd. pose proof (sets_fit_shape g m S tau steps Hg HS) as Hsh. destruct HS as [Hm HS].
  assert (Em : VSet.extent (fst S) = m) by apply (HS 0). unfold find_loops. cbn [fs_S]. rewrite Em.
  destruct (compute_done_spec m discovered todo) as [Hdok Hdel].
  { intros v Hv. specialize (Ht v Hv). lia. } { intros v Hv. destruct (Hd v Hv). lia. }
  set (done := compute_done find_vertex m discovered todo) in *.
  assert (Hloop : forall l ls, (forall u, u ∈ l -> u ∈ VSet.m_vertices done) -> loops_ok g m done ls ->
    exists ls', fold_option (find_loops_step (Datatypes.S (Datatypes.S (VSet.size done))) done) ls l = Some ls' /\
      loops_ok g m done ls' /\ grows (lo_state ls) (lo_state ls') /\
      forall dead, winnable g dead (lo_state ls) -> winnable g dead (lo_state ls')).
  { induction l as [|u l IH]; intros ls Hl Hls; cbn [fold_option]; [by exists ls|].
    destruct (find_loops_step_spec g m (pg_ok g Hg) Hm (pg_unowned g Hg) done Hdok) with (ls := ls) (u := u)
      as (ls1 & -> & Hls1 & Hg1 & HW1); auto.
    - intros v Hv. destruct (Hdel v Hv) as [Hv' _]. destruct (Hd v Hv'). split; [done|by apply pg_full].
    - intros v Hv Hr. destruct (Hdel v Hv) as [Hv' Hn]. by apply Hn, (Hd v Hv').
    - apply Hl. left.
    - destruct (IH ls1) as (ls' & -> & Hls' & Hg' & HW'); [intros v Hv; apply Hl; by right|done|].
      exists ls'. split; [done|]. split; [done|]. split; [by etransitivity|auto]. }
  destruct (Hloop (VSet.m_vertices done) (mk_loops (mk_fatal g S tau steps) ∅ false false))
    as (ls & -> & [[Hs Hok Hin] _ _] & Hgr & HW); [done| |].
  { split; cbn [lo_state lo_visited]; [done| |]; intros x Hx; [by destruct Hx|done]. }
  exists (lo_state ls). split; [done|]. split; [done|]. split.
  { split; [done|]. intros alpha. split; [apply Hok|]. intros u Hu. apply (Hin alpha u Hu). }
  split; [exact Hgr|]. intros dead H0 alpha Ha. destruct (HW dead H0 alpha Ha) as [sigma HR].
  exists sigma. split; [exact HR|]. intros u Hu. by apply (graph_region_wins g dead alpha sigma _ u HR).
Qed.

End Theorems.

(** ** Examples *)

(** [nu X = X || Y], and [Y] has been discovered but not explored: the
    vertices are 0 and 1, and stand for themselves. *)
Definition loop_graph : SSG.simple_structure_graph nat :=
  SSG.mk_simple [otf_vertex d_disjunction 0 [0] [0; 1]; otf_vertex d_none undefined_index [0] []].

Lemma loop_graph_partial : partial_graph loop_graph.
Proof. apply simple_partial_graph; vm_compute; done. Qed.

(** [nu X0 = X1 || Y], [nu X1 = X2 || Z], [nu X2 = X1], where [Y] and [Z] have
    not been explored. *)
Definition missed_graph : SSG.simple_structure_graph nat :=
  SSG.mk_simple [
    otf_vertex d_disjunction 0 [] [1; 3];
    otf_vertex d_disjunction 0 [0; 2] [2; 4];
    otf_vertex d_none 0 [1] [1];
    otf_vertex d_none undefined_index [0] [];
    otf_vertex d_none undefined_index [1] []
  ].

Lemma loop_graph_fit : sets_fit loop_graph 2 (VSet.make 2, VSet.make 2).
Proof. apply empty_fit. cbn. unfold SSG.extent. cbn. lia. Qed.

(** [find_loops] puts a vertex that lies on a loop into [S[0]] without a
    strategy in [tau[0]]: for [nu X = X || Y] with [Y] unexplored, the assertion
    [strategies_are_set_in_solved_nodes] that follows the call fails, and
    [extract_minimal_structure_graph] meets the undefined vertex (the result
    [None]).  And because vertices seen by an earlier search are not searched
    again, the loop of [X1] and [X2] in [nu X0 = X1 || Y, nu X1 = X2 || Z,
    nu X2 = X1] is not found when [X0] comes first; it is if [X1] does. *)
Lemma find_loops_no_strategy :
  (exists st, find_loops Some [0; 1] [1] (empty_state loop_graph) = Some st /\
     VSet.m_vertices (fst (fs_S st)) = [0] /\
     strategies_are_set_in_solved_nodes (fs_graph st) (fs_S st) (fs_tau st) = false /\
     extract_minimal_structure_graph_tau (fs_graph st) 0 (fst (fs_S st)) (snd (fs_S st)) (fs_tau st) = None) /\
  solved_lists (find_loops Some [0; 1; 2; 3; 4] [3; 4] (empty_state missed_graph)) = Some ([], []) /\
  solved_lists (find_loops Some [1; 2; 0; 3; 4] [3; 4] (empty_state missed_graph)) = Some ([1; 0; 2], []).
Proof. split; [eexists|]; repeat split; vm_compute; reflexivity. Qed.

Lemma find_loops_correct_witness :
  exists st, find_loops Some [0; 1] [1] (empty_state loop_graph) = Some st /\
    VSet.m_vertices (fst (fs_S st)) = [0] /\
    forall dead, exists sigma, graph_wins loop_graph dead 0 sigma 0.
Proof.
  destruct (find_loops_correct Some loop_graph 2 (VSet.make 2, VSet.make 2) ([], []) 0 [0; 1] [1])
    as (st & E & _ & _ & _ & HW).
  - exact loop_graph_partial.
  - exact loop_graph_fit.
  - intros u (x & ->%list_elem_of_singleton & [= <-]). cbn. unfold SSG.extent. cbn. lia.
  - intros u (x & Hx & [= <-]). apply elem_of_cons in Hx as [->|Hx].
    + cbn. unfold SSG.extent. cbn. split; [lia|done].
    + apply list_elem_of_singleton in Hx as ->. cbn. unfold SSG.extent. cbn. split; [lia|].
      intros _. exists 1. split; [left|done].
  - exists st. split; [exact E|].
    assert (El : VSet.m_vertices (fst (fs_S st)) = [0]).
    { apply (solved_lists_elim _ st [0] [] E). vm_compute. reflexivity. }
    split; [exact El|]. intros dead. destruct (HW dead) with (alpha := 0) as (sigma & _ & Hw).
    + intros alpha _. exists (fun _ => None). apply region_empty. intros u Hu.
      destruct alpha; by apply elem_of_nil in Hu.
    + lia.
    + exists sigma. apply Hw. cbn. rewrite El. left.
Defined.
