(* ===== verification/PartialSolve.v ===== *)
(** * Partial solving with the recursive solver
    ([libraries/pbes/include/mcrl2/pbes/pbesinst_partial_solve.h])

    [partial_solve] solves the part of an unfinished graph from which a player
    cannot reach the vertices that are still to be explored.  The theorem says
    what it achieves: the solved sets become their attractors, and nothing else;
    the winning sets of the two calls of the solver are not added to them. *)

From Stdlib Require Import Lia NArith.
From stdpp Require Import base strings numbers sets list.
From S2P Require Import Prelude VertexSets StructureGraph Attractors ParityGame Solver Arena SolverCorrect SolverTheorems.
From S2P Require Import FatalAttractors GraphGame MinRankAttractor FatalAttractorsCorrect FatalTheorems FindLoopsTheorems.

Section Code.
Context {pbes_expression : Type}.
Abbreviation structure_graph := (SG.structure_graph pbes_expression).
Context {X : Type} (find_vertex : X -> option nat).

(** [S_todo[i].insert(u)] for the variables to do. *)
Definition insert_todo (todo : list X) (V : vertex_set) : vertex_set :=
  foldl (fun V x => match find_vertex x with Some u => VSet.insert V u | None => V end) V todo.

(** The loop over [W[alpha]]: [G.decoration(v)], a number, is stored as the
    strategy of [v]. *)
Definition partial_strategy_step (G : structure_graph) (S_alpha : vertex_set) (alpha : nat)
    (d : decoration_type) (tau : strategies) (v : nat) : strategies :=
  if VSet.contains S_alpha v then tau
  else if bool_decide (SG.decoration G v = d)
  then set_local_strategy tau alpha v (Some (decoration_value (SG.decoration G v)))
  else tau.

(** One call of the solver, for the vertices outside [S[alpha]] and the
    attractor of [S_todo], with the loop that follows it. *)
Definition partial_solve_player (alpha : nat) (d : decoration_type) (S_alpha S_todo : vertex_set)
    (G : structure_graph) (tau : strategies) : option (structure_graph * strategies) :=
  match attr_default_no_strategy G S_todo (1 - alpha) with
  | None => None
  | Some A =>
      match solve_without (solve_recursive (solve_fuel G) false) G (VSet.set_union S_alpha A) with
      | None => None
      | Some (G, W) =>
          Some (G, foldl (partial_strategy_step G S_alpha alpha d) tau (VSet.m_vertices (pick alpha W)))
      end
  end.

Definition partial_solve (todo : list X) (st : fatal_state structure_graph)
  : option (fatal_state structure_graph) :=
  let G := fs_graph st in
  let N := SG.extent G in
  let S0 := VSet.truncate (fst (fs_S st)) N in
  let S1 := VSet.truncate (snd (fs_S st)) N in
  match fatal_start G (S0, S1) (fs_tau st) (fs_steps st) with
  | None => None
  | Some st =>
      let '(S0, S1) := fs_S st in
      let S_todo0 := insert_todo todo S0 in
      let S_todo1 := insert_todo todo S1 in
      match partial_solve_player 1 d_conjunction S1 S_todo0 (fs_graph st) (fs_tau st) with
      | None => None
      | Some (G, tau) =>
          match partial_solve_player 0 d_disjunction S0 S_todo1 G tau with
          | None => None
          | Some (G, tau) => Some (mk_fatal G (S0, S1) tau (fs_steps st))
          end
      end
  end.

End Code.

Section Correct.
Context {pbes_expression : Type}.
Abbreviation structure_graph := (SG.structure_graph pbes_expression).
Implicit Types G : structure_graph.
Context {X : Type} (find_vertex : X -> option nat).

Lemma truncate_ok m n V :
  VSet.ok m V -> n <= m -> (forall u, u ∈ VSet.m_vertices V -> u < n) ->
  VSet.ok n (VSet.truncate V n) /\ VSet.m_vertices (VSet.truncate V n) = VSet.m_vertices V.
Proof.
  intros (Hlen & Hnd & Hel) Hn Hlt. unfold VSet.truncate.
  destruct (Nat.ltb_spec n (length (VSet.m_include V))) as [Hl|Hl]; [|split; [|done]; split; [lia|done]].
  split; [|done].
  assert (Hf : forall l b, length b = n -> (forall u, u ∈ l -> u < n) ->
    length (foldl (fun b u => set_bit u true b) b l) = n /\
    forall u, bit (foldl (fun b u => set_bit u true b) b l) u = true <-> bit b u = true \/ u ∈ l).
  { induction l as [|x l IH]; intros b Hb Hl'; cbn; [split; [done|]; set_solver|].
    destruct (IH (set_bit x true b)) as [H1 H2]; [by rewrite length_set_bit|set_solver|].
    split; [done|]. intros u. rewrite H2, bit_set_bit by (rewrite Hb; apply Hl'; left).
    case_decide; set_solver. }
  destruct (Hf (VSet.m_vertices V) (bitset_empty n)) as [H1 H2]; [apply length_replicate|done|].
  split; [done|]. split; [done|]. intros u. cbn [VSet.m_vertices VSet.m_include]. rewrite H2, bit_empty.
  naive_solver.
Qed.

Lemma insert_todo_ok n todo V :
  VSet.ok n V -> (forall u, has_vertex find_vertex todo u -> u < n) ->
  VSet.ok n (insert_todo find_vertex todo V) /\
  forall u, u ∈ VSet.m_vertices (insert_todo find_vertex todo V) <->
    u ∈ VSet.m_vertices V \/ has_vertex find_vertex todo u.
Proof.
  unfold insert_todo. revert V. induction todo as [|x todo IH]; intros V HV Hlt; cbn.
  { split; [done|]. unfold has_vertex. set_solver. }
  assert (Hc : forall u, has_vertex find_vertex (x :: todo) u <->
    find_vertex x = Some u \/ has_vertex find_vertex todo u).
  { intros u. unfold has_vertex. setoid_rewrite elem_of_cons. naive_solver. }
  setoid_rewrite Hc. setoid_rewrite Hc in Hlt.
  destruct (find_vertex x) as [v|].
  - destruct (IH (VSet.insert V v)) as [H1 H2]; [apply VSet.insert_ok; auto|auto|].
    split; [done|]. intros u. rewrite H2, (VSet.insert_elem n) by done. naive_solver.
  - destruct (IH V) as [H1 H2]; [done|auto|]. split; [done|]. intros u. rewrite H2. naive_solver.
Qed.

Lemma same_game_same_graph G G' : same_game G G' -> same_graph G G'.
Proof.
  intros Hs. pose proof Hs as [Ha He _]. split; cbn.
  - by apply same_extent.
  - intros u. unfold SG.contains. by rewrite He.
  - intros u. by rewrite !decoration_arena, Ha.
  - intros u. by rewrite !rank_arena, Ha.
  - intros u. unfold SG.predecessors, SG.contains. by rewrite !predecessors_arena, Ha, He.
  - intros u. unfold SG.successors, SG.contains. by rewrite !successors_arena, Ha, He.
Qed.

(** *** The attractors *)

Lemma attract_exact G A alpha tau :
  valid G -> VSet.ok (SG.extent G) A -> (forall u, u ∈ VSet.m_vertices A -> in_graph G u) ->
  exists A' G' tau', attr_default_with_tau G A alpha tau = Some (A', G', tau') /\ same_game G G' /\
    VSet.ok (SG.extent G) A' /\
    forall u, u ∈ VSet.m_vertices A' <-> attractor G alpha (fun v => v ∈ VSet.m_vertices A) u.
Proof.
  intros HG HA Hin. pose proof (SG.structure_graph_ok_graph_ok G (valid_ok G HG)) as Hok.
  destruct (attr_default_with_tau_same (SG.extent G) G A alpha tau Hok) as (A' & L & E & HA' & EA & HL & Hc);
    [done|done|done|].
  exists A', (record_graph L G), (record_tau alpha L tau). split; [done|].
  split; [exact (record_strategies_same L G)|]. split; [done|]. intros u. split.
  - rewrite EA. apply (attr_trace_sound G alpha _ (VSet.m_vertices A) L HL). intros v Hv. by constructor.
  - revert u. apply (attractor_complete G alpha _ (fun v => v ∈ VSet.m_vertices A')); [|done].
    intros v Hv. rewrite EA. apply elem_of_app. by left.
Qed.

Lemma same_graph_attractor G G' alpha A u :
  same_graph G G' -> attractor G' alpha A u -> attractor G alpha A u.
Proof.
  intros Hs. revert u. apply (attractor_complete G' alpha A (attractor G alpha A)); [by constructor|].
  intros v (Hi & (w & Hw & Ha) & Hd). rewrite (sgr_successors _ _ Hs), (sgr_decoration _ _ Hs) in *.
  apply (same_graph_in _ _ _ Hs) in Hi.
  destruct Hd as [Hd|Hd]; [eapply attractor_own|eapply attractor_all]; eauto.
Qed.

Lemma fatal_start_exact G S tau steps :
  valid G -> (forall alpha, VSet.ok (SG.extent G) (pick alpha S) /\
    forall u, u ∈ VSet.m_vertices (pick alpha S) -> in_graph G u) ->
  exists st, fatal_start G S tau steps = Some st /\ same_game G (fs_graph st) /\
    forall alpha, alpha < 2 -> VSet.ok (SG.extent G) (pick alpha (fs_S st)) /\
      forall u, u ∈ VSet.m_vertices (pick alpha (fs_S st)) <->
        attractor G alpha (fun v => v ∈ VSet.m_vertices (pick alpha S)) u.
Proof.
  intros HG HS. unfold fatal_start.
  destruct (attract_exact G (fst S) 0 tau HG) as (S0 & G1 & t1 & -> & Hs1 & H0 & E0); [apply (HS 0)|apply (HS 0)|].
  pose proof (same_extent _ _ (same_arena _ _ Hs1)) as Hext.
  destruct (attract_exact G1 (snd S) 1 t1) as (S1 & G2 & t2 & -> & Hs2 & H1 & E1).
  { by apply (same_game_valid G). } { rewrite Hext. apply (HS 1). }
  { intros u Hu. apply (same_in_graph _ _ _ Hs1). by apply (HS 1). }
  eexists. split; [done|]. split; [by etransitivity|]. rewrite Hext in H1.
  intros [|[|]] Ha; [| |lia]; (split; [done|]); intros u; cbn [pick fs_S Nat.eqb fst snd]; [apply E0|].
  rewrite E1. split; apply same_graph_attractor; [by apply same_game_same_graph|].
  apply same_game_same_graph. by symmetry.
Qed.

(** *** One player *)

Lemma partial_strategy_at G S_alpha alpha d tau l beta u :
  alpha < 2 -> beta < 2 -> beta <> alpha \/ VSet.contains S_alpha u = true ->
  tau_at (foldl (partial_strategy_step G S_alpha alpha d) tau l) beta u = tau_at tau beta u.
Proof.
  intros Ha Hb Hu. revert tau. induction l as [|v l IH]; intros tau; [done|]. cbn [foldl]. rewrite IH.
  unfold partial_strategy_step. destruct (VSet.contains S_alpha v) eqn:Ev; [done|].
  case_bool_decide; [|done]. rewrite set_local_strategy_at by done. rewrite decide_False; [done|].
  intros [-> ->]. destruct Hu; congruence.
Qed.

Lemma partial_solve_player_spec alpha d S_alpha S_todo G tau :
  alpha < 2 -> valid G -> VSet.ok (SG.extent G) S_alpha -> VSet.ok (SG.extent G) S_todo ->
  (forall u, u ∈ VSet.m_vertices S_todo -> in_graph G u) ->
  (forall u, in_graph G u -> SG.decoration G u = d_true \/ SG.decoration G u = d_false ->
     u ∈ VSet.m_vertices S_alpha \/ u ∈ VSet.m_vertices S_todo) ->
  exists G' tau', partial_solve_player alpha d S_alpha S_todo G tau = Some (G', tau') /\ same_game G G' /\
    forall beta u, beta < 2 -> beta <> alpha \/ u ∈ VSet.m_vertices S_alpha ->
      tau_at tau' beta u = tau_at tau beta u.
Proof.
  intros Ha HG HS HT HTin Hcon. unfold partial_solve_player, attr_default_no_strategy.
  pose proof (SG.structure_graph_ok_graph_ok G (valid_ok G HG)) as Hok.
  destruct (attr_default_generic_spec (SG.extent G) G (1 - alpha) S_todo (tt : no_strategy) Hok)
    as (A & L & -> & HA & EA & _); [done|done|done|].
  destruct (VSet.set_union_ok _ _ _ HS HA) as [HU EU].
  destruct (solve_without_spec (solve_recursive (solve_fuel G) false) false G (VSet.set_union S_alpha A) HG HU)
    as (G' & W & sigma & -> & Hs & _).
  { apply solve_recursive_spec; [by apply sub_valid| |].
    - intros u Hu. apply (sub_in_graph G _ u HG HU) in Hu as [Hu Hn]. rewrite EU in Hn.
      assert (Hn' : u ∉ VSet.m_vertices S_todo) by (intros Hin; apply Hn; right; rewrite EA; set_solver).
      change (SG.decoration (sub G (VSet.set_union S_alpha A)) u) with (SG.decoration G u).
      split; intros E; destruct (Hcon u Hu); auto.
    - unfold solve_fuel. pose proof (card_le (sub G (VSet.set_union S_alpha A))) as Hle.
      change (SG.extent (sub G (VSet.set_union S_alpha A))) with (SG.extent G) in Hle. lia. }
  eexists _, _. split; [done|]. split; [done|]. intros beta u Hb Hu. apply partial_strategy_at; [done|done|].
  destruct Hu as [|Hu]; [by left|right]. by apply (VSet.contains_elem _ _ _ HS).
Qed.

(** *** Both players *)

(** The two calls of the solver: only strategies of unsolved vertices change. *)
Lemma partial_solve_players G S0 S1 todo tau :
  valid G -> VSet.ok (SG.extent G) S0 -> VSet.ok (SG.extent G) S1 ->
  (forall u, u < SG.extent G -> SG.contains G u = true) ->
  (forall u, has_vertex find_vertex todo u -> u < SG.extent G) ->
  (forall u, u < SG.extent G -> (SG.decoration G u = d_true -> u ∈ VSet.m_vertices S0) /\
     (SG.decoration G u = d_false -> u ∈ VSet.m_vertices S1)) ->
  exists G1 t1 G2 t2,
    partial_solve_player 1 d_conjunction S1 (insert_todo find_vertex todo S0) G tau = Some (G1, t1) /\
    partial_solve_player 0 d_disjunction S0 (insert_todo find_vertex todo S1) G1 t1 = Some (G2, t2) /\
    same_game G G2 /\
    forall alpha u, alpha < 2 -> u ∈ VSet.m_vertices (pick alpha (S0, S1)) -> tau_at t2 alpha u = tau_at tau alpha u.
Proof.
  intros HG H0 H1 Hfull Ht Hcon.
  destruct (insert_todo_ok (SG.extent G) todo S0 H0 Ht) as [T0 ET0].
  destruct (insert_todo_ok (SG.extent G) todo S1 H1 Ht) as [T1 ET1].
  assert (Hin : forall u, u < SG.extent G -> in_graph G u) by (intros u Hu; split; [done|by apply Hfull]).
  destruct (partial_solve_player_spec 1 d_conjunction S1 (insert_todo find_vertex todo S0) G tau)
    as (G1 & t1 & E1 & Hs1 & Ht1); auto.
  { intros u Hu. apply Hin. by apply (VSet.ok_lt _ _ _ T0). }
  { intros u [Hu _] Hd. rewrite ET0. destruct (Hcon u Hu), Hd; auto. }
  pose proof (same_extent _ _ (same_arena _ _ Hs1)) as Hext.
  destruct (partial_solve_player_spec 0 d_disjunction S0 (insert_todo find_vertex todo S1) G1 t1)
    as (G2 & t2 & E2 & Hs2 & Ht2); rewrite ?Hext; auto.
  { by apply (same_game_valid G). }
  { intros u Hu. apply (same_in_graph _ _ _ Hs1), Hin. by apply (VSet.ok_lt _ _ _ T1). }
  { intros u Hu Hd. apply (same_in_graph _ _ _ Hs1) in Hu as [Hu _].
    rewrite (same_decoration _ _ u Hs1) in Hd. rewrite ET1. destruct (Hcon u Hu), Hd; auto. }
  exists G1, t1, G2, t2. split; [done|]. split; [done|]. split; [by etransitivity|].
  intros [|[|]] u Ha Hu; [| |lia].
  - rewrite Ht2 by auto. apply Ht1; auto.
  - rewrite Ht2 by auto. apply Ht1; auto.
Qed.

Lemma partial_solve_spec G m S tau steps todo :
  valid G -> (forall u, u < SG.extent G -> SG.contains G u = true) -> sets_fit G m S ->
  (forall u, has_vertex find_vertex todo u -> u < SG.extent G) ->
  (forall u, u < SG.extent G -> (SG.decoration G u = d_true -> u ∈ VSet.m_vertices (fst S)) /\
     (SG.decoration G u = d_false -> u ∈ VSet.m_vertices (snd S))) ->
  exists st, partial_solve find_vertex todo (mk_fatal G S tau steps) = Some st /\
    same_graph G (fs_graph st) /\
    (forall alpha, alpha < 2 -> VSet.ok (SG.extent G) (pick alpha (fs_S st)) /\
       forall u, u ∈ VSet.m_vertices (pick alpha (fs_S st)) <->
         attractor G alpha (fun v => v ∈ VSet.m_vertices (pick alpha S)) u) /\
    forall dead, solved_regions G dead S tau -> solved_regions G dead (fs_S st) (fs_tau st).
Proof.
  intros HG Hfull [Hm HS] Ht Hcon. unfold partial_solve. cbn [fs_graph fs_S fs_tau fs_steps].
  destruct (truncate_ok m (SG.extent G) (fst S)) as [Hok0 E0]; [apply (HS 0)|done|apply (HS 0)|].
  destruct (truncate_ok m (SG.extent G) (snd S)) as [Hok1 E1]; [apply (HS 1)|done|apply (HS 1)|].
  set (S0 := VSet.truncate (fst S) _) in *. set (S1 := VSet.truncate (snd S) _) in *.
  assert (HST : forall alpha, VSet.ok (SG.extent G) (pick alpha (S0, S1)) /\
    VSet.m_vertices (pick alpha (S0, S1)) = VSet.m_vertices (pick alpha S)) by (intros [|n]; done).
  assert (Hsin : forall alpha u, u ∈ VSet.m_vertices (pick alpha (S0, S1)) -> in_graph G u).
  { intros alpha u Hu. assert (u < SG.extent G) by (apply (VSet.ok_lt _ _ _ (proj1 (HST alpha)) Hu)).
    split; [done|by apply Hfull]. }
  destruct (fatal_start_exact G (S0, S1) tau steps HG) as (st & E & Hsg & Hatt).
  { intros alpha. split; [apply HST|apply Hsin]. }
  assert (HR : forall dead, solved_regions G dead S tau -> solved_regions G dead (fs_S st) (fs_tau st)).
  { intros dead HR. destruct (fatal_start_spec G dead (SG.extent G)) with (st := mk_fatal G (S0, S1) tau steps)
      as (st' & E' & _ & _ & _ & HW).
    - apply SG.structure_graph_ok_graph_ok, (valid_ok G HG).
    - done.
    - split; [done|apply HST|exact Hsin].
    - cbn [fs_graph fs_S fs_tau fs_steps] in E'. assert (st' = st) as -> by congruence. apply HW.
      intros alpha Ha. cbn [fs_tau fs_S]. rewrite (proj2 (HST alpha)). by apply HR. }
  rewrite E. destruct (fs_S st) as [A0 A1] eqn:ES.
  pose proof (same_extent _ _ (same_arena _ _ Hsg)) as Hext.
  assert (Hsup : forall alpha u, alpha < 2 -> u ∈ VSet.m_vertices (pick alpha S) ->
    u ∈ VSet.m_vertices (pick alpha (A0, A1))).
  { intros alpha u Ha Hu. apply (proj2 (Hatt alpha Ha)). constructor. by rewrite (proj2 (HST alpha)). }
  destruct (partial_solve_players (fs_graph st) A0 A1 todo (fs_tau st)) as (G1 & t1 & G2 & t2 & -> & -> & Hs2 & Ht2);
    rewrite ?Hext.
  { by apply (same_game_valid G). } { apply (Hatt 0); lia. } { apply (Hatt 1); lia. }
  { intros u Hu. apply (same_in_graph _ _ u Hsg). by split; [|apply Hfull]. } { done. }
  { intros u Hu. rewrite (same_decoration _ _ u Hsg). destruct (Hcon u Hu) as [C0 C1].
    split; intros Hd; [apply (Hsup 0); [lia|by apply C0]|apply (Hsup 1); [lia|by apply C1]]. }
  eexists. split; [done|]. cbn [fs_graph fs_S fs_tau].
  split; [apply same_game_same_graph; by etransitivity|]. split.
  - intros alpha Ha. destruct (Hatt alpha Ha) as [K1 K2]. split; [done|]. intros u. rewrite K2.
    by rewrite (proj2 (HST alpha)).
  - intros dead HR' alpha Ha. eapply region_ext; [|apply (HR dead HR' alpha Ha)].
    intros u Hu. symmetry. by apply Ht2.
Qed.

(** C27: [partial_solve] always returns, and what it adds to the solved sets are
    exactly their attractors: the winning sets that the two calls of the
    recursive solver compute are dropped, whatever they are.  Winning regions
    stay winning regions. *)
Theorem partial_solve_correct G m S tau steps todo :
  valid G -> (forall u, u < SG.extent G -> SG.contains G u = true) -> sets_fit G m S ->
  (forall u, has_vertex find_vertex todo u -> u < SG.extent G) ->
  (forall u, u < SG.extent G -> (SG.decoration G u = d_true -> u ∈ VSet.m_vertices (fst S)) /\
     (SG.decoration G u = d_false -> u ∈ VSet.m_vertices (snd S))) ->
  exists st, partial_solve find_vertex todo (mk_fatal G S tau steps) = Some st /\
    same_graph G (fs_graph st) /\
    (forall alpha, alpha < 2 -> VSet.ok (SG.extent G) (pick alpha (fs_S st)) /\
       forall u, u ∈ VSet.m_vertices (pick alpha (fs_S st)) <->
         attractor G alpha (fun v => v ∈ VSet.m_vertices (pick alpha S)) u) /\
    forall dead, solved_regions G dead S tau -> solved_regions G dead (fs_S st) (fs_tau st).
Proof. apply partial_solve_spec. Qed.

End Correct.

(** [nu X = X || X] as a vertex with a self-loop: it is won by player 0, as the
    recursive solver finds, but it is not added to [S[0]]. *)
Definition self_loop : SG.structure_graph nat :=
  SG.mk_graph [SG.mk_vertex 0 d_disjunction 0 [0] [0] None] 0 [false].

Lemma partial_solve_correct_witness :
  exists st, partial_solve Some [] (mk_fatal self_loop (VSet.make 1024, VSet.make 1024) ([], []) 0) = Some st /\
    (forall u, u ∈ VSet.m_vertices (fst (fs_S st)) -> False) /\
    exists G', solve_recursive (solve_fuel self_loop) false self_loop =
      Some (G', (VSet.of_range 1 [0], VSet.make 1)).
Proof.
  destruct (partial_solve_correct Some self_loop 1024 (VSet.make 1024, VSet.make 1024) ([], []) 0 [])
    as (st & E & _ & HS & _).
  - apply valid_b_sound. reflexivity.
  - intros u Hu. assert (u = 0) as -> by (cbn in Hu; unfold SG.extent in Hu; cbn in Hu; lia). reflexivity.
  - apply empty_fit. cbn. unfold SG.extent. cbn. lia.
  - intros u (x & Hx & _). by apply elem_of_nil in Hx.
  - intros u Hu. assert (u = 0) as -> by (unfold SG.extent in Hu; cbn in Hu; lia). done.
  - exists st. split; [exact E|]. split; [|eexists; vm_compute; reflexivity].
    intros u Hu. apply (HS 0) in Hu; [|lia]. revert u Hu.
    apply (attractor_complete self_loop 0 _ (fun _ => False)).
    + intros u Hu. by apply elem_of_nil in Hu.
    + by intros u (_ & (v & _ & ?) & _).
Defined.
