(* ===== verification/Observations.v ===== *)
(** * Solvers change strategies only

    Any function of a graph that [set_strategy] does not change, such as the
    formulas of the vertices, which the interface [StructureGraph] does not
    give access to, is not changed by the attractor computations, the partial
    solvers and the recursive solver either.  Nothing is assumed about the
    graph, and the statements are about every call that returns. *)

From Stdlib Require Import Lia NArith.
From stdpp Require Import base strings numbers sets list.
From S2P Require Import Prelude VertexSets StructureGraph Attractors ParityGame Solver FatalAttractors FindLoops PartialSolve.

Section Generic.
Context {G : Type} `{StructureGraph G} {T : Type} (obs : G -> T).
Hypothesis Hobs : forall u v g, obs (sg_set_strategy u v g) = obs g.

Lemma attr_loop_obs {S} `{Strategy S} (f : S -> T) fuel g A alpha todo tau A' tau' :
  (forall u v s, f (set_strategy u v s) = f s) ->
  attr_loop fuel g A alpha todo tau = Some (A', tau') -> f tau' = f tau.
Proof.
  intros Hf. revert A todo tau. induction fuel as [|fuel IH]; intros A todo tau E; cbn in E; [done|].
  destruct (Deque.pop_front todo) as [[u d]|]; [|by injection E as <- <-].
  destruct (_ || _); apply IH in E; [by rewrite E, Hf|done].
Qed.

Lemma attr_default_obs g A alpha A' g' : attr_default g A alpha = Some (A', g') -> obs g' = obs g.
Proof.
  unfold attr_default. destruct (attr_default_generic _ _ _ _) as [[B s]|] eqn:E; [|done].
  intros [= <- <-]. apply (attr_loop_obs (fun s => obs (gs_graph s))) in E; [exact E|].
  intros u v s'. apply Hobs.
Qed.

Lemma attr_default_with_tau_obs g A alpha tau A' g' tau' :
  attr_default_with_tau g A alpha tau = Some (A', g', tau') -> obs g' = obs g.
Proof.
  unfold attr_default_with_tau. destruct (attr_default_generic _ _ _ _) as [[B s]|] eqn:E; [|done].
  intros [= <- <- <-]. apply (attr_loop_obs (fun s => obs (gs_graph (gls_global s)))) in E; [exact E|].
  intros u v s'. apply Hobs.
Qed.

Lemma attr_min_rank_loop_obs fuel g A alpha U j compare todo A' g' :
  attr_min_rank_loop fuel g A alpha U j compare todo = Some (A', g') -> obs g' = obs g.
Proof.
  revert g A todo. induction fuel as [|fuel IH]; intros g A todo E; cbn in E; [done|].
  destruct (Deque.pop_front todo) as [[u d]|]; [|by injection E as <- <-].
  destruct (_ || _); apply IH in E; [by rewrite E, Hobs|done].
Qed.

Lemma attr_min_rank_original_loop_obs fuel g A X alpha U j todo A' g' :
  attr_min_rank_original_loop fuel g A X alpha U j todo = Some (A', g') -> obs g' = obs g.
Proof.
  revert g X todo. induction fuel as [|fuel IH]; intros g X todo E; cbn in E; [done|].
  destruct (Deque.pop_front todo) as [[u d]|]; [|by injection E as <- <-].
  destruct (_ || _); apply IH in E; [by rewrite E, Hobs|done].
Qed.

Lemma fatal_attractor_loop_obs fuel g U X Y alpha V j compare steps X' Y' g' steps' :
  fatal_attractor_loop fuel g U X Y alpha V j compare steps = Some (X', Y', g', steps') -> obs g' = obs g.
Proof.
  revert g X Y steps. induction fuel as [|fuel IH]; intros g X Y steps E; cbn [fatal_attractor_loop] in E; [done|].
  destruct (VSet.eqb X Y); [by injection E as <- <- <- <-|].
  destruct (attr_min_rank_generic _ _ _ _ _ _) as [[X1 g1]|] eqn:E1; [|done].
  apply attr_min_rank_loop_obs in E1.
  destruct (attr_default g1 _ _) as [[B g2]|] eqn:E2; [|done]. apply attr_default_obs in E2.
  apply IH in E. congruence.
Qed.

Lemma fatal_add_obs g S tau U_j X Y alpha steps st :
  fatal_add g S tau U_j X Y alpha steps = Some st -> obs (fs_graph st) = obs g.
Proof.
  unfold fatal_add. destruct (attr_default_with_tau _ _ _ _) as [[[A g'] t]|] eqn:E; [|done].
  intros [= <-]. by apply attr_default_with_tau_obs in E.
Qed.

Lemma fatal_iteration_obs V compare st p st' :
  fatal_iteration V compare st p = Some st' -> obs (fs_graph st') = obs (fs_graph st).
Proof.
  unfold fatal_iteration. intros E.
  destruct (attr_min_rank_generic _ _ _ _ _ _) as [[X1 g1]|] eqn:E1; [|done]. apply attr_min_rank_loop_obs in E1.
  destruct (attr_default g1 _ _) as [[B g2]|] eqn:E2; [|done]. apply attr_default_obs in E2.
  destruct (fatal_attractor_loop _ _ _ _ _ _ _ _ _ _) as [[[[X Y] g3] s]|] eqn:E3; [|done].
  apply fatal_attractor_loop_obs in E3. apply fatal_add_obs in E. congruence.
Qed.

Lemma fold_option_obs {B} (f : fatal_state G -> B -> option (fatal_state G)) l st st' :
  (forall s b s', f s b = Some s' -> obs (fs_graph s') = obs (fs_graph s)) ->
  fold_option f st l = Some st' -> obs (fs_graph st') = obs (fs_graph st).
Proof.
  intros Hf. revert st. induction l as [|b l IH]; intros st E; cbn in E; [by injection E as <-|].
  destruct (f st b) as [s|] eqn:Es; [|done]. apply IH in E. apply Hf in Es. congruence.
Qed.

Lemma fatal_start_obs g S tau steps st :
  fatal_start g S tau steps = Some st -> obs (fs_graph st) = obs g.
Proof.
  unfold fatal_start. destruct (attr_default_with_tau g _ _ _) as [[[A g1] t1]|] eqn:E1; [|done].
  destruct (attr_default_with_tau g1 _ _ _) as [[[B g2] t2]|] eqn:E2; [|done]. intros [= <-].
  apply attr_default_with_tau_obs in E1, E2. cbn. congruence.
Qed.

Lemma fatal_attractors_generic_obs compare st st' :
  fatal_attractors_generic compare st = Some st' -> obs (fs_graph st') = obs (fs_graph st).
Proof.
  unfold fatal_attractors_generic. destruct (fatal_start _ _ _ _) as [s|] eqn:E1; [|done]. intros E.
  apply fatal_start_obs in E1. apply fold_option_obs in E; [congruence|]. intros s1 b s2. apply fatal_iteration_obs.
Qed.

Lemma fatal_original_loop_obs fuel V j alpha U_j X st st' :
  fatal_original_loop fuel V j alpha U_j X st = Some st' -> obs (fs_graph st') = obs (fs_graph st).
Proof.
  revert U_j X st. induction fuel as [|fuel IH]; intros U_j X st E; cbn [fatal_original_loop] in E; [done|].
  destruct (_ && _); [|by injection E as <-].
  destruct (attr_min_rank_original _ _ _ _ _) as [[Y g]|] eqn:E1; [|done].
  apply attr_min_rank_original_loop_obs in E1.
  destruct (VSet.is_subset_of _ _); [apply fatal_add_obs in E|apply IH in E]; cbn in *; congruence.
Qed.

Lemma fatal_attractors_original_obs st st' :
  fatal_attractors_original st = Some st' -> obs (fs_graph st') = obs (fs_graph st).
Proof.
  unfold fatal_attractors_original. destruct (fatal_start _ _ _ _) as [s|] eqn:E1; [|done]. intros E.
  apply fatal_start_obs in E1. apply fold_option_obs in E; [congruence|].
  intros s1 b s2. apply fatal_original_loop_obs.
Qed.

Lemma attract_if_obs b alpha st st' :
  attract_if b alpha st = Some st' -> obs (fs_graph st') = obs (fs_graph st).
Proof.
  unfold attract_if. destruct b; [|by intros [= <-]].
  destruct (attr_default_with_tau _ _ _ _) as [[[A g] t]|] eqn:E; [|done]. intros [= <-].
  by apply attr_default_with_tau_obs in E.
Qed.

(** *** [find_loops] *)

Lemma find_loop_successors_obs f v w l g visited b g' visited' :
  (forall g x visited b g' visited', f g x visited = Some (b, g', visited') -> obs g' = obs g) ->
  find_loop_successors f g v w l visited = Some (b, g', visited') -> obs g' = obs g.
Proof.
  intros Hf. revert g visited. induction l as [|u l IH]; intros g visited E; cbn in E; [by injection E as <- <- <-|].
  destruct (u =? v); [injection E as <- <- <-; apply Hobs|].
  destruct (f g u visited) as [[[[] g1] vis1]|] eqn:E1; [| |done]; apply Hf in E1.
  - injection E as <- <- <-. by rewrite Hobs.
  - apply IH in E. congruence.
Qed.

Lemma find_loop_obs fuel U v p g w visited b g' visited' :
  find_loop fuel U v p g w visited = Some (b, g', visited') -> obs g' = obs g.
Proof.
  revert g w visited b g' visited'. induction fuel as [|fuel IH]; intros g w visited b g' visited' E; [done|].
  cbn [find_loop] in E. repeat (case_match; try (by injection E as <- <- <-)).
  by apply find_loop_successors_obs in E.
Qed.

Lemma find_loops_step_obs fuel done ls u ls' :
  find_loops_step fuel done ls u = Some ls' ->
  obs (fs_graph (lo_state ls')) = obs (fs_graph (lo_state ls)).
Proof.
  unfold find_loops_step. destruct (find_loop _ _ _ _ _ _ _) as [[[b g] vis]|] eqn:E1; [|done].
  apply find_loop_obs in E1. destruct (attract_if _ 0 _) as [s1|] eqn:E2; [|done].
  destruct (attract_if _ 1 s1) as [s2|] eqn:E3; [|done]. intros [= <-].
  apply attract_if_obs in E2, E3. cbn in *. congruence.
Qed.

Lemma find_loops_obs {X} (find_vertex : X -> option nat) discovered todo st st' :
  find_loops find_vertex discovered todo st = Some st' -> obs (fs_graph st') = obs (fs_graph st).
Proof.
  unfold find_loops. set (f := find_loops_step _ _). intros E.
  destruct (fold_option f _ _) as [ls|] eqn:E1; [|done]. injection E as <-.
  change (obs (fs_graph st)) with (obs (fs_graph (lo_state (mk_loops st ∅ false false)))).
  revert E1. generalize (mk_loops st ∅ false false). intros ls0.
  generalize (VSet.m_vertices (compute_done find_vertex (VSet.extent (fst (fs_S st))) discovered todo)). intros l.
  revert ls0. induction l as [|u l IH]; intros ls0 E1; cbn in E1; [by injection E1 as <-|].
  destruct (f ls0 u) as [ls1|] eqn:E2; [|done]. apply IH in E1. apply find_loops_step_obs in E2. congruence.
Qed.

End Generic.

(** ** The recursive solver and [partial_solve] *)

Section Solver.
Context {pbes_expression : Type}.
Implicit Types G : SG.structure_graph pbes_expression.

Definition formulas G : list pbes_expression := SG.formula <$> SG.m_vertices G.

Lemma formulas_set_strategy u v G : formulas (SG.set_strategy u v G) = formulas G.
Proof.
  unfold formulas, SG.set_strategy. cbn. apply list_eq. intros i. rewrite !list_lookup_fmap.
  rewrite list_lookup_alter. case_decide; [subst|done]. by destruct (SG.m_vertices G !! i).
Qed.

Lemma set_strategy_step_formulas alpha U G l : formulas (foldl (set_strategy_step alpha U) G l) = formulas G.
Proof.
  revert G. induction l as [|u l IH]; intros G; [done|]. cbn. rewrite IH. unfold set_strategy_step.
  case_match; [|done]. case_match; [|done]. apply formulas_set_strategy.
Qed.

Lemma attr_default_formulas G A alpha A' G' : attr_default G A alpha = Some (A', G') -> formulas G' = formulas G.
Proof. apply attr_default_obs. apply formulas_set_strategy. Qed.

Lemma solve_without_formulas solve G A G' W :
  (forall G G' W, solve G = Some (G', W) -> formulas G' = formulas G) ->
  solve_without solve G A = Some (G', W) -> formulas G' = formulas G.
Proof.
  unfold solve_without. intros Hs. destruct (solve _) as [[G1 W1]|] eqn:E; [|done]. intros [= <- <-].
  by apply Hs in E.
Qed.

Lemma solve_recursive_formulas fuel toms G G' W :
  solve_recursive fuel toms G = Some (G', W) -> formulas G' = formulas G.
Proof.
  revert G G' W. induction fuel as [|fuel IH]; intros G G' W E; cbn [solve_recursive] in E; [done|].
  destruct (SG.is_empty G); [by injection E as <- <-|].
  destruct (get_minmax_rank G) as [[mn mx] U].
  set (G0 := foldl _ G _) in E. assert (E0 : formulas G0 = formulas G) by apply set_strategy_step_formulas.
  destruct (attr_default G0 _ _) as [[A G1]|] eqn:E1; [|done]. apply attr_default_formulas in E1.
  destruct (solve_without _ G1 A) as [[G2 W1]|] eqn:E2; [|done].
  apply (solve_without_formulas _ _ _ _ _ IH) in E2.
  assert (H2 : formulas G2 = formulas G) by congruence. clear E0 E1 E2.
  destruct toms; [|destruct (VSet.is_empty _); [by injection E as <- <-|]];
    (destruct (attr_default G2 _ _) as [[B G3]|] eqn:E3; [|done]); apply attr_default_formulas in E3.
  1: destruct (_ =? _); [injection E as <- <-; congruence|].
  all: destruct (solve_without _ G3 B) as [[G4 W2]|] eqn:E4; [|done];
    apply (solve_without_formulas _ _ _ _ _ IH) in E4; injection E as <- <-; congruence.
Qed.

Lemma partial_solve_player_formulas alpha d S_alpha S_todo G tau G' tau' :
  partial_solve_player alpha d S_alpha S_todo G tau = Some (G', tau') -> formulas G' = formulas G.
Proof.
  unfold partial_solve_player. destruct (attr_default_no_strategy _ _ _) as [A|]; [|done].
  destruct (solve_without _ G _) as [[G1 W]|] eqn:E; [|done]. intros [= <- <-].
  apply (solve_without_formulas _ _ _ _ _ (solve_recursive_formulas _ _)) in E. done.
Qed.

Lemma partial_solve_formulas {X} (find_vertex : X -> option nat) todo st st' :
  partial_solve find_vertex todo st = Some st' -> formulas (fs_graph st') = formulas (fs_graph st).
Proof.
  unfold partial_solve. destruct (fatal_start _ _ _ _) as [s|] eqn:E1; [|done].
  apply (fatal_start_obs formulas) in E1; [|exact formulas_set_strategy]. destruct (fs_S s) as [A0 A1].
  destruct (partial_solve_player 1 _ _ _ _ _) as [[G1 t1]|] eqn:E2; [|done].
  destruct (partial_solve_player 0 _ _ _ _ _) as [[G2 t2]|] eqn:E3; [|done]. intros [= <-].
  apply partial_solve_player_formulas in E2, E3. cbn. congruence.
Qed.

End Solver.
