(* ===== verification/Terms.v ===== *)
(** * Boolean terms: traits, optimized operators and their meaning
    ([core/optimized_boolean_operators.h], [core/term_traits.h])

    The optimized boolean operators are templates over [term_traits<Term>].  The
    traits are the type class [TermTraits]; what the operators rely on is the
    class [TermTraitsSound], stated with respect to a [model] that interprets the
    data.  [data_expression] and [pbes_expression] are instances (files
    [DataExpressions.v] and [PbesExpressions.v]), so every theorem proved here
    holds for both. *)

From Stdlib Require Import Lia Classical.
From stdpp Require Import base strings numbers sets list.
From S2P Require Import Prelude.

(** ** Variable lists and sets

    [data::variable_list] is a list.  A [std::set<data::variable>] is a list
    without duplicates; its order, by address in the code, is not significant. *)

Section Variables.
Context {variable : Type} `{EqDecision variable}.

(** [data::detail::set_intersection] on a list and a set, and the intersection
    of two sets. *)
Definition set_intersection (x y : list variable) : list variable := filter (fun v => v ∈ y) x.

Definition set_difference (x y : list variable) : list variable := filter (fun v => v ∉ y) x.

Definition set_union (x y : list variable) : list variable := x ++ set_difference y x.

(** [make_variable_set] *)
Definition make_variable_set (x : list variable) : list variable := remove_dups x.

(** [std::includes] *)
Definition includes (x y : list variable) : bool := forallb (fun v => bool_decide (v ∈ x)) y.

Lemma elem_of_set_intersection x y v : v ∈ set_intersection x y <-> v ∈ x /\ v ∈ y.
Proof. unfold set_intersection. rewrite list_elem_of_filter. tauto. Qed.

Lemma elem_of_set_difference x y v : v ∈ set_difference x y <-> v ∈ x /\ v ∉ y.
Proof. unfold set_difference. rewrite list_elem_of_filter. tauto. Qed.

Lemma elem_of_set_union x y v : v ∈ set_union x y <-> v ∈ x \/ v ∈ y.
Proof.
  unfold set_union. rewrite elem_of_app, elem_of_set_difference.
  destruct (decide (v ∈ x)); tauto.
Qed.

Lemma elem_of_make_variable_set x v : v ∈ make_variable_set x <-> v ∈ x.
Proof. apply elem_of_remove_dups. Qed.

End Variables.

Create Rewrite HintDb varsets.
#[export] Hint Rewrite @elem_of_set_intersection @elem_of_set_difference @elem_of_set_union
  @elem_of_make_variable_set : varsets.

(** ** Models *)

(** What data expressions mean: values, the domain of a variable's sort (sorts
    are not empty), the truth of a boolean term and the value of a term, given
    the values of its variables. *)
Record model (variable symbol : Type) : Type := mk_model {
  value : Type;
  dom : variable -> value -> Prop;
  dom_witness : variable -> value;
  dom_witness_ok : forall v, dom v (dom_witness v);
  truth : symbol -> list value -> Prop;
  eval : symbol -> list value -> value
}.
Arguments value {variable symbol} _.
Arguments dom {variable symbol} _ _ _.
Arguments dom_witness {variable symbol} _ _.
Arguments dom_witness_ok {variable symbol} _ _.
Arguments truth {variable symbol} _ _ _.
Arguments eval {variable symbol} _ _ _.

Section Quantifiers.
Context {variable symbol : Type} `{EqDecision variable} (M : model variable symbol).
Abbreviation env := (variable -> value M).
Implicit Types (e : env) (P Q : env -> Prop) (S vs : list variable).

Definition upd e (v : variable) (x : value M) : env := fun w => if decide (w = v) then x else e w.

(** Quantification over a list of variables. *)
Fixpoint all_vars vs P e : Prop :=
  match vs with
  | [] => P e
  | v :: vs => forall x, dom M v x -> all_vars vs P (upd e v x)
  end.

Fixpoint ex_vars vs P e : Prop :=
  match vs with
  | [] => P e
  | v :: vs => exists x, dom M v x /\ ex_vars vs P (upd e v x)
  end.

(** [P] only looks at the variables of [S]. *)
Definition supported S P : Prop :=
  forall e e', (forall v, v ∈ S -> e v = e' v) -> P e <-> P e'.

Lemma supported_weaken S T P : (forall v, v ∈ S -> v ∈ T) -> supported S P -> supported T P.
Proof. intros HS HP e e' He. apply HP. auto. Qed.

Lemma all_vars_ext vs P Q e : (forall e', P e' <-> Q e') -> all_vars vs P e <-> all_vars vs Q e.
Proof.
  intros HPQ. revert e. induction vs as [|v vs IH]; intros e; cbn; [done|].
  split; intros H x Hx; apply IH; auto.
Qed.

Lemma ex_vars_dual vs P e : ex_vars vs P e <-> ~ all_vars vs (fun e' => ~ P e') e.
Proof.
  revert e. induction vs as [|v vs IH]; intros e; cbn.
  - split; [tauto|apply NNPP].
  - split.
    + intros (x & Hx & H) Hall. apply IH in H. apply H. by apply Hall.
    + intros H. apply NNPP. intros Hno. apply H. intros x Hx. apply NNPP. intros Hn.
      apply Hno. exists x. split; [done|]. by apply IH.
Qed.

Lemma all_vars_dual vs P e : all_vars vs P e <-> ~ ex_vars vs (fun e' => ~ P e') e.
Proof.
  rewrite ex_vars_dual. split.
  - intros H Hn. apply Hn. revert H. apply all_vars_ext. intros e'. split; [apply NNPP|tauto].
  - intros H. apply NNPP in H. revert H. apply all_vars_ext. intros e'. split; [tauto|apply NNPP].
Qed.

Lemma ex_vars_ext vs P Q e : (forall e', P e' <-> Q e') -> ex_vars vs P e <-> ex_vars vs Q e.
Proof.
  intros HPQ. rewrite !ex_vars_dual. apply not_iff_compat, all_vars_ext.
  intros e'. by rewrite HPQ.
Qed.

(** An environment that takes its values for [vs] from the domains, and agrees
    with [e] on the other variables of [S]. *)
Definition variant S vs e e' : Prop :=
  (forall v, v ∈ vs -> dom M v (e' v)) /\ (forall v, v ∈ S -> v ∉ vs -> e' v = e v).

(** Quantification as a property of the set of variables. *)
Lemma all_vars_spec S vs P e :
  supported S P -> all_vars vs P e <-> forall e', variant S vs e e' -> P e'.
Proof.
  intros HP. revert e. induction vs as [|v vs IH]; intros e; cbn.
  { split.
    - intros H e' [_ He]. revert H. apply HP. intros w Hw. apply He; [done|].
      apply not_elem_of_nil.
    - intros H. apply H. split; [|done]. intros w Hw. by apply elem_of_nil in Hw. }
  split.
  - intros H e' [Hd He]. specialize (H (e' v)). rewrite IH in H. apply H; [apply Hd; left|].
    split; [intros w Hw; apply Hd; by right|]. intros w Hw Hn. unfold upd.
    case_decide as E; [by subst|]. apply He; [done|]. apply not_elem_of_cons. done.
  - intros H x Hx. apply IH. intros e' [Hd He].
    destruct (decide (v ∈ vs)) as [Hv|Hv].
    + apply H. split.
      * intros w [->|Hw]%elem_of_cons; auto.
      * intros w Hw Hn. apply not_elem_of_cons in Hn as [Hwv Hn]. rewrite He by done.
        unfold upd. by rewrite decide_False.
    + assert (Hu : P (upd e' v x)).
      { apply H. split.
        - intros w Hw. unfold upd. case_decide as E; [by subst|].
          apply elem_of_cons in Hw as [->|Hw]; [done|auto].
        - intros w Hw Hn. apply not_elem_of_cons in Hn as [Hwv Hn]. unfold upd.
          rewrite decide_False by done. rewrite He by done. unfold upd. by rewrite decide_False. }
      revert Hu. apply HP. intros w Hw. unfold upd. case_decide as E; [|done]. subst.
      rewrite He by done. unfold upd. by rewrite decide_True.
Qed.

Lemma supported_not S P : supported S P -> supported S (fun e => ~ P e).
Proof. intros HP e e' He. by rewrite (HP e e' He). Qed.

Lemma ex_vars_spec S vs P e :
  supported S P -> ex_vars vs P e <-> exists e', variant S vs e e' /\ P e'.
Proof.
  intros HP. rewrite ex_vars_dual, (all_vars_spec S) by (by apply supported_not). split.
  - intros H. apply NNPP. intros Hno. apply H. intros e' He HPe. apply Hno. eauto.
  - intros (e' & He & HPe) H. by apply (H e').
Qed.

Lemma all_vars_supported S vs P :
  supported S P -> supported (set_difference S vs) (all_vars vs P).
Proof.
  intros HP e e' He. rewrite !(all_vars_spec S) by done.
  assert (Hv : forall x, variant S vs e x <-> variant S vs e' x).
  { intros x. unfold variant. split; intros [Hd Hx]; (split; [done|]); intros w Hw Hn;
      rewrite Hx by done; [|symmetry]; apply He; by apply elem_of_set_difference. }
  split; intros H x Hx; apply H; by apply Hv.
Qed.

Lemma ex_vars_supported S vs P :
  supported S P -> supported (set_difference S vs) (ex_vars vs P).
Proof.
  intros HP e e' He. rewrite !ex_vars_dual. apply not_iff_compat.
  by apply (all_vars_supported S vs _ (supported_not _ _ HP)).
Qed.

(** Only the quantified variables that [P] looks at matter. *)
Lemma all_vars_restrict S vs ws P e :
  supported S P -> (forall v, v ∈ S -> v ∈ vs <-> v ∈ ws) ->
  all_vars vs P e <-> all_vars ws P e.
Proof.
  intros HP. revert vs ws.
  assert (Himp : forall vs ws, (forall v, v ∈ S -> v ∈ vs <-> v ∈ ws) ->
    all_vars vs P e -> all_vars ws P e).
  { intros vs ws Hvs. rewrite !(all_vars_spec S) by done. intros H e' [Hd He].
    set (e2 := fun w => if decide (w ∈ S) then e' w else dom_witness M w).
    assert (H2 : P e2).
    { apply H. split.
      - intros w Hw. unfold e2. case_decide as E; [|apply dom_witness_ok].
        apply Hd. by apply Hvs.
      - intros w Hw Hn. unfold e2. rewrite decide_True by done. apply He; [done|].
        by rewrite <- Hvs. }
    revert H2. apply HP. intros w Hw. unfold e2. by rewrite decide_True. }
  intros vs ws Hvs. split; apply Himp; [done|]. intros v Hv. by rewrite Hvs.
Qed.

Lemma ex_vars_restrict S vs ws P e :
  supported S P -> (forall v, v ∈ S -> v ∈ vs <-> v ∈ ws) ->
  ex_vars vs P e <-> ex_vars ws P e.
Proof.
  intros HP Hvs. rewrite !ex_vars_dual. apply not_iff_compat.
  by apply (all_vars_restrict S); [apply supported_not|].
Qed.

Lemma all_vars_const vs P e : (forall e', P e' <-> P e) -> all_vars vs P e <-> P e.
Proof.
  intros HP. rewrite (all_vars_restrict [] vs []); [done| |set_solver].
  intros x y _. by rewrite (HP x), (HP y).
Qed.

Lemma ex_vars_const vs P e : (forall e', P e' <-> P e) -> ex_vars vs P e <-> P e.
Proof.
  intros HP. rewrite (ex_vars_restrict [] vs []); [done| |set_solver].
  intros x y _. by rewrite (HP x), (HP y).
Qed.

Lemma all_vars_app vs ws P e : all_vars (vs ++ ws) P e <-> all_vars vs (all_vars ws P) e.
Proof.
  revert e. induction vs as [|v vs IH]; intros e; cbn; [done|].
  split; intros H x Hx; apply IH; auto.
Qed.

Lemma all_vars_and vs P Q e :
  all_vars vs (fun e => P e /\ Q e) e <-> all_vars vs P e /\ all_vars vs Q e.
Proof.
  revert e. induction vs as [|v vs IH]; intros e; cbn; [done|]. split.
  - intros H. split; intros x Hx; by apply (IH (upd e v x)), H.
  - intros [H1 H2] x Hx. apply IH. auto.
Qed.

(** A disjunct that does not look at the quantified variables can be taken out. *)
Lemma all_vars_or_left S vs P Q e :
  supported S P -> (forall v, v ∈ S -> v ∉ vs) ->
  all_vars vs (fun e => P e \/ Q e) e <-> P e \/ all_vars vs Q e.
Proof.
  intros HP HS. revert e. induction vs as [|v vs IH]; intros e; cbn; [done|].
  assert (Hu : forall x, P (upd e v x) <-> P e).
  { intros x. apply HP. intros w Hw. unfold upd. rewrite decide_False; [done|].
    intros ->. apply (HS v Hw). left. }
  assert (IH' : forall e, all_vars vs (fun e => P e \/ Q e) e <-> P e \/ all_vars vs Q e).
  { apply IH. intros w Hw Hn. apply (HS w Hw). by right. }
  split.
  - intros H. destruct (classic (P e)) as [|Hn]; [by left|right]. intros x Hx.
    specialize (H x Hx). rewrite IH', Hu in H. tauto.
  - intros [HPe|H] x Hx; rewrite IH', Hu; [by left|right; auto].
Qed.

Lemma not_ex_vars vs P e : ~ ex_vars vs P e <-> all_vars vs (fun e => ~ P e) e.
Proof. rewrite ex_vars_dual. split; [apply NNPP|tauto]. Qed.

Lemma not_all_vars vs P e : ~ all_vars vs P e <-> ex_vars vs (fun e => ~ P e) e.
Proof.
  rewrite ex_vars_dual. apply not_iff_compat, all_vars_ext. intros e'. split; [tauto|apply NNPP].
Qed.

Lemma ex_vars_or vs P Q e :
  ex_vars vs (fun e => P e \/ Q e) e <-> ex_vars vs P e \/ ex_vars vs Q e.
Proof.
  rewrite !ex_vars_dual. rewrite (all_vars_ext vs _ (fun e => ~ P e /\ ~ Q e)) by (intros; tauto).
  rewrite all_vars_and. tauto.
Qed.

End Quantifiers.

Arguments upd {variable symbol _ M} _ _ _ _.

(** ** Term traits *)

(** [core::term_traits<Term>]: construction, recognition and access. *)
Class TermTraits (term variable : Type) := mk_TermTraits {
  tr_true : term;
  tr_false : term;
  tr_not : term -> term;
  tr_and : term -> term -> term;
  tr_or : term -> term -> term;
  tr_imp : term -> term -> term;
  tr_forall : list variable -> term -> term;
  tr_exists : list variable -> term -> term;
  tr_is_true : term -> bool;
  tr_is_false : term -> bool;
  tr_is_not : term -> bool;
  tr_not_arg : term -> term;
  tr_equal : term -> term -> bool;
  tr_find_free_variables : term -> list variable
}.

(** ** The optimized operators ([detail::make_optimized_*]) *)

Section Optimized.
Context {term variable : Type} `{EqDecision variable} `{TermTraits term variable}.

Definition make_optimized_not (arg : term) : term :=
  if tr_is_true arg then tr_false
  else if tr_is_false arg then tr_true
  else if tr_is_not arg then tr_not_arg arg
  else tr_not arg.

Definition make_optimized_and (left right : term) : term :=
  if tr_is_true left then right
  else if tr_is_false left then tr_false
  else if tr_is_true right then left
  else if tr_is_false right then tr_false
  else if tr_equal left right then left
  else tr_and left right.

Definition make_optimized_or (left right : term) : term :=
  if tr_is_true left then tr_true
  else if tr_is_false left then right
  else if tr_is_true right then tr_true
  else if tr_is_false right then left
  else if tr_equal left right then left
  else tr_or left right.

Definition make_optimized_imp (left right : term) : term :=
  if tr_is_true left then right
  else if tr_is_false left then tr_true
  else if tr_is_true right then tr_true
  else if tr_is_false right then make_optimized_not left
  else if tr_equal left right then tr_true
  else tr_imp left right.

Definition make_optimized_forall (v : list variable) (arg : term) (remove_variables : bool) : term :=
  if bool_decide (v = []) then arg
  else if tr_is_true arg then tr_true
  else if tr_is_false arg then tr_false
  else if remove_variables
  then let variables := set_intersection v (tr_find_free_variables arg) in
       if bool_decide (variables = []) then arg else tr_forall variables arg
  else tr_forall v arg.

Definition make_optimized_exists (v : list variable) (arg : term) (remove_variables : bool) : term :=
  if bool_decide (v = []) then arg
  else if tr_is_true arg then tr_true
  else if tr_is_false arg then tr_false
  else if remove_variables
  then let variables := set_intersection v (tr_find_free_variables arg) in
       if bool_decide (variables = []) then arg else tr_exists variables arg
  else tr_exists v arg.

(** The public wrappers with a result. *)
Definition optimized_not (arg : term) : term := make_optimized_not arg.
Definition optimized_and (p q : term) : term := make_optimized_and p q.
Definition optimized_or (p q : term) : term := make_optimized_or p q.
Definition optimized_imp (p q : term) : term := make_optimized_imp p q.
Definition optimized_forall (l : list variable) (p : term) (remove_variables : bool) : term :=
  make_optimized_forall l p remove_variables.
Definition optimized_exists (l : list variable) (p : term) (remove_variables : bool) : term :=
  make_optimized_exists l p remove_variables.

End Optimized.

(** ** What the traits promise

    [holds p e]: the term is true in the environment [e]. *)
Class TermTraitsSound {term variable symbol : Type} `{EqDecision variable}
    (T : TermTraits term variable) (M : model variable symbol)
    (holds : term -> (variable -> value M) -> Prop) : Prop := {
  sound_true : forall e, holds tr_true e;
  sound_false : forall e, ~ holds tr_false e;
  sound_not : forall p e, holds (tr_not p) e <-> ~ holds p e;
  sound_and : forall p q e, holds (tr_and p q) e <-> holds p e /\ holds q e;
  sound_or : forall p q e, holds (tr_or p q) e <-> holds p e \/ holds q e;
  sound_imp : forall p q e, holds (tr_imp p q) e <-> (holds p e -> holds q e);
  sound_forall : forall l p e, holds (tr_forall l p) e <-> all_vars M l (holds p) e;
  sound_exists : forall l p e, holds (tr_exists l p) e <-> ex_vars M l (holds p) e;
  sound_is_true : forall p, tr_is_true p = true -> p = tr_true;
  sound_is_false : forall p, tr_is_false p = true -> p = tr_false;
  sound_is_not : forall p e, tr_is_not p = true -> holds p e <-> ~ holds (tr_not_arg p) e;
  sound_equal : forall p q, tr_equal p q = true -> p = q;
  sound_free : forall p, supported M (tr_find_free_variables p) (holds p)
}.

Section Soundness.
Context {term variable symbol : Type} `{EqDecision variable}
  {T : TermTraits term variable} {M : model variable symbol}
  {holds : term -> (variable -> value M) -> Prop} `{!TermTraitsSound T M holds}.
Implicit Types (p q : term) (e : variable -> value M) (l : list variable).

(** Case analysis on the recognisers. *)
Ltac recognise p :=
  let Ht := fresh in let Hf := fresh in
  destruct (tr_is_true p) eqn:Ht;
  [apply sound_is_true in Ht as ->
  |destruct (tr_is_false p) eqn:Hf; [apply sound_is_false in Hf as ->|]].

Lemma optimized_not_holds p e : holds (make_optimized_not p) e <-> ~ holds p e.
Proof.
  unfold make_optimized_not. pose proof (sound_true e). pose proof (sound_false e).
  recognise p; [tauto|tauto|]. destruct (tr_is_not p) eqn:E; [|apply sound_not].
  rewrite (sound_is_not p e E). split; [tauto|apply NNPP].
Qed.

Lemma optimized_and_holds p q e :
  holds (make_optimized_and p q) e <-> holds p e /\ holds q e.
Proof.
  unfold make_optimized_and. pose proof (sound_true e). pose proof (sound_false e).
  recognise p; [tauto|tauto|]. recognise q; [tauto|tauto|].
  destruct (tr_equal p q) eqn:E; [apply sound_equal in E as ->; tauto|apply sound_and].
Qed.

Lemma optimized_or_holds p q e :
  holds (make_optimized_or p q) e <-> holds p e \/ holds q e.
Proof.
  unfold make_optimized_or. pose proof (sound_true e). pose proof (sound_false e).
  recognise p; [tauto|tauto|]. recognise q; [tauto|tauto|].
  destruct (tr_equal p q) eqn:E; [apply sound_equal in E as ->; tauto|apply sound_or].
Qed.

Lemma optimized_imp_holds p q e :
  holds (make_optimized_imp p q) e <-> (holds p e -> holds q e).
Proof.
  unfold make_optimized_imp. pose proof (sound_true e). pose proof (sound_false e).
  recognise p; [tauto|tauto|]. recognise q; [tauto|rewrite optimized_not_holds; tauto|].
  destruct (tr_equal p q) eqn:E; [apply sound_equal in E as ->; tauto|apply sound_imp].
Qed.

(** A quantifier over variables that do not occur can be left out. *)
Lemma restrict_forall l p e :
  all_vars M (set_intersection l (tr_find_free_variables p)) (holds p) e <->
  all_vars M l (holds p) e.
Proof.
  apply (all_vars_restrict M (tr_find_free_variables p)); [apply sound_free|].
  intros v Hv. rewrite elem_of_set_intersection. tauto.
Qed.

Lemma restrict_exists l p e :
  ex_vars M (set_intersection l (tr_find_free_variables p)) (holds p) e <->
  ex_vars M l (holds p) e.
Proof.
  apply (ex_vars_restrict M (tr_find_free_variables p)); [apply sound_free|].
  intros v Hv. rewrite elem_of_set_intersection. tauto.
Qed.

Lemma constant_true e0 e : holds tr_true e0 <-> holds tr_true e.
Proof. split; intros _; apply sound_true. Qed.

Lemma constant_false e0 e : holds tr_false e0 <-> holds tr_false e.
Proof. split; intros H; by apply sound_false in H. Qed.

Lemma optimized_forall_holds l p r e :
  holds (make_optimized_forall l p r) e <-> all_vars M l (holds p) e.
Proof.
  unfold make_optimized_forall. case_bool_decide as El; [by subst|].
  recognise p.
  - by rewrite all_vars_const; [|intros; apply constant_true].
  - by rewrite all_vars_const; [|intros; apply constant_false].
  - destruct r; [|apply sound_forall].
    rewrite <- restrict_forall. case_bool_decide as E; [by rewrite E|apply sound_forall].
Qed.

Lemma optimized_exists_holds l p r e :
  holds (make_optimized_exists l p r) e <-> ex_vars M l (holds p) e.
Proof.
  unfold make_optimized_exists. case_bool_decide as El; [by subst|].
  recognise p.
  - by rewrite ex_vars_const; [|intros; apply constant_true].
  - by rewrite ex_vars_const; [|intros; apply constant_false].
  - destruct r; [|apply sound_exists].
    rewrite <- restrict_exists. case_bool_decide as E; [by rewrite E|apply sound_exists].
Qed.

End Soundness.

Create Rewrite HintDb optimized.
#[export] Hint Rewrite @optimized_not_holds @optimized_and_holds @optimized_or_holds
  @optimized_imp_holds @optimized_forall_holds @optimized_exists_holds : optimized.
