(* ===== verification/DataExpressions.v ===== *)
(** * Boolean data expressions
    ([data/expression_traits.h], [data/optimized_boolean_operators.h],
    [utilities/detail/join.h])

    A data expression of sort Bool, as far as the boolean rewriters look into it:
    the constants and operators of [sort_bool], the two quantifiers, and any
    other term as a symbol with the variables it contains.  Also the generic
    [split] and [join] on trees of a binary operator. *)

From Stdlib Require Import Lia Classical.
From stdpp Require Import base strings numbers sets list.
From S2P Require Import Prelude Terms.

(** ** [split] and [join] *)

Section Join.
Context {T : Type}.

(** [join]: op(...op(op(t1, t2), t3)..., tn). *)
Definition join (op : T -> T -> T) (empty_sequence_result : T) (l : list T) : T :=
  match l with
  | [] => empty_sequence_result
  | t :: rest => foldl op t rest
  end.

(** [join_balanced]; the fuel is the length of the sequence. *)
Fixpoint join_balanced_loop (fuel : nat) (op : T -> T -> T) (l : list T) : option T :=
  match fuel with
  | O => None
  | S fuel =>
      match l with
      | [] => None
      | [x] => Some x
      | [x; y] => Some (op x y)
      | _ =>
          let d := length l `div` 2 in
          match join_balanced_loop fuel op (take d l), join_balanced_loop fuel op (drop d l) with
          | Some l1, Some l2 => Some (op l1 l2)
          | _, _ => None
          end
      end
  end.

Definition join_balanced (op : T -> T -> T) (l : list T) : option T :=
  join_balanced_loop (length l) op l.

(** A joined sequence of disjuncts (conjuncts) holds if some (every) operand does. *)
Lemma join_exists (f : T -> Prop) op e l :
  (forall x y, f (op x y) <-> f x \/ f y) -> ~ f e -> f (join op e l) <-> Exists f l.
Proof.
  intros Hop He. destruct l as [|x l]; cbn [join]; [rewrite Exists_nil; tauto|]. revert x.
  induction l as [|y l IH]; intros x; cbn [foldl]; [rewrite Exists_cons, Exists_nil; tauto|].
  rewrite IH, !Exists_cons, Hop. tauto.
Qed.

Lemma join_forall (f : T -> Prop) op e l :
  (forall x y, f (op x y) <-> f x /\ f y) -> f e -> f (join op e l) <-> Forall f l.
Proof.
  intros Hop He. destruct l as [|x l]; cbn [join]; [rewrite Forall_nil; tauto|]. revert x.
  induction l as [|y l IH]; intros x; cbn [foldl]; [rewrite Forall_cons, Forall_nil; tauto|].
  rewrite IH, !Forall_cons, Hop. tauto.
Qed.

(** Both ways of joining produce the same sequence of leaves. *)
Lemma join_leaves (leaves : T -> list T) op e l :
  (forall x y, leaves (op x y) = leaves x ++ leaves y) -> l <> [] ->
  leaves (join op e l) = concat (leaves <$> l).
Proof.
  intros Hop Hl. destruct l as [|x l]; [done|]. cbn. revert x Hl.
  induction l as [|y l IH]; intros x _; cbn; [by rewrite app_nil_r|].
  rewrite IH by done. by rewrite Hop, app_assoc.
Qed.

Lemma join_balanced_ind (P : list T -> T -> Prop) op :
  (forall x, P [x] x) ->
  (forall l1 l2 x y, 1 <= length l1 <= length l2 -> length l2 <= S (length l1) ->
     P l1 x -> P l2 y ->
     P (l1 ++ l2) (op x y)) ->
  forall l, l <> [] -> exists x, join_balanced op l = Some x /\ P l x.
Proof.
  intros H1 H2 l. unfold join_balanced. generalize (Nat.le_refl (length l)).
  generalize (length l) at 2 3 as fuel. intros fuel. revert l.
  induction fuel as [|fuel IH]; intros l Hf Hl; [destruct l; cbn in *; [done|lia]|].
  destruct l as [|x [|y [|z l]]]; [done|exists x; auto| |].
  { exists (op x y). split; [done|]. apply (H2 [x] [y]); auto; cbn; lia. }
  set (L := x :: y :: z :: l) in *. assert (HL : (3 <= length L)%nat) by (unfold L; cbn; lia).
  pose proof (Nat.div_lt (length L) 2 ltac:(lia) ltac:(lia)) as Hd.
  pose proof (Nat.div_mod (length L) 2 ltac:(lia)) as Hm.
  pose proof (Nat.mod_upper_bound (length L) 2 ltac:(lia)) as Hu.
  remember (length L `div` 2) as d eqn:Ed.
  assert (Ht : length (take d L) = d) by (rewrite length_take; lia).
  assert (Hr : length (drop d L) = length L - d) by (rewrite length_drop; lia).
  destruct (IH (take d L)) as (a & Ea & Pa); [lia|intros E; rewrite E in Ht; change (0 = d) in Ht; lia|].
  destruct (IH (drop d L)) as (b & Eb & Pb); [lia|intros E; rewrite E in Hr; change (0 = length L - d) in Hr; lia|].
  exists (op a b). cbn [join_balanced_loop].
  unfold L at 1. cbn beta match. fold L. rewrite <- Ed, Ea, Eb. split; [done|]. rewrite <- (take_drop d L).
  apply H2; [lia|lia|done|done].
Qed.

End Join.

(** ** Data expressions *)

Section Data.
Context {variable symbol : Type} `{EqDecision variable} `{EqDecision symbol}.

Inductive data_expression : Type :=
| sort_bool_true
| sort_bool_false
| sort_bool_not (arg : data_expression)
| sort_bool_and (left right : data_expression)
| sort_bool_or (left right : data_expression)
| sort_bool_implies (left right : data_expression)
| data_forall (variables : list variable) (body : data_expression)
| data_exists (variables : list variable) (body : data_expression)
| data_term (f : symbol) (variables : list variable).

#[export] Instance data_expression_eq_dec : EqDecision data_expression.
Proof. solve_decision. Defined.

(** [data::find_free_variables] *)
Fixpoint data_free_variables (x : data_expression) : list variable :=
  match x with
  | sort_bool_true | sort_bool_false => []
  | sort_bool_not p => data_free_variables p
  | sort_bool_and p q | sort_bool_or p q | sort_bool_implies p q =>
      set_union (data_free_variables p) (data_free_variables q)
  | data_forall vs p | data_exists vs p => set_difference (data_free_variables p) vs
  | data_term _ vs => make_variable_set vs
  end.

(** Recognisers and access functions of [sort_bool] and of the traits. *)
Definition data_is_true (x : data_expression) : bool := bool_decide (x = sort_bool_true).
Definition data_is_false (x : data_expression) : bool := bool_decide (x = sort_bool_false).

Definition data_is_not (x : data_expression) : bool :=
  match x with sort_bool_not _ => true | _ => false end.
Definition data_is_and (x : data_expression) : bool :=
  match x with sort_bool_and _ _ => true | _ => false end.
Definition data_is_or (x : data_expression) : bool :=
  match x with sort_bool_or _ _ => true | _ => false end.
Definition data_is_imp (x : data_expression) : bool :=
  match x with sort_bool_implies _ _ => true | _ => false end.

(** [sort_bool::arg]; only applied to negations. *)
Definition data_not_arg (x : data_expression) : data_expression :=
  match x with sort_bool_not p => p | _ => x end.

#[export] Instance data_traits : TermTraits data_expression variable :=
  mk_TermTraits _ _ sort_bool_true sort_bool_false sort_bool_not sort_bool_and sort_bool_or
    sort_bool_implies data_forall data_exists data_is_true data_is_false data_is_not data_not_arg
    (fun x y => bool_decide (x = y)) data_free_variables.

(** [utilities::detail::split] with the recognisers of the traits *)
Fixpoint data_split_or (x : data_expression) : list data_expression :=
  match x with sort_bool_or p q => data_split_or p ++ data_split_or q | _ => [x] end.
Fixpoint data_split_and (x : data_expression) : list data_expression :=
  match x with sort_bool_and p q => data_split_and p ++ data_split_and q | _ => [x] end.

(** *** [data::lazy]: constructors that simplify constants *)

Definition lazy_not (p : data_expression) : data_expression :=
  if data_is_true p then sort_bool_false
  else if data_is_false p then sort_bool_true
  else sort_bool_not p.

Definition lazy_or (p q : data_expression) : data_expression :=
  if data_is_true p || data_is_true q then sort_bool_true
  else if bool_decide (p = q) || data_is_false p then q
  else if data_is_false q then p
  else sort_bool_or p q.

Definition lazy_and (p q : data_expression) : data_expression :=
  if data_is_false p || data_is_false q then sort_bool_false
  else if bool_decide (p = q) || data_is_true p then q
  else if data_is_true q then p
  else sort_bool_and p q.

Definition lazy_implies (p q : data_expression) : data_expression :=
  if data_is_false p || data_is_true q || bool_decide (p = q) then sort_bool_true
  else if data_is_true p then q
  else if data_is_false q then sort_bool_not p
  else sort_bool_implies p q.

(** *** Meaning *)

Context (M : model variable symbol).

Fixpoint data_holds (x : data_expression) (e : variable -> value M) : Prop :=
  match x with
  | sort_bool_true => True
  | sort_bool_false => False
  | sort_bool_not p => ~ data_holds p e
  | sort_bool_and p q => data_holds p e /\ data_holds q e
  | sort_bool_or p q => data_holds p e \/ data_holds q e
  | sort_bool_implies p q => data_holds p e -> data_holds q e
  | data_forall vs p => all_vars M vs (data_holds p) e
  | data_exists vs p => ex_vars M vs (data_holds p) e
  | data_term f vs => truth M f (e <$> vs)
  end.

Lemma data_free_supported x : supported M (data_free_variables x) (data_holds x).
Proof.
  induction x as [| |p IHp|p IHp q IHq|p IHp q IHq|p IHp q IHq|vs p IHp|vs p IHp|f vs];
    try (by intros e e' He; cbn);
    try (intros e e' He; cbn; rewrite (IHp e e'), (IHq e e');
         [done|intros v Hv; apply He; cbn; rewrite elem_of_set_union; auto..]).
  - by apply supported_not.
  - by apply all_vars_supported.
  - by apply ex_vars_supported.
  - intros e e' He. cbn.
    replace (e <$> vs) with (e' <$> vs); [done|]. apply list_fmap_ext.
    intros i v Hv. symmetry. apply He. cbn. apply elem_of_make_variable_set.
    by apply list_elem_of_lookup_2 in Hv.
Qed.

#[export] Instance data_traits_sound : TermTraitsSound data_traits M data_holds.
Proof.
  split; cbn; try done; try tauto.
  - intros p. by intros ?%bool_decide_eq_true.
  - intros p. by intros ?%bool_decide_eq_true.
  - intros p e. by destruct p.
  - intros p q. by intros ?%bool_decide_eq_true.
  - apply data_free_supported.
Qed.

(** The lazy constructors mean what the plain ones mean. *)
Lemma lazy_holds p q e :
  (data_holds (lazy_not p) e <-> ~ data_holds p e) /\
  (data_holds (lazy_or p q) e <-> data_holds p e \/ data_holds q e) /\
  (data_holds (lazy_and p q) e <-> data_holds p e /\ data_holds q e) /\
  (data_holds (lazy_implies p q) e <-> (data_holds p e -> data_holds q e)).
Proof.
  unfold lazy_not, lazy_or, lazy_and, lazy_implies, data_is_true, data_is_false.
  destruct (decide (p = sort_bool_true)) as [->|H1]; [cbn; repeat case_bool_decide; subst; cbn; intuition congruence|].
  destruct (decide (p = sort_bool_false)) as [->|H2]; [cbn; repeat case_bool_decide; subst; cbn; intuition congruence|].
  repeat case_bool_decide; subst; cbn; try done; tauto.
Qed.

Lemma data_split_or_holds x e : data_holds x e <-> Exists (fun p => data_holds p e) (data_split_or x).
Proof.
  induction x as [| | | |p IHp q IHq| | | |];
    try (cbn [data_split_or]; rewrite Exists_cons, Exists_nil; tauto).
  cbn [data_split_or data_holds]. by rewrite Exists_app, IHp, IHq.
Qed.

Lemma data_split_and_holds x e : data_holds x e <-> Forall (fun p => data_holds p e) (data_split_and x).
Proof.
  induction x as [| | |p IHp q IHq| | | | |];
    try (cbn [data_split_and]; rewrite Forall_cons, Forall_nil; tauto).
  cbn [data_split_and data_holds]. by rewrite Forall_app, IHp, IHq.
Qed.

End Data.
Arguments data_expression : clear implicits.
