(* ===== verification/PbesExpressions.v ===== *)
(** * PBES expressions
    ([pbes_expression.h], [join.h], [normalize.h], [complement.h],
    [is_monotonous.h] of [libraries/pbes])

    The predicate formulas of a PBES: boolean data, propositional variable
    instantiations, the boolean operators and the quantifiers.  A formula is
    interpreted in a model of the data and a predicate environment [eta] for the
    propositional variables.  [normalize] pushes negations inwards and throws on
    a negated variable; [is_monotonous] predicts exactly when it does. *)

From Stdlib Require Import Lia Classical.
From stdpp Require Import base strings numbers sets list.
From S2P Require Import Prelude Terms DataExpressions.

Local Open Scope mcrl2_scope.

Section Pbes.
Context {variable symbol : Type} `{EqDecision variable} `{EqDecision symbol}.
Abbreviation data_expression := (data_expression variable symbol).

(** The classes of [pbes_expression.h].  A parameter of an instantiation is a
    data term, given by its symbol and its variables. *)
Inductive pbes_expression : Type :=
| pbes_data (d : data_expression)
| propositional_variable_instantiation (name : string) (parameters : list (symbol * list variable))
| pbes_not (operand : pbes_expression)
| pbes_and (left right : pbes_expression)
| pbes_or (left right : pbes_expression)
| pbes_imp (left right : pbes_expression)
| pbes_forall (variables : list variable) (body : pbes_expression)
| pbes_exists (variables : list variable) (body : pbes_expression).

#[export] Instance pbes_expression_eq_dec : EqDecision pbes_expression.
Proof. solve_decision. Defined.

(** ** Constructors, recognisers and accessors *)

Definition true_ : pbes_expression := pbes_data sort_bool_true.
Definition false_ : pbes_expression := pbes_data sort_bool_false.

Definition is_true (t : pbes_expression) : bool :=
  match t with pbes_data sort_bool_true => true | _ => false end.
Definition is_false (t : pbes_expression) : bool :=
  match t with pbes_data sort_bool_false => true | _ => false end.

Definition is_propositional_variable_instantiation (x : pbes_expression) : bool :=
  match x with propositional_variable_instantiation _ _ => true | _ => false end.
Definition is_not (x : pbes_expression) : bool := match x with pbes_not _ => true | _ => false end.
Definition is_and (x : pbes_expression) : bool := match x with pbes_and _ _ => true | _ => false end.
Definition is_or (x : pbes_expression) : bool := match x with pbes_or _ _ => true | _ => false end.
Definition is_imp (x : pbes_expression) : bool := match x with pbes_imp _ _ => true | _ => false end.
Definition is_forall (x : pbes_expression) : bool :=
  match x with pbes_forall _ _ => true | _ => false end.
Definition is_exists (x : pbes_expression) : bool :=
  match x with pbes_exists _ _ => true | _ => false end.
Definition is_data (x : pbes_expression) : bool := match x with pbes_data _ => true | _ => false end.

(** [is_universal_*]: also negations, conjunctions and disjunctions of data. *)
Definition is_universal_not (t : pbes_expression) : bool :=
  is_not t || match t with pbes_data d => data_is_not d | _ => false end.
Definition is_universal_and (t : pbes_expression) : bool :=
  is_and t || match t with pbes_data d => data_is_and d | _ => false end.
Definition is_universal_or (t : pbes_expression) : bool :=
  is_or t || match t with pbes_data d => data_is_or d | _ => false end.

(** [accessors::arg]: the operand of a negation, the body of a quantifier; on
    other expressions the assertion fails. *)
Definition arg (t : pbes_expression) : pbes_expression :=
  match t with pbes_not p => p | pbes_forall _ p | pbes_exists _ p => p | _ => t end.

(** [accessors::data_arg] also looks into data expressions. *)
Definition data_arg (t : pbes_expression) : pbes_expression :=
  match t with
  | pbes_data d => pbes_data match d with sort_bool_not p => p | _ => d end
  | _ => arg t
  end.

Definition left_ (t : pbes_expression) : pbes_expression :=
  match t with pbes_and p _ | pbes_or p _ | pbes_imp p _ => p | _ => t end.
Definition right_ (t : pbes_expression) : pbes_expression :=
  match t with pbes_and _ q | pbes_or _ q | pbes_imp _ q => q | _ => t end.

(** [data_left] and [data_right] also look into data expressions. *)
Definition data_left (x : pbes_expression) : pbes_expression :=
  match x with
  | pbes_data (sort_bool_and p _) | pbes_data (sort_bool_or p _)
  | pbes_data (sort_bool_implies p _) => pbes_data p
  | _ => left_ x
  end.
Definition data_right (x : pbes_expression) : pbes_expression :=
  match x with
  | pbes_data (sort_bool_and _ q) | pbes_data (sort_bool_or _ q)
  | pbes_data (sort_bool_implies _ q) => pbes_data q
  | _ => right_ x
  end.

(** [make_forall_] and [make_exists_] check for an empty variable list. *)
Definition make_forall_ (l : list variable) (p : pbes_expression) : pbes_expression :=
  if bool_decide (l = []) then p else pbes_forall l p.
Definition make_exists_ (l : list variable) (p : pbes_expression) : pbes_expression :=
  if bool_decide (l = []) then p else pbes_exists l p.

Definition quantifier_variables (x : pbes_expression) : list variable :=
  match x with pbes_forall l _ | pbes_exists l _ => l | _ => [] end.

Fixpoint find_free_variables (x : pbes_expression) : list variable :=
  match x with
  | pbes_data d => data_free_variables d
  | propositional_variable_instantiation _ es => make_variable_set (concat (snd <$> es))
  | pbes_not p => find_free_variables p
  | pbes_and p q | pbes_or p q | pbes_imp p q =>
      set_union (find_free_variables p) (find_free_variables q)
  | pbes_forall vs p | pbes_exists vs p => set_difference (find_free_variables p) vs
  end.

Definition is_constant (x : pbes_expression) : bool := bool_decide (find_free_variables x = []).

#[export] Instance pbes_traits : TermTraits pbes_expression variable :=
  mk_TermTraits _ _ true_ false_ pbes_not pbes_and pbes_or pbes_imp make_forall_ make_exists_
    is_true is_false is_not arg (fun x y => bool_decide (x = y)) find_free_variables.

(** ** Meaning *)

Section Meaning.
Context (M : model variable symbol) (eta : string -> list (value M) -> Prop).

Fixpoint holds (x : pbes_expression) (e : variable -> value M) : Prop :=
  match x with
  | pbes_data d => data_holds M d e
  | propositional_variable_instantiation X es =>
      eta X ((fun p => eval M p.1 (e <$> p.2)) <$> es)
  | pbes_not p => ~ holds p e
  | pbes_and p q => holds p e /\ holds q e
  | pbes_or p q => holds p e \/ holds q e
  | pbes_imp p q => holds p e -> holds q e
  | pbes_forall vs p => all_vars M vs (holds p) e
  | pbes_exists vs p => ex_vars M vs (holds p) e
  end.

Lemma free_supported x : supported M (find_free_variables x) (holds x).
Proof.
  induction x as [d|X es|p IHp|p IHp q IHq|p IHp q IHq|p IHp q IHq|vs p IHp|vs p IHp];
    try (intros e e' He; cbn; rewrite (IHp e e'), (IHq e e');
         [done|intros v Hv; apply He; cbn; rewrite elem_of_set_union; auto..]).
  - apply data_free_supported.
  - intros e e' He. cbn.
    match goal with |- eta X ?a <-> eta X ?b => replace a with b; [done|] end.
    apply list_fmap_ext. intros i [f vs] Hi. cbn. f_equal. apply list_fmap_ext.
    intros j v Hv. symmetry. apply He. cbn. apply elem_of_make_variable_set.
    apply list_elem_of_In, in_concat. exists vs. split; apply list_elem_of_In.
    + apply list_elem_of_fmap. exists (f, vs). split; [done|]. by apply list_elem_of_lookup_2 in Hi.
    + by apply list_elem_of_lookup_2 in Hv.
  - by apply supported_not.
  - by apply all_vars_supported.
  - by apply ex_vars_supported.
Qed.

Lemma make_forall_holds l p e : holds (make_forall_ l p) e <-> all_vars M l (holds p) e.
Proof. unfold make_forall_. by case_bool_decide; subst. Qed.

Lemma make_exists_holds l p e : holds (make_exists_ l p) e <-> ex_vars M l (holds p) e.
Proof. unfold make_exists_. by case_bool_decide; subst. Qed.

#[export] Instance pbes_traits_sound : TermTraitsSound pbes_traits M holds.
Proof.
  split; cbn; try done; try tauto.
  - apply make_forall_holds.
  - apply make_exists_holds.
  - intros [[]| | | | | | |]; done.
  - intros [[]| | | | | | |]; done.
  - intros p e. by destruct p.
  - intros p q. by intros ?%bool_decide_eq_true.
  - apply free_supported.
Qed.

End Meaning.

(** ** Splitting and joining ([join.h]) *)

Definition join_or (l : list pbes_expression) : pbes_expression := join pbes_or false_ l.
Definition join_and (l : list pbes_expression) : pbes_expression := join pbes_and true_ l.

(** [utilities::detail::split] with the recognisers for PBES operators: the
    sequence of operands. *)
Fixpoint split_or (x : pbes_expression) : list pbes_expression :=
  match x with
  | pbes_or p q => split_or p ++ split_or q
  | _ => [x]
  end.

Fixpoint split_and (x : pbes_expression) : list pbes_expression :=
  match x with
  | pbes_and p q => split_and p ++ split_and q
  | _ => [x]
  end.

(** The same with [is_universal_or] and [is_universal_and], which also split
    data expressions. *)
Fixpoint split_universal_or (x : pbes_expression) : list pbes_expression :=
  match x with
  | pbes_or p q => split_universal_or p ++ split_universal_or q
  | pbes_data d => pbes_data <$> data_split_or d
  | _ => [x]
  end.

Fixpoint split_universal_and (x : pbes_expression) : list pbes_expression :=
  match x with
  | pbes_and p q => split_universal_and p ++ split_universal_and q
  | pbes_data d => pbes_data <$> data_split_and d
  | _ => [x]
  end.

(** [split_or] and [split_and] of [join.h] collect the operands in a set. *)
Definition split_or_set (expr : pbes_expression) (split_data_expressions : bool) : list pbes_expression :=
  remove_dups (if split_data_expressions then split_universal_or expr else split_or expr).
Definition split_and_set (expr : pbes_expression) (split_data_expressions : bool) : list pbes_expression :=
  remove_dups (if split_data_expressions then split_universal_and expr else split_and expr).

Definition optimized_join_or (l : list pbes_expression) : pbes_expression :=
  join optimized_or false_ l.
Definition optimized_join_and (l : list pbes_expression) : pbes_expression :=
  join optimized_and true_ l.

(** ** [normalize.h] *)

Fixpoint is_normalized (x : pbes_expression) : bool :=
  match x with
  | pbes_data _ | propositional_variable_instantiation _ _ => true
  | pbes_not _ | pbes_imp _ _ => false
  | pbes_and p q | pbes_or p q => is_normalized p && is_normalized q
  | pbes_forall _ p | pbes_exists _ p => is_normalized p
  end.

(** The printer, used in messages. *)
Context (pp : pbes_expression -> string).

(** [normalize_builder] with its attribute [negated]. *)
Fixpoint normalize_builder (negated : bool) (x : pbes_expression) : outcome pbes_expression :=
  match x with
  | pbes_data d => Returns (pbes_data (if negated then sort_bool_not d else d))
  | pbes_not p => normalize_builder (negb negated) p
  | pbes_and p q =>
      let! l := normalize_builder negated p in
      let! r := normalize_builder negated q in
      Returns (if negated then pbes_or l r else pbes_and l r)
  | pbes_or p q =>
      let! l := normalize_builder negated p in
      let! r := normalize_builder negated q in
      Returns (if negated then pbes_and l r else pbes_or l r)
  | pbes_imp p q =>
      let! l := normalize_builder (negb negated) p in
      let! r := normalize_builder negated q in
      Returns (if negated then pbes_and l r else pbes_or l r)
  | pbes_forall vs p =>
      let! body := normalize_builder negated p in
      Returns (if negated then make_exists_ vs body else make_forall_ vs body)
  | pbes_exists vs p =>
      let! body := normalize_builder negated p in
      Returns (if negated then make_forall_ vs body else make_exists_ vs body)
  | propositional_variable_instantiation _ _ =>
      if negated then Throws ("normalize error: illegal argument " +:+ pp x) else Returns x
  end.

Definition normalize (x : pbes_expression) : outcome pbes_expression := normalize_builder false x.

(** ** [complement.h] *)

(** [complement_builder]: data, conjunctions, disjunctions and variables have
    an overload; every other node gets the default of the builder, which
    rebuilds it from the transformed children. *)
Fixpoint complement (x : pbes_expression) : outcome pbes_expression :=
  match x with
  | pbes_data _ => Returns (pbes_not x)
  | pbes_and p q =>
      let! l := complement p in let! r := complement q in Returns (make_optimized_or l r)
  | pbes_or p q =>
      let! l := complement p in let! r := complement q in Returns (make_optimized_and l r)
  | propositional_variable_instantiation _ _ =>
      Throws ("complement_builder error: unexpected propositional variable encountered " +:+ pp x)
  | pbes_not p => let! l := complement p in Returns (pbes_not l)
  | pbes_imp p q =>
      let! l := complement p in let! r := complement q in Returns (pbes_imp l r)
  | pbes_forall vs p => let! body := complement p in Returns (pbes_forall vs body)
  | pbes_exists vs p => let! body := complement p in Returns (pbes_exists vs body)
  end.

(** ** [is_monotonous.h] *)

(** The recursion strips negations; its depth is bounded by the number of
    nodes, the fuel. *)
Fixpoint size (x : pbes_expression) : nat :=
  match x with
  | pbes_data _ | propositional_variable_instantiation _ _ => 1
  | pbes_not p | pbes_forall _ p | pbes_exists _ p => S (size p)
  | pbes_and p q | pbes_or p q | pbes_imp p q => S (size p + size q)
  end.

Fixpoint is_monotonous_loop (fuel : nat) (f : pbes_expression) : option bool :=
  match fuel with
  | O => None
  | S fuel =>
      let both p q :=
        match is_monotonous_loop fuel p with
        | Some true => is_monotonous_loop fuel q
        | r => r
        end in
      match f with
      | pbes_not f =>
          match f with
          | pbes_data _ => Some true
          | pbes_not p => is_monotonous_loop fuel p
          | pbes_and p q | pbes_or p q => both (pbes_not p) (pbes_not q)
          | pbes_imp p q => both p (pbes_not q)
          | pbes_forall _ p | pbes_exists _ p => is_monotonous_loop fuel (pbes_not p)
          | propositional_variable_instantiation _ _ => Some false
          end
      | pbes_data _ => Some true
      | pbes_and p q | pbes_or p q => both p q
      | pbes_imp p q => both (pbes_not p) q
      | pbes_forall _ p | pbes_exists _ p => is_monotonous_loop fuel p
      | propositional_variable_instantiation _ _ => Some true
      end
  end.

Definition is_monotonous (f : pbes_expression) : option bool := is_monotonous_loop (size f) f.

(** [is_monotonous] of a PBES: of every right hand side, in order. *)
Fixpoint is_monotonous_pbes (equations : list pbes_expression) : option bool :=
  match equations with
  | [] => Some true
  | eqn :: equations =>
      match is_monotonous eqn with
      | Some true => is_monotonous_pbes equations
      | r => r
      end
  end.

End Pbes.
Arguments pbes_expression : clear implicits.
