(* ===== verification/PbesNormalize.v ===== *)
(** * Normal forms and monotonicity of PBES expressions

    What [normalize], [is_normalized], [is_monotonous], [complement] and the
    splitting and joining of operands guarantee. *)

From Stdlib Require Import Lia Classical.
From stdpp Require Import base strings numbers sets list.
From S2P Require Import Prelude Terms DataExpressions PbesExpressions.

Local Open Scope mcrl2_scope.

Section Theory.
Context {variable symbol : Type} `{EqDecision variable} `{EqDecision symbol}.
Abbreviation pbes_expression := (pbes_expression variable symbol).
Context (pp : pbes_expression -> string).
Implicit Types x y p q : pbes_expression.

(** ** Normalization *)

Lemma make_forall_normalized vs x : is_normalized (make_forall_ vs x) = is_normalized x.
Proof. unfold make_forall_. by case_bool_decide. Qed.

Lemma make_exists_normalized vs x : is_normalized (make_exists_ vs x) = is_normalized x.
Proof. unfold make_exists_. by case_bool_decide. Qed.

Lemma outcome_bind_returns {A B} (x : outcome A) (f : A -> outcome B) b :
  outcome_bind x f = Returns b -> exists a, x = Returns a /\ f a = Returns b.
Proof. destruct x; [eauto|done]. Qed.

(** Takes the results of the recursive calls apart. *)
Ltac unbind :=
  repeat match goal with
  | H : outcome_bind _ _ = Returns _ |- _ =>
      let E := fresh "E" in apply outcome_bind_returns in H as (? & E & H); cbn beta in H
  | H : Returns _ = Returns _ |- _ => injection H as <-
  end.

Lemma normalize_builder_normalized negated x y :
  normalize_builder pp negated x = Returns y -> is_normalized y = true.
Proof.
  revert negated y.
  induction x as [d|X es|p IHp|p IHp q IHq|p IHp q IHq|p IHp q IHq|vs p IHp|vs p IHp];
    intros negated y Hy; cbn in Hy; unbind.
  - done.
  - by destruct negated; [|injection Hy as <-].
  - eauto.
  - destruct negated; cbn; rewrite (IHp _ _ E), (IHq _ _ E0); done.
  - destruct negated; cbn; rewrite (IHp _ _ E), (IHq _ _ E0); done.
  - destruct negated; cbn; rewrite (IHp _ _ E), (IHq _ _ E0); done.
  - destruct negated; rewrite ?make_exists_normalized, ?make_forall_normalized; eauto.
  - destruct negated; rewrite ?make_exists_normalized, ?make_forall_normalized; eauto.
Qed.

Section Meaning.
Context (M : model variable symbol) (eta : string -> list (value M) -> Prop).

(** A formula or its negation. *)
Definition signed (negated : bool) (P : Prop) : Prop := if negated then ~ P else P.

Lemma signed_negb negated P : signed (negb negated) P <-> signed negated (~ P).
Proof. destruct negated; cbn; [split; [tauto|apply NNPP]|done]. Qed.

Lemma normalize_builder_holds negated x y e :
  normalize_builder pp negated x = Returns y ->
  holds M eta y e <-> signed negated (holds M eta x e).
Proof.
  revert negated y e.
  induction x as [d|X es|p IHp|p IHp q IHq|p IHp q IHq|p IHp q IHq|vs p IHp|vs p IHp];
    intros negated y e Hy; cbn in Hy; unbind.
  - by destruct negated.
  - by destruct negated; [|injection Hy as <-].
  - rewrite (IHp _ _ e Hy). apply signed_negb.
  - destruct negated; cbn; rewrite (IHp _ _ e E), (IHq _ _ e E0); cbn; [tauto|done].
  - destruct negated; cbn; rewrite (IHp _ _ e E), (IHq _ _ e E0); cbn; [tauto|done].
  - destruct negated; cbn; rewrite (IHp _ _ e E), (IHq _ _ e E0); cbn; [tauto|].
    destruct (classic (holds M eta p e)); tauto.
  - destruct negated; cbn.
    + rewrite make_exists_holds. rewrite all_vars_dual.
      rewrite (ex_vars_ext M vs _ (fun e' => ~ holds M eta p e')); [split; [tauto|apply NNPP]|].
      intros e'. apply (IHp true _ e' E).
    + rewrite make_forall_holds. apply all_vars_ext.
      intros e'. apply (IHp false _ e' E).
  - destruct negated; cbn.
    + rewrite make_forall_holds. rewrite ex_vars_dual.
      rewrite (all_vars_ext M vs _ (fun e' => ~ holds M eta p e')); [split; [tauto|apply NNPP]|].
      intros e'. apply (IHp true _ e' E).
    + rewrite make_exists_holds. apply ex_vars_ext.
      intros e'. apply (IHp false _ e' E).
Qed.

End Meaning.

(** C3: [normalize] returns an equivalent formula without negations and
    implications: [is_normalized] accepts the result, and it has the same truth
    value as the input in every model of the data, for every meaning of the
    propositional variables. *)
Theorem normalize_correct x y :
  normalize pp x = Returns y ->
  is_normalized y = true /\
  forall (M : model variable symbol) eta e, holds M eta y e <-> holds M eta x e.
Proof.
  intros Hy. split; [by eapply normalize_builder_normalized|].
  intros M eta e. apply (normalize_builder_holds M eta false x y e Hy).
Qed.

(** ** Monotonicity *)

(** Every variable is under an even number of negations, or under an odd
    number if [negated]. *)
Fixpoint positive (negated : bool) x : bool :=
  match x with
  | pbes_data _ => true
  | propositional_variable_instantiation _ _ => negb negated
  | pbes_not p => positive (negb negated) p
  | pbes_and p q | pbes_or p q => positive negated p && positive negated q
  | pbes_imp p q => positive (negb negated) p && positive negated q
  | pbes_forall _ p | pbes_exists _ p => positive negated p
  end.

Lemma size_positive x : 0 < size x.
Proof. destruct x; cbn; lia. Qed.

Lemma is_monotonous_loop_spec fuel x :
  size x <= fuel -> is_monotonous_loop fuel x = Some (positive false x).
Proof.
  revert x. induction fuel as [|fuel IH]; intros x Hf; [pose proof (size_positive x); lia|].
  pose proof size_positive as Hp.
  destruct x as [d|X es|x|p q|p q|p q|vs p|vs p]; cbn in Hf |- *; try done.
  - destruct x as [d|X es|p|p q|p q|p q|vs p|vs p]; cbn in Hf |- *; try done;
      rewrite ?IH by (cbn; lia); cbn; try done;
      destruct (positive _ p); cbn; rewrite ?IH by (cbn; lia); done.
  - rewrite IH by lia. destruct (positive false p); [|done]. rewrite IH by lia. done.
  - rewrite IH by lia. destruct (positive false p); [|done]. rewrite IH by lia. done.
  - pose proof (Hp q). rewrite IH by (cbn; lia). cbn. destruct (positive true p); [|done].
    rewrite IH by lia. done.
  - apply IH. lia.
  - apply IH. lia.
Qed.

Lemma outcome_bind_ok {A B} (x : outcome A) (f : A -> outcome B) :
  (exists b, outcome_bind x f = Returns b) <-> exists a, x = Returns a /\ exists b, f a = Returns b.
Proof.
  split.
  - intros [b Hb]. apply outcome_bind_returns in Hb as (a & -> & Hf). eauto.
  - intros (a & -> & b & Hb). eauto.
Qed.

Lemma normalize_builder_returns negated x :
  (exists y, normalize_builder pp negated x = Returns y) <-> positive negated x = true.
Proof.
  revert negated.
  induction x as [d|X es|p IHp|p IHp q IHq|p IHp q IHq|p IHp q IHq|vs p IHp|vs p IHp];
    intros negated; cbn; rewrite ?andb_true_iff.
  - split; eauto.
  - destruct negated; cbn; [split; [by intros []|done]|split; eauto].
  - apply IHp.
  - rewrite <- IHp, <- IHq, outcome_bind_ok. split.
    + intros (l & El & H). apply outcome_bind_ok in H as (r & Er & _). eauto.
    + intros [[l El] [r Er]]. exists l. split; [done|]. apply outcome_bind_ok. eauto.
  - rewrite <- IHp, <- IHq, outcome_bind_ok. split.
    + intros (l & El & H). apply outcome_bind_ok in H as (r & Er & _). eauto.
    + intros [[l El] [r Er]]. exists l. split; [done|]. apply outcome_bind_ok. eauto.
  - rewrite <- IHp, <- IHq, outcome_bind_ok. split.
    + intros (l & El & H). apply outcome_bind_ok in H as (r & Er & _). eauto.
    + intros [[l El] [r Er]]. exists l. split; [done|]. apply outcome_bind_ok. eauto.
  - rewrite <- IHp, outcome_bind_ok. split; [intros (b & Eb & _); eauto|intros [b Eb]; eauto].
  - rewrite <- IHp, outcome_bind_ok. split; [intros (b & Eb & _); eauto|intros [b Eb]; eauto].
Qed.

Lemma is_monotonous_returns x :
  exists b, is_monotonous x = Some b /\ (b = true <-> exists y, normalize pp x = Returns y).
Proof.
  exists (positive false x). split; [by apply is_monotonous_loop_spec|].
  symmetry. apply normalize_builder_returns.
Qed.

(** [is_monotonous] terminates on every formula and is true exactly if
    [normalize] returns a formula, that is, does not throw; on a PBES it is true
    exactly if all right hand sides can be normalized. *)
Lemma is_monotonous_normalize x equations :
  (exists b, is_monotonous x = Some b /\ (b = true <-> exists y, normalize pp x = Returns y)) /\
  exists b, is_monotonous_pbes equations = Some b /\
    (b = true <-> Forall (fun f => exists y, normalize pp f = Returns y) equations).
Proof.
  split; [apply is_monotonous_returns|].
  induction equations as [|f l (b & Eb & Hb)]; cbn; [by exists true|].
  destruct (is_monotonous_returns f) as ([] & -> & Hf).
  - exists b. split; [done|]. rewrite Forall_cons, <- Hf. tauto.
  - exists false. split; [done|]. rewrite Forall_cons, <- Hf. split; [done|tauto].
Qed.

Lemma positive_monotone (M : model variable symbol) (eta eta' : string -> list (value M) -> Prop) x :
  (forall X vs, eta X vs -> eta' X vs) ->
  (forall e, positive false x = true -> holds M eta x e -> holds M eta' x e) /\
  (forall e, positive true x = true -> holds M eta' x e -> holds M eta x e).
Proof.
  intros He.
  assert (Hall : forall vs P Q e, (forall e' : variable -> value M, P e' -> Q e' : Prop) ->
    all_vars M vs P e -> all_vars M vs Q e).
  { intros vs P Q e HPQ. revert e. induction vs as [|v vs IH]; intros e; cbn; [auto|].
    intros H a Ha. apply IH. auto. }
  assert (Hex : forall vs P Q e, (forall e' : variable -> value M, P e' -> Q e' : Prop) ->
    ex_vars M vs P e -> ex_vars M vs Q e).
  { intros vs P Q e HPQ. revert e. induction vs as [|v vs IH]; intros e; cbn; [auto|].
    intros (a & Ha & H). exists a. split; [done|]. by apply IH. }
  induction x as [d|X es|p [IH1 IH2]|p [IH1 IH2] q [IQ1 IQ2]|p [IH1 IH2] q [IQ1 IQ2]
    |p [IH1 IH2] q [IQ1 IQ2]|vs p [IH1 IH2]|vs p [IH1 IH2]];
    split; intros e; cbn; rewrite ?andb_true_iff; try done; try (intros [Hp Hq]); auto.
  all: try (intros Hp; first [apply Hall; by auto|apply Hex; by auto|idtac]).
  all: try (intros Hn; intros H; apply Hn; by auto).
  all: try (intros [? ?]; by auto).
  all: try (intros [?|?]; by auto).
Qed.

(** a formula that [is_monotonous] accepts is monotone in the propositional
    variables: making predicates true more often never makes it false. *)
Lemma is_monotonous_sound x (M : model variable symbol) eta eta' e :
  is_monotonous x = Some true -> (forall X vs, eta X vs -> eta' X vs) ->
  holds M eta x e -> holds M eta' x e.
Proof.
  intros Hm He. assert (Hp : positive false x = true).
  { unfold is_monotonous in Hm. rewrite is_monotonous_loop_spec in Hm by done. congruence. }
  by apply (positive_monotone M eta eta' x He).
Qed.

(** ** Complement *)

(** The formulas on which [complement] has an overload for every node, and
    negation. *)
Fixpoint propositional x : bool :=
  match x with
  | pbes_data _ | propositional_variable_instantiation _ _ => true
  | pbes_not p => propositional p
  | pbes_and p q | pbes_or p q => propositional p && propositional q
  | pbes_imp _ _ | pbes_forall _ _ | pbes_exists _ _ => false
  end.

Lemma complement_holds (M : model variable symbol) eta x y e :
  propositional x = true -> complement pp x = Returns y ->
  holds M eta y e <-> ~ holds M eta x e.
Proof.
  revert y.
  induction x as [d|X es|p IHp|p IHp q IHq|p IHp q IHq|p IHp q IHq|vs p IHp|vs p IHp];
    intros y Hx Hy; cbn in Hx, Hy; try done; unbind.
  - done.
  - cbn. by rewrite (IHp _ Hx E).
  - apply andb_true_iff in Hx as [Hp Hq]. rewrite optimized_or_holds. cbn.
    rewrite (IHp _ Hp E), (IHq _ Hq E0). destruct (classic (holds M eta p e)); tauto.
  - apply andb_true_iff in Hx as [Hp Hq]. rewrite optimized_and_holds. cbn.
    rewrite (IHp _ Hp E), (IHq _ Hq E0). tauto.
Qed.

(** On formulas built from data with negation, conjunction and disjunction
    [complement] is the negation. *)
Lemma complement_propositional (M : model variable symbol) eta x y e :
  propositional x = true -> complement pp x = Returns y ->
  holds M eta y e <-> ~ holds M eta x e.
Proof. apply complement_holds. Qed.

End Theory.

(** ** Splitting and joining *)

Section Operands.
Context {variable symbol : Type} `{EqDecision variable} `{EqDecision symbol}.
Abbreviation pbes_expression := (pbes_expression variable symbol).
Implicit Types x y p q : pbes_expression.

Section Meaning.
Context (M : model variable symbol) (eta : string -> list (value M) -> Prop).
Abbreviation holds := (holds M eta).

Lemma join_or_holds l e : holds (join_or l) e <-> Exists (fun p => holds p e) l.
Proof. apply (join_exists (fun p => holds p e)); [done|]. cbn. tauto. Qed.

Lemma join_and_holds l e : holds (join_and l) e <-> Forall (fun p => holds p e) l.
Proof. by apply (join_forall (fun p => holds p e)). Qed.

Lemma optimized_join_or_holds l e : holds (optimized_join_or l) e <-> Exists (fun p => holds p e) l.
Proof.
  apply (join_exists (fun p => holds p e)); [|cbn; tauto].
  intros x y. apply (optimized_or_holds (T := pbes_traits) (holds := holds)).
Qed.

Lemma optimized_join_and_holds l e : holds (optimized_join_and l) e <-> Forall (fun p => holds p e) l.
Proof.
  apply (join_forall (fun p => holds p e)); [|done].
  intros x y. apply (optimized_and_holds (T := pbes_traits) (holds := holds)).
Qed.

Lemma split_or_holds x e : holds x e <-> Exists (fun p => holds p e) (split_or x).
Proof.
  induction x as [| | | |p IHp q IHq| | |];
    try (cbn [split_or]; rewrite Exists_cons, Exists_nil; tauto).
  cbn [split_or PbesExpressions.holds]. by rewrite Exists_app, IHp, IHq.
Qed.

Lemma split_and_holds x e : holds x e <-> Forall (fun p => holds p e) (split_and x).
Proof.
  induction x as [| | |p IHp q IHq| | | |];
    try (cbn [split_and]; rewrite Forall_cons, Forall_nil; tauto).
  cbn [split_and PbesExpressions.holds]. by rewrite Forall_app, IHp, IHq.
Qed.

Lemma split_universal_or_holds x e : holds x e <-> Exists (fun p => holds p e) (split_universal_or x).
Proof.
  induction x as [d| | | |p IHp q IHq| | |];
    try (cbn [split_universal_or]; rewrite Exists_cons, Exists_nil; tauto);
    cbn [split_universal_or PbesExpressions.holds].
  - rewrite data_split_or_holds, Exists_fmap. done.
  - by rewrite Exists_app, IHp, IHq.
Qed.

Lemma split_universal_and_holds x e : holds x e <-> Forall (fun p => holds p e) (split_universal_and x).
Proof.
  induction x as [d| | |p IHp q IHq| | | |];
    try (cbn [split_universal_and]; rewrite Forall_cons, Forall_nil; tauto);
    cbn [split_universal_and PbesExpressions.holds].
  - rewrite data_split_and_holds, Forall_fmap. done.
  - by rewrite Forall_app, IHp, IHq.
Qed.

End Meaning.

(** the set of operands that [split_or] ([split_and]) returns, with or
    without splitting data expressions, has no duplicates, and joining it again,
    plainly or with the optimized operators, gives a formula with the same value
    as the original one. *)
Lemma split_join_equivalent x (split_data_expressions : bool) :
  NoDup (split_or_set x split_data_expressions) /\
  NoDup (split_and_set x split_data_expressions) /\
  forall (M : model variable symbol) eta e,
    (holds M eta (join_or (split_or_set x split_data_expressions)) e <-> holds M eta x e) /\
    (holds M eta (optimized_join_or (split_or_set x split_data_expressions)) e <-> holds M eta x e) /\
    (holds M eta (join_and (split_and_set x split_data_expressions)) e <-> holds M eta x e) /\
    (holds M eta (optimized_join_and (split_and_set x split_data_expressions)) e <-> holds M eta x e).
Proof.
  split; [apply NoDup_remove_dups|]. split; [apply NoDup_remove_dups|]. intros M eta e.
  rewrite join_or_holds, optimized_join_or_holds, join_and_holds, optimized_join_and_holds.
  assert (Ho : Exists (fun p => holds M eta p e) (split_or_set x split_data_expressions) <-> holds M eta x e).
  { unfold split_or_set. rewrite Exists_exists. setoid_rewrite elem_of_remove_dups.
    rewrite <- Exists_exists. destruct split_data_expressions; symmetry;
      [apply split_universal_or_holds|apply split_or_holds]. }
  assert (Ha : Forall (fun p => holds M eta p e) (split_and_set x split_data_expressions) <-> holds M eta x e).
  { unfold split_and_set. rewrite Forall_forall. setoid_rewrite elem_of_remove_dups.
    rewrite <- Forall_forall. destruct split_data_expressions; symmetry;
      [apply split_universal_and_holds|apply split_and_holds]. }
  by rewrite Ho, Ha.
Qed.

Lemma split_or_leaf x : is_or x = false -> split_or x = [x].
Proof. by destruct x. Qed.

Lemma concat_leaves (f : pbes_expression -> list pbes_expression) l :
  Forall (fun x => f x = [x]) l -> concat (f <$> l) = l.
Proof. induction 1 as [|x l Hx _ IH]; cbn; [done|]. by rewrite Hx, IH. Qed.

(** The number of nested operators above the operands. *)
Fixpoint or_depth x : nat :=
  match x with
  | pbes_or p q => S (Nat.max (or_depth p) (or_depth q))
  | _ => 0
  end.

Lemma log2_up_double a b :
  1 <= a <= b -> b <= S a -> Nat.log2_up (a + b) = S (Nat.log2_up b).
Proof.
  intros Hab Hb. destruct (Nat.eq_dec b 1) as [->|Hn].
  { by replace a with 1 by lia. }
  pose proof (Nat.log2_up_spec b ltac:(lia)) as [H1 H2].
  pose proof (Nat.log2_up_pos b ltac:(lia)) as Hk.
  destruct (Nat.log2_up b) as [|k]; [lia|]. cbn [Nat.pred] in H1.
  rewrite Nat.pow_succ_r' in H2. apply Nat.log2_up_unique; [lia|].
  cbn [Nat.pred]. rewrite !Nat.pow_succ_r'. lia.
Qed.

(** A non-empty sequence of operands that are not disjunctions is found
    back by [split_or] from the disjunction [join_or] makes of it, which is true
    exactly if some operand is; [join_balanced] has the same operands and a tree
    of minimal height. *)
Lemma join_split_or (l : list pbes_expression) :
  l <> [] -> Forall (fun x => is_or x = false) l ->
  split_or (join_or l) = l /\
  (forall (M : model variable symbol) eta e,
     holds M eta (join_or l) e <-> Exists (fun p => holds M eta p e) l) /\
  exists x, join_balanced pbes_or l = Some x /\ split_or x = l /\
    or_depth x = Nat.log2_up (length l).
Proof.
  intros Hl Hleaf.
  assert (Hs : Forall (fun x => split_or x = [x]) l).
  { eapply Forall_impl; [exact Hleaf|]. intros x. apply split_or_leaf. }
  split; [|split].
  - unfold join_or. rewrite (join_leaves split_or) by done. by apply concat_leaves.
  - intros M eta e. apply join_or_holds.
  - destruct (join_balanced_ind (fun l x => Forall (fun x => is_or x = false) l ->
      split_or x = l /\ or_depth x = Nat.log2_up (length l)) pbes_or) with (l := l)
      as (x & Ex & Hx); [| |done|exists x; split; [done|auto]].
    + intros x Hx. apply Forall_inv in Hx. split; [by apply split_or_leaf|]. by destruct x.
    + intros l1 l2 x y Hlen1 Hlen2 H1 H2 [F1 F2]%Forall_app.
      destruct (H1 F1) as [S1 D1], (H2 F2) as [S2 D2]. cbn. split; [by rewrite S1, S2|].
      rewrite length_app, log2_up_double, D1, D2 by lia. f_equal. apply Nat.max_r.
      apply Nat.log2_up_le_mono. lia.
Qed.

End Operands.

(** ** Concrete formulas *)

(** Boolean values, and one predicate on one variable. *)
Definition bool_model : model nat nat :=
  mk_model nat nat bool (fun _ _ => True) (fun _ => true) (fun _ => I)
    (fun _ vs => vs = [true]) (fun _ vs => hd false vs).

Definition no_pp : pbes_expression nat nat -> string := fun _ => "".

(** [b(0)] and [forall 0. b(0)] *)
Definition atom0 : pbes_expression nat nat := pbes_data (data_term 0 [0]).
Definition all_atom0 : pbes_expression nat nat := pbes_forall [0] atom0.

(** [complement] of a universal quantification is not its negation: the
    result is still universally quantified, while the comment in the file asks
    for an existential one. *)
Lemma complement_forall_wrong :
  complement no_pp all_atom0 = Returns (pbes_forall [0] (pbes_not atom0)) /\
  ~ (holds bool_model (fun _ _ => True) (pbes_forall [0] (pbes_not atom0)) (fun _ => true) <->
     ~ holds bool_model (fun _ _ => True) all_atom0 (fun _ => true)).
Proof.
  split; [done|]. cbn. intros [_ H].
  apply (H (fun Hall => ltac:(by specialize (Hall false I))) true I). done.
Qed.

Definition sample : pbes_expression nat nat :=
  pbes_imp (pbes_and atom0 (pbes_not (propositional_variable_instantiation "X" [(0, [0])])))
    (pbes_exists [0] (propositional_variable_instantiation "Y" [])).

Lemma normalize_correct_witness :
  let y := pbes_or (pbes_or (pbes_data (sort_bool_not (data_term 0 [0])))
             (propositional_variable_instantiation "X" [(0, [0])]))
             (pbes_exists [0] (propositional_variable_instantiation "Y" [])) in
  is_normalized y = true /\
  forall (M : model nat nat) eta e, holds M eta y e <-> holds M eta sample e.
Proof. intros y. apply (normalize_correct no_pp sample y). reflexivity. Defined.

