(* ===== verification/PbesRewriters.v ===== *)
(** * Simplifying rewriters
    ([rewriters/simplify_rewriter.h], [rewriters/simplify_quantifiers_rewriter.h]
    of [libraries/pbes])

    [simplify_builder] evaluates constants bottom up; it short-circuits, so the
    order of the recursive calls is modelled as written.
    [simplify_quantifiers_builder] additionally distributes quantifiers.  Both
    preserve the meaning of every formula. *)

From Stdlib Require Import Lia Classical.
From stdpp Require Import base strings numbers sets list.
From S2P Require Import Prelude Terms DataExpressions PbesExpressions.

Section Rewriters.
Context {variable symbol : Type} `{EqDecision variable} `{EqDecision symbol}.
Abbreviation data_expression := (data_expression variable symbol).
Abbreviation pbes_expression := (pbes_expression variable symbol).
Implicit Types x y p q : pbes_expression.

(** ** [add_simplify]

    The cases of [apply], given what the quantifiers are replaced by. *)
Section Builder.
Context (on_forall on_exists : list variable -> pbes_expression -> pbes_expression).

Definition simplify_not (result : pbes_expression) : pbes_expression :=
  if is_false result then true_
  else if is_true result then false_
  else match result with
       | pbes_not p => p
       | _ => pbes_not result
       end.

(** The end of the case for a conjunction or disjunction: two data expressions
    become one. *)
Definition combine_and (l r : pbes_expression) : pbes_expression :=
  match l, r with
  | pbes_data d, pbes_data d' => pbes_data (sort_bool_and d d')
  | _, _ => pbes_and l r
  end.

Definition combine_or (l r : pbes_expression) : pbes_expression :=
  match l, r with
  | pbes_data d, pbes_data d' => pbes_data (sort_bool_or d d')
  | _, _ => pbes_or l r
  end.

Fixpoint simplify (x : pbes_expression) : pbes_expression :=
  match x with
  | pbes_data _ | propositional_variable_instantiation _ _ => x
  | pbes_not p => simplify_not (simplify p)
  | pbes_and p q =>
      let result := simplify p in
      if is_false result then false_
      else if is_true result then simplify q
      else
        let r := simplify q in
        if is_false r then false_
        else if is_true r || bool_decide (result = r) then result
        else combine_and result r
  | pbes_or p q =>
      let result := simplify p in
      if is_true result then true_
      else if is_false result then simplify q
      else
        let r := simplify q in
        if is_true r then true_
        else if is_false r || bool_decide (result = r) then result
        else combine_or result r
  | pbes_imp p q =>
      if is_false p then true_
      else
        let result := simplify q in
        if is_true result then true_
        else if is_false result
        then
          let result := simplify p in
          match result with
          | pbes_not s => s
          | _ => if is_true result then false_
                 else if is_false result then true_
                 else pbes_not result
          end
        else
          let l := simplify p in
          if is_true l then result
          else if is_false l || bool_decide (result = l) then true_
          else pbes_imp l result
  | pbes_forall vs p => on_forall vs (simplify p)
  | pbes_exists vs p => on_exists vs (simplify p)
  end.

End Builder.

(** [simplify_builder]: quantifiers lose the variables that do not occur. *)
Definition simplify_builder : pbes_expression -> pbes_expression :=
  simplify (fun vs p => make_optimized_forall vs p true) (fun vs p => make_optimized_exists vs p true).

(** ** [add_simplify_quantifiers]

    In both cases the first [if] (for an empty variable list or a negated body)
    is followed by another [if], not [else if], so that what it assigns is
    always overwritten; the model follows the assignments. *)
Definition simplify_forall (variables : list variable) (body : pbes_expression) : pbes_expression :=
  let result :=
    if bool_decide (variables = []) then true_
    else match body with
         | pbes_not p => make_optimized_not (make_optimized_exists variables p true)
         | _ => true_
         end in
  match body with
  | pbes_and l r =>
      make_optimized_and (make_optimized_forall variables l true)
        (make_optimized_forall variables r true)
  | pbes_or l r =>
      let lv := set_intersection variables (find_free_variables l) in
      let rv := set_intersection variables (find_free_variables r) in
      if bool_decide (lv = []) then make_optimized_or l (make_optimized_forall rv r true)
      else if bool_decide (rv = []) then make_optimized_or (make_optimized_forall lv l true) r
      else make_optimized_forall variables body true
  | _ => let result := make_optimized_forall variables body true in result
  end.

Definition simplify_exists (variables : list variable) (body : pbes_expression) : pbes_expression :=
  let result :=
    if bool_decide (variables = []) then false_
    else match body with
         | pbes_not p => make_optimized_not (make_optimized_forall variables p true)
         | _ => false_
         end in
  match body with
  | pbes_or l r =>
      make_optimized_or (make_optimized_exists variables l true)
        (make_optimized_exists variables r true)
  | pbes_and l r =>
      let lv := set_intersection variables (find_free_variables l) in
      let rv := set_intersection variables (find_free_variables r) in
      if bool_decide (lv = []) then make_optimized_and l (make_optimized_exists rv r true)
      else if bool_decide (rv = []) then make_optimized_and r (make_optimized_exists lv l true)
      else make_optimized_exists variables body true
  | _ => let result := make_optimized_exists variables body true in result
  end.

Definition simplify_quantifiers_rewriter : pbes_expression -> pbes_expression :=
  simplify simplify_forall simplify_exists.

(** ** Correctness *)

Section Meaning.
Context (M : model variable symbol) (eta : string -> list (value M) -> Prop).
Abbreviation holds := (holds M eta).

Lemma is_true_eq x : is_true x = true -> x = true_.
Proof. by destruct x as [[]| | | | | | |]. Qed.

Lemma is_false_eq x : is_false x = true -> x = false_.
Proof. by destruct x as [[]| | | | | | |]. Qed.

Lemma simplify_not_holds x e : holds (simplify_not x) e <-> ~ holds x e.
Proof.
  unfold simplify_not. destruct (is_false x) eqn:E1; [apply is_false_eq in E1 as ->; cbn; tauto|].
  destruct (is_true x) eqn:E2; [apply is_true_eq in E2 as ->; cbn; tauto|].
  destruct x; cbn; try done. split; [tauto|apply NNPP].
Qed.

Lemma combine_and_holds p q e : holds (combine_and p q) e <-> holds p e /\ holds q e.
Proof. by destruct p, q. Qed.

Lemma combine_or_holds p q e : holds (combine_or p q) e <-> holds p e \/ holds q e.
Proof. by destruct p, q. Qed.

(** Replaces recognised constants. *)
Ltac constants :=
  repeat match goal with
  | |- context [if is_true ?x || ?b then _ else _] => destruct b eqn:?; rewrite ?orb_true_r, ?orb_false_r
  | |- context [if is_false ?x || ?b then _ else _] => destruct b eqn:?; rewrite ?orb_true_r, ?orb_false_r
  | |- context [is_true ?x] => destruct (is_true x) eqn:?
  | |- context [is_false ?x] => destruct (is_false x) eqn:?
  | H : is_true ?x = true |- _ => apply is_true_eq in H
  | H : is_false ?x = true |- _ => apply is_false_eq in H
  | H : bool_decide _ = true |- _ => apply bool_decide_eq_true in H
  end.

Lemma simplify_holds on_forall on_exists x e :
  (forall vs p e, holds (on_forall vs p) e <-> all_vars M vs (holds p) e) ->
  (forall vs p e, holds (on_exists vs p) e <-> ex_vars M vs (holds p) e) ->
  holds (simplify on_forall on_exists x) e <-> holds x e.
Proof.
  intros HA HE. revert e.
  induction x as [d|X es|p IHp|p IHp q IHq|p IHp q IHq|p IHp q IHq|vs p IHp|vs p IHp];
    intros e; cbn [simplify]; try done.
  - by rewrite simplify_not_holds, IHp.
  - cbn. rewrite <- (IHp e), <- (IHq e). set (a := simplify _ _ p). set (b := simplify _ _ q).
    constants; rewrite ?combine_and_holds;
      repeat match goal with H : _ = _ |- _ => rewrite H; clear H end; cbn; tauto.
  - cbn. rewrite <- (IHp e), <- (IHq e). set (a := simplify _ _ p). set (b := simplify _ _ q).
    constants; rewrite ?combine_or_holds;
      repeat match goal with H : _ = _ |- _ => rewrite H; clear H end; cbn; tauto.
  - cbn. destruct (is_false p) eqn:Ep; [apply is_false_eq in Ep as ->; cbn; tauto|].
    rewrite <- (IHp e), <- (IHq e). set (a := simplify _ _ p). set (b := simplify _ _ q).
    clearbody a b. destruct (is_true b) eqn:Eb; [apply is_true_eq in Eb as ->; cbn; tauto|].
    destruct (is_false b) eqn:Eb'.
    { apply is_false_eq in Eb' as ->. rewrite <- (simplify_not_holds a e). unfold simplify_not.
      destruct a as [[]| | | | | | |]; cbn; tauto. }
    constants; repeat match goal with H : _ = _ |- _ => rewrite H; clear H end; cbn; tauto.
  - rewrite HA. cbn. by apply all_vars_ext.
  - rewrite HE. cbn. by apply ex_vars_ext.
Qed.

Lemma simplify_builder_holds x e : holds (simplify_builder x) e <-> holds x e.
Proof.
  apply simplify_holds; intros vs p e'; [apply optimized_forall_holds|apply optimized_exists_holds].
Qed.

Lemma pbes_restrict_forall vs p e :
  all_vars M (set_intersection vs (find_free_variables p)) (holds p) e <-> all_vars M vs (holds p) e.
Proof. apply (restrict_forall (T := pbes_traits) (holds := holds)). Qed.

Lemma pbes_restrict_exists vs p e :
  ex_vars M (set_intersection vs (find_free_variables p)) (holds p) e <-> ex_vars M vs (holds p) e.
Proof. apply (restrict_exists (T := pbes_traits) (holds := holds)). Qed.

(** Distribution of a quantifier over the operands of [or] and [and]. *)
Lemma forall_or_left vs p q e :
  set_intersection vs (find_free_variables p) = [] ->
  all_vars M vs (fun e => holds p e \/ holds q e) e <-> holds p e \/ all_vars M vs (holds q) e.
Proof.
  intros Hv. apply (all_vars_or_left M (find_free_variables p)); [apply free_supported|].
  intros v Hp Hvs. apply (not_elem_of_nil v). rewrite <- Hv. by apply elem_of_set_intersection.
Qed.

Lemma exists_and_left vs p q e :
  set_intersection vs (find_free_variables p) = [] ->
  ex_vars M vs (fun e => holds p e /\ holds q e) e <-> holds p e /\ ex_vars M vs (holds q) e.
Proof.
  intros Hv. rewrite !ex_vars_dual.
  rewrite (all_vars_ext M vs _ (fun e => ~ holds p e \/ ~ holds q e)) by (intros; tauto).
  change (fun e => ~ holds p e \/ ~ holds q e)
    with (fun e => holds (pbes_not p) e \/ holds (pbes_not q) e).
  rewrite (forall_or_left vs (pbes_not p) (pbes_not q) e Hv). cbn. tauto.
Qed.

Lemma simplify_forall_holds vs p e : holds (simplify_forall vs p) e <-> all_vars M vs (holds p) e.
Proof.
  unfold simplify_forall.
  destruct p as [d|X es|p|p q|p q|p q|ws p|ws p]; try apply optimized_forall_holds.
  - rewrite optimized_and_holds, !optimized_forall_holds. symmetry. apply all_vars_and.
  - case_bool_decide as Hl; [|case_bool_decide as Hr; [|apply optimized_forall_holds]].
    + rewrite optimized_or_holds, optimized_forall_holds.
      rewrite (pbes_restrict_forall vs q e). symmetry. by apply forall_or_left.
    + rewrite optimized_or_holds, optimized_forall_holds.
      rewrite (pbes_restrict_forall vs p e).
      rewrite (all_vars_ext M vs (holds (pbes_or p q)) (fun e => holds q e \/ holds p e))
        by (intros; cbn; tauto).
      rewrite forall_or_left by done. tauto.
Qed.

Lemma simplify_exists_holds vs p e : holds (simplify_exists vs p) e <-> ex_vars M vs (holds p) e.
Proof.
  unfold simplify_exists.
  destruct p as [d|X es|p|p q|p q|p q|ws p|ws p]; try apply optimized_exists_holds.
  - case_bool_decide as Hl; [|case_bool_decide as Hr; [|apply optimized_exists_holds]].
    + rewrite optimized_and_holds, optimized_exists_holds.
      rewrite (pbes_restrict_exists vs q e). symmetry. by apply exists_and_left.
    + rewrite optimized_and_holds, optimized_exists_holds.
      rewrite (pbes_restrict_exists vs p e).
      rewrite (ex_vars_ext M vs (holds (pbes_and p q)) (fun e => holds q e /\ holds p e))
        by (intros; cbn; tauto).
      rewrite exists_and_left by done. tauto.
  - rewrite optimized_or_holds, !optimized_exists_holds. symmetry. apply ex_vars_or.
Qed.

Lemma simplify_quantifiers_holds x e : holds (simplify_quantifiers_rewriter x) e <-> holds x e.
Proof. apply simplify_holds; [apply simplify_forall_holds|apply simplify_exists_holds]. Qed.

End Meaning.

(** C34: the simplifying rewriters preserve meaning: in every model and for every
    meaning of the propositional variables, a formula, its [simplify_rewriter]
    result and its [simplify_quantifiers_rewriter] result have the same value. *)
Theorem simplify_rewriters_correct x (M : model variable symbol) eta e :
  (PbesExpressions.holds M eta (simplify_builder x) e <-> PbesExpressions.holds M eta x e) /\
  (PbesExpressions.holds M eta (simplify_quantifiers_rewriter x) e <->
   PbesExpressions.holds M eta x e).
Proof. split; [apply simplify_builder_holds|apply simplify_quantifiers_holds]. Qed.

(** *** The simplified form *)

(** No constant is left below an operator, nothing is negated twice, no operand
    is repeated, two data operands are one, and quantifiers bind only variables
    that occur. *)
Fixpoint simplified (x : pbes_expression) : bool :=
  let constant p := is_true p || is_false p in
  match x with
  | pbes_data _ | propositional_variable_instantiation _ _ => true
  | pbes_not p => negb (constant p || is_not p) && simplified p
  | pbes_and p q | pbes_or p q =>
      negb (constant p || constant q || bool_decide (p = q) || (is_data p && is_data q)) &&
      simplified p && simplified q
  | pbes_imp p q =>
      negb (constant p || constant q || bool_decide (p = q)) && simplified p && simplified q
  | pbes_forall vs p | pbes_exists vs p =>
      negb (bool_decide (vs = []) || constant p) &&
      bool_decide (set_intersection vs (find_free_variables p) = vs) && simplified p
  end.

(** Replaces recognisers whose value is known. *)
Ltac rewrite_bools := repeat match goal with H : ?b = false |- context [?b] => rewrite H end.

Lemma simplified_not p : simplified p = true -> simplified (simplify_not p) = true.
Proof.
  unfold simplify_not. destruct (is_false p) eqn:E1; [done|]. destruct (is_true p) eqn:E2; [done|].
  intros H.
  assert (is_not p = false -> simplified (pbes_not p) = true)
    by (intros E3; cbn [simplified]; by rewrite E1, E2, E3, H).
  destruct p; auto. cbn [simplified] in H. by apply andb_prop in H as [_ H].
Qed.

Lemma simplified_combine_and p q :
  is_true p = false -> is_false p = false -> is_true q = false -> is_false q = false -> p <> q ->
  simplified p = true -> simplified q = true -> simplified (combine_and p q) = true.
Proof.
  intros H1 H2 H3 H4 Hne Hp Hq.
  assert (is_data p && is_data q = false -> simplified (pbes_and p q) = true).
  { intros E. cbn [simplified]. by rewrite H1, H2, H3, H4, E, Hp, Hq, bool_decide_eq_false_2. }
  destruct p, q; auto.
Qed.

Lemma simplified_combine_or p q :
  is_true p = false -> is_false p = false -> is_true q = false -> is_false q = false -> p <> q ->
  simplified p = true -> simplified q = true -> simplified (combine_or p q) = true.
Proof.
  intros H1 H2 H3 H4 Hne Hp Hq.
  assert (is_data p && is_data q = false -> simplified (pbes_or p q) = true).
  { intros E. cbn [simplified]. by rewrite H1, H2, H3, H4, E, Hp, Hq, bool_decide_eq_false_2. }
  destruct p, q; auto.
Qed.

Lemma set_intersection_idemp (vs ws : list variable) :
  set_intersection (set_intersection vs ws) ws = set_intersection vs ws.
Proof. unfold set_intersection. rewrite list_filter_filter. apply list_filter_iff. tauto. Qed.

(** Both optimized quantifiers keep a simplified body simplified. *)
Lemma simplified_quantifier (Q : list variable -> pbes_expression -> pbes_expression) vs p :
  (forall vs p, simplified (Q vs p) =
     negb (bool_decide (vs = []) || (is_true p || is_false p)) &&
     bool_decide (set_intersection vs (find_free_variables p) = vs) && simplified p) ->
  is_true p = false -> is_false p = false -> simplified p = true ->
  let ws := set_intersection vs (find_free_variables p) in
  simplified (if bool_decide (ws = []) then p else Q ws p) = true.
Proof.
  intros HQ H1 H2 Hp ws. case_bool_decide as E; [done|].
  rewrite HQ, H1, H2, Hp, bool_decide_eq_false_2, bool_decide_eq_true_2; [done| |done].
  apply set_intersection_idemp.
Qed.

Lemma simplified_optimized_forall vs p :
  simplified p = true -> simplified (make_optimized_forall vs p true) = true.
Proof.
  intros Hp. unfold make_optimized_forall. case_bool_decide; [done|]. cbn [tr_is_true tr_is_false pbes_traits].
  destruct (is_true p) eqn:E1; [done|]. destruct (is_false p) eqn:E2; [done|].
  cbn [tr_forall tr_find_free_variables pbes_traits]. unfold make_forall_.
  set (ws := set_intersection vs (find_free_variables p)).
  transitivity (simplified (if bool_decide (ws = []) then p else pbes_forall ws p));
    [by repeat case_bool_decide|by apply simplified_quantifier].
Qed.

Lemma simplified_optimized_exists vs p :
  simplified p = true -> simplified (make_optimized_exists vs p true) = true.
Proof.
  intros Hp. unfold make_optimized_exists. case_bool_decide; [done|]. cbn [tr_is_true tr_is_false pbes_traits].
  destruct (is_true p) eqn:E1; [done|]. destruct (is_false p) eqn:E2; [done|].
  cbn [tr_exists tr_find_free_variables pbes_traits]. unfold make_exists_.
  set (ws := set_intersection vs (find_free_variables p)).
  transitivity (simplified (if bool_decide (ws = []) then p else pbes_exists ws p));
    [by repeat case_bool_decide|by apply simplified_quantifier].
Qed.

Lemma simplify_builder_simplified x : simplified (simplify_builder x) = true.
Proof.
  unfold simplify_builder.
  induction x as [d|X es|p IHp|p IHp q IHq|p IHp q IHq|p IHp q IHq|vs p IHp|vs p IHp];
    cbn [simplify]; try done.
  - by apply simplified_not.
  - destruct (is_false (simplify _ _ p)) eqn:?; [done|]. destruct (is_true (simplify _ _ p)) eqn:?; [done|].
    destruct (is_false (simplify _ _ q)) eqn:?; [done|]. destruct (is_true (simplify _ _ q)) eqn:?; [done|].
    cbn [orb]. case_bool_decide; [done|]. by apply simplified_combine_and.
  - destruct (is_true (simplify _ _ p)) eqn:?; [done|]. destruct (is_false (simplify _ _ p)) eqn:?; [done|].
    destruct (is_true (simplify _ _ q)) eqn:?; [done|]. destruct (is_false (simplify _ _ q)) eqn:?; [done|].
    cbn [orb]. case_bool_decide; [done|]. by apply simplified_combine_or.
  - destruct (is_false p); [done|].
    destruct (is_true (simplify _ _ q)) eqn:E1; [done|]. destruct (is_false (simplify _ _ q)) eqn:E2.
    + generalize (simplified_not _ IHp). unfold simplify_not. by destruct (simplify _ _ p) as [[]| | | | | | |].
    + destruct (is_true (simplify _ _ p)) eqn:E3; [done|]. destruct (is_false (simplify _ _ p)) eqn:E4; [done|].
      cbn [orb]. case_bool_decide; [done|]. cbn [simplified].
      by rewrite E1, E2, E3, E4, IHp, IHq, bool_decide_eq_false_2 by congruence.
  - by apply simplified_optimized_forall.
  - by apply simplified_optimized_exists.
Qed.

(** A simplified formula is left alone. *)
Lemma simplify_builder_id x : simplified x = true -> simplify_builder x = x.
Proof.
  unfold simplify_builder.
  induction x as [d|X es|p IHp|p IHp q IHq|p IHp q IHq|p IHp q IHq|vs p IHp|vs p IHp];
    cbn [simplified simplify]; try done; intros H;
    rewrite ?andb_true_iff, ?negb_true_iff, ?orb_false_iff in H; destruct_and?.
  - rewrite IHp by done. unfold simplify_not. rewrite_bools. by destruct p.
  - rewrite IHp, IHq by done. rewrite_bools. cbn [orb]. by destruct p, q.
  - rewrite IHp, IHq by done. rewrite_bools. cbn [orb]. by destruct p, q.
  - rewrite IHp, IHq by done. rewrite_bools. cbn [orb]. rewrite bool_decide_eq_false_2; [done|].
    intros ->. by rewrite bool_decide_eq_true_2 in * by done.
  - rewrite IHp by done. unfold make_optimized_forall. cbn [tr_is_true tr_is_false tr_find_free_variables pbes_traits].
    rewrite_bools. match goal with H : bool_decide (set_intersection _ _ = _) = true |- _ =>
      apply bool_decide_eq_true in H; rewrite H end. cbn. unfold make_forall_. by rewrite_bools.
  - rewrite IHp by done. unfold make_optimized_exists. cbn [tr_is_true tr_is_false tr_find_free_variables pbes_traits].
    rewrite_bools. match goal with H : bool_decide (set_intersection _ _ = _) = true |- _ =>
      apply bool_decide_eq_true in H; rewrite H end. cbn. unfold make_exists_. by rewrite_bools.
Qed.

(** the result of [simplify_rewriter] is in simplified form - no constant
    below an operator, no double negation, no repeated operand, no two data
    operands side by side, no quantified variable that does not occur - and
    rewriting it again changes nothing. *)
Lemma simplify_rewriter_normal_form x :
  simplified (simplify_builder x) = true /\
  simplify_builder (simplify_builder x) = simplify_builder x.
Proof. split; [|apply simplify_builder_id]; apply simplify_builder_simplified. Qed.

End Rewriters.
