(* ===== verification/QuantifiersInside.v ===== *)
(** * Pushing quantifiers inside
    ([rewriters/quantifiers_inside_rewriter.h] of [libraries/data] and of
    [libraries/pbes])

    A quantified disjunction (conjunction) is split into two parts [Phi] and
    [Psi], such that part of the variables can be pushed into the parts
    separately.  The recursion is not structural, since the operands are
    rejoined; a weight that decreases in every call is the fuel, and the
    theorems show that it suffices. *)

From Stdlib Require Import Lia Classical.
From stdpp Require Import base strings numbers sets list.
From S2P Require Import Prelude Terms DataExpressions PbesExpressions PbesNormalize.

(** ** Splitting the operands *)

Section Split.
Context {term variable : Type} `{EqDecision variable} `{TermTraits term variable}.
Implicit Types (X : list term) (V : list variable).

(** [std::min_element] on the number of elements: the first smallest one. *)
Fixpoint min_element (j : list variable) (vars : list (list variable)) : list variable :=
  match vars with
  | [] => j
  | v :: vars => min_element (if length v <? length j then v else j) vars
  end.

(** [compute_Phi_Psi]: [Phi] collects the operands whose variables are among
    those of the operand with the fewest variables. *)
Definition phi_psi (X : list term) (V : list variable) : list term * list term :=
  let var x := set_intersection (tr_find_free_variables x) V in
  let Z := match var <$> X with [] => [] | v :: vars => min_element v vars end in
  (filter (fun x => includes Z (var x) = true) X, filter (fun x => ~ includes Z (var x) = true) X).

Definition compute_Phi_Psi (X : list term) (V : list variable) (op : term -> term -> term)
    (empty_sequence_result : term) : term * term :=
  let '(phi, psi) := phi_psi X V in
  (join op empty_sequence_result phi, join op empty_sequence_result psi).

Lemma min_element_in j vars : min_element j vars ∈ j :: vars.
Proof.
  revert j. induction vars as [|v vars IH]; intros j; cbn [min_element]; [left|].
  specialize (IH (if length v <? length j then v else j)). revert IH.
  destruct (length v <? length j); rewrite !elem_of_cons; tauto.
Qed.

Lemma includes_refl (Z : list variable) : includes Z Z = true.
Proof. apply forallb_forall. intros v Hv. apply bool_decide_eq_true. by apply list_elem_of_In. Qed.

Lemma phi_nonempty X V : X <> [] -> (phi_psi X V).1 <> [].
Proof.
  intros HX. destruct X as [|x X]; [done|]. unfold phi_psi. cbn -[filter].
  set (var y := set_intersection (tr_find_free_variables y) V).
  pose proof (min_element_in (var x) (var <$> X)) as Hin. set (Z := min_element _ _) in *.
  assert (exists y, y ∈ x :: X /\ Z = var y) as (y & Hy & HZ).
  { apply elem_of_cons in Hin as [->|Hin]; [exists x; split; [left|done]|].
    apply list_elem_of_fmap in Hin as (y & -> & Hy). exists y. split; [by right|done]. }
  intros E. apply (not_elem_of_nil y). rewrite <- E. apply list_elem_of_filter.
  split; [|done]. rewrite HZ. apply includes_refl.
Qed.

(** The two parts make up the sequence. *)
Lemma phi_psi_elem X V x : x ∈ X <-> x ∈ (phi_psi X V).1 \/ x ∈ (phi_psi X V).2.
Proof. unfold phi_psi. cbn -[filter]. rewrite !list_elem_of_filter. destruct (includes _ _); tauto. Qed.

(** Weights: a node of the operator adds one to the weights of its operands. *)
Context (weight : term -> nat) (op : term -> term -> term).
Hypothesis weight_op : forall x y, weight (op x y) = S (weight x + weight y).

Definition total (X : list term) : nat := sum_list ((fun x => S (weight x)) <$> X).

Lemma total_app X Y : total (X ++ Y) = total X + total Y.
Proof. unfold total. rewrite fmap_app. induction X; cbn; lia. Qed.

Lemma total_phi_psi X V : total (phi_psi X V).1 + total (phi_psi X V).2 = total X.
Proof.
  unfold phi_psi. cbn -[filter]. generalize (match (fun x => set_intersection (tr_find_free_variables x) V) <$> X with
    [] => [] | v :: vars => min_element v vars end) as Z. intros Z.
  induction X as [|x X IH]; [done|]. rewrite !filter_cons.
  destruct (includes Z _); repeat case_decide; try congruence; unfold total in *; cbn in *; lia.
Qed.

Lemma join_total e X : X <> [] -> S (weight (join op e X)) = total X.
Proof.
  intros HX. destruct X as [|x X]; [done|]. cbn. revert x HX.
  induction X as [|y X IH]; intros x _; cbn; [unfold total; cbn; lia|].
  rewrite IH by done. unfold total. cbn. rewrite weight_op. lia.
Qed.

(** If both parts have operands, both joins are smaller. *)
Lemma compute_Phi_Psi_weight X V e n :
  X <> [] -> total X <= S n -> (phi_psi X V).2 <> [] ->
  weight (compute_Phi_Psi X V op e).1 < n /\ weight (compute_Phi_Psi X V op e).2 < n.
Proof.
  intros HX Hn Hpsi. pose proof (total_phi_psi X V). pose proof (phi_nonempty X V HX) as Hphi.
  unfold compute_Phi_Psi. destruct (phi_psi X V) as [phi psi]. cbn [fst snd] in *.
  pose proof (join_total e phi Hphi). pose proof (join_total e psi Hpsi). lia.
Qed.

End Split.

(** The meaning of the joined parts, for any sound traits. *)
Section JoinMeaning.
Context {term variable symbol : Type} `{EqDecision variable}
  {T : TermTraits term variable} {M : model variable symbol}
  {holds : term -> (variable -> value M) -> Prop} `{!TermTraitsSound T M holds}.
Implicit Types (X : list term) (e : variable -> value M).

Lemma join_tr_or X e : holds (join tr_or tr_false X) e <-> Exists (fun p => holds p e) X.
Proof. apply (join_exists (fun p => holds p e)); [intros; apply sound_or|apply sound_false]. Qed.

Lemma join_tr_and X e : holds (join tr_and tr_true X) e <-> Forall (fun p => holds p e) X.
Proof. apply (join_forall (fun p => holds p e)); [intros; apply sound_and|apply sound_true]. Qed.

Lemma Phi_Psi_or X V e :
  Exists (fun p => holds p e) X <->
  holds (compute_Phi_Psi X V tr_or tr_false).1 e \/ holds (compute_Phi_Psi X V tr_or tr_false).2 e.
Proof.
  unfold compute_Phi_Psi. pose proof (phi_psi_elem X V) as Hx. destruct (phi_psi X V) as [phi psi].
  cbn [fst snd] in *. rewrite !join_tr_or, !Exists_exists. split.
  - intros (x & [Hi|Hi]%Hx & H); [left|right]; eauto.
  - intros [(x & Hi & H)|(x & Hi & H)]; exists x; (split; [apply Hx; auto|done]).
Qed.

Lemma Phi_Psi_and X V e :
  Forall (fun p => holds p e) X <->
  holds (compute_Phi_Psi X V tr_and tr_true).1 e /\ holds (compute_Phi_Psi X V tr_and tr_true).2 e.
Proof.
  unfold compute_Phi_Psi. pose proof (phi_psi_elem X V) as Hx. destruct (phi_psi X V) as [phi psi].
  cbn [fst snd] in *. rewrite !join_tr_and, !Forall_forall. split.
  - intros H. split; intros x Hi; apply H, Hx; auto.
  - intros [H1 H2] x [Hi|Hi]%Hx; auto.
Qed.

End JoinMeaning.

(** ** Why the variables may be distributed *)

Section Distribute.
Context {variable symbol : Type} `{EqDecision variable} (M : model variable symbol).
Implicit Types (A B V : list variable) (P Q : (variable -> value M) -> Prop).

Lemma forall_distribute A B V P Q e :
  supported M A P -> supported M B Q ->
  all_vars M V (fun e => P e \/ Q e) e <->
  all_vars M (set_intersection V (set_intersection A B))
    (fun e => all_vars M (set_difference (set_intersection V A) B) P e \/
              all_vars M (set_difference (set_intersection V B) A) Q e) e.
Proof.
  intros HP HQ.
  set (V1 := set_intersection V (set_intersection A B)).
  set (VP := set_difference (set_intersection V A) B).
  set (VQ := set_difference (set_intersection V B) A).
  rewrite (all_vars_restrict M (A ++ B) V (V1 ++ VQ ++ VP)).
  - rewrite all_vars_app. apply all_vars_ext. clear e. intros e. rewrite all_vars_app.
    rewrite (all_vars_ext M VQ _ (fun e => all_vars M VP P e \/ Q e)).
    { rewrite (all_vars_or_left M (set_difference A VP)); [done|by apply all_vars_supported|].
      intros v Hv HvQ. unfold VQ in HvQ. autorewrite with varsets in *. tauto. }
    clear e. intros e. rewrite (all_vars_ext M VP _ (fun e => Q e \/ P e)) by (intros; tauto).
    rewrite (all_vars_or_left M B); [tauto|done|].
    intros v Hv HvP. unfold VP in HvP. autorewrite with varsets in *. tauto.
  - intros e1 e2 He. rewrite (HP e1 e2), (HQ e1 e2); [done|..];
      intros v Hv; apply He; apply elem_of_app; auto.
  - intros v Hv. rewrite !elem_of_app in *. unfold V1, VP, VQ. autorewrite with varsets.
    destruct (decide (v ∈ A)), (decide (v ∈ B)); tauto.
Qed.

Lemma exists_distribute A B V P Q e :
  supported M A P -> supported M B Q ->
  ex_vars M V (fun e => P e /\ Q e) e <->
  ex_vars M (set_intersection V (set_intersection A B))
    (fun e => ex_vars M (set_difference (set_intersection V A) B) P e /\
              ex_vars M (set_difference (set_intersection V B) A) Q e) e.
Proof.
  intros HP HQ. rewrite !(ex_vars_dual M _ _ e). apply not_iff_compat.
  rewrite (all_vars_ext M V _ (fun e => ~ P e \/ ~ Q e)) by (intros; tauto).
  rewrite (forall_distribute A B) by (by apply supported_not).
  apply all_vars_ext. intros e'. rewrite !ex_vars_dual. tauto.
Qed.

End Distribute.

(** The two parts of a term quantified separately, for any sound traits. *)
Section Parts.
Context {term variable symbol : Type} `{EqDecision variable}
  {T : TermTraits term variable} {M : model variable symbol}
  {holds : term -> (variable -> value M) -> Prop} `{!TermTraitsSound T M holds}.
Context (V : list variable) (Phi Psi l r x body : term).
Abbreviation vars_Phi := (tr_find_free_variables Phi).
Abbreviation vars_Psi := (tr_find_free_variables Psi).

Lemma forall_parts e :
  (forall e, holds x e <-> holds Phi e \/ holds Psi e) ->
  (forall e, holds l e <-> all_vars M (set_difference (set_intersection V vars_Phi) vars_Psi) (holds Phi) e) ->
  (forall e, holds r e <-> all_vars M (set_difference (set_intersection V vars_Psi) vars_Phi) (holds Psi) e) ->
  (forall e, holds body e <-> holds l e \/ holds r e) ->
  all_vars M (set_intersection V (set_intersection vars_Phi vars_Psi)) (holds body) e <->
  all_vars M V (holds x) e.
Proof.
  intros Hx Hl Hr Hb. rewrite (all_vars_ext M V _ (fun e => holds Phi e \/ holds Psi e)) by done.
  rewrite (forall_distribute M vars_Phi vars_Psi) by apply sound_free.
  apply all_vars_ext. intros e'. by rewrite Hb, Hl, Hr.
Qed.

Lemma exists_parts e :
  (forall e, holds x e <-> holds Phi e /\ holds Psi e) ->
  (forall e, holds l e <-> ex_vars M (set_difference (set_intersection V vars_Phi) vars_Psi) (holds Phi) e) ->
  (forall e, holds r e <-> ex_vars M (set_difference (set_intersection V vars_Psi) vars_Phi) (holds Psi) e) ->
  (forall e, holds body e <-> holds l e /\ holds r e) ->
  ex_vars M (set_intersection V (set_intersection vars_Phi vars_Psi)) (holds body) e <->
  ex_vars M V (holds x) e.
Proof.
  intros Hx Hl Hr Hb. rewrite (ex_vars_ext M V _ (fun e => holds Phi e /\ holds Psi e)) by done.
  rewrite (exists_distribute M vars_Phi vars_Psi) by apply sound_free.
  apply ex_vars_ext. intros e'. by rewrite Hb, Hl, Hr.
Qed.

End Parts.

(** If [compute_Phi_Psi] puts everything in [Phi], [Psi] is the empty join. *)
Lemma Psi_nonempty {term variable : Type} `{EqDecision variable} `{TermTraits term variable}
    (X : list term) V op e :
  (compute_Phi_Psi X V op e).2 <> e -> (phi_psi X V).2 <> [].
Proof.
  unfold compute_Phi_Psi. destruct (phi_psi X V) as [phi psi]. cbn. by intros Hne ->.
Qed.

(** ** Data expressions *)

Module DataQuantifiers.
Section Data.
Context {variable symbol : Type} `{EqDecision variable} `{EqDecision symbol}.
Abbreviation data_expression := (data_expression variable symbol).
Implicit Types (x p q : data_expression) (V : list variable).

(** [make_forall_] and [make_exists_] of the builders *)
Definition make_forall_ (vars : list variable) (body : data_expression) : data_expression :=
  if bool_decide (vars = []) then body else data_forall vars body.
Definition make_exists_ (vars : list variable) (body : data_expression) : data_expression :=
  if bool_decide (vars = []) then body else data_exists vars body.

(** [apply_default] of the two builders *)
Definition apply_default_forall (V : list variable) (x : data_expression) : data_expression :=
  make_forall_ (set_intersection V (data_free_variables x)) x.
Definition apply_default_exists (V : list variable) (x : data_expression) : data_expression :=
  make_exists_ (set_intersection V (data_free_variables x)) x.

(** The measure: an implication weighs more than the disjunction it becomes. *)
Fixpoint weight (x : data_expression) : nat :=
  match x with
  | sort_bool_not p => S (weight p)
  | sort_bool_and p q | sort_bool_or p q => S (weight p + weight q)
  | sort_bool_implies p q => 3 + weight p + weight q
  | _ => 1
  end.

(** [quantifiers_inside_forall] and [quantifiers_inside_exists].  The argument
    is a [data_expression], so the overload for that class is the one that runs,
    and a nested quantifier is handled by the default case. *)
Fixpoint forall_loop (fuel : nat) (V : list variable) (x : data_expression) : option data_expression :=
  match fuel with
  | O => None
  | S fuel =>
      match x with
      | sort_bool_not phi => r ← exists_loop fuel V phi; Some (sort_bool_not r)
      | sort_bool_and phi psi =>
          l ← forall_loop fuel V phi; r ← forall_loop fuel V psi; Some (sort_bool_and l r)
      | sort_bool_or _ _ =>
          let '(Phi, Psi) := compute_Phi_Psi (data_split_or x) V sort_bool_or sort_bool_false in
          if data_is_false Psi
          then Some (make_forall_ (set_intersection V (data_free_variables x)) x)
          else
            let vars_Phi := data_free_variables Phi in
            let vars_Psi := data_free_variables Psi in
            l ← forall_loop fuel (set_difference (set_intersection V vars_Phi) vars_Psi) Phi;
            r ← forall_loop fuel (set_difference (set_intersection V vars_Psi) vars_Phi) Psi;
            Some (make_forall_ (set_intersection V (set_intersection vars_Phi vars_Psi))
                    (lazy_or l r))
      | sort_bool_implies l r =>
          forall_loop fuel V (sort_bool_or (sort_bool_not l) r)
      | _ => Some (apply_default_forall V x)
      end
  end
with exists_loop (fuel : nat) (V : list variable) (x : data_expression) : option data_expression :=
  match fuel with
  | O => None
  | S fuel =>
      match x with
      | sort_bool_not phi => r ← forall_loop fuel V phi; Some (sort_bool_not r)
      | sort_bool_and _ _ =>
          let '(Phi, Psi) := compute_Phi_Psi (data_split_and x) V sort_bool_and sort_bool_true in
          if data_is_true Psi
          then Some (make_exists_ (set_intersection V (data_free_variables x)) x)
          else
            let vars_Phi := data_free_variables Phi in
            let vars_Psi := data_free_variables Psi in
            l ← exists_loop fuel (set_difference (set_intersection V vars_Phi) vars_Psi) Phi;
            r ← exists_loop fuel (set_difference (set_intersection V vars_Psi) vars_Phi) Psi;
            Some (make_exists_ (set_intersection V (set_intersection vars_Phi vars_Psi))
                    (lazy_and l r))
      | sort_bool_or phi psi =>
          l ← exists_loop fuel V phi; r ← exists_loop fuel V psi; Some (sort_bool_or l r)
      | sort_bool_implies l r =>
          exists_loop fuel V (sort_bool_or (sort_bool_not l) r)
      | _ => Some (apply_default_exists V x)
      end
  end.

Definition quantifiers_inside_forall (V : list variable) (x : data_expression) :=
  forall_loop (weight x) V x.
Definition quantifiers_inside_exists (V : list variable) (x : data_expression) :=
  exists_loop (weight x) V x.

(** [quantifiers_inside]: bottom up. *)
Fixpoint quantifiers_inside (x : data_expression) : option data_expression :=
  match x with
  | sort_bool_true | sort_bool_false | data_term _ _ => Some x
  | sort_bool_not p => p ← quantifiers_inside p; Some (sort_bool_not p)
  | sort_bool_and p q => p ← quantifiers_inside p; q ← quantifiers_inside q; Some (sort_bool_and p q)
  | sort_bool_or p q => p ← quantifiers_inside p; q ← quantifiers_inside q; Some (sort_bool_or p q)
  | sort_bool_implies p q =>
      p ← quantifiers_inside p; q ← quantifiers_inside q; Some (sort_bool_implies p q)
  | data_forall vs p =>
      result ← quantifiers_inside p; quantifiers_inside_forall (make_variable_set vs) result
  | data_exists vs p =>
      result ← quantifiers_inside p; quantifiers_inside_exists (make_variable_set vs) result
  end.

(** *** Correctness *)

Lemma split_or_total x : total weight (data_split_or x) = S (weight x).
Proof. induction x; try done. cbn [data_split_or]. rewrite total_app. cbn. lia. Qed.

Lemma split_and_total x : total weight (data_split_and x) = S (weight x).
Proof. induction x; try done. cbn [data_split_and]. rewrite total_app. cbn. lia. Qed.

Lemma split_or_nonempty x : data_split_or x <> [].
Proof. induction x; try done. cbn. by intros [??]%app_nil. Qed.

Lemma split_and_nonempty x : data_split_and x <> [].
Proof. induction x; try done. cbn. by intros [??]%app_nil. Qed.

Section Meaning.
Context (M : model variable symbol).

Lemma make_forall_data vs p e : data_holds M (make_forall_ vs p) e <-> all_vars M vs (data_holds M p) e.
Proof. unfold make_forall_. by case_bool_decide; subst. Qed.

Lemma make_exists_data vs p e : data_holds M (make_exists_ vs p) e <-> ex_vars M vs (data_holds M p) e.
Proof. unfold make_exists_. by case_bool_decide; subst. Qed.

Lemma default_forall_data V x e :
  data_holds M (make_forall_ (set_intersection V (data_free_variables x)) x) e <->
  all_vars M V (data_holds M x) e.
Proof.
  rewrite make_forall_data. apply (restrict_forall (T := data_traits) (holds := data_holds M)).
Qed.

Lemma default_exists_data V x e :
  data_holds M (make_exists_ (set_intersection V (data_free_variables x)) x) e <->
  ex_vars M V (data_holds M x) e.
Proof.
  rewrite make_exists_data. apply (restrict_exists (T := data_traits) (holds := data_holds M)).
Qed.

End Meaning.

(** What a result promises, and that a loop with enough fuel delivers it. *)
Definition forall_result V x (r : option data_expression) : Prop :=
  exists y, r = Some y /\
    forall (M : model variable symbol) e, data_holds M y e <-> all_vars M V (data_holds M x) e.
Definition exists_result V x (r : option data_expression) : Prop :=
  exists y, r = Some y /\
    forall (M : model variable symbol) e, data_holds M y e <-> ex_vars M V (data_holds M x) e.

Lemma forall_loop_or fuel V p q :
  (forall V x, weight x <= fuel -> forall_result V x (forall_loop fuel V x)) ->
  weight (sort_bool_or p q) <= S fuel ->
  forall_result V (sort_bool_or p q) (forall_loop (S fuel) V (sort_bool_or p q)).
Proof.
  intros IH Hw. set (x := sort_bool_or p q) in *. cbn [forall_loop]. unfold x at 1.
  pose proof (fun M => Phi_Psi_or (T := data_traits) (M := M) (holds := data_holds M) (data_split_or x) V) as Hor.
  pose proof (compute_Phi_Psi_weight weight sort_bool_or ltac:(done) (data_split_or x) V sort_bool_false
    (weight x) (split_or_nonempty x) ltac:(by rewrite split_or_total)) as Hlt.
  cbn [tr_or tr_false data_traits] in Hor. fold x.
  destruct (compute_Phi_Psi (data_split_or x) V sort_bool_or sort_bool_false) as [Phi Psi] eqn:EPP.
  cbn [fst snd] in *. destruct (data_is_false Psi) eqn:EPsi.
  { eexists. split; [done|]. intros M e. apply default_forall_data. }
  destruct Hlt as [H1 H2].
  { eapply Psi_nonempty. rewrite EPP. cbn. by intros ->. }
  destruct (IH (set_difference (set_intersection V (data_free_variables Phi)) (data_free_variables Psi))
    Phi ltac:(lia)) as (l & -> & Hl).
  destruct (IH (set_difference (set_intersection V (data_free_variables Psi)) (data_free_variables Phi))
    Psi ltac:(lia)) as (r & -> & Hr).
  eexists. split; [done|]. intros M e. rewrite make_forall_data.
  apply (forall_parts (T := data_traits) (holds := data_holds M) V Phi Psi l r); [|done|done|].
  - intros e'. by rewrite <- Hor, <- data_split_or_holds.
  - intros e'. apply (lazy_holds M l r e').
Qed.

Lemma exists_loop_and fuel V p q :
  (forall V x, weight x <= fuel -> exists_result V x (exists_loop fuel V x)) ->
  weight (sort_bool_and p q) <= S fuel ->
  exists_result V (sort_bool_and p q) (exists_loop (S fuel) V (sort_bool_and p q)).
Proof.
  intros IH Hw. set (x := sort_bool_and p q) in *. cbn [exists_loop]. unfold x at 1.
  pose proof (fun M => Phi_Psi_and (T := data_traits) (M := M) (holds := data_holds M) (data_split_and x) V) as Hor.
  pose proof (compute_Phi_Psi_weight weight sort_bool_and ltac:(done) (data_split_and x) V sort_bool_true
    (weight x) (split_and_nonempty x) ltac:(by rewrite split_and_total)) as Hlt.
  cbn [tr_and tr_true data_traits] in Hor. fold x.
  destruct (compute_Phi_Psi (data_split_and x) V sort_bool_and sort_bool_true) as [Phi Psi] eqn:EPP.
  cbn [fst snd] in *. destruct (data_is_true Psi) eqn:EPsi.
  { eexists. split; [done|]. intros M e. apply default_exists_data. }
  destruct Hlt as [H1 H2].
  { eapply Psi_nonempty. rewrite EPP. cbn. by intros ->. }
  destruct (IH (set_difference (set_intersection V (data_free_variables Phi)) (data_free_variables Psi))
    Phi ltac:(lia)) as (l & -> & Hl).
  destruct (IH (set_difference (set_intersection V (data_free_variables Psi)) (data_free_variables Phi))
    Psi ltac:(lia)) as (r & -> & Hr).
  eexists. split; [done|]. intros M e. rewrite make_exists_data.
  apply (exists_parts (T := data_traits) (holds := data_holds M) V Phi Psi l r); [|done|done|].
  - intros e'. by rewrite <- Hor, <- data_split_and_holds.
  - intros e'. apply (lazy_holds M l r e').
Qed.

Lemma loops_result fuel :
  (forall V x, weight x <= fuel -> forall_result V x (forall_loop fuel V x)) /\
  (forall V x, weight x <= fuel -> exists_result V x (exists_loop fuel V x)).
Proof.
  induction fuel as [|fuel [IHA IHE]].
  { split; intros V [] Hw; cbn in Hw; lia. }
  split; intros V x Hw;
    (destruct x as [| |p|p q|p q|p q|vs p|vs p|f vs];
      try (eexists; split; [done|]; intros M e; apply default_forall_data || apply default_exists_data)).
  - cbn in Hw. destruct (IHE V p ltac:(lia)) as (y & Ey & Hy). exists (sort_bool_not y).
    cbn [forall_loop]. rewrite Ey. split; [done|]. intros M e. cbn. rewrite Hy. apply not_ex_vars.
  - cbn in Hw. destruct (IHA V p ltac:(lia)) as (y & Ey & Hy).
    destruct (IHA V q ltac:(lia)) as (z & Ez & Hz). exists (sort_bool_and y z).
    cbn [forall_loop]. rewrite Ey. cbn. rewrite Ez. split; [done|]. intros M e. cbn.
    by rewrite Hy, Hz, <- all_vars_and.
  - by apply forall_loop_or.
  - cbn in Hw. destruct (IHA V (sort_bool_or (sort_bool_not p) q)) as (y & Ey & Hy); [cbn; lia|].
    exists y. cbn [forall_loop]. split; [done|]. intros M e. rewrite Hy.
    apply all_vars_ext. intros e'. cbn. tauto.
  - cbn in Hw. destruct (IHA V p ltac:(lia)) as (y & Ey & Hy). exists (sort_bool_not y).
    cbn [exists_loop]. rewrite Ey. split; [done|]. intros M e. cbn. rewrite Hy. apply not_all_vars.
  - by apply exists_loop_and.
  - cbn in Hw. destruct (IHE V p ltac:(lia)) as (y & Ey & Hy).
    destruct (IHE V q ltac:(lia)) as (z & Ez & Hz). exists (sort_bool_or y z).
    cbn [exists_loop]. rewrite Ey. cbn. rewrite Ez. split; [done|]. intros M e. cbn.
    by rewrite Hy, Hz, <- ex_vars_or.
  - cbn in Hw. destruct (IHE V (sort_bool_or (sort_bool_not p) q)) as (y & Ey & Hy); [cbn; lia|].
    exists y. cbn [exists_loop]. split; [done|]. intros M e. rewrite Hy.
    apply ex_vars_ext. intros e'. cbn. tauto.
Qed.

Lemma quantifiers_inside_result x :
  exists y, quantifiers_inside x = Some y /\
    forall (M : model variable symbol) e, data_holds M y e <-> data_holds M x e.
Proof.
  induction x as [| |p (p' & Ep & Hp)|p (p' & Ep & Hp) q (q' & Eq & Hq)
    |p (p' & Ep & Hp) q (q' & Eq & Hq)|p (p' & Ep & Hp) q (q' & Eq & Hq)
    |vs p (p' & Ep & Hp)|vs p (p' & Ep & Hp)|f vs];
    try (by eexists); cbn [quantifiers_inside]; rewrite Ep; cbn [mbind option_bind]; rewrite ?Eq;
    try (eexists; split; [done|]; intros M e; cbn; by rewrite ?Hp, ?Hq).
  - destruct (proj1 (loops_result (weight p')) (make_variable_set vs) p' ltac:(done)) as (y & Ey & Hy).
    exists y. split; [done|]. intros M e. rewrite Hy. cbn.
    rewrite (all_vars_restrict M (data_free_variables p') _ vs); [|apply data_free_supported|].
    + by apply all_vars_ext.
    + intros v _. apply elem_of_make_variable_set.
  - destruct (proj2 (loops_result (weight p')) (make_variable_set vs) p' ltac:(done)) as (y & Ey & Hy).
    exists y. split; [done|]. intros M e. rewrite Hy. cbn.
    rewrite (ex_vars_restrict M (data_free_variables p') _ vs); [|apply data_free_supported|].
    + by apply ex_vars_ext.
    + intros v _. apply elem_of_make_variable_set.
Qed.

End Data.
End DataQuantifiers.

(** pushing quantifiers inside a data expression terminates with a result
    that has the same value in every model and environment; so do the two
    recursive functions behind it, for the universal and existential
    quantification of any expression over any set of variables. *)
Lemma data_quantifiers_inside_correct {variable symbol : Type} `{EqDecision variable}
    `{EqDecision symbol} (V : list variable) (x : data_expression variable symbol) :
  (exists y, DataQuantifiers.quantifiers_inside x = Some y /\
     forall (M : model variable symbol) e, data_holds M y e <-> data_holds M x e) /\
  (exists y, DataQuantifiers.quantifiers_inside_forall V x = Some y /\
     forall (M : model variable symbol) e,
       data_holds M y e <-> all_vars M V (data_holds M x) e) /\
  (exists y, DataQuantifiers.quantifiers_inside_exists V x = Some y /\
     forall (M : model variable symbol) e,
       data_holds M y e <-> ex_vars M V (data_holds M x) e).
Proof.
  split; [apply DataQuantifiers.quantifiers_inside_result|].
  split; by apply (DataQuantifiers.loops_result (DataQuantifiers.weight x)).
Qed.

(** ** PBES expressions *)

Module PbesQuantifiers.
Section Pbes.
Context {variable symbol : Type} `{EqDecision variable} `{EqDecision symbol}.
Abbreviation data_expression := (data_expression variable symbol).
Abbreviation pbes_expression := (pbes_expression variable symbol).
Implicit Types (x p q : pbes_expression) (V : list variable).

(** [compute_Phi_Psi] at this type *)
Definition compute_Phi_Psi (X : list pbes_expression) (V : list variable)
    (op : pbes_expression -> pbes_expression -> pbes_expression)
    (empty_sequence_result : pbes_expression) : pbes_expression * pbes_expression :=
  QuantifiersInside.compute_Phi_Psi X V op empty_sequence_result.

(** [apply_default] of the two builders; [make_forall_] and [make_exists_] are
    those of the PBES library. *)
Definition apply_default_forall (V : list variable) (x : pbes_expression) : pbes_expression :=
  make_forall_ (set_intersection V (find_free_variables x)) x.
Definition apply_default_exists (V : list variable) (x : pbes_expression) : pbes_expression :=
  make_exists_ (set_intersection V (find_free_variables x)) x.

Fixpoint weight (x : pbes_expression) : nat :=
  match x with
  | pbes_data _ | propositional_variable_instantiation _ _ => 1
  | pbes_not p | pbes_forall _ p | pbes_exists _ p => S (weight p)
  | pbes_and p q | pbes_or p q => S (weight p + weight q)
  | pbes_imp p q => 3 + weight p + weight q
  end.

(** [quantifiers_inside_forall] and [quantifiers_inside_exists].  Quantifiers of
    the same kind are merged.  The existential builder turns an implication
    into a conjunction. *)
Fixpoint forall_loop (fuel : nat) (V : list variable) (x : pbes_expression) : option pbes_expression :=
  match fuel with
  | O => None
  | S fuel =>
      match x with
      | pbes_forall vs body => forall_loop fuel (set_union V (make_variable_set vs)) body
      | pbes_not phi => r ← exists_loop fuel V phi; Some (pbes_not r)
      | pbes_and phi psi =>
          l ← forall_loop fuel V phi; r ← forall_loop fuel V psi; Some (pbes_and l r)
      | pbes_or _ _ =>
          let '(Phi, Psi) := compute_Phi_Psi (split_or x) V pbes_or false_ in
          if is_false Psi
          then Some (make_forall_ (set_intersection V (find_free_variables x)) x)
          else
            let vars_Phi := find_free_variables Phi in
            let vars_Psi := find_free_variables Psi in
            l ← forall_loop fuel (set_difference (set_intersection V vars_Phi) vars_Psi) Phi;
            r ← forall_loop fuel (set_difference (set_intersection V vars_Psi) vars_Phi) Psi;
            Some (make_forall_ (set_intersection V (set_intersection vars_Phi vars_Psi))
                    (make_optimized_or l r))
      | pbes_imp l r => forall_loop fuel V (pbes_or (pbes_not l) r)
      | propositional_variable_instantiation _ _ | pbes_exists _ _ => Some (apply_default_forall V x)
      | pbes_data d => r ← DataQuantifiers.quantifiers_inside_forall V d; Some (pbes_data r)
      end
  end
with exists_loop (fuel : nat) (V : list variable) (x : pbes_expression) : option pbes_expression :=
  match fuel with
  | O => None
  | S fuel =>
      match x with
      | pbes_exists vs body => exists_loop fuel (set_union V (make_variable_set vs)) body
      | pbes_not phi => r ← forall_loop fuel V phi; Some (pbes_not r)
      | pbes_or phi psi =>
          l ← exists_loop fuel V phi; r ← exists_loop fuel V psi; Some (pbes_or l r)
      | pbes_and _ _ =>
          let '(Phi, Psi) := compute_Phi_Psi (split_and x) V pbes_and true_ in
          if is_true Psi
          then Some (make_exists_ (set_intersection V (find_free_variables x)) x)
          else
            let vars_Phi := find_free_variables Phi in
            let vars_Psi := find_free_variables Psi in
            l ← exists_loop fuel (set_difference (set_intersection V vars_Phi) vars_Psi) Phi;
            r ← exists_loop fuel (set_difference (set_intersection V vars_Psi) vars_Phi) Psi;
            Some (make_exists_ (set_intersection V (set_intersection vars_Phi vars_Psi))
                    (make_optimized_and l r))
      | pbes_imp l r => exists_loop fuel V (pbes_and (pbes_not l) r)
      | propositional_variable_instantiation _ _ | pbes_forall _ _ => Some (apply_default_exists V x)
      | pbes_data d => r ← DataQuantifiers.quantifiers_inside_exists V d; Some (pbes_data r)
      end
  end.

Definition quantifiers_inside_forall (V : list variable) (x : pbes_expression) :=
  forall_loop (weight x) V x.
Definition quantifiers_inside_exists (V : list variable) (x : pbes_expression) :=
  exists_loop (weight x) V x.

(** [quantifiers_inside]: bottom up. *)
Fixpoint quantifiers_inside (x : pbes_expression) : option pbes_expression :=
  match x with
  | propositional_variable_instantiation _ _ => Some x
  | pbes_data d => d ← DataQuantifiers.quantifiers_inside d; Some (pbes_data d)
  | pbes_not p => p ← quantifiers_inside p; Some (pbes_not p)
  | pbes_and p q => p ← quantifiers_inside p; q ← quantifiers_inside q; Some (pbes_and p q)
  | pbes_or p q => p ← quantifiers_inside p; q ← quantifiers_inside q; Some (pbes_or p q)
  | pbes_imp p q => p ← quantifiers_inside p; q ← quantifiers_inside q; Some (pbes_imp p q)
  | pbes_forall vs p =>
      result ← quantifiers_inside p; quantifiers_inside_forall (make_variable_set vs) result
  | pbes_exists vs p =>
      result ← quantifiers_inside p; quantifiers_inside_exists (make_variable_set vs) result
  end.

(** *** Correctness for formulas without implication *)

Fixpoint no_imp (x : pbes_expression) : bool :=
  match x with
  | pbes_data _ | propositional_variable_instantiation _ _ => true
  | pbes_not p | pbes_forall _ p | pbes_exists _ p => no_imp p
  | pbes_and p q | pbes_or p q => no_imp p && no_imp q
  | pbes_imp _ _ => false
  end.

Lemma split_or_weight x : total weight (split_or x) = S (weight x).
Proof. induction x; try done. cbn [split_or]. rewrite total_app. cbn. lia. Qed.

Lemma split_and_weight x : total weight (split_and x) = S (weight x).
Proof. induction x; try done. cbn [split_and]. rewrite total_app. cbn. lia. Qed.

Lemma split_or_not_nil x : split_or x <> [].
Proof. induction x; try done. cbn. by intros [??]%app_nil. Qed.

Lemma split_and_not_nil x : split_and x <> [].
Proof. induction x; try done. cbn. by intros [??]%app_nil. Qed.

Lemma split_or_no_imp x : no_imp x = true -> Forall (fun p => no_imp p = true) (split_or x).
Proof.
  induction x; intros Hx; try (by constructor). cbn in *. apply andb_prop in Hx as [? ?].
  apply Forall_app; auto.
Qed.

Lemma split_and_no_imp x : no_imp x = true -> Forall (fun p => no_imp p = true) (split_and x).
Proof.
  induction x; intros Hx; try (by constructor). cbn in *. apply andb_prop in Hx as [? ?].
  apply Forall_app; auto.
Qed.

Lemma join_no_imp (op : pbes_expression -> pbes_expression -> pbes_expression) e X :
  (forall p q, no_imp (op p q) = no_imp p && no_imp q) -> no_imp e = true ->
  Forall (fun p => no_imp p = true) X -> no_imp (join op e X) = true.
Proof.
  intros Hop He HX. destruct HX as [|x X Hx HX]; [done|]. cbn. revert x Hx.
  induction HX as [|y X Hy HX IH]; intros x Hx; cbn; [done|]. apply IH. by rewrite Hop, Hx, Hy.
Qed.

Lemma Phi_Psi_no_imp X V (op : pbes_expression -> pbes_expression -> pbes_expression) e :
  (forall p q, no_imp (op p q) = no_imp p && no_imp q) -> no_imp e = true ->
  Forall (fun p => no_imp p = true) X ->
  no_imp (compute_Phi_Psi X V op e).1 = true /\ no_imp (compute_Phi_Psi X V op e).2 = true.
Proof.
  intros Hop He HX. rewrite Forall_forall in HX. pose proof (phi_psi_elem X V) as Hel.
  unfold compute_Phi_Psi, QuantifiersInside.compute_Phi_Psi.
  destruct (phi_psi X V) as [phi psi]. cbn in *.
  split; apply join_no_imp; try done; apply Forall_forall; intros p Hp; apply HX, Hel; auto.
Qed.

Section Meaning.
Context (M : model variable symbol) (eta : string -> list (value M) -> Prop).

Lemma default_forall_pbes V x e :
  holds M eta (make_forall_ (set_intersection V (find_free_variables x)) x) e <->
  all_vars M V (holds M eta x) e.
Proof.
  rewrite make_forall_holds. apply (restrict_forall (T := pbes_traits) (holds := holds M eta)).
Qed.

Lemma default_exists_pbes V x e :
  holds M eta (make_exists_ (set_intersection V (find_free_variables x)) x) e <->
  ex_vars M V (holds M eta x) e.
Proof.
  rewrite make_exists_holds. apply (restrict_exists (T := pbes_traits) (holds := holds M eta)).
Qed.

Lemma merge_forall V vs x e :
  all_vars M (set_union V (make_variable_set vs)) (holds M eta x) e <->
  all_vars M V (all_vars M vs (holds M eta x)) e.
Proof.
  rewrite <- all_vars_app. apply (all_vars_restrict M (find_free_variables x)); [apply free_supported|].
  intros v _. rewrite elem_of_app. autorewrite with varsets. done.
Qed.

Lemma merge_exists V vs x e :
  ex_vars M (set_union V (make_variable_set vs)) (holds M eta x) e <->
  ex_vars M V (ex_vars M vs (holds M eta x)) e.
Proof.
  rewrite (ex_vars_dual M V), (all_vars_ext M V _ (all_vars M vs (fun e => ~ holds M eta x e)))
    by (intros; apply not_ex_vars).
  rewrite ex_vars_dual. apply not_iff_compat, (merge_forall V vs (pbes_not x)).
Qed.

End Meaning.

Lemma no_imp_make_forall vs x : no_imp (make_forall_ vs x) = no_imp x.
Proof. unfold make_forall_. by case_bool_decide. Qed.

Lemma no_imp_make_exists vs x : no_imp (make_exists_ vs x) = no_imp x.
Proof. unfold make_exists_. by case_bool_decide. Qed.

Lemma no_imp_optimized p q :
  no_imp p = true -> no_imp q = true ->
  no_imp (make_optimized_or p q) = true /\ no_imp (make_optimized_and p q) = true.
Proof.
  intros Hp Hq. unfold make_optimized_or, make_optimized_and.
  split; repeat case_match; cbn; rewrite ?Hp, ?Hq; done.
Qed.

(** The loops always return; without implications the result is right. *)
Definition forall_result V x (r : option pbes_expression) : Prop :=
  exists y, r = Some y /\ (no_imp x = true -> no_imp y = true /\
    forall (M : model variable symbol) eta e, holds M eta y e <-> all_vars M V (holds M eta x) e).
Definition exists_result V x (r : option pbes_expression) : Prop :=
  exists y, r = Some y /\ (no_imp x = true -> no_imp y = true /\
    forall (M : model variable symbol) eta e, holds M eta y e <-> ex_vars M V (holds M eta x) e).

Lemma pbes_forall_loop_or fuel V p q :
  (forall V x, weight x <= fuel -> forall_result V x (forall_loop fuel V x)) ->
  weight (pbes_or p q) <= S fuel ->
  forall_result V (pbes_or p q) (forall_loop (S fuel) V (pbes_or p q)).
Proof.
  intros IH Hw. set (x := pbes_or p q) in *. cbn [forall_loop]. unfold x at 1.
  pose proof (fun M eta => Phi_Psi_or (T := pbes_traits) (M := M) (holds := holds M eta) (split_or x) V) as Hor.
  pose proof (compute_Phi_Psi_weight weight pbes_or ltac:(done) (split_or x) V false_
    (weight x) (split_or_not_nil x) ltac:(by rewrite split_or_weight)) as Hlt.
  pose proof (fun Hn => Phi_Psi_no_imp (split_or x) V pbes_or false_ (fun _ _ => eq_refl) eq_refl
    (split_or_no_imp x Hn)) as Hni.
  cbn [tr_or tr_false pbes_traits] in Hor. fold x. unfold compute_Phi_Psi in *.
  destruct (QuantifiersInside.compute_Phi_Psi (split_or x) V pbes_or false_) as [Phi Psi] eqn:EPP.
  cbn [fst snd] in *. destruct (is_false Psi) eqn:EPsi.
  { eexists. split; [done|]. intros Hx. rewrite no_imp_make_forall. split; [done|].
    intros M eta e. apply default_forall_pbes. }
  destruct Hlt as [H1 H2]; [eapply Psi_nonempty; rewrite EPP; cbn; by intros ->|].
  destruct (IH (set_difference (set_intersection V (find_free_variables Phi)) (find_free_variables Psi))
    Phi ltac:(lia)) as (l & -> & Hl).
  destruct (IH (set_difference (set_intersection V (find_free_variables Psi)) (find_free_variables Phi))
    Psi ltac:(lia)) as (r & -> & Hr).
  eexists. split; [done|]. intros Hx. destruct (Hni Hx) as [Hx1 Hx2].
  destruct (Hl Hx1) as [Hnl Hl']. destruct (Hr Hx2) as [Hnr Hr'].
  split; [rewrite no_imp_make_forall; by apply no_imp_optimized|]. intros M eta e.
  rewrite make_forall_holds.
  apply (forall_parts (T := pbes_traits) (holds := holds M eta) V Phi Psi l r); [|done|done|].
  - intros e'. by rewrite <- Hor, <- split_or_holds.
  - intros e'. apply (optimized_or_holds (T := pbes_traits) (holds := holds M eta)).
Qed.

Lemma pbes_exists_loop_and fuel V p q :
  (forall V x, weight x <= fuel -> exists_result V x (exists_loop fuel V x)) ->
  weight (pbes_and p q) <= S fuel ->
  exists_result V (pbes_and p q) (exists_loop (S fuel) V (pbes_and p q)).
Proof.
  intros IH Hw. set (x := pbes_and p q) in *. cbn [exists_loop]. unfold x at 1.
  pose proof (fun M eta => Phi_Psi_and (T := pbes_traits) (M := M) (holds := holds M eta) (split_and x) V) as Hor.
  pose proof (compute_Phi_Psi_weight weight pbes_and ltac:(done) (split_and x) V true_
    (weight x) (split_and_not_nil x) ltac:(by rewrite split_and_weight)) as Hlt.
  pose proof (fun Hn => Phi_Psi_no_imp (split_and x) V pbes_and true_ (fun _ _ => eq_refl) eq_refl
    (split_and_no_imp x Hn)) as Hni.
  cbn [tr_and tr_true pbes_traits] in Hor. fold x. unfold compute_Phi_Psi in *.
  destruct (QuantifiersInside.compute_Phi_Psi (split_and x) V pbes_and true_) as [Phi Psi] eqn:EPP.
  cbn [fst snd] in *. destruct (is_true Psi) eqn:EPsi.
  { eexists. split; [done|]. intros Hx. rewrite no_imp_make_exists. split; [done|].
    intros M eta e. apply default_exists_pbes. }
  destruct Hlt as [H1 H2]; [eapply Psi_nonempty; rewrite EPP; cbn; by intros ->|].
  destruct (IH (set_difference (set_intersection V (find_free_variables Phi)) (find_free_variables Psi))
    Phi ltac:(lia)) as (l & -> & Hl).
  destruct (IH (set_difference (set_intersection V (find_free_variables Psi)) (find_free_variables Phi))
    Psi ltac:(lia)) as (r & -> & Hr).
  eexists. split; [done|]. intros Hx. destruct (Hni Hx) as [Hx1 Hx2].
  destruct (Hl Hx1) as [Hnl Hl']. destruct (Hr Hx2) as [Hnr Hr'].
  split; [rewrite no_imp_make_exists; by apply no_imp_optimized|]. intros M eta e.
  rewrite make_exists_holds.
  apply (exists_parts (T := pbes_traits) (holds := holds M eta) V Phi Psi l r); [|done|done|].
  - intros e'. by rewrite <- Hor, <- split_and_holds.
  - intros e'. apply (optimized_and_holds (T := pbes_traits) (holds := holds M eta)).
Qed.

(** The cases that the two builders treat alike. *)
Lemma forall_default_result V x :
  forall_result V x (Some (apply_default_forall V x)).
Proof.
  eexists. split; [done|]. intros Hn. unfold apply_default_forall. rewrite no_imp_make_forall.
  split; [done|]. intros. apply default_forall_pbes.
Qed.

Lemma exists_default_result V x :
  exists_result V x (Some (apply_default_exists V x)).
Proof.
  eexists. split; [done|]. intros Hn. unfold apply_default_exists. rewrite no_imp_make_exists.
  split; [done|]. intros. apply default_exists_pbes.
Qed.

Lemma forall_data_result V d :
  forall_result V (pbes_data d)
    (r ← DataQuantifiers.quantifiers_inside_forall V d; Some (pbes_data r)).
Proof.
  destruct (proj1 (DataQuantifiers.loops_result (DataQuantifiers.weight d)) V d ltac:(done)) as (y & Ey & Hy).
  unfold DataQuantifiers.quantifiers_inside_forall. rewrite Ey.
  eexists. split; [done|]. intros _. split; [done|]. intros M eta. apply Hy.
Qed.

Lemma exists_data_result V d :
  exists_result V (pbes_data d)
    (r ← DataQuantifiers.quantifiers_inside_exists V d; Some (pbes_data r)).
Proof.
  destruct (proj2 (DataQuantifiers.loops_result (DataQuantifiers.weight d)) V d ltac:(done)) as (y & Ey & Hy).
  unfold DataQuantifiers.quantifiers_inside_exists. rewrite Ey.
  eexists. split; [done|]. intros _. split; [done|]. intros M eta. apply Hy.
Qed.

Lemma forall_not_result V p r :
  exists_result V p r -> forall_result V (pbes_not p) (r' ← r; Some (pbes_not r')).
Proof.
  intros (y & -> & Hy). exists (pbes_not y). split; [done|]. intros Hn.
  destruct (Hy Hn) as [Hny Hy']. split; [done|]. intros M eta e. cbn. rewrite Hy'. apply not_ex_vars.
Qed.

Lemma exists_not_result V p r :
  forall_result V p r -> exists_result V (pbes_not p) (r' ← r; Some (pbes_not r')).
Proof.
  intros (y & -> & Hy). exists (pbes_not y). split; [done|]. intros Hn.
  destruct (Hy Hn) as [Hny Hy']. split; [done|]. intros M eta e. cbn. rewrite Hy'. apply not_all_vars.
Qed.

Lemma forall_and_result V p q l r :
  forall_result V p l -> forall_result V q r ->
  forall_result V (pbes_and p q) (l' ← l; r' ← r; Some (pbes_and l' r')).
Proof.
  intros (y & -> & Hy) (z & -> & Hz). exists (pbes_and y z). split; [done|].
  intros [Hn1 Hn2]%andb_prop. destruct (Hy Hn1) as [Hy1 Hy2]. destruct (Hz Hn2) as [Hz1 Hz2].
  split; [cbn; by rewrite Hy1, Hz1|]. intros M eta e. cbn. by rewrite Hy2, Hz2, <- all_vars_and.
Qed.

Lemma exists_or_result V p q l r :
  exists_result V p l -> exists_result V q r ->
  exists_result V (pbes_or p q) (l' ← l; r' ← r; Some (pbes_or l' r')).
Proof.
  intros (y & -> & Hy) (z & -> & Hz). exists (pbes_or y z). split; [done|].
  intros [Hn1 Hn2]%andb_prop. destruct (Hy Hn1) as [Hy1 Hy2]. destruct (Hz Hn2) as [Hz1 Hz2].
  split; [cbn; by rewrite Hy1, Hz1|]. intros M eta e. cbn. by rewrite Hy2, Hz2, <- ex_vars_or.
Qed.

Lemma pbes_loops_result fuel :
  (forall V x, weight x <= fuel -> forall_result V x (forall_loop fuel V x)) /\
  (forall V x, weight x <= fuel -> exists_result V x (exists_loop fuel V x)).
Proof.
  induction fuel as [|fuel [IHA IHE]].
  { split; intros V [] Hw; cbn in Hw; lia. }
  split; intros V x Hw; destruct x as [d|X es|p|p q|p q|p q|vs p|vs p]; cbn in Hw.
  - apply forall_data_result.
  - apply forall_default_result.
  - apply forall_not_result, IHE. lia.
  - apply forall_and_result; apply IHA; lia.
  - by apply pbes_forall_loop_or.
  - destruct (IHA V (pbes_or (pbes_not p) q)) as (y & Ey & _); [cbn; lia|]. by exists y.
  - destruct (IHA (set_union V (make_variable_set vs)) p ltac:(lia)) as (y & Ey & Hy).
    exists y. split; [done|]. intros Hn. destruct (Hy Hn) as [Hny Hy']. split; [done|].
    intros M eta e. rewrite Hy'. apply merge_forall.
  - apply forall_default_result.
  - apply exists_data_result.
  - apply exists_default_result.
  - apply exists_not_result, IHA. lia.
  - by apply pbes_exists_loop_and.
  - apply exists_or_result; apply IHE; lia.
  - destruct (IHE V (pbes_and (pbes_not p) q)) as (y & Ey & _); [cbn; lia|]. by exists y.
  - apply exists_default_result.
  - destruct (IHE (set_union V (make_variable_set vs)) p ltac:(lia)) as (y & Ey & Hy).
    exists y. split; [done|]. intros Hn. destruct (Hy Hn) as [Hny Hy']. split; [done|].
    intros M eta e. rewrite Hy'. apply merge_exists.
Qed.

Lemma pbes_quantifiers_inside_result x :
  exists y, quantifiers_inside x = Some y /\ (no_imp x = true -> no_imp y = true /\
    forall (M : model variable symbol) eta e, holds M eta y e <-> holds M eta x e).
Proof.
  induction x as [d|X es|p (p' & Ep & Hp)|p (p' & Ep & Hp) q (q' & Eq & Hq)
    |p (p' & Ep & Hp) q (q' & Eq & Hq)|p (p' & Ep & Hp) q (q' & Eq & Hq)
    |vs p (p' & Ep & Hp)|vs p (p' & Ep & Hp)];
    cbn [quantifiers_inside]; rewrite ?Ep; cbn [mbind option_bind]; rewrite ?Eq;
    try (eexists; split; [done|]; intros [H1 H2]%andb_prop;
         destruct (Hp H1) as [Hnp Hp']; destruct (Hq H2) as [Hnq Hq'];
         split; [cbn; by rewrite Hnp, Hnq|]; intros M eta e; cbn; by rewrite Hp', Hq').
  - destruct (DataQuantifiers.quantifiers_inside_result d) as (y & -> & Hy).
    eexists. split; [done|]. intros _. split; [done|]. intros M eta. apply Hy.
  - by eexists.
  - eexists. split; [done|]. intros Hn. destruct (Hp Hn) as [Hnp Hp']. split; [done|].
    intros M eta e. cbn. by rewrite Hp'.
  - by eexists.
  - destruct (proj1 (pbes_loops_result (weight p')) (make_variable_set vs) p' ltac:(done)) as (y & Ey & Hy).
    exists y. split; [done|]. intros Hn. destruct (Hp Hn) as [Hnp Hp']. destruct (Hy Hnp) as [Hny Hy'].
    split; [done|]. intros M eta e. rewrite Hy'. cbn.
    rewrite (all_vars_restrict M (find_free_variables p') _ vs); [|apply free_supported|].
    + apply all_vars_ext. intros e'. apply Hp'.
    + intros v _. apply elem_of_make_variable_set.
  - destruct (proj2 (pbes_loops_result (weight p')) (make_variable_set vs) p' ltac:(done)) as (y & Ey & Hy).
    exists y. split; [done|]. intros Hn. destruct (Hp Hn) as [Hnp Hp']. destruct (Hy Hnp) as [Hny Hy'].
    split; [done|]. intros M eta e. rewrite Hy'. cbn.
    rewrite (ex_vars_restrict M (find_free_variables p') _ vs); [|apply free_supported|].
    + apply ex_vars_ext. intros e'. apply Hp'.
    + intros v _. apply elem_of_make_variable_set.
Qed.

End Pbes.
End PbesQuantifiers.

(** C35: pushing quantifiers inside a PBES expression always terminates with a
    result; if the expression has no implication, the result has the same value
    in every model, for every meaning of the propositional variables. *)
Theorem pbes_quantifiers_inside_correct {variable symbol : Type} `{EqDecision variable}
    `{EqDecision symbol} (x : pbes_expression variable symbol) :
  exists y, PbesQuantifiers.quantifiers_inside x = Some y /\
    (PbesQuantifiers.no_imp x = true ->
     forall (M : model variable symbol) eta e, holds M eta y e <-> holds M eta x e).
Proof.
  destruct (PbesQuantifiers.pbes_quantifiers_inside_result x) as (y & Ey & Hy).
  exists y. split; [done|]. intros Hn. by apply Hy.
Qed.

(** C36: with an implication under an existential quantifier the result can be
    wrong: [exists v. (false => f(v))] is true, but the existential builder
    makes [!false && (exists v. f(v))] of it, which is false where [f] is. *)
Theorem pbes_quantifiers_inside_imp_wrong :
  let x : pbes_expression string string :=
    pbes_exists ["v"] (pbes_imp false_ (pbes_data (data_term "f" ["v"]))) in
  exists y (M : model string string), PbesQuantifiers.quantifiers_inside x = Some y /\
    forall eta e, holds M eta x e /\ ~ holds M eta y e.
Proof.
  eexists (pbes_and (pbes_not false_) (pbes_data (data_exists ["v"] (data_term "f" ["v"])))),
    (mk_model _ _ unit (fun _ _ => True) (fun _ => tt) (fun _ => I) (fun _ _ => False) (fun _ _ => tt)).
  split; [vm_compute; reflexivity|]. intros eta e. cbn. split; [by exists tt|].
  intros [_ (x & _ & H)]. done.
Qed.
