(* ===== verification/GraphBuilder.v ===== *)
(** * Building structure graphs
    ([structure_graph_builder.h] and [pbesinst_structure_graph.h] of
    [libraries/pbes])

    A [structure_graph_builder] keeps the graph under construction and a map
    from PBES expressions to their vertices.  [SG0] adds an equation
    [X = psi] that instantiation has produced; [SG1] adds the vertices of the
    conjunctions and disjunctions inside [psi].  [erase_vertices] removes
    vertices and renumbers the others.  Exceptions are the [Throws] of
    [Prelude.v].

    [term_less] is the order on terms of the term library, in which the
    operands of a conjunction or disjunction, a [std::set], are visited; nothing
    is assumed about it.  [pp] is the printer.  The hash map [m_vertex_map] is
    an association list, which is never iterated over.

    Vertex numbers are natural numbers.  The code has a 32-bit [index_type], and
    the largest number stands for no vertex: what is proved here holds of the
    code for graphs of at most 2^32 - 1 vertices; [create_vertex] does not check
    that limit. *)

From Stdlib Require Import Lia NArith.
From stdpp Require Import base strings numbers sets list sorting.
From S2P Require Import Prelude VertexSets StructureGraph Solver SolverCheck Terms DataExpressions PbesExpressions.

Local Open Scope mcrl2_scope.

Section Builder.
Context {variable symbol : Type} `{EqDecision variable} `{EqDecision symbol}.
Abbreviation pbes_expression := (@pbes_expression variable symbol).
Abbreviation structure_graph := (SG.structure_graph pbes_expression).
Abbreviation vertex_vector := (list (SG.vertex pbes_expression)).
Context (pp : pbes_expression -> string) (term_less : pbes_expression -> pbes_expression -> bool).

(** ** The builder *)

Abbreviation vertex_map := (list (pbes_expression * nat)).

(** [m_vertex_map.find(x)] *)
Definition map_find (m : vertex_map) (x : pbes_expression) : option nat :=
  snd <$> List.find (fun p => bool_decide (p.1 = x)) m.

(** [m_vertex_map.insert({x, index})]: an existing entry is kept. *)
Definition map_insert (m : vertex_map) (x : pbes_expression) (index : nat) : vertex_map :=
  match map_find m x with
  | Some _ => m
  | None => m ++ [(x, index)]
  end.

(** [m_initial_state] is [data::undefined_data_expression()], here [None], until
    it is set. *)
Record structure_graph_builder : Type := mk_builder {
  m_graph : structure_graph;
  m_vertex_map : vertex_map;
  m_initial_state : option pbes_expression
}.

Implicit Types (b : structure_graph_builder) (V : vertex_vector) (x psi : pbes_expression).

Definition vertices b : vertex_vector := SG.m_vertices (m_graph b).

Definition builder_extent b : nat := SG.extent (m_graph b).

(** A builder with other vertices. *)
Definition with_vertices b V : structure_graph_builder :=
  mk_builder (SG.mk_graph V (SG.m_initial_vertex (m_graph b)) (SG.m_exclude (m_graph b)))
    (m_vertex_map b) (m_initial_state b).

Definition builder_decoration x : outcome decoration_type :=
  if is_true x then Returns d_true
  else if is_false x then Returns d_false
  else if is_propositional_variable_instantiation x then Returns d_none
  else if is_and x then Returns d_conjunction
  else if is_or x then Returns d_disjunction
  else Throws ("structure_graph_builder: encountered unsupported pbes_expression " +:+ pp x).

(** The default arguments of the constructor of [vertex]. *)
Definition new_vertex x (d : decoration_type) : SG.vertex pbes_expression :=
  SG.mk_vertex x d undefined_index [] [] None.

Definition create_vertex x b : outcome (nat * structure_graph_builder) :=
  let! d := builder_decoration x in
  let b := with_vertices b (vertices b ++ [new_vertex x d]) in
  let index := length (vertices b) - 1 in
  Returns (index, mk_builder (m_graph b) (map_insert (m_vertex_map b) x index) (m_initial_state b)).

(** [u.decoration = d; u.rank = k] *)
Definition with_equation (d : decoration_type) (k : N) (v : SG.vertex pbes_expression)
  : SG.vertex pbes_expression :=
  SG.mk_vertex (SG.formula v) d k (SG.v_predecessors v) (SG.v_successors v) (SG.v_strategy v).

(** [insert_variable(x, psi, k)] *)
Definition insert_variable_equation x psi (k : N) b : outcome (nat * structure_graph_builder) :=
  let! (ui, b) := match map_find (m_vertex_map b) x with
                  | None => create_vertex x b
                  | Some i => Returns (i, b)
                  end in
  let! d := builder_decoration psi in
  Returns (ui, with_vertices b (alter (with_equation d k) ui (vertices b))).

(** [insert_variable(x)] *)
Definition insert_variable x b : outcome (nat * structure_graph_builder) :=
  match map_find (m_vertex_map b) x with
  | Some i => Returns (i, b)
  | None => create_vertex x b
  end.

Definition insert_vertex x b : outcome (nat * structure_graph_builder) :=
  match map_find (m_vertex_map b) x with
  | Some i => Returns (i, b)
  | None => create_vertex x b
  end.

(** [insert_edge]; the code is that of [Solver.insert_edge]. *)
Definition builder_insert_edge (ui vi : nat) b : structure_graph_builder :=
  with_vertices b (insert_edge ui vi (vertices b)).

Definition set_initial_state x b : structure_graph_builder :=
  mk_builder (m_graph b) (m_vertex_map b) (Some x).

(** [initial_vertex]; [None] where the assertion fails. *)
Definition builder_initial_vertex b : option nat :=
  match m_initial_state b with
  | None => None
  | Some x => map_find (m_vertex_map b) x
  end.

Definition finalize b : option structure_graph_builder :=
  match builder_initial_vertex b with
  | None => None
  | Some i => Some (mk_builder (SG.mk_graph (vertices b) i (bitset_empty (builder_extent b)))
                      (m_vertex_map b) (m_initial_state b))
  end.

Definition find_vertex b x : option nat := map_find (m_vertex_map b) x.

(** *** [erase_vertices] *)

(** "compute new index for the vertices" *)
Definition erase_index_step (U : VSet.vertex_set) (st : list (option nat) * nat) (u : nat)
  : list (option nat) * nat :=
  if VSet.contains U u then (fst st ++ [None], snd st)
  else (fst st ++ [Some (snd st)], S (snd st)).

Definition erase_index (U : VSet.vertex_set) (n : nat) : list (option nat) :=
  fst (foldl (erase_index_step U) ([], 0) (seq 0 n)).

(** The lambda [update]. *)
Definition erase_update (index : list (option nat)) (l : list nat) : list nat :=
  foldl (fun result v => match index !! v with
                         | Some (Some i) => result ++ [i]
                         | _ => result
                         end) [] l.

Definition erase_rename (index : list (option nat)) (v : SG.vertex pbes_expression)
  : SG.vertex pbes_expression :=
  SG.mk_vertex (SG.formula v) (SG.v_decoration v) (SG.v_rank v)
    (erase_update index (SG.v_predecessors v)) (erase_update index (SG.v_successors v))
    (match SG.v_strategy v with
     | None => None
     | Some w => match index !! w with Some i => i | None => None end
     end).

(** [std::swap(vertex(u), vertex(i))] *)
Definition swap_vertices (u i : nat) V : vertex_vector :=
  match V !! u, V !! i with
  | Some x, Some y => <[i := x]> (<[u := y]> V)
  | _, _ => V
  end.

Definition erase_step (index : list (option nat)) V (u : nat) : vertex_vector :=
  match index !! u with
  | Some (Some i) =>
      let V := alter (erase_rename index) u V in
      if i =? u then V else swap_vertices u i V
  | _ => V
  end.

(** "Recreate the index" *)
Definition recreate_map V : vertex_map :=
  foldl (fun m i => match V !! i with
                    | Some v => map_insert m (SG.formula v) i
                    | None => m
                    end) [] (seq 0 (length V)).

Definition erase_vertices (U : VSet.vertex_set) b : structure_graph_builder :=
  let V := vertices b in
  let n := length V in
  let V := foldl (erase_step (erase_index U n)) V (seq 0 n) in
  let b := with_vertices b (take (n - VSet.size U) V) in
  mk_builder (m_graph b) (recreate_map (vertices b)) (m_initial_state b).

(** ** [pbesinst_structure_graph_algorithm] *)

(** [split_and] and [split_or] of [join.h]: the operands as a [std::set]. *)
Definition term_order x y : Prop := term_less x y = true.

#[local] Instance term_order_dec : RelDecision term_order.
Proof. intros x y. unfold term_order. apply _. Defined.

Definition ordered_operands (l : list pbes_expression) : list pbes_expression :=
  merge_sort term_order l.

Definition split_and_ordered psi : list pbes_expression := ordered_operands (split_and_set psi false).
Definition split_or_ordered psi : list pbes_expression := ordered_operands (split_or_set psi false).

(** The loop over the operands of [vertex_psi], for a given [SG1]. *)
Fixpoint insert_operands
    (SG1 : pbes_expression -> structure_graph_builder -> outcome (nat * structure_graph_builder))
    (vertex_psi : nat) (operands : list pbes_expression) b : outcome structure_graph_builder :=
  match operands with
  | [] => Returns b
  | psi_i :: operands =>
      let! (vertex_psi_i, b) := SG1 psi_i b in
      insert_operands SG1 vertex_psi operands (builder_insert_edge vertex_psi vertex_psi_i b)
  end.

(** The recursion is bounded by the size of the expression. *)
Fixpoint SG1 (fuel : nat) psi b : outcome (nat * structure_graph_builder) :=
  match fuel with
  | O => Throws "SG1: out of fuel"
  | S fuel =>
      let! (vertex_psi, b) := insert_vertex psi b in
      if is_true psi then Returns (vertex_psi, b)
      else if is_false psi then Returns (vertex_psi, b)
      else if is_propositional_variable_instantiation psi then Returns (vertex_psi, b)
      else if is_and psi
      then let! b := insert_operands (SG1 fuel) vertex_psi (split_and_ordered psi) b in
           Returns (vertex_psi, b)
      else if is_or psi
      then let! b := insert_operands (SG1 fuel) vertex_psi (split_or_ordered psi) b in
           Returns (vertex_psi, b)
      else Returns (vertex_psi, b)
  end.

Definition SG0 x psi (k : N) b : outcome structure_graph_builder :=
  let! (vertex_phi, b) := insert_variable_equation x psi k b in
  if is_true psi then Returns b
  else if is_false psi then Returns b
  else if is_propositional_variable_instantiation psi
  then let! (vertex_psi, b) := insert_variable psi b in
       Returns (builder_insert_edge vertex_phi vertex_psi b)
  else if is_and psi
  then insert_operands (SG1 (size psi)) vertex_phi (split_and_ordered psi) b
  else if is_or psi
  then insert_operands (SG1 (size psi)) vertex_phi (split_or_ordered psi) b
  else Returns b.

Definition on_report_equation x psi (k : N) b : outcome structure_graph_builder :=
  let b := match m_initial_state b with
           | None => set_initial_state x b
           | Some _ => b
           end in
  SG0 x psi k b.

End Builder.

(** ** [manual_structure_graph_builder] *)

Section Manual.
Context {pbes_expression : Type} (default_expression : pbes_expression).

Record manual_structure_graph_builder : Type := mk_manual {
  mm_graph : SG.structure_graph pbes_expression;
  mm_vertices : list (SG.vertex pbes_expression);
  mm_initial_state : nat
}.

Implicit Types b : manual_structure_graph_builder.

Definition manual_with_vertices b (V : list (SG.vertex pbes_expression)) : manual_structure_graph_builder :=
  mk_manual (mm_graph b) V (mm_initial_state b).

Definition manual_insert_vertex (is_conjunctive : bool) (rank : N) b
  : nat * manual_structure_graph_builder :=
  let d := if is_conjunctive then d_conjunction else d_disjunction in
  let V := mm_vertices b ++ [SG.mk_vertex default_expression d rank [] [] None] in
  (length V - 1, manual_with_vertices b V).

Definition manual_insert_edge (ui vi : nat) b : manual_structure_graph_builder :=
  manual_with_vertices b (insert_edge ui vi (mm_vertices b)).

Definition remove_edge (ui vi : nat) b : manual_structure_graph_builder :=
  manual_with_vertices b
    (alter (fun v => SG.remove_predecessor v ui) vi
      (alter (fun u => SG.remove_successor u vi) ui (mm_vertices b))).

Definition manual_set_initial_state (i : nat) b : manual_structure_graph_builder :=
  mk_manual (mm_graph b) (mm_vertices b) i.

Definition manual_finalize b : manual_structure_graph_builder :=
  mk_manual (SG.mk_graph (mm_vertices b) (mm_initial_state b)
               (bitset_empty (length (mm_vertices b))))
    (mm_vertices b) (mm_initial_state b).

End Manual.
