(* ===== verification/GraphBuilderCorrect.v ===== *)
(** * Structure graphs represent the equations they are built from

    [builder_ok] is the invariant of a [structure_graph_builder]: the two edge
    vectors agree, the map sends an expression to its vertex, vertices of
    expressions other than variables carry the decoration of the expression.
    Every operation keeps it.  [SG1_spec] and [SG0_spec] describe what is added
    to the graph: the vertices of the operands, and nothing else. *)

From Stdlib Require Import Lia NArith.
From stdpp Require Import base strings numbers sets list sorting.
From S2P Require Import Prelude VertexSets StructureGraph Solver SolverCheck Terms DataExpressions PbesExpressions GraphBuilder.

Local Open Scope mcrl2_scope.

#[local] Arguments Nat.sub : simpl never.

(** ** Vertices and edges *)

Section Vertices.
Context {E : Type}.
Implicit Types (V : list (SG.vertex E)).

Lemma insert_edge_formula u v V :
  SG.formula <$> insert_edge u v V = SG.formula <$> V.
Proof.
  unfold insert_edge. case_bool_decide; [done|]. apply list_eq. intros i.
  rewrite !list_lookup_fmap, !list_lookup_alter. repeat case_decide; subst;
    by repeat match goal with |- context [V !! ?k] => destruct (V !! k) end.
Qed.

Lemma insert_edge_length u v V : length (insert_edge u v V) = length V.
Proof. unfold insert_edge. case_bool_decide; [done|]. by rewrite !length_alter. Qed.

Lemma insert_edge_succs_ne u v V i : i <> u -> succs (insert_edge u v V) i = succs V i.
Proof.
  intros Hi. unfold insert_edge. case_bool_decide; [done|]. unfold succs.
  rewrite !list_lookup_alter. repeat case_decide; subst; try congruence;
    by repeat match goal with |- context [V !! ?k] => destruct (V !! k) end.
Qed.

(** What later insertions keep of a vertex. *)
Definition same_label (v w : SG.vertex E) : Prop :=
  SG.formula w = SG.formula v /\ SG.v_decoration w = SG.v_decoration v /\
  SG.v_rank w = SG.v_rank v /\ SG.v_strategy w = SG.v_strategy v.

Lemma insert_edge_label u v V i x :
  V !! i = Some x -> exists y, insert_edge u v V !! i = Some y /\ same_label x y.
Proof.
  intros Hx. unfold insert_edge. case_bool_decide; [by exists x|].
  rewrite !list_lookup_alter. repeat case_decide; subst; rewrite ?Hx; cbn; eexists; (split; [done|]); done.
Qed.

Lemma insert_edge_unlabel u v V i y :
  insert_edge u v V !! i = Some y -> exists x, V !! i = Some x /\ same_label x y.
Proof.
  intros Hy. destruct (lookup_lt_is_Some_2 V i) as [x Hx].
  { apply lookup_lt_Some in Hy. by rewrite insert_edge_length in Hy. }
  destruct (insert_edge_label u v V i x Hx) as (y' & Hy' & Hl). exists x.
  split; [done|]. congruence.
Qed.

Lemma succs_lookup V i x : V !! i = Some x -> succs V i = SG.v_successors x.
Proof. intros Hx. unfold succs. by rewrite Hx. Qed.

Lemma succs_app_old V x i : i < length V -> succs (V ++ [x]) i = succs V i.
Proof. intros Hi. unfold succs. by rewrite lookup_app_l. Qed.

Lemma app_one_cases V x i y :
  (V ++ [x]) !! i = Some y -> V !! i = Some y \/ (i = length V /\ y = x).
Proof.
  intros Hi. destruct (decide (i < length V)) as [Hlt|Hge].
  - left. by rewrite lookup_app_l in Hi.
  - right. rewrite lookup_app_r in Hi by lia.
    destruct (i - length V) as [|k] eqn:Ek; cbn in Hi; [injection Hi as <-; split; [lia|done]|done].
Qed.

Lemma app_one_matched V x :
  matched V -> (forall u v, v ∈ succs V u -> v < length V) ->
  SG.v_successors x = [] -> SG.v_predecessors x = [] -> matched (V ++ [x]).
Proof.
  intros Hm Hlt Hs Hp u v.
  assert (Hs' : forall w, succs (V ++ [x]) w = succs V w).
  { intros w. destruct (decide (w < length V)); [by apply succs_app_old|]. unfold succs.
    rewrite (lookup_ge_None_2 V w) by lia.
    destruct ((V ++ [x]) !! w) as [y|] eqn:Ey; [|done]. apply app_one_cases in Ey as [Ey|[_ ->]]; [|done].
    apply lookup_lt_Some in Ey. lia. }
  assert (Hp' : preds (V ++ [x]) v = preds V v).
  { unfold preds. destruct (decide (v < length V)); [by rewrite lookup_app_l|].
    rewrite (lookup_ge_None_2 V v) by lia.
    destruct ((V ++ [x]) !! v) as [y|] eqn:Ey; [|done]. apply app_one_cases in Ey as [Ey|[_ ->]]; [|done].
    apply lookup_lt_Some in Ey. lia. }
  rewrite Hs', Hp'. apply Hm.
Qed.

End Vertices.

(** ** The invariant *)

Section Correct.
Context {variable symbol : Type} `{EqDecision variable} `{EqDecision symbol}.
Abbreviation pbes_expression := (@pbes_expression variable symbol).
Abbreviation builder := (@structure_graph_builder variable symbol).
Context (pp : pbes_expression -> string) (term_less : pbes_expression -> pbes_expression -> bool).
Abbreviation decor := (builder_decoration pp).
Abbreviation is_pvi := is_propositional_variable_instantiation.
Implicit Types (b : builder) (x psi : pbes_expression).

Definition lookup_map b x : option nat := map_find (m_vertex_map b) x.

Record builder_ok b : Prop := {
  bo_edges : forall u v, v ∈ succs (vertices b) u -> v < length (vertices b);
  bo_matched : matched (vertices b);
  bo_map : forall x i, lookup_map b x = Some i <->
    exists v, vertices b !! i = Some v /\ SG.formula v = x;
  bo_inner : forall u v, vertices b !! u = Some v -> is_pvi (SG.formula v) = false ->
    decor (SG.formula v) = Returns (SG.v_decoration v) /\ SG.v_rank v = undefined_index
}.

Lemma map_find_app (m : list (pbes_expression * nat)) x i y :
  map_find (m ++ [(x, i)]) y =
  match map_find m y with Some j => Some j | None => if decide (x = y) then Some i else None end.
Proof.
  unfold map_find. induction m as [|[z k] m IH]; cbn.
  - case_bool_decide; [by rewrite decide_True|by rewrite decide_False].
  - by case_bool_decide.
Qed.

Lemma map_find_insert (m : list (pbes_expression * nat)) x i y :
  map_find m x = None ->
  map_find (map_insert m x i) y = if decide (x = y) then Some i else map_find m y.
Proof.
  intros Hn. unfold map_insert. rewrite Hn, map_find_app. case_decide as E; [subst; by rewrite Hn|].
  by destruct (map_find m y).
Qed.

(** What the operations keep of the vertices that are there. *)
Record evolves b b' : Prop := {
  ev_old : forall i v, vertices b !! i = Some v ->
    exists v', vertices b' !! i = Some v' /\ same_label v v';
  ev_new : forall i v, length (vertices b) <= i -> vertices b' !! i = Some v ->
    SG.v_rank v = undefined_index /\ SG.v_strategy v = None /\
    (is_pvi (SG.formula v) = true -> SG.v_decoration v = d_none /\ SG.v_successors v = [])
}.

Lemma evolves_length b b' : evolves b b' -> length (vertices b) <= length (vertices b').
Proof.
  intros [Ho _]. destruct (decide (length (vertices b) <= length (vertices b'))) as [|Hn]; [done|].
  destruct (lookup_lt_is_Some_2 (vertices b) (length (vertices b'))) as [v Hv]; [lia|].
  destruct (Ho _ _ Hv) as (v' & Hv' & _). apply lookup_lt_Some in Hv'. lia.
Qed.

Lemma evolves_lookup b b' x i :
  builder_ok b -> builder_ok b' -> evolves b b' -> lookup_map b x = Some i ->
  lookup_map b' x = Some i.
Proof.
  intros Hb Hb' He Hx. apply (bo_map b Hb) in Hx as (v & Hv & <-).
  destruct (ev_old _ _ He i v Hv) as (v' & Hv' & Hf & _).
  apply (bo_map b' Hb'). by exists v'.
Qed.

#[local] Instance same_label_preorder : PreOrder (same_label (E := pbes_expression)).
Proof. unfold same_label. split; [done|]. intros ? ? ? (? & ? & ? & ?) (? & ? & ? & ?). repeat split; congruence. Qed.

(** *** Creating a vertex *)

Lemma create_vertex_spec x d b :
  builder_ok b -> lookup_map b x = None -> decor x = Returns d ->
  exists b', create_vertex pp x b = Returns (length (vertices b), b') /\
    builder_ok b' /\ vertices b' = vertices b ++ [new_vertex x d] /\
    lookup_map b' x = Some (length (vertices b)).
Proof.
  intros Hb Hx Hd.
  set (b' := mk_builder (SG.mk_graph (vertices b ++ [new_vertex x d])
      (SG.m_initial_vertex (m_graph b)) (SG.m_exclude (m_graph b)))
      (map_insert (m_vertex_map b) x (length (vertices b))) (m_initial_state b)).
  assert (EV : vertices b' = vertices b ++ [new_vertex x d]) by done.
  assert (Hm : forall y, lookup_map b' y =
    if decide (x = y) then Some (length (vertices b)) else lookup_map b y)
    by (intros y; by apply map_find_insert).
  exists b'. split.
  { unfold create_vertex. rewrite Hd. cbn [outcome_bind].
    assert (El : length (vertices (with_vertices b (vertices b ++ [new_vertex x d]))) - 1 =
      length (vertices b)).
    { unfold vertices at 1. cbn. rewrite length_app. cbn. lia. }
    by rewrite El. }
  clearbody b'. split; [split|split; [done|by rewrite Hm, decide_True]]; rewrite ?EV.
  - intros u v Hv. rewrite length_app. unfold succs in Hv.
    destruct (_ !! u) as [y|] eqn:Ey; [|by apply elem_of_nil in Hv].
    apply app_one_cases in Ey as [Ey|[_ ->]]; [|by apply elem_of_nil in Hv].
    assert (v < length (vertices b)); [|lia]. apply (bo_edges b Hb u). unfold succs. by rewrite Ey.
  - by apply app_one_matched; [apply Hb|apply Hb| |].
  - intros y i. rewrite Hm. case_decide as Ex.
    + subst y. split.
      * intros [= <-]. exists (new_vertex x d). split; [|done].
        rewrite lookup_app_r, Nat.sub_diag by lia. done.
      * intros (v & Hv & Hf). apply app_one_cases in Hv as [Hv|[-> _]]; [|done].
        assert (lookup_map b x = Some i); [|congruence]. apply (bo_map b Hb). by exists v.
    + rewrite (bo_map b Hb y i). split; intros (v & Hv & Hf); exists v.
      * split; [|done]. rewrite lookup_app_l; [done|]. by apply lookup_lt_Some in Hv.
      * apply app_one_cases in Hv as [Hv|[_ ->]]; [done|]. by destruct Ex.
  - intros u v Hv Hp. apply app_one_cases in Hv as [Hv|[_ ->]]; [by apply (bo_inner b Hb u)|done].
Qed.

(** [insert_vertex] and [insert_variable]. *)
Lemma insert_vertex_spec x d b :
  builder_ok b -> decor x = Returns d ->
  exists u b', insert_vertex pp x b = Returns (u, b') /\ builder_ok b' /\ evolves b b' /\
    lookup_map b' x = Some u /\
    (b' = b \/ (lookup_map b x = None /\ vertices b' = vertices b ++ [new_vertex x d])).
Proof.
  intros Hb Hd. unfold insert_vertex. fold (lookup_map b x).
  destruct (lookup_map b x) as [i|] eqn:Ex.
  - exists i, b. split; [done|]. split; [done|]. split; [|by auto].
    split; [intros i' v Hv; by exists v|]. intros i' v Hi Hv. apply lookup_lt_Some in Hv. lia.
  - destruct (create_vertex_spec x d b Hb Ex Hd) as (b' & E & Hb' & EV & Hl).
    exists (length (vertices b)), b'. split; [done|]. split; [done|]. split; [|by auto].
    split; rewrite EV.
    + intros i v Hv. exists v. split; [|done]. rewrite lookup_app_l; [done|]. by apply lookup_lt_Some in Hv.
    + intros i v Hi Hv. apply app_one_cases in Hv as [Hv|[_ ->]]; [apply lookup_lt_Some in Hv; lia|].
      split; [done|]. split; [done|]. cbn. intros Hp. split; [|done].
      unfold builder_decoration in Hd. destruct x as [[]| | | | | | |]; cbn in *; try done. by injection Hd.
Qed.

(** *** Inserting an edge *)

Lemma vertices_insert_edge u v b : vertices (builder_insert_edge u v b) = insert_edge u v (vertices b).
Proof. done. Qed.

Lemma builder_insert_edge_spec u v b :
  builder_ok b -> u < length (vertices b) -> v < length (vertices b) ->
  builder_ok (builder_insert_edge u v b) /\ evolves b (builder_insert_edge u v b) /\
  (forall x, lookup_map (builder_insert_edge u v b) x = lookup_map b x) /\
  (forall i w, w ∈ succs (vertices (builder_insert_edge u v b)) i <->
     w ∈ succs (vertices b) i \/ (i = u /\ w = v)).
Proof.
  intros Hb Hu Hv. rewrite vertices_insert_edge.
  destruct (insert_edge_spec u v (vertices b) Hu Hv (bo_matched b Hb)) as (_ & Hm & Hs).
  split; [split; rewrite ?vertices_insert_edge|split; [split; rewrite vertices_insert_edge|done]].
  - intros i w Hw. rewrite insert_edge_length. apply Hs in Hw as [Hw|[_ ->]]; [|done].
    by apply (bo_edges b Hb i).
  - done.
  - intros x i. rewrite (bo_map b Hb x i : lookup_map (builder_insert_edge u v b) x = Some i <-> _).
    split; intros (y & Hy & Hf).
    + destruct (insert_edge_label u v _ i y Hy) as (z & Hz & Hl & _). exists z. split; [done|congruence].
    + destruct (insert_edge_unlabel u v _ i y Hy) as (z & Hz & Hl & _). exists z. split; [done|congruence].
  - intros i y Hy Hp. destruct (insert_edge_unlabel u v _ i y Hy) as (z & Hz & Hf & Hd & Hr & _).
    rewrite Hf, Hd, Hr in *. by apply (bo_inner b Hb i).
  - intros i y Hy. apply insert_edge_label, Hy.
  - intros i y Hi Hy. apply lookup_lt_Some in Hy. rewrite insert_edge_length in Hy. lia.
Qed.

(** *** Complete vertices *)

(** The operands that become successors. *)
Definition operands x : list pbes_expression :=
  if is_and x then split_and x else if is_or x then split_or x else [].

(** The successors of [u] are exactly the vertices of [l]. *)
Definition leads_to b (u : nat) (l : list pbes_expression) : Prop :=
  (forall y, y ∈ l -> exists v, lookup_map b y = Some v) /\
  forall v, v ∈ succs (vertices b) u <-> exists y, y ∈ l /\ lookup_map b y = Some v.

Definition complete_upto b (n : nat) : Prop := forall u v,
  vertices b !! u = Some v -> is_pvi (SG.formula v) = false -> size (SG.formula v) <= n ->
  leads_to b u (operands (SG.formula v)).

Lemma leads_to_evolves b b' u l :
  builder_ok b -> builder_ok b' -> evolves b b' ->
  succs (vertices b') u = succs (vertices b) u -> leads_to b u l -> leads_to b' u l.
Proof.
  intros Hb Hb' He Hs [H1 H2].
  assert (Hm : forall y, y ∈ l -> lookup_map b' y = lookup_map b y).
  { intros y Hy. destruct (H1 y Hy) as [v Hv]. rewrite Hv. by apply (evolves_lookup b b'). }
  split.
  - intros y Hy. rewrite Hm by done. by apply H1.
  - intros v. rewrite Hs, H2. split; intros (y & Hy & Hv); exists y; (split; [done|]);
      [by rewrite Hm|by rewrite <- Hm].
Qed.

(** What [SG1] does to the vertices outside the expression it adds. *)
Record adds (n : nat) (W : nat -> Prop) b b' : Prop := {
  ad_ok : builder_ok b';
  ad_evolves : evolves b b';
  ad_new : forall i v, length (vertices b) <= i -> vertices b' !! i = Some v ->
    size (SG.formula v) <= n;
  ad_frame : forall i v, vertices b !! i = Some v ->
    n < size (SG.formula v) \/ is_pvi (SG.formula v) = true -> ~ W i ->
    succs (vertices b') i = succs (vertices b) i
}.

Lemma evolves_refl b : evolves b b.
Proof.
  split; [intros i v Hv; by exists v|]. intros i v Hi Hv. apply lookup_lt_Some in Hv. lia.
Qed.

Lemma adds_refl n W b : builder_ok b -> adds n W b b.
Proof.
  intros Hb. split; [done|apply evolves_refl| |done].
  intros i v Hi Hv. apply lookup_lt_Some in Hv. lia.
Qed.

Lemma evolves_trans b1 b2 b3 :
  evolves b1 b2 -> evolves b2 b3 ->
  (forall i v, length (vertices b1) <= i -> vertices b2 !! i = Some v ->
     is_pvi (SG.formula v) = true -> succs (vertices b3) i = succs (vertices b2) i) ->
  evolves b1 b3.
Proof.
  intros E12 E23 Hk. split.
  - intros i v Hv. destruct (ev_old _ _ E12 i v Hv) as (w & Hw & L1).
    destruct (ev_old _ _ E23 i w Hw) as (z & Hz & L2). exists z. split; [done|by etransitivity].
  - intros i v Hi Hv. destruct (decide (i < length (vertices b2))) as [Hlt|Hge].
    + destruct (lookup_lt_is_Some_2 _ _ Hlt) as [w Hw].
      destruct (ev_old _ _ E23 i w Hw) as (v' & Hv' & Hf & Hd & Hr & Hs).
      assert (v' = v) as -> by congruence. destruct (ev_new _ _ E12 i w Hi Hw) as (N1 & N2 & N3).
      rewrite Hf, Hd, Hr, Hs. split; [done|]. split; [done|]. intros Hp. destruct (N3 Hp) as [? Hs2].
      split; [done|]. specialize (Hk i w Hi Hw Hp).
      by rewrite (succs_lookup _ _ _ Hv), (succs_lookup _ _ _ Hw) in Hk; rewrite Hk.
    + apply (ev_new _ _ E23 i v); [lia|done].
Qed.

Lemma adds_trans n n' W b1 b2 b3 :
  n' <= n -> (forall i, W i -> i < length (vertices b1)) ->
  adds n W b1 b2 -> adds n' W b2 b3 -> adds n W b1 b3.
Proof.
  intros Hn HW [O1 E1 N1 F1] [O2 E2 N2 F2]. split; [done| | |].
  - apply (evolves_trans b1 b2 b3 E1 E2). intros i v Hi Hv Hp. apply (F2 i v Hv); [by right|].
    intros HWi. specialize (HW i HWi). lia.
  - intros i v Hi Hv. destruct (decide (i < length (vertices b2))) as [Hlt|Hge].
    + destruct (lookup_lt_is_Some_2 _ _ Hlt) as [w Hw].
      destruct (ev_old _ _ E2 i w Hw) as (v' & Hv' & Hf & _).
      assert (v' = v) as -> by congruence. rewrite Hf. by apply (N1 i).
    + assert (size (SG.formula v) <= n'); [|lia]. apply (N2 i v); [lia|done].
  - intros i v Hv Hs Hn'. destruct (ev_old _ _ E1 i v Hv) as (w & Hw & Hf & _).
    rewrite (F2 i w Hw); [by apply (F1 i v Hv)| |done]. rewrite Hf. destruct Hs; [left; lia|by right].
Qed.

(** Completeness of smaller expressions carries over to larger ones. *)
Lemma adds_complete n k (W : nat -> Prop) b b' :
  (forall i, W i -> exists v, vertices b !! i = Some v /\ is_pvi (SG.formula v) = true) ->
  builder_ok b -> adds n W b b' -> n <= k -> complete_upto b k ->
  complete_upto b' n -> complete_upto b' k.
Proof.
  intros HW Hb [Hok He Hnew Hfr] Hk Hc Hc' u v Hv Hp Hs.
  destruct (decide (size (SG.formula v) <= n)) as [|Hgt]; [by apply (Hc' u v)|].
  destruct (decide (u < length (vertices b))) as [Hlt|Hge].
  - destruct (lookup_lt_is_Some_2 _ _ Hlt) as [w Hw].
    destruct (ev_old _ _ He u w Hw) as (v' & Hv' & Hf & _). assert (v' = v) as -> by congruence.
    rewrite Hf in *. apply (leads_to_evolves b b'); auto.
    apply (Hfr u w Hw); [left; lia|]. intros (z & Hz & Hpz)%HW. congruence.
  - specialize (Hnew u v ltac:(lia) Hv). lia.
Qed.

(** *** [SG1] *)

(** The expressions a structure graph can represent. *)
Fixpoint supported x : bool :=
  match x with
  | pbes_data _ => is_true x || is_false x
  | propositional_variable_instantiation _ _ => true
  | pbes_and p q | pbes_or p q => supported p && supported q
  | _ => false
  end.

Lemma supported_decoration x : supported x = true -> exists d, decor x = Returns d.
Proof. destruct x as [[]| | | | | | |]; cbn; try done; intros _; eexists; reflexivity. Qed.

Lemma split_and_supported x y :
  supported x = true -> y ∈ split_and x -> supported y = true /\ size y <= size x.
Proof.
  induction x as [d|n p|p IHp|p IHp q IHq|p IHp q IHq|p IHp q IHq|v p IHp|v p IHp]; cbn [split_and];
    intros Hs Hy; try (apply list_elem_of_singleton in Hy as ->; done).
  cbn in Hs. apply andb_true_iff in Hs as [Hp Hq]. cbn [size].
  apply elem_of_app in Hy as [Hy|Hy]; [destruct (IHp Hp Hy)|destruct (IHq Hq Hy)]; split; auto; lia.
Qed.

Lemma split_or_supported x y :
  supported x = true -> y ∈ split_or x -> supported y = true /\ size y <= size x.
Proof.
  induction x as [d|n p|p IHp|p IHp q IHq|p IHp q IHq|p IHp q IHq|v p IHp|v p IHp]; cbn [split_or];
    intros Hs Hy; try (apply list_elem_of_singleton in Hy as ->; done).
  cbn in Hs. apply andb_true_iff in Hs as [Hp Hq]. cbn [size].
  apply elem_of_app in Hy as [Hy|Hy]; [destruct (IHp Hp Hy)|destruct (IHq Hq Hy)]; split; auto; lia.
Qed.

Lemma operands_supported x y :
  supported x = true -> y ∈ operands x -> supported y = true /\ size y < size x.
Proof.
  unfold operands. destruct x as [d|n p|p|p q|p q|p q|v p|v p]; cbn [is_and is_or]; intros Hs Hy;
    try (by apply elem_of_nil in Hy); cbn in Hs; apply andb_true_iff in Hs as [Hp Hq]; cbn [size];
    apply elem_of_app in Hy as [Hy|Hy];
    [apply split_and_supported in Hy|apply split_and_supported in Hy
    |apply split_or_supported in Hy|apply split_or_supported in Hy]; auto;
    destruct Hy; split; auto; lia.
Qed.

Lemma elem_of_split_and_ordered x y : y ∈ split_and_ordered term_less x <-> y ∈ split_and x.
Proof.
  unfold split_and_ordered, ordered_operands. rewrite merge_sort_Permutation.
  unfold split_and_set. apply elem_of_remove_dups.
Qed.

Lemma elem_of_split_or_ordered x y : y ∈ split_or_ordered term_less x <-> y ∈ split_or x.
Proof.
  unfold split_or_ordered, ordered_operands. rewrite merge_sort_Permutation.
  unfold split_or_set. apply elem_of_remove_dups.
Qed.

Lemma adds_weaken n n' (W W' : nat -> Prop) b b' :
  n' <= n -> (forall i, W i -> W' i) -> adds n' W b b' -> adds n W' b b'.
Proof.
  intros Hn HW [O E N F]. split; [done|done| |].
  - intros i v Hi Hv. specialize (N i v Hi Hv). lia.
  - intros i v Hv Hs HnW. apply (F i v Hv); [destruct Hs; [left; lia|by right]|auto].
Qed.

Lemma adds_insert_edge n u v b :
  builder_ok b -> u < length (vertices b) -> v < length (vertices b) ->
  adds n (eq u) b (builder_insert_edge u v b).
Proof.
  intros Hb Hu Hv. destruct (builder_insert_edge_spec u v b Hb Hu Hv) as (H1 & H2 & _ & _).
  split; [done|done| |].
  - intros i w Hi Hw. apply lookup_lt_Some in Hw. rewrite vertices_insert_edge, insert_edge_length in Hw. lia.
  - intros i w _ _ Hi. rewrite vertices_insert_edge. apply insert_edge_succs_ne. congruence.
Qed.

Lemma lookup_map_lt b x v : builder_ok b -> lookup_map b x = Some v -> v < length (vertices b).
Proof. intros Hb Hv. apply (bo_map b Hb) in Hv as (w & Hw & _). by apply lookup_lt_Some in Hw. Qed.

(** What is required of [SG1] for one operand. *)
Definition adds_expression (f : pbes_expression -> builder -> outcome (nat * builder)) y : Prop :=
  forall b, builder_ok b -> complete_upto b (size y) ->
    exists v b', f y b = Returns (v, b') /\ adds (size y) (fun _ => False) b b' /\
      complete_upto b' (size y) /\ lookup_map b' y = Some v.

Lemma complete_insert_edge n u v b w :
  builder_ok b -> vertices b !! u = Some w ->
  n < size (SG.formula w) \/ is_pvi (SG.formula w) = true -> v < length (vertices b) ->
  complete_upto b n -> complete_upto (builder_insert_edge u v b) n.
Proof.
  intros Hb Hw Hs Hv Hc i z Hz Hp Hn. pose proof (lookup_lt_Some _ _ _ Hw) as Hu.
  destruct (builder_insert_edge_spec u v b Hb Hu Hv) as (H1 & H2 & _ & _).
  rewrite vertices_insert_edge in Hz.
  destruct (insert_edge_unlabel u v _ i z Hz) as (z' & Hz' & Hf & _). rewrite Hf in *.
  assert (i <> u). { intros ->. assert (z' = w) as -> by congruence. destruct Hs; [lia|congruence]. }
  apply (leads_to_evolves b); [done|done|done| |by apply (Hc i z')].
  rewrite vertices_insert_edge. by apply insert_edge_succs_ne.
Qed.

Lemma insert_operands_spec f l b u n w :
  (forall y, y ∈ l -> size y <= n /\ adds_expression f y) ->
  builder_ok b -> complete_upto b n -> vertices b !! u = Some w ->
  n < size (SG.formula w) \/ is_pvi (SG.formula w) = true ->
  exists b', insert_operands f u l b = Returns b' /\ adds n (eq u) b b' /\
    complete_upto b' n /\ (forall y, y ∈ l -> exists v, lookup_map b' y = Some v) /\
    forall v, v ∈ succs (vertices b') u <->
      v ∈ succs (vertices b) u \/ exists y, y ∈ l /\ lookup_map b' y = Some v.
Proof.
  intros Hl. revert b w. induction l as [|y l IH]; intros b w Hb Hc Hw Hs; cbn [insert_operands].
  { exists b. split; [done|]. split; [by apply adds_refl|]. split; [done|].
    split; [intros y Hy; by apply elem_of_nil in Hy|]. intros v. set_solver. }
  destruct (Hl y) as [Hy Hf]; [left|].
  destruct (Hf b Hb) as (v & b1 & -> & A1 & C1 & L1); [intros i z Hz Hp Hn; apply (Hc i z); auto; lia|].
  cbn [outcome_bind].
  pose proof (ad_ok _ _ _ _ A1) as Hb1. pose proof (lookup_map_lt b1 y v Hb1 L1) as Hv.
  destruct (ev_old _ _ (ad_evolves _ _ _ _ A1) u w Hw) as (w1 & Hw1 & Hf1 & _).
  assert (Hs1 : n < size (SG.formula w1) \/ is_pvi (SG.formula w1) = true) by (by rewrite Hf1).
  pose proof (lookup_lt_Some _ _ _ Hw) as Hu. pose proof (lookup_lt_Some _ _ _ Hw1) as Hu1.
  assert (C1n : complete_upto b1 n) by (by apply (adds_complete (size y) n (fun _ => False) b)).
  set (b2 := builder_insert_edge u v b1).
  destruct (builder_insert_edge_spec u v b1 Hb1 Hu1 Hv) as (Hb2 & E2 & L2 & S2). fold b2 in Hb2, E2, L2, S2.
  destruct (ev_old _ _ E2 u w1 Hw1) as (w2 & Hw2 & Hf2 & _).
  destruct (IH) with (b := b2) (w := w2) as (b' & E' & A' & C' & L' & S'); auto.
  { intros z Hz. apply Hl. by right. }
  { by apply (complete_insert_edge n u v b1 w1). } { by rewrite Hf2. }
  exists b'. split; [done|].
  assert (A12 : adds n (eq u) b b2).
  { apply (adds_trans n n (eq u) b b1); [lia|by intros i <-|by apply (adds_weaken n (size y) (fun _ => False))|].
    by apply adds_insert_edge. }
  split; [apply (adds_trans n n (eq u) b b2); [lia|by intros i <-|done|done]|]. split; [done|].
  assert (Hyv : lookup_map b' y = Some v).
  { apply (evolves_lookup b2 b'); [done|by apply A'|apply A'|]. by rewrite L2. }
  split; [intros z [->|Hz]%elem_of_cons; [by exists v|auto]|].
  intros z. rewrite S', S2, (ad_frame _ _ _ _ A1 u w Hw); [|destruct Hs; [left; lia|by right]|auto].
  setoid_rewrite elem_of_cons. split.
  - intros [[|[_ ->]]|(x & Hx & Hz)]; [by left|right; exists y; auto|right; exists x; auto].
  - intros [|(x & [->|Hx] & Hz)]; [by left; left| |right; by exists x].
    left. right. split; [done|congruence].
Qed.

(** [insert_vertex] as a first step: the vertex of [psi] is there, all other
    vertices up to the size of [psi] are complete. *)
Lemma insert_vertex_adds psi b :
  supported psi = true -> builder_ok b -> complete_upto b (size psi) ->
  exists u w b', insert_vertex pp psi b = Returns (u, b') /\
    adds (size psi) (fun _ => False) b b' /\ lookup_map b' psi = Some u /\
    vertices b' !! u = Some w /\ SG.formula w = psi /\
    (forall i v, vertices b' !! i = Some v -> is_pvi (SG.formula v) = false ->
       size (SG.formula v) <= size psi -> i <> u -> leads_to b' i (operands (SG.formula v))) /\
    (is_pvi psi = false -> forall v, v ∈ succs (vertices b') u ->
       exists y, y ∈ operands psi /\ lookup_map b' y = Some v).
Proof.
  intros Hsup Hb Hc. destruct (supported_decoration psi Hsup) as [d Hd].
  destruct (insert_vertex_spec psi d b Hb Hd) as (u & b' & E & Hb' & He & Hl & Hcase).
  pose proof (proj1 (bo_map b' Hb' psi u) Hl) as (w & Hw & Hf).
  exists u, w, b'. split; [done|]. destruct Hcase as [->|[Hn EV]].
  - split; [by apply adds_refl|]. split; [done|]. split; [done|]. split; [done|].
    split; [intros i v Hv Hp Hs _; by apply (Hc i v)|]. intros Hp v Hv.
    destruct (Hc u w Hw) as [_ H2]; rewrite ?Hf; [done|done|]. rewrite Hf in H2. by apply H2.
  - assert (Hu : u = length (vertices b)).
    { rewrite EV in Hw. apply app_one_cases in Hw as [Hw|[? _]]; [|done].
      assert (lookup_map b psi = Some u); [|congruence]. apply (bo_map b Hb). by exists w. }
    assert (Hold : forall i, i < length (vertices b) -> succs (vertices b') i = succs (vertices b) i).
    { intros i Hi. rewrite EV. by apply succs_app_old. }
    split; [split; [done|done| |]|].
    + intros i v Hi Hv. rewrite EV in Hv. apply app_one_cases in Hv as [Hv|[_ ->]]; [|done].
      apply lookup_lt_Some in Hv. lia.
    + intros i v Hv _ _. apply Hold. by apply lookup_lt_Some in Hv.
    + split; [done|]. split; [done|]. split; [done|]. split.
      * intros i v Hv Hp Hs Hi. rewrite EV in Hv. apply app_one_cases in Hv as [Hv|[-> _]]; [|congruence].
        apply (leads_to_evolves b); auto. apply Hold. by apply lookup_lt_Some in Hv.
      * intros _ v Hv. subst u. unfold succs in Hv.
        rewrite EV, lookup_app_r, Nat.sub_diag in Hv by lia. by apply elem_of_nil in Hv.
Qed.

(** Closing an expression: after its operands it is complete. *)
Lemma insert_operands_complete f psi l b u w :
  builder_ok b -> is_pvi psi = false -> size psi > 0 ->
  (forall y, y ∈ l <-> y ∈ operands psi) ->
  (forall y, y ∈ l -> size y < size psi /\ adds_expression f y) ->
  vertices b !! u = Some w -> SG.formula w = psi ->
  (forall i v, vertices b !! i = Some v -> is_pvi (SG.formula v) = false ->
     size (SG.formula v) <= size psi -> i <> u -> leads_to b i (operands (SG.formula v))) ->
  (forall v, v ∈ succs (vertices b) u -> exists y, y ∈ operands psi /\ lookup_map b y = Some v) ->
  exists b', insert_operands f u l b = Returns b' /\ adds (size psi) (eq u) b b' /\
    complete_upto b' (size psi).
Proof.
  intros Hb Hp Hpos Hl Hf Hw Hfw Hc Hs.
  destruct (insert_operands_spec f l b u (size psi - 1) w) as (b' & E & A & C & L & S).
  - intros y Hy. destruct (Hf y Hy). split; [lia|done].
  - done.
  - intros i v Hv Hp' Hn. apply (Hc i v Hv Hp'); [lia|]. intros ->.
    assert (v = w) as -> by congruence. rewrite Hfw in Hn. lia.
  - done.
  - rewrite Hfw. left. lia.
  - pose proof (ad_ok _ _ _ _ A) as Hb'. pose proof (ad_evolves _ _ _ _ A) as He.
    exists b'. split; [done|]. split; [by apply (adds_weaken _ (size psi - 1) (eq u)); [lia| |]|].
    intros i v Hv Hp' Hn. destruct (decide (size (SG.formula v) <= size psi - 1)) as [|Hgt].
    { by apply (C i v). }
    destruct (decide (i < length (vertices b))) as [Hlt|Hge].
    2: { pose proof (ad_new _ _ _ _ A i v ltac:(lia) Hv). lia. }
    destruct (lookup_lt_is_Some_2 _ _ Hlt) as [z Hz].
    destruct (ev_old _ _ He i z Hz) as (v' & Hv' & Hfz & _). assert (v' = v) as -> by congruence.
    destruct (decide (i = u)) as [->|Hi].
    + assert (z = w) as -> by congruence. rewrite Hfz, Hfw. split; [intros y Hy; by apply L, Hl|].
      intros x. rewrite S. split.
      * intros [Hx|(y & Hy & Hx)]; [|exists y; split; [by apply Hl|done]].
        destruct (Hs x Hx) as (y & Hy & Hx'). exists y. split; [done|]. by apply (evolves_lookup b b').
      * intros (y & Hy & Hx). right. exists y. split; [by apply Hl|done].
    + rewrite Hfz in *. apply (leads_to_evolves b); auto.
      apply (ad_frame _ _ _ _ A i z Hz); [left; lia|congruence].
Qed.

Lemma operands_order psi y :
  (is_and psi = true -> y ∈ split_and_ordered term_less psi <-> y ∈ operands psi) /\
  (is_and psi = false -> is_or psi = true -> y ∈ split_or_ordered term_less psi <-> y ∈ operands psi).
Proof.
  unfold operands. split; [intros ->|intros -> ->];
    [apply elem_of_split_and_ordered|apply elem_of_split_or_ordered].
Qed.

Lemma SG1_spec fuel psi :
  supported psi = true -> size psi <= fuel -> adds_expression (SG1 pp term_less fuel) psi.
Proof.
  revert psi. induction fuel as [|fuel IH]; intros psi Hsup Hf b Hb Hc.
  { destruct psi; cbn in Hf; lia. }
  destruct (insert_vertex_adds psi b Hsup Hb Hc) as (u & w & b1 & E & A & Hl & Hw & Hfw & Hc1 & Hs1).
  cbn [SG1]. rewrite E. cbn [outcome_bind].
  assert (Hpos : size psi > 0) by (destruct psi; cbn; lia).
  assert (Hleaf : is_and psi = false -> is_or psi = false ->
    exists v b', Returns (u, b1) = Returns (v, b') /\ adds (size psi) (fun _ => False) b b' /\
      complete_upto b' (size psi) /\ lookup_map b' psi = Some v).
  { intros Ha Ho. exists u, b1. split; [done|]. split; [done|]. split; [|done].
    intros i v Hv Hp Hn. destruct (decide (i = u)) as [->|]; [|by apply (Hc1 i v)].
    assert (v = w) as -> by congruence. rewrite Hfw in *.
    assert (Eo : operands psi = []) by (unfold operands; by rewrite Ha, Ho). rewrite Eo.
    split; [intros y Hy; by apply elem_of_nil in Hy|]. intros v.
    split; [intros Hv'; specialize (Hs1 Hp v Hv'); by rewrite Eo in Hs1|].
    intros (y & Hy & _). by apply elem_of_nil in Hy. }
  assert (Hnode : forall l, is_pvi psi = false -> (forall y, y ∈ l <-> y ∈ operands psi) ->
    exists v b', (let! b' := insert_operands (SG1 pp term_less fuel) u l b1 in Returns (u, b')) =
      Returns (v, b') /\ adds (size psi) (fun _ => False) b b' /\
      complete_upto b' (size psi) /\ lookup_map b' psi = Some v).
  { intros l Hp Hll. pose proof (ad_ok _ _ _ _ A) as Hb1.
    destruct (insert_operands_complete (SG1 pp term_less fuel) psi l b1 u w) as (b2 & E2 & A2 & C2); auto.
    - intros y Hy. apply Hll in Hy. destruct (operands_supported psi y Hsup Hy). split; [done|].
      apply IH; [done|lia].
    - rewrite E2. cbn [outcome_bind]. exists u, b2. split; [done|]. split; [|split; [done|]].
      + destruct A2 as [O2 E2' N2 F2]. destruct A as [O1 E1 N1 F1].
        apply (adds_trans (size psi) (size psi) (fun _ => False) b b1); [lia|done|done|].
        split; [done|done|done|]. intros i v Hv Hsz _. apply (F2 i v Hv Hsz). intros <-.
        assert (v = w) as -> by congruence. rewrite Hfw in Hsz. destruct Hsz; [lia|congruence].
      + apply (evolves_lookup b1 b2); [done|apply A2|apply A2|done]. }
  destruct psi as [[]|nm ps|p|p q|p q|p q|vs p|vs p]; cbn [is_true is_false is_pvi is_and is_or];
    try (by apply Hleaf); apply Hnode; try done; intros y; by apply operands_order.
Qed.

(** *** [SG0] *)

(** All inner vertices are complete. *)
Definition complete b : Prop := forall n, complete_upto b n.

Lemma with_vertices_lookup b V x : lookup_map (with_vertices b V) x = lookup_map b x.
Proof. done. Qed.

(** The assignment of decoration and rank. *)
Lemma with_equation_spec b u w d k :
  builder_ok b -> vertices b !! u = Some w -> is_pvi (SG.formula w) = true ->
  let b' := with_vertices b (alter (with_equation d k) u (vertices b)) in
  builder_ok b' /\ vertices b' !! u = Some (with_equation d k w) /\
  (forall i, i <> u -> vertices b' !! i = vertices b !! i) /\
  (forall i, succs (vertices b') i = succs (vertices b) i).
Proof.
  intros Hb Hw Hp b'. assert (EV : vertices b' = alter (with_equation d k) u (vertices b)) by done.
  assert (Hu : vertices b' !! u = Some (with_equation d k w)) by (rewrite EV, list_lookup_alter_eq, Hw; done).
  assert (Hne : forall i, i <> u -> vertices b' !! i = vertices b !! i).
  { intros i Hi. rewrite EV. apply list_lookup_alter_ne. congruence. }
  assert (Hs : forall i, succs (vertices b') i = succs (vertices b) i).
  { intros i. unfold succs. destruct (decide (i = u)) as [->|Hi]; [by rewrite Hu, Hw|by rewrite Hne]. }
  assert (Hpr : forall i, preds (vertices b') i = preds (vertices b) i).
  { intros i. unfold preds. destruct (decide (i = u)) as [->|Hi]; [by rewrite Hu, Hw|by rewrite Hne]. }
  split; [split|done].
  - intros i v Hv. rewrite Hs in Hv. rewrite EV, length_alter. by apply (bo_edges b Hb i).
  - intros i v. rewrite Hs, Hpr. apply Hb.
  - intros x i. unfold b' at 1. rewrite with_vertices_lookup, (bo_map b Hb x i).
    destruct (decide (i = u)) as [->|Hi]; [|by rewrite Hne]. rewrite Hu, Hw.
    split; intros (v & [= <-] & Hf); eexists; (split; [done|exact Hf]).
  - intros i v Hv Hpv. destruct (decide (i = u)) as [->|Hi].
    + rewrite Hu in Hv. injection Hv as <-. cbn in Hpv. congruence.
    + rewrite Hne in Hv by done. by apply (bo_inner b Hb i).
Qed.

(** The state after [insert_variable(x, psi, k)]. *)
Record variable_inserted b x (d : decoration_type) (k : N) (u : nat) b1 : Prop := {
  vi_ok : builder_ok b1;
  vi_lookup : lookup_map b1 x = Some u;
  vi_old : forall i v, vertices b !! i = Some v -> i <> u -> vertices b1 !! i = Some v;
  vi_new : forall i, i <> u -> length (vertices b) <= i -> vertices b1 !! i = None;
  vi_vertex : exists w, vertices b1 !! u = Some w /\ SG.formula w = x /\
    SG.v_decoration w = d /\ SG.v_rank w = k /\ SG.v_successors w = [];
  vi_complete : complete b -> complete b1;
  vi_unknown : u < length (vertices b) <-> lookup_map b x = Some u
}.

Lemma insert_variable_equation_spec x psi k d b :
  builder_ok b -> is_pvi x = true -> decor psi = Returns d ->
  (forall i, lookup_map b x = Some i -> succs (vertices b) i = []) ->
  exists u b1, insert_variable_equation pp x psi k b = Returns (u, b1) /\
    variable_inserted b x d k u b1.
Proof.
  intros Hb Hp Hd Hfresh.
  assert (Hdx : decor x = Returns d_none) by (destruct x; cbn in *; try done).
  destruct (insert_vertex_spec x d_none b Hb Hdx) as (u & b0 & E0 & Hb0 & He0 & Hl0 & Hcase).
  unfold insert_vertex in E0. unfold insert_variable_equation.
  rewrite E0. cbn [outcome_bind]. rewrite Hd. cbn [outcome_bind].
  pose proof (proj1 (bo_map b0 Hb0 x u) Hl0) as (w & Hw & Hf).
  assert (Hpw : is_pvi (SG.formula w) = true) by (by rewrite Hf).
  destruct (with_equation_spec b0 u w d k Hb0 Hw Hpw) as (Hb1 & Hu1 & Hne & Hs).
  set (b1 := with_vertices b0 _) in *. exists u, b1. split; [done|].
  assert (Hsw : SG.v_successors w = []).
  { rewrite <- (succs_lookup _ _ _ Hw). destruct Hcase as [->|[Hn EV]]; [by apply Hfresh|].
    unfold succs. rewrite Hw. rewrite EV in Hw. apply app_one_cases in Hw as [Hw|[_ ->]]; [|done].
    assert (lookup_map b x = Some u); [|congruence]. apply (bo_map b Hb). by exists w. }
  split; auto.
  - intros i v Hv Hi. rewrite Hne by done. destruct Hcase as [->|[_ ->]]; [done|].
    rewrite lookup_app_l; [done|]. by apply lookup_lt_Some in Hv.
  - intros i Hi Hge. rewrite Hne by done. destruct Hcase as [->|[Hn EV]]; [by apply lookup_ge_None_2|].
    destruct (vertices b0 !! i) as [v|] eqn:Ev; [|done]. rewrite EV in Ev, Hw.
    apply app_one_cases in Ev as [Ev|[Ei _]]; [apply lookup_lt_Some in Ev; lia|].
    apply app_one_cases in Hw as [Hw|[Eu _]]; [|congruence].
    assert (lookup_map b x = Some u); [|congruence]. apply (bo_map b Hb). by exists w.
  - exists (with_equation d k w). done.
  - intros Hc n i v Hv Hpv Hn. destruct (decide (i = u)) as [->|Hi].
    { rewrite Hu1 in Hv. injection Hv as <-. cbn in Hpv. congruence. }
    rewrite Hne in Hv by done. assert (Hlt : i < length (vertices b)).
    { destruct Hcase as [->|[Hno EV]]; [by apply lookup_lt_Some in Hv|]. rewrite EV in Hv.
      apply app_one_cases in Hv as [Hv|[_ ->]]; [by apply lookup_lt_Some in Hv|]. cbn in Hpv. congruence. }
    assert (L0 : leads_to b0 i (operands (SG.formula v))).
    { destruct Hcase as [->|[Hno EV]]; [by apply (Hc n i v)|].
      apply (leads_to_evolves b); auto; [rewrite EV; by apply succs_app_old|].
      apply (Hc n i v); auto. by rewrite EV, lookup_app_l in Hv. }
    destruct L0 as [L1 L2]. split; [exact L1|]. intros z. rewrite Hs. apply L2.
  - destruct Hcase as [->|[Hn EV]]; [split; [done|]; intros _; by eapply lookup_map_lt|].
    rewrite Hn. split; [|done]. intros Hlt.
    assert (lookup_map b x = Some u); [|congruence]. apply (bo_map b Hb). exists w.
    split; [|done]. by rewrite EV, lookup_app_l in Hw.
Qed.

(** The expressions whose vertices become the successors of the variable. *)
Definition rhs_operands psi : list pbes_expression :=
  if is_pvi psi then [psi] else operands psi.

Record equation_added b x psi (k : N) (u : nat) b' : Prop := {
  ea_ok : builder_ok b';
  ea_complete : complete b';
  ea_lookup : lookup_map b' x = Some u;
  ea_vertex : exists w, vertices b' !! u = Some w /\ SG.formula w = x /\
    decor psi = Returns (SG.v_decoration w) /\ SG.v_rank w = k;
  ea_successors : leads_to b' u (rhs_operands psi);
  ea_old : forall i v, vertices b !! i = Some v -> i <> u ->
    exists v', vertices b' !! i = Some v' /\ same_label v v' /\
      forall z, z ∈ succs (vertices b') i <-> z ∈ succs (vertices b) i;
  ea_new : forall i v, length (vertices b) <= i -> i <> u -> vertices b' !! i = Some v ->
    SG.v_rank v = undefined_index /\ SG.v_strategy v = None /\
    (is_pvi (SG.formula v) = true -> SG.v_decoration v = d_none /\ SG.v_successors v = []);
  ea_unknown : u < length (vertices b) <-> lookup_map b x = Some u
}.

(** The equation is there once the successors of its vertex are. *)
Lemma equation_added_intro b x psi k d u b1 b' n :
  builder_ok b -> is_pvi x = true -> decor psi = Returns d -> complete b -> variable_inserted b x d k u b1 ->
  adds n (eq u) b1 b' -> complete_upto b' n -> leads_to b' u (rhs_operands psi) ->
  equation_added b x psi k u b'.
Proof.
  intros Hb Hp Hd Hc [I1 I2 I3 I4 (w & Hw & Hf & Hdw & Hr & Hs) I6 I7] A Cn HL.
  pose proof (ad_evolves _ _ _ _ A) as He. pose proof (ad_ok _ _ _ _ A) as Hb'.
  assert (HW : forall i, u = i -> exists v, vertices b1 !! i = Some v /\ is_pvi (SG.formula v) = true).
  { intros i <-. exists w. split; [done|congruence]. }
  assert (C' : complete b').
  { intros m. destruct (decide (m <= n)).
    - intros i v Hv Hpv Hm. apply (Cn i v); auto. lia.
    - apply (adds_complete n m (eq u) b1); auto; [lia|by apply I6]. }
  split; auto.
  - by apply (evolves_lookup b1 b').
  - destruct (ev_old _ _ He u w Hw) as (w' & Hw' & Hf' & Hd' & Hr' & _).
    exists w'. split; [done|]. split; [congruence|]. split; [rewrite Hd; congruence|congruence].
  - intros i v Hv Hi. pose proof (I3 i v Hv Hi) as Hv1.
    assert (Hs1 : succs (vertices b1) i = succs (vertices b) i) by (unfold succs; by rewrite Hv, Hv1).
    destruct (ev_old _ _ He i v Hv1) as (v' & Hv' & Hl). exists v'. split; [done|]. split; [done|].
    intros z. rewrite <- Hs1. destruct (is_pvi (SG.formula v)) eqn:Ep.
    + rewrite (ad_frame _ _ _ _ A i v Hv1); auto.
    + assert (Ef : SG.formula v' = SG.formula v) by apply Hl.
      destruct (I6 Hc (size (SG.formula v)) i v Hv1 Ep (le_n _)) as [M1 M2].
      destruct (C' (size (SG.formula v')) i v' Hv') as [N1 N2]; [by rewrite Ef|done|].
      rewrite Ef in N1, N2. rewrite M2, N2. split; intros (y & Hy & Hz); exists y; (split; [done|]).
      * destruct (M1 y Hy) as [z' Hz']. pose proof (evolves_lookup b1 b' y z' I1 Hb' He Hz'). congruence.
      * by apply (evolves_lookup b1 b').
  - intros i v Hi Hne Hv. apply (ev_new _ _ He i v); [|done].
    destruct (decide (length (vertices b1) <= i)) as [|Hlt]; [done|].
    destruct (lookup_lt_is_Some_2 (vertices b1) i) as [z Hz]; [lia|]. by rewrite (I4 i Hne Hi) in Hz.
Qed.

Lemma leads_to_nil b u w : vertices b !! u = Some w -> SG.v_successors w = [] -> leads_to b u [].
Proof.
  intros Hw Hs. split; [intros y Hy; by apply elem_of_nil in Hy|]. intros v.
  rewrite (succs_lookup _ _ _ Hw), Hs. split; [intros Hv; by apply elem_of_nil in Hv|].
  intros (y & Hy & _). by apply elem_of_nil in Hy.
Qed.

(** The right-hand side is a variable. *)
Lemma insert_variable_edge b x psi k d u b1 :
  builder_ok b -> complete b -> is_pvi x = true -> is_pvi psi = true -> decor psi = Returns d ->
  variable_inserted b x d k u b1 ->
  exists v b2, insert_variable pp psi b1 = Returns (v, b2) /\
    equation_added b x psi k u (builder_insert_edge u v b2).
Proof.
  intros Hb Hc Hp Hpp Hd I. pose proof (vi_ok _ _ _ _ _ _ I) as Hb1.
  destruct (vi_vertex _ _ _ _ _ _ I) as (w & Hw & Hf & _ & _ & Hs).
  destruct (insert_vertex_adds psi b1) as (v & z & b2 & E2 & A2 & Hl2 & Hz & Hfz & Hc2 & _);
    [by destruct psi|done|by apply (vi_complete _ _ _ _ _ _ I)|].
  exists v, b2. split; [exact E2|].
  pose proof (ad_ok _ _ _ _ A2) as Hb2. pose proof (ad_evolves _ _ _ _ A2) as He2.
  destruct (ev_old _ _ He2 u w Hw) as (w2 & Hw2 & Hf2 & _).
  pose proof (lookup_lt_Some _ _ _ Hw2) as Hu2. pose proof (lookup_lt_Some _ _ _ Hz) as Hv2.
  destruct (builder_insert_edge_spec u v b2 Hb2 Hu2 Hv2) as (Hb3 & He3 & Hl3 & Hs3).
  apply (equation_added_intro b x psi k d u b1 _ (size psi)); auto.
  - apply (adds_trans (size psi) (size psi) (eq u) b1 b2); [lia|intros i <-; by eapply lookup_lt_Some| |].
    + by apply (adds_weaken (size psi) (size psi) (fun _ => False)).
    + by apply adds_insert_edge.
  - apply (complete_insert_edge (size psi) u v b2 w2); auto; [right; congruence|].
    intros i y Hy Hpy Hny. apply (Hc2 i y); auto. intros ->.
    assert (y = z) as -> by congruence. congruence.
  - unfold rhs_operands. rewrite Hpp. split.
    + intros y ->%list_elem_of_singleton. exists v. by rewrite Hl3.
    + intros y. rewrite Hs3, (ad_frame _ _ _ _ A2 u w Hw), (succs_lookup _ _ _ Hw), Hs;
        [|right; congruence|auto]. setoid_rewrite Hl3. split.
      * intros [Hy|[_ ->]]; [by apply elem_of_nil in Hy|]. exists psi. split; [left|done].
      * intros (y' & ->%list_elem_of_singleton & Hy). right. split; [done|congruence].
Qed.

Lemma SG0_spec x psi k b :
  builder_ok b -> complete b -> is_pvi x = true -> supported psi = true ->
  (forall i, lookup_map b x = Some i -> succs (vertices b) i = []) ->
  exists u b', SG0 pp term_less x psi k b = Returns b' /\ equation_added b x psi k u b'.
Proof.
  intros Hb Hc Hp Hsup Hfresh. destruct (supported_decoration psi Hsup) as [d Hd].
  destruct (insert_variable_equation_spec x psi k d b Hb Hp Hd Hfresh) as (u & b1 & E1 & I).
  unfold SG0. rewrite E1. cbn [outcome_bind]. pose proof (vi_ok _ _ _ _ _ _ I) as Hb1.
  destruct (vi_vertex _ _ _ _ _ _ I) as (w & Hw & Hf & _ & _ & Hs).
  exists u.
  assert (Hconst : rhs_operands psi = [] -> equation_added b x psi k u b1).
  { intros Er. apply (equation_added_intro b x psi k d u b1 b1 0); auto; [by apply adds_refl|
      by apply (vi_complete _ _ _ _ _ _ I)|]. rewrite Er. by eapply leads_to_nil. }
  assert (Hnode : forall l, (forall y, y ∈ l <-> y ∈ operands psi) -> is_pvi psi = false ->
    exists b', insert_operands (SG1 pp term_less (size psi)) u l b1 = Returns b' /\
      equation_added b x psi k u b').
  { intros l Hl Hpp.
    destruct (insert_operands_spec (SG1 pp term_less (size psi)) l b1 u (size psi) w)
      as (b' & E & A & C & L & S); auto.
    - intros y Hy. apply Hl in Hy. destruct (operands_supported psi y Hsup Hy). split; [lia|].
      apply SG1_spec; [done|lia].
    - by apply (vi_complete _ _ _ _ _ _ I).
    - right. congruence.
    - exists b'. split; [done|]. apply (equation_added_intro b x psi k d u b1 b' (size psi)); auto.
      unfold rhs_operands. rewrite Hpp. split; [intros y Hy; by apply L, Hl|].
      intros v. rewrite S, (succs_lookup _ _ _ Hw), Hs. setoid_rewrite Hl. set_solver. }
  destruct psi as [[]|nm ps|p|p q|p q|p q|vs p|vs p]; cbn [is_true is_false is_pvi is_and is_or]; try done;
    try (exists b1; split; [done|]; by apply Hconst).
  - destruct (insert_variable_edge b x (propositional_variable_instantiation nm ps) k d u b1
      Hb Hc Hp eq_refl Hd I) as (v & b2 & -> & HE).
    cbn [outcome_bind]. by eexists.
  - apply Hnode; [|done]. intros y. by apply operands_order.
  - apply Hnode; [|done]. intros y. by apply operands_order.
Qed.

End Correct.
