(* ===== verification/GraphBuilderErrors.v ===== *)
(** * Structure graph builders: initial state and exceptions

    Adding an equation leaves the initial state alone ([SG0_initial]); it
    returns only for right-hand sides built from variables, constants,
    conjunctions and disjunctions ([SG0_returns]), and the exception is that of
    [decoration], never the end of the fuel ([SG0_throws]). *)

From Stdlib Require Import Lia NArith.
From stdpp Require Import base strings numbers sets list sorting.
From S2P Require Import Prelude VertexSets StructureGraph Solver SolverCheck Terms DataExpressions PbesExpressions GraphBuilder GraphBuilderCorrect.

Local Open Scope mcrl2_scope.

Section Errors.
Context {variable symbol : Type} `{EqDecision variable} `{EqDecision symbol}.
Abbreviation pbes_expression := (@pbes_expression variable symbol).
Abbreviation builder := (@structure_graph_builder variable symbol).
Context (pp : pbes_expression -> string) (term_less : pbes_expression -> pbes_expression -> bool).
Abbreviation decor := (builder_decoration pp).
Abbreviation is_pvi := is_propositional_variable_instantiation.
Implicit Types (b : builder) (x psi : pbes_expression).

(** ** The initial state *)

(** [f] keeps the initial state. *)
Definition keeps_initial (f : pbes_expression -> builder -> outcome (nat * builder)) : Prop :=
  forall y b u b', f y b = Returns (u, b') -> m_initial_state b' = m_initial_state b.

Lemma bind_returns {A B : Type} (c : outcome A) (k : A -> outcome B) r :
  outcome_bind c k = Returns r -> exists a, c = Returns a /\ k a = Returns r.
Proof. destruct c as [a|m]; cbn; [intros E; by exists a|done]. Qed.

Lemma insert_vertex_initial : keeps_initial (insert_vertex pp).
Proof.
  intros x b u b' E. unfold insert_vertex in E. destruct (map_find _ x); [by injection E as <- <-|].
  apply bind_returns in E as (d & _ & E). by injection E as <- <-.
Qed.

Lemma insert_operands_initial f u l b b' :
  keeps_initial f -> insert_operands f u l b = Returns b' -> m_initial_state b' = m_initial_state b.
Proof.
  intros Hf. revert b. induction l as [|y l IH]; intros b E; cbn in E; [by injection E as <-|].
  apply bind_returns in E as ([v b1] & E1 & E). rewrite (IH _ E). cbn. by apply (Hf y b v).
Qed.

Lemma SG1_initial fuel : keeps_initial (SG1 pp term_less fuel).
Proof.
  induction fuel as [|fuel IH]; [done|]. intros psi b u b' E. cbn [SG1] in E.
  apply bind_returns in E as ([w b1] & E1 & E). rewrite <- (insert_vertex_initial _ _ _ _ E1).
  repeat case_match; try (by injection E as <- <-);
    apply bind_returns in E as (b2 & E2 & [= <- <-]); by apply (insert_operands_initial _ _ _ _ _ IH) in E2.
Qed.

Lemma SG0_initial x psi k b b' :
  SG0 pp term_less x psi k b = Returns b' -> m_initial_state b' = m_initial_state b.
Proof.
  unfold SG0. intros E. apply bind_returns in E as ([u b1] & E1 & E).
  assert (H1 : m_initial_state b1 = m_initial_state b).
  { unfold insert_variable_equation in E1. apply bind_returns in E1 as ([w b0] & E0 & E1).
    apply bind_returns in E1 as (d & _ & [= <- <-]). cbn. by apply (insert_vertex_initial x b w b0). }
  rewrite <- H1. repeat case_match; try (by injection E as <-);
    try (by apply (insert_operands_initial _ _ _ _ _ (SG1_initial _)) in E).
  apply bind_returns in E as ([w b2] & E2 & [= <-]). cbn. by apply (insert_vertex_initial psi b1 w b2).
Qed.

(** ** Returning *)

(** No vertex is lost. *)
Definition extends b b' : Prop :=
  length (vertices b) <= length (vertices b') /\
  forall x i, lookup_map b x = Some i -> lookup_map b' x = Some i.

#[local] Instance extends_preorder : PreOrder extends.
Proof. split; [split; auto|]. intros ? ? ? [? ?] [? ?]. split; [lia|auto]. Qed.

Lemma evolves_extends b b' : builder_ok pp b -> builder_ok pp b' -> evolves b b' -> extends b b'.
Proof. intros. split; [by apply evolves_length|]. intros x i. by apply (evolves_lookup pp). Qed.

(** [f] only accepts supported expressions, and keeps the invariant. *)
Definition accepts_supported (f : pbes_expression -> builder -> outcome (nat * builder)) : Prop :=
  forall y b u b', builder_ok pp b -> f y b = Returns (u, b') ->
    supported y = true /\ builder_ok pp b' /\ lookup_map b' y = Some u /\ extends b b'.

Lemma insert_vertex_returns x b u b' :
  builder_ok pp b -> insert_vertex pp x b = Returns (u, b') ->
  (exists d, decor x = Returns d) /\ builder_ok pp b' /\ lookup_map b' x = Some u /\
  extends b b'.
Proof.
  intros Hb E. destruct (decor x) as [d|m] eqn:Ed.
  - destruct (insert_vertex_spec pp x d b Hb Ed) as (u' & b2 & E' & Hb' & He & Hl & _).
    rewrite E in E'. injection E' as <- <-. split; [by exists d|]. split; [done|]. split; [done|].
    by apply evolves_extends.
  - exfalso. unfold insert_vertex in E. fold (lookup_map b x) in E. destruct (lookup_map b x) as [i|] eqn:Ex.
    + apply (bo_map _ b Hb) in Ex as (v & Hv & <-). destruct (is_pvi (SG.formula v)) eqn:Ep.
      * by destruct (SG.formula v).
      * destruct (bo_inner _ b Hb i v Hv Ep) as [Hd _]. congruence.
    + unfold create_vertex in E. by rewrite Ed in E.
Qed.

Lemma insert_operands_returns f u l b b' :
  accepts_supported f -> builder_ok pp b -> u < length (vertices b) ->
  insert_operands f u l b = Returns b' ->
  (forall y, y ∈ l -> supported y = true) /\ builder_ok pp b' /\
  extends b b'.
Proof.
  intros Hf. revert b. induction l as [|y l IH]; intros b Hb Hu E; cbn in E.
  { injection E as <-. split; [intros y Hy; by apply elem_of_nil in Hy|]. split; [done|reflexivity]. }
  apply bind_returns in E as ([v b1] & E1 & E).
  destruct (Hf y b v b1 Hb E1) as (Hs & Hb1 & Hl & Hlen).
  destruct (builder_insert_edge_spec pp u v b1 Hb1) as (Hb2 & He2 & _ & _);
    [destruct Hlen; lia|by eapply lookup_map_lt|].
  assert (Hx : extends b (builder_insert_edge u v b1)).
  { etransitivity; [done|]. by apply evolves_extends. }
  destruct (IH _ Hb2) as (Hall & Hb' & Hlen'); [destruct Hx; lia|done|].
  split; [intros z [->|Hz]%elem_of_cons; auto|]. split; [done|by etransitivity].
Qed.

Lemma supported_operands psi :
  (exists d, decor psi = Returns d) -> (forall y, y ∈ operands psi -> supported y = true) ->
  supported psi = true.
Proof.
  intros [d Hd] Ho.
  assert (Hand : forall p : pbes_expression, (forall y, y ∈ split_and p -> supported y = true) -> supported p = true).
  { induction p as [e|n p|p IHp|p IHp q IHq|p IHp q IHq|p IHp q IHq|v p IHp|v p IHp]; cbn [split_and];
      intros H; try (apply H; left). cbn. rewrite IHp, IHq; [done| |];
      intros y Hy; apply H, elem_of_app; auto. }
  assert (Hor : forall p : pbes_expression, (forall y, y ∈ split_or p -> supported y = true) -> supported p = true).
  { induction p as [e|n p|p IHp|p IHp q IHq|p IHp q IHq|p IHp q IHq|v p IHp|v p IHp]; cbn [split_or];
      intros H; try (apply H; left). cbn. rewrite IHp, IHq; [done| |];
      intros y Hy; apply H, elem_of_app; auto. }
  destruct psi as [[]|nm ps|p|p q|p q|p q|vs p|vs p]; try done; [by apply Hand|by apply Hor].
Qed.

Lemma SG1_returns fuel : accepts_supported (SG1 pp term_less fuel).
Proof.
  induction fuel as [|fuel IH]; [done|]. intros psi b u b' Hb E. cbn [SG1] in E.
  apply bind_returns in E as ([w b1] & E1 & E).
  destruct (insert_vertex_returns psi b w b1 Hb E1) as (Hd & Hb1 & Hl & Hlen).
  assert (Hleaf : operands psi = [] -> u = w -> b' = b1 -> supported psi = true /\
    builder_ok pp b' /\ lookup_map b' psi = Some u /\ extends b b').
  { intros Eo -> ->. split; [|done]. apply supported_operands; [done|]. rewrite Eo.
    intros y Hy. by apply elem_of_nil in Hy. }
  assert (Hnode : forall l, (forall y, y ∈ l <-> y ∈ operands psi) ->
    (let! b := insert_operands (SG1 pp term_less fuel) w l b1 in Returns (w, b)) = Returns (u, b') ->
    supported psi = true /\ builder_ok pp b' /\ lookup_map b' psi = Some u /\
    extends b b').
  { intros l Hll E'. apply bind_returns in E' as (b2 & E2 & [= <- <-]).
    pose proof (lookup_map_lt _ b1 psi w Hb1 Hl) as Hw.
    destruct (insert_operands_returns _ w l b1 b2 IH Hb1 Hw E2) as (Hall & Hb2 & Hx).
    split; [apply supported_operands; [done|]; intros y Hy; by apply Hall, Hll|].
    split; [done|]. split; [by apply Hx|by etransitivity]. }
  destruct psi as [[]|nm ps|p|p q|p q|p q|vs p|vs p]; cbn [is_true is_false is_pvi is_and is_or] in E;
    try (injection E as <- <-; by apply Hleaf); (eapply Hnode; [|exact E]); intros y; by apply operands_order.
Qed.

Lemma SG0_returns x psi k b b' :
  builder_ok pp b -> is_pvi x = true -> SG0 pp term_less x psi k b = Returns b' -> supported psi = true.
Proof.
  intros Hb Hx E. unfold SG0 in E. apply bind_returns in E as ([u b1] & E1 & E).
  unfold insert_variable_equation in E1. apply bind_returns in E1 as ([w b0] & E0 & E1).
  apply bind_returns in E1 as (d & Hd & [= <- <-]).
  destruct (insert_vertex_returns x b w b0 Hb E0) as (_ & Hb0 & Hl0 & _).
  pose proof (proj1 (bo_map _ b0 Hb0 x w) Hl0) as (v & Hv & Hf).
  destruct (with_equation_spec pp b0 w v d k Hb0 Hv) as (Hb1 & Hv1 & _); [congruence|].
  set (b1 := with_vertices b0 _) in *. clearbody b1.
  assert (Hnode : forall l, (forall y, y ∈ l <-> y ∈ operands psi) ->
    insert_operands (SG1 pp term_less (size psi)) w l b1 = Returns b' -> supported psi = true).
  { intros l Hll E'. apply lookup_lt_Some in Hv1.
    destruct (insert_operands_returns _ w l b1 b' (SG1_returns _) Hb1 Hv1 E') as (Hall & _).
    apply supported_operands; [by exists d|]. intros y Hy. by apply Hall, Hll. }
  destruct psi as [[]|nm ps|p|p q|p q|p q|vs p|vs p]; cbn [is_true is_false is_pvi is_and is_or] in E;
    try done; (eapply Hnode; [|exact E]); intros y; by apply operands_order.
Qed.

(** ** Throwing *)

(** The only exception is that of [decoration]. *)
Definition unsupported_message (m : string) : Prop := exists z, decor z = Throws m.

Lemma bind_throws {A B : Type} (c : outcome A) (k : A -> outcome B) m :
  outcome_bind c k = Throws m -> c = Throws m \/ exists a, c = Returns a /\ k a = Throws m.
Proof. destruct c as [a|m']; cbn; [intros E; right; by exists a|left; congruence]. Qed.

Lemma insert_vertex_throws x b m : insert_vertex pp x b = Throws m -> unsupported_message m.
Proof.
  unfold insert_vertex. destruct (map_find _ x); [done|]. intros E.
  apply bind_throws in E as [E|(d & _ & E)]; [by exists x|done].
Qed.

Lemma insert_operands_throws f u l b m :
  (forall y b m, y ∈ l -> f y b = Throws m -> unsupported_message m) ->
  insert_operands f u l b = Throws m -> unsupported_message m.
Proof.
  intros Hf. revert b. induction l as [|y l IH]; intros b E; cbn in E; [done|].
  apply bind_throws in E as [E|([v b1] & _ & E)]; [apply (Hf y b); [left|done]|].
  apply (IH (fun y b m Hy => Hf y b m (list_elem_of_further _ _ _ Hy)) _ E).
Qed.

Lemma operands_smaller psi y : y ∈ operands psi -> size y < size psi.
Proof.
  assert (Hand : forall p : pbes_expression, y ∈ split_and p -> size y <= size p).
  { induction p as [e|n p|p IHp|p IHp q IHq|p IHp q IHq|p IHp q IHq|v p IHp|v p IHp]; cbn [split_and];
      intros Hy; try (by apply list_elem_of_singleton in Hy as ->). cbn [size].
    apply elem_of_app in Hy as [Hy|Hy]; [specialize (IHp Hy)|specialize (IHq Hy)]; lia. }
  assert (Hor : forall p : pbes_expression, y ∈ split_or p -> size y <= size p).
  { induction p as [e|n p|p IHp|p IHp q IHq|p IHp q IHq|p IHp q IHq|v p IHp|v p IHp]; cbn [split_or];
      intros Hy; try (by apply list_elem_of_singleton in Hy as ->). cbn [size].
    apply elem_of_app in Hy as [Hy|Hy]; [specialize (IHp Hy)|specialize (IHq Hy)]; lia. }
  unfold operands. destruct psi; cbn [is_and is_or split_and split_or size]; intros Hy;
    try (by apply elem_of_nil in Hy); apply elem_of_app in Hy as [Hy|Hy];
    first [apply Hand in Hy|apply Hor in Hy]; lia.
Qed.

Lemma SG1_throws fuel psi b m :
  size psi <= fuel -> SG1 pp term_less fuel psi b = Throws m -> unsupported_message m.
Proof.
  revert psi b m. induction fuel as [|fuel IH]; intros psi b m Hf E; [destruct psi; cbn in Hf; lia|].
  cbn [SG1] in E. apply bind_throws in E as [E|([w b1] & E1 & E)]; [by apply insert_vertex_throws in E|].
  assert (Hnode : forall l, (forall y, y ∈ l <-> y ∈ operands psi) ->
    (let! b := insert_operands (SG1 pp term_less fuel) w l b1 in Returns (w, b)) = Throws m ->
    unsupported_message m).
  { intros l Hll E'. apply bind_throws in E' as [E'|(b2 & _ & E')]; [|done].
    apply insert_operands_throws in E'; [done|]. intros y b2 m' Hy. apply IH.
    apply Hll, operands_smaller in Hy. lia. }
  destruct psi as [[]|nm ps|p|p q|p q|p q|vs p|vs p]; cbn [is_true is_false is_pvi is_and is_or] in E;
    try done; (eapply Hnode; [|exact E]); intros y; by apply operands_order.
Qed.

Lemma SG0_throws x psi k b m : SG0 pp term_less x psi k b = Throws m -> unsupported_message m.
Proof.
  intros E. unfold SG0 in E. apply bind_throws in E as [E|([u b1] & _ & E)].
  { unfold insert_variable_equation in E. apply bind_throws in E as [E|([w b0] & _ & E)].
    - by apply (insert_vertex_throws x b).
    - apply bind_throws in E as [E|(d & _ & E)]; [by exists psi|done]. }
  assert (Hnode : forall l, (forall y, y ∈ l <-> y ∈ operands psi) ->
    insert_operands (SG1 pp term_less (size psi)) u l b1 = Throws m -> unsupported_message m).
  { intros l Hll E'. apply insert_operands_throws in E'; [done|]. intros y b2 m' Hy. apply SG1_throws.
    apply Hll, operands_smaller in Hy. lia. }
  destruct psi as [[]|nm ps|p|p q|p q|p q|vs p|vs p]; cbn [is_true is_false is_pvi is_and is_or] in E;
    try done; try ((eapply Hnode; [|exact E]); intros y; by apply operands_order).
  apply bind_throws in E as [E|([w b2] & _ & E)]; [|done].
  by apply (insert_vertex_throws (propositional_variable_instantiation nm ps) b1).
Qed.

End Errors.
