(* ===== verification/GraphBuilderTheorems.v ===== *)
(** * Structure graphs represent boolean equation systems: the theorems

    Reporting a list of equations to an empty builder gives a graph whose
    consistent valuations are exactly the solutions of the equations, with the
    ranks of the equations at their variables.  A right-hand side that is not
    built from variables, constants, conjunctions and disjunctions is rejected
    with an exception, and only such a right-hand side. *)

From Stdlib Require Import Lia NArith.
From stdpp Require Import base strings numbers sets list sorting.
From S2P Require Import Prelude VertexSets StructureGraph Solver SolverCheck Terms DataExpressions PbesExpressions GraphBuilder GraphBuilderCorrect GraphBuilderErrors.

Local Open Scope mcrl2_scope.

Section Theorems.
Context {variable symbol : Type} `{EqDecision variable} `{EqDecision symbol}.
Abbreviation pbes_expression := (@pbes_expression variable symbol).
Abbreviation builder := (@structure_graph_builder variable symbol).
Context (pp : pbes_expression -> string) (term_less : pbes_expression -> pbes_expression -> bool).
Abbreviation decor := (builder_decoration pp).
Abbreviation is_pvi := is_propositional_variable_instantiation.
Implicit Types (b : builder) (x psi : pbes_expression).

(** ** Valuations *)

(** The value of a right-hand side, given those of the variables. *)
Fixpoint eval (eta : pbes_expression -> bool) x : bool :=
  match x with
  | pbes_data _ => is_true x
  | propositional_variable_instantiation _ _ => eta x
  | pbes_and p q => eval eta p && eval eta q
  | pbes_or p q => eval eta p || eval eta q
  | _ => false
  end.

(** The equation that a vertex with the given decoration and successors stands
    for; an unexplored vertex has none. *)
Definition vertex_equation (val : nat -> bool) (v : SG.vertex pbes_expression) (u : nat) : Prop :=
  match SG.v_decoration v with
  | d_true => val u = true
  | d_false => val u = false
  | d_conjunction => val u = true <-> forall w, w ∈ SG.v_successors v -> val w = true
  | d_disjunction => val u = true <-> exists w, w ∈ SG.v_successors v /\ val w = true
  | d_none => forall w, w ∈ SG.v_successors v -> val u = val w
  end.

Definition consistent b (val : nat -> bool) : Prop :=
  forall u v, vertices b !! u = Some v -> vertex_equation val v u.

(** The value that a valuation of the vertices gives to a variable. *)
Definition vertex_value b (val : nat -> bool) x : bool := from_option val false (lookup_map b x).

Lemma eval_split_and eta x :
  eval eta x = true <-> forall y, y ∈ split_and x -> eval eta y = true.
Proof.
  induction x as [d|n p|p IHp|p IHp q IHq|p IHp q IHq|p IHp q IHq|v p IHp|v p IHp]; cbn [split_and];
    try (split; [intros Hx y ->%list_elem_of_singleton; done|intros Hx; apply Hx; left]).
  cbn [eval]. rewrite andb_true_iff, IHp, IHq. setoid_rewrite elem_of_app. naive_solver.
Qed.

Lemma eval_split_or eta x :
  eval eta x = true <-> exists y, y ∈ split_or x /\ eval eta y = true.
Proof.
  induction x as [d|n p|p IHp|p IHp q IHq|p IHp q IHq|p IHp q IHq|v p IHp|v p IHp]; cbn [split_or];
    try (split; [intros Hx; eexists; split; [left|done]|by intros (y & ->%list_elem_of_singleton & Hy)]).
  cbn [eval]. rewrite orb_true_iff, IHp, IHq. setoid_rewrite elem_of_app. naive_solver.
Qed.

(** A vertex whose successors are the vertices of the operands of [psi] has the
    value of [psi], if the operands have theirs. *)
Lemma vertex_equation_eval b val u v psi :
  vertices b !! u = Some v -> decor psi = Returns (SG.v_decoration v) -> supported psi = true ->
  leads_to b u (rhs_operands psi) ->
  (forall y w, y ∈ rhs_operands psi -> lookup_map b y = Some w ->
     val w = eval (vertex_value b val) y) ->
  vertex_equation val v u <-> val u = eval (vertex_value b val) psi.
Proof.
  intros Hv Hd Hsup [L1 L2] Hy. unfold vertex_equation.
  rewrite (succs_lookup _ _ _ Hv) in L2. set (eta := vertex_value b val) in *.
  destruct psi as [[]|nm ps|p|p q|p q|p q|vs p|vs p]; cbn in Hd; try done; injection Hd as <-.
  - done.
  - done.
  - cbn [eval]. unfold rhs_operands in *. cbn [is_pvi] in *. split.
    + intros H. destruct (L1 (propositional_variable_instantiation nm ps)) as [w Hw]; [left|].
      rewrite (H w); [|apply L2; eexists; split; [left|done]].
      apply (Hy (propositional_variable_instantiation nm ps) w); [left|done].
    + intros H w Hw. apply L2 in Hw as (y & ->%list_elem_of_singleton & Hl). rewrite H.
      symmetry. apply (Hy (propositional_variable_instantiation nm ps) w); [left|done].
  - rewrite (Bool.eq_iff_eq_true (val u) (eval eta (pbes_and p q))), (eval_split_and eta (pbes_and p q)).
    assert (E : (forall w, w ∈ SG.v_successors v -> val w = true) <->
      forall y, y ∈ split_and (pbes_and p q) -> eval eta y = true); [|by rewrite E].
    split; intros Hall y Hin.
    + destruct (L1 y Hin) as [w Hw]. rewrite <- (Hy y w Hin Hw). apply Hall, L2. by exists y.
    + apply L2 in Hin as (z & Hz & Hl). rewrite (Hy z y Hz Hl). by apply Hall.
  - rewrite (Bool.eq_iff_eq_true (val u) (eval eta (pbes_or p q))), (eval_split_or eta (pbes_or p q)).
    assert (E : (exists w, w ∈ SG.v_successors v /\ val w = true) <->
      exists y, y ∈ split_or (pbes_or p q) /\ eval eta y = true); [|by rewrite E].
    split; intros (y & Hin & Ht).
    + apply L2 in Hin as (z & Hz & Hl). exists z. split; [done|]. by rewrite <- (Hy z y Hz Hl).
    + destruct (L1 y Hin) as [w Hw]. exists w. split; [apply L2; by exists y|]. by rewrite (Hy y w Hin Hw).
Qed.

Lemma rhs_operands_inner psi : is_pvi psi = false -> rhs_operands psi = operands psi.
Proof. unfold rhs_operands. by intros ->. Qed.

(** Inner vertices have the value of their expression. *)
Lemma consistent_inner b val psi u :
  builder_ok pp b -> complete b ->
  (forall i v, vertices b !! i = Some v -> is_pvi (SG.formula v) = false -> vertex_equation val v i) ->
  supported psi = true -> lookup_map b psi = Some u -> val u = eval (vertex_value b val) psi.
Proof.
  intros Hb Hc Hval. remember (size psi) as n eqn:En. revert psi u En.
  induction n as [n IH] using (well_founded_induction lt_wf). intros psi u -> Hsup Hu.
  destruct (is_pvi psi) eqn:Ep.
  { destruct psi; try done. cbn. unfold vertex_value. by rewrite Hu. }
  pose proof (proj1 (bo_map _ b Hb psi u) Hu) as (v & Hv & Hf).
  assert (Epv : is_pvi (SG.formula v) = false) by congruence.
  destruct (bo_inner _ b Hb u v Hv Epv) as [Hd _]. rewrite Hf in Hd.
  pose proof (Hc _ u v Hv Epv (le_n _)) as HL. rewrite Hf, <- rhs_operands_inner in HL by done.
  apply (vertex_equation_eval b val u v psi Hv Hd Hsup HL); [|by apply (Hval u v)].
  intros y w Hy Hw. rewrite rhs_operands_inner in Hy by done.
  destruct (operands_supported psi y Hsup Hy) as [Hys Hlt]. by apply (IH (size y) Hlt).
Qed.

(** ** Lists of equations *)

Abbreviation equation := (pbes_expression * pbes_expression * N)%type.

(** The calls of [on_report_equation] during instantiation. *)
Fixpoint report_equations (eqs : list equation) b : outcome builder :=
  match eqs with
  | [] => Returns b
  | (x, psi, k) :: eqs =>
      let! b := on_report_equation pp term_less x psi k b in report_equations eqs b
  end.

Definition empty_builder : builder := mk_builder (SG.mk_graph [] 0 []) [] None.

(** The equation [x = psi] with rank [k] is in the graph. *)
Definition has_equation b x psi (k : N) : Prop :=
  exists u w, lookup_map b x = Some u /\ vertices b !! u = Some w /\
    decor psi = Returns (SG.v_decoration w) /\ SG.v_rank w = k /\ leads_to b u (rhs_operands psi).

Record represents (eqs : list equation) b : Prop := {
  rp_ok : builder_ok pp b;
  rp_complete : complete b;
  rp_equations : forall x psi k, (x, psi, k) ∈ eqs -> has_equation b x psi k;
  rp_unexplored : forall u v, vertices b !! u = Some v -> is_pvi (SG.formula v) = true ->
    SG.formula v ∉ eqs.*1.*1 ->
    SG.v_decoration v = d_none /\ SG.v_rank v = undefined_index /\ SG.v_successors v = []
}.

Lemma empty_represents : represents [] empty_builder.
Proof.
  split; [split| | |].
  - intros u v Hv. by apply elem_of_nil in Hv.
  - intros u v. split; intros Hv; by apply elem_of_nil in Hv.
  - intros x i. split; [done|]. by intros (v & Hv & _).
  - done.
  - intros n u v Hv. done.
  - intros x psi k Hin. by apply elem_of_nil in Hin.
  - done.
Qed.

Lemma equation_added_lookup b x psi k u b' y i :
  builder_ok pp b -> equation_added pp b x psi k u b' -> lookup_map b y = Some i ->
  lookup_map b' y = Some i.
Proof.
  intros Hb HE Hy. pose proof (ea_ok _ _ _ _ _ _ _ HE) as Hb'.
  apply (bo_map _ b Hb) in Hy as (v & Hv & <-). destruct (decide (i = u)) as [->|Hi].
  - destruct (ea_vertex _ _ _ _ _ _ _ HE) as (w & Hw & Hf & _).
    assert (Hlt := lookup_lt_Some _ _ _ Hv). apply (ea_unknown _ _ _ _ _ _ _ HE) in Hlt.
    apply (bo_map _ b Hb) in Hlt as (v' & Hv' & Hf'). assert (v' = v) as -> by congruence.
    rewrite Hf'. apply (ea_lookup _ _ _ _ _ _ _ HE).
  - destruct (ea_old _ _ _ _ _ _ _ HE i v Hv Hi) as (v' & Hv' & (Hf & _) & _).
    apply (bo_map _ b' Hb'). exists v'. done.
Qed.

(** The equations that are already there stay. *)
Lemma equation_added_old b x psi k u b' y phi j :
  builder_ok pp b -> equation_added pp b x psi k u b' -> y <> x ->
  has_equation b y phi j -> has_equation b' y phi j.
Proof.
  intros Hb HE Hyx (i & w & Hl & Hw & Hd & Hr & [L1 L2]).
  pose proof (ea_ok _ _ _ _ _ _ _ HE) as Hb'.
  pose proof (fun t v => equation_added_lookup b x psi k u b' t v Hb HE) as Hk.
  assert (Hi : i <> u).
  { intros ->. apply Hyx. pose proof (ea_lookup _ _ _ _ _ _ _ HE) as Hlu. apply Hk in Hl.
    apply (bo_map _ b' Hb') in Hl as (v1 & Hv1 & <-). apply (bo_map _ b' Hb') in Hlu as (v2 & Hv2 & <-).
    congruence. }
  destruct (ea_old _ _ _ _ _ _ _ HE i w Hw Hi) as (w' & Hw' & (Hf & Hdw & Hrw & _) & Hs).
  exists i, w'. split; [by apply Hk|]. split; [done|]. split; [congruence|]. split; [congruence|]. split.
  - intros z Hz. destruct (L1 z Hz) as [v Hv]. exists v. by apply Hk.
  - intros z. rewrite Hs, L2. split; intros (t & Ht & Hz); exists t; (split; [done|]); [by apply Hk|].
    destruct (L1 t Ht) as [v Hv]. pose proof (Hk t v Hv). congruence.
Qed.

(** Unexplored variables stay so. *)
Lemma equation_added_unexplored b x psi k u b' i v :
  equation_added pp b x psi k u b' -> vertices b' !! i = Some v -> is_pvi (SG.formula v) = true ->
  SG.formula v <> x ->
  (forall w, vertices b !! i = Some w -> SG.formula w = SG.formula v ->
    SG.v_decoration w = d_none /\ SG.v_rank w = undefined_index /\ SG.v_successors w = []) ->
  SG.v_decoration v = d_none /\ SG.v_rank v = undefined_index /\ SG.v_successors v = [].
Proof.
  intros HE Hv Hpv Hx Hun.
  assert (Hi : i <> u).
  { intros ->. destruct (ea_vertex _ _ _ _ _ _ _ HE) as (w & Hw & Hf & _). congruence. }
  destruct (decide (i < length (vertices b))) as [Hlt|Hge].
  - destruct (lookup_lt_is_Some_2 _ _ Hlt) as [w Hw].
    destruct (ea_old _ _ _ _ _ _ _ HE i w Hw Hi) as (v' & Hv' & (Hf & Hd & Hr & _) & Hs).
    assert (v' = v) as -> by congruence. destruct (Hun w Hw) as (D & R & S); [congruence|].
    split; [congruence|]. split; [congruence|].
    destruct (SG.v_successors v) as [|z l] eqn:Es; [done|]. exfalso.
    assert (Hz : z ∈ succs (vertices b') i) by (rewrite (succs_lookup _ _ _ Hv), Es; left).
    apply Hs in Hz. rewrite (succs_lookup _ _ _ Hw), S in Hz. by apply elem_of_nil in Hz.
  - destruct (ea_new _ _ _ _ _ _ _ HE i v ltac:(lia) Hi Hv) as (R & _ & H3). by destruct (H3 Hpv).
Qed.

Lemma represents_step eqs b x psi k :
  represents eqs b -> is_pvi x = true -> supported psi = true -> x ∉ eqs.*1.*1 ->
  exists b', SG0 pp term_less x psi k b = Returns b' /\ represents (eqs ++ [(x, psi, k)]) b' /\
    m_initial_state b' = m_initial_state b.
Proof.
  intros [Hb Hc Heq Hun] Hp Hsup Hnew.
  destruct (SG0_spec pp term_less x psi k b Hb Hc Hp Hsup) as (u & b' & E & HE).
  { intros i Hi. apply (bo_map _ b Hb) in Hi as (v & Hv & Hf). rewrite (succs_lookup _ _ _ Hv).
    apply (Hun i v Hv); congruence. }
  exists b'. split; [done|]. split; [|by eapply SG0_initial].
  split; [apply HE|apply HE| |].
  - intros y phi j [Hin|Hin]%elem_of_app.
    + apply (equation_added_old b x psi k u b'); auto. intros ->. apply Hnew.
      apply list_elem_of_fmap. exists (x, phi). split; [done|].
      apply list_elem_of_fmap. by exists (x, phi, j).
    + apply list_elem_of_singleton in Hin as [= -> -> ->].
      destruct (ea_vertex _ _ _ _ _ _ _ HE) as (w & Hw & Hf & Hd & Hr).
      exists u, w. split; [exact (ea_lookup _ _ _ _ _ _ _ HE)|]. split; [done|]. split; [done|]. split; [done|exact (ea_successors _ _ _ _ _ _ _ HE)].
  - intros i v Hv Hpv Hin. rewrite !fmap_app, not_elem_of_app in Hin. destruct Hin as [Hin Hx].
    apply (equation_added_unexplored b x psi k u b' i); auto; [set_solver|].
    intros w Hw Hf. apply (Hun i w Hw); congruence.
Qed.

(** A first report sets the initial state. *)
Lemma represents_initial eqs b x : represents eqs b -> represents eqs (set_initial_state x b).
Proof. intros [[H1 H2 H3 H4] Hc He Hu]. split; [by split|exact Hc|exact He|exact Hu]. Qed.

Lemma report_represents eqs b x psi k :
  represents eqs b -> is_pvi x = true -> supported psi = true -> x ∉ eqs.*1.*1 ->
  exists b', on_report_equation pp term_less x psi k b = Returns b' /\
    represents (eqs ++ [(x, psi, k)]) b'.
Proof.
  intros Hr Hx Hs Hnew. unfold on_report_equation.
  destruct (represents_step eqs (match m_initial_state b with None => set_initial_state x b | Some _ => b end)
    x psi k) as (b' & E & H & _); auto; [|by exists b'].
  destruct (m_initial_state b); [done|by apply represents_initial].
Qed.

Lemma report_equations_represents eqs' eqs b x0 :
  represents eqs b -> m_initial_state b = Some x0 ->
  Forall (fun e => is_pvi e.1.1 = true /\ supported e.1.2 = true) eqs' ->
  NoDup (eqs ++ eqs').*1.*1 ->
  exists b', report_equations eqs' b = Returns b' /\ represents (eqs ++ eqs') b' /\
    m_initial_state b' = Some x0.
Proof.
  revert eqs b. induction eqs' as [|[[x psi] k] eqs' IH]; intros eqs b Hr Hi Hall Hnd.
  { rewrite app_nil_r. by exists b. }
  apply Forall_cons in Hall as [[Hx Hs] Hall]. cbn [report_equations]. unfold on_report_equation.
  rewrite Hi. destruct (represents_step eqs b x psi k Hr Hx Hs) as (b1 & -> & Hr1 & Hi1).
  { rewrite !fmap_app in Hnd. apply NoDup_app in Hnd as (_ & Hd & _).
    intros Hin. apply (Hd x Hin). left. }
  cbn [outcome_bind]. destruct (IH _ b1 Hr1) as (b' & E & Hr' & Hi'); [congruence|done| |].
  - by rewrite <- app_assoc.
  - exists b'. rewrite <- app_assoc in Hr'. done.
Qed.

(** ** Solutions *)

Lemma complete_supported b u v :
  builder_ok pp b -> complete b -> vertices b !! u = Some v -> supported (SG.formula v) = true.
Proof.
  intros Hb Hc. remember (size (SG.formula v)) as n eqn:En. revert u v En.
  induction n as [n IH] using (well_founded_induction lt_wf). intros u v -> Hv.
  destruct (is_pvi (SG.formula v)) eqn:Ep; [by destruct (SG.formula v)|].
  destruct (bo_inner _ b Hb u v Hv Ep) as [Hd _]. destruct (Hc _ u v Hv Ep (le_n _)) as [L _].
  apply (supported_operands pp); [by eexists|]. intros y Hy. destruct (L y Hy) as [i Hi].
  pose proof (proj1 (bo_map _ b Hb y i) Hi) as (w & Hw & <-).
  by apply (IH _ (operands_smaller _ _ Hy) i).
Qed.

(** Every expression of the graph has its value. *)
Definition values_correct b (val : nat -> bool) : Prop :=
  forall y w, lookup_map b y = Some w -> val w = eval (vertex_value b val) y.

Lemma values_correct_equation b val u v psi :
  values_correct b val -> vertices b !! u = Some v -> decor psi = Returns (SG.v_decoration v) ->
  supported psi = true -> leads_to b u (rhs_operands psi) ->
  vertex_equation val v u <-> val u = eval (vertex_value b val) psi.
Proof. intros Hval Hv Hd Hs HL. apply (vertex_equation_eval b val u v psi); auto. Qed.

Lemma values_correct_inner b val :
  builder_ok pp b ->
  (forall u v, vertices b !! u = Some v -> is_pvi (SG.formula v) = false ->
     val u = eval (vertex_value b val) (SG.formula v)) ->
  values_correct b val.
Proof.
  intros Hb Hin y w Hw. destruct (is_pvi y) eqn:Ep.
  - destruct y; try done. cbn. unfold vertex_value. by rewrite Hw.
  - pose proof (proj1 (bo_map _ b Hb y w) Hw) as (v & Hv & <-). by apply Hin.
Qed.

Lemma consistent_values_correct b val :
  builder_ok pp b -> complete b -> consistent b val -> values_correct b val.
Proof.
  intros Hb Hc Hval y w Hw. apply consistent_inner; auto.
  pose proof (proj1 (bo_map _ b Hb y w) Hw) as (v & Hv & <-). by apply (complete_supported b w).
Qed.

Lemma represents_consistent eqs b val :
  represents eqs b -> Forall (fun e => is_pvi e.1.1 = true /\ supported e.1.2 = true) eqs ->
  consistent b val <->
  (forall x psi k, (x, psi, k) ∈ eqs -> vertex_value b val x = eval (vertex_value b val) psi) /\
  (forall u v, vertices b !! u = Some v -> is_pvi (SG.formula v) = false ->
     val u = eval (vertex_value b val) (SG.formula v)).
Proof.
  intros [Hb Hc Heq Hun] Hall. rewrite Forall_forall in Hall. split.
  - intros Hval. pose proof (consistent_values_correct b val Hb Hc Hval) as Hvc. split.
    + intros x psi k Hin. destruct (Heq x psi k Hin) as (u & w & Hl & Hw & Hd & _ & HL).
      unfold vertex_value at 1. rewrite Hl. cbn. destruct (Hall _ Hin) as [_ Hs].
      by apply (values_correct_equation b val u w psi); [done|done|done|done|done|apply Hval].
    + intros u v Hv _. apply Hvc. apply (bo_map _ b Hb). by exists v.
  - intros [He Hin] u v Hv. pose proof (values_correct_inner b val Hb Hin) as Hvc.
    destruct (is_pvi (SG.formula v)) eqn:Ep.
    + destruct (decide (SG.formula v ∈ eqs.*1.*1)) as [Hx|Hx].
      * apply list_elem_of_fmap in Hx as ([x psi] & Hx & Hx').
        apply list_elem_of_fmap in Hx' as ([[x' psi'] k] & [= <- <-] & Hx'). cbn in Hx.
        destruct (Heq _ _ _ Hx') as (i & w & Hl & Hw & Hd & _ & HL).
        assert (Hu : lookup_map b x = Some u) by (apply (bo_map _ b Hb); by exists v).
        assert (i = u) as -> by congruence. assert (w = v) as -> by congruence.
        destruct (Hall _ Hx') as [_ Hs]. apply (values_correct_equation b val u v psi); auto.
        rewrite <- (He x psi k Hx'). unfold vertex_value. by rewrite Hl.
      * destruct (Hun u v Hv Ep Hx) as (Hd & _ & Hs). unfold vertex_equation. rewrite Hd, Hs.
        intros w Hw. by apply elem_of_nil in Hw.
    + pose proof (Hc _ u v Hv Ep (le_n _)) as HL. rewrite <- rhs_operands_inner in HL by done.
      apply (values_correct_equation b val u v (SG.formula v)); auto.
      * by apply (bo_inner _ b Hb u).
      * by apply (complete_supported b u).
Qed.

(** ** The theorems *)

(** C20: Reporting the equations of a boolean equation system, with distinct
    left-hand sides, to a new builder and finalizing it gives a structure graph
    whose initial vertex is the first variable, in which every variable has the
    rank of its equation, and whose consistent valuations are exactly the
    solutions of the equations extended to the inner vertices: constructing the
    graph, with vertices shared between equations, loses nothing. *)
Theorem report_equations_correct x0 psi0 k0 eqs :
  Forall (fun e => is_pvi e.1.1 = true /\ supported e.1.2 = true) ((x0, psi0, k0) :: eqs) ->
  NoDup ((x0, psi0, k0) :: eqs).*1.*1 ->
  exists b g, report_equations ((x0, psi0, k0) :: eqs) empty_builder = Returns b /\
    finalize b = Some g /\
    lookup_map g x0 = Some (SG.m_initial_vertex (m_graph g)) /\
    (forall x psi k, (x, psi, k) ∈ (x0, psi0, k0) :: eqs ->
       exists u v, lookup_map g x = Some u /\ vertices g !! u = Some v /\ SG.v_rank v = k) /\
    (forall val, consistent g val <->
       (forall x psi k, (x, psi, k) ∈ (x0, psi0, k0) :: eqs ->
          vertex_value g val x = eval (vertex_value g val) psi) /\
       (forall u v, vertices g !! u = Some v -> is_pvi (SG.formula v) = false ->
          val u = eval (vertex_value g val) (SG.formula v))).
Proof.
  intros Hall Hnd. cbn [report_equations].
  assert (Eo : forall b, m_initial_state b = None -> on_report_equation pp term_less x0 psi0 k0 b =
    on_report_equation pp term_less x0 psi0 k0 (set_initial_state x0 b)).
  { intros b Hb. unfold on_report_equation. by rewrite Hb. }
  rewrite Eo by done.
  destruct (report_equations_represents ((x0, psi0, k0) :: eqs) [] (set_initial_state x0 empty_builder) x0)
    as (b & E & Hr & Hi); [apply represents_initial, empty_represents|done|done|done|].
  destruct (rp_equations _ _ Hr x0 psi0 k0) as (u & _ & Hu & _); [left|].
  exists b, (mk_builder (SG.mk_graph (vertices b) u (bitset_empty (builder_extent b)))
    (m_vertex_map b) (m_initial_state b)).
  split; [exact E|]. split.
  { unfold finalize, builder_initial_vertex. rewrite Hi. unfold lookup_map in Hu. by rewrite Hu. }
  split; [exact Hu|]. split; [|intros val; apply (represents_consistent _ b val Hr Hall)].
  intros x psi k Hin. destruct (rp_equations _ _ Hr x psi k Hin) as (i & w & Hl & Hw & _ & Hk & _).
  by exists i, w.
Qed.

(** Adding an equation for a variable that has none yet returns exactly when
    its right-hand side is built from variables, constants, conjunctions and
    disjunctions; otherwise the exception that [decoration] raises for an
    unsupported expression is passed on, and the fuel is never what ends the
    recursion. *)
Lemma on_report_equation_returns eqs b x psi k :
  represents eqs b -> is_pvi x = true -> x ∉ eqs.*1.*1 ->
  (supported psi = true -> exists b', on_report_equation pp term_less x psi k b = Returns b' /\
     represents (eqs ++ [(x, psi, k)]) b') /\
  (supported psi = false -> exists z, on_report_equation pp term_less x psi k b =
     Throws ("structure_graph_builder: encountered unsupported pbes_expression " +:+ pp z)).
Proof.
  intros Hr Hx Hnew. split; [intros Hs; by apply report_represents|].
  assert (Hb : builder_ok pp (match m_initial_state b with None => set_initial_state x b | Some _ => b end)).
  { destruct (m_initial_state b); [|apply (represents_initial eqs)]; apply Hr. }
  unfold on_report_equation. set (b0 := match m_initial_state b with None => _ | _ => _ end) in *.
  intros Hs. destruct (SG0 pp term_less x psi k b0) as [b'|m] eqn:E.
  - apply SG0_returns in E; [congruence|done|done].
  - apply SG0_throws in E as [z Hz]. exists z. f_equal. unfold builder_decoration in Hz.
    by repeat (case_match; [done|]); injection Hz.
Qed.

End Theorems.

(** ** An equation system *)

Definition sample_pp (x : PbesExpressions.pbes_expression nat nat) : string :=
  if is_not x then "!x" else "".
Definition sample_less (x y : PbesExpressions.pbes_expression nat nat) : bool := false.

Definition var_X : PbesExpressions.pbes_expression nat nat := propositional_variable_instantiation "X" [].
Definition var_Y : PbesExpressions.pbes_expression nat nat := propositional_variable_instantiation "Y" [].

(** [mu X = Y && (X || true)], [nu Y = X || true] *)
Definition sample_equations :
    list (PbesExpressions.pbes_expression nat nat * PbesExpressions.pbes_expression nat nat * N) :=
  [(var_X, pbes_and var_Y (pbes_or var_X (pbes_data sort_bool_true)), 1%N);
   (var_Y, pbes_or var_X (pbes_data sort_bool_true), 2%N)].

Definition sample_builder : @structure_graph_builder nat nat :=
  match report_equations sample_pp sample_less sample_equations empty_builder with
  | Returns b => b
  | Throws _ => empty_builder
  end.

Lemma report_equations_correct_witness :
  exists b g, report_equations sample_pp sample_less sample_equations empty_builder = Returns b /\
    finalize b = Some g /\ lookup_map g var_X = Some (SG.m_initial_vertex (m_graph g)) /\
    (forall val, consistent g val -> vertex_value g val var_Y = true).
Proof.
  destruct (report_equations_correct sample_pp sample_less var_X
    (pbes_and var_Y (pbes_or var_X (pbes_data sort_bool_true))) 1
    [(var_Y, pbes_or var_X (pbes_data sort_bool_true), 2%N)]) as (b & g & E & Hg & Hi & _ & Hc).
  - repeat constructor.
  - apply (bool_decide_unpack _). reflexivity.
  - exists b, g. split; [exact E|]. split; [exact Hg|]. split; [exact Hi|].
    intros val [He _]%Hc. rewrite (He _ _ _ (list_elem_of_further _ _ _ (list_elem_of_here _ _))).
    apply orb_true_r.
Defined.

(** Both equations share the vertex of [true]. *)
Example sample_graph :
  (fun v => (SG.formula v, SG.v_decoration v, SG.v_rank v, SG.v_successors v)) <$> vertices sample_builder =
  [(var_X, d_conjunction, 1%N, [1; 3]);
   (pbes_or var_X (pbes_data sort_bool_true), d_disjunction, undefined_index, [2; 0]);
   (pbes_data sort_bool_true, d_true, undefined_index, []);
   (var_Y, d_disjunction, 2%N, [2; 0])].
Proof. vm_compute. reflexivity. Qed.

Lemma sample_represents : represents sample_pp sample_equations sample_builder.
Proof.
  destruct (report_equations_represents sample_pp sample_less sample_equations []
    (set_initial_state var_X empty_builder) var_X) as (b & E & Hr & _).
  - apply represents_initial, empty_represents.
  - done.
  - repeat constructor.
  - apply (bool_decide_unpack _). reflexivity.
  - assert (Eb : Returns sample_builder = Returns b); [|by injection Eb as ->].
    rewrite <- E. vm_compute. reflexivity.
Qed.
