(* ===== verification/GraphBuilderErase.v ===== *)
(** * Erasing vertices from a structure graph under construction

    [erase_vertices] of [structure_graph_builder.h] compacts the vertex vector
    in place by swapping survivors to the front.  The result is the graph of
    the surviving vertices in their old order, with edges and strategies
    renamed, and the builder invariant holds again. *)

From Stdlib Require Import Lia NArith.
From stdpp Require Import base strings numbers sets list sorting.
From S2P Require Import Prelude VertexSets StructureGraph Solver SolverCheck Terms DataExpressions PbesExpressions GraphBuilder GraphBuilderCorrect GraphBuilderTheorems.

Local Open Scope mcrl2_scope.

(** ** Survivors *)

(** The vertices below [n] that are not erased, in order. *)
Definition survivors (U : VSet.vertex_set) (n : nat) : list nat :=
  List.filter (fun u => negb (VSet.contains U u)) (seq 0 n).

Section Survivors.
Context (U : VSet.vertex_set).

Lemma survivors_S n :
  survivors U (S n) = survivors U n ++ (if VSet.contains U n then [] else [n]).
Proof.
  unfold survivors. rewrite seq_S, List.filter_app. cbn. by destruct (VSet.contains U n).
Qed.

Lemma survivors_prefix m n : m <= n -> survivors U m `prefix_of` survivors U n.
Proof.
  induction 1 as [|n _ IH]; [done|]. rewrite survivors_S. by apply prefix_app_r.
Qed.

Lemma survivors_le n : length (survivors U n) <= n.
Proof.
  unfold survivors. transitivity (length (seq 0 n)); [apply List.filter_length_le|by rewrite length_seq].
Qed.

Lemma survivors_lookup n i u :
  survivors U n !! i = Some u <-> u < n /\ VSet.contains U u = false /\ i = length (survivors U u).
Proof.
  induction n as [|n IH].
  { split; [done|]. intros (H & _). lia. }
  rewrite survivors_S. destruct (VSet.contains U n) eqn:En.
  - rewrite app_nil_r, IH. split; [intros (? & ? & ?)|intros (? & ? & ?)]; (split; [|done]); [lia|].
    destruct (decide (u = n)) as [->|]; [congruence|lia].
  - rewrite lookup_app. destruct (survivors U n !! i) as [w|] eqn:Ei.
    + pose proof (lookup_lt_Some _ _ _ Ei) as Hi. rewrite IH. split.
      * intros (? & ? & ?). repeat split; [lia|done|done].
      * intros (Hu & Hc & ->). repeat split; [|done].
        destruct (decide (u = n)) as [->|]; [lia|lia].
    + apply lookup_ge_None_1 in Ei. split.
      * intros Hu. destruct (i - length (survivors U n)) as [|k] eqn:Ek; [|done].
        cbn in Hu. injection Hu as <-. repeat split; [lia|done|lia].
      * intros (Hu & Hc & ->). destruct (decide (u = n)) as [->|Hne]; [by rewrite Nat.sub_diag|].
        destruct (survivors_prefix (S u) n) as [l Hl]; [lia|]. rewrite Hl, survivors_S, Hc in Ei.
        rewrite !length_app in Ei. cbn in Ei. lia.
Qed.

(** The set is below [n]: the number of survivors is the size that is kept. *)
Lemma survivors_size n : VSet.ok n U -> length (survivors U n) = n - VSet.size U.
Proof.
  intros Hok. pose proof Hok as (_ & Hnd & _).
  assert (Hp : seq 0 n ≡ₚ survivors U n ++ VSet.m_vertices U).
  { apply NoDup_Permutation; [apply NoDup_seq| |].
    - apply NoDup_app. split; [apply NoDup_ListNoDup, List.NoDup_filter, NoDup_ListNoDup, NoDup_seq|].
      split; [|done]. intros u Hu Hin. apply list_elem_of_In, filter_In in Hu as [_ Hu].
      apply (VSet.contains_elem n U u Hok) in Hin. by rewrite Hin in Hu.
    - intros u. rewrite elem_of_app, list_elem_of_In. unfold survivors. rewrite list_elem_of_In, filter_In.
      rewrite <- (VSet.contains_elem n U u Hok). rewrite <- !list_elem_of_In, elem_of_seq. split.
      + intros Hu. destruct (VSet.contains U u); [by right|left; split; [lia|done]].
      + intros [[Hu _]|Hu]; [lia|]. apply (VSet.contains_elem n U u Hok), (VSet.ok_lt n U u Hok) in Hu. lia. }
  apply Permutation_length in Hp. rewrite length_seq, length_app in Hp. unfold VSet.size. lia.
Qed.

(** The vector [index] of the code. *)
Lemma erase_index_fold n :
  foldl (erase_index_step U) ([], 0) (seq 0 n) =
  ((fun u => if VSet.contains U u then None else Some (length (survivors U u))) <$> seq 0 n,
   length (survivors U n)).
Proof.
  induction n as [|n IH]; [done|].
  rewrite seq_S, foldl_app, IH, fmap_app, survivors_S. cbn. unfold erase_index_step. cbn [fst snd].
  destruct (VSet.contains U n); [by rewrite app_nil_r|]. f_equal. rewrite length_app. cbn. lia.
Qed.

Lemma erase_index_lookup n u :
  erase_index U n !! u =
  if decide (u < n) then Some (if VSet.contains U u then None else Some (length (survivors U u))) else None.
Proof.
  unfold erase_index. rewrite erase_index_fold. cbn [fst]. rewrite list_lookup_fmap.
  case_decide as Hu; [by rewrite lookup_seq_lt|]. by rewrite (lookup_seq_ge 0 n u) by lia.
Qed.

(** A new index belongs to exactly one survivor. *)
Lemma erase_index_survivor n u i :
  erase_index U n !! u = Some (Some i) <-> survivors U n !! i = Some u.
Proof.
  rewrite erase_index_lookup, survivors_lookup. case_decide as Hu; [|split; [done|intros [? _]; lia]].
  destruct (VSet.contains U u); [split; [done|by intros (_ & ? & _)]|].
  split; [intros [= <-]; done|by intros (_ & _ & ->)].
Qed.

End Survivors.

Lemma elem_of_erase_update (index : list (option nat)) l i :
  i ∈ erase_update index l <-> exists v, v ∈ l /\ index !! v = Some (Some i).
Proof.
  unfold erase_update.
  assert (H : forall acc, i ∈ foldl (fun result v => match index !! v with
      | Some (Some i) => result ++ [i] | _ => result end) acc l <->
      i ∈ acc \/ exists v, v ∈ l /\ index !! v = Some (Some i)).
  { induction l as [|v l IH]; intros acc; cbn; [set_solver|]. rewrite IH.
    setoid_rewrite elem_of_cons. destruct (index !! v) as [[j|]|] eqn:E.
    - rewrite elem_of_app, list_elem_of_singleton. split.
      + intros [[Ha|Ha]|(w & Hw & Hi)]; [by left|subst; right; exists v; auto|right; exists w; auto].
      + intros [|(w & [->|Hw] & Hi)]; [by left; left|left; right; congruence|right; by exists w].
    - split; [intros [|(w & Hw & Hi)]; [by left|right; exists w; auto]|].
      intros [|(w & [->|Hw] & Hi)]; [by left|congruence|right; by exists w].
    - split; [intros [|(w & Hw & Hi)]; [by left|right; exists w; auto]|].
      intros [|(w & [->|Hw] & Hi)]; [by left|congruence|right; by exists w]. }
  rewrite H. set_solver.
Qed.

(** ** The loop *)

Section Erase.
Context {variable symbol : Type} `{EqDecision variable} `{EqDecision symbol}.
Abbreviation pbes_expression := (@pbes_expression variable symbol).
Abbreviation builder := (@structure_graph_builder variable symbol).
Context (pp : pbes_expression -> string).
Implicit Types (b : builder) (V : list (SG.vertex pbes_expression)) (U : VSet.vertex_set).

Lemma swap_vertices_lookup V u i x y j :
  V !! u = Some x -> V !! i = Some y ->
  swap_vertices u i V !! j = if decide (j = i) then Some x else if decide (j = u) then Some y else V !! j.
Proof.
  intros Hx Hy. unfold swap_vertices. rewrite Hx, Hy.
  pose proof (lookup_lt_Some _ _ _ Hx). pose proof (lookup_lt_Some _ _ _ Hy).
  case_decide as E1; [subst; apply list_lookup_insert_eq; by rewrite length_insert|].
  rewrite list_lookup_insert_ne by done.
  case_decide as E2; [subst; by apply list_lookup_insert_eq|]. by apply list_lookup_insert_ne.
Qed.

(** After [u] rounds the survivors below [u] are in front, renamed, and the
    vertices from [u] on are untouched. *)
Definition erased_upto U V (u : nat) V' : Prop :=
  length V' = length V /\
  (forall i w, survivors U u !! i = Some w -> V' !! i = erase_rename (erase_index U (length V)) <$> V !! w) /\
  forall j, u <= j -> V' !! j = V !! j.

Lemma erase_step_upto U V u V' :
  u < length V -> erased_upto U V u V' ->
  erased_upto U V (S u) (erase_step (erase_index U (length V)) V' u).
Proof.
  intros Hu (Hlen & Hf & Hr). set (index := erase_index U (length V)) in *.
  unfold erase_step. rewrite (erase_index_lookup U (length V) u : index !! u = _), decide_True by done.
  destruct (VSet.contains U u) eqn:Eu.
  { split; [done|]. split; [|intros j Hj; apply Hr; lia].
    intros i w. rewrite survivors_S, Eu, app_nil_r. apply Hf. }
  set (c := length (survivors U u)). pose proof (survivors_le U u) as Hc. fold c in Hc.
  destruct (lookup_lt_is_Some_2 V u Hu) as [x Hx].
  assert (Hxu : alter (erase_rename index) u V' !! u = Some (erase_rename index x)).
  { by rewrite list_lookup_alter_eq, Hr, Hx by lia. }
  assert (Hne : forall j, j <> u -> alter (erase_rename index) u V' !! j = V' !! j).
  { intros j Hj. by apply list_lookup_alter_ne. }
  set (V1 := alter (erase_rename index) u V') in *.
  assert (Hlen1 : length V1 = length V) by (unfold V1; by rewrite length_alter). clearbody V1.
  assert (HW : exists W, (if c =? u then V1 else swap_vertices u c V1) = W /\ length W = length V /\
    W !! c = Some (erase_rename index x) /\ forall j, j <> c -> j <> u -> W !! j = V1 !! j).
  { destruct (Nat.eqb_spec c u) as [Ecu|Hcu]; [exists V1; by rewrite Ecu|].
    destruct (lookup_lt_is_Some_2 V1 c) as [y Hy]; [lia|].
    exists (swap_vertices u c V1). split; [done|].
    split; [unfold swap_vertices; rewrite Hxu, Hy; by rewrite !length_insert|].
    split; [by rewrite (swap_vertices_lookup V1 u c _ y c Hxu Hy), decide_True|].
    intros j Hj1 Hj2. by rewrite (swap_vertices_lookup V1 u c _ y j Hxu Hy), !decide_False. }
  destruct HW as (W & -> & HlW & HWc & HWne). split; [done|]. split.
  - intros i w. rewrite survivors_S, Eu. intros Hi.
    destruct (decide (i < c)) as [Hic|Hic].
    + rewrite lookup_app_l in Hi by done. rewrite HWne, Hne by lia. by apply Hf.
    + rewrite lookup_app_r in Hi by lia. fold c in Hi.
      destruct (i - c) as [|k] eqn:Ek; cbn in Hi; [|done]. injection Hi as <-.
      assert (i = c) as -> by lia. by rewrite HWc, Hx.
  - intros j Hj. rewrite HWne, Hne, Hr by lia. done.
Qed.

Lemma erase_loop_upto U V n :
  n <= length V -> erased_upto U V n (foldl (erase_step (erase_index U (length V))) V (seq 0 n)).
Proof.
  induction n as [|n IH]; intros Hn.
  { split; [done|]. split; [|done]. intros i w Hi. by destruct i. }
  rewrite seq_S, foldl_app. cbn. apply erase_step_upto; [lia|]. apply IH. lia.
Qed.

(** The vertices after erasing. *)
Lemma erase_vertices_vertices U b :
  VSet.ok (length (vertices b)) U ->
  length (vertices (erase_vertices U b)) = length (survivors U (length (vertices b))) /\
  forall i w, survivors U (length (vertices b)) !! i = Some w ->
    vertices (erase_vertices U b) !! i =
    erase_rename (erase_index U (length (vertices b))) <$> vertices b !! w.
Proof.
  intros Hok. pose proof (erase_loop_upto U (vertices b) (length (vertices b)) (le_n _)) as (Hlen & Hf & _).
  pose proof (survivors_size U _ Hok) as Hs.
  assert (EV : vertices (erase_vertices U b) = take (length (vertices b) - VSet.size U)
    (foldl (erase_step (erase_index U (length (vertices b)))) (vertices b) (seq 0 (length (vertices b))))) by done.
  rewrite EV. split; [rewrite length_take; lia|].
  intros i w Hi. pose proof (lookup_lt_Some _ _ _ Hi) as Hlt. rewrite lookup_take_lt by lia. by apply Hf.
Qed.

(** Every vertex that is left is a renamed survivor. *)
Lemma erase_vertices_origin U b i v' :
  VSet.ok (length (vertices b)) U -> vertices (erase_vertices U b) !! i = Some v' ->
  exists w v, survivors U (length (vertices b)) !! i = Some w /\ vertices b !! w = Some v /\
    v' = erase_rename (erase_index U (length (vertices b))) v.
Proof.
  intros Hok Hi. destruct (erase_vertices_vertices U b Hok) as [Hlen Hv].
  pose proof (lookup_lt_Some _ _ _ Hi) as Hlt. rewrite Hlen in Hlt.
  destruct (lookup_lt_is_Some_2 _ _ Hlt) as [w Hw]. rewrite (Hv i w Hw) in Hi.
  apply fmap_Some in Hi as (v & Hv' & ->). by exists w, v.
Qed.

(** *** The recreated map *)

Lemma recreate_map_lookup V x i :
  NoDup (SG.formula <$> V) ->
  map_find (recreate_map V) x = Some i <-> exists v, V !! i = Some v /\ SG.formula v = x.
Proof.
  intros Hnd. unfold recreate_map.
  assert (H : forall n, n <= length V -> forall y j,
    map_find (foldl (fun m i => match V !! i with Some v => map_insert m (SG.formula v) i | None => m end)
      [] (seq 0 n)) y = Some j <-> j < n /\ exists v, V !! j = Some v /\ SG.formula v = y).
  { induction n as [|n IH]; intros Hn y j; [split; [done|intros [? _]; lia]|].
    rewrite seq_S, foldl_app. cbn [foldl]. rewrite Nat.add_0_l. set (m := foldl _ _ _) in *.
    destruct (lookup_lt_is_Some_2 V n) as [v Hv]; [lia|]. rewrite Hv.
    rewrite map_find_insert.
    - case_decide as Ey.
      + subst y. split; [intros [= <-]; split; [lia|by exists v]|].
        intros (Hj & w & Hw & Hf). f_equal. apply (NoDup_lookup _ n j (SG.formula v)) in Hnd; [done| |];
          rewrite list_lookup_fmap; [by rewrite Hv|by rewrite Hw, <- Hf].
      + rewrite IH by lia. split; intros (Hj & w & Hw & Hf); (split; [|by exists w]); [lia|].
        destruct (decide (j = n)) as [->|]; [|lia]. congruence.
    - destruct (map_find m (SG.formula v)) as [j'|] eqn:Em; [|done].
      apply IH in Em as (Hj & w & Hw & Hf); [|lia].
      apply (NoDup_lookup _ n j' (SG.formula v)) in Hnd; [lia| |];
        rewrite list_lookup_fmap; [by rewrite Hv|by rewrite Hw, <- Hf]. }
  rewrite H by done. split; [by intros [_ ?]|]. intros (v & Hv & Hf).
  split; [by apply lookup_lt_Some in Hv|by exists v].
Qed.

(** *** The invariant *)

Lemma builder_formulas_NoDup b : builder_ok pp b -> NoDup (SG.formula <$> vertices b).
Proof.
  intros Hb. apply NoDup_alt. intros i j x Hi Hj. rewrite list_lookup_fmap in Hi, Hj.
  apply fmap_Some in Hi as (v & Hv & ->). apply fmap_Some in Hj as (w & Hw & Hf).
  assert (Hl : lookup_map b (SG.formula v) = Some i) by (apply (bo_map _ b Hb); by exists v).
  assert (Hl' : lookup_map b (SG.formula v) = Some j) by (apply (bo_map _ b Hb); by exists w).
  congruence.
Qed.

Lemma erase_formulas_NoDup U b :
  builder_ok pp b -> VSet.ok (length (vertices b)) U ->
  NoDup (SG.formula <$> vertices (erase_vertices U b)).
Proof.
  intros Hb Hok. apply NoDup_alt. intros i j x Hi Hj. rewrite list_lookup_fmap in Hi, Hj.
  apply fmap_Some in Hi as (v' & Hv' & ->). apply fmap_Some in Hj as (w' & Hw' & Hf).
  apply erase_vertices_origin in Hv' as (k & v & Hk & Hv & ->); [|done].
  apply erase_vertices_origin in Hw' as (l & w & Hl & Hw & ->); [|done]. cbn in Hf.
  assert (k = l) as <-.
  { apply (NoDup_lookup _ _ _ (SG.formula v) (builder_formulas_NoDup b Hb)); rewrite list_lookup_fmap;
      [by rewrite Hv|by rewrite Hw, Hf]. }
  apply survivors_lookup in Hk as (_ & _ & ->). by apply survivors_lookup in Hl as (_ & _ & ->).
Qed.

(** The edges between survivors, renamed. *)
Lemma erase_vertices_edges U b i j :
  builder_ok pp b -> VSet.ok (length (vertices b)) U ->
  let s := survivors U (length (vertices b)) in
  (j ∈ succs (vertices (erase_vertices U b)) i <->
   exists u w, s !! i = Some u /\ s !! j = Some w /\ w ∈ succs (vertices b) u) /\
  (j ∈ preds (vertices (erase_vertices U b)) i <->
   exists u w, s !! i = Some u /\ s !! j = Some w /\ w ∈ preds (vertices b) u).
Proof.
  intros Hb Hok s. unfold succs, preds.
  destruct (vertices (erase_vertices U b) !! i) as [v'|] eqn:Ei.
  - apply erase_vertices_origin in Ei as (u & v & Hu & Hv & ->); [|done]. cbn.
    rewrite !elem_of_erase_update. split; setoid_rewrite erase_index_survivor; split.
    + intros (w & Hw & Hj). exists u, w. by rewrite Hv.
    + intros (u' & w & Hu' & Hj & Hw). assert (u' = u) as -> by (unfold s in *; congruence).
      rewrite Hv in Hw. by exists w.
    + intros (w & Hw & Hj). exists u, w. by rewrite Hv.
    + intros (u' & w & Hu' & Hj & Hw). assert (u' = u) as -> by (unfold s in *; congruence).
      rewrite Hv in Hw. by exists w.
  - assert (Hno : s !! i = None).
    { destruct (s !! i) as [w|] eqn:Ew; [|done]. exfalso.
      destruct (erase_vertices_vertices U b Hok) as [Hlen _]. apply lookup_lt_Some in Ew.
      apply lookup_ge_None_1 in Ei. unfold s in Ew. lia. }
    rewrite Hno. split; (split; [intros Hj; by apply elem_of_nil in Hj|by intros (? & ? & ? & _)]).
Qed.

Lemma erase_vertices_ok U b :
  builder_ok pp b -> VSet.ok (length (vertices b)) U -> builder_ok pp (erase_vertices U b).
Proof.
  intros Hb Hok. split.
  - intros u v Hv. apply (erase_vertices_edges U b u v Hb Hok) in Hv as (_ & w & _ & Hw & _).
    apply lookup_lt_Some in Hw. by rewrite (proj1 (erase_vertices_vertices U b Hok)).
  - intros u v. rewrite (proj1 (erase_vertices_edges U b u v Hb Hok)).
    rewrite (proj2 (erase_vertices_edges U b v u Hb Hok)).
    split; intros (x & y & Hx & Hy & H); exists y, x; repeat split; try done; by apply (bo_matched _ b Hb).
  - intros x i. apply recreate_map_lookup. by apply erase_formulas_NoDup.
  - intros u v' Hv' Hp. apply erase_vertices_origin in Hv' as (w & v & _ & Hv & ->); [|done].
    by apply (bo_inner _ b Hb w v).
Qed.

(** C25: Erasing a set of vertices leaves the surviving vertices in their old
    order: the [i]-th survivor becomes vertex [i] with its formula, decoration
    and rank, exactly the edges and strategies between survivors are kept, under
    their new numbers, and the builder invariant (matching edge vectors, a map
    that is exact for the formulas, decorations of inner vertices) holds
    again. *)
Theorem erase_vertices_correct U b :
  builder_ok pp b -> VSet.ok (length (vertices b)) U ->
  let s := survivors U (length (vertices b)) in
  let b' := erase_vertices U b in
  builder_ok pp b' /\ length (vertices b') = length (vertices b) - VSet.size U /\
  (forall i u v, s !! i = Some u -> vertices b !! u = Some v ->
     exists v', vertices b' !! i = Some v' /\ SG.formula v' = SG.formula v /\
       SG.v_decoration v' = SG.v_decoration v /\ SG.v_rank v' = SG.v_rank v /\
       (forall j w, s !! j = Some w ->
          (j ∈ SG.v_successors v' <-> w ∈ SG.v_successors v) /\
          (j ∈ SG.v_predecessors v' <-> w ∈ SG.v_predecessors v)) /\
       (forall j, SG.v_strategy v' = Some j <->
          exists w, s !! j = Some w /\ SG.v_strategy v = Some w)) /\
  (forall x i, lookup_map b' x = Some i <->
     exists u v, s !! i = Some u /\ vertices b !! u = Some v /\ SG.formula v = x).
Proof.
  intros Hb Hok s b'. pose proof (erase_vertices_ok U b Hb Hok) as Hb'. split; [done|].
  destruct (erase_vertices_vertices U b Hok) as [Hlen Hv].
  split; [unfold b'; by rewrite Hlen, survivors_size|]. split.
  - intros i u v Hu Hvu. eexists. split; [unfold b'; rewrite (Hv i u Hu), Hvu; done|].
    split; [done|]. split; [done|]. split; [done|]. split.
    + intros j w Hw. cbn. rewrite !elem_of_erase_update. setoid_rewrite erase_index_survivor.
      fold s. split; (split; [intros (w' & Hin & Hj); assert (w' = w) as -> by congruence; done|
        intros Hin; by exists w]).
    + intros j. cbn. destruct (SG.v_strategy v) as [w|]; [|split; [done|by intros (w & _ & ?)]].
      split.
      * intros Hj. exists w. split; [|done]. apply erase_index_survivor. by case_match; subst.
      * intros (w' & Hj & [= ->]). apply erase_index_survivor in Hj. by rewrite Hj.
  - intros x i. rewrite (bo_map _ b' Hb' x i). split.
    + intros (v' & Hv' & <-). apply erase_vertices_origin in Hv' as (u & v & Hu & Hvu & ->); [|done].
      by exists u, v.
    + intros (u & v & Hu & Hvu & <-). eexists. unfold b'. by rewrite (Hv i u Hu), Hvu.
Qed.

End Erase.

(** Erasing the vertex of [true] renames [Y], the last vertex. *)
Lemma erase_vertices_correct_witness :
  let U := VSet.of_range 4 [2] in
  builder_ok sample_pp (erase_vertices U sample_builder) /\
  length (vertices (erase_vertices U sample_builder)) = 3 /\
  (forall i, lookup_map (erase_vertices U sample_builder) var_Y = Some i <-> i = 2).
Proof.
  intros U. destruct (erase_vertices_correct sample_pp U sample_builder) as (Hok & Hlen & _ & Hm).
  - exact (rp_ok _ _ _ sample_represents).
  - apply VSet.of_range_ok. intros u ->%list_elem_of_singleton. repeat constructor.
  - split; [exact Hok|]. split; [exact Hlen|]. intros i. split; [|intros ->; reflexivity].
    intros Hi. assert (E : lookup_map (erase_vertices U sample_builder) var_Y = Some 2) by reflexivity.
    congruence.
Defined.
