(* ===== verification/Instantiation.v ===== *)
(** * Instantiation of a PBES
    ([pbesinst_lazy.h] and [pbesinst_structure_graph.h] of [libraries/pbes])

    [pbesinst_lazy_algorithm] explores the equations that the initial state
    depends on: an element of the to-do list is instantiated, its equation is
    reported, and the variables of the right-hand side that have not been
    discovered before are added to the list.  Subclasses override virtual
    functions, which are the class [Algorithm] here; the structure graph
    algorithm is an instance.

    The model is that of a run with one thread.  The rewriter [R], which
    instantiates the right-hand side of the equation of a variable and applies a
    substitution to the variables in it, is a parameter, as are the ranks and
    fixpoint symbols of the equations.  The exploration is bounded by fuel: a
    PBES may have infinitely many instances.  [m_must_abort], which is set from
    outside, and the logging are left out. *)

From Stdlib Require Import Lia NArith.
From stdpp Require Import base strings numbers sets list sorting.
From S2P Require Import Prelude VertexSets StructureGraph Solver SolverCheck Terms DataExpressions PbesExpressions GraphBuilder.

Local Open Scope mcrl2_scope.

Section Lazy.
Context {variable symbol : Type} `{EqDecision variable} `{EqDecision symbol}.
Abbreviation pbes_expression := (@pbes_expression variable symbol).
Abbreviation is_pvi := is_propositional_variable_instantiation.
Implicit Types (X psi : pbes_expression) (todo occ : list pbes_expression).

(** ** The to-do list *)

(** [pbesinst_lazy_todo::insert(first, last, discovered)] *)
Definition todo_insert (todo occ discovered : list pbes_expression) : list pbes_expression :=
  todo ++ filter (fun X => X ∉ discovered) occ.

(** [discovered.insert(i)] *)
Definition discover (discovered : list pbes_expression) X : list pbes_expression :=
  if bool_decide (X ∈ discovered) then discovered else discovered ++ [X].

(** [search_strategy]; only [breadth_first] is tested. *)
Inductive search_strategy : Set := breadth_first | depth_first | breadth_first_short | depth_first_short.

(** [next_todo]; [None] on an empty list. *)
Definition next_todo (s : search_strategy) todo : option (pbes_expression * list pbes_expression) :=
  match s with
  | breadth_first => match todo with [] => None | X :: todo => Some (X, todo) end
  | _ => match last todo with
         | None => None
         | Some X => Some (X, take (length todo - 1) todo)
         end
  end.

(** ** Occurrences of variables *)

Fixpoint occurrences (x : pbes_expression) : list pbes_expression :=
  match x with
  | pbes_data _ => []
  | propositional_variable_instantiation _ _ => [x]
  | pbes_not p | pbes_forall _ p | pbes_exists _ p => occurrences p
  | pbes_and p q | pbes_or p q | pbes_imp p q => occurrences p ++ occurrences q
  end.

Context (term_less : pbes_expression -> pbes_expression -> bool).

(** [find_propositional_variable_instantiations], a [std::set]. *)
Definition find_propositional_variable_instantiations (x : pbes_expression) : list pbes_expression :=
  ordered_operands term_less (remove_dups (occurrences x)).

(** ** The algorithm *)

Inductive partial_solve_strategy : Set :=
  none | no_optimisation | remove_self_loops | propagate_solved_equations_using_substitution
| propagate_solved_equations_using_attractor | detect_winning_loops_using_fatal_attractor
| solve_subgames_using_fatal_attractor_local | solve_subgames_using_fatal_attractor_original
| solve_subgames_using_solver | detect_winning_loops_original.

(** The options that the algorithms look at. *)
Record pbessolve_options : Type := mk_options {
  prune_todo_list_option : bool;
  exploration_strategy : search_strategy;
  optimization : partial_solve_strategy;
  aggressive : bool;
  prune_and_solve_frequently : bool;
  max_bes_equations : N
}.

Context (m_options : pbessolve_options).
Context (R : pbes_expression -> (pbes_expression -> pbes_expression) -> pbes_expression).
Context (rank : pbes_expression -> N) (is_mu : pbes_expression -> bool).

(** [true_false_substitution] *)
Definition true_false_substitution X (Y : pbes_expression) : pbes_expression :=
  if bool_decide (Y = X)
  then pbes_data (if is_mu X then sort_bool_false else sort_bool_true)
  else Y.

(** [m_options.optimization >= partial_solve_strategy::remove_self_loops] *)
Definition removes_self_loops : bool :=
  match optimization m_options with none | no_optimisation => false | _ => true end.

Definition phi_substitution X : pbes_expression -> pbes_expression :=
  if removes_self_loops then true_false_substitution X else id.

(** The state of an algorithm; [m_derived] is that of the subclass. *)
Record lazy_state (A : Type) : Type := mk_lazy {
  m_todo : list pbes_expression;
  m_discovered : list pbes_expression;
  m_init : pbes_expression;
  m_iteration_count : N;
  global_current_prune_round : N;
  m_derived : A
}.
Arguments mk_lazy {A}.
Arguments m_todo {A}.
Arguments m_discovered {A}.
Arguments m_init {A}.
Arguments m_iteration_count {A}.
Arguments global_current_prune_round {A}.
Arguments m_derived {A}.

(** The virtual functions. *)
Class Algorithm (A : Type) : Type := {
  on_report : pbes_expression -> pbes_expression -> N -> A -> outcome A;
  on_discovered_elements : lazy_state A -> outcome (lazy_state A);
  rewrite_psi : pbes_expression -> A -> outcome (pbes_expression * A);
  solution_found : pbes_expression -> A -> bool;
  on_end_while_loop : lazy_state A -> outcome (lazy_state A)
}.

Section Run.
Context {A : Type} `{Algorithm A}.
Implicit Types st : lazy_state A.

Definition check_bes_equation_limit (size : N) : outcome unit :=
  if (max_bes_equations m_options <=? size)%N
  then Throws "Error: number of BES equations has exceeded the limit"
  else Returns tt.

Definition with_derived (a : A) st : lazy_state A :=
  mk_lazy (m_todo st) (m_discovered st) (m_init st) (m_iteration_count st) (global_current_prune_round st) a.

(** The body of the loop of [run_thread] for the element [X_e] that has been
    taken from the list; the second result is whether the loop is left. *)
Definition run_step (X_e : pbes_expression) (rest : list pbes_expression) st
  : outcome (lazy_state A * bool) :=
  let count := (m_iteration_count st + 1)%N in
  let local_current_prune_round := global_current_prune_round st in
  let! _ := check_bes_equation_limit count in
  let st := mk_lazy rest (m_discovered st) (m_init st) count (global_current_prune_round st) (m_derived st) in
  let psi_e := R X_e (phi_substitution X_e) in
  let! (psi_e, a) := rewrite_psi psi_e (m_derived st) in
  let st := with_derived a st in
  let occ := find_propositional_variable_instantiations psi_e in
  let k := rank X_e in
  if (local_current_prune_round =? global_current_prune_round st)%N
  then
    let! a := on_report X_e psi_e k (m_derived st) in
    let st := mk_lazy (todo_insert (m_todo st) occ (m_discovered st)) (foldl discover (m_discovered st) occ)
                (m_init st) (m_iteration_count st) (global_current_prune_round st) a in
    let! st := on_discovered_elements st in
    Returns (st, solution_found (m_init st) (m_derived st))
  else Returns (st, false).

(** The inner loop of [run_thread]; with one thread the outer loop is done
    once. *)
Fixpoint run_thread (fuel : nat) st : outcome (lazy_state A) :=
  match next_todo (exploration_strategy m_options) (m_todo st) with
  | None => Returns st
  | Some (X_e, rest) =>
      match fuel with
      | O => Throws "run_thread: out of fuel"
      | S fuel =>
          let! (st, stop) := run_step X_e rest st in
          if stop then Returns st else run_thread fuel st
      end
  end.

Definition run (fuel : nat) (init : pbes_expression) (a : A) : outcome (lazy_state A) :=
  let! st := run_thread fuel (mk_lazy [init] [init] init 0 0 a) in
  on_end_while_loop st.

End Run.

(** ** The structure graph algorithm *)

Context (pp : pbes_expression -> string).
Abbreviation builder := (@structure_graph_builder variable symbol).

#[export] Instance pbesinst_structure_graph_algorithm : Algorithm builder := {|
  on_report X psi k b := on_report_equation pp term_less X psi k b;
  on_discovered_elements st := Returns st;
  rewrite_psi psi b := Returns (psi, b);
  solution_found _ _ := false;
  on_end_while_loop st := Returns st
|}.

(** A new builder. *)
Definition new_builder : builder := mk_builder (SG.mk_graph [] 0 []) [] None.

(** [pbesinst_structure_graph_algorithm::run]; the inner [None] is the failed
    assertion of [initial_vertex]. *)
Definition structure_graph_run (fuel : nat) (init : pbes_expression) : outcome (option builder) :=
  let! st := run fuel init new_builder in
  Returns (finalize (m_derived st)).

End Lazy.
Arguments lazy_state variable symbol A : clear implicits.
Arguments mk_lazy {variable symbol A}.
Arguments m_todo {variable symbol A}.
Arguments m_discovered {variable symbol A}.
Arguments m_init {variable symbol A}.
Arguments m_iteration_count {variable symbol A}.
Arguments global_current_prune_round {variable symbol A}.
Arguments m_derived {variable symbol A}.
