(* ===== verification/InstantiationCorrect.v ===== *)
(** * Instantiation builds the equations that are reachable

    For the structure graph algorithm: if only finitely many instances are
    reachable from the initial one, the exploration ends, in either search
    order, and the graph consists of exactly the reachable equations; its
    solutions are those of the equation system. *)

From Stdlib Require Import Lia NArith.
From stdpp Require Import base strings numbers sets list sorting relations.
From S2P Require Import Prelude VertexSets StructureGraph Solver SolverCheck Terms DataExpressions PbesExpressions GraphBuilder.
From S2P Require Import GraphBuilderCorrect GraphBuilderErrors GraphBuilderTheorems Instantiation.

Local Open Scope mcrl2_scope.

Section Correct.
Context {variable symbol : Type} `{EqDecision variable} `{EqDecision symbol}.
Abbreviation pbes_expression := (@pbes_expression variable symbol).
Abbreviation builder := (@structure_graph_builder variable symbol).
Abbreviation is_pvi := is_propositional_variable_instantiation.
Context (pp : pbes_expression -> string) (term_less : pbes_expression -> pbes_expression -> bool).
Implicit Types (b : builder) (X psi : pbes_expression).

(** ** Lists *)

Lemma next_todo_spec (s : search_strategy) (todo : list pbes_expression) :
  match next_todo s todo with
  | None => todo = []
  | Some (X, rest) => todo ≡ₚ X :: rest
  end.
Proof.
  assert (Hlast : match match last todo with
      | None => None | Some X => Some (X, take (length todo - 1) todo) end with
    | None => todo = [] | Some (X, rest) => todo ≡ₚ X :: rest end).
  { destruct (last todo) as [X|] eqn:E; [|by apply last_None].
    apply last_Some in E as [l ->]. rewrite length_app. cbn. rewrite Nat.add_sub, take_app_length.
    by rewrite Permutation_app_comm. }
  destruct s; try exact Hlast. destruct todo; cbn; [done|reflexivity].
Qed.

Lemma elem_of_foldl_discover l (D : list pbes_expression) X :
  X ∈ foldl discover D l <-> X ∈ D \/ X ∈ l.
Proof.
  revert D. induction l as [|Y l IH]; intros D; cbn; [set_solver|]. rewrite IH.
  unfold discover. case_bool_decide; set_solver.
Qed.

Lemma elem_of_find_pvi psi X :
  X ∈ find_propositional_variable_instantiations term_less psi <-> X ∈ occurrences psi.
Proof.
  unfold find_propositional_variable_instantiations, ordered_operands.
  rewrite merge_sort_Permutation. apply elem_of_remove_dups.
Qed.

Lemma find_pvi_NoDup psi : NoDup (find_propositional_variable_instantiations term_less psi).
Proof.
  unfold find_propositional_variable_instantiations, ordered_operands.
  rewrite merge_sort_Permutation. apply NoDup_remove_dups.
Qed.

Lemma occurrences_pvi psi X : X ∈ occurrences psi -> is_pvi X = true.
Proof. induction psi; cbn; set_solver. Qed.

(** ** The variables of a graph *)

(** The variables among the formulas of the vertices. *)
Definition variable_vertex b X : Prop :=
  is_pvi X = true /\ exists u v, vertices b !! u = Some v /\ SG.formula v = X.

Definition new_variables (f : pbes_expression -> builder -> outcome (nat * builder)) : Prop :=
  forall y b u b', f y b = Returns (u, b') -> forall X, variable_vertex b' X ->
    variable_vertex b X \/ X ∈ occurrences y.

Lemma variable_vertex_insert_edge u v b X :
  variable_vertex (builder_insert_edge u v b) X -> variable_vertex b X.
Proof.
  intros [Hp (i & w & Hw & Hf)]. split; [done|]. rewrite vertices_insert_edge in Hw.
  destruct (insert_edge_unlabel u v _ i w Hw) as (w' & Hw' & Hl & _). exists i, w'. split; [done|congruence].
Qed.

Lemma insert_vertex_variables : new_variables (insert_vertex pp).
Proof.
  intros y b u b' E X HX. unfold insert_vertex in E.
  destruct (map_find _ y); [injection E as <- <-; by left|].
  apply bind_returns in E as (d & _ & [= <- <-]). destruct HX as [Hp (i & v & Hv & Hf)].
  change (_ !! i) with ((vertices b ++ [new_vertex y d]) !! i) in Hv.
  apply app_one_cases in Hv as [Hv|[_ ->]]; [left; split; [done|by exists i, v]|right].
  cbn in Hf. subst y. destruct X; try done. left.
Qed.

Lemma insert_operands_variables f u l b b' X :
  new_variables f -> insert_operands f u l b = Returns b' -> variable_vertex b' X ->
  variable_vertex b X \/ exists y, y ∈ l /\ X ∈ occurrences y.
Proof.
  intros Hf. revert b. induction l as [|y l IH]; intros b E HX; cbn in E; [injection E as <-; by left|].
  apply bind_returns in E as ([v b1] & E1 & E).
  destruct (IH _ E HX) as [H1|(z & Hz & HXz)]; [|right; exists z; split; [by right|done]].
  apply variable_vertex_insert_edge in H1. destruct (Hf y b v b1 E1 X H1) as [|Hy]; [by left|right].
  exists y. split; [left|done].
Qed.

Lemma operands_occurrences psi y X : y ∈ operands psi -> X ∈ occurrences y -> X ∈ occurrences psi.
Proof.
  assert (Hand : forall p : pbes_expression, y ∈ split_and p -> X ∈ occurrences y -> X ∈ occurrences p).
  { induction p as [e|n p|p IHp|p IHp q IHq|p IHp q IHq|p IHp q IHq|v p IHp|v p IHp]; cbn [split_and];
      intros Hy; try (by apply list_elem_of_singleton in Hy as ->). cbn. set_solver. }
  assert (Hor : forall p : pbes_expression, y ∈ split_or p -> X ∈ occurrences y -> X ∈ occurrences p).
  { induction p as [e|n p|p IHp|p IHp q IHq|p IHp q IHq|p IHp q IHq|v p IHp|v p IHp]; cbn [split_or];
      intros Hy; try (by apply list_elem_of_singleton in Hy as ->). cbn. set_solver. }
  unfold operands. destruct psi; cbn [is_and is_or split_and split_or]; intros Hy;
    try (by apply elem_of_nil in Hy); cbn; apply elem_of_app in Hy as [Hy|Hy]; set_solver.
Qed.

Lemma SG1_variables fuel : new_variables (SG1 pp term_less fuel).
Proof.
  induction fuel as [|fuel IH]; [done|]. intros psi b u b' E X HX. cbn [SG1] in E.
  apply bind_returns in E as ([w b1] & E1 & E).
  pose proof (insert_vertex_variables _ _ _ _ E1 X) as H1.
  assert (Hnode : forall l, (forall y, y ∈ l <-> y ∈ operands psi) ->
    (let! b := insert_operands (SG1 pp term_less fuel) w l b1 in Returns (w, b)) = Returns (u, b') ->
    variable_vertex b X \/ X ∈ occurrences psi).
  { intros l Hl E'. apply bind_returns in E' as (b2 & E2 & [= <- <-]).
    destruct (insert_operands_variables _ _ _ _ _ X IH E2 HX) as [|(y & Hy & HXy)]; [by apply H1|right].
    apply (operands_occurrences psi y); [by apply Hl|done]. }
  destruct psi as [[]|nm ps|p|p q|p q|p q|vs p|vs p]; cbn [is_true is_false is_pvi is_and is_or] in E;
    try (injection E as <- <-; by apply H1); (eapply Hnode; [|exact E]); intros y; by apply operands_order.
Qed.

Lemma SG0_variables x psi k b b' X :
  is_pvi x = true -> SG0 pp term_less x psi k b = Returns b' -> variable_vertex b' X ->
  variable_vertex b X \/ X = x \/ X ∈ occurrences psi.
Proof.
  unfold SG0. intros Hpx E HX. apply bind_returns in E as ([u b1] & E1 & E).
  assert (H1 : variable_vertex b1 X -> variable_vertex b X \/ X = x \/ X ∈ occurrences psi).
  { unfold insert_variable_equation in E1. apply bind_returns in E1 as ([w b0] & E0 & E1).
    apply bind_returns in E1 as (d & _ & [= <- <-]). intros [Hp (i & v & Hv & Hf)].
    assert (H0 : variable_vertex b0 X).
    { split; [done|]. change (_ !! i) with (alter (with_equation d k) w (vertices b0) !! i) in Hv.
      rewrite list_lookup_alter in Hv. case_decide as Ewi; [|by exists i, v].
      apply fmap_Some in Hv as (v' & Hv' & ->). subst. by exists i, v'. }
    destruct (insert_vertex_variables x b w b0 E0 X H0) as [|Hx]; [by left|right; left].
    destruct x; try done. by apply list_elem_of_singleton in Hx. }
  assert (Hnode : forall l, (forall y, y ∈ l <-> y ∈ operands psi) ->
    insert_operands (SG1 pp term_less (size psi)) u l b1 = Returns b' ->
    variable_vertex b X \/ X = x \/ X ∈ occurrences psi).
  { intros l Hl E'. destruct (insert_operands_variables _ _ _ _ _ X (SG1_variables _) E' HX)
      as [|(y & Hy & HXy)]; [by apply H1|right; right].
    apply (operands_occurrences psi y); [by apply Hl|done]. }
  destruct psi as [[]|nm ps|p|p q|p q|p q|vs p|vs p]; cbn [is_true is_false is_pvi is_and is_or] in E;
    try (injection E as <-; by apply H1); try ((eapply Hnode; [|exact E]); intros y; by apply operands_order).
  apply bind_returns in E as ([w b2] & E2 & [= <-]). apply variable_vertex_insert_edge in HX.
  destruct (insert_vertex_variables _ b1 w b2 E2 X HX) as [|Hx]; [by apply H1|by right; right].
Qed.

(** ** The exploration *)

Context (m_options : pbessolve_options).
Context (R : pbes_expression -> (pbes_expression -> pbes_expression) -> pbes_expression).
Context (rank : pbes_expression -> N) (is_mu : pbes_expression -> bool) (init : pbes_expression).
Abbreviation algorithm := (pbesinst_structure_graph_algorithm term_less pp).
Abbreviation sg_run_step := (run_step term_less m_options R rank is_mu (H := algorithm)).
Abbreviation sg_run_thread := (run_thread term_less m_options R rank is_mu (H := algorithm)).
Implicit Types st : lazy_state variable symbol builder.

(** The right-hand side of the equation of [X]. *)
Definition rhs X : pbes_expression := R X (phi_substitution m_options is_mu X).

Definition equation_of X : pbes_expression * pbes_expression * N := (X, rhs X, rank X).

(** [Y] occurs in the equation of [X]. *)
Definition depends X Y : Prop := Y ∈ occurrences (rhs X).

Definition reachable X : Prop := rtc depends init X.

Hypothesis Hinit : is_pvi init = true.
Hypothesis Hsupported : forall X, reachable X -> supported (rhs X) = true.

Lemma reachable_pvi X : reachable X -> is_pvi X = true.
Proof.
  intros HX. apply rtc_inv_r in HX as [<-|(Y & _ & HY)]; [done|]. by apply occurrences_pvi in HY.
Qed.

(** The invariant; [done] lists the variables whose equations are reported. *)
Record exploring (done : list pbes_expression) st : Prop := {
  ex_represents : represents pp (equation_of <$> done) (m_derived st);
  ex_variables : forall X, variable_vertex (m_derived st) X -> X ∈ m_discovered st;
  ex_split : forall X, X ∈ m_discovered st <-> X ∈ done \/ X ∈ m_todo st;
  ex_NoDup : NoDup (done ++ m_todo st);
  ex_reachable : forall X, X ∈ m_discovered st -> reachable X;
  ex_closed : forall X Y, X ∈ done -> depends X Y -> Y ∈ m_discovered st;
  ex_init : init ∈ m_discovered st;
  ex_count : m_iteration_count st = N.of_nat (length done);
  ex_m_init : m_init st = init;
  ex_initial : (done = [] /\ m_todo st = [init] /\ m_initial_state (m_derived st) = None) \/
    m_initial_state (m_derived st) = Some init
}.

Lemma equation_of_fst done : (equation_of <$> done).*1.*1 = done.
Proof. induction done as [|X done IH]; cbn; [done|]. by f_equal. Qed.

Lemma exploring_start : exploring [] (mk_lazy [init] [init] init 0 0 new_builder).
Proof.
  split; cbn.
  - apply empty_represents.
  - by intros X [_ (u & v & Hv & _)].
  - set_solver.
  - apply NoDup_singleton.
  - intros X ->%list_elem_of_singleton. apply rtc_refl.
  - intros X Y HX. by apply elem_of_nil in HX.
  - left.
  - done.
  - done.
  - by left.
Qed.

Lemma report_initial X psi k b b' :
  on_report_equation pp term_less X psi k b = Returns b' ->
  m_initial_state b' = Some (default X (m_initial_state b)).
Proof.
  unfold on_report_equation. destruct (m_initial_state b) as [Y|] eqn:E; intros Er;
    apply SG0_initial in Er; rewrite Er; [by rewrite E|done].
Qed.

Lemma report_variables X psi k b b' Y :
  is_pvi X = true -> on_report_equation pp term_less X psi k b = Returns b' -> variable_vertex b' Y ->
  variable_vertex b Y \/ Y = X \/ Y ∈ occurrences psi.
Proof.
  unfold on_report_equation. intros HX Er HY.
  destruct (m_initial_state b); apply (SG0_variables _ _ _ _ _ Y HX Er HY).
Qed.

(** One step of the exploration. *)
Lemma run_step_spec done st X rest :
  exploring done st -> m_todo st ≡ₚ X :: rest ->
  (N.of_nat (length done) + 1 < max_bes_equations m_options)%N ->
  exists st', sg_run_step X rest st = Returns (st', false) /\ exploring (done ++ [X]) st'.
Proof.
  intros [H1 H2 H3 H4 H5 H6 H7 H8 H9 H10] Hp Hlim.
  assert (HXt : X ∈ m_todo st) by (rewrite Hp; left).
  assert (HXr : reachable X) by (apply H5, H3; by right).
  assert (Hnd : NoDup (X :: done ++ rest)).
  { rewrite Hp in H4. by rewrite Permutation_middle. }
  assert (HXd : X ∉ done) by (apply NoDup_cons in Hnd as [Hn _]; set_solver).
  unfold run_step, check_bes_equation_limit. rewrite H8.
  destruct (N.leb_spec (max_bes_equations m_options) (N.of_nat (length done) + 1)) as [|_]; [lia|].
  cbn [outcome_bind rewrite_psi pbesinst_structure_graph_algorithm with_derived m_derived
    global_current_prune_round m_todo m_discovered m_init m_iteration_count].
  rewrite N.eqb_refl. cbn [on_report on_discovered_elements solution_found pbesinst_structure_graph_algorithm].
  fold (rhs X). set (occ := find_propositional_variable_instantiations term_less (rhs X)).
  destruct (report_represents pp term_less (equation_of <$> done) (m_derived st) X (rhs X) (rank X))
    as (b' & Er & Hr); auto; [by apply reachable_pvi|by rewrite equation_of_fst|].
  rewrite Er. cbn [outcome_bind on_discovered_elements solution_found]. eexists. split; [done|].
  assert (Hocc : forall Y, Y ∈ occ <-> depends X Y) by (intros Y; apply elem_of_find_pvi).
  assert (Hdis : forall Y, Y ∈ m_discovered st <-> Y ∈ done \/ Y = X \/ Y ∈ rest).
  { intros Y. rewrite H3, Hp, elem_of_cons. done. }
  split; cbn [m_derived m_discovered m_todo m_iteration_count m_init].
  - by rewrite fmap_app.
  - intros Y HY. apply elem_of_foldl_discover. rewrite Hocc.
    destruct (report_variables X (rhs X) (rank X) _ _ Y (reachable_pvi X HXr) Er HY) as [|[->|]]; auto.
    left. apply Hdis. auto.
  - intros Y. rewrite elem_of_foldl_discover, Hdis. unfold todo_insert.
    rewrite !elem_of_app, list_elem_of_filter, list_elem_of_singleton, Hdis.
    destruct (decide (Y ∈ done \/ Y = X \/ Y ∈ rest)); tauto.
  - unfold todo_insert. rewrite (assoc_L (++)). apply NoDup_app.
    split; [rewrite <- (assoc_L (++)); cbn [app]; by rewrite <- Permutation_middle|]. split.
    + intros Y HY [Hn _]%list_elem_of_filter. apply Hn, Hdis. set_solver.
    + apply NoDup_filter, find_pvi_NoDup.
  - intros Y. rewrite elem_of_foldl_discover, Hocc. intros [HY|HY]; [auto|].
    eapply rtc_r; [exact HXr|exact HY].
  - intros Y Z HY HZ. rewrite elem_of_foldl_discover, Hocc.
    apply elem_of_app in HY as [HY|HY%list_elem_of_singleton]; [left; by apply (H6 Y)|right; by subst].
  - apply elem_of_foldl_discover. by left.
  - rewrite length_app. cbn. lia.
  - done.
  - right. rewrite (report_initial _ _ _ _ _ Er). destruct H10 as [(-> & Ht & ->)| ->]; [|done].
    cbn. rewrite Ht in Hp. apply Permutation_length_1_inv in Hp. by injection Hp as -> ->.
Qed.

(** The exploration ends when there are finitely many reachable variables. *)
Lemma run_thread_spec (l : list pbes_expression) fuel done st :
  (forall X, reachable X -> X ∈ l) -> (N.of_nat (length l) < max_bes_equations m_options)%N ->
  exploring done st -> length l <= fuel + length done ->
  exists done' st', sg_run_thread fuel st = Returns st' /\ exploring done' st' /\ m_todo st' = [].
Proof.
  intros Hl Hlim. revert done st. induction fuel as [|fuel IH]; intros done st He Hf; cbn [run_thread];
    pose proof (next_todo_spec (exploration_strategy m_options) (m_todo st)) as Hn;
    destruct (next_todo _ (m_todo st)) as [[X rest]|]; [|by exists done, st| |by exists done, st];
    (assert (Hlen : S (length done) <= length l);
     [transitivity (length (done ++ m_todo st)); [rewrite length_app, Hn; cbn; lia|];
      apply (submseteq_length), NoDup_submseteq; [apply He|]; intros Y HY; apply Hl, (ex_reachable _ _ He), (ex_split _ _ He);
      by apply elem_of_app|]).
  - lia.
  - destruct (run_step_spec done st X rest He Hn) as (st1 & -> & He1); [lia|]. cbn [outcome_bind].
    apply (IH (done ++ [X])); [done|]. rewrite length_app. cbn. lia.
Qed.

(** When the list is empty, the equations are those of the reachable variables. *)
Lemma exploring_end done st X :
  exploring done st -> m_todo st = [] -> X ∈ done <-> reachable X.
Proof.
  intros He Ht. assert (Hd : forall Y, Y ∈ m_discovered st <-> Y ∈ done).
  { intros Y. rewrite (ex_split _ _ He), Ht. set_solver. }
  split; [intros HX; apply (ex_reachable _ _ He); by apply Hd|].
  intros HX. apply Hd. revert X HX. apply (rtc_ind_r (fun Y => Y ∈ m_discovered st)).
  - apply (ex_init _ _ He).
  - intros Y Z _ HYZ HY. apply (ex_closed _ _ He Y); [by apply Hd|done].
Qed.

(** C15: If only finitely many variables are reachable from the initial one, and
    their right-hand sides instantiate to formulas of variables, constants,
    conjunctions and disjunctions, then the exploration ends, for every search
    strategy, and the structure graph that is built is that of the reachable
    equations: it has exactly the reachable variables, all of them explored and
    with their rank, the initial variable is the initial vertex, and the
    consistent valuations of the graph are the solutions of the equation
    system. *)
Theorem structure_graph_run_correct (l : list pbes_expression) fuel :
  (forall X, reachable X -> X ∈ l) -> (N.of_nat (length l) < max_bes_equations m_options)%N ->
  length l <= fuel ->
  exists g, structure_graph_run term_less m_options R rank is_mu pp fuel init = Returns (Some g) /\
    lookup_map g init = Some (SG.m_initial_vertex (m_graph g)) /\
    (forall X, is_pvi X = true -> (exists u, lookup_map g X = Some u) <-> reachable X) /\
    (forall X, reachable X -> exists u v, lookup_map g X = Some u /\ vertices g !! u = Some v /\
       SG.v_rank v = rank X) /\
    (forall val, consistent g val <->
       (forall X, reachable X -> vertex_value g val X = eval (vertex_value g val) (rhs X)) /\
       (forall u v, vertices g !! u = Some v -> is_pvi (SG.formula v) = false ->
          val u = eval (vertex_value g val) (SG.formula v))).
Proof.
  intros Hl Hlim Hf. unfold structure_graph_run, run.
  destruct (run_thread_spec l fuel [] _ Hl Hlim exploring_start) as (done & st & -> & He & Ht); [cbn; lia|].
  cbn [outcome_bind on_end_while_loop pbesinst_structure_graph_algorithm].
  pose proof (fun X => exploring_end done st X He Ht) as Hdone. pose proof (ex_represents _ _ He) as Hr.
  assert (Heq : forall X, reachable X -> has_equation pp (m_derived st) X (rhs X) (rank X)).
  { intros X HX. apply (rp_equations _ _ _ Hr). apply list_elem_of_fmap. exists X. split; [done|by apply Hdone]. }
  destruct (Heq init (rtc_refl _ _)) as (u0 & _ & Hu0 & _).
  assert (Hi : m_initial_state (m_derived st) = Some init).
  { destruct (ex_initial _ _ He) as [(-> & Ht' & _)|]; [congruence|done]. }
  set (b := m_derived st) in *.
  exists (mk_builder (SG.mk_graph (vertices b) u0 (bitset_empty (builder_extent b))) (m_vertex_map b) (m_initial_state b)).
  split.
  { unfold finalize, builder_initial_vertex. rewrite Hi. unfold lookup_map in Hu0. by rewrite Hu0. }
  split; [exact Hu0|]. split; [|split].
  - intros X Hp. change (lookup_map (mk_builder _ _ _) X) with (lookup_map b X). split.
    + intros [u Hu]. apply (bo_map _ b (rp_ok _ _ _ Hr)) in Hu as (v & Hv & Hfv).
      apply (ex_reachable _ _ He), (ex_variables _ _ He). split; [done|by exists u, v].
    + intros HX. destruct (Heq X HX) as (u & _ & Hu & _). by exists u.
  - intros X HX. destruct (Heq X HX) as (u & v & Hu & Hv & _ & Hk & _). by exists u, v.
  - intros val. etransitivity; [eapply (represents_consistent pp term_less _ b val); [exact Hr|]|].
    + apply Forall_fmap, Forall_forall. intros X HX%Hdone. split; [by apply reachable_pvi|by apply Hsupported].
    + apply and_iff_compat_r. split.
      * intros H X HX. apply (H X (rhs X) (rank X)). apply list_elem_of_fmap. exists X. split; [done|by apply Hdone].
      * intros H x psi k Hin. apply list_elem_of_fmap in Hin as (X & [= -> -> ->] & HX). by apply H, Hdone.
Qed.

End Correct.

(** ** An instance *)

(** [mu X = Y && (X || true)], [nu Y = X || true] *)
Definition sample_R (X : PbesExpressions.pbes_expression nat nat)
    (s : PbesExpressions.pbes_expression nat nat -> PbesExpressions.pbes_expression nat nat)
  : PbesExpressions.pbes_expression nat nat :=
  if bool_decide (X = var_X) then pbes_and (s var_Y) (pbes_or (s var_X) (pbes_data sort_bool_true))
  else pbes_or (s var_X) (pbes_data sort_bool_true).

Definition sample_rank (X : PbesExpressions.pbes_expression nat nat) : N :=
  if bool_decide (X = var_X) then 1 else 2.

Definition sample_mu (X : PbesExpressions.pbes_expression nat nat) : bool := bool_decide (X = var_X).

Definition sample_options (s : search_strategy) : pbessolve_options :=
  mk_options false s no_optimisation false false 18446744073709551615.

Lemma sample_reachable s X :
  reachable (sample_options s) sample_R sample_mu var_X X -> X = var_X \/ X = var_Y.
Proof.
  revert X. apply (rtc_ind_r (fun X => X = var_X \/ X = var_Y)); [by left|].
  intros Y Z _ HZ HY. revert HZ. unfold depends, rhs, phi_substitution. cbn [optimization sample_options removes_self_loops].
  destruct HY as [->| ->]; unfold sample_R; cbn; intros HZ; repeat (apply elem_of_cons in HZ as [->|HZ]; [by auto|]); by apply elem_of_nil in HZ.
Qed.

Lemma structure_graph_run_correct_witness :
  exists g, structure_graph_run sample_less (sample_options depth_first) sample_R sample_rank sample_mu sample_pp 2 var_X
      = Returns (Some g) /\
    lookup_map g var_X = Some (SG.m_initial_vertex (m_graph g)) /\
    (exists u, lookup_map g var_Y = Some u) /\
    forall val, consistent g val -> vertex_value g val var_Y = true.
Proof.
  assert (HY : reachable (sample_options depth_first) sample_R sample_mu var_X var_Y).
  { apply rtc_once. unfold depends. cbn. left. }
  destruct (structure_graph_run_correct sample_pp sample_less (sample_options depth_first) sample_R sample_rank
    sample_mu var_X) with (l := [var_X; var_Y]) (fuel := 2) as (g & E & Hi & Hr & _ & Hc).
  - reflexivity.
  - intros X HX. destruct (sample_reachable _ X HX) as [->| ->]; reflexivity.
  - intros X HX. destruct (sample_reachable _ X HX) as [->| ->]; [left|right; left].
  - reflexivity.
  - reflexivity.
  - exists g. split; [exact E|]. split; [exact Hi|]. split; [by apply Hr|].
    intros val [He _]%Hc. rewrite (He var_Y HY). apply orb_true_r.
Defined.
