(* ===== verification/OnTheFly.v ===== *)
(** * Solving during instantiation
    ([libraries/pbes/include/mcrl2/pbes/pbesinst_structure_graph2.h])

    [pbesinst_structure_graph_algorithm2] keeps the sets [S[0]] and [S[1]] of
    vertices whose winner is known while the graph is being built, with
    strategies [tau].  Right-hand sides are simplified with what is known
    ([Rplus]), a variable whose right-hand side becomes known is added to the
    sets, and every now and then one of the partial solvers runs and the to-do
    list is pruned to what the initial variable still depends on.

    [pp] is the printer, [term_less] the order on terms and [hash_order] the
    order in which the elements of an [unordered_set] are visited.  The
    timer and the logging are left out.  A failing assertion is an exception
    here, and so are a partial solver that runs out of fuel and an access to a
    vertex that does not exist; the counters of steps are natural numbers. *)

From Stdlib Require Import Lia NArith.
From stdpp Require Import base strings numbers sets list sorting.
From S2P Require Import Prelude VertexSets StructureGraph Attractors ParityGame Solver Evidence FatalAttractors FindLoops PartialSolve.
From S2P Require Import Terms DataExpressions PbesExpressions GraphBuilder Instantiation.

Local Open Scope mcrl2_scope.

(** [assert(c)] *)
Definition assertion (c : bool) (text : string) : outcome unit :=
  if c then Returns tt else Throws ("assertion failed: " +:+ text).

(** ** Guards *)

(** [m_count *= 2] is done modulo [2^64]; [None] if the loop does not end. *)
Fixpoint guard_double (fuel : nat) (m_count count : N) : option N :=
  if (m_count <=? count)%N
  then match fuel with
       | O => None
       | S fuel => guard_double fuel ((m_count * 2) mod 2 ^ 64)%N count
       end
  else Some m_count.

(** [computation_guard::operator()]: the result and the new [m_count]. *)
Definition computation_guard (m_count count : N) : option (bool * N) :=
  match guard_double 64 m_count count with
  | None => None
  | Some m => Some ((m_count <=? count)%N, m)
  end.

Record periodic_guard : Type := mk_periodic { pg_count : N; pg_regeneration_period : N }.

Definition is_expired (g : periodic_guard) : bool * periodic_guard :=
  let c := (pg_count g + 1)%N in
  if (pg_regeneration_period g <=? c)%N
  then (true, mk_periodic 0 (pg_regeneration_period g))
  else (false, mk_periodic c (pg_regeneration_period g)).

Definition set_expiration_steps (p : N) (g : periodic_guard) : periodic_guard :=
  mk_periodic (pg_count g) p.

Section Algorithm.
Context {variable symbol : Type} `{EqDecision variable} `{EqDecision symbol}.
Abbreviation pbes_expression := (@pbes_expression variable symbol).
Abbreviation builder := (@structure_graph_builder variable symbol).
Abbreviation simple_structure_graph := (SSG.simple_structure_graph pbes_expression).
Context (pp : pbes_expression -> string) (term_less : pbes_expression -> pbes_expression -> bool).
Context (hash_order : list pbes_expression -> list pbes_expression).
Context (m_options : pbessolve_options).
Implicit Types (x psi X : pbes_expression).

(** ** [Rplus_traverser] *)

(** An element of the stack; [b] is [true], [false] or
    [data::undefined_data_expression()], which is [None]. *)
Record stack_element : Type := mk_element {
  re_b : option bool;
  re_f : pbes_expression;
  re_g0 : pbes_expression;
  re_g1 : pbes_expression
}.

Definition true_ : pbes_expression := pbes_data sort_bool_true.
Definition false_ : pbes_expression := pbes_data sort_bool_false.

(** [leave(const and_&)] for the two topmost elements. *)
Definition leave_and (e1 e2 : stack_element) : stack_element :=
  match re_b e1, re_b e2 with
  | Some true, Some true =>
      mk_element (Some true) (pbes_and (re_f e1) (re_f e2)) (pbes_and (re_g0 e1) (re_g0 e2)) false_
  | Some false, Some false =>
      if term_less (re_f e1) (re_f e2)
      then mk_element (Some false) (re_f e1) true_ (re_g1 e1)
      else mk_element (Some false) (re_f e2) true_ (re_g1 e2)
  | Some false, _ => mk_element (Some false) (re_f e1) true_ (re_g1 e1)
  | _, Some false => mk_element (Some false) (re_f e2) true_ (re_g1 e2)
  | _, _ => mk_element None (pbes_and (re_f e1) (re_f e2)) true_ false_
  end.

(** [leave(const or_&)] *)
Definition leave_or (e1 e2 : stack_element) : stack_element :=
  match re_b e1, re_b e2 with
  | Some false, Some false =>
      mk_element (Some false) (pbes_or (re_f e1) (re_f e2)) true_ (pbes_or (re_g1 e1) (re_g1 e2))
  | Some true, Some true =>
      if term_less (re_f e1) (re_f e2)
      then mk_element (Some true) (re_f e1) (re_g0 e1) false_
      else mk_element (Some true) (re_f e2) (re_g0 e2) false_
  | Some true, _ => mk_element (Some true) (re_f e1) (re_g0 e1) false_
  | _, Some true => mk_element (Some true) (re_f e2) (re_g0 e2) false_
  | _, _ => mk_element None (pbes_or (re_f e1) (re_f e2)) true_ false_
  end.

(** [leave(const propositional_variable_instantiation&)] *)
Definition leave_variable (S : vertex_set * vertex_set) (b : builder) x : stack_element :=
  match find_vertex b x with
  | None => mk_element None x true_ false_
  | Some u =>
      if VSet.contains (fst S) u then mk_element (Some true) x x false_
      else if VSet.contains (snd S) u then mk_element (Some false) x true_ x
      else mk_element None x true_ false_
  end.

(** The traversal.  There is no function for negations: the element of the
    operand stays on the stack. *)
Fixpoint Rplus (S : vertex_set * vertex_set) (b : builder) x : outcome stack_element :=
  match x with
  | pbes_data _ =>
      if is_true x then Returns (mk_element (Some true) x true_ false_)
      else if is_false x then Returns (mk_element (Some false) x true_ false_)
      else Throws ("Fail to evaluate the expression " +:+ pp x +:+ " as it should be equal to true or false.")
  | propositional_variable_instantiation _ _ => Returns (leave_variable S b x)
  | pbes_not p => Rplus S b p
  | pbes_and p q => let! e1 := Rplus S b p in let! e2 := Rplus S b q in Returns (leave_and e1 e2)
  | pbes_or p q => let! e1 := Rplus S b p in let! e2 := Rplus S b q in Returns (leave_or e1 e2)
  | pbes_imp _ _ =>
      Throws ("Fail to evaluate the expression " +:+ pp x +:+
        " as the routine Rplus does not expect an implication, which is an internal error.")
  | pbes_exists _ _ =>
      Throws ("Fail to evaluate the expression " +:+ pp x +:+ " as enumeration of this exists is not possible.")
  | pbes_forall _ _ =>
      Throws ("Fail to evaluate the expression " +:+ pp x +:+ " as enumeration of this forall is not possible.")
  end.

(** ** The state *)

Record otf_state : Type := mk_otf {
  m_graph_builder : builder;
  m_S : vertex_set * vertex_set;
  m_tau : strategies;
  m_S_guard : N * N;
  m_b : option bool;
  on_the_fly_solve_trigger : periodic_guard;
  reset_guard : periodic_guard
}.
Abbreviation lazy := (lazy_state variable symbol otf_state).
Implicit Types (o : otf_state) (st : lazy).

(** The constructor. *)
Definition new_otf (b : builder) : otf_state :=
  mk_otf b (VSet.make 0, VSet.make 0) ([], []) (64, 64)%N None (mk_periodic 0 2) (mk_periodic 0 100).

(** [rewrite_psi]; that of the superclass leaves [psi] as it is. *)
Definition otf_rewrite_psi psi o : outcome (pbes_expression * otf_state) :=
  let! e := Rplus (m_S o) (m_graph_builder o) psi in
  let o := mk_otf (m_graph_builder o) (m_S o) (m_tau o) (m_S_guard o) (re_b e)
             (on_the_fly_solve_trigger o) (reset_guard o) in
  Returns (match re_b e with Some true => re_g0 e | Some false => re_g1 e | None => re_f e end, o).

Definition with_solver_state (b : builder) (S : vertex_set * vertex_set) (tau : strategies) o : otf_state :=
  mk_otf b S tau (m_S_guard o) (m_b o) (on_the_fly_solve_trigger o) (reset_guard o).

Definition otf_on_report_equation X psi (k : N) o : outcome otf_state :=
  let! b := on_report_equation pp term_less X psi k (m_graph_builder o) in
  let n := builder_extent b in
  let S := (VSet.resize (fst (m_S o)) n, VSet.resize (snd (m_S o)) n) in
  let S := match find_vertex b X with
           | None => S
           | Some u => match m_b o with
                       | Some true => (VSet.insert (fst S) u, snd S)
                       | Some false => (fst S, VSet.insert (snd S) u)
                       | None => S
                       end
           end in
  Returns (with_solver_state b S (m_tau o) o).

Definition otf_solution_found (init : pbes_expression) o : bool :=
  match find_vertex (m_graph_builder o) init with
  | None => false
  | Some u => VSet.contains (fst (m_S o)) u || VSet.contains (snd (m_S o)) u
  end.

(** ** Pruning *)

(** Asserted after pruning; a variable without a vertex does not pass. *)
Definition todo_has_only_undefined_nodes (b : builder) (todo : list pbes_expression) : bool :=
  forallb (fun X => match find_vertex b X with
                    | None => false
                    | Some u => match vertices b !! u with
                                | None => false
                                | Some u_ => negb (SG.vertex_is_defined u_)
                                end
                    end) todo.

(** The body of the loop over the successors of a vertex. *)
Definition prune_successor (V : list (SG.vertex pbes_expression))
    (p : list pbes_expression * list pbes_expression) (v : nat)
  : list pbes_expression * list pbes_expression :=
  match V !! v with
  | None => p
  | Some v_ =>
      let Y := SG.formula v_ in
      if bool_decide (Y ∈ snd p) then p else (fst p ++ [Y], snd p ++ [Y])
  end.

(** The loop of [prune_todo_list]: [todo1], [done1], [new_todo] and
    [calculation_steps]. *)
Fixpoint prune_loop (fuel : nat) o (todo1 done1 new_todo : list pbes_expression) (steps : N)
  : outcome (list pbes_expression * N) :=
  match todo1 with
  | [] => Returns (new_todo, steps)
  | X :: todo1 =>
      match fuel with
      | O => Throws "prune_todo_list: out of fuel"
      | Datatypes.S fuel =>
          let V := vertices (m_graph_builder o) in
          match find_vertex (m_graph_builder o) X with
          | None => Throws "prune_todo_list: undefined vertex"
          | Some u =>
              match V !! u with
              | None => Throws "prune_todo_list: undefined vertex"
              | Some u_ =>
                  let steps := (steps + 1)%N in
                  if bool_decide (SG.v_decoration u_ = d_none) && bool_decide (SG.v_successors u_ = [])
                  then
                    let! _ := assertion (is_propositional_variable_instantiation (SG.formula u_))
                                "is_propositional_variable_instantiation(u_.formula())" in
                    prune_loop fuel o todo1 done1 (discover new_todo (SG.formula u_)) steps
                  else if negb (VSet.contains (fst (m_S o)) u) && negb (VSet.contains (snd (m_S o)) u)
                  then
                    let '(todo1, done1) := foldl (prune_successor V) (todo1, done1) (SG.v_successors u_) in
                    prune_loop fuel o todo1 done1 new_todo (steps + N.of_nat (length (SG.v_successors u_)))%N
                  else prune_loop fuel o todo1 done1 new_todo steps
              end
          end
      end
  end.

(** "new_todo_list := new_todo \cap todo", in the order of the current list. *)
Definition prune_keep (p : list pbes_expression * list pbes_expression) X
  : list pbes_expression * list pbes_expression :=
  if bool_decide (X ∈ snd p) then (fst p ++ [X], filter (fun Y => Y <> X) (snd p)) else p.

(** The elements of [new_todo] that are left are added at the back or, one by
    one, at the front. *)
Definition prune_todo_list st (calculation_steps : N) : outcome (lazy * N) :=
  let o := m_derived st in
  let fuel := length (vertices (m_graph_builder o)) in
  let! (new_todo, steps) := prune_loop fuel o [m_init st] [m_init st] [] calculation_steps in
  let steps := (steps + N.of_nat (length (m_todo st)))%N in
  let '(kept, new_todo) := foldl prune_keep ([], new_todo) (m_todo st) in
  let others := hash_order new_todo in
  let steps := (steps + N.of_nat (length others))%N in
  let todo := match exploration_strategy m_options with
              | breadth_first => kept ++ others
              | _ => rev others ++ kept
              end in
  let! _ := assertion (todo_has_only_undefined_nodes (m_graph_builder o) todo)
              "todo_has_only_undefined_nodes()" in
  Returns (mk_lazy todo (m_discovered st) (m_init st) (m_iteration_count st)
             (global_current_prune_round st + 1)%N o, steps).

Definition prune_todo_list_conditional st (calculation_steps : N) : outcome (lazy * N) :=
  if prune_todo_list_option m_options then prune_todo_list st calculation_steps
  else Returns (st, calculation_steps).

Definition with_otf o st : lazy :=
  mk_lazy (m_todo st) (m_discovered st) (m_init st) (m_iteration_count st) (global_current_prune_round st) o.

Definition with_trigger (g : periodic_guard) o : otf_state :=
  mk_otf (m_graph_builder o) (m_S o) (m_tau o) (m_S_guard o) (m_b o) g (reset_guard o).

Definition with_reset (g : periodic_guard) o : otf_state :=
  mk_otf (m_graph_builder o) (m_S o) (m_tau o) (m_S_guard o) (m_b o) (on_the_fly_solve_trigger o) g.

(** [reset_guard.is_expired()] comes first, so it is always called. *)
Definition prune_todo_list_time_triggered st : outcome lazy :=
  if prune_todo_list_option m_options
  then
    let '(expired, g) := is_expired (reset_guard (m_derived st)) in
    let st := with_otf (with_reset g (m_derived st)) st in
    if expired || bool_decide (m_todo st = []) || aggressive m_options
    then
      let! (st, steps) := prune_todo_list st 0 in
      let p := if prune_and_solve_frequently m_options then steps else (steps * 100)%N in
      Returns (with_otf (with_reset (set_expiration_steps p (reset_guard (m_derived st))) (m_derived st)) st)
    else Returns st
  else Returns st.

(** ** [on_discovered_elements] *)

(** [assert(strategies_are_set_in_solved_nodes())] *)
Definition assert_strategies o : outcome unit :=
  assertion (strategies_are_set_in_solved_nodes (SSG.mk_simple (vertices (m_graph_builder o))) (m_S o) (m_tau o))
    "strategies_are_set_in_solved_nodes()".

(** A partial solver works on a graph that shares the vertices of the builder. *)
Definition on_simple_graph
    (solver : fatal_state simple_structure_graph -> option (fatal_state simple_structure_graph)) o
  : outcome (otf_state * N) :=
  match solver (mk_fatal (SSG.mk_simple (vertices (m_graph_builder o))) (m_S o) (m_tau o) 0) with
  | None => Throws "partial solver: out of fuel"
  | Some r => Returns (with_solver_state (with_vertices (m_graph_builder o) (SSG.m_vertices (fs_graph r)))
                         (fs_S r) (fs_tau r) o, N.of_nat (fs_steps r))
  end.

(** [if (S_guard[alpha](S[alpha].size())) S[alpha] = attr_default_with_tau(...)] *)
Definition guarded_attractor (alpha : nat) o : outcome otf_state :=
  match computation_guard (pick alpha (m_S_guard o)) (N.of_nat (VSet.size (pick alpha (m_S o)))) with
  | None => Throws "computation_guard: the loop does not end"
  | Some (run, m) =>
      let o := mk_otf (m_graph_builder o) (m_S o) (m_tau o) (put alpha m (m_S_guard o)) (m_b o)
                 (on_the_fly_solve_trigger o) (reset_guard o) in
      let! (o, _) := on_simple_graph (attract_if run alpha) o in
      Returns o
  end.

(** The call of [finalize] and [partial_solve]; [m_graph] is the graph of the
    builder itself. *)
Definition on_structure_graph (todo : list pbes_expression) o : outcome otf_state :=
  match finalize (m_graph_builder o) with
  | None => Throws "finalize: no initial vertex"
  | Some b =>
      match partial_solve (find_vertex b) todo (mk_fatal (m_graph b) (m_S o) (m_tau o) 0) with
      | None => Throws "partial solver: out of fuel"
      | Some r => Returns (with_solver_state (mk_builder (fs_graph r) (m_vertex_map b) (m_initial_state b))
                             (fs_S r) (fs_tau r) o)
      end
  end.

(** The options with a partial solver. *)
Definition solves_subgames : bool :=
  match optimization m_options with
  | detect_winning_loops_using_fatal_attractor | solve_subgames_using_fatal_attractor_local
  | solve_subgames_using_fatal_attractor_original | solve_subgames_using_solver
  | detect_winning_loops_original => true
  | _ => false
  end.

(** The solver that the option selects, with the steps that it counted; those
    of [fatal_attractors_original], [partial_solve] and [find_loops] are not
    counted. *)
Definition partial_solver st o : outcome (otf_state * N) :=
  match optimization m_options with
  | detect_winning_loops_using_fatal_attractor => on_simple_graph find_loops2 o
  | solve_subgames_using_fatal_attractor_local => on_simple_graph fatal_attractors o
  | solve_subgames_using_fatal_attractor_original => on_simple_graph fatal_attractors_original o
  | solve_subgames_using_solver =>
      let! o := on_structure_graph (m_todo st) o in Returns (o, 0%N)
  | detect_winning_loops_original =>
      on_simple_graph (find_loops (find_vertex (m_graph_builder o)) (m_discovered st) (m_todo st)) o
  | _ => Returns (o, 0%N)
  end.

(** The branches that solve when the trigger has expired; the assertion follows
    each of the solvers. *)
Definition solve_when_triggered st : outcome lazy :=
  let o := m_derived st in
  let '(go, o) := if aggressive m_options then (true, o)
                  else let '(e, g) := is_expired (on_the_fly_solve_trigger o) in (e, with_trigger g o) in
  if go then
    let! (o, steps) := partial_solver st o in
    let! _ := assert_strategies o in
    let p := (steps / (if prune_and_solve_frequently m_options then 1000 else 10))%N in
    let o := with_trigger (set_expiration_steps p (on_the_fly_solve_trigger o)) o in
    let! (st, _) := prune_todo_list_conditional (with_otf o st) steps in
    Returns st
  else Returns (with_otf o st).

Definition otf_on_discovered_elements st : outcome lazy :=
  let! st :=
    match optimization m_options with
    | propagate_solved_equations_using_attractor =>
        let! o := guarded_attractor 0 (m_derived st) in
        let! o := guarded_attractor 1 o in
        let! _ := assert_strategies o in
        Returns (with_otf o st)
    | _ => if solves_subgames then solve_when_triggered st else Returns st
    end in
  prune_todo_list_time_triggered st.

(** ** [on_end_while_loop] *)

Definition otf_on_end_while_loop st : outcome lazy :=
  let o := m_derived st in
  let b := m_graph_builder o in
  match find_vertex b (m_init st) with
  | None => Throws "on_end_while_loop: undefined vertex"
  | Some u =>
      let! _ := assert_strategies o in
      match extract_minimal_structure_graph_tau (SSG.mk_simple (vertices b)) u
              (fst (m_S o)) (snd (m_S o)) (m_tau o) with
      | None => Throws "extract_minimal_structure_graph: undefined vertex"
      | Some (V, tau) =>
          let n := builder_extent b in
          let to_be_removed :=
            foldl (fun r v => if bool_decide (v ∈ V) then r else VSet.insert r v) (VSet.make n) (seq 0 n) in
          Returns (with_otf (with_solver_state (erase_vertices to_be_removed b) (m_S o) tau o) st)
      end
  end.

#[export] Instance pbesinst_structure_graph_algorithm2 : Algorithm otf_state := {|
  on_report := otf_on_report_equation;
  on_discovered_elements := otf_on_discovered_elements;
  rewrite_psi := otf_rewrite_psi;
  solution_found := otf_solution_found;
  on_end_while_loop := otf_on_end_while_loop
|}.

(** [run], which is that of [pbesinst_structure_graph_algorithm]; the inner
    [None] is the failed assertion of [initial_vertex]. *)
Definition otf_structure_graph_run
    (R : pbes_expression -> (pbes_expression -> pbes_expression) -> pbes_expression)
    (rank : pbes_expression -> N) (is_mu : pbes_expression -> bool) (fuel : nat) (init : pbes_expression)
  : outcome (option builder) :=
  let! st := run term_less m_options R rank is_mu (H := pbesinst_structure_graph_algorithm2) fuel init (new_otf new_builder) in
  Returns (finalize (m_graph_builder (m_derived st))).

End Algorithm.
