(* ===== verification/RplusCorrect.v ===== *)
(** * Simplification with solved vertices

    [Rplus] returns for every formula of variables, constants, conjunctions and
    disjunctions.  Its result is equivalent to the formula for all valuations
    that agree with the solved vertices; when it decides the formula, the
    formula that replaces it is a conjunction of solved variables that implies
    it (a disjunction of solved variables that it implies). *)

From Stdlib Require Import Lia NArith.
From stdpp Require Import base strings numbers sets list sorting.
From S2P Require Import Prelude VertexSets StructureGraph Solver FatalAttractors Terms DataExpressions PbesExpressions GraphBuilder.
From S2P Require Import GraphBuilderCorrect GraphBuilderErrors GraphBuilderTheorems Instantiation OnTheFly.

Local Open Scope mcrl2_scope.

Section Correct.
Context {variable symbol : Type} `{EqDecision variable} `{EqDecision symbol}.
Abbreviation pbes_expression := (@pbes_expression variable symbol).
Abbreviation builder := (@structure_graph_builder variable symbol).
Context (pp : pbes_expression -> string) (term_less : pbes_expression -> pbes_expression -> bool).
Implicit Types (x X psi : pbes_expression) (eta : pbes_expression -> bool) (b : builder).

(** A variable in a solved set. *)
Definition solved_in b (V : vertex_set) X : Prop :=
  exists u, find_vertex b X = Some u /\ VSet.contains V u = true.

(** The valuation gives the solved variables their value. *)
Definition agrees b (S : vertex_set * vertex_set) eta : Prop := forall X,
  (solved_in b (fst S) X -> eta X = true) /\ (solved_in b (snd S) X -> eta X = false).

(** A conjunction of variables in [P], and [true]. *)
Fixpoint conjunction_of (P : pbes_expression -> Prop) x : Prop :=
  match x with
  | pbes_data sort_bool_true => True
  | propositional_variable_instantiation _ _ => P x
  | pbes_and p q => conjunction_of P p /\ conjunction_of P q
  | _ => False
  end.

Fixpoint disjunction_of (P : pbes_expression -> Prop) x : Prop :=
  match x with
  | pbes_data sort_bool_false => True
  | propositional_variable_instantiation _ _ => P x
  | pbes_or p q => disjunction_of P p /\ disjunction_of P q
  | _ => False
  end.

(** Formulas without constants; a simplifying rewriter returns a constant or
    such a formula. *)
Fixpoint no_constants x : bool :=
  match x with
  | pbes_data _ => false
  | pbes_and p q | pbes_or p q => no_constants p && no_constants q
  | _ => true
  end.

Lemma conjunction_of_eval (P : pbes_expression -> Prop) eta x :
  (forall X, P X -> eta X = true) -> conjunction_of P x -> eval eta x = true.
Proof.
  intros HP. induction x as [[]|n p|p IHp|p IHp q IHq|p IHp q IHq|p IHp q IHq|v p IHp|v p IHp]; cbn; try done; auto.
  intros [H1 H2]. by rewrite IHp, IHq.
Qed.

Lemma disjunction_of_eval (P : pbes_expression -> Prop) eta x :
  (forall X, P X -> eta X = false) -> disjunction_of P x -> eval eta x = false.
Proof.
  intros HP. induction x as [[]|n p|p IHp|p IHp q IHq|p IHp q IHq|p IHp q IHq|v p IHp|v p IHp]; cbn; try done; auto.
  intros [H1 H2]. by rewrite IHp, IHq.
Qed.

(** What the element of a formula [x] promises. *)
Record element_ok b (S : vertex_set * vertex_set) x (e : @stack_element variable symbol) : Prop := {
  el_f : forall eta, agrees b S eta -> eval eta (re_f e) = eval eta x;
  el_true : re_b e = Some true -> conjunction_of (solved_in b (fst S)) (re_g0 e) /\
    forall eta, eval eta (re_g0 e) = true -> eval eta x = true;
  el_false : re_b e = Some false -> disjunction_of (solved_in b (snd S)) (re_g1 e) /\
    forall eta, eval eta x = true -> eval eta (re_g1 e) = true;
  el_supported : supported (re_f e) = true;
  el_occurrences : forall X, X ∈ occurrences (re_f e) \/ X ∈ occurrences (re_g0 e) \/ X ∈ occurrences (re_g1 e) ->
    X ∈ occurrences x;
  el_constants : no_constants x = true -> no_constants (re_f e) = true /\
    (re_b e = Some true -> no_constants (re_g0 e) = true) /\ (re_b e = Some false -> no_constants (re_g1 e) = true)
}.

(** The value that the element decides. *)
Lemma element_value b S x e eta v :
  element_ok b S x e -> agrees b S eta -> re_b e = Some v -> eval eta x = v.
Proof.
  intros He Ha Hv. destruct v.
  - destruct (el_true _ _ _ _ He Hv) as [Hc Hi]. apply Hi. apply (conjunction_of_eval (solved_in b (fst S))); [|done].
    intros X. apply Ha.
  - destruct (el_false _ _ _ _ He Hv) as [Hc Hi]. destruct (eval eta x) eqn:E; [|done].
    apply Hi in E. rewrite <- E. apply (disjunction_of_eval (solved_in b (snd S))); [|done]. intros X. apply Ha.
Qed.

Lemma leave_variable_ok b S X :
  is_propositional_variable_instantiation X = true -> element_ok b S X (leave_variable S b X).
Proof.
  destruct X as [|n ps| | | | | |]; try done. intros _. unfold leave_variable.
  destruct (find_vertex b _) as [u|] eqn:Eu; [|split; cbn; try done; set_solver].
  destruct (VSet.contains (fst S) u) eqn:E0.
  { split; cbn; try done; [|set_solver]. intros _. split; [|done]. by exists u. }
  destruct (VSet.contains (snd S) u) eqn:E1; [|split; cbn; try done; set_solver].
  split; cbn; try done; [|set_solver]. intros _. split; [|done]. by exists u.
Qed.

(** *** Conjunctions *)

Lemma and_decided b S x y z e :
  (forall eta, eval eta (pbes_and x y) = true -> eval eta z = true) -> z = x \/ z = y ->
  element_ok b S z e -> re_b e = Some false ->
  element_ok b S (pbes_and x y) (mk_element (Some false) (re_f e) true_ (re_g1 e)).
Proof.
  intros Hz Hxy He Hb. pose proof (fun eta => element_value b S z e eta false He) as Hv.
  destruct He as [F T N Sup O C]. destruct (N Hb) as [N1 N2]. split; cbn [re_b re_f re_g0 re_g1].
  - intros eta Ha. rewrite F by done. rewrite (Hv eta Ha Hb).
    destruct (eval eta (pbes_and x y)) eqn:E; [|done]. apply Hz in E. by rewrite (Hv eta Ha Hb) in E.
  - done.
  - intros _. split; [done|]. intros eta Hxy'. apply N2. by apply Hz.
  - done.
  - intros X [HX|[HX|HX]]; [| by apply elem_of_nil in HX|]; cbn; apply elem_of_app;
      destruct Hxy as [->| ->]; [left|right|left|right]; apply O; auto.
  - cbn. intros [Hx Hy]%andb_true_iff. assert (Hcz : no_constants z = true) by (by destruct Hxy as [->| ->]).
    destruct (C Hcz) as (C1 & _ & C3). split; [done|]. split; [done|]. intros _. by apply C3.
Qed.

Lemma leave_and_ok b S x y e1 e2 :
  element_ok b S x e1 -> element_ok b S y e2 -> element_ok b S (pbes_and x y) (leave_and term_less e1 e2).
Proof.
  intros H1 H2.
  assert (Hl : re_b e1 = Some false ->
    element_ok b S (pbes_and x y) (mk_element (Some false) (re_f e1) true_ (re_g1 e1))).
  { apply (and_decided b S x y x); auto. cbn. by intros eta []%andb_true_iff. }
  assert (Hr : re_b e2 = Some false ->
    element_ok b S (pbes_and x y) (mk_element (Some false) (re_f e2) true_ (re_g1 e2))).
  { apply (and_decided b S x y y); auto. cbn. by intros eta []%andb_true_iff. }
  destruct H1 as [F1 T1 N1 S1 O1 C1], H2 as [F2 T2 N2 S2 O2 C2].
  assert (Hf : forall eta, agrees b S eta -> eval eta (pbes_and (re_f e1) (re_f e2)) = eval eta (pbes_and x y)).
  { intros eta Ha. cbn. by rewrite F1, F2. }
  assert (Hs : supported (pbes_and (re_f e1) (re_f e2)) = true) by (cbn; by rewrite S1, S2).
  assert (Hc : no_constants (pbes_and x y) = true -> no_constants (pbes_and (re_f e1) (re_f e2)) = true).
  { cbn. intros [Hx Hy]%andb_true_iff. by rewrite (proj1 (C1 Hx)), (proj1 (C2 Hy)). }
  assert (Hnone : element_ok b S (pbes_and x y) (mk_element None (pbes_and (re_f e1) (re_f e2)) true_ false_)).
  { split; cbn [re_b re_f re_g0 re_g1]; auto; try done.
    - intros X [HX|[HX|HX]]; [|by apply elem_of_nil in HX..].
      cbn in *. apply elem_of_app in HX as [HX|HX]; apply elem_of_app; auto.
    - intros Hxy. by split; [apply Hc|]. }
  unfold leave_and. destruct (re_b e1) as [[]|] eqn:B1, (re_b e2) as [[]|] eqn:B2; auto; [|by destruct (term_less _ _); auto].
  destruct (T1 eq_refl) as [T11 T12], (T2 eq_refl) as [T21 T22].
  split; cbn [re_b re_f re_g0 re_g1]; auto; [|done| |].
  - intros _. split; [by split|]. cbn. intros eta [E1 E2]%andb_true_iff. by rewrite T12, T22.
  - cbn. intros X [HX|[HX|HX]]; [| |by apply elem_of_nil in HX];
      apply elem_of_app in HX as [HX|HX]; apply elem_of_app; auto.
  - intros Hxy. split; [by apply Hc|]. split; [|done]. intros _. cbn in *.
    apply andb_true_iff in Hxy as [Hx Hy]. destruct (C1 Hx) as (_ & A1 & _), (C2 Hy) as (_ & A2 & _). by rewrite A1, A2.
Qed.

(** *** Disjunctions *)

Lemma or_decided b S x y z e :
  (forall eta, eval eta z = true -> eval eta (pbes_or x y) = true) -> z = x \/ z = y ->
  element_ok b S z e -> re_b e = Some true ->
  element_ok b S (pbes_or x y) (mk_element (Some true) (re_f e) (re_g0 e) false_).
Proof.
  intros Hz Hxy He Hb. pose proof (fun eta => element_value b S z e eta true He) as Hv.
  destruct He as [F T N Sup O C]. destruct (T Hb) as [T1 T2]. split; cbn [re_b re_f re_g0 re_g1].
  - intros eta Ha. rewrite F by done. rewrite (Hv eta Ha Hb). symmetry. by apply Hz, Hv.
  - intros _. split; [done|]. intros eta Hg. by apply Hz, T2.
  - done.
  - done.
  - intros X [HX|[HX|HX]]; [| |by apply elem_of_nil in HX]; cbn; apply elem_of_app;
      destruct Hxy as [->| ->]; [left|right|left|right]; apply O; auto.
  - cbn. intros [Hx Hy]%andb_true_iff. assert (Hcz : no_constants z = true) by (by destruct Hxy as [->| ->]).
    destruct (C Hcz) as (C1 & C2 & _). split; [done|]. split; [|done]. intros _. by apply C2.
Qed.

Lemma leave_or_ok b S x y e1 e2 :
  element_ok b S x e1 -> element_ok b S y e2 -> element_ok b S (pbes_or x y) (leave_or term_less e1 e2).
Proof.
  intros H1 H2.
  assert (Hl : re_b e1 = Some true ->
    element_ok b S (pbes_or x y) (mk_element (Some true) (re_f e1) (re_g0 e1) false_)).
  { apply (or_decided b S x y x); auto. cbn. by intros eta ->. }
  assert (Hr : re_b e2 = Some true ->
    element_ok b S (pbes_or x y) (mk_element (Some true) (re_f e2) (re_g0 e2) false_)).
  { apply (or_decided b S x y y); auto. cbn. intros eta ->. apply orb_true_r. }
  destruct H1 as [F1 T1 N1 S1 O1 C1], H2 as [F2 T2 N2 S2 O2 C2].
  assert (Hf : forall eta, agrees b S eta -> eval eta (pbes_or (re_f e1) (re_f e2)) = eval eta (pbes_or x y)).
  { intros eta Ha. cbn. by rewrite F1, F2. }
  assert (Hs : supported (pbes_or (re_f e1) (re_f e2)) = true) by (cbn; by rewrite S1, S2).
  assert (Hc : no_constants (pbes_or x y) = true -> no_constants (pbes_or (re_f e1) (re_f e2)) = true).
  { cbn. intros [Hx Hy]%andb_true_iff. by rewrite (proj1 (C1 Hx)), (proj1 (C2 Hy)). }
  assert (Hnone : element_ok b S (pbes_or x y) (mk_element None (pbes_or (re_f e1) (re_f e2)) true_ false_)).
  { split; cbn [re_b re_f re_g0 re_g1]; auto; try done.
    - intros X [HX|[HX|HX]]; [|by apply elem_of_nil in HX..].
      cbn in *. apply elem_of_app in HX as [HX|HX]; apply elem_of_app; auto.
    - intros Hxy. by split; [apply Hc|]. }
  unfold leave_or. destruct (re_b e1) as [[]|] eqn:B1, (re_b e2) as [[]|] eqn:B2; auto; [by destruct (term_less _ _); auto|].
  destruct (N1 eq_refl) as [T11 T12], (N2 eq_refl) as [T21 T22].
  split; cbn [re_b re_f re_g0 re_g1]; auto; [done| | |].
  - intros _. split; [by split|]. cbn. intros eta [E|E]%orb_true_iff; apply orb_true_iff; auto.
  - cbn. intros X [HX|[HX|HX]]; [|by apply elem_of_nil in HX|];
      apply elem_of_app in HX as [HX|HX]; apply elem_of_app; auto.
  - intros Hxy. split; [by apply Hc|]. split; [done|]. intros _. cbn in *.
    apply andb_true_iff in Hxy as [Hx Hy]. destruct (C1 Hx) as (_ & _ & A1), (C2 Hy) as (_ & _ & A2). by rewrite A1, A2.
Qed.

(** *** The traversal *)

Lemma Rplus_spec b S x :
  supported x = true -> exists e, Rplus pp term_less S b x = Returns e /\ element_ok b S x e.
Proof.
  induction x as [[]|n p|p IHp|p IHp q IHq|p IHp q IHq|p IHp q IHq|v p IHp|v p IHp]; cbn [supported]; try done; intros Hs.
  - eexists. split; [done|]. split; cbn; try done; set_solver.
  - eexists. split; [done|]. split; cbn; try done; set_solver.
  - eexists. split; [done|]. by apply leave_variable_ok.
  - apply andb_true_iff in Hs as [Hp Hq]. destruct (IHp Hp) as (e1 & E1 & H1), (IHq Hq) as (e2 & E2 & H2).
    cbn. rewrite E1. cbn. rewrite E2. eexists. split; [done|]. by apply leave_and_ok.
  - apply andb_true_iff in Hs as [Hp Hq]. destruct (IHp Hp) as (e1 & E1 & H1), (IHq Hq) as (e2 & E2 & H2).
    cbn. rewrite E1. cbn. rewrite E2. eexists. split; [done|]. by apply leave_or_ok.
Qed.

(** C24: on every formula of variables, constants, conjunctions and disjunctions
    [Rplus] returns an element whose [f] is equivalent to the formula under all
    valuations that agree with the solved vertices, and mentions no other
    variables.  If it decides the formula as [true], the formula that replaces
    it is a conjunction of variables in [S[0]] that implies it; if as [false],
    a disjunction of variables in [S[1]] that it implies: a move to a solved
    vertex of the winner is enough for the winner, and all moves of the other
    player lead to solved vertices. *)
Theorem Rplus_correct b S x :
  supported x = true ->
  exists e, Rplus pp term_less S b x = Returns e /\
    (forall eta, agrees b S eta -> eval eta (re_f e) = eval eta x) /\
    (forall X, X ∈ occurrences (re_f e) \/ X ∈ occurrences (re_g0 e) \/ X ∈ occurrences (re_g1 e) ->
      X ∈ occurrences x) /\
    (re_b e = Some true -> conjunction_of (solved_in b (fst S)) (re_g0 e) /\
      forall eta, eval eta (re_g0 e) = true -> eval eta x = true) /\
    (re_b e = Some false -> disjunction_of (solved_in b (snd S)) (re_g1 e) /\
      forall eta, eval eta x = true -> eval eta (re_g1 e) = true).
Proof.
  intros Hx. destruct (Rplus_spec b S x Hx) as (e & He & Hok). exists e.
  split; [done|]. split; [apply Hok|]. split; [apply Hok|]. split; apply Hok.
Qed.

End Correct.

(** *** Evaluated *)

(** [Y], vertex 3 of the sample graph, is solved. *)
Definition sample_solved : vertex_set * vertex_set := (VSet.insert (VSet.make 4) 3, VSet.make 4).

Lemma Rplus_correct_witness :
  exists e, Rplus sample_pp sample_less sample_solved sample_builder (pbes_or var_X (pbes_and var_Y var_Y)) = Returns e /\
    re_b e = Some true /\ re_g0 e = pbes_and var_Y var_Y /\
    conjunction_of (solved_in sample_builder (fst sample_solved)) (re_g0 e).
Proof.
  destruct (Rplus_correct sample_pp sample_less sample_builder sample_solved (pbes_or var_X (pbes_and var_Y var_Y)) eq_refl)
    as (e & He & _ & _ & Ht & _).
  exists e. split; [exact He|]. vm_compute in He. injection He as <-.
  split; [reflexivity|]. split; [reflexivity|]. apply Ht. reflexivity.
Defined.

(** A negation is simplified like its operand. *)
Example Rplus_negation :
  Rplus sample_pp sample_less sample_solved sample_builder (pbes_not var_Y) =
  Rplus sample_pp sample_less sample_solved sample_builder var_Y.
Proof. reflexivity. Qed.
