(* ===== verification/OnTheFlyGraph.v ===== *)
(** * The graph during instantiation

    What the partial solvers are entitled to assume of the vertices of a builder
    that represents the equations reported so far, and what the report of one
    more equation does to a winning region: the region stays one, and a variable
    all of whose successors are in it can be added. *)

From Stdlib Require Import Lia NArith.
From stdpp Require Import base strings numbers sets list sorting.
From S2P Require Import Prelude VertexSets StructureGraph Attractors ParityGame Solver SolverCheck Arena FatalAttractors GraphGame FatalTheorems.
From S2P Require Import Terms DataExpressions PbesExpressions GraphBuilder GraphBuilderCorrect GraphBuilderErrors GraphBuilderTheorems Instantiation InstantiationCorrect OnTheFly RplusCorrect.

Local Open Scope mcrl2_scope.

(** ** Regions of a growing graph *)

Section Regions.
Context {G : Type} `{StructureGraph G}.
Implicit Types (g : G) (W : nat -> Prop).

(** [u] has the same place in both graphs. *)
Record same_vertex {G'} `{StructureGraph G'} g (g' : G') (u : nat) : Prop := {
  sv_in : in_graph g u -> in_graph g' u;
  sv_decoration : sg_decoration g' u = sg_decoration g u;
  sv_rank : sg_rank g' u = sg_rank g u;
  sv_successors : forall v, v ∈ sg_successors g' u <-> v ∈ sg_successors g u
}.

Lemma region_same_vertices {G'} `{StructureGraph G'} g (g' : G') dead alpha sigma W :
  graph_ok g -> graph_ok g' -> (forall u, W u -> same_vertex g g' u) ->
  graph_region g dead alpha sigma W -> graph_region g' dead alpha sigma W.
Proof.
  intros Hg Hg' Hs [H1 H2 H3 H4 H5].
  assert (Hsucc : forall u, W u -> has_successor (graph_edge g') (in_graph g') u ->
    has_successor (graph_edge g) (in_graph g) u).
  { intros u Hu (v & Hv & _). exists v. apply (sv_successors _ _ _ (Hs u Hu)) in Hv.
    split; [done|by apply (successors_in _ Hg u)]. }
  assert (Hedge : forall u v, W u -> graph_edge g' u v -> graph_edge g u v /\ in_graph g v).
  { intros u v Hu Hv. apply (sv_successors _ _ _ (Hs u Hu)) in Hv. split; [done|by apply (successors_in _ Hg u)]. }
  split.
  - intros u Hu. apply (sv_in _ _ _ (Hs u Hu)). by apply H1.
  - intros u Hu Ho Hh. destruct (H2 u Hu) as (v & Hv & He & Hx & HW); [|by apply Hsucc|].
    { unfold graph_owner in *. by rewrite (sv_decoration _ _ _ (Hs u Hu)) in Ho. }
    exists v. apply (sv_successors _ _ _ (Hs u Hu)) in He. split; [done|]. split; [done|].
    split; [by apply (successors_in _ Hg' u)|done].
  - intros u v Hu Ho He _. destruct (Hedge u v Hu He). apply (H3 u v); auto.
    unfold graph_owner in *. by rewrite <- (sv_decoration _ _ _ (Hs u Hu)).
  - intros u Hu Hh. apply H4; [done|]. intros (v & He & _). apply Hh. exists v.
    apply (sv_successors _ _ _ (Hs u Hu)) in He. split; [done|by apply (successors_in _ Hg' u)].
  - assert (Hm : forall u v, W u -> move (graph_edge g') (graph_owner g') (in_graph g') alpha sigma u v ->
      move (graph_edge g) (graph_owner g) (in_graph g) alpha sigma u v).
    { intros u v Hu (He & _ & Ho). destruct (Hedge u v Hu He). split; [done|]. split; [done|].
      unfold graph_owner in *. by rewrite (sv_decoration _ _ _ (Hs u Hu)) in Ho. }
    assert (Hc : forall u v, W u -> move (graph_edge g') (graph_owner g') (in_graph g') alpha sigma u v -> W v).
    { intros u v Hu Hmv. apply (region_closed (graph_edge g) (graph_owner g) (sg_rank g) dead (in_graph g) alpha sigma W u v);
        [by split|done|by apply Hm]. }
    intros x l Hx Hl Hw. destruct (walk_closed _ W x l x Hc Hx Hw) as [_ HWl].
    destruct (H5 x l Hx Hl) as (y & Hy & Hp & Hmin).
    { apply (walk_mono (move (graph_edge g') (graph_owner g') (in_graph g') alpha sigma) _ W); auto. }
    exists y. rewrite (sv_rank _ _ _ (Hs y (HWl y Hy))). split; [done|]. split; [done|].
    intros z Hz. rewrite (sv_rank _ _ _ (Hs z (HWl z Hz))). by apply Hmin.
Qed.

(** A vertex of the opponent, or of nobody, whose successors are in the region. *)
Lemma region_add g dead alpha sigma W u :
  graph_region g dead alpha sigma W -> in_graph g u -> ~ W u -> ~ graph_owner g alpha u ->
  (forall v, v ∈ sg_successors g u -> W v) ->
  (sg_successors g u = [] -> dead u = alpha) ->
  graph_region g dead alpha sigma (fun v => W v \/ v = u).
Proof.
  intros HW Hin Hn Ho Hs Hd. pose proof HW as [H1 H2 H3 H4 H5]. split.
  - by intros v [Hv| ->]; [apply H1|].
  - intros v [Hv| ->] Hov Hh; [|done]. destruct (H2 v Hv Hov Hh) as (w & ? & ? & ? & ?). exists w. auto.
  - intros v w [Hv| ->] Hov He Hx; left; [by apply (H3 v)|by apply Hs].
  - intros v [Hv| ->] Hh; [by apply H4|]. apply Hd. destruct (sg_successors g u) as [|w l] eqn:E; [done|].
    exfalso. apply Hh. exists w. unfold graph_edge. rewrite E. split; [left|]. apply H1, Hs. left.
  - intros x l Hx Hl Hw.
    assert (Hstep : forall v w, W v \/ v = u -> move (graph_edge g) (graph_owner g) (in_graph g) alpha sigma v w -> W w).
    { intros v w [Hv| ->] Hm; [by apply (region_closed _ _ _ _ _ _ _ _ _ _ HW Hv Hm)|]. apply Hs, Hm. }
    assert (HWl : forall a m z, W a \/ a = u ->
      walk (move (graph_edge g) (graph_owner g) (in_graph g) alpha sigma) a m z -> forall y, y ∈ m -> W y).
    { intros a m z Ha Hm. induction Hm as [a|a b m z Hab Hm IH]; intros y Hy; [by apply elem_of_nil in Hy|].
      pose proof (Hstep _ _ Ha Hab). apply elem_of_cons in Hy as [->|Hy]; auto. }
    apply (H5 x l); [|done|done]. apply (HWl x l x Hx Hw), (walk_last _ _ _ _ Hw Hl).
Qed.

End Regions.

(** ** The graph of a builder *)

Section Builder.
Context {variable symbol : Type} `{EqDecision variable} `{EqDecision symbol}.
Abbreviation pbes_expression := (@pbes_expression variable symbol).
Abbreviation builder := (@structure_graph_builder variable symbol).
Abbreviation is_pvi := is_propositional_variable_instantiation.
Abbreviation equation := (pbes_expression * pbes_expression * N)%type.
Context (pp : pbes_expression -> string) (term_less : pbes_expression -> pbes_expression -> bool).
Implicit Types (b : builder) (X psi x : pbes_expression) (eqs : list equation).

(** The graph that the partial solvers see. *)
Definition view b : SSG.simple_structure_graph pbes_expression := SSG.mk_simple (vertices b).

Lemma view_decoration b u v : vertices b !! u = Some v -> sg_decoration (view b) u = SG.v_decoration v.
Proof. intros Hv. cbn. unfold SSG.decoration, SSG.find_vertex. cbn. by rewrite Hv. Qed.

Lemma view_rank b u v : vertices b !! u = Some v -> sg_rank (view b) u = SG.v_rank v.
Proof. intros Hv. cbn. unfold SSG.rank, SSG.find_vertex. cbn. by rewrite Hv. Qed.

Lemma view_outside b u : vertices b !! u = None ->
  sg_decoration (view b) u = d_none /\ sg_rank (view b) u = undefined_index /\ sg_successors (view b) u = [].
Proof.
  intros Hv. cbn. unfold SSG.decoration, SSG.rank, SSG.successors, SSG.find_vertex. cbn. by rewrite Hv.
Qed.

Lemma view_in b u : in_graph (view b) u <-> u < length (vertices b).
Proof. unfold in_graph. cbn. unfold SSG.contains, SSG.extent. cbn. tauto. Qed.

Lemma view_ok b : builder_ok pp b -> graph_ok (view b).
Proof.
  intros Hb. split.
  - intros u v Hv. apply view_in. by apply (bo_edges pp b Hb u).
  - intros u v Hu. apply view_in. apply (bo_matched pp b Hb) in Hu. unfold succs in Hu.
    destruct (vertices b !! u) eqn:E; [by apply lookup_lt_Some in E|by apply elem_of_nil in Hu].
  - intros u v _ _. apply (bo_matched pp b Hb).
Qed.

Definition equation_ok (e : equation) : Prop :=
  is_pvi e.1.1 = true /\ supported e.1.2 = true /\ (e.2 <= undefined_index)%N.

(** A vertex is an unexplored variable, or has a formula: an explored variable
    that of its equation, an inner vertex its own. *)
Definition vertex_formula eqs b (u : nat) (v : SG.vertex pbes_expression) psi : Prop :=
  supported psi = true /\ builder_decoration pp psi = Returns (SG.v_decoration v) /\
  leads_to b u (rhs_operands psi) /\
  ((SG.formula v, psi, SG.v_rank v) ∈ eqs \/
   (is_pvi psi = false /\ SG.formula v = psi /\ SG.v_rank v = undefined_index)).

Definition unexplored eqs (v : SG.vertex pbes_expression) : Prop :=
  is_pvi (SG.formula v) = true /\ SG.formula v ∉ eqs.*1.*1 /\
  SG.v_decoration v = d_none /\ SG.v_rank v = undefined_index /\ SG.v_successors v = [].

Lemma elem_of_equations eqs x :
  x ∈ eqs.*1.*1 <-> exists psi k, (x, psi, k) ∈ eqs.
Proof.
  split.
  - intros Hx. apply list_elem_of_fmap in Hx as ([y psi] & -> & Hx).
    apply list_elem_of_fmap in Hx as ([[z phi] k] & [= -> ->] & Hx). by exists phi, k.
  - intros (psi & k & Hx). apply list_elem_of_fmap. exists (x, psi). split; [done|].
    apply list_elem_of_fmap. by exists (x, psi, k).
Qed.

Lemma vertex_cases eqs b u v :
  represents pp eqs b -> Forall equation_ok eqs -> vertices b !! u = Some v ->
  unexplored eqs v \/ exists psi, vertex_formula eqs b u v psi.
Proof.
  intros [Hb Hc Heq Hun] Hall Hv. rewrite Forall_forall in Hall.
  destruct (is_pvi (SG.formula v)) eqn:Ep.
  - destruct (decide (SG.formula v ∈ eqs.*1.*1)) as [Hx|Hx].
    + right. apply elem_of_equations in Hx as (psi & k & Hx). exists psi.
      destruct (Heq _ _ _ Hx) as (i & w & Hl & Hw & Hd & Hk & HL).
      assert (Hu : lookup_map b (SG.formula v) = Some u) by (apply (bo_map pp b Hb); by exists v).
      assert (i = u) as -> by congruence. assert (w = v) as -> by congruence.
      split; [apply (Hall _ Hx)|]. split; [done|]. split; [done|]. left. by rewrite Hk.
    + left. destruct (Hun u v Hv Ep Hx) as (? & ? & ?). done.
  - right. exists (SG.formula v). destruct (bo_inner pp b Hb u v Hv Ep) as [Hd Hr].
    split; [by apply (complete_supported pp b u)|]. split; [done|].
    split; [|by right]. rewrite rhs_operands_inner by done. by apply (Hc _ u v Hv Ep (le_n _)).
Qed.

Lemma split_and_inhabited x : split_and x <> [].
Proof. induction x; cbn; try done. intros E. by apply app_nil in E as [E _]. Qed.

Lemma split_or_inhabited x : split_or x <> [].
Proof. induction x; cbn; try done. intros E. by apply app_nil in E as [E _]. Qed.

(** Only constants have no operands. *)
Lemma rhs_operands_nonempty psi :
  supported psi = true -> rhs_operands psi = [] -> is_true psi = true \/ is_false psi = true.
Proof.
  destruct psi as [[]|n p|p|p q|p q|p q|v p|v p]; cbn; try done; auto; intros _ E;
    unfold rhs_operands, operands in E; cbn [is_pvi is_and is_or] in E.
  - by destruct (split_and_inhabited (pbes_and p q)).
  - by destruct (split_or_inhabited (pbes_or p q)).
Qed.

Lemma leads_to_no_operands b u l : leads_to b u l -> succs (vertices b) u = [] -> l = [].
Proof.
  intros [L1 L2] E. destruct l as [|y l]; [done|]. destruct (L1 y) as [v Hv]; [left|].
  assert (Hin : v ∈ succs (vertices b) u) by (apply L2; exists y; split; [left|done]).
  rewrite E in Hin. by apply elem_of_nil in Hin.
Qed.

Lemma leads_to_one b u y v w : leads_to b u [y] -> v ∈ succs (vertices b) u -> w ∈ succs (vertices b) u -> v = w.
Proof.
  intros [_ L] Hv Hw. apply L in Hv as (y1 & ->%list_elem_of_singleton & E1).
  apply L in Hw as (y2 & ->%list_elem_of_singleton & E2). congruence.
Qed.

Lemma decoration_unowned psi d :
  builder_decoration pp psi = Returns d -> d <> d_disjunction -> d <> d_conjunction ->
  rhs_operands psi = [] \/ rhs_operands psi = [psi].
Proof.
  unfold builder_decoration, rhs_operands, operands.
  destruct psi as [[]|n p|p|p q|p q|p q|v p|v p]; cbn; intros E; try done; auto; injection E as <-; done.
Qed.

Lemma represents_unowned eqs b u v w :
  represents pp eqs b -> Forall equation_ok eqs ->
  sg_decoration (view b) u <> d_disjunction -> sg_decoration (view b) u <> d_conjunction ->
  v ∈ succs (vertices b) u -> w ∈ succs (vertices b) u -> v = w.
Proof.
  intros Hr Hall Hd Hc Hv Hw. unfold succs in Hv, Hw.
  destruct (vertices b !! u) as [x|] eqn:Ex; [|by apply elem_of_nil in Hv]. cbn in Hv, Hw.
  rewrite (view_decoration b u x Ex) in *.
  destruct (vertex_cases eqs b u x Hr Hall Ex) as [(_ & _ & _ & _ & E)|(psi & _ & Hdec & HL & _)].
  { rewrite E in Hv. by apply elem_of_nil in Hv. }
  rewrite <- (succs_lookup _ _ _ Ex) in Hv, Hw. destruct HL as [L1 L2].
  destruct (decoration_unowned psi _ Hdec Hd Hc) as [E|E]; rewrite E in *.
  - apply L2 in Hv as (y & Hy & _). by apply elem_of_nil in Hy.
  - by apply (leads_to_one b u psi).
Qed.

Lemma represents_rank eqs b u :
  represents pp eqs b -> Forall equation_ok eqs -> (sg_rank (view b) u <= undefined_index)%N.
Proof.
  intros Hr Hall. destruct (vertices b !! u) as [v|] eqn:Ev.
  - rewrite (view_rank b u v Ev).
    destruct (vertex_cases eqs b u v Hr Hall Ev) as [(_ & _ & _ & -> & _)|(psi & _ & _ & _ & [Hin|(_ & _ & ->)])]; try done.
    rewrite Forall_forall in Hall. apply (Hall _ Hin).
  - destruct (view_outside b u Ev) as (_ & -> & _). done.
Qed.

Lemma represents_partial_graph eqs b :
  represents pp eqs b -> Forall equation_ok eqs -> partial_graph (view b).
Proof.
  intros Hr Hall. split.
  - apply view_ok, Hr.
  - done.
  - intros u. by apply (represents_rank eqs).
  - intros u v w Hd Hc Hv Hw. by apply (represents_unowned eqs b u v w).
  - intros u Hu Hs. destruct (vertices b !! u) as [v|] eqn:Ev;
      [|by destruct (view_outside b u Ev) as (_ & ? & _)].
    rewrite (view_rank b u v Ev) in Hu. rewrite (view_decoration b u v Ev).
    destruct (vertex_cases eqs b u v Hr Hall Ev) as [(_ & _ & _ & ? & _)|(psi & Hsup & Hdec & HL & _)]; [done|].
    apply leads_to_no_operands in HL; [|exact Hs].
    destruct (rhs_operands_nonempty psi Hsup HL) as [E|E]; destruct psi as [[]|n p|p|p q|p q|p q|y p|y p];
      cbn in E, Hdec; try done; injection Hdec as <-; auto.
Qed.

(** ** Reporting an equation *)

(** A region whatever the unexplored vertices turn out to be. *)
Definition always_region b (alpha : nat) (sigma : nat -> option nat) (W : nat -> Prop) : Prop :=
  forall dead, dead_ok (view b) dead -> graph_region (view b) dead alpha sigma W.

Lemma report_added eqs b x psi k :
  represents pp eqs b -> is_pvi x = true -> supported psi = true -> x ∉ eqs.*1.*1 ->
  exists u b', on_report_equation pp term_less x psi k b = Returns b' /\
    represents pp (eqs ++ [(x, psi, k)]) b' /\ equation_added pp b x psi k u b'.
Proof.
  intros Hr Hx Hs Hnew. destruct (report_represents pp term_less eqs b x psi k Hr Hx Hs Hnew) as (b' & E & Hr').
  set (b0 := match m_initial_state b with None => set_initial_state x b | Some _ => b end).
  assert (Hr0 : represents pp eqs b0) by (unfold b0; destruct (m_initial_state b); [done|by apply represents_initial]).
  destruct (SG0_spec pp term_less x psi k b0) as (u & b1 & E1 & HE); [apply Hr0|apply Hr0|done|done| |].
  { intros i Hi. apply (bo_map pp b0 (rp_ok _ _ _ Hr0)) in Hi as (v & Hv & Hf). rewrite (succs_lookup _ _ _ Hv).
    apply (rp_unexplored _ _ _ Hr0 i v Hv); congruence. }
  exists u, b'. split; [done|]. split; [done|].
  assert (b1 = b') as -> by (unfold on_report_equation in E; fold b0 in E; congruence).
  unfold b0 in HE. destruct (m_initial_state b); [done|]. destruct HE. by split.
Qed.

Section Added.
Context (eqs : list equation) (b b' : builder) (x psi : pbes_expression) (k : N) (u : nat).
Hypothesis Hr : represents pp eqs b.
Hypothesis Hall : Forall equation_ok eqs.
Hypothesis Hx : is_pvi x = true.
Hypothesis Hnew : x ∉ eqs.*1.*1.
Hypothesis HE : equation_added pp b x psi k u b'.

Lemma added_same i : i < length (vertices b) -> i <> u -> same_vertex (view b) (view b') i.
Proof.
  intros Hi Hu. destruct (lookup_lt_is_Some_2 _ _ Hi) as [v Hv].
  destruct (ea_old _ _ _ _ _ _ _ HE i v Hv Hu) as (v' & Hv' & (_ & Hd & Hk & _) & Hs). split.
  - intros _. apply view_in. by apply lookup_lt_Some in Hv'.
  - by rewrite (view_decoration b' i v' Hv'), (view_decoration b i v Hv).
  - by rewrite (view_rank b' i v' Hv'), (view_rank b i v Hv).
  - exact Hs.
Qed.

(** The vertex of [x] was unexplored. *)
Lemma added_unexplored v : vertices b !! u = Some v -> unexplored eqs v.
Proof.
  intros Hv. assert (Hl : lookup_map b x = Some u).
  { apply (ea_unknown _ _ _ _ _ _ _ HE). by apply lookup_lt_Some in Hv. }
  apply (bo_map pp b (rp_ok _ _ _ Hr)) in Hl as (v' & Hv' & Hf). assert (v' = v) as -> by congruence.
  assert (Hin : SG.formula v ∉ eqs.*1.*1) by congruence. assert (Hp : is_pvi (SG.formula v) = true) by congruence.
  split; [done|]. split; [done|]. by apply (rp_unexplored _ _ _ Hr u v).
Qed.

Lemma added_dead_ok dead : dead_ok (view b') dead -> dead_ok (view b) dead.
Proof.
  intros Hd i. destruct (vertices b !! i) as [v|] eqn:Ev.
  - destruct (decide (i = u)) as [->|Hi].
    + destruct (added_unexplored v Ev) as (_ & _ & E & _). rewrite (view_decoration b u v Ev), E. done.
    + rewrite <- (sv_decoration _ _ _ (added_same i (lookup_lt_Some _ _ _ Ev) Hi)). apply Hd.
  - destruct (view_outside b i Ev) as (-> & _). done.
Qed.

Lemma unexplored_not_solved i v alpha sigma W :
  alpha < 2 -> always_region b alpha sigma W -> vertices b !! i = Some v -> unexplored eqs v -> ~ W i.
Proof.
  intros Ha HW Hv (_ & _ & Ed & _ & Es) Hi.
  pose (dead := fun w => if decide (w = i) then 1 - alpha else
    match sg_decoration (view b) w with d_false => 1 | _ => 0 end).
  assert (Hok : dead_ok (view b) dead).
  { intros w. unfold dead. case_decide as E; [|by split; intros ->].
    subst w. rewrite (view_decoration b i v Hv), Ed. done. }
  assert (Hdi : dead i = alpha).
  { apply (region_dead _ _ _ _ _ _ _ _ (HW dead Hok) i Hi). intros (w & Hw & _).
    change (w ∈ succs (vertices b) i) in Hw. rewrite (succs_lookup _ _ _ Hv), Es in Hw. by apply elem_of_nil in Hw. }
  unfold dead in Hdi. rewrite decide_True in Hdi by done. lia.
Qed.

Lemma added_not_solved alpha sigma W : alpha < 2 -> always_region b alpha sigma W -> ~ W u.
Proof.
  intros Ha HW Hu. destruct (vertices b !! u) as [v|] eqn:Ev.
  - by apply (unexplored_not_solved u v alpha sigma W Ha HW Ev (added_unexplored v Ev)).
  - pose (dead := fun w => match sg_decoration (view b) w with d_false => 1 | _ => 0 end).
    assert (Hin : in_graph (view b) u).
    { apply (region_sub _ _ _ _ _ _ _ _ (HW dead ltac:(intros w; unfold dead; by split; intros ->)) u Hu). }
    apply view_in in Hin. apply lookup_ge_None in Ev. lia.
Qed.

Lemma added_region alpha sigma W : alpha < 2 -> always_region b alpha sigma W -> always_region b' alpha sigma W.
Proof.
  intros Ha HW dead Hd. pose proof (HW dead (added_dead_ok dead Hd)) as HWd.
  apply (region_same_vertices (view b)); [apply view_ok, Hr|apply view_ok, HE| |done].
  intros i Hi. apply added_same.
  - apply view_in. by apply HWd.
  - intros ->. by apply (added_not_solved alpha sigma W).
Qed.

(** [x] is won by [alpha] if all its successors are, and [alpha] has no choice. *)
Lemma added_solved alpha sigma W :
  alpha < 2 -> always_region b alpha sigma W ->
  (forall y, y ∈ rhs_operands psi -> exists v, lookup_map b' y = Some v /\ W v) ->
  (alpha = 0 -> is_or psi = false /\ is_false psi = false) ->
  (alpha = 1 -> is_and psi = false /\ is_true psi = false) ->
  supported psi = true ->
  always_region b' alpha sigma (fun v => W v \/ v = u).
Proof.
  intros Ha HW Hops H0 H1 Hsup dead Hd. pose proof (added_region alpha sigma W Ha HW dead Hd) as HWd.
  destruct (ea_vertex _ _ _ _ _ _ _ HE) as (w & Hw & _ & Hdec & _).
  assert (Hdw : sg_decoration (view b') u = SG.v_decoration w) by (by apply view_decoration).
  apply region_add; [done|apply view_in; by apply lookup_lt_Some in Hw|by apply (added_not_solved alpha sigma)| | |].
  - unfold graph_owner. rewrite Hdw. assert (alpha = 0 \/ alpha = 1) as [->| ->] by lia; intros Ho;
      destruct psi as [[]|n p|p|p q|p q|p q|y p|y p]; cbn in Hdec, Hsup; try done; injection Hdec as Hdec;
      rewrite <- Hdec in Ho; cbn in Ho; try lia; [by destruct H0|by destruct H1].
  - intros v Hv. apply (ea_successors _ _ _ _ _ _ _ HE) in Hv as (y & Hy & Hl).
    destruct (Hops y Hy) as (v' & Hl' & HWv). congruence.
  - intros Hs. pose proof (leads_to_no_operands b' u _ (ea_successors _ _ _ _ _ _ _ HE) Hs) as En.
    specialize (Hd u). rewrite Hdw in Hd. assert (alpha = 0 \/ alpha = 1) as [->| ->] by lia;
      destruct (rhs_operands_nonempty psi Hsup En) as [E|E];
      destruct psi as [[]|n p|p|p q|p q|p q|y p|y p]; try done; cbn in Hdec; injection Hdec as Hdec;
      try (apply Hd; done); [by destruct H0|by destruct H1].
Qed.

End Added.

End Builder.
