(* ===== verification/OnTheFlyReport.v ===== *)
(** * Reporting a simplified equation

    The invariant of [pbesinst_structure_graph_algorithm2]: the builder
    represents the equations reported so far, and the solved sets are winning
    regions of the strategies in [tau], whatever the unexplored variables turn
    out to be.  [rewrite_psi] followed by [on_report_equation] keeps it. *)

From Stdlib Require Import Lia NArith.
From stdpp Require Import base strings numbers sets list sorting.
From S2P Require Import Prelude VertexSets StructureGraph Attractors ParityGame Solver SolverCheck Arena FatalAttractors GraphGame FatalAttractorsCorrect FatalTheorems.
From S2P Require Import Terms DataExpressions PbesExpressions GraphBuilder GraphBuilderCorrect GraphBuilderErrors GraphBuilderTheorems Instantiation InstantiationCorrect OnTheFly RplusCorrect OnTheFlyGraph.

Local Open Scope mcrl2_scope.

(** ** [resize] *)

Lemma resize_doubles_ge fuel m n : 0 < m -> n <= m + fuel -> n <= VSet.double_until fuel m n.
Proof.
  revert m. induction fuel as [|fuel IH]; intros m Hm Hn; cbn [VSet.double_until]; [lia|].
  destruct (Nat.ltb_spec m n); [|lia]. apply IH; lia.
Qed.

Lemma double_until_le fuel m n : m <= VSet.double_until fuel m n.
Proof.
  revert m. induction fuel as [|fuel IH]; intros m; cbn [VSet.double_until]; [lia|].
  destruct (m <? n); [|lia]. specialize (IH (m * 2)). lia.
Qed.

(** Sets of the same extent are resized to the same extent. *)
Definition resized (m n : nat) : nat := VSet.double_until n (if m <? 1024 then 1024 else m) n.

Lemma resize_ok m n V :
  VSet.ok m V -> n <= resized m n /\ VSet.ok (resized m n) (VSet.resize V n) /\
    VSet.m_vertices (VSet.resize V n) = VSet.m_vertices V.
Proof.
  intros (Hl & Hnd & Hb).
  assert (Hm : 0 < (if m <? 1024 then 1024 else m) /\ m <= if m <? 1024 then 1024 else m)
    by (destruct (Nat.ltb_spec m 1024); lia).
  assert (Hge : m <= resized m n) by (unfold resized; etransitivity; [apply Hm|apply double_until_le]).
  split; [apply resize_doubles_ge; lia|]. split; [|done]. unfold VSet.resize. rewrite Hl. fold (resized m n).
  split; cbn; [rewrite length_app, length_replicate; lia|]. split; [done|].
  intros u. rewrite Hb. unfold bit. destruct (decide (u < length (VSet.m_include V))) as [Hu|Hu].
  - by rewrite lookup_app_l.
  - rewrite lookup_app_r, (lookup_ge_None_2 (VSet.m_include V)) by lia. cbn.
    destruct (replicate _ false !! _) as [[]|] eqn:E; [|done..]. apply lookup_replicate in E as [? _]. done.
Qed.

Section Report.
Context {variable symbol : Type} `{EqDecision variable} `{EqDecision symbol}.
Abbreviation pbes_expression := (@pbes_expression variable symbol).
Abbreviation builder := (@structure_graph_builder variable symbol).
Abbreviation is_pvi := is_propositional_variable_instantiation.
Abbreviation equation := (pbes_expression * pbes_expression * N)%type.
Context (pp : pbes_expression -> string) (term_less : pbes_expression -> pbes_expression -> bool).
Abbreviation otf := (@otf_state variable symbol).
Implicit Types (b : builder) (X Y psi x : pbes_expression) (eqs : list equation) (o : otf).

(** ** Formulas without constants *)

Definition constant_free b : Prop := forall u v, vertices b !! u = Some v -> no_constants (SG.formula v) = true.

Lemma constant_free_insert_edge u v b : constant_free b -> constant_free (builder_insert_edge u v b).
Proof.
  intros Hb i w Hw. rewrite vertices_insert_edge in Hw.
  destruct (insert_edge_unlabel u v _ i w Hw) as (w' & Hw' & -> & _). by apply (Hb i).
Qed.

Definition keeps_constant_free (f : pbes_expression -> builder -> outcome (nat * builder)) y : Prop :=
  forall b u b', f y b = Returns (u, b') -> constant_free b -> constant_free b'.

Lemma insert_vertex_constant_free y : no_constants y = true -> keeps_constant_free (insert_vertex pp) y.
Proof.
  intros Hy b u b' E Hb. unfold insert_vertex in E. destruct (map_find _ y); [by injection E as <- <-|].
  apply bind_returns in E as (d & _ & [= <- <-]). intros i v Hv.
  change (_ !! i) with ((vertices b ++ [new_vertex y d]) !! i) in Hv.
  apply app_one_cases in Hv as [Hv|[_ ->]]; [by apply (Hb i)|done].
Qed.

Lemma insert_operands_constant_free f u l b b' :
  (forall y, y ∈ l -> keeps_constant_free f y) -> insert_operands f u l b = Returns b' ->
  constant_free b -> constant_free b'.
Proof.
  revert b. induction l as [|y l IH]; intros b Hf E Hb; cbn in E; [by injection E as <-|].
  apply bind_returns in E as ([v b1] & E1 & E). apply (IH _ (fun z Hz => Hf z (list_elem_of_further _ _ _ Hz)) E).
  apply constant_free_insert_edge. by apply (Hf y (list_elem_of_here _ _) b v).
Qed.

Lemma operands_no_constants psi y : no_constants psi = true -> y ∈ operands psi -> no_constants y = true.
Proof.
  assert (Hand : forall p : pbes_expression, no_constants p = true -> y ∈ split_and p -> no_constants y = true).
  { induction p as [e|n p|p IHp|p IHp q IHq|p IHp q IHq|p IHp q IHq|v p IHp|v p IHp]; cbn [split_and];
      intros Hc Hy; try (by apply list_elem_of_singleton in Hy as ->).
    cbn in Hc. apply andb_true_iff in Hc as [? ?]. apply elem_of_app in Hy as [Hy|Hy]; auto. }
  assert (Hor : forall p : pbes_expression, no_constants p = true -> y ∈ split_or p -> no_constants y = true).
  { induction p as [e|n p|p IHp|p IHp q IHq|p IHp q IHq|p IHp q IHq|v p IHp|v p IHp]; cbn [split_or];
      intros Hc Hy; try (by apply list_elem_of_singleton in Hy as ->).
    cbn in Hc. apply andb_true_iff in Hc as [? ?]. apply elem_of_app in Hy as [Hy|Hy]; auto. }
  unfold operands. intros Hc. destruct (is_and psi); [by apply Hand|]. destruct (is_or psi); [by apply Hor|].
  intros Hy. by apply elem_of_nil in Hy.
Qed.

Lemma SG1_constant_free fuel psi : no_constants psi = true -> keeps_constant_free (SG1 pp term_less fuel) psi.
Proof.
  revert psi. induction fuel as [|fuel IH]; [done|]. intros psi Hc b u b' E Hb. cbn [SG1] in E.
  apply bind_returns in E as ([w b1] & E1 & E).
  pose proof (insert_vertex_constant_free psi Hc b w b1 E1 Hb) as H1.
  assert (Hnode : forall l, (forall y, y ∈ l <-> y ∈ operands psi) ->
    (let! b := insert_operands (SG1 pp term_less fuel) w l b1 in Returns (w, b)) = Returns (u, b') -> constant_free b').
  { intros l Hl E'. apply bind_returns in E' as (b2 & E2 & [= <- <-]).
    apply (insert_operands_constant_free _ _ _ _ _) in E2; auto.
    intros y Hy. apply IH, (operands_no_constants psi); [done|by apply Hl]. }
  destruct psi as [[]|nm ps|p|p q|p q|p q|vs p|vs p]; cbn [is_true is_false is_pvi is_and is_or] in E;
    try (injection E as <- <-; by apply H1); (eapply Hnode; [|exact E]); intros y; by apply operands_order.
Qed.

(** A constant right-hand side is not inserted. *)
Definition simplified psi : bool := is_true psi || is_false psi || no_constants psi.

Lemma report_constant_free x psi k b b' :
  is_pvi x = true -> simplified psi = true -> on_report_equation pp term_less x psi k b = Returns b' ->
  constant_free b -> constant_free b'.
Proof.
  intros Hx Hs E Hb. unfold on_report_equation in E.
  assert (Hb0 : constant_free (match m_initial_state b with None => set_initial_state x b | Some _ => b end))
    by (by destruct (m_initial_state b)).
  revert E Hb0. generalize (match m_initial_state b with None => set_initial_state x b | Some _ => b end).
  clear b Hb. intros b E Hb. unfold SG0 in E. apply bind_returns in E as ([u b1] & E1 & E).
  assert (H1 : constant_free b1).
  { unfold insert_variable_equation in E1. apply bind_returns in E1 as ([w b0] & E0 & E1).
    assert (Hb0 : constant_free b0) by (apply (insert_vertex_constant_free x ltac:(by destruct x) b w b0 E0 Hb)).
    apply bind_returns in E1 as (d & _ & [= <- <-]). intros i v Hv.
    change (_ !! i) with (alter (with_equation d k) w (vertices b0) !! i) in Hv.
    rewrite list_lookup_alter in Hv. case_decide as Ewi; [|by apply (Hb0 i)].
    apply fmap_Some in Hv as (v' & Hv' & ->). exact (Hb0 _ v' Hv'). }
  assert (Hnode : no_constants psi = true -> forall l, (forall y, y ∈ l <-> y ∈ operands psi) ->
    insert_operands (SG1 pp term_less (size psi)) u l b1 = Returns b' -> constant_free b').
  { intros Hc l Hl E'. apply insert_operands_constant_free in E'; auto.
    intros y Hy. apply SG1_constant_free, (operands_no_constants psi); [done|by apply Hl]. }
  destruct psi as [[]|nm ps|p|p q|p q|p q|vs p|vs p]; cbn [is_true is_false is_pvi is_and is_or] in E;
    try (injection E as <-; by apply H1); try (eapply (Hnode Hs); [|exact E]; intros y; by apply operands_order).
  apply bind_returns in E as ([w b2] & E2 & [= <-]). apply constant_free_insert_edge.
  by apply (insert_vertex_constant_free _ Hs b1 w b2 E2).
Qed.

(** ** The invariant *)

Abbreviation solved o alpha u := (u ∈ VSet.m_vertices (pick alpha (m_S o))).

Record otf_inv eqs o : Prop := {
  oi_represents : represents pp eqs (m_graph_builder o);
  oi_equations : Forall equation_ok eqs;
  oi_fit : exists m, sets_fit (view (m_graph_builder o)) m (m_S o);
  oi_regions : forall alpha, alpha < 2 ->
    always_region (m_graph_builder o) alpha (tau_at (m_tau o) alpha) (fun u => solved o alpha u);
  oi_constants : forall u v, vertices (m_graph_builder o) !! u = Some v ->
    (SG.v_decoration v = d_true -> solved o 0 u) /\ (SG.v_decoration v = d_false -> solved o 1 u);
  oi_constant_free : constant_free (m_graph_builder o)
}.

(** What is solved stays solved. *)
Definition otf_grows o o' : Prop := forall alpha X, alpha < 2 ->
  solved_in (m_graph_builder o) (pick alpha (m_S o)) X ->
  solved_in (m_graph_builder o') (pick alpha (m_S o')) X.

#[local] Instance otf_grows_preorder : PreOrder otf_grows.
Proof. split; [by intros o alpha X|]. intros o1 o2 o3 H1 H2 alpha X Ha HX. auto. Qed.

Lemma agrees_grows o o' eta :
  otf_grows o o' -> agrees (m_graph_builder o') (m_S o') eta -> agrees (m_graph_builder o) (m_S o) eta.
Proof.
  intros Hg Ha X. split; intros HX; apply Ha; [apply (Hg 0)|apply (Hg 1)]; (lia || done).
Qed.

Lemma solved_in_spec eqs o alpha X :
  otf_inv eqs o -> solved_in (m_graph_builder o) (pick alpha (m_S o)) X <->
  exists u, lookup_map (m_graph_builder o) X = Some u /\ solved o alpha u.
Proof.
  intros Ho. destruct (oi_fit _ _ Ho) as (m & _ & Hf). unfold solved_in.
  split; intros (u & Hu & HS); exists u; (split; [done|]); by apply (VSet.contains_elem m _ u (proj1 (Hf alpha))).
Qed.

(** ** The right-hand side *)

Lemma conjunction_operands (P : pbes_expression -> Prop) psi :
  conjunction_of P psi -> simplified psi = true ->
  (forall y, y ∈ rhs_operands psi -> P y) /\ is_or psi = false /\ is_false psi = false /\ supported psi = true.
Proof.
  assert (Hs : forall p : pbes_expression, conjunction_of P p -> supported p = true /\
    (no_constants p = true -> forall y, y ∈ split_and p -> P y)).
  { induction p as [[]|n p|p IHp|p IHp q IHq|p IHp q IHq|p IHp q IHq|v p IHp|v p IHp]; cbn [conjunction_of]; intros HP;
      try done; cbn [supported no_constants split_and].
    - split; [done|]. by intros _ y ->%list_elem_of_singleton.
    - destruct HP as [Hp Hq]. destruct (IHp Hp) as [-> H1], (IHq Hq) as [-> H2]. split; [done|].
      intros [Cp Cq]%andb_true_iff y [Hy|Hy]%elem_of_app; auto. }
  intros HP Hc. destruct (Hs psi HP) as [Hsup Hops]. split; [|by destruct psi as [[]| | | | | | |]].
  intros y Hy. unfold rhs_operands, operands in Hy.
  destruct psi as [[]|n p|p|p q|p q|p q|v p|v p]; cbn in HP; try done; cbn [is_pvi is_and is_or] in Hy;
    [by apply elem_of_nil in Hy|by apply list_elem_of_singleton in Hy as ->|by apply Hops].
Qed.

Lemma disjunction_operands (P : pbes_expression -> Prop) psi :
  disjunction_of P psi -> simplified psi = true ->
  (forall y, y ∈ rhs_operands psi -> P y) /\ is_and psi = false /\ is_true psi = false /\ supported psi = true.
Proof.
  assert (Hs : forall p : pbes_expression, disjunction_of P p -> supported p = true /\
    (no_constants p = true -> forall y, y ∈ split_or p -> P y)).
  { induction p as [[]|n p|p IHp|p IHp q IHq|p IHp q IHq|p IHp q IHq|v p IHp|v p IHp]; cbn [disjunction_of]; intros HP;
      try done; cbn [supported no_constants split_or].
    - split; [done|]. by intros _ y ->%list_elem_of_singleton.
    - destruct HP as [Hp Hq]. destruct (IHp Hp) as [-> H1], (IHq Hq) as [-> H2]. split; [done|].
      intros [Cp Cq]%andb_true_iff y [Hy|Hy]%elem_of_app; auto. }
  intros HP Hc. destruct (Hs psi HP) as [Hsup Hops]. split; [|by destruct psi as [[]| | | | | | |]].
  intros y Hy. unfold rhs_operands, operands in Hy.
  destruct psi as [[]|n p|p|p q|p q|p q|v p|v p]; cbn in HP; try done; cbn [is_pvi is_and is_or] in Hy;
    [by apply elem_of_nil in Hy|by apply list_elem_of_singleton in Hy as ->|by apply Hops].
Qed.

(** What [rewrite_psi] returns. *)
Record rewritten o psi psi' o' : Prop := {
  rw_supported : supported psi' = true;
  rw_simplified : simplified psi' = true;
  rw_occurrences : forall X, X ∈ occurrences psi' -> X ∈ occurrences psi;
  rw_eval : forall eta, agrees (m_graph_builder o) (m_S o) eta -> eval eta psi' = eval eta psi;
  rw_true : m_b o' = Some true -> conjunction_of (solved_in (m_graph_builder o) (fst (m_S o))) psi';
  rw_false : m_b o' = Some false -> disjunction_of (solved_in (m_graph_builder o) (snd (m_S o))) psi';
  rw_none : m_b o' = None -> no_constants psi' = true;
  rw_state : m_graph_builder o' = m_graph_builder o /\ m_S o' = m_S o /\ m_tau o' = m_tau o
}.

Lemma rewrite_psi_spec o psi :
  supported psi = true -> simplified psi = true ->
  exists psi' o', otf_rewrite_psi pp term_less psi o = Returns (psi', o') /\ rewritten o psi psi' o'.
Proof.
  intros Hsup Hs. unfold otf_rewrite_psi.
  assert (Hconst : is_true psi = true \/ is_false psi = true \/ no_constants psi = true).
  { unfold simplified in Hs. destruct (is_true psi), (is_false psi); auto. }
  destruct (Rplus_spec pp term_less (m_graph_builder o) (m_S o) psi Hsup) as (e & Ee & Hok).
  rewrite Ee. cbn [outcome_bind]. eexists _, _. split; [done|].
  assert (Hval := fun eta v Ha => element_value (m_graph_builder o) (m_S o) psi e eta v Hok Ha).
  destruct Hok as [F T N Sup O C].
  assert (HC : no_constants psi = true \/ (re_f e = psi /\ (re_g0 e = psi \/ re_b e = Some false) /\
    (re_g1 e = psi \/ re_b e = Some true) /\ re_b e <> None)).
  { destruct Hconst as [H|[H|H]]; [right|right|by left]; destruct psi as [[]| | | | | | |]; try done;
      injection Ee as <-; cbn; auto. }
  assert (Hns : forall z, no_constants z = true -> simplified z = true)
    by (intros z; unfold simplified; intros ->; by destruct (is_true z), (is_false z)).
  destruct (re_b e) as [[]|] eqn:Eb.
  - destruct (T eq_refl) as [T1 T2].
    assert (Hs' : simplified (re_g0 e) = true).
    { destruct HC as [H|(_ & [-> | ?] & _)]; [apply Hns; by apply (C H)|done|done]. }
    destruct (conjunction_operands _ _ T1 Hs') as (_ & _ & _ & Hsup').
    split; cbn [m_b m_graph_builder m_S m_tau]; auto; try done. intros eta Ha. rewrite (Hval eta true Ha eq_refl).
    apply (conjunction_of_eval (solved_in (m_graph_builder o) (fst (m_S o)))); [|done]. intros X. apply Ha.
  - destruct (N eq_refl) as [N1 N2].
    assert (Hs' : simplified (re_g1 e) = true).
    { destruct HC as [H|(_ & _ & [-> | ?] & _)]; [apply Hns; by apply (C H)|done|done]. }
    destruct (disjunction_operands _ _ N1 Hs') as (_ & _ & _ & Hsup').
    split; cbn [m_b m_graph_builder m_S m_tau]; auto; try done. intros eta Ha. rewrite (Hval eta false Ha eq_refl).
    apply (disjunction_of_eval (solved_in (m_graph_builder o) (snd (m_S o)))); [|done]. intros X. apply Ha.
  - assert (Hc : no_constants (re_f e) = true) by (destruct HC as [H|(_ & _ & _ & ?)]; [by apply (C H)|done]).
    split; cbn [m_b m_graph_builder m_S m_tau]; auto; done.
Qed.

(** ** The report *)

(** The sets after the report: [won alpha] says whether the vertex of the new
    equation is added to [S[alpha]]. *)
Record sets_after o (m u : nat) (won : nat -> Prop) (S' : vertex_set * vertex_set) : Prop := {
  sa_ok : forall alpha, VSet.ok m (pick alpha S');
  sa_elem : forall alpha i, i ∈ VSet.m_vertices (pick alpha S') <->
    solved o alpha i \/ (i = u /\ won (if alpha =? 0 then 0 else 1))
}.

Record winnable b' (W : nat -> Prop) (alpha : nat) psi : Prop := {
  wn_operands : forall y, y ∈ rhs_operands psi -> exists v, lookup_map b' y = Some v /\ W v;
  wn_zero : alpha = 0 -> is_or psi = false /\ is_false psi = false;
  wn_one : alpha = 1 -> is_and psi = false /\ is_true psi = false
}.

Lemma report_inv eqs o X psi k u b' m won S' :
  otf_inv eqs o -> is_pvi X = true -> X ∉ eqs.*1.*1 -> supported psi = true -> (k <= undefined_index)%N ->
  equation_added pp (m_graph_builder o) X psi k u b' -> represents pp (eqs ++ [(X, psi, k)]) b' ->
  constant_free b' -> length (vertices b') <= m -> sets_after o m u won S' ->
  (forall alpha, alpha < 2 -> won alpha -> winnable b' (fun i => solved o alpha i) alpha psi) ->
  (is_true psi = true -> won 0) -> (is_false psi = true -> won 1) ->
  otf_inv (eqs ++ [(X, psi, k)]) (with_solver_state b' S' (m_tau o) o).
Proof.
  intros Ho HX Hnew Hsup Hk HE Hr' Hcf Hm [HS1 HS2] Hwon Ht Hf. pose proof (oi_represents _ _ Ho) as Hr.
  destruct (ea_vertex _ _ _ _ _ _ _ HE) as (w & Hw & _ & Hdec & _).
  split; cbn [with_solver_state m_graph_builder m_S m_tau].
  - done.
  - apply Forall_app. split; [apply Ho|]. by apply Forall_singleton.
  - exists m. split; [exact Hm|]. intros alpha. split; [done|]. intros i [Hi|[-> _]]%HS2.
    + destruct (oi_fit _ _ Ho) as (m0 & _ & Hfit). destruct (Hfit alpha) as [_ Hin]. apply Hin in Hi.
      destruct (lookup_lt_is_Some_2 _ _ Hi) as [v Hv]. destruct (decide (i = u)) as [->|Hne].
      * by apply lookup_lt_Some in Hw.
      * destruct (ea_old _ _ _ _ _ _ _ HE i v Hv Hne) as (v' & Hv' & _). by apply lookup_lt_Some in Hv'.
    + by apply lookup_lt_Some in Hw.
  - intros alpha Ha dead Hd. pose proof (oi_regions _ _ Ho alpha Ha) as Hreg.
    assert (Ea : (if alpha =? 0 then 0 else 1) = alpha) by (destruct alpha as [|[|]]; [done|done|lia]).
    destruct (decide (u ∈ VSet.m_vertices (pick alpha S'))) as [Hu|Hu].
    + apply HS2 in Hu as [Hu|[_ Hwa]]; [by destruct (added_not_solved pp eqs _ b' X psi k u Hr HX Hnew HE alpha _ _ Ha Hreg)|].
      rewrite Ea in Hwa. destruct (Hwon alpha Ha Hwa) as [W1 W2 W3].
      apply (region_set_ext _ _ _ _ _ _ _ (fun i => solved o alpha i \/ i = u)).
      { intros i. rewrite HS2, Ea. tauto. }
      by apply (added_solved pp eqs _ b' X psi k u Hr HX Hnew HE alpha).
    + apply (region_set_ext _ _ _ _ _ _ _ (fun i => solved o alpha i)).
      { intros i. rewrite HS2, Ea. split; [auto|]. intros [|[-> Hwa]]; [done|]. destruct Hu. apply HS2. rewrite Ea. auto. }
      by apply (added_region pp eqs _ b' X psi k u Hr HX Hnew HE alpha).
  - intros i v Hv. rewrite (HS2 0 i), (HS2 1 i). cbn [Nat.eqb]. destruct (decide (i = u)) as [->|Hne].
    + assert (v = w) as -> by congruence. destruct psi as [[]|n p|p|p q|p q|p q|y p|y p]; cbn in Hdec, Hsup; try done;
        injection Hdec as <-; split; try done; auto.
    + destruct (decide (i < length (vertices (m_graph_builder o)))) as [Hlt|Hge].
      * destruct (lookup_lt_is_Some_2 _ _ Hlt) as [v0 Hv0].
        destruct (ea_old _ _ _ _ _ _ _ HE i v0 Hv0 Hne) as (v' & Hv' & (_ & Hd & _) & _).
        assert (v' = v) as -> by congruence. rewrite Hd. destruct (oi_constants _ _ Ho i v0 Hv0). auto.
      * pose proof (Hcf i v Hv) as Hc. destruct (is_pvi (SG.formula v)) eqn:Ep.
        { destruct (ea_new _ _ _ _ _ _ _ HE i v ltac:(lia) Hne Hv) as (_ & _ & Hn). destruct (Hn Ep) as [-> _]. done. }
        destruct (bo_inner pp b' (ea_ok _ _ _ _ _ _ _ HE) i v Hv Ep) as [Hd _].
        destruct (SG.formula v) as [[]|n p|p|p q|p q|p q|y p|y p]; cbn in Hd, Hc; try done; by injection Hd as <-.
  - done.
Qed.

Lemma resized_sets o m n :
  sets_fit (view (m_graph_builder o)) m (m_S o) ->
  n <= resized m n /\ sets_after o (resized m n) 0 (fun _ => False)
    (VSet.resize (fst (m_S o)) n, VSet.resize (snd (m_S o)) n).
Proof.
  intros [_ Hf]. destruct (resize_ok m n (fst (m_S o)) (proj1 (Hf 0))) as (Hn & H0 & E0).
  destruct (resize_ok m n (snd (m_S o)) (proj1 (Hf 1))) as (_ & H1 & E1). split; [done|]. split.
  - intros alpha. by apply pick_both.
  - intros [|alpha] i; cbn [pick Nat.eqb fst snd]; [rewrite E0|rewrite E1]; tauto.
Qed.

Lemma sets_after_insert o m u alpha S' :
  alpha < 2 -> u < m -> sets_after o m u (fun _ => False) S' ->
  sets_after o m u (fun beta => beta = alpha) (put alpha (VSet.insert (pick alpha S') u) S').
Proof.
  intros Ha Hu [H1 H2]. assert (alpha = 0 \/ alpha = 1) as [->| ->] by lia; split; intros [|beta];
    cbn [put pick Nat.eqb fst snd]; try (apply (H1 0) || apply (H1 1));
    try (apply VSet.insert_ok; [apply (H1 0) || apply (H1 1)|done]); intros i;
    try (rewrite (VSet.insert_elem m) by (apply (H1 0) || apply (H1 1)));
    (rewrite (H2 0 i : i ∈ VSet.m_vertices (fst S') <-> _) || rewrite (H2 1 i : i ∈ VSet.m_vertices (snd S') <-> _));
    cbn; intuition done.
Qed.

Lemma sets_after_vertex o m u u' S' :
  sets_after o m u (fun _ => False) S' -> sets_after o m u' (fun _ => False) S'.
Proof. intros [H1 H2]. split; [done|]. intros alpha i. rewrite H2. tauto. Qed.

Lemma report_spec eqs o X psi k :
  otf_inv eqs o -> is_pvi X = true -> X ∉ eqs.*1.*1 -> supported psi = true -> simplified psi = true ->
  (k <= undefined_index)%N ->
  (m_b o = Some true -> conjunction_of (solved_in (m_graph_builder o) (fst (m_S o))) psi) ->
  (m_b o = Some false -> disjunction_of (solved_in (m_graph_builder o) (snd (m_S o))) psi) ->
  (m_b o = None -> no_constants psi = true) ->
  exists o', otf_on_report_equation pp term_less X psi k o = Returns o' /\
    otf_inv (eqs ++ [(X, psi, k)]) o' /\ otf_grows o o' /\
    on_report_equation pp term_less X psi k (m_graph_builder o) = Returns (m_graph_builder o').
Proof.
  intros Ho HX Hnew Hsup Hs Hk Ht Hf Hn. pose proof (oi_represents _ _ Ho) as Hr.
  destruct (report_added pp term_less eqs (m_graph_builder o) X psi k Hr HX Hsup Hnew) as (u & b' & E & Hr' & HE).
  pose proof (report_constant_free X psi k _ b' HX Hs E (oi_constant_free _ _ Ho)) as Hcf.
  pose proof (fun y v => equation_added_lookup pp (m_graph_builder o) X psi k u b' y v (rp_ok _ _ _ Hr) HE) as Hlk.
  pose proof (ea_lookup _ _ _ _ _ _ _ HE) as Hl. pose proof (lookup_map_lt pp b' X u (rp_ok _ _ _ Hr') Hl) as Hu.
  unfold otf_on_report_equation. rewrite E. cbn [outcome_bind]. change (find_vertex b' X) with (lookup_map b' X). rewrite Hl.
  destruct (oi_fit _ _ Ho) as (m & Hfit). destruct (resized_sets o m (builder_extent b') Hfit) as [Hm Hsa].
  set (S1 := (VSet.resize (fst (m_S o)) _, VSet.resize (snd (m_S o)) _)) in *.
  apply (sets_after_vertex o _ 0 u) in Hsa. change (length (vertices b') <= resized m (builder_extent b')) in Hm.
  assert (Hgrow : forall won S', sets_after o (resized m (builder_extent b')) u won S' ->
    otf_grows o (with_solver_state b' S' (m_tau o) o)).
  { intros won S' [H1 H2] alpha Y Ha (v & Hv & Hc). exists v. split; [by apply Hlk|]. cbn.
    apply (VSet.contains_elem _ _ v (H1 alpha)), H2. left.
    destruct Hfit as [_ Hfit]. by apply (VSet.contains_elem m _ v (proj1 (Hfit alpha))). }
  assert (Hdone : forall won S', sets_after o (resized m (builder_extent b')) u won S' ->
    (forall alpha, alpha < 2 -> won alpha -> winnable b' (fun i => solved o alpha i) alpha psi) ->
    (is_true psi = true -> won 0) -> (is_false psi = true -> won 1) ->
    exists o', Returns (with_solver_state b' S' (m_tau o) o) = Returns o' /\
      otf_inv (eqs ++ [(X, psi, k)]) o' /\ otf_grows o o' /\ Returns b' = Returns (m_graph_builder o')).
  { intros won S' HS' H1 H2 H3. eexists. split; [done|]. split; [|split; [by apply (Hgrow won)|done]].
    by apply (report_inv eqs o X psi k u b' (resized m (builder_extent b')) won). }
  assert (Hsolved : forall alpha y, solved_in (m_graph_builder o) (pick alpha (m_S o)) y ->
    exists v, lookup_map b' y = Some v /\ solved o alpha v).
  { intros alpha y Hy. apply (solved_in_spec eqs o alpha y Ho) in Hy as (v & Hv & HSv). exists v. auto. }
  destruct (m_b o) as [[]|].
  - destruct (conjunction_operands _ _ (Ht eq_refl) Hs) as (Hops & Ho1 & Ho2 & _).
    apply (Hdone (fun beta => beta = 0)); [|intros alpha _ ->; split; auto; lia|done|congruence].
    by apply (sets_after_insert o _ u 0); [lia|lia|].
  - destruct (disjunction_operands _ _ (Hf eq_refl) Hs) as (Hops & Ho1 & Ho2 & _).
    apply (Hdone (fun beta => beta = 1)); [|intros alpha _ ->; split; auto; lia|congruence|done].
    by apply (sets_after_insert o _ u 1); [lia|lia|].
  - specialize (Hn eq_refl). apply (Hdone (fun _ => False)); [done|done| |]; by destruct psi as [[]| | | | | | |].
Qed.

(** [rewrite_psi] followed by the report of its result. *)
Lemma rewrite_report_spec eqs o X psi k :
  otf_inv eqs o -> is_pvi X = true -> X ∉ eqs.*1.*1 -> supported psi = true -> simplified psi = true ->
  (k <= undefined_index)%N ->
  exists psi' o1 o2, otf_rewrite_psi pp term_less psi o = Returns (psi', o1) /\
    otf_on_report_equation pp term_less X psi' k o1 = Returns o2 /\
    otf_inv (eqs ++ [(X, psi', k)]) o2 /\ otf_grows o o2 /\ rewritten o psi psi' o1 /\
    on_report_equation pp term_less X psi' k (m_graph_builder o) = Returns (m_graph_builder o2).
Proof.
  intros Ho HX Hnew Hsup Hs Hk. destruct (rewrite_psi_spec o psi Hsup Hs) as (psi' & o1 & E1 & Hrw).
  destruct Hrw as [R1 R2 R3 R4 R5 R6 R7 (Eb & ES & Et)] eqn:Er.
  assert (Ho1 : otf_inv eqs o1).
  { destruct o, o1. cbn in Eb, ES, Et. subst. destruct Ho. by split. }
  destruct (report_spec eqs o1 X psi' k) as (o2 & E2 & Ho2 & Hg & E3); auto; [by rewrite Eb, ES..|].
  exists psi', o1, o2. split; [done|]. split; [done|]. split; [done|]. split; [|by rewrite Eb in E3].
  intros alpha Y. specialize (Hg alpha Y). by rewrite Eb, ES in Hg.
Qed.

End Report.
