(* ===== verification/OnTheFlySolve.v ===== *)
(** * Solving between the reports

    The branches of [on_discovered_elements] keep the invariant: propagation of
    the solved sets by attractors, the original fatal attractors and the
    recursive solver.  (What the other partial solvers guarantee is in
    [FatalTheorems.v] and [FindLoopsTheorems.v].)  The guards that decide when to
    propagate return as long as fewer than 2^63 vertices are solved. *)

From Stdlib Require Import Lia NArith.
From stdpp Require Import base strings numbers sets list sorting.
From S2P Require Import Prelude VertexSets StructureGraph Attractors ParityGame Solver SolverCheck Arena FatalAttractors GraphGame FatalAttractorsCorrect FatalTheorems FindLoops FindLoopsTheorems PartialSolve Observations.
From S2P Require Import Terms DataExpressions PbesExpressions GraphBuilder GraphBuilderCorrect GraphBuilderTheorems Instantiation InstantiationCorrect OnTheFly RplusCorrect OnTheFlyGraph OnTheFlyReport.

Local Open Scope mcrl2_scope.

(** ** Guards *)

(** The doubling of a power of two reaches every number below 2^63. *)
Lemma guard_double_spec fuel e count :
  (count < 2 ^ 63)%N -> (e <= 63)%N -> N.to_nat (63 - e) <= fuel ->
  exists e', guard_double fuel (2 ^ e) count = Some (2 ^ e')%N /\ (e <= e' <= 63)%N /\ (count < 2 ^ e')%N.
Proof.
  intros Hc. revert e. induction fuel as [|fuel IH]; intros e He Hf; cbn [guard_double];
    destruct (N.leb_spec (2 ^ e) count) as [Hle|Hlt]; try (exists e; repeat split; auto; lia).
  - assert (e = 63)%N by lia. subst. lia.
  - assert (Hlt : (e < 63)%N).
    { destruct (N.eq_dec e 63%N) as [->|]; lia. }
    assert (E2 : ((2 ^ e * 2) mod 2 ^ 64 = 2 ^ (e + 1))%N).
    { rewrite N.pow_add_r, N.pow_1_r. apply N.mod_small. change (2 ^ 64)%N with (2 ^ 63 * 2)%N.
      apply N.mul_lt_mono_pos_r; [lia|]. apply N.pow_lt_mono_r; lia. }
    rewrite E2. destruct (IH (e + 1)%N) as (e' & E & H1 & H2); [lia|lia|]. exists e'. split; [done|]. lia.
Qed.

(** The guard fires when the count reaches [m_count], which becomes the next
    power of two above the count. *)
Lemma computation_guard_spec e count :
  (count < 2 ^ 63)%N -> (e <= 63)%N ->
  exists e', computation_guard (2 ^ e) count = Some ((2 ^ e <=? count)%N, 2 ^ e')%N /\
    (e <= e' <= 63)%N /\ (count < 2 ^ e')%N.
Proof.
  intros Hc He. unfold computation_guard. destruct (guard_double_spec 64 e count Hc He) as (e' & -> & H); [lia|].
  by exists e'.
Qed.

(** ** Solvers on simple graphs *)

Section Solvers.
Context {pbes_expression : Type}.
Abbreviation simple_structure_graph := (SSG.simple_structure_graph pbes_expression).
Implicit Types (g : simple_structure_graph) (S : vertex_set * vertex_set) (tau : strategies).

Definition simple_formulas g : list pbes_expression := SG.formula <$> SSG.m_vertices g.

Lemma simple_formulas_set_strategy u v g : simple_formulas (sg_set_strategy u v g) = simple_formulas g.
Proof.
  cbn. unfold simple_formulas, SSG.set_strategy. cbn. apply list_eq. intros i. rewrite !list_lookup_fmap.
  rewrite list_lookup_alter. case_decide; [subst|done]. by destruct (SSG.m_vertices g !! i).
Qed.

(** A partial solver returns and keeps winning regions. *)
Record solved_well g m S tau (st : fatal_state simple_structure_graph) : Prop := {
  sw_same : same_graph g (fs_graph st);
  sw_formulas : simple_formulas (fs_graph st) = simple_formulas g;
  sw_fit : sets_fit g m (fs_S st);
  sw_grows : forall alpha u, alpha < 2 -> u ∈ VSet.m_vertices (pick alpha S) -> u ∈ VSet.m_vertices (pick alpha (fs_S st));
  sw_regions : forall dead, solved_regions g dead S tau -> solved_regions g dead (fs_S st) (fs_tau st)
}.

Definition sound_solver (f : fatal_state simple_structure_graph -> option (fatal_state simple_structure_graph)) : Prop :=
  forall g m S tau steps, partial_graph g -> sets_fit g m S ->
    exists st, f (mk_fatal g S tau steps) = Some st /\ solved_well g m S tau st.

Lemma attract_if_sound run alpha : alpha < 2 -> sound_solver (attract_if run alpha).
Proof.
  intros Ha g m S tau steps Hg HS. pose proof (sets_fit_shape g m S tau steps Hg HS) as [_ Hok Hin].
  destruct HS as [Hm HS]. unfold attract_if. destruct run; [|eexists; split; [done|]; by split]. cbn [fs_graph fs_S fs_tau fs_steps].
  destruct (attract_spec g (fun _ => 0) m (pg_ok g Hg) Hm g (pick alpha S) alpha tau Ha)
    as (A & g' & tau' & E & Hs & HA & HAin & Hsub & _ & Ht & _); [done|apply Hok|apply Hin|].
  pose proof (attr_default_with_tau_obs simple_formulas simple_formulas_set_strategy _ _ _ _ _ _ _ E) as Ef.
  rewrite E. eexists. split; [done|].
  assert (Hp : forall beta, beta < 2 -> pick beta (put alpha A S) = if decide (alpha = beta) then A else pick beta S).
  { intros beta Hb. assert (alpha = 0 \/ alpha = 1) as [->| ->] by lia; assert (beta = 0 \/ beta = 1) as [->| ->] by lia; done. }
  split; cbn [fs_graph fs_S fs_tau].
  - done.
  - done.
  - split; [done|]. intros beta. assert (HP : VSet.ok m A /\ forall u, u ∈ VSet.m_vertices A -> u < sg_extent g).
    { split; [done|]. intros u Hu. by apply HAin. }
    unfold put. destruct (alpha =? 0); apply (pick_both (fun V => VSet.ok m V /\ forall u, u ∈ VSet.m_vertices V -> u < sg_extent g));
      cbn; auto; [apply (HS 1)|apply (HS 0)].
  - intros beta u Hb. rewrite Hp by done. case_decide; [subst; apply Hsub|done].
  - intros dead HR beta Hb. rewrite Hp by done. destruct (attract_spec g dead m (pg_ok g Hg) Hm g (pick alpha S) alpha tau Ha)
      as (A1 & g1 & tau1 & E1 & _ & _ & _ & _ & _ & Ht1 & HR1); [done|apply Hok|apply Hin|].
    assert (A1 = A /\ tau1 = tau') as [-> ->] by (split; congruence).
    case_decide as Eb; [subst; by apply HR1, HR|].
    apply (region_ext _ _ _ _ _ _ (tau_at tau beta)); [|by apply HR]. intros u _. symmetry. apply Ht1; auto.
Qed.

Lemma fatal_original_sound : sound_solver fatal_attractors_original.
Proof.
  intros g m S tau steps Hg HS. pose proof (sets_fit_shape g m S tau steps Hg HS) as Hsh.
  destruct (fatal_attractors_original_spec g (fun _ => 0) m) with (S := S) (tau := tau)
    (steps := steps) as (st & E & HK & _); try apply Hg; [apply HS|done|].
  exists st. split; [done|]. destruct (keeps_extends g m S tau steps st HS HK) as [H1 H2 H3 _]. split; auto.
  - by apply (fatal_attractors_original_obs simple_formulas simple_formulas_set_strategy) in E.
  - intros alpha u Ha Hu. by apply H3.
  - intros dead HR. destruct (fatal_attractors_original_spec g dead m) with (S := S) (tau := tau)
      (steps := steps) as (st' & E' & _ & HW); try apply Hg; [apply HS|done|].
    assert (st' = st) as -> by congruence. exact (HW HR).
Qed.

End Solvers.

(** ** The builder after a call *)

Section Builder.
Context {variable symbol : Type} `{EqDecision variable} `{EqDecision symbol}.
Abbreviation pbes_expression := (@pbes_expression variable symbol).
Abbreviation builder := (@structure_graph_builder variable symbol).
Abbreviation is_pvi := is_propositional_variable_instantiation.
Abbreviation equation := (pbes_expression * pbes_expression * N)%type.
Abbreviation otf := (@otf_state variable symbol).
Abbreviation simple_structure_graph := (SSG.simple_structure_graph pbes_expression).
Context (pp : pbes_expression -> string) (term_less : pbes_expression -> pbes_expression -> bool).
Implicit Types (b : builder) (eqs : list equation) (o : otf).
Abbreviation solved o alpha u := (u ∈ VSet.m_vertices (pick alpha (m_S o))).

(** Nothing but strategies has changed. *)
Record same_builder b b' : Prop := {
  sb_map : m_vertex_map b' = m_vertex_map b;
  sb_initial : m_initial_state b' = m_initial_state b;
  sb_formulas : SG.formula <$> vertices b' = SG.formula <$> vertices b;
  sb_graph : same_graph (view b) (view b')
}.

Lemma same_builder_vertex b b' u v :
  same_builder b b' -> vertices b' !! u = Some v ->
  exists w, vertices b !! u = Some w /\ SG.formula v = SG.formula w /\
    SG.v_decoration v = SG.v_decoration w /\ SG.v_rank v = SG.v_rank w /\ SG.v_successors v = SG.v_successors w.
Proof.
  intros [Hm Hi Hf Hs] Hv. destruct (vertices b !! u) as [w|] eqn:Ew.
  - exists w. split; [done|]. pose proof (f_equal (fun l => l !! u) Hf) as Hu. cbn in Hu.
    rewrite !list_lookup_fmap, Hv, Ew in Hu. injection Hu as Hu. split; [done|].
    pose proof (sgr_decoration _ _ Hs u) as H1. pose proof (sgr_rank _ _ Hs u) as H2.
    pose proof (sgr_successors _ _ Hs u) as H3.
    rewrite (view_decoration b' u v Hv), (view_decoration b u w Ew) in H1.
    rewrite (view_rank b' u v Hv), (view_rank b u w Ew) in H2.
    change (succs (vertices b') u = succs (vertices b) u) in H3.
    rewrite (succs_lookup _ _ _ Hv), (succs_lookup _ _ _ Ew) in H3. done.
  - exfalso. pose proof (f_equal length Hf) as Hl. rewrite !length_fmap in Hl.
    apply lookup_lt_Some in Hv. apply lookup_ge_None in Ew. lia.
Qed.

Lemma same_builder_sym b b' : same_builder b b' -> same_builder b' b.
Proof.
  intros [Hm Hi Hf [G1 G2 G3 G4 G5 G6]]. split; [done|done|done|]. by split.
Qed.

Lemma same_builder_leads b b' u l : same_builder b b' -> leads_to b u l -> leads_to b' u l.
Proof.
  intros [Hm _ _ Hs] [L1 L2]. unfold leads_to, lookup_map in *. rewrite Hm. split; [done|].
  intros v. rewrite <- L2. pose proof (sgr_successors _ _ Hs u) as E.
  change (succs (vertices b') u = succs (vertices b) u) in E. by rewrite E.
Qed.

Lemma same_builder_represents eqs b b' : same_builder b b' -> represents pp eqs b -> represents pp eqs b'.
Proof.
  intros Hsb [Hb Hc Heq Hun]. pose proof (same_builder_vertex b b') as Hv.
  pose proof (same_builder_vertex b' b) as Hv'. pose proof (same_builder_sym _ _ Hsb) as Hsb'.
  destruct Hsb as [Hm Hi Hf Hs]. assert (Hsb : same_builder b b') by done.
  assert (Hlen : length (vertices b') = length (vertices b)).
  { pose proof (f_equal length Hf) as Hl. by rewrite !length_fmap in Hl. }
  assert (Hsucc : forall u, succs (vertices b') u = succs (vertices b) u) by apply (sgr_successors _ _ Hs).
  assert (Hpred : forall u, preds (vertices b') u = preds (vertices b) u) by apply (sgr_predecessors _ _ Hs).
  split; [split| | |].
  - intros u v. rewrite Hsucc, Hlen. apply (bo_edges pp b Hb).
  - intros u v. rewrite Hsucc, Hpred. apply (bo_matched pp b Hb).
  - intros x i. unfold lookup_map. rewrite Hm. rewrite (bo_map pp b Hb x i : map_find _ x = Some i <-> _). split.
    + intros (w & Hw & <-). destruct (Hv' i w Hsb' Hw) as (w' & Hw' & E & _). by exists w'.
    + intros (w & Hw & <-). destruct (Hv i w Hsb Hw) as (w' & Hw' & E & _). by exists w'.
  - intros u v Hu Hp. destruct (Hv u v Hsb Hu) as (w & Hw & E1 & E2 & E3 & _). rewrite E1, E2, E3 in *.
    by apply (bo_inner pp b Hb u).
  - intros n u v Hu Hp Hn. destruct (Hv u v Hsb Hu) as (w & Hw & E1 & _). rewrite E1 in *.
    apply (same_builder_leads b); [done|]. by apply (Hc n u).
  - intros x psi k Hin. destruct (Heq x psi k Hin) as (u & w & Hl & Hw & Hd & Hk & HL).
    destruct (Hv' u w Hsb' Hw) as (w' & Hw' & _ & E2 & E3 & _). exists u, w'.
    split; [unfold lookup_map; by rewrite Hm|]. split; [done|]. split; [congruence|]. split; [congruence|].
    by apply (same_builder_leads b).
  - intros u v Hu Hp Hx. destruct (Hv u v Hsb Hu) as (w & Hw & E1 & E2 & E3 & E4). rewrite E1, E2, E3, E4 in *.
    by apply (Hun u).
Qed.

Lemma solver_inv eqs o b' m S' tau' :
  otf_inv pp eqs o -> same_builder (m_graph_builder o) b' -> sets_fit (view (m_graph_builder o)) m S' ->
  (forall alpha u, alpha < 2 -> solved o alpha u -> u ∈ VSet.m_vertices (pick alpha S')) ->
  (forall alpha, alpha < 2 -> always_region (m_graph_builder o) alpha (tau_at tau' alpha)
     (fun u => u ∈ VSet.m_vertices (pick alpha S'))) ->
  otf_inv pp eqs (with_solver_state b' S' tau' o) /\ otf_grows o (with_solver_state b' S' tau' o).
Proof.
  intros Ho Hsb Hfit Hsub Hreg. pose proof (fun u v => same_builder_vertex (m_graph_builder o) b' u v Hsb) as Hv.
  pose proof (sb_graph _ _ Hsb) as Hs. split; [split; cbn [with_solver_state m_graph_builder m_S m_tau]|].
  - apply (same_builder_represents eqs (m_graph_builder o)); [done|apply Ho].
  - apply Ho.
  - exists m. destruct Hfit as [Hm Hf]. unfold sets_fit. by rewrite (sgr_extent _ _ Hs).
  - intros alpha Ha dead Hd. apply (same_graph_region (view (m_graph_builder o))); [done|]. apply Hreg; [done|].
    intros u. rewrite <- (sgr_decoration _ _ Hs). apply Hd.
  - intros u v Hu. destruct (Hv u v Hu) as (w & Hw & _ & -> & _).
    destruct (oi_constants _ _ _ Ho u w Hw) as [H0 H1]. split; intros Hd; [apply (Hsub 0)|apply (Hsub 1)]; auto; lia.
  - intros u v Hu. destruct (Hv u v Hu) as (w & Hw & -> & _). by apply (oi_constant_free _ _ _ Ho u).
  - intros alpha X Ha HX. apply (solved_in_spec pp eqs o alpha X Ho) in HX as (u & Hu & HSu).
    exists u. cbn. split; [unfold find_vertex; by rewrite (sb_map _ _ Hsb)|].
    destruct Hfit as [_ Hf]. apply (VSet.contains_elem m _ u (proj1 (Hf alpha))). by apply Hsub.
Qed.

(** A partial solver on the simple graph. *)
Lemma on_simple_graph_spec f eqs o :
  sound_solver f -> otf_inv pp eqs o ->
  exists o' steps, on_simple_graph f o = Returns (o', steps) /\ otf_inv pp eqs o' /\ otf_grows o o' /\
    same_builder (m_graph_builder o) (m_graph_builder o') /\ m_S_guard o' = m_S_guard o.
Proof.
  intros Hf Ho. destruct (oi_fit _ _ _ Ho) as (m & Hfit).
  pose proof (represents_partial_graph pp eqs _ (oi_represents _ _ _ Ho) (oi_equations _ _ _ Ho)) as Hpg.
  unfold on_simple_graph. fold (view (m_graph_builder o)).
  destruct (Hf (view (m_graph_builder o)) m (m_S o) (m_tau o) 0 Hpg Hfit) as (st & -> & Hw).
  assert (Hsb : same_builder (m_graph_builder o) (with_vertices (m_graph_builder o) (SSG.m_vertices (fs_graph st)))).
  { split; [done|done|apply Hw|]. pose proof (sw_same _ _ _ _ _ Hw) as Hs. by destruct (fs_graph st). }
  destruct (solver_inv eqs o _ m (fs_S st) (fs_tau st) Ho Hsb) as [Hi Hg]; [apply Hw|apply Hw| |].
  - intros alpha Ha dead Hd. apply (sw_regions _ _ _ _ _ Hw dead); [|done]. intros beta Hb. by apply (oi_regions _ _ _ Ho).
  - eexists _, _. split; [done|]. done.
Qed.

(** *** The recursive solver *)

Definition nothing_excluded (G : SG.structure_graph pbes_expression) : Prop := forall u, SG.contains G u = true.

Lemma nothing_excluded_successors G u : nothing_excluded G -> SG.successors G u = SG.all_successors G u.
Proof.
  intros Hn. unfold SG.successors. induction (SG.all_successors G u) as [|v l IH]; [done|].
  by rewrite filter_cons_True, IH by apply Hn.
Qed.

Lemma nothing_excluded_predecessors G u : nothing_excluded G -> SG.predecessors G u = SG.all_predecessors G u.
Proof.
  intros Hn. unfold SG.predecessors. induction (SG.all_predecessors G u) as [|v l IH]; [done|].
  by rewrite filter_cons_True, IH by apply Hn.
Qed.

Lemma nothing_excluded_same_vertex b u :
  nothing_excluded (m_graph b) -> same_vertex (view b) (m_graph b) u /\ same_vertex (m_graph b) (view b) u.
Proof.
  intros Hn. split; split; try done.
  - intros [Hu _]. split; [exact Hu|apply Hn].
  - intros v. change (v ∈ SG.successors (m_graph b) u <-> v ∈ SG.all_successors (m_graph b) u).
    by rewrite nothing_excluded_successors.
  - intros [Hu _]. by apply view_in.
  - intros v. change (v ∈ SG.all_successors (m_graph b) u <-> v ∈ SG.successors (m_graph b) u).
    by rewrite nothing_excluded_successors.
Qed.

Lemma represents_valid eqs b :
  represents pp eqs b -> Forall equation_ok eqs -> SG.m_exclude (m_graph b) = bitset_empty (builder_extent b) ->
  valid (m_graph b) /\ nothing_excluded (m_graph b).
Proof.
  intros Hr Hall He. split.
  - split; [split| |].
    + rewrite He. apply length_replicate.
    + apply (bo_edges pp b (rp_ok _ _ _ Hr)).
    + apply (bo_matched pp b (rp_ok _ _ _ Hr)).
    + intros u v w Hd Hc Hv Hw. exact (represents_unowned pp eqs b u v w Hr Hall Hd Hc Hv Hw).
    + intros u. by apply (represents_rank pp eqs b).
  - intros u. unfold SG.contains. rewrite He. unfold bit. destruct (bitset_empty _ !! u) as [[]|] eqn:E; [|done..].
    apply lookup_replicate in E as [? _]. done.
Qed.

Lemma same_graph_view G G' : nothing_excluded G -> same_graph G G' ->
  same_graph (SSG.mk_simple (SG.m_vertices G)) (SSG.mk_simple (SG.m_vertices G')).
Proof.
  intros Hn [H1 H2 H3 H4 H5 H6]. assert (Hn' : nothing_excluded G').
  { intros u. specialize (H2 u). cbn in H2. rewrite H2. apply Hn. }
  split; try done; intros u; [specialize (H5 u)|specialize (H6 u)]; cbn in H5, H6;
    rewrite ?nothing_excluded_predecessors, ?nothing_excluded_successors in *; done.
Qed.

Lemma on_structure_graph_spec eqs o todo x0 :
  otf_inv pp eqs o -> m_initial_state (m_graph_builder o) = Some x0 ->
  is_Some (lookup_map (m_graph_builder o) x0) ->
  exists o', on_structure_graph todo o = Returns o' /\ otf_inv pp eqs o' /\ otf_grows o o' /\
    same_builder (m_graph_builder o) (m_graph_builder o') /\ m_S_guard o' = m_S_guard o.
Proof.
  intros Ho Hx [i Hi]. unfold on_structure_graph, finalize, builder_initial_vertex. rewrite Hx.
  unfold lookup_map in Hi. rewrite Hi.
  set (b := mk_builder (SG.mk_graph (vertices (m_graph_builder o)) i (bitset_empty (builder_extent (m_graph_builder o))))
    (m_vertex_map (m_graph_builder o)) (Some x0)).
  assert (Hsb : same_builder (m_graph_builder o) b) by (split; [done|done|done|by split]).
  pose proof (same_builder_represents eqs _ b Hsb (oi_represents _ _ _ Ho)) as Hr.
  destruct (represents_valid eqs b Hr (oi_equations _ _ _ Ho) eq_refl) as [HV Hn].
  destruct (oi_fit _ _ _ Ho) as (m & Hm & Hf).
  assert (Hconv : forall dead alpha sigma W, graph_region (view (m_graph_builder o)) dead alpha sigma W <->
    graph_region (m_graph b) dead alpha sigma W).
  { intros dead alpha sigma W. pose proof (view_ok pp b (rp_ok _ _ _ Hr)) as Hok.
    pose proof (SG.structure_graph_ok_graph_ok _ (valid_ok _ HV)) as Hok'.
    split; apply region_same_vertices; auto; intros u _; by apply (nothing_excluded_same_vertex b u). }
  destruct (partial_solve_spec (find_vertex b) (m_graph b) m (m_S o) (m_tau o) 0 todo HV (fun u _ => Hn u)) as
    (st & E & Hs & HS & HR).
  { by split. }
  { intros u (y & _ & Hy). by apply (lookup_map_lt pp b y u (rp_ok _ _ _ Hr)). }
  { intros u Hu. destruct (lookup_lt_is_Some_2 _ _ Hu) as [v Hv].
    destruct (oi_constants _ _ _ Ho u v Hv) as [H0 H1]. unfold SG.decoration, SG.find_vertex. rewrite Hv. done. }
  assert (Hsb' : same_builder (m_graph_builder o) (mk_builder (fs_graph st) (m_vertex_map b) (m_initial_state b))).
  { split; [done|done| |by apply (same_graph_view (m_graph b))]. unfold vertices at 1. cbn [m_graph].
    apply partial_solve_formulas in E. exact E. }
  rewrite E. destruct (solver_inv eqs o _ (SG.extent (m_graph b)) (fs_S st) (fs_tau st) Ho Hsb') as [Hi' Hg'].
  - split; [done|]. intros alpha. assert (HP : forall V, VSet.ok (SG.extent (m_graph b)) V -> VSet.ok (SG.extent (m_graph b)) V /\
      forall u, u ∈ VSet.m_vertices V -> u < sg_extent (view (m_graph_builder o))).
    { intros V HVok. split; [done|]. intros u Hu. by apply (VSet.ok_lt _ V). }
    apply pick_both; apply HP; [apply (HS 0)|apply (HS 1)]; lia.
  - intros alpha u Ha Hu. apply (HS alpha Ha). by constructor.
  - intros alpha Ha dead Hd. apply Hconv. apply (HR dead); [|done]. intros beta Hb. apply Hconv.
    by apply (oi_regions _ _ _ Ho).
  - eexists. split; [done|]. done.
Qed.

(** *** Guarded propagation *)

Definition guards_ok o : Prop :=
  exists e0 e1, m_S_guard o = (2 ^ e0, 2 ^ e1)%N /\ (e0 <= 63)%N /\ (e1 <= 63)%N.

Definition small b : Prop := (N.of_nat (length (vertices b)) < 2 ^ 63)%N.

Lemma same_builder_length b b' : same_builder b b' -> length (vertices b') = length (vertices b).
Proof. intros Hsb. pose proof (f_equal length (sb_formulas _ _ Hsb)) as Hl. by rewrite !length_fmap in Hl. Qed.

Lemma guarded_attractor_spec eqs o alpha :
  alpha < 2 -> otf_inv pp eqs o -> guards_ok o -> small (m_graph_builder o) ->
  exists o', guarded_attractor alpha o = Returns o' /\ otf_inv pp eqs o' /\ otf_grows o o' /\
    same_builder (m_graph_builder o) (m_graph_builder o') /\ guards_ok o'.
Proof.
  intros Ha Ho (e0 & e1 & Eg & He0 & He1) Hsmall. unfold guarded_attractor.
  assert (Hsize : (N.of_nat (VSet.size (pick alpha (m_S o))) < 2 ^ 63)%N).
  { destruct (oi_fit _ _ _ Ho) as (m & _ & Hf). destruct (Hf alpha) as [(_ & Hnd & _) Hin]. unfold small, VSet.size in *.
    pose proof (NoDup_bounded_length _ _ Hnd Hin : length _ <= length (vertices (m_graph_builder o))). lia. }
  assert (exists e, pick alpha (m_S_guard o) = (2 ^ e)%N /\ (e <= 63)%N /\
    forall e', (e' <= 63)%N -> exists e0 e1, put alpha (2 ^ e')%N (m_S_guard o) = (2 ^ e0, 2 ^ e1)%N /\ (e0 <= 63)%N /\ (e1 <= 63)%N)
    as (e & Ee & He & Hput).
  { rewrite Eg. assert (alpha = 0 \/ alpha = 1) as [->| ->] by lia; cbn; [exists e0|exists e1]; (split; [done|]); (split; [done|]);
      intros e' He'; [by exists e', e1|by exists e0, e']. }
  rewrite Ee. destruct (computation_guard_spec e _ Hsize He) as (e' & -> & He' & _).
  set (o1 := mk_otf _ _ _ (put alpha (2 ^ e')%N (m_S_guard o)) _ _ _).
  assert (Ho1 : otf_inv pp eqs o1) by (by destruct Ho).
  destruct (on_simple_graph_spec _ eqs o1 (attract_if_sound (2 ^ e <=? N.of_nat (VSet.size (pick alpha (m_S o))))%N alpha Ha) Ho1)
    as (o2 & steps & -> & Ho2 & Hg & Hsb & EG).
  exists o2. split; [done|]. split; [done|]. split; [exact Hg|]. split; [done|].
  unfold guards_ok. rewrite EG. apply Hput. lia.
Qed.

End Builder.

(** ** The strategies of solved vertices *)

Section Strategies.
Context {variable symbol : Type} `{EqDecision variable} `{EqDecision symbol}.
Abbreviation pbes_expression := (@pbes_expression variable symbol).
Abbreviation equation := (pbes_expression * pbes_expression * N)%type.
Context (pp : pbes_expression -> string).
Context (eqs : list equation) (o : @otf_state variable symbol).
Hypothesis Ho : otf_inv pp eqs o.
Abbreviation b := (m_graph_builder o).
Abbreviation solved alpha u := (u ∈ VSet.m_vertices (pick alpha (m_S o))).

(** A player for the constants. *)
Definition constant_dead (u : nat) : nat := match sg_decoration (view b) u with d_false => 1 | _ => 0 end.

Lemma constant_dead_ok : dead_ok (view b) constant_dead.
Proof. intros u. unfold constant_dead. by split; intros ->. Qed.

(** A conjunction or disjunction has successors. *)
Lemma owned_successor u alpha :
  alpha < 2 -> graph_owner (view b) alpha u -> has_successor (graph_edge (view b)) (in_graph (view b)) u.
Proof.
  intros Ha Hown. unfold graph_owner in Hown. pose proof (oi_represents _ _ _ Ho) as Hr.
  destruct (vertices b !! u) as [v|] eqn:Ev;
    [|destruct (view_outside b u Ev) as (E & _); rewrite E in Hown; cbn in Hown; lia].
  rewrite (view_decoration b u v Ev) in Hown.
  destruct (vertex_cases pp eqs b u v Hr (oi_equations _ _ _ Ho) Ev) as [(_ & _ & E & _)|(psi & Hsup & Hdec & HL & _)];
    [rewrite E in Hown; cbn in Hown; lia|].
  assert (Hne : rhs_operands psi <> []).
  { intros E. destruct (rhs_operands_nonempty psi Hsup E) as [Ec|Ec]; destruct psi as [[]| | | | | | |]; try done;
      cbn in Hdec; injection Hdec as Hdec; rewrite <- Hdec in Hown; cbn in Hown; lia. }
  destruct HL as [L1 L2]. destruct (rhs_operands psi) as [|y ys]; [done|]. destruct (L1 y (list_elem_of_here _ _)) as [w Hw].
  exists w. assert (Hin : w ∈ succs (vertices b) u) by (apply L2; exists y; split; [left|done]).
  split; [exact Hin|]. apply view_in. by apply (bo_edges pp b (rp_ok _ _ _ Hr) u).
Qed.

(** Solved vertices have their strategy, which stays in the set. *)
Lemma solved_strategy alpha u :
  alpha < 2 -> solved alpha u -> graph_owner (view b) alpha u ->
  exists v, tau_at (m_tau o) alpha u = Some v /\ v ∈ sg_successors (view b) u /\ solved alpha v.
Proof.
  intros Ha Hu Hown. pose proof (oi_regions _ _ _ Ho alpha Ha constant_dead constant_dead_ok) as HW.
  destruct (region_own _ _ _ _ _ _ _ _ HW u Hu Hown (owned_successor u alpha Ha Hown)) as (v & H1 & H2 & _ & H4). by exists v.
Qed.

(** The assertion on the strategies holds. *)
Lemma assert_strategies_holds : assert_strategies o = Returns tt.
Proof.
  unfold assert_strategies. assert (E : strategies_are_set_in_solved_nodes (view b) (m_S o) (m_tau o) = true); [|unfold view in E; by rewrite E].
  unfold strategies_are_set_in_solved_nodes. rewrite andb_true_iff, !forallb_forall.
  split; intros u Hu%list_elem_of_In; rewrite negb_true_iff, andb_false_iff;
    (case_bool_decide as Hd; [right|by left]); apply bool_decide_eq_false;
    [destruct (solved_strategy 0 u) as (v & Hv & _)|destruct (solved_strategy 1 u) as (v & Hv & _)];
    try done; try lia; try (unfold graph_owner; by rewrite Hd);
    unfold tau_at in Hv; cbn -[StrategyVector.get] in Hv; by rewrite Hv.
Qed.

End Strategies.
