(* ===== verification/OnTheFlyPrune.v ===== *)
(** * Pruning the to-do list

    [prune_todo_list] replaces the list by exactly the unexplored variables that
    can be reached from the initial one without passing a solved vertex; the
    search ends after at most as many rounds as there are vertices. *)

From Stdlib Require Import Lia NArith.
From stdpp Require Import base strings numbers sets list sorting relations.
From S2P Require Import Prelude VertexSets StructureGraph Solver SolverCheck.
From S2P Require Import Terms DataExpressions PbesExpressions GraphBuilder GraphBuilderCorrect GraphBuilderTheorems Instantiation InstantiationCorrect OnTheFly.

Local Open Scope mcrl2_scope.

Section Prune.
Context {variable symbol : Type} `{EqDecision variable} `{EqDecision symbol}.
Abbreviation pbes_expression := (@pbes_expression variable symbol).
Abbreviation builder := (@structure_graph_builder variable symbol).
Abbreviation otf := (@otf_state variable symbol).
Context (pp : pbes_expression -> string).
Context (hash_order : list pbes_expression -> list pbes_expression) (m_options : pbessolve_options).
Hypothesis Hhash : forall l, hash_order l ≡ₚ l.
Implicit Types (X Y : pbes_expression) (o : otf) (st : lazy_state variable symbol otf).

(** A vertex without an equation. *)
Definition leaf (v : SG.vertex pbes_expression) : bool :=
  bool_decide (SG.v_decoration v = d_none) && bool_decide (SG.v_successors v = []).

Definition is_leaf o X : Prop := exists u v,
  lookup_map (m_graph_builder o) X = Some u /\ vertices (m_graph_builder o) !! u = Some v /\ leaf v = true.

Definition unsolved o (u : nat) : bool := negb (VSet.contains (fst (m_S o)) u) && negb (VSet.contains (snd (m_S o)) u).

(** A step from an unsolved vertex to a successor. *)
Definition unsolved_step o X Y : Prop := exists u v w z,
  lookup_map (m_graph_builder o) X = Some u /\ vertices (m_graph_builder o) !! u = Some v /\ leaf v = false /\
  unsolved o u = true /\ w ∈ SG.v_successors v /\ vertices (m_graph_builder o) !! w = Some z /\ SG.formula z = Y.

(** ** The search *)

Lemma prune_successors V l (todo1 done1 : list pbes_expression) :
  NoDup done1 -> exists A, foldl (prune_successor V) (todo1, done1) l = (todo1 ++ A, done1 ++ A) /\
    NoDup (done1 ++ A) /\
    forall Y, Y ∈ A <-> Y ∉ done1 /\ exists w z, w ∈ l /\ V !! w = Some z /\ SG.formula z = Y.
Proof.
  revert todo1 done1. induction l as [|w l IH]; intros todo1 done1 Hnd; cbn [foldl].
  { exists []. rewrite !app_nil_r. split; [done|]. split; [done|]. intros Y. set_solver. }
  unfold prune_successor at 2. cbn [fst snd]. destruct (V !! w) as [z|] eqn:Ez.
  - case_bool_decide as Hin.
    + destruct (IH todo1 done1 Hnd) as (A & -> & HA & HE). exists A. split; [done|]. split; [done|].
      intros Y. rewrite HE. split; intros (Hn & w' & z' & Hw & Hz & Hf); (split; [done|]); exists w', z'.
      * split; [by right|done].
      * apply elem_of_cons in Hw as [->|Hw]; [|done]. assert (z' = z) as -> by congruence. by subst Y.
    + destruct (IH (todo1 ++ [SG.formula z]) (done1 ++ [SG.formula z])) as (A & -> & HA & HE).
      { apply NoDup_app. split; [done|]. split; [|apply NoDup_singleton]. by intros Y HY ->%list_elem_of_singleton. }
      exists (SG.formula z :: A). rewrite <- !app_assoc in *. cbn [app] in *. split; [done|]. split; [done|].
      intros Y. rewrite elem_of_cons, HE. split.
      * intros [->|(Hn & w' & z' & Hw & Hz)]; [split; [done|]; exists w, z; split; [left|done]|].
        split; [set_solver|]. exists w', z'. split; [by right|done].
      * intros (Hn & w' & z' & Hw & Hz & Hf). destruct (decide (Y = SG.formula z)) as [->|Hne]; [by left|right].
        split; [set_solver|]. apply elem_of_cons in Hw as [->|Hw]; [congruence|]. by exists w', z'.
  - destruct (IH todo1 done1 Hnd) as (A & -> & HA & HE). exists A. split; [done|]. split; [done|].
    intros Y. rewrite HE. split; intros (Hn & w' & z' & Hw & Hz & Hf); (split; [done|]); exists w', z'.
    + split; [by right|done].
    + apply elem_of_cons in Hw as [->|Hw]; [congruence|done].
Qed.

Section Search.
Context (o : otf) (init : pbes_expression).
Hypothesis Hok : builder_ok pp (m_graph_builder o).
Hypothesis Hinit : is_Some (lookup_map (m_graph_builder o) init).
Abbreviation b := (m_graph_builder o).
Abbreviation reach := (rtc (unsolved_step o) init).

Lemma reach_vertex X : reach X -> exists u v, lookup_map b X = Some u /\ vertices b !! u = Some v /\ SG.formula v = X.
Proof.
  intros HX. assert (Hl : is_Some (lookup_map b X)).
  { apply rtc_inv_r in HX as [<-|(Z & _ & u & v & w & z & _ & _ & _ & _ & _ & Hz & <-)]; [done|].
    exists w. apply (bo_map pp _ Hok). by exists z. }
  destruct Hl as [u Hu]. pose proof (proj1 (bo_map pp _ Hok X u) Hu) as (v & Hv & Hf). by exists u, v.
Qed.

(** A leaf is a variable, and not defined. *)
Lemma leaf_pvi u v :
  vertices b !! u = Some v -> leaf v = true -> is_propositional_variable_instantiation (SG.formula v) = true.
Proof.
  intros Hv [Hd%bool_decide_eq_true _]%andb_true_iff.
  destruct (is_propositional_variable_instantiation (SG.formula v)) eqn:E; [done|].
  destruct (bo_inner pp b Hok u v Hv E) as [Hdec _]. revert Hdec. rewrite Hd. unfold builder_decoration. rewrite E.
  by repeat case_match.
Qed.

Lemma leaf_undefined v : leaf v = true -> SG.vertex_is_defined v = false.
Proof.
  intros [Hd%bool_decide_eq_true Hs%bool_decide_eq_true]%andb_true_iff. unfold SG.vertex_is_defined. rewrite Hd, Hs.
  apply andb_false_r.
Qed.

Lemma leaves_undefined todo : (forall X, X ∈ todo -> is_leaf o X) -> todo_has_only_undefined_nodes b todo = true.
Proof.
  intros Hl. apply forallb_forall. intros X HX%list_elem_of_In. destruct (Hl X HX) as (u & v & Hu & Hv & Hleaf).
  change (find_vertex b X) with (lookup_map b X). by rewrite Hu, Hv, (leaf_undefined v Hleaf).
Qed.

(** The variables of [done1] that are not in [todo1] have been looked at. *)
Record pruning (todo1 done1 new_todo : list pbes_expression) : Prop := {
  pr_done : NoDup done1;
  pr_todo : NoDup todo1;
  pr_sub : forall X, X ∈ todo1 -> X ∈ done1;
  pr_reach : forall X, X ∈ done1 -> reach X;
  pr_NoDup : NoDup new_todo;
  pr_new : forall X, X ∈ new_todo <-> X ∈ done1 /\ X ∉ todo1 /\ is_leaf o X;
  pr_closed : forall X Y, X ∈ done1 -> X ∉ todo1 -> unsolved_step o X Y -> Y ∈ done1
}.

Lemma pruning_length todo1 done1 new_todo :
  pruning todo1 done1 new_todo -> length done1 <= length (vertices b).
Proof.
  intros Hp. rewrite <- (length_fmap SG.formula (vertices b)).
  apply submseteq_length, NoDup_submseteq; [apply Hp|]. intros X HX.
  destruct (reach_vertex X (pr_reach _ _ _ Hp X HX)) as (u & v & _ & Hv & <-).
  apply list_elem_of_fmap. exists v. split; [done|]. by apply list_elem_of_lookup_2 in Hv.
Qed.

(** One vertex is taken from the list. *)
Lemma pruning_leaf X todo1 done1 new_todo u v :
  pruning (X :: todo1) done1 new_todo -> lookup_map b X = Some u -> vertices b !! u = Some v ->
  SG.formula v = X -> leaf v = true -> pruning todo1 done1 (discover new_todo X).
Proof.
  intros [P1 P2 P3 P4 P5 P6 P7] Hu Hv Hf Hl. apply NoDup_cons in P2 as [HX P2].
  assert (Hno : forall Y, ~ unsolved_step o X Y).
  { intros Y (u' & v' & w & z & Hu' & Hv' & Hl' & _). assert (u' = u) as -> by congruence. congruence. }
  split; auto.
  - intros Y HY. apply P3. by right.
  - unfold discover. case_bool_decide; [done|]. apply NoDup_app. split; [done|]. split; [|apply NoDup_singleton].
    by intros Y HY ->%list_elem_of_singleton.
  - intros Y. assert (HE : Y ∈ discover new_todo X <-> Y ∈ new_todo \/ Y = X).
    { unfold discover. case_bool_decide; [split; [auto|intros [| ->]; done]|]. by rewrite elem_of_app, list_elem_of_singleton. }
    rewrite HE, P6. split.
    + intros [(H1 & H2 & H3)| ->]; [split; [done|]; split; [set_solver|done]|].
      split; [apply P3; left|]. split; [done|]. by exists u, v.
    + intros (H1 & H2 & H3). destruct (decide (Y = X)); [by right|left]. split; [done|]. split; [set_solver|done].
  - intros Y Z HY HYt HYZ. destruct (decide (Y = X)) as [->|]; [by destruct (Hno Z)|]. apply (P7 Y); auto. set_solver.
Qed.

Lemma pruning_inner X todo1 done1 new_todo A u v :
  pruning (X :: todo1) done1 new_todo -> lookup_map b X = Some u -> vertices b !! u = Some v -> leaf v = false ->
  NoDup (done1 ++ A) ->
  (forall Y, Y ∈ A -> unsolved_step o X Y /\ Y ∉ done1) ->
  (forall Y, unsolved_step o X Y -> Y ∈ done1 ++ A) ->
  pruning (todo1 ++ A) (done1 ++ A) new_todo.
Proof.
  intros [P1 P2 P3 P4 P5 P6 P7] Hu Hv Hl Hnd HA HA'. apply NoDup_cons in P2 as [HX P2].
  assert (HXd : X ∈ done1) by (apply P3; left).
  assert (Hnl : ~ is_leaf o X).
  { intros (u' & v' & Hu' & Hv' & Hl'). assert (u' = u) as -> by congruence. congruence. }
  split; auto.
  - apply NoDup_app. split; [done|]. split; [|apply NoDup_app in Hnd; apply Hnd].
    intros Y HY HYA. destruct (HA Y HYA) as [_ Hn]. apply Hn, P3. by right.
  - intros Y [HY|HY]%elem_of_app; apply elem_of_app; [left; apply P3; by right|by right].
  - intros Y [HY|HY]%elem_of_app; [by apply P4|]. eapply rtc_r; [by apply (P4 X)|]. by apply HA.
  - intros Y. rewrite P6, !elem_of_app, elem_of_cons. split.
    + intros (H1 & H2 & H3). split; [by left|]. split; [|done]. intros [HY|HY]; [auto|]. by apply HA in HY as [_ ?].
    + intros ([H1|H1] & H2 & H3); [|tauto]. split; [done|]. split; [|done]. intros [->|]; auto.
  - intros Y Z HY HYt HYZ. rewrite not_elem_of_app in HYt. destruct HYt as [H1 H2].
    apply elem_of_app in HY as [HY|]; [|done]. destruct (decide (Y = X)) as [->|Hne]; [by apply HA'|].
    apply elem_of_app. left. apply (P7 Y); auto. set_solver.
Qed.

Lemma prune_loop_spec fuel todo1 done1 new_todo steps :
  pruning todo1 done1 new_todo -> length (vertices b) + length todo1 <= fuel + length done1 ->
  exists done2 new_todo' steps', prune_loop fuel o todo1 done1 new_todo steps = Returns (new_todo', steps') /\
    pruning [] done2 new_todo' /\ forall X, X ∈ done1 -> X ∈ done2.
Proof.
  revert todo1 done1 new_todo steps. induction fuel as [|fuel IH]; intros todo1 done1 new_todo steps Hp Hf;
    pose proof (pruning_length _ _ _ Hp) as Hlen; cbn [prune_loop].
  { destruct todo1; [by exists done1, new_todo, steps|cbn in Hf; lia]. }
  destruct todo1 as [|X todo1]; [by exists done1, new_todo, steps|].
  destruct (reach_vertex X) as (u & v & Hu & Hv & HfX); [apply (pr_reach _ _ _ Hp), (pr_sub _ _ _ Hp); left|].
  change (find_vertex b X) with (lookup_map b X). rewrite Hu, Hv. cbn in Hf.
  fold (leaf v). destruct (leaf v) eqn:El.
  { rewrite (leaf_pvi u v Hv El). cbn [assertion outcome_bind]. rewrite HfX. apply IH; [by apply (pruning_leaf X todo1 done1 new_todo u v)|lia]. }
  fold (unsolved o u). destruct (unsolved o u) eqn:Eu.
  - destruct (prune_successors (vertices b) (SG.v_successors v) todo1 done1 (pr_done _ _ _ Hp)) as (A & -> & HA & HE).
    assert (Hst : forall Y, unsolved_step o X Y <-> exists w z, w ∈ SG.v_successors v /\ vertices b !! w = Some z /\ SG.formula z = Y).
    { intros Y. split.
      - intros (u' & v' & w & z & Hu' & Hv' & _ & _ & Hw & Hz & Hfz). assert (u' = u) as -> by congruence.
        assert (v' = v) as -> by congruence. by exists w, z.
      - intros (w & z & Hw & Hz & Hfz). by exists u, v, w, z. }
    destruct (IH (todo1 ++ A) (done1 ++ A) new_todo (steps + 1 + N.of_nat (length (SG.v_successors v)))%N)
      as (done2 & nt & s & E & Hp2 & Hsub).
    + apply (pruning_inner X todo1 done1 new_todo A u v); auto.
      * intros Y [HY ?]%HE. split; [by apply Hst|done].
      * intros Y HY. apply Hst in HY. apply elem_of_app. destruct (decide (Y ∈ done1)); [by left|right]. by apply HE.
    + rewrite !length_app. lia.
    + exists done2, nt, s. split; [exact E|]. split; [done|]. intros Y HY. apply Hsub, elem_of_app. by left.
  - apply IH; [|lia]. rewrite <- (app_nil_r todo1), <- (app_nil_r done1).
    apply (pruning_inner X todo1 done1 new_todo [] u v); auto; rewrite ?app_nil_r; [apply Hp|set_solver|].
    intros Y (u' & v' & w & z & Hu' & _ & _ & Hun & _). assert (u' = u) as -> by congruence. congruence.
Qed.

Lemma prune_search_spec steps :
  exists new_todo steps', prune_loop (length (vertices b)) o [init] [init] [] steps = Returns (new_todo, steps') /\
    NoDup new_todo /\ forall X, X ∈ new_todo <-> reach X /\ is_leaf o X.
Proof.
  destruct (prune_loop_spec (length (vertices b)) [init] [init] [] steps) as (done2 & nt & s & E & Hp & Hsub).
  - split; [apply NoDup_singleton|apply NoDup_singleton|done| |apply NoDup_nil_2| |done].
    + intros X ->%list_elem_of_singleton. apply rtc_refl.
    + intros X. set_solver.
  - cbn. lia.
  - exists nt, s. split; [done|]. split; [apply Hp|]. intros X. rewrite (pr_new _ _ _ Hp).
    assert (Hall : forall Y, reach Y -> Y ∈ done2).
    { apply (rtc_ind_r (fun Y => Y ∈ done2)); [apply Hsub; left|].
      intros Y Z _ HYZ HY. apply (pr_closed _ _ _ Hp Y); [done|apply not_elem_of_nil|done]. }
    split; [intros (H1 & _ & H2); split; [by apply (pr_reach _ _ _ Hp)|done]|].
    intros [H1 H2]. split; [auto|]. split; [apply not_elem_of_nil|done].
Qed.

End Search.

(** ** The new list *)

Lemma filter_absent X (L : list pbes_expression) : X ∉ L -> filter (fun Y => Y <> X) L = L.
Proof.
  induction L as [|Y L IH]; intros HX; [done|]. apply not_elem_of_cons in HX as [Hne HX].
  by rewrite filter_cons_True, IH by auto.
Qed.

Lemma prune_keep_spec (l K L : list pbes_expression) :
  NoDup (K ++ L) -> let '(K', L') := foldl prune_keep (K, L) l in NoDup (K' ++ L') /\ K' ++ L' ≡ₚ K ++ L.
Proof.
  revert K L. induction l as [|X l IH]; intros K L Hnd; cbn [foldl]; [done|].
  unfold prune_keep at 2. cbn [fst snd]. case_bool_decide as HX; [|by apply IH].
  assert (HL : X :: filter (fun Y => Y <> X) L ≡ₚ L).
  { apply NoDup_app in Hnd as (_ & _ & HndL). clear -HX HndL. induction L as [|Y L IHL]; [by apply elem_of_nil in HX|].
    apply NoDup_cons in HndL as [HY HndL]. destruct (decide (Y = X)) as [->|Hne].
    - rewrite filter_cons_False by auto. by rewrite filter_absent.
    - rewrite filter_cons_True by done. rewrite perm_swap. apply elem_of_cons in HX as [|HX]; [congruence|].
      by rewrite IHL. }
  assert (HP : (K ++ [X]) ++ filter (fun Y => Y <> X) L ≡ₚ K ++ L) by (rewrite <- app_assoc; cbn; by rewrite HL).
  specialize (IH (K ++ [X]) (filter (fun Y => Y <> X) L)). rewrite HP in IH. specialize (IH Hnd).
  destruct (foldl prune_keep _ l) as [K' L']. destruct IH as [H1 H2]. split; [done|]. by rewrite H2.
Qed.

(** [prune_todo_list] *)
Lemma prune_todo_list_spec st steps :
  builder_ok pp (m_graph_builder (m_derived st)) -> is_Some (lookup_map (m_graph_builder (m_derived st)) (m_init st)) ->
  exists todo steps', prune_todo_list hash_order m_options st steps =
      Returns (mk_lazy todo (m_discovered st) (m_init st) (m_iteration_count st)
                 (global_current_prune_round st + 1)%N (m_derived st), steps') /\
    NoDup todo /\
    forall X, X ∈ todo <-> rtc (unsolved_step (m_derived st)) (m_init st) X /\ is_leaf (m_derived st) X.
Proof.
  intros Hok Hi. unfold prune_todo_list.
  destruct (prune_search_spec (m_derived st) (m_init st) Hok Hi steps) as (nt & s & -> & Hnd & HE).
  cbn [outcome_bind]. pose proof (prune_keep_spec (m_todo st) [] nt Hnd) as Hk.
  destruct (foldl prune_keep ([], nt) (m_todo st)) as [kept rest]. destruct Hk as [Hk1 Hk2]. cbn [app] in Hk2.
  set (todo := match exploration_strategy m_options with breadth_first => _ | _ => _ end).
  assert (HP : todo ≡ₚ nt).
  { rewrite <- Hk2. assert (Hr : rev (hash_order rest) ++ kept ≡ₚ kept ++ rest).
    { rewrite <- Permutation_rev, Hhash. apply Permutation_app_comm. }
    unfold todo. destruct (exploration_strategy m_options); try done. by rewrite Hhash. }
  assert (HE' : forall X, X ∈ todo <-> rtc (unsolved_step (m_derived st)) (m_init st) X /\ is_leaf (m_derived st) X).
  { intros X. by rewrite HP, HE. }
  rewrite (leaves_undefined (m_derived st)); [|by intros X [_ HX]%HE'].
  eexists todo, _. split; [done|]. rewrite HP. split; [done|]. intros X. by rewrite HP, HE.
Qed.

End Prune.
