(* ===== verification/OnTheFlyExtract.v ===== *)
(** * The extraction at the end of the exploration

    [on_end_while_loop] keeps the vertices that are needed for the initial one: a
    solved vertex is left along the strategy of its winner only, any other vertex
    along all edges.  What is kept is a solved or completely explored part of the
    graph, and the initial vertex has the same winner in it as in the graph that
    was explored. *)

From Stdlib Require Import Lia NArith.
From stdpp Require Import base strings numbers sets list list_numbers sorting relations.
From S2P Require Import Prelude VertexSets StructureGraph Attractors ParityGame Worklist Solver SolverCheck SolverExtended SolverTheorems Arena Evidence FatalAttractors GraphGame FatalAttractorsCorrect FatalTheorems FindLoops PartialSolve.
From S2P Require Import Terms DataExpressions PbesExpressions GraphBuilder GraphBuilderCorrect GraphBuilderErrors GraphBuilderTheorems GraphBuilderErase Instantiation InstantiationCorrect.
From S2P Require Import OnTheFly RplusCorrect OnTheFlyGraph OnTheFlyReport OnTheFlySolve OnTheFlyPrune.

Local Open Scope mcrl2_scope.

#[local] Arguments tau_at : simpl never.

(** ** What is kept *)

Section Statement.
Context {variable symbol : Type} `{EqDecision variable} `{EqDecision symbol}.
Abbreviation builder := (@structure_graph_builder variable symbol).

(** The winner of a solved vertex that moves there follows its strategy. *)
Definition extract_step (b : builder) (S : vertex_set * vertex_set) (tau : strategies) (u v : nat) : Prop :=
  v ∈ sg_successors (view b) u /\
  forall alpha, alpha < 2 -> u ∈ VSet.m_vertices (pick alpha S) -> graph_owner (view b) alpha u -> tau_at tau alpha u = Some v.

(** [g] is the part of [b] that these steps reach from [u0]; [old] has the
    numbers of its vertices in [b]. *)
Record extracted (b : builder) (S : vertex_set * vertex_set) (tau : strategies) (u0 : nat) (old : list nat) (g : builder) : Prop := {
  ex_sorted : forall i j u v, i < j -> old !! i = Some u -> old !! j = Some v -> u < v;
  ex_old : forall u, u ∈ old <-> rtc (extract_step b S tau) u0 u;
  ex_length : length (vertices g) = length old;
  ex_vertices : forall i u, old !! i = Some u -> exists v v',
    vertices b !! u = Some v /\ vertices g !! i = Some v' /\ SG.formula v' = SG.formula v /\
    SG.v_decoration v' = SG.v_decoration v /\ SG.v_rank v' = SG.v_rank v;
  ex_edges : forall i j, j ∈ succs (vertices g) i <->
    exists u w, old !! i = Some u /\ old !! j = Some w /\ w ∈ succs (vertices b) u;
  ex_initial : old !! SG.m_initial_vertex (m_graph g) = Some u0
}.

End Statement.

(** ** The search *)

Section Extract.
Context {variable symbol : Type} `{EqDecision variable} `{EqDecision symbol}.
Abbreviation pbes_expression := (@pbes_expression variable symbol).
Abbreviation is_pvi := is_propositional_variable_instantiation.
Abbreviation equation := (pbes_expression * pbes_expression * N)%type.
Abbreviation otf := (@otf_state variable symbol).
Context (pp : pbes_expression -> string).
Context (eqs : list equation) (o : otf).
Hypothesis Ho : otf_inv pp eqs o.
Abbreviation b := (m_graph_builder o).
Abbreviation solved alpha u := (u ∈ VSet.m_vertices (pick alpha (m_S o))).
Abbreviation targets := (extract_targets_tau (view b) (fst (m_S o)) (snd (m_S o)) (m_tau o)).

Lemma solved_contains alpha u : VSet.contains (pick alpha (m_S o)) u = true <-> solved alpha u.
Proof. destruct (oi_fit _ _ _ Ho) as (m & _ & Hf). apply (VSet.contains_elem m). apply Hf. Qed.

Lemma solved_successor alpha u v :
  alpha < 2 -> solved alpha u -> ~ graph_owner (view b) alpha u -> v ∈ sg_successors (view b) u -> solved alpha v.
Proof.
  intros Ha Hu Hown Hv. pose proof (oi_regions _ _ _ Ho alpha Ha (constant_dead o) (constant_dead_ok o)) as HW.
  apply (region_opp _ _ _ _ _ _ _ _ HW u v Hu Hown Hv). by apply (successors_in _ (view_ok pp b (rp_ok _ _ _ (oi_represents _ _ _ Ho))) u).
Qed.

(** The two kinds of vertices. *)
Lemma targets_cases u :
  (exists alpha, alpha < 2 /\ solved alpha u /\ graph_owner (view b) alpha u /\
     targets u = (fun v => [v]) <$> tau_at (m_tau o) alpha u) \/
  ((forall alpha, alpha < 2 -> solved alpha u -> ~ graph_owner (view b) alpha u) /\ targets u = Some (sg_successors (view b) u)).
Proof.
  unfold extract_targets_tau. pose proof (solved_contains 0 u) as C0. pose proof (solved_contains 1 u) as C1. cbn [pick Nat.eqb] in C0, C1.
  destruct (VSet.contains (fst (m_S o)) u && bool_decide (sg_decoration (view b) u = d_disjunction)) eqn:E0.
  { apply andb_true_iff in E0 as [Hc Hd%bool_decide_eq_true]. left. exists 0. split; [lia|]. split; [by apply C0|].
    split; [|done]. unfold graph_owner. by rewrite Hd. }
  destruct (VSet.contains (snd (m_S o)) u && bool_decide (sg_decoration (view b) u = d_conjunction)) eqn:E1.
  { apply andb_true_iff in E1 as [Hc Hd%bool_decide_eq_true]. left. exists 1. split; [lia|]. split; [by apply C1|].
    split; [|done]. unfold graph_owner. by rewrite Hd. }
  right. split; [|done]. intros alpha Ha Hu Hown. unfold graph_owner in Hown.
  assert (alpha = 0 \/ alpha = 1) as [->| ->] by lia.
  - apply C0 in Hu. rewrite Hu, andb_true_l in E0. apply bool_decide_eq_false in E0. by destruct (sg_decoration (view b) u).
  - apply C1 in Hu. rewrite Hu, andb_true_l in E1. apply bool_decide_eq_false in E1. by destruct (sg_decoration (view b) u).
Qed.

Lemma step_extract u v : step targets u v <-> extract_step b (m_S o) (m_tau o) u v.
Proof.
  unfold step, extract_step. destruct (targets_cases u) as [(alpha & Ha & Hu & Hown & ->)|[Hno ->]].
  - destruct (solved_strategy pp eqs o Ho alpha u Ha Hu Hown) as (w & Hw & Hs & _). rewrite Hw. cbn. split.
    + intros (l & [= <-] & ->%list_elem_of_singleton). split; [done|]. intros beta _ _ Hob. unfold graph_owner in *. congruence.
    + intros [_ H]. exists [w]. split; [done|]. specialize (H alpha Ha Hu Hown). rewrite Hw in H. injection H as ->. left.
  - split; [intros (l & [= <-] & Hv); split; [done|]; intros alpha Ha Hu Hown; by destruct (Hno alpha Ha Hu)|].
    intros [Hv _]. by eexists.
Qed.

(** The extraction knows where to go, and does not leave what is solved. *)
Lemma targets_defined u : exists ts, targets u = Some ts.
Proof.
  destruct (targets_cases u) as [(alpha & Ha & Hu & Hown & ->)|[_ ->]]; [|by eexists].
  destruct (solved_strategy pp eqs o Ho alpha u Ha Hu Hown) as (w & -> & _). by eexists.
Qed.

Lemma extract_solved u v : extract_step b (m_S o) (m_tau o) u v -> solved 0 u \/ solved 1 u -> solved 0 v \/ solved 1 v.
Proof.
  intros [Hv Hs] Hu. assert (exists alpha, alpha < 2 /\ solved alpha u) as (alpha & Ha & HSu) by (destruct Hu; [exists 0|exists 1]; auto).
  assert (solved alpha v); [|assert (alpha = 0 \/ alpha = 1) as [->| ->] by lia; auto].
  destruct (decide (graph_owner (view b) alpha u)) as [Hown|Hown]; [|by apply (solved_successor alpha u)].
  destruct (solved_strategy pp eqs o Ho alpha u Ha HSu Hown) as (w & Hw & _ & HSw). rewrite (Hs alpha Ha HSu Hown) in Hw. by simplify_eq.
Qed.

(** A solved vertex has its equation. *)
Lemma solved_explored alpha u v : alpha < 2 -> solved alpha u -> vertices b !! u = Some v -> ~ unexplored eqs v.
Proof.
  intros Ha Hu Hv Hun. by apply (unexplored_not_solved eqs b u v alpha _ _ Ha (oi_regions _ _ _ Ho alpha Ha) Hv Hun).
Qed.

Lemma unexplored_leaf v : unexplored eqs v -> leaf v = true.
Proof. intros (_ & _ & Hd & _ & Hs). unfold leaf. by rewrite Hd, Hs, !bool_decide_true. Qed.

(** The vertices that the extraction visits. *)
Definition visited_ok (init : pbes_expression) (u : nat) : Prop :=
  exists v, vertices b !! u = Some v /\
    (solved 0 u \/ solved 1 u \/ rtc (unsolved_step o) init (SG.formula v)).

Lemma visited_step init u w : visited_ok init u -> extract_step b (m_S o) (m_tau o) u w -> visited_ok init w.
Proof.
  intros (v & Hv & HP) Hw. pose proof (proj1 Hw) as Hsucc.
  pose proof (oi_represents _ _ _ Ho) as Hr.
  assert (Hlt : w < length (vertices b)) by (by apply (bo_edges pp b (rp_ok _ _ _ Hr) u)).
  destruct (lookup_lt_is_Some_2 _ _ Hlt) as [z Hz]. exists z. split; [done|].
  destruct (decide (solved 0 u \/ solved 1 u)) as [Hsol|Hun]; [destruct (extract_solved u w Hw Hsol); auto|].
  right. right. assert (Hreach : rtc (unsolved_step o) init (SG.formula v)) by (destruct HP as [|[|]]; [tauto|tauto|done]).
  eapply rtc_r; [exact Hreach|]. exists u, v, w, z.
  change (w ∈ succs (vertices b) u) in Hsucc. rewrite (succs_lookup _ _ _ Hv) in Hsucc.
  split; [apply (bo_map pp b (rp_ok _ _ _ Hr)); by exists v|]. split; [done|]. split; [|split; [|done]].
  - unfold leaf. rewrite (bool_decide_false (SG.v_successors v = [])); [apply andb_false_r|].
    intros E. rewrite E in Hsucc. by apply elem_of_nil in Hsucc.
  - unfold unsolved. apply andb_true_iff. rewrite !negb_true_iff.
    split; apply not_true_is_false; intros Hc; apply Hun; [left|right].
    + by apply (solved_contains 0).
    + by apply (solved_contains 1).
Qed.

Lemma extract_on_the_fly_spec init u0 :
  lookup_map b init = Some u0 ->
  (solved 0 u0 \/ solved 1 u0 \/ forall Y, rtc (unsolved_step o) init Y -> ~ is_leaf o Y) ->
  exists V tau', extract_minimal_structure_graph_tau (SSG.mk_simple (vertices b)) u0 (fst (m_S o)) (snd (m_S o)) (m_tau o)
      = Some (V, tau') /\ (forall u, u ∈ V <-> rtc (extract_step b (m_S o) (m_tau o)) u0 u) /\
    forall u, u ∈ V -> exists v, vertices b !! u = Some v /\ ~ unexplored eqs v.
Proof.
  intros Hu0 Hcase. pose proof (oi_represents _ _ _ Ho) as Hr.
  pose proof (proj1 (bo_map pp b (rp_ok _ _ _ Hr) init u0) Hu0) as (v0 & Hv0 & Hf0).
  assert (Hst : forall u, rtc (step targets) u0 u <-> rtc (extract_step b (m_S o) (m_tau o)) u0 u).
  { intros u. split; apply rtc_subrel; intros x y; apply step_extract. }
  assert (Hinv : forall u, rtc (extract_step b (m_S o) (m_tau o)) u0 u -> visited_ok init u).
  { intros u Hu. apply (rtc_invariant _ (visited_ok init) _ _ (fun x y Hx Hs => visited_step init x y Hx Hs)) in Hu; [done|].
    exists v0. split; [done|]. right. right. rewrite Hf0. apply rtc_refl. }
  destruct (explore_spec (extract_visit_tau (view b) (fst (m_S o)) (snd (m_S o))) targets (sg_extent (view b)) u0 (m_tau o))
    as (V & order & E & _ & _ & HV).
  { intros u Hu%Hst. split; [|apply targets_defined]. destruct (Hinv u Hu) as (v & Hv & _). by apply lookup_lt_Some in Hv. }
  assert (HV' : forall u, u ∈ V <-> rtc (extract_step b (m_S o) (m_tau o)) u0 u) by (intros u; by rewrite HV).
  eexists V, _. split; [exact E|]. split; [exact HV'|].
  intros u Hu%HV'. destruct (Hinv u Hu) as (v & Hv & HP). exists v. split; [done|]. intros Hun.
  assert (Hns : ~ (solved 0 u \/ solved 1 u)).
  { intros [H0|H1]; [apply (solved_explored 0 u v)|apply (solved_explored 1 u v)]; (done || lia). }
  assert (Hsolved : solved 0 u0 \/ solved 1 u0 -> solved 0 u \/ solved 1 u).
  { intros H0. apply (rtc_invariant _ (fun u => solved 0 u \/ solved 1 u)) in Hu; [done| |done]. intros x y Hx Hs. by apply (extract_solved x). }
  destruct Hcase as [H0|[H1|Hfront]]; [destruct Hns; auto..|].
  apply (Hfront (SG.formula v)); [by destruct HP as [|[|]]; [tauto|tauto|]|].
  exists u, v. split; [apply (bo_map pp b (rp_ok _ _ _ Hr)); by exists v|]. split; [done|by apply unexplored_leaf].
Qed.

End Extract.

(** ** Erasing the rest *)

Section Erase.
Context {variable symbol : Type} `{EqDecision variable} `{EqDecision symbol}.
Abbreviation pbes_expression := (@pbes_expression variable symbol).
Context (pp : pbes_expression -> string).

(** [to_be_removed] *)
Lemma to_be_removed_spec n (V : list nat) :
  let U := foldl (fun r v => if bool_decide (v ∈ V) then r else VSet.insert r v) (VSet.make n) (seq 0 n) in
  VSet.ok n U /\ forall v, v < n -> VSet.contains U v = false <-> v ∈ V.
Proof.
  assert (E : forall l0 r, foldl (fun r v => if bool_decide (v ∈ V) then r else VSet.insert r v) r l0 =
    foldl (fun r v => if negb (bool_decide (v ∈ V)) then VSet.insert r v else r) r l0).
  { induction l0 as [|v l0 IH]; intros r; [done|]. cbn [foldl]. by rewrite IH; destruct (bool_decide (v ∈ V)). }
  cbv zeta. rewrite E.
  destruct (VSet.insert_if_loop n (fun v => negb (bool_decide (v ∈ V))) (seq 0 n) (VSet.make n)) as [H1 H2].
  { apply VSet.make_ok. } { intros u Hu%elem_of_seq. lia. }
  split; [exact H1|]. intros v Hv. rewrite (VSet.contains_false n _ v H1), H2, elem_of_seq, negb_true_iff, bool_decide_eq_false.
  cbn. split; [|intros HV [Hin|[_ Hn]]; [by apply elem_of_nil in Hin|done]].
  intros Hn. destruct (decide (v ∈ V)) as [|HV]; [done|]. destruct Hn. right. split; [lia|done].
Qed.

Lemma survivors_sorted U n i j u v :
  i < j -> survivors U n !! i = Some u -> survivors U n !! j = Some v -> u < v.
Proof.
  intros Hij (_ & _ & ->)%survivors_lookup (_ & _ & ->)%survivors_lookup. apply Nat.nle_gt. intros Hle.
  pose proof (prefix_length _ _ (survivors_prefix U v u Hle)). lia.
Qed.

(** The graph that is left, finalized. *)
Lemma erase_extracted b S tau x u0 (V : list nat) :
  builder_ok pp b -> m_initial_state b = Some x -> lookup_map b x = Some u0 ->
  (forall u, u ∈ V <-> rtc (extract_step b S tau) u0 u) -> (forall u, u ∈ V -> is_Some (vertices b !! u)) ->
  let n := builder_extent b in
  let U := foldl (fun r v => if bool_decide (v ∈ V) then r else VSet.insert r v) (VSet.make n) (seq 0 n) in
  exists g, finalize (erase_vertices U b) = Some g /\ extracted b S tau u0 (survivors U n) g /\ builder_ok pp g /\
    lookup_map g x = Some (SG.m_initial_vertex (m_graph g)) /\ SG.m_exclude (m_graph g) = bitset_empty (builder_extent g).
Proof.
  intros Hb Hx Hu0 HV Hin n U. destruct (to_be_removed_spec n V) as [HU1 HU2]. fold U in HU1, HU2.
  assert (Hs : forall u, u ∈ survivors U n <-> u ∈ V).
  { intros u. rewrite list_elem_of_lookup. setoid_rewrite survivors_lookup. split.
    - intros (i & Hlt & Hc & _). by apply HU2.
    - intros Hu. destruct (Hin u Hu) as [v Hv]. pose proof (lookup_lt_Some _ _ _ Hv : u < n) as Hlt.
      eexists. split; [done|]. split; [by apply HU2|done]. }
  destruct (erase_vertices_vertices U b HU1) as [Hlen Hver]. pose proof (erase_vertices_ok pp U b Hb HU1) as Hb'.
  pose proof (proj1 (bo_map pp b Hb x u0) Hu0) as (v0 & Hv0 & Hf0).
  assert (H0 : survivors U n !! length (survivors U u0) = Some u0).
  { apply survivors_lookup. pose proof (lookup_lt_Some _ _ _ Hv0). split; [done|]. split; [|done]. apply HU2; [done|]. apply HV, rtc_refl. }
  assert (Hl0 : lookup_map (erase_vertices U b) x = Some (length (survivors U u0))).
  { apply (bo_map pp _ Hb'). eexists. split; [rewrite (Hver _ _ H0), Hv0; done|exact Hf0]. }
  eexists. split.
  { unfold finalize, builder_initial_vertex. change (m_initial_state (erase_vertices U b)) with (m_initial_state b).
    rewrite Hx. unfold lookup_map in Hl0. rewrite Hl0. done. }
  split; [|split; [destruct Hb'; by split|by split]]. split.
  - apply survivors_sorted.
  - intros u. by rewrite Hs.
  - exact Hlen.
  - intros i u Hi. assert (Hu : u ∈ V) by (apply Hs; by apply list_elem_of_lookup_2 in Hi). destruct (Hin u Hu) as [v Hv].
    pose proof (Hver i u Hi) as E. rewrite Hv in E. exists v. eexists. split; [done|]. split; [exact E|done].
  - intros i j. apply (erase_vertices_edges pp U b i j Hb HU1).
  - exact H0.
Qed.

End Erase.

(** ** The winner of the initial vertex *)

Section Winner.
Context {variable symbol : Type} `{EqDecision variable} `{EqDecision symbol}.
Abbreviation pbes_expression := (@pbes_expression variable symbol).
Abbreviation equation := (pbes_expression * pbes_expression * N)%type.
Context (pp : pbes_expression -> string).
Context (eqs : list equation) (o : @otf_state variable symbol) (u0 : nat) (old : list nat).
Context (g : @structure_graph_builder variable symbol).
Abbreviation b := (m_graph_builder o).
Abbreviation solved alpha u := (u ∈ VSet.m_vertices (pick alpha (m_S o))).
Abbreviation G := (m_graph g).
Abbreviation kept u := (u ∈ old).
Hypothesis Ho : otf_inv pp eqs o.
Hypothesis Hex : extracted b (m_S o) (m_tau o) u0 old g.
Hypothesis Hexp : forall u, kept u -> exists v, vertices b !! u = Some v /\ ~ unexplored eqs v.

Lemma kept_in u : kept u -> in_graph (view b) u.
Proof. intros Hu. destruct (Hexp u Hu) as (v & Hv & _). apply view_in. by apply lookup_lt_Some in Hv. Qed.

Lemma kept_step u v : kept u -> extract_step b (m_S o) (m_tau o) u v -> kept v.
Proof. rewrite !(ex_old _ _ _ _ _ _ Hex). intros Hu Hv. by eapply rtc_r. Qed.

(** A kept vertex that can be left can be left to a kept one. *)
Lemma kept_successor u :
  kept u -> has_successor (graph_edge (view b)) (in_graph (view b)) u ->
  has_successor (graph_edge (view b)) (fun v => kept v) u.
Proof.
  intros Hu (v & Hv & _).
  destruct (targets_cases pp eqs o Ho u) as [(alpha & Ha & HS & Hown & _)|[Hno _]].
  - destruct (solved_strategy pp eqs o Ho alpha u Ha HS Hown) as (w & Hw & Hsw & _). exists w. split; [done|].
    apply (kept_step u); [done|]. split; [done|]. intros beta _ _ Hb. unfold graph_owner in *. congruence.
  - exists v. split; [done|]. apply (kept_step u); [done|]. split; [done|]. intros alpha Ha HS Hown. by destruct (Hno alpha Ha HS).
Qed.

(** From the explored graph to the kept part. *)
Lemma kept_region dead alpha sigma W :
  alpha < 2 -> dead_ok (view b) dead -> graph_region (view b) dead alpha sigma W ->
  exists sigma', region (graph_edge (view b)) (graph_owner (view b)) (sg_rank (view b)) dead (fun u => kept u) alpha sigma'
    (fun u => kept u /\ (solved alpha u \/ W u)).
Proof.
  intros Ha Hd HW. pose proof (oi_regions _ _ _ Ho alpha Ha dead Hd) as HS.
  pose proof (region_join _ _ _ _ _ _ _ _ (fun u => solved alpha u) W HS HW) as HJ. eexists. eapply region_part; [apply kept_in| |apply kept_successor|exact HJ].
  intros u v Hu HSW Hown Hv Hin. destruct (region_own _ _ _ _ _ _ _ _ HJ u HSW Hown) as (w & Hw & He & _).
  { by apply (owned_successor pp eqs o Ho u alpha Ha). }
  cbn beta in Hw, Hv. assert (w = v) as -> by congruence. apply (kept_step u); [done|]. split; [exact He|].
  intros beta Hb HSb Hob. assert (beta = alpha) as -> by (unfold graph_owner in *; congruence). by rewrite decide_True in Hv.
Qed.

(** In the kept part too, nobody wins what is solved for the opponent. *)
Lemma kept_exclusive dead alpha beta sigma W u :
  alpha < 2 -> beta < 2 -> alpha <> beta -> dead_ok (view b) dead ->
  region (graph_edge (view b)) (graph_owner (view b)) (sg_rank (view b)) dead (fun u => kept u) alpha sigma W ->
  W u -> ~ solved beta u.
Proof.
  intros Ha Hb Hne Hd HW Hu HS.
  destruct (kept_region dead beta (fun _ => None) (fun _ => False) Hb Hd) as (tau & HT); [apply region_empty; by intros v []|].
  assert (Hbound : forall v, kept v -> v < sg_extent (view b)) by (intros v Hv; apply (kept_in v Hv)).
  assert (Wa : wins_from (graph_edge (view b)) (graph_owner (view b)) (sg_rank (view b)) dead (fun u => kept u) alpha sigma u).
  { apply (region_wins _ _ _ _ _ _ _ W (sg_extent (view b))); auto. intros v Hv. apply Hbound. by apply HW. }
  assert (Wb : wins_from (graph_edge (view b)) (graph_owner (view b)) (sg_rank (view b)) dead (fun u => kept u) beta tau u).
  { apply (region_wins _ _ _ _ _ _ _ _ (sg_extent (view b)) _ HT); [intros v [Hv _]; auto|]. split; [by apply HW|auto]. }
  pose (any v := head (filter (fun w => w ∈ old) (sg_successors (view b) v))).
  assert (Hany : forall v, has_successor (graph_edge (view b)) (fun u => kept u) v ->
    exists w, any v = Some w /\ graph_edge (view b) v w /\ kept w).
  { intros v (w & He & Hw). assert (Hf : w ∈ filter (fun w => w ∈ old) (sg_successors (view b) v)) by (by apply list_elem_of_filter).
    unfold any. destruct (filter _ _) as [|x l] eqn:E; [by apply elem_of_nil in Hf|]. exists x. split; [done|].
    assert (Hx : x ∈ x :: l) by left. rewrite <- E in Hx. apply list_elem_of_filter in Hx as [H1 H2]. done. }
  assert (Hone : forall v, graph_owner (view b) 0 v -> graph_owner (view b) 1 v -> False) by (unfold graph_owner; lia).
  assert (alpha = 0 /\ beta = 1 \/ alpha = 1 /\ beta = 0) as [[-> ->]|[-> ->]] by lia.
  - exact (winners_disjoint _ _ _ _ Hone (graph_owner_dec (view b)) _ any Hany _ _ u Wa Wb).
  - exact (winners_disjoint _ _ _ _ Hone (graph_owner_dec (view b)) _ any Hany _ _ u Wb Wa).
Qed.

(** From the kept part to the explored graph. *)
Lemma explored_region dead alpha sigma W :
  alpha < 2 -> dead_ok (view b) dead ->
  region (graph_edge (view b)) (graph_owner (view b)) (sg_rank (view b)) dead (fun u => kept u) alpha sigma W ->
  graph_region (view b) dead alpha sigma W.
Proof.
  intros Ha Hd HW. eapply region_whole; [apply kept_in| |apply kept_successor|exact HW].
  intros u v Hu Hown Hv _. apply (kept_step u); [by apply HW|]. split; [exact Hv|].
  intros beta Hb HS Hob. destruct (kept_exclusive dead alpha beta sigma W u Ha Hb) as []; auto. intros <-. done.
Qed.

(** A constant has no successors, and a kept vertex without successors is one. *)
Lemma constant_no_successors u v :
  sg_decoration (view b) u = d_true \/ sg_decoration (view b) u = d_false -> v ∈ succs (vertices b) u -> False.
Proof.
  intros Hd Hv. destruct (vertices b !! u) as [x|] eqn:Ex;
    [|destruct (view_outside b u Ex) as (E & _); rewrite E in Hd; by destruct Hd].
  rewrite (view_decoration b u x Ex) in Hd.
  destruct (vertex_cases pp eqs b u x (oi_represents _ _ _ Ho) (oi_equations _ _ _ Ho) Ex) as [(_ & _ & E & _)|(psi & _ & Hdec & HL & _)];
    [rewrite E in Hd; by destruct Hd|].
  apply HL in Hv as (y & Hy & _).
  destruct psi as [[]|n p|p|p q|p q|p q|z p|z p]; cbn in Hdec, Hy; try (by apply elem_of_nil in Hy);
    destruct Hd as [E|E]; rewrite E in Hdec; done.
Qed.

Lemma kept_constant u : kept u -> sg_successors (view b) u = [] ->
  sg_decoration (view b) u = d_true \/ sg_decoration (view b) u = d_false.
Proof.
  intros Hu Hs. destruct (Hexp u Hu) as (v & Hv & Hn). rewrite (view_decoration b u v Hv).
  destruct (vertex_cases pp eqs b u v (oi_represents _ _ _ Ho) (oi_equations _ _ _ Ho) Hv) as [Hun|(psi & Hsup & Hdec & HL & _)].
  { destruct Hn. destruct Hun as (H1 & H2 & H3 & H4 & H5). by repeat split. }
  apply leads_to_no_operands in HL; [|exact Hs].
  destruct (rhs_operands_nonempty psi Hsup HL) as [E|E]; destruct psi as [[]|n p|p|p q|p q|p q|y p|y p];
    cbn in E, Hdec; try done; injection Hdec as <-; auto.
Qed.

(** The kept part under its new numbers. *)
Hypothesis Hexc : SG.m_exclude G = bitset_empty (builder_extent g).
Hypothesis Hok : builder_ok pp g.

Definition position (u : nat) : option nat := fst <$> list_find (fun v => v = u) old.

Lemma extracted_NoDup : NoDup old.
Proof.
  apply NoDup_alt. intros i j u Hi Hj. destruct (Nat.lt_trichotomy i j) as [H|[H|H]]; [|done|].
  - pose proof (ex_sorted _ _ _ _ _ _ Hex i j u u H Hi Hj). lia.
  - pose proof (ex_sorted _ _ _ _ _ _ Hex j i u u H Hj Hi). lia.
Qed.

Lemma position_old i u : old !! i = Some u <-> position u = Some i.
Proof.
  unfold position. split.
  - intros Hi. destruct (list_find_elem_of (fun v => v = u) old u) as [[j v] Hj]; [by apply list_elem_of_lookup_2 in Hi|done|].
    rewrite Hj. apply list_find_Some in Hj as (Hj & -> & _). cbn. f_equal. by apply (NoDup_lookup old j i u extracted_NoDup).
  - intros ([j v] & Hj & ->)%fmap_Some. by apply list_find_Some in Hj as (Hj & -> & _).
Qed.

Lemma extracted_in i : in_graph G i <-> is_Some (old !! i).
Proof.
  rewrite lookup_lt_is_Some, <- (ex_length _ _ _ _ _ _ Hex). unfold in_graph. cbn. split; [by intros [? _]|].
  intros Hi. split; [exact Hi|]. unfold SG.contains. rewrite Hexc. unfold bit, bitset_empty.
  by rewrite lookup_replicate_2.
Qed.

Lemma extracted_vertex i u : old !! i = Some u ->
  SG.decoration G i = sg_decoration (view b) u /\ SG.rank G i = sg_rank (view b) u.
Proof.
  intros Hi. destruct (ex_vertices _ _ _ _ _ _ Hex i u Hi) as (v & v' & Hv & Hv' & _ & Hd & Hr).
  rewrite (view_decoration b u v Hv), (view_rank b u v Hv), <- Hd, <- Hr. unfold SG.decoration, SG.rank, SG.find_vertex.
  unfold vertices in Hv'. by rewrite Hv'.
Qed.

Lemma extracted_edge i u j v : old !! i = Some u -> old !! j = Some v ->
  j ∈ SG.all_successors G i <-> graph_edge (view b) u v.
Proof.
  intros Hi Hj. change (j ∈ succs (vertices g) i <-> v ∈ succs (vertices b) u). rewrite (ex_edges _ _ _ _ _ _ Hex i j).
  split; [intros (u' & v' & Hu & Hv & He); by simplify_eq|]. intros He. by exists u, v.
Qed.

Lemma extracted_iso dead : dead_ok (view b) dead ->
  game_iso (graph_edge (view b)) (edge (arena G)) (graph_owner (view b)) (owner (arena G)) (sg_rank (view b)) (ar_rank (arena G))
    dead (ar_dead (arena G)) (fun u => kept u) (in_graph G) (fun i => old !! i) position.
Proof.
  intros Hd. split.
  - apply position_old.
  - intros u. rewrite list_elem_of_lookup. unfold is_Some. by setoid_rewrite position_old.
  - apply extracted_in.
  - intros i u j v Hi Hj. unfold edge. rewrite <- successors_arena. by apply extracted_edge.
  - intros i u alpha Hi. unfold owner, graph_owner. rewrite <- decoration_arena. by rewrite (proj1 (extracted_vertex i u Hi)).
  - intros i u Hi. rewrite <- rank_arena. by apply extracted_vertex.
  - intros i u Hi Hn. assert (Hk : kept u) by (by apply list_elem_of_lookup_2 in Hi).
    assert (Hs : sg_successors (view b) u = []).
    { destruct (sg_successors (view b) u) as [|v l] eqn:E; [done|]. destruct Hn. apply kept_successor; [done|].
      assert (Hv : v ∈ sg_successors (view b) u) by (rewrite E; left). exists v. split; [done|].
      by apply (successors_in _ (view_ok pp b (rp_ok _ _ _ (oi_represents _ _ _ Ho))) u). }
    unfold ar_dead. rewrite <- decoration_arena, (proj1 (extracted_vertex i u Hi)).
    destruct (kept_constant u Hk Hs) as [E|E]; rewrite E; symmetry; by apply Hd.
Qed.

(** The winner is the same. *)
Lemma extracted_winner alpha dead : alpha < 2 -> dead_ok (view b) dead ->
  won G alpha (SG.m_initial_vertex G) <-> exists sigma, graph_wins (view b) dead alpha sigma u0.
Proof.
  intros Ha Hd. pose proof (extracted_iso dead Hd) as HI. pose proof (ex_initial _ _ _ _ _ _ Hex) as H0.
  assert (Hk0 : kept u0) by (by apply list_elem_of_lookup_2 in H0). split.
  - intros (sigma & Hw). assert (Hin : in_graph G (SG.m_initial_vertex G)) by (apply extracted_in; by exists u0).
    pose proof (wins_region _ _ _ _ _ _ _ _ Hw Hin) as HR.
    apply (region_iso (iso_sym HI)) in HR. apply explored_region in HR; [|done|done].
    eexists. apply (graph_region_wins _ _ _ _ _ u0 HR). eexists. split; [by apply position_old|apply rtc_refl].
  - intros (sigma & Hw). pose proof (wins_region _ _ _ _ _ _ _ _ Hw (kept_in u0 Hk0)) as HW.
    destruct (kept_region dead alpha sigma _ Ha Hd HW) as (sigma' & HR). apply (region_iso HI) in HR.
    eexists. apply (region_wins _ _ _ _ _ _ _ _ (SG.extent G) _ HR).
    + intros i (u & Hi & _). assert (Hin : in_graph G i) by (apply extracted_in; by exists u). apply Hin.
    + exists u0. split; [done|]. split; [done|]. right. apply rtc_refl.
Qed.

(** Every variable that is left has its equation. *)
Lemma extracted_variable i v :
  vertices g !! i = Some v -> is_propositional_variable_instantiation (SG.formula v) = true ->
  exists psi, (SG.formula v, psi, SG.v_rank v) ∈ eqs.
Proof.
  intros Hv Hp. pose proof (oi_represents _ _ _ Ho) as Hr. pose proof (lookup_lt_Some _ _ _ Hv) as Hlt.
  rewrite (ex_length _ _ _ _ _ _ Hex) in Hlt. destruct (lookup_lt_is_Some_2 _ _ Hlt) as [u Hu].
  destruct (ex_vertices _ _ _ _ _ _ Hex i u Hu) as (w & v' & Hw & Hv' & Hf & _ & Hk). assert (v' = v) as -> by congruence.
  rewrite Hf, Hk in *. destruct (Hexp u) as (w' & Hw' & Hn); [by apply list_elem_of_lookup_2 in Hu|].
  assert (w' = w) as -> by congruence. destruct (decide (SG.formula w ∈ eqs.*1.*1)) as [Hin|Hno].
  - apply elem_of_equations in Hin as (psi & k & Hin). exists psi.
    destruct (rp_equations _ _ _ Hr _ _ _ Hin) as (x & y & Hx & Hy & _ & Ek & _).
    assert (Hx' : lookup_map b (SG.formula w) = Some u) by (apply (bo_map pp b (rp_ok _ _ _ Hr)); by exists w).
    assert (x = u) as -> by congruence. assert (y = w) as -> by congruence. by rewrite Ek.
  - destruct Hn. split; [done|]. split; [done|]. by apply (rp_unexplored _ _ _ Hr u w).
Qed.

(** The solver can be applied to what is left. *)
Lemma extracted_valid : valid G /\ terminal G /\ total G.
Proof.
  pose proof (oi_represents _ _ _ Ho) as Hr. pose proof (oi_equations _ _ _ Ho) as Hall.
  assert (Hsucc : forall i j, j ∈ SG.all_successors G i -> exists u w, old !! i = Some u /\ old !! j = Some w /\ w ∈ succs (vertices b) u).
  { intros i j. apply (ex_edges _ _ _ _ _ _ Hex). }
  assert (Hout : forall i, old !! i = None -> SG.find_vertex G i = None).
  { intros i Hi. apply lookup_ge_None. apply lookup_ge_None in Hi. rewrite <- (ex_length _ _ _ _ _ _ Hex) in Hi. exact Hi. }
  split; [split; [split| |]|split].
  - rewrite Hexc. apply length_replicate.
  - apply (bo_edges pp g Hok).
  - apply (bo_matched pp g Hok).
  - intros i j k Hd Hc (u & w & Hu & Hw & He)%Hsucc (u' & w' & Hu' & Hw' & He')%Hsucc. assert (u' = u) as -> by congruence.
    rewrite (proj1 (extracted_vertex i u Hu)) in Hd, Hc.
    assert (w' = w) as -> by (exact (represents_unowned pp eqs b u w' w Hr Hall Hd Hc He' He)).
    by apply (NoDup_lookup old j k w extracted_NoDup).
  - intros i. destruct (old !! i) as [u|] eqn:Hi; [|unfold SG.rank; by rewrite (Hout i Hi)].
    rewrite (proj2 (extracted_vertex i u Hi)). by apply (represents_rank pp eqs b).
  - intros i Hd. destruct (SG.all_successors G i) as [|j l] eqn:E; [done|exfalso].
    assert (Hj : j ∈ SG.all_successors G i) by (rewrite E; left). apply Hsucc in Hj as (u & w & Hu & Hw & He).
    rewrite (proj1 (extracted_vertex i u Hu)) in Hd. apply (constant_no_successors u w Hd He).
  - intros i Hi Ht Hf Hs. apply extracted_in in Hi as [u Hu]. rewrite (proj1 (extracted_vertex i u Hu)) in Ht, Hf.
    assert (Hk : kept u) by (by apply list_elem_of_lookup_2 in Hu).
    destruct (sg_successors (view b) u) as [|v l] eqn:E; [by destruct (kept_constant u Hk E)|].
    assert (Hv : v ∈ sg_successors (view b) u) by (rewrite E; left). destruct (kept_successor u Hk) as (w & He & [j Hj]%list_elem_of_lookup).
    { exists v. split; [done|]. by apply (successors_in _ (view_ok pp b (rp_ok _ _ _ Hr)) u). }
    assert (Hin : j ∈ SG.successors G i); [|rewrite Hs in Hin; by apply elem_of_nil in Hin].
    apply SG.elem_of_successors. split; [|by apply (extracted_edge i u j w)]. apply extracted_in. by exists w.
Qed.

End Winner.
