(* ===== verification/OnTheFlyRun.v ===== *)
(** * Instantiation with solving on the fly

    The exploration of [pbesinst_structure_graph_algorithm2] ends, with a graph
    of simplified equations, solved sets that are won by their players, and
    either a solution for the initial variable or nothing left to explore that
    the initial variable depends on. *)

From Stdlib Require Import Lia NArith.
From stdpp Require Import base strings numbers sets list list_numbers sorting relations.
From S2P Require Import Prelude VertexSets StructureGraph Attractors ParityGame Solver SolverCheck Arena FatalAttractors GraphGame FatalAttractorsCorrect FatalTheorems FindLoops PartialSolve.
From S2P Require Import Terms DataExpressions PbesExpressions GraphBuilder GraphBuilderCorrect GraphBuilderErrors GraphBuilderTheorems Instantiation InstantiationCorrect OnTheFly RplusCorrect OnTheFlyGraph OnTheFlyReport OnTheFlySolve OnTheFlyPrune.

Local Open Scope mcrl2_scope.

(** ** The number of vertices

    The report of an equation adds at most one vertex for its variable and one
    for every node of its right-hand side; simplification with solved vertices
    does not make a right-hand side larger. *)

Section Size.
Context {variable symbol : Type} `{EqDecision variable} `{EqDecision symbol}.
Abbreviation pbes_expression := (@pbes_expression variable symbol).
Abbreviation builder := (@structure_graph_builder variable symbol).
Context (pp : pbes_expression -> string) (term_less : pbes_expression -> pbes_expression -> bool).
Implicit Types (b : builder) (psi x y : pbes_expression).

Abbreviation sizes := (sum_list_with (@size variable symbol)).
Abbreviation vertex_count b := (length (vertices b)).

Lemma submseteq_sum {A} (f : A -> nat) l1 l2 : l1 ⊆+ l2 -> sum_list_with f l1 <= sum_list_with f l2.
Proof. intros [k ->]%submseteq_Permutation. rewrite sum_list_with_app. lia. Qed.

Lemma NoDup_sum {A} (f : A -> nat) l1 l2 :
  NoDup l1 -> (forall a : A, a ∈ l1 -> a ∈ l2) -> sum_list_with f l1 <= sum_list_with f l2.
Proof. intros H1 H2. by apply submseteq_sum, NoDup_submseteq. Qed.

Lemma ordered_sizes l : sizes (ordered_operands term_less (remove_dups l)) <= sizes l.
Proof.
  unfold ordered_operands. rewrite merge_sort_Permutation. apply NoDup_sum; [apply NoDup_remove_dups|].
  intros x. by rewrite elem_of_remove_dups.
Qed.

Lemma split_and_sizes x : sizes (split_and x) <= size x.
Proof.
  induction x as [e|n p|p IHp|p IHp q IHq|p IHp q IHq|p IHp q IHq|v p IHp|v p IHp]; cbn [split_and]; cbn; try lia.
  rewrite sum_list_with_app. lia.
Qed.

Lemma split_or_sizes x : sizes (split_or x) <= size x.
Proof.
  induction x as [e|n p|p IHp|p IHp q IHq|p IHp q IHq|p IHp q IHq|v p IHp|v p IHp]; cbn [split_or]; cbn; try lia.
  rewrite sum_list_with_app. lia.
Qed.

Lemma split_and_ordered_sizes p q : sizes (split_and_ordered term_less (pbes_and p q)) <= size p + size q.
Proof.
  etransitivity; [apply ordered_sizes|]. cbn [split_and]. rewrite sum_list_with_app.
  pose proof (split_and_sizes p). pose proof (split_and_sizes q). lia.
Qed.

Lemma split_or_ordered_sizes p q : sizes (split_or_ordered term_less (pbes_or p q)) <= size p + size q.
Proof.
  etransitivity; [apply ordered_sizes|]. cbn [split_or]. rewrite sum_list_with_app.
  pose proof (split_or_sizes p). pose proof (split_or_sizes q). lia.
Qed.

Lemma insert_vertex_count x b u b' : insert_vertex pp x b = Returns (u, b') -> vertex_count b' <= vertex_count b + 1.
Proof.
  unfold insert_vertex. intros E. destruct (map_find _ x); [injection E as <- <-; lia|].
  apply bind_returns in E as (d & _ & [= <- <-]). unfold vertices at 1. cbn. rewrite length_app. cbn. lia.
Qed.

Lemma insert_operands_count f u l b b' :
  (forall y b v b', f y b = Returns (v, b') -> vertex_count b' <= vertex_count b + size y) ->
  insert_operands f u l b = Returns b' -> vertex_count b' <= vertex_count b + sizes l.
Proof.
  intros Hf. revert b. induction l as [|y l IH]; intros b E; cbn in E; [injection E as <-; lia|].
  apply bind_returns in E as ([v b1] & E1 & E). apply Hf in E1. apply IH in E.
  rewrite vertices_insert_edge, insert_edge_length in E. cbn. lia.
Qed.

Lemma SG1_count fuel psi b u b' : SG1 pp term_less fuel psi b = Returns (u, b') -> vertex_count b' <= vertex_count b + size psi.
Proof.
  revert psi b u b'. induction fuel as [|fuel IH]; intros psi b u b' E; [done|]. cbn [SG1] in E.
  apply bind_returns in E as ([w b1] & E1 & E). apply insert_vertex_count in E1.
  assert (Hnode : forall l, (let! b := insert_operands (SG1 pp term_less fuel) w l b1 in Returns (w, b)) = Returns (u, b') ->
    vertex_count b' <= vertex_count b1 + sizes l).
  { intros l E'. apply bind_returns in E' as (b2 & E2 & [= <- <-]). exact (insert_operands_count _ _ _ _ _ IH E2). }
  destruct psi as [[]|nm ps|p|p q|p q|p q|vs p|vs p]; cbn [is_true is_false is_propositional_variable_instantiation is_and is_or] in E;
    try (injection E as <- <-; cbn; lia).
  - apply Hnode in E. pose proof (split_and_ordered_sizes p q). cbn. lia.
  - apply Hnode in E. pose proof (split_or_ordered_sizes p q). cbn. lia.
Qed.

Lemma report_count x psi k b b' :
  on_report_equation pp term_less x psi k b = Returns b' -> vertex_count b' <= vertex_count b + S (size psi).
Proof.
  unfold on_report_equation. intros E.
  assert (Hv : vertices (match m_initial_state b with None => set_initial_state x b | Some _ => b end) = vertices b)
    by (by destruct (m_initial_state b)).
  rewrite <- Hv. revert E. generalize (match m_initial_state b with None => set_initial_state x b | Some _ => b end).
  clear b Hv. intros b E. unfold SG0 in E. apply bind_returns in E as ([u b1] & E1 & E).
  assert (H1 : vertex_count b1 <= vertex_count b + 1).
  { unfold insert_variable_equation in E1. apply bind_returns in E1 as ([w b0] & E0 & E1).
    apply bind_returns in E1 as (d & _ & [= <- <-]). apply insert_vertex_count in E0.
    change (length (alter (with_equation d k) w (vertices b0)) <= vertex_count b + 1). by rewrite length_alter. }
  destruct psi as [[]|nm ps|p|p q|p q|p q|vs p|vs p]; cbn [is_true is_false is_propositional_variable_instantiation is_and is_or] in E;
    try (injection E as <-; cbn; lia).
  - apply bind_returns in E as ([w b2] & E2 & [= <-]). apply insert_vertex_count in E2.
    rewrite vertices_insert_edge, insert_edge_length. cbn. lia.
  - apply (insert_operands_count _ _ _ _ _ (fun y b v b' => SG1_count _ y b v b')) in E.
    pose proof (split_and_ordered_sizes p q). cbn. lia.
  - apply (insert_operands_count _ _ _ _ _ (fun y b v b' => SG1_count _ y b v b')) in E.
    pose proof (split_or_ordered_sizes p q). cbn. lia.
Qed.

(** *** Simplification *)

Definition element_size (e : @stack_element variable symbol) : nat :=
  size (re_f e) `max` size (re_g0 e) `max` size (re_g1 e).

Lemma expression_size_positive x : 0 < size x.
Proof. destruct x; cbn; lia. Qed.

Lemma Rplus_size S b x e : Rplus pp term_less S b x = Returns e -> element_size e <= size x.
Proof.
  revert e. induction x as [[]|n p|p IHp|p IHp q IHq|p IHp q IHq|p IHp q IHq|v p IHp|v p IHp]; cbn [Rplus]; intros e E; try done;
    try (injection E as <-; cbn; lia).
  - injection E as <-. unfold leave_variable. repeat case_match; cbn; lia.
  - apply IHp in E. cbn. lia.
  - apply bind_returns in E as (e1 & E1 & E). apply bind_returns in E as (e2 & E2 & [= <-]). apply IHp in E1. apply IHq in E2.
    unfold element_size in *. unfold leave_and. repeat case_match; cbn; pose proof (expression_size_positive p); lia.
  - apply bind_returns in E as (e1 & E1 & E). apply bind_returns in E as (e2 & E2 & [= <-]). apply IHp in E1. apply IHq in E2.
    unfold element_size in *. unfold leave_or. repeat case_match; cbn; pose proof (expression_size_positive p); lia.
Qed.

Lemma rewrite_psi_size psi (o : @otf_state variable symbol) psi' o' :
  otf_rewrite_psi pp term_less psi o = Returns (psi', o') -> size psi' <= size psi.
Proof.
  unfold otf_rewrite_psi. intros E. apply bind_returns in E as (e & E & [= <- _]). apply Rplus_size in E.
  unfold element_size in E. destruct (re_b e) as [[]|]; lia.
Qed.

End Size.

(** ** The exploration *)

Section Run.
Context {variable symbol : Type} `{EqDecision variable} `{EqDecision symbol}.
Abbreviation pbes_expression := (@pbes_expression variable symbol).
Abbreviation builder := (@structure_graph_builder variable symbol).
Abbreviation is_pvi := is_propositional_variable_instantiation.
Abbreviation equation := (pbes_expression * pbes_expression * N)%type.
Abbreviation otf := (@otf_state variable symbol).
Context (pp : pbes_expression -> string) (term_less : pbes_expression -> pbes_expression -> bool).
Context (hash_order : list pbes_expression -> list pbes_expression) (m_options : pbessolve_options).
Context (R : pbes_expression -> (pbes_expression -> pbes_expression) -> pbes_expression).
Context (rank : pbes_expression -> N) (is_mu : pbes_expression -> bool) (init : pbes_expression).
Implicit Types (X Y psi : pbes_expression) (o : otf) (st : lazy_state variable symbol otf) (eqs : list equation).

Abbreviation algorithm := (pbesinst_structure_graph_algorithm2 pp term_less hash_order m_options).
Abbreviation otf_run_step := (run_step term_less m_options R rank is_mu (H := algorithm)).
Abbreviation otf_run_thread := (run_thread term_less m_options R rank is_mu (H := algorithm)).
Abbreviation rhs := (rhs m_options R is_mu).
Abbreviation reachable := (reachable m_options R is_mu init).
Abbreviation variables eqs := (eqs.*1.*1).
Abbreviation cost := (sum_list_with (fun X => S (size (rhs X)))).

(** The options for which the solved sets are right; see [FatalTheorems.v] and
    [FindLoopsTheorems.v] for the others. *)
Definition sound_option : bool :=
  match optimization m_options with
  | detect_winning_loops_using_fatal_attractor | solve_subgames_using_fatal_attractor_local
  | detect_winning_loops_original => false
  | _ => true
  end.

Hypothesis Hinit : is_pvi init = true.
Hypothesis Hrhs : forall X, reachable X ->
  supported (rhs X) = true /\ simplified (rhs X) = true /\ (rank X <= undefined_index)%N.
Hypothesis Hhash : forall l, hash_order l ≡ₚ l.
Hypothesis Hsound : sound_option = true.

(** All that is reachable. *)
Context (l : list pbes_expression).
Hypothesis Hl : forall X, reachable X -> X ∈ l.
Hypothesis Hcost : (N.of_nat (cost l) < 2 ^ 63)%N.

(** ** The invariant *)

Record solving eqs st : Prop := {
  so_inv : otf_inv pp eqs (m_derived st);
  so_guards : guards_ok (m_derived st);
  so_source : forall X psi k, (X, psi, k) ∈ eqs -> reachable X /\ k = rank X /\
    forall eta, agrees (m_graph_builder (m_derived st)) (m_S (m_derived st)) eta -> eval eta psi = eval eta (rhs X);
  so_NoDup : NoDup (variables eqs);
  so_variables : forall X, variable_vertex (m_graph_builder (m_derived st)) X -> X ∈ m_discovered st /\ reachable X;
  so_todo : NoDup (m_todo st);
  so_fresh : forall X, X ∈ m_todo st -> X ∉ variables eqs /\ reachable X /\ X ∈ m_discovered st;
  so_open : prune_todo_list_option m_options = false ->
    forall X, X ∈ m_discovered st -> X ∈ variables eqs \/ X ∈ m_todo st;
  so_init : m_init st = init;
  so_initial : (eqs = [] /\ m_todo st = [init] /\ m_initial_state (m_graph_builder (m_derived st)) = None) \/
    (m_initial_state (m_graph_builder (m_derived st)) = Some init /\ init ∈ variables eqs);
  so_count : m_iteration_count st = N.of_nat (length eqs);
  so_cost : length (vertices (m_graph_builder (m_derived st))) <= cost (variables eqs)
}.

Definition frontier st : Prop := m_todo st = [] -> forall Y,
  rtc (unsolved_step (m_derived st)) init Y -> ~ is_leaf (m_derived st) Y.

(** The part of the state that the invariant is about. *)
Definition same_core o o' : Prop :=
  m_graph_builder o' = m_graph_builder o /\ m_S o' = m_S o /\ m_tau o' = m_tau o.

Lemma otf_inv_core eqs o o' : same_core o o' -> otf_inv pp eqs o -> otf_inv pp eqs o'.
Proof. destruct o, o'. intros (E1 & E2 & E3). cbn in *. subst. intros []. by split. Qed.

Lemma equation_variable eqs o X :
  otf_inv pp eqs o -> X ∈ variables eqs -> is_Some (lookup_map (m_graph_builder o) X) /\ variable_vertex (m_graph_builder o) X.
Proof.
  intros Ho HX. apply elem_of_equations in HX as (psi & k & HX).
  destruct (rp_equations _ _ _ (oi_represents _ _ _ Ho) X psi k HX) as (u & _ & Hu & _). split; [by exists u|].
  pose proof (proj1 (bo_map pp _ (rp_ok _ _ _ (oi_represents _ _ _ Ho)) X u) Hu) as (v & Hv & Hf).
  pose proof (oi_equations _ _ _ Ho) as Hall. rewrite Forall_forall in Hall.
  split; [apply (Hall _ HX)|by exists u, v].
Qed.

Lemma leaf_unexplored eqs o X :
  otf_inv pp eqs o -> is_leaf o X -> X ∉ variables eqs /\ variable_vertex (m_graph_builder o) X.
Proof.
  intros Ho (u & v & Hu & Hv & Hleaf). pose proof (oi_represents _ _ _ Ho) as Hr.
  pose proof (proj1 (bo_map pp _ (rp_ok _ _ _ Hr) X u) Hu) as (v' & Hv' & Hf). assert (v' = v) as -> by congruence.
  apply andb_true_iff in Hleaf as [Hd%bool_decide_eq_true Hs%bool_decide_eq_true].
  destruct (vertex_cases pp eqs _ u v Hr (oi_equations _ _ _ Ho) Hv) as [(Hp & Hn & _)|(psi & Hsup & Hdec & HL & _)].
  - rewrite Hf in *. split; [done|]. split; [done|by exists u, v].
  - exfalso. apply leads_to_no_operands in HL; [|by rewrite (succs_lookup _ _ _ Hv)]. rewrite Hd in Hdec.
    destruct (rhs_operands_nonempty psi Hsup HL) as [E|E]; destruct psi as [[]| | | | | | |]; done.
Qed.

(** ** Steps that keep it *)

Lemma solving_solver eqs st o' :
  solving eqs st -> otf_inv pp eqs o' -> otf_grows (m_derived st) o' ->
  same_builder (m_graph_builder (m_derived st)) (m_graph_builder o') -> guards_ok o' -> solving eqs (with_otf o' st).
Proof.
  intros [S1 S2 S3 S4 S5 S6 S7 S8 S9 S10 S11 S12] Ho' Hg Hsb Hgd. split; cbn [with_otf m_derived m_todo m_discovered m_init m_iteration_count]; auto.
  - intros X psi k Hin. destruct (S3 X psi k Hin) as (H1 & H2 & H3). split; [done|]. split; [done|].
    intros eta Ha. apply H3. by apply (agrees_grows (m_derived st) o').
  - intros X [Hp (u & v & Hv & Hf)]. destruct (same_builder_vertex _ _ u v Hsb Hv) as (w & Hw & E & _).
    apply S5. split; [done|]. exists u, w. split; [done|congruence].
  - by rewrite (sb_initial _ _ Hsb).
  - by rewrite (same_builder_length _ _ Hsb).
Qed.

Lemma solving_core eqs st o' :
  solving eqs st -> same_core (m_derived st) o' -> m_S_guard o' = m_S_guard (m_derived st) -> solving eqs (with_otf o' st).
Proof.
  intros Hs Hc Hgd. pose proof Hc as (E1 & E2 & E3). apply solving_solver; [done|by apply (otf_inv_core eqs (m_derived st)), Hs| | |].
  - intros alpha X Ha HX. by rewrite E1, E2.
  - rewrite E1. by split.
  - unfold guards_ok. rewrite Hgd. apply Hs.
Qed.

Lemma solving_init eqs st : solving eqs st -> eqs <> [] ->
  m_initial_state (m_graph_builder (m_derived st)) = Some init /\
  is_Some (lookup_map (m_graph_builder (m_derived st)) init).
Proof.
  intros Hs Hne. destruct (so_initial _ _ Hs) as [(-> & _)|[H1 H2]]; [done|]. split; [done|].
  by apply (equation_variable eqs (m_derived st) init (so_inv _ _ Hs)).
Qed.

Lemma solving_prune eqs st steps :
  solving eqs st -> eqs <> [] -> prune_todo_list_option m_options = true ->
  exists st' steps', prune_todo_list hash_order m_options st steps = Returns (st', steps') /\ solving eqs st' /\
    frontier st' /\ m_derived st' = m_derived st.
Proof.
  intros Hs Hne Hopt. destruct (solving_init eqs st Hs Hne) as [Hi1 Hi2].
  destruct (prune_todo_list_spec pp hash_order m_options Hhash st steps) as (todo & steps' & E & Hnd & HE).
  { apply (oi_represents _ _ _ (so_inv _ _ Hs)). } { by rewrite (so_init _ _ Hs). }
  eexists _, _. split; [exact E|]. rewrite (so_init _ _ Hs) in HE. split; [|split; [|done]].
  - destruct Hs as [S1 S2 S3 S4 S5 S6 S7 S8 S9 S10 S11 S12]. split; cbn [m_derived m_todo m_discovered m_init m_iteration_count]; auto.
    + intros X [_ HX]%HE. destruct (leaf_unexplored eqs _ X S1 HX) as [Hn Hv]. destruct (S5 X Hv). auto.
    + congruence.
    + right. by destruct S10 as [(-> & _)|].
  - intros Ht Y HY HL. cbn in *. assert (HYt : Y ∈ todo) by (by apply HE). rewrite Ht in HYt. by apply elem_of_nil in HYt.
Qed.

Lemma frontier_open eqs st : solving eqs st -> prune_todo_list_option m_options = false -> frontier st.
Proof.
  intros Hs Hopt Ht Y HY HL. destruct (leaf_unexplored eqs _ Y (so_inv _ _ Hs) HL) as [Hn Hv].
  destruct (so_variables _ _ Hs Y Hv) as [Hd _]. destruct (so_open _ _ Hs Hopt Y Hd) as [|HYt]; [done|].
  rewrite Ht in HYt. by apply elem_of_nil in HYt.
Qed.

Lemma prune_time_triggered_spec eqs st :
  solving eqs st -> eqs <> [] ->
  exists st', prune_todo_list_time_triggered hash_order m_options st = Returns st' /\ solving eqs st' /\ frontier st'.
Proof.
  intros Hs Hne. unfold prune_todo_list_time_triggered.
  destruct (prune_todo_list_option m_options) eqn:Eo; [|exists st; split; [done|]; split; [done|by apply (frontier_open eqs)]].
  destruct (is_expired (reset_guard (m_derived st))) as [expired g]. set (st1 := with_otf (with_reset g (m_derived st)) st).
  assert (Hs1 : solving eqs st1) by (by apply solving_core).
  destruct (expired || bool_decide (m_todo st1 = []) || aggressive m_options) eqn:Ec.
  - destruct (solving_prune eqs st1 0 Hs1 Hne Eo) as (st2 & steps & -> & Hs2 & Hf2 & _). cbn [outcome_bind].
    eexists. split; [done|]. split; [by apply solving_core|]. exact Hf2.
  - exists st1. split; [done|]. split; [done|]. intros Ht. exfalso. rewrite Ht, bool_decide_true, orb_true_r in Ec by done. done.
Qed.

Lemma prune_conditional_spec eqs st steps :
  solving eqs st -> eqs <> [] ->
  exists st' steps', prune_todo_list_conditional hash_order m_options st steps = Returns (st', steps') /\ solving eqs st'.
Proof.
  intros Hs Hne. unfold prune_todo_list_conditional. destruct (prune_todo_list_option m_options) eqn:Eo; [|by exists st, steps].
  destruct (solving_prune eqs st steps Hs Hne Eo) as (st2 & steps2 & -> & Hs2 & _). by exists st2, steps2.
Qed.

Lemma partial_solver_spec eqs st :
  solving eqs st -> eqs <> [] ->
  exists o' steps, partial_solver m_options st (m_derived st) = Returns (o', steps) /\ solving eqs (with_otf o' st).
Proof.
  intros Hs Hne. destruct (solving_init eqs st Hs Hne) as [Hi1 Hi2]. pose proof (so_inv _ _ Hs) as Ho.
  assert (Hguard : forall o', m_S_guard o' = m_S_guard (m_derived st) -> guards_ok o').
  { intros o' E. unfold guards_ok. rewrite E. apply Hs. }
  assert (Hnone : exists o' steps, Returns (m_derived st, 0%N) = Returns (o', steps) /\ solving eqs (with_otf o' st)).
  { eexists _, _. split; [done|]. by apply solving_core. }
  unfold partial_solver. pose proof Hsound as Hopt. unfold sound_option in Hopt. destruct (optimization m_options); try done.
  - destruct (on_simple_graph_spec pp _ eqs _ fatal_original_sound Ho) as (o' & steps & -> & Ho' & Hg & Hsb & EG).
    exists o', steps. split; [done|]. apply solving_solver; auto.
  - destruct (on_structure_graph_spec pp eqs _ (m_todo st) init Ho Hi1 Hi2) as (o' & -> & Ho' & Hg & Hsb & EG).
    exists o', 0%N. split; [done|]. apply solving_solver; auto.
Qed.

Lemma solve_when_triggered_spec eqs st :
  solving eqs st -> eqs <> [] ->
  exists st', solve_when_triggered hash_order m_options st = Returns st' /\ solving eqs st'.
Proof.
  intros Hs Hne. unfold solve_when_triggered.
  assert (Hgo : exists go o1, (if aggressive m_options then (true, m_derived st)
    else let '(e, g) := is_expired (on_the_fly_solve_trigger (m_derived st)) in (e, with_trigger g (m_derived st))) = (go, o1) /\
    solving eqs (with_otf o1 st)).
  { destruct (aggressive m_options); [eexists _, _; split; [done|]; by apply solving_core|].
    destruct (is_expired _) as [e g]. eexists _, _. split; [done|]. by apply solving_core. }
  destruct Hgo as (go & o1 & -> & Hs1). destruct go; [|by eexists].
  destruct (partial_solver_spec eqs (with_otf o1 st) Hs1 Hne) as (o2 & steps & E & Hs2). cbn [with_otf m_derived] in E.
  change (partial_solver m_options (with_otf o1 st) o1) with (partial_solver m_options st o1) in E. rewrite E. cbn [outcome_bind].
  rewrite (assert_strategies_holds pp eqs o2 (so_inv _ _ Hs2)). cbn [outcome_bind].
  set (o3 := with_trigger _ o2). assert (Hs3 : solving eqs (with_otf o3 st)) by (by apply (solving_core eqs (with_otf o2 st))).
  destruct (prune_conditional_spec eqs _ steps Hs3 Hne) as (st4 & steps4 & -> & Hs4). cbn [outcome_bind]. by exists st4.
Qed.

Lemma solving_small eqs st : solving eqs st -> small (m_graph_builder (m_derived st)).
Proof.
  intros Hs. unfold small. pose proof (so_cost _ _ Hs) as Hc.
  assert (cost (variables eqs) <= cost l); [|lia]. apply NoDup_sum; [apply Hs|].
  intros X HX. apply Hl. apply elem_of_equations in HX as (psi & k & HX). by apply (so_source _ _ Hs X psi k).
Qed.

Lemma on_discovered_spec eqs st :
  solving eqs st -> eqs <> [] ->
  exists st', otf_on_discovered_elements hash_order m_options st = Returns st' /\ solving eqs st' /\ frontier st'.
Proof.
  intros Hs Hne. unfold otf_on_discovered_elements.
  assert (H1 : exists st1, match optimization m_options with
    | propagate_solved_equations_using_attractor =>
        let! o := guarded_attractor 0 (m_derived st) in let! o := guarded_attractor 1 o in
        let! _ := assert_strategies o in Returns (with_otf o st)
    | _ => if solves_subgames m_options then solve_when_triggered hash_order m_options st else Returns st
    end = Returns st1 /\ solving eqs st1).
  { assert (Hother : exists st1, (if solves_subgames m_options then solve_when_triggered hash_order m_options st else Returns st) =
      Returns st1 /\ solving eqs st1).
    { destruct (solves_subgames m_options); [by apply solve_when_triggered_spec|by exists st]. }
    destruct (optimization m_options); try exact Hother.
    destruct (guarded_attractor_spec pp eqs (m_derived st) 0) as (o1 & -> & Ho1 & Hg1 & Hsb1 & Hgd1);
      [lia|apply Hs|apply Hs|by apply (solving_small eqs)|]. cbn [outcome_bind].
    assert (Hs1 : solving eqs (with_otf o1 st)) by (by apply solving_solver).
    destruct (guarded_attractor_spec pp eqs o1 1) as (o2 & -> & Ho2 & Hg2 & Hsb2 & Hgd2);
      [lia|done|done|by apply (solving_small eqs (with_otf o1 st))|]. cbn [outcome_bind].
    rewrite (assert_strategies_holds pp eqs o2 Ho2). cbn [outcome_bind].
    eexists. split; [done|]. by apply (solving_solver eqs (with_otf o1 st)). }
  destruct H1 as (st1 & -> & Hs1). cbn [outcome_bind]. by apply prune_time_triggered_spec.
Qed.

(** ** The loop *)

(** The state between the report of an equation and [on_discovered_elements]. *)
Lemma solving_report eqs st X rest psi' o2 :
  solving eqs st -> m_todo st ≡ₚ X :: rest ->
  otf_inv pp (eqs ++ [(X, psi', rank X)]) o2 -> otf_grows (m_derived st) o2 -> guards_ok o2 ->
  (forall Y, Y ∈ occurrences psi' -> depends m_options R is_mu X Y) ->
  (forall eta, agrees (m_graph_builder (m_derived st)) (m_S (m_derived st)) eta -> eval eta psi' = eval eta (rhs X)) ->
  size psi' <= size (rhs X) ->
  on_report_equation pp term_less X psi' (rank X) (m_graph_builder (m_derived st)) = Returns (m_graph_builder o2) ->
  let occ := find_propositional_variable_instantiations term_less psi' in
  solving (eqs ++ [(X, psi', rank X)])
    (mk_lazy (todo_insert rest occ (m_discovered st)) (foldl discover (m_discovered st) occ) (m_init st)
      (m_iteration_count st + 1)%N (global_current_prune_round st) o2).
Proof.
  intros Hs Hp Ho2 Hg Hgd Hocc Heval Hsize E occ. destruct Hs as [S1 S2 S3 S4 S5 S6 S7 S8 S9 S10 S11 S12].
  assert (HXt : X ∈ m_todo st) by (rewrite Hp; left). destruct (S7 X HXt) as (HXn & HXr & HXd).
  assert (HXp : is_pvi X = true) by (exact (reachable_pvi pp term_less _ _ _ _ Hinit X HXr)).
  assert (Hrest : forall Y, Y ∈ rest -> Y ∈ m_todo st) by (intros Y HY; rewrite Hp; by right).
  rewrite Hp in S6. apply NoDup_cons in S6 as [HXrest S6].
  assert (Hin : forall Y, Y ∈ occ <-> Y ∈ occurrences psi') by (intros Y; apply elem_of_find_pvi).
  assert (Hdone : forall Y, Y ∈ variables eqs -> Y ∈ m_discovered st).
  { intros Y HY. destruct (equation_variable eqs _ Y S1 HY) as [_ Hv]. by apply S5. }
  assert (Hreach : forall Y, Y ∈ occurrences psi' -> reachable Y) by (intros Y HY; eapply rtc_r; [exact HXr|by apply Hocc]).
  assert (Hvars : variables (eqs ++ [(X, psi', rank X)]) = variables eqs ++ [X]) by (by rewrite !fmap_app).
  split; cbn [m_derived m_todo m_discovered m_init m_iteration_count]; rewrite ?Hvars; auto.
  - intros Y psi k [HY|HY]%elem_of_app.
    + destruct (S3 Y psi k HY) as (H1 & H2 & H3). split; [done|]. split; [done|]. intros eta Ha. apply H3. by apply (agrees_grows _ o2).
    + apply list_elem_of_singleton in HY as [= -> -> ->]. split; [done|]. split; [done|].
      intros eta Ha. apply Heval. by apply (agrees_grows _ o2).
  - apply NoDup_app. split; [done|]. split; [|apply NoDup_singleton]. by intros Y HY ->%list_elem_of_singleton.
  - intros Y HY. rewrite (elem_of_foldl_discover pp term_less), Hin.
    destruct (report_variables pp term_less X psi' (rank X) _ _ Y HXp E HY) as [HY'|[->|HY']];
      [destruct (S5 Y HY'); by auto|by auto|]. split; [by right|by apply Hreach].
  - unfold todo_insert. apply NoDup_app. split; [done|]. split; [|apply NoDup_filter, find_pvi_NoDup].
    intros Y HY [Hn _]%list_elem_of_filter. apply Hn. by apply S7, Hrest.
  - intros Y. unfold todo_insert. rewrite (elem_of_foldl_discover pp term_less), elem_of_app, list_elem_of_filter, Hin, not_elem_of_app.
    intros [HY|[Hn HY]].
    + destruct (S7 Y (Hrest Y HY)) as (H1 & H2 & H3). split; [|auto]. split; [done|]. intros ->%list_elem_of_singleton. done.
    + split; [|auto]. split; [auto|]. intros ->%list_elem_of_singleton. done.
  - intros Hopt Y. unfold todo_insert. rewrite (elem_of_foldl_discover pp term_less), !elem_of_app, list_elem_of_filter, Hin, list_elem_of_singleton.
    destruct (decide (Y ∈ m_discovered st)) as [Hd|Hd]; [intros _|intros [|HY]; [done|auto]].
    destruct (S8 Hopt Y Hd) as [|HY]; [auto|]. rewrite Hp in HY. apply elem_of_cons in HY as [->|]; auto.
  - right. rewrite (report_initial pp term_less _ _ _ _ _ E).
    destruct S10 as [(-> & Ht & ->)|[-> Hi]]; [|split; [done|]; apply elem_of_app; by left].
    rewrite Ht in Hp. apply Permutation_length_1_inv in Hp. injection Hp as -> ->. split; [done|]. apply elem_of_app. right. left.
  - rewrite S11, length_app. cbn. lia.
  - apply report_count in E. rewrite sum_list_with_app. cbn. lia.
Qed.

Lemma otf_run_step_spec eqs st X rest :
  solving eqs st -> m_todo st ≡ₚ X :: rest -> (N.of_nat (length eqs) + 1 < max_bes_equations m_options)%N ->
  exists psi' st', otf_run_step X rest st = Returns (st', otf_solution_found init (m_derived st')) /\
    solving (eqs ++ [(X, psi', rank X)]) st' /\ frontier st'.
Proof.
  intros Hs Hp Hlim. assert (HXt : X ∈ m_todo st) by (rewrite Hp; left).
  destruct (so_fresh _ _ Hs X HXt) as (HXn & HXr & HXd). destruct (Hrhs X HXr) as (Hsup & Hsim & Hk).
  destruct (rewrite_report_spec pp term_less eqs (m_derived st) X (rhs X) (rank X)) as
    (psi' & o1 & o2 & E1 & E2 & Ho2 & Hg & Hrw & E3); auto; [apply Hs|exact (reachable_pvi pp term_less _ _ _ _ Hinit X HXr)|].
  assert (Hgd : guards_ok o2).
  { unfold guards_ok. apply bind_returns in E1 as (e & _ & [= _ <-]).
    apply bind_returns in E2 as (b' & _ & [= <-]). cbn. apply Hs. }
  pose proof (solving_report eqs st X rest psi' o2 Hs Hp Ho2 Hg Hgd (rw_occurrences _ _ _ _ Hrw) (rw_eval _ _ _ _ Hrw)
    (rewrite_psi_size pp term_less _ _ _ _ E1) E3) as Hs2. cbv zeta in Hs2.
  destruct (on_discovered_spec _ _ Hs2) as (st' & E4 & Hs' & Hf'); [by destruct eqs|].
  exists psi', st'. split; [|done]. unfold run_step, check_bes_equation_limit. rewrite (so_count _ _ Hs).
  destruct (N.leb_spec (max_bes_equations m_options) (N.of_nat (length eqs) + 1)) as [|_]; [lia|].
  cbn [outcome_bind rewrite_psi pbesinst_structure_graph_algorithm2 with_derived m_derived
    global_current_prune_round m_todo m_discovered m_init m_iteration_count].
  fold (rhs X). rewrite E1. cbn [outcome_bind with_derived m_derived global_current_prune_round m_todo m_discovered m_init m_iteration_count].
  rewrite N.eqb_refl. cbn [on_report pbesinst_structure_graph_algorithm2]. rewrite E2.
  cbn [outcome_bind on_discovered_elements solution_found pbesinst_structure_graph_algorithm2].
  rewrite (so_count _ _ Hs) in E4. rewrite E4. cbn [outcome_bind]. by rewrite (so_init _ _ Hs').
Qed.

Lemma solving_start : solving [] (mk_lazy [init] [init] init 0 0 (new_otf new_builder)).
Proof.
  split; cbn [m_derived m_todo m_discovered m_init m_iteration_count new_otf m_graph_builder m_S m_tau]; try done.
  - split; cbn.
    + apply empty_represents.
    + constructor.
    + exists 0. apply empty_fit. cbn. lia.
    + intros alpha Ha dead _. by apply (empty_regions _ dead 0 ([], [])).
    + done.
    + done.
  - exists 6%N, 6%N. done.
  - intros X psi k HX. by apply elem_of_nil in HX.
  - constructor.
  - by intros X [_ (u & v & Hv & _)].
  - apply NoDup_singleton.
  - intros X ->%list_elem_of_singleton. split; [apply not_elem_of_nil|]. split; [apply rtc_refl|left].
  - auto.
  - by left.
Qed.

(** The loop ends with a solution for the initial variable, or with nothing to do. *)
Lemma otf_run_thread_spec fuel eqs st :
  (N.of_nat (length l) < max_bes_equations m_options)%N ->
  solving eqs st -> frontier st -> length l <= fuel + length eqs ->
  exists eqs' st', otf_run_thread fuel st = Returns st' /\ solving eqs' st' /\ frontier st' /\
    (otf_solution_found init (m_derived st') = true \/ m_todo st' = []).
Proof.
  intros Hlim. revert eqs st. induction fuel as [|fuel IH]; intros eqs st Hs Hf Hfuel; cbn [run_thread];
    pose proof (next_todo_spec (exploration_strategy m_options) (m_todo st)) as Hn;
    destruct (next_todo _ (m_todo st)) as [[X rest]|];
    [|exists eqs, st; by auto 6| |exists eqs, st; by auto 6];
    (assert (Hlen : S (length eqs) <= length l);
     [transitivity (length (X :: variables eqs)); [cbn; rewrite !length_fmap; lia|];
      assert (HXt : X ∈ m_todo st) by (rewrite Hn; left); destruct (so_fresh _ _ Hs X HXt) as (HXn & HXr & _);
      apply submseteq_length, NoDup_submseteq; [apply NoDup_cons; split; [done|apply Hs]|];
      intros Y [->|HY]%elem_of_cons; [by apply Hl|];
      apply elem_of_equations in HY as (psi & k & HY); apply Hl; by apply (so_source _ _ Hs Y psi k)|]).
  - lia.
  - destruct (otf_run_step_spec eqs st X rest Hs Hn) as (psi' & st1 & -> & Hs1 & Hf1); [lia|]. cbn [outcome_bind].
    destruct (otf_solution_found init (m_derived st1)) eqn:Ef; [by exists (eqs ++ [(X, psi', rank X)]), st1; auto 6|].
    apply (IH (eqs ++ [(X, psi', rank X)])); [done|done|]. rewrite length_app. cbn. lia.
Qed.

End Run.
