(* ===== verification/OnTheFlyTheorems.v ===== *)
(** * Instantiation with solving on the fly: the theorems

    The exploration ends with correct solved sets; the extraction at its end
    always succeeds, and the structure graph that is left is complete, can be
    given to the solver and has the same winner. *)

From Stdlib Require Import Lia NArith.
From stdpp Require Import base strings numbers sets list list_numbers sorting relations.
From S2P Require Import Prelude VertexSets StructureGraph Attractors ParityGame Worklist Solver SolverCheck SolverExtended SolverTheorems Arena Evidence FatalAttractors GraphGame FatalAttractorsCorrect FatalTheorems FindLoops PartialSolve.
From S2P Require Import Terms DataExpressions PbesExpressions GraphBuilder GraphBuilderCorrect GraphBuilderErrors GraphBuilderTheorems GraphBuilderErase Instantiation InstantiationCorrect.
From S2P Require Import OnTheFly RplusCorrect OnTheFlyGraph OnTheFlyReport OnTheFlySolve OnTheFlyPrune OnTheFlyExtract OnTheFlyRun.

Local Open Scope mcrl2_scope.

(** ** The run *)

Section Theorems.
Context {variable symbol : Type} `{EqDecision variable} `{EqDecision symbol}.
Abbreviation pbes_expression := (@pbes_expression variable symbol).
Abbreviation builder := (@structure_graph_builder variable symbol).
Abbreviation is_pvi := is_propositional_variable_instantiation.
Abbreviation otf := (@otf_state variable symbol).
Context (pp : pbes_expression -> string) (term_less : pbes_expression -> pbes_expression -> bool).
Context (hash_order : list pbes_expression -> list pbes_expression) (m_options : pbessolve_options).
Context (R : pbes_expression -> (pbes_expression -> pbes_expression) -> pbes_expression).
Context (rank : pbes_expression -> N) (is_mu : pbes_expression -> bool) (init : pbes_expression).
Abbreviation algorithm := (pbesinst_structure_graph_algorithm2 pp term_less hash_order m_options).
Abbreviation rhs := (rhs m_options R is_mu).
Abbreviation reachable := (reachable m_options R is_mu init).
Abbreviation cost := (sum_list_with (fun X => S (size (rhs X)))).

Hypothesis Hinit : is_pvi init = true.
Hypothesis Hrhs : forall X, reachable X ->
  supported (rhs X) = true /\ simplified (rhs X) = true /\ (rank X <= undefined_index)%N.
Hypothesis Hhash : forall l, hash_order l ≡ₚ l.
Hypothesis Hsound : sound_option m_options = true.
Context (l : list pbes_expression) (fuel : nat).
Hypothesis Hl : forall X, reachable X -> X ∈ l.
Hypothesis Hcost : (N.of_nat (cost l) < 2 ^ 63)%N.
Hypothesis Hlimit : (N.of_nat (length l) < max_bes_equations m_options)%N.
Hypothesis Hfuel : length l <= fuel.

Abbreviation start := (mk_lazy [init] [init] init 0 0 (new_otf new_builder)).

(** At the end the initial variable has been explored. *)
Lemma end_explored eqs st :
  solving pp m_options R rank is_mu init eqs st ->
  otf_solution_found init (m_derived st) = true \/ m_todo st = [] ->
  m_initial_state (m_graph_builder (m_derived st)) = Some init /\
  exists u0, lookup_map (m_graph_builder (m_derived st)) init = Some u0.
Proof.
  intros Hs Hend. pose proof (so_inv _ _ _ _ _ _ _ _ Hs) as Ho.
  destruct (so_initial _ _ _ _ _ _ _ _ Hs) as [(-> & Ht & _)|[H1 H2]].
  - exfalso. destruct Hend as [Hfound|]; [|congruence].
    pose proof (so_cost _ _ _ _ _ _ _ _ Hs) as Hc. cbn in Hc. unfold otf_solution_found in Hfound.
    destruct (find_vertex _ init) as [u|] eqn:Eu; [|done].
    apply (lookup_map_lt pp _ init u (rp_ok _ _ _ (oi_represents _ _ _ Ho))) in Eu. lia.
  - split; [done|]. by apply (equation_variable pp eqs (m_derived st) init Ho).
Qed.

(** C13: Solving on the fly: if only finitely many variables are reachable, the
    exploration ends, for every search strategy, with or without pruning and for
    every option but the three whose partial solvers are not sound by
    themselves.  The graph represents equations for reachable variables that are
    equivalent to those of the equation system for all valuations that agree with
    the solved vertices; every vertex in [S[alpha]] is won by [alpha] with
    [tau[alpha]] whatever the unexplored variables turn out to be; and either
    the initial variable is solved, or every variable that it can reach without
    passing solved vertices has been explored. *)
Theorem otf_run_thread_correct :
  exists eqs st, run_thread term_less m_options R rank is_mu (H := algorithm) fuel start = Returns st /\
    let b := m_graph_builder (m_derived st) in
    let S := m_S (m_derived st) in
    represents pp eqs b /\
    (forall X psi k, (X, psi, k) ∈ eqs -> reachable X /\ k = rank X /\
       forall eta, agrees b S eta -> eval eta psi = eval eta (rhs X)) /\
    (forall alpha u, alpha < 2 -> u ∈ VSet.m_vertices (pick alpha S) -> forall dead, dead_ok (view b) dead ->
       graph_wins (view b) dead alpha (tau_at (m_tau (m_derived st)) alpha) u) /\
    (otf_solution_found init (m_derived st) = true \/
     forall X, rtc (unsolved_step (m_derived st)) init X -> is_pvi X = true -> X ∈ eqs.*1.*1).
Proof.
  destruct (otf_run_thread_spec pp term_less hash_order m_options R rank is_mu init Hinit Hrhs Hhash Hsound l Hl Hcost
    fuel [] start Hlimit) as (eqs & st & E & Hs & Hf & Hend); [by apply (solving_start pp m_options R rank is_mu init l Hcost)|by intros Ht|cbn; lia|].
  pose proof (so_inv _ _ _ _ _ _ _ _ Hs) as Ho. pose proof (oi_represents _ _ _ Ho) as Hr.
  exists eqs, st. split; [exact E|]. cbv zeta. split; [done|]. split; [apply Hs|]. split.
  - intros alpha u Ha Hu dead Hd. by apply (graph_region_wins _ dead alpha _ _ u (oi_regions _ _ _ Ho alpha Ha dead Hd)).
  - destruct Hend as [|Ht]; [by left|right]. intros X HX Hp.
    destruct (decide (X ∈ eqs.*1.*1)) as [|Hn]; [done|exfalso]. apply (Hf Ht X HX).
    destruct (reach_vertex pp (m_derived st) init (rp_ok _ _ _ Hr)) with (X := X) as (u & v & Hu & Hv & Hfv); [|done|].
    { by apply (end_explored eqs st Hs); right. }
    exists u, v. split; [done|]. split; [done|]. apply (unexplored_leaf eqs). rewrite <- Hfv in *.
    split; [done|]. split; [done|]. by apply (rp_unexplored _ _ _ Hr u v).
Qed.

(** [on_end_while_loop] and [finalize] after the exploration. *)
Lemma end_extracted eqs st :
  solving pp m_options R rank is_mu init eqs st -> frontier init st ->
  otf_solution_found init (m_derived st) = true \/ m_todo st = [] ->
  let b := m_graph_builder (m_derived st) in
  exists g u0 old,
    (let! st' := otf_on_end_while_loop st in Returns (finalize (m_graph_builder (m_derived st')))) = Returns (Some g) /\
    lookup_map b init = Some u0 /\ extracted b (m_S (m_derived st)) (m_tau (m_derived st)) u0 old g /\
    (forall u, u ∈ old -> exists v, vertices b !! u = Some v /\ ~ unexplored eqs v) /\
    builder_ok pp g /\ lookup_map g init = Some (SG.m_initial_vertex (m_graph g)) /\
    SG.m_exclude (m_graph g) = bitset_empty (builder_extent g).
Proof.
  intros Hs Hf Hend b. pose proof (so_inv _ _ _ _ _ _ _ _ Hs) as Ho. pose proof (oi_represents _ _ _ Ho) as Hr.
  destruct (end_explored eqs st Hs Hend) as (Hi & u0 & Hu0). unfold otf_on_end_while_loop. rewrite (so_init _ _ _ _ _ _ _ _ Hs).
  change (find_vertex (m_graph_builder (m_derived st)) init) with (lookup_map b init). fold b in Hu0. rewrite Hu0, (assert_strategies_holds pp eqs _ Ho).
  cbn [outcome_bind]. destruct (extract_on_the_fly_spec pp eqs (m_derived st) Ho init u0 Hu0) as (V & tau' & -> & HV & Hexp).
  { destruct Hend as [Hfound|Ht]; [|right; right; by apply Hf]. unfold otf_solution_found in Hfound.
    change (find_vertex _ init) with (lookup_map b init) in Hfound. rewrite Hu0 in Hfound.
    apply orb_true_iff in Hfound as [H|H]; [left; by apply (solved_contains pp eqs _ Ho 0)|right; left; by apply (solved_contains pp eqs _ Ho 1)]. }
  cbn [outcome_bind with_otf m_derived with_solver_state m_graph_builder]. fold b in HV, Hexp |- *.
  destruct (erase_extracted pp b (m_S (m_derived st)) (m_tau (m_derived st)) init u0 V (rp_ok _ _ _ Hr) Hi Hu0 HV) as (g & Eg & Hex & Hok & Hl0 & Hexc).
  { intros u Hu. destruct (Hexp u Hu) as (v & Hv & _). by exists v. }
  exists g, u0. eexists. rewrite Eg. split; [done|]. split; [done|]. split; [exact Hex|]. split; [|done].
  intros u Hu. apply Hexp, HV. by apply (ex_old _ _ _ _ _ _ Hex).
Qed.

(** C14: The run as a whole, if only finitely many variables are reachable, fewer
    than the equation limit and with less than 2^63 symbols in their right-hand
    sides, which the rewriter returns as constants or positive formulas without
    constants, and for every option but the three whose partial solvers are not
    sound by themselves: after the exploration, the part of the graph that the
    initial variable needs is extracted, and the rest is erased.  All assertions
    on the strategies hold, so the run returns a graph.  It consists of exactly
    the vertices that can be reached from the initial one when solved vertices
    that their winner owns are left along the winner's strategy only, in their
    old order, with their formulas, decorations and ranks and exactly the edges
    between them.  Every variable in it is reachable and has been explored: its
    equation, with its rank, is one of those that were reported.  The graph meets
    the requirements of the solver (valid, constants are terminal, every other
    vertex has a successor), and its initial vertex is won by the same player as
    in the graph that was explored, whatever the variables that were not explored
    turn out to be. *)
Theorem otf_structure_graph_run_correct :
  exists eqs st g u0 old,
    run_thread term_less m_options R rank is_mu (H := algorithm) fuel start = Returns st /\
    otf_structure_graph_run pp term_less hash_order m_options R rank is_mu fuel init = Returns (Some g) /\
    let b := m_graph_builder (m_derived st) in
    let S := m_S (m_derived st) in
    represents pp eqs b /\ lookup_map b init = Some u0 /\
    extracted b S (m_tau (m_derived st)) u0 old g /\
    builder_ok pp g /\ lookup_map g init = Some (SG.m_initial_vertex (m_graph g)) /\
    (forall i v, vertices g !! i = Some v -> is_pvi (SG.formula v) = true ->
       reachable (SG.formula v) /\ SG.v_rank v = rank (SG.formula v) /\
       exists psi, (SG.formula v, psi, SG.v_rank v) ∈ eqs /\
         forall eta, agrees b S eta -> eval eta psi = eval eta (rhs (SG.formula v))) /\
    (valid (m_graph g) /\ terminal (m_graph g) /\ total (m_graph g)) /\
    forall alpha dead, alpha < 2 -> dead_ok (view b) dead ->
      won (m_graph g) alpha (SG.m_initial_vertex (m_graph g)) <->
      exists sigma, graph_wins (view b) dead alpha sigma u0.
Proof.
  destruct (otf_run_thread_spec pp term_less hash_order m_options R rank is_mu init Hinit Hrhs Hhash Hsound l Hl Hcost
    fuel [] start Hlimit) as (eqs & st & E & Hs & Hf & Hend);
    [by apply (solving_start pp m_options R rank is_mu init l Hcost)|by intros Ht|cbn; lia|].
  pose proof (so_inv _ _ _ _ _ _ _ _ Hs) as Ho. pose proof (oi_represents _ _ _ Ho) as Hr.
  destruct (end_extracted eqs st Hs Hf Hend) as (g & u0 & old & Erun & Hu0 & Hex & Hexp & Hok & Hi & Hexc).
  exists eqs, st, g, u0, old. split; [exact E|]. split.
  { unfold otf_structure_graph_run, run. rewrite E. cbn [outcome_bind]. exact Erun. }
  cbv zeta. split; [done|]. split; [done|]. split; [done|]. split; [done|]. split; [done|]. split; [|split].
  - intros i v Hv Hp. destruct (extracted_variable pp eqs _ _ _ _ Ho Hex Hexp i v Hv Hp) as (psi & Hin).
    destruct (so_source _ _ _ _ _ _ _ _ Hs _ _ _ Hin) as (H1 & H2 & H3). split; [done|]. split; [done|]. by exists psi.
  - by apply (extracted_valid pp eqs (m_derived st) u0 old g).
  - intros alpha dead. by apply (extracted_winner pp eqs (m_derived st) u0 old g).
Qed.

End Theorems.

(** ** An instance *)

Definition var_Z : PbesExpressions.pbes_expression nat nat := propositional_variable_instantiation "Z" [].

(** [mu X = Y && Z], [nu Y = Z || X], [nu Z = true] *)
Definition otf_R (X : PbesExpressions.pbes_expression nat nat)
    (s : PbesExpressions.pbes_expression nat nat -> PbesExpressions.pbes_expression nat nat)
  : PbesExpressions.pbes_expression nat nat :=
  if bool_decide (X = var_X) then pbes_and (s var_Y) (s var_Z)
  else if bool_decide (X = var_Y) then pbes_or (s var_Z) (s var_X)
  else pbes_data sort_bool_true.

(** The original fatal attractors, with pruning. *)
Definition otf_options : pbessolve_options :=
  mk_options true breadth_first solve_subgames_using_fatal_attractor_original true false 1000.

Lemma otf_sample_reachable X :
  reachable otf_options otf_R sample_mu var_X X -> X = var_X \/ X = var_Y \/ X = var_Z.
Proof.
  revert X. apply (rtc_ind_r (fun X => X = var_X \/ X = var_Y \/ X = var_Z)); [by left|].
  intros Y Z _ HZ HY. revert HZ. unfold depends, rhs, phi_substitution. cbn [optimization otf_options removes_self_loops].
  destruct HY as [->|[->| ->]]; unfold otf_R; cbn; intros HZ;
    repeat (apply elem_of_cons in HZ as [->|HZ]; [by auto|]); by apply elem_of_nil in HZ.
Qed.

Lemma otf_run_thread_correct_witness :
  exists eqs st, run_thread sample_less otf_options otf_R sample_rank sample_mu
      (H := pbesinst_structure_graph_algorithm2 sample_pp sample_less id otf_options) 3
      (mk_lazy [var_X] [var_X] var_X 0 0 (new_otf new_builder)) = Returns st /\
    represents sample_pp eqs (m_graph_builder (m_derived st)) /\
    otf_solution_found var_X (m_derived st) = true.
Proof.
  destruct (otf_run_thread_correct sample_pp sample_less id otf_options otf_R sample_rank sample_mu var_X)
    with (l := [var_X; var_Y; var_Z]) (fuel := 3) as (eqs & st & E & Hr & _).
  - reflexivity.
  - intros X HX. destruct (otf_sample_reachable X HX) as [->|[->| ->]]; vm_compute; done.
  - reflexivity.
  - reflexivity.
  - intros X HX. destruct (otf_sample_reachable X HX) as [->|[->| ->]]; apply (bool_decide_unpack _); reflexivity.
  - vm_compute. reflexivity.
  - vm_compute. reflexivity.
  - vm_compute. lia.
  - exists eqs, st. split; [exact E|]. split; [exact Hr|]. vm_compute in E. injection E as <-. vm_compute. reflexivity.
Defined.

(** [mu X = Y || Z] instead: [Y] is not needed. *)
Definition choice_R (X : PbesExpressions.pbes_expression nat nat)
    (s : PbesExpressions.pbes_expression nat nat -> PbesExpressions.pbes_expression nat nat)
  : PbesExpressions.pbes_expression nat nat :=
  if bool_decide (X = var_X) then pbes_or (s var_Y) (s var_Z) else otf_R X s.

Lemma choice_reachable X :
  reachable otf_options choice_R sample_mu var_X X -> X = var_X \/ X = var_Y \/ X = var_Z.
Proof.
  revert X. apply (rtc_ind_r (fun X => X = var_X \/ X = var_Y \/ X = var_Z)); [by left|].
  intros Y Z _ HZ HY. revert HZ. unfold depends, rhs, phi_substitution. cbn [optimization otf_options removes_self_loops].
  destruct HY as [->|[->| ->]]; unfold choice_R, otf_R; cbn; intros HZ;
    repeat (apply elem_of_cons in HZ as [->|HZ]; [by auto|]); by apply elem_of_nil in HZ.
Qed.

Lemma otf_structure_graph_run_correct_witness :
  exists (st : lazy_state nat nat otf_state) g old,
    otf_structure_graph_run sample_pp sample_less id otf_options choice_R sample_rank sample_mu 3 var_X = Returns (Some g) /\
    length (vertices (m_graph_builder (m_derived st))) = 3 /\
    extracted (m_graph_builder (m_derived st)) (m_S (m_derived st)) (m_tau (m_derived st)) 0 old g /\
    SG.formula <$> vertices g = [var_X; var_Z] /\ succs (vertices g) 0 = [1] /\
    valid (m_graph g) /\ terminal (m_graph g) /\ total (m_graph g).
Proof.
  destruct (otf_structure_graph_run_correct sample_pp sample_less id otf_options choice_R sample_rank sample_mu var_X)
    with (l := [var_X; var_Y; var_Z]) (fuel := 3) as (eqs & st & g & u0 & old & Est & E & _ & Hu0 & Hex & _ & _ & _ & HV & _).
  - reflexivity.
  - intros X HX. destruct (choice_reachable X HX) as [->|[->| ->]]; vm_compute; done.
  - reflexivity.
  - reflexivity.
  - intros X HX. destruct (choice_reachable X HX) as [->|[->| ->]]; apply (bool_decide_unpack _); reflexivity.
  - vm_compute. reflexivity.
  - vm_compute. reflexivity.
  - vm_compute. lia.
  - assert (u0 = 0) as -> by (vm_compute in Est; injection Est as <-; vm_compute in Hu0; by injection Hu0 as <-).
    exists st, g, old. split; [exact E|]. split; [vm_compute in Est; injection Est as <-; reflexivity|]. split; [exact Hex|].
    split; [vm_compute in E; injection E as <-; reflexivity|]. split; [vm_compute in E; injection E as <-; reflexivity|exact HV].
Defined.
