(* ===== verification/SmallProgress.v ===== *)
(** * Small progress measures
    ([libraries/pbes/small_progress_measures.h])

    A solver for boolean equation systems that needs no recursion: every
    equation is a vertex with a measure, a vector of counters of which position
    [i] belongs to rank [i], or top; the measures of the vertices are recomputed
    from those of their successors until nothing changes, and a variable is true
    if its measure is not top.

    The vertices are nodes of a [std::map] over terms, which are ordered by
    address ([term_less], a parameter); the pointers to successors are the keys
    of the nodes.  Top is the vector that starts with -1, as in the code.  Block
    sizes are [unsigned int] and stored as [int]; the cast is written out.
    Dereferencing the end iterator of a vertex without successors is undefined
    ([None]). *)

From Stdlib Require Import Lia ZArith.
From stdpp Require Import base strings numbers sets list.
From S2P Require Import Prelude Terms DataExpressions PbesExpressions GraphBuilder Instantiation.

Local Open Scope Z_scope.

(** ** Equations *)

(** [fixpoint_symbol], terms of which there are two. *)
Inductive fixpoint_symbol : Set := Mu | Nu.

#[export] Instance fixpoint_symbol_eq_dec : EqDecision fixpoint_symbol.
Proof. solve_decision. Defined.

Definition is_nu (s : fixpoint_symbol) : bool := match s with Nu => true | Mu => false end.

(** ** Vectors of counters *)

(** [v[i]] *)
Definition at_ (v : list Z) (i : nat) : Z := default 0 (v !! i).

Fixpoint lexicographical_compare_3way (l1 l2 : list Z) : Z :=
  match l1, l2 with
  | x :: l1, y :: l2 =>
      if x <? y then -1 else if y <? x then 1 else lexicographical_compare_3way l1 l2
  | [], [] => 0
  | _ :: _, [] => 1
  | [], _ :: _ => -1
  end.

(** [progress_measure(d)] and [is_top] *)
Definition progress_measure (d : nat) : list Z := replicate d 0.

Definition is_top (alpha : list Z) : bool := at_ alpha 0 =? -1.

(** [inc(alpha, m, beta)]; the argument is [m + 1], which the recursion takes
    to 0. *)
Fixpoint inc (alpha : list Z) (m1 : nat) (beta : list Z) : list Z :=
  if at_ alpha 0 =? -1 then alpha else
  match m1 with
  | O => <[0%nat := -1]> alpha
  | S m =>
      if at_ alpha m =? at_ beta m
      then inc (<[m := 0]> alpha) m beta
      else <[m := at_ alpha m + 1]> alpha
  end.

(** [static_cast<int>] of an [unsigned int]. *)
Definition to_int (x : Z) : Z := if x <? 2 ^ 31 then x else x - 2 ^ 32.

Section Code.
Context {variable symbol : Type} `{EqDecision variable} `{EqDecision symbol}.
Abbreviation pbes_expression := (pbes_expression variable symbol).
Implicit Types (X Y : pbes_expression).

(** The equations of a boolean equation system: the variables have no
    parameters. *)
Record pbes_equation : Type := mk_equation {
  eq_symbol : fixpoint_symbol;
  eq_name : string;
  eq_formula : pbes_expression
}.

(** [propositional_variable_instantiation(eqn.variable().name())] *)
Definition eq_variable (eqn : pbes_equation) : pbes_expression :=
  propositional_variable_instantiation (eq_name eqn) [].

Definition is_disjunctive (x : pbes_expression) : bool := is_or x.

(** [maximum_rank]; the fold carries the last symbol. *)
Fixpoint maximum_rank_loop (result : nat) (last_symbol : fixpoint_symbol) (eqns : list pbes_equation) : nat :=
  match eqns with
  | [] => result
  | eqn :: eqns =>
      maximum_rank_loop (if decide (eq_symbol eqn = last_symbol) then result else S result)
        (eq_symbol eqn) eqns
  end.

Definition maximum_rank (eqns : list pbes_equation) : nat :=
  match eqns with
  | [] => 0
  | eqn :: eqns => maximum_rank_loop (if is_nu (eq_symbol eqn) then 0 else 1) (eq_symbol eqn) eqns
  end.

(** ** Vertices *)

Record progress_measures_vertex : Type := mk_pm_vertex {
  pm_successors : list pbes_expression;
  pm_even : bool;
  pm_rank : nat;
  pm_alpha : list Z
}.

Definition new_pm_vertex (even : bool) (rank d : nat) : progress_measures_vertex :=
  mk_pm_vertex [] even rank (progress_measure d).

(** [vertex()], the default arguments *)
Definition default_vertex : progress_measures_vertex := new_pm_vertex false 0 1.

Definition with_successors (s : list pbes_expression) (v : progress_measures_vertex) : progress_measures_vertex :=
  mk_pm_vertex s (pm_even v) (pm_rank v) (pm_alpha v).

Definition with_alpha (a : list Z) (v : progress_measures_vertex) : progress_measures_vertex :=
  mk_pm_vertex (pm_successors v) (pm_even v) (pm_rank v) a.

(** [compare_progress_measures_vertex(m)] on the measures of two vertices. *)
Definition compare_progress_measures_vertex (m : nat) (x y : list Z) : bool :=
  if is_top x then false
  else if is_top y then true
  else lexicographical_compare_3way (take (m + 1) x) (take (m + 1) y) <? 0.

(** [std::min_element] and [std::max_element]: the first of the least or
    greatest elements. *)
Definition min_element {A} (less : A -> A -> bool) (l : list A) : option A :=
  match l with
  | [] => None
  | x :: l => Some (foldl (fun smallest y => if less y smallest then y else smallest) x l)
  end.

Definition max_element {A} (less : A -> A -> bool) (l : list A) : option A :=
  match l with
  | [] => None
  | x :: l => Some (foldl (fun largest y => if less largest y then y else largest) x l)
  end.

(** ** The map of vertices *)

Abbreviation vertex_map := (list (pbes_expression * progress_measures_vertex)).
Implicit Types (M : vertex_map).

Context (term_less : pbes_expression -> pbes_expression -> bool).

Fixpoint vertex_find M X : option progress_measures_vertex :=
  match M with
  | [] => None
  | (Y, v) :: M => if decide (Y = X) then Some v else vertex_find M X
  end.

(** [m_vertices[X] = v] *)
Fixpoint vertex_assign X (v : progress_measures_vertex) M : vertex_map :=
  match M with
  | [] => [(X, v)]
  | (Y, w) :: M' =>
      if decide (Y = X) then (X, v) :: M'
      else if term_less X Y then (X, v) :: M
      else (Y, w) :: vertex_assign X v M'
  end.

(** [&m_vertices[X]], which makes a vertex if there is none. *)
Definition vertex_access X M : vertex_map :=
  match vertex_find M X with
  | Some _ => M
  | None => vertex_assign X default_vertex M
  end.

(** ** [initialize_vertices] *)

(** The variables of the first loop. *)
Record init_state : Type := mk_init {
  i_vertices : vertex_map;
  i_beta : list Z;
  i_block_size : Z;
  i_last_rank : nat;
  i_last_symbol : fixpoint_symbol
}.

Definition push_beta (block_size : Z) (beta : list Z) : list Z :=
  beta ++ [if Nat.even (length beta) then 0 else to_int block_size].

Definition init_step (d : nat) (st : init_state) (eqn : pbes_equation) : init_state :=
  let st :=
    if decide (eq_symbol eqn = i_last_symbol st) then st
    else mk_init (i_vertices st) (push_beta (i_block_size st) (i_beta st)) 0
           (S (i_last_rank st)) (eq_symbol eqn) in
  mk_init (vertex_assign (eq_variable eqn) (new_pm_vertex (is_disjunctive (eq_formula eqn)) (i_last_rank st) d)
             (i_vertices st))
    (i_beta st) ((i_block_size st + 1) mod 2 ^ 32) (i_last_rank st) (i_last_symbol st).

(** The body of the second loop. *)
Definition successor_step M (eqn : pbes_equation) : vertex_map :=
  let succ := find_propositional_variable_instantiations term_less (eq_formula eqn) in
  let M := foldl (fun M v => vertex_access v M) M succ in
  match vertex_find M (eq_variable eqn) with
  | Some k => vertex_assign (eq_variable eqn) (with_successors (pm_successors k ++ succ) k) M
  | None => M
  end.

(** The result is [m_vertices], [m_d] and [m_beta]. *)
Definition initialize_vertices (eqns : list pbes_equation) : vertex_map * nat * list Z :=
  let d := (maximum_rank eqns + 1)%nat in
  let st := foldl (init_step d) (mk_init [] [] 0 0 Nu) eqns in
  (foldl successor_step (i_vertices st) eqns, d, push_beta (i_block_size st) (i_beta st)).

(** ** [run] *)

(** The new measure of a vertex. *)
Definition lift_vertex M (d : nat) (beta : list Z) (v : progress_measures_vertex) : option (list Z) :=
  let m := pm_rank v in
  match mapM (fun X => pm_alpha <$> vertex_find M X) (pm_successors v) with
  | None => None
  | Some l =>
      match (if pm_even v then min_element else max_element) (compare_progress_measures_vertex m) l with
      | None => None
      | Some w =>
          let a := take (m + 1) w ++ replicate (d - (m + 1)) 0 in
          Some (if Nat.odd m then inc a (m + 1) beta else a)
      end
  end.

(** The body of the loop over the vertices, for the node with key [X]. *)
Definition spm_step (d : nat) (beta : list Z) (st : option (vertex_map * bool)) X : option (vertex_map * bool) :=
  match st with
  | None => None
  | Some (M, changed) =>
      match vertex_find M X with
      | None => None
      | Some v =>
          match lift_vertex M d beta v with
          | None => None
          | Some a => if decide (a = pm_alpha v) then Some (M, changed)
                      else Some (vertex_assign X (with_alpha a v) M, true)
          end
      end
  end.

Fixpoint spm_loop (fuel : nat) (d : nat) (beta : list Z) M : option vertex_map :=
  match fuel with
  | O => None
  | S fuel =>
      match foldl (spm_step d beta) (Some (M, false)) M.*1 with
      | None => None
      | Some (M, changed) => if changed then spm_loop fuel d beta M else Some M
      end
  end.

(** [run]; [None] without fuel or for a vertex without successors. *)
Definition spm_run (fuel : nat) (eqns : list pbes_equation) (first_variable : pbes_expression) : option bool :=
  let '(M, d, beta) := initialize_vertices eqns in
  match spm_loop fuel d beta M with
  | None => None
  | Some M =>
      let v := default default_vertex (vertex_find M first_variable) in
      Some (negb (is_top (pm_alpha v)))
  end.

End Code.
Arguments pbes_equation : clear implicits.
Arguments progress_measures_vertex : clear implicits.
