(* ===== verification/ProgressMeasures.v ===== *)
(** * Progress measures

    The arithmetic of the measures of [SmallProgress.v].  A measure is read as a
    number in base [K] of which the first [k] digits are [pv k]; top is the
    number after the largest one.  [inc] and the copying of a prefix then
    compute the least measure with a given property, the result is monotone,
    and comparing measures is comparing numbers. *)

From Stdlib Require Import Lia ZArith.
From stdpp Require Import base numbers sets list.
From S2P Require Import Prelude SmallProgress.

Local Open Scope Z_scope.

(** ** Measures as numbers *)

Section Measures.
Context (beta : list Z) (K : Z).

Record measure (a : list Z) : Prop := {
  measure_length : length a = length beta;
  measure_top : is_top a = true -> forall i, (0 < i)%nat -> at_ a i = 0;
  measure_digit : is_top a = false -> forall i, (i < length beta)%nat -> 0 <= at_ a i <= at_ beta i
}.

(** The number of the first [k] digits. *)
Fixpoint pv (k : nat) (a : list Z) : Z :=
  match k with
  | O => if is_top a then 1 else 0
  | S k => pv k a * K + (if is_top a then 0 else at_ a k)
  end.

Implicit Types (a b w y : list Z) (i k m : nat).

Lemma pv_top a k : is_top a = true -> pv k a = K ^ Z.of_nat k.
Proof.
  intros E. induction k as [|k IH]; cbn [pv]; rewrite E; [done|].
  rewrite IH. replace (Z.of_nat (S k)) with (Z.of_nat k + 1) by lia.
  rewrite Z.pow_add_r, Z.pow_1_r by lia. lia.
Qed.

Context (HK : forall i, 0 <= at_ beta i < K).

Lemma digit_bounds a k : measure a -> (k < length beta)%nat ->
  0 <= (if is_top a then 0 else at_ a k) <= at_ beta k.
Proof.
  intros Ha Hk. destruct (is_top a) eqn:E; [pose proof (HK k); lia|]. by apply measure_digit.
Qed.

Lemma pv_bounds a k : measure a -> (k <= length beta)%nat ->
  0 <= pv k a /\ (is_top a = false -> pv k a < K ^ Z.of_nat k).
Proof.
  intros Ha. induction k as [|k IH]; intros Hk.
  - cbn. by destruct (is_top a).
  - destruct (IH ltac:(lia)) as [H0 H1]. pose proof (digit_bounds a k Ha ltac:(lia)). pose proof (HK k).
    cbn [pv]. split; [nia|]. intros E. specialize (H1 E).
    replace (Z.of_nat (S k)) with (Z.of_nat k + 1) by lia.
    rewrite Z.pow_add_r, Z.pow_1_r by lia. nia.
Qed.

Lemma pv_le_top a b k : measure a -> (k <= length beta)%nat -> is_top b = true -> pv k a <= pv k b.
Proof.
  intros Ha Hk Hb. rewrite (pv_top b) by done. destruct (is_top a) eqn:E; [by rewrite pv_top|].
  destruct (pv_bounds a k Ha Hk) as [_ H]. specialize (H E). lia.
Qed.

(** One more digit. *)
Lemma pv_le_inv a b k : measure a -> measure b -> (S k <= length beta)%nat ->
  pv (S k) a <= pv (S k) b -> pv k a <= pv k b.
Proof.
  intros Ha Hb Hk H. cbn [pv] in H. pose proof (HK k).
  pose proof (digit_bounds a k Ha ltac:(lia)). pose proof (digit_bounds b k Hb ltac:(lia)). nia.
Qed.

Lemma pv_prefix_le a b k j : measure a -> measure b -> (k <= length beta)%nat -> (j <= k)%nat ->
  pv k a <= pv k b -> pv j a <= pv j b.
Proof.
  intros Ha Hb Hk Hj. induction k as [|k IH]; intros H; [by replace j with 0%nat by lia|].
  destruct (decide (j = S k)) as [->|]; [done|].
  apply IH; [lia..|]. by apply pv_le_inv.
Qed.

(** *** Comparison *)

Lemma at_cons x (l : list Z) i : at_ (x :: l) (S i) = at_ l i.
Proof. done. Qed.

Lemma at_take l k i : (i < k)%nat -> at_ (take k l) i = at_ l i.
Proof. intros H. unfold at_. by rewrite lookup_take_lt. Qed.

(** The digits of a list as a number. *)
Fixpoint val (l : list Z) : Z :=
  match l with
  | [] => 0
  | x :: l => x * K ^ Z.of_nat (length l) + val l
  end.

Lemma K_pos : 0 < K.
Proof. pose proof (HK 0). lia. Qed.

Lemma K_pow k : 0 < K ^ Z.of_nat k.
Proof. pose proof K_pos. apply Z.pow_pos_nonneg; lia. Qed.

Lemma val_bounds l : Forall (fun x => 0 <= x < K) l -> 0 <= val l < K ^ Z.of_nat (length l).
Proof.
  induction 1 as [|x l Hx _ IH]; cbn [val length]; [done|].
  replace (Z.of_nat (S (length l))) with (1 + Z.of_nat (length l)) by lia.
  rewrite Z.pow_add_r, Z.pow_1_r by lia. nia.
Qed.

Lemma lexicographical_val l1 l2 :
  length l1 = length l2 -> Forall (fun x => 0 <= x < K) l1 -> Forall (fun x => 0 <= x < K) l2 ->
  lexicographical_compare_3way l1 l2 < 0 <-> val l1 < val l2.
Proof.
  intros Hl H1. revert l2 Hl. induction H1 as [|x l1 Hx H1 IH]; intros [|y l2] Hl H2; try done.
  apply Forall_cons in H2 as [Hy H2]. cbn in Hl. assert (Hl' : length l1 = length l2) by lia.
  pose proof (val_bounds l1 H1) as B1. pose proof (val_bounds l2 H2). rewrite Hl' in B1.
  cbn [lexicographical_compare_3way val]. rewrite Hl'.
  destruct (x <? y) eqn:E1; [apply Z.ltb_lt in E1; split; [nia|lia]|]. apply Z.ltb_ge in E1.
  destruct (y <? x) eqn:E2; [apply Z.ltb_lt in E2; split; [lia|nia]|]. apply Z.ltb_ge in E2.
  assert (x = y) as -> by lia. rewrite (IH l2 Hl' H2). lia.
Qed.

Lemma val_snoc l x : val (l ++ [x]) = val l * K + x.
Proof.
  induction l as [|y l IH]; cbn [app val length]; [lia|].
  rewrite IH, length_app. cbn [length].
  replace (Z.of_nat (length l + 1)) with (Z.of_nat (length l) + 1) by lia.
  rewrite Z.pow_add_r, Z.pow_1_r by lia. lia.
Qed.

Lemma val_take a k : is_top a = false -> (k <= length a)%nat -> val (take k a) = pv k a.
Proof.
  intros E. induction k as [|k IH]; intros Hk; [cbn; by rewrite E|].
  destruct (lookup_lt_is_Some_2 a k) as [x Hx]; [lia|].
  rewrite (take_S_r a k x Hx), val_snoc, IH by lia. cbn [pv]. rewrite E.
  unfold at_. by rewrite Hx.
Qed.

Lemma digits_take a k : measure a -> is_top a = false -> (k <= length beta)%nat ->
  Forall (fun x => 0 <= x < K) (take k a).
Proof.
  intros Ha E Hk. apply Forall_lookup. intros i x Hx. apply lookup_take_Some in Hx as [Hx Hi].
  pose proof (measure_digit a Ha E i ltac:(lia)) as H. unfold at_ at 1 2 in H. rewrite Hx in H.
  cbn in H. pose proof (HK i). lia.
Qed.

Lemma compare_pv m x y : measure x -> measure y -> (m < length beta)%nat ->
  compare_progress_measures_vertex m x y = true <-> pv (m + 1) x < pv (m + 1) y.
Proof.
  intros Hx Hy Hm. unfold compare_progress_measures_vertex.
  destruct (is_top x) eqn:Ex.
  { pose proof (pv_le_top y x (m + 1) Hy ltac:(lia) Ex). split; [done|lia]. }
  destruct (is_top y) eqn:Ey.
  { rewrite (pv_top y) by done. split; [|done]. intros _. apply (pv_bounds x); [done|lia|done]. }
  pose proof (measure_length x Hx). pose proof (measure_length y Hy).
  rewrite <- (val_take x), <- (val_take y) by (auto; lia).
  rewrite Z.ltb_lt. apply lexicographical_val; try (apply digits_take; auto; lia).
  by rewrite !length_take, (measure_length x Hx), (measure_length y Hy).
Qed.

(** *** The least measures *)

Lemma at_insert a i j x : (i < length a)%nat -> at_ (<[i := x]> a) j = if decide (i = j) then x else at_ a j.
Proof.
  intros Hi. unfold at_. case_decide as E; [subst; by rewrite list_lookup_insert_eq|].
  by rewrite list_lookup_insert_ne.
Qed.

Lemma not_top a : is_top a = false <-> at_ a 0 <> -1.
Proof. unfold is_top. apply Z.eqb_neq. Qed.

Lemma pv_ext a b k : is_top a = is_top b -> (forall i, (i < k)%nat -> at_ a i = at_ b i) -> pv k a = pv k b.
Proof.
  intros Et H. induction k as [|k IH]; cbn [pv]; rewrite Et; [done|].
  rewrite IH, (H k) by (intros; try apply H; lia). done.
Qed.

(** Nothing after the first [k] digits. *)
Definition ends_at k a : Prop := is_top a = false -> forall i, (k <= i)%nat -> at_ a i = 0.

Lemma pv_ends a k j : ends_at k a -> (k <= j)%nat -> pv j a = pv k a * K ^ Z.of_nat (j - k).
Proof.
  intros Ha. induction j as [|j IH]; intros Hj.
  - replace k with 0%nat by lia. cbn. lia.
  - destruct (decide (k = S j)) as [->|]; [rewrite Nat.sub_diag; cbn; lia|].
    cbn [pv]. rewrite IH by lia. replace (if is_top a then 0 else at_ a j) with 0
      by (destruct (is_top a) eqn:E; [done|symmetry; apply Ha; [done|lia]]).
    replace (Z.of_nat (S j - k)) with (Z.of_nat (j - k) + 1) by lia.
    rewrite Z.pow_add_r, Z.pow_1_r by lia. lia.
Qed.

(** With the rest of the digits 0, the measure is the least one with its
    first [k]. *)
Lemma ends_least a y k : measure a -> measure y -> (k <= length beta)%nat -> ends_at k a ->
  pv k a <= pv k y -> pv (length beta) a <= pv (length beta) y.
Proof.
  intros Ha Hy Hk He H. rewrite (pv_ends a k) by done.
  assert (G : forall j, (k + j <= length beta)%nat -> pv k a * K ^ Z.of_nat j <= pv (k + j) y).
  { induction j as [|j IH]; intros Hj; [rewrite Nat.add_0_r; cbn; lia|].
    replace (k + S j)%nat with (S (k + j)) by lia. cbn [pv].
    pose proof (digit_bounds y (k + j) Hy ltac:(lia)). specialize (IH ltac:(lia)). pose proof K_pos.
    replace (Z.of_nat (S j)) with (Z.of_nat j + 1) by lia. rewrite Z.pow_add_r, Z.pow_1_r by lia. nia. }
  replace (length beta) with (k + (length beta - k))%nat at 2 by lia. apply G. lia.
Qed.

(** [inc] gives the least measure that is larger on the first [k] digits. *)
Record increment k a b : Prop := {
  increment_measure : measure b;
  increment_ends : ends_at k b;
  increment_more : pv k a < pv k b;
  increment_least : forall y, measure y -> pv k a < pv k y -> pv k b <= pv k y
}.

Lemma measure_insert a i x : measure a -> is_top a = false -> (i < length beta)%nat -> 0 <= x <= at_ beta i ->
  measure (<[i := x]> a) /\ is_top (<[i := x]> a) = false.
Proof.
  intros Ha E Hi Hx. pose proof (measure_length a Ha) as Hl.
  assert (E' : is_top (<[i := x]> a) = false).
  { apply not_top. apply not_top in E. rewrite at_insert by lia. case_decide; lia. }
  split; [|done]. split.
  - by rewrite length_insert.
  - congruence.
  - intros _ j Hj. rewrite at_insert by lia. case_decide as Ej; [by subst|].
    by apply (measure_digit a).
Qed.

Context (Hd : (0 < length beta)%nat).

Lemma inc_top_spec a : measure a -> is_top a = false -> ends_at 0 a -> increment 0 a (<[0%nat := -1]> a).
Proof.
  intros Ha E Hz. pose proof (measure_length a Ha) as Hl.
  assert (Et : is_top (<[0%nat := -1]> a) = true).
  { unfold is_top. rewrite at_insert by lia. by rewrite decide_True. }
  split.
  - split; [by rewrite length_insert| |congruence].
    intros _ i Hi. rewrite at_insert by lia. rewrite decide_False by lia. by apply Hz; [|lia].
  - intros ?. congruence.
  - cbn [pv]. rewrite E, Et. lia.
  - intros y _ Hy. cbn [pv] in *. rewrite E in Hy. rewrite Et. by destruct (is_top y).
Qed.

Lemma inc_spec k a : (k <= length beta)%nat -> measure a -> is_top a = false -> ends_at k a ->
  increment k a (inc a k beta).
Proof.
  revert a. induction k as [|k IH]; intros a Hk Ha E Hz;
    (cbn [inc]; unfold is_top in E; rewrite E; change (is_top a = false) in E).
  { by apply inc_top_spec. }
  pose proof (measure_length a Ha) as Hl.
  destruct (at_ a k =? at_ beta k) eqn:Em.
  - apply Z.eqb_eq in Em.
    destruct (measure_insert a k 0 Ha E ltac:(lia)) as [Ha' E']; [pose proof (HK k); lia|].
    destruct (IH (<[k := 0]> a)) as [I1 I2 I3 I4]; [lia|done|done| |].
    { intros _ i Hi. rewrite at_insert by lia. case_decide; [done|]. apply Hz; [done|lia]. }
    assert (Ep : pv k (<[k := 0]> a) = pv k a).
    { apply pv_ext; [by rewrite E, E'|]. intros i Hi. rewrite at_insert, decide_False by lia. done. }
    set (b := inc (<[k := 0]> a) k beta) in *. rewrite Ep in *.
    assert (Eb : (if is_top b then 0 else at_ b k) = 0).
    { destruct (is_top b) eqn:Eb; [done|]. by apply I2; [|lia]. }
    split; [done| | |].
    + intros Et i Hi. apply I2; [done|lia].
    + cbn [pv]. rewrite E, Eb. pose proof (digit_bounds a k Ha ltac:(lia)) as Hb. rewrite E in Hb.
      pose proof (HK k). nia.
    + intros y Hy Hlt. cbn [pv] in Hlt |- *. rewrite E in Hlt. rewrite Eb.
      pose proof (digit_bounds y k Hy ltac:(lia)). pose proof (HK k).
      assert (pv k a < pv k y) by nia. specialize (I4 y Hy ltac:(done)). nia.
  - apply Z.eqb_neq in Em. pose proof (measure_digit a Ha E k ltac:(lia)).
    destruct (measure_insert a k (at_ a k + 1) Ha E ltac:(lia)) as [Ha' E']; [lia|].
    assert (Ep : pv k (<[k := at_ a k + 1]> a) = pv k a).
    { apply pv_ext; [by rewrite E, E'|]. intros i Hi. rewrite at_insert, decide_False by lia. done. }
    assert (Es : pv (S k) (<[k := at_ a k + 1]> a) = pv (S k) a + 1).
    { cbn [pv]. rewrite E, E', Ep, at_insert, decide_True by (done || lia). lia. }
    split; [done| |lia|intros; lia].
    intros _ i Hi. rewrite at_insert, decide_False by lia. apply Hz; [done|lia].
Qed.

(** The new measure of a vertex of rank [m] that moves to one with measure
    [w]. *)
Definition prog m w : list Z :=
  let a := take (m + 1) w ++ replicate (length beta - (m + 1)) 0 in
  if Nat.odd m then inc a (m + 1) beta else a.

Lemma at_copy m w i : measure w -> (m < length beta)%nat ->
  at_ (take (m + 1) w ++ replicate (length beta - (m + 1)) 0) i = if decide (i <= m)%nat then at_ w i else 0.
Proof.
  intros Hw Hm. pose proof (measure_length w Hw) as Hl. unfold at_. case_decide as Hi.
  - rewrite lookup_app_l by (rewrite length_take; lia). by rewrite lookup_take_lt by lia.
  - rewrite lookup_app_r by (rewrite length_take; lia).
    destruct (replicate _ _ !! _) as [x|] eqn:Ex; [|done]. by apply lookup_replicate in Ex as [-> _].
Qed.

Lemma copy_spec m w : measure w -> (m < length beta)%nat ->
  let a := take (m + 1) w ++ replicate (length beta - (m + 1)) 0 in
  measure a /\ is_top a = is_top w /\ ends_at (m + 1) a /\ pv (m + 1) a = pv (m + 1) w.
Proof.
  intros Hw Hm a. pose proof (measure_length w Hw) as Hl.
  assert (Et : is_top a = is_top w).
  { unfold is_top, a. rewrite at_copy by done. by rewrite decide_True by lia. }
  split; [split|split; [done|split]].
  - unfold a. rewrite length_app, length_take, length_replicate. lia.
  - intros E i Hi. unfold a. rewrite at_copy by done. case_decide; [|done].
    apply (measure_top w Hw); [congruence|done].
  - intros E i Hi. unfold a. rewrite at_copy by done. case_decide.
    + apply (measure_digit w Hw); [congruence|done].
    + pose proof (HK i). lia.
  - intros _ i Hi. unfold a. rewrite at_copy by done. by rewrite decide_False by lia.
  - apply pv_ext; [done|]. intros i Hi. unfold a. rewrite at_copy by done. by rewrite decide_True by lia.
Qed.

Lemma inc_of_top a k : is_top a = true -> inc a k beta = a.
Proof. intros E. unfold is_top in E. destruct k; cbn [inc]; by rewrite E. Qed.

(** It is the least measure that is not smaller on the first [m + 1] digits,
    and larger if [m] is odd; or it is top. *)
Lemma prog_spec m w : measure w -> (m < length beta)%nat ->
  measure (prog m w) /\
  (is_top (prog m w) = false -> is_top w = false /\
     pv (m + 1) w + (if Nat.odd m then 1 else 0) <= pv (m + 1) (prog m w)) /\
  (forall y, measure y -> pv (m + 1) w + (if Nat.odd m then 1 else 0) <= pv (m + 1) y ->
     pv (length beta) (prog m w) <= pv (length beta) y).
Proof.
  intros Hw Hm. destruct (copy_spec m w Hw Hm) as (H1 & H2 & H3 & H4). unfold prog.
  set (a := take _ _ ++ _) in *. destruct (Nat.odd m).
  - destruct (is_top w) eqn:E.
    + rewrite (inc_of_top a) by done. split; [done|]. split; [congruence|].
      intros y Hy Hle. apply (ends_least a y (m + 1)); auto; lia.
    + destruct (inc_spec (m + 1) a) as [I1 I2 I3 I4]; [lia|done..|].
      split; [done|]. split; [split; [done|lia]|].
      intros y Hy Hle. apply (ends_least _ y (m + 1)); auto; [lia|]. apply I4; [done|lia].
  - split; [done|]. split; [split; [congruence|lia]|].
    intros y Hy Hle. apply (ends_least a y (m + 1)); auto; lia.
Qed.

Lemma prog_measure m w : measure w -> (m < length beta)%nat -> measure (prog m w).
Proof. intros. by apply prog_spec. Qed.

Lemma prog_mono m w w' : measure w -> measure w' -> (m < length beta)%nat ->
  pv (m + 1) w <= pv (m + 1) w' -> pv (length beta) (prog m w) <= pv (length beta) (prog m w').
Proof.
  intros Hw Hw' Hm H. destruct (prog_spec m w Hw Hm) as (M1 & _ & L1).
  destruct (prog_spec m w' Hw' Hm) as (M2 & G2 & _). destruct (is_top (prog m w')) eqn:E.
  - by apply pv_le_top.
  - apply L1; [done|]. destruct (G2 eq_refl). lia.
Qed.

(** The numbers determine the measures. *)
Lemma pv_inj a b : measure a -> measure b -> pv (length beta) a = pv (length beta) b -> a = b.
Proof.
  intros Ha Hb H. pose proof (measure_length a Ha) as La. pose proof (measure_length b Hb) as Lb.
  assert (Hp : forall k, (k <= length beta)%nat -> pv k a = pv k b).
  { intros k Hk. apply Z.le_antisymm; eapply (pv_prefix_le _ _ (length beta)); auto; lia. }
  assert (Et : is_top a = is_top b).
  { specialize (Hp 0%nat ltac:(lia)). cbn in Hp. by destruct (is_top a), (is_top b). }
  apply list_eq_same_length with (length beta); [done..|]. intros i x y Hi Hx Hy.
  assert (G : at_ a i = at_ b i); [|unfold at_ in G; by rewrite Hx, Hy in G].
  destruct (is_top a) eqn:E.
  - destruct i as [|i]; [|rewrite (measure_top a), (measure_top b); auto; lia || congruence].
    unfold is_top in *. lia.
  - pose proof (Hp (S i) ltac:(lia)) as Hs. cbn [pv] in Hs. rewrite <- Et, E, (Hp i) in Hs by lia. lia.
Qed.

End Measures.
