(* ===== verification/ProgressGame.v ===== *)
(** * Progress measures on a game

    Iterating the operator that [SmallProgress.v] applies to one vertex at a
    time, in any order and starting with 0 everywhere: the numbers of the
    measures only grow, so the iteration ends; the vertices that are not top in
    a fixed point are a winning region of player 0, with a move to a successor
    of least measure as strategy; and no vertex of a winning region of player 0
    ever becomes top, because counting the odd ranks that a play can still meet
    gives a measure that bounds the iteration. *)

From Stdlib Require Import Lia ZArith Classical.
From stdpp Require Import base numbers sets list.
From S2P Require Import Prelude ParityGame SmallProgress ProgressMeasures.

Local Open Scope Z_scope.

(** ** Least and greatest elements *)

Section Elements.
Context {A : Type} (less : A -> A -> bool) (f : A -> Z).

Lemma min_element_spec l :
  l <> [] -> (forall x y, x ∈ l -> y ∈ l -> less x y = true <-> f x < f y) ->
  exists w, min_element less l = Some w /\ w ∈ l /\ forall x, x ∈ l -> f w <= f x.
Proof.
  destruct l as [|x0 l]; [done|]. intros _ H. cbn [min_element]. eexists. split; [done|].
  assert (G : forall l' b, b ∈ x0 :: l -> (forall x, x ∈ l' -> x ∈ x0 :: l) ->
    let r := foldl (fun s y => if less y s then y else s) b l' in
    r ∈ x0 :: l /\ f r <= f b /\ forall x, x ∈ l' -> f r <= f x).
  { induction l' as [|y l' IH]; intros b Hb Hl; cbn [foldl].
    { split; [done|]. split; [lia|]. intros x Hx. by apply elem_of_nil in Hx. }
    pose proof (Hl y ltac:(left)) as Hy. specialize (H y b Hy Hb).
    destruct (IH (if less y b then y else b)) as (R1 & R2 & R3).
    { by destruct (less y b). }
    { intros x Hx. apply Hl. by right. }
    assert (f (if less y b then y else b) <= f b /\ f (if less y b then y else b) <= f y).
    { destruct (less y b); [destruct H as [H _]; specialize (H eq_refl); lia|].
      split; [lia|]. destruct (decide (f y < f b)) as [Hlt|]; [by apply H in Hlt|lia]. }
    split; [done|]. split; [lia|]. intros x [->|Hx]%elem_of_cons; [lia|by apply R3]. }
  destruct (G l x0) as (R1 & R2 & R3); [left|intros; by right|].
  split; [done|]. intros x [->|Hx]%elem_of_cons; [done|by apply R3].
Qed.

End Elements.

Lemma max_element_min {A} (less : A -> A -> bool) l :
  max_element less l = min_element (fun x y => less y x) l.
Proof. by destruct l. Qed.

Lemma max_element_spec {A} (less : A -> A -> bool) (f : A -> Z) l :
  l <> [] -> (forall x y, x ∈ l -> y ∈ l -> less x y = true <-> f x < f y) ->
  exists w, max_element less l = Some w /\ w ∈ l /\ forall x, x ∈ l -> f x <= f w.
Proof.
  intros Hl H. rewrite max_element_min.
  destruct (min_element_spec (fun x y => less y x) (fun x => - f x) l Hl) as (w & Hw & Hin & Hle).
  { intros x y Hx Hy. rewrite H by done. lia. }
  exists w. split; [done|]. split; [done|]. intros x Hx. specialize (Hle x Hx). lia.
Qed.

(** The player of a rank. *)
Lemma parity_of_nat r : parity (N.of_nat r) = if Nat.odd r then 1%nat else 0%nat.
Proof.
  unfold parity. destruct (Nat.odd r) eqn:Eo.
  - apply Nat.odd_spec in Eo as [k ->]. replace (N.of_nat (2 * k + 1)) with (1 + N.of_nat k * 2)%N by lia.
    by rewrite N.Div0.mod_add.
  - rewrite <- Nat.negb_even in Eo. apply negb_false_iff, Nat.even_spec in Eo as [k ->].
    replace (N.of_nat (2 * k)) with (0 + N.of_nat k * 2)%N by lia. by rewrite N.Div0.mod_add.
Qed.

Section Game.
Context (n : nat) (succ : nat -> list nat) (ev : nat -> bool) (rk : nat -> nat) (beta : list Z).

(** The number of vertices of a rank. *)
Definition rank_count (p : nat) : nat := length (filter (fun u => rk u = p) (seq 0 n)).

Context (Hsucc : forall u, (u < n)%nat -> succ u <> [] /\ forall v, v ∈ succ u -> (v < n)%nat).
Context (Hrk : forall u, (u < n)%nat -> (rk u < length beta)%nat).
Context (Hbeta : forall p, (p < length beta)%nat ->
  at_ beta p = if Nat.odd p then Z.of_nat (rank_count p) else 0).
Context (Hpos : (0 < length beta)%nat).

Definition base : Z := Z.of_nat n + 1.

Abbreviation d := (length beta).
Abbreviation measure := (measure beta).
Abbreviation pv := (pv base).
Implicit Types (mu : nat -> list Z) (u v w p : nat).

Lemma beta_base i : 0 <= at_ beta i < base.
Proof.
  unfold base. destruct (decide (i < d)%nat) as [Hi|Hi].
  - rewrite (Hbeta i Hi). destruct (Nat.odd i); [|lia]. unfold rank_count.
    pose proof (length_filter (fun u => rk u = i) (seq 0 n)). rewrite length_seq in H. lia.
  - unfold at_. rewrite lookup_ge_None_2 by lia. cbn. lia.
Qed.

(** ** The operator *)

Definition best mu u : list Z :=
  default [] ((if ev u then min_element else max_element)
                (compare_progress_measures_vertex (rk u)) (mu <$> succ u)).

Definition lift mu u : list Z := prog beta (rk u) (best mu u).

Definition measures mu : Prop := forall u, (u < n)%nat -> measure (mu u).

(** The chosen successor. *)
Lemma best_spec mu u : measures mu -> (u < n)%nat ->
  exists v, v ∈ succ u /\ best mu u = mu v /\ forall w, w ∈ succ u ->
    if ev u then pv (rk u + 1) (mu v) <= pv (rk u + 1) (mu w)
    else pv (rk u + 1) (mu w) <= pv (rk u + 1) (mu v).
Proof.
  intros Hm Hu. destruct (Hsucc u Hu) as [Hne Hs].
  assert (Hne' : mu <$> succ u <> []) by (intros E; by apply fmap_nil_inv in E).
  assert (Hc : forall x y, x ∈ mu <$> succ u -> y ∈ mu <$> succ u ->
    compare_progress_measures_vertex (rk u) x y = true <-> pv (rk u + 1) x < pv (rk u + 1) y).
  { intros x y (v & -> & Hv)%list_elem_of_fmap (w & -> & Hw)%list_elem_of_fmap.
    apply compare_pv with beta; auto using beta_base. }
  unfold best. destruct (ev u).
  - destruct (min_element_spec _ _ _ Hne' Hc) as (x & Ex & (v & -> & Hv)%list_elem_of_fmap & Hle).
    exists v. rewrite Ex. split; [done|]. split; [done|]. intros w Hw. apply Hle. by apply list_elem_of_fmap_2.
  - destruct (max_element_spec _ _ _ Hne' Hc) as (x & Ex & (v & -> & Hv)%list_elem_of_fmap & Hle).
    exists v. rewrite Ex. split; [done|]. split; [done|]. intros w Hw. apply Hle. by apply list_elem_of_fmap_2.
Qed.

Lemma best_measure mu u : measures mu -> (u < n)%nat -> measure (best mu u).
Proof.
  intros Hm Hu. destruct (best_spec mu u Hm Hu) as (v & Hv & -> & _). apply Hm. by apply (Hsucc u).
Qed.

Lemma lift_measure mu u : measures mu -> (u < n)%nat -> measure (lift mu u).
Proof. intros Hm Hu. apply prog_measure with base; auto using beta_base, best_measure. Qed.

Definition below mu mu' : Prop := forall u, (u < n)%nat -> pv d (mu u) <= pv d (mu' u).

Lemma below_prefix mu mu' u k : measures mu -> measures mu' -> below mu mu' -> (u < n)%nat -> (k <= d)%nat ->
  pv k (mu u) <= pv k (mu' u).
Proof. intros. eapply (pv_prefix_le beta base) with d; auto using beta_base. Qed.

Lemma lift_mono mu mu' u : measures mu -> measures mu' -> below mu mu' -> (u < n)%nat ->
  pv d (lift mu u) <= pv d (lift mu' u).
Proof.
  intros Hm Hm' Hb Hu. pose proof (Hrk u Hu).
  apply prog_mono; auto using beta_base, best_measure.
  destruct (best_spec mu u Hm Hu) as (v & Hv & -> & Hle).
  destruct (best_spec mu' u Hm' Hu) as (v' & Hv' & -> & Hle').
  destruct (Hsucc u Hu) as [_ Hs]. specialize (Hle v' Hv'). specialize (Hle' v Hv).
  pose proof (below_prefix mu mu' v (rk u + 1) Hm Hm' Hb (Hs v Hv) ltac:(lia)).
  pose proof (below_prefix mu mu' v' (rk u + 1) Hm Hm' Hb (Hs v' Hv') ltac:(lia)).
  destruct (ev u); lia.
Qed.

(** ** The iteration *)

Definition upd mu u (a : list Z) : nat -> list Z := fun v => if decide (v = u) then a else mu v.

(** Every vertex wants to grow. *)
Definition growing mu : Prop := measures mu /\ forall u, (u < n)%nat -> pv d (mu u) <= pv d (lift mu u).

Lemma upd_below mu u : growing mu -> (u < n)%nat -> below mu (upd mu u (lift mu u)).
Proof. intros [_ Hg] Hu v Hv. unfold upd. case_decide; subst; [by apply Hg|lia]. Qed.

Lemma growing_step mu u : growing mu -> (u < n)%nat -> growing (upd mu u (lift mu u)).
Proof.
  intros Hg Hu. pose proof (upd_below mu u Hg Hu) as Hb. destruct Hg as [Hm Hg].
  assert (Hm' : measures (upd mu u (lift mu u))).
  { intros v Hv. unfold upd. case_decide; subst; [by apply lift_measure|by apply Hm]. }
  split; [done|]. intros v Hv. pose proof (lift_mono mu _ v Hm Hm' Hb Hv).
  unfold upd at 1. case_decide; subst; [done|]. specialize (Hg v Hv). lia.
Qed.

Definition zeros : nat -> list Z := fun _ => progress_measure d.

Lemma zero_measure : measure (progress_measure d).
Proof.
  assert (Hz : forall i, at_ (progress_measure d) i = 0).
  { intros i. unfold at_, progress_measure. destruct (replicate d 0 !! i) as [x|] eqn:E; [|done].
    by apply lookup_replicate in E as [-> _]. }
  split; [apply length_replicate|done|]. intros _ i _. rewrite Hz. pose proof (beta_base i). lia.
Qed.

Lemma pv_zero k : pv k (progress_measure d) = 0.
Proof.
  assert (E : is_top (progress_measure d) = false).
  { unfold progress_measure. destruct d; [lia|done]. }
  assert (Hz : forall i, at_ (progress_measure d) i = 0).
  { intros i. unfold at_, progress_measure. destruct (replicate d 0 !! i) as [x|] eqn:Ex; [|done].
    by apply lookup_replicate in Ex as [-> _]. }
  induction k as [|k IH]; cbn [ProgressMeasures.pv]; rewrite E; [done|]. rewrite IH, Hz. lia.
Qed.

Lemma growing_zeros : growing zeros.
Proof.
  split; [intros u _; apply zero_measure|]. intros u Hu. unfold zeros at 1. rewrite pv_zero.
  apply pv_bounds with beta; auto using beta_base. apply lift_measure; [|done]. intros v _. apply zero_measure.
Qed.

(** The sum of the numbers bounds the number of changes. *)
Definition total mu : Z := foldr (fun u s => pv d (mu u) + s) 0 (seq 0 n).

Lemma sum_upd (l : list nat) mu u a : NoDup l -> u ∈ l ->
  foldr (fun v s => pv d (upd mu u a v) + s) 0 l = foldr (fun v s => pv d (mu v) + s) 0 l + pv d a - pv d (mu u).
Proof.
  induction 1 as [|x l Hx Hl IH]; intros Hu; [by apply elem_of_nil in Hu|].
  cbn [foldr]. apply elem_of_cons in Hu as [->|Hu].
  - unfold upd at 1. rewrite decide_True by done.
    assert (E : foldr (fun v s => pv d (upd mu x a v) + s) 0 l = foldr (fun v s => pv d (mu v) + s) 0 l).
    { clear IH Hl. induction l as [|y l IHl]; [done|]. cbn [foldr].
      apply not_elem_of_cons in Hx as [Hxy Hx]. rewrite IHl by done. unfold upd. by rewrite decide_False by done. }
    rewrite E. lia.
  - rewrite IH by done. unfold upd. rewrite decide_False by (intros ->; done). lia.
Qed.

Lemma total_upd mu u : growing mu -> (u < n)%nat -> lift mu u <> mu u ->
  total mu < total (upd mu u (lift mu u)).
Proof.
  intros [Hm Hg] Hu Hne. unfold total. rewrite sum_upd by (apply NoDup_seq || (apply elem_of_seq; lia)).
  specialize (Hg u Hu). assert (pv d (mu u) <> pv d (lift mu u)); [|lia].
  intros E. apply Hne. symmetry. eapply (pv_inj beta base); auto using beta_base, lift_measure.
Qed.

Lemma pv_max a : measure a -> 0 <= pv d a <= base ^ Z.of_nat d.
Proof.
  intros Ha. destruct (pv_bounds beta base beta_base a d Ha ltac:(lia)) as [H0 H1].
  split; [done|]. destruct (is_top a) eqn:E; [by rewrite pv_top|]. specialize (H1 eq_refl). lia.
Qed.

Lemma total_bounds mu : measures mu -> 0 <= total mu <= Z.of_nat n * base ^ Z.of_nat d.
Proof.
  intros Hm. unfold total. rewrite <- (length_seq n 0) at 3.
  assert (Hl : forall u, u ∈ seq 0 n -> (u < n)%nat) by (intros u Hu; apply elem_of_seq in Hu; lia).
  induction (seq 0 n) as [|u l IH]; cbn [foldr length]; [lia|].
  pose proof (pv_max (mu u) (Hm u (Hl u ltac:(left)))). specialize (IH ltac:(intros; apply Hl; by right)). lia.
Qed.

(** ** A fixed point is a winning region *)

Context (E : nat -> nat -> Prop) (own : nat -> nat -> Prop) (rkN : nat -> N) (dead : nat -> nat).
Context (HE : forall u v, (u < n)%nat -> E u v <-> v ∈ succ u).
Context (Hown : forall alpha u, (u < n)%nat -> own alpha u <-> alpha = if ev u then 0%nat else 1%nat).
Context (HrkN : forall u, (u < n)%nat -> rkN u = N.of_nat (rk u)).

Definition in_game (u : nat) : Prop := (u < n)%nat.

(** A move to a successor of least measure. *)
Definition least_successor mu u : option nat :=
  min_element (fun v w => compare_progress_measures_vertex (rk u) (mu v) (mu w)) (succ u).

Lemma least_successor_spec mu u : measures mu -> (u < n)%nat ->
  exists v, least_successor mu u = Some v /\ v ∈ succ u /\ forall w, w ∈ succ u ->
    pv (rk u + 1) (mu v) <= pv (rk u + 1) (mu w).
Proof.
  intros Hm Hu. destruct (Hsucc u Hu) as [Hne Hs]. apply min_element_spec; [done|].
  intros v w Hv Hw. apply compare_pv with beta; auto using beta_base.
Qed.

Lemma game_has_successor u : (u < n)%nat -> has_successor E in_game u.
Proof.
  intros Hu. destruct (Hsucc u Hu) as [Hne Hs]. destruct (succ u) as [|v l] eqn:El; [done|].
  exists v. split; [apply HE; [done|]; rewrite El; left|apply Hs; left].
Qed.

Lemma parity_rank u : (u < n)%nat -> parity (rkN u) = if Nat.odd (rk u) then 1%nat else 0%nat.
Proof. intros Hu. rewrite (HrkN u Hu). apply parity_of_nat. Qed.

Definition not_top_in mu u : Prop := (u < n)%nat /\ is_top (mu u) = false.

(** Along a move of player 0's strategy, the measures do not grow; at odd ranks
    they get smaller. *)
Lemma fixpoint_move mu u v : measures mu -> (forall u, (u < n)%nat -> lift mu u = mu u) ->
  not_top_in mu u -> move E own in_game 0 (least_successor mu) u v ->
  not_top_in mu v /\ pv (rk u + 1) (mu v) + (if Nat.odd (rk u) then 1 else 0) <= pv (rk u + 1) (mu u).
Proof.
  intros Hm Hf [Hu Ht] (He & Hv & Hsg). apply HE in He; [|done].
  destruct (best_spec mu u Hm Hu) as (w & Hw & Ew & Hle).
  assert (Hvw : pv (rk u + 1) (mu v) <= pv (rk u + 1) (mu w)).
  { destruct (ev u) eqn:Eev; [|by apply Hle].
    destruct (least_successor_spec mu u Hm Hu) as (v' & Ev' & _ & Hmin).
    specialize (Hsg ltac:(apply Hown; [done|by rewrite Eev])). assert (v' = v) as -> by congruence. by apply Hmin. }
  destruct (prog_spec beta base beta_base Hpos (rk u) (best mu u)) as (_ & Hp & _); auto using best_measure.
  fold (lift mu u) in Hp. rewrite (Hf u Hu), Ew in Hp. destruct (Hp Ht) as [Htw Hpw].
  split; [|lia]. split; [done|]. destruct (is_top (mu v)) eqn:Etv; [|done]. exfalso.
  pose proof (Hrk u Hu). destruct (Hsucc u Hu) as [_ Hs].
  pose proof (pv_bounds beta base beta_base (mu w) (rk u + 1) (Hm w (Hs w Hw)) ltac:(lia)) as [_ Hlt].
  specialize (Hlt Htw). rewrite (pv_top base (mu v)) in Hvw by done. lia.
Qed.

Lemma walk_measures mu p u l v : measures mu -> (forall u, (u < n)%nat -> lift mu u = mu u) ->
  not_top_in mu u -> (p <= rk u)%nat -> (forall y, y ∈ l -> (p <= rk y)%nat) ->
  walk (move E own in_game 0 (least_successor mu)) u l v -> pv (p + 1) (mu v) <= pv (p + 1) (mu u).
Proof.
  intros Hm Hf Hu Hp Hl Hw. induction Hw as [u|u x l v Hs Hw IH]; [lia|].
  destruct (fixpoint_move mu u x Hm Hf Hu Hs) as [Hx Hle].
  assert (Hxu : pv (p + 1) (mu x) <= pv (p + 1) (mu u)).
  { destruct Hu as [Hu _], Hx as [Hx _]. pose proof (Hrk u Hu).
    apply (pv_prefix_le beta base beta_base) with (rk u + 1)%nat; auto; [lia..|]. destruct (Nat.odd (rk u)); lia. }
  specialize (IH Hx (Hl x ltac:(left)) ltac:(intros y Hy; apply Hl; by right)). lia.
Qed.

Lemma fixpoint_region mu : measures mu -> (forall u, (u < n)%nat -> lift mu u = mu u) ->
  region E own rkN dead in_game 0 (least_successor mu) (not_top_in mu).
Proof.
  intros Hm Hf. split.
  - by intros u [Hu _].
  - intros u Hu Ho _. destruct (least_successor_spec mu u Hm (proj1 Hu)) as (v & Ev & Hv & _).
    assert (Hmv : move E own in_game 0 (least_successor mu) u v).
    { split; [by apply HE; [apply Hu|]|]. split; [by apply (Hsucc u); [apply Hu|]|done]. }
    exists v. split; [done|]. split; [apply Hmv|]. split; [apply Hmv|].
    by apply (fixpoint_move mu u v Hm Hf Hu Hmv).
  - intros u v Hu Ho He Hv. apply (fixpoint_move mu u v Hm Hf Hu). by split.
  - intros u [Hu _] Hd. exfalso. by apply Hd, game_has_successor.
  - intros x l Hx Hl Hw.
    assert (Hcl : forall u v, not_top_in mu u -> move E own in_game 0 (least_successor mu) u v -> not_top_in mu v).
    { intros u v Hu Hmv. by apply (fixpoint_move mu u v). }
    destruct (walk_closed _ (not_top_in mu) x l x Hcl Hx Hw) as [_ Hin].
    destruct (minimal_rank rkN (fun y => y ∈ l) x (walk_last _ _ _ _ Hw Hl)) as (y & Hy & Hmin).
    exists y. split; [done|]. split; [|done].
    destruct (Hin y Hy) as [Hyn Hyt]. rewrite (parity_rank y Hyn). destruct (Nat.odd (rk y)) eqn:Eo; [exfalso|done].
    destruct (walk_rotate _ x l y Hw Hy) as (l' & Hw' & Hl' & Hll).
    destruct l' as [|z l']; [done|]. inversion Hw' as [|? ? ? ? Hmv Hw'']; subst.
    assert (Hge : forall w, w ∈ z :: l' -> (rk y <= rk w)%nat).
    { intros w Hw2. apply Hll in Hw2. specialize (Hmin w Hw2). destruct (Hin w Hw2) as [Hwn _].
      rewrite (HrkN y Hyn), (HrkN w Hwn) in Hmin. lia. }
    destruct (fixpoint_move mu y z Hm Hf (Hin y Hy) Hmv) as [Hz Hlt]. rewrite Eo in Hlt.
    pose proof (walk_measures mu (rk y) z l' y Hm Hf Hz (Hge z ltac:(left))
      ltac:(intros w Hw2; apply Hge; by right) Hw''). lia.
Qed.

(** ** A winning region bounds the iteration *)

Section Region.
Context (sigma : nat -> option nat) (W : nat -> Prop) (HW : region E own rkN dead in_game 0 sigma W).

(** The moves that player 0's strategy allows. *)
Definition next u : list nat := if ev u then option_list (sigma u) else succ u.

Lemma region_in u : W u -> (u < n)%nat.
Proof. apply HW. Qed.

Lemma next_move u v : W u -> v ∈ next u <-> move E own in_game 0 sigma u v.
Proof.
  intros Hu. pose proof (region_in u Hu) as Hn. unfold next, move.
  rewrite (HE u v Hn), (Hown 0 u Hn). destruct (ev u) eqn:Eev.
  - destruct (region_own _ _ _ _ _ _ _ _ HW u Hu) as (w & Ew & He & Hw & _).
    { apply Hown; [done|]. by rewrite Eev. }
    { by apply game_has_successor. }
    rewrite Ew. cbn. rewrite list_elem_of_singleton. apply HE in He; [|done].
    split; [intros ->; done|]. intros (_ & _ & H). specialize (H eq_refl). congruence.
  - split; [|by intros (? & _)]. intros Hv. split; [done|]. split; [by apply (Hsucc u)|done].
Qed.

Lemma next_region u v : W u -> v ∈ next u -> W v.
Proof. intros Hu Hv%next_move; [|done]. by eapply region_closed. Qed.

(** How often a play of [k] moves can meet rank [p] before a smaller one. *)
Fixpoint visits p (k : nat) u : nat :=
  match k with
  | O => 0
  | S k => if (rk u <? p)%nat then 0
           else (if (rk u =? p)%nat then 1 else 0) + max_list (visits p k <$> next u)
  end%nat.

Lemma max_list_mono {A} (f g : A -> nat) (l : list A) :
  (forall x, x ∈ l -> (f x <= g x)%nat) -> (max_list (f <$> l) <= max_list (g <$> l))%nat.
Proof.
  induction l as [|x l IH]; intros H; [done|]. rewrite !fmap_cons. cbn [max_list_with]. unfold id at 1 3.
  pose proof (H x ltac:(left)). specialize (IH ltac:(intros; apply H; by right)). lia.
Qed.

Lemma max_list_attained {A} (f : A -> nat) (l : list A) :
  max_list (f <$> l) = 0%nat \/ exists x, x ∈ l /\ f x = max_list (f <$> l).
Proof.
  induction l as [|x l IH]; [by left|]. rewrite fmap_cons. cbn [max_list_with]. unfold id at 1 3.
  destruct (Nat.max_spec (f x) (max_list (f <$> l))) as [[_ E1]|[_ E1]]; rewrite E1.
  - destruct IH as [IH|(y & Hy & Ey)]; [by left|right]. exists y. split; [by right|done].
  - right. exists x. split; [left|done].
Qed.

Lemma visits_mono p k u : (visits p k u <= visits p (S k) u)%nat.
Proof.
  revert u. induction k as [|k IH]; intros u; [apply Nat.le_0_l|].
  cbn [visits]. destruct (rk u <? p)%nat; [done|]. apply Nat.add_le_mono_l.
  apply max_list_mono. intros x _. apply IH.
Qed.

(** Such a play. *)
Lemma visits_walk p k u : W u -> visits p k u = 0%nat \/
  exists l z, walk (move E own in_game 0 sigma) u l z /\ (forall y, y ∈ u :: l -> (p <= rk y)%nat) /\
    visits p k u = length (filter (fun y => rk y = p) (u :: l)).
Proof.
  revert u. induction k as [|k IH]; intros u Hu; [by left|]. cbn [visits].
  destruct (rk u <? p)%nat eqn:Elt; [by left|]. apply Nat.ltb_ge in Elt.
  assert (Ef : forall l, length (filter (fun y => rk y = p) (u :: l)) =
    ((if (rk u =? p)%nat then 1 else 0) + length (filter (fun y => rk y = p) l))%nat).
  { intros l. rewrite filter_cons. case_decide as Ed.
    - apply Nat.eqb_eq in Ed as ->. done.
    - by apply Nat.eqb_neq in Ed as ->. }
  destruct (max_list_attained (visits p k) (next u)) as [E0|(v & Hv & Ev)].
  - right. exists [], u. split; [constructor|]. split; [|by rewrite E0, Ef].
    intros y Hy. apply list_elem_of_singleton in Hy as ->. done.
  - rewrite <- Ev. destruct (IH v (next_region u v Hu Hv)) as [E0|(l & z & Hw & Hl & Hc)].
    + right. exists [], u. split; [constructor|]. split; [|by rewrite E0, Ef].
      intros y Hy. apply list_elem_of_singleton in Hy as ->. done.
    + right. exists (v :: l), z. split; [econstructor; [by apply next_move|done]|].
      split; [intros y [->|Hy]%elem_of_cons; auto|]. by rewrite Ef, Hc.
Qed.

(** A walk that meets vertices of [P] too often contains a cycle through [P]. *)
Lemma filter_duplicate (P : nat -> Prop) `{forall y, Decision (P y)} (l : list nat) :
  ~ NoDup (filter P l) -> exists l1 x l2 l3, l = l1 ++ x :: l2 ++ x :: l3 /\ P x.
Proof.
  induction l as [|x l IH]; intros Hl; [exfalso; apply Hl; constructor|].
  destruct (decide (P x /\ x ∈ l)) as [[Hp Hx]|Hx].
  - apply list_elem_of_split in Hx as (l2 & l3 & ->). by exists [], x, l2, l3.
  - destruct IH as (l1 & y & l2 & l3 & -> & Hp); [|by exists (x :: l1), y, l2, l3].
    intros Hnd. apply Hl. rewrite filter_cons. case_decide; [|done]. constructor; [|done].
    intros [_ Hxl]%list_elem_of_filter. by apply Hx.
Qed.

Lemma walk_revisit (R : nat -> nat -> Prop) u l z x l1 l2 l3 :
  walk R u l z -> u :: l = l1 ++ x :: l2 ++ x :: l3 -> walk R x (l2 ++ [x]) x.
Proof.
  intros Hw El. destruct l1 as [|u' l1]; injection El as -> ->.
  - by apply walk_split in Hw as [Hw _].
  - apply walk_split in Hw as [_ Hw]. by apply walk_split in Hw as [Hw _].
Qed.

(** A play that meets an odd rank too often has a cycle that player 0 loses. *)
Lemma visits_bound p k u : W u -> Nat.odd p = true -> (visits p k u <= rank_count p)%nat.
Proof.
  intros Hu Ho. destruct (visits_walk p k u Hu) as [->|(l & z & Hw & Hl & ->)]; [lia|].
  destruct (walk_closed _ W u l z (fun a b => region_closed _ _ _ _ _ _ _ _ a b HW) Hu Hw) as [_ Hin].
  assert (HinW : forall y, y ∈ u :: l -> W y) by (intros y [->|Hy]%elem_of_cons; auto).
  destruct (decide (NoDup (filter (fun y => rk y = p) (u :: l)))) as [Hnd|Hnd].
  - unfold rank_count. apply submseteq_length, NoDup_submseteq; [done|].
    intros y [Ey Hy]%list_elem_of_filter. apply list_elem_of_filter. split; [done|].
    apply elem_of_seq. pose proof (region_in y (HinW y Hy)). lia.
  - exfalso. apply filter_duplicate in Hnd as (l1 & x & l2 & l3 & El & Ex).
    pose proof (walk_revisit _ u l z x l1 l2 l3 Hw El) as Hc.
    assert (Hne : l2 ++ [x] <> []) by (by destruct l2).
    assert (Hcl : forall y, y ∈ l2 ++ [x] -> y ∈ u :: l) by (rewrite El; set_solver).
    pose proof (Hcl x ltac:(set_solver)) as Hx.
    destruct (region_cycle _ _ _ _ _ _ _ _ HW x _ (HinW x Hx) Hne Hc) as (y & Hy & Hpar & Hmin).
    pose proof (region_in y (HinW y (Hcl y Hy))) as Hyn. pose proof (region_in x (HinW x Hx)) as Hxn.
    specialize (Hmin x (walk_last _ _ _ _ Hc Hne)). rewrite (HrkN y Hyn), (HrkN x Hxn) in Hmin.
    pose proof (Hl y (Hcl y Hy)). assert (Ey : rk y = p) by lia.
    rewrite (parity_rank y Hyn), Ey, Ho in Hpar. done.
Qed.

(** The counts are constant from some [k] on. *)
Lemma bounded_stable (f : nat -> nat) B : (forall k, f k <= f (S k))%nat -> (forall k, f k <= B)%nat ->
  exists k0, forall k, (k0 <= k)%nat -> f k = f k0.
Proof.
  intros Hf HB.
  assert (Hm : forall i j, (i <= j)%nat -> (f i <= f j)%nat).
  { intros i j Hij. induction Hij; [done|]. specialize (Hf m). lia. }
  assert (G : forall m i, (B - f i <= m)%nat -> exists k0, forall k, (k0 <= k)%nat -> f k = f k0).
  { induction m as [|m IH]; intros i Hi.
    - exists i. intros k Hk. pose proof (Hm i k Hk). specialize (HB k). lia.
    - destruct (classic (exists j, i <= j /\ f i < f j)%nat) as [(j & Hj & Hlt)|Hno].
      + apply (IH j). lia.
      + exists i. intros k Hk. pose proof (Hm i k Hk).
        destruct (decide (f i < f k)%nat); [exfalso; apply Hno; eauto|lia]. }
  by apply (G B 0%nat); lia.
Qed.

Lemma eventually_all (P : nat -> nat -> Prop) m :
  (forall i, (i < m)%nat -> exists k0, forall k, (k0 <= k)%nat -> P i k) ->
  exists k0, forall i k, (i < m)%nat -> (k0 <= k)%nat -> P i k.
Proof.
  induction m as [|m IH]; intros H; [exists 0%nat; lia|].
  destruct IH as [k1 H1]; [intros; apply H; lia|]. destruct (H m ltac:(lia)) as [k2 H2].
  exists (k1 `max` k2)%nat. intros i k Hi Hk. destruct (decide (i = m)) as [->|]; [apply H2; lia|apply H1; lia].
Qed.

Lemma visits_stable : exists k, forall p u, (p < d)%nat -> (u < n)%nat -> W u -> Nat.odd p = true ->
  visits p (S k) u = visits p k u.
Proof.
  destruct (eventually_all (fun p k => forall u, (u < n)%nat -> W u -> Nat.odd p = true ->
    visits p (S k) u = visits p k u) d) as [k0 H]; [|exists k0; intros; by apply H].
  intros p _. destruct (eventually_all (fun u k => W u -> Nat.odd p = true ->
    visits p (S k) u = visits p k u) n) as [k0 H]; [|exists k0; intros; by apply H].
  intros u _. destruct (classic (W u /\ Nat.odd p = true)) as [[Hu Ho]|Hno].
  - destruct (bounded_stable (fun k => visits p k u) (rank_count p)) as [k0 H].
    + intros k. apply visits_mono.
    + intros k. by apply visits_bound.
    + exists k0. intros k Hk _ _. rewrite (H (S k)), (H k) by lia. done.
  - exists 0%nat. intros k _ Hu Ho. exfalso. by apply Hno.
Qed.

(** The measure that bounds the iteration. *)
Definition rho (k : nat) u : list Z :=
  (fun p => if Nat.odd p then Z.of_nat (visits p k u) else 0) <$> seq 0 d.

Lemma at_rho k u p : (p < d)%nat -> at_ (rho k u) p = if Nat.odd p then Z.of_nat (visits p k u) else 0.
Proof. intros Hp. unfold at_, rho. rewrite list_lookup_fmap, lookup_seq_lt by done. done. Qed.

Lemma rho_not_top k u : is_top (rho k u) = false.
Proof. apply not_top. rewrite at_rho by done. cbn. lia. Qed.

Lemma rho_measure k u : W u -> measure (rho k u).
Proof.
  intros Hu. split.
  - unfold rho. by rewrite length_fmap, length_seq.
  - by rewrite rho_not_top.
  - intros _ p Hp. rewrite at_rho, Hbeta by done. destruct (Nat.odd p) eqn:Eo; [|lia].
    pose proof (visits_bound p k u Hu Eo). lia.
Qed.

Lemma rho_digits k j u v : (forall p, (p < j)%nat -> at_ (rho k v) p <= at_ (rho k u) p) ->
  pv j (rho k v) <= pv j (rho k u).
Proof.
  induction j as [|j IH]; intros H; cbn [ProgressMeasures.pv]; rewrite !rho_not_top; [done|].
  specialize (IH ltac:(intros; apply H; lia)). pose proof (H j ltac:(lia)).
  assert (0 < base) by (unfold base; lia). nia.
Qed.

Lemma rho_move k u v : (forall p u, (p < d)%nat -> (u < n)%nat -> W u -> Nat.odd p = true ->
    visits p (S k) u = visits p k u) -> W u -> v ∈ next u ->
  pv (rk u + 1) (rho k v) + (if Nat.odd (rk u) then 1 else 0) <= pv (rk u + 1) (rho k u).
Proof.
  intros Hk Hu Hv. pose proof (Hrk u (region_in u Hu)) as Hr.
  assert (Hd : forall p, (p <= rk u)%nat ->
    at_ (rho k v) p + (if (Nat.odd p && (rk u =? p)%nat)%bool then 1 else 0) <= at_ (rho k u) p).
  { intros p Hp. rewrite !at_rho by lia. destruct (Nat.odd p) eqn:Eo; [|done].
    rewrite <- (Hk p u) by (auto using region_in || lia). cbn [visits].
    destruct (rk u <? p)%nat eqn:El; [apply Nat.ltb_lt in El; lia|].
    pose proof (max_list_elem_of_le (visits p k v) (visits p k <$> next u) ltac:(by apply list_elem_of_fmap_2)).
    destruct (rk u =? p)%nat; cbn; lia. }
  replace (rk u + 1)%nat with (S (rk u)) by lia. cbn [ProgressMeasures.pv]. rewrite !rho_not_top.
  pose proof (rho_digits k (rk u) u v) as Hpv. pose proof (Hd (rk u) ltac:(lia)) as Hm.
  rewrite Nat.eqb_refl, andb_true_r in Hm.
  assert (pv (rk u) (rho k v) <= pv (rk u) (rho k u)).
  { apply Hpv. intros p Hp. specialize (Hd p ltac:(lia)). destruct (_ && _); lia. }
  assert (0 < base) by (unfold base; lia). nia.
Qed.

(** The vertices of the region stay below their bounds. *)
Lemma lift_rho k mu u : (forall p u, (p < d)%nat -> (u < n)%nat -> W u -> Nat.odd p = true ->
    visits p (S k) u = visits p k u) -> measures mu ->
  (forall v, W v -> pv d (mu v) <= pv d (rho k v)) -> W u -> pv d (lift mu u) <= pv d (rho k u).
Proof.
  intros Hk Hm Hle Hu. pose proof (region_in u Hu) as Hn. pose proof (Hrk u Hn).
  destruct (prog_spec beta base beta_base Hpos (rk u) (best mu u)) as (_ & _ & Hp); auto using best_measure.
  apply Hp; [by apply rho_measure|].
  assert (Hv : exists v, v ∈ next u /\ pv (rk u + 1) (best mu u) <= pv (rk u + 1) (mu v)).
  { destruct (best_spec mu u Hm Hn) as (v & Hv & -> & Hb). destruct (ev u) eqn:Eev.
    - destruct (region_own _ _ _ _ _ _ _ _ HW u Hu) as (w & Ew & He & _);
        [apply Hown; [done|by rewrite Eev]|by apply game_has_successor|].
      exists w. unfold next. rewrite Eev, Ew. split; [left|]. apply Hb. by apply HE.
    - exists v. unfold next. rewrite Eev. split; [done|lia]. }
  destruct Hv as (v & Hv & Hbv). pose proof (next_region u v Hu Hv) as HWv.
  pose proof (rho_move k u v Hk Hu Hv).
  assert (pv (rk u + 1) (mu v) <= pv (rk u + 1) (rho k v)); [|lia].
  apply (pv_prefix_le beta base beta_base) with d; auto using rho_measure; [|lia].
  apply Hm. by apply region_in.
Qed.

Lemma region_bounded : exists B : nat -> Z, (forall u, W u -> 0 <= B u < base ^ Z.of_nat d) /\
  forall mu, measures mu -> (forall v, W v -> pv d (mu v) <= B v) ->
    forall u, W u -> pv d (lift mu u) <= B u.
Proof.
  destruct visits_stable as [k Hk]. exists (fun u => pv d (rho k u)). split.
  - intros u Hu. destruct (pv_bounds beta base beta_base (rho k u) d (rho_measure k u Hu) ltac:(lia)) as [H0 H1].
    split; [done|]. apply H1, rho_not_top.
  - intros mu Hm Hle u Hu. by apply lift_rho.
Qed.

End Region.

End Game.
