(* ===== verification/GameDeterminacy.v ===== *)
(** * Finite games are determined

    The recursive solver returns a partition of the vertices into winning
    regions; applied to the structure graph of a finite game in which every
    vertex has a successor, this shows that every vertex of such a game is won
    by one of the players. *)

From Stdlib Require Import Lia NArith.
From stdpp Require Import base numbers sets list.
From S2P Require Import Prelude ParityGame VertexSets StructureGraph Attractors Arena Solver SolverCorrect.

Section Graph.
Context (n : nat) (succ : nat -> list nat) (ev : nat -> bool) (rk : nat -> N).
Context (Hsucc : forall u v, u < n -> v ∈ succ u -> v < n).
Context (Hrk : forall u, u < n -> (rk u <= undefined_index)%N).

Definition game_vertex (u : nat) : SG.vertex unit :=
  SG.mk_vertex tt (if ev u then d_disjunction else d_conjunction) (rk u)
    (filter (fun v => u ∈ succ v) (seq 0 n)) (succ u) None.

Definition game_graph : SG.structure_graph unit :=
  SG.mk_graph (game_vertex <$> seq 0 n) 0 (bitset_empty n).

Lemma game_extent : SG.extent game_graph = n.
Proof. unfold SG.extent. cbn. by rewrite length_fmap, length_seq. Qed.

Lemma game_lookup u : u < n -> SG.m_vertices game_graph !! u = Some (game_vertex u).
Proof. intros Hu. cbn. by rewrite list_lookup_fmap, lookup_seq_lt. Qed.

Lemma game_lookup_out u : n <= u -> SG.m_vertices game_graph !! u = None.
Proof. intros Hu. apply lookup_ge_None. pose proof game_extent. unfold SG.extent in *. lia. Qed.

Lemma game_contains u : SG.contains game_graph u = true.
Proof. unfold SG.contains. cbn. by rewrite bit_empty. Qed.

Lemma game_in_graph u : in_graph game_graph u <-> u < n.
Proof.
  unfold in_graph.
  pose proof game_extent as He. pose proof (game_contains u) as Hc.
  change (u < SG.extent game_graph /\ SG.contains game_graph u = true <-> u < n). rewrite He. naive_solver.
Qed.

Lemma game_decoration u : u < n ->
  SG.decoration game_graph u = if ev u then d_disjunction else d_conjunction.
Proof. intros Hu. unfold SG.decoration, SG.find_vertex. by rewrite game_lookup. Qed.

Lemma game_successors u : SG.all_successors game_graph u = if decide (u < n) then succ u else [].
Proof.
  unfold SG.all_successors, SG.find_vertex. case_decide; [by rewrite game_lookup|].
  by rewrite game_lookup_out by lia.
Qed.

Lemma game_predecessors u :
  SG.all_predecessors game_graph u = if decide (u < n) then filter (fun v => u ∈ succ v) (seq 0 n) else [].
Proof.
  unfold SG.all_predecessors, SG.find_vertex. case_decide; [by rewrite game_lookup|].
  by rewrite game_lookup_out by lia.
Qed.

Lemma game_valid : valid game_graph.
Proof.
  split.
  - split.
    + rewrite game_extent. apply length_replicate.
    + intros u v. rewrite game_successors, game_extent. case_decide; [by apply Hsucc|].
      intros Hv. by apply elem_of_nil in Hv.
    + intros u v. rewrite game_successors, game_predecessors.
      assert (Hnil : forall (w : nat), w ∈ @nil nat <-> False) by (intros; apply elem_of_nil).
      repeat case_decide; rewrite ?list_elem_of_filter, ?elem_of_seq, ?Hnil; naive_solver lia.
  - intros u v w H1 H2. rewrite game_successors. case_decide; [|intros Hv; by apply elem_of_nil in Hv].
    rewrite game_decoration in H1, H2 by done. by destruct (ev u).
  - intros u. unfold SG.rank, SG.find_vertex. destruct (decide (u < n)).
    + rewrite game_lookup by done. by apply Hrk.
    + by rewrite game_lookup_out by lia.
Qed.

Lemma game_proper : proper game_graph.
Proof.
  intros u Hu%game_in_graph. rewrite game_decoration by done. by destruct (ev u).
Qed.

(** ** The game *)

Abbreviation a := (arena game_graph).

Lemma game_edge u v : u < n -> edge a u v <-> v ∈ succ u.
Proof. intros Hu. unfold edge. rewrite <- successors_arena, game_successors. by rewrite decide_True. Qed.

Lemma game_owner alpha u : u < n -> owner a alpha u <-> alpha = if ev u then 0 else 1.
Proof.
  intros Hu. unfold owner. rewrite <- decoration_arena, game_decoration by done.
  destruct (ev u); cbn; naive_solver.
Qed.

Lemma game_rank u : u < n -> ar_rank a u = rk u.
Proof. intros Hu. rewrite <- rank_arena. unfold SG.rank, SG.find_vertex. by rewrite game_lookup. Qed.

Abbreviation game_region' := (region (edge a) (owner a) (ar_rank a) (ar_dead a) (fun u => u < n)).

Lemma game_determined : exists sigma W0 W1, (forall u, u < n -> W0 u \/ W1 u) /\
  game_region' 0 sigma W0 /\ game_region' 1 sigma W1.
Proof.
  destruct (solve_recursive_spec (solve_fuel game_graph) false game_graph game_valid game_proper)
    as (G' & W & sigma & _ & Hsol).
  { unfold solve_fuel. pose proof (card_le game_graph). lia. }
  exists sigma, (fun u => u ∈ VSet.m_vertices (pick 0 W)), (fun u => u ∈ VSet.m_vertices (pick 1 W)).
  split; [|split].
  - intros u Hu%game_in_graph. by apply (sol_cover _ _ _ _ _ Hsol 0).
  - apply (region_game_ext _ _ _ _ _ _ _ _ _ game_in_graph). by apply (sol_region _ _ _ _ _ Hsol 0); lia.
  - apply (region_game_ext _ _ _ _ _ _ _ _ _ game_in_graph). by apply (sol_region _ _ _ _ _ Hsol 1); lia.
Qed.

End Graph.
