(* ===== verification/BesSolution.v ===== *)
(** * The solution of a boolean equation system

    The specification of the solvers for boolean equation systems: the value of
    a variable is the least or greatest fixed point of its right-hand side, in
    which the later equations have been solved for the value of the variable.
    On booleans, the least fixed point of a monotone function is its value at
    [false], and the greatest its value at [true] ([fixpoint_least]), so the
    solution can be computed.  The second half connects it to games: winning
    regions of player 0 are true in the solution, winning regions of player 1
    are false, whatever the environment. *)

From Stdlib Require Import Lia NArith.
From stdpp Require Import base strings numbers sets list relations.
From S2P Require Import Prelude ParityGame Terms DataExpressions PbesExpressions GraphBuilder GraphBuilderCorrect GraphBuilderTheorems Instantiation SmallProgress.

Section Solution.
Context {variable symbol : Type} `{EqDecision variable} `{EqDecision symbol}.
Abbreviation pbes_expression := (PbesExpressions.pbes_expression variable symbol).
Abbreviation pbes_equation := (SmallProgress.pbes_equation variable symbol).
Implicit Types (eqns : list pbes_equation) (e : pbes_equation) (eta : pbes_expression -> bool).

Definition set_value (X : pbes_expression) (b : bool) eta : pbes_expression -> bool :=
  fun Y => if decide (Y = X) then b else eta Y.

Fixpoint bes_solution eqns eta : pbes_expression -> bool :=
  match eqns with
  | [] => eta
  | e :: eqns =>
      let X := eq_variable e in
      let b := eval (bes_solution eqns (set_value X (is_nu (eq_symbol e)) eta)) (eq_formula e) in
      bes_solution eqns (set_value X b eta)
  end.

(** ** The values are fixed points *)

Definition le_eta eta eta' : Prop := forall Y, eta Y = true -> eta' Y = true.

Lemma eval_mono eta eta' x : supported x = true -> le_eta eta eta' -> eval eta x = true -> eval eta' x = true.
Proof.
  intros Hx Hle. induction x; cbn [eval supported] in *; try done.
  - apply Hle.
  - apply andb_true_iff in Hx as [Hp Hq]. rewrite !andb_true_iff. naive_solver.
  - apply andb_true_iff in Hx as [Hp Hq]. rewrite !orb_true_iff. naive_solver.
Qed.

Lemma set_value_mono X (b b' : bool) eta eta' : (b = true -> b' = true) -> le_eta eta eta' ->
  le_eta (set_value X b eta) (set_value X b' eta').
Proof. intros Hb Hle Y. unfold set_value. case_decide; auto. Qed.

Definition all_supported eqns : Prop := forall e, e ∈ eqns -> supported (eq_formula e) = true.

Lemma bes_solution_mono eqns eta eta' : all_supported eqns -> le_eta eta eta' ->
  le_eta (bes_solution eqns eta) (bes_solution eqns eta').
Proof.
  revert eta eta'. induction eqns as [|e eqns IH]; intros eta eta' Hs Hle; [done|]. cbn [bes_solution].
  assert (Hs' : all_supported eqns) by (intros e' He'; apply Hs; by right).
  apply IH; [done|]. apply set_value_mono; [|done].
  apply eval_mono; [apply Hs; left|]. apply IH; [done|]. by apply set_value_mono.
Qed.

(** The equation as a function of the value of its variable. *)
Definition equation_function e eqns eta (b : bool) : bool :=
  eval (bes_solution eqns (set_value (eq_variable e) b eta)) (eq_formula e).

Lemma equation_function_mono e eqns eta : all_supported (e :: eqns) ->
  equation_function e eqns eta false = true -> equation_function e eqns eta true = true.
Proof.
  intros Hs. apply eval_mono; [apply Hs; left|]. apply bes_solution_mono; [intros e' He'; apply Hs; by right|].
  apply set_value_mono; [done|]. by intros Y HY.
Qed.

(** The value of the first variable is the least fixed point for [mu] and the
    greatest for [nu]. *)
Lemma fixpoint_least e eqns eta : all_supported (e :: eqns) ->
  let f := equation_function e eqns eta in
  let b := f (is_nu (eq_symbol e)) in
  bes_solution (e :: eqns) eta = bes_solution eqns (set_value (eq_variable e) b eta) /\
  f b = b /\ forall c, f c = c -> if is_nu (eq_symbol e) then (c = true -> b = true) else (b = true -> c = true).
Proof.
  intros Hs f b. split; [done|]. pose proof (equation_function_mono e eqns eta Hs) as Hm.
  subst b f. cbn beta. destruct (is_nu (eq_symbol e)).
  - split; [|intros c Hc ->; congruence].
    destruct (equation_function e eqns eta true) eqn:E1; [done|].
    destruct (equation_function e eqns eta false) eqn:E2; [|done]. by specialize (Hm eq_refl).
  - split; [|intros [] Hc; congruence].
    destruct (equation_function e eqns eta false) eqn:E1; [by apply Hm|done].
Qed.

(** ** Variables without an equation keep their value *)

Lemma bes_solution_outside eqns eta Y : Y ∉ eq_variable <$> eqns -> bes_solution eqns eta Y = eta Y.
Proof.
  revert eta. induction eqns as [|e eqns IH]; intros eta HY; [done|]. cbn [bes_solution].
  rewrite fmap_cons in HY. apply not_elem_of_cons in HY as [HX HY]. rewrite IH by done.
  unfold set_value. by rewrite decide_False.
Qed.

(** Every equation holds in the solution. *)
Lemma bes_solution_holds eqns eta e : all_supported eqns -> NoDup (eq_variable <$> eqns) -> e ∈ eqns ->
  bes_solution eqns eta (eq_variable e) = eval (bes_solution eqns eta) (eq_formula e).
Proof.
  revert eta. induction eqns as [|e' eqns IH]; intros eta Hs Hnd He; [by apply elem_of_nil in He|].
  rewrite fmap_cons in Hnd. apply NoDup_cons in Hnd as [Hx Hnd].
  destruct (fixpoint_least e' eqns eta Hs) as (-> & Hfix & _).
  apply elem_of_cons in He as [->|He]; [|apply IH; auto; intros e2 H2; apply Hs; by right].
  rewrite bes_solution_outside by done. unfold set_value at 1. rewrite decide_True by done.
  by rewrite <- Hfix at 1.
Qed.

(** ** Winning regions *)

Section Regions.
Context (eqns : list pbes_equation) (key : nat -> pbes_expression).
Abbreviation n := (length eqns).
Context (Hkey : forall u e, eqns !! u = Some e -> key u = eq_variable e).
Context (Hinj : forall u v, u < n -> v < n -> key u = key v -> u = v).
Context (E : nat -> nat -> Prop) (own : nat -> nat -> Prop) (rk : nat -> N) (dead : nat -> nat).
Context (HE : forall u v, u < n -> E u v -> v < n).
Context (Htotal : forall u, u < n -> exists v, E u v).
Context (Hmono : forall u v, u <= v -> v < n -> (rk u <= rk v)%N).
Context (Hpar : forall u e, eqns !! u = Some e -> parity (rk u) = if is_nu (eq_symbol e) then 0 else 1).

Definition player_value (alpha : nat) : bool := alpha =? 0.

(** The owner of an equation can choose an operand. *)
Context (Hforce : forall alpha u e (s : pbes_expression -> bool), alpha < 2 -> eqns !! u = Some e ->
  (own alpha u /\ exists v, E u v /\ s (key v) = player_value alpha) \/
  (~ own alpha u /\ forall v, E u v -> s (key v) = player_value alpha) ->
  eval s (eq_formula e) = player_value alpha).

Definition in_system (u : nat) : Prop := u < n.

Context (alpha : nat) (Halpha : alpha < 2) (sigma : nat -> option nat) (W : nat -> Prop).
Context (HW : region E own rk dead in_system alpha sigma W).

Abbreviation mv := (move E own in_system alpha sigma).

(** Moves from the equations from [i] on; where they leave them, the
    environment has the value that [alpha] wants. *)
Definition late_move (i u v : nat) : Prop := i <= u /\ mv u v.

Definition good_exits (i : nat) eta (u : nat) : Prop :=
  forall z, rtc (late_move i) u z -> z < i -> eta (key z) = player_value alpha.

Lemma late_move_S i u v : rtc (late_move (S i)) u v -> rtc (late_move i) u v.
Proof. apply rtc_subrel. intros x y [Hx Hm]. split; [lia|done]. Qed.

Lemma late_region i u v : W u -> rtc (late_move i) u v -> W v.
Proof.
  intros Hu Hr. induction Hr as [|x y z [_ Hm] _ IH]; [done|]. apply IH. by eapply region_closed.
Qed.

Lemma late_walk i u v : rtc (late_move i) u v -> exists l, walk mv u l v /\ forall y, y ∈ l -> i <= y \/ y = v.
Proof.
  induction 1 as [|x y z [Hx Hm] Hr (l & Hw & Hl)].
  - exists []. split; [constructor|]. intros y Hy. by apply elem_of_nil in Hy.
  - exists (y :: l). split; [by econstructor|]. intros w [->|Hw']%elem_of_cons; [|auto].
    inversion Hr as [|? ? ? [Hy _]]; subst; auto.
Qed.

(** A cycle of later equations through an equation that [alpha] does not like
    is lost. *)
Lemma no_bad_cycle i w : W i -> mv i w -> parity (rk i) <> alpha -> ~ rtc (late_move (S i)) w i.
Proof.
  intros Hi Hm Hp Hr. destruct (late_walk _ _ _ Hr) as (l & Hw & Hl).
  destruct (region_cycle _ _ _ _ _ _ _ _ HW i (w :: l) Hi) as (y & Hy & Hpy & Hmin); [done|by econstructor|].
  assert (Hiw : i ∈ w :: l).
  { apply (walk_last mv i); [by econstructor|done]. }
  assert (Hiy : i <= y).
  { apply elem_of_cons in Hy as [->|Hy].
    - inversion Hr as [|? ? ? [? _]]; subst; lia.
    - destruct (Hl y Hy); lia. }
  assert (Hyn : y < n).
  { apply (region_sub _ _ _ _ _ _ _ _ HW).
    eapply (walk_closed mv W i (w :: l) i); [|done|by econstructor|done].
    intros a b Ha Hb. by eapply region_closed. }
  apply Hp. rewrite <- Hpy. specialize (Hmin i Hiw). pose proof (Hmono i y Hiy Hyn).
  f_equal. lia.
Qed.

Lemma key_outside i u : u < n -> u < i -> key u ∉ eq_variable <$> drop i eqns.
Proof.
  intros Hu Hlt (e & Ee & (j & Hj)%list_elem_of_lookup)%list_elem_of_fmap.
  rewrite lookup_drop in Hj. pose proof (Hkey _ _ Hj) as Hk. rewrite <- Ee in Hk.
  apply Hinj in Hk; [lia| |done]. by eapply lookup_lt_Some.
Qed.

Lemma region_solution_from i eta u : i <= n -> W u -> good_exits i eta u ->
  bes_solution (drop i eqns) eta (key u) = player_value alpha.
Proof.
  remember (n - i) as m eqn:Em. revert i Em eta u. induction m as [|m IH]; intros i Em eta u Hin Hu Hg.
  { assert (i = n) as -> by lia. rewrite drop_all. apply Hg; [constructor|]. by apply (region_sub _ _ _ _ _ _ _ _ HW). }
  destruct (lookup_lt_is_Some_2 eqns i) as [e He]; [lia|]. rewrite (drop_S eqns e i He). cbn [bes_solution].
  rewrite <- (Hkey i e He).
  assert (Hval : W i -> good_exits i eta i ->
    eval (bes_solution (drop (S i) eqns) (set_value (key i) (is_nu (eq_symbol e)) eta)) (eq_formula e)
    = player_value alpha).
  { intros Hi Hgi.
    assert (Hs : forall w, mv i w -> bes_solution (drop (S i) eqns)
      (set_value (key i) (is_nu (eq_symbol e)) eta) (key w) = player_value alpha).
    { intros w Hm. apply IH; [lia|lia|by eapply region_closed|]. intros z Hz Hlt.
      assert (Hzn : z < n) by lia. unfold set_value. case_decide as Ez.
      - apply Hinj in Ez as ->; [|done|lia]. specialize (Hpar i e He). unfold player_value.
        destruct (decide (parity (rk i) = alpha)) as [Ep|Ep]; [|exfalso; by eapply no_bad_cycle].
        rewrite <- Ep, Hpar. by destruct (is_nu _).
      - apply Hgi; [|destruct (decide (z = i)); [congruence|lia]].
        eapply rtc_l; [by split|]. by apply late_move_S. }
    apply (Hforce alpha i e); [done|done|]. destruct (Classical_Prop.classic (own alpha i)) as [Ho|Ho].
    - left. split; [done|]. destruct (region_own _ _ _ _ _ _ _ _ HW i Hi Ho) as (v & Ev & He' & Hv & _).
      { destruct (Htotal i ltac:(lia)) as [v Hv]. exists v. split; [done|]. by apply (HE i); [lia|]. }
      exists v. split; [done|]. apply Hs. by split.
    - right. split; [done|]. intros v Hv. apply Hs. split; [done|]. split; [by apply (HE i); [lia|]|done]. }
  set (b := eval _ (eq_formula e)) in *. pose proof (region_sub _ _ _ _ _ _ _ _ HW u Hu) as Hun.
  destruct (decide (u = i)) as [->|Hne].
  - rewrite bes_solution_outside by (apply key_outside; [done|lia]).
    unfold set_value. rewrite decide_True by done. by apply Hval.
  - apply IH; [lia|lia|done|]. intros z Hz Hlt. pose proof (late_move_S _ _ _ Hz) as Hz'.
    unfold set_value. case_decide as Ez.
    + apply Hinj in Ez as ->; [|lia|lia]. apply Hval; [by eapply late_region|].
      intros z2 Hz2. apply Hg. by etrans.
    + apply Hg; [done|]. destruct (decide (z = i)); [congruence|lia].
Qed.

Lemma region_solution eta u : W u -> bes_solution eqns eta (key u) = player_value alpha.
Proof.
  intros Hu. rewrite <- (drop_0 eqns). apply region_solution_from; [lia|done|]. intros z _ Hz. lia.
Qed.

End Regions.
End Solution.
