(* ===== verification/SmallProgressInit.v ===== *)
(** * The vertices of the progress measures algorithm

    What [initialize_vertices] of [SmallProgress.v] builds for a boolean
    equation system in standard recursive form: every equation has a vertex with
    its rank - the number of alternations of the fixpoint symbol before it - and
    the vertices of the variables in its right-hand side; the bound of an odd
    rank is the number of equations with that rank. *)

From Stdlib Require Import Lia ZArith.
From stdpp Require Import base strings numbers sets list sorting.
From S2P Require Import Prelude Terms DataExpressions PbesExpressions GraphBuilder GraphBuilderCorrect GraphBuilderTheorems Instantiation SmallProgress.

Local Open Scope Z_scope.

Section Init.
Context {variable symbol : Type} `{EqDecision variable} `{EqDecision symbol}.
Abbreviation pbes_expression := (PbesExpressions.pbes_expression variable symbol).
Abbreviation pbes_equation := (SmallProgress.pbes_equation variable symbol).
Abbreviation pm_vertex := (progress_measures_vertex variable symbol).
Abbreviation vertex_map := (list (pbes_expression * pm_vertex)).
Implicit Types (eqns : list pbes_equation) (e : pbes_equation) (X Y : pbes_expression) (M : vertex_map).

(** ** Standard recursive form *)

Fixpoint conjunction_of_variables (x : pbes_expression) : bool :=
  match x with
  | propositional_variable_instantiation _ _ => true
  | pbes_and p q => conjunction_of_variables p && conjunction_of_variables q
  | _ => false
  end.

Fixpoint disjunction_of_variables (x : pbes_expression) : bool :=
  match x with
  | propositional_variable_instantiation _ _ => true
  | pbes_or p q => disjunction_of_variables p && disjunction_of_variables q
  | _ => false
  end.

(** Every right-hand side is a conjunction or disjunction of variables of the
    system, which have one equation each. *)
Record standard_recursive_form eqns : Prop := {
  srf_formula : forall e, e ∈ eqns ->
    conjunction_of_variables (eq_formula e) = true \/ disjunction_of_variables (eq_formula e) = true;
  srf_closed : forall e Y, e ∈ eqns -> Y ∈ occurrences (eq_formula e) -> Y ∈ eq_variable <$> eqns;
  srf_distinct : NoDup (eq_variable <$> eqns)
}.

Lemma conjunction_eval (eta : pbes_expression -> bool) x : conjunction_of_variables x = true ->
  eval eta x = true <-> forall Y, Y ∈ occurrences x -> eta Y = true.
Proof.
  induction x; cbn [conjunction_of_variables eval occurrences]; try done.
  - intros _. setoid_rewrite list_elem_of_singleton. naive_solver.
  - rewrite !andb_true_iff. intros [Hp Hq]. rewrite IHx1, IHx2 by done. setoid_rewrite elem_of_app. naive_solver.
Qed.

Lemma disjunction_eval (eta : pbes_expression -> bool) x : disjunction_of_variables x = true ->
  eval eta x = true <-> exists Y, Y ∈ occurrences x /\ eta Y = true.
Proof.
  induction x; cbn [disjunction_of_variables eval occurrences]; try done.
  - intros _. setoid_rewrite list_elem_of_singleton. naive_solver.
  - rewrite !andb_true_iff, !orb_true_iff. intros [Hp Hq]. rewrite IHx1, IHx2 by done.
    setoid_rewrite elem_of_app. naive_solver.
Qed.

Lemma standard_is_or x : conjunction_of_variables x = true \/ disjunction_of_variables x = true ->
  if is_disjunctive x then disjunction_of_variables x = true else conjunction_of_variables x = true.
Proof. destruct x; cbn; naive_solver. Qed.

Lemma standard_occurrences x : conjunction_of_variables x = true \/ disjunction_of_variables x = true ->
  occurrences x <> [].
Proof.
  induction x; cbn; try naive_solver.
  - intros [[Hp _]%andb_true_iff|]; [|done]. destruct (occurrences x1); [|done]. naive_solver.
  - intros [|[Hp _]%andb_true_iff]; [done|]. destruct (occurrences x1); [|done]. naive_solver.
Qed.

(** ** Ranks *)

Fixpoint ranks (r : nat) (s : fixpoint_symbol) eqns : list nat :=
  match eqns with
  | [] => []
  | e :: eqns =>
      let r := if decide (eq_symbol e = s) then r else S r in r :: ranks r (eq_symbol e) eqns
  end.

Definition equation_ranks eqns : list nat := ranks 0 Nu eqns.

Definition equation_rank eqns (u : nat) : nat := default 0%nat (equation_ranks eqns !! u).

Lemma length_ranks r s eqns : length (ranks r s eqns) = length eqns.
Proof. revert r s. induction eqns; intros; cbn; [done|]. by f_equal. Qed.

Lemma ranks_ge r s eqns x : x ∈ ranks r s eqns -> (r <= x)%nat.
Proof.
  revert r s. induction eqns as [|e eqns IH]; intros r s; cbn; [by intros ?%elem_of_nil|].
  intros [->|Hx]%elem_of_cons; [case_decide; lia|]. apply IH in Hx. case_decide; lia.
Qed.

(** They do not decrease, and their parity is the fixpoint symbol. *)
Lemma ranks_mono r s eqns u v x y : ranks r s eqns !! u = Some x -> ranks r s eqns !! v = Some y ->
  (u <= v)%nat -> (x <= y)%nat.
Proof.
  revert r s u v. induction eqns as [|e eqns IH]; intros r s u v; [done|]. cbn [ranks].
  destruct u as [|u], v as [|v]; cbn [lookup list_lookup]; intros Hu Hv Hle; try lia.
  - assert (x = y) as -> by congruence. done.
  - injection Hu as <-. apply (ranks_ge _ (eq_symbol e) eqns). eapply list_elem_of_lookup_2. exact Hv.
  - eapply IH; [exact Hu|exact Hv|lia].
Qed.

Lemma ranks_parity r s eqns u e x : Nat.odd r = negb (is_nu s) ->
  eqns !! u = Some e -> ranks r s eqns !! u = Some x -> Nat.odd x = negb (is_nu (eq_symbol e)).
Proof.
  revert r s u. induction eqns as [|e' eqns IH]; intros r s u Hr He Hx; [done|]. cbn [ranks] in Hx.
  assert (Hr' : Nat.odd (if decide (eq_symbol e' = s) then r else S r) = negb (is_nu (eq_symbol e'))).
  { case_decide as Es; [by rewrite Es|]. rewrite Nat.odd_succ, <- Nat.negb_odd, Hr.
    destruct s, (eq_symbol e'); done. }
  destruct u as [|u]; [cbn in He, Hx; congruence|]. eapply IH; eauto.
Qed.

Lemma ranks_le r s eqns u x : ranks r s eqns !! u = Some x -> (x <= r + u + 1)%nat.
Proof.
  revert r s u. induction eqns as [|e eqns IH]; intros r s u Hx; [done|]. cbn [ranks] in Hx.
  destruct u as [|u]; [injection Hx as <-; case_decide; lia|].
  specialize (IH _ _ _ Hx). revert IH. case_decide; lia.
Qed.

(** The last rank. *)
Fixpoint final_rank (r : nat) (s : fixpoint_symbol) eqns : nat :=
  match eqns with
  | [] => r
  | e :: eqns => final_rank (if decide (eq_symbol e = s) then r else S r) (eq_symbol e) eqns
  end.

Lemma ranks_le_final r s eqns x : x ∈ ranks r s eqns -> (x <= final_rank r s eqns)%nat.
Proof.
  revert r s. induction eqns as [|e eqns IH]; intros r s; cbn [ranks final_rank]; [by intros ?%elem_of_nil|].
  assert (Hf : forall r s, (r <= final_rank r s eqns)%nat).
  { clear. induction eqns as [|e eqns IH]; intros r s; cbn [final_rank]; [done|].
    specialize (IH (if decide (eq_symbol e = s) then r else S r) (eq_symbol e)). case_decide; lia. }
  intros [->|Hx]%elem_of_cons; auto.
Qed.

Lemma maximum_rank_final eqns : maximum_rank eqns = final_rank 0 Nu eqns.
Proof.
  destruct eqns as [|e eqns]; [done|]. cbn [maximum_rank final_rank].
  assert (G' : forall r s, maximum_rank_loop r s eqns = final_rank r s eqns).
  { clear. induction eqns as [|e eqns IH]; intros r s; [done|]. apply IH. }
  rewrite G'. by destruct (eq_symbol e).
Qed.

Context (term_less : pbes_expression -> pbes_expression -> bool).

Lemma elem_of_found x Y : Y ∈ find_propositional_variable_instantiations term_less x <-> Y ∈ occurrences x.
Proof.
  unfold find_propositional_variable_instantiations, ordered_operands.
  rewrite merge_sort_Permutation. apply elem_of_remove_dups.
Qed.

(** ** The map *)

Lemma vertex_find_assign X v M Y :
  vertex_find (vertex_assign term_less X v M) Y = if decide (X = Y) then Some v else vertex_find M Y.
Proof.
  induction M as [|[Z w] M IH]; cbn [vertex_assign vertex_find]; [done|].
  destruct (decide (Z = X)) as [->|Hn]; [|destruct (term_less X Z)]; cbn [vertex_find].
  - repeat case_decide; done.
  - done.
  - rewrite IH. repeat case_decide; congruence.
Qed.

Lemma vertex_keys_assign X v M Y :
  Y ∈ (vertex_assign term_less X v M).*1 <-> Y = X \/ Y ∈ M.*1.
Proof.
  induction M as [|[Z w] M IH]; cbn [vertex_assign].
  - cbn. rewrite list_elem_of_singleton, elem_of_nil. naive_solver.
  - destruct (decide (Z = X)) as [->|Hn]; [|destruct (term_less X Z)]; rewrite ?fmap_cons; cbn [fst];
      rewrite ?fmap_cons, !elem_of_cons, ?IH; naive_solver.
Qed.

Lemma vertex_find_key M X v : vertex_find M X = Some v -> X ∈ M.*1.
Proof.
  induction M as [|[Y w] M IH]; cbn [vertex_find]; [done|]. rewrite fmap_cons. cbn [fst].
  case_decide; subst; [left|right; auto].
Qed.

(** ** The first loop *)

Definition count (p : nat) (rs : list nat) : nat := length (filter (fun x => x = p) rs).

Lemma count_snoc p rs x : count p (rs ++ [x]) = (count p rs + if decide (x = p) then 1 else 0)%nat.
Proof. unfold count. rewrite filter_app, length_app, filter_cons. case_decide; done. Qed.

Lemma count_above p rs : (forall x, x ∈ rs -> (x < p)%nat) -> count p rs = 0%nat.
Proof.
  intros H. unfold count. destruct (filter _ rs) as [|x l] eqn:Ef; [done|]. exfalso.
  assert (Hx : x ∈ filter (fun x => x = p) rs) by (rewrite Ef; left).
  apply list_elem_of_filter in Hx as [-> Hx]. specialize (H p Hx). lia.
Qed.

Lemma count_le p rs : (count p rs <= length rs)%nat.
Proof. apply length_filter. Qed.

(** Bounds, block size and last rank after equations with the ranks [rs]. *)
Record bounds_of (rs : list nat) (beta : list Z) (block : Z) (r : nat) : Prop := {
  bo_length : length beta = r;
  bo_beta : forall p, (p < r)%nat -> at_ beta p = if Nat.odd p then Z.of_nat (count p rs) else 0;
  bo_block : block = Z.of_nat (count r rs);
  bo_ranks : forall x, x ∈ rs -> (x <= r)%nat
}.

Lemma push_beta_spec rs beta block r : Z.of_nat (length rs) < 2 ^ 31 -> bounds_of rs beta block r ->
  length (push_beta block beta) = S r /\
  forall p, (p < S r)%nat -> at_ (push_beta block beta) p = if Nat.odd p then Z.of_nat (count p rs) else 0.
Proof.
  intros Hn [Hl Hb Hs Hr]. unfold push_beta. split; [rewrite length_app; cbn; lia|].
  intros p Hp. unfold at_. destruct (decide (p = r)) as [->|Hne].
  - rewrite lookup_app_r, Hl, Nat.sub_diag by lia. cbn. rewrite <- Nat.negb_odd.
    destruct (Nat.odd r); [|done]. cbn. rewrite Hs. unfold to_int.
    pose proof (count_le r rs). rewrite (proj2 (Z.ltb_lt _ _)) by lia. done.
  - rewrite lookup_app_l by lia. fold (at_ beta p). apply Hb. lia.
Qed.

Lemma init_step_bounds d rs st e : Z.of_nat (length rs) < 2 ^ 31 ->
  bounds_of rs (i_beta st) (i_block_size st) (i_last_rank st) ->
  let r := if decide (eq_symbol e = i_last_symbol st) then i_last_rank st else S (i_last_rank st) in
  let st' := init_step term_less d st e in
  bounds_of (rs ++ [r]) (i_beta st') (i_block_size st') (i_last_rank st') /\
  i_last_rank st' = r /\ i_last_symbol st' = eq_symbol e /\
  i_vertices st' = vertex_assign term_less (eq_variable e)
    (new_pm_vertex (is_disjunctive (eq_formula e)) r d) (i_vertices st).
Proof.
  intros Hn Hb r st'. pose proof (push_beta_spec _ _ _ _ Hn Hb) as [Hpl Hp]. destruct Hb as [Hl Hbt Hs Hr].
  subst r st'. unfold init_step. case_decide as Es; cbn.
  - split; [|by rewrite Es]. split; [done| | |].
    + intros p Hlt. rewrite (Hbt p Hlt), count_snoc, decide_False by lia. by rewrite Nat.add_0_r.
    + rewrite count_snoc, decide_True by done. rewrite Hs. pose proof (count_le (i_last_rank st) rs).
      rewrite Z.mod_small by lia. lia.
    + intros x [Hx|Hx]%elem_of_app; [by apply Hr|]. apply list_elem_of_singleton in Hx. lia.
  - split; [|done]. split; [done| | |].
    + intros p Hlt. rewrite (Hp p Hlt), count_snoc, decide_False by lia. by rewrite Nat.add_0_r.
    + rewrite count_snoc, decide_True by done. rewrite count_above; [done|].
      intros x Hx. specialize (Hr x Hx). lia.
    + intros x [Hx|Hx]%elem_of_app; [specialize (Hr x Hx); lia|]. apply list_elem_of_singleton in Hx. lia.
Qed.

Lemma init_loop_spec d eqns rs st : Z.of_nat (length rs + length eqns) < 2 ^ 31 ->
  bounds_of rs (i_beta st) (i_block_size st) (i_last_rank st) -> NoDup (eq_variable <$> eqns) ->
  let r0 := i_last_rank st in let s0 := i_last_symbol st in
  let st' := foldl (init_step term_less d) st eqns in
  bounds_of (rs ++ ranks r0 s0 eqns) (i_beta st') (i_block_size st') (i_last_rank st') /\
  i_last_rank st' = final_rank r0 s0 eqns /\
  (forall X, X ∉ eq_variable <$> eqns -> vertex_find (i_vertices st') X = vertex_find (i_vertices st) X) /\
  (forall u e r, eqns !! u = Some e -> ranks r0 s0 eqns !! u = Some r ->
     vertex_find (i_vertices st') (eq_variable e) = Some (new_pm_vertex (is_disjunctive (eq_formula e)) r d)) /\
  (forall X, X ∈ (i_vertices st').*1 <-> X ∈ (i_vertices st).*1 \/ X ∈ eq_variable <$> eqns).
Proof.
  revert rs st. induction eqns as [|e eqns IH]; intros rs st Hn Hb Hnd; cbn zeta; cbn [foldl].
  { rewrite app_nil_r. split; [done|]. split; [done|]. split; [done|]. split; [done|].
    intros X. rewrite elem_of_nil. naive_solver. }
  rewrite fmap_cons in *. apply NoDup_cons in Hnd as [Hx Hnd]. cbn [length] in Hn.
  destruct (init_step_bounds d rs st e ltac:(lia) Hb) as (Hb' & Er & Es & Ev).
  set (st' := init_step term_less d st e) in *.
  match type of Hb' with bounds_of ?l _ _ _ => destruct (IH l st') as (G1 & G2 & G3 & G4 & G5) end;
    [rewrite length_app; cbn; lia|done|done|].
  cbn [ranks final_rank].
  rewrite Er, Es in *. rewrite <- app_assoc in G1. split; [done|]. split; [done|]. split; [|split].
  - intros X [HX HX']%not_elem_of_cons. rewrite G3, Ev, vertex_find_assign, decide_False by congruence. done.
  - intros [|u] e' r He Hr; [|by apply (G4 u)]. cbn in He, Hr. injection He as <-. injection Hr as <-.
    rewrite G3, Ev, vertex_find_assign, decide_True by done. done.
  - intros X. rewrite G5, Ev, vertex_keys_assign, elem_of_cons. naive_solver.
Qed.

(** ** The second loop *)

Lemma successor_access M (succ : list pbes_expression) :
  (forall Y, Y ∈ succ -> exists v, vertex_find M Y = Some v) ->
  foldl (fun M v => vertex_access term_less v M) M succ = M.
Proof.
  induction succ as [|Y succ IH]; intros H; cbn [foldl]; [done|]. unfold vertex_access at 2.
  destruct (H Y ltac:(left)) as [v ->]. apply IH. intros Z HZ. apply H. by right.
Qed.

Lemma successor_loop_spec (es : list pbes_equation) M :
  NoDup (eq_variable <$> es) ->
  (forall e, e ∈ es -> exists v, vertex_find M (eq_variable e) = Some v) ->
  (forall e Y, e ∈ es -> Y ∈ occurrences (eq_formula e) -> exists v, vertex_find M Y = Some v) ->
  let M' := foldl (successor_step term_less) M es in
  (forall X, X ∉ eq_variable <$> es -> vertex_find M' X = vertex_find M X) /\
  (forall e v, e ∈ es -> vertex_find M (eq_variable e) = Some v -> vertex_find M' (eq_variable e) =
     Some (with_successors (pm_successors v ++ find_propositional_variable_instantiations term_less (eq_formula e)) v)) /\
  (forall X, X ∈ M'.*1 <-> X ∈ M.*1).
Proof.
  revert M. induction es as [|e es IH]; intros M Hnd Hf Hc; cbn zeta; cbn [foldl].
  { split; [done|]. split; [|done]. intros e v He. by apply elem_of_nil in He. }
  rewrite fmap_cons in *. apply NoDup_cons in Hnd as [Hx Hnd].
  assert (Es : exists v, vertex_find M (eq_variable e) = Some v /\ successor_step term_less M e =
    vertex_assign term_less (eq_variable e)
      (with_successors (pm_successors v ++ find_propositional_variable_instantiations term_less (eq_formula e)) v) M).
  { destruct (Hf e ltac:(left)) as [v Hv]. exists v. split; [done|]. unfold successor_step.
    rewrite successor_access; [by rewrite Hv|]. intros Y HY%elem_of_found. by apply (Hc e Y); [left|]. }
  destruct Es as (v & Hv & Es).
  assert (Hex : forall Y, (exists w, vertex_find M Y = Some w) ->
    exists w, vertex_find (successor_step term_less M e) Y = Some w).
  { intros Y [w Hw]. rewrite Es, vertex_find_assign. case_decide; eauto. }
  destruct (IH (successor_step term_less M e)) as (G1 & G2 & G3); [done| | |].
  { intros e' He'. apply Hex, Hf. by right. }
  { intros e' Y He' HY. apply Hex. apply (Hc e' Y); [by right|done]. }
  split; [|split].
  - intros X [HX HX']%not_elem_of_cons. rewrite G1, Es, vertex_find_assign, decide_False by congruence. done.
  - intros e' v' [->|He']%elem_of_cons Hv'.
    + rewrite G1, Es, vertex_find_assign, decide_True by done. by replace v' with v by congruence.
    + apply G2; [done|]. rewrite Es, vertex_find_assign, decide_False; [done|].
      intros Ex. apply Hx. rewrite Ex. by apply list_elem_of_fmap_2.
  - intros X. rewrite G3, Es, vertex_keys_assign. apply vertex_find_key in Hv. naive_solver.
Qed.

(** ** The result *)

Lemma initialize_vertices_spec eqns : standard_recursive_form eqns -> Z.of_nat (length eqns) < 2 ^ 31 ->
  let '(M, d, beta) := initialize_vertices term_less eqns in
  length beta = d /\ (0 < d)%nat /\
  (forall p, (p < d)%nat -> at_ beta p = if Nat.odd p then Z.of_nat (count p (equation_ranks eqns)) else 0) /\
  (forall u, (u < length eqns)%nat -> (equation_rank eqns u < d)%nat) /\
  (forall u e, eqns !! u = Some e -> vertex_find M (eq_variable e) =
     Some (mk_pm_vertex (find_propositional_variable_instantiations term_less (eq_formula e))
             (is_disjunctive (eq_formula e)) (equation_rank eqns u) (progress_measure d))) /\
  (forall X, X ∈ M.*1 <-> X ∈ eq_variable <$> eqns).
Proof.
  intros [Hf Hc Hnd] Hn. unfold initialize_vertices. set (d := (maximum_rank eqns + 1)%nat).
  destruct (init_loop_spec d eqns [] (mk_init [] [] 0 0 Nu)) as (G1 & G2 & _ & G4 & G5);
    [done|split; cbn; [done|lia|done|]; intros x Hx; by apply elem_of_nil in Hx|done|].
  cbn [i_last_rank i_last_symbol i_vertices] in *. rewrite app_nil_l in G1. fold (equation_ranks eqns) in *.
  set (st := foldl _ _ _) in *. rewrite <- maximum_rank_final in G2.
  destruct (push_beta_spec (equation_ranks eqns) _ _ _ ltac:(unfold equation_ranks; rewrite length_ranks; lia) G1) as [Hbl Hb].
  assert (Hrank : forall u, (u < length eqns)%nat -> equation_ranks eqns !! u = Some (equation_rank eqns u)).
  { intros u Hu. unfold equation_rank. destruct (lookup_lt_is_Some_2 (equation_ranks eqns) u) as [r ->]; [|done].
    unfold equation_ranks. by rewrite length_ranks. }
  assert (Hin : forall Y, Y ∈ eq_variable <$> eqns -> exists v, vertex_find (i_vertices st) Y = Some v).
  { intros Y (e & -> & (u & Hu)%list_elem_of_lookup)%list_elem_of_fmap. eexists.
    apply (G4 u e (equation_rank eqns u) Hu), Hrank. by eapply lookup_lt_Some. }
  destruct (successor_loop_spec eqns (i_vertices st) Hnd) as (_ & S2 & S3).
  { intros e He. apply Hin. by apply list_elem_of_fmap_2. }
  { intros e Y He HY. apply Hin. by apply (Hc e). }
  rewrite Hbl, G2. split; [unfold d; lia|]. split; [unfold d; lia|]. split; [|split; [|split]].
  - intros p Hp. apply Hb. unfold d in Hp. lia.
  - intros u Hu. pose proof (ranks_le_final 0 Nu eqns (equation_rank eqns u)) as Hle.
    unfold d. rewrite maximum_rank_final. specialize (Hle ltac:(eapply list_elem_of_lookup_2; by apply Hrank)). lia.
  - intros u e He. pose proof (lookup_lt_Some _ _ _ He) as Hu.
    rewrite (S2 e _ ltac:(by eapply list_elem_of_lookup_2) (G4 u e _ He (Hrank u Hu))). done.
  - intros X. rewrite S3, G5. cbn. rewrite elem_of_nil. naive_solver.
Qed.

End Init.
