(* ===== verification/SmallProgressCorrect.v ===== *)
(** * The progress measures algorithm solves boolean equation systems

    The loop of [run] in [SmallProgress.v] is the iteration of
    [ProgressGame.v] on the game of the equation system, so it ends; the
    vertices that are not top are true in the solution of the system
    ([BesSolution.v]) because they are a winning region of player 0, and the
    others are false because games are determined ([GameDeterminacy.v]). *)

From Stdlib Require Import Lia ZArith.
From stdpp Require Import base strings numbers sets list.
From S2P Require Import Prelude ParityGame StructureGraph Arena Terms DataExpressions PbesExpressions GraphBuilder GraphBuilderCorrect GraphBuilderTheorems Instantiation SmallProgress ProgressMeasures ProgressGame BesSolution GameDeterminacy SmallProgressInit.

Local Open Scope Z_scope.

Section Correct.
Context {variable symbol : Type} `{EqDecision variable} `{EqDecision symbol}.
Abbreviation pbes_expression := (PbesExpressions.pbes_expression variable symbol).
Abbreviation pbes_equation := (SmallProgress.pbes_equation variable symbol).
Abbreviation pm_vertex := (progress_measures_vertex variable symbol).
Abbreviation vertex_map := (list (pbes_expression * pm_vertex)).
Context (term_less : pbes_expression -> pbes_expression -> bool).
Implicit Types (X Y : pbes_expression) (M : vertex_map).

(** ** The loop *)

Section Loop.
Context (n : nat) (key : nat -> pbes_expression) (succ : nat -> list nat) (ev : nat -> bool) (rk : nat -> nat).
Context (beta : list Z).
Context (Hinj : forall u v, (u < n)%nat -> (v < n)%nat -> key u = key v -> u = v).
Context (Hsucc : forall u, (u < n)%nat -> succ u <> [] /\ forall v, v ∈ succ u -> (v < n)%nat).
Context (Hrk : forall u, (u < n)%nat -> (rk u < length beta)%nat).
Context (Hbeta : forall p, (p < length beta)%nat ->
  at_ beta p = if Nat.odd p then Z.of_nat (rank_count n rk p) else 0).
Context (Hpos : (0 < length beta)%nat).
Implicit Types (mu : nat -> list Z).

Abbreviation d := (length beta).
Abbreviation lift := (lift succ ev rk beta).
Abbreviation growing := (growing n succ ev rk beta).
Abbreviation total := (total n beta).

(** The map holds the measures [mu]. *)
Record represents M mu : Prop := {
  rep_find : forall u, (u < n)%nat ->
    vertex_find M (key u) = Some (mk_pm_vertex (key <$> succ u) (ev u) (rk u) (mu u));
  rep_keys : forall X, X ∈ M.*1 <-> exists u, (u < n)%nat /\ X = key u
}.

Lemma lift_vertex_spec M mu u : represents M mu -> measures n beta mu -> (u < n)%nat ->
  lift_vertex M d beta (mk_pm_vertex (key <$> succ u) (ev u) (rk u) (mu u)) = Some (lift mu u).
Proof.
  intros HM Hm Hu. unfold lift_vertex. cbn [pm_rank pm_successors pm_even].
  assert (E : mapM (fun X => pm_alpha <$> vertex_find M X) (key <$> succ u) = Some (mu <$> succ u)).
  { destruct (Hsucc u Hu) as [_ Hs]. apply mapM_Some. induction (succ u) as [|v l IH]; [constructor|].
    rewrite !fmap_cons. constructor; [|apply IH; intros w Hw; apply Hs; by right].
    rewrite (rep_find M mu HM v) by (apply Hs; left). done. }
  rewrite E. unfold ProgressGame.lift, best. destruct (Hsucc u Hu) as [Hne _].
  destruct (ev u); destruct (succ u) as [|w l] eqn:Es; try done; rewrite fmap_cons in *; cbn [min_element max_element] in *;
    done.
Qed.

(** One vertex. *)
Lemma spm_step_spec M mu c u : represents M mu -> growing mu -> (u < n)%nat ->
  exists M' c', spm_step term_less d beta (Some (M, c)) (key u) = Some (M', c') /\
    (lift mu u = mu u /\ M' = M /\ c' = c \/
     lift mu u <> mu u /\ represents M' (upd mu u (lift mu u)) /\ c' = true).
Proof.
  intros HM Hg Hu. cbn [spm_step]. rewrite (rep_find M mu HM u Hu), (lift_vertex_spec M mu u HM) by (apply Hg || done).
  cbn [pm_alpha]. case_decide as E; [eauto 10|]. eexists _, _. split; [done|]. right. split; [done|]. split; [|done].
  split.
  - intros v Hv. rewrite vertex_find_assign. unfold upd. case_decide as Ek.
    + apply Hinj in Ek as ->; [|done..]. by rewrite decide_True.
    + rewrite decide_False by congruence. by apply (rep_find M mu HM).
  - intros X. rewrite vertex_keys_assign, (rep_keys M mu HM). naive_solver.
Qed.

Context (J : (nat -> list Z) -> Prop).
Context (HJ : forall mu u, growing mu -> J mu -> (u < n)%nat -> J (upd mu u (lift mu u))).

(** One round. *)
Lemma spm_round ks M mu c : (forall X, X ∈ ks -> exists u, (u < n)%nat /\ X = key u) ->
  represents M mu -> growing mu -> J mu ->
  exists M' mu' c', foldl (spm_step term_less d beta) (Some (M, c)) ks = Some (M', c') /\
    represents M' mu' /\ growing mu' /\ J mu' /\ total mu <= total mu' /\
    (c' = true -> c = true \/ total mu < total mu') /\ (c = true -> c' = true) /\
    (c' = false -> mu' = mu /\ forall u, (u < n)%nat -> key u ∈ ks -> lift mu u = mu u).
Proof.
  revert M mu c. induction ks as [|X ks IH]; intros M mu c Hks HM Hg Hj; cbn [foldl].
  { exists M, mu, c. do 4 (split; [done|]). split; [lia|]. split; [auto|]. split; [done|]. intros _.
    split; [done|]. intros u _ Hu. by apply elem_of_nil in Hu. }
  destruct (Hks X ltac:(left)) as (u & Hu & ->).
  assert (Hks' : forall X, X ∈ ks -> exists u, (u < n)%nat /\ X = key u) by (intros Y HY; apply Hks; by right).
  destruct (spm_step_spec M mu c u HM Hg Hu) as (M1 & c1 & -> & [(Hl & -> & ->)|(Hl & HM1 & ->)]).
  - destruct (IH M mu c Hks' HM Hg Hj) as (M' & mu' & c' & E & R1 & R2 & R3 & R4 & R5 & R7 & R6).
    exists M', mu', c'. do 7 (split; [done|]). intros Ec. destruct (R6 Ec) as [-> Hf]. split; [done|].
    intros v Hv [Ek|Hk]%elem_of_cons; [|by apply Hf]. by apply Hinj in Ek as ->.
  - pose proof (total_upd n succ ev rk beta Hsucc Hrk Hbeta Hpos mu u Hg Hu Hl) as Ht.
    pose proof (growing_step n succ ev rk beta Hsucc Hrk Hbeta Hpos mu u Hg Hu) as Hg'.
    destruct (IH M1 _ true Hks' HM1 Hg' (HJ mu u Hg Hj Hu)) as (M' & mu' & c' & E & R1 & R2 & R3 & R4 & R5 & R7 & R6).
    exists M', mu', c'. do 4 (split; [done|]). split; [lia|]. split; [intros _; right; lia|]. split; [auto|].
    intros ->. by specialize (R7 eq_refl).
Qed.

Lemma spm_loop_spec fuel M mu : Z.of_nat n * base n ^ Z.of_nat d - total mu < Z.of_nat fuel ->
  represents M mu -> growing mu -> J mu ->
  exists M' mu', spm_loop term_less fuel d beta M = Some M' /\ represents M' mu' /\ growing mu' /\ J mu' /\
    forall u, (u < n)%nat -> lift mu' u = mu' u.
Proof.
  revert M mu. induction fuel as [|fuel IH]; intros M mu Hfuel HM Hg Hj.
  { pose proof (total_bounds n rk beta Hbeta Hpos mu (proj1 Hg)). lia. }
  cbn [spm_loop]. destruct (spm_round M.*1 M mu false) as (M' & mu' & c' & -> & R1 & R2 & R3 & R4 & R5 & _ & R6); auto.
  { intros X. apply (rep_keys M mu HM). }
  destruct c'.
  - destruct (R5 eq_refl); [done|]. apply (IH M' mu'); auto. lia.
  - destruct (R6 eq_refl) as [-> Hf]. exists M', mu. do 4 (split; [done|]). intros u Hu. apply Hf; [done|].
    apply (rep_keys M mu HM). eauto.
Qed.

End Loop.

(** ** The game of an equation system *)

Section System.
Context (eqns : list pbes_equation) (HS : standard_recursive_form eqns).
Context (Hlen : Z.of_nat (length eqns) < 2 ^ 31).
Abbreviation n := (length eqns).

Definition key (u : nat) : pbes_expression :=
  from_option eq_variable (propositional_variable_instantiation EmptyString []) (eqns !! u).

Definition position X : option nat := fst <$> list_find (fun e => eq_variable e = X) eqns.

Definition equation_successors (u : nat) : list nat :=
  match eqns !! u with
  | Some e => omap position (find_propositional_variable_instantiations term_less (eq_formula e))
  | None => []
  end.

Definition disjunctive (u : nat) : bool :=
  from_option (fun e => is_disjunctive (eq_formula e)) false (eqns !! u).

Lemma key_lookup u e : eqns !! u = Some e -> key u = eq_variable e.
Proof. intros He. unfold key. by rewrite He. Qed.

Lemma key_inj u v : (u < n)%nat -> (v < n)%nat -> key u = key v -> u = v.
Proof.
  intros [e He]%lookup_lt_is_Some [e' He']%lookup_lt_is_Some. rewrite (key_lookup u e), (key_lookup v e') by done.
  intros E. apply (NoDup_lookup (eq_variable <$> eqns) u v (eq_variable e)); [apply HS|..];
    rewrite list_lookup_fmap; [by rewrite He|by rewrite He', E].
Qed.

Lemma position_spec X : X ∈ eq_variable <$> eqns -> exists u, position X = Some u /\ (u < n)%nat /\ key u = X.
Proof.
  intros (e & -> & He)%list_elem_of_fmap. unfold position.
  destruct (list_find_elem_of (fun e' => eq_variable e' = eq_variable e) eqns e He eq_refl) as [[u e'] Hf].
  rewrite Hf. apply list_find_Some in Hf as (Hu & Ee & _). exists u. split; [done|].
  split; [by eapply lookup_lt_Some|]. by rewrite (key_lookup u e').
Qed.

Lemma successors_key u e : eqns !! u = Some e ->
  key <$> equation_successors u = find_propositional_variable_instantiations term_less (eq_formula e).
Proof.
  intros He. unfold equation_successors. rewrite He.
  assert (Hin : forall Y, Y ∈ find_propositional_variable_instantiations term_less (eq_formula e) ->
    Y ∈ eq_variable <$> eqns).
  { intros Y HY%elem_of_found. apply (srf_closed eqns HS e); [by eapply list_elem_of_lookup_2|done]. }
  induction (find_propositional_variable_instantiations term_less (eq_formula e)) as [|Y l IH]; [done|].
  destruct (position_spec Y (Hin Y ltac:(left))) as (v & Ev & _ & Ek). cbn. rewrite Ev. cbn. f_equal; [done|].
  apply IH. intros Z HZ. apply Hin. by right.
Qed.

Lemma elem_of_successors_key u e v : eqns !! u = Some e -> (v < n)%nat ->
  v ∈ equation_successors u <-> key v ∈ occurrences (eq_formula e).
Proof.
  intros He Hv. rewrite <- (elem_of_found term_less), <- (successors_key u e He), list_elem_of_fmap. split; [eauto|].
  intros (w & Ek & Hw). assert (Hwn : (w < n)%nat).
  { unfold equation_successors in Hw. rewrite He in Hw. apply list_elem_of_omap in Hw as (Y & HY & Hp).
    apply elem_of_found in HY. destruct (position_spec Y) as (w' & Hw' & ? & _).
    { apply (srf_closed eqns HS e); [by eapply list_elem_of_lookup_2|done]. }
    congruence. }
  apply key_inj in Ek as ->; done.
Qed.

Lemma equation_successors_ok u : (u < n)%nat ->
  equation_successors u <> [] /\ forall v, v ∈ equation_successors u -> (v < n)%nat.
Proof.
  intros [e He]%lookup_lt_is_Some. pose proof (list_elem_of_lookup_2 _ _ _ He) as Hin. split.
  - intros Es. pose proof (successors_key u e He) as Hk. rewrite Es in Hk.
    apply (standard_occurrences (eq_formula e)); [by apply (srf_formula eqns HS)|].
    destruct (occurrences (eq_formula e)) as [|Y l] eqn:Eo; [done|]. exfalso.
    assert (HY : Y ∈ find_propositional_variable_instantiations term_less (eq_formula e)).
    { apply elem_of_found. rewrite Eo. left. }
    rewrite <- Hk in HY. by apply elem_of_nil in HY.
  - intros v Hv. unfold equation_successors in Hv. rewrite He in Hv.
    apply list_elem_of_omap in Hv as (Y & HY & Hp). apply elem_of_found in HY.
    destruct (position_spec Y) as (w' & Hw' & ? & _); [by apply (srf_closed eqns HS e)|congruence].
Qed.

Lemma rank_count_equations p : rank_count n (equation_rank eqns) p = count p (equation_ranks eqns).
Proof.
  unfold rank_count, count, equation_rank. rewrite <- (length_ranks 0 Nu eqns). fold (equation_ranks eqns).
  generalize (equation_ranks eqns) as l. intros l.
  assert (G : forall L, length (filter (fun u => default 0%nat (l !! u) = p) L) =
    length (filter (fun x => x = p) ((fun u => default 0%nat (l !! u)) <$> L))).
  { induction L as [|u L IH]; [done|]. rewrite fmap_cons, !filter_cons. case_decide; cbn [length]; congruence. }
  rewrite G. do 2 f_equal. apply list_eq. intros i. rewrite list_lookup_fmap.
  destruct (decide (i < length l)%nat) as [Hi|Hi].
  - rewrite lookup_seq_lt by done. cbn. by destruct (lookup_lt_is_Some_2 l i Hi) as [x ->].
  - rewrite lookup_seq_ge by lia. cbn. symmetry. apply lookup_ge_None. lia.
Qed.

(** ** The theorem *)

Abbreviation rkN := (fun u => N.of_nat (equation_rank eqns u)).
Abbreviation graph := (game_graph n equation_successors disjunctive rkN).

Lemma equation_forced alpha u e (s : pbes_expression -> bool) : (alpha < 2)%nat -> eqns !! u = Some e ->
  (owner (arena graph) alpha u /\ (exists v, edge (arena graph) u v /\ s (key v) = player_value alpha)) \/
  (~ owner (arena graph) alpha u /\ forall v, edge (arena graph) u v -> s (key v) = player_value alpha) ->
  eval s (eq_formula e) = player_value alpha.
Proof.
  intros Ha He. pose proof (lookup_lt_Some _ _ _ He) as Hu. pose proof (list_elem_of_lookup_2 _ _ _ He) as Hin.
  setoid_rewrite (game_owner _ _ _ _ alpha u Hu). setoid_rewrite (game_edge _ _ _ _ u _ Hu).
  assert (Hocc : forall Y, Y ∈ occurrences (eq_formula e) <-> exists v, v ∈ equation_successors u /\ key v = Y).
  { intros Y. rewrite <- (elem_of_found term_less), <- (successors_key u e He), list_elem_of_fmap. naive_solver. }
  pose proof (standard_is_or (eq_formula e) (srf_formula eqns HS e Hin)) as Hst.
  unfold disjunctive. rewrite He. cbn [from_option]. destruct (is_disjunctive (eq_formula e)).
  - pose proof (disjunction_eval s (eq_formula e) Hst) as Hev. setoid_rewrite Hocc in Hev.
    destruct alpha as [|[|]]; [| |lia]; unfold player_value; cbn [Nat.eqb]; intros [[Ho Hv]|[Ho Hv]]; try done.
    + destruct Hv as (v & Hv & Es). apply Hev. eauto.
    + apply not_true_is_false. intros (Y & (v & Hv' & <-) & Es)%Hev. by rewrite (Hv v Hv') in Es.
  - pose proof (conjunction_eval s (eq_formula e) Hst) as Hev. setoid_rewrite Hocc in Hev.
    destruct alpha as [|[|]]; [| |lia]; unfold player_value; cbn [Nat.eqb]; intros [[Ho Hv]|[Ho Hv]]; try done.
    + apply Hev. intros Y (v & Hv' & <-). by apply Hv.
    + destruct Hv as (v & Hv & Es). apply not_true_is_false. intros Ht. rewrite Hev in Ht.
      rewrite (Ht (key v)) in Es; [done|eauto].
Qed.

Lemma equation_ranks_lookup u : (u < n)%nat -> equation_ranks eqns !! u = Some (equation_rank eqns u).
Proof.
  intros Hu. unfold equation_rank. destruct (lookup_lt_is_Some_2 (equation_ranks eqns) u) as [r ->]; [|done].
  unfold equation_ranks. by rewrite length_ranks.
Qed.

(** A region of either player gives the values of its variables. *)
Lemma system_region alpha sigma W eta u : (alpha < 2)%nat ->
  region (edge (arena graph)) (owner (arena graph)) (ar_rank (arena graph)) (ar_dead (arena graph))
    (fun u => (u < n)%nat) alpha sigma W -> W u ->
  bes_solution eqns eta (key u) = player_value alpha.
Proof.
  intros Ha HW Hu. eapply (region_solution eqns key) with (W := W) (sigma := sigma); try exact HW; try done.
  - intros v e. apply key_lookup.
  - apply key_inj.
  - intros v w Hv He. apply game_edge in He; [|done]. by apply (equation_successors_ok v).
  - intros v Hv. destruct (equation_successors_ok v Hv) as [Hne _]. destruct (equation_successors v) as [|w l] eqn:E; [done|].
    exists w. apply game_edge; [done|]. rewrite E. left.
  - intros v w Hvw Hw. rewrite !game_rank by lia.
    pose proof (ranks_mono 0 Nu eqns v w _ _ (equation_ranks_lookup v ltac:(lia)) (equation_ranks_lookup w Hw) Hvw). lia.
  - intros v e He. pose proof (lookup_lt_Some _ _ _ He) as Hv.
    pose proof (ranks_parity 0 Nu eqns v e _ eq_refl He (equation_ranks_lookup v Hv)) as Hp.
    rewrite game_rank, parity_of_nat, Hp by done. by destruct (is_nu _).
  - apply equation_forced.
Qed.

(** Enough rounds: in every round but the last the sum of the numbers of the
    measures grows. *)
Definition enough_rounds (fuel : nat) : Prop :=
  Z.of_nat n * (Z.of_nat n + 1) ^ Z.of_nat (maximum_rank eqns + 1) < Z.of_nat fuel.

Lemma rank_bound u : (u < n)%nat -> (rkN u <= undefined_index)%N.
Proof.
  intros Hu. pose proof (ranks_le 0 Nu eqns u _ (equation_ranks_lookup u Hu)).
  unfold undefined_index. lia.
Qed.

Lemma initial_map M (beta : list Z) :
  (forall u e, eqns !! u = Some e -> vertex_find M (eq_variable e) =
     Some (mk_pm_vertex (find_propositional_variable_instantiations term_less (eq_formula e))
             (is_disjunctive (eq_formula e)) (equation_rank eqns u) (progress_measure (length beta)))) ->
  (forall X, X ∈ M.*1 <-> X ∈ eq_variable <$> eqns) ->
  represents n key equation_successors disjunctive (equation_rank eqns) M (zeros beta).
Proof.
  intros Hfind Hkeys. split.
  - intros u Hu. destruct (lookup_lt_is_Some_2 eqns u Hu) as [e' He']. rewrite (key_lookup u e' He'), (Hfind u e' He').
    unfold disjunctive. rewrite (successors_key u e' He'), He'. done.
  - intros X. rewrite Hkeys, list_elem_of_fmap. split.
    + intros (e' & -> & (u & Hu)%list_elem_of_lookup). exists u.
      split; [by eapply lookup_lt_Some|]. by rewrite (key_lookup u e').
    + intros (u & [e' He']%lookup_lt_is_Some & ->). exists e'.
      split; [by apply key_lookup|by eapply list_elem_of_lookup_2].
Qed.

Lemma spm_run_solution fuel e eta : enough_rounds fuel -> e ∈ eqns ->
  spm_run term_less fuel eqns (eq_variable e) = Some (bes_solution eqns eta (eq_variable e)).
Proof.
  intros Hfuel (u0 & Hu0)%list_elem_of_lookup. pose proof (lookup_lt_Some _ _ _ Hu0) as Hn0.
  pose proof (initialize_vertices_spec term_less eqns HS Hlen) as HI.
  assert (Hd' : (initialize_vertices term_less eqns).1.2 = (maximum_rank eqns + 1)%nat) by done.
  unfold spm_run. destruct (initialize_vertices term_less eqns) as [[M d] beta]. cbn in Hd'.
  destruct HI as (Hd & Hpos & Hbeta & Hrk & Hfind & Hkeys). rewrite <- Hd in *.
  setoid_rewrite <- rank_count_equations in Hbeta.
  destruct (game_determined n equation_successors disjunctive rkN) as (sigma & W0 & W1 & Hcover & HW0 & HW1).
  { intros u v Hu. by apply equation_successors_ok. }
  { apply rank_bound. }
  destruct (region_bounded n equation_successors disjunctive (equation_rank eqns) beta equation_successors_ok Hrk Hbeta
    Hpos _ _ _ _ (game_edge n equation_successors disjunctive rkN) (game_owner n equation_successors disjunctive rkN) (game_rank n equation_successors disjunctive rkN) sigma W0 HW0) as (B & HB & Hlift).
  destruct (spm_loop_spec n key equation_successors disjunctive (equation_rank eqns) beta key_inj equation_successors_ok
    Hrk Hbeta Hpos (fun mu => forall v, W0 v -> pv (base n) (length beta) (mu v) <= B v)) with
    (fuel := fuel) (M := M) (mu := zeros beta) as (M' & mu & -> & HM & Hg & HJ & Hfix).
  { intros mu u Hg HJ Hu v Hv. unfold upd. case_decide; [subst|by apply HJ]. apply Hlift; auto. apply Hg. }
  { unfold enough_rounds in Hfuel. rewrite <- Hd' in Hfuel. unfold base.
    pose proof (total_bounds n (equation_rank eqns) beta Hbeta Hpos (zeros beta)) as Ht.
    specialize (Ht ltac:(apply (growing_zeros n equation_successors disjunctive (equation_rank eqns)); auto using equation_successors_ok)).
    lia. }
  { by apply initial_map. }
  { apply growing_zeros; auto using equation_successors_ok. }
  { intros v Hv. unfold zeros. rewrite (pv_zero n (equation_rank eqns)) by done. apply HB, Hv. }
  rewrite <- (key_lookup u0 e Hu0), (rep_find _ _ _ _ _ _ _ HM u0 Hn0). f_equal.
  change (negb (is_top (mu u0)) = bes_solution eqns eta (key u0)).
  pose proof (fixpoint_region n equation_successors disjunctive (equation_rank eqns) beta equation_successors_ok Hrk Hbeta
    Hpos _ _ _ (ar_dead (arena graph)) (game_edge n equation_successors disjunctive rkN) (game_owner n equation_successors disjunctive rkN) (game_rank n equation_successors disjunctive rkN) mu (proj1 Hg) Hfix) as HR.
  destruct (is_top (mu u0)) eqn:Et.
  - destruct (Hcover u0 Hn0) as [Hw|Hw]; [|symmetry; exact (system_region 1 sigma W1 eta u0 ltac:(lia) HW1 Hw)].
    exfalso. specialize (HJ u0 Hw). rewrite pv_top in HJ by done. specialize (HB u0 Hw). lia.
  - symmetry. by apply (system_region 0 _ _ eta u0 ltac:(lia) HR).
Qed.

End System.
End Correct.
