(* ===== verification/PostfixGenerator.v ===== *)
(** * Fresh identifiers
    ([libraries/utilities/number_postfix_generator.h], [text_utility.h])

    [number_postfix_generator] keeps the highest number that follows each
    prefix.  The strings are lists of characters.  [atoi] is undefined for
    numbers that do not fit an [int]; the model gives 0 there, and the theorems
    ask that the numbers fit ([postfix_fits]). *)

From Stdlib Require Import Lia NArith Ascii.
From stdpp Require Import base numbers list gmap strings.
From S2P Require Import Prelude.

Local Open Scope N_scope.

Abbreviation identifier := (list ascii).

(** ** Digits *)

Definition is_digit (c : ascii) : bool := (48 <=? N_of_ascii c) && (N_of_ascii c <=? 57).

Definition digit_char (n : N) : ascii := ascii_of_N (48 + n).

Definition digit_value (c : ascii) : N := N_of_ascii c - 48.

(** The number that digits stand for. *)
Definition decimal (ds : identifier) : N := foldl (fun a c => a * 10 + digit_value c) 0 ds.

(** [atoi] *)
Definition atoi (ds : identifier) : N := if decimal ds <? 2 ^ 31 then decimal ds else 0.

(** [number2string]: the digits are written from right to left. *)
Fixpoint number2string_loop (fuel : nat) (number : N) (buffer : identifier) : identifier :=
  match fuel with
  | O => buffer
  | S fuel =>
      let buffer := digit_char (number mod 10) :: buffer in
      if number / 10 =? 0 then buffer else number2string_loop fuel (number / 10) buffer
  end.

Definition number2string (number : N) : identifier := number2string_loop (S (N.to_nat (N.log2 number))) number [].

(** [find_last_not_of] of the digits, on the reversed string: the digits at its
    end and the rest. *)
Fixpoint digits_first (l : identifier) : identifier * identifier :=
  match l with
  | c :: l' => if is_digit c then let '(ds, r) := digits_first l' in (c :: ds, r) else ([], l)
  | [] => ([], [])
  end.

(** A string that is not a number itself, split into a prefix and a number. *)
Definition split_postfix (id : identifier) : identifier * identifier :=
  let '(ds, r) := digits_first (reverse id) in
  match ds, r with
  | _ :: _, _ :: _ => (reverse r, reverse ds)
  | _, _ => (id, [])
  end.

(** ** The generator *)

Abbreviation number_postfix_generator := (gmap identifier N).

Definition add_identifier (id : identifier) (m_index : number_postfix_generator) : number_postfix_generator :=
  let '(name, num) := split_postfix id in
  let new_index := atoi num in
  let old_index := default 0 (m_index !! name) in
  <[name := N.max old_index new_index]> m_index.

(** The digits at the end of the hint are removed. *)
Definition strip_digits (hint : identifier) : identifier :=
  match reverse hint with
  | c :: _ => if is_digit c then reverse (digits_first (reverse hint)).2 else hint
  | [] => hint
  end.

(** [operator()(hint)], with [add_to_context]. *)
Definition generate (hint : identifier) (m_index : number_postfix_generator)
  : identifier * number_postfix_generator :=
  let hint := strip_digits hint in
  match m_index !! hint with
  | None => (hint, <[hint := 0]> m_index)
  | Some j => (hint ++ number2string (j + 1), <[hint := j + 1]> m_index)
  end.

(** ** Numbers and digits *)

Lemma digit_char_spec n : n < 10 -> is_digit (digit_char n) = true /\ digit_value (digit_char n) = n.
Proof.
  intros H. unfold is_digit, digit_value, digit_char. rewrite N_ascii_embedding by lia.
  split; [|lia]. apply andb_true_iff. rewrite !N.leb_le. lia.
Qed.

Lemma decimal_app l l' : Forall (fun c => is_digit c = true) l' ->
  decimal (l ++ l') = decimal l * 10 ^ N.of_nat (length l') + decimal l'.
Proof.
  intros _. unfold decimal. rewrite foldl_app. generalize (foldl (fun a c => a * 10 + digit_value c) 0 l) as x.
  induction l' as [|c l' IH]; intros x; [cbn; lia|]. cbn [foldl length].
  rewrite (IH (x * 10 + digit_value c)), (IH (0 * 10 + digit_value c)).
  replace (N.of_nat (S (length l'))) with (1 + N.of_nat (length l')) by lia.
  rewrite N.pow_add_r, N.pow_1_r. lia.
Qed.

Lemma number2string_loop_spec fuel n buffer : n < 2 ^ N.of_nat fuel -> (0 < fuel)%nat ->
  Forall (fun c => is_digit c = true) buffer ->
  exists ds, number2string_loop fuel n buffer = ds ++ buffer /\ ds <> [] /\
    Forall (fun c => is_digit c = true) ds /\ decimal ds = n.
Proof.
  revert n buffer. induction fuel as [|fuel IH]; intros n buffer Hf H0 Hb; [lia|]. cbn [number2string_loop].
  pose proof (N.mod_lt n 10 ltac:(lia)) as Hm. destruct (digit_char_spec (n mod 10) Hm) as [Hd Hv].
  pose proof (N.div_mod n 10 ltac:(lia)) as Hdm. destruct (n / 10 =? 0) eqn:E.
  - apply N.eqb_eq in E. exists [digit_char (n mod 10)]. split; [done|]. split; [done|].
    split; [by constructor|]. unfold decimal. cbn. lia.
  - apply N.eqb_neq in E.
    destruct (IH (n / 10) (digit_char (n mod 10) :: buffer)) as (ds & -> & Hne & Hds & Ha); [| |by constructor|].
    { replace (N.of_nat (S fuel)) with (1 + N.of_nat fuel) in Hf by lia. rewrite N.pow_add_r, N.pow_1_r in Hf. lia. }
    { destruct fuel; [cbn in Hf; lia|lia]. }
    exists (ds ++ [digit_char (n mod 10)]). split; [by rewrite <- app_assoc|]. split; [by destruct ds|].
    split; [apply Forall_app; split; [done|by constructor]|].
    rewrite decimal_app by (by constructor). rewrite Ha. unfold decimal. cbn [foldl length].
    change (N.of_nat 1) with 1. rewrite N.pow_1_r. lia.
Qed.

Lemma number2string_spec n : number2string n <> [] /\
  Forall (fun c => is_digit c = true) (number2string n) /\ decimal (number2string n) = n.
Proof.
  unfold number2string. destruct (number2string_loop_spec (S (N.to_nat (N.log2 n))) n []) as (ds & -> & H); [|lia|done|].
  - replace (N.of_nat (S (N.to_nat (N.log2 n)))) with (N.succ (N.log2 n)) by lia.
    destruct (decide (n = 0)) as [->|]; [done|]. apply N.log2_spec. lia.
  - by rewrite app_nil_r.
Qed.

(** ** Prefixes *)

(** The string does not end with a digit. *)
Definition ends_plain (id : identifier) : Prop :=
  exists r c, id = r ++ [c] /\ is_digit c = false.

Lemma digits_first_app ds r : Forall (fun c => is_digit c = true) ds ->
  digits_first (ds ++ r) = let '(ds', r') := digits_first r in (ds ++ ds', r').
Proof.
  induction 1 as [|c ds Hc _ IH]; cbn [app digits_first]; [by destruct (digits_first r)|].
  rewrite Hc, IH. by destruct (digits_first r).
Qed.

Lemma split_postfix_plain id : ends_plain id -> split_postfix id = (id, []).
Proof.
  intros (r & c & -> & Hc). unfold split_postfix. rewrite reverse_app, reverse_singleton. cbn. by rewrite Hc.
Qed.

Lemma split_postfix_number id n : ends_plain id -> split_postfix (id ++ number2string n) = (id, number2string n).
Proof.
  intros (r & c & -> & Hc). destruct (number2string_spec n) as (Hne & Hds & Ha).
  unfold split_postfix. rewrite !reverse_app, reverse_singleton, digits_first_app by (by apply Forall_reverse).
  cbn [app digits_first]. rewrite Hc, app_nil_r.
  destruct (reverse (number2string n)) as [|x l] eqn:E.
  { exfalso. apply Hne. apply (f_equal reverse) in E. by rewrite reverse_involutive in E. }
  rewrite <- E, reverse_involutive, reverse_cons, reverse_involutive. done.
Qed.

Lemma strip_plain id : ends_plain id -> strip_digits id = id.
Proof.
  intros (r & c & -> & Hc). unfold strip_digits. rewrite reverse_app, reverse_singleton. cbn. by rewrite Hc.
Qed.

(** ** Freshness *)

(** The number after the prefix fits an [int]. *)
Definition postfix_fits (id : identifier) : Prop := decimal (split_postfix id).2 < 2 ^ 31.

(** The identifier is one that the generator knows about. *)
Definition covered (m_index : number_postfix_generator) (id : identifier) : Prop :=
  exists i, m_index !! (split_postfix id).1 = Some i /\ decimal (split_postfix id).2 <= i.

Lemma add_identifier_covers id m_index : postfix_fits id -> covered (add_identifier id m_index) id.
Proof.
  unfold postfix_fits, covered, add_identifier. destruct (split_postfix id) as [name num]. cbn [fst snd]. intros Hf.
  rewrite lookup_insert_eq. eexists. split; [done|]. unfold atoi. apply N.ltb_lt in Hf as ->. lia.
Qed.

Lemma add_identifier_keeps id m_index x : covered m_index x -> covered (add_identifier id m_index) x.
Proof.
  intros (i & Hi & Hle). unfold covered, add_identifier. destruct (split_postfix id) as [name k].
  destruct (decide (name = (split_postfix x).1)) as [->|Hne].
  - rewrite lookup_insert_eq, Hi. eexists. split; [done|]. cbn. lia.
  - rewrite lookup_insert_ne by done. eauto.
Qed.

(** A generated identifier is not covered before, but it is afterwards. *)
Lemma generate_fresh hint m_index : ends_plain hint ->
  let '(id, m_index') := generate hint m_index in
  ~ covered m_index id /\ covered m_index' id /\ (forall x, covered m_index x -> covered m_index' x) /\
  (m_index !! hint = None -> id = hint).
Proof.
  intros Hp. unfold generate. rewrite (strip_plain hint Hp). destruct (m_index !! hint) as [j|] eqn:E.
  - unfold covered. rewrite (split_postfix_number hint (j + 1) Hp). cbn [fst snd].
    rewrite (proj2 (proj2 (number2string_spec (j + 1)))). split; [|split; [|split; [|done]]].
    + intros (i & Hi & Hle). rewrite E in Hi. injection Hi as <-. lia.
    + rewrite lookup_insert_eq. eauto with lia.
    + intros x (i & Hi & Hle). destruct (decide (hint = (split_postfix x).1)) as [->|Hne].
      * rewrite lookup_insert_eq. rewrite E in Hi. injection Hi as <-. eexists. split; [done|]. lia.
      * rewrite lookup_insert_ne by done. eauto.
  - unfold covered. rewrite (split_postfix_plain hint Hp). cbn [fst snd]. split; [|split; [|split; [|done]]].
    + intros (i & Hi & _). congruence.
    + rewrite lookup_insert_eq. eexists. split; [done|]. cbn. lia.
    + intros x (i & Hi & Hle). destruct (decide (hint = (split_postfix x).1)) as [Eh|Hne]; [congruence|].
      rewrite lookup_insert_ne by done. eauto.
Qed.
