(* ===== verification/StandardForm.v ===== *)
(** * Standard form of boolean equation systems
    ([libraries/pbes/normal_forms.h], and [small_progress_measures] of
    [small_progress_measures.h])

    [standard_form_traverser] rewrites the right-hand sides to conjunctions or
    disjunctions of variables (and constants): a conjunction inside a
    disjunction, or the other way around, becomes a new equation, added at the
    end.  In recursive form the constants become variables too.

    The stack of the traverser is the result of the recursion.  A quantifier has
    no handler, so the traverser just looks at its body.  A data expression that
    is neither true nor false fails the assertion. *)

From Stdlib Require Import Lia NArith Ascii String.
From stdpp Require Import base strings numbers sets list gmap.
From S2P Require Import Prelude Terms DataExpressions PbesExpressions GraphBuilder Instantiation SmallProgress PostfixGenerator.

Local Open Scope mcrl2_scope.

Section Code.
Context {variable symbol : Type} `{EqDecision variable} `{EqDecision symbol}.
Abbreviation pbes_expression := (PbesExpressions.pbes_expression variable symbol).
Abbreviation pbes_equation := (SmallProgress.pbes_equation variable symbol).
Implicit Types (x expr : pbes_expression) (eqns : list pbes_equation).

Inductive standard_form_type : Set := standard_form_both | standard_form_and | standard_form_or.

Record standard_form_traverser : Type := mk_traverser {
  m_name : identifier;
  m_has_true : bool;
  m_has_false : bool;
  m_generator : number_postfix_generator;
  m_equations : list pbes_equation;
  m_equations2 : list pbes_equation;
  m_table : list (pbes_expression * pbes_expression);
  m_true : pbes_expression;
  m_false : pbes_expression
}.
Implicit Types (t : standard_form_traverser).

Definition variable_of (name : identifier) : pbes_expression :=
  propositional_variable_instantiation (string_of_list_ascii name) [].

(** The constructor. *)
Definition new_traverser (recursive_form : bool) : standard_form_traverser :=
  if recursive_form then
    let '(true_name, g) := generate (list_ascii_of_string "True") ∅ in
    let '(false_name, g) := generate (list_ascii_of_string "False") g in
    mk_traverser [] false false g [] [] [] (variable_of true_name) (variable_of false_name)
  else mk_traverser [] false false ∅ [] [] [] true_ false_.

Definition with_constants (has_true has_false : bool) t : standard_form_traverser :=
  mk_traverser (m_name t) has_true has_false (m_generator t) (m_equations t) (m_equations2 t) (m_table t)
    (m_true t) (m_false t).

Definition with_name (name : identifier) t : standard_form_traverser :=
  mk_traverser name (m_has_true t) (m_has_false t) (m_generator t) (m_equations t) (m_equations2 t) (m_table t)
    (m_true t) (m_false t).

Definition with_generator (g : number_postfix_generator) t : standard_form_traverser :=
  mk_traverser (m_name t) (m_has_true t) (m_has_false t) g (m_equations t) (m_equations2 t) (m_table t)
    (m_true t) (m_false t).

Definition with_equations eqns t : standard_form_traverser :=
  mk_traverser (m_name t) (m_has_true t) (m_has_false t) (m_generator t) eqns (m_equations2 t) (m_table t)
    (m_true t) (m_false t).

(** [m_table.find] *)
Fixpoint table_find (table : list (pbes_expression * pbes_expression)) expr : option pbes_expression :=
  match table with
  | [] => None
  | (e, v) :: table => if decide (e = expr) then Some v else table_find table expr
  end.

(** [create_variable] with [fresh_variable]; the symbol of the equation is set
    at the end. *)
Definition create_variable expr (symbol : fixpoint_symbol) t : pbes_expression * standard_form_traverser :=
  match table_find (m_table t) expr with
  | Some v => (v, t)
  | None =>
      let '(name, g) := generate (m_name t) (m_generator t) in
      let v := variable_of name in
      (v, mk_traverser (m_name t) (m_has_true t) (m_has_false t) g (m_equations t)
            (m_equations2 t ++ [mk_equation symbol (string_of_list_ascii name) expr])
            ((expr, v) :: m_table t) (m_true t) (m_false t))
  end.

(** An operand of the other kind gets a variable. *)
Definition name_operand (other : standard_form_type) (symbol : fixpoint_symbol)
    (p : pbes_expression * standard_form_type) t : pbes_expression * standard_form_traverser :=
  match p.2, other with
  | standard_form_or, standard_form_or | standard_form_and, standard_form_and => create_variable p.1 symbol t
  | _, _ => (p.1, t)
  end.

(** The traversal of a formula: the pair that is left on the stack. *)
Fixpoint standard_form (symbol : fixpoint_symbol) x t
  : outcome ((pbes_expression * standard_form_type) * standard_form_traverser) :=
  match x with
  | pbes_data _ =>
      if is_false x then Returns ((m_false t, standard_form_both), with_constants (m_has_true t) true t)
      else if is_true x then Returns ((m_true t, standard_form_both), with_constants true (m_has_false t) t)
      else Throws "assertion failed: is_true_function_symbol(x)"
  | propositional_variable_instantiation _ _ => Returns ((x, standard_form_both), t)
  | pbes_and p q =>
      let! (pl, t) := standard_form symbol p t in
      let! (pr, t) := standard_form symbol q t in
      let '(l, t) := name_operand standard_form_or symbol pl t in
      let '(r, t) := name_operand standard_form_or symbol pr t in
      Returns ((pbes_and l r, standard_form_and), t)
  | pbes_or p q =>
      let! (pl, t) := standard_form symbol p t in
      let! (pr, t) := standard_form symbol q t in
      let '(l, t) := name_operand standard_form_and symbol pl t in
      let '(r, t) := name_operand standard_form_and symbol pr t in
      Returns ((pbes_or l r, standard_form_or), t)
  | pbes_not p =>
      let! _ := standard_form symbol p t in
      Throws "negation is not supported in standard recursive form algorithm"
  | pbes_imp p q =>
      let! (_, t) := standard_form symbol p t in
      let! _ := standard_form symbol q t in
      Throws "implication is not supported in standard recursive form algorithm"
  | pbes_forall _ p | pbes_exists _ p => standard_form symbol p t
  end.

(** An equation. *)
Definition standard_form_equation (eqn : pbes_equation) t : outcome standard_form_traverser :=
  let t := with_name (list_ascii_of_string (eq_name eqn) ++ ["_"%char]) t in
  let! (p, t) := standard_form (eq_symbol eqn) (eq_formula eqn) t in
  Returns (with_equations (m_equations t ++ [mk_equation (eq_symbol eqn) (eq_name eqn) p.1]) t).

Fixpoint standard_form_equations eqns t : outcome standard_form_traverser :=
  match eqns with
  | [] => Returns t
  | eqn :: eqns => let! t := standard_form_equation eqn t in standard_form_equations eqns t
  end.

(** [enter] and [leave] of a PBES. *)
Definition enter_pbes eqns t : standard_form_traverser :=
  with_generator (foldl (fun g eqn => add_identifier (list_ascii_of_string (eq_name eqn)) g) (m_generator t) eqns) t.

Definition variable_name x : string :=
  match x with propositional_variable_instantiation name _ => name | _ => EmptyString end.

Definition leave_pbes (recursive_form : bool) t : list pbes_equation :=
  let sigma := from_option eq_symbol Mu (last (m_equations t)) in
  m_equations t
  ++ ((fun eqn => mk_equation sigma (eq_name eqn) (eq_formula eqn)) <$> m_equations2 t)
  ++ (if recursive_form then
        (if m_has_true t then [mk_equation Nu (variable_name (m_true t)) (m_true t)] else [])
        ++ (if m_has_false t then [mk_equation Mu (variable_name (m_false t)) (m_false t)] else [])
      else []).

Definition make_standard_form (recursive_form : bool) eqns : outcome (list pbes_equation) :=
  match eqns with
  | [] => Throws "assertion failed: !x.equations().empty()"
  | _ =>
      let! t := standard_form_equations eqns (enter_pbes eqns (new_traverser recursive_form)) in
      Returns (leave_pbes recursive_form t)
  end.

(** [small_progress_measures]; the inner [None] is that of [run]. *)
Definition small_progress_measures (term_less : pbes_expression -> pbes_expression -> bool) (fuel : nat) eqns
  : outcome (option bool) :=
  match eqns with
  | [] => Throws "undefined: no equations"
  | eqn :: _ =>
      let first := eq_variable eqn in
      let! eqns := make_standard_form true eqns in
      Returns (spm_run term_less fuel eqns first)
  end.

End Code.
Arguments standard_form_traverser : clear implicits.
