(* ===== verification/StandardFormCorrect.v ===== *)
(** * The standard form has the same solution

    [make_standard_form] of [StandardForm.v] in recursive form: for a closed
    system without negation, implication and quantifiers, whose variables are
    not called [True] or [False], the result is in standard recursive form and
    every variable of the system keeps its value.  With
    [SmallProgressCorrect.v] it follows that [small_progress_measures] computes
    the value of the first variable. *)

From Stdlib Require Import Lia ZArith Ascii String.
From stdpp Require Import base strings numbers sets list gmap.
From S2P Require Import Prelude Terms DataExpressions PbesExpressions GraphBuilder GraphBuilderCorrect GraphBuilderTheorems Instantiation SmallProgress BesSolution SmallProgressInit SmallProgressCorrect PostfixGenerator StandardForm.

Section Correct.
Context {variable symbol : Type} `{EqDecision variable} `{EqDecision symbol}.
Abbreviation pbes_expression := (PbesExpressions.pbes_expression variable symbol).
Abbreviation pbes_equation := (SmallProgress.pbes_equation variable symbol).
Abbreviation traverser := (standard_form_traverser variable symbol).
Implicit Types (x Y : pbes_expression) (eqns : list pbes_equation) (t : traverser) (s : pbes_expression -> bool).

(** ** Evaluation *)

Lemma eval_occurrences s s' x : (forall Y, Y ∈ occurrences x -> s Y = s' Y) -> eval s x = eval s' x.
Proof.
  induction x; cbn [occurrences eval]; intros H; try done.
  - apply H. left.
  - rewrite IHx1, IHx2; [done|..]; intros Y HY; apply H, elem_of_app; auto.
  - rewrite IHx1, IHx2; [done|..]; intros Y HY; apply H, elem_of_app; auto.
Qed.

Lemma bes_solution_app (E D : list pbes_equation) eta :
  exists eta', bes_solution (E ++ D) eta = bes_solution D eta'.
Proof.
  revert eta. induction E as [|e E IH]; intros eta; [by exists eta|]. cbn [app bes_solution]. apply IH.
Qed.

(** ** Names *)

Lemma variable_of_inj (n m : identifier) : @variable_of variable symbol n = variable_of m -> n = m.
Proof.
  unfold variable_of. intros E. injection E as E. apply (f_equal list_ascii_of_string) in E.
  by rewrite !list_ascii_of_string_of_list_ascii in E.
Qed.

Definition T : pbes_expression := variable_of (list_ascii_of_string "True").
Definition F : pbes_expression := variable_of (list_ascii_of_string "False").

Lemma T_not_F : T <> F.
Proof. done. Qed.

(** ** The traverser *)

Section Traverser.
(** The variables of the system. *)
Context (O : list pbes_expression) (HTO : T ∉ O) (HFO : F ∉ O).

Definition new_variables t : list pbes_expression := eq_variable <$> m_equations2 t.

(** The variables that may occur in the result so far. *)
Definition known t Y : Prop :=
  Y ∈ O \/ Y ∈ new_variables t \/ (Y = T /\ m_has_true t = true) \/ (Y = F /\ m_has_false t = true).

Definition shape (ty : standard_form_type) x : Prop :=
  match ty with
  | standard_form_both => conjunction_of_variables x = true /\ disjunction_of_variables x = true
  | standard_form_and => conjunction_of_variables x = true
  | standard_form_or => disjunction_of_variables x = true
  end.

Record traverser_ok t : Prop := {
  to_true : m_true t = T;
  to_false : m_false t = F;
  to_table : forall x v, table_find (m_table t) x = Some v ->
    exists e, e ∈ m_equations2 t /\ eq_variable e = v /\ eq_formula e = x;
  to_distinct : NoDup (new_variables t);
  to_new : forall Y, Y ∈ new_variables t -> Y ∉ O /\ Y <> T /\ Y <> F;
  to_formula : forall e, e ∈ m_equations2 t ->
    (conjunction_of_variables (eq_formula e) = true \/ disjunction_of_variables (eq_formula e) = true) /\
    forall Y, Y ∈ occurrences (eq_formula e) -> known t Y;
  to_covered : forall name, (variable_of name ∈ O \/ variable_of name = T \/ variable_of name = F \/
    variable_of name ∈ new_variables t) -> covered (m_generator t) name
}.

(** What a traversal may change. *)
Record grows t t' : Prop := {
  gr_equations : m_equations t' = m_equations t;
  gr_equations2 : exists l, m_equations2 t' = m_equations2 t ++ l;
  gr_has_true : m_has_true t = true -> m_has_true t' = true;
  gr_has_false : m_has_false t = true -> m_has_false t' = true;
  gr_name : m_name t' = m_name t
}.

Lemma grows_refl t : grows t t.
Proof. split; try done. exists []. by rewrite app_nil_r. Qed.

Lemma grows_trans t1 t2 t3 : grows t1 t2 -> grows t2 t3 -> grows t1 t3.
Proof.
  intros [A1 [l1 A2] A3 A4 A5] [B1 [l2 B2] B3 B4 B5]. split; [congruence| |auto..|congruence].
  exists (l1 ++ l2). by rewrite B2, A2, app_assoc.
Qed.

(** Only the growth of the new equations and of the flags. *)
Record extends t t' : Prop := {
  ex_equations2 : exists l, m_equations2 t' = m_equations2 t ++ l;
  ex_has_true : m_has_true t = true -> m_has_true t' = true;
  ex_has_false : m_has_false t = true -> m_has_false t' = true
}.

Lemma grows_extends t t' : grows t t' -> extends t t'.
Proof. by intros [_ ? ? ? _]. Qed.

Lemma extends_trans t1 t2 t3 : extends t1 t2 -> extends t2 t3 -> extends t1 t3.
Proof.
  intros [[l1 A2] A3 A4] [[l2 B2] B3 B4]. split; [|auto..].
  exists (l1 ++ l2). by rewrite B2, A2, app_assoc.
Qed.

Lemma known_extends t t' Y : extends t t' -> known t Y -> known t' Y.
Proof.
  intros [[l E] Ht Hf] [H|[H|[[? H]|[? H]]]]; unfold known; auto 6.
  right; left. unfold new_variables. rewrite E, fmap_app. apply elem_of_app. by left.
Qed.

Lemma known_grows t t' Y : grows t t' -> known t Y -> known t' Y.
Proof. intros Hg. apply known_extends. by apply grows_extends. Qed.

(** A valuation that solves the new equations. *)
Record solves s t : Prop := {
  sv_new : forall e, e ∈ m_equations2 t -> s (eq_variable e) = eval s (eq_formula e);
  sv_true : m_has_true t = true -> s T = true;
  sv_false : m_has_false t = true -> s F = false
}.

Lemma solves_extends s t t' : extends t t' -> solves s t' -> solves s t.
Proof.
  intros [[l E] Ht Hf] [S1 S2 S3]. split; [|auto..]. intros e He. apply S1. rewrite E. apply elem_of_app. by left.
Qed.

Lemma solves_grows s t t' : grows t t' -> solves s t' -> solves s t.
Proof. intros Hg. apply solves_extends. by apply grows_extends. Qed.

(** The result of a traversal of [x]. *)
Record translated t x (ty : standard_form_type) x' t' : Prop := {
  tr_ok : traverser_ok t';
  tr_grows : grows t t';
  tr_known : forall Y, Y ∈ occurrences x' -> known t' Y;
  tr_shape : shape ty x';
  tr_eval : forall s, solves s t' -> eval s x' = eval s x
}.

Lemma create_variable_spec sym t x ty x' : ends_plain (m_name t) -> traverser_ok t -> shape ty x' ->
  (forall Y, Y ∈ occurrences x' -> known t Y) -> (forall s, solves s t -> eval s x' = eval s x) ->
  exists v t', create_variable x' sym t = (v, t') /\ translated t x standard_form_both v t'.
Proof.
  intros Hp Ht Hs Hk He. unfold create_variable. destruct (table_find (m_table t) x') as [v|] eqn:Ef.
  - destruct (to_table t Ht x' v Ef) as (e & Hin & <- & Ex). eexists _, t. split; [done|]. split.
    + done.
    + apply grows_refl.
    + intros Y HY. apply list_elem_of_singleton in HY as ->. change (known t (eq_variable e)).
      right; left. by apply list_elem_of_fmap_2.
    + done.
    + intros s Hsv. rewrite <- He by done. cbn [eval eq_variable]. rewrite <- Ex. by apply (sv_new s t).
  - pose proof (generate_fresh (m_name t) (m_generator t) Hp) as Hg.
    destruct (generate (m_name t) (m_generator t)) as [name g]. destruct Hg as (Hfr & Hcov & Hkeep & _).
    set (e := mk_equation sym (string_of_list_ascii name) x' : pbes_equation).
    set (t' := mk_traverser _ _ _ _ _ _ _ _ _). exists (variable_of name), t'. split; [done|].
    assert (Ev : eq_variable e = variable_of name) by done.
    assert (Hnew : ~ (variable_of name ∈ O \/ variable_of name = T \/ variable_of name = F \/
      variable_of name ∈ new_variables t)) by (intros Hin; by apply Hfr, (to_covered t Ht)).
    assert (Hgr : grows t t') by (split; [done|by exists [e]|done..]).
    assert (Enew : new_variables t' = new_variables t ++ [variable_of name]).
    { unfold new_variables. cbn [t' m_equations2]. by rewrite fmap_app. }
    assert (Hin : forall e', e' ∈ m_equations2 t' <-> e' ∈ m_equations2 t \/ e' = e).
    { intros e'. cbn [t' m_equations2]. rewrite elem_of_app, list_elem_of_singleton. done. }
    split; [split|done| |done|].
    + apply Ht.
    + apply Ht.
    + intros z v. cbn [t' m_table table_find]. case_decide as Ez.
      * intros [= <-]. subst z. exists e. split; [apply Hin; by right|done].
      * intros Hz. destruct (to_table t Ht z v Hz) as (e' & He' & ?). exists e'. split; [apply Hin; by left|done].
    + rewrite Enew. apply NoDup_app. split; [apply Ht|]. split; [|apply NoDup_singleton].
      intros Y HY HY'. apply list_elem_of_singleton in HY' as ->. naive_solver.
    + intros Y. rewrite Enew, elem_of_app, list_elem_of_singleton. intros [HY| ->]; [by apply (to_new t Ht)|naive_solver].
    + intros e' [He'| ->]%Hin.
      * destruct (to_formula t Ht e' He') as [Hsh Hkn]. split; [done|]. intros Y HY. eapply known_grows; eauto.
      * split; [destruct ty; cbn in Hs; cbn [e eq_formula]; tauto|]. intros Y HY. eapply known_grows; eauto.
    + intros nm. rewrite Enew, elem_of_app, list_elem_of_singleton. cbn [t' m_generator].
      intros Hnm. destruct (decide (nm = name)) as [->|Hne]; [done|]. apply Hkeep, (to_covered t Ht).
      destruct Hnm as [?|[?|[?|[?|E]]]]; auto. by apply variable_of_inj in E.
    + intros Y HY. apply list_elem_of_singleton in HY as ->. right; left. rewrite Enew. apply elem_of_app. right. left.
    + intros s Hsv. rewrite <- He by (by eapply solves_grows). change (eval s (variable_of name)) with (s (eq_variable e)).
      apply (sv_new s t' Hsv). apply Hin. by right.
Qed.

(** The kind that an operand must have. *)
Definition opposite (ty : standard_form_type) : standard_form_type :=
  match ty with standard_form_or => standard_form_and | _ => standard_form_or end.

Lemma name_operand_spec other sym t x ty x' : other <> standard_form_both ->
  ends_plain (m_name t) -> traverser_ok t -> shape ty x' ->
  (forall Y, Y ∈ occurrences x' -> known t Y) -> (forall s, solves s t -> eval s x' = eval s x) ->
  exists v t', name_operand other sym (x', ty) t = (v, t') /\ translated t x (opposite other) v t'.
Proof.
  intros Ho Hp Ht Hs Hk He.
  assert (Hsame : shape (opposite other) x' -> exists v t', (x', t) = (v, t') /\ translated t x (opposite other) v t').
  { intros Hs'. exists x', t. split; [done|]. split; auto using grows_refl. }
  assert (Hcreate : exists v t', create_variable x' sym t = (v, t') /\ translated t x (opposite other) v t').
  { destruct (create_variable_spec sym t x ty x') as (v & t' & Ec & Htr); auto. exists v, t'. split; [done|].
    destruct Htr as [T1 T2 T3 [T4 T5] T6]. split; auto. by destruct other. }
  unfold name_operand. cbn [fst snd]. destruct ty, other; try done; cbn [shape opposite] in *;
    try apply Hcreate; apply Hsame; tauto.
Qed.

Lemma translated_constants t x ht hf v : traverser_ok t ->
  (m_has_true t = true -> ht = true) -> (m_has_false t = true -> hf = true) ->
  (v = T /\ ht = true /\ is_true x = true \/ v = F /\ hf = true /\ is_true x = false) ->
  (exists d, x = pbes_data d) ->
  translated t x standard_form_both v (with_constants ht hf t).
Proof.
  intros Ht Hht Hhf Hv [d ->].
  assert (Hgr : grows t (with_constants ht hf t)) by (split; try done; exists []; by rewrite app_nil_r).
  split; [|done| | |].
  - destruct Ht as [A1 A2 A3 A4 A5 A6 A7]. split; try done.
    intros e He. destruct (A6 e He) as [Hsh Hkn]. split; [done|]. intros Y HY. eapply known_grows; eauto.
  - intros Y HY. unfold known. destruct Hv as [(-> & -> & _)|(-> & -> & _)];
      apply list_elem_of_singleton in HY as ->; auto 6.
  - by destruct Hv as [(-> & _)|(-> & _)].
  - intros s [_ S2 S3]. cbn [eval]. destruct Hv as [(-> & -> & ->)|(-> & -> & ->)]; cbn [eval T F variable_of];
      [by apply S2|by apply S3].
Qed.

(** The property to be shown for all formulas. *)
Definition translates sym x : Prop := forall t, ends_plain (m_name t) -> traverser_ok t ->
  exists x' ty t', standard_form sym x t = Returns ((x', ty), t') /\ translated t x ty x' t'.

Lemma binary_spec (k : pbes_expression -> pbes_expression -> pbes_expression) (f : bool -> bool -> bool)
    other tyk sym p q t :
  (forall l r, shape (opposite other) l -> shape (opposite other) r -> shape tyk (k l r)) ->
  (forall l r, occurrences (k l r) = occurrences l ++ occurrences r) ->
  (forall s l r, eval s (k l r) = f (eval s l) (eval s r)) -> other <> standard_form_both ->
  translates sym p -> translates sym q -> ends_plain (m_name t) -> traverser_ok t ->
  exists x' t',
    (let! (pl, t) := standard_form sym p t in
     let! (pr, t) := standard_form sym q t in
     let '(l, t) := name_operand other sym pl t in
     let '(r, t) := name_operand other sym pr t in
     Returns ((k l r, tyk), t))%mcrl2 = Returns ((x', tyk), t') /\ translated t (k p q) tyk x' t'.
Proof.
  intros Hsh Hocc Hev Ho Hp Hq Hn Ht.
  destruct (Hp t Hn Ht) as (xl & tyl & t1 & -> & [L1 L2 L3 L4 L5]). cbn [outcome_bind].
  assert (Hn1 : ends_plain (m_name t1)) by (by rewrite (gr_name _ _ L2)).
  destruct (Hq t1 Hn1 L1) as (xr & tyr & t2 & -> & [R1 R2 R3 R4 R5]). cbn [outcome_bind].
  assert (Hn2 : ends_plain (m_name t2)) by (by rewrite (gr_name _ _ R2)).
  destruct (name_operand_spec other sym t2 p tyl xl) as (l & t3 & -> & [A1 A2 A3 A4 A5]); auto.
  { intros Y HY. eapply known_grows; eauto. }
  { intros s Hs. apply L5. by eapply solves_grows. }
  assert (Hn3 : ends_plain (m_name t3)) by (by rewrite (gr_name _ _ A2)).
  destruct (name_operand_spec other sym t3 q tyr xr) as (r & t4 & -> & [B1 B2 B3 B4 B5]); auto.
  { intros Y HY. eapply known_grows; eauto. }
  { intros s Hs. apply R5. by eapply solves_grows. }
  eexists _, t4. split; [done|]. split; [done| | |by apply Hsh|].
  - eauto using grows_trans.
  - intros Y. rewrite Hocc. intros [HY|HY]%elem_of_app; [eapply known_grows; eauto|auto].
  - intros s Hs. rewrite !Hev, A5, B5; [done|done|]. by eapply solves_grows.
Qed.

Lemma standard_form_spec sym x : supported x = true -> (forall Y, Y ∈ occurrences x -> Y ∈ O) -> translates sym x.
Proof.
  induction x as [d|name ps|p IHp|p IHp q IHq|p IHp q IHq|p IHp q IHq|vs p IHp|vs p IHp];
    intros Hx HO t Hp Ht; cbn [supported standard_form] in *; try done.
  - rewrite (to_true t Ht), (to_false t Ht).
    destruct (is_false (pbes_data d)) eqn:Ef.
    + eexists _, _, _. split; [done|]. apply translated_constants; eauto.
      right. split; [done|]. split; [done|]. by destruct d.
    + rewrite orb_false_r in Hx. rewrite Hx. eexists _, _, _. split; [done|].
      apply translated_constants; eauto.
  - eexists _, _, t. split; [done|]. split; auto using grows_refl; [|done]. intros Y HY. left. auto.
  - apply andb_true_iff in Hx as [Hx1 Hx2]. cbn [occurrences] in HO.
    destruct (binary_spec pbes_and andb standard_form_or standard_form_and sym p q t) as (x' & t' & H); eauto.
    + cbn [opposite shape conjunction_of_variables]. intros l r -> ->. done.
    + apply IHp; auto. intros; apply HO, elem_of_app; auto.
    + apply IHq; auto. intros; apply HO, elem_of_app; auto.
  - apply andb_true_iff in Hx as [Hx1 Hx2]. cbn [occurrences] in HO.
    destruct (binary_spec pbes_or orb standard_form_and standard_form_or sym p q t) as (x' & t' & H); eauto.
    + cbn [opposite shape disjunction_of_variables]. intros l r -> ->. done.
    + apply IHp; auto. intros; apply HO, elem_of_app; auto.
    + apply IHq; auto. intros; apply HO, elem_of_app; auto.
Qed.

(** ** Equations *)

Record corresponds t (e e' : pbes_equation) : Prop := {
  co_symbol : eq_symbol e' = eq_symbol e;
  co_name : eq_name e' = eq_name e;
  co_formula : conjunction_of_variables (eq_formula e') = true \/ disjunction_of_variables (eq_formula e') = true;
  co_known : forall Y, Y ∈ occurrences (eq_formula e') -> known t Y;
  co_eval : forall s, solves s t -> eval s (eq_formula e') = eval s (eq_formula e)
}.

Lemma corresponds_extends t t' e e' : extends t t' -> corresponds t e e' -> corresponds t' e e'.
Proof.
  intros Hx [C1 C2 C3 C4 C5]. split; auto.
  - intros Y HY. eapply known_extends; eauto.
  - intros s Hs. apply C5. by eapply solves_extends.
Qed.

Lemma ok_with_name name t : traverser_ok t -> traverser_ok (with_name name t).
Proof. intros [A1 A2 A3 A4 A5 A6 A7]. by split. Qed.

Lemma ok_with_equations eqns t : traverser_ok t -> traverser_ok (with_equations eqns t).
Proof. intros [A1 A2 A3 A4 A5 A6 A7]. by split. Qed.

Definition system_ok eqns : Prop := forall e, e ∈ eqns ->
  supported (eq_formula e) = true /\ forall Y, Y ∈ occurrences (eq_formula e) -> Y ∈ O.

Lemma standard_form_equation_spec e t : traverser_ok t -> supported (eq_formula e) = true ->
  (forall Y, Y ∈ occurrences (eq_formula e) -> Y ∈ O) ->
  exists e' t', standard_form_equation e t = Returns t' /\ traverser_ok t' /\ extends t t' /\
    m_equations t' = m_equations t ++ [e'] /\ corresponds t' e e'.
Proof.
  intros Ht Hs HO. unfold standard_form_equation. set (t0 := with_name _ t).
  destruct (standard_form_spec (eq_symbol e) (eq_formula e) Hs HO t0) as (x' & ty & t1 & -> & [R1 R2 R3 R4 R5]).
  { exists (list_ascii_of_string (eq_name e)), "_"%char. done. }
  { by apply ok_with_name. }
  cbn [outcome_bind fst]. eexists _, _. split; [done|]. split; [by apply ok_with_equations|].
  assert (Hx : extends t0 t1) by (by apply grows_extends).
  split; [by destruct Hx; split|]. cbn [with_equations m_equations]. rewrite (gr_equations _ _ R2). split; [done|].
  split; [done|done|destruct ty; cbn in R4; tauto|done|]. intros s [S1 S2 S3]. apply R5. by split.
Qed.

Lemma standard_form_equations_spec eqns t : traverser_ok t -> system_ok eqns ->
  exists l t', standard_form_equations eqns t = Returns t' /\ traverser_ok t' /\ extends t t' /\
    m_equations t' = m_equations t ++ l /\ Forall2 (corresponds t') eqns l.
Proof.
  revert t. induction eqns as [|e eqns IH]; intros t Ht Hs; cbn [standard_form_equations].
  { exists [], t. split; [done|]. split; [done|]. split; [|by rewrite app_nil_r].
    split; try done. exists []. by rewrite app_nil_r. }
  destruct (Hs e ltac:(left)) as [Hsup Hocc].
  destruct (standard_form_equation_spec e t Ht Hsup Hocc) as (e' & t1 & -> & H1 & H2 & H3 & H4). cbn [outcome_bind].
  destruct (IH t1 H1) as (l & t2 & -> & G1 & G2 & G3 & G4); [intros e2 He2; apply Hs; by right|].
  exists (e' :: l), t2. split; [done|]. split; [done|]. split; [by eapply extends_trans|].
  split; [rewrite G3, H3, <- app_assoc; done|]. constructor; [|done]. by eapply corresponds_extends.
Qed.

(** ** The solution *)

(** The new equations at the end of the result. *)
Definition new_equations (sigma : fixpoint_symbol) t : list pbes_equation :=
  ((fun e => mk_equation sigma (eq_name e) (eq_formula e)) <$> m_equations2 t)
  ++ (if m_has_true t then [mk_equation Nu "True" T] else [])
  ++ (if m_has_false t then [mk_equation Mu "False" F] else []).

Lemma new_equations_variables sigma t : eq_variable <$> new_equations sigma t =
  new_variables t ++ (if m_has_true t then [T] else []) ++ (if m_has_false t then [F] else []).
Proof.
  unfold new_equations. rewrite !fmap_app, <- list_fmap_compose. f_equal.
  by destruct (m_has_true t), (m_has_false t).
Qed.

Lemma elem_of_new_variables sigma t Y : Y ∈ eq_variable <$> new_equations sigma t <->
  Y ∈ new_variables t \/ (Y = T /\ m_has_true t = true) \/ (Y = F /\ m_has_false t = true).
Proof.
  rewrite new_equations_variables, !elem_of_app.
  destruct (m_has_true t), (m_has_false t); rewrite ?list_elem_of_singleton, ?elem_of_nil; naive_solver.
Qed.

Lemma new_equations_distinct sigma t : traverser_ok t -> NoDup (eq_variable <$> new_equations sigma t).
Proof.
  intros Ht. rewrite new_equations_variables. apply NoDup_app. split; [apply Ht|]. split.
  - intros Y HY. destruct (to_new t Ht Y HY) as (_ & H1 & H2).
    destruct (m_has_true t), (m_has_false t); rewrite ?elem_of_app, ?list_elem_of_singleton, ?elem_of_nil; naive_solver.
  - destruct (m_has_true t), (m_has_false t); cbn [app]; repeat constructor; rewrite ?list_elem_of_singleton, ?elem_of_nil;
      auto using T_not_F.
Qed.

Lemma new_equations_supported sigma t : traverser_ok t -> all_supported (new_equations sigma t).
Proof.
  assert (Hv : forall x, conjunction_of_variables x = true \/ disjunction_of_variables x = true -> supported x = true).
  { induction x; cbn [conjunction_of_variables disjunction_of_variables supported]; intros [H|H]; try done;
      apply andb_true_iff in H as [H1 H2]; apply andb_true_iff; auto. }
  intros Ht e. unfold new_equations. rewrite !elem_of_app. intros [H|H].
  - apply list_elem_of_fmap in H as (e' & -> & He'). destruct (to_formula t Ht e' He') as [Hf _]. by apply Hv.
  - destruct (m_has_true t), (m_has_false t); rewrite ?list_elem_of_singleton, ?elem_of_nil in H;
      destruct H as [H|H]; try done; by subst.
Qed.

(** The constants have their values, whatever the other equations are. *)
Lemma new_equations_constants sigma t eta :
  (m_has_true t = true -> bes_solution (new_equations sigma t) eta T = true) /\
  (m_has_false t = true -> bes_solution (new_equations sigma t) eta F = false).
Proof.
  split.
  - intros Et. unfold new_equations. rewrite Et. destruct (bes_solution_app ((fun e => mk_equation sigma (eq_name e)
      (eq_formula e)) <$> m_equations2 t) ([mk_equation Nu "True" T] ++
      (if m_has_false t then [mk_equation Mu "False" F] else [])) eta) as [eta' ->].
    assert (HTF : T ∉ eq_variable <$> (if m_has_false t then [mk_equation Mu "False" F] else [])).
    { destruct (m_has_false t); [change (T ∉ [F]); by rewrite list_elem_of_singleton|apply not_elem_of_nil]. }
    cbn [app bes_solution]. rewrite bes_solution_outside by done.
    unfold set_value at 1. rewrite decide_True by done. cbn [eval T variable_of eq_formula eq_symbol is_nu].
    rewrite bes_solution_outside by done. unfold set_value. by rewrite decide_True.
  - intros Ef. unfold new_equations. rewrite Ef, app_assoc. destruct (bes_solution_app
      (((fun e => mk_equation sigma (eq_name e) (eq_formula e)) <$> m_equations2 t) ++
       (if m_has_true t then [mk_equation Nu "True" T] else [])) [mk_equation Mu "False" F] eta) as [eta' ->].
    cbn [bes_solution eval F variable_of is_nu eq_symbol eq_formula]. unfold set_value. by rewrite !decide_True.
Qed.

Lemma new_equations_solve sigma t eta : traverser_ok t -> solves (bes_solution (new_equations sigma t) eta) t.
Proof.
  intros Ht. split; [|apply new_equations_constants..].
  intros e He. pose proof (bes_solution_holds (new_equations sigma t) eta (mk_equation sigma (eq_name e) (eq_formula e))) as H.
  apply H; [by apply new_equations_supported|by apply new_equations_distinct|].
  unfold new_equations. apply elem_of_app. left. apply list_elem_of_fmap. by exists e.
Qed.

(** Both systems give the same values to the variables of the first. *)
Lemma corresponds_solution sigma t eqns l eta eta' : traverser_ok t -> Forall2 (corresponds t) eqns l -> system_ok eqns ->
  (forall Y, Y ∈ O -> eta Y = eta' Y) ->
  forall Y, Y ∈ O -> bes_solution (l ++ new_equations sigma t) eta Y = bes_solution eqns eta' Y.
Proof.
  intros Ht Hf. revert eta eta'. induction Hf as [|e e' eqns l [C1 C2 C3 C4 C5] Hf IH]; intros eta eta' Hs Heta Y HY.
  - cbn [app bes_solution]. rewrite bes_solution_outside; [by apply Heta|].
    rewrite elem_of_new_variables. intros [Hn|[[-> _]|[-> _]]]; [by destruct (to_new t Ht Y Hn)|done|done].
  - cbn [app bes_solution]. assert (Ev : eq_variable e' = eq_variable e) by (unfold eq_variable; by rewrite C2).
    rewrite Ev, C1. assert (Hs' : system_ok eqns) by (intros e2 He2; apply Hs; by right).
    assert (Hset : forall b Y, Y ∈ O -> set_value (eq_variable e) b eta Y = set_value (eq_variable e) b eta' Y).
    { intros b Z HZ. unfold set_value. case_decide; auto. }
    rewrite C5.
    + rewrite (eval_occurrences _ (bes_solution eqns (set_value (eq_variable e) (is_nu (eq_symbol e)) eta'))).
      * apply IH; auto.
      * intros Z HZ. apply IH; auto. apply (Hs e); [left|done].
    + destruct (bes_solution_app l (new_equations sigma t) (set_value (eq_variable e) (is_nu (eq_symbol e)) eta)) as [eta2 ->].
      by apply new_equations_solve.
Qed.

(** *** The result is in standard form *)

Lemma result_standard sigma t eqns l : traverser_ok t -> Forall2 (corresponds t) eqns l ->
  eq_variable <$> eqns = O -> NoDup O -> standard_recursive_form (l ++ new_equations sigma t).
Proof.
  intros Ht Hf HO Hnd.
  assert (Ev : eq_variable <$> l = O).
  { rewrite <- HO. clear -Hf. induction Hf as [|e e' eqns l [_ C2 _ _ _] _ IH]; [done|].
    rewrite !fmap_cons, IH. unfold eq_variable. by rewrite C2. }
  assert (Hknown : forall Y, known t Y -> Y ∈ eq_variable <$> (l ++ new_equations sigma t)).
  { intros Y HY. rewrite fmap_app, elem_of_app, Ev, elem_of_new_variables. exact HY. }
  assert (He : forall e, e ∈ l ++ new_equations sigma t ->
    (conjunction_of_variables (eq_formula e) = true \/ disjunction_of_variables (eq_formula e) = true) /\
    forall Y, Y ∈ occurrences (eq_formula e) -> known t Y).
  { intros e. unfold new_equations. rewrite !elem_of_app. intros [H|[H|H]].
    - apply list_elem_of_lookup in H as [i Hi]. destruct (Forall2_lookup_r _ _ _ _ _ Hf Hi) as (e0 & _ & [_ _ C3 C4 _]). done.
    - apply list_elem_of_fmap in H as (e' & -> & He'). exact (to_formula t Ht e' He').
    - assert (He : e = mk_equation Nu "True" T /\ m_has_true t = true \/ e = mk_equation Mu "False" F /\ m_has_false t = true).
      { destruct (m_has_true t), (m_has_false t); rewrite ?list_elem_of_singleton, ?elem_of_nil in H; naive_solver. }
      destruct He as [[-> Eh]|[-> Eh]]; (split; [by left|]); intros Y HY;
        apply list_elem_of_singleton in HY as ->; unfold known; auto 6. }
  split.
  - intros e H. by apply He.
  - intros e Y H HY. apply Hknown. by apply (He e).
  - rewrite fmap_app, Ev. apply NoDup_app. split; [done|]. split; [|by apply new_equations_distinct].
    intros Y HY. rewrite elem_of_new_variables. intros [Hn|[[-> _]|[-> _]]]; [by destruct (to_new t Ht Y Hn)|done|done].
Qed.

End Traverser.

(** ** The start *)

Record closed_system eqns : Prop := {
  cs_nonempty : eqns <> [];
  cs_supported : all_supported eqns;
  cs_closed : forall e Y, e ∈ eqns -> Y ∈ occurrences (eq_formula e) -> Y ∈ eq_variable <$> eqns;
  cs_distinct : NoDup (eq_variable <$> eqns)
}.

(** The names do not clash with those of the constants, and a number at the end
    of a name fits an [int]. *)
Definition usable_names eqns : Prop := forall e, e ∈ eqns ->
  eq_name e <> "True"%string /\ eq_name e <> "False"%string /\ postfix_fits (list_ascii_of_string (eq_name e)).

Lemma new_traverser_constants : let t := @new_traverser variable symbol true in
  m_true t = T /\ m_false t = F /\ m_equations t = [] /\ m_equations2 t = [] /\ m_table t = [] /\
  covered (m_generator t) (list_ascii_of_string "True") /\ covered (m_generator t) (list_ascii_of_string "False").
Proof.
  cbn zeta. unfold new_traverser.
  pose proof (generate_fresh (list_ascii_of_string "True") ∅ ltac:(by exists (list_ascii_of_string "Tru"), "e"%char)) as H1.
  destruct (generate (list_ascii_of_string "True") ∅) as [i1 g1] eqn:E1.
  destruct H1 as (_ & C1 & _ & N1). assert (i1 = list_ascii_of_string "True") as -> by (by apply N1).
  pose proof (generate_fresh (list_ascii_of_string "False") g1 ltac:(by exists (list_ascii_of_string "Fals"), "e"%char)) as H2.
  destruct (generate (list_ascii_of_string "False") g1) as [i2 g2] eqn:E2.
  destruct H2 as (_ & C2 & K2 & N2). rewrite (N2 ltac:(by injection E1 as <-)) in *.
  do 5 (split; [done|]). split; [by apply K2|done].
Qed.

Lemma added_covered eqns g : (forall e, e ∈ eqns -> postfix_fits (list_ascii_of_string (eq_name e))) ->
  let g' := foldl (fun g eqn => add_identifier (list_ascii_of_string (eq_name eqn)) g) g eqns in
  (forall e, e ∈ eqns -> covered g' (list_ascii_of_string (eq_name e))) /\ forall id, covered g id -> covered g' id.
Proof.
  revert g. induction eqns as [|e eqns IH]; intros g Hf; cbn zeta; cbn [foldl].
  { split; [|done]. intros e He. by apply elem_of_nil in He. }
  destruct (IH (add_identifier (list_ascii_of_string (eq_name e)) g)) as [G1 G2]; [intros; apply Hf; by right|].
  split.
  - intros e' [->|He']%elem_of_cons; [|by apply G1]. apply G2, add_identifier_covers, Hf. left.
  - intros id Hid. by apply G2, add_identifier_keeps.
Qed.

Lemma start_ok eqns : closed_system eqns -> usable_names eqns ->
  let t := enter_pbes eqns (new_traverser true) in
  traverser_ok (eq_variable <$> eqns) t /\ m_equations t = [] /\ T ∉ eq_variable <$> eqns /\ F ∉ eq_variable <$> eqns.
Proof.
  intros [Hne Hs Hc Hd] Hn. destruct new_traverser_constants as (E1 & E2 & E3 & E4 & E5 & C1 & C2).
  destruct (added_covered eqns (m_generator (@new_traverser variable symbol true))) as [A1 A2].
  { intros e He. by apply Hn. }
  set (t0 := new_traverser true) in *. cbn zeta. split; [|split; [done|]].
  - assert (En : new_variables (enter_pbes eqns t0) = []) by (unfold new_variables; cbn [enter_pbes with_generator m_equations2]; by rewrite E4).
    split; rewrite ?En; cbn [enter_pbes with_generator m_true m_false m_table m_equations2 m_generator]; auto.
    + by rewrite E5.
    + constructor.
    + by intros Y ?%elem_of_nil.
    + rewrite E4. by intros e ?%elem_of_nil.
    + intros name [HO|[->%variable_of_inj|[->%variable_of_inj|Hnew]]]; auto.
      * apply list_elem_of_fmap in HO as (e & He & Hin).
        assert (name = list_ascii_of_string (eq_name e)) as ->; [|by apply A1].
        unfold eq_variable, variable_of in He. injection He as <-. by rewrite list_ascii_of_string_of_list_ascii.
      * by apply elem_of_nil in Hnew.
  - split; intros (e & He & Hin)%list_elem_of_fmap; destruct (Hn e Hin) as (N1 & N2 & _);
      unfold eq_variable, T, F, variable_of in He; rewrite string_of_list_ascii_of_string in He; congruence.
Qed.

(** ** The number of equations *)

Lemma name_operand_count other sym (p : pbes_expression * standard_form_type) t v t' :
  name_operand other sym p t = (v, t') -> length (m_equations2 t') <= length (m_equations2 t) + 1.
Proof.
  assert (Hc : create_variable p.1 sym t = (v, t') -> length (m_equations2 t') <= length (m_equations2 t) + 1).
  { unfold create_variable. destruct (table_find _ _); [intros [= <- <-]; lia|].
    destruct (generate _ _) as [name g]. intros [= <- <-]. cbn [m_equations2]. rewrite length_app. cbn. lia. }
  unfold name_operand. destruct p.2, other; try done; intros [= <- <-]; lia.
Qed.

Lemma standard_form_count sym x t p t' : standard_form sym x t = Returns (p, t') ->
  length (m_equations2 t') + 1 <= length (m_equations2 t) + size x.
Proof.
  revert t p t'. induction x as [d|name ps|x IHx|x IHx y IHy|x IHx y IHy|x IHx y IHy|vs x IHx|vs x IHx];
    intros t p t' E; cbn [standard_form size] in *.
  - repeat case_match; simplify_eq; cbn; lia.
  - simplify_eq. lia.
  - by destruct (standard_form sym x t).
  - destruct (standard_form sym x t) as [[pl t1]|] eqn:E1; [cbn [outcome_bind] in E|done].
    destruct (standard_form sym y t1) as [[pr t2]|] eqn:E2; [cbn [outcome_bind] in E|done].
    destruct (name_operand _ sym pl t2) as [l t3] eqn:E3. destruct (name_operand _ sym pr t3) as [r t4] eqn:E4.
    apply name_operand_count in E3, E4. specialize (IHx _ _ _ E1). specialize (IHy _ _ _ E2). simplify_eq. lia.
  - destruct (standard_form sym x t) as [[pl t1]|] eqn:E1; [cbn [outcome_bind] in E|done].
    destruct (standard_form sym y t1) as [[pr t2]|] eqn:E2; [cbn [outcome_bind] in E|done].
    destruct (name_operand _ sym pl t2) as [l t3] eqn:E3. destruct (name_operand _ sym pr t3) as [r t4] eqn:E4.
    apply name_operand_count in E3, E4. specialize (IHx _ _ _ E1). specialize (IHy _ _ _ E2). simplify_eq. lia.
  - destruct (standard_form sym x t) as [[pl t1]|]; [cbn [outcome_bind] in E|done]. by destruct (standard_form sym y t1).
  - specialize (IHx _ _ _ E). lia.
  - specialize (IHx _ _ _ E). lia.
Qed.

Definition total_size eqns : nat := foldr (fun e k => size (eq_formula e) + k) 0 eqns.

Lemma standard_form_equations_count eqns t t' : standard_form_equations eqns t = Returns t' ->
  length (m_equations2 t') + length eqns <= length (m_equations2 t) + total_size eqns.
Proof.
  revert t. induction eqns as [|e eqns IH]; intros t E; cbn [standard_form_equations total_size foldr length] in *.
  { simplify_eq. lia. }
  unfold standard_form_equation in E. set (t0 := with_name _ t) in E.
  destruct (standard_form (eq_symbol e) (eq_formula e) t0) as [[p t1]|] eqn:E1; [cbn [outcome_bind] in E|done].
  specialize (IH _ E). apply standard_form_count in E1. cbn [with_equations m_equations2] in IH.
  change (m_equations2 t0) with (m_equations2 t) in E1. unfold total_size in IH. lia.
Qed.

(** ** The result *)

Lemma make_standard_form_spec eqns : closed_system eqns -> usable_names eqns ->
  exists eqns', make_standard_form true eqns = Returns eqns' /\ standard_recursive_form eqns' /\
    length eqns' <= total_size eqns + 2 /\
    (forall e, e ∈ eqns -> exists e', e' ∈ eqns' /\ eq_variable e' = eq_variable e) /\
    forall eta e, e ∈ eqns -> bes_solution eqns' eta (eq_variable e) = bes_solution eqns eta (eq_variable e).
Proof.
  intros Hcs Hn. destruct (start_ok eqns Hcs Hn) as (H1 & H2 & HT & HF). destruct Hcs as [Hne Hs Hc Hd].
  set (t := enter_pbes eqns (new_traverser true)) in *.
  assert (Hok : system_ok (eq_variable <$> eqns) eqns) by (intros e He; split; [by apply Hs|intros Y; by apply Hc]).
  destruct (standard_form_equations_spec _ eqns t H1 Hok) as (l & t' & E & G1 & _ & G3 & G4).
  pose proof (standard_form_equations_count _ _ _ E) as Hcount. rewrite H2 in G3. cbn [app] in G3.
  pose proof (Forall2_length _ _ _ G4) as Hlen. destruct new_traverser_constants as (_ & _ & _ & E4 & _).
  change (m_equations2 t) with (m_equations2 (@new_traverser variable symbol true)) in Hcount. rewrite E4 in Hcount.
  exists (leave_pbes true t'). split.
  { unfold make_standard_form. destruct eqns; [done|]. fold t. rewrite E. done. }
  assert (El : leave_pbes true t' = l ++ new_equations (from_option eq_symbol Mu (last l)) t').
  { unfold leave_pbes, new_equations. rewrite G3, (to_true _ t' G1), (to_false _ t' G1). done. }
  rewrite El. split; [by eapply result_standard|]. split; [|split].
  - unfold new_equations. rewrite !length_app, length_fmap. cbn [length] in Hcount.
    destruct (m_has_true t'), (m_has_false t'); cbn [length]; lia.
  - intros e (i & Hi)%list_elem_of_lookup. destruct (Forall2_lookup_l _ _ _ _ _ G4 Hi) as (e' & Hi' & [_ C2 _ _ _]).
    exists e'. split; [apply elem_of_app; left; by eapply list_elem_of_lookup_2|]. unfold eq_variable. by rewrite C2.
  - intros eta e He. apply (corresponds_solution _ HT HF _ t' eqns l eta eta); auto. by apply list_elem_of_fmap_2.
Qed.

End Correct.

(** ** The names of the constants

    [standard_form_traverser] chooses the names of the variables for the constants
    before it knows the names of the system.  What happens in a system with a
    variable called [True] or [False]. *)

Section Names.
Context {variable symbol : Type} `{EqDecision variable} `{EqDecision symbol}.
Abbreviation pbes_expression := (PbesExpressions.pbes_expression variable symbol).
Abbreviation pbes_equation := (SmallProgress.pbes_equation variable symbol).
Abbreviation traverser := (standard_form_traverser variable symbol).
Implicit Types (x : pbes_expression) (eqns : list pbes_equation) (t : traverser).

(** The constant [b] occurs in a formula. *)
Fixpoint mentions (b : bool) x : bool :=
  match x with
  | pbes_data _ => if b then is_true x else is_false x
  | pbes_and p q | pbes_or p q => mentions b p || mentions b q
  | _ => false
  end.

Definition constant_name (b : bool) : string := if b then "True" else "False".

Definition constant_variable (b : bool) : pbes_expression := variable_of (list_ascii_of_string (constant_name b)).

(** The equation that is added for a constant. *)
Definition constant_equation (b : bool) : pbes_equation :=
  mk_equation (if b then Nu else Mu) (constant_name b) (constant_variable b).

Definition has_constant (b : bool) t : bool := if b then m_has_true t else m_has_false t.

(** A traversal keeps the names of the constants and the equations, and records the constants it meets. *)
Definition flagged (f : bool -> bool) t t' : Prop :=
  m_true t' = m_true t /\ m_false t' = m_false t /\ m_equations t' = m_equations t /\
  forall b, has_constant b t' = has_constant b t || f b.

Lemma name_operand_flags other sym (p : pbes_expression * standard_form_type) t :
  exists v t', name_operand other sym p t = (v, t') /\ flagged (fun _ => false) t t'.
Proof.
  assert (Hc : exists v t', create_variable p.1 sym t = (v, t') /\ flagged (fun _ => false) t t').
  { unfold create_variable. destruct (table_find _ _) as [v|]; [|destruct (generate _ _) as [name g]]; eexists _, _;
      (split; [done|]); do 3 (split; [done|]); intros []; by rewrite orb_false_r. }
  assert (Hs : exists v t', (p.1, t) = (v, t') /\ flagged (fun _ => false) t t').
  { eexists _, t. split; [done|]. do 3 (split; [done|]). intros []; by rewrite orb_false_r. }
  unfold name_operand. by destruct p.2, other.
Qed.

Lemma flagged_trans f g t1 t2 t3 : flagged f t1 t2 -> flagged g t2 t3 -> flagged (fun b => f b || g b) t1 t3.
Proof.
  intros (A1 & A2 & A3 & A4) (B1 & B2 & B3 & B4). split; [congruence|]. split; [congruence|]. split; [congruence|].
  intros b. by rewrite B4, A4, orb_assoc.
Qed.

Lemma flagged_ext f g t t' : (forall b, f b = g b) -> flagged f t t' -> flagged g t t'.
Proof. intros E (A1 & A2 & A3 & A4). do 3 (split; [done|]). intros b. by rewrite A4, E. Qed.

Lemma binary_flags (k : pbes_expression -> pbes_expression -> pbes_expression) other (ty : standard_form_type) sym p q t :
  (forall t, exists r t', standard_form sym p t = Returns (r, t') /\ flagged (fun b => mentions b p) t t') ->
  (forall t, exists r t', standard_form sym q t = Returns (r, t') /\ flagged (fun b => mentions b q) t t') ->
  exists (r : pbes_expression * standard_form_type) t',
    (let! (pl, t) := standard_form sym p t in
     let! (pr, t) := standard_form sym q t in
     let '(l, t) := name_operand other sym pl t in
     let '(r, t) := name_operand other sym pr t in
     Returns ((k l r, ty), t))%mcrl2 = Returns (r, t') /\ flagged (fun b => mentions b p || mentions b q) t t'.
Proof.
  intros Hp Hq. destruct (Hp t) as (pl & t1 & -> & F1). cbn [outcome_bind]. destruct (Hq t1) as (pr & t2 & -> & F2). cbn [outcome_bind].
  destruct (name_operand_flags other sym pl t2) as (l & t3 & -> & F3). destruct (name_operand_flags other sym pr t3) as (r & t4 & -> & F4).
  eexists _, t4. split; [done|]. pose proof (flagged_trans _ _ _ _ _ (flagged_trans _ _ _ _ _ F1 F2) (flagged_trans _ _ _ _ _ F3 F4)) as H.
  revert H. apply flagged_ext. intros b. by rewrite !orb_false_r.
Qed.

Lemma standard_form_flags sym x t : supported x = true ->
  exists r t', standard_form sym x t = Returns (r, t') /\ flagged (fun b => mentions b x) t t'.
Proof.
  revert t. induction x as [d|name ps|p IHp|p IHp q IHq|p IHp q IHq|p IHp q IHq|vs p IHp|vs p IHp];
    intros t Hx; cbn [supported standard_form mentions] in *; try done.
  - destruct (is_false (pbes_data d)) eqn:Ef; [|destruct (is_true (pbes_data d)) eqn:Et; [|done]].
    + assert (Et : is_true (pbes_data d : pbes_expression) = false) by (by destruct d).
      eexists _, _. split; [done|]. do 3 (split; [done|]). intros []; unfold has_constant; cbn [with_constants m_has_true m_has_false]; rewrite ?Ef, ?Et, ?orb_false_r, ?orb_true_r; done.
    + eexists _, _. split; [done|]. do 3 (split; [done|]). intros []; unfold has_constant; cbn [with_constants m_has_true m_has_false]; rewrite ?Ef, ?Et, ?orb_false_r, ?orb_true_r; done.
  - eexists _, t. split; [done|]. do 3 (split; [done|]). intros b. by rewrite orb_false_r.
  - apply andb_true_iff in Hx as [H1 H2]. apply binary_flags; auto.
  - apply andb_true_iff in Hx as [H1 H2]. apply binary_flags; auto.
Qed.

Lemma standard_form_equations_flags eqns t : all_supported eqns ->
  exists t' l, standard_form_equations eqns t = Returns t' /\ m_true t' = m_true t /\ m_false t' = m_false t /\
    m_equations t' = m_equations t ++ l /\ Forall2 (fun e e' => eq_symbol e' = eq_symbol e /\ eq_name e' = eq_name e) eqns l /\
    forall b, has_constant b t' = has_constant b t || existsb (fun e => mentions b (eq_formula e)) eqns.
Proof.
  revert t. induction eqns as [|e eqns IH]; intros t Hs; cbn [standard_form_equations].
  { exists t, []. do 3 (split; [done|]). split; [by rewrite app_nil_r|]. split; [done|]. intros b. by rewrite orb_false_r. }
  unfold standard_form_equation. set (t0 := with_name _ t).
  destruct (standard_form_flags (eq_symbol e) (eq_formula e) t0 (Hs e ltac:(left))) as (p & t1 & -> & A1 & A2 & A3 & A4).
  cbn [outcome_bind]. destruct (IH (with_equations (m_equations t1 ++ [mk_equation (eq_symbol e) (eq_name e) p.1]) t1))
    as (t2 & l & -> & B1 & B2 & B3 & B4 & B5); [intros e' He'; apply Hs; by right|].
  exists t2, (mk_equation (eq_symbol e) (eq_name e) p.1 :: l). split; [done|].
  split; [by rewrite B1|]. split; [by rewrite B2|]. split.
  { rewrite B3. cbn [with_equations m_equations]. rewrite A3, <- app_assoc. done. }
  split; [by constructor|]. intros b. rewrite B5. cbn [existsb].
  assert (E : has_constant b (with_equations (m_equations t1 ++ [mk_equation (eq_symbol e) (eq_name e) p.1]) t1) = has_constant b t1) by (by destruct b).
  rewrite E, A4. assert (E0 : has_constant b t0 = has_constant b t) by (by destruct b). by rewrite E0, orb_assoc.
Qed.

(** A system with an equation for a variable with the name of a constant that it mentions. *)
Lemma name_clash_spec b eqns e : all_supported eqns -> e ∈ eqns -> eq_name e = constant_name b ->
  existsb (fun e => mentions b (eq_formula e)) eqns = true ->
  exists eqns' i j phi, make_standard_form true eqns = Returns eqns' /\ i < j /\
    eqns' !! i = Some (mk_equation (eq_symbol e) (constant_name b) phi) /\ eqns' !! j = Some (constant_equation b) /\
    forall eta, bes_solution eqns' eta (eq_variable e) = b.
Proof.
  intros Hs He Hn Hm. destruct (@new_traverser_constants variable symbol) as (E1 & E2 & E3 & _).
  destruct (standard_form_equations_flags eqns (enter_pbes eqns (new_traverser true)) Hs) as (t & l & E & A1 & A2 & A3 & A4 & A5).
  change (m_true (enter_pbes eqns (new_traverser true))) with (m_true (@new_traverser variable symbol true)) in A1. rewrite E1 in A1.
  change (m_false (enter_pbes eqns (new_traverser true))) with (m_false (@new_traverser variable symbol true)) in A2. rewrite E2 in A2.
  change (m_equations (enter_pbes eqns (new_traverser true))) with (m_equations (@new_traverser variable symbol true)) in A3. rewrite E3 in A3.
  cbn [app] in A3. specialize (A5 b). rewrite Hm, orb_true_r in A5.
  assert (El : leave_pbes true t = l ++ new_equations (from_option eq_symbol Mu (last l)) t).
  { unfold leave_pbes, new_equations. by rewrite A3, A1, A2. }
  set (sigma := from_option eq_symbol Mu (last l)) in *.
  assert (Hj : constant_equation b ∈ new_equations sigma t).
  { unfold new_equations. rewrite !elem_of_app. destruct b; cbn in A5; rewrite A5; right; [left|right]; by left. }
  apply list_elem_of_lookup in Hj as [j Hj]. apply list_elem_of_lookup in He as [i Hi].
  destruct (Forall2_lookup_l _ _ _ _ _ A4 Hi) as (e' & Hi' & Hsym & Hname). destruct e' as [sym name phi]. cbn in Hsym, Hname.
  exists (leave_pbes true t), i, (length l + j), phi. rewrite El. split; [|split; [|split; [|split]]].
  - unfold make_standard_form. destruct eqns; [done|]. rewrite E. cbn [outcome_bind]. by rewrite El.
  - apply lookup_lt_Some in Hi'. lia.
  - rewrite (lookup_app_l_Some _ _ _ _ Hi'). by rewrite Hsym, Hname, Hn.
  - rewrite lookup_app_r, Nat.add_comm, Nat.add_sub by lia. done.
  - intros eta. destruct (bes_solution_app l (new_equations sigma t) eta) as [eta' ->].
    destruct (new_equations_constants sigma t eta') as [HT HF]. unfold eq_variable. rewrite Hn. destruct b; [by apply HT|by apply HF].
Qed.

End Names.
