(* ===== verification/GaussElimination.v ===== *)
(** * Gauss elimination
    ([libraries/pbes/gauss_elimination_algorithm.h], [pbes_gauss_elimination.h],
    [replace.h] and [substitutions.h])

    The other solver for boolean equation systems: from the last equation to the
    first, the fixpoint of the equation is computed by substituting [true] or
    [false] for its variable, and the result is substituted for the variable in
    the equations before it.

    The rewriter that simplifies the solved equations is a parameter; what the
    algorithm needs of it is the class [BesRewriter], and the simplifying
    rewriter of [PbesRewriters.v] is an instance.  A substitution for a variable
    looks at its name only; the variables of a boolean equation system have no
    parameters, so that the substitution for the parameters is empty. *)

From Stdlib Require Import Lia ZArith.
From stdpp Require Import base strings numbers sets list.
From S2P Require Import Prelude Terms DataExpressions PbesExpressions PbesRewriters GraphBuilder GraphBuilderCorrect GraphBuilderTheorems Instantiation SmallProgress BesSolution SmallProgressInit PostfixGenerator StandardForm StandardFormCorrect.

Section Code.
Context {variable symbol : Type} `{EqDecision variable} `{EqDecision symbol}.
Abbreviation pbes_expression := (PbesExpressions.pbes_expression variable symbol).
Abbreviation pbes_equation := (SmallProgress.pbes_equation variable symbol).
Implicit Types (x phi : pbes_expression) (eqns : list pbes_equation) (e : pbes_equation).

(** [propositional_variable_substitution(X, phi)] *)
Definition propositional_variable_substitution (X : string) phi (v : pbes_expression) : pbes_expression :=
  match v with
  | propositional_variable_instantiation name _ => if decide (name = X) then phi else v
  | _ => v
  end.

Fixpoint replace_propositional_variables (sigma : pbes_expression -> pbes_expression) x : pbes_expression :=
  match x with
  | pbes_data _ => x
  | propositional_variable_instantiation _ _ => sigma x
  | pbes_not p => pbes_not (replace_propositional_variables sigma p)
  | pbes_and p q => pbes_and (replace_propositional_variables sigma p) (replace_propositional_variables sigma q)
  | pbes_or p q => pbes_or (replace_propositional_variables sigma p) (replace_propositional_variables sigma q)
  | pbes_imp p q => pbes_imp (replace_propositional_variables sigma p) (replace_propositional_variables sigma q)
  | pbes_forall vs p => pbes_forall vs (replace_propositional_variables sigma p)
  | pbes_exists vs p => pbes_exists vs (replace_propositional_variables sigma p)
  end.

(** [pbes_traits::substitute] *)
Definition substitute x (X : string) phi : pbes_expression :=
  replace_propositional_variables (propositional_variable_substitution X phi) x.

Definition with_formula phi e : pbes_equation := mk_equation (eq_symbol e) (eq_name e) phi.

(** [sigma] of [pbes_equation_solver] *)
Definition fixpoint_start e : pbes_expression := if is_nu (eq_symbol e) then true_ else false_.

Section Run.
Context (m_rewriter : pbes_expression -> pbes_expression).

(** [pbes_equation_solver::operator()] *)
Definition pbes_equation_solver e : pbes_equation :=
  let e := with_formula (substitute (eq_formula e) (eq_name e) (fixpoint_start e)) e in
  with_formula (m_rewriter (eq_formula e)) e.

(** The loop of [run]: the equations from [i] on have been solved. *)
Fixpoint gauss_loop (solve : pbes_equation -> pbes_equation) (i : nat) eqns : list pbes_equation :=
  match i with
  | O => eqns
  | S i =>
      match eqns !! i with
      | None => eqns
      | Some e =>
          let e := solve e in
          gauss_loop solve i
            (((fun ej => with_formula (substitute (eq_formula ej) (eq_name e) (eq_formula e)) ej) <$> take i eqns)
             ++ e :: drop (S i) eqns)
      end
  end.

Definition gauss_run (solve : pbes_equation -> pbes_equation) eqns : list pbes_equation :=
  gauss_loop solve (length eqns) eqns.

(** [gauss_elimination]; without equations [front] is undefined. *)
Definition gauss_elimination eqns : option Z :=
  match gauss_run pbes_equation_solver eqns with
  | [] => None
  | e :: _ => Some (if is_false (eq_formula e) then 0 else if is_true (eq_formula e) then 1 else 2)%Z
  end.

End Run.

(** The loop of [approximate]; [m_compare] decides whether two formulas are the
    same. *)
Fixpoint approximate_loop (m_compare : pbes_expression -> pbes_expression -> bool) (fuel : nat) phi (X : string)
    (next : pbes_expression) : option pbes_expression :=
  match fuel with
  | O => None
  | S fuel =>
      let prev := next in
      let next := substitute phi X prev in
      if m_compare prev next then Some prev else approximate_loop m_compare fuel phi X next
  end.

Definition approximate (m_compare : pbes_expression -> pbes_expression -> bool) (fuel : nat) e : option pbes_equation :=
  match approximate_loop m_compare fuel (eq_formula e) (eq_name e) (fixpoint_start e) with
  | None => None
  | Some prev => Some (with_formula prev e)
  end.

(** ** The rewriter *)

(** All instances of variables have no parameters. *)
Definition plain x : Prop := forall Y, Y ∈ occurrences x -> exists name, Y = propositional_variable_instantiation name [].

(** What the rewriter promises for the formulas of boolean equation systems. *)
Class BesRewriter (r : pbes_expression -> pbes_expression) : Prop := {
  rewrite_supported : forall x, supported x = true -> plain x -> supported (r x) = true;
  rewrite_eval : forall s x, supported x = true -> plain x -> eval s (r x) = eval s x;
  rewrite_occurrences : forall x Y, supported x = true -> plain x -> Y ∈ occurrences (r x) -> Y ∈ occurrences x;
  rewrite_constant : forall x, supported x = true -> occurrences x = [] ->
    is_true (r x) = true \/ is_false (r x) = true
}.

(** ** Substitution *)

Lemma substitute_supported x X phi : supported x = true -> supported phi = true -> supported (substitute x X phi) = true.
Proof.
  intros Hx Hp. unfold substitute. induction x; cbn [supported replace_propositional_variables] in *; try done.
  - cbn. by case_decide.
  - apply andb_true_iff in Hx as [H1 H2]. by rewrite IHx1, IHx2.
  - apply andb_true_iff in Hx as [H1 H2]. by rewrite IHx1, IHx2.
Qed.

Lemma substitute_eval s x X phi : plain x -> supported x = true ->
  eval s (substitute x X phi) = eval (set_value (propositional_variable_instantiation X []) (eval s phi) s) x.
Proof.
  intros Hpl Hx. unfold substitute. induction x; cbn [supported replace_propositional_variables eval] in *; try done.
  - destruct (Hpl _ ltac:(left)) as [nm Enm]. injection Enm as <- ->. cbn [propositional_variable_substitution].
    unfold set_value. destruct (decide (name = X)) as [->|Hn]; [by rewrite decide_True|].
    by rewrite decide_False by congruence.
  - apply andb_true_iff in Hx as [H1 H2]. rewrite IHx1, IHx2; auto; intros Y HY; apply Hpl, elem_of_app; auto.
  - apply andb_true_iff in Hx as [H1 H2]. rewrite IHx1, IHx2; auto; intros Y HY; apply Hpl, elem_of_app; auto.
Qed.

Lemma substitute_occurrences x X phi Y : plain x -> supported x = true -> Y ∈ occurrences (substitute x X phi) ->
  Y ∈ occurrences phi \/ (Y ∈ occurrences x /\ Y <> propositional_variable_instantiation X []).
Proof.
  intros Hpl Hx. unfold substitute. induction x; cbn [supported replace_propositional_variables occurrences] in *; try done.
  - by intros ?%elem_of_nil.
  - cbn [propositional_variable_substitution]. case_decide as E; [auto|]. intros HY. right. split; [done|].
    apply list_elem_of_singleton in HY as ->. congruence.
  - apply andb_true_iff in Hx as [H1 H2]. rewrite !elem_of_app.
    specialize (IHx1 ltac:(intros Z HZ; apply Hpl, elem_of_app; auto) H1).
    specialize (IHx2 ltac:(intros Z HZ; apply Hpl, elem_of_app; auto) H2). naive_solver.
  - apply andb_true_iff in Hx as [H1 H2]. rewrite !elem_of_app.
    specialize (IHx1 ltac:(intros Z HZ; apply Hpl, elem_of_app; auto) H1).
    specialize (IHx2 ltac:(intros Z HZ; apply Hpl, elem_of_app; auto) H2). naive_solver.
Qed.

(** ** Eliminating the last equation *)

Section Elimination.
Context (r : pbes_expression -> pbes_expression) `{!BesRewriter r}.

Definition good_formulas eqns : Prop := forall e, e ∈ eqns -> supported (eq_formula e) = true /\ plain (eq_formula e).

Lemma solver_spec e : supported (eq_formula e) = true -> plain (eq_formula e) ->
  let e' := pbes_equation_solver r e in
  eq_symbol e' = eq_symbol e /\ eq_name e' = eq_name e /\ supported (eq_formula e') = true /\
  (forall Y, Y ∈ occurrences (eq_formula e') -> Y ∈ occurrences (eq_formula e) /\ Y <> eq_variable e) /\
  ((forall Y, Y ∈ occurrences (eq_formula e) -> Y = eq_variable e) ->
     is_true (eq_formula e') = true \/ is_false (eq_formula e') = true) /\
  forall s, eval s (eq_formula e') = eval (set_value (eq_variable e) (is_nu (eq_symbol e)) s) (eq_formula e).
Proof.
  intros Hs Hp e'. subst e'. cbn [pbes_equation_solver with_formula eq_symbol eq_name eq_formula].
  assert (Hst : supported (fixpoint_start e) = true) by (unfold fixpoint_start; by destruct (is_nu _)).
  pose proof (substitute_supported (eq_formula e) (eq_name e) _ Hs Hst) as Hsub.
  assert (Ho : forall Y, Y ∈ occurrences (substitute (eq_formula e) (eq_name e) (fixpoint_start e)) ->
    Y ∈ occurrences (eq_formula e) /\ Y <> eq_variable e).
  { intros Y HY. apply substitute_occurrences in HY as [HY|HY]; [|done|done|done].
    unfold fixpoint_start in HY. destruct (is_nu _); by apply elem_of_nil in HY. }
  assert (Hpl : plain (substitute (eq_formula e) (eq_name e) (fixpoint_start e))) by (intros Y HY; by apply Hp, Ho).
  split; [done|]. split; [done|]. split; [by apply rewrite_supported|]. split; [|split].
  - intros Y HY. apply Ho. by apply rewrite_occurrences.
  - intros Hv. apply rewrite_constant; [done|]. destruct (occurrences (substitute _ _ _)) as [|Y l]; [done|].
    destruct (Ho Y ltac:(left)) as [HY Hne]. by destruct Hne; apply Hv.
  - intros s. rewrite rewrite_eval, substitute_eval by done. f_equal. f_equal. unfold fixpoint_start. by destruct (is_nu _).
Qed.

(** The equations before an equation, with its solution filled in. *)
Definition eliminate e' eqns : list pbes_equation :=
  (fun ej => with_formula (substitute (eq_formula ej) (eq_name e') (eq_formula e')) ej) <$> eqns.

Lemma eliminate_variables e' eqns : eq_variable <$> eliminate e' eqns = eq_variable <$> eqns.
Proof. unfold eliminate. by rewrite <- list_fmap_compose. Qed.

Lemma eliminate_solution eqns e eta Y : good_formulas eqns -> supported (eq_formula e) = true -> plain (eq_formula e) ->
  Y <> eq_variable e ->
  bes_solution (eqns ++ [e]) eta Y = bes_solution (eliminate (pbes_equation_solver r e) eqns) eta Y.
Proof.
  intros Hg Hs Hp. destruct (solver_spec e Hs Hp) as (_ & En & _ & Hocc & _ & Hev).
  set (e' := pbes_equation_solver r e) in *. revert eta Y.
  induction eqns as [|p eqns IH]; intros eta Y HY; cbn [app bes_solution].
  { change (set_value (eq_variable e) (eval (set_value (eq_variable e) (is_nu (eq_symbol e)) eta) (eq_formula e)) eta Y = eta Y).
    unfold set_value at 1. by rewrite decide_False. }
  unfold eliminate. rewrite fmap_cons. cbn [bes_solution]. fold (eliminate e' eqns).
  destruct (Hg p ltac:(left)) as [Hps Hpp]. assert (Hg' : good_formulas eqns) by (intros p' Hp'; apply Hg; by right).
  change (eq_variable (with_formula (substitute (eq_formula p) (eq_name e') (eq_formula e')) p)) with (eq_variable p).
  cbn [with_formula eq_symbol eq_formula]. set (eta1 := set_value (eq_variable p) (is_nu (eq_symbol p)) eta).
  assert (Eb : eval (bes_solution (eqns ++ [e]) eta1) (eq_formula p) =
    eval (bes_solution (eliminate e' eqns) eta1) (substitute (eq_formula p) (eq_name e') (eq_formula e'))).
  { rewrite substitute_eval by done. rewrite En. change (propositional_variable_instantiation (eq_name e) []) with (eq_variable e).
    apply eval_occurrences. intros Z _. unfold set_value at 1. case_decide as EZ; [subst Z|by apply IH].
    rewrite (eval_occurrences _ (bes_solution (eqns ++ [e]) eta1) (eq_formula e')).
    2:{ intros Z HZ. symmetry. apply IH; [done|]. by apply Hocc. }
    rewrite Hev. destruct (bes_solution_app eqns [e] eta1) as [eta2 ->]. cbn [bes_solution].
    unfold set_value at 1. rewrite decide_True by done. apply eval_occurrences. intros Z _.
    unfold set_value. by repeat case_decide. }
  rewrite Eb. by apply IH.
Qed.

(** ** The loop *)

(** The equations that are left are closed. *)
Record open_system eqns : Prop := {
  os_formulas : forall e, e ∈ eqns -> supported (eq_formula e) = true;
  os_closed : forall e Y, e ∈ eqns -> Y ∈ occurrences (eq_formula e) -> Y ∈ eq_variable <$> eqns;
  os_distinct : NoDup (eq_variable <$> eqns)
}.

Lemma open_good eqns : open_system eqns -> good_formulas eqns.
Proof.
  intros [H1 H2 _] e He. split; [by apply H1|]. intros Y HY.
  apply (H2 e Y He) in HY as (e' & -> & _)%list_elem_of_fmap. by eexists.
Qed.

Lemma open_eliminate eqns e : open_system (eqns ++ [e]) -> open_system (eliminate (pbes_equation_solver r e) eqns).
Proof.
  intros Ho. pose proof (open_good _ Ho) as Hg. destruct Ho as [H1 H2 H3].
  destruct (Hg e ltac:(apply elem_of_app; right; left)) as [Hs Hp].
  destruct (solver_spec e Hs Hp) as (_ & En & Hs' & Hocc & _ & _). set (e' := pbes_equation_solver r e) in *.
  rewrite fmap_app in H2, H3. apply NoDup_app in H3 as (H3 & H4 & _).
  assert (Hin : forall Y, Y ∈ (eq_variable <$> eqns) ++ (eq_variable <$> [e]) -> Y <> eq_variable e -> Y ∈ eq_variable <$> eqns).
  { intros Y [HY|HY]%elem_of_app; [done|]. change (Y ∈ [eq_variable e]) in HY. by apply list_elem_of_singleton in HY. }
  split.
  - intros p (q & -> & Hq)%list_elem_of_fmap. cbn. apply substitute_supported; [|done]. apply H1, elem_of_app. by left.
  - intros p Y (q & -> & Hq)%list_elem_of_fmap HY. rewrite eliminate_variables. cbn in HY.
    assert (Hqin : q ∈ eqns ++ [e]) by (apply elem_of_app; by left). destruct (Hg q Hqin) as [Hqs Hqp].
    apply substitute_occurrences in HY as [HY|[HY HYe]]; auto.
    + apply Hocc in HY as [HY HYe]. apply Hin; [|done]. apply (H2 e); [apply elem_of_app; right; left|done].
    + apply Hin; [|done]. by apply (H2 q).
  - by rewrite eliminate_variables.
Qed.

Lemma gauss_loop_spec eqns rest e0 eta : open_system eqns -> head eqns = Some e0 ->
  exists e1 l, gauss_loop (pbes_equation_solver r) (length eqns) (eqns ++ rest) = e1 :: l /\
    supported (eq_formula e1) = true /\ (is_true (eq_formula e1) = true \/ is_false (eq_formula e1) = true) /\
    eval eta (eq_formula e1) = bes_solution eqns eta (eq_variable e0).
Proof.
  remember (length eqns) as n eqn:En. revert eqns rest En e0. induction n as [|n IH]; intros eqns rest En e0 Ho Hh.
  { by destruct eqns. }
  destruct (exists_last (l := eqns)) as (init & e & ->); [by intros ->|].
  rewrite length_app in En. cbn in En. assert (Hn : n = length init) by lia.
  cbn [gauss_loop]. rewrite <- app_assoc. cbn [app].
  rewrite list_lookup_middle by done. rewrite take_app_length' by done.
  replace (drop (S n) (init ++ e :: rest)) with rest
    by (rewrite cons_middle, app_assoc, drop_app_length'; [done|rewrite length_app; cbn; lia]).
  fold (eliminate (pbes_equation_solver r e) init). set (e' := pbes_equation_solver r e).
  destruct (open_good _ Ho e ltac:(apply elem_of_app; right; left)) as [Hs Hp].
  destruct (solver_spec e Hs Hp) as (_ & Ename & Hs' & Hocc & Hconst & Hev).
  destruct init as [|p init].
  - cbn in Hn. subst n. cbn [gauss_loop eliminate app]. cbn in Hh. injection Hh as <-. eexists _, _. split; [done|].
    split; [done|]. split.
    + apply Hconst. intros Y HY. pose proof (os_closed _ Ho e Y ltac:(left) HY) as Hv.
      change (Y ∈ [eq_variable e]) in Hv. by apply list_elem_of_singleton in Hv.
    + rewrite Hev. cbn [app bes_solution]. unfold set_value at 2. by rewrite decide_True.
  - destruct (IH (eliminate e' (p :: init)) (e' :: rest)
      ltac:(unfold eliminate; rewrite length_fmap; done) (with_formula (substitute (eq_formula p) (eq_name e') (eq_formula e')) p))
      as (e1 & l & E1 & R1 & R2 & R3); [by apply open_eliminate|done|].
    exists e1, l. split; [done|]. split; [done|]. split; [done|]. rewrite R3.
    cbn in Hh. injection Hh as <-.
    rewrite eliminate_solution; [done| |done|done|].
    + intros q Hq. apply (open_good _ Ho). apply elem_of_app. by left.
    + pose proof (os_distinct _ Ho) as Hnd. rewrite fmap_app in Hnd. apply NoDup_app in Hnd as (_ & Hnd & _).
      intros Ev. apply (Hnd (eq_variable p)); [left|]. rewrite Ev. left.
Qed.
End Elimination.

(** ** The simplifying rewriter *)

Lemma supported_data d : supported (pbes_data d : pbes_expression) = true ->
  is_true (pbes_data d : pbes_expression) = true \/ is_false (pbes_data d : pbes_expression) = true.
Proof. cbn [supported]. by rewrite orb_true_iff. Qed.

Lemma is_true_eval x s : is_true x = true -> eval s x = true.
Proof. destruct x as [[]| | | | | | |]; done. Qed.

Lemma is_false_eval x s : is_false x = true -> eval s x = false.
Proof. destruct x as [[]| | | | | | |]; done. Qed.

Lemma combine_spec (l r' : pbes_expression) : supported l = true ->
  is_true l = false -> is_false l = false -> combine_and l r' = pbes_and l r' /\ combine_or l r' = pbes_or l r'.
Proof.
  intros Hl E1 E2. destruct l as [d| | | | | | |]; try done. apply supported_data in Hl as [Hl|Hl]; congruence.
Qed.

(** What simplification gives for a right-hand side. *)
Record simplified_to x y : Prop := {
  st_supported : supported y = true;
  st_eval : forall s, eval s y = eval s x;
  st_occurrences : forall Y, Y ∈ occurrences y -> Y ∈ occurrences x;
  st_constant : occurrences x = [] -> is_true y = true \/ is_false y = true
}.

(** Conjunction and disjunction: [absorbing] is false and true. *)
Lemma simplify_binary (absorbing : bool) (f : bool -> bool -> bool) (k : pbes_expression -> pbes_expression -> pbes_expression)
    p q l r' :
  let is_a := if absorbing then is_true else is_false in
  let is_u := if absorbing then is_false else is_true in
  (forall b, f absorbing b = absorbing) -> (forall b, f b absorbing = absorbing) ->
  (forall b, f (negb absorbing) b = b) -> (forall b, f b (negb absorbing) = b) -> (forall b, f b b = b) ->
  (forall s y z, eval s (k y z) = f (eval s y) (eval s z)) ->
  (forall y z, occurrences (k y z) = occurrences y ++ occurrences z) ->
  (forall y z, supported (k y z) = supported y && supported z) ->
  simplified_to p l -> simplified_to q r' ->
  simplified_to (k p q)
    (if is_a l then (if absorbing then true_ else false_) else if is_u l then r'
     else if is_a r' then (if absorbing then true_ else false_)
     else if is_u r' || bool_decide (l = r') then l else k l r').
Proof.
  intros is_a is_u F1 F2 F3 F4 F5 Hev Hocc Hsup [P1 P2 P3 P4] [Q1 Q2 Q3 Q4].
  assert (Ha : forall y s, is_a y = true -> eval s y = absorbing).
  { intros y s. unfold is_a. destruct absorbing; [apply is_true_eval|apply is_false_eval]. }
  assert (Hu : forall y s, is_u y = true -> eval s y = negb absorbing).
  { intros y s. unfold is_u. destruct absorbing; [apply is_false_eval|apply is_true_eval]. }
  assert (Hau : forall y : pbes_expression, is_true y = true \/ is_false y = true -> is_a y = true \/ is_u y = true).
  { intros y. unfold is_a, is_u. destruct absorbing; tauto. }
  assert (Hconst : simplified_to (k p q) (if absorbing then true_ else false_) \/ ~ forall s, eval s (k p q) = absorbing).
  { destruct (Classical_Prop.classic (forall s, eval s (k p q) = absorbing)) as [Hc|Hc]; [left|by right].
    destruct absorbing; (split; [done|intros s; by rewrite Hc|intros Y HY; by apply elem_of_nil in HY|cbn; auto]). }
  destruct (is_a l) eqn:El; [|destruct (is_u l) eqn:Elu; [|destruct (is_a r') eqn:Er; [|destruct (is_u r' || bool_decide (l = r')) eqn:Eu]]].
  - destruct Hconst as [?|Hn]; [done|]. exfalso. apply Hn. intros s. by rewrite Hev, <- P2, (Ha l), F1.
  - split; [done|intros s; by rewrite Hev, <- P2, (Hu l), F3, Q2|intros Y HY; rewrite Hocc; apply elem_of_app; auto|].
    rewrite Hocc. intros [_ Eq]%app_nil. auto.
  - destruct Hconst as [?|Hn]; [done|]. exfalso. apply Hn. intros s. by rewrite Hev, <- Q2, (Ha r'), F2.
  - split; [done| |intros Y HY; rewrite Hocc; apply elem_of_app; auto|rewrite Hocc; intros [Ep _]%app_nil; auto].
    intros s. rewrite Hev, <- P2, <- Q2. apply orb_true_iff in Eu as [Eu|Eu%bool_decide_eq_true]; [by rewrite (Hu r'), F4|by rewrite <- Eu, F5].
  - split; [by rewrite Hsup, P1, Q1|intros s; by rewrite !Hev, P2, Q2| |].
    + intros Y. rewrite !Hocc, !elem_of_app. naive_solver.
    + rewrite Hocc. intros [Ep _]%app_nil. destruct (Hau l (P4 Ep)); congruence.
Qed.

Lemma simplify_spec x : supported x = true -> simplified_to x (simplify_builder x).
Proof.
  unfold simplify_builder. induction x as [d|name ps|p IHp|p IHp q IHq|p IHp q IHq|p IHp q IHq|vs p IHp|vs p IHp];
    intros Hx; cbn [supported simplify] in *; try done.
  - split; auto. by apply orb_true_iff in Hx.
  - apply andb_true_iff in Hx as [H1 H2].
    pose proof (simplify_binary false andb pbes_and p q _ _ andb_false_l andb_false_r andb_true_l andb_true_r
      andb_diag ltac:(done) ltac:(done) ltac:(done) (IHp H1) (IHq H2)) as H. cbn beta iota zeta in H.
    destruct (IHp H1) as [P1 _ _ _]. set (l := simplify _ _ p) in *. set (r' := simplify _ _ q) in *.
    destruct (is_false l) eqn:E1; [done|]. destruct (is_true l) eqn:E2; [done|].
    by rewrite (proj1 (combine_spec l r' P1 E2 E1)).
  - apply andb_true_iff in Hx as [H1 H2].
    pose proof (simplify_binary true orb pbes_or p q _ _ orb_true_l orb_true_r orb_false_l orb_false_r
      orb_diag ltac:(done) ltac:(done) ltac:(done) (IHp H1) (IHq H2)) as H. cbn beta iota zeta in H.
    destruct (IHp H1) as [P1 _ _ _]. set (l := simplify _ _ p) in *. set (r' := simplify _ _ q) in *.
    destruct (is_true l) eqn:E1; [done|]. destruct (is_false l) eqn:E2; [done|].
    by rewrite (proj2 (combine_spec l r' P1 E1 E2)).
Qed.

#[export] Instance simplify_rewriter_bes : BesRewriter simplify_builder.
Proof.
  split; intros.
  - by apply simplify_spec.
  - by apply simplify_spec.
  - by eapply st_occurrences; [apply simplify_spec|].
  - by eapply st_constant; [apply simplify_spec|].
Qed.

(** ** [approximate] *)

Lemma approximate_spec (m_compare : pbes_expression -> pbes_expression -> bool) e :
  supported (eq_formula e) = true -> plain (eq_formula e) ->
  (forall x y, supported x = true -> supported y = true -> m_compare x y = true <-> forall s, eval s x = eval s y) ->
  exists e', approximate m_compare 2 e = Some e' /\ eq_name e' = eq_name e /\ eq_symbol e' = eq_symbol e /\
    forall s, eval s (eq_formula e') = eval (set_value (eq_variable e) (is_nu (eq_symbol e)) s) (eq_formula e).
Proof.
  intros Hs Hp Hc. unfold approximate. cbn [approximate_loop].
  set (phi := eq_formula e) in *. set (x0 := fixpoint_start e). set (x1 := substitute phi (eq_name e) x0).
  assert (H0 : supported x0 = true) by (unfold x0, fixpoint_start; by destruct (is_nu _)).
  assert (E0 : forall s, eval s x0 = is_nu (eq_symbol e)) by (intros s; unfold x0, fixpoint_start; by destruct (is_nu _)).
  assert (H1 : supported x1 = true) by (by apply substitute_supported).
  assert (E1 : forall s, eval s x1 = eval (set_value (eq_variable e) (is_nu (eq_symbol e)) s) phi).
  { intros s. unfold x1. by rewrite substitute_eval, E0. }
  assert (Hstable : m_compare x1 (substitute phi (eq_name e) x1) = true).
  { apply Hc; [done|by apply substitute_supported|]. intros s. rewrite substitute_eval, !E1 by done.
    change (propositional_variable_instantiation (eq_name e) []) with (eq_variable e).
    assert (Hm : eval (set_value (eq_variable e) false s) phi = true -> eval (set_value (eq_variable e) true s) phi = true).
    { apply eval_mono; [done|]. apply set_value_mono; [done|]. by intros Y HY. }
    destruct (is_nu (eq_symbol e)).
    - destruct (eval (set_value (eq_variable e) true s) phi) eqn:Et; [done|].
      destruct (eval (set_value (eq_variable e) false s) phi); [by specialize (Hm eq_refl)|done].
    - destruct (eval (set_value (eq_variable e) false s) phi) eqn:Ef; [symmetry; by apply Hm|done]. }
  destruct (m_compare x0 x1) eqn:E01.
  - eexists. split; [done|]. split; [done|]. split; [done|]. intros s. cbn [with_formula eq_formula]. rewrite <- E1.
    by apply Hc.
  - rewrite Hstable. eexists. split; [done|]. split; [done|]. split; [done|]. intros s. apply E1.
Qed.

End Code.
