(* ===== verification/BesSolveTheorems.v ===== *)
(** * Solving boolean equation systems: the theorems

    Both solvers of the tool [bessolve] compute the solution of the equation
    system, which [BesSolution.v] defines as nested fixed points. *)

From Stdlib Require Import Lia ZArith String.
From stdpp Require Import base strings numbers sets list.
From S2P Require Import Prelude Terms DataExpressions PbesExpressions PbesRewriters GraphBuilder GraphBuilderCorrect GraphBuilderTheorems Instantiation SmallProgress BesSolution SmallProgressInit SmallProgressCorrect PostfixGenerator StandardForm StandardFormCorrect GaussElimination.

Section Theorems.
Context {variable symbol : Type} `{EqDecision variable} `{EqDecision symbol}.
Abbreviation pbes_expression := (PbesExpressions.pbes_expression variable symbol).
Abbreviation pbes_equation := (SmallProgress.pbes_equation variable symbol).
Implicit Types (eqns : list pbes_equation).

(** C16: for every closed boolean equation system without negations, whose
    variables have one equation each and are not called [True] or [False], whose
    names do not end in a number of 2^31 or more, and with fewer than 2^31
    operators and operands, the progress measures algorithm ends, and its result
    is the value of the variable of the first equation in the solution of the
    system, in whatever order the terms are visited. *)
Theorem small_progress_measures_correct term_less eqns e0 :
  closed_system eqns -> usable_names eqns -> head eqns = Some e0 -> (Z.of_nat (total_size eqns + 2) < 2 ^ 31)%Z ->
  exists rounds, forall fuel eta, rounds <= fuel ->
    small_progress_measures term_less fuel eqns = Returns (Some (bes_solution eqns eta (eq_variable e0))).
Proof.
  intros Hc Hu Hh Hn. destruct (make_standard_form_spec eqns Hc Hu) as (eqns' & E & Hs & Hlen & Hv & Hsol).
  exists (Z.to_nat (Z.of_nat (length eqns') * (Z.of_nat (length eqns') + 1) ^ Z.of_nat (maximum_rank eqns' + 1) + 1)).
  intros fuel eta Hf. destruct eqns as [|e eqns]; [done|]. cbn in Hh. injection Hh as ->.
  unfold small_progress_measures. rewrite E. cbn [outcome_bind].
  destruct (Hv e0 ltac:(left)) as (e' & He' & Ev). rewrite <- (Hsol eta e0), <- Ev by left.
  rewrite (spm_run_solution term_less eqns' Hs ltac:(lia) fuel e' eta); [done| |done].
  unfold enough_rounds. lia.
Qed.

(** C18: for every closed system without negations whose variables have one
    equation each, are not called [True] or [False] and do not end in a number
    of 2^31 or more, the standard recursive form exists, every right-hand side of
    it is a conjunction or a disjunction of variables that have an equation, it
    has at most two equations more than the system has operators and operands,
    and it gives the variables of the system the values that they had. *)
Theorem make_standard_form_correct eqns :
  closed_system eqns -> usable_names eqns ->
  exists eqns', make_standard_form true eqns = Returns eqns' /\ standard_recursive_form eqns' /\
    length eqns' <= total_size eqns + 2 /\
    forall eta e, e ∈ eqns -> bes_solution eqns' eta (eq_variable e) = bes_solution eqns eta (eq_variable e).
Proof.
  intros Hc Hu. destruct (make_standard_form_spec eqns Hc Hu) as (eqns' & ? & ? & ? & _ & ?). eauto 6.
Qed.

(** C17: Gauss elimination returns 1 if the variable of the first equation is
    true in the solution of the system, and 0 if it is false; never 2 for
    unknown.  The rewriter must keep the value of formulas, not introduce
    variables, and reduce formulas without variables to a constant. *)
Theorem gauss_elimination_correct (r : pbes_expression -> pbes_expression) `{!BesRewriter r} eqns e0 eta :
  open_system eqns -> head eqns = Some e0 ->
  gauss_elimination r eqns = Some (if bes_solution eqns eta (eq_variable e0) then 1 else 0)%Z.
Proof.
  intros Ho Hh. destruct (gauss_loop_spec r eqns [] e0 eta Ho Hh) as (e1 & l & E & Hs & Hc & Hev).
  rewrite app_nil_r in E. unfold gauss_elimination, gauss_run. rewrite E. f_equal. rewrite <- Hev.
  destruct (is_false (eq_formula e1)) eqn:Ef; [by rewrite is_false_eval|].
  destruct Hc as [Ht|Ht]; [|congruence]. by rewrite Ht, is_true_eval.
Qed.

(** C19: the variable for a constant is called [True] or [False], and the name is
    chosen before the names of the system are known.  For every system without
    negations that mentions the constant and has a variable of that name, the standard form has
    two equations for the variable - the one of the system and, later, the one for
    the constant - and in its solution the variable has the value of the
    constant, whatever its equation says: where the system gives it the other
    value, the value is not kept. *)
Theorem make_standard_form_name_clash b eqns e :
  all_supported eqns -> e ∈ eqns -> eq_name e = constant_name b ->
  existsb (fun e => mentions b (eq_formula e)) eqns = true ->
  exists eqns' i j phi, make_standard_form true eqns = Returns eqns' /\ i < j /\
    eqns' !! i = Some (mk_equation (eq_symbol e) (constant_name b) phi) /\
    eqns' !! j = Some (constant_equation b) /\
    forall eta, bes_solution eqns' eta (eq_variable e) = b /\
      (bes_solution eqns eta (eq_variable e) = negb b ->
       bes_solution eqns' eta (eq_variable e) <> bes_solution eqns eta (eq_variable e)).
Proof.
  intros Hs He Hn Hm. destruct (name_clash_spec b eqns e Hs He Hn Hm) as (eqns' & i & j & phi & E & Hij & Hi & Hj & Hsol).
  exists eqns', i, j, phi. do 4 (split; [done|]). intros eta. split; [by apply Hsol|].
  intros Hb. rewrite Hsol, Hb. by destruct b.
Qed.

End Theorems.

(** ** Witnesses *)

Definition bes_var (name : string) : PbesExpressions.pbes_expression nat nat := propositional_variable_instantiation name [].

(** [nu X = (X || Y) && X, mu Y = Y || (true && X)] *)
Definition example_bes : list (SmallProgress.pbes_equation nat nat) :=
  [mk_equation Nu "X" (pbes_and (pbes_or (bes_var "X") (bes_var "Y")) (bes_var "X"));
   mk_equation Mu "Y" (pbes_or (bes_var "Y") (pbes_and true_ (bes_var "X")))]%string.

Lemma example_open : open_system example_bes.
Proof.
  split.
  - apply Forall_forall. repeat constructor.
  - assert (H : Forall (fun e => Forall (fun Y => Y ∈ eq_variable <$> example_bes) (occurrences (eq_formula e))) example_bes).
    { apply (bool_decide_unpack _). vm_compute. exact I. }
    rewrite Forall_forall in H. intros e Y He. specialize (H e He). rewrite Forall_forall in H. apply H.
  - apply (bool_decide_unpack _). vm_compute. exact I.
Qed.

Lemma example_closed : closed_system example_bes.
Proof. destruct example_open as [H1 H2 H3]. by split. Qed.

Lemma example_names : usable_names example_bes.
Proof. unfold usable_names. apply Forall_forall. repeat constructor; cbn; done. Qed.

Lemma small_progress_measures_correct_witness :
  exists rounds, forall fuel eta, rounds <= fuel ->
    small_progress_measures (fun _ _ => false) fuel example_bes =
    Returns (Some (bes_solution example_bes eta (bes_var "X"))).
Proof. apply (small_progress_measures_correct (fun _ _ => false) example_bes _ example_closed example_names eq_refl). vm_compute. done. Defined.

Lemma make_standard_form_correct_witness :
  exists eqns', make_standard_form true example_bes = Returns eqns' /\ standard_recursive_form eqns' /\
    length eqns' <= 12 /\
    forall eta e, e ∈ example_bes -> bes_solution eqns' eta (eq_variable e) = bes_solution example_bes eta (eq_variable e).
Proof. exact (make_standard_form_correct example_bes example_closed example_names). Defined.

Lemma gauss_elimination_correct_witness :
  gauss_elimination simplify_builder example_bes = Some 1%Z.
Proof.
  rewrite (gauss_elimination_correct simplify_builder example_bes _ (fun _ => false) example_open eq_refl).
  vm_compute. reflexivity.
Defined.

(** ** A clash of names *)

(** [mu True = True, nu X = true] *)
Definition clash_bes : list (SmallProgress.pbes_equation nat nat) :=
  [mk_equation Mu "True" (bes_var "True"); mk_equation Nu "X" true_]%string.

(** [True] is false in the system and true in its standard form; the progress
    measures algorithm returns [true], Gauss elimination 0. *)
Lemma make_standard_form_name_clash_witness :
  (exists eqns', make_standard_form true clash_bes = Returns eqns' /\
     forall eta, bes_solution eqns' eta (bes_var "True") <> bes_solution clash_bes eta (bes_var "True")) /\
  small_progress_measures (fun _ _ => false) 20 clash_bes = Returns (Some true) /\
  gauss_elimination simplify_builder clash_bes = Some 0%Z.
Proof.
  split; [|by split; vm_compute].
  destruct (make_standard_form_name_clash true clash_bes (mk_equation Mu "True" (bes_var "True"))%string)
    as (eqns' & i & j & phi & E & _ & _ & _ & H); [|left|done|done|].
  - intros e He. repeat (apply elem_of_cons in He as [->|He]; [done|]). by apply elem_of_nil in He.
  - exists eqns'. split; [done|]. intros eta. by apply H.
Defined.
