(* ===== verification/SharedMutex.v ===== *)
(** * The busy-forbidden readers-writer lock
    ([shared_mutex.h] of [libraries/utilities])

    Every thread owns one [shared_mutex] object; all objects of a group share a
    list [other] and a [std::mutex].  The model is a transition system: a step
    is one access to shared memory by one thread, in any interleaving, with
    sequentially consistent atomics.  [exec] executes one such step; the program
    counter [pc] names the statement that comes next.  The theorems: the lock
    refines an abstract readers-writer lock, all assertions hold, and from every
    reachable state all calls in progress can be completed. *)

From Stdlib Require Import Lia.
From stdpp Require Import base numbers sets list functions relations gmap.
From S2P Require Import Prelude.

Module SharedMutex.

(** ** State *)

(** The statement a thread executes next.  [idle] is between calls, [exclusive]
    between [lock] and [unlock]; the numbered ones are inside a loop over
    [other]. *)
Inductive pc : Type :=
| unregistered                                        (* no object *)
| reg_lock | reg_add | reg_unlock                     (* [register_mutex] *)
| unreg_lock | unreg_erase | unreg_unlock             (* [unregister_mutex] *)
| idle
| lock_mutex                                          (* [lock] *)
| set_forbidden (k : nat) | wait_for_busy (k : nat)   (* [set_forbidden_flags] *)
| exclusive
| clear_forbidden (k : nat) | unlock_mutex            (* [unlock] *)
| ls_store | ls_load | ls_reset | ls_wait | ls_release | ls_retry | ls_enter
                                                      (* [lock_shared] *)
| tls_store | tls_load | tls_reset                    (* [try_lock_shared] *)
| us_decrement | us_store.                            (* [unlock_shared] *)

#[export] Instance pc_eq_dec : EqDecision pc.
Proof. solve_decision. Defined.

Inductive call : Type :=
| c_construct | c_destroy | c_lock | c_try_lock | c_unlock
| c_lock_shared | c_try_lock_shared | c_unlock_shared.

(** The attributes of the objects, by thread, and the shared data: the owner of
    the [std::mutex] and the registered objects. *)
Record state : Type := mk_state {
  owner : option nat;
  other : list nat;
  m_busy_flag : nat -> bool;
  m_forbidden_flag : nat -> bool;
  m_lock_depth : nat -> nat;
  at_ : nat -> pc
}.

Definition initial : state :=
  mk_state None [] (fun _ => false) (fun _ => false) (fun _ => 0) (fun _ => unregistered).

(** ** Elementary operations of thread [t] *)

Definition goto (t : nat) (p : pc) (s : state) : state :=
  mk_state (owner s) (other s) (m_busy_flag s) (m_forbidden_flag s) (m_lock_depth s)
    (<[t := p]> (at_ s)).

Definition store_busy (t : nat) (b : bool) (s : state) : state :=
  mk_state (owner s) (other s) (<[t := b]> (m_busy_flag s)) (m_forbidden_flag s)
    (m_lock_depth s) (at_ s).

(** [set_forbidden] of object [u] *)
Definition store_forbidden (u : nat) (b : bool) (s : state) : state :=
  mk_state (owner s) (other s) (m_busy_flag s) (<[u := b]> (m_forbidden_flag s))
    (m_lock_depth s) (at_ s).

Definition set_depth (t d : nat) (s : state) : state :=
  mk_state (owner s) (other s) (m_busy_flag s) (m_forbidden_flag s)
    (<[t := d]> (m_lock_depth s)) (at_ s).

Definition set_owner (o : option nat) (s : state) : state :=
  mk_state o (other s) (m_busy_flag s) (m_forbidden_flag s) (m_lock_depth s) (at_ s).

Definition set_other (l : list nat) (s : state) : state :=
  mk_state (owner s) l (m_busy_flag s) (m_forbidden_flag s) (m_lock_depth s) (at_ s).

(** [mutex.lock()] blocks while the mutex is owned. *)
Definition acquire (t : nat) (p : pc) (s : state) : option state :=
  match owner s with
  | Some _ => None
  | None => Some (goto t p (set_owner (Some t) s))
  end.

Definition release (t : nat) (p : pc) (s : state) : option state :=
  Some (goto t p (set_owner None s)).

(** [std::find] and [erase]: the first occurrence is removed. *)
Fixpoint erase (t : nat) (l : list nat) : list nat :=
  match l with
  | [] => []
  | u :: l => if u =? t then l else u :: erase t l
  end.

(** ** Calls *)

(** A call by a thread that is not inside another one, with the documented
    preconditions; [None] where they do not hold. *)
Definition start (t : nat) (c : call) (s : state) : option state :=
  match at_ s t, c with
  | unregistered, c_construct => Some (goto t reg_lock s)
  | idle, c_destroy => if m_lock_depth s t =? 0 then Some (goto t unreg_lock s) else None
  | idle, c_lock => if m_lock_depth s t =? 0 then Some (goto t lock_mutex s) else None
  | idle, c_try_lock =>
      if m_lock_depth s t =? 0
      then match owner s with
           | Some _ => Some s
           | None => acquire t (set_forbidden 0) s
           end
      else None
  | exclusive, c_unlock => Some (goto t (clear_forbidden 0) s)
  | idle, c_lock_shared => Some (goto t (if m_lock_depth s t =? 0 then ls_store else ls_enter) s)
  | idle, c_try_lock_shared =>
      Some (goto t (if m_lock_depth s t =? 0 then tls_store else ls_enter) s)
  | idle, c_unlock_shared =>
      if m_lock_depth s t =? 0 then None else Some (goto t us_decrement s)
  | _, _ => None
  end.

(** The next statement of a thread that is inside a call. *)
Definition continue (t : nat) (s : state) : option state :=
  match at_ s t with
  | unregistered | idle | exclusive => None
  (* register_mutex *)
  | reg_lock => acquire t reg_add s
  | reg_add => Some (goto t reg_unlock (set_other (other s ++ [t]) s))
  | reg_unlock => release t idle s
  (* unregister_mutex *)
  | unreg_lock => acquire t unreg_erase s
  | unreg_erase => Some (goto t unreg_unlock (set_other (erase t (other s)) s))
  | unreg_unlock => release t unregistered s
  (* lock *)
  | lock_mutex => acquire t (set_forbidden 0) s
  (* set_forbidden_flags *)
  | set_forbidden k =>
      match other s !! k with
      | None => Some (goto t (wait_for_busy 0) s)
      | Some u =>
          Some (goto t (set_forbidden (S k)) (if u =? t then s else store_forbidden u true s))
      end
  | wait_for_busy k =>
      match other s !! k with
      | None => Some (goto t exclusive s)
      | Some u =>
          if (u =? t) || negb (m_busy_flag s u) then Some (goto t (wait_for_busy (S k)) s)
          else Some s
      end
  (* unlock *)
  | clear_forbidden k =>
      match other s !! k with
      | None => Some (goto t unlock_mutex s)
      | Some u => Some (goto t (clear_forbidden (S k)) (store_forbidden u false s))
      end
  | unlock_mutex => release t idle s
  (* lock_shared *)
  | ls_store => Some (goto t ls_load (store_busy t true s))
  | ls_load => Some (goto t (if m_forbidden_flag s t then ls_reset else ls_enter) s)
  | ls_reset => Some (goto t ls_wait (store_busy t false s))
  | ls_wait => acquire t ls_release s
  | ls_release => release t ls_retry s
  | ls_retry => Some (goto t ls_load (store_busy t true s))
  | ls_enter => Some (goto t idle (set_depth t (S (m_lock_depth s t)) s))
  (* try_lock_shared *)
  | tls_store => Some (goto t tls_load (store_busy t true s))
  | tls_load => Some (goto t (if m_forbidden_flag s t then tls_reset else ls_enter) s)
  | tls_reset => Some (goto t idle (store_busy t false s))
  (* unlock_shared *)
  | us_decrement =>
      let d := pred (m_lock_depth s t) in
      Some (goto t (if d =? 0 then us_store else idle) (set_depth t d s))
  | us_store => Some (goto t idle (store_busy t false s))
  end.

(** One step of thread [t]: a call it makes, or its next statement. *)
Definition exec (t : nat) (c : option call) (s : state) : option state :=
  match c with
  | Some c => start t c s
  | None => continue t s
  end.

Definition step (s s' : state) : Prop := exists t c, exec t c s = Some s'.

Definition reachable (s : state) : Prop := rtc step initial s.


(** ** The invariant *)

Definition holds_mutex (p : pc) : bool :=
  match p with
  | reg_add | reg_unlock | unreg_erase | unreg_unlock | set_forbidden _ | wait_for_busy _
  | exclusive | clear_forbidden _ | unlock_mutex | ls_release => true
  | _ => false
  end.

Definition busy_at (p : pc) : bool :=
  match p with
  | ls_load | ls_reset | ls_enter | tls_load | tls_reset | us_store => true
  | _ => false
  end.

Definition registered_at (p : pc) : bool :=
  match p with
  | unregistered | reg_lock | reg_add | unreg_unlock => false
  | _ => true
  end.

(** Between calls and inside nested ones a shared lock may be held. *)
Definition may_hold_shared (p : pc) : bool :=
  match p with
  | idle | ls_enter | us_decrement => true
  | _ => false
  end.

(** The objects whose flag the thread at [p] has set and not yet cleared. *)
Definition forbids (p : pc) (l : list nat) : list nat :=
  match p with
  | set_forbidden k => take k l
  | wait_for_busy _ | exclusive => l
  | clear_forbidden k => drop k l
  | _ => []
  end.

(** The objects the thread at [p] has seen idle. *)
Definition excluded (p : pc) (l : list nat) : list nat :=
  match p with
  | wait_for_busy k => take k l
  | exclusive => l
  | _ => []
  end.

(** The thread has a shared lock, or has passed the check for it. *)
Definition inside (s : state) (t : nat) : Prop := 0 < m_lock_depth s t \/ at_ s t = ls_enter.

Record inv (s : state) : Prop := {
  inv_owner : forall t, owner s = Some t <-> holds_mutex (at_ s t) = true;
  inv_busy : forall t, m_busy_flag s t = busy_at (at_ s t) || (0 <? m_lock_depth s t);
  inv_depth : forall t, 0 < m_lock_depth s t -> may_hold_shared (at_ s t) = true;
  inv_decrement : forall t, at_ s t = us_decrement -> 0 < m_lock_depth s t;
  inv_other : forall t, t ∈ other s <-> registered_at (at_ s t) = true;
  inv_nodup : NoDup (other s);
  inv_forbidden : forall u, m_forbidden_flag s u = true <->
    exists t, u <> t /\ u ∈ forbids (at_ s t) (other s);
  inv_excluded : forall t u, u <> t -> u ∈ excluded (at_ s t) (other s) -> ~ inside s u
}.

Lemma initial_inv : inv initial.
Proof.
  split; cbn; try done; try (intros; lia).
  - intros t. rewrite elem_of_nil. split; done.
  - constructor.
  - intros u. split; [done|]. intros (t & _ & H). by apply elem_of_nil in H.
  - intros t u _ H. by apply elem_of_nil in H.
Qed.

(** Lookups in the updated functions. *)
Lemma insert_at {A} (f : nat -> A) t x u : (<[t := x]> f) u = if decide (u = t) then x else f u.
Proof.
  destruct (decide (u = t)) as [->|Hn]; [by rewrite fn_lookup_insert|].
  by rewrite fn_lookup_insert_ne by congruence.
Qed.

Lemma holder_unique s t u :
  inv s -> holds_mutex (at_ s t) = true -> holds_mutex (at_ s u) = true -> t = u.
Proof. intros Hs H1 H2. apply (inv_owner s Hs) in H1, H2. congruence. Qed.

Lemma forbids_holder p l u : u ∈ forbids p l -> holds_mutex p = true.
Proof. destruct p; cbn; try done; intros H; by apply elem_of_nil in H. Qed.

Lemma excluded_forbids p l u : u ∈ excluded p l -> u ∈ forbids p l.
Proof.
  destruct p; cbn; intros H; try done; try (by apply elem_of_nil in H).
  rewrite <- (take_drop k l). apply elem_of_app. by left.
Qed.

(** How the owner of the mutex changes when [t] goes to [p]. *)
Definition owner_change (s : state) (t : nat) (p : pc) (o : option nat) : Prop :=
  (o = owner s /\ holds_mutex p = holds_mutex (at_ s t)) \/
  (owner s = None /\ o = Some t /\ holds_mutex p = true) \/
  (owner s = Some t /\ o = None /\ holds_mutex p = false).

Lemma owner_change_inv s t p o v :
  inv s -> owner_change s t p o -> o = Some v <-> holds_mutex ((<[t := p]> (at_ s)) v) = true.
Proof.
  intros Hs Ho. pose proof (inv_owner s Hs) as I1. rewrite insert_at.
  destruct Ho as [[-> Ho]|[(Hn & -> & Ho)|(Hn & -> & Ho)]]; case_decide as E; subst; rewrite ?Ho;
    auto; try (split; congruence).
  - rewrite <- I1. split; congruence.
  - rewrite <- I1. split; congruence.
Qed.

(** [s'] differs from [s] in the attributes of [t] (now [b], [d] and [p]) and
    perhaps in the owner of the mutex. *)
Record own_change (s s' : state) (t : nat) (b : bool) (d : nat) (p : pc) : Prop := {
  own_other : other s' = other s;
  own_forbidden : forall v, m_forbidden_flag s' v = m_forbidden_flag s v;
  own_busy : forall v, m_busy_flag s' v = if decide (v = t) then b else m_busy_flag s v;
  own_depth : forall v, m_lock_depth s' v = if decide (v = t) then d else m_lock_depth s v;
  own_at : forall v, at_ s' v = if decide (v = t) then p else at_ s v;
  own_owner : owner_change s t p (owner s')
}.

(** Such a step outside the phases of [lock] and [unlock]. *)
Lemma local_step s s' t b d p :
  inv s -> own_change s s' t b d p -> registered_at p = registered_at (at_ s t) ->
  (forall l, forbids p l = forbids (at_ s t) l) -> (forall l u, u ∈ excluded p l -> u ∈ excluded (at_ s t) l) ->
  b = busy_at p || (0 <? d) -> (0 < d -> may_hold_shared p = true) ->
  (p = us_decrement -> 0 < d) ->
  (0 < d \/ p = ls_enter -> inside s t \/ m_forbidden_flag s t = false) ->
  inv s'.
Proof.
  intros Hs [Eo Ef Eb Ed Ea Ho] Hr Hf He Hb Hd Hu Hin.
  pose proof (fun v => owner_change_inv s t p (owner s') v Hs Ho) as I1.
  destruct Hs as [I1' I2 I3 I4 I5 I6 I7 I8].
  assert (Hforb : forall v l, forbids (at_ s' v) l = forbids (at_ s v) l).
  { intros v l. rewrite Ea. case_decide; [subst; apply Hf|done]. }
  assert (Hexcl : forall v l u, u ∈ excluded (at_ s' v) l -> u ∈ excluded (at_ s v) l).
  { intros v l u. rewrite Ea. case_decide; [subst; apply He|done]. }
  split.
  - intros v. rewrite Ea, <- insert_at. apply I1.
  - intros v. rewrite Eb, Ed, Ea. case_decide; subst; auto.
  - intros v. rewrite Ed, Ea. case_decide; subst; auto.
  - intros v. rewrite Ed, Ea. case_decide; subst; auto.
  - intros v. rewrite Ea, Eo. case_decide; subst; rewrite ?Hr; auto.
  - by rewrite Eo.
  - intros u. rewrite Ef, Eo, (I7 u). by setoid_rewrite Hforb.
  - intros v u Huv Hx Hi. apply Hexcl in Hx. rewrite Eo in Hx. apply (I8 v u Huv Hx). unfold inside in Hi.
    rewrite Ed, Ea in Hi. case_decide as E; [|done]. subst u.
    destruct (Hin Hi) as [|Hn]; [done|]. exfalso.
    assert (m_forbidden_flag s t = true); [|congruence]. apply I7. exists v. split; [done|].
    by apply excluded_forbids.
Qed.

(** The list changes while the mutex is held by a thread outside the phases. *)
Lemma registry_step s t p l :
  let s' := mk_state (owner s) l (m_busy_flag s) (m_forbidden_flag s) (m_lock_depth s)
    (<[t := p]> (at_ s)) in
  inv s -> holds_mutex (at_ s t) = true -> holds_mutex p = true ->
  (forall l, forbids (at_ s t) l = []) -> (forall l, forbids p l = []) ->
  busy_at p = busy_at (at_ s t) -> may_hold_shared (at_ s t) = false ->
  p <> us_decrement -> p <> ls_enter ->
  NoDup l -> (forall u, u <> t -> u ∈ l <-> u ∈ other s) -> (t ∈ l <-> registered_at p = true) ->
  inv s'.
Proof.
  intros s' Hs Ht Hp Hf Hf' Hb Hm Hu Hn Hnd Hl Htl.
  assert (Hnone : forall v l, forbids (at_ s' v) l = []).
  { intros v l'. unfold s'. cbn. rewrite insert_at. case_decide as E; [apply Hf'|].
    destruct (forbids (at_ s v) l') as [|x r] eqn:Ef; [done|]. exfalso. apply E.
    apply (holder_unique s v t Hs); [|done]. apply (forbids_holder _ l' x). rewrite Ef. left. }
  assert (Hd : m_lock_depth s t = 0).
  { destruct (m_lock_depth s t) eqn:E; [done|]. rewrite (inv_depth s Hs t) in Hm; [done|lia]. }
  pose proof (owner_change_inv s t p (owner s)) as I1. destruct Hs as [I1' I2 I3 I4 I5 I6 I7 I8].
  split; try done.
  - intros v. apply I1; [by split|]. left. by rewrite Hp, Ht.
  - intros v. unfold s'. cbn. rewrite insert_at. case_decide; subst; [rewrite Hb|]; auto.
  - intros v. unfold s'. cbn. rewrite insert_at. case_decide; subst; [lia|auto].
  - intros v. unfold s'. cbn. rewrite insert_at. case_decide; [done|auto].
  - intros v. unfold s'. cbn. rewrite insert_at. case_decide; subst; [done|]. rewrite Hl by done. auto.
  - intros u. unfold s' at 1. cbn [m_forbidden_flag]. split.
    + intros H. apply I7 in H as (v & Huv & Hv). exfalso.
      assert (v = t) as -> by (apply (holder_unique s v t); [by split|by eapply forbids_holder|done]).
      rewrite Hf in Hv. by apply elem_of_nil in Hv.
    + intros (v & _ & Hv). rewrite Hnone in Hv. by apply elem_of_nil in Hv.
  - intros v u _ Hx%excluded_forbids. rewrite Hnone in Hx. by apply elem_of_nil in Hx.
Qed.

(** The steps of the phases: the holder [t] stays the holder, goes to [p] and
    writes the forbidden flags [f]. *)
Lemma phase_step s t p f :
  let s' := mk_state (owner s) (other s) (m_busy_flag s) f (m_lock_depth s) (<[t := p]> (at_ s)) in
  inv s -> holds_mutex (at_ s t) = true -> holds_mutex p = true ->
  registered_at (at_ s t) = true -> registered_at p = true ->
  busy_at p = false -> busy_at (at_ s t) = false -> may_hold_shared (at_ s t) = false ->
  p <> us_decrement -> p <> ls_enter ->
  (forall u, u <> t -> f u = true <-> u ∈ forbids p (other s)) -> f t = false ->
  (forall u, u <> t -> u ∈ excluded p (other s) -> ~ inside s u) ->
  inv s'.
Proof.
  intros s' Hs Ht Hp Hr Hrp Hb Hbt Hm Hu Hn Hf Hft Hx.
  assert (Hnone : forall v l, v <> t -> forbids (at_ s v) l = []).
  { intros v l' E. destruct (forbids (at_ s v) l') as [|x r] eqn:Ef; [done|]. exfalso. apply E.
    apply (holder_unique s v t Hs); [|done]. apply (forbids_holder _ l' x). rewrite Ef. left. }
  assert (Hd : m_lock_depth s t = 0).
  { destruct (m_lock_depth s t) eqn:E; [done|]. rewrite (inv_depth s Hs t) in Hm; [done|lia]. }
  pose proof (owner_change_inv s t p (owner s)) as I1. destruct Hs as [I1' I2 I3 I4 I5 I6 I7 I8].
  split; try done.
  - intros v. apply I1; [by split|]. left. by rewrite Hp, Ht.
  - intros v. unfold s'. cbn. rewrite insert_at. case_decide; subst; [by rewrite I2, Hb, Hbt|auto].
  - intros v. unfold s'. cbn. rewrite insert_at. case_decide; subst; [lia|auto].
  - intros v. unfold s'. cbn. rewrite insert_at. case_decide; [done|auto].
  - intros v. unfold s'. cbn. rewrite insert_at. case_decide; subst; [rewrite I5, Hr, Hrp|]; auto.
  - intros u. unfold s'. cbn. destruct (decide (u = t)) as [->|Hut].
    + rewrite Hft. split; [done|]. intros (v & Hv & Hin). rewrite insert_at, decide_False in Hin by done.
      rewrite Hnone in Hin by done. by apply elem_of_nil in Hin.
    + rewrite Hf by done. split.
      * intros H. exists t. by rewrite insert_at, decide_True.
      * intros (v & Hv & Hin). rewrite insert_at in Hin. case_decide; [done|].
        rewrite Hnone in Hin by done. by apply elem_of_nil in Hin.
  - intros v u Huv. unfold s'. cbn. rewrite insert_at. intros Hin Hi.
    assert (Hi' : u <> t /\ inside s u \/ u = t).
    { destruct (decide (u = t)) as [->|Hut]; [by right|left]. split; [done|].
      unfold inside, s' in Hi. cbn in Hi. by rewrite insert_at, decide_False in Hi. }
    case_decide as E.
    + subst v. destruct Hi' as [[? Hi']| ->]; [by apply (Hx u)|done].
    + apply excluded_forbids in Hin. rewrite Hnone in Hin by done. by apply elem_of_nil in Hin.
Qed.

(** Every step preserves the invariant. *)

Lemma erase_spec t l : NoDup l ->
  NoDup (erase t l) /\ forall u, u ∈ erase t l <-> u ∈ l /\ u <> t.
Proof.
  induction 1 as [|x l Hx Hl [IH1 IH2]]; cbn.
  - split; [constructor|]. intros u. rewrite elem_of_nil. tauto.
  - destruct (Nat.eqb_spec x t) as [->|Hn].
    + split; [done|]. intros u. rewrite elem_of_cons. split; [|tauto].
      intros Hu. split; [tauto|]. by intros ->.
    + split.
      * apply NoDup_cons. split; [|done]. by rewrite IH2; intros [].
      * intros u. rewrite !elem_of_cons, IH2. split; [|tauto]. intros [->|]; tauto.
Qed.

(** Discharges the conditions of [local_step] for a concrete step of [t], whose
    position is given by [Ea]; [b] and [d] are the new attributes. *)
Ltac local_case Ea t b d :=
  eapply (local_step _ _ t b d); [eassumption| |..]; rewrite ?Ea;
  cbn [registered_at forbids excluded busy_at orb may_hold_shared];
  [split; cbn; intros; rewrite ?insert_at; try done; try (case_decide; subst; done);
   unfold owner_change; cbn; rewrite ?Ea; cbn; auto|..];
  unfold inside; rewrite ?Ea; try done; auto; try lia;
  try (intros [?|?]; [lia|done]); try (intros [?|?]; auto; done);
  try (rewrite ?(inv_busy _ ltac:(eassumption)), ?Ea;
       repeat match goal with |- context [0 <? ?n] => destruct (Nat.ltb_spec 0 n) end; cbn; done || lia).

Lemma acquire_inv s t p s' :
  inv s -> acquire t p s = Some s' -> holds_mutex p = true ->
  registered_at p = registered_at (at_ s t) -> (forall l, forbids p l = []) ->
  busy_at p = busy_at (at_ s t) -> m_lock_depth s t = 0 -> p <> us_decrement -> p <> ls_enter ->
  inv s'.
Proof.
  intros Hs. unfold acquire. destruct (owner s) as [o|] eqn:Eo; [done|].
  intros [= <-] Hp Hr Hf Hb Hd Hu Hn.
  assert (Hh : holds_mutex (at_ s t) = false).
  { destruct (holds_mutex (at_ s t)) eqn:E; [|done]. apply (inv_owner s Hs) in E. congruence. }
  eapply (local_step s _ t (m_busy_flag s t) (m_lock_depth s t) p); auto; try lia; try done.
  - split; cbn; intros; rewrite ?insert_at; try done; try (case_decide; subst; done).
    right; left. auto.
  - intros l. rewrite Hf. destruct (forbids (at_ s t) l) as [|x r] eqn:E; [done|].
    rewrite (forbids_holder _ l x) in Hh; [done|]. rewrite E. left.
  - intros l u Hx%excluded_forbids. rewrite Hf in Hx. by apply elem_of_nil in Hx.
  - rewrite (inv_busy s Hs). by rewrite Hb.
  - intros [?|?]; [lia|done].
Qed.

Lemma release_inv s t p s' :
  inv s -> release t p s = Some s' -> holds_mutex (at_ s t) = true -> holds_mutex p = false ->
  registered_at p = registered_at (at_ s t) -> (forall l, forbids (at_ s t) l = []) ->
  busy_at p = busy_at (at_ s t) -> may_hold_shared (at_ s t) = false ->
  p <> us_decrement -> p <> ls_enter ->
  inv s'.
Proof.
  intros Hs [= <-] Hh Hp Hr Hf Hb Hm Hu Hn.
  assert (Hd : m_lock_depth s t = 0).
  { destruct (m_lock_depth s t) eqn:E; [done|]. rewrite (inv_depth s Hs t) in Hm; [done|lia]. }
  assert (Hfp : forall l, forbids p l = []).
  { intros l. destruct (forbids p l) as [|x r] eqn:E; [done|].
    rewrite (forbids_holder p l x) in Hp; [done|]. rewrite E. left. }
  eapply (local_step s _ t (m_busy_flag s t) (m_lock_depth s t) p); auto; try lia; try done.
  - split; cbn; intros; rewrite ?insert_at; try done; try (case_decide; subst; done).
    right; right. split; [|done]. by apply (inv_owner s Hs).
  - intros l. by rewrite Hf, Hfp.
  - intros l u Hx%excluded_forbids. rewrite Hfp in Hx. by apply elem_of_nil in Hx.
  - rewrite (inv_busy s Hs). by rewrite Hb.
  - intros [?|?]; [lia|done].
Qed.

Lemma start_inv s t c s' : inv s -> start t c s = Some s' -> inv s'.
Proof.
  intros Hs. unfold start. pose proof (inv_busy s Hs t) as Hb. pose proof (inv_depth s Hs t) as Hd.
  destruct (at_ s t) eqn:Ea; destruct c; try done; cbn [busy_at orb may_hold_shared] in Hb, Hd;
    try (destruct (Nat.eqb_spec (m_lock_depth s t) 0) as [E|E]; try done);
    try (intros [= <-]; local_case Ea t (m_busy_flag s t) (m_lock_depth s t)).
  - destruct (owner s) as [o|] eqn:Eo; [by intros [= <-]|]. intros H.
    apply (acquire_inv s t (set_forbidden 0) s'); rewrite ?Ea; done.
  - intros l u H. by apply elem_of_nil in H.
Qed.

(** The loops over [other]. *)
Lemma take_S_elem (l : list nat) k u v : l !! k = Some u -> v ∈ take (S k) l <-> v = u \/ v ∈ take k l.
Proof. intros E. rewrite (take_S_r l k u E), elem_of_app, list_elem_of_singleton. tauto. Qed.

Lemma drop_elem (l : list nat) k u v :
  NoDup l -> l !! k = Some u -> v ∈ drop (S k) l <-> v ∈ drop k l /\ v <> u.
Proof.
  intros Hl E. pose proof (drop_S l u k E) as Ed. rewrite Ed, elem_of_cons.
  assert (Hn : NoDup (drop k l)) by (rewrite <- (take_drop k l) in Hl; by apply NoDup_app in Hl as (_ & _ & ?)).
  rewrite Ed in Hn. apply NoDup_cons in Hn as [Hn _]. split.
  - intros H. split; [by right|]. by intros ->.
  - intros [[->|H] ?]; done.
Qed.

Lemma forbidden_at s t u : inv s -> holds_mutex (at_ s t) = true ->
  m_forbidden_flag s u = true <-> u <> t /\ u ∈ forbids (at_ s t) (other s).
Proof.
  intros Hs Ht. rewrite (inv_forbidden s Hs). split; [|eauto].
  intros (v & Hv & Hin). assert (v = t) as ->; [|done].
  apply (holder_unique s); [done|by eapply forbids_holder|done].
Qed.

Lemma set_forbidden_inv s t k s' :
  inv s -> at_ s t = set_forbidden k -> continue t s = Some s' -> inv s'.
Proof.
  intros Hs Ea. unfold continue. rewrite Ea.
  pose proof (fun u => forbidden_at s t u Hs ltac:(by rewrite Ea)) as Hf. rewrite Ea in Hf. cbn in Hf.
  destruct (other s !! k) as [u|] eqn:Eu; intros [= <-].
  - destruct (Nat.eqb_spec u t) as [->|Hut].
    + apply (phase_step s t); rewrite ?Ea; cbn [m_forbidden_flag store_forbidden]; try done.
      * intros v Hv. rewrite Hf. cbn [forbids]. rewrite (take_S_elem _ _ _ _ Eu). tauto.
      * apply not_true_is_false. rewrite Hf. tauto.
      * intros v _ Hv. by apply elem_of_nil in Hv.
    + apply (phase_step s t); rewrite ?Ea; cbn [m_forbidden_flag store_forbidden]; try done.
      * intros v Hv. rewrite insert_at. cbn [forbids]. rewrite (take_S_elem _ _ _ _ Eu).
        case_decide; [tauto|]. rewrite Hf. tauto.
      * rewrite insert_at, decide_False by done. apply not_true_is_false. rewrite Hf. tauto.
      * intros v _ Hv. by apply elem_of_nil in Hv.
  - apply lookup_ge_None in Eu. apply (phase_step s t); rewrite ?Ea; cbn [m_forbidden_flag store_forbidden]; try done.
    + intros v Hv. rewrite Hf, take_ge by done. cbn. tauto.
    + apply not_true_is_false. rewrite Hf. tauto.
    + intros v _ Hv. by apply elem_of_nil in Hv.
Qed.

Lemma wait_for_busy_inv s t k s' :
  inv s -> at_ s t = wait_for_busy k -> continue t s = Some s' -> inv s'.
Proof.
  intros Hs Ea. unfold continue. rewrite Ea.
  pose proof (fun u => forbidden_at s t u Hs ltac:(by rewrite Ea)) as Hf. rewrite Ea in Hf. cbn in Hf.
  pose proof (inv_excluded s Hs t) as Hx. rewrite Ea in Hx. cbn in Hx.
  destruct (other s !! k) as [u|] eqn:Eu.
  - destruct ((u =? t) || negb (m_busy_flag s u)) eqn:Eb; intros [= <-]; [|done].
    apply (phase_step s t); rewrite ?Ea; cbn [m_forbidden_flag store_forbidden]; try done.
    + intros v Hv. rewrite Hf. cbn. tauto.
    + apply not_true_is_false. rewrite Hf. tauto.
    + intros v Hv. cbn [excluded]. rewrite (take_S_elem _ _ _ _ Eu). intros [->|Hin]; [|by apply Hx].
      destruct (Nat.eqb_spec u t) as [|_]; [done|]. cbn in Eb. apply negb_true_iff in Eb.
      rewrite (inv_busy s Hs) in Eb. apply orb_false_iff in Eb as [E1 E2]. apply Nat.ltb_ge in E2.
      intros [Hd|He]; [lia|]. by rewrite He in E1.
  - intros [= <-]. apply lookup_ge_None in Eu. rewrite take_ge in Hx by done.
    apply (phase_step s t); rewrite ?Ea; cbn [m_forbidden_flag store_forbidden]; try done.
    + intros v Hv. rewrite Hf. cbn. tauto.
    + apply not_true_is_false. rewrite Hf. tauto.
Qed.

Lemma clear_forbidden_inv s t k s' :
  inv s -> at_ s t = clear_forbidden k -> continue t s = Some s' -> inv s'.
Proof.
  intros Hs Ea. unfold continue. rewrite Ea.
  pose proof (fun u => forbidden_at s t u Hs ltac:(by rewrite Ea)) as Hf. rewrite Ea in Hf. cbn in Hf.
  destruct (other s !! k) as [u|] eqn:Eu; intros [= <-].
  - apply (phase_step s t); rewrite ?Ea; cbn [m_forbidden_flag store_forbidden]; try done.
    + intros v Hv. rewrite insert_at. cbn [forbids]. rewrite (drop_elem _ _ _ _ (inv_nodup s Hs) Eu).
      case_decide; [split; [done|tauto]|]. rewrite Hf. tauto.
    + rewrite insert_at. case_decide; [done|]. apply not_true_is_false. rewrite Hf. tauto.
    + intros v _ Hv. by apply elem_of_nil in Hv.
  - apply lookup_ge_None in Eu. apply (phase_step s t); rewrite ?Ea; cbn [m_forbidden_flag store_forbidden]; try done.
    + intros v Hv. rewrite Hf, drop_ge by done. cbn. rewrite elem_of_nil. tauto.
    + apply not_true_is_false. rewrite Hf. tauto.
    + intros v _ Hv. by apply elem_of_nil in Hv.
Qed.

Lemma continue_inv s t s' : inv s -> continue t s = Some s' -> inv s'.
Proof.
  intros Hs Hc. pose proof (inv_busy s Hs t) as Hb. pose proof (inv_depth s Hs t) as Hd.
  pose proof (inv_decrement s Hs t) as Hdec.
  assert (Hz : may_hold_shared (at_ s t) = false -> m_lock_depth s t = 0).
  { intros Hm. destruct (m_lock_depth s t); [done|]. rewrite Hd in Hm; [done|lia]. }
  destruct (at_ s t) eqn:Ea; cbn [may_hold_shared] in Hz; try (specialize (Hz eq_refl));
    try (by eapply set_forbidden_inv); try (by eapply wait_for_busy_inv);
    try (by eapply clear_forbidden_inv); unfold continue in Hc; rewrite Ea in Hc; try done;
    try (eapply acquire_inv; [eassumption|exact Hc|rewrite ?Ea; done..]);
    try (eapply release_inv; [eassumption|exact Hc|rewrite ?Ea; done..]).
  - injection Hc as <-. assert (Hn : t ∉ other s) by (rewrite (inv_other s Hs), Ea; done).
    apply (registry_step s t); rewrite ?Ea; cbn [other set_other]; try done.
    + apply NoDup_app. split; [apply (inv_nodup s Hs)|]. split; [|apply NoDup_singleton].
      intros x Hx Hx'%list_elem_of_singleton. by subst.
    + intros u Hu. rewrite elem_of_app, list_elem_of_singleton. tauto.
    + rewrite elem_of_app, list_elem_of_singleton. tauto.
  - injection Hc as <-. destruct (erase_spec t (other s) (inv_nodup s Hs)) as [H1 H2].
    apply (registry_step s t); rewrite ?Ea; cbn [other set_other]; try done.
    + intros u Hu. rewrite H2. tauto.
    + rewrite H2. split; [tauto|done].
  - injection Hc as <-. local_case Ea t true (m_lock_depth s t).
  - injection Hc as <-. destruct (m_forbidden_flag s t) eqn:Ef;
      local_case Ea t (m_busy_flag s t) (m_lock_depth s t).
  - injection Hc as <-. local_case Ea t false (m_lock_depth s t).
  - injection Hc as <-. local_case Ea t true (m_lock_depth s t).
  - injection Hc as <-. local_case Ea t (m_busy_flag s t) (S (m_lock_depth s t)).
  - injection Hc as <-. local_case Ea t true (m_lock_depth s t).
  - injection Hc as <-. destruct (m_forbidden_flag s t) eqn:Ef;
      local_case Ea t (m_busy_flag s t) (m_lock_depth s t).
  - injection Hc as <-. local_case Ea t false (m_lock_depth s t).
  - injection Hc as <-. specialize (Hdec eq_refl). destruct (Nat.eqb_spec (pred (m_lock_depth s t)) 0) as [E|E];
      local_case Ea t (m_busy_flag s t) (pred (m_lock_depth s t)).
  - injection Hc as <-. local_case Ea t false (m_lock_depth s t).
Qed.

Lemma step_inv s s' : inv s -> step s s' -> inv s'.
Proof.
  intros Hs (t & [c|] & H); [by apply (start_inv s t c)|by apply (continue_inv s t)].
Qed.

Lemma reachable_inv s : reachable s -> inv s.
Proof.
  unfold reachable. intros H. generalize initial_inv. induction H as [|s1 s2 s3 H12 _ IH]; [done|].
  intros Hi. apply IH. by apply (step_inv s1).
Qed.

(** ** The abstract lock

    A writer excludes everyone else; [readers] counts the shared locks a thread
    has taken. *)
Record rw_lock : Type := mk_rw { writer : option nat; readers : nat -> nat }.

Inductive rw_step (t : nat) (a : rw_lock) : rw_lock -> Prop :=
| rw_lock_exclusive :
    writer a = None -> (forall u, readers a u = 0) -> rw_step t a (mk_rw (Some t) (readers a))
| rw_unlock : writer a = Some t -> rw_step t a (mk_rw None (readers a))
| rw_lock_shared :
    writer a = None -> rw_step t a (mk_rw None (<[t := S (readers a t)]> (readers a)))
| rw_unlock_shared :
    0 < readers a t -> rw_step t a (mk_rw (writer a) (<[t := pred (readers a t)]> (readers a))).

Definition abstraction (s : state) : rw_lock :=
  mk_rw (match owner s with
         | Some t => if decide (at_ s t = exclusive) then Some t else None
         | None => None
         end) (m_lock_depth s).

Lemma writer_spec s t : inv s -> writer (abstraction s) = Some t <-> at_ s t = exclusive.
Proof.
  intros Hs. cbn. pose proof (inv_owner s Hs t) as Ht. split.
  - destruct (owner s) as [o|]; [|done]. case_decide; [|done]. by intros [= ->].
  - intros Ex. rewrite Ex in Ht. by rewrite (proj2 Ht eq_refl), decide_True.
Qed.

Lemma exec_at_other t c s s' v : exec t c s = Some s' -> v <> t -> at_ s' v = at_ s v.
Proof.
  intros H Hv. destruct c as [c|]; cbn in H; unfold start, continue, acquire, release in H;
    repeat case_match; simplify_eq; cbn; rewrite ?insert_at, ?decide_False by done; try done;
    case_match; done.
Qed.

Lemma writer_eq s s' : inv s -> inv s' ->
  (forall v, at_ s' v = exclusive <-> at_ s v = exclusive) ->
  writer (abstraction s') = writer (abstraction s).
Proof.
  intros Hs Hs' H. apply option_eq. intros v. rewrite !writer_spec by done. apply H.
Qed.

(** No step but the end of [set_forbidden_flags] makes a thread the writer. *)
Lemma abstraction_eq t s s' :
  inv s -> inv s' -> (forall v, v <> t -> at_ s' v = at_ s v) ->
  m_lock_depth s' = m_lock_depth s -> at_ s t <> exclusive -> at_ s' t <> exclusive ->
  abstraction s' = abstraction s.
Proof.
  intros Hs Hs' Ho Hd Ht Ht'. pose proof (writer_eq s s' Hs Hs') as Hw.
  unfold abstraction in *. cbn in *. rewrite Hd, Hw; [done|].
  intros v. destruct (decide (v = t)) as [->|Hv]; [tauto|]. by rewrite Ho.
Qed.

Lemma no_writer_inside s t : inv s -> inside s t -> writer (abstraction s) = None.
Proof.
  intros Hs Hi. destruct (writer (abstraction s)) as [w|] eqn:E; [|done]. exfalso.
  apply writer_spec in E; [|done]. destruct (decide (t = w)) as [->|Hn].
  - destruct Hi as [Hi|Hi]; [|congruence]. apply (inv_depth s Hs) in Hi. by rewrite E in Hi.
  - apply (inv_excluded s Hs w t Hn); [|done]. rewrite E. cbn. apply (inv_other s Hs).
    destruct Hi as [Hi|Hi]; [|by rewrite Hi]. apply (inv_depth s Hs) in Hi.
    by destruct (at_ s t).
Qed.

(** What a step does to the abstract lock. *)
Inductive step_kind (t : nat) (s s' : state) : Prop :=
| silent_step : m_lock_depth s' = m_lock_depth s -> at_ s t <> exclusive -> at_ s' t <> exclusive ->
    step_kind t s s'
| lock_step k : at_ s t = wait_for_busy k -> other s !! k = None -> s' = goto t exclusive s ->
    step_kind t s s'
| unlock_step : at_ s t = exclusive -> s' = goto t (clear_forbidden 0) s -> step_kind t s s'
| lock_shared_step : at_ s t = ls_enter ->
    s' = goto t idle (set_depth t (S (m_lock_depth s t)) s) -> step_kind t s s'
| unlock_shared_step p : at_ s t = us_decrement -> p <> exclusive ->
    s' = goto t p (set_depth t (pred (m_lock_depth s t)) s) -> step_kind t s s'.

(** A step that does not change the depth and goes to [p]. *)
Ltac silent Ea :=
  apply silent_step; [done|by rewrite ?Ea|cbn; rewrite ?insert_at, ?decide_True by done;
    try (by case_match); rewrite ?Ea; done].

Lemma start_kind t c s s' : start t c s = Some s' -> step_kind t s s'.
Proof.
  unfold start, acquire. destruct (at_ s t) eqn:Ea; destruct c; try done;
    try (case_match; try done); try (case_match; try done); intros [= <-];
    try (by silent Ea). by apply unlock_step.
Qed.

Lemma continue_kind t s s' : continue t s = Some s' -> step_kind t s s'.
Proof.
  unfold continue, acquire, release. destruct (at_ s t) eqn:Ea; try done.
  all: try (case_match; try done); try (intros [= <-]; by silent Ea).
  - intros [= <-]. destruct (n =? t); silent Ea.
  - destruct (_ || _); intros [= <-]; [silent Ea|]. by apply silent_step; rewrite ?Ea.
  - intros [= <-]. by eapply lock_step.
  - intros [= <-]. by apply lock_shared_step.
  - intros [= <-]. by apply (unlock_shared_step _ _ _ us_store).
  - intros [= <-]. by apply (unlock_shared_step _ _ _ idle).
Qed.

(** Nobody holds a shared lock while a thread is the writer. *)
Lemma writer_excludes s t u : inv s -> at_ s t = exclusive -> m_lock_depth s u = 0.
Proof.
  intros Hs Ex. destruct (m_lock_depth s u) as [|d] eqn:E; [done|]. exfalso.
  assert (Hi : inside s u) by (left; lia). apply no_writer_inside in Hi; [|done].
  apply (writer_spec s t Hs) in Ex. congruence.
Qed.

Lemma abstraction_writer s o : writer (abstraction s) = o ->
  abstraction s = mk_rw o (m_lock_depth s).
Proof. unfold abstraction. cbn. by intros ->. Qed.

Lemma writer_none s : inv s -> (forall t, at_ s t <> exclusive) -> writer (abstraction s) = None.
Proof.
  intros Hs H. destruct (writer (abstraction s)) as [w|] eqn:E; [|done].
  by apply writer_spec, H in E.
Qed.

(** Only the holder of the mutex can be the writer. *)
Lemma holder_not_writer s t u :
  inv s -> holds_mutex (at_ s t) = true -> at_ s t <> exclusive -> at_ s u <> exclusive.
Proof.
  intros Hs Ht Hn Eu. apply Hn. by rewrite (holder_unique s t u Hs Ht) by (by rewrite Eu).
Qed.

Lemma refinement_step s t c s' :
  inv s -> exec t c s = Some s' ->
  abstraction s' = abstraction s \/ rw_step t (abstraction s) (abstraction s').
Proof.
  intros Hs H. assert (Hs' : inv s') by (apply (step_inv s); [done|by exists t, c]).
  assert (Hk : step_kind t s s') by (destruct c; [by eapply start_kind|by apply continue_kind]).
  destruct Hk as [Hd H1 H2|k Ea Ek ->|Ea ->|Ea ->|p Ea Hp ->].
  - left. apply (abstraction_eq t); auto. intros v. by eapply exec_at_other.
  - right. assert (Ex : at_ (goto t exclusive s) t = exclusive) by (cbn; by rewrite insert_at, decide_True).
    rewrite (abstraction_writer (goto t exclusive s) (Some t)) by (by apply writer_spec).
    apply (rw_lock_exclusive t (abstraction s)).
    + apply writer_none; [done|]. intros u. by apply (holder_not_writer s t); rewrite ?Ea.
    + intros u. apply (writer_excludes (goto t exclusive s) t u Hs' Ex).
  - right. rewrite (abstraction_writer (goto t (clear_forbidden 0) s) None).
    + apply (rw_unlock t (abstraction s)). by apply writer_spec.
    + apply writer_none; [done|]. intros u. by apply (holder_not_writer _ t); cbn;
        rewrite ?insert_at, ?decide_True by done.
  - right. rewrite (abstraction_writer (goto _ _ _) None).
    + apply (rw_lock_shared t (abstraction s)). apply (no_writer_inside s t); [done|by right].
    + apply (no_writer_inside _ t); [done|]. left. cbn. rewrite insert_at, decide_True by done. lia.
  - right. rewrite (abstraction_writer (goto _ _ _) (writer (abstraction s))).
    + apply (rw_unlock_shared t (abstraction s)). by apply (inv_decrement s).
    + apply writer_eq; [done..|]. intros v. cbn. rewrite insert_at. case_decide; [|done].
      subst. rewrite Ea. split; [by intros ->|done].
Qed.

(** ** Assertions *)

(** The [assert]s the next statement of thread [t] starts with. *)
Definition asserts (s : state) (t : nat) : bool :=
  match at_ s t with
  | unreg_erase => bool_decide (t ∈ other s)
  | ls_store | tls_store => negb (m_busy_flag s t)
  | set_forbidden 0 => negb (m_busy_flag s t) && bool_decide (t ∈ other s)
  | us_decrement => 0 <? m_lock_depth s t
  | us_store => m_busy_flag s t
  | _ => true
  end.

Lemma asserts_hold s t : inv s -> asserts s t = true.
Proof.
  intros Hs. pose proof (inv_busy s Hs t) as Hb. pose proof (inv_other s Hs t) as Ho.
  pose proof (inv_depth s Hs t) as Hd. pose proof (inv_decrement s Hs t) as Hu. unfold asserts.
  assert (Hz : may_hold_shared (at_ s t) = false -> (0 <? m_lock_depth s t) = false).
  { intros Hm. apply Nat.ltb_ge. destruct (m_lock_depth s t); [done|]. rewrite Hd in Hm; [done|lia]. }
  destruct (at_ s t) eqn:Ea; try done; try (destruct k as [|k]; [|done]);
    cbn [busy_at may_hold_shared orb registered_at] in *; rewrite ?bool_decide_true by tauto;
    rewrite ?Hb, ?Hz by done; try done.
  apply Nat.ltb_lt. auto.
Qed.

(** ** Completion

    The steps that end what has been started: the statements of calls in
    progress, and [unlock] and [unlock_shared]. *)
Definition completing (s s' : state) : Prop :=
  exists t c, (c = None \/ c = Some c_unlock \/ c = Some c_unlock_shared) /\ exec t c s = Some s'.

Record quiescent (s : state) : Prop := {
  quiescent_at : forall t, at_ s t = unregistered \/ at_ s t = idle;
  quiescent_depth : forall t, m_lock_depth s t = 0;
  quiescent_owner : owner s = None;
  quiescent_busy : forall t, m_busy_flag s t = false;
  quiescent_forbidden : forall t, m_forbidden_flag s t = false
}.

(** An upper bound on the number of steps of a thread until it is between calls
    and has no lock, when the threads are scheduled as below; [n] bounds the
    length of [other], [f] is its forbidden flag and [d] its depth. *)
Definition rank (n : nat) (p : pc) (f : bool) (d : nat) : nat :=
  match p with
  | unregistered => 0
  | reg_lock | unreg_lock => 3
  | reg_add | unreg_erase => 2
  | reg_unlock | unreg_unlock => 1
  | idle => 3 * d
  | lock_mutex => 3 * n + 11
  | set_forbidden k => n - k + 2 * n + 10
  | wait_for_busy k => n - k + n + 8
  | exclusive => n + 7
  | clear_forbidden k => n - k + 2
  | unlock_mutex => 1
  | ls_store | ls_retry => 3 * d + (if f then 11 else 6)
  | ls_load => 3 * d + (if f then 10 else 5)
  | ls_reset => 3 * d + 9
  | ls_wait => 3 * d + 8
  | ls_release => 3 * d + 7
  | ls_enter => 3 * d + 4
  | tls_store => 3 * d + 6
  | tls_load => 3 * d + 5
  | tls_reset => 3 * d + 1
  | us_decrement => 3 * d - 1
  | us_store => 1
  end.

Definition thread_rank (n : nat) (s : state) (t : nat) : nat :=
  rank n (at_ s t) (m_forbidden_flag s t) (m_lock_depth s t).

Definition total_rank (ts : list nat) (s : state) : nat :=
  sum_list_with (thread_rank (length ts) s) ts.

(** All threads with an object are in [ts]. *)
Definition threads (ts : list nat) (s : state) : Prop :=
  forall t, t ∉ ts -> at_ s t = unregistered.

(** The thread waits for the mutex or has nothing to do. *)
Definition settled (s : state) (t : nat) : bool :=
  match at_ s t with
  | unregistered | reg_lock | unreg_lock | lock_mutex | ls_wait => true
  | idle => m_lock_depth s t =? 0
  | _ => false
  end.

Lemma total_rank_lt ts s s' t :
  t ∈ ts -> (forall u, u <> t -> thread_rank (length ts) s' u = thread_rank (length ts) s u) ->
  thread_rank (length ts) s' t < thread_rank (length ts) s t ->
  total_rank ts s' < total_rank ts s.
Proof.
  unfold total_rank. generalize (length ts) as n. intros n Ht Ho Hlt.
  assert (Hle : forall l, sum_list_with (thread_rank n s') l <= sum_list_with (thread_rank n s) l).
  { induction l as [|u l IH]; cbn; [done|]. destruct (decide (u = t)) as [->|Hu]; [lia|].
    rewrite (Ho u Hu). lia. }
  induction Ht as [u l|t u l Ht IH]; cbn; [specialize (Hle l); lia|]. specialize (IH Ho Hlt).
  destruct (decide (u = t)) as [->|Hu]; [lia|]. rewrite (Ho u Hu). lia.
Qed.

(** *** The schedule

    First the threads that neither hold nor wait for the mutex, then the holder
    of the mutex, then the threads that wait for it. *)
Section Schedule.
Context (ts : list nat) (s : state) (Hs : inv s) (Hts : threads ts s).

Lemma other_bound k u : other s !! k = Some u -> k < length ts.
Proof.
  intros E. apply lookup_lt_Some in E. eapply Nat.lt_le_trans; [exact E|].
  apply submseteq_length, NoDup_submseteq; [apply (inv_nodup s Hs)|].
  intros t Ht. apply (inv_other s Hs) in Ht. apply dec_stable. intros Hn.
  by rewrite (Hts t Hn) in Ht.
Qed.

Lemma active_thread t : at_ s t <> unregistered -> t ∈ ts.
Proof. intros Ht. apply dec_stable. intros Hn. by apply Ht, Hts. Qed.

Definition progress : Prop :=
  exists s', completing s s' /\ total_rank ts s' < total_rank ts s /\ threads ts s'.

(** A step of [t] that leaves the ranks of the others and decreases its own. *)
Lemma progress_by t c s' :
  c = None \/ c = Some c_unlock \/ c = Some c_unlock_shared -> exec t c s = Some s' ->
  at_ s t <> unregistered ->
  (forall u, u <> t -> thread_rank (length ts) s' u = thread_rank (length ts) s u) ->
  thread_rank (length ts) s' t < thread_rank (length ts) s t -> progress.
Proof.
  intros Hc He Ha Ho Hlt. exists s'. split; [by exists t, c|]. pose proof (active_thread t Ha) as Ht.
  split; [by apply (total_rank_lt ts s s' t)|].
  intros u Hu. rewrite (exec_at_other t c s s' u He); [by apply Hts|]. by intros ->.
Qed.

(** Applies [progress_by] to a step that changes only attributes of [t], whose
    position is given by [Ea]; the rank of [t] remains to be compared. *)
Ltac by_own t c Ea :=
  eapply (progress_by t c);
  [by auto|cbn; unfold start, continue; rewrite Ea; reflexivity|by rewrite Ea
  |intros u Hu; unfold thread_rank; cbn; rewrite ?insert_at, ?decide_False by done; done|];
  unfold thread_rank; cbn [at_ m_forbidden_flag m_lock_depth goto store_busy store_forbidden
    set_depth set_owner set_other]; rewrite ?insert_at, ?decide_True by done; rewrite ?Ea; cbn [rank].

Lemma progress_unsettled t : holds_mutex (at_ s t) = false -> settled s t = false -> progress.
Proof.
  intros Hh Hn. pose proof (inv_decrement s Hs t) as Hd. pose proof (inv_depth s Hs t) as Hm.
  unfold settled in Hn. destruct (at_ s t) eqn:Ea; try done.
  1: { eapply (progress_by t (Some c_unlock_shared) (goto t us_decrement s)); auto; cbn;
         [unfold start; by rewrite Ea, Hn|by rewrite Ea|..];
         unfold thread_rank; cbn; intros; rewrite insert_at; [by rewrite decide_False|].
       rewrite decide_True, Ea by done. cbn. apply Nat.eqb_neq in Hn. lia. }
  all: by_own t (@None call) Ea; try (destruct (m_forbidden_flag s t); cbn; lia).
  - specialize (Hd eq_refl). destruct (Nat.eqb_spec (pred (m_lock_depth s t)) 0); cbn; lia.
  - destruct (m_lock_depth s t); [lia|]. discriminate Hm. lia.
Qed.

Lemma settled_rank u n f f' d :
  settled s u = true -> rank n (at_ s u) f d = rank n (at_ s u) f' d.
Proof. unfold settled. by destruct (at_ s u). Qed.

Lemma settled_not_busy u : settled s u = true -> m_busy_flag s u = false.
Proof.
  unfold settled. rewrite (inv_busy s Hs). pose proof (inv_depth s Hs u) as Hd.
  intros H. apply orb_false_iff. split; [by destruct (at_ s u)|]. apply Nat.ltb_ge.
  destruct (m_lock_depth s u); [done|]. destruct (at_ s u); try done; specialize (Hd ltac:(lia)); done.
Qed.

(** The phases of the holder of the mutex when all others are settled. *)
Lemma progress_phase t p f s' :
  continue t s = Some s' -> at_ s t <> unregistered ->
  (forall u, u <> t -> settled s u = true) ->
  s' = mk_state (owner s) (other s) (m_busy_flag s) f (m_lock_depth s) (<[t := p]> (at_ s)) ->
  rank (length ts) p (f t) (m_lock_depth s t) < thread_rank (length ts) s t -> progress.
Proof.
  intros Hc Ha Ho -> Hlt. eapply (progress_by t None); [by auto|exact Hc|done| |].
  - intros u Hu. unfold thread_rank. cbn. rewrite insert_at, decide_False by done.
    by apply settled_rank, Ho.
  - unfold thread_rank at 1. cbn. by rewrite insert_at, decide_True.
Qed.

Ltac by_phase t Ea Eu :=
  eapply (progress_phase t);
  [unfold continue; rewrite Ea, Eu; repeat match goal with H : _ = true |- _ => rewrite H
     | H : _ = false |- _ => rewrite H end; reflexivity
  |by rewrite Ea|done|reflexivity|];
  unfold thread_rank; rewrite Ea; cbn [rank]; try apply other_bound in Eu; lia.

Lemma progress_holder t :
  holds_mutex (at_ s t) = true -> (forall u, u <> t -> settled s u = true) -> progress.
Proof.
  intros Hh Ho. pose proof (forbidden_at s t t Hs Hh) as Hf.
  assert (Hff : m_forbidden_flag s t = false) by (apply not_true_is_false; rewrite Hf; tauto).
  assert (Hd : m_lock_depth s t = 0).
  { pose proof (inv_depth s Hs t) as Hd. destruct (m_lock_depth s t); [done|].
    specialize (Hd ltac:(lia)). by destruct (at_ s t). }
  destruct (at_ s t) eqn:Ea; try done;
    try (by_own t (@None call) Ea; rewrite ?Hff; lia); try (by_own t (Some c_unlock) Ea; lia).
  - destruct (other s !! k) as [u|] eqn:Eu; [|by_phase t Ea Eu].
    destruct (u =? t) eqn:E; by_phase t Ea Eu.
  - destruct (other s !! k) as [u|] eqn:Eu; [|by_phase t Ea Eu].
    assert (E : (u =? t) || negb (m_busy_flag s u) = true).
    { destruct (Nat.eqb_spec u t) as [|Hu]; [done|]. by rewrite settled_not_busy by auto. }
    by_phase t Ea Eu.
  - destruct (other s !! k) as [u|] eqn:Eu; by_phase t Ea Eu.
Qed.

Lemma progress_acquire t :
  owner s = None -> settled s t = true -> at_ s t <> unregistered -> at_ s t <> idle -> progress.
Proof.
  intros Eo Hn Hu Hi. unfold settled in Hn. destruct (at_ s t) eqn:Ea; try done.
  all: eapply (progress_by t None);
    [by auto|cbn; unfold continue; rewrite Ea; unfold acquire; rewrite Eo; reflexivity|by rewrite Ea|..].
  all: unfold thread_rank; cbn; intros; rewrite insert_at; try (by rewrite decide_False).
  all: rewrite decide_True, Ea by done; cbn; lia.
Qed.

(** Either everything is completed or some step brings it closer. *)
Lemma quiescent_or_progress : quiescent s \/ progress.
Proof.
  destruct (decide (Exists (fun t => holds_mutex (at_ s t) = false /\ settled s t = false) ts)) as [Hx|Hx].
  { apply Exists_exists in Hx as (t & _ & H1 & H2). right. by apply (progress_unsettled t). }
  assert (Hset : forall t, holds_mutex (at_ s t) = false -> settled s t = true).
  { intros t Hh. apply not_false_iff_true. intros Hn. apply Hx, Exists_exists. exists t. split; [|done].
    apply active_thread. intros E. unfold settled in Hn. by rewrite E in Hn. }
  destruct (owner s) as [t|] eqn:Eo.
  { right. apply (inv_owner s Hs) in Eo as Hh. apply (progress_holder t Hh).
    intros u Hu. apply Hset. apply not_true_is_false. intros E. by apply Hu, (holder_unique s u t Hs). }
  assert (Hall : forall t, settled s t = true).
  { intros t. apply Hset, not_true_is_false. rewrite <- (inv_owner s Hs). by rewrite Eo. }
  destruct (decide (Exists (fun t => at_ s t <> unregistered /\ at_ s t <> idle) ts)) as [Hy|Hy].
  { apply Exists_exists in Hy as (t & _ & H1 & H2). right. by apply (progress_acquire t). }
  left. assert (Hat : forall t, at_ s t = unregistered \/ at_ s t = idle).
  { intros t. destruct (decide (at_ s t = unregistered)) as [|H1]; [by left|right].
    apply dec_stable. intros H2. apply Hy, Exists_exists. exists t. split; [by apply active_thread|done]. }
  assert (Hd : forall t, m_lock_depth s t = 0).
  { intros t. specialize (Hall t). unfold settled in Hall. pose proof (inv_depth s Hs t) as Hm.
    destruct (m_lock_depth s t); [done|]. specialize (Hm ltac:(lia)).
    by destruct (Hat t) as [E|E]; rewrite E in Hm, Hall. }
  split; auto.
  - intros t. by apply settled_not_busy.
  - intros t. apply not_true_is_false. rewrite (inv_forbidden s Hs). intros (u & _ & Hu).
    by destruct (Hat u) as [E|E]; rewrite E in Hu; apply elem_of_nil in Hu.
Qed.

End Schedule.

(** Finitely many threads have an object. *)
Lemma reachable_threads s : reachable s -> exists ts, threads ts s.
Proof.
  revert s. apply (rtc_ind_r (fun s => exists ts, threads ts s)).
  - by exists [].
  - intros s s' _ (t & c & Hst) (ts & IH). exists (t :: ts). intros u Hu. apply not_elem_of_cons in Hu as [Hut Hu].
    rewrite (exec_at_other t c s s' u Hst Hut). by apply IH.
Qed.

Lemma completing_inv s s' : inv s -> completing s s' -> inv s'.
Proof. intros Hs (t & c & _ & H). apply (step_inv s); [done|]. by exists t, c. Qed.

Lemma completes ts s : inv s -> threads ts s -> exists s', rtc completing s s' /\ quiescent s'.
Proof.
  remember (total_rank ts s) as n eqn:En. revert s En.
  induction (lt_wf n) as [n _ IH]. intros s -> Hs Hts.
  destruct (quiescent_or_progress ts s Hs Hts) as [Hq|(s1 & H1 & Hlt & Hts1)]; [by exists s|].
  destruct (IH _ Hlt s1 eq_refl (completing_inv s s1 Hs H1) Hts1) as (s' & Hr & Hq).
  exists s'. split; [by eapply rtc_l|done].
Qed.

(** ** Theorems *)

(** C31: The busy-forbidden protocol refines the abstract readers-writer lock: in
    every reachable state, a step of a thread, interleaved with the others in
    any way, either leaves the abstract lock as it is or is one of the thread's
    own atomic operations on it ([lock_exclusive] only without a writer and
    without readers, [lock_shared] only without a writer). *)
Theorem busy_forbidden_refines s t c s' :
  reachable s -> exec t c s = Some s' ->
  abstraction s' = abstraction s \/ rw_step t (abstraction s) (abstraction s').
Proof. intros Hr. apply refinement_step. by apply reachable_inv. Qed.

(** C33: No assertion of the lock can fail in a reachable state, and while a
    thread is between [lock] and [unlock] no thread has a shared lock and no
    other thread has the exclusive one. *)
Theorem shared_mutex_safe s :
  reachable s ->
  (forall t, asserts s t = true) /\
  (forall t u, at_ s t = exclusive -> m_lock_depth s u = 0 /\ (at_ s u = exclusive -> u = t)).
Proof.
  intros Hs%reachable_inv. split; [intros t; by apply asserts_hold|]. intros t u Ht. split.
  - by apply (writer_excludes s t).
  - intros Hu. apply (holder_unique s u t Hs); [by rewrite Hu|by rewrite Ht].
Qed.

(** C32: The lock does not deadlock: from every reachable state the calls in
    progress can all be completed and the locks released, without any new
    [lock], [lock_shared], construction or destruction, until no thread is
    inside a call, the mutex is free and all flags are cleared. *)
Theorem shared_mutex_completes s :
  reachable s -> exists s', rtc completing s s' /\ quiescent s'.
Proof.
  intros Hr. destruct (reachable_threads s Hr) as [ts Hts].
  apply (completes ts s); [by apply reachable_inv|done].
Qed.

(** *** Witnesses: a writer and a reader *)

Fixpoint run (ops : list (nat * option call)) (s : state) : option state :=
  match ops with
  | [] => Some s
  | (t, c) :: ops => match exec t c s with Some s => run ops s | None => None end
  end.

Lemma run_reachable ops s s' : reachable s -> run ops s = Some s' -> reachable s'.
Proof.
  revert s. induction ops as [|[t c] ops IH]; cbn; intros s Hr H; [by simplify_eq|].
  destruct (exec t c s) as [s1|] eqn:E; [|done]. apply (IH s1); [|done].
  eapply rtc_r; [exact Hr|]. by exists t, c.
Qed.

Definition construct_ops (t : nat) : list (nat * option call) :=
  [(t, Some c_construct); (t, None); (t, None); (t, None)].

(** Threads 0 and 1 have an object; 0 takes the exclusive lock and 1 waits for
    a shared one. *)
Definition contention : list (nat * option call) :=
  construct_ops 0 ++ construct_ops 1 ++
  [(0, Some c_lock); (0, None); (0, None); (1, Some c_lock_shared); (1, None); (0, None); (0, None);
   (1, None); (1, None); (0, None); (0, None); (0, None)].

Definition contended : state := default initial (run contention initial).

Lemma contended_reachable : reachable contended.
Proof.
  apply (run_reachable contention initial); [apply rtc_refl|].
  unfold contended. destruct (run contention initial) eqn:E; [done|]. vm_compute in E. done.
Qed.

Lemma busy_forbidden_refines_witness :
  let s' := goto 0 (clear_forbidden 0) contended in
  abstraction s' = abstraction contended \/ rw_step 0 (abstraction contended) (abstraction s').
Proof.
  apply (busy_forbidden_refines contended 0 (Some c_unlock) _ contended_reachable).
  vm_compute. reflexivity.
Defined.

Lemma shared_mutex_safe_witness : at_ contended 0 = exclusive /\ m_lock_depth contended 1 = 0.
Proof.
  split; [by vm_compute|].
  exact (proj1 (proj2 (shared_mutex_safe contended contended_reachable) 0 1 eq_refl)).
Defined.

Lemma shared_mutex_completes_witness : exists s', rtc completing contended s' /\ quiescent s'.
Proof. exact (shared_mutex_completes contended contended_reachable). Defined.

End SharedMutex.

(** * The registry of the objects

    Construction, copying, moving and destruction of [shared_mutex] objects; an
    object is its address, shared data is a number.  None of these may overlap
    a lock, so each is one step; [None] is a failing [assert]. *)
Module Registry.

Record registry : Type := mk_registry {
  m_shared : gmap nat nat;         (* the attribute of every living object *)
  other : gmap nat (list nat);     (* the list of every shared data *)
}.

Definition empty : registry := mk_registry ∅ ∅.

Definition registered (r : registry) (d : nat) : list nat := default [] (other r !! d).

(** [shared_mutex_data::register_mutex] *)
Definition register_mutex (d o : nat) (r : registry) : registry :=
  mk_registry (m_shared r) (<[d := registered r d ++ [o]]> (other r)).

(** [shared_mutex_data::unregister_mutex] *)
Definition unregister_mutex (d o : nat) (r : registry) : option registry :=
  if decide (o ∈ registered r d)
  then Some (mk_registry (m_shared r) (<[d := SharedMutex.erase o (registered r d)]> (other r)))
  else None.

Definition set_shared (o d : nat) (r : registry) : registry :=
  mk_registry (<[o := d]> (m_shared r)) (other r).

(** [shared_mutex()]: new data [d] for the new object [o]. *)
Definition construct (o d : nat) (r : registry) : option registry :=
  match m_shared r !! o, other r !! d with
  | None, None => Some (register_mutex d o (set_shared o d r))
  | _, _ => None
  end.

(** [shared_mutex(const shared_mutex&)] and [shared_mutex(shared_mutex&&)],
    which do the same. *)
Definition copy_construct (o from : nat) (r : registry) : option registry :=
  match m_shared r !! o, m_shared r !! from with
  | None, Some d => Some (register_mutex d o (set_shared o d r))
  | _, _ => None
  end.

(** [~shared_mutex()] *)
Definition destroy (o : nat) (r : registry) : option registry :=
  match m_shared r !! o with
  | None => None
  | Some d =>
      match unregister_mutex d o r with
      | None => None
      | Some r => Some (mk_registry (delete o (m_shared r)) (other r))
      end
  end.

(** [operator=(const shared_mutex&)] *)
Definition copy_assign (o from : nat) (r : registry) : option registry :=
  if o =? from then Some r else
  match m_shared r !! o, m_shared r !! from with
  | Some d, Some d' =>
      match unregister_mutex d o r with
      | None => None
      | Some r => Some (register_mutex d' o (set_shared o d' r))
      end
  | _, _ => None
  end.

(** [operator=(shared_mutex&&)] *)
Definition move_assign (o from : nat) (r : registry) : option registry :=
  if o =? from then Some r else
  match copy_assign o from r, m_shared r !! from with
  | Some r, Some d' => unregister_mutex d' from r
  | _, _ => None
  end.

(** The lists hold exactly the living objects, each in the list of its data. *)
Record wf (r : registry) : Prop := {
  wf_registered : forall o d, o ∈ registered r d <-> m_shared r !! o = Some d;
  wf_nodup : forall d, NoDup (registered r d)
}.

Lemma empty_wf : wf empty.
Proof.
  split; unfold registered; cbn; intros; rewrite lookup_empty; [|constructor].
  cbn. by rewrite elem_of_nil.
Qed.

Lemma registered_insert r m d l d' :
  registered (mk_registry m (<[d := l]> (other r))) d' = if decide (d' = d) then l else registered r d'.
Proof.
  unfold registered. cbn. case_decide; subst; [by rewrite lookup_insert_eq|].
  by rewrite lookup_insert_ne by congruence.
Qed.

(** Registering an object that is in no list. *)
Lemma register_wf r o d :
  (forall d', o ∉ registered r d') ->
  (forall o' d', o' <> o -> o' ∈ registered r d' <-> m_shared r !! o' = Some d') ->
  (forall d', NoDup (registered r d')) ->
  wf (register_mutex d o (set_shared o d r)).
Proof.
  intros Hn Hl Hd. unfold register_mutex, set_shared. cbn. split.
  - intros o' d'. rewrite registered_insert. cbn. destruct (decide (o' = o)) as [->|Ho].
    + rewrite lookup_insert_eq. case_decide as E; [subst d'|].
      * rewrite elem_of_app, list_elem_of_singleton. split; [done|by right].
      * split; [by intros ?%Hn|congruence].
    + rewrite lookup_insert_ne by congruence. case_decide as E; [subst d'|by apply Hl].
      rewrite elem_of_app, list_elem_of_singleton, <- Hl by done. unfold registered at 1. cbn.
      split; [intros [?|?]; done|by left].
  - intros d'. rewrite registered_insert. case_decide as E; [subst d'|done].
    apply NoDup_app. split; [apply Hd|]. split; [|apply NoDup_singleton].
    intros x Hx Hx'%list_elem_of_singleton. subst. by apply (Hn d).
Qed.

(** Unregistering a living object succeeds. *)
Lemma unregister_ok r o d :
  wf r -> m_shared r !! o = Some d ->
  exists r', unregister_mutex d o r = Some r' /\ m_shared r' = m_shared r /\
    (forall d', NoDup (registered r' d')) /\ (forall d', o ∉ registered r' d') /\
    (forall o' d', o' <> o -> o' ∈ registered r' d' <-> m_shared r !! o' = Some d').
Proof.
  intros Hw Ho. unfold unregister_mutex. rewrite decide_True by (by apply (wf_registered r Hw)).
  eexists. split; [done|]. split; [done|].
  destruct (SharedMutex.erase_spec o (registered r d) (wf_nodup r Hw d)) as [H1 H2].
  split; [|split].
  - intros d'. rewrite registered_insert. case_decide; [done|apply (wf_nodup r Hw)].
  - intros d'. rewrite registered_insert. case_decide as E; [rewrite H2; tauto|].
    rewrite (wf_registered r Hw). congruence.
  - intros o' d' Hn. rewrite registered_insert, <- (wf_registered r Hw). case_decide as E; [|done].
    subst. rewrite H2. tauto.
Qed.

Lemma destroy_ok r o d :
  wf r -> m_shared r !! o = Some d -> exists r', destroy o r = Some r' /\ wf r'.
Proof.
  intros Hw Ho. destruct (unregister_ok r o d Hw Ho) as (r1 & E & Em & Hd & Hn & Hl).
  unfold destroy. rewrite Ho, E. eexists. split; [done|]. split; [|done].
  intros o' d'. unfold registered. cbn. change (default [] (other r1 !! d')) with (registered r1 d').
  destruct (decide (o' = o)) as [->|Hoo].
  - rewrite lookup_delete_eq. split; [by intros ?%Hn|done].
  - rewrite lookup_delete_ne by congruence. rewrite Em. by apply Hl.
Qed.

Lemma construct_ok r o d :
  wf r -> m_shared r !! o = None -> other r !! d = None ->
  exists r', construct o d r = Some r' /\ wf r'.
Proof.
  intros Hw Ho Hd. unfold construct. rewrite Ho, Hd. eexists. split; [done|]. apply register_wf.
  - intros d' H. apply (wf_registered r Hw) in H. congruence.
  - intros o' d' _. apply (wf_registered r Hw).
  - apply (wf_nodup r Hw).
Qed.

Lemma copy_construct_ok r o from d :
  wf r -> m_shared r !! o = None -> m_shared r !! from = Some d ->
  exists r', copy_construct o from r = Some r' /\ wf r'.
Proof.
  intros Hw Ho Hf. unfold copy_construct. rewrite Ho, Hf. eexists. split; [done|]. apply register_wf.
  - intros d' H. apply (wf_registered r Hw) in H. congruence.
  - intros o' d' _. apply (wf_registered r Hw).
  - apply (wf_nodup r Hw).
Qed.

Lemma copy_assign_ok r o from d d' :
  wf r -> m_shared r !! o = Some d -> m_shared r !! from = Some d' ->
  exists r', copy_assign o from r = Some r' /\ wf r' /\
    m_shared r' !! o = Some d' /\ m_shared r' !! from = Some d'.
Proof.
  intros Hw Ho Hf. unfold copy_assign. destruct (Nat.eqb_spec o from) as [<-|Hn].
  - exists r. rewrite Hf in *. auto.
  - destruct (unregister_ok r o d Hw Ho) as (r1 & E & Em & Hd & Hno & Hl).
    rewrite Ho, Hf, E. eexists. split; [done|]. cbn. rewrite lookup_insert_eq, lookup_insert_ne, Em by congruence.
    split; [|done]. apply register_wf; [done| |done]. by rewrite Em.
Qed.

(** Construction, copy construction (and move construction, which is the
    same code), destruction and copy assignment keep every living object in
    exactly the list of its shared data, once; their assertions hold. *)
Lemma registry_operations_ok r :
  wf r ->
  (forall o d, m_shared r !! o = None -> other r !! d = None ->
     exists r', construct o d r = Some r' /\ wf r') /\
  (forall o from d, m_shared r !! o = None -> m_shared r !! from = Some d ->
     exists r', copy_construct o from r = Some r' /\ wf r') /\
  (forall o d, m_shared r !! o = Some d -> exists r', destroy o r = Some r' /\ wf r') /\
  (forall o from d d', m_shared r !! o = Some d -> m_shared r !! from = Some d' ->
     exists r', copy_assign o from r = Some r' /\ wf r' /\ m_shared r' !! o = Some d').
Proof.
  intros Hw. repeat split.
  - intros o d. by apply construct_ok.
  - intros o from d. by apply copy_construct_ok.
  - intros o d. by apply destroy_ok.
  - intros o from d d' Ho Hf. destruct (copy_assign_ok r o from d d' Hw Ho Hf) as (r' & ? & ? & ? & _). eauto.
Qed.

(** Objects 0 and 1, of different groups. *)
Definition two_objects : registry :=
  default empty (construct 0 0 empty ≫= construct 1 1).

Lemma two_objects_wf : wf two_objects.
Proof.
  destruct (construct_ok empty 0 0 empty_wf eq_refl eq_refl) as (r1 & E1 & H1).
  assert (Em : m_shared r1 !! 1 = None) by (injection E1 as <-; reflexivity).
  assert (Eo : other r1 !! 1 = None) by (injection E1 as <-; reflexivity).
  destruct (construct_ok r1 1 1 H1 Em Eo) as (r2 & E2 & H2).
  unfold two_objects. rewrite E1. cbn [mbind option_bind]. by rewrite E2.
Qed.

(** Move assignment unregisters the moved-from object but leaves its
    [m_shared]: the object is then in no list, so that its destructor, which
    unregisters it again, violates the assertion of [unregister_mutex] (and
    erases [end()] where assertions are disabled). *)
Lemma move_assign_destroy_fails r o from d d' :
  wf r -> o <> from -> m_shared r !! o = Some d -> m_shared r !! from = Some d' ->
  exists r', move_assign o from r = Some r' /\ (forall e, from ∉ registered r' e) /\ destroy from r' = None.
Proof.
  intros Hw Hn Ho Hf. destruct (copy_assign_ok r o from d d' Hw Ho Hf) as (r1 & E1 & H1 & _ & Hf1).
  destruct (unregister_ok r1 from d' H1 Hf1) as (r2 & E2 & Em & _ & Hno & _).
  unfold move_assign. destruct (Nat.eqb_spec o from) as [|_]; [done|]. rewrite E1, Hf, E2.
  exists r2. split; [done|]. split; [done|]. unfold destroy. rewrite Em, Hf1.
  unfold unregister_mutex. by rewrite decide_False.
Qed.

End Registry.
