(* ===== verification/Lts.v ===== *)
(** * Labelled transition systems
    ([transition.h], [detail/transition.h], [lts.h] and the indexed vectors of
    [lts_utilities.h] and [liblts_scc.h], of [libraries/lts])

    The class [lts] as a record and its member functions; an assertion that fails
    is [None].  The label classes are parameters of the C++ template: here types
    with their default value, the internal action and [hide_actions].  The
    theorems: hiding actions transforms the labels of the transitions pointwise,
    and the transitions per state are grouped exactly. *)

From Stdlib Require Import Lia.
From stdpp Require Import base numbers sets list gmap sorting strings.
From S2P Require Import Prelude.

#[local] Arguments Nat.ltb : simpl never.
#[local] Arguments Nat.eqb : simpl never.

(** ** Transitions *)

Record transition : Type := Transition { from : nat; label : nat; to : nat }.

#[export] Instance transition_eq_dec : EqDecision transition.
Proof. solve_decision. Defined.

Definition const_tau_label_index : nat := 0.

Inductive transition_sort_style : Type :=
| src_lbl_tgt | lbl_tgt_src | tgt_lbl_src | tgt_src_lbl | tgt_lbl | target.

(** [detail::apply_hidden_labels] *)
Definition apply_hidden_labels (n : nat) (hidden_action_set : gset nat) : nat :=
  if decide (n ∈ hidden_action_set) then const_tau_label_index else n.

Definition compare_transitions_slt (hide : gset nat) (t1 t2 : transition) : bool :=
  if negb (from t1 =? from t2) then from t1 <? from t2
  else
    let n1 := apply_hidden_labels (label t1) hide in
    let n2 := apply_hidden_labels (label t2) hide in
    if negb (n1 =? n2) then n1 <? n2 else to t1 <? to t2.

Definition compare_transitions_lts (hide : gset nat) (t1 t2 : transition) : bool :=
  let n1 := apply_hidden_labels (label t1) hide in
  let n2 := apply_hidden_labels (label t2) hide in
  if negb (n1 =? n2) then n1 <? n2
  else if negb (to t1 =? to t2) then to t1 <? to t2 else from t1 <? from t2.

Definition compare_transitions_tls (hide : gset nat) (t1 t2 : transition) : bool :=
  if negb (to t1 =? to t2) then to t1 <? to t2
  else
    let n1 := apply_hidden_labels (label t1) hide in
    let n2 := apply_hidden_labels (label t2) hide in
    if negb (n1 =? n2) then n1 <? n2 else from t1 <? from t2.

Definition compare_transitions_tsl (hide : gset nat) (t1 t2 : transition) : bool :=
  if negb (to t1 =? to t2) then to t1 <? to t2
  else if negb (from t1 =? from t2) then from t1 <? from t2
  else apply_hidden_labels (label t1) hide <? apply_hidden_labels (label t2) hide.

Definition compare_transitions_tl (hide : gset nat) (t1 t2 : transition) : bool :=
  if negb (to t1 =? to t2) then to t1 <? to t2
  else apply_hidden_labels (label t1) hide <? apply_hidden_labels (label t2) hide.

Definition compare_transitions_target (t1 t2 : transition) : bool := to t1 <? to t2.

(** [transition::operator<] *)
Definition transition_lt (t1 t2 : transition) : bool :=
  (from t1 <? from t2) ||
  ((from t1 =? from t2) &&
   ((label t1 <? label t2) || ((label t1 =? label t2) && (to t1 <? to t2)))).

(** [std::sort]: the elements in an order in which none is less than an earlier
    one. *)
Definition not_less {A} (less : A -> A -> bool) (x y : A) : Prop := less y x = false.

#[export] Instance not_less_dec {A} (less : A -> A -> bool) : RelDecision (not_less less).
Proof. intros x y. unfold not_less. apply _. Defined.

Definition std_sort {A} (less : A -> A -> bool) : list A -> list A := merge_sort (not_less less).

Definition compare_transitions (ts : transition_sort_style) (hide : gset nat) :
    transition -> transition -> bool :=
  match ts with
  | lbl_tgt_src => compare_transitions_lts hide
  | tgt_src_lbl => compare_transitions_tsl hide
  | tgt_lbl_src => compare_transitions_tls hide
  | tgt_lbl => compare_transitions_tl hide
  | target => compare_transitions_target
  | src_lbl_tgt => compare_transitions_slt hide
  end.

Definition sort_transitions (transitions : list transition) (hidden_label_set : gset nat)
    (ts : transition_sort_style) : list transition :=
  std_sort (compare_transitions ts hidden_label_set) transitions.

(** *** Properties of the orderings *)

(** The key the transitions are compared by, lexicographically. *)
Definition sort_key (ts : transition_sort_style) (hide : gset nat) (t : transition) : list nat :=
  let l := apply_hidden_labels (label t) hide in
  match ts with
  | src_lbl_tgt => [from t; l; to t]
  | lbl_tgt_src => [l; to t; from t]
  | tgt_lbl_src => [to t; l; from t]
  | tgt_src_lbl => [to t; from t; l]
  | tgt_lbl => [to t; l]
  | target => [to t]
  end.

Fixpoint lex_lt (k1 k2 : list nat) : bool :=
  match k1, k2 with
  | x :: k1, y :: k2 => (x <? y) || ((x =? y) && lex_lt k1 k2)
  | _, _ => false
  end.

Lemma lex_lt_step x y b : (if negb (x =? y) then x <? y else b) = (x <? y) || ((x =? y) && b).
Proof. destruct (Nat.eqb_spec x y) as [->|]; cbn; [by rewrite Nat.ltb_irrefl|by rewrite orb_false_r]. Qed.

Lemma compare_transitions_key ts hide t1 t2 :
  compare_transitions ts hide t1 t2 = lex_lt (sort_key ts hide t1) (sort_key ts hide t2).
Proof.
  destruct ts; cbn; unfold compare_transitions_slt, compare_transitions_lts, compare_transitions_tls,
    compare_transitions_tsl, compare_transitions_tl, compare_transitions_target; cbn;
    rewrite ?lex_lt_step, ?andb_false_r, ?orb_false_r; done.
Qed.

(** [lex_lt] is a strict weak ordering; on keys of the same length it is total. *)
Lemma lex_lt_total k1 k2 :
  length k1 = length k2 -> lex_lt k1 k2 = false -> lex_lt k2 k1 = false -> k1 = k2.
Proof.
  revert k2. induction k1 as [|x k1 IH]; intros [|y k2]; cbn; try done. intros [= Hl].
  destruct (Nat.ltb_spec x y), (Nat.ltb_spec y x); cbn; try done; try lia.
  destruct (Nat.eqb_spec x y), (Nat.eqb_spec y x); cbn; try lia. intros. f_equal; auto.
Qed.

Lemma lex_lt_trans k1 k2 k3 :
  length k1 = length k2 -> length k2 = length k3 ->
  lex_lt k2 k1 = false -> lex_lt k3 k2 = false -> lex_lt k3 k1 = false.
Proof.
  revert k2 k3. induction k1 as [|x k1 IH]; intros [|y k2] [|z k3]; cbn; try done.
  intros [= H1] [= H2] [H3 H4]%orb_false_iff [H5 H6]%orb_false_iff.
  apply Nat.ltb_ge in H3, H5. apply orb_false_iff. split; [apply Nat.ltb_ge; lia|].
  destruct (Nat.eqb_spec z x) as [->|]; [|done]. cbn. assert (x = y) as -> by lia.
  rewrite Nat.eqb_refl in H4, H6. by apply (IH k2 k3).
Qed.

Lemma lex_lt_asym k1 k2 : lex_lt k1 k2 = true -> lex_lt k2 k1 = false.
Proof.
  revert k2. induction k1 as [|x k1 IH]; intros [|y k2]; cbn; try done.
  destruct (Nat.ltb_spec x y), (Nat.ltb_spec y x), (Nat.eqb_spec x y), (Nat.eqb_spec y x); cbn; try done; try lia.
  auto.
Qed.

Lemma sort_key_length ts hide t1 t2 : length (sort_key ts hide t1) = length (sort_key ts hide t2).
Proof. by destruct ts. Qed.

Lemma sort_transitions_perm l hide ts : sort_transitions l hide ts ≡ₚ l.
Proof. apply merge_sort_Permutation. Qed.

Lemma sort_transitions_sorted l hide ts :
  StronglySorted (not_less (compare_transitions ts hide)) (sort_transitions l hide ts).
Proof.
  apply StronglySorted_merge_sort.
  - intros t1 t2 t3. unfold not_less. rewrite !compare_transitions_key. apply lex_lt_trans; apply sort_key_length.
  - intros t1 t2. unfold not_less. rewrite !compare_transitions_key.
    destruct (lex_lt (sort_key ts hide t2) (sort_key ts hide t1)) eqn:E; [right|by left].
    by apply lex_lt_asym.
Qed.

(** ** The transitions per state

    [indexed_sorted_vector_for_transitions] and
    [indexed_sorted_vector_for_tau_transitions] are built by the same loops; they
    differ in the transitions that are kept and in what is stored of them. *)
Section Indexed.
Context {C : Type} `{!Inhabited C} (keep : transition -> bool) (key : transition -> nat)
  (content : transition -> C).

(** "First count the number of outgoing transitions per state" *)
Definition count_step (m_indices : list nat) (t : transition) : list nat :=
  if keep t then <[key t := S (m_indices !!! key t)]> m_indices else m_indices.

(** "Calculate the m_indices where the states ... must be placed" *)
Fixpoint accumulate (sum : nat) (m_indices : list nat) : list nat :=
  match m_indices with
  | [] => []
  | i :: m_indices => sum + i :: accumulate (sum + i) m_indices
  end.

(** "store them in reverse order, while at the same time decrementing the
    indices" *)
Definition place_step (v : list C * list nat) (t : transition) : list C * list nat :=
  if keep t then
    let i := pred (v.2 !!! key t) in
    (<[i := content t]> v.1, <[key t := i]> v.2)
  else v.

Definition indexed_sorted_vector (transitions : list transition) (num_states : nat) :
    list C * list nat :=
  let m_indices := foldl count_step (replicate (S num_states) 0) transitions in
  let sums := accumulate 0 m_indices in
  let sum := default 0 (last sums) in
  foldl place_step (replicate sum inhabitant, sums) transitions.

(** *** What the vector holds *)

(** The kept transitions of state [s], in order. *)
Definition selected (s : nat) (ts : list transition) : list transition :=
  filter (fun t => keep t = true /\ key t = s) ts.

(** The number of kept transitions of states below [s]. *)
Fixpoint below (s : nat) (ts : list transition) : nat :=
  match s with
  | 0 => 0
  | S s => below s ts + length (selected s ts)
  end.

Lemma selected_snoc s ts t :
  selected s (ts ++ [t]) = selected s ts ++ (if keep t && (key t =? s) then [t] else []).
Proof.
  unfold selected. rewrite filter_app, filter_cons, filter_nil. f_equal.
  destruct (keep t); cbn; [|by rewrite decide_False by (by intros [])].
  destruct (Nat.eqb_spec (key t) s); [by rewrite decide_True|by rewrite decide_False by (by intros [])].
Qed.

Lemma below_mono s s' ts : s <= s' -> below s ts <= below s' ts.
Proof. induction 1; cbn; lia. Qed.

Lemma count_spec n ts s :
  s <= n -> (forall t, t ∈ ts -> keep t = true -> key t < n) ->
  foldl count_step (replicate (S n) 0) ts !! s = Some (length (selected s ts)).
Proof.
  revert s. induction ts as [|t ts IH] using rev_ind; intros s Hs Hk.
  - cbn [foldl]. by rewrite lookup_replicate_2 by lia.
  - rewrite foldl_snoc, selected_snoc, length_app.
    assert (IH' : forall s, s <= n -> foldl count_step (replicate (S n) 0) ts !! s = Some (length (selected s ts))).
    { intros s' Hs'. apply IH; [done|]. intros t' Ht'. apply Hk, elem_of_app. by left. }
    unfold count_step at 1. destruct (keep t) eqn:Et; cbn [andb length]; [|rewrite IH' by done; f_equal; lia].
    assert (Hkt : key t < n) by (apply Hk; [apply elem_of_app; right; by apply list_elem_of_singleton|done]).
    rewrite (list_lookup_total_correct (A:=nat) _ (key t) _ (IH' (key t) ltac:(lia))).
    destruct (Nat.eqb_spec (key t) s) as [<-|Hn].
    + rewrite list_lookup_insert_eq by (eapply lookup_lt_Some, IH'; lia). cbn. f_equal. lia.
    + rewrite list_lookup_insert_ne, IH' by done. cbn. f_equal. lia.
Qed.

Lemma count_length n ts : length (foldl count_step (replicate (S n) 0) ts) = S n.
Proof.
  induction ts as [|t ts IH] using rev_ind; [apply length_replicate|].
  rewrite foldl_snoc. unfold count_step at 1. case_match; [by rewrite length_insert|done].
Qed.

Lemma accumulate_length l sum : length (accumulate sum l) = length l.
Proof. revert sum. induction l as [|x l IH]; intros sum; cbn; [done|]. by rewrite IH. Qed.

Lemma accumulate_lookup l sum i :
  accumulate sum l !! i = match l !! i with None => None | Some _ => Some (sum + sum_list (take (S i) l)) end.
Proof.
  revert sum i. induction l as [|x l IH]; intros sum i; [done|]. destruct i as [|i]; cbn.
  - rewrite take_0. cbn. f_equal. lia.
  - rewrite IH. destruct (l !! i); [|done]. f_equal. cbn. lia.
Qed.

Lemma sum_take_below l ts n :
  (forall s, s <= n -> l !! s = Some (length (selected s ts))) ->
  forall i, i <= n -> sum_list (take (S i) l) = below (S i) ts.
Proof.
  intros H i Hi. induction i as [|i IH].
  - specialize (H 0 ltac:(lia)). destruct l; [done|]. injection H as ->. cbn. rewrite take_0. cbn. lia.
  - rewrite (take_S_r l (S i) _ (H (S i) Hi)), sum_list_with_app, IH by lia. cbn. lia.
Qed.

Lemma sums_spec n ts s :
  s <= n -> (forall t, t ∈ ts -> keep t = true -> key t < n) ->
  accumulate 0 (foldl count_step (replicate (S n) 0) ts) !! s = Some (below (S s) ts).
Proof.
  intros Hs Hk. rewrite accumulate_lookup, (count_spec n ts s Hs Hk).
  f_equal. apply (sum_take_below _ ts n); [|done]. intros s' Hs'. by apply count_spec.
Qed.

Lemma selected_app s p q : selected s (p ++ q) = selected s p ++ selected s q.
Proof. apply filter_app. Qed.

(** The vector and the indices after the transitions [p] of [ts] are placed. *)
Record placed (n : nat) (ts p : list transition) (v : list C * list nat) : Prop := {
  placed_length : length v.1 = below (S n) ts;
  placed_indices : length v.2 = S n;
  placed_index : forall s, s <= n -> v.2 !! s = Some (below (S s) ts - length (selected s p));
  placed_content : forall s k, s <= n -> k < length (selected s p) ->
    v.1 !! (below (S s) ts - S k) = content <$> selected s p !! k
}.

Lemma place_step_placed n ts p t q v :
  ts = p ++ t :: q -> (keep t = true -> key t < n) ->
  placed n ts p v -> placed n ts (p ++ [t]) (place_step v t).
Proof.
  intros Ets Hk [Hl Hi Hx Hc]. unfold place_step. destruct (keep t) eqn:Et.
  2: { split; [done..| |]; intros s; [|intros k]; rewrite selected_snoc, Et; cbn [andb]; rewrite app_nil_r; auto. }
  specialize (Hk eq_refl). assert (Hsel : forall s, length (selected s p) + (if key t =? s then 1 else 0) <= length (selected s ts)).
  { intros s. replace ts with ((p ++ [t]) ++ q) by (by rewrite Ets, <- app_assoc).
    rewrite selected_app, selected_snoc, Et, !length_app. cbn [andb]. case_match; cbn [length]; lia. }
  rewrite (list_lookup_total_correct (A:=nat) _ (key t) _ (Hx (key t) ltac:(lia))).
  pose proof (Hsel (key t)) as Hkt. rewrite Nat.eqb_refl in Hkt.
  assert (Hpos : pred (below (S (key t)) ts - length (selected (key t) p)) = below (S (key t)) ts - S (length (selected (key t) p))) by (cbn; lia).
  rewrite Hpos. split.
  - cbn [fst]. by rewrite length_insert.
  - cbn [snd]. by rewrite length_insert.
  - intros s Hs. cbn [snd]. rewrite selected_snoc, Et, length_app. cbn [andb].
    destruct (Nat.eqb_spec (key t) s) as [<-|Hn].
    + rewrite list_lookup_insert_eq by lia. cbn [length]. f_equal. lia.
    + rewrite list_lookup_insert_ne, Hx by done. cbn [length]. f_equal. lia.
  - intros s k Hs. cbn [fst]. rewrite selected_snoc, Et. cbn [andb]. intros Hlt.
    pose proof (Hsel s) as Hss.
    destruct (Nat.eqb_spec (key t) s) as [<-|Hn].
    + rewrite length_app in Hlt. cbn [length] in Hlt.
      destruct (decide (k = length (selected (key t) p))) as [->|Hk'].
      * rewrite list_lookup_insert_eq.
        -- rewrite lookup_app_r, Nat.sub_diag by lia. done.
        -- rewrite Hl. pose proof (below_mono (S (key t)) (S n) ts ltac:(lia)). cbn [below] in *. lia.
      * rewrite list_lookup_insert_ne by (cbn [below]; lia). rewrite Hc, lookup_app_l by lia. done.
    + rewrite app_nil_r in Hlt. rewrite app_nil_r in *. rewrite list_lookup_insert_ne; [by apply Hc|].
      destruct (decide (key t < s)).
      * pose proof (below_mono (S (key t)) s ts ltac:(lia)). cbn [below] in *. lia.
      * pose proof (below_mono (S s) (key t) ts ltac:(lia)). cbn [below] in *. lia.
Qed.

Lemma place_spec n ts :
  (forall t, t ∈ ts -> keep t = true -> key t < n) ->
  placed n ts ts (indexed_sorted_vector ts n).
Proof.
  intros Hk. unfold indexed_sorted_vector.
  set (sums := accumulate 0 _). assert (Hs : forall s, s <= n -> sums !! s = Some (below (S s) ts)).
  { intros s Hs. by apply sums_spec. }
  assert (Hl : length sums = S n).
  { unfold sums. by rewrite accumulate_length, count_length. }
  assert (Hlast : default 0 (last sums) = below (S n) ts).
  { rewrite last_lookup, Hl. cbn [pred]. by rewrite Hs. }
  rewrite Hlast.
  enough (H : forall p q, ts = p ++ q -> placed n ts p (foldl place_step (replicate (below (S n) ts) inhabitant, sums) p)).
  { apply (H ts []). by rewrite app_nil_r. }
  induction p as [|t p IH] using rev_ind; intros q E.
  - split; cbn [foldl fst snd]; [by rewrite length_replicate|done| |cbn; lia].
    intros s Hsn. rewrite Hs by done. f_equal. cbn [selected]. unfold selected. rewrite filter_nil. cbn. lia.
  - rewrite foldl_snoc. apply (place_step_placed n ts p t q).
    + by rewrite E, <- app_assoc.
    + apply Hk. rewrite E, <- app_assoc. apply elem_of_app. right. left.
    + apply (IH (t :: q)). by rewrite E, <- app_assoc.
Qed.

Definition get_transitions (v : list C * list nat) : list C := v.1.
Definition lowerbound (v : list C * list nat) (s : nat) : nat := v.2 !!! s.
Definition upperbound (v : list C * list nat) (s : nat) : nat := v.2 !!! S s.

Context (n : nat) (ts : list transition) (Hk : forall t, t ∈ ts -> keep t = true -> key t < n).

Lemma lowerbound_spec s : s <= n -> lowerbound (indexed_sorted_vector ts n) s = below s ts.
Proof.
  intros Hs. unfold lowerbound.
  rewrite (list_lookup_total_correct (A:=nat) _ _ _ (placed_index _ _ _ _ (place_spec n ts Hk) s Hs)).
  cbn [below]. lia.
Qed.

Lemma upperbound_spec s : s < n -> upperbound (indexed_sorted_vector ts n) s = below (S s) ts.
Proof. intros Hs. apply (lowerbound_spec (S s)). lia. Qed.

Lemma get_transitions_length : length (get_transitions (indexed_sorted_vector ts n)) = below n ts.
Proof.
  unfold get_transitions. rewrite (placed_length _ _ _ _ (place_spec n ts Hk)). cbn [below].
  destruct (selected n ts) as [|t l] eqn:E; [cbn; lia|].
  assert (Ht : t ∈ selected n ts) by (rewrite E; left).
  apply list_elem_of_filter in Ht as [[Ht1 Ht2] Ht3]. specialize (Hk t Ht3 Ht1). lia.
Qed.

Lemma get_transitions_lookup s k :
  s < n -> k < length (selected s ts) ->
  get_transitions (indexed_sorted_vector ts n) !! (below s ts + k)
  = reverse (content <$> selected s ts) !! k.
Proof.
  intros Hs Hlt. pose proof (placed_content _ _ _ _ (place_spec n ts Hk) s (length (selected s ts) - S k)) as Hc.
  rewrite reverse_lookup, length_fmap, list_lookup_fmap by (by rewrite length_fmap).
  unfold get_transitions. rewrite <- Hc by lia. f_equal. cbn [below]. lia.
Qed.

Lemma indexed_slice s :
  s < n ->
  take (upperbound (indexed_sorted_vector ts n) s - lowerbound (indexed_sorted_vector ts n) s)
    (drop (lowerbound (indexed_sorted_vector ts n) s) (get_transitions (indexed_sorted_vector ts n)))
  = reverse (content <$> selected s ts).
Proof.
  intros Hs. rewrite lowerbound_spec, upperbound_spec by lia. apply list_eq. intros i.
  destruct (decide (i < length (selected s ts))) as [Hi|Hi].
  - rewrite lookup_take_lt by (cbn [below]; lia). rewrite lookup_drop. by apply get_transitions_lookup.
  - rewrite !(proj2 (lookup_ge_None _ i)); [done|rewrite length_reverse, length_fmap; lia|].
    rewrite length_take. cbn [below]. lia.
Qed.

(** The elements of the slice of [s], by index. *)
Lemma indexed_elem s x :
  s < n ->
  (exists i, lowerbound (indexed_sorted_vector ts n) s <= i < upperbound (indexed_sorted_vector ts n) s /\
     get_transitions (indexed_sorted_vector ts n) !! i = Some x) <->
  exists t, t ∈ ts /\ keep t = true /\ key t = s /\ content t = x.
Proof.
  intros Hs. rewrite lowerbound_spec, upperbound_spec by lia. cbn [below].
  assert (E : (exists t, t ∈ ts /\ keep t = true /\ key t = s /\ content t = x) <-> x ∈ reverse (content <$> selected s ts)).
  { rewrite elem_of_reverse, list_elem_of_fmap. unfold selected. setoid_rewrite list_elem_of_filter.
    split; intros (t & H); exists t; naive_solver. }
  rewrite E, list_elem_of_lookup. split.
  - intros (i & Hi & Hx). exists (i - below s ts). rewrite <- get_transitions_lookup by lia.
    rewrite <- Hx. f_equal. lia.
  - intros (k & Hx). apply lookup_lt_Some in Hx as Hlt. rewrite length_reverse, length_fmap in Hlt.
    exists (below s ts + k). rewrite get_transitions_lookup by done. split; [lia|done].
Qed.

End Indexed.

(** ** The class [lts] *)

Section Lts.
Context {SL AL : Type} `{!EqDecision SL} `{!EqDecision AL}.

Record lts : Type := mk_lts {
  m_nstates : nat;
  m_init_state : nat;
  m_transitions : list transition;
  m_state_labels : list SL;
  m_action_labels : list AL;         (* at position 0 the label that corresponds to tau *)
  m_hidden_label_set : gset nat
}.

(** [STATE_LABEL_T()], [ACTION_LABEL_T::tau_action()] and [hide_actions] of the
    label class. *)
Context (default_label : SL) (tau_action : AL) (hide_actions : list string -> AL -> AL).

Definition set_nstates (n : nat) (l : lts) : lts :=
  mk_lts n (m_init_state l) (m_transitions l) (m_state_labels l) (m_action_labels l) (m_hidden_label_set l).
Definition set_init (s : nat) (l : lts) : lts :=
  mk_lts (m_nstates l) s (m_transitions l) (m_state_labels l) (m_action_labels l) (m_hidden_label_set l).
Definition set_transitions (ts : list transition) (l : lts) : lts :=
  mk_lts (m_nstates l) (m_init_state l) ts (m_state_labels l) (m_action_labels l) (m_hidden_label_set l).
Definition set_state_labels (sl : list SL) (l : lts) : lts :=
  mk_lts (m_nstates l) (m_init_state l) (m_transitions l) sl (m_action_labels l) (m_hidden_label_set l).
Definition set_action_labels (al : list AL) (l : lts) : lts :=
  mk_lts (m_nstates l) (m_init_state l) (m_transitions l) (m_state_labels l) al (m_hidden_label_set l).
(** [set_hidden_label_set] *)
Definition set_hidden_label_set (h : gset nat) (l : lts) : lts :=
  mk_lts (m_nstates l) (m_init_state l) (m_transitions l) (m_state_labels l) (m_action_labels l) h.

(** [lts()] *)
Definition empty_lts : lts := mk_lts 0 0 [] [] [tau_action] ∅.

Definition num_states (l : lts) : nat := m_nstates l.
Definition num_state_labels (l : lts) : nat := length (m_state_labels l).
Definition num_transitions (l : lts) : nat := length (m_transitions l).
Definition num_action_labels (l : lts) : nat := length (m_action_labels l).
Definition has_state_info (l : lts) : bool := 0 <? length (m_state_labels l).
Definition has_action_info (l : lts) : bool := 1 <? length (m_action_labels l).

(** [std::vector::resize] *)
Definition vector_resize {A} (x : A) (n : nat) (v : list A) : list A := resize n x v.

Definition set_num_states (n : nat) (has_state_labels : bool) (l : lts) : lts :=
  let l := set_nstates n l in
  if has_state_labels then
    if 0 <? length (m_state_labels l)
    then set_state_labels (vector_resize default_label n (m_state_labels l)) l
    else set_state_labels (replicate n default_label) l
  else set_state_labels [] l.

(** The default [transition()] has the value -1 in all fields. *)
Definition set_num_transitions (default_transition : transition) (n : nat) (l : lts) : lts :=
  set_transitions (vector_resize default_transition n (m_transitions l)) l.

(** New labels are [ACTION_LABEL_T()]; the assertion is that tau is still there. *)
Definition set_num_action_labels (default_action : AL) (n : nat) (l : lts) : option lts :=
  let al := vector_resize default_action n (m_action_labels l) in
  if decide (al !! const_tau_label_index = Some tau_action) then Some (set_action_labels al l) else None.

(** [swap]: this transition system and the other one afterwards. *)
Definition swap (l other : lts) : lts * lts := (other, l).

Definition set_initial_state (state : nat) (l : lts) : option lts :=
  if state <? m_nstates l then Some (set_init state l) else None.

Definition add_state (label : SL) (l : lts) : lts * nat :=
  let l' :=
    if decide (label <> default_label)
    then set_state_labels (vector_resize default_label (m_nstates l) (m_state_labels l) ++ [label]) l
    else l in
  (set_nstates (S (m_nstates l)) l', m_nstates l).

Definition add_action (label : AL) (l : lts) : option (lts * nat) :=
  if decide (label = tau_action) then Some (l, const_tau_label_index)
  else if decide (label ∈ m_action_labels l) then None
  else Some (set_action_labels (m_action_labels l ++ [label]) l, length (m_action_labels l)).

Definition set_state_label (state : nat) (label : SL) (l : lts) : option lts :=
  if (state <? m_nstates l) && (m_nstates l =? length (m_state_labels l))
  then Some (set_state_labels (<[state := label]> (m_state_labels l)) l) else None.

Definition state_label (state : nat) (l : lts) : option SL :=
  if (state <? m_nstates l) && (m_nstates l =? length (m_state_labels l))
  then m_state_labels l !! state else None.

Definition action_label (action : nat) (l : lts) : option AL := m_action_labels l !! action.

Definition set_action_label (action : nat) (label : AL) (l : lts) : option lts :=
  if decide (action < length (m_action_labels l) /\
             (action = const_tau_label_index <-> label = tau_action) /\
             (m_action_labels l !! action = Some label \/ label ∉ m_action_labels l))
  then Some (set_action_labels (<[action := label]> (m_action_labels l)) l) else None.

Definition apply_hidden_label_map (action : nat) (l : lts) : nat :=
  if decide (action ∈ m_hidden_label_set l) then const_tau_label_index else action.

Definition is_tau (action : nat) : bool := action =? const_tau_label_index.

Definition clear_transitions (l : lts) : lts := set_transitions [] l.
Definition clear_actions (l : lts) : lts := set_hidden_label_set ∅ (set_action_labels [tau_action] l).
Definition clear_state_labels (l : lts) : lts := set_state_labels [] l.
Definition clear (l : lts) : lts :=
  set_nstates 0 (clear_transitions (clear_actions (clear_state_labels l))).

Definition add_transition (t : transition) (l : lts) : lts := set_transitions (m_transitions l ++ [t]) l.

(** [add_state_number_as_state_information]; [number_to_label] is the one of the
    label class. *)
Definition add_state_number_as_state_information (number_to_label : nat -> SL) (l : lts) : option lts :=
  foldl (fun l i => l ≫= set_state_label i (number_to_label i))
    (Some (set_state_labels (vector_resize default_label (m_nstates l) (m_state_labels l)) l))
    (seq 0 (m_nstates l)).

Definition rename_hidden_labels_to_tau (l : lts) : lts :=
  if decide (m_hidden_label_set l <> ∅) then
    set_hidden_label_set ∅ (set_transitions
      ((fun t => if decide (label t ∈ m_hidden_label_set l)
                 then Transition (from t) const_tau_label_index (to t) else t) <$> m_transitions l) l)
  else l.

Definition rename_labels (action_rename_map : gmap nat nat) (l : lts) : lts :=
  set_transitions
    ((fun t => match action_rename_map !! label t with
               | Some i => Transition (from t) i (to t)
               | None => t
               end) <$> m_transitions l) l.

(** The first label equal to [a]. *)
Definition find_label (a : AL) (l : lts) : option nat := fst <$> list_find (fun b => a = b) (m_action_labels l).

Definition store_action_label_to_be_renamed (a : AL) (i : nat) (st : lts * gmap nat nat) :
    option (lts * gmap nat nat) :=
  match find_label a st.1 with
  | Some j => Some (st.1, if i =? j then st.2 else <[i := j]> st.2)
  | None => l ← set_action_label i a st.1; Some (l, st.2)
  end.

(** The body of the loop of [record_hidden_actions]. *)
Definition record_step (tau_actions : list string) (st : lts * gmap nat nat) (i : nat) :
    option (lts * gmap nat nat) :=
  b ← action_label i st.1;
  let a := hide_actions tau_actions b in
  if decide (a = tau_action) then
    Some (if i =? const_tau_label_index then st.1
          else set_hidden_label_set ({[i]} ∪ m_hidden_label_set st.1) st.1, st.2)
  else if decide (a <> b) then store_action_label_to_be_renamed a i st
  else Some st.

Definition record_hidden_actions (tau_actions : list string) (l : lts) : option lts :=
  if decide (tau_actions = []) then Some l else
  st ← foldl (fun st i => st ≫= fun st => record_step tau_actions st i) (Some (l, ∅))
         (seq 0 (num_action_labels l));
  Some (rename_labels st.2 st.1).

(** The body of the loop of [apply_hidden_actions], with its assertion. *)
Definition apply_step (tau_actions : list string) (st : lts * gmap nat nat) (i : nat) :
    option (lts * gmap nat nat) :=
  b ← action_label i st.1;
  let a := hide_actions tau_actions b in
  if decide (a = hide_actions tau_actions a) then store_action_label_to_be_renamed a i st else None.

Definition apply_hidden_actions (tau_actions : list string) (l : lts) : option lts :=
  if decide (tau_actions = []) then Some l else
  st ← foldl (fun st i => st ≫= fun st => apply_step tau_actions st i) (Some (l, ∅))
         (seq 0 (num_action_labels l));
  Some (rename_labels st.2 st.1).

(** *** Well-formedness and behaviour *)

Record wf_lts (l : lts) : Prop := {
  wf_tau : m_action_labels l !! 0 = Some tau_action;
  wf_unique : NoDup (m_action_labels l);
  wf_label : forall t, t ∈ m_transitions l -> label t < length (m_action_labels l);
  wf_from : forall t, t ∈ m_transitions l -> from t < m_nstates l;
  wf_to : forall t, t ∈ m_transitions l -> to t < m_nstates l
}.

(** The action a label number stands for, hidden labels being tau. *)
Definition action_of (l : lts) (i : nat) : option AL :=
  m_action_labels l !! apply_hidden_label_map i l.

(** The transitions with the actions they do. *)
Definition behaviour (l : lts) : list (nat * option AL * nat) :=
  (fun t => (from t, action_of l (label t), to t)) <$> m_transitions l.

Definition relabel (h : AL -> AL) (e : nat * option AL * nat) : nat * option AL * nat :=
  (e.1.1, h <$> e.1.2, e.2).

(** The loops over the labels, with the labels [L] at their start. *)
Section Hiding.
Context (h : AL -> AL) (L : list AL).
Context (Hidem : forall a, a ∈ L -> h (h a) = h a) (Htau : h tau_action = tau_action).

(** After [i] labels: the label of [j < i] is hidden, or renamed to one whose
    label is the result, or was replaced by the result. *)
Record hiding (i : nat) (st : lts * gmap nat nat) : Prop := {
  hiding_length : length (m_action_labels st.1) = length L;
  hiding_tau : m_action_labels st.1 !! 0 = Some tau_action;
  hiding_unique : NoDup (m_action_labels st.1);
  hiding_rest : forall j, i <= j -> m_action_labels st.1 !! j = L !! j;
  hiding_rest_fresh : forall j, i <= j -> st.2 !! j = None;
  hiding_hidden : forall j, j ∈ m_hidden_label_set st.1 ->
    0 < j < i /\ st.2 !! j = None /\ exists a, L !! j = Some a /\ h a = tau_action /\ m_action_labels st.1 !! j = Some a;
  hiding_done : forall j a, j < i -> L !! j = Some a -> j ∉ m_hidden_label_set st.1 ->
    let k := default j (st.2 !! j) in (k ∉ m_hidden_label_set st.1) /\ m_action_labels st.1 !! k = Some (h a)
}.

Lemma find_label_spec a (l : lts) :
  match find_label a l with
  | Some j => m_action_labels l !! j = Some a
  | None => a ∉ m_action_labels l
  end.
Proof.
  unfold find_label. destruct (list_find _ _) as [[j b]|] eqn:E; cbn.
  - apply list_find_Some in E as (Hj & -> & _). done.
  - apply list_find_None in E. rewrite Forall_forall in E. intros Ha. by apply (E a).
Qed.

Lemma NoDup_insert_fresh (l : list AL) i a : NoDup l -> a ∉ l -> NoDup (<[i := a]> l).
Proof.
  intros Hl Ha. apply NoDup_alt. intros j k b Hj Hk.
  assert (Hn : forall m, l !! m <> Some a) by (intros m Hm; apply Ha; by eapply list_elem_of_lookup_2).
  apply list_lookup_insert_Some in Hj, Hk.
  destruct Hj as [(<- & <- & _)|(Hj1 & Hj2)], Hk as [(<- & ? & _)|(Hk1 & Hk2)]; subst; try done.
  - by destruct (Hn k).
  - by destruct (Hn j).
  - by apply (NoDup_lookup l j k b).
Qed.

Context (i : nat) (st : lts * gmap nat nat) (b : AL) (Hst : hiding i st) (Hb : L !! i = Some b).

Lemma label_at : m_action_labels st.1 !! i = Some b.
Proof. rewrite (hiding_rest i st Hst); done. Qed.

Lemma not_hidden_yet : i ∉ m_hidden_label_set st.1.
Proof. intros Hi. apply (hiding_hidden i st Hst) in Hi. lia. Qed.

(** A label that is tau is the first one. *)
Lemma tau_index j : m_action_labels st.1 !! j = Some tau_action -> j = 0.
Proof.
  intros Hj. by apply (NoDup_lookup _ j 0 _ (hiding_unique i st Hst) Hj), (hiding_tau i st Hst).
Qed.

(** The steps that leave the labels as they are. *)
Lemma hiding_keep m :
  (m = st.2 \/ exists k, m = <[i := k]> st.2) ->
  (let k := default i (m !! i) in
   (k ∉ m_hidden_label_set st.1) /\ m_action_labels st.1 !! k = Some (h b)) ->
  hiding (S i) (st.1, m).
Proof.
  intros Hm Hk. destruct Hst as [H1 H2 H3 H4 H5 H6 H7].
  assert (Hml : forall j, j <> i -> m !! j = st.2 !! j).
  { intros j Hj. destruct Hm as [->|[k ->]]; [done|]. by rewrite lookup_insert_ne. }
  split; cbn [fst snd]; try done.
  - intros j Hj. apply H4. lia.
  - intros j Hj. rewrite Hml by lia. apply H5. lia.
  - intros j Hj. specialize (H6 j Hj). rewrite Hml by lia. destruct H6 as (Hji & H6). split; [lia|done].
  - intros j a Hj Ha Hh. destruct (decide (j = i)) as [->|Hn]; [by simplify_eq|].
    rewrite Hml by done. apply H7; [lia|done|done].
Qed.

(** The label is replaced by one that does not occur. *)
Lemma hiding_replace :
  h b ∉ m_action_labels st.1 ->
  hiding (S i) (set_action_labels (<[i := h b]> (m_action_labels st.1)) st.1, st.2).
Proof.
  intros Hf. pose proof label_at as Hi. destruct Hst as [H1 H2 H3 H4 H5 H6 H7].
  assert (Hi0 : i <> 0).
  { intros E. rewrite E, H2 in Hi. injection Hi as <-. rewrite Htau in Hf. destruct Hf. by eapply list_elem_of_lookup_2. }
  split; cbn.
  - by rewrite length_insert.
  - by rewrite list_lookup_insert_ne.
  - by apply NoDup_insert_fresh.
  - intros j Hj. rewrite list_lookup_insert_ne by lia. apply H4. lia.
  - intros j Hj. apply H5. lia.
  - intros j Hj. specialize (H6 j Hj). rewrite list_lookup_insert_ne by lia. destruct H6 as (Hji & H6). split; [lia|done].
  - intros j a Hj Ha Hh. destruct (decide (j = i)) as [->|Hn].
    + simplify_eq. rewrite H5 by lia. cbn. split; [done|]. apply list_lookup_insert_eq. by apply lookup_lt_Some in Hi.
    + destruct (H7 j a) as [H8 H9]; [lia|done|done|]. split; [done|].
      rewrite list_lookup_insert_ne; [done|]. intros E. rewrite <- E, Hi in H9. injection H9 as ->.
      rewrite Hidem in Hf by (by eapply list_elem_of_lookup_2). destruct Hf. by eapply list_elem_of_lookup_2.
Qed.

Lemma store_hiding :
  exists st', store_action_label_to_be_renamed (h b) i st = Some st' /\ hiding (S i) st'.
Proof.
  unfold store_action_label_to_be_renamed. pose proof (find_label_spec (h b) st.1) as Hf.
  destruct (find_label (h b) st.1) as [j|].
  - eexists. split; [done|]. destruct (Nat.eqb_spec i j) as [<-|Hn].
    + apply hiding_keep; [by left|]. rewrite (hiding_rest_fresh i st Hst) by lia.
      split; [apply not_hidden_yet|done].
    + apply hiding_keep; [right; by exists j|]. rewrite lookup_insert_eq. cbn. split; [|done].
      intros Hj. apply (hiding_hidden i st Hst) in Hj as (Hj & _ & a & _ & Ha1 & Ha2).
      rewrite Ha2 in Hf. injection Hf as ->. rewrite Hidem in Ha1 by (by eapply list_elem_of_lookup_2). rewrite Ha1 in Ha2.
      apply tau_index in Ha2. lia.
  - pose proof label_at as Hi. pose proof (hiding_replace Hf) as Hr.
    assert (Ht : tau_action ∈ m_action_labels st.1) by (eapply list_elem_of_lookup_2, (hiding_tau i st Hst)).
    unfold set_action_label. rewrite decide_True; [by eexists|].
    split; [by apply lookup_lt_Some in Hi|]. split; [|by right]. split.
    + intros E. unfold const_tau_label_index in E. rewrite E, (hiding_tau i st Hst) in Hi. injection Hi as <-. by rewrite Htau in Hf.
    + intros E. by rewrite E in Hf.
Qed.

(** The label becomes hidden. *)
Lemma hiding_hide :
  h b = tau_action -> i <> 0 ->
  hiding (S i) (set_hidden_label_set ({[i]} ∪ m_hidden_label_set st.1) st.1, st.2).
Proof.
  intros Hh Hi0. pose proof label_at as Hi. destruct Hst as [H1 H2 H3 H4 H5 H6 H7].
  split; cbn; try done.
  - intros j Hj. apply H4. lia.
  - intros j Hj. apply H5. lia.
  - intros j [->%elem_of_singleton|Hj]%elem_of_union.
    + split; [lia|]. split; [by apply H5|]. by exists b.
    + destruct (H6 j Hj) as (Hji & Hr). split; [lia|done].
  - intros j a Hj Ha [Hn Hjh]%not_elem_of_union. apply not_elem_of_singleton in Hn.
    destruct (H7 j a) as [H8 H9]; [lia|done|done|]. split; [|done].
    intros [E%elem_of_singleton|E]%elem_of_union; [|done]. rewrite E, Hi in H9. injection H9 as ->.
    rewrite Hidem in Hh by (by eapply list_elem_of_lookup_2). rewrite Hh in Hi. by apply Hi0, tau_index.
Qed.

End Hiding.

(** The loops. *)
Lemma hiding_loop h L (step : lts * gmap nat nat -> nat -> option (lts * gmap nat nat)) st0 n :
  n <= length L -> hiding h L 0 st0 ->
  (forall i st b, hiding h L i st -> L !! i = Some b ->
     exists st', step st i = Some st' /\ hiding h L (S i) st') ->
  exists st, foldl (fun st i => st ≫= fun st => step st i) (Some st0) (seq 0 n) = Some st /\
    hiding h L n st.
Proof.
  intros Hn H0 Hstep. induction n as [|n IH]; [by exists st0|].
  destruct IH as (st & E & Hst); [lia|]. rewrite seq_S, foldl_snoc, E. cbn.
  destruct (lookup_lt_is_Some_2 L n) as [b Hb]; [lia|]. apply (Hstep n st b Hst Hb).
Qed.

(** A loop body that leaves everything but the labels and the hidden set. *)
Definition keeps_frame (l l' : lts) : Prop :=
  m_nstates l' = m_nstates l /\ m_init_state l' = m_init_state l /\
  m_transitions l' = m_transitions l /\ m_state_labels l' = m_state_labels l.

(** What the labels stand for afterwards. *)
Lemma hiding_behaviour h l st :
  wf_lts l -> m_hidden_label_set l = ∅ ->
  hiding h (m_action_labels l) (length (m_action_labels l)) st ->
  m_transitions st.1 = m_transitions l ->
  behaviour (rename_labels st.2 st.1) = relabel h <$> behaviour l.
Proof.
  intros Hw Hh Hst Ht. unfold behaviour, rename_labels. cbn. rewrite Ht, <- !list_fmap_compose.
  apply list_fmap_ext. intros k t Hk. unfold relabel. cbn. apply list_elem_of_lookup_2, (wf_label l Hw) in Hk as Hlt.
  destruct (lookup_lt_is_Some_2 _ _ Hlt) as [a Ha]. unfold action_of at 2, apply_hidden_label_map.
  rewrite Hh, decide_False by set_solver. rewrite Ha. cbn.
  assert (E : (match st.2 !! label t with Some i => Transition (from t) i (to t) | None => t end)
    = Transition (from t) (default (label t) (st.2 !! label t)) (to t)) by (by destruct (st.2 !! label t), t).
  rewrite E. cbn. f_equal. f_equal. unfold action_of, apply_hidden_label_map. cbn.
  destruct (decide (label t ∈ m_hidden_label_set st.1)) as [Hin|Hin].
  - apply (hiding_hidden _ _ _ _ Hst) in Hin as Hin'. destruct Hin' as (_ & Hm & b & Hb & Hhb & _).
    rewrite Hm. cbn. rewrite decide_True by done. assert (a = b) as -> by congruence.
    rewrite Hhb. apply (hiding_tau _ _ _ _ Hst).
  - destruct (hiding_done _ _ _ _ Hst _ a Hlt Ha Hin) as [H1 H2]. by rewrite decide_False.
Qed.

Lemma hiding_wf h l st :
  wf_lts l -> hiding h (m_action_labels l) (length (m_action_labels l)) st -> keeps_frame l st.1 ->
  wf_lts (rename_labels st.2 st.1).
Proof.
  intros Hw Hst (E1 & _ & E3 & _).
  assert (Hin : forall t, t ∈ m_transitions (rename_labels st.2 st.1) -> exists t', t' ∈ m_transitions l /\
    from t = from t' /\ to t = to t' /\ label t = default (label t') (st.2 !! label t')).
  { intros t Ht. cbn in Ht. rewrite E3 in Ht. apply list_elem_of_fmap in Ht as (t' & -> & Ht'). exists t'.
    split; [done|]. by destruct (st.2 !! label t'). }
  split; cbn.
  - apply (hiding_tau _ _ _ _ Hst).
  - apply (hiding_unique _ _ _ _ Hst).
  - intros t Ht. apply Hin in Ht as (t' & Ht' & _ & _ & ->). apply (wf_label l Hw) in Ht' as Hlt.
    destruct (lookup_lt_is_Some_2 _ _ Hlt) as [a Ha]. rewrite (hiding_length _ _ _ _ Hst).
    destruct (decide (label t' ∈ m_hidden_label_set st.1)) as [Hh|Hh].
    + apply (hiding_hidden _ _ _ _ Hst) in Hh as (_ & -> & _). done.
    + destruct (hiding_done _ _ _ _ Hst _ a Hlt Ha Hh) as [_ H]. apply lookup_lt_Some in H.
      by rewrite (hiding_length _ _ _ _ Hst) in H.
  - intros t Ht. apply Hin in Ht as (t' & Ht' & -> & _). rewrite E1. by apply (wf_from l Hw).
  - intros t Ht. apply Hin in Ht as (t' & Ht' & _ & -> & _). rewrite E1. by apply (wf_to l Hw).
Qed.

Lemma hiding_start h l : wf_lts l -> m_hidden_label_set l = ∅ -> hiding h (m_action_labels l) 0 (l, ∅).
Proof.
  intros Hw Hh. split; cbn; try done; [apply (wf_tau l Hw)|apply (wf_unique l Hw)|set_solver|lia].
Qed.

Lemma store_frame a i st st' :
  store_action_label_to_be_renamed a i st = Some st' -> keeps_frame st.1 st'.1.
Proof.
  unfold store_action_label_to_be_renamed, set_action_label, keeps_frame.
  destruct (find_label a st.1); [by intros [= <-]|]. case_decide; [|done]. by intros [= <-].
Qed.

Lemma loop_frame (step : lts * gmap nat nat -> nat -> option (lts * gmap nat nat)) st0 st ids :
  (forall i st st', step st i = Some st' -> keeps_frame st.1 st'.1) ->
  foldl (fun st i => st ≫= fun st => step st i) (Some st0) ids = Some st -> keeps_frame st0.1 st.1.
Proof.
  intros Hs. revert st. induction ids as [|i ids IH] using rev_ind; intros st; [by intros [= <-]|].
  rewrite foldl_snoc. destruct (foldl _ _ _) as [st1|]; [|done]. cbn. intros E.
  specialize (IH st1 eq_refl). specialize (Hs i st1 st E). unfold keeps_frame in *.
  destruct IH as (<- & <- & <- & <-). done.
Qed.

Lemma record_frame acts i st st' : record_step acts st i = Some st' -> keeps_frame st.1 st'.1.
Proof.
  unfold record_step. destruct (action_label i st.1) as [b|]; [|done]. cbn. case_decide.
  - intros [= <-]. by destruct (i =? _).
  - case_decide; [apply store_frame|by intros [= <-]].
Qed.

Lemma apply_frame acts i st st' : apply_step acts st i = Some st' -> keeps_frame st.1 st'.1.
Proof.
  unfold apply_step. destruct (action_label i st.1) as [b|]; [|done]. cbn. case_decide; [|done].
  apply store_frame.
Qed.

(** *** The other operations *)

Lemma wf_set_state_labels sl l : wf_lts l -> wf_lts (set_state_labels sl l).
Proof. intros [H1 H2 H3 H4 H5]. by split. Qed.

Lemma wf_set_nstates n l : m_nstates l <= n -> wf_lts l -> wf_lts (set_nstates n l).
Proof. intros Hn [H1 H2 H3 H4 H5]. split; cbn; try done; intros t Ht; eapply Nat.lt_le_trans; eauto. Qed.

Lemma wf_add_action a l l' i : wf_lts l -> add_action a l = Some (l', i) ->
  wf_lts l' /\ m_action_labels l' !! i = Some a.
Proof.
  intros Hw. unfold add_action. case_decide as E1; [intros [= <- <-]; rewrite E1; split; [done|apply (wf_tau l Hw)]|].
  case_decide as E2; [done|]. intros [= <- <-]. destruct Hw as [H1 H2 H3 H4 H5]. split.
  - split; cbn; try done.
    + rewrite lookup_app_l; [done|by eapply lookup_lt_Some].
    + apply NoDup_app. split; [done|]. split; [|apply NoDup_singleton].
      intros x Hx Hx'%list_elem_of_singleton. by subst.
    + intros t Ht. rewrite length_app. specialize (H3 t Ht). lia.
  - cbn. rewrite lookup_app_r, Nat.sub_diag by lia. done.
Qed.

(** Hidden labels that are renamed to tau stay what they stand for. *)
Lemma rename_hidden_behaviour l :
  wf_lts l -> behaviour (rename_hidden_labels_to_tau l) = behaviour l /\
    m_hidden_label_set (rename_hidden_labels_to_tau l) = ∅.
Proof.
  intros Hw. unfold rename_hidden_labels_to_tau. case_decide as E; [|done].
  split; [|done]. unfold behaviour. cbn. rewrite <- list_fmap_compose. apply list_fmap_ext.
  intros k t _. unfold compose, action_of, apply_hidden_label_map. cbn. case_decide as E1; cbn.
  - by rewrite decide_False by set_solver.
  - by rewrite decide_False by set_solver.
Qed.

Lemma rename_hidden_wf l : wf_lts l -> wf_lts (rename_hidden_labels_to_tau l).
Proof.
  intros Hw. unfold rename_hidden_labels_to_tau. case_decide; [|done]. destruct Hw as [H1 H2 H3 H4 H5].
  split; cbn; try done; intros t (t' & -> & Ht')%list_elem_of_fmap; case_decide; cbn; auto.
  by apply lookup_lt_Some in H1.
Qed.

Context (acts : list string) (Hne : acts <> []) (Htau : hide_actions acts tau_action = tau_action).

(** [hide_actions] is idempotent on the labels [L]. *)
Definition hides_once (L : list AL) : Prop :=
  forall a, a ∈ L -> hide_actions acts (hide_actions acts a) = hide_actions acts a.

Lemma record_step_hiding L i st b :
  hides_once L -> hiding (hide_actions acts) L i st -> L !! i = Some b ->
  exists st', record_step acts st i = Some st' /\ hiding (hide_actions acts) L (S i) st'.
Proof.
  intros Hidem Hst Hb. pose proof (label_at _ _ _ _ _ Hst Hb) as Hi. unfold record_step, action_label.
  rewrite Hi. cbn. case_decide as E1.
  - eexists. split; [done|]. destruct (Nat.eqb_spec i const_tau_label_index) as [E|E].
    + apply (hiding_keep (hide_actions acts) L i st b Hst Hb st.2); [by left|]. rewrite (hiding_rest_fresh _ _ _ _ Hst) by lia.
      split; [exact (not_hidden_yet _ _ _ _ Hst)|]. rewrite E1. cbn. rewrite E. apply (hiding_tau _ _ _ _ Hst).
    + by apply (hiding_hide (hide_actions acts) L Hidem i st b).
  - case_decide as E2; [by apply (store_hiding _ L Hidem Htau i st b)|]. exists st. split; [done|]. destruct st as [l m].
    apply (hiding_keep (hide_actions acts) L i (l, m) b Hst Hb m); [by left|]. rewrite (hiding_rest_fresh _ _ _ _ Hst) by lia.
    split; [exact (not_hidden_yet _ _ _ _ Hst)|]. cbn in *. by rewrite Hi, E2.
Qed.

Lemma apply_step_hiding L i st b :
  hides_once L -> hiding (hide_actions acts) L i st -> L !! i = Some b ->
  exists st', apply_step acts st i = Some st' /\ hiding (hide_actions acts) L (S i) st'.
Proof.
  intros Hidem Hst Hb. pose proof (label_at _ _ _ _ _ Hst Hb) as Hi. unfold apply_step, action_label.
  rewrite Hi. cbn. rewrite decide_True by (symmetry; by eapply Hidem, list_elem_of_lookup_2). by apply (store_hiding _ L Hidem Htau i st b).
Qed.

(** Hiding a set of actions, recorded ([record_hidden_actions]) or applied
    ([apply_hidden_actions]), changes the action of every transition to the one
    [hide_actions] of the label class gives and nothing else of the transition
    system; no assertion fails.  Labels that become equal are merged, for partly
    hidden multi-actions too. *)
Lemma hide_actions_ok l :
  wf_lts l -> m_hidden_label_set l = ∅ -> hides_once (m_action_labels l) ->
  (exists l', record_hidden_actions acts l = Some l' /\ wf_lts l' /\
     behaviour l' = relabel (hide_actions acts) <$> behaviour l /\
     m_nstates l' = m_nstates l /\ m_init_state l' = m_init_state l /\
     m_state_labels l' = m_state_labels l) /\
  (exists l', apply_hidden_actions acts l = Some l' /\ wf_lts l' /\
     behaviour l' = relabel (hide_actions acts) <$> behaviour l /\
     m_nstates l' = m_nstates l /\ m_init_state l' = m_init_state l /\
     m_state_labels l' = m_state_labels l).
Proof.
  intros Hw Hh Hidem. pose proof (hiding_start (hide_actions acts) l Hw Hh) as H0. unfold num_action_labels.
  split; unfold record_hidden_actions, apply_hidden_actions; rewrite decide_False by done.
  - destruct (hiding_loop _ _ (record_step acts) (l, ∅) _ (le_n _) H0
      (fun i st b => record_step_hiding (m_action_labels l) i st b Hidem)) as (st & E & Hst).
    unfold num_action_labels. rewrite E. apply loop_frame in E as (E1 & E2 & E3 & E4); [|apply record_frame].
    cbn. eexists. split; [done|]. split; [by apply (hiding_wf (hide_actions acts) l)|].
    split; [by apply hiding_behaviour|done].
  - destruct (hiding_loop _ _ (apply_step acts) (l, ∅) _ (le_n _) H0
      (fun i st b => apply_step_hiding (m_action_labels l) i st b Hidem)) as (st & E & Hst).
    unfold num_action_labels. rewrite E. apply loop_frame in E as (E1 & E2 & E3 & E4); [|apply apply_frame].
    cbn. eexists. split; [done|]. split; [by apply (hiding_wf (hide_actions acts) l)|].
    split; [by apply hiding_behaviour|done].
Qed.

End Lts.

Arguments lts : clear implicits.

(** *** Witnesses: labels that are lists of names, a multi-action each *)

Definition hide_names (acts : list string) (a : list string) : list string := filter (fun x => x ∉ acts) a.

(** [0 --a|b--> 1], [1 --a--> 0], [1 --b--> 1] *)
Definition example_lts : lts nat (list string) :=
  mk_lts 2 0 [Transition 0 1 1; Transition 1 2 0; Transition 1 3 1] []
    [[]; ["a"; "b"]; ["a"]; ["b"]]%string ∅.

Lemma example_lts_wf : wf_lts [] example_lts.
Proof.
  split.
  - done.
  - apply (bool_decide_unpack _). by vm_compute.
  - intros t Ht. repeat (apply elem_of_cons in Ht as [->|Ht]; [cbn; lia|]). by apply elem_of_nil in Ht.
  - intros t Ht. repeat (apply elem_of_cons in Ht as [->|Ht]; [cbn; lia|]). by apply elem_of_nil in Ht.
  - intros t Ht. repeat (apply elem_of_cons in Ht as [->|Ht]; [cbn; lia|]). by apply elem_of_nil in Ht.
Qed.

Lemma hide_names_idem acts a : hide_names acts (hide_names acts a) = hide_names acts a.
Proof. unfold hide_names. rewrite list_filter_filter. apply list_filter_iff. tauto. Qed.

Lemma hide_names_example :
  exists l', record_hidden_actions [] hide_names ["b"%string] example_lts = Some l' /\
    behaviour l' = [(0, Some ["a"%string], 1); (1, Some ["a"%string], 0); (1, Some [], 1)].
Proof.
  destruct (hide_actions_ok [] hide_names ["b"%string] ltac:(done) eq_refl
    example_lts example_lts_wf eq_refl (fun a _ => hide_names_idem _ a)) as [(l' & E & _ & Hb & _) _].
  exists l'. split; [done|]. rewrite Hb. by vm_compute.
Defined.
