(* ===== verification/LtsCalls.v ===== *)
(** * What the calls of the class [lts] build
    ([lts.h] of [libraries/lts])

    A specification of the operations that build a transition system: its
    [contents] are a label for every state and a list of edges with the actions
    they stand for.  The class stores less and more than that: state labels may
    be missing at the end, actions are numbers, and a hidden number stands for
    tau.  The theorem is that every sequence of calls leaves the contents that
    the specification gives, with the same results, and that the assertions fail
    where the specification has no result. *)

From Stdlib Require Import Lia.
From stdpp Require Import base numbers sets list gmap strings.
From S2P Require Import Prelude Lts.

#[local] Arguments Nat.ltb : simpl never.
#[local] Arguments Nat.eqb : simpl never.
#[local] Arguments behaviour : simpl never.

Section Calls.
Context {SL AL : Type} `{!EqDecision SL} `{!EqDecision AL}.
Context (default_label : SL) (tau_action : AL).

Inductive lts_call : Type :=
| call_add_state (x : SL)
| call_add_action (a : AL)
| call_add_transition (t : transition)
| call_set_initial_state (s : nat)
| call_set_num_states (n : nat) (has_state_labels : bool)
| call_hide (i : nat)                      (* [hidden_label_set().insert(i)] *)
| call_rename_hidden_labels_to_tau
| call_clear.

(** The call and the number it returns, if it does. *)
Definition perform (c : lts_call) (l : lts SL AL) : option (lts SL AL * option nat) :=
  match c with
  | call_add_state x => let '(l, s) := add_state default_label x l in Some (l, Some s)
  | call_add_action a => '(l, i) ← add_action tau_action a l; Some (l, Some i)
  | call_add_transition t => Some (add_transition t l, None)
  | call_set_initial_state s => l ← set_initial_state s l; Some (l, None)
  | call_set_num_states n b => Some (set_num_states default_label n b l, None)
  | call_hide i => Some (set_hidden_label_set ({[i]} ∪ m_hidden_label_set l) l, None)
  | call_rename_hidden_labels_to_tau => Some (rename_hidden_labels_to_tau l, None)
  | call_clear => Some (clear tau_action l, None)
  end.

(** ** The specification *)

Record contents : Type := mk_contents {
  c_labels : list SL;
  c_initial : nat;
  c_actions : list AL;
  c_hidden : gset nat;
  c_edges : list (nat * AL * nat)
}.

Definition empty_contents : contents := mk_contents [] 0 [tau_action] ∅ [].

(** The action that number [i] stands for. *)
Definition action_at (c : contents) (i : nat) : option AL :=
  c_actions c !! (if decide (i ∈ c_hidden c) then const_tau_label_index else i).

Definition edge_within (n : nat) (e : nat * AL * nat) : bool := (e.1.1 <? n) && (e.2 <? n).

Definition hide_edge (b : AL) (e : nat * AL * nat) : nat * AL * nat :=
  (e.1.1, if decide (e.1.2 = b) then tau_action else e.1.2, e.2).

Definition specify (k : lts_call) (c : contents) : option (contents * option nat) :=
  match k with
  | call_add_state x =>
      Some (mk_contents (c_labels c ++ [x]) (c_initial c) (c_actions c) (c_hidden c) (c_edges c), Some (length (c_labels c)))
  | call_add_action a =>
      if decide (a = tau_action) then Some (c, Some 0)
      else if decide (a ∈ c_actions c) then None
      else Some (mk_contents (c_labels c) (c_initial c) (c_actions c ++ [a]) (c_hidden c) (c_edges c), Some (length (c_actions c)))
  | call_add_transition t =>
      a ← action_at c (label t);
      if decide (label t < length (c_actions c)) then
        if edge_within (length (c_labels c)) (from t, a, to t)
        then Some (mk_contents (c_labels c) (c_initial c) (c_actions c) (c_hidden c) (c_edges c ++ [(from t, a, to t)]), None)
        else None
      else None
  | call_set_initial_state s =>
      if s <? length (c_labels c)
      then Some (mk_contents (c_labels c) s (c_actions c) (c_hidden c) (c_edges c), None) else None
  | call_set_num_states n b =>
      if forallb (edge_within n) (c_edges c)
      then Some (mk_contents (if b then resize n default_label (c_labels c) else replicate n default_label)
                   (c_initial c) (c_actions c) (c_hidden c) (c_edges c), None)
      else None
  | call_hide i =>
      b ← c_actions c !! i;
      Some (mk_contents (c_labels c) (c_initial c) (c_actions c) ({[i]} ∪ c_hidden c) (hide_edge b <$> c_edges c), None)
  | call_rename_hidden_labels_to_tau =>
      Some (mk_contents (c_labels c) (c_initial c) (c_actions c) ∅ (c_edges c), None)
  | call_clear => Some (mk_contents [] (c_initial c) [tau_action] ∅ [], None)
  end.

(** The calls that assert that they are allowed. *)
Definition has_assertion (k : lts_call) : bool :=
  match k with
  | call_add_action _ | call_set_initial_state _ => true
  | _ => false
  end.

(** A sequence of calls, with what they return. *)
Fixpoint run_calls {S : Type} (step : lts_call -> S -> option (S * option nat)) (ks : list lts_call) (s : S)
  : option (S * list (option nat)) :=
  match ks with
  | [] => Some (s, [])
  | k :: ks =>
      '(s, r) ← step k s;
      '(s, rs) ← run_calls step ks s;
      Some (s, r :: rs)
  end.

(** ** The class implements it *)

Definition edge_of (e : nat * AL * nat) : nat * option AL * nat := (e.1.1, Some e.1.2, e.2).

Record implements (l : lts SL AL) (c : contents) : Prop := {
  rep_wf : wf_lts tau_action l;
  rep_hidden_range : forall i, i ∈ m_hidden_label_set l -> i < length (m_action_labels l);
  rep_states : m_nstates l = length (c_labels c);
  rep_label_count : length (m_state_labels l) <= m_nstates l;
  rep_labels : forall s, s < m_nstates l -> default default_label (m_state_labels l !! s) = default default_label (c_labels c !! s);
  rep_initial : m_init_state l = c_initial c;
  rep_actions : m_action_labels l = c_actions c;
  rep_hidden : m_hidden_label_set l = c_hidden c;
  rep_edges : behaviour l = edge_of <$> c_edges c
}.

Lemma empty_implements : implements (empty_lts tau_action) empty_contents.
Proof.
  split; cbn; try done.
  split; cbn; try done; try (intros t Ht; by apply elem_of_nil in Ht). apply NoDup_singleton.
Qed.

(** Behaviour depends on the transitions, and on what their labels stand for. *)
Lemma behaviour_ext (l l' : lts SL AL) :
  m_transitions l' = m_transitions l ->
  (forall t, t ∈ m_transitions l -> action_of l' (label t) = action_of l (label t)) -> behaviour l' = behaviour l.
Proof.
  intros Et Ha. unfold behaviour. rewrite Et. apply list_fmap_ext. intros i t Hi%list_elem_of_lookup_2. by rewrite Ha.
Qed.

Lemma default_app_label (v : list SL) n x s :
  length v <= n -> s < S n ->
  default default_label ((resize n default_label v ++ [x]) !! s) = if decide (s = n) then x else default default_label (v !! s).
Proof.
  intros Hv Hs. case_decide as E.
  - subst s. rewrite lookup_app_r, length_resize, Nat.sub_diag by (rewrite length_resize; lia). done.
  - rewrite lookup_app_l by (rewrite length_resize; lia). destruct (decide (s < length v)) as [Hlt|Hge].
    + by rewrite lookup_resize by lia.
    + rewrite lookup_resize_new by lia. by rewrite (proj2 (lookup_ge_None v s)) by lia.
Qed.

Lemma default_resize_label (v : list SL) m n s :
  length v <= m -> s < n -> default default_label (resize n default_label v !! s) = default default_label (v !! s).
Proof.
  intros Hv Hs. destruct (decide (s < length v)) as [Hlt|Hge]; [by rewrite lookup_resize|].
  rewrite lookup_resize_new by lia. by rewrite (proj2 (lookup_ge_None v s)) by lia.
Qed.

(** The transitions are within the states exactly if the edges are. *)
Lemma edges_within l c n :
  implements l c -> forallb (edge_within n) (c_edges c) = true -> forall t, t ∈ m_transitions l -> from t < n /\ to t < n.
Proof.
  intros Hr Hn t Ht. assert (Hin : (from t, action_of l (label t), to t) ∈ behaviour l) by (apply list_elem_of_fmap; by exists t).
  rewrite (rep_edges _ _ Hr) in Hin. apply list_elem_of_fmap in Hin as (e & [= -> _ ->] & He).
  rewrite forallb_forall in Hn. apply list_elem_of_In, Hn in He. unfold edge_within in He.
  apply andb_true_iff in He as [?%Nat.ltb_lt ?%Nat.ltb_lt]. done.
Qed.

Lemma add_state_implements l c x :
  implements l c -> implements (add_state default_label x l).1
    (mk_contents (c_labels c ++ [x]) (c_initial c) (c_actions c) (c_hidden c) (c_edges c)).
Proof.
  intros Hr. pose proof Hr as [H1 H2 H3 H4 H5 H6 H7 H8 H9].
  assert (Hl : forall s, s < S (m_nstates l) ->
    default default_label (m_state_labels (add_state default_label x l).1 !! s) = if decide (s = m_nstates l) then x else default default_label (m_state_labels l !! s)).
  { intros s Hs. unfold add_state. cbn [fst]. destruct (decide (x <> default_label)) as [Hx|Hx]; cbn [m_state_labels set_state_labels set_nstates].
    - by apply default_app_label.
    - case_decide as E; [|done]. subst s. rewrite (proj2 (lookup_ge_None _ _)) by done. cbn. symmetry. by apply dec_stable. }
  split; cbn.
  - apply wf_set_nstates; [case_decide; cbn; lia|]. case_decide; [by apply wf_set_state_labels|done].
  - intros i. case_decide; cbn; auto.
  - rewrite length_app, H3. cbn. lia.
  - case_decide; cbn; [unfold vector_resize; rewrite length_app, length_resize; cbn|]; lia.
  - intros s Hs. specialize (Hl s Hs). cbn in Hl. rewrite Hl. clear Hl. case_decide as E.
    + subst s. rewrite lookup_app_r, H3, Nat.sub_diag by lia. done.
    + rewrite lookup_app_l by lia. apply H5. lia.
  - by case_decide.
  - by case_decide.
  - by case_decide.
  - rewrite <- H9. apply behaviour_ext; [by case_decide|]. intros t _. unfold action_of, apply_hidden_label_map. by destruct (decide (x <> default_label)).
Qed.

Lemma add_action_implements l c a :
  implements l c -> a <> tau_action -> a ∉ c_actions c -> implements (set_action_labels (m_action_labels l ++ [a]) l)
    (mk_contents (c_labels c) (c_initial c) (c_actions c ++ [a]) (c_hidden c) (c_edges c)).
Proof.
  intros Hr Ht Ha. pose proof Hr as [H1 H2 H3 H4 H5 H6 H7 H8 H9].
  assert (E : add_action tau_action a l = Some (set_action_labels (m_action_labels l ++ [a]) l, length (m_action_labels l))).
  { unfold add_action. rewrite decide_False by done. by rewrite decide_False by (by rewrite H7). }
  split; cbn; try done.
  - by apply (wf_add_action tau_action a l _ _ H1 E).
  - intros i Hi%H2. rewrite length_app. lia.
  - by rewrite H7.
  - rewrite <- H9. apply behaviour_ext; [done|]. intros t Hin%(wf_label _ l H1). unfold action_of, apply_hidden_label_map. cbn.
    apply lookup_app_l. case_decide; [|done]. pose proof (wf_tau _ l H1) as H0%lookup_lt_Some. done.
Qed.

Lemma add_transition_implements l c t a :
  implements l c -> action_at c (label t) = Some a -> label t < length (c_actions c) ->
  from t < length (c_labels c) -> to t < length (c_labels c) -> implements (add_transition t l)
    (mk_contents (c_labels c) (c_initial c) (c_actions c) (c_hidden c) (c_edges c ++ [(from t, a, to t)])).
Proof.
  intros Hr Ha Hl Hf Ht. pose proof Hr as [H1 H2 H3 H4 H5 H6 H7 H8 H9]. split; cbn; try done.
  - destruct H1 as [W1 W2 W3 W4 W5].
    split; cbn; try done; intros u [Hu| ->%list_elem_of_singleton]%elem_of_app; auto; rewrite ?H3, ?H7; auto.
  - unfold behaviour, add_transition. cbn [m_transitions set_transitions]. rewrite !fmap_app. cbn [fmap list_fmap].
    f_equal; [exact H9|]. unfold edge_of, action_of, apply_hidden_label_map. cbn. unfold action_at in Ha. by rewrite H7, H8, Ha.
Qed.

Lemma set_num_states_implements l c n b :
  implements l c -> forallb (edge_within n) (c_edges c) = true -> implements (set_num_states default_label n b l)
    (mk_contents (if b then resize n default_label (c_labels c) else replicate n default_label)
       (c_initial c) (c_actions c) (c_hidden c) (c_edges c)).
Proof.
  intros Hr Hn. pose proof Hr as [H1 H2 H3 H4 H5 H6 H7 H8 H9]. pose proof (edges_within l c n Hr Hn) as Hin.
  assert (Hl : m_state_labels (set_num_states default_label n b l) = if b then resize n default_label (m_state_labels l) else []).
  { unfold set_num_states. cbn. destruct b; [|done]. destruct (m_state_labels l) as [|x v]; cbn; [by rewrite resize_nil|done]. }
  assert (Hf : m_nstates (set_num_states default_label n b l) = n /\ m_init_state (set_num_states default_label n b l) = m_init_state l /\
    m_transitions (set_num_states default_label n b l) = m_transitions l /\ m_action_labels (set_num_states default_label n b l) = m_action_labels l /\
    m_hidden_label_set (set_num_states default_label n b l) = m_hidden_label_set l).
  { unfold set_num_states. by repeat case_match. }
  destruct Hf as (F1 & F2 & F3 & F4 & F5). split; cbn [c_labels c_initial c_actions c_hidden c_edges]; rewrite ?F1, ?F2, ?F4, ?F5; try done.
  - destruct H1 as [W1 W2 W3 W4 W5]. split; rewrite ?F1, ?F3, ?F4; try done; by apply Hin.
  - by destruct b; rewrite ?length_resize, ?length_replicate.
  - rewrite Hl. destruct b; [by rewrite length_resize|cbn; lia].
  - intros s Hs. rewrite Hl. destruct b; [|by rewrite lookup_replicate_2].
    rewrite (default_resize_label _ (m_nstates l)), (default_resize_label _ (m_nstates l)) by (lia || done).
    destruct (decide (s < m_nstates l)) as [Hlt|Hge]; [by apply H5|]. by rewrite !(proj2 (lookup_ge_None _ s)) by lia.
  - rewrite <- H9. apply behaviour_ext; [done|]. intros t _. unfold action_of, apply_hidden_label_map. by rewrite F4, F5.
Qed.

Lemma hide_implements l c i b :
  implements l c -> c_actions c !! i = Some b -> implements (set_hidden_label_set ({[i]} ∪ m_hidden_label_set l) l)
    (mk_contents (c_labels c) (c_initial c) (c_actions c) ({[i]} ∪ c_hidden c) (hide_edge b <$> c_edges c)).
Proof.
  intros Hr Hi. pose proof Hr as [H1 H2 H3 H4 H5 H6 H7 H8 H9]. split; cbn; try done.
  - destruct H1 as [W1 W2 W3 W4 W5]. by split.
  - intros k [->%elem_of_singleton|Hk]%elem_of_union; [|auto]. rewrite H7. by eapply lookup_lt_Some.
  - by rewrite H8.
  - assert (E : forall e, edge_of (hide_edge b e) = relabel (fun a => if decide (a = b) then tau_action else a) (edge_of e)) by done.
    rewrite <- list_fmap_compose. unfold compose. erewrite list_fmap_ext; [|intros ? e _; exact (E e)].
    change (fun e => relabel ?h (edge_of e)) with (relabel h ∘ edge_of). rewrite list_fmap_compose, <- H9.
    unfold behaviour. cbn [m_transitions set_hidden_label_set]. rewrite <- list_fmap_compose. apply list_fmap_ext.
    intros k t Hk%list_elem_of_lookup_2. unfold compose, relabel. cbn [fst snd]. f_equal. f_equal.
    pose proof (wf_label _ l H1 t Hk) as Hlt. destruct (lookup_lt_is_Some_2 _ _ Hlt) as [a Ha]. pose proof (wf_tau _ l H1) as H0.
    unfold action_of, apply_hidden_label_map. cbn [m_hidden_label_set set_hidden_label_set m_action_labels].
    destruct (decide (label t ∈ m_hidden_label_set l)) as [Hh|Hh].
    + rewrite decide_True by set_solver. unfold const_tau_label_index. rewrite H0. cbn. by case_decide.
    + rewrite Ha. cbn. rewrite <- H7 in Hi. destruct (decide (label t = i)) as [E1|E1].
      * rewrite decide_True by set_solver. assert (a = b) as -> by congruence. by rewrite decide_True.
      * rewrite decide_False by set_solver. rewrite decide_False; [done|]. intros ->.
        apply E1. by apply (NoDup_lookup _ _ _ _ (wf_unique _ l H1) Ha Hi).
Qed.

Lemma rename_implements l c :
  implements l c -> implements (rename_hidden_labels_to_tau l)
    (mk_contents (c_labels c) (c_initial c) (c_actions c) ∅ (c_edges c)).
Proof.
  intros Hr. pose proof Hr as [H1 H2 H3 H4 H5 H6 H7 H8 H9].
  destruct (rename_hidden_behaviour tau_action l H1) as [Eb Eh].
  split; [by apply rename_hidden_wf|rewrite Eh; set_solver|..]; [..|done|by rewrite Eb];
    unfold rename_hidden_labels_to_tau; by case_decide.
Qed.

(** One call. *)
Lemma perform_specify k l c :
  implements l c ->
  (forall c' r, specify k c = Some (c', r) -> exists l', perform k l = Some (l', r) /\ implements l' c') /\
  (has_assertion k = true -> specify k c = None -> perform k l = None).
Proof.
  intros Hr. pose proof (rep_states _ _ Hr) as Hn. pose proof (rep_actions _ _ Hr) as Hact.
  split; [intros c' r|intros Ha]; destruct k as [x|a|t|s|n b|i| |]; cbn [specify perform has_assertion] in *; try done.
  - intros [= <- <-]. eexists. split; [by rewrite <- Hn|]. by apply add_state_implements.
  - unfold add_action. rewrite Hact. destruct (decide (a = tau_action)) as [Ha|Ha]; [intros [= <- <-]; by exists l|].
    destruct (decide (a ∈ c_actions c)) as [Hi|Hi]; [done|]. intros [= <- <-].
    eexists. split; [done|]. pose proof (add_action_implements l c a Hr Ha Hi) as H. by rewrite Hact in H.
  - destruct (action_at c (label t)) as [a|] eqn:Ea; [|done]. cbn. case_decide as Hl; [|done].
    destruct (edge_within _ _) eqn:Ew; [|done]. apply andb_true_iff in Ew as [Hf%Nat.ltb_lt Ht%Nat.ltb_lt]. cbn in Hf, Ht.
    intros [= <- <-]. eexists. split; [done|]. by apply add_transition_implements.
  - destruct (Nat.ltb_spec s (length (c_labels c))) as [Hs|]; [|done]. intros [= <- <-]. unfold set_initial_state.
    rewrite (proj2 (Nat.ltb_lt _ _)) by lia. eexists. split; [done|]. destruct Hr as [[W1 W2 W3 W4 W5] H2 H3 H4 H5 H6 H7 H8 H9]. by split.
  - destruct (forallb _ _) eqn:Ef; [|done]. intros [= <- <-]. eexists. split; [done|]. by apply set_num_states_implements.
  - destruct (c_actions c !! i) as [b|] eqn:Ei; [|done]. intros [= <- <-]. eexists. split; [done|]. by apply hide_implements.
  - intros [= <- <-]. eexists. split; [done|]. by apply rename_implements.
  - intros [= <- <-]. eexists. split; [done|]. destruct Hr. split; cbn; try done.
    split; cbn; try done; try (intros t Ht; by apply elem_of_nil in Ht). apply NoDup_singleton.
  - unfold add_action. rewrite Hact. repeat case_decide; done.
  - unfold set_initial_state. rewrite Hn. by destruct (s <? _).
Qed.

Lemma run_calls_spec ks l c c' rs :
  implements l c -> run_calls specify ks c = Some (c', rs) ->
  exists l', run_calls perform ks l = Some (l', rs) /\ implements l' c'.
Proof.
  revert l c rs. induction ks as [|k ks IH]; intros l c rs Hr; cbn; [intros [= <- <-]; by exists l|].
  destruct (specify k c) as [[c1 r]|] eqn:Ek; [|done]. cbn. destruct (run_calls specify ks c1) as [[c2 rs']|] eqn:Er; [|done].
  cbn. intros [= <- <-]. destruct (proj1 (perform_specify k l c Hr) c1 r Ek) as (l1 & -> & H1). cbn.
  destruct (IH l1 c1 rs' H1 Er) as (l2 & -> & H2). by exists l2.
Qed.

(** C37: every sequence of calls that builds a transition system from the empty
    one leaves the states with the labels, the initial state, the actions and the
    edges that the specification gives, in order, and returns the same numbers;
    the transition system stays well-formed.  Transitions must be between
    existing states with existing labels, the number of states may not drop
    below that of a transition, and only existing labels are hidden (these calls
    do not check it); for a label that exists already and an initial state out of
    range the assertion fails. *)
Theorem lts_calls_refine ks c rs :
  run_calls specify ks empty_contents = Some (c, rs) ->
  exists l, run_calls perform ks (empty_lts tau_action) = Some (l, rs) /\
    wf_lts tau_action l /\ num_states l = length (c_labels c) /\ m_init_state l = c_initial c /\
    m_action_labels l = c_actions c /\
    (forall s, s < num_states l -> default default_label (m_state_labels l !! s) = default default_label (c_labels c !! s)) /\
    behaviour l = edge_of <$> c_edges c /\
    (forall k, has_assertion k = true -> specify k c = None -> perform k l = None).
Proof.
  intros H. destruct (run_calls_spec ks _ _ c rs empty_implements H) as (l & E & Hr). exists l. split; [done|].
  split_and!; [apply Hr..|]. intros k. apply (perform_specify k l c Hr).
Qed.

End Calls.

(** *** Witness *)

(** Two states, the second with a label, [a] and [b]; [b] is hidden before its
    transition is added, and [a] afterwards. *)
Definition example_calls : list (lts_call (SL := nat) (AL := string)) :=
  [call_add_state 0; call_add_state 7; call_add_action "a"; call_add_action "b"; call_add_transition (Transition 0 1 1);
   call_hide 2; call_add_transition (Transition 1 2 0); call_hide 1; call_rename_hidden_labels_to_tau;
   call_add_transition (Transition 1 1 1); call_set_initial_state 1; call_set_num_states 3 true]%string.

Lemma lts_calls_refine_witness :
  exists l, run_calls (perform 0 "tau"%string) example_calls (empty_lts "tau"%string) =
      Some (l, [Some 0; Some 1; Some 1; Some 2; None; None; None; None; None; None; None; None]) /\
    num_states l = 3 /\ m_init_state l = 1 /\
    behaviour l = [(0, Some "tau", 1); (1, Some "tau", 0); (1, Some "a", 1)]%string /\
    perform 0 "tau"%string (call_add_action "a"%string) l = None.
Proof.
  destruct (lts_calls_refine 0 "tau"%string example_calls
    (mk_contents [0; 7; 0] 1 ["tau"; "a"; "b"] ∅ [(0, "tau", 1); (1, "tau", 0); (1, "a", 1)])%string
    [Some 0; Some 1; Some 1; Some 2; None; None; None; None; None; None; None; None])
    as (l & E & _ & H1 & H2 & _ & _ & H3 & H4); [vm_compute; reflexivity|].
  exists l. split; [done|]. split; [done|]. split; [done|]. split; [done|]. apply H4; [done|]. by vm_compute.
Defined.
