(* ===== verification/SccCorrect.v ===== *)
(** * The invariant of [number_sccs]

    The states of the frames in [work] (and the one being scanned) are the path of
    the depth-first search.  Every frame state reaches what is above it on the
    stack, every stacked state reaches a frame state below it, and [low] of a
    frame state bounds what the transitions scanned since can reach on the stack;
    what has left the stack is closed and numbered by strong connectivity. *)

From Stdlib Require Import Lia.
From stdpp Require Import base numbers sets list gmap sorting relations.
From S2P Require Import Prelude Lts Scc.

Local Open Scope Z_scope.

(** Total lookups in updated vectors. *)
Lemma vec_insert {A} `{!Inhabited A} (l : list A) i j x :
  (i < length l)%nat -> <[i := x]> l !!! j = if decide (j = i) then x else l !!! j.
Proof.
  intros H. rewrite !list_lookup_total_alt. case_decide as E.
  - subst. by rewrite list_lookup_insert_eq.
  - by rewrite list_lookup_insert_ne.
Qed.

(** The do-while loop writes [c] at the popped states. *)
Lemma pop_until_spec s c pre post block :
  s ∉ pre -> (forall u, u ∈ pre ++ [s] -> (u < length block)%nat) ->
  exists block', pop_until s c (pre ++ s :: post) block = (post, block') /\ length block' = length block /\
    forall u, block' !!! u = if decide (u ∈ pre ++ [s]) then c else block !!! u.
Proof.
  revert block. induction pre as [|x pre IH]; intros block Hs Hb; cbn [app pop_until].
  - rewrite Nat.eqb_refl. eexists. split; [done|]. split; [apply length_insert|]. intros u.
    rewrite vec_insert by (apply Hb; left). repeat case_decide; set_solver.
  - apply not_elem_of_cons in Hs as [Hx Hs]. destruct (Nat.eqb_spec x s) as [|_]; [congruence|].
    destruct (IH (<[x := c]> block) Hs) as (block' & E & Hl & Hu).
    { intros u Hu. rewrite length_insert. apply Hb. by right. }
    exists block'. rewrite length_insert in Hl. split; [done|]. split; [done|]. intros u.
    rewrite Hu, vec_insert by (apply Hb; left). repeat case_decide; set_solver.
Qed.


Section Correct.
Context (src_tgt : list nat * list nat) (n : nat).
Context (Hn : Z.of_nat n < word_modulus - 1).
Context (Hbounds : forall u, (u < n -> lowerbound src_tgt u <= upperbound src_tgt u)%nat).
Context (Htgt : forall u j, (u < n -> lowerbound src_tgt u <= j < upperbound src_tgt u ->
  exists v, get_transitions src_tgt !! j = Some v /\ v < n)%nat).

(** Transition number [j] of [u] goes to [v]. *)
Definition edge_at (u j v : nat) : Prop :=
  (lowerbound src_tgt u <= j < upperbound src_tgt u)%nat /\ get_transitions src_tgt !! j = Some v.

Definition edge (u v : nat) : Prop := (u < n)%nat /\ exists j, edge_at u j v.

Definition mutual (u v : nat) : Prop := rtc edge u v /\ rtc edge v u.

Lemma edge_lt u v : edge u v -> (v < n)%nat.
Proof. intros (Hu & j & Hj & E). destruct (Htgt u j Hu Hj) as (v' & E' & Hv). congruence. Qed.

(** ** The invariant *)

Definition visited (st : scc_state) (v : nat) : Prop := disc st !!! v <> uninitialised.

(** The transitions already scanned, when the frames are [F]. *)
Definition scanned (F : list (nat * nat)) (x w : nat) : Prop :=
  exists j, edge_at x j w /\ forall i, (x, i) ∈ F -> (j < i)%nat.

(** The vectors and the stack. *)
Record basic (st : scc_state) : Prop := {
  inv_low_length : length (low st) = n;
  inv_disc_length : length (disc st) = n;
  inv_block_length : length (block_index_of_a_state st) = n;
  inv_visited : exists vis, NoDup vis /\ discovery_time st = Z.of_nat (length vis) /\
    forall v, v ∈ vis <-> (v < n)%nat /\ visited st v;
  inv_low_visited : forall v, (v < n)%nat -> low st !!! v = uninitialised <-> disc st !!! v = uninitialised;
  inv_disc : forall v, (v < n)%nat -> visited st v -> 0 <= disc st !!! v < discovery_time st;
  inv_stack : forall v, v ∈ stack st <-> (v < n)%nat /\ block_index_of_a_state st !!! v = in_stack_indicator;
  inv_stack_visited : forall v, v ∈ stack st -> visited st v;
  inv_stack_sorted : StronglySorted (fun u v => disc st !!! v < disc st !!! u) (stack st);
  inv_count : 0 <= equivalence_class_index st /\
    equivalence_class_index st + Z.of_nat (length (stack st)) <= discovery_time st
}.

(** The frames. *)
Record framed (F : list (nat * nat)) (st : scc_state) : Prop := {
  inv_frame_stack : forall s i, (s, i) ∈ F -> s ∈ stack st;
  inv_frame_index : forall s i, (s, i) ∈ F -> (lowerbound src_tgt s <= i <= upperbound src_tgt s)%nat;
  inv_frame_sorted : StronglySorted (fun u v => disc st !!! v < disc st !!! u) F.*1;
  inv_chain : forall y x, y ∈ F.*1 -> x ∈ stack st -> disc st !!! y <= disc st !!! x -> rtc edge y x;
  inv_back : forall x, x ∈ stack st -> exists y, y ∈ F.*1 /\ disc st !!! y <= disc st !!! x /\ rtc edge x y;
  inv_scanned : forall x w, (x < n)%nat -> visited st x -> scanned F x w -> visited st w;
  inv_low : forall g x w, g ∈ F.*1 -> x ∈ stack st -> disc st !!! g <= disc st !!! x ->
    (forall g', g' ∈ F.*1 -> disc st !!! g' <= disc st !!! x -> disc st !!! g' <= disc st !!! g) ->
    scanned F x w -> w ∈ stack st -> low st !!! g <= disc st !!! w;
  inv_low_sound : forall g, g ∈ F.*1 -> low st !!! g <= disc st !!! g /\
    exists w, w ∈ stack st /\ disc st !!! w = low st !!! g /\ rtc edge g w
}.

(** What has left the stack. *)
Record numbered (st : scc_state) : Prop := {
  inv_done : forall x w, (x < n)%nat -> visited st x -> x ∉ stack st -> edge x w ->
    visited st w /\ (w ∉ stack st) /\
    block_index_of_a_state st !!! w <= block_index_of_a_state st !!! x;
  inv_done_block : forall x, (x < n)%nat -> visited st x -> x ∉ stack st ->
    0 <= block_index_of_a_state st !!! x < equivalence_class_index st;
  inv_class : forall x y, (x < n)%nat -> (y < n)%nat -> visited st x -> visited st y ->
    x ∉ stack st -> y ∉ stack st ->
    block_index_of_a_state st !!! x = block_index_of_a_state st !!! y <-> mutual x y;
  inv_classes : forall c, 0 <= c < equivalence_class_index st -> exists x, (x < n)%nat /\ visited st x /\
    (x ∉ stack st) /\ block_index_of_a_state st !!! x = c
}.

Record scc_inv (F : list (nat * nat)) (st : scc_state) : Prop := {
  inv_basic :> basic st;
  inv_framed :> framed F st;
  inv_numbered :> numbered st
}.

(** *** Consequences *)

Lemma stack_lt F st v : scc_inv F st -> v ∈ stack st -> (v < n)%nat.
Proof. intros H Hv. by apply (inv_stack st H) in Hv as [Hv _]. Qed.

Lemma sorted_inj (d : nat -> Z) l u v :
  StronglySorted (fun u v => d v < d u) l -> u ∈ l -> v ∈ l -> d u = d v -> u = v.
Proof.
  induction 1 as [|x l _ IH Hx]; intros Hu Hv E; [by apply elem_of_nil in Hu|].
  rewrite Forall_forall in Hx. apply elem_of_cons in Hu, Hv.
  destruct Hu as [->|Hu], Hv as [->|Hv]; [done| | |by apply IH].
  - specialize (Hx v Hv). lia.
  - specialize (Hx u Hu). lia.
Qed.

Lemma stack_inj F st u v : scc_inv F st -> u ∈ stack st -> v ∈ stack st ->
  disc st !!! u = disc st !!! v -> u = v.
Proof. intros H. apply (sorted_inj (fun v => disc st !!! v)), (inv_stack_sorted st H). Qed.

Lemma time_bound F st : scc_inv F st -> 0 <= discovery_time st <= Z.of_nat n.
Proof.
  intros H. destruct (inv_visited st H) as (vis & Hd & -> & Hv). split; [lia|].
  apply Nat2Z.inj_le, NoDup_bounded_length; [done|]. intros u Hu. by apply Hv.
Qed.

Lemma time_bound_unvisited F st v : scc_inv F st -> (v < n)%nat -> ~ visited st v ->
  discovery_time st < Z.of_nat n.
Proof.
  intros H Hv Hn'. destruct (inv_visited st H) as (vis & Hd & -> & Hvis).
  assert (Hl : (length (v :: vis) <= n)%nat).
  { apply NoDup_bounded_length.
    - apply NoDup_cons. split; [|done]. by rewrite Hvis; intros [].
    - intros u [->|Hu]%elem_of_cons; [done|]. by apply Hvis. }
  cbn in Hl. lia.
Qed.

Lemma time_not_uninitialised F st v : scc_inv F st -> (v < n)%nat -> ~ visited st v ->
  discovery_time st <> uninitialised.
Proof. intros H Hv Hn'. pose proof (time_bound_unvisited F st v H Hv Hn'). unfold uninitialised. lia. Qed.

(** The frames' states have the same index wherever they occur. *)
Lemma gray_stack F st g : scc_inv F st -> g ∈ F.*1 -> g ∈ stack st.
Proof.
  intros H (f & -> & Hf)%list_elem_of_fmap. destruct f as [s i]. by apply (inv_frame_stack F st H s i).
Qed.

Lemma unvisited_not_stack F st v : scc_inv F st -> ~ visited st v -> v ∉ stack st.
Proof. intros H Hv Hs. by apply Hv, (inv_stack_visited st H). Qed.

(** Without frames the stack is empty. *)
Lemma no_frames F st : scc_inv F st -> F = [] -> stack st = [].
Proof.
  intros H ->. destruct (stack st) as [|x l] eqn:E; [done|].
  destruct (inv_back [] st H x) as (y & Hy & _); [rewrite E; left|]. by apply elem_of_nil in Hy.
Qed.

(** ** Discovering a state *)
Section Discover.
Context (F F2 : list (nat * nat)) (st : scc_state) (v : nat) (w : list (nat * nat)).
Context (H : scc_inv F st) (Hv : (v < n)%nat) (Hnv : ~ visited st v).
Context (Hg : F2.*1 = F.*1).
Context (Hidx : forall s i, (s, i) ∈ F2 -> (lowerbound src_tgt s <= i <= upperbound src_tgt s)%nat).
Context (Hscan : forall x y, scanned F2 x y -> scanned F x y \/ y = v).
Context (Hpath : forall g, g ∈ F.*1 -> rtc edge g v).

Let st' : scc_state :=
  mk_scc (<[v := discovery_time st]> (low st)) (<[v := discovery_time st]> (disc st))
    (v :: stack st) (discovery_time st + 1) w
    (<[v := in_stack_indicator]> (block_index_of_a_state st)) (equivalence_class_index st).

Lemma discovered_disc u : disc st' !!! u = if decide (u = v) then discovery_time st else disc st !!! u.
Proof. cbn. apply vec_insert. by rewrite (inv_disc_length st H). Qed.

Lemma discovered_low u : low st' !!! u = if decide (u = v) then discovery_time st else low st !!! u.
Proof. cbn. apply vec_insert. by rewrite (inv_low_length st H). Qed.

Lemma discovered_block u :
  block_index_of_a_state st' !!! u = if decide (u = v) then in_stack_indicator else block_index_of_a_state st !!! u.
Proof. cbn. apply vec_insert. by rewrite (inv_block_length st H). Qed.

Lemma discovered_visited u : visited st' u <-> u = v \/ visited st u.
Proof.
  unfold visited. rewrite discovered_disc. pose proof (time_not_uninitialised F st v H Hv Hnv).
  case_decide; [|tauto]. subst. tauto.
Qed.

Lemma disc_before u : u ∈ stack st -> disc st !!! u < discovery_time st.
Proof.
  intros Hu. apply (inv_disc st H u); [by apply (stack_lt F st)|by apply (inv_stack_visited st H)].
Qed.

Lemma stack_not_v u : u ∈ stack st -> u <> v.
Proof. intros Hu ->. by apply (unvisited_not_stack F st v H Hnv). Qed.

(** Stacked states keep their time. *)
Lemma discovered_disc_old u : u ∈ stack st -> disc st' !!! u = disc st !!! u.
Proof. intros Hu. rewrite discovered_disc, decide_False; [done|by apply stack_not_v]. Qed.

Lemma discovered_sorted l : (forall u, u ∈ l -> u ∈ stack st) ->
  StronglySorted (fun u v => disc st !!! v < disc st !!! u) l ->
  StronglySorted (fun u v => disc st' !!! v < disc st' !!! u) (v :: l).
Proof.
  intros Hl Hs. constructor.
  - induction Hs as [|x l Hs IH Hx]; constructor.
    + apply IH. intros u Hu. apply Hl. by right.
    + rewrite Forall_forall in *. intros y Hy. rewrite !discovered_disc_old by (apply Hl; by (left || right)). auto.
  - rewrite Forall_forall. intros u Hu%Hl. rewrite (discovered_disc_old u Hu), discovered_disc, decide_True by done.
    by apply disc_before.
Qed.

Lemma discovered_basic : basic st'.
Proof.
  split; try (cbn; rewrite length_insert; apply H).
  - destruct (inv_visited st H) as (vis & Hd & Ht & Hvis). exists (v :: vis). split_and!.
    + apply NoDup_cons. split; [|done]. by rewrite Hvis; intros [].
    + cbn [discovery_time length st']. lia.
    + intros u. rewrite elem_of_cons, Hvis, discovered_visited. split; [intros [->|]; tauto|tauto].
  - intros u Hu. rewrite discovered_low, discovered_disc. case_decide; [done|]. by apply (inv_low_visited st H).
  - intros u Hu. rewrite discovered_visited, discovered_disc. pose proof (time_bound F st H).
    cbn [discovery_time st']. case_decide as E; [lia|]. intros [?|Hvu]; [done|].
    pose proof (inv_disc st H u Hu Hvu). lia.
  - intros u. cbn [stack st']. rewrite elem_of_cons, discovered_block, (inv_stack st H). case_decide as E; [subst|]; tauto.
  - intros u. cbn [stack st']. rewrite elem_of_cons, discovered_visited. intros [->|Hu]; [by left|right].
    by apply (inv_stack_visited st H).
  - apply discovered_sorted; [done|apply (inv_stack_sorted st H)].
  - pose proof (inv_count st H). cbn [equivalence_class_index stack discovery_time st' length]. lia.
Qed.

Lemma discovered_numbered : numbered st'.
Proof.
  assert (Hx : forall x, visited st' x -> x ∉ stack st' -> x <> v /\ visited st x /\ (x ∉ stack st) /\
    block_index_of_a_state st' !!! x = block_index_of_a_state st !!! x).
  { intros x. rewrite discovered_visited, discovered_block. cbn [stack st']. rewrite not_elem_of_cons.
    intros Hx [Hxv Hxs]. destruct Hx as [|Hx]; [done|]. by rewrite decide_False. }
  split.
  - intros x y Hxn Hx1 Hx2 He. destruct (Hx x Hx1 Hx2) as (Hxv & Hx3 & Hx4 & ->).
    destruct (inv_done st H x y Hxn Hx3 Hx4 He) as (Hy1 & Hy2 & Hy3).
    assert (Hyv : y <> v) by (by intros ->). rewrite discovered_visited, discovered_block, decide_False by done.
    split; [by right|]. split; [|done]. cbn [stack st']. by rewrite not_elem_of_cons.
  - intros x Hxn Hx1 Hx2. destruct (Hx x Hx1 Hx2) as (Hxv & Hx3 & Hx4 & ->). by apply (inv_done_block st H).
  - intros x y Hxn Hyn Hx1 Hy1 Hx2 Hy2. destruct (Hx x Hx1 Hx2) as (_ & Hx3 & Hx4 & ->).
    destruct (Hx y Hy1 Hy2) as (_ & Hy3 & Hy4 & ->). by apply (inv_class st H).
  - intros c Hc. destruct (inv_classes st H c Hc) as (x & Hxn & Hx1 & Hx2 & Hx3). exists x.
    assert (Hxv : x <> v) by (by intros ->). rewrite discovered_visited, discovered_block, decide_False by done.
    split_and!; [done|by right| |done]. cbn [stack st']. by rewrite not_elem_of_cons.
Qed.

(** No transition of the new state has been scanned. *)
Lemma discovered_unscanned x y : scanned ((v, lowerbound src_tgt v) :: F2) x y -> x <> v /\ (scanned F x y \/ y = v).
Proof.
  intros (j & Hj & Hlt). split.
  - intros ->. destruct Hj as [Hj _]. specialize (Hlt _ (list_elem_of_here _ _)). lia.
  - apply Hscan. exists j. split; [done|]. intros i Hi. apply Hlt. by right.
Qed.

Lemma discovered_low_bound g x y :
  g ∈ v :: F2.*1 -> x ∈ stack st' -> disc st' !!! g <= disc st' !!! x ->
  (forall g', g' ∈ v :: F2.*1 -> disc st' !!! g' <= disc st' !!! x -> disc st' !!! g' <= disc st' !!! g) ->
  scanned ((v, lowerbound src_tgt v) :: F2) x y -> y ∈ stack st' -> low st' !!! g <= disc st' !!! y.
Proof.
  assert (Hgs : forall g, g ∈ F.*1 -> g ∈ stack st) by (intros g'; apply (gray_stack F st g' H)).
  intros Hgin Hx Hle Hmax Hsc Hy. rewrite Hg in *. apply discovered_unscanned in Hsc as [Hxv Hsc].
  cbn [stack st'] in Hx, Hy. apply elem_of_cons in Hx as [->|Hx]; [done|].
  rewrite (discovered_disc_old x Hx) in Hle, Hmax. pose proof (disc_before x Hx) as Hxt.
  apply elem_of_cons in Hgin as [->|Hgin].
  { rewrite discovered_disc, decide_True in Hle by done. lia. }
  rewrite (discovered_disc_old g) in Hle, Hmax by auto.
  rewrite discovered_low, decide_False by (by apply stack_not_v, Hgs).
  pose proof (proj1 (inv_low_sound F st H g Hgin)) as Hlg. pose proof (disc_before g (Hgs g Hgin)) as Hgt.
  apply elem_of_cons in Hy as [->|Hy]; [rewrite discovered_disc, decide_True by done; lia|].
  rewrite (discovered_disc_old y Hy). destruct Hsc as [Hsc| ->]; [|by destruct (stack_not_v v Hy)].
  apply (inv_low F st H g x y); try done.
  intros g' Hg' Hle'. specialize (Hmax g' ltac:(by right)). rewrite discovered_disc_old in Hmax by auto. auto.
Qed.

Lemma discovered_framed : framed ((v, lowerbound src_tgt v) :: F2) st'.
Proof.
  assert (Hgs : forall g, g ∈ F.*1 -> g ∈ stack st) by (intros g; apply (gray_stack F st g H)).
  split; cbn [fmap list_fmap fst].
  - intros s i [[= -> ->]|Hs]%elem_of_cons; cbn [stack st']; [left|right]. apply Hgs. rewrite <- Hg.
    apply list_elem_of_fmap. by exists (s, i).
  - intros s i [[= -> ->]|Hs]%elem_of_cons; [specialize (Hbounds v Hv); lia|by apply Hidx].
  - change (F2.*1) with (F2.*1). rewrite Hg. apply discovered_sorted; [done|apply (inv_frame_sorted F st H)].
  - intros y x Hy Hx Hle. rewrite Hg in Hy. cbn [stack st'] in Hx. apply elem_of_cons in Hx, Hy.
    destruct Hx as [->|Hx], Hy as [->|Hy]; [done|by apply Hpath| |].
    + rewrite (discovered_disc_old x Hx), discovered_disc, decide_True in Hle by done.
      pose proof (disc_before x Hx). lia.
    + rewrite !discovered_disc_old in Hle by auto. by apply (inv_chain F st H).
  - intros x Hx. cbn [stack st'] in Hx. rewrite Hg. apply elem_of_cons in Hx as [->|Hx].
    + exists v. split; [left|]. done.
    + destruct (inv_back F st H x Hx) as (y & Hy & Hle & Hr). exists y. split; [by right|].
      by rewrite !discovered_disc_old by auto.
  - intros x y Hx Hvx Hsc. apply discovered_unscanned in Hsc as [Hxv [Hsc| ->]]; apply discovered_visited; [|by left].
    right. apply discovered_visited in Hvx as [|Hvx]; [done|]. by apply (inv_scanned F st H x).
  - apply discovered_low_bound.
  - intros g Hgin. rewrite Hg in Hgin. apply elem_of_cons in Hgin as [->|Hgin].
    + rewrite discovered_low, discovered_disc, !decide_True by done. split; [lia|]. exists v.
      rewrite discovered_disc, decide_True by done. split; [left|done].
    + rewrite discovered_low, decide_False by (by apply stack_not_v, Hgs). rewrite (discovered_disc_old g) by auto.
      destruct (inv_low_sound F st H g Hgin) as (Hle & y & Hy & Ey & Hr). split; [done|]. exists y.
      rewrite discovered_disc_old by done. split; [by right|done].
Qed.

Lemma discovered_inv : scc_inv ((v, lowerbound src_tgt v) :: F2) st'.
Proof. split; [apply discovered_basic|apply discovered_framed|apply discovered_numbered]. Qed.

End Discover.

(** Lowering [low] of a frame state. *)
Lemma lower_basic F st g m :
  scc_inv F st -> g ∈ F.*1 -> m <= low st !!! g -> basic (set_low (<[g := m]> (low st)) st).
Proof.
  intros H Hg Hm. pose proof (gray_stack F st g H Hg) as Hgs. pose proof (stack_lt F st g H Hgs) as Hgn.
  split; try apply H; [cbn; rewrite length_insert; apply H|].
  intros u Hu. cbn [low set_low]. rewrite vec_insert by (by rewrite (inv_low_length st H)).
  case_decide as E; [subst u|by apply (inv_low_visited st H)].
  pose proof (inv_stack_visited st H g Hgs) as Hvs. pose proof (inv_disc st H g Hgn Hvs).
  pose proof (time_bound _ st H). pose proof (proj1 (inv_low_sound _ st H g Hg)).
  split; [intros E; unfold uninitialised in E; lia|done].
Qed.

(** ** Scanning a transition *)
Section ScanEdge.
Context (F : list (nat * nat)) (st : scc_state) (s i v : nat).
Context (H : scc_inv ((s, i) :: F) st) (He : edge_at s i v) (Hvis : visited st v).

Lemma scan_frame_fresh j : (s, j) ∉ F.
Proof.
  intros Hj. pose proof (inv_frame_sorted _ _ H) as Hs. cbn in Hs. inversion Hs as [|? ? _ Hall]. subst.
  rewrite Forall_forall in Hall. specialize (Hall s). assert (s ∈ F.*1) as Hin.
  { apply list_elem_of_fmap. by exists (s, j). }
  specialize (Hall Hin). lia.
Qed.

Lemma scan_scanned x y : scanned ((s, S i) :: F) x y -> scanned ((s, i) :: F) x y \/ (x = s /\ y = v).
Proof.
  intros (j & Hj & Hlt). destruct (decide (x = s)) as [->|Hn'].
  - assert (Hji : (j < S i)%nat) by (apply Hlt; left). destruct (decide (j = i)) as [->|Hne].
    + right. destruct Hj as [_ Hj], He as [_ He']. split; congruence.
    + left. exists j. split; [done|]. intros k [[= ->]|Hk]%elem_of_cons; [lia|]. by destruct (scan_frame_fresh k).
  - left. exists j. split; [done|]. intros k [[= -> ->]|Hk]%elem_of_cons; [done|]. apply Hlt. by right.
Qed.

(** [low] of [s] may become less, down to the time of [v]. *)
Context (m : Z) (Hm1 : m <= low st !!! s) (Hm2 : v ∈ stack st -> m <= disc st !!! v).
Context (Hm3 : m = low st !!! s \/ (v ∈ stack st /\ m = disc st !!! v)).

Let st' : scc_state := set_low (<[s := m]> (low st)) st.

Lemma scan_s_stack : s ∈ stack st.
Proof. apply (inv_frame_stack _ _ H s i). left. Qed.

Lemma scan_s_lt : (s < n)%nat.
Proof. apply (stack_lt _ st s H), scan_s_stack. Qed.

Lemma scan_low u : low st' !!! u = if decide (u = s) then m else low st !!! u.
Proof. cbn. apply vec_insert. rewrite (inv_low_length st H). apply scan_s_lt. Qed.

Lemma scan_basic : basic st'.
Proof. apply (lower_basic ((s, i) :: F)); [done|left|done]. Qed.

Lemma scan_framed : framed ((s, S i) :: F) st'.
Proof.
  split.
  - intros u j [[= -> ->]|Hu]%elem_of_cons; [apply scan_s_stack|]. apply (inv_frame_stack _ _ H u j). by right.
  - intros u j [[= -> ->]|Hu]%elem_of_cons; [destruct He; lia|]. apply (inv_frame_index _ _ H u j). by right.
  - apply (inv_frame_sorted _ _ H).
  - apply (inv_chain _ _ H).
  - apply (inv_back _ _ H).
  - intros x y Hx Hvx [Hsc|[-> ->]]%scan_scanned; [|done]. by apply (inv_scanned _ _ H x).
  - intros g x y Hg Hx Hle Hmax Hsc Hy. rewrite scan_low. apply scan_scanned in Hsc as [Hsc|[-> ->]].
    + pose proof (inv_low _ _ H g x y Hg Hx Hle Hmax Hsc Hy). case_decide; [subst|done]. cbn. lia.
    + assert (g = s) as ->; [|rewrite decide_True by done; by apply Hm2].
      apply (stack_inj _ st g s H); [by apply (gray_stack _ st _ H)|apply scan_s_stack|].
      specialize (Hmax s ltac:(left) ltac:(lia)). cbn in *. lia.
  - intros g Hg. rewrite scan_low. destruct (inv_low_sound _ _ H g Hg) as (Hle & y & Hy & Ey & Hr).
    case_decide as E; [subst g|split; [done|by exists y]]. cbn. split; [lia|].
    destruct Hm3 as [->|[Hvs ->]]; [by exists y|]. exists v. split; [done|]. split; [done|].
    apply rtc_once. split; [apply scan_s_lt|by exists i].
Qed.

Lemma scan_edge : scc_inv ((s, S i) :: F) st'.
Proof. split; [apply scan_basic|apply scan_framed|]. split; apply H. Qed.

End ScanEdge.

(** ** Leaving a state *)
Section Finish.
Context (F : list (nat * nat)) (st : scc_state) (s : nat).
Context (H : scc_inv ((s, upperbound src_tgt s) :: F) st).

Lemma finish_s_stack : s ∈ stack st.
Proof. apply (inv_frame_stack _ _ H s (upperbound src_tgt s)). left. Qed.

Lemma finish_scanned x y : scanned F x y -> scanned ((s, upperbound src_tgt s) :: F) x y.
Proof.
  intros (j & Hj & Hlt). exists j. split; [done|]. intros k [[= -> ->]|Hk]%elem_of_cons; [|by apply Hlt].
  destruct Hj. lia.
Qed.

Lemma finish_frame_before g : g ∈ F.*1 -> disc st !!! g < disc st !!! s.
Proof.
  intros Hg. pose proof (inv_frame_sorted _ _ H) as Hs. cbn in Hs. inversion Hs as [|? ? _ Hall]. subst.
  rewrite Forall_forall in Hall. by apply Hall.
Qed.

Lemma finish_gray g : g ∈ ((s, upperbound src_tgt s) :: F).*1 -> disc st !!! g <= disc st !!! s.
Proof. intros [->|Hg]%elem_of_cons; [cbn; lia|]. pose proof (finish_frame_before g Hg). lia. Qed.

Lemma finish_gray_rest g : g ∈ ((s, upperbound src_tgt s) :: F).*1 -> disc st !!! g < disc st !!! s -> g ∈ F.*1.
Proof. intros [->|Hg]%elem_of_cons Hlt; [cbn in Hlt; lia|done]. Qed.

(** *** The state stays on the stack *)
Section Stay.
Context (s' i' : nat) (F' : list (nat * nat)) (EF : F = (s', i') :: F').
Context (Hlow : low st !!! s < disc st !!! s).

Let m : Z := Z.min (low st !!! s') (low st !!! s).
Let st' : scc_state := set_low (<[s' := m]> (low st)) st.

Lemma stay_parent : s' ∈ F.*1.
Proof. rewrite EF. left. Qed.

Lemma stay_parent_gray : s' ∈ ((s, upperbound src_tgt s) :: F).*1.
Proof. right. apply stay_parent. Qed.

Lemma stay_low u : low st' !!! u = if decide (u = s') then m else low st !!! u.
Proof.
  cbn. apply vec_insert. rewrite (inv_low_length st H). apply (stack_lt _ st _ H), (gray_stack _ st _ H), stay_parent_gray.
Qed.

Lemma stay_low_le u : low st' !!! u <= low st !!! u.
Proof. rewrite stay_low. case_decide; [subst; unfold m|]; lia. Qed.

(** The parent is the last of the remaining frames. *)
Lemma stay_parent_max g : g ∈ F.*1 -> disc st !!! s' <= disc st !!! g -> g = s'.
Proof.
  rewrite EF. intros [->|Hg]%elem_of_cons Hle; [done|]. pose proof (inv_frame_sorted _ _ H) as Hs.
  rewrite EF in Hs. cbn in Hs. inversion Hs as [|? ? Hs' _]. inversion Hs' as [|? ? _ Hall]. subst.
  rewrite Forall_forall in Hall. specialize (Hall g Hg). cbn in Hall. lia.
Qed.

Lemma stay_back x : x ∈ stack st -> exists y, y ∈ F.*1 /\ disc st !!! y <= disc st !!! x /\ rtc edge x y.
Proof.
  intros Hx. destruct (inv_back _ _ H x Hx) as (y & Hy & Hle & Hr).
  apply elem_of_cons in Hy as [->|Hy]; [|by exists y]. cbn in Hle.
  destruct (inv_low_sound _ _ H s ltac:(left)) as (_ & w & Hw & Ew & Hsw).
  destruct (inv_back _ _ H w Hw) as (y & Hy & Hyw & Hwy). exists y. split_and!.
  - apply finish_gray_rest; [done|lia].
  - cbn in *. lia.
  - etrans; [exact Hr|]. by etrans.
Qed.

Lemma stay_low_bound g x y :
  g ∈ F.*1 -> x ∈ stack st -> disc st !!! g <= disc st !!! x ->
  (forall g', g' ∈ F.*1 -> disc st !!! g' <= disc st !!! x -> disc st !!! g' <= disc st !!! g) ->
  scanned F x y -> y ∈ stack st -> low st' !!! g <= disc st !!! y.
Proof.
  intros Hg Hx Hle Hmax Hsc%finish_scanned Hy.
  destruct (Z.le_gt_cases (disc st !!! s) (disc st !!! x)) as [Hsx|Hsx].
  - pose proof (finish_frame_before s' stay_parent) as Hps.
    assert (g = s') as -> by (apply stay_parent_max; [done|]; apply Hmax; [apply stay_parent|lia]).
    rewrite stay_low, decide_True by done.
    pose proof (inv_low _ _ H s x y ltac:(left) Hx Hsx (fun g' Hg' _ => finish_gray g' Hg') Hsc Hy). unfold m. lia.
  - pose proof (stay_low_le g). enough (low st !!! g <= disc st !!! y) by lia.
    apply (inv_low _ _ H g x y); try done; [by right|].
    intros g' Hg' Hle'. apply Hmax; [|done]. apply finish_gray_rest; [done|lia].
Qed.

Lemma stay_inv : scc_inv F st'.
Proof.
  split; [apply (lower_basic _ _ _ _ H stay_parent_gray); unfold m; lia| |split; apply H].
  split.
  - intros u j Hu. apply (inv_frame_stack _ _ H u j). by right.
  - intros u j Hu. apply (inv_frame_index _ _ H u j). by right.
  - pose proof (inv_frame_sorted _ _ H) as Hs. cbn in Hs. by inversion Hs.
  - intros y x Hy. apply (inv_chain _ _ H y x). by right.
  - apply stay_back.
  - intros x y Hx Hvx Hsc%finish_scanned. by apply (inv_scanned _ _ H x).
  - apply stay_low_bound.
  - intros g Hg. pose proof (stay_low_le g) as Hle'. destruct (inv_low_sound _ _ H g ltac:(by right)) as (Hle & y & Hy & Ey & Hr).
    split; [cbn in *; lia|]. rewrite stay_low. case_decide as E; [subst g|by exists y]. unfold m.
    destruct (Z.min_spec (low st !!! s') (low st !!! s)) as [[_ ->]|[_ ->]]; [by exists y|].
    destruct (inv_low_sound _ _ H s ltac:(left)) as (_ & w & Hw & Ew & Hsw). exists w. split; [done|]. split; [done|].
    transitivity s; [|done]. apply (inv_chain _ _ H); [by right|apply finish_s_stack|].
    pose proof (finish_frame_before s' Hg). lia.
Qed.

End Stay.

(** *** The state is the root of a component *)
Section Pop.
Context (Hlow : low st !!! s = disc st !!! s).

(** The component: the states from [s] upwards on the stack. *)
Definition component (x : nat) : Prop := x ∈ stack st /\ disc st !!! s <= disc st !!! x.

Lemma component_scanned x w : component x -> edge x w -> scanned ((s, upperbound src_tgt s) :: F) x w.
Proof.
  intros [Hx Hle] (Hxn & j & Hj). exists j. split; [done|]. intros i [[= -> ->]|Hi]%elem_of_cons; [destruct Hj; lia|].
  assert (Hg : x ∈ F.*1) by (apply list_elem_of_fmap; by exists (x, i)). pose proof (finish_frame_before x Hg). lia.
Qed.

(** Its transitions stay in it or lead to numbered states. *)
Lemma component_closed x w : component x -> edge x w -> visited st w /\ (w ∈ stack st -> component w).
Proof.
  intros Hx He. pose proof (component_scanned x w Hx He) as Hsc. destruct Hx as [Hx Hle]. split.
  - apply (inv_scanned _ _ H x); [by apply (stack_lt _ st x H)|by apply (inv_stack_visited st H)|done].
  - intros Hw. split; [done|]. rewrite <- Hlow.
    by apply (inv_low _ _ H s x w ltac:(left) Hx Hle (fun g' Hg' _ => finish_gray g' Hg') Hsc).
Qed.

Lemma component_mutual x y : component x -> component y -> mutual x y.
Proof.
  assert (Hs : forall x, component x -> rtc edge s x /\ rtc edge x s).
  { intros z [Hz Hle]. split; [by apply (inv_chain _ _ H s z ltac:(left))|].
    destruct (inv_back _ _ H z Hz) as (g & Hg & _ & Hr). transitivity g; [done|].
    apply (inv_chain _ _ H g s Hg finish_s_stack). by apply finish_gray. }
  intros [Hx1 Hx2]%Hs [Hy1 Hy2]%Hs. split; by transitivity s.
Qed.

(** Numbered states reach numbered states only. *)
Lemma done_closed x y :
  rtc edge x y -> (x < n)%nat -> visited st x -> x ∉ stack st ->
  (y < n)%nat /\ visited st y /\ (y ∉ stack st) /\ block_index_of_a_state st !!! y <= block_index_of_a_state st !!! x.
Proof.
  induction 1 as [x|x y z Hxy _ IH]; intros Hx1 Hx2 Hx3; [split_and!; [done..|lia]|].
  destruct (inv_done st H x y Hx1 Hx2 Hx3 Hxy) as (Hy1 & Hy2 & Hy3).
  destruct (IH (edge_lt x y Hxy) Hy1 Hy2) as (Hz1 & Hz2 & Hz3 & Hz4). split_and!; [done..|lia].
Qed.

Context (pre post : list nat) (Estack : stack st = pre ++ s :: post).

Lemma pop_sorted : StronglySorted (fun u v => disc st !!! v < disc st !!! u) (pre ++ s :: post).
Proof. rewrite <- Estack. apply (inv_stack_sorted st H). Qed.

Lemma pop_component x : x ∈ pre ++ [s] <-> component x.
Proof.
  unfold component. rewrite Estack, !elem_of_app, !elem_of_cons, elem_of_nil.
  destruct (proj1 (StronglySorted_app _ _ _) pop_sorted) as (Hpre & _ & Hs).
  inversion Hs as [|? ? _ Hpost]. subst. rewrite Forall_forall in Hpost. split.
  - intros [Hx|[->|[]]]; [|split; [tauto|lia]]. split; [tauto|]. specialize (Hpre x s Hx ltac:(left)). lia.
  - intros [[Hx|[->|Hx]] Hle]; [tauto..|]. specialize (Hpost x Hx). cbn in Hpost. lia.
Qed.

Lemma pop_post x : x ∈ post <-> x ∈ stack st /\ ~ component x.
Proof.
  rewrite <- pop_component, Estack, !elem_of_app, !elem_of_cons, elem_of_nil.
  destruct (proj1 (StronglySorted_app _ _ _) pop_sorted) as (Hpre & _ & Hs).
  inversion Hs as [|? ? _ Hpost]. subst. rewrite Forall_forall in Hpost. split.
  - intros Hx. split; [tauto|]. intros [Hx'|[->|[]]].
    + specialize (Hpre x x Hx' ltac:(by right)). lia.
    + specialize (Hpost s Hx). lia.
  - intros [[?|[?|?]] Hn']; [tauto..|done].
Qed.

Lemma pop_post_disc x : x ∈ post <-> x ∈ stack st /\ disc st !!! x < disc st !!! s.
Proof.
  rewrite pop_post. unfold component. split; intros [Hx Hd]; (split; [done|]); [|lia].
  apply Z.nle_gt. intros Hle. by apply Hd.
Qed.

Context (block' : list Z) (Hbl : length block' = length (block_index_of_a_state st)).
Context (Hblock : forall u, block' !!! u =
  if decide (u ∈ pre ++ [s]) then equivalence_class_index st else block_index_of_a_state st !!! u).
Context (w0 : list (nat * nat)).

Let st' : scc_state :=
  mk_scc (low st) (disc st) post (discovery_time st) w0 block' (equivalence_class_index st + 1).

Lemma pop_block_in u : component u -> block' !!! u = equivalence_class_index st.
Proof. intros Hu. rewrite Hblock, decide_True; [done|]. by apply pop_component. Qed.

Lemma pop_block_out u : ~ component u -> block' !!! u = block_index_of_a_state st !!! u.
Proof. intros Hu. rewrite Hblock, decide_False; [done|]. by rewrite pop_component. Qed.

Lemma component_dec u : component u \/ ~ component u.
Proof. rewrite <- pop_component. destruct (decide (u ∈ pre ++ [s])); tauto. Qed.

Lemma pop_basic : basic st'.
Proof.
  pose proof (time_bound _ st H) as Ht. pose proof (inv_count st H) as Hc. rewrite Estack, length_app in Hc. cbn in Hc.
  split; try apply H.
  - cbn. rewrite Hbl. apply H.
  - intros v. cbn [stack block_index_of_a_state st']. rewrite pop_post, (inv_stack st H).
    destruct (component_dec v) as [Hv|Hv]; [rewrite pop_block_in by done|rewrite pop_block_out by done; tauto].
    split; [tauto|]. intros [_ E]. unfold in_stack_indicator in E. lia.
  - intros v [Hv _]%pop_post. by apply (inv_stack_visited st H).
  - pose proof pop_sorted as Hs. apply StronglySorted_app in Hs as (_ & _ & Hs). by inversion Hs.
  - cbn [equivalence_class_index stack discovery_time st']. lia.
Qed.

Lemma pop_framed : framed F st'.
Proof.
  assert (Hg : forall g, g ∈ F.*1 -> g ∈ ((s, upperbound src_tgt s) :: F).*1) by (intros g; by right).
  split.
  - intros u j Hu. apply pop_post_disc. split; [apply (inv_frame_stack _ _ H u j); by right|].
    apply finish_frame_before, list_elem_of_fmap. by exists (u, j).
  - intros u j Hu. apply (inv_frame_index _ _ H u j). by right.
  - pose proof (inv_frame_sorted _ _ H) as Hs. cbn in Hs. by inversion Hs.
  - intros y x Hy%Hg [Hx _]%pop_post. by apply (inv_chain _ _ H y x).
  - intros x [Hx Hd]%pop_post_disc. destruct (inv_back _ _ H x Hx) as (y & Hy & Hle & Hr). exists y.
    split; [|done]. apply finish_gray_rest; [done|lia].
  - intros x y Hx Hvx Hsc%finish_scanned. by apply (inv_scanned _ _ H x).
  - intros g x y Hgin%Hg [Hx Hxd]%pop_post_disc Hle Hmax Hsc%finish_scanned [Hy _]%pop_post.
    apply (inv_low _ _ H g x y); try done. intros g' Hg' Hle'. apply Hmax; [|done].
    apply finish_gray_rest; [done|]. cbn in *. lia.
  - intros g Hgin. pose proof (finish_frame_before g Hgin) as Hlt.
    destruct (inv_low_sound _ _ H g (Hg g Hgin)) as (Hle & y & Hy & Ey & Hr). split; [done|]. exists y.
    split; [|done]. apply pop_post_disc. split; [done|lia].
Qed.

(** What is numbered after the pop. *)
Lemma pop_done x : (x < n)%nat -> visited st' x -> x ∉ stack st' ->
  component x \/ (~ component x /\ visited st x /\ x ∉ stack st).
Proof.
  intros Hx Hv Hs. destruct (component_dec x) as [Hc|Hc]; [by left|right]. split_and!; [done|done|].
  intros Hin. apply Hs, pop_post. done.
Qed.

Lemma pop_numbered : numbered st'.
Proof.
  assert (Hnot : forall x, x ∉ stack st -> ~ component x) by (intros x Hx [? _]; done).
  split.
  - intros x w Hxn Hvx Hsx He. cbn [block_index_of_a_state st'].
    destruct (pop_done x Hxn Hvx Hsx) as [Hc|(Hc & Hv & Hs)].
    + destruct (component_closed x w Hc He) as [Hw1 Hw2]. rewrite (pop_block_in x Hc). split; [done|].
      destruct (decide (w ∈ stack st)) as [Hw|Hw].
      * specialize (Hw2 Hw). rewrite pop_block_in by done. split; [|lia]. cbn [stack st']. rewrite pop_post. tauto.
      * rewrite pop_block_out by auto. pose proof (inv_done_block st H w (edge_lt x w He) Hw1 Hw).
        split; [|lia]. cbn [stack st']. rewrite pop_post. tauto.
    + destruct (inv_done st H x w Hxn Hv Hs He) as (Hw1 & Hw2 & Hw3). split; [done|].
      rewrite !pop_block_out by auto. split; [|done]. cbn [stack st']. rewrite pop_post. tauto.
  - intros x Hxn Hvx Hsx. cbn [block_index_of_a_state equivalence_class_index st']. pose proof (inv_count st H).
    destruct (pop_done x Hxn Hvx Hsx) as [Hc|(Hc & Hv & Hs)]; [rewrite pop_block_in by done; lia|].
    rewrite pop_block_out by done. pose proof (inv_done_block st H x Hxn Hv Hs). lia.
  - intros x y Hxn Hyn Hvx Hvy Hsx Hsy. cbn [block_index_of_a_state st'].
    destruct (pop_done x Hxn Hvx Hsx) as [Hc|(Hc & Hv & Hs)], (pop_done y Hyn Hvy Hsy) as [Hc'|(Hc' & Hv' & Hs')].
    + rewrite !pop_block_in by done. split; [intros _; by apply component_mutual|done].
    + rewrite pop_block_in, pop_block_out by done. pose proof (inv_done_block st H y Hyn Hv' Hs'). split; [lia|].
      intros [_ Hr]. apply done_closed in Hr as (_ & _ & Hx & _); try done. by destruct Hc.
    + rewrite pop_block_out, pop_block_in by done. pose proof (inv_done_block st H x Hxn Hv Hs). split; [lia|].
      intros [Hr _]. apply done_closed in Hr as (_ & _ & Hy & _); try done. by destruct Hc'.
    + rewrite !pop_block_out by done. by apply (inv_class st H).
  - intros c Hc. cbn [equivalence_class_index block_index_of_a_state stack st'] in *.
    destruct (decide (c = equivalence_class_index st)) as [->|Hne].
    + assert (Hcs : component s) by (split; [apply finish_s_stack|lia]). exists s.
      split_and!; [by apply (stack_lt _ st s H), Hcs|apply (inv_stack_visited st H s), Hcs|rewrite pop_post; tauto|].
      by apply pop_block_in.
    + destruct (inv_classes st H c ltac:(lia)) as (x & Hx1 & Hx2 & Hx3 & Hx4). exists x.
      split_and!; [done|done|rewrite pop_post; tauto|]. rewrite pop_block_out by auto. done.
Qed.

Lemma pop_inv : scc_inv F st'.
Proof. split; [apply pop_basic|apply pop_framed|apply pop_numbered]. Qed.

End Pop.

Lemma frames_cases : F = [] \/ exists s' i' F', F = (s', i') :: F'.
Proof. destruct F as [|[s' i'] F']; [by left|right; eauto]. Qed.

(** The whole of [finish]. *)
Lemma finish_pop : low st !!! s = disc st !!! s -> work st = F ->
  scc_inv F (finish s st) /\ work (finish s st) = F /\ disc (finish s st) = disc st /\
  discovery_time (finish s st) = discovery_time st.
Proof.
  intros E Ew. destruct (list_elem_of_split_l _ _ finish_s_stack) as (pre & post & Es & Hpre).
  destruct (pop_until_spec s (equivalence_class_index st) pre post (block_index_of_a_state st) Hpre)
    as (block' & Ep & Hl & Hb).
  { intros u Hu. rewrite (inv_block_length st H). apply (stack_lt _ st u H). rewrite Es. set_solver. }
  pose proof (pop_inv E pre post Es block' Hl Hb (work st)) as Hp.
  unfold finish, pop_scc. rewrite E, Z.eqb_refl, Es, Ep. cbn [work]. rewrite Ew in *.
  destruct frames_cases as [EF|(s' & i' & F' & EF)]; [by rewrite EF in *|].
  assert (Hs' : s' ∈ F.*1) by (rewrite EF; left). pose proof (finish_frame_before s' Hs').
  destruct (inv_low_sound _ _ Hp s' Hs') as [Hls' _]. cbn [low disc] in Hls'.
  assert (Hid : <[s' := Z.min (low st !!! s') (low st !!! s)]> (low st) = low st).
  { rewrite Z.min_l by lia. apply list_insert_id, list_lookup_lookup_total_lt. rewrite (inv_low_length st H).
    apply (stack_lt _ st _ H), (gray_stack _ st _ H). by right. }
  rewrite EF in Hp |- *. cbn [low set_low]. rewrite Hid. done.
Qed.

Lemma finish_stay : low st !!! s <> disc st !!! s -> work st = F ->
  scc_inv F (finish s st) /\ work (finish s st) = F /\ disc (finish s st) = disc st /\
  discovery_time (finish s st) = discovery_time st.
Proof.
  intros E Ew. destruct (inv_low_sound _ _ H s ltac:(left)) as (Hle & w & Hw & Ew' & Hsw).
  unfold finish, pop_scc. destruct (Z.eqb_spec (disc st !!! s) (low st !!! s)) as [|_]; [congruence|].
  destruct frames_cases as [EF|(s' & i' & F' & EF)].
  - exfalso. destruct (inv_back _ _ H w Hw) as (y & Hy & Hyw & _). rewrite EF in Hy.
    apply elem_of_cons in Hy as [->|Hy]; [cbn in *; lia|by apply elem_of_nil in Hy].
  - pose proof (stay_inv s' i' F' EF ltac:(lia)) as Hst. rewrite Ew. rewrite EF in Hst |- *.
    cbn [work disc discovery_time set_low]. by rewrite Ew, EF.
Qed.

Lemma finish_inv : work st = F ->
  scc_inv F (finish s st) /\ work (finish s st) = F /\ disc (finish s st) = disc st /\
  discovery_time (finish s st) = discovery_time st.
Proof.
  destruct (decide (low st !!! s = disc st !!! s)); [by apply finish_pop|by apply finish_stay].
Qed.

End Finish.

(** ** The loops *)

Lemma set_work_inv F st w : scc_inv F st -> scc_inv F (set_work w st).
Proof. intros H. split; split; apply H. Qed.

Lemma discover_visited F st s : scc_inv F st -> (s < n)%nat -> visited st s -> discover s st = st.
Proof.
  intros H Hs Hv. unfold discover. destruct (Z.eqb_spec (low st !!! s) uninitialised) as [E|]; [|done].
  apply (inv_low_visited st H s Hs) in E. done.
Qed.

Lemma discover_unvisited F st s : scc_inv F st -> (s < n)%nat -> ~ visited st s ->
  low st !!! s = uninitialised.
Proof.
  intros H Hs Hv. apply (inv_low_visited st H s Hs). destruct (decide (disc st !!! s = uninitialised)); [done|].
  by destruct Hv.
Qed.

(** The state of the loop: the top frame may not have been discovered yet. *)
Definition entered (st : scc_state) : scc_state :=
  match work st with
  | [] => st
  | (s, _) :: rest => discover s (set_work rest st)
  end.

Definition good (st : scc_state) : Prop := scc_inv (work st) (entered st).

(** A bound on the iterations left. *)
Definition remaining (st : scc_state) : nat :=
  2 * (n - Z.to_nat (discovery_time (entered st))) + length (work st).

(** The outcome of scanning the transitions of [s] from frame [F], [st] being the
    state before: recursion into an unvisited state, or the end of [s]. *)
Definition scan_outcome (F : list (nat * nat)) (s : nat) (st : scc_state) (r : scc_state * bool) : Prop :=
  if r.2
  then good r.1 /\ length (work r.1) = S (S (length F)) /\
    discovery_time (entered r.1) = discovery_time st + 1 /\ forall u, visited st u -> visited (entered r.1) u
  else scc_inv ((s, upperbound src_tgt s) :: F) r.1 /\ work r.1 = F /\ disc r.1 = disc st /\
    discovery_time r.1 = discovery_time st.

Lemma scan_recurse F st s i v :
  scc_inv ((s, i) :: F) st -> edge_at s i v -> (v < n)%nat -> disc st !!! v = uninitialised -> work st = F ->
  scan_outcome F s st
    (mk_scc (low st) (<[v := 0]> (disc st)) (stack st) (discovery_time st)
       ((v, lowerbound src_tgt v) :: (s, S i) :: work st)
       (block_index_of_a_state st) (equivalence_class_index st), true).
Proof.
  intros H He Hv Hd Ew. assert (Hnv : ~ visited st v) by (by intros Hvis).
  pose proof (inv_frame_stack _ _ H s i ltac:(left)) as Hss. pose proof (stack_lt _ st s H Hss) as Hsn.
  pose proof (discover_unvisited _ st v H Hv Hnv) as Hl.
  pose proof (discovered_inv ((s, i) :: F) ((s, S i) :: F) st v ((s, S i) :: F) H Hv Hnv eq_refl) as Hi.
  unfold scan_outcome, good. cbn [fst snd]. set (st2 := mk_scc _ _ _ _ _ _ _).
  assert (Ee : entered st2 = mk_scc (<[v := discovery_time st]> (low st)) (<[v := discovery_time st]> (disc st))
    (v :: stack st) (discovery_time st + 1) ((s, S i) :: F)
    (<[v := in_stack_indicator]> (block_index_of_a_state st)) (equivalence_class_index st)).
  { unfold entered, discover. cbn. rewrite Hl, Z.eqb_refl, list_insert_insert_eq, Ew. done. }
  rewrite Ee. cbn [work st2 length]. rewrite Ew. split_and!; [|done|done|].
  - apply Hi.
    + intros u j [[= -> ->]|Hu]%elem_of_cons; [destruct He; lia|]. apply (inv_frame_index _ _ H u j). by right.
    + intros x y Hsc. apply (scan_scanned F st s i v H He) in Hsc as [Hsc|[_ ->]]; [by left|by right].
    + intros g Hg. transitivity s; [|apply rtc_once; split; [done|by exists i]].
      apply (inv_chain _ _ H g s Hg Hss). apply elem_of_cons in Hg as [->|Hg]; [cbn; lia|].
      pose proof (inv_frame_sorted _ _ H) as Hs. cbn in Hs. inversion Hs as [|? ? _ Hall]. subst.
      rewrite Forall_forall in Hall. specialize (Hall g Hg). cbn in Hall. lia.
  - intros u Hu. unfold visited. cbn [disc]. rewrite vec_insert by (by rewrite (inv_disc_length st H)).
    case_decide; [by apply (time_not_uninitialised _ st v H)|done].
Qed.

Lemma scan_inv fuel F s i st :
  scc_inv ((s, i) :: F) st -> work st = F -> fuel = (upperbound src_tgt s - i)%nat ->
  scan_outcome F s st (scan src_tgt fuel s i st).
Proof.
  revert i st. induction fuel as [|fuel IH]; intros i st H Ew Hf.
  - pose proof (inv_frame_index _ _ H s i ltac:(left)) as Hi. assert (i = upperbound src_tgt s) as -> by lia. done.
  - pose proof (inv_frame_index _ _ H s i ltac:(left)) as Hi.
    pose proof (stack_lt _ st s H (inv_frame_stack _ _ H s i ltac:(left))) as Hsn.
    destruct (Htgt s i Hsn ltac:(lia)) as (v & Ev & Hv). assert (He : edge_at s i v) by (split; [lia|done]).
    cbn [scan]. rewrite (list_lookup_total_correct (A:=nat) _ _ _ Ev).
    destruct (Z.eqb_spec (disc st !!! v) uninitialised) as [Hd|Hd]; [by apply scan_recurse|].
    destruct (Z.eqb_spec (block_index_of_a_state st !!! v) in_stack_indicator) as [Hb|Hb].
    + assert (Hvs : v ∈ stack st) by (by apply (inv_stack st H)).
      pose proof (scan_edge F st s i v H He Hd (Z.min (low st !!! s) (disc st !!! v))) as Hs.
      assert (Hm : Z.min (low st !!! s) (disc st !!! v) = low st !!! s \/
        (v ∈ stack st /\ Z.min (low st !!! s) (disc st !!! v) = disc st !!! v)).
      { destruct (Z.min_spec (low st !!! s) (disc st !!! v)) as [[_ ->]|[_ ->]]; auto. }
      specialize (Hs ltac:(lia) ltac:(lia) Hm). specialize (IH (S i) _ Hs Ew ltac:(lia)). done.
    + pose proof (scan_edge F st s i v H He Hd (low st !!! s)) as Hs.
      assert (Hvs : v ∉ stack st) by (rewrite (inv_stack st H); tauto).
      specialize (Hs ltac:(lia) ltac:(done) ltac:(by left)). rewrite list_insert_id in Hs.
      2: { apply list_lookup_lookup_total_lt. by rewrite (inv_low_length st H). }
      apply (IH (S i) st); [by destruct st|done|lia].
Qed.

Lemma iterate_good st : good st -> work st <> [] ->
  good (iterate src_tgt st) /\ (remaining (iterate src_tgt st) < remaining st)%nat /\
  forall u, visited (entered st) u -> visited (entered (iterate src_tgt st)) u.
Proof.
  unfold good, remaining, iterate. intros H Hw. destruct (work st) as [|[s i] F] eqn:Ew; [done|]. clear Hw.
  assert (Ee : entered st = discover s (set_work F st)) by (unfold entered; by rewrite Ew). rewrite Ee in *.
  set (st1 := discover s (set_work F st)) in *.
  assert (Ew1 : work st1 = F) by (unfold st1, discover; by case_match).
  pose proof (scan_inv _ F s i st1 H Ew1 eq_refl) as Hs. pose proof (time_bound _ _ H) as Ht.
  destruct (scan src_tgt (upperbound src_tgt s - i) s i st1) as [st2 r]. unfold scan_outcome in Hs. cbn [fst snd] in Hs.
  destruct r.
  - destruct Hs as (Hg & Hl & Hd & Hv). pose proof (time_bound _ _ Hg) as Ht2. split_and!; [done| |done].
    rewrite Hl. cbn [length]. lia.
  - destruct Hs as (H2 & Ew2 & Ed2 & Et2). destruct (finish_inv F st2 s H2 Ew2) as (H3 & Ew3 & Ed3 & Et3).
    assert (Ee3 : entered (finish s st2) = set_work (tail F) (finish s st2)).
    { unfold entered. rewrite Ew3. destruct F as [|[s' i'] F'].
      - cbn. rewrite <- Ew3. by destruct (finish s st2).
      - pose proof (inv_frame_stack _ _ H3 s' i' ltac:(left)) as Hs'.
        apply (discover_visited ((s', i') :: F')); [by apply set_work_inv|by apply (stack_lt _ _ s' H3)|].
        by apply (inv_stack_visited _ H3). }
    rewrite Ee3, Ew3. split_and!; [by apply set_work_inv| |].
    + cbn [discovery_time set_work length]. rewrite Et3, Et2. lia.
    + intros u Hu. unfold visited in *. cbn [disc set_work]. by rewrite Ed3, Ed2.
Qed.

Lemma while_good fuel st : good st -> (remaining st <= fuel)%nat ->
  exists st', while_work src_tgt fuel st = Some st' /\ work st' = [] /\ scc_inv [] st' /\
    forall u, visited (entered st) u -> visited st' u.
Proof.
  revert st. induction fuel as [|fuel IH]; intros st Hg Hr; cbn [while_work];
    destruct (work st) as [|[s i] F] eqn:Ew; unfold remaining in Hr; rewrite ?Ew in Hr; cbn [length] in Hr; try lia.
  1, 2: exists st; unfold good, entered in *; rewrite Ew in *; done.
  destruct (iterate_good st Hg ltac:(by rewrite Ew)) as (Hg' & Hlt & Hv).
  unfold remaining in Hlt at 2. rewrite Ew in Hlt. cbn [length] in Hlt.
  destruct (IH (iterate src_tgt st) Hg' ltac:(lia)) as (st' & E & Ew' & H' & Hv').
  exists st'. split_and!; auto.
Qed.

Lemma number_from_inv st s0 :
  scc_inv [] st -> work st = [] -> (s0 < n)%nat ->
  exists st', number_from src_tgt (2 * n + 1) st s0 = Some st' /\ work st' = [] /\ scc_inv [] st' /\
    visited st' s0 /\ forall u, visited st u -> visited st' u.
Proof.
  intros H Ew Hs. unfold number_from. destruct (Z.eqb_spec (low st !!! s0) uninitialised) as [E|E].
  - assert (Hnv : ~ visited st s0) by (intros Hv; apply Hv, (inv_low_visited st H s0 Hs), E).
    set (st1 := set_work _ st). assert (Hw1 : work st1 = [(s0, lowerbound src_tgt s0)]) by (cbn; by rewrite Ew).
    pose proof (discovered_inv [] [] st s0 [] H Hs Hnv eq_refl) as Hi.
    assert (Ee : entered st1 = mk_scc (<[s0 := discovery_time st]> (low st)) (<[s0 := discovery_time st]> (disc st))
      (s0 :: stack st) (discovery_time st + 1) []
      (<[s0 := in_stack_indicator]> (block_index_of_a_state st)) (equivalence_class_index st)).
    { unfold entered, st1, discover. cbn. by rewrite Ew, E, Z.eqb_refl. }
    assert (Hg : good st1).
    { unfold good. rewrite Hw1, Ee. apply Hi; [intros ? ? Hf; by apply elem_of_nil in Hf|by left|].
      intros ? Hf. by apply elem_of_nil in Hf. }
    destruct (while_good (2 * n + 1) st1 Hg) as (st' & E' & Ew' & H' & Hv').
    { unfold remaining. rewrite Hw1. cbn. lia. }
    exists st'. split_and!; try done.
    + apply Hv'. rewrite Ee. apply (discovered_visited [] st s0 [] H Hs Hnv). by left.
    + intros u Hu. apply Hv'. rewrite Ee. apply (discovered_visited [] st s0 [] H Hs Hnv). by right.
  - exists st. split_and!; try done. intros Hd. by apply E, (inv_low_visited st H s0 Hs).
Qed.

Lemma numbering_start :
  scc_inv [] (mk_scc (replicate n uninitialised) (replicate n uninitialised) [] 0 [] (replicate n 0) 0).
Proof.
  assert (Hd : forall v, (v < n)%nat -> replicate n uninitialised !!! v = uninitialised).
  { intros v Hv. by rewrite lookup_total_replicate_2. }
  split; split; cbn; unfold visited; cbn; try (by rewrite length_replicate);
    try (intros; exfalso; match goal with Hx : _ ∈ [] |- _ => by apply elem_of_nil in Hx end).
  - exists []. split; [constructor|]. split; [done|]. intros v. rewrite elem_of_nil. split; [done|].
    intros [Hv Hx]. by apply Hx, Hd.
  - intros v Hv. done.
  - intros v Hv Hx. by destruct Hx; apply Hd.
  - intros v. rewrite elem_of_nil. split; [done|]. intros [Hv Hx]. rewrite lookup_total_replicate_2 in Hx by done.
    discriminate Hx.
  - constructor.
  - lia.
  - constructor.
  - intros x w Hx Hv. by destruct Hv; apply Hd.
  - intros x w Hx Hv. by destruct Hv; apply Hd.
  - intros x Hx Hv. by destruct Hv; apply Hd.
  - intros x y Hx Hy Hv. by destruct Hv; apply Hd.
  - intros c Hc. lia.
Qed.

Lemma number_loop_inv :
  exists st, number_loop src_tgt n = Some st /\ scc_inv [] st /\ forall v, (v < n)%nat -> visited st v.
Proof.
  unfold number_loop. set (st0 := mk_scc _ _ _ _ _ _ _).
  enough (Hk : forall k, (k <= n)%nat -> exists st,
    foldl (fun st s0 => st ≫= fun st => number_from src_tgt (2 * n + 1) st s0) (Some st0) (seq 0 k) = Some st /\
    work st = [] /\ scc_inv [] st /\ forall v, (v < k)%nat -> visited st v).
  { destruct (Hk n (le_n n)) as (st & E & _ & H & Hv). by exists st. }
  induction k as [|k IH]; intros Hk.
  - exists st0. split_and!; [done|done|apply numbering_start|lia].
  - destruct (IH ltac:(lia)) as (st & E & Ew & H & Hv).
    destruct (number_from_inv st k H Ew ltac:(lia)) as (st' & E' & Ew' & H' & Hk' & Hm).
    exists st'. rewrite seq_S, foldl_snoc, E. split_and!; [done|done|done|].
    intros v Hlt. destruct (decide (v = k)) as [->|]; [done|]. apply Hm, Hv. lia.
Qed.

End Correct.
