(* ===== verification/SccTheorems.v ===== *)
(** * Correctness of the tau-loop reduction

    [number_sccs] of a transition system, the quotient [replace_transition_system]
    builds, and the branching bisimulation between a transition system and the one
    [scc_reduce] replaces it by. *)

From Stdlib Require Import Lia.
From stdpp Require Import base numbers sets list gmap sorting relations strings.
From S2P Require Import Prelude Lts Scc SccCorrect.

#[local] Arguments Nat.ltb : simpl never.
#[local] Arguments Nat.eqb : simpl never.

(** ** Compressing the sorted transitions *)

Section Compress.
Context (preserve : bool).

Definition kept (t : transition) : bool :=
  negb (is_tau (label t)) || preserve || negb (from t =? to t).

(** What the loop computes, without the overwriting. *)
Definition compress_snoc (r : list transition) (t : transition) : list transition :=
  if kept t then (if decide (last r = Some t) then r else r ++ [t]) else r.

Definition compressed (ts : list transition) : list transition := foldl compress_snoc [] ts.

(** The vector after [k] steps: the result so far, then what is still to read. *)
Record compressing (ts : list transition) (k : nat) (v : list transition * option nat) : Prop := {
  compressing_le : length (compressed (take k ts)) <= k;
  compressing_length : length v.1 = length ts;
  compressing_prefix : take (length (compressed (take k ts))) v.1 = compressed (take k ts);
  compressing_rest : drop k v.1 = drop k ts;
  compressing_index : v.2 = match length (compressed (take k ts)) with 0 => None | S m => Some m end
}.

Lemma last_take (l r : list transition) m : take (S m) l = r -> length r = S m -> last r = l !! m.
Proof. intros <- Hl. rewrite last_lookup, Hl. cbn [pred]. by rewrite lookup_take_lt by lia. Qed.

Lemma compress_step_inv ts k v :
  k < length ts -> compressing ts k v -> compressing ts (S k) (compress_step preserve v k).
Proof.
  intros Hk [Hle Hl Hp Hr Hi]. destruct (lookup_lt_is_Some_2 ts k Hk) as [t Ht].
  assert (Hvk : v.1 !! k = Some t).
  { rewrite <- (Nat.add_0_r k), <- lookup_drop, Hr, lookup_drop, Nat.add_0_r. done. }
  assert (Hdrop : drop (S k) v.1 = drop (S k) ts).
  { change (S k) with (1 + k). rewrite Nat.add_comm, <- !drop_drop, Hr. done. }
  set (r := compressed (take k ts)) in *.
  assert (Er : compressed (take (S k) ts) = compress_snoc r t).
  { unfold compressed. by rewrite (take_S_r ts k t Ht), foldl_snoc. }
  unfold compress_step. rewrite (list_lookup_total_correct _ _ _ Hvk). fold (kept t).
  assert (Hsame : compressed (take (S k) ts) = r -> compressing ts (S k) v).
  { intros E. split; rewrite ?E; try done. lia. }
  assert (Happ : compressed (take (S k) ts) = r ++ [t] ->
    compressing ts (S k) (<[length r := t]> v.1, Some (length r))).
  { intros E. split; rewrite ?E, ?length_app; cbn [fst snd length].
    - lia.
    - by rewrite length_insert.
    - rewrite Nat.add_1_r, (take_S_r _ _ t) by (rewrite list_lookup_insert_eq by lia; done).
      rewrite take_insert_ge by lia. by rewrite Hp.
    - by rewrite drop_insert_lt by lia.
    - by rewrite Nat.add_1_r. }
  unfold compress_snoc in Er. destruct (kept t) eqn:Ek; [|auto].
  destruct (length r) as [|m] eqn:Em; rewrite Hi.
  - apply nil_length_inv in Em. rewrite decide_False in Er by (by rewrite Em). auto.
  - assert (Hlast : last r = v.1 !! m) by (apply last_take; done).
    destruct (lookup_lt_is_Some_2 v.1 m) as [t' Ht']; [lia|].
    rewrite (list_lookup_total_correct _ _ _ Ht'). rewrite Hlast, Ht' in Er.
    destruct (decide (t <> t')) as [Hne|Hne]; [rewrite decide_False in Er by congruence; auto|].
    rewrite decide_True in Er by (f_equal; symmetry; by apply dec_stable). auto.
Qed.

Lemma compress_compressed ts : compress preserve ts = compressed ts.
Proof.
  unfold compress. enough (Hk : forall k, k <= length ts ->
    compressing ts k (foldl (compress_step preserve) (ts, None) (seq 0 k))).
  { destruct (Hk (length ts) (le_n _)) as [_ Hl Hp _ Hi]. rewrite (take_ge ts) in Hp, Hi by lia.
    rewrite Hi. rewrite <- Hp at 2. by destruct (length (compressed ts)). }
  induction k as [|k IH]; intros Hk; [split; cbn; done|].
  rewrite seq_S, foldl_snoc. apply compress_step_inv; [lia|]. apply IH. lia.
Qed.

Lemma compressed_elem ts t : t ∈ compressed ts <-> t ∈ ts /\ kept t = true.
Proof.
  induction ts as [|x ts IH] using rev_ind; cbn; [rewrite !elem_of_nil; tauto|].
  unfold compressed in *. rewrite foldl_snoc. unfold compress_snoc at 1. rewrite !elem_of_app, list_elem_of_singleton.
  destruct (kept x) eqn:Ek; [|rewrite IH; split; [tauto|]; intros [[?| ->] ?]; [tauto|congruence]].
  case_decide as E.
  - rewrite IH. split; [tauto|]. intros [[?| ->] ?]; [done|]. split; [|done]. apply last_Some_elem_of in E. by apply IH in E as [? _].
  - rewrite elem_of_app, list_elem_of_singleton, IH. split; [intros [?| ->]; tauto|tauto].
Qed.

(** [tgt_lbl_src] is a total order. *)
Lemma tgt_lbl_src_antisym t1 t2 :
  not_less (compare_transitions tgt_lbl_src ∅) t1 t2 -> not_less (compare_transitions tgt_lbl_src ∅) t2 t1 -> t1 = t2.
Proof.
  unfold not_less. rewrite !compare_transitions_key. intros H1 H2.
  pose proof (lex_lt_total _ _ (sort_key_length tgt_lbl_src ∅ t1 t2) H2 H1) as E.
  unfold sort_key, apply_hidden_labels in E. rewrite !decide_False in E by set_solver.
  destruct t1, t2. cbn in E. congruence.
Qed.

Lemma compressed_nodup ts :
  StronglySorted (not_less (compare_transitions tgt_lbl_src ∅)) ts ->
  NoDup (compressed ts) /\ StronglySorted (not_less (compare_transitions tgt_lbl_src ∅)) (compressed ts).
Proof.
  induction ts as [|x ts IH] using rev_ind; intros Hs; [split; constructor|].
  apply StronglySorted_app in Hs as (Hx & Hs & _). destruct (IH Hs) as [Hn Hs'].
  pose proof (compressed_elem ts) as Hin. unfold compressed in *. rewrite foldl_snoc. unfold compress_snoc at 1 3.
  destruct (kept x); [|done]. case_decide as E; [done|].
  assert (Hle : forall y, y ∈ foldl compress_snoc [] ts -> not_less (compare_transitions tgt_lbl_src ∅) y x).
  { intros y [Hy _]%Hin. apply Hx; [done|left]. }
  split.
  - apply NoDup_app. split; [done|]. split; [|apply NoDup_singleton]. intros y Hy ->%list_elem_of_singleton. apply E.
    destruct (foldl compress_snoc [] ts) as [|z r] eqn:Er using rev_ind; [by apply elem_of_nil in Hy|].
    rewrite last_snoc. f_equal. apply elem_of_app in Hy as [Hy|Hy%list_elem_of_singleton]; [|done].
    apply tgt_lbl_src_antisym; [apply Hle; apply elem_of_app; right; by apply list_elem_of_singleton|].
    apply StronglySorted_app in Hs' as (Hlast & _). apply Hlast; [done|left].
  - apply StronglySorted_app. split_and!; [|done|repeat constructor].
    intros y z Hy ->%list_elem_of_singleton. by apply Hle.
Qed.

End Compress.

(** ** The labels of the classes *)

Section Labels.
Context {SL AL : Type} `{!EqDecision SL} `{!EqDecision AL} (default_label : SL) (label_plus : SL -> SL -> SL).
Context (l : lts SL AL) (class : nat -> nat) (m : nat) (Hrange : forall s, s < num_states l -> class s < m).

(** The labels of the members of class [c], the last state first. *)
Definition class_label (c : nat) (ids : list nat) : SL :=
  foldl (fun acc i => match m_state_labels l !! i with
                      | Some x => if class i =? c then label_plus acc x else acc
                      | None => acc
                      end) default_label ids.

Lemma merge_labels_loop (aut : lts SL AL) ids :
  m_state_labels aut = m_state_labels l -> m_nstates aut = num_states l ->
  length (m_state_labels l) = num_states l -> (forall i, i ∈ ids -> i < num_states l) ->
  exists nl, foldl (fun nl i => nl ← nl; x ← state_label i aut; y ← nl !! class i; Some (<[class i := label_plus y x]> nl))
      (Some (replicate m default_label)) ids = Some nl /\
    length nl = m /\ forall c, c < m -> nl !! c = Some (class_label c ids).
Proof.
  intros E1 E2 El. induction ids as [|i ids IH] using rev_ind; intros Hi.
  - eexists. split; [done|]. split; [apply length_replicate|]. intros c Hc. by apply lookup_replicate_2.
  - destruct IH as (nl & E & Hl & Hc). { intros j Hj. apply Hi, elem_of_app. by left. }
    assert (Hin : i < num_states l) by (apply Hi, elem_of_app; right; left).
    destruct (lookup_lt_is_Some_2 (m_state_labels l) i ltac:(lia)) as [x Hx].
    rewrite foldl_snoc, E. cbn. unfold state_label. rewrite E1, E2, El, Nat.eqb_refl.
    rewrite (proj2 (Nat.ltb_lt i (num_states l)) Hin). cbn. rewrite Hx. cbn.
    pose proof (Hrange i Hin) as Hr. rewrite (Hc _ Hr). cbn. eexists. split; [done|].
    split; [by rewrite length_insert|]. intros c Hcn. unfold class_label at 2. rewrite foldl_snoc, Hx.
    destruct (Nat.eqb_spec (class i) c) as [<-|Hne].
    + rewrite list_lookup_insert_eq by lia. done.
    + rewrite list_lookup_insert_ne by done. by apply Hc.
Qed.

Lemma set_labels_loop (aut : lts SL AL) nl k :
  length (m_state_labels aut) = m_nstates aut -> length nl = m -> k <= m -> k <= m_nstates aut ->
  exists sl, foldl (fun aut i => aut ← aut; x ← nl !! i; set_state_label i x aut) (Some aut) (seq 0 k)
      = Some (set_state_labels sl aut) /\
    length sl = m_nstates aut /\ forall c, c < k -> sl !! c = nl !! c.
Proof.
  intros E2 El. induction k as [|k IH]; intros Hk Hk'.
  - exists (m_state_labels aut). split_and!; [by destruct aut|done|lia].
  - destruct (IH ltac:(lia) ltac:(lia)) as (sl & E & Hl & Hc). rewrite seq_S, foldl_snoc, E. cbn.
    destruct (lookup_lt_is_Some_2 nl k ltac:(lia)) as [x Hx]. rewrite Hx. cbn.
    unfold set_state_label. cbn. rewrite Hl, Nat.eqb_refl.
    rewrite (proj2 (Nat.ltb_lt k (m_nstates aut))) by lia. cbn. eexists. split; [done|]. cbn.
    split; [by rewrite length_insert|]. intros c Hcn. destruct (decide (c = k)) as [->|Hne].
    + by rewrite list_lookup_insert_eq, Hx by lia.
    + rewrite list_lookup_insert_ne by done. apply Hc. lia.
Qed.

End Labels.

(** ** The partition *)

Section Partition.
Context {SL AL : Type} `{!EqDecision SL} `{!EqDecision AL} (tau_action : AL).
Context (default_label : SL) (label_plus : SL -> SL -> SL).
Context (l : lts SL AL) (Hwf : wf_lts tau_action l).
Context (Hn : (Z.of_nat (num_states l) < word_modulus - 1)%Z).

(** The transitions with the label they have when hidden actions are tau. *)
Definition lstep (l : lts SL AL) (s a t : nat) : Prop :=
  exists tr, tr ∈ m_transitions l /\ from tr = s /\ apply_hidden_label_map (label tr) l = a /\ to tr = t.

Definition tau_step (l : lts SL AL) (s t : nat) : Prop := lstep l s const_tau_label_index t.

(** Branching bisimulation between the states of two transition systems. *)
Definition branching_bisimulation (l1 l2 : lts SL AL) (R : nat -> nat -> Prop) : Prop :=
  forall s1 s2, R s1 s2 ->
  (forall a t1, lstep l1 s1 a t1 ->
     (a = const_tau_label_index /\ R t1 s2) \/
     exists u2 t2, rtc (tau_step l2) s2 u2 /\ R s1 u2 /\ lstep l2 u2 a t2 /\ R t1 t2) /\
  (forall a t2, lstep l2 s2 a t2 ->
     (a = const_tau_label_index /\ R s1 t2) \/
     exists u1 t1, rtc (tau_step l1) s1 u1 /\ R u1 s2 /\ lstep l1 u1 a t1 /\ R t1 t2).

Let src_tgt := indexed_sorted_vector_for_tau_transitions l true.

Lemma tau_from tr : tr ∈ m_transitions l -> is_tau_transition l tr = true -> from tr < num_states l.
Proof. intros H _. by apply (wf_from _ l Hwf). Qed.

Lemma scc_edge u v : edge src_tgt (num_states l) u v <-> tau_step l u v.
Proof.
  unfold edge, edge_at, src_tgt, indexed_sorted_vector_for_tau_transitions. split.
  - intros (Hu & j & Hj & E).
    destruct (proj1 (indexed_elem (is_tau_transition l) from to _ _ tau_from u v Hu)) as (tr & H1 & H2 & H3 & H4); [by exists j|].
    exists tr. split_and!; try done. unfold is_tau_transition, is_tau in H2. by apply Nat.eqb_eq in H2.
  - intros (tr & H1 & H2 & H3 & H4). assert (Hu : u < num_states l) by (rewrite <- H2; by apply (wf_from _ l Hwf)).
    split; [done|]. apply (indexed_elem (is_tau_transition l) from to _ _ tau_from u v Hu). exists tr. split_and!; try done.
    unfold is_tau_transition, is_tau. by rewrite H3.
Qed.

Lemma scc_bounds u : u < num_states l -> lowerbound src_tgt u <= upperbound src_tgt u.
Proof.
  intros Hu. unfold src_tgt, indexed_sorted_vector_for_tau_transitions.
  rewrite (lowerbound_spec _ from to _ _ tau_from), (upperbound_spec _ from to _ _ tau_from) by lia. cbn [below]. lia.
Qed.

Lemma scc_targets u j : u < num_states l -> lowerbound src_tgt u <= j < upperbound src_tgt u ->
  exists v, get_transitions src_tgt !! j = Some v /\ v < num_states l.
Proof.
  intros Hu Hj. unfold src_tgt, indexed_sorted_vector_for_tau_transitions in *.
  rewrite (lowerbound_spec _ from to _ _ tau_from), (upperbound_spec _ from to _ _ tau_from) in Hj by lia.
  pose proof (get_transitions_length (is_tau_transition l) from to _ _ tau_from) as Hl.
  pose proof (below_mono (is_tau_transition l) from (S u) (num_states l) (m_transitions l) ltac:(lia)) as Hb.
  destruct (lookup_lt_is_Some_2 (get_transitions (indexed_sorted_vector (is_tau_transition l) from to (m_transitions l) (num_states l))) j)
    as [v Hv]; [lia|]. exists v. split; [done|].
  destruct (proj1 (indexed_elem (is_tau_transition l) from to _ _ tau_from u v Hu)) as (tr & H1 & _ & _ & <-).
  - exists j. split; [|done].
    rewrite (lowerbound_spec _ from to _ _ tau_from), (upperbound_spec _ from to _ _ tau_from) by lia. done.
  - by apply (wf_to _ l Hwf).
Qed.

(** The result of the partitioner. *)
Record partition_spec (p : scc_partitioner) : Prop := {
  part_length : length (part_block p) = num_states l;
  part_le : num_eq_classes p <= num_states l;
  part_range : forall s, s < num_states l -> get_eq_class p s < num_eq_classes p;
  part_onto : forall c, c < num_eq_classes p -> exists s, s < num_states l /\ get_eq_class p s = c;
  part_same : forall s t, s < num_states l -> t < num_states l ->
    get_eq_class p s = get_eq_class p t <-> rtc (tau_step l) s t /\ rtc (tau_step l) t s;
  part_order : forall s t, tau_step l s t -> get_eq_class p t <= get_eq_class p s
}.

Lemma make_scc_partitioner_spec : exists p, make_scc_partitioner l = Some p /\ partition_spec p.
Proof.
  destruct (number_loop_inv src_tgt (num_states l) Hn scc_bounds scc_targets) as (st & E & H & Hv).
  pose proof (no_frames _ _ _ _ H eq_refl) as Hst. unfold make_scc_partitioner, number_sccs. fold src_tgt. rewrite E. cbn.
  eexists. split; [done|]. assert (Hns : forall x, x ∉ stack st) by (intros x; rewrite Hst; apply not_elem_of_nil).
  assert (Hg : forall s, s < num_states l -> get_eq_class (mk_partitioner (Z.to_nat (equivalence_class_index st))
    (Z.to_nat <$> block_index_of_a_state st)) s = Z.to_nat (block_index_of_a_state st !!! s)).
  { intros s Hs. unfold get_eq_class. cbn. rewrite !list_lookup_total_alt, list_lookup_fmap.
    destruct (lookup_lt_is_Some_2 (block_index_of_a_state st) s) as [x ->]; [|done].
    by rewrite (inv_block_length _ _ H). }
  assert (Hr : forall u v, rtc (edge src_tgt (num_states l)) u v <-> rtc (tau_step l) u v).
  { intros u v. split; apply (rtc_congruence (fun x => x)); intros ? ?; apply scc_edge. }
  assert (Hb : forall s, s < num_states l -> (0 <= block_index_of_a_state st !!! s < equivalence_class_index st)%Z).
  { intros s Hs. by apply (inv_done_block _ _ _ H); auto. }
  split; cbn [part_block num_eq_classes part_index].
  - rewrite length_fmap. apply (inv_block_length _ _ H).
  - pose proof (inv_count _ _ H). pose proof (time_bound _ _ _ _ H). unfold num_eq_classes. cbn. lia.
  - intros s Hs. rewrite Hg by done. specialize (Hb s Hs). unfold num_eq_classes. cbn. lia.
  - intros c Hc. unfold num_eq_classes in Hc. cbn in Hc.
    destruct (inv_classes _ _ _ H (Z.of_nat c)) as (x & Hx & _ & _ & Ex); [lia|]. exists x. rewrite Hg by done.
    split; [done|]. lia.
  - intros s t Hs Ht. rewrite !Hg, <- !Hr by done. rewrite <- (inv_class _ _ _ H s t Hs Ht (Hv s Hs) (Hv t Ht) (Hns s) (Hns t)).
    pose proof (Hb s Hs). pose proof (Hb t Ht). lia.
  - intros s t He. assert (Hs : s < num_states l) by (destruct He as (tr & H1 & <- & _); by apply (wf_from _ l Hwf)).
    assert (Ht : t < num_states l) by (destruct He as (tr & H1 & _ & _ & <-); by apply (wf_to _ l Hwf)).
    apply scc_edge in He. destruct (inv_done _ _ _ H s t Hs (Hv s Hs) (Hns s) He) as (_ & _ & Hle).
    rewrite !Hg by done. pose proof (Hb s Hs). pose proof (Hb t Ht). lia.
Qed.

(** ** The quotient *)

Context (Hlabels : has_state_info l = true -> length (m_state_labels l) = num_states l).
Context (Hinit : m_init_state l < num_states l).
Context (p : scc_partitioner) (Hp : partition_spec p).

Lemma merge_state_labels_spec ts :
  let aut := set_transitions ts l in
  exists sl, merge_state_labels default_label label_plus p aut = Some (set_state_labels sl aut) /\
    (has_state_info l = true -> forall c, c < num_eq_classes p ->
       sl !! c = Some (class_label default_label label_plus l (get_eq_class p) c (reverse (seq 0 (num_states l))))).
Proof.
  intros aut. unfold merge_state_labels. change (has_state_info aut) with (has_state_info l).
  destruct (decide (has_state_info l = true)) as [Ei|Ei]; [rewrite Ei|].
  2: { exists (m_state_labels l). rewrite (not_true_is_false _ Ei). by split. }
  destruct (merge_labels_loop default_label label_plus l (get_eq_class p) (num_eq_classes p) (part_range p Hp) aut
    (reverse (seq 0 (num_states l)))) as (nl & E & Hl & Hc); auto.
  { intros i Hi. apply elem_of_reverse, elem_of_seq in Hi. lia. }
  change (foldl (merge_label_step label_plus p aut) (Some (replicate (num_eq_classes p) default_label)) (reverse (seq 0 (num_states l)))
    = Some nl) in E.
  change (num_states aut) with (num_states l). rewrite E. cbn [mbind option_bind].
  destruct (set_labels_loop (num_eq_classes p) aut nl (num_eq_classes p)) as (sl & E' & Hl' & Hc'); auto using part_le.
  exists sl. split; [done|]. intros _ c Hcn. by rewrite Hc', Hc.
Qed.

(** The reduced transition system. *)
Record quotient_spec (preserve : bool) (l' : lts SL AL) : Prop := {
  quotient_states : num_states l' = num_eq_classes p;
  quotient_init : m_init_state l' = get_eq_class p (m_init_state l);
  quotient_actions : m_action_labels l' = m_action_labels l;
  quotient_hidden : m_hidden_label_set l' = m_hidden_label_set l;
  quotient_transitions : forall t', t' ∈ m_transitions l' <->
    exists t, t ∈ m_transitions l /\ t' = rename_transition p l t /\ kept preserve t' = true;
  quotient_nodup : NoDup (m_transitions l');
  quotient_label_count : length (m_state_labels l') = num_eq_classes p;
  quotient_labels : has_state_info l = true -> forall c, c < num_eq_classes p ->
    m_state_labels l' !! c = Some (class_label default_label label_plus l (get_eq_class p) c (reverse (seq 0 (num_states l))))
}.

Lemma replace_transition_system_spec preserve :
  exists l', replace_transition_system default_label label_plus p preserve l = Some l' /\ quotient_spec preserve l'.
Proof.
  unfold replace_transition_system. rewrite compress_compressed.
  set (ts := sort_transitions _ _ _). destruct (merge_state_labels_spec (compressed preserve ts)) as (sl & E & Hl).
  rewrite E. cbn [mbind option_bind]. set (aut := set_num_states _ _ _ _).
  assert (Ha : m_nstates aut = num_eq_classes p /\ m_init_state aut = m_init_state l /\
    m_action_labels aut = m_action_labels l /\ m_hidden_label_set aut = m_hidden_label_set l /\
    m_transitions aut = compressed preserve ts /\
    m_state_labels aut = if 0 <? length sl then vector_resize default_label (num_eq_classes p) sl
                         else replicate (num_eq_classes p) default_label).
  { unfold aut, set_num_states. cbn. by destruct (0 <? length sl). }
  clearbody aut. destruct Ha as (A1 & A2 & A3 & A4 & A5 & A6). unfold set_initial_state. rewrite A1, A2.
  rewrite (proj2 (Nat.ltb_lt _ _) (part_range p Hp _ Hinit)). eexists. split; [done|].
  split; cbn; try done.
  - intros t'. rewrite A5, compressed_elem. unfold ts. rewrite sort_transitions_perm, list_elem_of_fmap.
    split; [intros [(t & -> & Ht) Hk]|intros (t & Ht & -> & Hk)]; naive_solver.
  - rewrite A5. apply compressed_nodup, sort_transitions_sorted.
  - rewrite A6. destruct (0 <? length sl); [apply length_resize|apply length_replicate].
  - intros Hi c Hc. specialize (Hl Hi c Hc). apply lookup_lt_Some in Hl as Hlt.
    rewrite A6, (proj2 (Nat.ltb_lt 0 (length sl))) by lia. unfold vector_resize. by rewrite lookup_resize.
Qed.

Lemma lstep_lt s a t : lstep l s a t -> s < num_states l /\ t < num_states l.
Proof. intros (tr & H & <- & _ & <-). split; [by apply (wf_from _ l Hwf)|by apply (wf_to _ l Hwf)]. Qed.

Context (preserve : bool) (l' : lts SL AL) (Hq : quotient_spec preserve l').

Lemma quotient_hidden_label a : apply_hidden_label_map (apply_hidden_label_map a l) l' = apply_hidden_label_map a l.
Proof.
  unfold apply_hidden_label_map. rewrite (quotient_hidden _ _ Hq). by repeat case_decide.
Qed.

Lemma quotient_wf : wf_lts tau_action l'.
Proof.
  destruct Hwf as [W1 W2 W3 W4 W5]. split; rewrite ?(quotient_actions _ _ Hq); try done;
    intros t' (t & Ht & -> & _)%(quotient_transitions _ _ Hq); cbn; try change (m_nstates l') with (num_states l').
  - unfold apply_hidden_label_map. case_decide; [by apply lookup_lt_Some in W1|auto].
  - rewrite (quotient_states _ _ Hq). by apply (part_range p Hp), W4.
  - rewrite (quotient_states _ _ Hq). by apply (part_range p Hp), W5.
Qed.

(** The transitions of the quotient. *)
Lemma quotient_step c a d :
  lstep l' c a d <-> exists s t, lstep l s a t /\ get_eq_class p s = c /\ get_eq_class p t = d /\
    (a = const_tau_label_index -> preserve = false -> c <> d).
Proof.
  unfold lstep. split.
  - intros (tr' & H' & <- & <- & <-). apply (quotient_transitions _ _ Hq) in H' as (tr & H & -> & Hk).
    exists (from tr), (to tr). split; [|split_and!; [done|done|]].
    + exists tr. split_and!; try done. cbn. by rewrite quotient_hidden_label.
    + cbn. rewrite quotient_hidden_label. intros Ha ->. unfold kept in Hk. cbn in Hk. rewrite Ha in Hk. cbn in Hk.
      by apply negb_true_iff, Nat.eqb_neq in Hk.
  - intros (s & t & (tr & H & <- & Ha & <-) & <- & <- & Hk). exists (rename_transition p l tr).
    split; [|split_and!; cbn; [done|by rewrite quotient_hidden_label|done]].
    apply (quotient_transitions _ _ Hq). exists tr. split_and!; [done|done|]. unfold kept. cbn.
    rewrite Ha. unfold is_tau. destruct (Nat.eqb_spec a const_tau_label_index) as [E|]; [|done].
    destruct preserve; [done|]. cbn. specialize (Hk E eq_refl). by apply negb_true_iff, Nat.eqb_neq.
Qed.

Definition in_class (s c : nat) : Prop := s < num_states l /\ get_eq_class p s = c.

Lemma quotient_bisimulation : branching_bisimulation l l' in_class.
Proof.
  intros s c [Hs Hc]. split.
  - intros a t H. destruct (lstep_lt s a t H) as [_ Ht].
    destruct (decide (a = const_tau_label_index /\ preserve = false /\ get_eq_class p s = get_eq_class p t)) as [(-> & _ & E)|Hn'].
    + left. split; [done|]. split; [done|congruence].
    + right. exists c, (get_eq_class p t). split_and!; [apply rtc_refl|done| |done].
      apply quotient_step. exists s, t. split_and!; [done|done|done|]. intros -> -> E. apply Hn'. split_and!; congruence.
  - intros a d H. apply quotient_step in H as (u & t & H & Hu & Ht & _). destruct (lstep_lt u a t H) as [Hun Htn].
    right. exists u, t. split_and!; [|done|done|done]. apply (part_same p Hp s u Hs Hun). congruence.
Qed.

Lemma quotient_tau_order c d : tau_step l' c d -> d <= c.
Proof. intros H. apply quotient_step in H as (s & t & H & <- & <- & _). by apply (part_order p Hp). Qed.

Lemma quotient_self_loop s : s < num_states l ->
  tau_step l' (get_eq_class p s) (get_eq_class p s) <-> preserve = true /\ tc (tau_step l) s s.
Proof.
  intros Hs. unfold tau_step at 1. rewrite quotient_step. split.
  - intros (x & y & H & Ex & Ey & Hk). destruct (lstep_lt _ _ _ H) as [Hx Hy].
    split; [destruct preserve; [done|by destruct (Hk eq_refl eq_refl)]|].
    apply (tc_rtc_l s x); [by apply (part_same p Hp s x)|]. apply (tc_rtc_r x y); [by apply tc_once|].
    by apply (part_same p Hp y s).
  - intros [-> H]. assert (exists y, tau_step l s y /\ rtc (tau_step l) y s) as (y & Hy' & Hr).
    { inversion H as [? ? Hxy|? y ? Hxy Hr]; subst; [by exists s|]. exists y. split; [done|by apply tc_rtc]. }
    destruct (lstep_lt _ _ _ Hy') as [_ Hy].
    exists s, y. split_and!; [done|done| |done]. apply (part_same p Hp y s Hy Hs). split; [done|]. by apply rtc_once.
Qed.

End Partition.

(** ** Theorems *)

Section Theorems.
Context {SL AL : Type} `{!EqDecision SL} `{!EqDecision AL} (tau_action : AL).
Context (default_label : SL) (label_plus : SL -> SL -> SL).

(** [number_sccs] ends and numbers the states by the strongly connected
    components of the tau transitions: the numbers are exactly those below
    [num_eq_classes], two states have the same number if and only if they reach
    each other with tau steps, and tau transitions never lead to a higher number
    ("the deepest sccs get the lowest number"). *)
Lemma number_sccs_correct (l : lts SL AL) :
  wf_lts tau_action l -> (Z.of_nat (num_states l) < word_modulus - 1)%Z ->
  exists p, make_scc_partitioner l = Some p /\
    (forall s, s < num_states l -> get_eq_class p s < num_eq_classes p) /\
    (forall c, c < num_eq_classes p -> exists s, s < num_states l /\ get_eq_class p s = c) /\
    (forall s t, s < num_states l -> t < num_states l ->
       in_same_class p s t = true <-> rtc (tau_step l) s t /\ rtc (tau_step l) t s) /\
    (forall s t, tau_step l s t -> get_eq_class p t <= get_eq_class p s).
Proof.
  intros Hw Hn. destruct (make_scc_partitioner_spec tau_action l Hw Hn) as (p & E & Hp). exists p.
  split_and!; [done|apply (part_range l p Hp)|apply (part_onto l p Hp)| |apply (part_order l p Hp)].
  intros s t Hs Ht. unfold in_same_class. rewrite Nat.eqb_eq. by apply (part_same l p Hp).
Qed.

(** C30: [scc_reduce] replaces a transition system by a branching bisimilar one,
    relating every state to its class, and the initial state to the initial
    state.  The result has no double transitions; its tau transitions only go to
    equal or lower states; a state has a tau loop exactly if loops are preserved
    and the states of its class are on a tau loop. *)
Theorem scc_reduce_correct (l : lts SL AL) (preserve_divergence_loops : bool) :
  wf_lts tau_action l -> (Z.of_nat (num_states l) < word_modulus - 1)%Z ->
  (has_state_info l = true -> length (m_state_labels l) = num_states l) ->
  m_init_state l < num_states l ->
  exists p l', make_scc_partitioner l = Some p /\
    scc_reduce default_label label_plus l preserve_divergence_loops = Some l' /\
    branching_bisimulation l l' (in_class l p) /\
    in_class l p (m_init_state l) (m_init_state l') /\
    num_states l' = num_eq_classes p /\
    NoDup (m_transitions l') /\
    (forall c d, tau_step l' c d -> d <= c) /\
    (forall s, s < num_states l -> tau_step l' (get_eq_class p s) (get_eq_class p s) <->
       preserve_divergence_loops = true /\ tc (tau_step l) s s).
Proof.
  intros Hw Hn Hl Hi. destruct (make_scc_partitioner_spec tau_action l Hw Hn) as (p & E & Hp).
  destruct (replace_transition_system_spec default_label label_plus l Hl Hi p Hp preserve_divergence_loops) as (l' & E' & Hq).
  exists p, l'. unfold scc_reduce. rewrite E. cbn [mbind option_bind]. split_and!; [done|done|..].
  - by apply (quotient_bisimulation tau_action default_label label_plus l Hw p Hp preserve_divergence_loops l').
  - split; [done|]. symmetry. apply Hq.
  - apply Hq.
  - apply Hq.
  - by apply (quotient_tau_order default_label label_plus l p Hp preserve_divergence_loops l').
  - by apply (quotient_self_loop tau_action default_label label_plus l Hw p Hp preserve_divergence_loops l').
Qed.

End Theorems.

(** *** Witnesses *)

(** [0 <-tau-> 1], [1 --a--> 2], [2 --b--> 2] with [b] hidden, [3 --tau--> 1] *)
Definition example_loops : lts nat string :=
  mk_lts 4 3 [Transition 0 0 1; Transition 1 0 0; Transition 1 1 2; Transition 2 2 2; Transition 3 0 1] [1; 2; 4; 8]
    ["tau"; "a"; "b"]%string {[2]}.

Lemma example_loops_wf : wf_lts "tau"%string example_loops.
Proof.
  split; [done|apply (bool_decide_unpack _); by vm_compute|..];
    intros t Ht; repeat (apply elem_of_cons in Ht as [->|Ht]; [cbn; lia|]); by apply elem_of_nil in Ht.
Qed.

(** The reduction computes: classes [{0, 1}], [{2}] and [{3}]. *)
Lemma example_loops_reduced :
  (fun l => (num_states l, m_init_state l, m_transitions l, m_state_labels l)) <$>
    scc_reduce 0 Nat.add example_loops true
  = Some (3, 2, [Transition 0 0 0; Transition 2 0 0; Transition 1 0 1; Transition 0 1 1], [3; 4; 8]).
Proof. vm_compute. reflexivity. Qed.

Lemma scc_reduce_correct_witness :
  exists p l', scc_reduce 0 Nat.add example_loops true = Some l' /\
    branching_bisimulation example_loops l' (in_class example_loops p).
Proof.
  destruct (scc_reduce_correct "tau"%string 0 Nat.add example_loops true example_loops_wf ltac:(reflexivity)
    ltac:(reflexivity) ltac:(cbn; lia)) as (p & l' & _ & E & Hb & _).
  exists p, l'. exact (conj E Hb).
Defined.
