(* ===== verification/LtsAlgorithm.v ===== *)
(** * Determinism, action loops and divergences
    ([lts_algorithm.h], [liblts_add_an_action_loop.h] and the divergence marking of
    [lts_utilities.h], of [libraries/lts])

    The theorem: the determinism check is exact without hidden labels; with them it
    is not. *)

From Stdlib Require Import Lia.
From stdpp Require Import base numbers sets list gmap sorting relations strings.
From S2P Require Import Prelude Lts.

#[local] Arguments Nat.ltb : simpl never.
#[local] Arguments Nat.eqb : simpl never.

Section Algorithms.
Context {SL AL : Type} `{!EqDecision SL} `{!EqDecision AL}.
Context (tau_action : AL).
Abbreviation lts := (lts SL AL).

(** ** [is_deterministic] *)

(** The loop over the sorted transitions; [previous_t] is [None] before the first. *)
Fixpoint no_conflict (previous_t : option transition) (ts : list transition) : bool :=
  match ts with
  | [] => true
  | t :: ts =>
      match previous_t with
      | Some u =>
          if (from u =? from t) && (label u =? label t) && negb (to u =? to t) then false
          else no_conflict (Some t) ts
      | None => no_conflict (Some t) ts
      end
  end.

Definition is_deterministic (l : lts) : bool :=
  if num_transitions l =? 0 then true
  else no_conflict None (sort_transitions (m_transitions l) (m_hidden_label_set l) src_lbl_tgt).
(** ** Action loops and divergences *)

Definition add_an_action_loop_to_each_state (action : nat) (l : lts) : lts :=
  foldl (fun l i => add_transition (Transition i action i) l) l (seq 0 (num_states l)).

(** [lab] is [make_divergence_label("!@*&divergence&*@!")] of the label class. *)
Definition mark_explicit_divergence_transitions (lab : AL) (l : lts) : option (lts * nat) :=
  '(l, divergent_transition_label) ← add_action tau_action lab l;
  if S divergent_transition_label =? num_action_labels l then
    Some (set_transitions
      ((fun t => if is_tau (apply_hidden_label_map (label t) l) && (to t =? from t)
                 then Transition (to t) divergent_transition_label (to t) else t) <$> m_transitions l) l,
      divergent_transition_label)
  else None.

Definition unmark_explicit_divergence_transitions (divergent_transition_label : nat) (l : lts) : lts :=
  set_transitions
    ((fun t => if label t =? divergent_transition_label
               then Transition (from t) const_tau_label_index (from t) else t) <$> m_transitions l) l.
(** ** Determinism *)

Definition pairwise_deterministic (ts : list transition) : Prop :=
  forall t1 t2, t1 ∈ ts -> t2 ∈ ts -> from t1 = from t2 -> label t1 = label t2 -> to t1 = to t2.

(** The order of [src_lbl_tgt] without hidden labels. *)
Lemma slt_le t1 t2 : not_less (compare_transitions src_lbl_tgt ∅) t1 t2 ->
  from t1 < from t2 \/ (from t1 = from t2 /\ (label t1 < label t2 \/ (label t1 = label t2 /\ to t1 <= to t2))).
Proof.
  unfold not_less. rewrite compare_transitions_key. unfold sort_key, apply_hidden_labels.
  rewrite !decide_False by set_solver. cbn. intros H.
  repeat match type of H with
  | context [?x <? ?y] => destruct (Nat.ltb_spec x y); cbn in H
  | context [?x =? ?y] => destruct (Nat.eqb_spec x y); cbn in H
  end; try done; lia.
Qed.

Lemma no_conflict_spec u ts :
  StronglySorted (not_less (compare_transitions src_lbl_tgt ∅)) (u :: ts) ->
  no_conflict (Some u) ts = true <-> pairwise_deterministic (u :: ts).
Proof.
  revert u. induction ts as [|t ts IH]; intros u Hs.
  - split; [|done]. intros _ t1 t2 ->%list_elem_of_singleton ->%list_elem_of_singleton. done.
  - inversion Hs as [|? ? Hs' Hu]. subst. specialize (IH t Hs'). rewrite Forall_forall in Hu.
    inversion Hs' as [|? ? _ Ht]. subst. rewrite Forall_forall in Ht. cbn [no_conflict].
    destruct ((from u =? from t) && (label u =? label t) && negb (to u =? to t)) eqn:Ec.
    + apply andb_true_iff in Ec as [[Ef El]%andb_true_iff Et%negb_true_iff]. apply Nat.eqb_eq in Ef, El. apply Nat.eqb_neq in Et.
      split; [done|]. intros Hd. destruct Et. apply Hd; [left|right; left|done|done].
    + rewrite IH. split.
      * assert (Hut : from u = from t -> label u = label t -> to u = to t).
        { intros Ef El. rewrite Ef, El, !Nat.eqb_refl in Ec. cbn in Ec. by apply negb_false_iff, Nat.eqb_eq in Ec. }
        intros Hd. assert (Huz : forall z, z ∈ t :: ts -> from u = from z -> label u = label z -> to u = to z).
        { intros z Hz Ef El. pose proof (slt_le _ _ (Hu t ltac:(left))) as H1.
          apply elem_of_cons in Hz as Hz'. destruct Hz' as [->|Hz']; [auto|].
          pose proof (slt_le _ _ (Ht z Hz')) as H2.
          rewrite (Hut ltac:(lia) ltac:(lia)). apply Hd; [left|done|lia|lia]. }
        intros t1 t2 [->|H1]%elem_of_cons [->|H2]%elem_of_cons Ef El; [done|by apply Huz| |by apply Hd].
        symmetry. by apply Huz.
      * intros Hd t1 t2 H1 H2. apply Hd; by right.
Qed.

(** Without hidden labels [is_deterministic] is exact: it holds if and only
    if no state has two transitions with the same label to different states. *)
Lemma is_deterministic_correct l :
  m_hidden_label_set l = ∅ -> is_deterministic l = true <-> pairwise_deterministic (m_transitions l).
Proof.
  intros Hh. unfold is_deterministic. rewrite Hh. destruct (Nat.eqb_spec (num_transitions l) 0) as [E|E].
  - apply nil_length_inv in E. rewrite E. split; [|done]. intros _ t1 t2 H. by apply elem_of_nil in H.
  - pose proof (sort_transitions_perm (m_transitions l) ∅ src_lbl_tgt) as Hp.
    pose proof (sort_transitions_sorted (m_transitions l) ∅ src_lbl_tgt) as Hs.
    destruct (sort_transitions (m_transitions l) ∅ src_lbl_tgt) as [|u ts].
    + apply Permutation_nil_l in Hp. unfold num_transitions in E. by rewrite <- Hp in E.
    + cbn [no_conflict]. rewrite no_conflict_spec by done. unfold pairwise_deterministic. by setoid_rewrite Hp.
Qed.
(** ** Divergences *)

(** Marking the tau loops with a fresh label and unmarking them again gives
    the transitions back with the actions they had; in between no state has a tau
    loop, so that [mark_explicit_divergence_transitions] makes divergences
    visible to an algorithm that removes tau loops. *)
Lemma mark_unmark_divergences lab l :
  wf_lts tau_action l -> lab <> tau_action -> lab ∉ m_action_labels l ->
  (forall k, k ∈ m_hidden_label_set l -> k < num_action_labels l) ->
  exists l' d, mark_explicit_divergence_transitions lab l = Some (l', d) /\
    m_action_labels l' !! d = Some lab /\
    (forall t, t ∈ m_transitions l' -> is_tau (apply_hidden_label_map (label t) l') = true -> from t <> to t) /\
    behaviour (unmark_explicit_divergence_transitions d l') = behaviour l.
Proof.
  intros Hw Ht Hf Hh. unfold mark_explicit_divergence_transitions, add_action. rewrite !decide_False by done.
  cbn [mbind option_bind]. unfold num_action_labels. cbn [m_action_labels set_action_labels]. rewrite length_app, Nat.add_1_r, Nat.eqb_refl.
  eexists _, _. split; [done|]. set (d := length (m_action_labels l)).
  assert (Hd : d ∉ m_hidden_label_set l) by (intros H; apply Hh in H; unfold num_action_labels in H; lia).
  pose proof (lookup_lt_Some _ _ _ (wf_tau _ l Hw)) as Hpos. split_and!.
  - cbn. rewrite lookup_app_r, Nat.sub_diag by (unfold d; lia). done.
  - intros t (t' & -> & Ht')%list_elem_of_fmap. unfold apply_hidden_label_map. cbn.
    destruct (is_tau _ && (to t' =? from t')) eqn:E; cbn.
    + rewrite decide_False by done. unfold is_tau, const_tau_label_index. intros E'%Nat.eqb_eq. unfold d in *. lia.
    + intros Htau Hft. rewrite Htau, Hft, Nat.eqb_refl in E. done.
  - unfold behaviour. cbn. rewrite <- !list_fmap_compose. apply list_fmap_ext. intros i t Hi.
    apply list_elem_of_lookup_2, (wf_label _ l Hw) in Hi as Hlt. unfold compose, action_of, apply_hidden_label_map. cbn.
    unfold is_tau. destruct (Nat.eqb_spec (if decide (label t ∈ m_hidden_label_set l) then const_tau_label_index else label t) const_tau_label_index) as [E|E];
      [destruct (Nat.eqb_spec (to t) (from t)) as [Eft|Eft]|]; cbn.
    + rewrite Nat.eqb_refl. cbn. rewrite E, Eft. f_equal. f_equal.
      destruct (decide (const_tau_label_index ∈ m_hidden_label_set l)); by apply lookup_app_l.
    + rewrite (proj2 (Nat.eqb_neq (label t) d)) by (unfold d; lia). f_equal. f_equal. apply lookup_app_l. case_decide; [done|lia].
    + rewrite (proj2 (Nat.eqb_neq (label t) d)) by (unfold d; lia). f_equal. f_equal. apply lookup_app_l. case_decide; [done|lia].
Qed.

End Algorithms.

(** *** Example and witness *)

(** State 0 has two transitions with label 1; both labels are hidden. *)
Definition hidden_choice : lts nat string :=
  mk_lts 4 0 [Transition 0 1 1; Transition 0 2 2; Transition 0 1 3] [] ["tau"; "a"; "b"]%string {[1; 2]}.

(** With hidden labels the transitions are sorted by the hidden label but compared
    by the original one, so that equal labels need not be neighbours. *)
Lemma is_deterministic_hidden_wrong :
  is_deterministic hidden_choice = true /\ ~ pairwise_deterministic (m_transitions hidden_choice).
Proof.
  split; [by vm_compute|]. intros H.
  specialize (H (Transition 0 1 1) (Transition 0 1 3) ltac:(cbn; set_solver) ltac:(cbn; set_solver) eq_refl eq_refl).
  discriminate H.
Qed.

(** A state with a hidden loop and a visible one. *)
Definition loops : lts nat string := mk_lts 1 0 [Transition 0 1 0; Transition 0 2 0] [] ["tau"; "a"; "b"]%string {[1]}.

Lemma loops_wf : wf_lts "tau"%string loops.
Proof.
  split; [done|apply (bool_decide_unpack _); by vm_compute|..];
    intros t Ht; repeat (apply elem_of_cons in Ht as [->|Ht]; [cbn; lia|]); by apply elem_of_nil in Ht.
Qed.

Lemma loops_hidden k : k ∈ m_hidden_label_set loops -> k < num_action_labels loops.
Proof. cbn. intros ->%elem_of_singleton. lia. Qed.

