(* ===== verification/Reachability.v ===== *)
(** * Reachability
    ([reachability_check] of [lts_algorithm.h], [libraries/lts])

    The exploration from the initial state and the removal of what it does not
    visit.  The theorem: the check is exact, and the removal keeps the reachable
    part up to a bijection on the states; it loses the record of hidden labels. *)

From Stdlib Require Import Lia.
From stdpp Require Import base numbers sets list gmap sorting relations strings.
From S2P Require Import Prelude Lts.

#[local] Arguments Nat.ltb : simpl never.
#[local] Arguments Nat.eqb : simpl never.

Section Algorithms.
Context {SL AL : Type} `{!EqDecision SL} `{!EqDecision AL}.
Context (default_label : SL) (tau_action : AL).
Abbreviation lts := (lts SL AL).

(** ** [reachability_check] *)

(** [outgoing_transitions_per_state_t]: the label and target of the transitions. *)
Definition outgoing_pair (t : transition) : nat * nat := (label t, to t).

Definition outgoing_transitions_per_state (l : lts) : list (nat * nat) * list nat :=
  indexed_sorted_vector (fun _ => true) from outgoing_pair (m_transitions l) (num_states l).

(** The inner loop: unvisited targets are marked and put on [todo]. *)
Definition visit_target (out : list (nat * nat)) (st : list bool * list nat) (i : nat) : list bool * list nat :=
  let p : nat * nat := out !!! i in
  if (st.1 !!! p.2 : bool) then st else (<[p.2 := true]> st.1, p.2 :: st.2).

Fixpoint explore (out_trans : list (nat * nat) * list nat) (fuel : nat) (visited : list bool) (todo : list nat) :
    option (list bool) :=
  match todo with
  | [] => Some visited
  | state_to_consider :: todo =>
      match fuel with
      | 0 => None
      | S fuel =>
          let lower := lowerbound out_trans state_to_consider in
          let upper := upperbound out_trans state_to_consider in
          let '(visited, todo) :=
            foldl (visit_target (get_transitions out_trans)) (visited, todo) (seq lower (upper - lower)) in
          explore out_trans fuel visited todo
      end
  end.

Definition visited_states (l : lts) : option (list bool) :=
  explore (outgoing_transitions_per_state l) (num_states l)
    (<[m_init_state l := true]> (replicate (num_states l) false)) [m_init_state l].

(** The numbering of the states that are kept, which are added to the new
    transition system. *)
Definition map_state_step (l : lts) (visited : list bool) (st : option (lts * list nat * nat)) (i : nat) :
    option (lts * list nat * nat) :=
  '(new_lts, state_map, new_nstates) ← st;
  if (visited !!! i : bool) then
    x ← (if has_state_info l then state_label i l else Some default_label);
    Some ((add_state default_label x new_lts).1, <[i := new_nstates]> state_map, S new_nstates)
  else Some (new_lts, state_map, new_nstates).

Definition mark_label_step (visited : list bool) (label_map : list nat) (t : transition) : list nat :=
  if (visited !!! from t : bool) then <[label t := 1]> label_map else label_map.

Definition map_label_step (l : lts) (st : option (lts * list nat * nat)) (i : nat) :
    option (lts * list nat * nat) :=
  '(new_lts, label_map, new_nlabels) ← st;
  if 0 <? label_map !!! i then
    a ← action_label i l;
    '(new_lts, _) ← add_action tau_action a new_lts;
    Some (new_lts, <[i := new_nlabels]> label_map, S new_nlabels)
  else Some (new_lts, label_map, new_nlabels).

Definition add_transition_step (visited : list bool) (state_map label_map : list nat) (new_lts : lts) (t : transition) : lts :=
  if (visited !!! from t : bool)
  then add_transition (Transition (state_map !!! from t) (label_map !!! label t) (state_map !!! to t)) new_lts
  else new_lts.

(** "Remove all unreachable states, transitions from such states and labels that
    are only used in these transitions." *)
Definition remove_unreachable_states (l : lts) (visited : list bool) : option lts :=
  '(new_lts, state_map, _) ← foldl (map_state_step l visited)
     (Some (clear tau_action l, replicate (num_states l) 0, 0)) (seq 0 (num_states l));
  let label_map := foldl (mark_label_step visited) (replicate (num_action_labels l) 0) (m_transitions l) in
  let label_map := <[0 := 1]> label_map in
  '(new_lts, label_map, _) ← foldl (map_label_step l) (Some (new_lts, label_map, 0)) (seq 0 (num_action_labels l));
  let new_lts := foldl (add_transition_step visited state_map label_map) new_lts (m_transitions l) in
  set_initial_state (state_map !!! m_init_state l) new_lts.

(** The result and the transition system afterwards. *)
Definition reachability_check (l : lts) (remove_unreachable : bool) : option (bool * lts) :=
  visited ← visited_states l;
  let all_reachable := forallb (fun b => b) visited in
  if negb all_reachable && remove_unreachable
  then l' ← remove_unreachable_states l visited; Some (all_reachable, l')
  else Some (all_reachable, l).
(** ** The exploration *)

Definition any_step (l : lts) (s t : nat) : Prop :=
  exists tr, tr ∈ m_transitions l /\ from tr = s /\ to tr = t.

Definition is_reachable (l : lts) (s : nat) : Prop := rtc (any_step l) (m_init_state l) s.

Definition count_false (v : list bool) : nat := length (filter (fun b => b = false) v).

Lemma count_false_insert v i : v !! i = Some false -> S (count_false (<[i := true]> v)) = count_false v.
Proof.
  revert i. induction v as [|b v IH]; intros [|i] H; cbn in H; [done|done|injection H as ->; done|].
  specialize (IH i H). unfold count_false in *. change (<[S i := true]> (b :: v)) with (b :: <[i := true]> v).
  rewrite !filter_cons. case_decide; cbn [length]; lia.
Qed.

(** Marking the targets at the positions [ids]. *)
Lemma visit_targets out n ids v todo :
  length v = n -> (forall i, i ∈ ids -> exists p, out !! i = Some p /\ p.2 < n) ->
  let r := foldl (visit_target out) (v, todo) ids in
  length r.1 = n /\ count_false r.1 + length r.2 = count_false v + length todo /\
  (forall u, r.1 !! u = Some true <-> v !! u = Some true \/ exists i p, i ∈ ids /\ out !! i = Some p /\ p.2 = u) /\
  (forall u, u ∈ r.2 -> u ∈ todo \/ r.1 !! u = Some true) /\
  (forall u, r.1 !! u = Some true -> v !! u = Some true \/ u ∈ r.2) /\
  (forall u, u ∈ todo -> u ∈ r.2).
Proof.
  intros Hl. induction ids as [|i ids IH] using rev_ind; intros Hids.
  { cbn. split_and!; [done|done|intros u; split; [by left|intros [?|(? & ? & ?%elem_of_nil & _)]; done]|auto|auto|auto]. }
  destruct IH as (H1 & H2 & H3 & H4 & H5 & H6). { intros j Hj. apply Hids, elem_of_app. by left. }
  destruct (Hids i) as (p & Ep & Hp); [apply elem_of_app; right; left|].
  rewrite foldl_snoc. set (r := foldl _ _ ids) in *. unfold visit_target.
  rewrite (list_lookup_total_correct _ _ _ Ep). destruct (lookup_lt_is_Some_2 r.1 p.2 ltac:(lia)) as [b Eb].
  rewrite (list_lookup_total_correct _ _ _ Eb).
  assert (Hids' : forall u, (exists j q, j ∈ ids ++ [i] /\ out !! j = Some q /\ q.2 = u) <->
    (exists j q, j ∈ ids /\ out !! j = Some q /\ q.2 = u) \/ u = p.2).
  { intros u. split.
    - intros (j & q & [Hj| ->%list_elem_of_singleton]%elem_of_app & Hq & E); [left; eauto|right; congruence].
    - intros [(j & q & Hj & Hq)| ->]; [exists j, q|exists i, p]; (split; [apply elem_of_app|done]); [by left|right; left]. }
  destruct b.
  - cbn. split_and!; [done|done| |done|done|done]. intros u. rewrite Hids', H3. split; [tauto|].
    intros [|[| ->]]; [tauto|tauto|]. by apply H3.
  - cbn [fst snd length]. split_and!.
    + by rewrite length_insert.
    + pose proof (count_false_insert r.1 p.2 Eb). lia.
    + intros u. rewrite Hids'. destruct (decide (u = p.2)) as [->|Hu].
      * rewrite list_lookup_insert_eq by lia. tauto.
      * rewrite list_lookup_insert_ne by done. rewrite H3. tauto.
    + intros u [->|Hu]%elem_of_cons; [right; by rewrite list_lookup_insert_eq by lia|].
      destruct (decide (u = p.2)) as [->|Hne]; [right; by rewrite list_lookup_insert_eq by lia|].
      rewrite list_lookup_insert_ne by done. auto.
    + intros u. destruct (decide (u = p.2)) as [->|Hne]; [intros _; right; left|].
      rewrite list_lookup_insert_ne by done. intros Hu. apply H5 in Hu as [|]; [by left|right; by right].
    + intros u Hu. right. auto.
Qed.

(** The transitions with their action labels, hidden or not. *)
Definition raw_behaviour (l : lts) : list (nat * option AL * nat) :=
  (fun t => (from t, m_action_labels l !! label t, to t)) <$> m_transitions l.

(** *** The numbering of the visited states *)
Section NewIndex.
Context (v : list bool).

(** The number of the state in the new transition system. *)
Definition new_index (i : nat) : nat := length (filter (fun j => v !!! j = true) (seq 0 i)).

Lemma new_index_S i : new_index (S i) = new_index i + (if (v !!! i : bool) then 1 else 0).
Proof.
  unfold new_index. rewrite seq_S, filter_app, filter_cons, filter_nil, length_app. cbn [Nat.add].
  destruct (v !!! i); [by rewrite decide_True|by rewrite decide_False].
Qed.

Lemma new_index_mono i j : i <= j -> new_index i <= new_index j.
Proof. induction 1; [done|]. rewrite new_index_S. lia. Qed.

Lemma new_index_lt i j : v !!! i = true -> i < j -> new_index i < new_index j.
Proof. intros Hi Hlt. pose proof (new_index_mono (S i) j Hlt) as H. rewrite new_index_S, Hi in H. lia. Qed.

Lemma new_index_inj i j : v !!! i = true -> v !!! j = true -> new_index i = new_index j -> i = j.
Proof.
  intros Hi Hj E. destruct (lt_eq_lt_dec i j) as [[Hlt| ->]|Hlt]; [|done|].
  - pose proof (new_index_lt i j Hi Hlt). lia.
  - pose proof (new_index_lt j i Hj Hlt). lia.
Qed.

Lemma new_index_onto k c : c < new_index k -> exists i, i < k /\ v !!! i = true /\ new_index i = c.
Proof.
  induction k as [|k IH]; [cbn; lia|]. rewrite new_index_S. intros Hc.
  destruct (decide (c < new_index k)) as [Hlt|Hge].
  - destruct (IH Hlt) as (i & ? & ? & ?). exists i. split_and!; [lia|done|done].
  - destruct (v !!! k) eqn:E; [|lia]. exists k. split_and!; [lia|done|lia].
Qed.

End NewIndex.

Section Explore.
Context (l : lts) (Hwf : wf_lts tau_action l).

Lemma out_from t : t ∈ m_transitions l -> true = true -> from t < num_states l.
Proof. intros Ht _. by apply (wf_from _ l Hwf). Qed.

Lemma any_step_lt s t : any_step l s t -> s < num_states l /\ t < num_states l.
Proof. intros (tr & H & <- & <-). split; [by apply (wf_from _ l Hwf)|by apply (wf_to _ l Hwf)]. Qed.

(** The slice of a state holds its transitions. *)
Lemma out_targets s : s < num_states l ->
  let out := outgoing_transitions_per_state l in
  let ids := seq (lowerbound out s) (upperbound out s - lowerbound out s) in
  (forall i, i ∈ ids -> exists p, get_transitions out !! i = Some p /\ p.2 < num_states l) /\
  (forall u, (exists i p, i ∈ ids /\ get_transitions out !! i = Some p /\ p.2 = u) <-> any_step l s u).
Proof.
  intros Hs. cbn zeta. pose proof (indexed_elem (fun _ => true) from outgoing_pair _ _ out_from s) as Hel.
  fold (outgoing_transitions_per_state l) in Hel. set (out := outgoing_transitions_per_state l) in *. split.
  - intros i Hi%elem_of_seq. assert (Hlt : i < length (get_transitions out)).
    { unfold out, outgoing_transitions_per_state in *. rewrite (get_transitions_length _ from outgoing_pair _ _ out_from).
      rewrite (lowerbound_spec _ from outgoing_pair _ _ out_from), (upperbound_spec _ from outgoing_pair _ _ out_from) in Hi by lia.
      pose proof (below_mono (fun _ => true) from (S s) (num_states l) (m_transitions l) ltac:(lia)). lia. }
    destruct (lookup_lt_is_Some_2 _ _ Hlt) as [p Hp]. exists p. split; [done|].
    destruct (proj1 (Hel p Hs)) as (t & Ht & _ & _ & <-); [exists i; split; [lia|done]|]. by apply (wf_to _ l Hwf).
  - intros u. split.
    + intros (i & p & Hi%elem_of_seq & Hp & <-).
      destruct (proj1 (Hel p Hs)) as (t & Ht & _ & E & <-); [exists i; split; [lia|done]|]. by exists t.
    + intros (t & Ht & E1 & E2). destruct (proj2 (Hel (outgoing_pair t) Hs)) as (i & Hi & Hp); [by exists t|].
      exists i, (outgoing_pair t). split; [apply elem_of_seq; lia|done].
Qed.

Context (Hinit : m_init_state l < num_states l).

Record exploring (v : list bool) (todo : list nat) : Prop := {
  exploring_length : length v = num_states l;
  exploring_todo : forall u, u ∈ todo -> v !! u = Some true;
  exploring_init : v !! m_init_state l = Some true;
  exploring_sound : forall u, v !! u = Some true -> is_reachable l u;
  exploring_closed : forall u w, v !! u = Some true -> u ∉ todo -> any_step l u w -> v !! w = Some true
}.

Lemma exploring_done v : exploring v [] -> forall u, v !! u = Some true <-> is_reachable l u.
Proof.
  intros [Hl _ Hi Hs Hc] u. split; [apply Hs|]. intros Hr.
  enough (Hg : forall x z, rtc (any_step l) x z -> v !! x = Some true -> v !! z = Some true) by (by apply (Hg (m_init_state l))).
  induction 1 as [|x y z Hxy _ IH]; [done|]. intros Hx. apply IH, (Hc x y Hx); [apply not_elem_of_nil|done].
Qed.

Lemma explore_reaches fuel v todo :
  exploring v todo -> count_false v + length todo <= fuel ->
  exists v', explore (outgoing_transitions_per_state l) fuel v todo = Some v' /\ length v' = num_states l /\
    forall u, v' !! u = Some true <-> is_reachable l u.
Proof.
  revert v todo. induction fuel as [|fuel IH]; intros v todo [Hl Ht Hi Hs Hc] Hf;
    (destruct todo as [|s todo]; [|cbn [length] in Hf]; cbn [explore]; try lia).
  1, 2: exists v; split_and!; [done|done|]; by apply exploring_done.
  assert (Hsv : v !! s = Some true) by (apply Ht; left). assert (Hsn : s < num_states l) by (rewrite <- Hl; by eapply lookup_lt_Some).
  destruct (out_targets s Hsn) as [Hids Htg]. cbn zeta in Hids, Htg.
  set (ids := seq _ _) in *. pose proof (visit_targets (get_transitions (outgoing_transitions_per_state l)) (num_states l) ids v todo Hl Hids) as Hr.
  cbn zeta in Hr. destruct (foldl _ _ _) as [v' todo']. cbn [fst snd] in Hr. destruct Hr as (R1 & R2 & R3 & R4 & R5 & R6).
  apply IH; [|lia]. assert (Hmono : forall u, v !! u = Some true -> v' !! u = Some true) by (intros u Hu; apply R3; by left).
  split; [done| |auto| |].
  - intros u [Hu|Hu]%R4; [|done]. apply Hmono, Ht. by right.
  - intros u [Hu|Hu%Htg]%R3; [by apply Hs|]. apply rtc_r with s; [by apply Hs|done].
  - intros u w Hu Hnt Huw. apply R5 in Hu as [Hu|Hu]; [|done]. destruct (decide (u = s)) as [->|Hne].
    + apply R3. right. by apply Htg.
    + apply Hmono, (Hc u w Hu); [|done]. apply not_elem_of_cons. split; [done|]. intros Hin. by apply Hnt, R6.
Qed.

Lemma count_false_replicate n : count_false (replicate n false) = n.
Proof. unfold count_false. induction n as [|n IH]; [done|]. cbn [replicate]. rewrite filter_cons, decide_True by done. cbn [length]. by rewrite IH. Qed.

Lemma bitset_all_spec_id (v : list bool) :
  (forall s, s < length v -> v !! s = Some true) <-> forallb (fun b => b) v = true.
Proof.
  rewrite forallb_forall. split.
  - intros H b Hb. apply list_elem_of_In, list_elem_of_lookup in Hb as [i Hi].
    rewrite H in Hi by (by eapply lookup_lt_Some). congruence.
  - intros H s Hs. destruct (lookup_lt_is_Some_2 v s Hs) as [b Hb]. rewrite Hb. f_equal.
    apply H, list_elem_of_In. by eapply list_elem_of_lookup_2.
Qed.

Lemma visited_states_spec :
  exists v, visited_states l = Some v /\ length v = num_states l /\ forall u, v !! u = Some true <-> is_reachable l u.
Proof.
  unfold visited_states. assert (Hl : replicate (num_states l) false !! m_init_state l = Some false) by (by apply lookup_replicate_2).
  pose proof (count_false_insert _ _ Hl) as Hc. rewrite count_false_replicate in Hc.
  assert (Hlook : forall u, <[m_init_state l := true]> (replicate (num_states l) false) !! u = Some true -> u = m_init_state l).
  { intros u Hu. apply list_lookup_insert_Some in Hu as [[<- _]|[_ Hu]]; [done|]. by apply lookup_replicate in Hu as [? _]. }
  apply explore_reaches; [|cbn [length]; lia]. split.
  - by rewrite length_insert, length_replicate.
  - intros u ->%list_elem_of_singleton. apply list_lookup_insert_eq. by rewrite length_replicate.
  - apply list_lookup_insert_eq. by rewrite length_replicate.
  - intros u ->%Hlook. apply rtc_refl.
  - intros u w ->%Hlook Hn. destruct Hn. left.
Qed.

(** ** The removal of unreachable states *)
Section Remove.
Context (v : list bool) (Hvl : length v = num_states l).
Context (Hvinit : v !!! m_init_state l = true).
Context (Hvclosed : forall t, t ∈ m_transitions l -> v !!! from t = true -> v !!! to t = true).
Context (Hlabels : has_state_info l = true -> length (m_state_labels l) = num_states l).

(** The labels of the states that are kept. *)
Definition kept_labels (k : nat) : list SL :=
  (fun i => default default_label (m_state_labels l !! i)) <$> filter (fun j => v !!! j = true) (seq 0 k).

Lemma add_state_resize (new_lts : lts) x ls :
  length (m_state_labels new_lts) <= m_nstates new_lts ->
  resize (m_nstates new_lts) default_label (m_state_labels new_lts) = ls ->
  let l' := (add_state default_label x new_lts).1 in
  length (m_state_labels l') <= m_nstates l' /\
  resize (m_nstates l') default_label (m_state_labels l') = ls ++ [x].
Proof.
  intros Hle Hr. unfold add_state. cbn [fst m_nstates m_state_labels set_nstates]. case_decide as E.
  - cbn. unfold vector_resize. rewrite Hr. assert (Hls : length ls = m_nstates new_lts) by (rewrite <- Hr; apply length_resize).
    rewrite length_app. cbn [length]. split; [lia|]. apply resize_all_alt. rewrite length_app. cbn. lia.
  - rewrite E. split; [cbn; lia|]. rewrite <- Hr.
    rewrite !resize_ge by lia. rewrite <- app_assoc, <- replicate_cons_app. do 2 f_equal.
    rewrite <- replicate_S. f_equal. lia.
Qed.

Record states_mapped (k : nat) (new_lts : lts) (state_map : list nat) : Prop := {
  mapped_nstates : m_nstates new_lts = new_index v k;
  mapped_length : length state_map = num_states l;
  mapped_index : forall i, i < k -> v !!! i = true -> state_map !!! i = new_index v i;
  mapped_transitions : m_transitions new_lts = [];
  mapped_actions : m_action_labels new_lts = [tau_action];
  mapped_hidden : m_hidden_label_set new_lts = ∅;
  mapped_labels_le : length (m_state_labels new_lts) <= m_nstates new_lts;
  mapped_labels : has_state_info l = true ->
    resize (m_nstates new_lts) default_label (m_state_labels new_lts) = kept_labels k
}.

Lemma map_states_spec k : k <= num_states l ->
  exists new_lts state_map,
    foldl (map_state_step l v) (Some (clear tau_action l, replicate (num_states l) 0, 0)) (seq 0 k)
      = Some (new_lts, state_map, new_index v k) /\ states_mapped k new_lts state_map.
Proof.
  induction k as [|k IH]; intros Hk.
  - eexists _, _. split; [done|]. split; cbn; try done; [by rewrite length_replicate|lia].
  - destruct (IH ltac:(lia)) as (nl & sm & E & [M1 M2 M3 M4 M5 M6 M7 M8]). rewrite seq_S, foldl_snoc, E.
    cbn [map_state_step mbind option_bind Nat.add]. rewrite new_index_S.
    assert (Hkl : forall x, (has_state_info l = true -> m_state_labels l !! k = Some x) -> v !!! k = true ->
      has_state_info l = true -> kept_labels (S k) = kept_labels k ++ [x]).
    { intros x Hx Hvk Hi. unfold kept_labels. rewrite seq_S, filter_app, fmap_app. cbn [Nat.add].
      rewrite filter_cons, decide_True, filter_nil by done. cbn. by rewrite Hx. }
    destruct (v !!! k) eqn:Ev.
    2: { rewrite Nat.add_0_r. exists nl, sm. split; [done|]. split; try done.
         - rewrite new_index_S, Ev. lia.
         - intros i Hi Hvi. apply M3; [|done]. destruct (decide (i = k)) as [->|]; [congruence|lia].
         - intros Hi. rewrite M8 by done. unfold kept_labels. rewrite seq_S, filter_app, fmap_app.
           cbn [Nat.add]. rewrite filter_cons, decide_False, filter_nil by congruence. cbn. by rewrite app_nil_r. }
    assert (Hx : exists x, (if has_state_info l then state_label k l else Some default_label) = Some x /\
      (has_state_info l = true -> m_state_labels l !! k = Some x)).
    { destruct (decide (has_state_info l = true)) as [Ei|Ei].
      - rewrite Ei. specialize (Hlabels Ei). destruct (lookup_lt_is_Some_2 (m_state_labels l) k ltac:(lia)) as [x Hx].
        exists x. split; [|done]. unfold state_label. unfold num_states in Hlabels. rewrite Hlabels, Nat.eqb_refl.
        rewrite (proj2 (Nat.ltb_lt k (m_nstates l)) Hk). done.
      - rewrite (not_true_is_false _ Ei). by exists default_label. }
    destruct Hx as (x & -> & Hx). cbn [mbind option_bind]. rewrite Nat.add_1_r. eexists _, _. split; [done|].
    destruct (add_state_resize nl x _ M7 eq_refl) as [A1 A2]. split.
    + unfold add_state. cbn [fst m_nstates set_nstates]. by rewrite M1, new_index_S, Ev, Nat.add_1_r.
    + by rewrite length_insert.
    + intros i Hi Hvi. rewrite list_lookup_total_alt. destruct (decide (i = k)) as [->|Hne].
      * by rewrite list_lookup_insert_eq by lia.
      * rewrite list_lookup_insert_ne by done. rewrite <- list_lookup_total_alt. apply M3; [lia|done].
    + unfold add_state. cbn [fst m_transitions m_action_labels m_hidden_label_set set_nstates]. by case_decide.
    + unfold add_state. cbn [fst m_transitions m_action_labels m_hidden_label_set set_nstates]. by case_decide.
    + unfold add_state. cbn [fst m_transitions m_action_labels m_hidden_label_set set_nstates]. by case_decide.
    + done.
    + intros Hi. rewrite A2, M8 by done. symmetry. by apply Hkl.
Qed.

(** The labels that are kept. *)
Definition marked_labels : list nat :=
  <[0 := 1]> (foldl (mark_label_step v) (replicate (num_action_labels l) 0) (m_transitions l)).

Lemma mark_labels_loop ts lm : length lm = num_action_labels l ->
  (forall t, t ∈ ts -> label t < num_action_labels l) ->
  length (foldl (mark_label_step v) lm ts) = num_action_labels l /\
  (forall t, t ∈ ts -> v !!! from t = true -> foldl (mark_label_step v) lm ts !! label t = Some 1).
Proof.
  intros Hl. induction ts as [|t ts IH] using rev_ind; intros Hts; [split; [done|]; intros t Ht; by apply elem_of_nil in Ht|].
  destruct IH as [H1 H2]. { intros u Hu. apply Hts, elem_of_app. by left. }
  assert (Ht : label t < num_action_labels l) by (apply Hts, elem_of_app; right; left).
  rewrite foldl_snoc. unfold mark_label_step at 1 3. destruct (v !!! from t) eqn:Ev.
  - split; [by rewrite length_insert|]. intros u [Hu| ->%list_elem_of_singleton]%elem_of_app Hvu.
    + destruct (decide (label u = label t)) as [->|Hne]; [by rewrite list_lookup_insert_eq by lia|].
      rewrite list_lookup_insert_ne by done. auto.
    + by rewrite list_lookup_insert_eq by lia.
  - split; [done|]. intros u [Hu| ->%list_elem_of_singleton]%elem_of_app Hvu; [auto|congruence].
Qed.

Lemma num_action_labels_pos : 0 < num_action_labels l.
Proof. pose proof (wf_tau _ l Hwf) as H. by apply lookup_lt_Some in H. Qed.

Lemma marked_labels_spec : length marked_labels = num_action_labels l /\ marked_labels !! 0 = Some 1 /\
  forall t, t ∈ m_transitions l -> v !!! from t = true -> marked_labels !! label t = Some 1.
Proof.
  destruct (mark_labels_loop (m_transitions l) (replicate (num_action_labels l) 0)) as [H1 H2];
    [apply length_replicate|apply (wf_label _ l Hwf)|].
  pose proof num_action_labels_pos. unfold marked_labels. split_and!.
  - by rewrite length_insert.
  - by rewrite list_lookup_insert_eq by lia.
  - intros t Ht Hvt. destruct (decide (label t = 0)) as [->|Hne]; [by rewrite list_lookup_insert_eq by lia|].
    rewrite list_lookup_insert_ne by done. auto.
Qed.

(** After [k] labels, starting from [nl0]. *)
Record labels_mapped (nl0 : lts) (k : nat) (nl : lts) (lm : list nat) (m : nat) : Prop := {
  lm_frame : exists al, nl = set_action_labels al nl0;
  lm_length : length lm = num_action_labels l;
  lm_rest : forall i, k <= i -> lm !! i = marked_labels !! i;
  lm_done : forall i, i < k -> marked_labels !! i = Some 1 -> exists j, lm !! i = Some j /\ m_action_labels nl !! j = m_action_labels l !! i;
  lm_count : m = if k =? 0 then 0 else length (m_action_labels nl);
  lm_tau : m_action_labels nl !! 0 = Some tau_action;
  lm_nodup : NoDup (m_action_labels nl);
  lm_old : forall a, a ∈ m_action_labels nl -> a = tau_action \/ exists j, j < k /\ m_action_labels l !! j = Some a
}.

Lemma label_fresh nl0 k nl lm m a :
  labels_mapped nl0 k nl lm m -> m_action_labels l !! k = Some a -> k <> 0 -> a <> tau_action /\ a ∉ m_action_labels nl.
Proof.
  intros H Ha Hk. assert (Ht : a <> tau_action).
  { intros ->. apply Hk, (NoDup_lookup _ k 0 _ (wf_unique _ l Hwf) Ha), (wf_tau _ l Hwf). }
  split; [done|]. intros Hin. apply (lm_old _ _ _ _ _ H) in Hin as [|(j & Hj & Hja)]; [done|].
  pose proof (NoDup_lookup _ k j _ (wf_unique _ l Hwf) Ha Hja). lia.
Qed.

(** The first label, tau. *)
Lemma map_label_tau nl0 nl lm m :
  labels_mapped nl0 0 nl lm m -> labels_mapped nl0 1 nl (<[0 := m]> lm) (S m).
Proof.
  intros [H1 H2 H3 H4 H5 H6 H7 H8]. pose proof num_action_labels_pos as Hpos. cbn in H5. subst m. split; try done.
  - by rewrite length_insert.
  - intros i Hi. rewrite list_lookup_insert_ne by lia. apply H3. lia.
  - intros i Hi _. assert (i = 0) as -> by lia. exists 0. rewrite list_lookup_insert_eq by lia.
    split; [done|]. by rewrite H6, (wf_tau _ l Hwf).
  - assert (Hal : forall b, b ∈ m_action_labels nl -> b = tau_action).
    { intros b Hb. apply H8 in Hb as [|(j & ? & _)]; [done|lia]. }
    destruct (m_action_labels nl) as [|b [|c al]]; [done|done|]. exfalso. apply NoDup_cons in H7 as [H7 _]. apply H7.
    rewrite (Hal b), <- (Hal c) by set_solver. left.
  - intros b Hb. apply H8 in Hb as [|(j & ? & ?)]; [by left|lia].
Qed.

(** A label that is not marked. *)
Lemma map_label_skip nl0 k nl lm m :
  marked_labels !! k = Some 0 -> labels_mapped nl0 k nl lm m -> labels_mapped nl0 (S k) nl lm m.
Proof.
  intros Hx [H1 H2 H3 H4 H5 H6 H7 H8]. destruct marked_labels_spec as (_ & Hm0 & _). split; try done.
  - intros i Hi. apply H3. lia.
  - intros i Hi Hmi. apply H4; [|done]. destruct (decide (i = k)) as [->|]; [|lia]. rewrite Hx in Hmi. done.
  - rewrite H5. destruct (Nat.eqb_spec k 0) as [->|]; [|done]. rewrite Hm0 in Hx. done.
  - intros b Hb. apply H8 in Hb as [|(j & ? & ?)]; [by left|right]. exists j. split; [lia|done].
Qed.

(** A label that is added. *)
Lemma map_label_add nl0 k nl lm m a :
  k <> 0 -> m_action_labels l !! k = Some a -> labels_mapped nl0 k nl lm m ->
  labels_mapped nl0 (S k) (set_action_labels (m_action_labels nl ++ [a]) nl) (<[k := m]> lm) (S m).
Proof.
  intros Hk0 Ha H. destruct (label_fresh _ _ _ _ _ _ H Ha Hk0) as [_ Hfresh].
  destruct H as [[al ->] H2 H3 H4 H5 H6 H7 H8]. apply lookup_lt_Some in Ha as Hk. unfold num_action_labels in H2.
  rewrite (proj2 (Nat.eqb_neq k 0) Hk0) in H5. subst m. cbn in *. split; cbn.
  - by exists (al ++ [a]).
  - by rewrite length_insert.
  - intros i Hi. rewrite list_lookup_insert_ne by lia. apply H3. lia.
  - intros i Hi Hmi. destruct (decide (i = k)) as [->|Hne].
    + exists (length al). rewrite list_lookup_insert_eq, lookup_app_r, Nat.sub_diag by lia. by rewrite Ha.
    + destruct (H4 i ltac:(lia) Hmi) as (j & Hj & Hja). exists j. rewrite list_lookup_insert_ne by done. split; [done|].
      destruct (lookup_lt_is_Some_2 (m_action_labels l) i ltac:(lia)) as [b Hb]. rewrite Hb in *.
      by apply lookup_app_l_Some.
  - change (S k =? 0) with false. rewrite length_app. cbn. lia.
  - by apply lookup_app_l_Some.
  - apply NoDup_app. split; [done|]. split; [|apply NoDup_singleton]. intros b Hb ->%list_elem_of_singleton. done.
  - intros b [Hb| ->%list_elem_of_singleton]%elem_of_app; [|right; exists k; split; [lia|done]].
    apply H8 in Hb as [|(j & ? & ?)]; [by left|right]. exists j. split; [lia|done].
Qed.

Lemma map_labels_spec nl0 k :
  k <= num_action_labels l -> m_action_labels nl0 = [tau_action] ->
  (forall x, x ∈ marked_labels -> x = 0 \/ x = 1) ->
  exists nl lm m, foldl (map_label_step l) (Some (nl0, marked_labels, 0)) (seq 0 k) = Some (nl, lm, m) /\
    labels_mapped nl0 k nl lm m.
Proof.
  intros Hk Hal H01. induction k as [|k IH].
  - exists nl0, marked_labels, 0. split; [done|]. split; rewrite ?Hal; try done; try lia.
    + exists [tau_action]. rewrite <- Hal. by destruct nl0.
    + apply marked_labels_spec.
    + apply NoDup_singleton.
    + intros b ->%list_elem_of_singleton. by left.
  - destruct IH as (nl & lm & m & E & H); [lia|]. destruct marked_labels_spec as (Hml & Hm0 & _).
    destruct (lookup_lt_is_Some_2 marked_labels k ltac:(lia)) as [x Hx].
    assert (Elm : lm !!! k = x) by (rewrite list_lookup_total_alt, (lm_rest _ _ _ _ _ H k (le_n k)), Hx; done).
    rewrite seq_S, foldl_snoc, E. cbn [map_label_step mbind option_bind Nat.add]. rewrite Elm.
    destruct (H01 x) as [-> | ->]; [by eapply list_elem_of_lookup_2|cbn; exists nl, lm, m; split; [done|by apply map_label_skip]|].
    destruct (lookup_lt_is_Some_2 (m_action_labels l) k Hk) as [a Ha]. unfold action_label. rewrite Ha.
    change (0 <? 1) with true. cbn [mbind option_bind]. destruct (decide (k = 0)) as [->|Hk0].
    + rewrite (wf_tau _ l Hwf) in Ha. injection Ha as <-. unfold add_action. rewrite decide_True by done.
      cbn [mbind option_bind]. eexists _, _, _. split; [done|]. by apply map_label_tau.
    + destruct (label_fresh _ _ _ _ _ _ H Ha Hk0) as [Ht Hf]. unfold add_action. rewrite !decide_False by done.
      cbn [mbind option_bind]. eexists _, _, _. split; [done|]. by apply map_label_add.
Qed.

Lemma elem_of_insert_cases (lm : list nat) i x y : y ∈ <[i := x]> lm -> y = x \/ y ∈ lm.
Proof.
  intros (j & Hj)%list_elem_of_lookup. apply list_lookup_insert_Some in Hj as [(_ & ? & _)|[_ Hj]]; [by left|right].
  by eapply list_elem_of_lookup_2.
Qed.

Lemma marked_labels_bit x : x ∈ marked_labels -> x = 0 \/ x = 1.
Proof.
  assert (Hfold : forall ts lm, (forall x, x ∈ lm -> x = 0 \/ x = 1) ->
    forall x, x ∈ foldl (mark_label_step v) lm ts -> x = 0 \/ x = 1).
  { intros ts. induction ts as [|t ts IH]; intros lm Hlm; [done|]. cbn. apply IH. unfold mark_label_step.
    case_match; [|done]. intros y [-> |Hy]%elem_of_insert_cases; auto. }
  intros [-> |Hx]%elem_of_insert_cases; [by right|]. eapply Hfold; [|exact Hx].
  intros y Hy. left. by apply elem_of_replicate in Hy as [-> _].
Qed.

(** The loop that adds the transitions. *)
Lemma add_transitions_loop sm lm nl ts :
  foldl (add_transition_step v sm lm) nl ts =
  set_transitions (m_transitions nl ++
    ((fun t => Transition (sm !!! from t) (lm !!! label t) (sm !!! to t)) <$> filter (fun t => v !!! from t = true) ts)) nl.
Proof.
  induction ts as [|t ts IH] using rev_ind.
  - cbn. rewrite app_nil_r. by destruct nl.
  - rewrite foldl_snoc, IH. unfold add_transition_step. rewrite filter_app, filter_cons, filter_nil, fmap_app.
    destruct (v !!! from t); [rewrite decide_True by done|rewrite decide_False by done]; cbn.
    + unfold add_transition. cbn. by rewrite app_assoc.
    + by rewrite app_nil_r.
Qed.

(** The transition system without the unreachable states. *)
Record removed_spec (l' : lts) (f : nat -> nat) : Prop := {
  removed_states : num_states l' = new_index v (num_states l);
  removed_init : m_init_state l' = f (m_init_state l);
  removed_hidden : m_hidden_label_set l' = ∅;
  removed_index : forall s, s < num_states l -> v !!! s = true -> f s = new_index v s;
  removed_transitions : forall e, e ∈ raw_behaviour l' <->
    exists s a t, (s, a, t) ∈ raw_behaviour l /\ v !!! s = true /\ e = (f s, a, f t);
  removed_labels : has_state_info l = true ->
    resize (num_states l') default_label (m_state_labels l') = kept_labels (num_states l)
}.

Lemma remove_unreachable_spec :
  exists l' f, remove_unreachable_states l v = Some l' /\ removed_spec l' f.
Proof.
  unfold remove_unreachable_states.
  destruct (map_states_spec (num_states l) (le_n _)) as (nl & sm & E & [M1 M2 M3 M4 M5 M6 M7 M8]). rewrite E. cbn [mbind option_bind].
  destruct (map_labels_spec nl (num_action_labels l) (le_n _) M5 marked_labels_bit) as (nl' & lm & m & E' & H').
  fold marked_labels. rewrite E'. cbn [mbind option_bind]. rewrite add_transitions_loop.
  destruct H' as [[al ->] H2 _ H4 _ _ _ _]. cbn in H4. unfold set_initial_state. cbn [m_nstates set_transitions set_action_labels].
  pose proof (new_index_lt v _ _ Hvinit Hinit) as Hlt. rewrite M1, (M3 _ Hinit Hvinit), (proj2 (Nat.ltb_lt _ _) Hlt).
  eexists _, (fun s => sm !!! s). split; [done|]. split; cbn; try done.
  - by rewrite (M3 _ Hinit Hvinit).
  - rewrite M4. cbn. assert (Hact : forall t, t ∈ m_transitions l -> v !!! from t = true ->
      al !! (lm !!! label t) = m_action_labels l !! label t).
    { intros t Ht Hv. destruct marked_labels_spec as (_ & _ & Hm).
      destruct (H4 (label t) (wf_label _ l Hwf t Ht) (Hm t Ht Hv)) as (j & Hj & Ej).
      by rewrite list_lookup_total_alt, Hj. }
    intros e. unfold raw_behaviour. cbn. rewrite list_elem_of_fmap. setoid_rewrite list_elem_of_fmap.
    setoid_rewrite list_elem_of_filter. split.
    + intros (t' & -> & t & -> & Hv & Ht). exists (from t), (m_action_labels l !! label t), (to t).
      split; [by exists t|]. split; [done|]. cbn. by rewrite Hact.
    + intros (s & a & t & (tr & [= -> -> ->] & Htr) & Hv & ->). eexists. split; [|by exists tr]. cbn. by rewrite Hact.
Qed.

End Remove.

End Explore.

Lemma reachability_check_spec l :
  wf_lts tau_action l -> m_init_state l < num_states l ->
  (has_state_info l = true -> length (m_state_labels l) = num_states l) ->
  exists r l', reachability_check l false = Some (r, l) /\
    (r = true <-> forall s, s < num_states l -> is_reachable l s) /\
    reachability_check l true = Some (r, l') /\
    (r = true -> l' = l) /\
    (r = false -> exists f,
       (forall s, is_reachable l s -> f s < num_states l') /\
       (forall s t, is_reachable l s -> is_reachable l t -> f s = f t -> s = t) /\
       (forall c, c < num_states l' -> exists s, is_reachable l s /\ f s = c) /\
       m_init_state l' = f (m_init_state l) /\
       (forall e, e ∈ raw_behaviour l' <->
          exists s a t, (s, a, t) ∈ raw_behaviour l /\ is_reachable l s /\ e = (f s, a, f t)) /\
       m_hidden_label_set l' = ∅).
Proof.
  intros Hw Hi Hl. destruct (visited_states_spec l Hw Hi) as (v & E & Hvl & Hv). unfold reachability_check. rewrite E.
  cbn [mbind option_bind]. assert (Htot : forall s, s < num_states l -> v !!! s = true <-> is_reachable l s).
  { intros s Hs. rewrite <- Hv, list_lookup_total_alt. destruct (lookup_lt_is_Some_2 v s ltac:(lia)) as [b ->]. cbn.
    split; congruence. }
  assert (Hlt : forall s, is_reachable l s -> s < num_states l).
  { intros s Hs. rewrite <- Hvl. apply Hv in Hs. by eapply lookup_lt_Some. }
  assert (Hr : forallb (fun b => b) v = true <-> forall s, s < num_states l -> is_reachable l s).
  { rewrite <- (bitset_all_spec_id v), Hvl. setoid_rewrite <- Hv. done. }
  destruct (remove_unreachable_spec l Hw Hi v Hvl) as (l' & f & E' & [R1 R2 R3 R4 R5 _]); [| |done|].
  { apply Htot; [done|apply rtc_refl]. }
  { intros t Ht Hvt. apply Htot; [by apply (wf_to _ l Hw)|]. apply rtc_r with (from t); [|by exists t].
    apply Htot; [by apply (wf_from _ l Hw)|done]. }
  destruct (forallb (fun b => b) v) eqn:Er; [exists true, l|exists false, l']; cbn [negb andb]; rewrite ?E'; cbn [mbind option_bind].
  - split_and!; done.
  - split_and!; [done|done|done|done|]. intros _. exists f.
    assert (Hf : forall s, is_reachable l s -> f s = new_index v s) by (intros s Hs; apply R4; [|apply Htot]; auto).
    split_and!; [| | |done| |done].
    + intros s Hs. rewrite Hf, R1 by done. apply new_index_lt; [apply Htot|]; auto.
    + intros s t Hs Ht. rewrite !Hf by done. apply new_index_inj; apply Htot; auto.
    + intros c Hc. rewrite R1 in Hc. apply new_index_onto in Hc as (s & Hs & Hvs & <-). exists s.
      apply Htot in Hvs; [|done]. split; [done|]. by apply Hf.
    + intros e. rewrite R5. split; intros (s & a & t & Hst & Hs & ->); exists s, a, t; (split_and!; [done| |done]).
      * apply Htot; [|done]. unfold raw_behaviour in Hst. apply list_elem_of_fmap in Hst as (tr & [= -> _ _] & Htr). by apply (wf_from _ l Hw).
      * by apply Htot; auto.
Qed.

(** [reachability_check] tells whether all states are reachable, and with
    [remove_unreachable] it leaves a transition system that is the reachable part
    up to the numbering of its states: the numbering is a bijection between the
    reachable states and those of the result, and the transitions with their
    action labels correspond.  The record of hidden labels, however, is empty
    afterwards. *)
Lemma reachability_check_correct l :
  wf_lts tau_action l -> m_init_state l < num_states l ->
  (has_state_info l = true -> length (m_state_labels l) = num_states l) ->
  exists r l', reachability_check l false = Some (r, l) /\
    (r = true <-> forall s, s < num_states l -> is_reachable l s) /\
    reachability_check l true = Some (r, l') /\
    (r = true -> l' = l) /\
    (r = false -> exists f,
       (forall s, is_reachable l s -> f s < num_states l') /\
       (forall s t, is_reachable l s -> is_reachable l t -> f s = f t -> s = t) /\
       (forall c, c < num_states l' -> exists s, is_reachable l s /\ f s = c) /\
       m_init_state l' = f (m_init_state l) /\
       (forall e, e ∈ raw_behaviour l' <->
          exists s a t, (s, a, t) ∈ raw_behaviour l /\ is_reachable l s /\ e = (f s, a, f t)) /\
       m_hidden_label_set l' = ∅).
Proof. apply reachability_check_spec. Qed.
End Algorithms.

(** *** Example and witness *)

(** State 1 is not reachable; label 1 is hidden. *)
Definition hidden_unreachable : lts nat string :=
  mk_lts 3 0 [Transition 0 1 2; Transition 1 2 0] [] ["tau"; "a"; "b"]%string {[1]}.

Lemma hidden_unreachable_wf : wf_lts "tau"%string hidden_unreachable.
Proof.
  split; [done|apply (bool_decide_unpack _); by vm_compute|..];
    intros t Ht; repeat (apply elem_of_cons in Ht as [->|Ht]; [cbn; lia|]); by apply elem_of_nil in Ht.
Qed.

(** Removing the unreachable state makes the hidden action visible. *)
Lemma reachability_check_unhides :
  behaviour hidden_unreachable = [(0, Some "tau", 2); (1, Some "b", 0)]%string /\
  (fun r => behaviour r.2) <$> reachability_check 0 "tau"%string hidden_unreachable true = Some [(0, Some "a"%string, 1)].
Proof. by vm_compute. Qed.

