(* ===== verification/Bisimulation.v ===== *)
(** * Strong and branching bisimulation

    The theory the reductions of [libraries/lts] are measured by; no code.  The
    internal label is [tau], and [None] makes every label visible: branching
    bisimulation is then strong bisimulation.  [bisimilar] is shown to be the
    greatest branching bisimulation and to have the stuttering property, by way of
    semi-branching bisimulations, whose internal steps may be answered by several. *)

From Stdlib Require Import Lia.
From stdpp Require Import base list relations.
From S2P Require Import Prelude.

Section Bisimulation.
Context {A : Type} (tau : option A).

Definition inert {S : Type} (step : S -> A -> S -> Prop) (s t : S) : Prop :=
  exists a, tau = Some a /\ step s a t.

(** One direction: the steps of the left are answered on the right. *)
Definition simulation {S1 S2 : Type} (step1 : S1 -> A -> S1 -> Prop) (step2 : S2 -> A -> S2 -> Prop)
    (R : S1 -> S2 -> Prop) : Prop :=
  forall s1 s2 a t1, R s1 s2 -> step1 s1 a t1 ->
    (tau = Some a /\ R t1 s2) \/
    exists u2 t2, rtc (inert step2) s2 u2 /\ R s1 u2 /\ step2 u2 a t2 /\ R t1 t2.

Definition bisimulation {S1 S2 : Type} (step1 : S1 -> A -> S1 -> Prop) (step2 : S2 -> A -> S2 -> Prop)
    (R : S1 -> S2 -> Prop) : Prop :=
  simulation step1 step2 R /\ simulation step2 step1 (flip R).

Definition bisimilar {S1 S2 : Type} (step1 : S1 -> A -> S1 -> Prop) (step2 : S2 -> A -> S2 -> Prop)
    (s1 : S1) (s2 : S2) : Prop := exists R, bisimulation step1 step2 R /\ R s1 s2.

(** An internal step may be answered by any number of internal steps. *)
Definition semi_simulation {S1 S2 : Type} (step1 : S1 -> A -> S1 -> Prop) (step2 : S2 -> A -> S2 -> Prop)
    (R : S1 -> S2 -> Prop) : Prop :=
  forall s1 s2 a t1, R s1 s2 -> step1 s1 a t1 ->
    exists u2, rtc (inert step2) s2 u2 /\ R s1 u2 /\
      ((tau = Some a /\ R t1 u2) \/ exists t2, step2 u2 a t2 /\ R t1 t2).

Definition semi_bisimulation {S1 S2 : Type} (step1 : S1 -> A -> S1 -> Prop) (step2 : S2 -> A -> S2 -> Prop)
    (R : S1 -> S2 -> Prop) : Prop :=
  semi_simulation step1 step2 R /\ semi_simulation step2 step1 (flip R).

Section Simulations.
Context {S1 S2 : Type} (step1 : S1 -> A -> S1 -> Prop) (step2 : S2 -> A -> S2 -> Prop).

Lemma simulation_semi R : simulation step1 step2 R -> semi_simulation step1 step2 R.
Proof.
  intros H s1 s2 a t1 HR Hs. destruct (H s1 s2 a t1 HR Hs) as [[Ha Ht]|(u2 & t2 & H1 & H2 & H3 & H4)].
  - exists s2. split; [apply rtc_refl|]. split; [done|]. by left.
  - exists u2. split; [done|]. split; [done|]. right. by exists t2.
Qed.

(** Sequences of internal steps are answered. *)
Lemma semi_simulation_rtc R s1 s2 t1 :
  semi_simulation step1 step2 R -> R s1 s2 -> rtc (inert step1) s1 t1 ->
  exists t2, rtc (inert step2) s2 t2 /\ R t1 t2.
Proof.
  intros H HR Hs. revert s2 HR. induction Hs as [s1|s1 u1 t1 (a & Ha & Hu) _ IH]; intros s2 HR.
  - exists s2. by split; [apply rtc_refl|].
  - destruct (H s1 s2 a u1 HR Hu) as (u2 & Hu2 & _ & [[_ Hr]|(v2 & Hv & Hr)]).
    + destruct (IH u2 Hr) as (t2 & Ht & ?). exists t2. split; [by trans u2|done].
    + destruct (IH v2 Hr) as (t2 & Ht & ?). exists t2. split; [|done]. trans u2; [done|]. eapply rtc_l; [|done]. by exists a.
Qed.

End Simulations.

(** ** Bisimilarity in one transition system *)

Section One.
Context {S : Type} (step : S -> A -> S -> Prop).

Definition semi_bisimilar (s t : S) : Prop := exists R, semi_bisimulation step step R /\ R s t.

Lemma semi_bisimilar_simulation : semi_simulation step step semi_bisimilar.
Proof.
  intros s1 s2 a t1 (R & HR & Hs) Hst. destruct (proj1 HR s1 s2 a t1 Hs Hst) as (u2 & H1 & H2 & H3).
  exists u2. split; [done|]. split; [by exists R|]. destruct H3 as [[? ?]|(t2 & ? & ?)]; [left|right].
  - split; [done|by exists R].
  - exists t2. split; [done|by exists R].
Qed.

Lemma semi_bisimilar_sym s t : semi_bisimilar s t -> semi_bisimilar t s.
Proof. intros (R & [H1 H2] & H). exists (flip R). by split; [split|]. Qed.

Lemma semi_bisimulation_symmetric R : Symmetric R -> semi_simulation step step R -> semi_bisimulation step step R.
Proof.
  intros HR H. split; [done|]. intros s1 s2 a t1 Hs Hst. unfold flip in *.
  destruct (H s1 s2 a t1 (HR _ _ Hs) Hst) as (u2 & H1 & H2 & H3). exists u2. split; [done|]. split; [by apply HR|].
  destruct H3 as [[? ?]|(t2 & ? & ?)]; [left|right; exists t2]; eauto.
Qed.

(** Between two states bisimilar to [s] only states bisimilar to [s] are passed. *)
Lemma semi_stuttering s t t1 t2 :
  semi_bisimilar s t -> rtc (inert step) t t1 -> rtc (inert step) t1 t2 -> semi_bisimilar s t2 -> semi_bisimilar s t1.
Proof.
  intros H0 H01 H12 H2.
  set (R := fun x y => semi_bisimilar x y \/ (x = s /\ y = t1) \/ (x = t1 /\ y = s)).
  exists R. split; [|right; by left]. apply semi_bisimulation_symmetric.
  { intros x y [?|[[-> ->]|[-> ->]]]; [left; by apply semi_bisimilar_sym|right; by right|right; by left]. }
  assert (Hup : forall x y a x', semi_bisimilar x y -> step x a x' -> exists u, rtc (inert step) y u /\ R x u /\
      ((tau = Some a /\ R x' u) \/ exists t2, step u a t2 /\ R x' t2)).
  { intros x y a x' Hxy Hx. destruct (semi_bisimilar_simulation x y a x' Hxy Hx) as (u & Hu1 & Hu2 & Hu3).
    exists u. split; [done|]. split; [by left|]. destruct Hu3 as [[? ?]|(v & ? & ?)]; [left|right; exists v]; split; try done; by left. }
  intros x y a x' [Hxy|[[-> ->]|[-> ->]]] Hx; [by apply (Hup x)| |].
  - destruct (Hup s t2 a x' H2 Hx) as (u & Hu & Hu'). exists u. split; [by trans t2|done].
  - destruct (semi_simulation_rtc step step _ t s t1 semi_bisimilar_simulation (semi_bisimilar_sym _ _ H0) H01) as (s1 & Hs1 & Hr).
    destruct (Hup t1 s1 a x' Hr Hx) as (u & Hu & Hu'). exists u. split; [by trans s1|done].
Qed.

Lemma semi_bisimilar_bisimulation : bisimulation step step semi_bisimilar.
Proof.
  assert (H : simulation step step semi_bisimilar).
  { intros s1 s2 a t1 Hs Hst. destruct (semi_bisimilar_simulation s1 s2 a t1 Hs Hst) as (u2 & Hu & Hr & [[Ha Ht]|(t2 & H2 & Ht)]).
    - apply rtc_inv_r in Hu as Hu'. destruct Hu' as [->|(v2 & Hv & (b & Hb & Hvu))]; [by left|]. right. exists v2, u2.
      split; [done|]. split; [|by rewrite Ha in Hb; injection Hb as <-].
      apply (semi_stuttering s1 s2 v2 u2); try done. apply rtc_once. by exists b.
    - right. by exists u2, t2. }
  split; [done|]. intros s1 s2 a t1 Hs Hst. unfold flip in *. apply semi_bisimilar_sym in Hs.
  destruct (H s1 s2 a t1 Hs Hst) as [[Ha Ht]|(u2 & t2 & H1 & H2 & H3 & H4)]; [left|right; exists u2, t2];
    split_and!; try done; by apply semi_bisimilar_sym.
Qed.

Lemma bisimilar_semi s t : bisimilar step step s t <-> semi_bisimilar s t.
Proof.
  split.
  - intros (R & [H1 H2] & HR). exists R. split; [|done]. split; by apply simulation_semi.
  - intros H. exists semi_bisimilar. split; [apply semi_bisimilar_bisimulation|done].
Qed.

Lemma bisimilar_sym s t : bisimilar step step s t -> bisimilar step step t s.
Proof. rewrite !bisimilar_semi. apply semi_bisimilar_sym. Qed.

Lemma bisimilar_simulation : simulation step step (bisimilar step step).
Proof.
  intros s1 s2 a t1 Hs Hst. rewrite bisimilar_semi in Hs.
  destruct (proj1 semi_bisimilar_bisimulation s1 s2 a t1 Hs Hst) as [[? ?]|(u2 & t2 & ? & ? & ? & ?)].
  - left. by rewrite bisimilar_semi.
  - right. exists u2, t2. by rewrite !bisimilar_semi.
Qed.

Lemma bisimilar_stuttering s t t1 t2 :
  bisimilar step step s t -> rtc (inert step) t t1 -> rtc (inert step) t1 t2 -> bisimilar step step s t2 ->
  bisimilar step step s t1.
Proof. rewrite !bisimilar_semi. apply semi_stuttering. Qed.

End One.

(** ** Functions that are bisimulations *)

Section Functions.
Context {S1 S2 S3 : Type} (step1 : S1 -> A -> S1 -> Prop) (step2 : S2 -> A -> S2 -> Prop)
  (step3 : S3 -> A -> S3 -> Prop).

(** A bisimulation that gives every state of the left one of the right, followed
    by another such one. *)
Lemma bisimulation_compose (R : S1 -> S2 -> Prop) (Q : S2 -> S3 -> Prop) :
  (forall x y y', R x y -> R x y' -> y = y') -> (forall x y y', Q x y -> Q x y' -> y = y') ->
  bisimulation step1 step2 R -> bisimulation step2 step3 Q ->
  bisimulation step1 step3 (fun x z => exists y, R x y /\ Q y z).
Proof.
  intros HR HQ [R1 R2] [Q1 Q2]. split.
  - intros x z a x' (y & Hxy & Hyz) Hx. destruct (R1 x y a x' Hxy Hx) as [[Ha Hx']|(u & y' & Hu & Hxu & Hy & Hx')].
    + left. split; [done|by exists y].
    + rewrite <- (HR x y u Hxy Hxu) in *. destruct (Q1 y z a y' Hyz Hy) as [[Ha Hy']|(w & z' & Hw & Hyw & Hz & Hy')].
      * left. split; [done|by exists y'].
      * right. exists w, z'. split_and!; [done|by exists y|done|by exists y'].
  - intros z x a z' (y & Hxy & Hyz) Hz. destruct (Q2 z y a z' Hyz Hz) as [[Ha Hz']|(v & y' & Hv & Hvz & Hy & Hz')].
    + left. split; [done|by exists y].
    + destruct (semi_simulation_rtc step2 step1 _ y x v (simulation_semi _ _ _ R2) Hxy Hv) as (x1 & Hx1 & Hr).
      destruct (R2 v x1 a y' Hr Hy) as [[Ha Hy']|(x2 & x' & Hx2 & Hr2 & Hx' & Hy')]; unfold flip in *.
      * pose proof (HR x1 v y' Hr Hy') as <-. pose proof (HQ v z z' Hvz Hz') as <-. left. split; [done|by exists y].
      * right. exists x2, x'. split_and!; [by trans x1|by exists v|done|by exists y'].
Qed.

(** Semi-branching simulations compose. *)
Lemma semi_simulation_compose (R : S1 -> S2 -> Prop) (Q : S2 -> S3 -> Prop) :
  semi_simulation step1 step2 R -> semi_simulation step2 step3 Q ->
  semi_simulation step1 step3 (fun x z => exists y, R x y /\ Q y z).
Proof.
  intros HR HQ x z a x' (y & Hxy & Hyz) Hx. destruct (HR x y a x' Hxy Hx) as (u & Hu & Hxu & Hx').
  destruct (semi_simulation_rtc step2 step3 Q y z u HQ Hyz Hu) as (w & Hw & Huw).
  destruct Hx' as [[Ha Hx']|(y' & Hy' & Hx')].
  - exists w. split; [done|]. split; [by exists u|]. left. split; [done|by exists u].
  - destruct (HQ u w a y' Huw Hy') as (w' & Hw' & Huw' & Hz). exists w'. split; [by trans w|]. split; [by exists u|].
    destruct Hz as [[Ha Hz]|(z' & Hz' & Hz)]; [left|right; exists z']; split; try done; by exists y'.
Qed.

End Functions.

(** Bisimulations between two systems carry bisimilarity over. *)
Lemma bisimilar_transfer {S1 S2 : Type} (step1 : S1 -> A -> S1 -> Prop) (step2 : S2 -> A -> S2 -> Prop) R s1 s2 t1 t2 :
  bisimulation step1 step2 R -> R s1 s2 -> R t1 t2 -> bisimilar step2 step2 s2 t2 -> bisimilar step1 step1 s1 t1.
Proof.
  intros [R1 R2] Hs Ht (Q & [Q1 Q2] & HQ). apply bisimilar_semi.
  exists (fun x y => exists x', R x x' /\ exists y', Q x' y' /\ flip R y' y). split; [|by exists s2; split; [|exists t2]].
  apply simulation_semi in R1, R2, Q1, Q2. split.
  - apply (semi_simulation_compose step1 step2 step1 R (fun x y => exists y', Q x y' /\ flip R y' y)); [done|].
    by apply (semi_simulation_compose step2 step2 step1).
  - pose proof (semi_simulation_compose step1 step2 step2 R (flip Q) R1 Q2) as H1.
    pose proof (semi_simulation_compose step1 step2 step1 _ (flip R) H1 R2) as H2. unfold flip in *.
    intros y x a y' (x' & Hx & y'' & Hq & Hy) Hst.
    destruct (H2 y x a y') as (u & Hu & (v & (w & Hw1 & Hw2) & Hv) & H3); [exists x'; split; [by exists y''|done]|done|].
    exists u. split; [done|]. split; [by exists v; split; [|exists w]|].
    destruct H3 as [[Ha (v' & (w' & ? & ?) & ?)]|(t & Hst' & (v' & (w' & ? & ?) & ?))]; [left|right; exists t];
      (split; [done|]); exists v'; split; [done|by exists w'|done|by exists w'].
Qed.

End Bisimulation.

Lemma bisimulation_flip {A S1 S2 : Type} (tau : option A) (step1 : S1 -> A -> S1 -> Prop) (step2 : S2 -> A -> S2 -> Prop) R :
  bisimulation tau step1 step2 R -> bisimulation tau step2 step1 (flip R).
Proof. intros [H1 H2]. by split. Qed.

(** Only the transitions matter. *)
Lemma simulation_ext {A S1 S2 : Type} (tau : option A) (step1 step1' : S1 -> A -> S1 -> Prop) (step2 step2' : S2 -> A -> S2 -> Prop) R :
  (forall s a t, step1 s a t <-> step1' s a t) -> (forall s a t, step2 s a t <-> step2' s a t) ->
  simulation tau step1 step2 R -> simulation tau step1' step2' R.
Proof.
  intros H1 H2 H s1 s2 a t1 HR Hs. apply H1 in Hs. destruct (H s1 s2 a t1 HR Hs) as [?|(u2 & t2 & Hr & Hu & Hst & Ht)]; [by left|right].
  exists u2, t2. split_and!; [|done|by apply H2|done]. revert Hr. apply (rtc_congruence (fun x => x)). intros x y (b & Hb & Hxy).
  exists b. split; [done|by apply H2].
Qed.

Lemma bisimilar_ext {A S1 S2 : Type} (tau : option A) (step1 step1' : S1 -> A -> S1 -> Prop) (step2 step2' : S2 -> A -> S2 -> Prop) s t :
  (forall s a t, step1 s a t <-> step1' s a t) -> (forall s a t, step2 s a t <-> step2' s a t) ->
  bisimilar tau step1 step2 s t <-> bisimilar tau step1' step2' s t.
Proof.
  intros H1 H2. split; intros (R & [R1 R2] & HR); exists R; (split; [|done]); split.
  - by apply (simulation_ext tau step1 step1' step2 step2').
  - by apply (simulation_ext tau step2 step2' step1 step1').
  - apply (simulation_ext tau step1' step1 step2' step2); [by intros; symmetry..|done].
  - apply (simulation_ext tau step2' step2 step1' step1); [by intros; symmetry..|done].
Qed.

Lemma bisimulation_iff {A S1 S2 : Type} (tau : option A) (step1 : S1 -> A -> S1 -> Prop) (step2 : S2 -> A -> S2 -> Prop)
    (R R' : S1 -> S2 -> Prop) : (forall s t, R s t <-> R' s t) -> bisimulation tau step1 step2 R -> bisimulation tau step1 step2 R'.
Proof.
  intros H [H1 H2]. split; intros s1 s2 a t1 HR Hs; unfold flip in *; apply H in HR.
  - destruct (H1 s1 s2 a t1 HR Hs) as [[? ?%H]|(u2 & t2 & ? & ?%H & ? & ?%H)]; [by left|right]. by exists u2, t2.
  - destruct (H2 s1 s2 a t1 HR Hs) as [[? ?%H]|(u2 & t2 & ? & ?%H & ? & ?%H)]; [by left|right]. by exists u2, t2.
Qed.

(** ** Other labels *)

Section Labels.
Context {A B S : Type} (ta : option A) (tb : option B) (step : S -> A -> S -> Prop) (step' : S -> B -> S -> Prop) (L : A -> B -> Prop).
Context (L1 : forall a a' b, L a b -> L a' b -> a = a') (L2 : forall a b b', L a b -> L a b' -> b = b').
Context (Htau : forall a b, L a b -> ta = Some a <-> tb = Some b).
Context (H1 : forall s a t, step s a t -> exists b, L a b /\ step' s b t) (H2 : forall s b t, step' s b t -> exists a, L a b /\ step s a t).

Lemma relabel_rtc s t : rtc (inert ta step) s t -> rtc (inert tb step') s t.
Proof.
  induction 1 as [s|s u t (a & Ha & Hs) _ IH]; [apply rtc_refl|]. apply (rtc_l _ _ u); [|done].
  destruct (H1 s a u Hs) as (b & Hb & Hs'). exists b. split; [|done]. by apply (Htau a b).
Qed.

Lemma relabel_simulation R : simulation ta step step R -> simulation tb step' step' R.
Proof.
  intros H s1 s2 b t1 HR Hs. destruct (H2 s1 b t1 Hs) as (a & Hab & Hs').
  destruct (H s1 s2 a t1 HR Hs') as [[Ha Ht]|(u2 & t2 & Hr & Hu & Hst & Ht)].
  - left. split; [by apply (Htau a b)|done].
  - right. exists u2, t2. destruct (H1 u2 a t2 Hst) as (b' & Hb' & Hst'). rewrite (L2 a b b' Hab Hb').
    split_and!; try done. by apply relabel_rtc.
Qed.

Lemma relabel_bisimilar s t : bisimilar ta step step s t -> bisimilar tb step' step' s t.
Proof. intros (R & [HR1 HR2] & HR). exists R. split; [|done]. split; by apply relabel_simulation. Qed.

End Labels.

(** ** Embeddings *)

(** [step1] is the part of [step] on the states [f s] with [dom s]. *)
Definition embedding {A S1 S : Type} (step1 : S1 -> A -> S1 -> Prop) (step : S -> A -> S -> Prop) (f : S1 -> S) (dom : S1 -> Prop) : Prop :=
  (forall s a t, dom s -> step1 s a t -> dom t /\ step (f s) a (f t)) /\
  (forall s a y, dom s -> step (f s) a y -> exists t, dom t /\ y = f t /\ step1 s a t).

Section Embedding.
Context {A S1 S2 S : Type} (tau : option A) (step1 : S1 -> A -> S1 -> Prop) (step2 : S2 -> A -> S2 -> Prop) (step : S -> A -> S -> Prop).
Context (f1 : S1 -> S) (f2 : S2 -> S) (dom1 : S1 -> Prop) (dom2 : S2 -> Prop).
Context (E1 : embedding step1 step f1 dom1) (E2 : embedding step2 step f2 dom2).

Lemma embedding_rtc s t : dom2 s -> rtc (inert tau step2) s t -> dom2 t /\ rtc (inert tau step) (f2 s) (f2 t).
Proof.
  intros Hs H. induction H as [s|s u t (a & Ha & Hu) _ IH]; [by split; [|apply rtc_refl]|].
  destruct (proj1 E2 s a u Hs Hu) as [Hdu Hu']. destruct (IH Hdu) as [Ht Hr]. split; [done|]. apply (rtc_l _ _ (f2 u)); [by exists a|done].
Qed.

Lemma embedding_rtc_inv s y : dom2 s -> rtc (inert tau step) (f2 s) y -> exists t, dom2 t /\ y = f2 t /\ rtc (inert tau step2) s t.
Proof.
  intros Hs H. remember (f2 s) as x eqn:Ex. revert s Hs Ex. induction H as [x|x u y (a & Ha & Hu) _ IH]; intros s Hs ->.
  - exists s. by split_and!; [|done|apply rtc_refl].
  - destruct (proj2 E2 s a u Hs Hu) as (v & Hv & -> & Hsv). destruct (IH v Hv eq_refl) as (t & Ht & -> & Hr).
    exists t. split_and!; [done|done|]. apply (rtc_l _ _ v); [by exists a|done].
Qed.

Lemma embedding_up R : simulation tau step1 step2 R ->
  simulation tau step step (fun x y => exists s t, dom1 s /\ dom2 t /\ x = f1 s /\ y = f2 t /\ R s t).
Proof.
  intros H x y a x' (s & t & Hs & Ht & -> & -> & HR) Hx. destruct (proj2 E1 s a x' Hs Hx) as (s' & Hs' & -> & Hst).
  destruct (H s t a s' HR Hst) as [[Ha HR']|(u & t' & Hr & Hu & Hut & Ht')].
  - left. split; [done|]. by exists s', t.
  - destruct (embedding_rtc t u Ht Hr) as [Hdu Hr']. destruct (proj1 E2 u a t' Hdu Hut) as [Hdt Hut'].
    right. exists (f2 u), (f2 t'). split_and!; [done|by exists s, u|done|by exists s', t'].
Qed.

Lemma embedding_down Q : simulation tau step step Q -> simulation tau step1 step2 (fun s t => dom1 s /\ dom2 t /\ Q (f1 s) (f2 t)).
Proof.
  intros H s t a s' (Hs & Ht & HQ) Hst. destruct (proj1 E1 s a s' Hs Hst) as [Hs' Hst'].
  destruct (H (f1 s) (f2 t) a (f1 s') HQ Hst') as [[Ha HQ']|(u & v & Hr & Hu & Huv & Hv)].
  - left. by split.
  - destruct (embedding_rtc_inv t u Ht Hr) as (t1 & Ht1 & -> & Hr1). destruct (proj2 E2 t1 a v Ht1 Huv) as (t2 & Ht2 & -> & H12).
    right. by exists t1, t2.
Qed.

End Embedding.

(** Bisimilarity of states of two parts of a transition system. *)
Lemma embedding_bisimilar {A S1 S2 S : Type} (tau : option A) (step1 : S1 -> A -> S1 -> Prop) (step2 : S2 -> A -> S2 -> Prop)
    (step : S -> A -> S -> Prop) f1 f2 (dom1 : S1 -> Prop) (dom2 : S2 -> Prop) s t :
  embedding step1 step f1 dom1 -> embedding step2 step f2 dom2 -> dom1 s -> dom2 t ->
  bisimilar tau step1 step2 s t <-> bisimilar tau step step (f1 s) (f2 t).
Proof.
  intros E1 E2 Hs Ht. split; intros (R & [R1 R2] & HR).
  - exists (fun x y => exists s t, dom1 s /\ dom2 t /\ x = f1 s /\ y = f2 t /\ R s t). split; [|by exists s, t].
    split; [by apply (embedding_up tau step1 step2)|]. pose proof (embedding_up tau step2 step1 step f2 f1 dom2 dom1 E2 E1 _ R2) as H.
    intros y x a y' (u & v & Hu & Hv & -> & -> & Huv) Hst.
    destruct (H (f2 v) (f1 u) a y') as [[Ha (v' & u' & ? & ? & E3 & E4 & ?)]|(w & w' & Hr & (v1 & u1 & ? & ? & ? & -> & ?) & Hw & (v2 & u2 & ? & ? & -> & -> & ?))]; [by exists v, u|done|left|right].
    + split; [done|]. exists u', v'. by split_and!.
    + exists (f1 u1), (f1 u2). split_and!; [done|by exists u1, v1|done|by exists u2, v2].
  - exists (fun s t => dom1 s /\ dom2 t /\ R (f1 s) (f2 t)). split; [|done].
    split; [by apply (embedding_down tau step1 step2 step)|]. pose proof (embedding_down tau step2 step1 step f2 f1 dom2 dom1 E2 E1 _ R2) as H.
    intros y x a y' (Hx & Hy & Hxy) Hst.
    destruct (H y x a y') as [[Ha (? & ? & ?)]|(w & w' & Hr & (? & ? & ?) & Hw & (? & ? & ?))]; [done|done|by left|right].
    exists w, w'. by split_and!.
Qed.

(** ** Divergence *)

(** The transitions with, if divergence is explicit, an observable loop (the
    boolean of the label) at every state that is on a cycle of internal steps. *)
Definition dstep {A S : Type} (tau : A) (explicit : bool) (step : S -> A -> S -> Prop) (s : S) (a : A * bool) (t : S) : Prop :=
  if a.2 then explicit = true /\ a.1 = tau /\ t = s /\ tc (fun x y => step x tau y) s s else step s a.1 t.

Definition dtau {A : Type} (tau : A) (branching : bool) : option (A * bool) := if branching then Some (tau, false) else None.

Lemma embedding_dstep {A S1 S : Type} (tau : A) explicit (step1 : S1 -> A -> S1 -> Prop) (step : S -> A -> S -> Prop) f dom :
  (forall s t, f s = f t -> s = t) -> embedding step1 step f dom -> embedding (dstep tau explicit step1) (dstep tau explicit step) f dom.
Proof.
  intros Hf E. assert (Hup : forall s t, dom s -> tc (fun x y => step1 x tau y) s t -> tc (fun x y => step x tau y) (f s) (f t)).
  { intros s t Hs H. induction H as [s t H|s u t H _ IH]; [apply tc_once; by apply E|]. destruct (proj1 E s tau u Hs H) as [? ?]. eapply tc_l; eauto. }
  assert (Hdown : forall s y, dom s -> tc (fun x y => step x tau y) (f s) y -> exists t, y = f t /\ tc (fun x y => step1 x tau y) s t).
  { intros s y Hs H. remember (f s) as x eqn:Ex. revert s Hs Ex. induction H as [x y H|x u y H _ IH]; intros s Hs ->.
    - destruct (proj2 E s tau y Hs H) as (t & _ & -> & Ht). exists t. split; [done|by apply tc_once].
    - destruct (proj2 E s tau u Hs H) as (v & Hv & -> & Hsv). destruct (IH v Hv eq_refl) as (t & -> & Hr). exists t. split; [done|by apply (tc_l _ s v)]. }
  split; intros s [a []] t Hs; unfold dstep; cbn [fst snd].
  - intros (He & -> & -> & Hc). split; [done|]. split_and!; auto.
  - apply E. done.
  - intros (He & -> & -> & Hc). exists s. destruct (Hdown s (f s) Hs Hc) as (t & Et%Hf & Ht). subst t. by split_and!.
  - apply E. done.
Qed.
