(* ===== verification/LtsMerge.v ===== *)
(** * Merging two transition systems
    ([liblts_merge.h] of [libraries/lts])

    The theorem: when the exception is thrown, the transitions of the result, and
    its number of states, which is not always the sum. *)

From Stdlib Require Import Lia.
From stdpp Require Import base numbers sets list gmap sorting relations strings.
From S2P Require Import Prelude Lts.

#[local] Arguments Nat.ltb : simpl never.
#[local] Arguments Nat.eqb : simpl never.

Section Algorithms.
Context {SL AL : Type} `{!EqDecision SL} `{!EqDecision AL}.
Context (default_label : SL) (tau_action : AL) (pp : AL -> string).
Abbreviation lts := (lts SL AL).

(** ** [merge] *)

(** [std::map<action_label_type, label_index>]: [insert] leaves an existing entry. *)
Fixpoint labs_find (a : AL) (labs : list (AL * nat)) : option nat :=
  match labs with
  | [] => None
  | (b, i) :: labs => if decide (a = b) then Some i else labs_find a labs
  end.

Definition labs_insert (a : AL) (i : nat) (labs : list (AL * nat)) : list (AL * nat) :=
  match labs_find a labs with
  | Some _ => labs
  | None => (a, i) :: labs
  end.

(** The message for label [a] when the two transition systems have hidden it
    differently, as [x] and [y]. *)
Definition incompatible_hidden (a x y : AL) : string :=
  "The action " +:+ pp a +:+ " has incompatible hidden actions " +:+ pp x +:+ " and " +:+ pp y +:+ ".".

(** One label of [l2]; [None] is an index out of range or a failing assertion. *)
Definition merge_label (l2 : lts) (st : option (outcome (lts * list (AL * nat)))) (i : nat)
  : option (outcome (lts * list (AL * nat))) :=
  match st with
  | Some (Returns (l1, labs)) =>
      a ← action_label i l2;
      match labs_find a labs with
      | None =>
          '(l1', new_index) ← add_action tau_action a l1;
          Some (Returns (if is_tau (apply_hidden_label_map i l2)
                         then set_hidden_label_set ({[new_index]} ∪ m_hidden_label_set l1') l1' else l1',
                         labs_insert a (num_action_labels l1) labs))
      | Some new_index =>
          if Bool.eqb (is_tau (apply_hidden_label_map new_index l1)) (is_tau (apply_hidden_label_map i l2))
          then Some (Returns (l1, labs))
          else
            x ← action_label (apply_hidden_label_map new_index l1) l1;
            y ← action_label (apply_hidden_label_map i l2) l2;
            Some (Throws (incompatible_hidden a x y))
      end
  | _ => st
  end.

(** [r.set_label(labs[l.action_label(r.label())])]; [offset] is added to the
    states. *)
Definition relabel_transition (l : lts) (labs : list (AL * nat)) (offset : nat) (t : transition) : option transition :=
  a ← action_label (label t) l;
  Some (Transition (from t + offset) (default 0 (labs_find a labs)) (to t + offset)).

Definition merge (l1 l2 : lts) : option (outcome lts) :=
  let old_nstates := num_states l1 in
  let l1 := set_num_states default_label (num_states l1 + num_states l2) true l1 in
  l1 ← (if has_state_info l1 && has_state_info l2
        then foldl (fun l1 i => l1 ← l1; x ← state_label i l2; Some (add_state default_label x l1).1)
               (Some l1) (seq 0 (num_states l2))
        else Some (clear_state_labels l1));
  let labs := foldl (fun labs i => default labs ((fun a => labs_insert a i labs) <$> action_label i l1)) []
                (seq 0 (num_action_labels l1)) in
  r ← foldl (merge_label l2) (Some (Returns (l1, labs))) (seq 0 (num_action_labels l2));
  match r with
  | Throws message => Some (Throws message)
  | Returns (l1, labs) =>
      trans1 ← mapM (relabel_transition l1 labs 0) (m_transitions l1);
      trans2 ← mapM (relabel_transition l2 labs old_nstates) (m_transitions l2);
      Some (Returns (set_transitions (trans1 ++ trans2) l1))
  end.

(** ** Merging *)

(** [labs] holds exactly the labels [al] with their positions. *)
Definition mirrors (labs : list (AL * nat)) (al : list AL) : Prop :=
  forall a k, labs_find a labs = Some k <-> al !! k = Some a.

Lemma mirrors_snoc labs al a :
  a ∉ al -> mirrors labs al -> mirrors (labs_insert a (length al) labs) (al ++ [a]).
Proof.
  intros Ha Hm. assert (Hnone : labs_find a labs = None).
  { destruct (labs_find a labs) as [k|] eqn:E; [|done]. apply Hm in E. destruct Ha. by eapply list_elem_of_lookup_2. }
  unfold labs_insert. rewrite Hnone. intros b k. cbn. case_decide as E; [subst b|].
  - rewrite lookup_snoc_Some. split; [intros [= <-]; by right|].
    intros [[_ Hk]|[-> _]]; [|done]. destruct Ha. by eapply list_elem_of_lookup_2.
  - rewrite (Hm b k), lookup_snoc_Some. split; [|intros [[_ ?]|[_ ?]]; congruence].
    intros Hb. left. split; [by eapply lookup_lt_Some|done].
Qed.

Lemma initial_labs (l : lts) : NoDup (m_action_labels l) ->
  mirrors (foldl (fun labs i => default labs ((fun a => labs_insert a i labs) <$> action_label i l)) []
             (seq 0 (num_action_labels l))) (m_action_labels l).
Proof.
  intros Hn. enough (Hk : forall k, k <= num_action_labels l ->
    mirrors (foldl (fun labs i => default labs ((fun a => labs_insert a i labs) <$> action_label i l)) [] (seq 0 k))
      (take k (m_action_labels l))).
  { pose proof (Hk (num_action_labels l) (le_n _)) as H. by rewrite take_ge in H. }
  induction k as [|k IH]; intros Hk.
  - intros a i. rewrite take_0. cbn. by rewrite lookup_nil.
  - specialize (IH ltac:(lia)). rewrite seq_S, foldl_snoc. cbn [Nat.add]. unfold num_action_labels in Hk.
    destruct (lookup_lt_is_Some_2 (m_action_labels l) k Hk) as [a Ha]. assert (Ea : action_label k l = Some a) by done. rewrite Ea. cbn [fmap option_fmap option_map default].
    rewrite (take_S_r _ _ _ Ha). set (labs := foldl _ _ _) in *. clearbody labs.
    assert (El : length (take k (m_action_labels l)) = k) by (rewrite length_take; lia).
    pose proof (mirrors_snoc labs (take k (m_action_labels l)) a) as Hs. rewrite El in Hs. apply Hs; [|done]. intros (j & Hj)%list_elem_of_lookup. apply lookup_take_Some in Hj as [Hj Hlt].
    pose proof (NoDup_lookup _ _ _ _ Hn Ha Hj). lia.
Qed.

Section Merge.
Context (l1 l2 : lts) (Hw1 : wf_lts tau_action l1) (Hw2 : wf_lts tau_action l2).

(** The labels of [l2] up to [j] have been merged into [l1]. *)
Record merging (l0 : lts) (j : nat) (lc : lts) (labs : list (AL * nat)) : Prop := {
  merging_frame : exists al hs, lc = set_hidden_label_set hs (set_action_labels al l0);
  merging_prefix : exists ext, m_action_labels lc = m_action_labels l1 ++ ext /\
    forall a, a ∈ ext -> exists j', j' < j /\ m_action_labels l2 !! j' = Some a;
  merging_nodup : NoDup (m_action_labels lc);
  merging_mirrors : mirrors labs (m_action_labels lc);
  merging_hidden : forall k, k < num_action_labels l1 -> k ∈ m_hidden_label_set lc <-> k ∈ m_hidden_label_set l1;
  merging_fresh : forall k, k ∈ m_hidden_label_set lc -> k < length (m_action_labels lc) \/ k ∈ m_hidden_label_set l1;
  merging_done : forall j' a, j' < j -> m_action_labels l2 !! j' = Some a ->
    exists k, m_action_labels lc !! k = Some a /\
      is_tau (apply_hidden_label_map k lc) = is_tau (apply_hidden_label_map j' l2)
}.

Context (Hh1 : forall k, k ∈ m_hidden_label_set l1 -> k < num_action_labels l1).

Lemma is_tau_hidden (l l' : lts) k :
  (k ∈ m_hidden_label_set l <-> k ∈ m_hidden_label_set l') ->
  is_tau (apply_hidden_label_map k l) = is_tau (apply_hidden_label_map k l').
Proof. intros H. unfold apply_hidden_label_map. repeat case_decide; tauto || done. Qed.

(** A label of [l2] that [l1] does not have. *)
Lemma merging_add l0 j al hs labs a :
  let lc := set_hidden_label_set hs (set_action_labels al l0) in
  let hs' := if is_tau (apply_hidden_label_map j l2) then {[length al]} ∪ hs else hs in
  merging l0 j lc labs -> m_action_labels l2 !! j = Some a -> a ∉ al -> j <> 0 ->
  merging l0 (S j) (set_hidden_label_set hs' (set_action_labels (al ++ [a]) l0)) (labs_insert a (length al) labs).
Proof.
  intros lc hs' [_ (ext & Eext & Hext) H3 H4 H5 H6 H7] Ha Hna Hj. cbn in *.
  assert (Hhs : forall k, k <> length al -> k ∈ hs' <-> k ∈ hs) by (intros k Hk; unfold hs'; case_match; set_solver).
  assert (Hl : num_action_labels l1 <= length al) by (unfold num_action_labels; rewrite Eext, length_app; lia).
  assert (Hnew : length al ∉ hs). { intros [?|Hin]%H6; [lia|]. apply Hh1 in Hin. lia. }
  split; cbn.
  - by exists (al ++ [a]), hs'.
  - exists (ext ++ [a]). rewrite Eext, <- app_assoc. split; [done|].
    intros b [(j' & Hj' & Eb)%Hext| ->%list_elem_of_singleton]%elem_of_app; [exists j'|exists j]; (split; [lia|done]).
  - apply NoDup_app. split; [done|]. split; [|apply NoDup_singleton]. intros b Hb ->%list_elem_of_singleton. done.
  - by apply mirrors_snoc.
  - intros k Hk. rewrite Hhs by lia. by apply H5.
  - intros k Hk. rewrite length_app. cbn. destruct (decide (k = length al)) as [->|Hne]; [left; lia|].
    apply Hhs in Hk; [|done]. apply H6 in Hk as [|]; [left; lia|by right].
  - intros j' b Hj' Hb. destruct (decide (j' = j)) as [->|Hne].
    + rewrite Ha in Hb. injection Hb as <-. exists (length al). split; [by rewrite lookup_app_r, Nat.sub_diag by lia|].
      unfold apply_hidden_label_map at 1. cbn. unfold hs'. destruct (is_tau (apply_hidden_label_map j l2)).
      * by rewrite decide_True by set_solver.
      * rewrite decide_False by done. unfold is_tau. apply Nat.eqb_neq. pose proof (wf_tau _ l1 Hw1) as Ht.
        apply lookup_lt_Some in Ht. unfold num_action_labels, const_tau_label_index in *. lia.
    + destruct (H7 j' b ltac:(lia) Hb) as (k & Hk & Ek). exists k. split; [by apply lookup_app_l_Some|].
      rewrite <- Ek. apply is_tau_hidden. cbn. apply Hhs. apply lookup_lt_Some in Hk. lia.
Qed.

(** Label [j] of [l2] is hidden exactly if [l1] hides it, where [l1] has it. *)
Definition compatible_at (j : nat) : Prop := forall i a,
  m_action_labels l1 !! i = Some a -> m_action_labels l2 !! j = Some a ->
  is_tau (apply_hidden_label_map i l1) = is_tau (apply_hidden_label_map j l2).

(** The exception for label [j] of [l2]. *)
Definition incompatible_message (j : nat) (message : string) : Prop := exists i a,
  m_action_labels l1 !! i = Some a /\ m_action_labels l2 !! j = Some a /\
  is_tau (apply_hidden_label_map i l1) <> is_tau (apply_hidden_label_map j l2) /\
  message = incompatible_hidden a (if is_tau (apply_hidden_label_map i l1) then tau_action else a)
    (if is_tau (apply_hidden_label_map j l2) then tau_action else a).

(** What a label stands for once the hidden ones are tau. *)
Lemma action_of_label (l : lts) k a :
  m_action_labels l !! 0 = Some tau_action -> m_action_labels l !! k = Some a ->
  action_of l k = Some (if is_tau (apply_hidden_label_map k l) then tau_action else a).
Proof.
  intros H0 Hk. unfold action_of, is_tau. destruct (Nat.eqb_spec (apply_hidden_label_map k l) const_tau_label_index) as [->|Hne]; [done|].
  unfold apply_hidden_label_map in *. by case_decide.
Qed.

(** A label that [l1] has. *)
Lemma merge_label_old l0 j lc labs a k :
  merging l0 j lc labs -> m_action_labels l2 !! j = Some a -> labs_find a labs = Some k ->
  m_action_labels l1 !! k = Some a /\
  is_tau (apply_hidden_label_map k lc) = is_tau (apply_hidden_label_map k l1) /\
  (is_tau (apply_hidden_label_map k lc) = is_tau (apply_hidden_label_map j l2) -> merging l0 (S j) lc labs).
Proof.
  intros H Ha Ef. apply (merging_mirrors _ _ _ _ H) in Ef as Hk. destruct (merging_prefix _ _ _ _ H) as (ext & Eext & Hext).
  assert (Hk1 : m_action_labels l1 !! k = Some a).
  { rewrite Eext in Hk. apply lookup_app_Some in Hk as [Hk|[_ Hk]]; [done|]. exfalso.
    apply list_elem_of_lookup_2, Hext in Hk as (j' & Hj' & Hja).
    pose proof (NoDup_lookup _ _ _ _ (wf_unique _ l2 Hw2) Ha Hja). lia. }
  split_and!; [done|apply is_tau_hidden, (merging_hidden _ _ _ _ H); by apply lookup_lt_Some in Hk1|].
  intros Et. destruct H as [H1 _ H3 H4 H5 H6 H7]. split; try done.
  - exists ext. split; [done|]. intros b (j' & ? & ?)%Hext. exists j'. split; [lia|done].
  - intros j' b Hj' Hb. destruct (decide (j' = j)) as [->|]; [|apply H7; [lia|done]].
    exists k. rewrite Ha in Hb. by injection Hb as <-.
Qed.

Lemma merge_label_cases l0 j lc labs :
  j < num_action_labels l2 -> merging l0 j lc labs ->
  (~ compatible_at j /\ exists message, merge_label l2 (Some (Returns (lc, labs))) j = Some (Throws message) /\
     incompatible_message j message) \/
  (compatible_at j /\ exists lc' labs', merge_label l2 (Some (Returns (lc, labs))) j = Some (Returns (lc', labs')) /\
     merging l0 (S j) lc' labs').
Proof.
  intros Hj H. destruct (lookup_lt_is_Some_2 (m_action_labels l2) j Hj) as [a Ha].
  unfold merge_label, action_label. rewrite Ha. cbn [mbind option_bind].
  destruct (labs_find a labs) as [k|] eqn:Ef.
  - destruct (merge_label_old l0 j lc labs a k H Ha Ef) as (Hk1 & Et & Hm). rewrite Et in Hm |- *.
    assert (Hat : compatible_at j <-> is_tau (apply_hidden_label_map k l1) = is_tau (apply_hidden_label_map j l2)).
    { split; [intros Hc; by apply (Hc k a)|]. intros E i b Hi Hb. assert (b = a) as -> by congruence.
      by rewrite (NoDup_lookup _ _ _ _ (wf_unique _ l1 Hw1) Hi Hk1). }
    destruct (Bool.eqb _ _) eqn:Eb; [right|left].
    + apply eqb_prop in Eb. split; [by apply Hat|]. exists lc, labs. auto.
    + assert (Hne : is_tau (apply_hidden_label_map k l1) <> is_tau (apply_hidden_label_map j l2)) by (intros E; by rewrite E, eqb_reflx in Eb).
      split; [by intros Hc%Hat|]. destruct (merging_prefix _ _ _ _ H) as (ext & Eext & _).
      assert (Hc : forall i b, m_action_labels l1 !! i = Some b -> m_action_labels lc !! i = Some b)
        by (intros i b Hi; rewrite Eext; by apply lookup_app_l_Some).
      pose proof (action_of_label lc k a (Hc _ _ (wf_tau _ l1 Hw1)) (Hc _ _ Hk1)) as E1.
      pose proof (action_of_label l2 j a (wf_tau _ l2 Hw2) Ha) as E2. unfold action_of in E1, E2. rewrite Et in E1.
      unfold action_label. rewrite E1. cbn [mbind option_bind]. rewrite E2. cbn [mbind option_bind].
      eexists. split; [done|]. by exists k, a.
  - right. pose proof H as [(al & hs & ->) (ext & Eext & _) _ H4 _ _ _]. cbn in H4, Eext.
    assert (Hna : a ∉ al). { intros (k & Hk)%list_elem_of_lookup. apply H4 in Hk. congruence. }
    assert (Hn1 : forall i, m_action_labels l1 !! i <> Some a).
    { intros i Hi. apply Hna. rewrite Eext. apply elem_of_app. left. by eapply list_elem_of_lookup_2. }
    assert (Htau : a <> tau_action) by (intros ->; apply (Hn1 0), (wf_tau _ l1 Hw1)).
    assert (Hj0 : j <> 0). { intros ->. rewrite (wf_tau _ l2 Hw2) in Ha. congruence. }
    split; [intros i b Hi Hb; assert (b = a) as -> by congruence; by destruct (Hn1 i)|].
    unfold add_action. rewrite !decide_False by done. cbn [mbind option_bind].
    eexists _, _. split; [done|]. pose proof (merging_add l0 j al hs labs a H Ha Hna Hj0) as Hm.
    by destruct (is_tau (apply_hidden_label_map j l2)).
Qed.

Lemma merge_labels_spec l0 labs0 k :
  k <= num_action_labels l2 -> m_action_labels l0 = m_action_labels l1 ->
  m_hidden_label_set l0 = m_hidden_label_set l1 -> mirrors labs0 (m_action_labels l1) ->
  (exists j message, j < k /\ ~ compatible_at j /\ incompatible_message j message /\
     foldl (merge_label l2) (Some (Returns (l0, labs0))) (seq 0 k) = Some (Throws message)) \/
  ((forall j, j < k -> compatible_at j) /\
   exists lc labs, foldl (merge_label l2) (Some (Returns (l0, labs0))) (seq 0 k) = Some (Returns (lc, labs)) /\ merging l0 k lc labs).
Proof.
  intros Hk Ea Eh Hm. induction k as [|k IH].
  - right. split; [lia|]. exists l0, labs0. split; [done|]. split; rewrite ?Ea, ?Eh; try done.
    + exists (m_action_labels l0), (m_hidden_label_set l0). by destruct l0.
    + exists []. rewrite app_nil_r. split; [done|]. intros a H. by apply elem_of_nil in H.
    + apply (wf_unique _ l1 Hw1).
    + intros j' H. by right.
    + lia.
  - rewrite seq_S, foldl_snoc. destruct IH as [(j & message & Hj & Hn & Hmsg & E)|[Hall (lc & labs & E & H)]]; [lia| |]; rewrite E.
    + left. exists j, message. split; [lia|done].
    + destruct (merge_label_cases l0 k lc labs ltac:(lia) H) as [[Hn (message & E' & Hmsg)]|[Hc Hm']]; [left|right].
      * exists k, message. split; [lia|done].
      * split; [|done]. intros j Hj. destruct (decide (j = k)) as [->|]; [done|]. apply Hall. lia.
Qed.

(** The states: [add_state] is called for states that were already added. *)
Context (Hl2 : has_state_info l2 = true -> length (m_state_labels l2) = num_states l2).

Definition merged_states : nat :=
  num_states l1 + num_states l2 + (if has_state_info l2 && (0 <? num_states l1 + num_states l2) then num_states l2 else 0).

(** A transition system with the transitions and labels of [l1] and [n] states. *)
Definition same_but_states (n : nat) (l : lts) : Prop :=
  m_nstates l = n /\ m_init_state l = m_init_state l1 /\ m_transitions l = m_transitions l1 /\
  m_action_labels l = m_action_labels l1 /\ m_hidden_label_set l = m_hidden_label_set l1.

Lemma add_states_loop l n k :
  k <= num_states l2 -> has_state_info l2 = true -> same_but_states n l ->
  exists l', foldl (fun l1 i => l1 ← l1; x ← state_label i l2; Some (add_state default_label x l1).1) (Some l) (seq 0 k) = Some l' /\
    same_but_states (n + k) l'.
Proof.
  intros Hk Hi Hl. induction k as [|k IH]; [exists l; split; [done|by rewrite Nat.add_0_r]|].
  destruct IH as (l' & E & H); [lia|]. rewrite seq_S, foldl_snoc, E. cbn [mbind option_bind Nat.add].
  specialize (Hl2 Hi). destruct (lookup_lt_is_Some_2 (m_state_labels l2) k ltac:(lia)) as [x Hx]. unfold num_states in *.
  assert (Ex : state_label k l2 = Some x).
  { unfold state_label. rewrite Hl2, Nat.eqb_refl, (proj2 (Nat.ltb_lt k (m_nstates l2)) Hk). done. }
  rewrite Ex. cbn [mbind option_bind]. eexists. split; [done|]. destruct H as (H1 & H2 & H3 & H4 & H5).
  unfold same_but_states, add_state. cbn [fst m_nstates set_nstates m_init_state m_transitions m_action_labels m_hidden_label_set].
  rewrite H1. case_decide; (split_and!; [lia|done..]).
Qed.

Lemma merge_states_spec :
  let l := set_num_states default_label (num_states l1 + num_states l2) true l1 in
  exists l', (if has_state_info l && has_state_info l2
     then foldl (fun l1 i => l1 ← l1; x ← state_label i l2; Some (add_state default_label x l1).1) (Some l) (seq 0 (num_states l2))
     else Some (clear_state_labels l)) = Some l' /\ same_but_states merged_states l' /\
    (has_state_info l2 = false -> m_state_labels l' = []).
Proof.
  intros l. assert (Hl : same_but_states (num_states l1 + num_states l2) l).
  { unfold l, set_num_states, same_but_states. cbn. by case_match. }
  assert (Hi : has_state_info l = (0 <? num_states l1 + num_states l2)).
  { unfold l, set_num_states, has_state_info. cbn. case_match; cbn; unfold vector_resize; by rewrite ?length_resize, ?length_replicate. }
  rewrite Hi. unfold merged_states. destruct (decide (has_state_info l2 = true)) as [E|E].
  - rewrite E. cbn [andb]. rewrite andb_true_r. destruct (0 <? num_states l1 + num_states l2).
    + destruct (add_states_loop l (num_states l1 + num_states l2) (num_states l2) (le_n _) E Hl) as (l' & ? & ?). by exists l'.
    + eexists. split; [done|]. rewrite Nat.add_0_r. done.
  - rewrite (not_true_is_false _ E), andb_false_r. eexists. split; [done|]. cbn [andb]. rewrite Nat.add_0_r. done.
Qed.

Lemma mapM_total {A B} (f : A -> option B) (g : A -> B) xs :
  (forall x, x ∈ xs -> f x = Some (g x)) -> mapM f xs = Some (g <$> xs).
Proof.
  induction xs as [|x xs IH]; intros H; [done|]. cbn. rewrite (H x ltac:(left)). cbn.
  rewrite IH; [done|]. intros y Hy. apply H. by right.
Qed.

Definition shift (n : nat) (e : nat * option AL * nat) : nat * option AL * nat := (e.1.1 + n, e.1.2, e.2 + n).

(** The transitions of the result, given the merged labels. *)
Section Relabel.
Context (l0 lc : lts) (labs : list (AL * nat)) (H : merging l0 (num_action_labels l2) lc labs).

Lemma merging_label1 k a : m_action_labels l1 !! k = Some a -> m_action_labels lc !! k = Some a.
Proof. intros Hk. destruct (merging_prefix _ _ _ _ H) as (ext & -> & _). by apply lookup_app_l_Some. Qed.

Lemma relabel_first t : t ∈ m_transitions l1 ->
  relabel_transition lc labs 0 t = Some t /\ action_of lc (label t) = action_of l1 (label t).
Proof.
  intros Ht. pose proof (wf_label _ l1 Hw1 t Ht) as Hlt. destruct (lookup_lt_is_Some_2 _ _ Hlt) as [a Ha].
  pose proof (merging_label1 _ _ Ha) as Hc. split.
  - unfold relabel_transition, action_label. rewrite Hc. cbn [mbind option_bind].
    rewrite (proj2 (merging_mirrors _ _ _ _ H a (label t)) Hc). cbn. rewrite !Nat.add_0_r. by destruct t.
  - rewrite (action_of_label lc _ a), (action_of_label l1 _ a); try done; [|apply (wf_tau _ l1 Hw1)|apply merging_label1, (wf_tau _ l1 Hw1)].
    by rewrite (is_tau_hidden lc l1 (label t) (merging_hidden _ _ _ _ H _ Hlt)).
Qed.

Lemma relabel_second n t : t ∈ m_transitions l2 ->
  exists k, relabel_transition l2 labs n t = Some (Transition (from t + n) k (to t + n)) /\
    action_of lc k = action_of l2 (label t) /\ k < length (m_action_labels lc).
Proof.
  intros Ht. pose proof (wf_label _ l2 Hw2 t Ht) as Hlt. destruct (lookup_lt_is_Some_2 _ _ Hlt) as [a Ha].
  destruct (merging_done _ _ _ _ H (label t) a Hlt Ha) as (k & Hk & Et). exists k. split; [|split; [|by eapply lookup_lt_Some]].
  - unfold relabel_transition, action_label. rewrite Ha. cbn [mbind option_bind].
    by rewrite (proj2 (merging_mirrors _ _ _ _ H a k) Hk).
  - rewrite (action_of_label lc _ a), (action_of_label l2 _ a); try done; [by rewrite Et|apply (wf_tau _ l2 Hw2)|apply merging_label1, (wf_tau _ l1 Hw1)].
Qed.

Lemma relabel_second_all n ts : (forall t, t ∈ ts -> t ∈ m_transitions l2) ->
  exists ts', mapM (relabel_transition l2 labs n) ts = Some ts' /\
    ((fun t => (from t, action_of lc (label t), to t)) <$> ts')
    = (shift n <$> ((fun t => (from t, action_of l2 (label t), to t)) <$> ts)) /\
    (forall t, t ∈ ts' -> label t < length (m_action_labels lc)).
Proof.
  induction ts as [|t ts IH]; intros Hts; [exists []; split_and!; try done; by intros t ?%elem_of_nil|].
  destruct (relabel_second n t) as (k & E & Ek & Hk); [apply Hts; left|].
  destruct IH as (ts' & E' & Ets' & Hts'); [intros u Hu; apply Hts; by right|].
  exists (Transition (from t + n) k (to t + n) :: ts'). cbn [mapM]. rewrite E. cbn [mbind option_bind]. rewrite E'.
  split; [done|]. split; [rewrite !fmap_cons, Ets'; cbn [from label to]; by rewrite Ek|].
  intros u [->|Hu]%elem_of_cons; [done|auto].
Qed.

End Relabel.

(** The labels both have are hidden in both or in neither. *)
Definition compatible : Prop := forall j, j < num_action_labels l2 -> compatible_at j.

(** The result is well-formed. *)
Lemma merged_wf l0 lc labs (H : merging l0 (num_action_labels l2) lc labs) ts2 :
  let l := set_transitions (m_transitions l1 ++ ts2) lc in
  (forall t, t ∈ ts2 -> label t < length (m_action_labels lc)) -> m_nstates l = merged_states ->
  behaviour l = behaviour l1 ++ (shift (num_states l1) <$> behaviour l2) -> wf_lts tau_action l.
Proof.
  intros l Hts En Eb.
  assert (Hle : num_states l1 + num_states l2 <= m_nstates l) by (rewrite En; unfold merged_states; apply Nat.le_add_r).
  assert (Hb : forall t, t ∈ m_transitions l -> from t < m_nstates l /\ to t < m_nstates l).
  { intros t Ht. assert (Hin : (from t, action_of l (label t), to t) ∈ behaviour l) by (unfold behaviour; apply list_elem_of_fmap; by exists t).
    rewrite Eb in Hin. apply elem_of_app in Hin as [Hin|Hin].
    - apply list_elem_of_fmap in Hin as (t1 & [= -> _ ->] & Ht1). pose proof (wf_from _ l1 Hw1 t1 Ht1). pose proof (wf_to _ l1 Hw1 t1 Ht1).
      unfold num_states in *. lia.
    - apply list_elem_of_fmap in Hin as (e & [= -> _ ->] & He). apply list_elem_of_fmap in He as (t2 & -> & Ht2). cbn [fst snd].
      pose proof (wf_from _ l2 Hw2 t2 Ht2). pose proof (wf_to _ l2 Hw2 t2 Ht2). unfold num_states in *; lia. }
  split.
  - apply (merging_label1 l0 lc labs H), (wf_tau _ l1 Hw1).
  - apply (merging_nodup _ _ _ _ H).
  - intros t [Ht|Ht]%elem_of_app; [|by apply Hts]. destruct (merging_prefix _ _ _ _ H) as (ext & E & _). cbn.
    rewrite E, length_app. pose proof (wf_label _ l1 Hw1 t Ht). lia.
  - intros t Ht. by apply Hb.
  - intros t Ht. by apply Hb.
Qed.

Lemma merge_spec :
  (~ compatible /\ exists j message, merge l1 l2 = Some (Throws message) /\ incompatible_message j message) \/
  (compatible /\ exists l, merge l1 l2 = Some (Returns l) /\ num_states l = merged_states /\ m_init_state l = m_init_state l1 /\
    behaviour l = behaviour l1 ++ (shift (num_states l1) <$> behaviour l2) /\ wf_lts tau_action l /\
    (has_state_info l2 = false -> m_state_labels l = [])).
Proof.
  unfold merge. destruct merge_states_spec as (l0 & E0 & (S1 & S2 & S3 & S4 & S5) & S6). rewrite E0. cbn [mbind option_bind].
  pose proof (initial_labs l0 ltac:(rewrite S4; apply (wf_unique _ l1 Hw1))) as Hm. set (labs0 := foldl _ [] _) in *.
  rewrite S4 in Hm. destruct (merge_labels_spec l0 labs0 (num_action_labels l2) (le_n _) S4 S5 Hm)
    as [(j & message & Hj & Hn & Hmsg & ->)|[Hc (lc & labs & E1 & H)]]; [left; split; [auto|by exists j, message]|right; split; [done|]].
  rewrite E1. cbn [mbind option_bind]. pose proof H as [(al & hs & Elc) _ _ _ _ _ _].
  assert (Et : m_transitions lc = m_transitions l1) by (by rewrite Elc).
  rewrite Et, (mapM_total (relabel_transition lc labs 0) (fun t => t)) by (intros t Ht; by apply (relabel_first l0 lc labs H)).
  cbn [mbind option_bind].
  destruct (relabel_second_all l0 lc labs H (num_states l1) (m_transitions l2)) as (ts2 & E2 & Eb2 & Hts2); [done|].
  rewrite E2. cbn [mbind option_bind]. rewrite list_fmap_id. set (l := set_transitions _ lc).
  assert (En : m_nstates l = merged_states) by (unfold l; by rewrite Elc).
  assert (Eb : behaviour l = behaviour l1 ++ (shift (num_states l1) <$> behaviour l2)).
  { unfold behaviour, l. cbn [m_transitions set_transitions]. rewrite fmap_app. f_equal; [|exact Eb2].
    apply list_fmap_ext. intros i t Ht. apply list_elem_of_lookup_2 in Ht. f_equal. f_equal.
    by apply (relabel_first l0 lc labs H). }
  exists l. split; [done|]. split_and!; [done|by unfold l; rewrite Elc|done|by apply (merged_wf l0 lc labs H)|].
  unfold l. by rewrite Elc.
Qed.

End Merge.

(** [merge] raises its exception exactly if a label is hidden in one of the
    transition systems only; otherwise the result has the transitions of both,
    those of the second with their states shifted by the number of states of the
    first, with the actions they had.  The number of states, however, is the sum
    only if the second has no state information: with it, its states are counted
    twice. *)
Lemma merge_correct l1 l2 :
  wf_lts tau_action l1 -> wf_lts tau_action l2 ->
  (forall k, k ∈ m_hidden_label_set l1 -> k < num_action_labels l1) ->
  (has_state_info l2 = true -> length (m_state_labels l2) = num_states l2) ->
  (~ compatible l1 l2 -> exists j message, merge l1 l2 = Some (Throws message) /\ incompatible_message l1 l2 j message) /\
  (compatible l1 l2 -> exists l, merge l1 l2 = Some (Returns l) /\
     behaviour l = behaviour l1 ++ (shift (num_states l1) <$> behaviour l2) /\
     m_init_state l = m_init_state l1 /\
     num_states l = num_states l1 + num_states l2 + (if has_state_info l2 then num_states l2 else 0)).
Proof.
  intros Hw1 Hw2 Hh Hl. assert (Hn : merged_states l1 l2 = num_states l1 + num_states l2 + (if has_state_info l2 then num_states l2 else 0)).
  { unfold merged_states. destruct (has_state_info l2); [|done]. cbn [andb].
    destruct (Nat.ltb_spec 0 (num_states l1 + num_states l2)); lia. }
  destruct (merge_spec l1 l2 Hw1 Hw2 Hh Hl) as [[Hc Hm]|(Hc & l & -> & E1 & E2 & E3 & _)].
  - split; [done|by intros].
  - split; [tauto|]. intros _. exists l. by rewrite E1, Hn.
Qed.

End Algorithms.

(** *** Example and witness *)

(** One state each, with a state label: the merged system has three states. *)
Definition one_labelled : lts nat string := mk_lts 1 0 [Transition 0 1 0] [7] ["tau"; "a"]%string ∅.

Lemma merge_states_twice :
  exists l, merge 0 "tau"%string id one_labelled one_labelled = Some (Returns l) /\ num_states l = 3.
Proof. eexists. by vm_compute. Qed.

Lemma one_labelled_wf : wf_lts "tau"%string one_labelled.
Proof.
  split; [done|apply (bool_decide_unpack _); by vm_compute|..];
    intros t Ht; repeat (apply elem_of_cons in Ht as [->|Ht]; [cbn; lia|]); by apply elem_of_nil in Ht.
Qed.

