(* ===== verification/BisimPartition.v ===== *)
(** * The bisimulation partitioner of Groote and Vaandrager
    ([detail/liblts_bisim.h] of [libraries/lts])

    [bisim_partitioner] for strong, branching and divergence preserving branching
    bisimulation, the quotient it builds, and the two functions on top of it,
    [bisimulation_reduce] and [bisimulation_compare].  Counter examples are not
    generated ([generate_counter_examples] is [false]); the consistency check of
    the debug build, which has no effect, is left out.  Vectors that are used as
    stacks have their last element first; [None] is a failing assertion, an access
    outside a vector, or a lack of fuel. *)

From Stdlib Require Import Lia.
From stdpp Require Import base numbers sets list gmap strings.
From S2P Require Import Prelude Lts Scc LtsMerge.

Record non_bottom_state : Type := NonBottom { nb_state : nat; nb_inert : list nat }.

Record block : Type := mk_block {
  state_index : nat;
  block_index : nat;
  parent_block_index : nat;
  bottom_states : list nat;
  non_bottom_states : list non_bottom_state;
  non_inert_transitions : list transition
}.

#[export] Instance block_inhabited : Inhabited block := populate (mk_block 0 0 0 [] [] []).

(** The attributes of a [bisim_partitioner] apart from the transition system. *)
Record partitioner : Type := mk_bisim {
  max_state_index : nat;
  blocks : list block;
  block_index_of_a_state : list nat;
  block_flags : list bool;
  block_is_in_to_be_processed : list bool;
  state_flags : list bool;
  to_be_processed : list nat;
  BL : list nat
}.

Definition set_flags (bf sf : list bool) (bl : list nat) (p : partitioner) : partitioner :=
  mk_bisim (max_state_index p) (blocks p) (block_index_of_a_state p) bf (block_is_in_to_be_processed p) sf
    (to_be_processed p) bl.

Definition set_queue (is_in : list bool) (q : list nat) (p : partitioner) : partitioner :=
  mk_bisim (max_state_index p) (blocks p) (block_index_of_a_state p) (block_flags p) is_in (state_flags p) q (BL p).

(** ** [order_on_tau_reachability] *)

(** The map of inert transitions, the new vector of states, and the visited ones. *)
Definition ordering : Type := gmap nat (list nat) * list non_bottom_state * gset nat.

Fixpoint order_recursively_on_tau_reachability (fuel : nat) (s : nat) (st : ordering) : option ordering :=
  match fuel with
  | 0 => None
  | S fuel =>
      match st.1.1 !! s with
      | None => Some st
      | Some inert_transitions =>
          if decide (s ∈ st.2) then Some st else
          st ← foldl (fun st t => st ← st; order_recursively_on_tau_reachability fuel t st)
                 (Some (st.1, {[s]} ∪ st.2)) inert_transitions;
          Some (<[s := []]> st.1.1, st.1.2 ++ [NonBottom s (default [] (st.1.1 !! s))], st.2)
      end
  end.

Definition order_on_tau_reachability (non_bottom_states : list non_bottom_state) : option (list non_bottom_state) :=
  let inert_transition_map := foldl (fun m k => <[nb_state k := nb_inert k]> m) ∅ non_bottom_states in
  st ← foldl (fun st k => st ← st; order_recursively_on_tau_reachability (S (length non_bottom_states)) (nb_state k) st)
         (Some (inert_transition_map, [], ∅)) non_bottom_states;
  Some st.1.2.

Section Partitioner.
Context {SL AL : Type} `{!EqDecision SL} `{!EqDecision AL}.
Abbreviation lts := (lts SL AL).

(** ** [create_initial_partition] *)

(** [last_non_stored_state_number], [bottom_state], [current_inert_transitions]
    and the vectors of [initial_partition]. *)
Record initial : Type := mk_initial {
  last_non_stored : nat;
  bottom_state : bool;
  current_inert : list nat;
  init_bottom : list nat;
  init_non_bottom : list non_bottom_state;
  init_non_inert : list transition
}.

Section Algorithm.
Context (aut : lts) (branching preserve_divergences : bool).

Definition is_silent (t : transition) : bool := branching && is_tau (apply_hidden_label_map (label t) aut).

(** "if (branching && aut.is_tau(...))" *)
Definition scan_transition (t : transition) (st : initial) : initial :=
  if is_silent t then
    if preserve_divergences && (from t =? to t)
    then mk_initial (last_non_stored st) (bottom_state st) (current_inert st) (init_bottom st) (init_non_bottom st)
           (init_non_inert st ++ [Transition (from t) const_tau_label_index (to t)])
    else mk_initial (last_non_stored st) false (current_inert st ++ [to t]) (init_bottom st) (init_non_bottom st)
           (init_non_inert st)
  else st.

(** "store the current from state" *)
Definition store_state (s : nat) (st : initial) : option initial :=
  let bottom := init_bottom st ++ seq (last_non_stored st) (s - last_non_stored st) in
  if Nat.max (last_non_stored st) s =? s then
    Some (if bottom_state st
          then mk_initial (S s) true (current_inert st) (bottom ++ [s]) (init_non_bottom st) (init_non_inert st)
          else mk_initial (S s) true [] bottom (init_non_bottom st ++ [NonBottom s (current_inert st)])
                 (init_non_inert st))
  else None.

Fixpoint initial_loop (trans : list transition) (st : initial) : option initial :=
  match trans with
  | [] => Some st
  | t :: trans =>
      let st := scan_transition t st in
      st ← (if match trans with [] => true | next :: _ => negb (from t =? from next) end
            then store_state (from t) st else Some st);
      initial_loop trans st
  end.

(** The partition with one block, and the transitions as they have been sorted. *)
Definition create_initial_partition : option (partitioner * lts) :=
  let trans := sort_transitions (m_transitions aut) (m_hidden_label_set aut) src_lbl_tgt in
  st ← initial_loop trans (mk_initial 0 true [] [] [] []);
  let bottom := init_bottom st ++ seq (last_non_stored st) (num_states aut - last_non_stored st) in
  non_bottom ← order_on_tau_reachability (init_non_bottom st);
  let trans1 := sort_transitions trans (m_hidden_label_set aut) lbl_tgt_src in
  let non_inert := init_non_inert st ++ filter (fun t => is_silent t = false) trans1 in
  Some (mk_bisim 1 [mk_block 0 0 0 bottom non_bottom non_inert] (replicate (num_states aut) 0) [false] [false]
          (replicate (num_states aut) false) [] [],
        set_transitions trans1 aut).

(** ** [split_the_blocks_in_BL] *)

(** The local variables of the loop over the non-bottom states: the block of every
    state, the flagged and non flagged non-bottom states, the new non-inert
    transitions, the states that become bottom states, [partition_is_unstable]. *)
Record scanning : Type := mk_scanning {
  sc_index : list nat;
  sc_flagged : list non_bottom_state;
  sc_non_flagged : list non_bottom_state;
  sc_non_inert : list transition;
  sc_new_bottom : list nat;
  sc_unstable : bool
}.

(** "all_transitions_end_in_unflagged_block", with the write to the first one that
    does not. *)
Fixpoint all_in_block (new_block1 new_block2 : nat) (inert_transitions : list nat) (bi : list nat) : bool * list nat :=
  match inert_transitions with
  | [] => (true, bi)
  | l :: ls =>
      if negb (bi !!! l =? new_block1) then (false, <[l := new_block2]> bi)
      else all_in_block new_block1 new_block2 ls bi
  end.

(** The loop that separates the transitions that stay inert; what became
    non-inert, the remaining ones, and the block of every state. *)
Definition separate_inert (new_block1 new_block2 k : nat)
    (v : list transition * list nat * list nat) (l : nat) : list transition * list nat * list nat :=
  let '(non_inert, remaining, bi) := v in
  if bi !!! l =? new_block1 then (non_inert ++ [Transition k const_tau_label_index l], remaining, bi)
  else (non_inert, remaining ++ [l], <[l := new_block2]> bi).

Definition scan_non_bottom (flags : list bool) (new_block1 new_block2 : nat) (st : scanning) (k : non_bottom_state) :
    scanning :=
  let '(all_unflagged, bi) :=
    if negb (flags !!! nb_state k) then all_in_block new_block1 new_block2 (nb_inert k) (sc_index st)
    else (false, sc_index st) in
  if all_unflagged then
    mk_scanning (<[nb_state k := new_block1]> bi) (sc_flagged st) (sc_non_flagged st ++ [k]) (sc_non_inert st)
      (sc_new_bottom st) (sc_unstable st)
  else
    let '(non_inert, remaining, bi) :=
      foldl (separate_inert new_block1 new_block2 (nb_state k)) (sc_non_inert st, [], bi) (nb_inert k) in
    let bi := <[nb_state k := new_block2]> bi in
    if decide (remaining = []) then
      mk_scanning bi (sc_flagged st) (sc_non_flagged st) non_inert (sc_new_bottom st ++ [nb_state k]) true
    else
      mk_scanning bi (sc_flagged st ++ [NonBottom (nb_state k) remaining]) (sc_non_flagged st) non_inert
        (sc_new_bottom st) (sc_unstable st).

(** "the non-inert transitions are distributed over both blocks" *)
Definition distribute (new_block1 new_block2 : nat) (v : list transition * list transition * list nat) (t : transition) :
    list transition * list transition * list nat :=
  let '(non_flagged, flagged, bi) := v in
  if bi !!! to t =? new_block1 then (non_flagged ++ [t], flagged, bi)
  else (non_flagged, flagged ++ [t], <[to t := new_block2]> bi).

(** "reset the state flags" *)
Definition reset_flags (b : block) (flags : list bool) : list bool :=
  foldl (fun f s => <[s := false]> f) flags (bottom_states b ++ (nb_state <$> non_bottom_states b)).

(** The body of the loop over [BL]. *)
Definition split_block (st : partitioner * bool) (i1 : nat) : option (partitioner * bool) :=
  let '(p, partition_is_unstable) := st in
  b ← blocks p !! i1;
  let bf := <[i1 := false]> (block_flags p) in
  let flags := state_flags p in
  let flagged_states := filter (fun s => flags !!! s = true) (bottom_states b) in
  let non_flagged_states := filter (fun s => flags !!! s = false) (bottom_states b) in
  let new_block1 := length (blocks p) in
  let new_block2 := S new_block1 in
  let bi := foldl (fun bi s => <[s := new_block1]> bi) (block_index_of_a_state p) non_flagged_states in
  if decide (flagged_states = [] /\ non_bottom_states b = [] /\ bottom_states b <> []) then None else
  if decide (non_flagged_states = []) then
    Some (set_flags bf (reset_flags b flags) (BL p) p, partition_is_unstable)
  else
    let bi := foldl (fun bi s => <[s := new_block2]> bi) bi flagged_states in
    let sc := foldl (scan_non_bottom flags new_block1 new_block2)
                (mk_scanning bi [] [] [] [] partition_is_unstable) (non_bottom_states b) in
    let '(non_flagged, flagged, bi) :=
      foldl (distribute new_block1 new_block2) (sc_non_inert sc, [], sc_index sc) (non_inert_transitions b) in
    let b1 := mk_block (max_state_index p) new_block1 i1 non_flagged_states (sc_non_flagged sc) non_flagged in
    let b2 := mk_block (state_index b) new_block2 i1 (flagged_states ++ sc_new_bottom sc) (sc_flagged sc) flagged in
    let old := mk_block (state_index b) (block_index b) (parent_block_index b) [] [] [] in
    Some (mk_bisim (S (max_state_index p)) (<[i1 := old]> (blocks p) ++ [b1; b2]) bi (bf ++ [false; false])
            (<[i1 := false]> (block_is_in_to_be_processed p ++ [true; true])) (reset_flags b2 flags)
            (new_block2 :: new_block1 :: to_be_processed p) (BL p),
          sc_unstable sc).

Definition split_the_blocks_in_BL (st : partitioner * bool) : option (partitioner * bool) :=
  st ← foldl (fun (st : option (partitioner * bool)) i1 => st ← st; split_block st i1) (Some st) (BL st.1);
  Some (set_flags (block_flags st.1) (state_flags st.1) [] st.1, st.2).

(** ** [refine_partition_until_it_becomes_stable] *)

(** "The flag of the starting state of *i is raised and its block is added to BL" *)
Definition mark_transition (t : transition) (p : partitioner) : partitioner :=
  let marked_block_index := block_index_of_a_state p !!! from t in
  if negb (block_flags p !!! marked_block_index)
  then set_flags (<[marked_block_index := true]> (block_flags p)) (<[from t := true]> (state_flags p))
         (BL p ++ [marked_block_index]) p
  else set_flags (block_flags p) (<[from t := true]> (state_flags p)) (BL p) p.

(** The loop over the non-inert transitions of the splitter. *)
Fixpoint splitter_loop (fuel splitter_index i : nat) (st : partitioner * bool) : option (partitioner * bool) :=
  let trans := non_inert_transitions (blocks st.1 !!! splitter_index) in
  match trans !! i with
  | None => Some st
  | Some t =>
      match fuel with
      | 0 => None
      | S fuel =>
          let st := (mark_transition t st.1, st.2) in
          st ← (if match trans !! S i with
                   | None => true
                   | Some next =>
                       negb (apply_hidden_label_map (label t) aut =? apply_hidden_label_map (label next) aut)
                   end
                then split_the_blocks_in_BL st else Some st);
          splitter_loop fuel splitter_index (S i) st
      end
  end.

(** "Put all blocks in to_be_processed" *)
Definition refill (st : partitioner * bool) : partitioner * bool :=
  if decide (to_be_processed st.1 = [] /\ st.2 = true) then
    let n := length (blocks st.1) in
    (set_queue (replicate n true) (reverse (seq 0 n)) st.1, false)
  else st.

Fixpoint refine_loop (fuel : nat) (st : partitioner * bool) : option partitioner :=
  if decide (to_be_processed st.1 = [] /\ st.2 = false) then Some st.1 else
  match fuel with
  | 0 => None
  | S fuel =>
      let '(p, partition_is_unstable) := refill st in
      match to_be_processed p with
      | [] => None
      | splitter_index :: q =>
          let p := set_queue (<[splitter_index := false]> (block_is_in_to_be_processed p)) q p in
          st ← splitter_loop (length (non_inert_transitions (blocks p !!! splitter_index))) splitter_index 0
                 (p, partition_is_unstable);
          refine_loop fuel st
      end
  end.

Definition refine_fuel : nat := (2 * num_states aut + 3) * num_states aut + 2 * num_states aut.

(** At the end the vectors the loop works with are cleared. *)
Definition refine_partition_until_it_becomes_stable (p : partitioner) : option partitioner :=
  p ← refine_loop refine_fuel (p, true);
  Some (mk_bisim (max_state_index p) (blocks p) (block_index_of_a_state p) [] [] [] [] []).

(** "assert(branching || !preserve_divergence)" *)
Definition make_bisim_partitioner : option (partitioner * lts) :=
  if branching || negb preserve_divergences then
    p ← create_initial_partition;
    q ← refine_partition_until_it_becomes_stable p.1;
    Some (q, p.2)
  else None.

End Algorithm.

(** ** The quotient *)

(** [num_eq_classes], [get_eq_class] and [in_same_class] of the partitioner *)
Definition bisim_num_eq_classes (p : partitioner) : nat := max_state_index p.
Definition bisim_get_eq_class (p : partitioner) (s : nat) : nat :=
  state_index (blocks p !!! (block_index_of_a_state p !!! s)).
Definition bisim_in_same_class (p : partitioner) (s t : nat) : bool := bisim_get_eq_class p s =? bisim_get_eq_class p t.

(** [std::set<transition>::insert] *)
Fixpoint set_insert (t : transition) (l : list transition) : list transition :=
  match l with
  | [] => [t]
  | u :: l => if transition_lt t u then t :: u :: l else if transition_lt u t then u :: set_insert t l else u :: l
  end.

(** Whether a transition is kept. *)
Definition keeps_transition (aut : lts) (branching preserve_divergences : bool) (p : partitioner) (t : transition) : bool :=
  negb branching || negb (is_tau (apply_hidden_label_map (label t) aut)) ||
  negb (bisim_get_eq_class p (from t) =? bisim_get_eq_class p (to t)) ||
  (preserve_divergences && (from t =? to t)).

Definition quotient_transition (aut : lts) (p : partitioner) (t : transition) : transition :=
  Transition (bisim_get_eq_class p (from t))
    (if is_tau (apply_hidden_label_map (label t) aut) then const_tau_label_index else label t)
    (bisim_get_eq_class p (to t)).

Definition resulting_transitions (aut : lts) (branching preserve_divergences : bool) (p : partitioner) : list transition :=
  foldl (fun l t => if keeps_transition aut branching preserve_divergences p t
                    then set_insert (quotient_transition aut p t) l else l) [] (m_transitions aut).

Context (default_label : SL) (label_plus : SL -> SL -> SL).

Definition bisim_merge_label_step (p : partitioner) (aut : lts) (new_labels : option (list SL)) (i : nat) :
    option (list SL) :=
  new_labels ← new_labels;
  x ← state_label i aut;
  y ← new_labels !! bisim_get_eq_class p i;
  Some (<[bisim_get_eq_class p i := label_plus y x]> new_labels).

Definition bisim_merge_state_labels (p : partitioner) (aut : lts) : option lts :=
  let n := bisim_num_eq_classes p in
  if has_state_info aut then
    new_labels ← foldl (bisim_merge_label_step p aut) (Some (replicate n default_label)) (reverse (seq 0 (num_states aut)));
    foldl (fun aut i => aut ← aut; x ← new_labels !! i; set_state_label i x aut)
      (Some (set_num_states default_label n true aut)) (seq 0 n)
  else Some (set_num_states default_label n true aut).

Definition bisim_replace_transition_system (p : partitioner) (branching preserve_divergences : bool) (aut : lts) :
    option lts :=
  let aut := foldl (fun aut t => add_transition t aut) (clear_transitions aut)
               (resulting_transitions aut branching preserve_divergences p) in
  aut ← bisim_merge_state_labels p aut;
  set_initial_state (bisim_get_eq_class p (m_init_state aut)) aut.

Definition bisimulation_reduce (branching preserve_divergences : bool) (l : lts) : option lts :=
  l ← (if branching then scc_reduce default_label label_plus l preserve_divergences else Some l);
  p ← make_bisim_partitioner l branching preserve_divergences;
  bisim_replace_transition_system p.1 branching preserve_divergences p.2.

Context (tau_action : AL) (pp : AL -> string).

(** The exception is that of [merge]. *)
Definition destructive_bisimulation_compare (branching preserve_divergences : bool) (l1 l2 : lts) : option (outcome bool) :=
  let init_l2 := m_init_state l2 + num_states l1 in
  r ← merge default_label tau_action pp l1 l2;
  match r with
  | Throws message => Some (Throws message)
  | Returns l1 =>
      l ← (if branching then
             scc_part ← make_scc_partitioner l1;
             l1 ← replace_transition_system default_label label_plus scc_part preserve_divergences l1;
             Some (l1, get_eq_class scc_part init_l2)
           else Some (l1, init_l2));
      p ← make_bisim_partitioner l.1 branching preserve_divergences;
      Some (Returns (bisim_in_same_class p.1 (m_init_state l.1) l.2))
  end.

End Partitioner.
