(* ===== verification/BisimCorrect.v ===== *)
(** * Correctness of the bisimulation partitioner: splitting a block

    The data invariant of the partition ([data]), what one split does to the block
    ([split_block_spec]), and that splits preserve the invariant, never separate
    bisimilar states ([coarse]) and keep what is stable stable. *)

From Stdlib Require Import Lia.
From stdpp Require Import base numbers sets list gmap sorting relations.
From S2P Require Import Prelude Lts Scc SccTheorems Bisimulation LtsMerge BisimPartition.

#[local] Arguments Nat.ltb : simpl never.
#[local] Arguments Nat.eqb : simpl never.

(** ** Lists *)

Lemma StronglySorted_filter {A} (R : relation A) (P : A -> Prop) `{!forall x, Decision (P x)} l :
  StronglySorted R l -> StronglySorted R (filter P l).
Proof.
  induction 1 as [|x l Hs IH Hx]; [constructor|]. rewrite filter_cons. case_decide; [|done]. constructor; [done|].
  rewrite Forall_forall in *. intros y [_ Hy]%list_elem_of_filter. auto.
Qed.

Lemma StronglySorted_all {A} (R : relation A) l : (forall x y, x ∈ l -> y ∈ l -> R x y) -> StronglySorted R l.
Proof.
  induction l as [|x l IH]; intros H; [constructor|]. constructor.
  - apply IH. intros y z Hy Hz. apply H; by right.
  - apply Forall_forall. intros y Hy. apply H; [left|by right].
Qed.

Lemma NoDup_fmap_filter {A B} (f : A -> B) (P : A -> Prop) `{!forall x, Decision (P x)} l :
  NoDup (f <$> l) -> NoDup (f <$> filter P l).
Proof.
  induction l as [|x l IH]; [done|]. cbn [fmap list_fmap]. intros [Hx Hl]%NoDup_cons. rewrite filter_cons. case_decide; [|auto].
  cbn [fmap list_fmap]. apply NoDup_cons. split; [|auto]. intros (y & E & [_ Hy]%list_elem_of_filter)%list_elem_of_fmap.
  apply Hx, list_elem_of_fmap. by exists y.
Qed.

Lemma elem_of_concat_iff {A} (x : A) ls : x ∈ concat ls <-> exists l, x ∈ l /\ l ∈ ls.
Proof.
  induction ls as [|l ls IH]; cbn; [rewrite elem_of_nil; split; [done|]; by intros (? & _ & ?%elem_of_nil)|].
  rewrite elem_of_app, IH. setoid_rewrite elem_of_cons. naive_solver.
Qed.

(** ** The loops of [split_block] *)

(** The states of a block are in order: inert transitions lead to the states
    [known] or to earlier ones. *)
Fixpoint ordered (known : list nat) (nbs : list non_bottom_state) : Prop :=
  match nbs with
  | [] => True
  | k :: nbs => (forall t, t ∈ nb_inert k -> t ∈ known) /\ ordered (known ++ [nb_state k]) nbs
  end.

Lemma ordered_app known l1 l2 :
  ordered known (l1 ++ l2) <-> ordered known l1 /\ ordered (known ++ (nb_state <$> l1)) l2.
Proof.
  revert known. induction l1 as [|k l1 IH]; intros known; cbn [app ordered fmap list_fmap].
  - rewrite app_nil_r. tauto.
  - rewrite IH, <- app_assoc. tauto.
Qed.

Lemma ordered_filter (P : nat -> Prop) `{!forall x, Decision (P x)} (f : non_bottom_state -> non_bottom_state) known known' nbs :
  (forall t, t ∈ known -> P t -> t ∈ known') ->
  (forall k, k ∈ nbs -> P (nb_state k) -> nb_state (f k) = nb_state k /\ forall t, t ∈ nb_inert (f k) -> t ∈ nb_inert k /\ P t) ->
  ordered known nbs -> forall (Q : non_bottom_state -> Prop) `{!forall k, Decision (Q k)},
  (forall k, k ∈ nbs -> Q k -> P (nb_state k)) -> (forall k, k ∈ nbs -> ~ Q k -> P (nb_state k) -> nb_state k ∈ known') ->
  ordered known' (f <$> filter Q nbs).
Proof.
  revert known known'. induction nbs as [|k nbs IH]; intros known known' Hk Hf Ho Q HQd HQ HN; [done|].
  destruct Ho as [H1 H2]. rewrite filter_cons.
  assert (Hf' : forall k, k ∈ nbs -> P (nb_state k) -> nb_state (f k) = nb_state k /\ forall t, t ∈ nb_inert (f k) -> t ∈ nb_inert k /\ P t)
    by (intros k' Hk'; apply Hf; by right).
  case_decide as E.
  - assert (Pk : P (nb_state k)) by (apply HQ; [left|done]). destruct (Hf k ltac:(left) Pk) as [Ek Hi].
    cbn [fmap list_fmap ordered]. split; [intros t Ht; apply Hi in Ht as [? ?]; auto|]. rewrite Ek.
    apply (IH (known ++ [nb_state k])); try done.
    + intros t. rewrite !elem_of_app. intros [?| ->%list_elem_of_singleton] Pt; [left; auto|right; by apply list_elem_of_singleton].
    + intros k' Hk'. apply HQ. by right.
    + intros k' Hk' HQ' Pk'. apply elem_of_app. left. apply HN; [by right|done|done].
  - apply (IH (known ++ [nb_state k])); try done.
    + intros t. rewrite !elem_of_app. intros [?| ->%list_elem_of_singleton] Pt; [auto|]. apply HN; [left|done|done].
    + intros k' Hk'. apply HQ. by right.
    + intros k' Hk'. apply HN. by right.
Qed.

Section Split.
Context (flags : list bool) (new1 new2 : nat) (X : gset nat).
Context (Hnew : new1 <> new2).

(** The block a state of the split block goes to. *)
Definition target (s : nat) : nat := if decide (s ∈ X) then new1 else new2.

(** The index vector once the states [known] have been moved. *)
Record moved (bi J : list nat) (known : list nat) : Prop := {
  moved_length : length J = length bi;
  moved_known : forall s, s ∈ known -> J !! s = Some (target s);
  moved_other : forall s, s ∉ known -> J !! s = bi !! s
}.

Lemma target_new1 s : target s = new1 <-> s ∈ X.
Proof. unfold target. case_decide; naive_solver. Qed.

Lemma moved_test bi J known s : moved bi J known -> s ∈ known -> (J !!! s =? new1) = bool_decide (s ∈ X).
Proof.
  intros HJ Hs. rewrite (list_lookup_total_correct _ _ _ (moved_known _ _ _ HJ s Hs)).
  destruct (Nat.eqb_spec (target s) new1) as [E|E]; [apply target_new1 in E; by rewrite bool_decide_true|].
  rewrite bool_decide_false; [done|]. by rewrite <- target_new1.
Qed.

(** Writes to states that have been moved to [new2] change nothing. *)
Lemma moved_write bi J known s : moved bi J known -> s ∈ known -> s ∉ X -> <[s := new2]> J = J.
Proof.
  intros HJ Hs HX. apply list_insert_id. rewrite (moved_known _ _ _ HJ s Hs). unfold target. by rewrite decide_False.
Qed.

Lemma moved_insert bi J known s : moved bi J known -> s < length bi -> moved bi (<[s := target s]> J) (known ++ [s]).
Proof.
  intros [H1 H2 H3] Hs. split.
  - by rewrite length_insert.
  - intros t. rewrite elem_of_app, list_elem_of_singleton. destruct (decide (t = s)) as [->|Hne].
    + intros _. apply list_lookup_insert_eq. lia.
    + intros [?|?]; [|done]. rewrite list_lookup_insert_ne by done. auto.
  - intros t. rewrite elem_of_app, list_elem_of_singleton. intros Ht. rewrite list_lookup_insert_ne by naive_solver.
    apply H3. naive_solver.
Qed.

Lemma all_in_block_spec bi J known ls : moved bi J known -> (forall l, l ∈ ls -> l ∈ known) ->
  all_in_block new1 new2 ls J = (bool_decide (Forall (fun l => l ∈ X) ls), J).
Proof.
  intros HJ. induction ls as [|l ls IH]; intros Hl; cbn [all_in_block]; [done|].
  rewrite (moved_test bi J known l) by (done || apply Hl; left). destruct (decide (l ∈ X)) as [E|E].
  - rewrite (bool_decide_true _ E). cbn [negb]. rewrite IH by (intros; apply Hl; by right). f_equal.
    apply bool_decide_ext. rewrite Forall_cons. tauto.
  - rewrite (bool_decide_false _ E). cbn [negb]. rewrite (moved_write bi J known l) by (done || apply Hl; left).
    f_equal. symmetry. apply bool_decide_false. rewrite Forall_cons. tauto.
Qed.

Lemma separate_inert_spec bi J known k ni rem ls : moved bi J known -> (forall l, l ∈ ls -> l ∈ known) ->
  foldl (separate_inert new1 new2 k) (ni, rem, J) ls =
    (ni ++ ((fun l => Transition k const_tau_label_index l) <$> filter (fun l => l ∈ X) ls),
     rem ++ filter (fun l => l ∉ X) ls, J).
Proof.
  intros HJ. revert ni rem. induction ls as [|l ls IH]; intros ni rem Hl; cbn [foldl]; [by rewrite !app_nil_r|].
  rewrite !filter_cons. unfold separate_inert at 2. rewrite (moved_test bi J known l) by (done || apply Hl; left).
  destruct (decide (l ∈ X)) as [E|E]; [rewrite (bool_decide_true _ E)|rewrite (bool_decide_false _ E)].
  - rewrite (decide_False (P := l ∉ X)) by tauto. rewrite IH by (intros; apply Hl; by right).
    cbn [fmap list_fmap]. by rewrite <- app_assoc.
  - rewrite (decide_True (P := l ∉ X)) by done.
    rewrite (moved_write bi J known l), IH by (done || intros; apply Hl; by (left || right)). by rewrite <- app_assoc.
Qed.

Lemma distribute_spec bi J known nf fl ts : moved bi J known -> (forall t, t ∈ ts -> to t ∈ known) ->
  foldl (distribute new1 new2) (nf, fl, J) ts =
    (nf ++ filter (fun t => to t ∈ X) ts, fl ++ filter (fun t => to t ∉ X) ts, J).
Proof.
  intros HJ. revert nf fl. induction ts as [|t ts IH]; intros nf fl Hl; cbn [foldl]; [by rewrite !app_nil_r|].
  rewrite !filter_cons. unfold distribute at 2. rewrite (moved_test bi J known (to t)) by (done || apply Hl; left).
  destruct (decide (to t ∈ X)) as [E|E]; [rewrite (bool_decide_true _ E)|rewrite (bool_decide_false _ E)].
  - rewrite (decide_False (P := to t ∉ X)) by tauto. rewrite IH by (intros; apply Hl; by right).
    by rewrite <- app_assoc.
  - rewrite (decide_True (P := to t ∉ X)) by done.
    rewrite (moved_write bi J known (to t)), IH by (done || intros; apply Hl; by (left || right)). by rewrite <- app_assoc.
Qed.

(** What becomes of a non-bottom state. *)
Definition remaining (k : non_bottom_state) : non_bottom_state :=
  NonBottom (nb_state k) (filter (fun l => l ∉ X) (nb_inert k)).
Definition newly_non_inert (k : non_bottom_state) : list transition :=
  (fun l => Transition (nb_state k) const_tau_label_index l) <$> filter (fun l => l ∈ X) (nb_inert k).
Definition stays_non_bottom (k : non_bottom_state) : Prop := nb_state k ∉ X /\ nb_inert (remaining k) <> [].
Definition becomes_bottom (k : non_bottom_state) : Prop := nb_state k ∉ X /\ nb_inert (remaining k) = [].

#[local] Instance stays_non_bottom_dec k : Decision (stays_non_bottom k).
Proof. unfold stays_non_bottom. apply _. Defined.
#[local] Instance becomes_bottom_dec k : Decision (becomes_bottom k).
Proof. unfold becomes_bottom. apply _. Defined.

(** [X] is what the loop finds: unflagged states from which inert transitions only
    lead to [X]. *)
Definition classifies (nbs : list non_bottom_state) : Prop :=
  forall k, k ∈ nbs -> nb_state k ∈ X <-> flags !!! nb_state k = false /\ Forall (fun t => t ∈ X) (nb_inert k).

Lemma scan_non_bottom_spec bi J known fl nf ni nb u k :
  moved bi J known -> (forall t, t ∈ nb_inert k -> t ∈ known) -> nb_state k < length bi -> classifies [k] ->
  exists J', moved bi J' (known ++ [nb_state k]) /\
  scan_non_bottom flags new1 new2 (mk_scanning J fl nf ni nb u) k =
    mk_scanning J' (fl ++ (remaining <$> filter stays_non_bottom [k])) (nf ++ filter (fun k => nb_state k ∈ X) [k])
      (ni ++ concat (newly_non_inert <$> filter (fun k => nb_state k ∉ X) [k]))
      (nb ++ (nb_state <$> filter becomes_bottom [k])) (u || bool_decide (becomes_bottom k)).
Proof.
  intros HJ Hin Hk HX. specialize (HX k ltac:(left)). exists (<[nb_state k := target (nb_state k)]> J).
  split; [by apply moved_insert|]. unfold scan_non_bottom. cbn [sc_index sc_flagged sc_non_flagged sc_non_inert sc_new_bottom sc_unstable].
  assert (E : (if negb (flags !!! nb_state k) then all_in_block new1 new2 (nb_inert k) J else (false, J)) =
    (bool_decide (nb_state k ∈ X), J)).
  { destruct (flags !!! nb_state k) eqn:Ef; cbn [negb].
    - rewrite bool_decide_false; [done|]. rewrite HX. naive_solver.
    - rewrite (all_in_block_spec bi J known) by done. f_equal. apply bool_decide_ext. rewrite HX. naive_solver. }
  rewrite E. unfold target. rewrite !filter_cons, !filter_nil. destruct (decide (nb_state k ∈ X)) as [HkX|HkX].
  - rewrite bool_decide_true by done. rewrite (decide_False (P := stays_non_bottom k)) by (unfold stays_non_bottom; tauto).
    rewrite (decide_False (P := becomes_bottom k)) by (unfold becomes_bottom; tauto).
    rewrite (decide_False (P := nb_state k ∉ X)) by tauto.
    rewrite bool_decide_false by (unfold becomes_bottom; tauto). cbn. by rewrite !app_nil_r, orb_false_r.
  - rewrite bool_decide_false by done. rewrite (separate_inert_spec bi J known) by done. cbn [app].
    change (filter (fun l => l ∉ X) (nb_inert k)) with (nb_inert (remaining k)).
    rewrite (decide_True (P := nb_state k ∉ X)) by done. cbn [fmap list_fmap concat]. rewrite app_nil_r.
    destruct (decide (nb_inert (remaining k) = [])) as [Er|Er].
    + rewrite (decide_False (P := stays_non_bottom k)) by (unfold stays_non_bottom; tauto).
      rewrite (decide_True (P := becomes_bottom k)) by done. rewrite bool_decide_true by done. cbn. by rewrite !app_nil_r, orb_true_r.
    + rewrite (decide_True (P := stays_non_bottom k)) by done.
      rewrite (decide_False (P := becomes_bottom k)) by (unfold becomes_bottom; tauto).
      rewrite bool_decide_false by (unfold becomes_bottom; tauto). cbn. by rewrite !app_nil_r, orb_false_r.
Qed.

Lemma scan_loop_spec bi known nbs : forall J fl nf ni nb u,
  moved bi J known -> ordered known nbs -> (forall k, k ∈ nbs -> nb_state k < length bi) -> classifies nbs ->
  exists J', moved bi J' (known ++ (nb_state <$> nbs)) /\
  foldl (scan_non_bottom flags new1 new2) (mk_scanning J fl nf ni nb u) nbs =
    mk_scanning J' (fl ++ (remaining <$> filter stays_non_bottom nbs)) (nf ++ filter (fun k => nb_state k ∈ X) nbs)
      (ni ++ concat (newly_non_inert <$> filter (fun k => nb_state k ∉ X) nbs))
      (nb ++ (nb_state <$> filter becomes_bottom nbs)) (u || bool_decide (Exists becomes_bottom nbs)).
Proof.
  revert known. induction nbs as [|k nbs IH]; intros known J fl nf ni nb u HJ Ho Hn HX.
  - exists J. cbn. by rewrite !app_nil_r, orb_false_r.
  - destruct Ho as [Hk Ho]. cbn [foldl].
    destruct (scan_non_bottom_spec bi J known fl nf ni nb u k) as (J1 & HJ1 & ->); try done.
    { apply Hn. left. }
    { intros k' ->%list_elem_of_singleton. apply HX. left. }
    destruct (IH (known ++ [nb_state k]) J1 (fl ++ (remaining <$> filter stays_non_bottom [k])) (nf ++ filter (fun k => nb_state k ∈ X) [k])
      (ni ++ concat (newly_non_inert <$> filter (fun k => nb_state k ∉ X) [k])) (nb ++ (nb_state <$> filter becomes_bottom [k]))
      (u || bool_decide (becomes_bottom k))) as (J2 & HJ2 & ->); try done.
    { intros k' Hk'. apply Hn. by right. }
    { intros k' Hk'. apply HX. by right. }
    exists J2. split; [by rewrite <- app_assoc in HJ2|]. change (k :: nbs) with ([k] ++ nbs).
    rewrite !filter_app, !fmap_app, concat_app, <- !app_assoc. f_equal.
    rewrite <- orb_assoc. f_equal. rewrite <- bool_decide_or. apply bool_decide_ext. cbn [app]. by rewrite Exists_cons.
Qed.

End Split.

#[export] Existing Instance stays_non_bottom_dec.
#[export] Existing Instance becomes_bottom_dec.

(** The classification exists. *)
Definition classify_step (flags : list bool) (X : gset nat) (k : non_bottom_state) : gset nat :=
  if decide (flags !!! nb_state k = false /\ Forall (fun t => t ∈ X) (nb_inert k)) then {[nb_state k]} ∪ X else X.

Lemma classify_exists flags nbs : forall known (X0 : gset nat),
  ordered known nbs -> NoDup (nb_state <$> nbs) -> (forall k, k ∈ nbs -> nb_state k ∉ known) ->
  (forall s, s ∈ X0 -> s ∈ known) ->
  exists X : gset nat, (forall s, s ∈ known -> s ∈ X <-> s ∈ X0) /\ classifies flags X nbs /\
    (forall s, s ∈ X -> s ∈ known \/ s ∈ nb_state <$> nbs).
Proof.
  induction nbs as [|k nbs IH]; intros known X0 Ho Hnd Hdis H0.
  - exists X0. split; [done|]. split; [intros k Hk; by apply elem_of_nil in Hk|auto].
  - destruct Ho as [Hk Ho]. cbn [fmap list_fmap] in Hnd. apply NoDup_cons in Hnd as [Hnk Hnd].
    assert (Hk0 : nb_state k ∉ known) by (apply Hdis; left).
    destruct (IH (known ++ [nb_state k]) (classify_step flags X0 k)) as (X & H1 & H2 & H3); try done.
    { intros k' Hk'. rewrite elem_of_app, list_elem_of_singleton. intros [?|E].
      - apply (Hdis k'); [by right|done].
      - apply Hnk. rewrite <- E. by apply list_elem_of_fmap_2. }
    { intros s. unfold classify_step. case_decide; rewrite ?elem_of_union, ?elem_of_singleton, elem_of_app, list_elem_of_singleton; naive_solver. }
    assert (Hkn : forall s, s ∈ known -> s ∈ X <-> s ∈ X0).
    { intros s Hs. rewrite H1 by (apply elem_of_app; by left). unfold classify_step. case_decide; [|done].
      rewrite elem_of_union, elem_of_singleton. naive_solver. }
    exists X. split; [done|]. split.
    + intros k' [->|Hk']%elem_of_cons; [|by apply H2]. rewrite H1 by (apply elem_of_app; right; by apply list_elem_of_singleton).
      assert (EF : Forall (fun t => t ∈ X) (nb_inert k) <-> Forall (fun t => t ∈ X0) (nb_inert k)).
      { rewrite !Forall_forall. split; intros H t Ht; apply Hkn; auto. }
      rewrite EF. unfold classify_step. case_decide as E; [rewrite elem_of_union, elem_of_singleton; tauto|].
      split; [intros Hx; by apply H0 in Hx|tauto].
    + intros s Hs. apply H3 in Hs as [Hs|Hs]; [|right; cbn; by right].
      apply elem_of_app in Hs as [?| ->%list_elem_of_singleton]; [by left|right; cbn; left].
Qed.

(** ** The partition *)

Definition members (b : block) (s : nat) : Prop := s ∈ bottom_states b \/ s ∈ nb_state <$> non_bottom_states b.

Section Correct.
Context {SL AL : Type} `{!EqDecision SL} `{!EqDecision AL} (tau_action : AL).
Context (aut : lts SL AL) (branching preserve_divergences : bool).
Context (Hwf : wf_lts tau_action aut).

Abbreviation hid i := (apply_hidden_label_map i aut).
Abbreviation bi p := (block_index_of_a_state p).

(** The transitions as the partitioner sees them: with [preserve_divergences] a
    tau loop is a visible action of its own. *)
Definition vstep (s : nat) (a : nat * bool) (t : nat) : Prop :=
  lstep aut s a.1 t /\ a.2 = branching && preserve_divergences && is_tau a.1 && (s =? t).

Definition vtau : option (nat * bool) := if branching then Some (const_tau_label_index, false) else None.

Definition silent (s t : nat) : Prop := inert vtau vstep s t.

#[local] Notation "s ≈ t" := (bisimilar vtau vstep vstep s t) (at level 70).

Record data (p : partitioner) : Prop := {
  d_length : length (bi p) = num_states aut;
  d_range : forall s b, bi p !! s = Some b -> b < length (blocks p);
  d_member : forall b blk s, blocks p !! b = Some blk -> members blk s <-> bi p !! s = Some b;
  d_bottom : forall b blk s t, blocks p !! b = Some blk -> s ∈ bottom_states blk -> silent s t -> bi p !! t <> Some b;
  d_nonempty : forall b blk k, blocks p !! b = Some blk -> k ∈ non_bottom_states blk -> nb_inert k <> [];
  d_inert : forall b blk k t, blocks p !! b = Some blk -> k ∈ non_bottom_states blk ->
    t ∈ nb_inert k <-> silent (nb_state k) t /\ bi p !! t = Some b;
  d_nodup : forall b blk, blocks p !! b = Some blk -> NoDup (nb_state <$> non_bottom_states blk);
  d_order : forall b blk, blocks p !! b = Some blk -> ordered (bottom_states blk) (non_bottom_states blk);
  d_non_inert : forall b blk tr, blocks p !! b = Some blk -> tr ∈ non_inert_transitions blk ->
    lstep aut (from tr) (hid (label tr)) (to tr) /\ bi p !! to tr = Some b /\
    (hid (label tr) = const_tau_label_index -> silent (from tr) (to tr) -> bi p !! from tr <> Some b);
  d_complete : forall s a t b blk, lstep aut s a t -> blocks p !! b = Some blk -> bi p !! t = Some b ->
    (a = const_tau_label_index -> silent s t -> bi p !! s <> Some b) ->
    exists tr, tr ∈ non_inert_transitions blk /\ from tr = s /\ hid (label tr) = a /\ to tr = t;
  d_sorted : forall b blk, blocks p !! b = Some blk ->
    StronglySorted (fun t u => hid (label t) <= hid (label u)) (non_inert_transitions blk);
  d_index : forall b blk s, blocks p !! b = Some blk -> members blk s -> state_index blk < max_state_index p;
  d_inj : forall b b' blk blk' s s', blocks p !! b = Some blk -> blocks p !! b' = Some blk' ->
    members blk s -> members blk' s' -> state_index blk = state_index blk' -> b = b';
  d_onto : forall c, c < max_state_index p -> exists b blk s, blocks p !! b = Some blk /\ members blk s /\ state_index blk = c;
  d_count : S (length (blocks p)) = 2 * max_state_index p;
  d_flags : length (state_flags p) = num_states aut;
  d_block_flags : length (block_flags p) = length (blocks p)
}.

(** Bisimilar states are in the same block. *)
Definition coarse (p : partitioner) : Prop :=
  forall s t, s < num_states aut -> t < num_states aut -> s ≈ t -> bi p !! s = bi p !! t.

Definition hits (p : partitioner) (a b s : nat) : Prop :=
  exists blk tr, blocks p !! b = Some blk /\ tr ∈ non_inert_transitions blk /\ from tr = s /\ hid (label tr) = a.

(** All bottom states of the block [b], or none of its states, have a non-inert
    [a]-transition to [S]. *)
Definition stable (p : partitioner) (b a S : nat) : Prop := forall blk, blocks p !! b = Some blk ->
  (forall s, members blk s -> ~ hits p a S s) \/ (forall s, s ∈ bottom_states blk -> hits p a S s).

Definition stable_for (p : partitioner) (unstable : bool) (D : nat -> nat -> Prop) : Prop :=
  unstable = true \/ forall a S b, D a S -> stable p b a S.

Lemma lstep_bound s a t : lstep aut s a t -> s < num_states aut /\ t < num_states aut.
Proof. intros (tr & H & <- & _ & <-). split; [by apply (wf_from _ aut Hwf)|by apply (wf_to _ aut Hwf)]. Qed.

Lemma silent_iff s t : silent s t <-> branching = true /\ tau_step aut s t /\ ~ (preserve_divergences = true /\ s = t).
Proof.
  unfold silent, inert, vtau, vstep, tau_step. split.
  - intros (a & Ha & H1 & H2). destruct branching; [|done]. injection Ha as <-. cbn in *. split; [done|]. split; [done|].
    intros [-> ->]. by rewrite Nat.eqb_refl in H2.
  - intros (-> & H1 & H2). exists (const_tau_label_index, false). split; [done|]. split; [done|]. cbn.
    destruct preserve_divergences; [|done]. cbn. destruct (Nat.eqb_spec s t); [|done]. by destruct H2.
Qed.

Lemma silent_bound s t : silent s t -> s < num_states aut /\ t < num_states aut.
Proof. intros (a & _ & H & _). by apply lstep_bound in H. Qed.

Lemma rtc_silent_bound s t : s < num_states aut -> rtc silent s t -> t < num_states aut.
Proof. intros Hs. induction 1 as [|s u t Hu _ IH]; [done|]. apply IH. by apply silent_bound in Hu as [_ ?]. Qed.

Section Invariant.
Context (p : partitioner) (Hp : data p).

Lemma member_bound b blk s : blocks p !! b = Some blk -> members blk s -> s < num_states aut.
Proof. intros Hb Hs. rewrite (d_member p Hp b blk s Hb) in Hs. apply lookup_lt_Some in Hs. by rewrite (d_length p Hp) in Hs. Qed.

Lemma state_block s : s < num_states aut -> exists b blk, bi p !! s = Some b /\ blocks p !! b = Some blk /\ members blk s.
Proof.
  intros Hs. rewrite <- (d_length p Hp) in Hs. apply lookup_lt_is_Some_2 in Hs as [b Hb].
  destruct (lookup_lt_is_Some_2 _ _ (d_range p Hp s b Hb)) as [blk Hblk]. exists b, blk.
  split; [done|]. split; [done|]. by apply (d_member p Hp b).
Qed.

Lemma bottom_not_non_bottom b blk k : blocks p !! b = Some blk -> k ∈ non_bottom_states blk -> nb_state k ∉ bottom_states blk.
Proof.
  intros Hb Hk Hs. destruct (nb_inert k) as [|t ts] eqn:E; [by apply (d_nonempty p Hp b blk k Hb Hk)|].
  assert (Ht : t ∈ nb_inert k) by (rewrite E; left). apply (d_inert p Hp b blk k t Hb Hk) in Ht as [Ht Ht'].
  by apply (d_bottom p Hp b blk (nb_state k) t Hb Hs Ht).
Qed.

(** The number of classes and of blocks is bounded. *)
Lemma max_state_index_bound : max_state_index p <= num_states aut.
Proof.
  set (f := fun s => match blocks p !! (bi p !!! s) with Some blk => state_index blk | None => 0 end).
  rewrite <- (length_seq (max_state_index p) 0), <- (length_seq (num_states aut) 0), <- (length_fmap f (seq 0 (num_states aut))).
  apply NoDup_incl_length; [apply NoDup_ListNoDup, NoDup_seq|]. intros c Hc. apply in_seq in Hc.
  destruct (d_onto p Hp c ltac:(lia)) as (b & blk & s & Hb & Hs & <-).
  apply list_elem_of_In, list_elem_of_fmap. exists s. split.
  - unfold f. apply (d_member p Hp b blk s Hb) in Hs. by rewrite (list_lookup_total_correct _ _ _ Hs), Hb.
  - apply elem_of_seq. split; [lia|]. cbn. by eapply member_bound.
Qed.

End Invariant.

(** ** One split *)

Lemma foldl_insert_lookup {A} (c : A) l v s : (forall x, x ∈ l -> x < length v) ->
  foldl (fun v x => <[x := c]> v) v l !! s = if decide (s ∈ l) then Some c else v !! s.
Proof.
  revert v. induction l as [|x l IH]; intros v Hl; cbn [foldl]; [by rewrite decide_False by apply not_elem_of_nil|].
  rewrite IH by (intros y Hy; rewrite length_insert; apply Hl; by right).
  destruct (decide (s ∈ l)) as [E|E]; [rewrite decide_True by (by right); done|].
  destruct (decide (s = x)) as [->|Hne].
  - rewrite decide_True by left. apply list_lookup_insert_eq. apply Hl. left.
  - rewrite list_lookup_insert_ne by done. rewrite decide_False; [done|]. rewrite elem_of_cons. tauto.
Qed.

Lemma foldl_insert_length {A} (c : A) l v : length (foldl (fun v x => <[x := c]> v) v l) = length v.
Proof. revert v. induction l as [|x l IH]; intros v; cbn; [done|]. by rewrite IH, length_insert. Qed.

(** The outcome of a split, for the classification [X] and the new index [J]. *)
Definition split_result (p : partitioner) (u : bool) (i1 : nat) (blk : block) (X : gset nat) (J : list nat) :
    partitioner * bool :=
  let flags := state_flags p in
  let n1 := length (blocks p) in
  let nbs := non_bottom_states blk in
  let b1 := mk_block (max_state_index p) n1 i1 (filter (fun s => flags !!! s = false) (bottom_states blk))
              (filter (fun k => nb_state k ∈ X) nbs)
              (concat (newly_non_inert X <$> filter (fun k => nb_state k ∉ X) nbs) ++
               filter (fun t => to t ∈ X) (non_inert_transitions blk)) in
  let b2 := mk_block (state_index blk) (S n1) i1
              (filter (fun s => flags !!! s = true) (bottom_states blk) ++ (nb_state <$> filter (becomes_bottom X) nbs))
              (remaining X <$> filter (stays_non_bottom X) nbs)
              (filter (fun t => to t ∉ X) (non_inert_transitions blk)) in
  let old := mk_block (state_index blk) (block_index blk) (parent_block_index blk) [] [] [] in
  (mk_bisim (S (max_state_index p)) (<[i1 := old]> (blocks p) ++ [b1; b2]) J (<[i1 := false]> (block_flags p) ++ [false; false])
     (<[i1 := false]> (block_is_in_to_be_processed p ++ [true; true])) (reset_flags b2 flags)
     (S n1 :: n1 :: to_be_processed p) (BL p),
   u || bool_decide (Exists (becomes_bottom X) nbs)).

(** The classification of the states of the split block and the new index. *)
Record splits (p : partitioner) (i1 : nat) (blk : block) (X : gset nat) (J : list nat) : Prop := {
  sp_bottom : forall s, s ∈ bottom_states blk -> s ∈ X <-> state_flags p !!! s = false;
  sp_class : classifies (state_flags p) X (non_bottom_states blk);
  sp_length : length J = num_states aut;
  sp_inside : forall s, bi p !! s = Some i1 -> J !! s = Some (target (length (blocks p)) (S (length (blocks p))) X s);
  sp_outside : forall s, bi p !! s <> Some i1 -> J !! s = bi p !! s
}.

Lemma split_block_spec p u i1 blk : data p -> blocks p !! i1 = Some blk ->
  (exists s, members blk s /\ state_flags p !!! s = true) -> filter (fun s => state_flags p !!! s = false) (bottom_states blk) <> [] ->
  exists X J, splits p i1 blk X J /\ split_block (p, u) i1 = Some (split_result p u i1 blk X J).
Proof.
  intros Hp Hb (s0 & Hs0 & Hf0) Hne. set (bs := bottom_states blk) in *. set (nbs := non_bottom_states blk) in *.
  set (n1 := length (blocks p)) in *. set (flags := state_flags p) in *.
  assert (Hbd : forall s, members blk s -> s < length (bi p)).
  { intros s Hs. rewrite (d_length p Hp). by eapply member_bound. }
  destruct (classify_exists flags nbs bs (list_to_set (filter (fun s => flags !!! s = false) bs))) as (X & HX1 & HX2 & _).
  { by apply (d_order p Hp i1). }
  { by apply (d_nodup p Hp i1). }
  { intros k Hk. by apply (bottom_not_non_bottom p Hp i1). }
  { intros s. rewrite elem_of_list_to_set, list_elem_of_filter. tauto. }
  assert (HXb : forall s, s ∈ bs -> s ∈ X <-> flags !!! s = false).
  { intros s Hs. rewrite HX1, elem_of_list_to_set, list_elem_of_filter by done. tauto. }
  set (bi1 := foldl (fun v s => <[s := n1]> v) (bi p) (filter (fun s => flags !!! s = false) bs)).
  set (bi2 := foldl (fun v s => <[s := S n1]> v) bi1 (filter (fun s => flags !!! s = true) bs)).
  assert (Hm : moved n1 (S n1) X (bi p) bi2 bs).
  { assert (Hl1 : length bi1 = length (bi p)) by apply foldl_insert_length.
    assert (Hlk : forall s, bi2 !! s = if decide (s ∈ filter (fun s => flags !!! s = true) bs) then Some (S n1)
      else if decide (s ∈ filter (fun s => flags !!! s = false) bs) then Some n1 else bi p !! s).
    { intros s. unfold bi2, bi1. rewrite !foldl_insert_lookup; [done|..].
      - intros x [_ Hx]%list_elem_of_filter. apply Hbd. by left.
      - intros x [_ Hx]%list_elem_of_filter. fold bi1. rewrite Hl1. apply Hbd. by left. }
    split.
    - unfold bi2. by rewrite foldl_insert_length.
    - intros s Hs. rewrite Hlk. unfold target. destruct (flags !!! s) eqn:Ef.
      + rewrite decide_True by (by apply list_elem_of_filter). rewrite decide_False; [done|]. rewrite HXb by done. congruence.
      + rewrite decide_False by (intros [? _]%list_elem_of_filter; congruence). rewrite decide_True by (by apply list_elem_of_filter).
        rewrite decide_True; [done|]. by apply HXb.
    - intros s Hs. rewrite Hlk, !decide_False by (rewrite list_elem_of_filter; tauto). done. }
  destruct (scan_loop_spec flags n1 (S n1) X ltac:(lia) (bi p) bs nbs bi2 [] [] [] [] u Hm (d_order p Hp i1 blk Hb))
    as (J & HJ & Es); [|done|].
  { intros k Hk. apply Hbd. right. by apply list_elem_of_fmap_2. }
  exists X, J. split.
  - assert (Hk : forall s, s ∈ bs ++ (nb_state <$> nbs) <-> bi p !! s = Some i1).
    { intros s. rewrite elem_of_app. apply (d_member p Hp i1 blk s Hb). }
    split; [done|done| | |].
    + by rewrite (moved_length _ _ _ _ _ _ HJ), (d_length p Hp).
    + intros s Hs. apply (moved_known _ _ _ _ _ _ HJ). by apply Hk.
    + intros s Hs. apply (moved_other _ _ _ _ _ _ HJ). by rewrite Hk.
  - cbn [split_block]. rewrite Hb. cbn [mbind option_bind]. fold bs nbs flags n1.
    rewrite decide_False, decide_False; [|done|].
    + fold bi1 bi2. rewrite Es. cbn [sc_non_inert sc_index sc_new_bottom sc_flagged sc_non_flagged sc_unstable app].
      rewrite (distribute_spec n1 (S n1) X ltac:(lia) (bi p) J _ _ _ _ HJ); [done|].
      intros t Ht. apply (d_non_inert p Hp i1 blk t Hb) in Ht as (_ & Ht & _).
      apply (d_member p Hp i1 blk _ Hb) in Ht. apply elem_of_app. exact Ht.
    + intros (E1 & E2 & _). destruct Hs0 as [Hs|Hs].
      * assert (Hin : s0 ∈ filter (fun s => flags !!! s = true) bs) by (by apply list_elem_of_filter).
        rewrite E1 in Hin. by apply elem_of_nil in Hin.
      * fold nbs in Hs. rewrite E2 in Hs. by apply elem_of_nil in Hs.
Qed.

(** A set of states that bisimilar states can reach by staying bisimilar. *)
Definition respects (F : nat -> Prop) : Prop := forall u y, u < num_states aut -> y < num_states aut -> F u -> u ≈ y ->
  exists y', rtc silent y y' /\ u ≈ y' /\ F y'.

Section SplitInvariant.
Context (p : partitioner) (Hp : data p) (u : bool) (i1 : nat) (blk : block) (Hb : blocks p !! i1 = Some blk).
Context (X : gset nat) (J : list nat) (HS : splits p i1 blk X J).
Context (Hflag : exists s, members blk s /\ state_flags p !!! s = true).
Context (Hunflag : exists s, s ∈ bottom_states blk /\ state_flags p !!! s = false).

Let n1 := length (blocks p).
Let p' := (split_result p u i1 blk X J).1.
Let b1 := mk_block (max_state_index p) n1 i1 (filter (fun s => state_flags p !!! s = false) (bottom_states blk))
            (filter (fun k => nb_state k ∈ X) (non_bottom_states blk))
            (concat (newly_non_inert X <$> filter (fun k => nb_state k ∉ X) (non_bottom_states blk)) ++
             filter (fun t => to t ∈ X) (non_inert_transitions blk)).
Let b2 := mk_block (state_index blk) (S n1) i1
            (filter (fun s => state_flags p !!! s = true) (bottom_states blk) ++
             (nb_state <$> filter (becomes_bottom X) (non_bottom_states blk)))
            (remaining X <$> filter (stays_non_bottom X) (non_bottom_states blk))
            (filter (fun t => to t ∉ X) (non_inert_transitions blk)).
Let old := mk_block (state_index blk) (block_index blk) (parent_block_index blk) [] [] [].

Lemma i1_bound : i1 < n1.
Proof. by apply lookup_lt_Some in Hb. Qed.

(** The blocks afterwards. *)
Lemma split_blocks b b' : blocks p' !! b = Some b' ->
  (b < n1 /\ b <> i1 /\ blocks p !! b = Some b') \/ (b = i1 /\ b' = old) \/ (b = n1 /\ b' = b1) \/ (b = S n1 /\ b' = b2).
Proof.
  pose proof i1_bound as Hi. change (blocks p') with (<[i1 := old]> (blocks p) ++ [b1; b2]). intros H.
  destruct (decide (b < n1)) as [E|E].
  - rewrite lookup_app_l in H by (by rewrite length_insert). destruct (decide (b = i1)) as [->|Hne].
    + rewrite list_lookup_insert_eq in H by done. injection H as <-. right. by left.
    + rewrite list_lookup_insert_ne in H by done. by left.
  - rewrite lookup_app_r, length_insert in H by (rewrite length_insert; unfold n1 in E; lia). fold n1 in H.
    destruct (b - n1) as [|[|m]] eqn:Em; cbn in H; [| |done]; injection H as <-; right; right; [left|right]; split; try done; lia.
Qed.

Lemma split_block_old b b' : b <> i1 -> blocks p !! b = Some b' -> blocks p' !! b = Some b'.
Proof.
  intros Hne H. change (blocks p') with (<[i1 := old]> (blocks p) ++ [b1; b2]).
  rewrite lookup_app_l by (rewrite length_insert; by apply lookup_lt_Some in H). by rewrite list_lookup_insert_ne.
Qed.

Lemma split_block_i1 : blocks p' !! i1 = Some old.
Proof.
  pose proof i1_bound as Hi. change (blocks p') with (<[i1 := old]> (blocks p) ++ [b1; b2]).
  rewrite lookup_app_l by (by rewrite length_insert). by rewrite list_lookup_insert_eq.
Qed.

Lemma split_block_new : blocks p' !! n1 = Some b1 /\ blocks p' !! S n1 = Some b2.
Proof.
  change (blocks p') with (<[i1 := old]> (blocks p) ++ [b1; b2]).
  split; (rewrite lookup_app_r, length_insert by (rewrite length_insert; unfold n1; lia)); fold n1;
    [by rewrite Nat.sub_diag|]. by replace (S n1 - n1) with 1 by lia.
Qed.

Lemma split_index s b : J !! s = Some b <->
  (bi p !! s = Some b /\ b <> i1) \/ (bi p !! s = Some i1 /\ s ∈ X /\ b = n1) \/ (bi p !! s = Some i1 /\ s ∉ X /\ b = S n1).
Proof.
  destruct (decide (bi p !! s = Some i1)) as [E|E].
  - rewrite (sp_inside _ _ _ _ _ HS s E). unfold target. fold n1. case_decide; naive_solver.
  - rewrite (sp_outside _ _ _ _ _ HS s E). naive_solver.
Qed.

Lemma old_index s b : b < n1 -> J !! s = Some b <-> bi p !! s = Some b /\ b <> i1.
Proof. intros Hlt. rewrite split_index. unfold n1 in *. split; [intros [?|[(? & ? & ->)|(? & ? & ->)]]; [done|lia|lia]|tauto]. Qed.

Lemma new_index1 s : J !! s = Some n1 <-> bi p !! s = Some i1 /\ s ∈ X.
Proof.
  rewrite split_index. split; [|tauto]. intros [[H _]|[?|(_ & _ & ?)]]; [|tauto|lia].
  apply (d_range p Hp) in H. unfold n1 in H. lia.
Qed.

Lemma new_index2 s : J !! s = Some (S n1) <-> bi p !! s = Some i1 /\ s ∉ X.
Proof.
  rewrite split_index. split; [|tauto]. intros [[H _]|[(_ & _ & ?)|?]]; [|lia|tauto].
  apply (d_range p Hp) in H. unfold n1 in H. lia.
Qed.

Lemma members_b1 s : members b1 s <-> bi p !! s = Some i1 /\ s ∈ X.
Proof.
  rewrite <- (d_member p Hp i1 blk s Hb). unfold members. cbn. rewrite list_elem_of_filter, !list_elem_of_fmap. split.
  - intros [[H1 H2]|(k & -> & [H1 H2]%list_elem_of_filter)].
    + split; [by left|]. by apply (sp_bottom _ _ _ _ _ HS).
    + split; [right; by exists k|done].
  - intros [[H1|(k & -> & H1)] H2]; [left|right].
    + split; [|done]. by apply (sp_bottom _ _ _ _ _ HS).
    + exists k. split; [done|]. by apply list_elem_of_filter.
Qed.

Lemma members_b2 s : members b2 s <-> bi p !! s = Some i1 /\ s ∉ X.
Proof.
  rewrite <- (d_member p Hp i1 blk s Hb). unfold members. cbn. rewrite elem_of_app, list_elem_of_filter, !list_elem_of_fmap. split.
  - intros [[[H1 H2]|(k & -> & [[H1 _] H2]%list_elem_of_filter)]|(k' & -> & (k & -> & [[H1 _] H2]%list_elem_of_filter)%list_elem_of_fmap)].
    + split; [by left|]. rewrite (sp_bottom _ _ _ _ _ HS) by done. congruence.
    + split; [right; by exists k|done].
    + split; [right; by exists k|done].
  - intros [[H1|(k & -> & H1)] H2]; [left; left|].
    + split; [|done]. rewrite (sp_bottom _ _ _ _ _ HS) in H2 by done. by destruct (state_flags p !!! s).
    + destruct (decide (becomes_bottom X k)) as [E|E].
      * left. right. exists k. split; [done|]. by apply list_elem_of_filter.
      * right. exists (remaining X k). split; [done|]. apply list_elem_of_fmap. exists k. split; [done|]. apply list_elem_of_filter.
        split; [|done]. split; [done|]. intros E'. by apply E.
Qed.

(** Flagged states go to the second block. *)
Lemma flagged_not_X s : members blk s -> state_flags p !!! s = true -> s ∉ X.
Proof.
  intros [Hs|(k & -> & Hk)%list_elem_of_fmap] Hf.
  - rewrite (sp_bottom _ _ _ _ _ HS) by done. congruence.
  - intros [? _]%(sp_class _ _ _ _ _ HS k Hk). congruence.
Qed.

(** Inert transitions from [X] stay in [X]. *)
Lemma silent_inside s t : bi p !! s = Some i1 -> bi p !! t = Some i1 ->
  (exists k, k ∈ non_bottom_states blk /\ nb_state k = s /\ t ∈ nb_inert k) \/ ~ silent s t.
Proof.
  intros Hs Ht. apply (d_member p Hp i1 blk s Hb) in Hs as [Hs|(k & -> & Hk)%list_elem_of_fmap].
  - right. intros H. by apply (d_bottom p Hp i1 blk s t Hb Hs H).
  - destruct (decide (t ∈ nb_inert k)) as [E|E]; [left; by exists k|right]. intros H. apply E. by apply (d_inert p Hp i1 blk).
Qed.

Lemma silent_X s t : bi p !! s = Some i1 -> bi p !! t = Some i1 -> silent s t -> s ∈ X -> t ∈ X.
Proof.
  intros Hs Ht H HX. destruct (silent_inside s t Hs Ht) as [(k & Hk & <- & Hin)|?]; [|done].
  apply (sp_class _ _ _ _ _ HS k Hk) in HX as [_ HX]. rewrite Forall_forall in HX. auto.
Qed.

Lemma split_member b b' s : blocks p' !! b = Some b' -> members b' s <-> J !! s = Some b.
Proof.
  intros H. apply split_blocks in H as [(H1 & H2 & H3)|[[-> ->]|[[-> ->]|[-> ->]]]].
  - rewrite (d_member p Hp b b' s H3), old_index by done. tauto.
  - rewrite old_index by apply i1_bound. unfold members. cbn. rewrite !elem_of_nil. tauto.
  - by rewrite members_b1, new_index1.
  - by rewrite members_b2, new_index2.
Qed.

Lemma split_d_bottom b b' s t : blocks p' !! b = Some b' -> s ∈ bottom_states b' -> silent s t -> J !! t <> Some b.
Proof.
  intros H Hs Hst. apply split_blocks in H as [(H1 & H2 & H3)|[[-> ->]|[[-> ->]|[-> ->]]]].
  - rewrite old_index by done. intros [Ht _]. by apply (d_bottom p Hp b b' s t).
  - by apply elem_of_nil in Hs.
  - rewrite new_index1. intros [Ht _]. apply list_elem_of_filter in Hs as [_ Hs]. by apply (d_bottom p Hp i1 blk s t).
  - rewrite new_index2. intros [Ht HX]. apply elem_of_app in Hs as [[_ Hs]%list_elem_of_filter|Hs].
    + by apply (d_bottom p Hp i1 blk s t).
    + apply list_elem_of_fmap in Hs as (k & -> & [[_ Hr] Hk]%list_elem_of_filter).
      assert (Hin : t ∈ nb_inert (remaining X k)).
      { apply list_elem_of_filter. split; [done|]. by apply (d_inert p Hp i1 blk). }
      rewrite Hr in Hin. by apply elem_of_nil in Hin.
Qed.

Lemma split_d_inert b b' k t : blocks p' !! b = Some b' -> k ∈ non_bottom_states b' ->
  nb_inert k <> [] /\ (t ∈ nb_inert k <-> silent (nb_state k) t /\ J !! t = Some b).
Proof.
  intros H Hk. apply split_blocks in H as [(H1 & H2 & H3)|[[-> ->]|[[-> ->]|[-> ->]]]].
  - split; [by apply (d_nonempty p Hp b b')|]. rewrite (d_inert p Hp b b' k t H3 Hk), old_index by done. tauto.
  - by apply elem_of_nil in Hk.
  - apply list_elem_of_filter in Hk as [HX Hk]. split; [by apply (d_nonempty p Hp i1 blk)|].
    rewrite (d_inert p Hp i1 blk k t Hb Hk), new_index1. split; [|tauto]. intros [Hs Ht]. split; [done|]. split; [done|].
    apply (silent_X (nb_state k) t); try done. apply (d_member p Hp i1 blk _ Hb). right. by apply list_elem_of_fmap_2.
  - apply list_elem_of_fmap in Hk as (k' & -> & [[HX Hr] Hk]%list_elem_of_filter). split; [done|].
    rewrite new_index2. unfold remaining at 1. cbn [nb_inert nb_state].
    rewrite list_elem_of_filter, (d_inert p Hp i1 blk k' t Hb Hk). cbn. tauto.
Qed.

Lemma split_d_nodup b b' : blocks p' !! b = Some b' -> NoDup (nb_state <$> non_bottom_states b').
Proof.
  intros H. apply split_blocks in H as [(H1 & H2 & H3)|[[-> ->]|[[-> ->]|[-> ->]]]].
  - by apply (d_nodup p Hp b).
  - constructor.
  - apply NoDup_fmap_filter. by apply (d_nodup p Hp i1).
  - cbn. rewrite <- list_fmap_compose. change (nb_state ∘ remaining X) with nb_state.
    apply NoDup_fmap_filter. by apply (d_nodup p Hp i1).
Qed.

Lemma split_d_order b b' : blocks p' !! b = Some b' -> ordered (bottom_states b') (non_bottom_states b').
Proof.
  intros H. apply split_blocks in H as [(H1 & H2 & H3)|[[-> ->]|[[-> ->]|[-> ->]]]].
  - by apply (d_order p Hp b).
  - done.
  - cbn. rewrite <- (list_fmap_id (filter _ (non_bottom_states blk))).
    apply (ordered_filter (fun s => s ∈ X) id (bottom_states blk)); try done.
    + intros t Ht HX. apply list_elem_of_filter. split; [|done]. by apply (sp_bottom _ _ _ _ _ HS).
    + intros k Hk HX. split; [done|]. intros t Ht. split; [done|].
      apply (sp_class _ _ _ _ _ HS k Hk) in HX as [_ HX]. rewrite Forall_forall in HX. auto.
    + by apply (d_order p Hp i1).
  - cbn. apply (ordered_filter (fun s => s ∉ X) (remaining X) (bottom_states blk)).
    + intros t Ht HX. apply elem_of_app. left. apply list_elem_of_filter. split; [|done].
      rewrite (sp_bottom _ _ _ _ _ HS) in HX by done. by destruct (state_flags p !!! t).
    + intros k Hk HX. split; [done|]. intros t Ht. cbn in Ht. apply list_elem_of_filter in Ht. tauto.
    + by apply (d_order p Hp i1).
    + by intros k Hk [? _].
    + intros k Hk Hs HX. apply elem_of_app. right. apply list_elem_of_fmap_2, list_elem_of_filter. split; [|done].
      split; [done|]. destruct (decide (nb_inert (remaining X k) = [])); [done|]. by destruct Hs.
Qed.

Lemma hid_tau : hid const_tau_label_index = const_tau_label_index.
Proof. unfold apply_hidden_label_map. by case_decide. Qed.

Lemma newly_elem tr : tr ∈ concat (newly_non_inert X <$> filter (fun k => nb_state k ∉ X) (non_bottom_states blk)) <->
  exists k l, k ∈ non_bottom_states blk /\ (nb_state k ∉ X) /\ l ∈ nb_inert k /\ l ∈ X /\
    tr = Transition (nb_state k) const_tau_label_index l.
Proof.
  rewrite elem_of_concat_iff. split.
  - intros (l & Htr & (k & -> & [HX Hk]%list_elem_of_filter)%list_elem_of_fmap).
    apply list_elem_of_fmap in Htr as (x & -> & [? ?]%list_elem_of_filter). by exists k, x.
  - intros (k & l & Hk & HX & Hl & HlX & ->). exists (newly_non_inert X k). split.
    + apply list_elem_of_fmap. exists l. split; [done|]. by apply list_elem_of_filter.
    + apply list_elem_of_fmap_2. by apply list_elem_of_filter.
Qed.

Lemma nb_inside k : k ∈ non_bottom_states blk -> bi p !! nb_state k = Some i1.
Proof. intros Hk. apply (d_member p Hp i1 blk _ Hb). right. by apply list_elem_of_fmap_2. Qed.

Lemma split_d_non_inert b b' tr : blocks p' !! b = Some b' -> tr ∈ non_inert_transitions b' ->
  lstep aut (from tr) (hid (label tr)) (to tr) /\ J !! to tr = Some b /\
  (hid (label tr) = const_tau_label_index -> silent (from tr) (to tr) -> J !! from tr <> Some b).
Proof.
  intros H Htr. apply split_blocks in H as [(H1 & H2 & H3)|[[-> ->]|[[-> ->]|[-> ->]]]].
  - destruct (d_non_inert p Hp b b' tr H3 Htr) as (Q1 & Q2 & Q3). rewrite !old_index by done.
    split; [done|]. split; [done|]. intros E Hs [Hf _]. by apply Q3.
  - by apply elem_of_nil in Htr.
  - rewrite !new_index1. apply elem_of_app in Htr as [Htr|[HX Htr]%list_elem_of_filter].
    + apply newly_elem in Htr as (k & l & Hk & HkX & Hl & HlX & ->). cbn. rewrite hid_tau.
      apply (d_inert p Hp i1 blk k l Hb Hk) in Hl as [Hs Hl]. split; [by apply silent_iff in Hs as (_ & ? & _)|]. tauto.
    + destruct (d_non_inert p Hp i1 blk tr Hb Htr) as (Q1 & Q2 & Q3). split; [done|]. split; [done|].
      intros E Hs [Hf _]. by apply Q3.
  - apply list_elem_of_filter in Htr as [HX Htr]. rewrite !new_index2.
    destruct (d_non_inert p Hp i1 blk tr Hb Htr) as (Q1 & Q2 & Q3). split; [done|]. split; [done|].
    intros E Hs [Hf _]. by apply Q3.
Qed.

Lemma split_d_complete s a t b b' : lstep aut s a t -> blocks p' !! b = Some b' -> J !! t = Some b ->
  (a = const_tau_label_index -> silent s t -> J !! s <> Some b) ->
  exists tr, tr ∈ non_inert_transitions b' /\ from tr = s /\ hid (label tr) = a /\ to tr = t.
Proof.
  intros Hst H Ht Hc. apply split_blocks in H as [(H1 & H2 & H3)|[[-> ->]|[[-> ->]|[-> ->]]]].
  - rewrite old_index in Ht by done. destruct Ht as [Ht _]. apply (d_complete p Hp s a t b b'); try done.
    intros E Hs Hf. apply (Hc E Hs). by rewrite old_index.
  - rewrite old_index in Ht by apply i1_bound. by destruct Ht.
  - rewrite new_index1 in Ht, Hc. destruct Ht as [Ht HX].
    assert (Hold : (a = const_tau_label_index -> silent s t -> bi p !! s <> Some i1) ->
      exists tr, tr ∈ non_inert_transitions b1 /\ from tr = s /\ hid (label tr) = a /\ to tr = t).
    { intros Hc'. destruct (d_complete p Hp s a t i1 blk Hst Hb Ht Hc') as (tr & Htr & E1 & E2 & E3).
      exists tr. split; [|done]. apply elem_of_app. right. apply list_elem_of_filter. by rewrite E3. }
    destruct (decide (bi p !! s = Some i1)) as [Es|Es]; [|auto].
    destruct (silent_inside s t Es Ht) as [(k & Hk & <- & Hl)|Hn]; [|apply Hold; tauto].
    destruct (decide (a = const_tau_label_index)) as [->|Ea]; [|by apply Hold].
    exists (Transition (nb_state k) const_tau_label_index t). cbn [from label to]. rewrite hid_tau. split; [|done]. apply elem_of_app. left.
    apply newly_elem. exists k, t. split_and!; try done. intros HkX. apply Hc; [done| |done]. by apply (d_inert p Hp i1 blk k t Hb Hk).
  - rewrite new_index2 in Ht, Hc. destruct Ht as [Ht HX].
    destruct (d_complete p Hp s a t i1 blk Hst Hb Ht) as (tr & Htr & E1 & E2 & E3).
    { intros Ea Hs Es. apply (Hc Ea Hs). split; [done|]. intros HsX. by apply HX, (silent_X s t). }
    exists tr. split; [|done]. apply list_elem_of_filter. by rewrite E3.
Qed.

Lemma split_d_sorted b b' : blocks p' !! b = Some b' ->
  StronglySorted (fun t u => hid (label t) <= hid (label u)) (non_inert_transitions b').
Proof.
  intros H. apply split_blocks in H as [(H1 & H2 & H3)|[[-> ->]|[[-> ->]|[-> ->]]]].
  - by apply (d_sorted p Hp b).
  - constructor.
  - assert (H0 : forall tr, tr ∈ concat (newly_non_inert X <$> filter (fun k => nb_state k ∉ X) (non_bottom_states blk)) ->
      hid (label tr) = 0).
    { intros tr (k & l & _ & _ & _ & _ & ->)%newly_elem. apply hid_tau. }
    apply StronglySorted_app_2.
    + intros t v Ht _. rewrite (H0 t Ht). lia.
    + apply StronglySorted_all. intros t v Ht Hv. by rewrite (H0 t Ht), (H0 v Hv).
    + apply StronglySorted_filter. by apply (d_sorted p Hp i1).
  - apply StronglySorted_filter. by apply (d_sorted p Hp i1).
Qed.

(** State numbers: the first block gets a new one, the second one that of the
    block that is split. *)
Lemma split_state_index b b' s : blocks p' !! b = Some b' -> members b' s ->
  (b = n1 /\ state_index b' = max_state_index p) \/
  (exists b0 blk0, blocks p !! b0 = Some blk0 /\ members blk0 s /\ state_index b' = state_index blk0 /\
     ((b0 <> i1 /\ b = b0) \/ (b0 = i1 /\ b = S n1))).
Proof.
  intros H Hs. apply split_blocks in H as [(H1 & H2 & H3)|[[-> ->]|[[-> ->]|[-> ->]]]].
  - right. exists b, b'. split_and!; try done. by left.
  - by destruct Hs as [?%elem_of_nil|?%elem_of_nil].
  - by left.
  - right. exists i1, blk. apply members_b2 in Hs as [Hs _]. apply (d_member p Hp i1 blk s Hb) in Hs. split_and!; try done. by right.
Qed.

Lemma split_d_index b b' s : blocks p' !! b = Some b' -> members b' s -> state_index b' < S (max_state_index p).
Proof.
  intros H Hs. destruct (split_state_index b b' s H Hs) as [[_ ->]|(b0 & blk0 & H1 & H2 & -> & _)]; [lia|].
  pose proof (d_index p Hp b0 blk0 s H1 H2). lia.
Qed.

Lemma split_d_inj b c b' c' s t : blocks p' !! b = Some b' -> blocks p' !! c = Some c' -> members b' s -> members c' t ->
  state_index b' = state_index c' -> b = c.
Proof.
  intros H1 H2 Hs Ht E.
  destruct (split_state_index b b' s H1 Hs) as [[-> E1]|(b0 & blk0 & Q1 & Q2 & E1 & Q3)],
    (split_state_index c c' t H2 Ht) as [[-> E2]|(c0 & blk1 & R1 & R2 & E2 & R3)].
  - done.
  - pose proof (d_index p Hp c0 blk1 t R1 R2). lia.
  - pose proof (d_index p Hp b0 blk0 s Q1 Q2). lia.
  - assert (b0 = c0) as -> by (apply (d_inj p Hp b0 c0 blk0 blk1 s t); congruence). naive_solver.
Qed.

Lemma split_d_onto c : c < S (max_state_index p) -> exists b b' s, blocks p' !! b = Some b' /\ members b' s /\ state_index b' = c.
Proof.
  intros Hc. destruct split_block_new as [N1 N2]. destruct (decide (c = max_state_index p)) as [->|Hne].
  - destruct Hunflag as (s & Hs & Hf). exists n1, b1, s. split; [done|]. split; [|done]. left. by apply list_elem_of_filter.
  - destruct (d_onto p Hp c ltac:(lia)) as (b & b0 & s & H1 & H2 & H3). destruct (decide (b = i1)) as [->|Hb0].
    + rewrite Hb in H1. injection H1 as <-. destruct Hflag as (t & Ht & Hf). exists (S n1), b2, t. split; [done|]. split; [|done].
      apply members_b2. split; [by apply (d_member p Hp i1 blk t Hb)|by apply flagged_not_X].
    + exists b, b0, s. split; [by apply split_block_old|done].
Qed.

Lemma reset_flags_length b f : length (reset_flags b f) = length f.
Proof. unfold reset_flags. apply foldl_insert_length. Qed.

Lemma split_data : data p'.
Proof.
  split.
  - apply (sp_length _ _ _ _ _ HS).
  - intros s b H. change (J !! s = Some b) in H. change (blocks p') with (<[i1 := old]> (blocks p) ++ [b1; b2]).
    rewrite length_app, length_insert. cbn [length]. apply split_index in H as [[H _]|[(_ & _ & ->)|(_ & _ & ->)]]; unfold n1; [|lia..].
    apply (d_range p Hp) in H. lia.
  - apply split_member.
  - apply split_d_bottom.
  - intros b b' k H Hk. by apply (split_d_inert b b' k 0).
  - intros b b' k t H Hk. by apply (split_d_inert b b' k t).
  - apply split_d_nodup.
  - apply split_d_order.
  - apply split_d_non_inert.
  - apply split_d_complete.
  - apply split_d_sorted.
  - apply split_d_index.
  - intros b c b' c' s t. apply split_d_inj.
  - apply split_d_onto.
  - change (blocks p') with (<[i1 := old]> (blocks p) ++ [b1; b2]). change (max_state_index p') with (S (max_state_index p)).
    rewrite length_app, length_insert. cbn [length]. pose proof (d_count p Hp). lia.
  - change (state_flags p') with (reset_flags b2 (state_flags p)). rewrite reset_flags_length. apply (d_flags p Hp).
  - change (block_flags p') with (<[i1 := false]> (block_flags p) ++ [false; false]).
    change (blocks p') with (<[i1 := old]> (blocks p) ++ [b1; b2]). rewrite !length_app, !length_insert. by rewrite (d_block_flags p Hp).
Qed.

(** *** Bisimilar states stay together *)

Context (F : nat -> Prop) (HF : respects F) (Hco : coarse p).
Context (HFl : forall s, members blk s -> state_flags p !!! s = true <-> F s).

Definition inside (s t : nat) : Prop := silent s t /\ bi p !! s = Some i1 /\ bi p !! t = Some i1.
Definition reaches (s : nat) : Prop := exists v, rtc inside s v /\ bi p !! v = Some i1 /\ F v.

Lemma index_bound s b : bi p !! s = Some b -> s < num_states aut.
Proof. intros H. apply lookup_lt_Some in H. by rewrite (d_length p Hp) in H. Qed.

Lemma ordered_reaches nbs : forall known, ordered known nbs -> (forall k, k ∈ nbs -> k ∈ non_bottom_states blk) ->
  (forall s, s ∈ known -> s ∉ X -> reaches s) -> forall k, k ∈ nbs -> nb_state k ∉ X -> reaches (nb_state k).
Proof.
  induction nbs as [|k nbs IH]; intros known Ho Hn Hk k' Hk' HX; [by apply elem_of_nil in Hk'|]. destruct Ho as [H1 H2].
  assert (Hkk : k ∈ non_bottom_states blk) by (apply Hn; left).
  assert (Hr : nb_state k ∉ X -> reaches (nb_state k)).
  { clear HX. intros HX. destruct (state_flags p !!! nb_state k) eqn:Ef.
    - exists (nb_state k). split; [apply rtc_refl|]. split; [by apply nb_inside|].
      apply HFl; [right; by apply list_elem_of_fmap_2|done].
    - destruct (decide (Forall (fun t => t ∈ X) (nb_inert k))) as [Ea|Ea]; [by destruct HX; apply (sp_class _ _ _ _ _ HS k Hkk)|].
      apply not_Forall_Exists in Ea; [|apply _]. apply Exists_exists in Ea as (t & Ht & HtX). cbn in HtX.
      destruct (Hk t (H1 t Ht) HtX) as (v & Hv & ?). exists v. split; [|done]. eapply rtc_l; [|done].
      apply (d_inert p Hp i1 blk k t Hb Hkk) in Ht as [? ?]. split; [done|]. split; [by apply nb_inside|done]. }
  apply elem_of_cons in Hk' as [->|Hk']; [auto|]. apply (IH (known ++ [nb_state k])); try done.
  - intros k0 Hk0. apply Hn. by right.
  - intros s. rewrite elem_of_app, list_elem_of_singleton. intros [?| ->]; auto.
Qed.

Lemma not_X_reaches s : bi p !! s = Some i1 -> s ∉ X -> reaches s.
Proof.
  assert (Hbot : forall s, s ∈ bottom_states blk -> s ∉ X -> reaches s).
  { intros x Hx HX. exists x. split; [apply rtc_refl|]. assert (Hm : members blk x) by (by left).
    split; [by apply (d_member p Hp i1 blk x Hb)|]. apply HFl; [done|].
    rewrite (sp_bottom _ _ _ _ _ HS x Hx) in HX. by destruct (state_flags p !!! x). }
  intros Hs HX. apply (d_member p Hp i1 blk s Hb) in Hs as [Hs|(k & -> & Hk)%list_elem_of_fmap]; [auto|].
  apply (ordered_reaches (non_bottom_states blk) (bottom_states blk)); try done. by apply (d_order p Hp i1).
Qed.

Lemma inside_not_X s t : rtc inside s t -> t ∉ X -> s ∉ X.
Proof.
  induction 1 as [|s v t (H1 & H2 & H3) _ IH]; [done|]. intros Ht Hs. apply (IH Ht). by apply (silent_X s v).
Qed.

Lemma stuttering_inside s t t' : bi p !! s = Some i1 -> t < num_states aut -> s ≈ t -> rtc silent t t' -> s ≈ t' ->
  rtc inside t t' /\ bi p !! t' = Some i1.
Proof.
  intros Hs Hlt Ht Hr. assert (Hin : forall x, x < num_states aut -> s ≈ x -> bi p !! x = Some i1).
  { intros x Hx E. rewrite <- (Hco s x); [done|by eapply index_bound|done|done]. }
  revert Hlt Ht. induction Hr as [t|t v t' Hv Hr IH]; intros Hlt Ht Ht'; [split; [apply rtc_refl|auto]|].
  assert (Hbv : v < num_states aut) by (by apply silent_bound in Hv as [_ ?]).
  assert (Hsv : s ≈ v) by (apply (bisimilar_stuttering vtau vstep s t v t'); [done|by apply rtc_once|done|done]).
  destruct (IH Hbv Hsv Ht') as [H1 H2]. split; [|done]. eapply rtc_l; [|done]. split; [done|]. split; auto.
Qed.

Lemma bisimilar_not_X s v t : rtc inside s v -> bi p !! s = Some i1 -> F v -> s ≈ t -> bi p !! t = Some i1 -> t ∉ X.
Proof.
  intros Hr. revert t. induction Hr as [s|s s' v (Hs1 & Hs2 & Hs3) Hr IH]; intros t Hs Hv Hst Ht.
  - destruct (HF s t) as (t' & Hp1 & Hp2 & Hp3); [by eapply index_bound|by eapply index_bound|done|done|].
    destruct (stuttering_inside s t t') as [Hin Ht']; [done|by eapply index_bound|done..|].
    apply (inside_not_X t t' Hin). apply flagged_not_X; [by apply (d_member p Hp i1 blk t' Hb)|].
    apply HFl; [by apply (d_member p Hp i1 blk t' Hb)|done].
  - destruct Hs1 as (a & Ha & Hsa).
    destruct (bisimilar_simulation vtau vstep s t a s' Hst Hsa) as [[_ Hst']|(t1 & t2 & Ht1 & Hst1 & Ht2 & Hst2)]; [by apply (IH t)|].
    destruct (stuttering_inside s t t1) as [Hin Hti]; [done|by eapply index_bound|done..|].
    assert (Hsil : silent t1 t2) by (by exists a).
    assert (Ht2i : bi p !! t2 = Some i1).
    { rewrite <- (Hco s' t2); [done|by eapply index_bound|by apply silent_bound in Hsil as [_ ?]|done]. }
    apply (inside_not_X t t2); [|by apply (IH t2)]. eapply rtc_r; [done|]. done.
Qed.

Lemma split_coarse : coarse p'.
Proof.
  intros s t Hs Ht Hst. change (J !! s = J !! t). pose proof (Hco s t Hs Ht Hst) as E.
  destruct (decide (bi p !! s = Some i1)) as [Ei|Ei].
  - rewrite E in Ei. assert (Es : bi p !! s = Some i1) by congruence.
    rewrite (sp_inside _ _ _ _ _ HS s Es), (sp_inside _ _ _ _ _ HS t Ei). f_equal. unfold target.
    assert (Hnot : forall x y, bi p !! x = Some i1 -> bi p !! y = Some i1 -> x ≈ y -> x ∉ X -> y ∉ X).
    { intros x y Hx Hy Hxy HX. destruct (not_X_reaches x Hx HX) as (v & Hv & _ & HFv). by apply (bisimilar_not_X x v y). }
    destruct (decide (s ∈ X)) as [H1|H1], (decide (t ∈ X)) as [H2|H2]; try done.
    + by destruct (Hnot t s Ei Es (bisimilar_sym vtau vstep _ _ Hst) H2).
    + by destruct (Hnot s t Es Ei Hst H1).
  - rewrite (sp_outside _ _ _ _ _ HS s Ei), (sp_outside _ _ _ _ _ HS t); [done|congruence].
Qed.

(** *** What is stable stays stable *)

Lemma split_hits a b s : b < n1 -> b <> i1 -> hits p' a b s <-> hits p a b s.
Proof.
  intros Hlt Hne. unfold hits. split; intros (c & tr & Hc & ?); exists c, tr; (split; [|done]).
  - by apply split_blocks in Hc as [(_ & _ & ?)|[[? _]|[[? _]|[? _]]]]; [|lia..].
  - by apply split_block_old.
Qed.

Lemma split_stable_for D : (forall a b, D a b -> b < n1) -> stable_for p u D ->
  stable_for p' (split_result p u i1 blk X J).2 D.
Proof.
  intros HD [Hu|Hst]; [left; cbn; by rewrite Hu|]. change ((split_result p u i1 blk X J).2) with
    (u || bool_decide (Exists (becomes_bottom X) (non_bottom_states blk))).
  destruct (decide (Exists (becomes_bottom X) (non_bottom_states blk))) as [E|E].
  { left. rewrite bool_decide_true by done. apply orb_true_r. }
  right. intros a b c Hab. pose proof (HD a b Hab) as Hlt. destruct (decide (b = i1)) as [->|Hne].
  { intros c' _. left. intros s _ (c0 & tr & Hc0 & Htr & _). rewrite split_block_i1 in Hc0. injection Hc0 as <-.
    by apply elem_of_nil in Htr. }
  intros c' Hc. setoid_rewrite (split_hits a b _ Hlt Hne).
  apply split_blocks in Hc as [(H1 & H2 & H3)|[[-> ->]|[[-> ->]|[-> ->]]]].
  - by apply (Hst a b c Hab).
  - left. by intros s [?%elem_of_nil|?%elem_of_nil].
  - destruct (Hst a b i1 Hab blk Hb) as [H|H]; [left|right].
    + intros s [Hs _]%members_b1. apply H. by apply (d_member p Hp i1 blk s Hb).
    + intros s [_ Hs]%list_elem_of_filter. auto.
  - destruct (Hst a b i1 Hab blk Hb) as [H|H]; [left|right].
    + intros s [Hs _]%members_b2. apply H. by apply (d_member p Hp i1 blk s Hb).
    + intros s [[_ Hs]%list_elem_of_filter|Hs]%elem_of_app; [auto|]. destruct E.
      apply list_elem_of_fmap in Hs as (k & _ & [Hk Hk']%list_elem_of_filter). apply Exists_exists. by exists k.
Qed.

(** *** The flags *)

Lemma split_flags s : s < num_states aut ->
  state_flags p' !! s = if decide (bi p !! s = Some i1) then Some false else state_flags p !! s.
Proof.
  intros Hs. change (state_flags p') with (reset_flags b2 (state_flags p)). unfold reset_flags.
  assert (Hm : s ∈ bottom_states b2 ++ (nb_state <$> non_bottom_states b2) <-> bi p !! s = Some i1 /\ s ∉ X).
  { rewrite elem_of_app. apply members_b2. }
  rewrite foldl_insert_lookup.
  - destruct (decide (s ∈ _)) as [E|E]; [apply Hm in E as [E _]; by rewrite decide_True|].
    destruct (decide (bi p !! s = Some i1)) as [Ei|Ei]; [|done]. destruct (decide (s ∈ X)) as [HX|HX]; [|by destruct E; apply Hm].
    destruct (lookup_lt_is_Some_2 (state_flags p) s) as [f Hf]; [by rewrite (d_flags p Hp)|]. rewrite Hf. f_equal.
    destruct f; [|done]. apply (d_member p Hp i1 blk s Hb) in Ei.
    destruct (flagged_not_X s Ei); [|done]. by rewrite (list_lookup_total_correct _ _ _ Hf).
  - intros x Hx. rewrite (d_flags p Hp). apply elem_of_app in Hx. apply members_b2 in Hx as [Hx _]. by eapply index_bound.
Qed.

(** The second block: its bottom states are flagged, or the partition has become
    unstable. *)
Lemma split_settled b b' : blocks p' !! b = Some b' -> b = i1 \/ n1 <= b ->
  (split_result p u i1 blk X J).2 = true \/ (forall s, members b' s -> ~ F s) \/ (forall s, s ∈ bottom_states b' -> F s).
Proof.
  intros H Hb'. apply split_blocks in H as [(H1 & H2 & H3)|[[-> ->]|[[-> ->]|[-> ->]]]].
  - unfold n1 in *. lia.
  - right. left. by intros s [?%elem_of_nil|?%elem_of_nil].
  - right. left. intros s [Hs HX]%members_b1 HFs. apply (d_member p Hp i1 blk s Hb) in Hs. apply HFl in HFs; [|done].
    by apply (flagged_not_X s).
  - destruct (decide (Exists (becomes_bottom X) (non_bottom_states blk))) as [E|E].
    + left. cbn. rewrite bool_decide_true by done. apply orb_true_r.
    + right. right. intros s [[Hf Hs]%list_elem_of_filter|Hs]%elem_of_app; [apply HFl; [by left|done]|]. destruct E.
      apply list_elem_of_fmap in Hs as (k & _ & [Hk Hk']%list_elem_of_filter). apply Exists_exists. by exists k.
Qed.

End SplitInvariant.

End Correct.
