(* ===== verification/BisimRefine.v ===== *)
(** * Correctness of the bisimulation partitioner: the refinement loop

    The loop over the marked blocks ([splitting]), over the transitions of a
    splitter, and over the blocks to be processed: it ends, and the partition it
    leaves is stable and as coarse as bisimilarity. *)

From Stdlib Require Import Lia.
From stdpp Require Import base numbers sets list gmap sorting relations.
From S2P Require Import Prelude Lts Scc SccTheorems Bisimulation LtsMerge BisimPartition BisimCorrect.

#[local] Arguments Nat.ltb : simpl never.
#[local] Arguments Nat.eqb : simpl never.

Section Refine.
Context {SL AL : Type} `{!EqDecision SL} `{!EqDecision AL} (tau_action : AL).
Context (aut : lts SL AL) (branching preserve_divergences : bool).
Context (Hwf : wf_lts tau_action aut).

Abbreviation hid i := (apply_hidden_label_map i aut).
Abbreviation bi p := (block_index_of_a_state p).
Abbreviation data := (data aut branching preserve_divergences).
Abbreviation coarse := (coarse aut branching preserve_divergences).
Abbreviation respects := (respects aut branching preserve_divergences).
Abbreviation silent := (silent aut branching preserve_divergences).
Abbreviation n := (num_states aut).

(** The bound on the number of iterations: splits are limited by the number of
    states, and each may refill the queue once. *)
Definition potential (p : partitioner) (u : bool) : nat :=
  (2 * n + 3) * (n - max_state_index p) + (if u then 2 * n else 0) + length (to_be_processed p).

Lemma data_set_flags bf sf bl p : data p -> length bf = length (blocks p) -> length sf = n -> data (set_flags bf sf bl p).
Proof. intros [] H1 H2. by split. Qed.

Lemma data_set_queue is_in q p : data p -> data (set_queue is_in q p).
Proof. intros []. by split. Qed.

(** ** The loop over the marked blocks *)

Section BL.
Context (F : nat -> Prop) (HF : respects F) (D : nat -> nat -> Prop).
Context (splitter : nat) (T0 : list transition) (q0 : list nat) (n0 pot0 : nat) (HD : forall a b, D a b -> b < n0) (Hsp : splitter < n0).

Record splitting (todo : list nat) (st : partitioner * bool) : Prop := {
  s_data : data st.1;
  s_coarse : coarse st.1;
  s_flags : forall s b, bi st.1 !! s = Some b -> state_flags st.1 !! s = Some true <-> F s /\ b ∈ todo;
  s_block_flags : forall b, block_flags st.1 !! b = Some true <-> b ∈ todo;
  s_nodup : NoDup todo;
  s_todo : forall b, b ∈ todo -> exists blk s, blocks st.1 !! b = Some blk /\ members blk s /\ F s;
  s_settled : forall b blk, blocks st.1 !! b = Some blk -> b ∉ todo ->
    st.2 = true \/ (forall s, members blk s -> ~ F s) \/ (forall s, s ∈ bottom_states blk -> F s);
  s_stable : stable_for aut st.1 st.2 D;
  s_length : n0 <= length (blocks st.1);
  s_splitter : forall blk, blocks st.1 !! splitter = Some blk ->
    non_inert_transitions blk = T0 \/ non_inert_transitions blk = [];
  s_queue : forall b, b ∈ q0 \/ n0 <= b < length (blocks st.1) -> b ∈ to_be_processed st.1;
  s_bound : forall b, b ∈ to_be_processed st.1 -> b < length (blocks st.1);
  s_potential : potential st.1 st.2 <= pot0
}.

Lemma splitting_flag i1 todo p u blk s : splitting (i1 :: todo) (p, u) -> blocks p !! i1 = Some blk -> members blk s ->
  state_flags p !!! s = true <-> F s.
Proof.
  intros H Hb Hs. pose proof (s_data _ _ H) as Hp. cbn in Hp. apply (d_member _ _ _ p Hp i1 blk s Hb) in Hs as Hi.
  pose proof (s_flags _ _ H s i1 Hi) as Hf. cbn in Hf.
  assert (Hlt : s < length (state_flags p)).
  { rewrite (d_flags _ _ _ p Hp), <- (d_length _ _ _ p Hp). by eapply lookup_lt_Some. }
  destruct (lookup_lt_is_Some_2 _ _ Hlt) as [f Ef]. rewrite (list_lookup_total_correct _ _ _ Ef). rewrite Ef in Hf.
  assert (Hin : i1 ∈ i1 :: todo) by left. split; [intros ->; by apply Hf|]. intros HFs.
  assert (Some f = Some true) as [= ->] by (apply Hf; done). done.
Qed.

(** The flags of a block that has been handled are cleared. *)
Lemma cleared_flags i1 todo st (st' : partitioner * bool) : splitting (i1 :: todo) st ->
  (forall s, s < n -> state_flags st'.1 !! s = if decide (bi st.1 !! s = Some i1) then Some false else state_flags st.1 !! s) ->
  data st'.1 -> (forall s b, bi st'.1 !! s = Some b -> bi st.1 !! s = Some b \/ (bi st.1 !! s = Some i1 /\ length (blocks st.1) <= b)) ->
  forall s b, bi st'.1 !! s = Some b -> state_flags st'.1 !! s = Some true <-> F s /\ b ∈ todo.
Proof.
  intros H Hf Hp' Hbi s b Hs. assert (Hlt : s < n).
  { rewrite <- (d_length _ _ _ _ Hp'). by eapply lookup_lt_Some. }
  rewrite (Hf s Hlt). pose proof (s_nodup _ _ H) as [Hn1 Hn2]%NoDup_cons.
  assert (Hbig : forall c, length (blocks st.1) <= c -> c ∉ todo).
  { intros c Hc Hin. destruct (s_todo _ _ H c) as (blk & x & Hc' & _); [by right|]. apply lookup_lt_Some in Hc'. lia. }
  case_decide as E.
  - split; [done|]. intros [_ Hb]. destruct (Hbi s b Hs) as [E'|[_ E']]; [|by destruct (Hbig b E')].
    rewrite E in E'. by injection E' as <-.
  - destruct (Hbi s b Hs) as [E'|[E' _]]; [|done]. rewrite (s_flags _ _ H s b E'). split; [|intros [? ?]; split; [done|by right]].
    intros [HFs [->|Hb]%elem_of_cons]; [by rewrite E' in E|done].
Qed.

Lemma splitting_unsplit i1 todo p u blk : splitting (i1 :: todo) (p, u) -> blocks p !! i1 = Some blk ->
  filter (fun s => state_flags p !!! s = false) (bottom_states blk) = [] ->
  splitting todo (set_flags (<[i1 := false]> (block_flags p)) (reset_flags blk (state_flags p)) (BL p) p, u).
Proof.
  intros H Hb Hnil. pose proof (s_data _ _ H) as Hp. pose proof (s_nodup _ _ H) as [Hn1 Hn2]%NoDup_cons. cbn in Hp.
  assert (Hp' : data (set_flags (<[i1 := false]> (block_flags p)) (reset_flags blk (state_flags p)) (BL p) p)).
  { apply data_set_flags; [done| |]; [by rewrite length_insert, (d_block_flags _ _ _ p Hp)|].
    rewrite reset_flags_length. apply (d_flags _ _ _ p Hp). }
  split; cbn [fst snd]; try apply H; try done.
  - apply (cleared_flags i1 todo (p, u) (_, u) H); cbn [fst set_flags state_flags block_index_of_a_state]; [|done|by left].
    intros s Hs. unfold reset_flags. rewrite foldl_insert_lookup.
    + rewrite (decide_ext (s ∈ _) (bi p !! s = Some i1)); [done|]. rewrite elem_of_app. apply (d_member _ _ _ p Hp i1 blk s Hb).
    + intros x Hx. apply elem_of_app in Hx. rewrite (d_flags _ _ _ p Hp). by apply (member_bound _ _ _ p Hp i1 blk).
  - intros b. cbn. pose proof (s_block_flags _ _ H b) as Hbf. cbn in Hbf. destruct (decide (b = i1)) as [->|Hne].
    + rewrite list_lookup_insert_eq by (rewrite (d_block_flags _ _ _ p Hp); by eapply lookup_lt_Some). split; [done|by intros].
    + rewrite list_lookup_insert_ne by done. rewrite Hbf, elem_of_cons. tauto.
  - intros b Hin. apply (s_todo _ _ H). by right.
  - intros b c Hc Hin. cbn in Hc. destruct (decide (b = i1)) as [->|Hne]; [|apply (s_settled _ _ H b c Hc); rewrite elem_of_cons; tauto].
    rewrite Hb in Hc. injection Hc as <-. right. right. intros s Hs.
    apply (splitting_flag i1 todo p u blk s H Hb); [by left|]. destruct (state_flags p !!! s) eqn:E; [done|].
    assert (Hin' : s ∈ filter (fun s => state_flags p !!! s = false) (bottom_states blk)) by (by apply list_elem_of_filter).
    rewrite Hnil in Hin'. by apply elem_of_nil in Hin'.
Qed.

Lemma split_result_length p u i1 blk X J : length (blocks (split_result p u i1 blk X J).1) = S (S (length (blocks p))).
Proof. cbn. rewrite length_app, length_insert. cbn. lia. Qed.

Lemma split_potential p u i1 blk X J : data (split_result p u i1 blk X J).1 ->
  potential (split_result p u i1 blk X J).1 (split_result p u i1 blk X J).2 <= potential p u.
Proof.
  intros Hp'. pose proof (max_state_index_bound _ _ _ _ Hp') as Hm.
  change (max_state_index (split_result p u i1 blk X J).1) with (S (max_state_index p)) in Hm. unfold potential.
  change (to_be_processed (split_result p u i1 blk X J).1) with (S (length (blocks p)) :: length (blocks p) :: to_be_processed p).
  change (max_state_index (split_result p u i1 blk X J).1) with (S (max_state_index p)). cbn [length].
  assert (E : n - max_state_index p = S (n - S (max_state_index p))) by lia. rewrite E.
  destruct (split_result p u i1 blk X J).2, u; lia.
Qed.

Lemma splitting_split i1 todo p u blk X J : splitting (i1 :: todo) (p, u) -> blocks p !! i1 = Some blk ->
  splits aut p i1 blk X J -> (exists s, members blk s /\ state_flags p !!! s = true) ->
  (exists s, s ∈ bottom_states blk /\ state_flags p !!! s = false) ->
  splitting todo (split_result p u i1 blk X J).
Proof.
  intros H Hb HS Hf1 Hf2. pose proof (s_data _ _ H) as Hp. pose proof (s_nodup _ _ H) as [Hn1 Hn2]%NoDup_cons. cbn in Hp.
  assert (HFl : forall s, members blk s -> state_flags p !!! s = true <-> F s).
  { intros s Hs. by apply (splitting_flag i1 todo p u blk s H Hb). }
  pose proof (split_data _ _ _ p Hp u i1 blk Hb X J HS Hf1 Hf2) as Hp'.
  pose proof (s_length _ _ H) as Hlen. cbn in Hlen. assert (Hi : i1 < length (blocks p)) by (by eapply lookup_lt_Some).
  assert (Htodo : forall b, b ∈ todo -> exists c s, b <> i1 /\ blocks p !! b = Some c /\ members c s /\ F s).
  { intros b Hin. destruct (s_todo _ _ H b) as (c & s & ? & ?); [by right|]. exists c, s. split; [by intros ->|done]. }
  split.
  - done.
  - apply (split_coarse tau_action _ _ _ Hwf p Hp u i1 blk Hb X J HS F HF (s_coarse _ _ H) HFl).
  - apply (cleared_flags i1 todo (p, u) _ H); [|done|].
    + intros s Hs. by apply (split_flags _ _ _ p Hp u i1 blk Hb X J HS).
    + intros s b Hs. cbn in Hs. apply (split_index aut p i1 blk X J HS) in Hs as [[? _]|[(? & _ & ->)|(? & _ & ->)]]; cbn; auto.
  - intros b. change (block_flags (split_result p u i1 blk X J).1) with (<[i1 := false]> (block_flags p) ++ [false; false]).
    pose proof (s_block_flags _ _ H b) as Hbf. cbn in Hbf. pose proof (d_block_flags _ _ _ p Hp) as Hbl.
    destruct (decide (b < length (blocks p))) as [Hlt|Hge].
    + rewrite lookup_app_l by (by rewrite length_insert, Hbl). destruct (decide (b = i1)) as [->|Hne].
      * rewrite list_lookup_insert_eq by (by rewrite Hbl). split; [done|by intros].
      * rewrite list_lookup_insert_ne by done. rewrite Hbf, elem_of_cons. tauto.
    + rewrite lookup_app_r, length_insert, Hbl by (rewrite length_insert, Hbl; lia). split.
      * destruct (b - length (blocks p)) as [|[|m]]; done.
      * intros (c & _ & _ & Hc & _)%Htodo. apply lookup_lt_Some in Hc. lia.
  - done.
  - intros b (c & s & Hne & Hc & ?)%Htodo. exists c, s. split; [by apply split_block_old|done].
  - intros b c Hc Hin. destruct (decide (b < length (blocks p) /\ b <> i1)) as [[Hlt Hne]|Hnew].
    + apply (split_blocks p u i1 blk Hb X J) in Hc as Hc'. destruct Hc' as [(_ & _ & Hc')|[[? _]|[[? _]|[? _]]]]; [|lia..].
      destruct (s_settled _ _ H b c Hc') as [Hu|?]; [rewrite elem_of_cons; tauto| |by right]. cbn in Hu. left. cbn. by rewrite Hu.
    + apply (split_settled _ _ _ p Hp u i1 blk Hb X J HS F HFl b c Hc). lia.
  - apply (split_stable_for _ _ _ p Hp u i1 blk Hb X J HS); [|apply (s_stable _ _ H)]. intros a b Hab. apply HD in Hab. lia.
  - rewrite split_result_length. lia.
  - intros c Hc. apply (split_blocks p u i1 blk Hb X J) in Hc as [(_ & _ & Hc)|[[_ ->]|[[? ->]|[? ->]]]]; [|by right|lia..].
    by apply (s_splitter _ _ H).
  - intros b. rewrite split_result_length. change (to_be_processed (split_result p u i1 blk X J).1) with
      (S (length (blocks p)) :: length (blocks p) :: to_be_processed p). intros Hin. rewrite !elem_of_cons.
    destruct (decide (b = S (length (blocks p)))) as [|E1]; [by left|]. destruct (decide (b = length (blocks p))) as [|E2]; [by right; left|].
    right. right. apply (s_queue _ _ H). destruct Hin as [?|?]; [by left|right; cbn; lia].
  - intros b. rewrite split_result_length. change (to_be_processed (split_result p u i1 blk X J).1) with
      (S (length (blocks p)) :: length (blocks p) :: to_be_processed p). rewrite !elem_of_cons. intros [->|[->|Hin]]; [lia..|].
    apply (s_bound _ _ H) in Hin. cbn in Hin. lia.
  - etrans; [by apply split_potential|]. apply (s_potential _ _ H).
Qed.

Lemma split_block_step i1 todo st : splitting (i1 :: todo) st ->
  exists st', split_block st i1 = Some st' /\ splitting todo st'.
Proof.
  destruct st as [p u]. intros H. pose proof (s_data _ _ H) as Hp. cbn in Hp.
  destruct (s_todo _ _ H i1 ltac:(left)) as (blk & s & Hb & Hs & HFs). cbn in Hb.
  assert (Hf : exists s, members blk s /\ state_flags p !!! s = true).
  { exists s. split; [done|]. by apply (splitting_flag i1 todo p u blk s H Hb). }
  destruct (decide (filter (fun s => state_flags p !!! s = false) (bottom_states blk) = [])) as [E|E].
  - eexists. split; [|by apply (splitting_unsplit i1 todo p u blk)]. cbn [split_block]. rewrite Hb. cbn [mbind option_bind].
    rewrite decide_False; [by rewrite decide_True|]. intros (E1 & E2 & _). destruct Hf as (x & [Hx|Hx] & Hfx).
    + assert (Hin : x ∈ filter (fun s => state_flags p !!! s = true) (bottom_states blk)) by (by apply list_elem_of_filter).
      rewrite E1 in Hin. by apply elem_of_nil in Hin.
    + rewrite E2 in Hx. by apply elem_of_nil in Hx.
  - destruct (split_block_spec _ _ _ p u i1 blk Hp Hb Hf E) as (X & J & HS & ->). eexists. split; [done|].
    apply splitting_split; try done.
    destruct (filter (fun s => state_flags p !!! s = false) (bottom_states blk)) as [|x l] eqn:Ex; [done|].
    exists x. assert (Hin : x ∈ filter (fun s => state_flags p !!! s = false) (bottom_states blk)) by (rewrite Ex; left).
    apply list_elem_of_filter in Hin. tauto.
Qed.

Lemma split_blocks_loop todo st : splitting todo st ->
  exists st', foldl (fun (st : option (partitioner * bool)) i1 => st ← st; split_block st i1) (Some st) todo = Some st' /\
    splitting [] st'.
Proof.
  revert st. induction todo as [|i1 todo IH]; intros st H; [by exists st|]. cbn [foldl mbind option_bind].
  destruct (split_block_step i1 todo st H) as (st1 & -> & H1). by apply IH.
Qed.

End BL.

(** The states with an [a]-transition to a block are a set that [respects]
    bisimilarity. *)
Lemma hits_respects p a b : data p -> coarse p -> respects (hits aut p a b).
Proof.
  intros Hp Hc u y Hu Hy (blk & tr & Hb & Htr & <- & <-) Huy.
  destruct (d_non_inert _ _ _ p Hp b blk tr Hb Htr) as (Hst & Hto & Hcond).
  set (a := hid (label tr)) in *. set (v := to tr) in *. set (u := from tr) in *.
  pose proof (lstep_bound tau_action aut Hwf u a v Hst) as [_ Hv].
  set (d := branching && preserve_divergences && is_tau a && (u =? v)).
  assert (Hvs : vstep aut branching preserve_divergences u (a, d) v) by done.
  assert (Hsil : branching = true -> a = const_tau_label_index -> d = false -> bi p !! u <> Some b).
  { intros Hbr Ea Ed. apply (Hcond Ea). exists (a, d). split; [|done]. unfold vtau. by rewrite Hbr, Ed, Ea. }
  destruct (bisimilar_simulation (vtau branching) _ u y (a, d) v Huy Hvs) as [[Ht Hvy]|(y' & v' & Hr & Huy' & Hvs' & Hvv')].
  - unfold vtau in Ht. destruct branching eqn:Hbr; [|done]. injection Ht as E1 E2. destruct (Hsil eq_refl (eq_sym E1) (eq_sym E2)).
    rewrite (Hc u y Hu Hy Huy), <- (Hc v y Hv Hy Hvy). done.
  - destruct Hvs' as [Hst' Hd]. cbn in Hst', Hd. pose proof (lstep_bound tau_action aut Hwf y' a v' Hst') as [Hy' Hv'].
    exists y'. split; [done|]. split; [done|]. assert (Hto' : bi p !! v' = Some b) by (by rewrite <- (Hc v v' Hv Hv' Hvv')).
    destruct (d_complete _ _ _ p Hp y' a v' b blk Hst' Hb Hto') as (tr' & ? & ? & ? & ?); [|by exists blk, tr'].
    intros Ea (Hbr & _ & Hne)%silent_iff Hin. destruct (Hsil Hbr Ea).
    + rewrite Hd. destruct (Nat.eqb_spec y' v') as [->|]; [|by rewrite andb_false_r]. destruct preserve_divergences; [|by rewrite andb_false_r].
      by destruct Hne.
    + by rewrite (Hc u y' Hu Hy' Huy').
Qed.

(** ** The loop over the transitions of a splitter *)

Section Splitter.
Context (D : nat -> nat -> Prop) (splitter : nat) (T0 : list transition) (q0 : list nat) (n0 pot0 : nat).
Context (HD : forall a b, D a b -> b < n0) (Hsp : splitter < n0).

(** What the loop has in common with its result. *)
Record unmarked (st : partitioner * bool) : Prop := {
  u_data : data st.1;
  u_coarse : coarse st.1;
  u_length : n0 <= length (blocks st.1);
  u_queue : forall b, b ∈ q0 \/ n0 <= b < length (blocks st.1) -> b ∈ to_be_processed st.1;
  u_bound : forall b, b ∈ to_be_processed st.1 -> b < length (blocks st.1);
  u_potential : potential st.1 st.2 <= pot0
}.

(** Marked transitions have the label of the next one. *)
Definition same_group (cur rest : list transition) : Prop :=
  cur = [] \/ exists y rest', rest = y :: rest' /\ forall x, x ∈ cur -> hid (label x) = hid (label y).

(** [pre] has been used, [cur] has been marked, [rest] is still to come. *)
Record marking (pre cur rest : list transition) (st : partitioner * bool) : Prop := {
  k_split : T0 = pre ++ cur ++ rest;
  k_sep : forall x y, x ∈ pre -> y ∈ cur ++ rest -> hid (label x) < hid (label y);
  k_unmarked : unmarked st;
  k_flags : forall s, state_flags st.1 !! s = Some true <-> exists x, x ∈ cur /\ from x = s;
  k_block_flags : forall b, block_flags st.1 !! b = Some true <-> b ∈ BL st.1;
  k_nodup : NoDup (BL st.1);
  k_BL : forall b, b ∈ BL st.1 <-> exists x, x ∈ cur /\ bi st.1 !! from x = Some b;
  k_splitter : exists blk, blocks st.1 !! splitter = Some blk /\ non_inert_transitions blk = T0;
  k_stable : stable_for aut st.1 st.2 (fun a b => D a b \/ (b = splitter /\ exists x, x ∈ pre /\ hid (label x) = a))
}.

Record finished (st : partitioner * bool) : Prop := {
  f_unmarked : unmarked st;
  f_flags : forall s, state_flags st.1 !! s <> Some true;
  f_block_flags : forall b, block_flags st.1 !! b <> Some true;
  f_BL : BL st.1 = [];
  f_stable : stable_for aut st.1 st.2 (fun a b => D a b \/ b = splitter)
}.

Lemma marking_end pre cur st : marking pre cur [] st -> same_group cur [] -> finished st.
Proof.
  intros H [->|(y & r & E & _)]; [|done]. destruct (k_splitter _ _ _ _ H) as (blk & Hb & ET).
  pose proof (k_split _ _ _ _ H) as Es. rewrite !app_nil_r in Es. split.
  - apply H.
  - intros s Hs. apply (k_flags _ _ _ _ H) in Hs as (x & Hx & _). by apply elem_of_nil in Hx.
  - intros b Hf. apply (k_block_flags _ _ _ _ H), (k_BL _ _ _ _ H) in Hf as (x & Hx & _). by apply elem_of_nil in Hx.
  - destruct (BL st.1) as [|b l] eqn:E; [done|]. assert (Hin : b ∈ BL st.1) by (rewrite E; left).
    apply (k_BL _ _ _ _ H) in Hin as (x & Hx & _). by apply elem_of_nil in Hx.
  - destruct (k_stable _ _ _ _ H) as [Hu|Hst]; [by left|right]. intros a b c [Hab| ->]; [by apply Hst; left|].
    destruct (decide (Exists (fun x => hid (label x) = a) pre)) as [E|E].
    + apply Hst. right. split; [done|]. by apply Exists_exists in E.
    + intros c' _. left. intros s _ (blk' & tr & Hb' & Htr & _ & El). rewrite Hb in Hb'. injection Hb' as <-.
      rewrite ET, Es in Htr. apply E, Exists_exists. by exists tr.
Qed.

Lemma mark_transition_fields t p :
  blocks (mark_transition t p) = blocks p /\ bi (mark_transition t p) = bi p /\
  state_flags (mark_transition t p) = <[from t := true]> (state_flags p) /\
  max_state_index (mark_transition t p) = max_state_index p /\ to_be_processed (mark_transition t p) = to_be_processed p.
Proof. unfold mark_transition. by destruct (negb _). Qed.

Lemma mark_data t p : data p -> data (mark_transition t p).
Proof.
  intros Hp. unfold mark_transition. destruct (negb _); apply data_set_flags; try done; rewrite ?length_insert;
    [apply (d_block_flags _ _ _ p Hp)|apply (d_flags _ _ _ p Hp)|apply (d_block_flags _ _ _ p Hp)|apply (d_flags _ _ _ p Hp)].
Qed.

Lemma mark_BL pre cur rest st t b0 : marking pre cur rest st -> bi st.1 !! from t = Some b0 ->
  BL (mark_transition t st.1) = (if decide (b0 ∈ BL st.1) then BL st.1 else BL st.1 ++ [b0]) /\
  block_flags (mark_transition t st.1) = (if decide (b0 ∈ BL st.1) then block_flags st.1 else <[b0 := true]> (block_flags st.1)).
Proof.
  intros H Hb0. pose proof (u_data _ (k_unmarked _ _ _ _ H)) as Hp. unfold mark_transition.
  rewrite (list_lookup_total_correct _ _ _ Hb0).
  destruct (lookup_lt_is_Some_2 (block_flags st.1) b0) as [f Ef]; [rewrite (d_block_flags _ _ _ _ Hp); by apply (d_range _ _ _ _ Hp) in Hb0|].
  rewrite (list_lookup_total_correct _ _ _ Ef). pose proof (k_block_flags _ _ _ _ H b0) as Hbf. rewrite Ef in Hbf.
  destruct f; cbn [negb]; [rewrite !decide_True by (by apply Hbf); done|]. rewrite !decide_False; [done|..]; intros Q%Hbf; done.
Qed.

Lemma mark_step pre cur t rest st : marking pre cur (t :: rest) st ->
  marking pre (cur ++ [t]) rest (mark_transition t st.1, st.2).
Proof.
  intros H. destruct (mark_transition_fields t st.1) as (E1 & E2 & E3 & E4 & E5).
  pose proof (u_data _ (k_unmarked _ _ _ _ H)) as Hp. destruct (k_splitter _ _ _ _ H) as (blk & Hb & ET).
  assert (Ht : t ∈ T0) by (rewrite (k_split _ _ _ _ H), !elem_of_app; right; right; left).
  rewrite <- ET in Ht. destruct (d_non_inert _ _ _ _ Hp splitter blk t Hb Ht) as (Hst & _).
  destruct (lstep_bound tau_action aut Hwf _ _ _ Hst) as [Hfrom _].
  destruct (state_block _ _ _ _ Hp (from t) Hfrom) as (b0 & c0 & Hb0 & Hc0 & _).
  assert (Hin : forall x, x ∈ cur ++ [t] <-> x ∈ cur \/ x = t) by (intros x; rewrite elem_of_app, list_elem_of_singleton; done).
  destruct (mark_BL pre cur (t :: rest) st t b0 H Hb0) as [HB1 HB2].
  split; cbn [fst snd].
  - rewrite <- app_assoc. apply (k_split _ _ _ _ H).
  - intros x y Hx. rewrite <- app_assoc. by apply (k_sep _ _ _ _ H).
  - destruct (k_unmarked _ _ _ _ H) as [U1 U2 U3 U4 U6 U5]. split; cbn [fst snd]; unfold coarse, potential in *; rewrite ?E1, ?E2, ?E4, ?E5; try done.
    by apply mark_data.
  - intros s. rewrite E3. destruct (decide (s = from t)) as [->|Hne].
    + rewrite list_lookup_insert_eq by (by rewrite (d_flags _ _ _ _ Hp)). split; [|done]. intros _. exists t. split; [apply Hin; by right|done].
    + rewrite list_lookup_insert_ne by done. rewrite (k_flags _ _ _ _ H). split; intros (x & Hx & Ex).
      * exists x. split; [apply Hin; by left|done].
      * apply Hin in Hx as [Hx| ->]; [by exists x|done].
  - intros b. rewrite HB1, HB2. case_decide as E; [apply (k_block_flags _ _ _ _ H)|]. rewrite elem_of_app, list_elem_of_singleton.
    destruct (decide (b = b0)) as [->|Hne].
    + rewrite list_lookup_insert_eq by (rewrite (d_block_flags _ _ _ _ Hp); by eapply lookup_lt_Some). split; [by right|done].
    + rewrite list_lookup_insert_ne, (k_block_flags _ _ _ _ H) by done. naive_solver.
  - rewrite HB1. case_decide as E; [apply H|]. apply NoDup_app. split; [apply H|]. split; [|apply NoDup_singleton].
    by intros x Hx ->%list_elem_of_singleton.
  - intros b. rewrite HB1, E2. assert (Hb' : (exists x, x ∈ cur ++ [t] /\ bi st.1 !! from x = Some b) <-> b ∈ BL st.1 \/ b = b0).
    { rewrite (k_BL _ _ _ _ H). split.
      - intros (x & [Hx| ->]%Hin & Ex); [left; by exists x|right; congruence].
      - intros [(x & Hx & Ex)| ->]; [exists x|exists t]; (split; [apply Hin; auto|done]). }
    rewrite Hb'. case_decide as E; [naive_solver|]. by rewrite elem_of_app, list_elem_of_singleton.
  - exists blk. by rewrite E1.
  - destruct (k_stable _ _ _ _ H) as [Hu|Hs]; [by left|right]. intros a b c Hab. specialize (Hs a b c Hab).
    unfold stable, hits in *. by rewrite E1.
Qed.

(** A complete group consists of the transitions with its label. *)
Lemma group_hits pre cur rest st a s : marking pre cur rest st -> (forall x, x ∈ cur -> hid (label x) = a) ->
  (forall y, y ∈ rest -> a < hid (label y)) -> cur <> [] ->
  hits aut st.1 a splitter s <-> exists x, x ∈ cur /\ from x = s.
Proof.
  intros H Hc Hr Hne. destruct (k_splitter _ _ _ _ H) as (blk & Hb & ET). split.
  - intros (blk' & tr & Hb' & Htr & <- & El). rewrite Hb in Hb'. injection Hb' as <-.
    rewrite ET, (k_split _ _ _ _ H), !elem_of_app in Htr. exists tr. split; [|done].
    destruct Htr as [Htr|[Htr|Htr]]; [|done|apply Hr in Htr; lia]. destruct cur as [|x cur]; [done|].
    pose proof (k_sep _ _ _ _ H tr x Htr ltac:(left)). rewrite (Hc x) in * by left. lia.
  - intros (x & Hx & <-). exists blk, x. split; [done|]. split; [|auto]. rewrite ET, (k_split _ _ _ _ H), !elem_of_app. tauto.
Qed.

Definition used (pre : list transition) (a b : nat) : Prop := b = splitter /\ exists x, x ∈ pre /\ hid (label x) = a.

Lemma marking_splitting pre cur rest st a : marking pre cur rest st -> (forall x, x ∈ cur -> hid (label x) = a) ->
  (forall y, y ∈ rest -> a < hid (label y)) -> cur <> [] ->
  splitting (hits aut st.1 a splitter) (fun a b => D a b \/ used pre a b) splitter T0 q0 n0 pot0 (BL st.1) st.
Proof.
  intros H Hc Hr Hne. pose proof (fun s => group_hits pre cur rest st a s H Hc Hr Hne) as HF.
  destruct (k_unmarked _ _ _ _ H) as [U1 U2 U3 U4 U6 U5]. destruct (k_splitter _ _ _ _ H) as (blk & Hb & ET). split; try done.
  - intros s b Hs. rewrite HF, (k_flags _ _ _ _ H), (k_BL _ _ _ _ H). split; [|tauto]. intros (x & Hx & <-).
    split; by exists x.
  - apply (k_block_flags _ _ _ _ H).
  - apply (k_nodup _ _ _ _ H).
  - intros b (x & Hx & Ex)%(k_BL _ _ _ _ H). destruct (lookup_lt_is_Some_2 (blocks st.1) b) as [c Hc']; [by apply (d_range _ _ _ _ U1) in Ex|].
    exists c, (from x). split; [done|]. split; [by apply (d_member _ _ _ _ U1 b c _ Hc')|]. apply HF. by exists x.
  - intros b c Hc' Hnin. right. left. intros s Hs (x & Hx & <-)%HF. apply Hnin, (k_BL _ _ _ _ H). exists x. split; [done|].
    by apply (d_member _ _ _ _ U1 b c _ Hc').
  - apply (k_stable _ _ _ _ H).
  - intros c Hc'. left. congruence.
Qed.

(** The marks are gone and the marked group is stable. *)
Lemma splitting_done pre cur rest st a st1 : marking pre cur rest st -> (forall x, x ∈ cur -> hid (label x) = a) ->
  (forall y, y ∈ rest -> a < hid (label y)) -> cur <> [] ->
  splitting (hits aut st.1 a splitter) (fun a b => D a b \/ used pre a b) splitter T0 q0 n0 pot0 [] st1 ->
  (exists blk, blocks st1.1 !! splitter = Some blk /\ (non_inert_transitions blk = T0 \/ non_inert_transitions blk = [])) /\
  (forall s, state_flags st1.1 !! s <> Some true) /\ (forall b, block_flags st1.1 !! b <> Some true) /\
  unmarked st1 /\ stable_for aut st1.1 st1.2 (fun a b => D a b \/ used (pre ++ cur) a b).
Proof.
  intros H Hc Hr Hne HS. pose proof (s_data _ _ _ _ _ _ _ _ _ HS) as Hp. pose proof (s_length _ _ _ _ _ _ _ _ _ HS) as Hl.
  destruct (lookup_lt_is_Some_2 (blocks st1.1) splitter) as [blk Hb]; [lia|].
  pose proof (s_splitter _ _ _ _ _ _ _ _ _ HS blk Hb) as HT. split_and!.
  - by exists blk.
  - intros s Hs. assert (Hlt : s < length (bi st1.1)).
    { rewrite (d_length _ _ _ _ Hp), <- (d_flags _ _ _ _ Hp). by eapply lookup_lt_Some. }
    destruct (lookup_lt_is_Some_2 _ _ Hlt) as [b Eb]. apply (s_flags _ _ _ _ _ _ _ _ _ HS s b Eb) in Hs as [_ Hs]. by apply elem_of_nil in Hs.
  - intros b Hbf%(s_block_flags _ _ _ _ _ _ _ _ _ HS). by apply elem_of_nil in Hbf.
  - split; apply HS.
  - destruct (s_stable _ _ _ _ _ _ _ _ _ HS) as [Hu|Hst]; [by left|]. destruct st1.2 eqn:Eu; [by left|right].
    intros a' b c [Hab|(-> & x & Hx & Ex)]; [apply Hst; by left|]. apply elem_of_app in Hx as [Hx|Hx]; [apply Hst; right; split; [done|by exists x]|].
    rewrite (Hc x Hx) in Ex. subst a'. intros c' Hc'. destruct HT as [HT|HT].
    + destruct (k_splitter _ _ _ _ H) as (blk0 & Hb0 & ET).
      assert (Eq : forall s, hits aut st1.1 a splitter s <-> hits aut st.1 a splitter s).
      { intros s. unfold hits. rewrite Hb, Hb0. split; intros (q & tr & [= <-] & Q); (eexists _, tr; split; [done|]); by rewrite ?HT, ?ET in *. }
      setoid_rewrite Eq. destruct (s_settled _ _ _ _ _ _ _ _ _ HS c c' Hc') as [?|?]; [by apply not_elem_of_nil|congruence|done].
    + left. intros s _ (q & tr & Hq & Htr & _). rewrite Hb in Hq. injection Hq as <-. rewrite HT in Htr. by apply elem_of_nil in Htr.
Qed.

Lemma split_step pre cur rest st a : marking pre cur rest st -> (forall x, x ∈ cur -> hid (label x) = a) ->
  (forall y, y ∈ rest -> a < hid (label y)) -> cur <> [] ->
  exists st', split_the_blocks_in_BL st = Some st' /\
    (marking (pre ++ cur) [] rest st' \/
     (finished st' /\ exists blk, blocks st'.1 !! splitter = Some blk /\ non_inert_transitions blk = [])).
Proof.
  intros H Hc Hr Hne. pose proof (marking_splitting pre cur rest st a H Hc Hr Hne) as HS.
  assert (HF : respects (hits aut st.1 a splitter)) by (apply hits_respects; apply (k_unmarked _ _ _ _ H)).
  assert (HD' : forall a b, D a b \/ used pre a b -> b < n0) by (intros x y [?|[-> _]]; [eauto|done]).
  destruct (split_blocks_loop _ HF _ splitter T0 q0 n0 pot0 HD' Hsp _ _ HS) as (st1 & E & HS1).
  destruct (splitting_done pre cur rest st a st1 H Hc Hr Hne HS1) as ((blk & Hb & HT) & Hf & Hbf & [U1 U2 U3 U4 U6 U5] & Hst).
  unfold split_the_blocks_in_BL. rewrite E. cbn [mbind option_bind]. eexists. split; [done|].
  assert (HU : unmarked (set_flags (block_flags st1.1) (state_flags st1.1) [] st1.1, st1.2)).
  { split; try done. apply data_set_flags; [done|apply (d_block_flags _ _ _ _ U1)|apply (d_flags _ _ _ _ U1)]. }
  assert (Hno : forall (P : transition -> Prop), ~ exists x, x ∈ @nil transition /\ P x) by (intros P (x & Hx & _); by apply elem_of_nil in Hx).
  destruct HT as [HT|HT].
  - left. split; try done; cbn [fst snd set_flags state_flags block_flags BL].
    + rewrite (k_split _ _ _ _ H). by rewrite <- app_assoc.
    + intros x y [Hx|Hx]%elem_of_app Hy; [apply (k_sep _ _ _ _ H x y Hx), elem_of_app; by right|]. rewrite (Hc x Hx). by apply Hr.
    + intros s. split; [intros Q; by apply Hf in Q|by intros Q%Hno].
    + intros b. split; [intros Q; by apply Hbf in Q|intros Q; by apply elem_of_nil in Q].
    + constructor.
    + intros b. split; [intros Q; by apply elem_of_nil in Q|by intros Q%Hno].
    + by exists blk.
  - right. split; [|by exists blk]. split; try done; cbn [fst snd set_flags].
    destruct Hst as [?|Hst]; [by left|right]. intros a' b c [Hab| ->]; [apply Hst; by left|]. intros c' _. left.
    intros s _ (q & tr & Hq & Htr & _). cbn in Hq. rewrite Hb in Hq. injection Hq as <-. rewrite HT in Htr. by apply elem_of_nil in Htr.
Qed.

Context (Hsorted : StronglySorted (fun t u => hid (label t) <= hid (label u)) T0).

Lemma group_end pre cur t rest st : marking pre (cur ++ [t]) rest st ->
  match rest with [] => true | next :: _ => negb (hid (label t) =? hid (label next)) end = true ->
  forall y, y ∈ rest -> hid (label t) < hid (label y).
Proof.
  intros H E y Hy. pose proof (k_split _ _ _ _ H) as Es. rewrite Es, app_assoc, (app_assoc pre) in Hsorted.
  assert (Hle : forall y, y ∈ rest -> hid (label t) <= hid (label y)).
  { intros z Hz. apply (StronglySorted_app_1_elem_of _ _ _ t z Hsorted); [|done]. rewrite !elem_of_app, list_elem_of_singleton. tauto. }
  destruct rest as [|z rest]; [by apply elem_of_nil in Hy|]. apply negb_true_iff, Nat.eqb_neq in E.
  pose proof (Hle z ltac:(left)). apply StronglySorted_app_1_r in Hsorted. apply StronglySorted_inv in Hsorted as [_ Hf].
  rewrite Forall_forall in Hf. apply elem_of_cons in Hy as [->|Hy]; [lia|]. specialize (Hf y Hy). lia.
Qed.

Lemma splitter_loop_spec rest : forall fuel pre cur st, length rest <= fuel -> marking pre cur rest st -> same_group cur rest ->
  exists st', splitter_loop aut fuel splitter (length (pre ++ cur)) st = Some st' /\ finished st'.
Proof.
  induction rest as [|t rest IH]; intros fuel pre cur st Hf H Hg.
  - exists st. split; [|by apply (marking_end pre cur)]. destruct (k_splitter _ _ _ _ H) as (blk & Hb & ET).
    destruct fuel; cbn [splitter_loop]; rewrite (list_lookup_total_correct _ _ _ Hb), ET;
      (rewrite lookup_ge_None_2; [done|]; rewrite (k_split _ _ _ _ H), !length_app; cbn; lia).
  - destruct fuel as [|fuel]; [cbn in Hf; lia|]. cbn [length] in Hf.
    destruct (k_splitter _ _ _ _ H) as (blk & Hb & ET). pose proof (k_split _ _ _ _ H) as Es.
    assert (L1 : T0 !! length (pre ++ cur) = Some t) by (rewrite Es, app_assoc; apply list_lookup_middle; done).
    assert (L2 : T0 !! S (length (pre ++ cur)) = head rest).
    { rewrite Es, app_assoc, lookup_app_r by lia. replace (S (length (pre ++ cur)) - length (pre ++ cur)) with 1 by lia. by destruct rest. }
    cbn [splitter_loop]. rewrite (list_lookup_total_correct _ _ _ Hb), ET, L1, L2. pose proof (mark_step pre cur t rest st H) as Hm.
    assert (Hsame : forall x, x ∈ cur ++ [t] -> hid (label x) = hid (label t)).
    { intros x [Hx| ->%list_elem_of_singleton]%elem_of_app; [|done]. destruct Hg as [->|(y & r & [= <- <-] & Hg)]; [by apply elem_of_nil in Hx|auto]. }
    assert (El : S (length (pre ++ cur)) = length (pre ++ cur ++ [t])) by (rewrite !length_app; cbn; lia).
    destruct (match head rest with Some next => negb (hid (label t) =? hid (label next)) | None => true end) eqn:E.
    + assert (E' : match rest with [] => true | next :: _ => negb (hid (label t) =? hid (label next)) end = true) by (by destruct rest).
      destruct (split_step pre (cur ++ [t]) rest _ (hid (label t)) Hm Hsame (group_end pre cur t rest _ Hm E')) as (st1 & -> & Hst1).
      { by destruct cur. }
      cbn [mbind option_bind]. destruct Hst1 as [Hst1|(Hfin & blk' & Hb' & HT')].
      * rewrite El, <- (app_nil_r (pre ++ cur ++ [t])). apply IH; [lia|done|by left].
      * exists st1. split; [|done]. destruct fuel; cbn [splitter_loop]; rewrite (list_lookup_total_correct _ _ _ Hb'), HT'; done.
    + cbn [mbind option_bind]. rewrite El. apply IH; [lia|done|]. right. destruct rest as [|next rest]; [done|].
      exists next, rest. split; [done|]. cbn in E. apply negb_false_iff, Nat.eqb_eq in E. intros x Hx. by rewrite (Hsame x Hx).
Qed.

End Splitter.

(** ** The loop over the blocks *)

Record ready (st : partitioner * bool) : Prop := {
  r_data : data st.1;
  r_coarse : coarse st.1;
  r_flags : forall s, state_flags st.1 !! s <> Some true;
  r_block_flags : forall b, block_flags st.1 !! b <> Some true;
  r_BL : BL st.1 = [];
  r_bound : forall b, b ∈ to_be_processed st.1 -> b < length (blocks st.1);
  r_stable : stable_for aut st.1 st.2 (fun a b => b < length (blocks st.1) /\ b ∉ to_be_processed st.1)
}.

Lemma refill_ready st : ready st -> ~ (to_be_processed st.1 = [] /\ st.2 = false) ->
  ready (refill st) /\ to_be_processed (refill st).1 <> [] /\ potential (refill st).1 (refill st).2 <= potential st.1 st.2.
Proof.
  intros H Hne. unfold refill. case_decide as E.
  - destruct E as [E1 E2]. pose proof (d_count _ _ _ _ (r_data _ H)) as Hc. pose proof (max_state_index_bound _ _ _ _ (r_data _ H)) as Hm.
    set (m := length (blocks st.1)) in *. split; [|split].
    + destruct H as [H1 H2 H3 H4 H5 H6 H7]. split; cbn [fst snd set_queue to_be_processed blocks]; try done; [by apply data_set_queue| |].
      * intros b Hb. rewrite elem_of_reverse, elem_of_seq in Hb. unfold m in Hb. lia.
      * right. intros a b c [Hlt Hnin]. destruct Hnin. rewrite elem_of_reverse, elem_of_seq. unfold m. lia.
    + cbn. intros Er. apply (f_equal length) in Er. rewrite length_reverse, length_seq in Er. cbn in Er. lia.
    + unfold potential. cbn [fst snd set_queue to_be_processed max_state_index]. rewrite length_reverse, length_seq, E1, E2. cbn [length]. lia.
  - split; [done|]. split; [|done]. intros E1. destruct (st.2) eqn:E2; tauto.
Qed.

Lemma ready_marking st b q is_in blk : ready st -> to_be_processed st.1 = b :: q -> blocks st.1 !! b = Some blk ->
  marking (fun a c => c < length (blocks st.1) /\ c ∉ to_be_processed st.1) b (non_inert_transitions blk) q (length (blocks st.1))
    (potential (set_queue is_in q st.1) st.2) [] [] (non_inert_transitions blk) (set_queue is_in q st.1, st.2).
Proof.
  intros H Eq Hb. destruct H as [H1 H2 H3 H4 H5 H6 H7].
  assert (Hno : forall (P : transition -> Prop), ~ exists x, x ∈ @nil transition /\ P x) by (intros P (x & Hx & _); by apply elem_of_nil in Hx).
  split; cbn [fst snd set_queue state_flags block_flags BL blocks block_index_of_a_state]; rewrite ?H5.
  - done.
  - intros x y Hx. by apply elem_of_nil in Hx.
  - split; cbn [fst snd set_queue to_be_processed blocks]; try done.
    + by apply data_set_queue.
    + intros c [?|?]; [done|lia].
    + intros c Hc. apply H6. rewrite Eq. by right.
  - intros s. split; [intros Q; by apply H3 in Q|by intros Q%Hno].
  - intros c. split; [intros Q; by apply H4 in Q|intros Q; by apply elem_of_nil in Q].
  - constructor.
  - intros c. split; [intros Q; by apply elem_of_nil in Q|by intros Q%Hno].
  - by exists blk.
  - destruct H7 as [Hu|Hst]; [by left|right]. intros a c d [Hac|[_ Q%Hno]]; [|done]. by apply Hst.
Qed.

Lemma refine_loop_spec fuel : forall st, potential st.1 st.2 <= fuel -> ready st ->
  exists p, refine_loop aut fuel st = Some p /\ data p /\ coarse p /\ forall a b c, stable aut p c a b.
Proof.
  induction fuel as [fuel IH] using lt_wf_ind. intros st Hf H.
  assert (Hun : forall fuel, refine_loop aut fuel st = (if decide (to_be_processed st.1 = [] /\ st.2 = false) then Some st.1 else
    match fuel with 0 => None | S fuel =>
      let '(p, u) := refill st in
      match to_be_processed p with [] => None | b :: q =>
        st ← splitter_loop aut (length (non_inert_transitions (blocks p !!! b))) b 0
          (set_queue (<[b := false]> (block_is_in_to_be_processed p)) q p, u); refine_loop aut fuel st end end)).
  { intros f. by destruct f. }
  rewrite Hun. case_decide as E.
  - exists st.1. split; [done|]. split; [apply H|]. split; [apply H|]. destruct E as [E1 E2].
    destruct (r_stable _ H) as [?|Hst]; [congruence|]. intros a b c. destruct (decide (b < length (blocks st.1))) as [Hlt|Hge].
    + apply Hst. rewrite E1. split; [done|apply not_elem_of_nil].
    + intros c' _. left. intros s _ (q & tr & Hq & _). by apply lookup_lt_Some in Hq.
  - destruct (refill_ready st H E) as (Hr & Hne & Hpot). destruct (refill st) as [p u]. cbn [fst snd] in *.
    destruct (to_be_processed p) as [|b q] eqn:Eq; [done|]. assert (Hb : b < length (blocks p)) by (apply (r_bound _ Hr); cbn; rewrite Eq; left).
    destruct (lookup_lt_is_Some_2 _ _ Hb) as [blk Hblk]. set (is_in := <[b := false]> (block_is_in_to_be_processed p)).
    pose proof (ready_marking (p, u) b q is_in blk Hr Eq Hblk) as Hm. cbn [fst snd] in Hm.
    assert (Hpop : S (potential (set_queue is_in q p) u) = potential p u).
    { unfold potential. cbn. rewrite Eq. cbn. lia. }
    destruct fuel as [|fuel]; [lia|]. rewrite (list_lookup_total_correct _ _ _ Hblk).
    set (D := fun a c : nat => c < length (blocks p) /\ c ∉ to_be_processed p) in *.
    assert (HD : forall a c, D a c -> c < length (blocks p)) by (by intros a c [? _]).
    destruct (splitter_loop_spec D b _ q _ _ HD Hb (d_sorted _ _ _ _ (r_data _ Hr) b blk Hblk)
      _ (length (non_inert_transitions blk)) [] [] _ (le_n _) Hm) as (st1 & Es & Hfin); [by left|].
    cbn [app length] in Es. rewrite Es. cbn [mbind option_bind].
    destruct Hfin as [[U1 U2 U3 U4 U6 U5] F1 F2 F3 F4]. apply IH; [lia|lia|]. split; try done.
    destruct F4 as [?|F4]; [by left|right]. intros a c d [Hc Hnin]. apply F4.
    destruct (decide (c = b)) as [->|Hcb]; [by right|left]. unfold D. rewrite Eq. split.
    + destruct (decide (c < length (blocks p))); [done|]. destruct Hnin. apply U4. right. lia.
    + rewrite elem_of_cons. intros [?|Hcq]; [done|]. destruct Hnin. apply U4. by left.
Qed.

(** ** Stable partitions *)

Section Stable.
Context (p : partitioner) (Hp : data p) (Hst : forall a b c, stable aut p c a b).

Abbreviation vstep := (vstep aut branching preserve_divergences).
Abbreviation vtau := (vtau branching).

Definition same_block (s t : nat) : Prop := s < n /\ t < n /\ bi p !! s = bi p !! t.

(** Inert transitions lead to a bottom state of the block. *)
Definition falls (blk : block) (s : nat) : Prop :=
  exists v, rtc silent s v /\ v ∈ bottom_states blk.

Lemma ordered_falls b blk nbs : blocks p !! b = Some blk -> forall known, ordered known nbs ->
  (forall k, k ∈ nbs -> k ∈ non_bottom_states blk) -> (forall s, s ∈ known -> falls blk s) ->
  forall k, k ∈ nbs -> falls blk (nb_state k).
Proof.
  intros Hb. induction nbs as [|k nbs IH]; intros known Ho Hn Hk k' Hk'; [by apply elem_of_nil in Hk'|]. destruct Ho as [H1 H2].
  assert (Hkk : k ∈ non_bottom_states blk) by (apply Hn; left).
  assert (Hr : falls blk (nb_state k)).
  { destruct (nb_inert k) as [|t ts] eqn:E; [by apply (d_nonempty _ _ _ p Hp b blk k Hb Hkk) in E|].
    assert (Ht : t ∈ nb_inert k) by (rewrite E; left). destruct (Hk t) as (v & Hv & Hv'); [apply H1; left|].
    exists v. split; [|done]. eapply rtc_l; [|done]. by apply (d_inert _ _ _ p Hp b blk k t Hb Hkk). }
  apply elem_of_cons in Hk' as [->|Hk']; [done|]. apply (IH (known ++ [nb_state k])); try done.
  - intros k0 Hk0. apply Hn. by right.
  - intros s. rewrite elem_of_app, list_elem_of_singleton. intros [?| ->]; auto.
Qed.

Lemma block_falls b blk s : blocks p !! b = Some blk -> members blk s -> falls blk s.
Proof.
  intros Hb. assert (Hbot : forall s, s ∈ bottom_states blk -> falls blk s) by (intros x Hx; exists x; split; [apply rtc_refl|done]).
  intros [Hs|(k & -> & Hk)%list_elem_of_fmap]; [auto|].
  apply (ordered_falls b blk (non_bottom_states blk) Hb (bottom_states blk)); try done. by apply (d_order _ _ _ p Hp b).
Qed.

Lemma same_block_simulation : simulation vtau vstep vstep same_block.
Proof.
  intros s1 s2 [a d] t1 (H1 & H2 & H12) [Hstep Hd]. cbn in Hstep, Hd. pose proof (lstep_bound tau_action aut Hwf _ _ _ Hstep) as [_ Ht1].
  destruct (state_block _ _ _ p Hp s1 H1) as (b & blk & Eb & Hblk & Hm1). destruct (state_block _ _ _ p Hp t1 Ht1) as (c & blk' & Ec & Hc & _).
  assert (Hm2 : members blk s2) by (apply (d_member _ _ _ p Hp b blk s2 Hblk); congruence).
  destruct (decide (vtau = Some (a, d) /\ c = b)) as [[Et ->]|Hni]; [left; split; [done|]; split_and!; [done..|congruence]|].
  assert (Hhit : hits aut p a c s1).
  { destruct (d_complete _ _ _ p Hp s1 a t1 c blk' Hstep Hc Ec) as (tr & ? & ? & ? & ?); [|by exists blk', tr].
    intros Ea (Hbr & _ & Hne)%silent_iff Ein. apply Hni. split; [|congruence]. unfold vtau. rewrite Hbr, Ea. do 2 f_equal. rewrite Hd.
    destruct (Nat.eqb_spec s1 t1) as [->|]; [|by rewrite andb_false_r]. destruct preserve_divergences; [|by rewrite andb_false_r]. by destruct Hne. }
  destruct (Hst a c b blk Hblk) as [Hno|Hall]; [by apply Hno in Hhit|]. destruct (block_falls b blk s2 Hblk Hm2) as (v & Hv & Hvb).
  destruct (Hall v Hvb) as (q & tr & Hq & Htr & <- & El). rewrite Hc in Hq. injection Hq as <-.
  destruct (d_non_inert _ _ _ p Hp c blk' tr Hc Htr) as (Hstep' & Eto & Hcond). rewrite El in *.
  pose proof (lstep_bound tau_action aut Hwf _ _ _ Hstep') as [Hfr Hto].
  assert (Hfb : bi p !! from tr = Some b) by (apply (d_member _ _ _ p Hp b blk _ Hblk); by left).
  right. exists (from tr), (to tr). split; [done|]. split; [split_and!; [done..|congruence]|]. split; [|split_and!; [done..|congruence]].
  split; [done|]. cbn. rewrite Hd. destruct branching eqn:Hbr; [|done]. destruct preserve_divergences eqn:Hpd; [|done]. cbn [andb].
  unfold is_tau. destruct (Nat.eqb_spec a const_tau_label_index) as [->|]; [|done]. cbn [andb].
  destruct (Nat.eqb_spec s1 t1) as [->|Hne]; destruct (Nat.eqb_spec (from tr) (to tr)) as [E|Hne']; try done.
  - exfalso. apply (Hcond eq_refl); [|congruence]. apply silent_iff. split; [done|]. split; [done|]. tauto.
  - exfalso. apply Hni. split; [unfold vtau|congruence]. cbn in Hd. rewrite Hd. destruct (Nat.eqb_spec s1 t1); [done|]. done.
Qed.

Lemma same_block_bisimilar s t : coarse p -> s < n -> t < n ->
  bi p !! s = bi p !! t <-> bisimilar vtau vstep vstep s t.
Proof.
  intros Hc Hs Ht. split; [|by apply Hc]. intros E. exists same_block. split; [|done]. split; [apply same_block_simulation|].
  intros s1 s2 a t1 (H1 & H2 & H3) Hstep. assert (HR : same_block s1 s2) by done.
  destruct (same_block_simulation s1 s2 a t1 HR Hstep) as [[? (?&?&?)]|(u2 & t2 & ? & (?&?&?) & ? & (?&?&?))]; [left|right; exists u2, t2];
    unfold flip, same_block; split_and!; done.
Qed.

(** The class numbers. *)
Lemma class_of_state s : s < n -> exists b blk, bi p !! s = Some b /\ blocks p !! b = Some blk /\ members blk s /\
  bisim_get_eq_class p s = state_index blk.
Proof.
  intros Hs. destruct (state_block _ _ _ p Hp s Hs) as (b & blk & E & Hb & Hm). exists b, blk. split_and!; try done.
  unfold bisim_get_eq_class. by rewrite (list_lookup_total_correct _ _ _ E), (list_lookup_total_correct _ _ _ Hb).
Qed.

Lemma class_same s t : s < n -> t < n -> bisim_get_eq_class p s = bisim_get_eq_class p t <-> bi p !! s = bi p !! t.
Proof.
  intros Hs Ht. destruct (class_of_state s Hs) as (b & blk & E1 & Hb & Hm & ->). destruct (class_of_state t Ht) as (c & blk' & E2 & Hc & Hm' & ->).
  rewrite E1, E2. split.
  - intros E. f_equal. by apply (d_inj _ _ _ p Hp b c blk blk' s t).
  - intros [= ->]. congruence.
Qed.

End Stable.

End Refine.
