(* ===== verification/BisimInitial.v ===== *)
(** * Correctness of the bisimulation partitioner: the initial partition

    [create_initial_partition] collects the inert transitions per state, orders the
    non-bottom states on tau reachability and gives the refinement loop a partition
    with one block that satisfies its invariant. *)

From Stdlib Require Import Lia.
From stdpp Require Import base numbers sets list gmap sorting relations fin_maps fin_map_dom.
From S2P Require Import Prelude Lts Scc SccTheorems Bisimulation LtsMerge BisimPartition BisimCorrect BisimRefine.

#[local] Arguments Nat.ltb : simpl never.
#[local] Arguments Nat.eqb : simpl never.

Lemma filter_ext_elem {A} (P Q : A -> Prop) `{!forall x, Decision (P x), !forall x, Decision (Q x)} (l : list A) :
  (forall x, x ∈ l -> P x <-> Q x) -> filter P l = filter Q l.
Proof.
  induction l as [|x l IH]; intros HPQ; [done|]. rewrite !filter_cons, IH by (intros y Hy; apply HPQ; by right).
  apply decide_ext, HPQ. left.
Qed.

Lemma filter_none {A} (P : A -> Prop) `{!forall x, Decision (P x)} (l : list A) : (forall x, x ∈ l -> ~ P x) -> filter P l = [].
Proof.
  induction l as [|x l IH]; intros Hn; [done|]. rewrite filter_cons, decide_False by (apply Hn; left). apply IH.
  intros y Hy. apply Hn. by right.
Qed.

Lemma StronglySorted_impl {A} (R Q : relation A) l : (forall x y, R x y -> Q x y) -> StronglySorted R l -> StronglySorted Q l.
Proof. intros H. induction 1 as [|x l _ IH Hx]; constructor; [done|]. eapply Forall_impl; [exact Hx|]. auto. Qed.

(** ** Ordering on tau reachability *)

Section Order.
Context (M : gmap nat (list nat)) (bottoms : list nat) (R : nat -> nat -> Prop).
Context (HR : forall s ts t, M !! s = Some ts -> t ∈ ts -> R s t) (Hac : forall s, ~ tc R s s).
Context (Hcl : forall s ts t, M !! s = Some ts -> t ∈ ts -> is_Some (M !! t) \/ t ∈ bottoms).

(** [path]: the states whose recursive call has not ended. *)
Record ordering_inv (path : list nat) (st : ordering) : Prop := {
  o_visited : forall s, s ∈ st.2 <-> s ∈ nb_state <$> st.1.2 \/ s ∈ path;
  o_path : forall s, s ∈ path -> s ∉ nb_state <$> st.1.2;
  o_map : forall s, st.1.1 !! s = if decide (s ∈ nb_state <$> st.1.2) then Some [] else M !! s;
  o_ordered : ordered bottoms st.1.2;
  o_nodup : NoDup (nb_state <$> st.1.2);
  o_inert : forall k, k ∈ st.1.2 -> M !! nb_state k = Some (nb_inert k)
}.

Definition unvisited (st : ordering) : nat := size (dom M ∖ st.2).

(** What a recursive call achieves. *)
Definition grows (st st' : ordering) : Prop := (forall s, s ∈ st.2 -> s ∈ st'.2) /\ (forall s, s ∈ nb_state <$> st.1.2 -> s ∈ nb_state <$> st'.1.2).

Lemma grows_unvisited st st' : grows st st' -> unvisited st' <= unvisited st.
Proof. intros [H _]. unfold unvisited. apply subseteq_size. set_solver. Qed.

Definition call_ok (fuel : nat) (path : list nat) (s : nat) (st : ordering) : Prop :=
  exists st', order_recursively_on_tau_reachability fuel s st = Some st' /\ ordering_inv path st' /\ grows st st' /\
    (is_Some (M !! s) -> s ∈ nb_state <$> st'.1.2).

Lemma order_targets fuel path ts st :
  (forall t st, t ∈ ts -> ordering_inv path st -> unvisited st < fuel -> call_ok fuel path t st) ->
  ordering_inv path st -> unvisited st < fuel ->
  exists st', foldl (fun st t => st ← st; order_recursively_on_tau_reachability fuel t st) (Some st) ts = Some st' /\
    ordering_inv path st' /\ grows st st' /\ forall t, t ∈ ts -> is_Some (M !! t) -> t ∈ nb_state <$> st'.1.2.
Proof.
  revert st. induction ts as [|t ts IH]; intros st Hok H Hf; cbn [foldl].
  - exists st. split; [done|]. split; [done|]. split; [done|]. intros t Ht. by apply elem_of_nil in Ht.
  - destruct (Hok t st ltac:(left) H Hf) as (st1 & E1 & H1 & G1 & T1). cbn [mbind option_bind]. rewrite E1.
    destruct (IH st1) as (st2 & E2 & H2 & G2 & T2); [|done|pose proof (grows_unvisited _ _ G1); lia|].
    { intros t' st' Ht'. apply Hok. by right. }
    exists st2. split; [done|]. split; [done|]. split.
    + destruct G1, G2. split; auto.
    + intros t' [->|Ht']%elem_of_cons Hs; [apply G2; auto|auto].
Qed.

(** The state itself is added after its successors. *)
Lemma order_push path s ts st : ordering_inv (s :: path) st -> M !! s = Some ts -> (s ∉ path) ->
  (forall t, t ∈ ts -> is_Some (M !! t) -> t ∈ nb_state <$> st.1.2) ->
  ordering_inv path (<[s := []]> st.1.1, st.1.2 ++ [NonBottom s (default [] (st.1.1 !! s))], st.2).
Proof.
  intros [H1 H2 H3 H4 H5 H6] Hs Hp Ht. assert (Hn : s ∉ nb_state <$> st.1.2) by (apply H2; left).
  assert (Em : st.1.1 !! s = Some ts) by (by rewrite H3, decide_False).
  rewrite Em. cbn [default]. split; cbn [fst snd]; rewrite ?fmap_app; cbn [fmap list_fmap nb_state].
  - intros x. rewrite H1, elem_of_app, elem_of_cons, list_elem_of_singleton. tauto.
  - intros x Hx. rewrite elem_of_app, list_elem_of_singleton. intros [?| ->]; [|done]. apply (H2 x); [by right|done].
  - intros x. destruct (decide (x = s)) as [->|Hne].
    + rewrite lookup_insert_eq, decide_True; [done|]. apply elem_of_app. right. by apply list_elem_of_singleton.
    + rewrite lookup_insert_ne, H3 by done. apply decide_ext. rewrite elem_of_app, list_elem_of_singleton. tauto.
  - apply ordered_app. split; [done|]. split; [|done]. cbn. intros t Hin. apply elem_of_app.
    destruct (Hcl s ts t Hs Hin) as [?|?]; [right; auto|by left].
  - apply NoDup_app. split; [done|]. split; [|apply NoDup_singleton]. by intros x Hx ->%list_elem_of_singleton.
  - intros k [Hk| ->%list_elem_of_singleton]%elem_of_app; [auto|done].
Qed.

Lemma order_recursively_spec fuel : forall path s st, ordering_inv path st -> (forall x, x ∈ path -> tc R x s) ->
  unvisited st < fuel -> call_ok fuel path s st.
Proof.
  induction fuel as [|fuel IH]; intros path s st H Hpath Hf; [lia|]. unfold call_ok. cbn [order_recursively_on_tau_reachability].
  destruct (decide (s ∈ st.2)) as [Hv|Hv].
  - assert (Hn : s ∈ nb_state <$> st.1.2).
    { apply (o_visited _ _ H) in Hv as [?|Hv]; [done|]. by destruct (Hac s); apply Hpath. }
    exists st. split; [by destruct (st.1.1 !! s)|]. done.
  - assert (Hn : s ∉ nb_state <$> st.1.2) by (intros Q; apply Hv, (o_visited _ _ H); by left).
    rewrite (o_map _ _ H s), decide_False by done. destruct (M !! s) as [ts|] eqn:Es; [|by exists st; split_and!; [done|done|done|intros []]].
    set (st0 := (st.1, {[s]} ∪ st.2) : ordering).
    assert (H0 : ordering_inv (s :: path) st0).
    { destruct H as [Q1 Q2 Q3 Q4 Q5 Q6]. split; cbn [fst snd st0]; try done.
      - intros x. rewrite elem_of_union, elem_of_singleton, Q1, elem_of_cons. tauto.
      - intros x [->|Hx]%elem_of_cons; auto. }
    assert (Hf0 : unvisited st0 < fuel).
    { enough (unvisited st0 < unvisited st) by lia. unfold unvisited. apply subset_size. cbn. apply (elem_of_dom_2 (D := gset nat)) in Es. set_solver. }
    destruct (order_targets fuel (s :: path) ts st0) as (st1 & E1 & H1 & G1 & T1); [|done|done|].
    { intros t st' Ht H' Hf'. apply IH; [done| |done]. intros x [->|Hx]%elem_of_cons; [by apply tc_once, (HR s ts)|].
      eapply tc_r; [by apply Hpath|by apply (HR s ts)]. }
    eexists. split; [apply bind_Some; exists st1; split; [exact E1|reflexivity]|].
    assert (Hsp : s ∉ path) by (intros Q; apply Hv, (o_visited _ _ H); by right).
    split; [by apply (order_push path s ts)|]. destruct G1 as [Ga Gb]. split; [split|].
    + intros x Hx. cbn [snd]. apply Ga. cbn. set_solver.
    + intros x Hx. cbn [fst snd]. rewrite fmap_app, elem_of_app. left. by apply Gb.
    + intros _. cbn [fst snd]. rewrite fmap_app, elem_of_app. right. cbn. left.
Qed.

End Order.

(** The map of the inert transitions. *)
Lemma inert_map_lookup nbs s : NoDup (nb_state <$> nbs) -> forall m : gmap nat (list nat),
  (forall ts, foldl (fun m k => <[nb_state k := nb_inert k]> m) m nbs !! s = Some ts <->
     NonBottom s ts ∈ nbs \/ (s ∉ nb_state <$> nbs) /\ m !! s = Some ts).
Proof.
  induction nbs as [|k nbs IH]; intros Hn m ts; cbn [foldl].
  - rewrite elem_of_nil. cbn. rewrite elem_of_nil. tauto.
  - cbn [fmap list_fmap] in Hn. apply NoDup_cons in Hn as [Hk Hn]. rewrite (IH Hn). cbn [fmap list_fmap]. rewrite !elem_of_cons.
    destruct (decide (s = nb_state k)) as [->|Hne].
    + rewrite lookup_insert_eq. destruct k as [x xs]. cbn in *. split.
      * intros [H|[_ [= <-]]]; [|by left; left]. destruct Hk. apply list_elem_of_fmap. by exists (NonBottom x ts).
      * intros [[[= <-]|H]|[H _]]; [by right|by left|tauto].
    + rewrite lookup_insert_ne by done. split.
      * intros [H|[H1 H2]]; [tauto|right; tauto].
      * intros [[<-|H]|[H1 H2]]; [by destruct Hne|tauto|right; tauto].
Qed.

Lemma order_on_tau_reachability_spec nbs bottoms (R : nat -> nat -> Prop) :
  NoDup (nb_state <$> nbs) -> (forall s, ~ tc R s s) ->
  (forall k t, k ∈ nbs -> t ∈ nb_inert k -> R (nb_state k) t /\ (t ∈ nb_state <$> nbs \/ t ∈ bottoms)) ->
  exists L, order_on_tau_reachability nbs = Some L /\ (forall k, k ∈ L <-> k ∈ nbs) /\ NoDup (nb_state <$> L) /\ ordered bottoms L.
Proof.
  intros Hn Hac Hin. set (M := foldl (fun m k => <[nb_state k := nb_inert k]> m) ∅ nbs : gmap nat (list nat)).
  assert (HM : forall s ts, M !! s = Some ts <-> NonBottom s ts ∈ nbs).
  { intros s ts. unfold M. rewrite inert_map_lookup by done. rewrite lookup_empty. naive_solver. }
  assert (Hdom : forall s, is_Some (M !! s) <-> s ∈ nb_state <$> nbs).
  { intros s. rewrite list_elem_of_fmap. split.
    - intros [ts Ht%HM]. by exists (NonBottom s ts).
    - intros ([x xs] & -> & Hk). exists xs. by apply HM. }
  assert (HR : forall s ts t, M !! s = Some ts -> t ∈ ts -> R s t).
  { intros s ts t Hs%HM Ht. by apply (Hin (NonBottom s ts)). }
  assert (Hcl : forall s ts t, M !! s = Some ts -> t ∈ ts -> is_Some (M !! t) \/ t ∈ bottoms).
  { intros s ts t Hs%HM Ht. rewrite Hdom. by apply (Hin (NonBottom s ts)). }
  assert (H0 : ordering_inv M bottoms [] (M, [], ∅)).
  { split; cbn; try done; try (intros x Hx; by apply elem_of_nil in Hx); [|constructor].
    intros s. rewrite elem_of_empty, !elem_of_nil. tauto. }
  assert (Hsize : unvisited M (M, [], ∅) < S (length nbs)).
  { unfold unvisited. cbn [snd]. rewrite difference_empty_L.
    assert (Hsub : dom M ⊆ (list_to_set (nb_state <$> nbs) : gset nat)).
    { intros s Hs. apply elem_of_dom, Hdom in Hs. by apply elem_of_list_to_set. }
    apply subseteq_size in Hsub. rewrite size_list_to_set, length_fmap in Hsub by done. lia. }
  destruct (order_targets M bottoms R HR Hac Hcl (S (length nbs)) [] (nb_state <$> nbs) (M, [], ∅)) as (st & E & H & _ & Ht); [|done|done|].
  { intros t st _ H Hf. apply (order_recursively_spec M bottoms R HR Hac Hcl); [done| |done]. intros x Hx. by apply elem_of_nil in Hx. }
  exists st.1.2. split; [|split_and!; [|apply H|apply H]].
  - unfold order_on_tau_reachability. fold M. apply bind_Some. exists st. split; [|done].
    rewrite foldl_fmap in E. exact E.
  - intros [x xs]. split.
    + intros Hk. apply HM. by apply (o_inert _ _ _ _ H) in Hk.
    + intros Hk. assert (Hx : x ∈ nb_state <$> nbs) by (apply list_elem_of_fmap; by exists (NonBottom x xs)).
      apply Ht in Hx as Hx'; [|by apply Hdom]. apply list_elem_of_fmap in Hx' as ([y ys] & E' & Hy). cbn in E'. subst y.
      apply (o_inert _ _ _ _ H) in Hy as Hy'. cbn in Hy'. apply HM in Hk. rewrite Hk in Hy'. injection Hy' as <-. done.
Qed.

(** ** Collecting the inert transitions *)

Section Initial.
Context {SL AL : Type} `{!EqDecision SL} `{!EqDecision AL} (tau_action : AL).
Context (aut : lts SL AL) (branching preserve_divergences : bool).
Context (Hwf : wf_lts tau_action aut).

Abbreviation hid i := (apply_hidden_label_map i aut).
Abbreviation n := (num_states aut).
Abbreviation silent := (silent aut branching preserve_divergences).
Abbreviation is_silent := (is_silent aut branching).

(** Tau transitions that are inert in the initial partition, and tau loops. *)
Definition moves (t : transition) : Prop := is_silent t = true /\ ~ (preserve_divergences = true /\ from t = to t).
Definition loops (t : transition) : Prop := is_silent t = true /\ preserve_divergences = true /\ from t = to t.

#[local] Instance moves_dec t : Decision (moves t).
Proof. unfold moves. apply _. Defined.
#[local] Instance loops_dec t : Decision (loops t).
Proof. unfold loops. apply _. Defined.

Definition inert_of (ts : list transition) (s : nat) : list nat := to <$> filter (fun t => moves t /\ from t = s) ts.
Definition loop_of (t : transition) : transition := Transition (from t) const_tau_label_index (to t).

Lemma scan_transition_spec t st : scan_transition aut branching preserve_divergences t st =
  mk_initial (last_non_stored st) (bottom_state st && negb (bool_decide (moves t)))
    (current_inert st ++ (to <$> filter moves [t])) (init_bottom st) (init_non_bottom st)
    (init_non_inert st ++ (loop_of <$> filter loops [t])).
Proof.
  unfold scan_transition. rewrite !filter_cons, !filter_nil. destruct st as [a b c d e f]. cbn.
  destruct (is_silent t) eqn:Es; [|].
  - destruct preserve_divergences eqn:Ep, (Nat.eqb_spec (from t) (to t)) as [E|E]; cbn [andb].
    + rewrite (decide_False (P := moves t)), (decide_True (P := loops t)), bool_decide_false by (unfold moves, loops; tauto).
      cbn. by rewrite app_nil_r, andb_true_r.
    + rewrite (decide_True (P := moves t)), (decide_False (P := loops t)), bool_decide_true by (unfold moves, loops; tauto).
      cbn. by rewrite app_nil_r, andb_false_r.
    + rewrite (decide_True (P := moves t)), (decide_False (P := loops t)), bool_decide_true by (unfold moves, loops; naive_solver).
      cbn. by rewrite app_nil_r, andb_false_r.
    + rewrite (decide_True (P := moves t)), (decide_False (P := loops t)), bool_decide_true by (unfold moves, loops; naive_solver).
      cbn. by rewrite app_nil_r, andb_false_r.
  - rewrite (decide_False (P := moves t)), (decide_False (P := loops t)), bool_decide_false by (unfold moves, loops; naive_solver congruence).
    cbn. by rewrite !app_nil_r, andb_true_r.
Qed.

(** [p] has been read, [r] has not. *)
Record collecting (p r : list transition) (st : initial) : Prop := {
  c_rest : forall t, t ∈ r -> last_non_stored st <= from t;
  c_open : forall t, t ∈ p -> from t < last_non_stored st \/ exists t' r', r = t' :: r' /\ from t' = from t;
  c_le : last_non_stored st <= n;
  c_bottom : init_bottom st = filter (fun s => inert_of p s = []) (seq 0 (last_non_stored st));
  c_non_bottom : init_non_bottom st =
    (fun s => NonBottom s (inert_of p s)) <$> filter (fun s => inert_of p s <> []) (seq 0 (last_non_stored st));
  c_current : current_inert st = to <$> filter (fun t => moves t /\ last_non_stored st <= from t) p;
  c_flag : bottom_state st = bool_decide (current_inert st = []);
  c_loops : init_non_inert st = loop_of <$> filter loops p
}.

Lemma inert_of_snoc p t s : inert_of (p ++ [t]) s = inert_of p s ++ (if decide (from t = s) then to <$> filter moves [t] else []).
Proof.
  unfold inert_of. rewrite filter_app, fmap_app. f_equal. rewrite !filter_cons, !filter_nil.
  repeat case_decide; naive_solver.
Qed.

Lemma inert_of_other p t s : from t <> s -> inert_of (p ++ [t]) s = inert_of p s.
Proof. intros H. by rewrite inert_of_snoc, decide_False, app_nil_r. Qed.

Lemma collecting_flag p r st t : collecting p r st ->
  bottom_state st && negb (bool_decide (moves t)) = bool_decide (current_inert st ++ (to <$> filter moves [t]) = []).
Proof.
  intros H. rewrite (c_flag _ _ _ H), filter_cons, filter_nil.
  destruct (current_inert st) as [|x l]; [|by cbn]. cbn [app]. case_decide as E; [by rewrite (bool_decide_true _ E)|by rewrite (bool_decide_false _ E)].
Qed.

Lemma collecting_current p t r st : collecting p (t :: r) st ->
  current_inert st ++ (to <$> filter moves [t]) = to <$> filter (fun t => moves t /\ last_non_stored st <= from t) (p ++ [t]).
Proof.
  intros H. rewrite (c_current _ _ _ H), filter_app, fmap_app. f_equal. f_equal. apply filter_ext_elem.
  intros x ->%list_elem_of_singleton. pose proof (c_rest _ _ _ H t ltac:(left)). tauto.
Qed.

Lemma collecting_continue p t t' r st : collecting p (t :: t' :: r) st -> from t = from t' ->
  collecting (p ++ [t]) (t' :: r) (scan_transition aut branching preserve_divergences t st).
Proof.
  intros H E. rewrite scan_transition_spec. pose proof (c_rest _ _ _ H t ltac:(left)) as Ht.
  assert (Hs : forall s, s ∈ seq 0 (last_non_stored st) -> inert_of (p ++ [t]) s = inert_of p s).
  { intros s Hs%elem_of_seq. apply inert_of_other. lia. }
  split; cbn [last_non_stored bottom_state current_inert init_bottom init_non_bottom init_non_inert].
  - intros x Hx. apply (c_rest _ _ _ H). by right.
  - intros x [Hx| ->%list_elem_of_singleton]%elem_of_app; [|right; by exists t', r].
    destruct (c_open _ _ _ H x Hx) as [?|(y & r' & [= <- <-] & Ey)]; [by left|right]. exists t', r. split; [done|congruence].
  - apply H.
  - rewrite (c_bottom _ _ _ H). apply filter_ext_elem. intros s Hs'. by rewrite Hs.
  - rewrite (c_non_bottom _ _ _ H), (filter_ext_elem (fun s => inert_of p s <> []) (fun s => inert_of (p ++ [t]) s <> []))
      by (intros s Hs'; by rewrite Hs).
    apply list_fmap_ext. intros i s Hi. apply list_elem_of_lookup_2, list_elem_of_filter in Hi as [_ Hi]. by rewrite Hs.
  - by apply (collecting_current p t (t' :: r)).
  - by apply (collecting_flag p (t :: t' :: r)).
  - rewrite (c_loops _ _ _ H), filter_app, fmap_app. done.
Qed.

(** The states up to the one that is stored. *)
Lemma collecting_states p t r st : collecting p (t :: r) st ->
  (forall s, s < last_non_stored st -> inert_of (p ++ [t]) s = inert_of p s) /\
  (forall s, last_non_stored st <= s < from t -> inert_of (p ++ [t]) s = []) /\
  inert_of (p ++ [t]) (from t) = current_inert st ++ (to <$> filter moves [t]).
Proof.
  intros H. pose proof (c_rest _ _ _ H t ltac:(left)) as Ht.
  assert (Hop : forall x, x ∈ p ++ [t] -> from x < last_non_stored st \/ from x = from t).
  { intros x [Hx| ->%list_elem_of_singleton]%elem_of_app; [|by right].
    destruct (c_open _ _ _ H x Hx) as [?|(y & r' & [= <- <-] & Ey)]; [by left|by right]. }
  split_and!.
  - intros s Hs. apply inert_of_other. lia.
  - intros s Hs. unfold inert_of. rewrite filter_none; [done|]. intros x Hx [_ E]. apply Hop in Hx. lia.
  - rewrite (collecting_current p t r) by done. unfold inert_of. f_equal. apply filter_ext_elem. intros x Hx. apply Hop in Hx.
    split; intros [? ?]; split; try done; lia.
Qed.

Lemma seq_upto a b : a <= b -> seq 0 (S b) = seq 0 a ++ seq a (b - a) ++ [b].
Proof.
  intros H. replace (S b) with (a + (b - a + 1)) by lia. rewrite seq_app, seq_app. cbn [seq Nat.add].
  by replace (a + (b - a)) with b by lia.
Qed.

(** The states [last .. s-1] have no inert transitions. *)
Lemma stored_filter (f g : nat -> list nat) a b : a <= b -> (forall s, s < a -> g s = f s) -> (forall s, a <= s < b -> g s = []) ->
  filter (fun s => g s = []) (seq 0 (S b)) = (filter (fun s => f s = []) (seq 0 a) ++ seq a (b - a)) ++ filter (fun s => g s = []) [b] /\
  ((fun s => NonBottom s (g s)) <$> filter (fun s => g s <> []) (seq 0 (S b))) =
    ((fun s => NonBottom s (f s)) <$> filter (fun s => f s <> []) (seq 0 a)) ++
    ((fun s => NonBottom s (g s)) <$> filter (fun s => g s <> []) [b]).
Proof.
  intros Hab H1 H2. rewrite (seq_upto a b Hab), !filter_app, !fmap_app. split.
  - rewrite <- app_assoc. f_equal; [apply filter_ext_elem; intros s Hs%elem_of_seq; rewrite H1 by lia; done|]. f_equal.
    rewrite (filter_ext_elem _ (fun _ => True)) by (intros s Hs%elem_of_seq; split; [done|intros _; apply H2; lia]).
    generalize (seq a (b - a)). intros l. induction l as [|x l IH]; [done|]. rewrite filter_cons, decide_True by done. by rewrite IH.
  - rewrite (filter_none (fun s => g s <> []) (seq a (b - a))) by (intros s Hs%elem_of_seq; rewrite H2 by lia; tauto). cbn [fmap list_fmap app].
    f_equal. rewrite (filter_ext_elem (fun s => g s <> []) (fun s => f s <> [])) by (intros s Hs%elem_of_seq; rewrite H1 by lia; done).
    apply list_fmap_ext. intros i s Hi. apply list_elem_of_lookup_2, list_elem_of_filter in Hi as [_ Hi%elem_of_seq]. rewrite H1 by lia. done.
Qed.

Lemma collecting_store p t r st : collecting p (t :: r) st -> from t < n -> (forall x, x ∈ r -> from t < from x) ->
  exists st', store_state (from t) (scan_transition aut branching preserve_divergences t st) = Some st' /\ collecting (p ++ [t]) r st'.
Proof.
  intros H Hn Hr. pose proof (c_rest _ _ _ H t ltac:(left)) as Ht. destruct (collecting_states p t r st H) as (S1 & S2 & S3).
  pose proof (collecting_flag p (t :: r) st t H) as Hfl. rewrite scan_transition_spec. unfold store_state.
  cbn [last_non_stored bottom_state current_inert init_bottom init_non_bottom init_non_inert].
  replace (Nat.max (last_non_stored st) (from t)) with (from t) by lia. rewrite Nat.eqb_refl.
  destruct (stored_filter (inert_of p) (inert_of (p ++ [t])) (last_non_stored st) (from t) Ht S1 S2) as [F1 F2].
  rewrite !filter_cons, !filter_nil, S3 in F1, F2. eexists. split; [done|]. rewrite Hfl in *.
  assert (Hcur : [] = to <$> filter (fun x => moves x /\ S (from t) <= from x) (p ++ [t])).
  { rewrite filter_none; [done|]. intros x [Hx| ->%list_elem_of_singleton]%elem_of_app [_ E]; [|lia].
    destruct (c_open _ _ _ H x Hx) as [?|(y & r' & [= <- <-] & Ey)]; lia. }
  assert (Hlp : init_non_inert st ++ (loop_of <$> filter loops [t]) = loop_of <$> filter loops (p ++ [t])).
  { by rewrite (c_loops _ _ _ H), filter_app, fmap_app. }
  assert (Hop : forall x, x ∈ p ++ [t] -> from x < S (from t) \/ exists t' r', r = t' :: r' /\ from t' = from x).
  { intros x [Hx| ->%list_elem_of_singleton]%elem_of_app; [|left; lia].
    destruct (c_open _ _ _ H x Hx) as [?|(y & r' & [= <- <-] & Ey)]; left; lia. }
  rewrite (c_bottom _ _ _ H), (c_non_bottom _ _ _ H).
  destruct (decide (current_inert st ++ (to <$> filter moves [t]) = [])) as [E|E].
  - rewrite (bool_decide_true _ E). rewrite (decide_False (P := _ <> [])) in F2 by tauto.
    rewrite E. split; cbn [last_non_stored bottom_state current_inert init_bottom init_non_bottom init_non_inert]; try done.
    by rewrite F2, app_nil_r.
  - rewrite (bool_decide_false _ E). rewrite (decide_True (P := _ <> [])) in F2 by done.
    split; cbn [last_non_stored bottom_state current_inert init_bottom init_non_bottom init_non_inert]; try done.
    + by rewrite F1, app_nil_r.
    + rewrite F2. cbn [fmap list_fmap]. by rewrite S3.
Qed.

Lemma initial_loop_spec r : forall p st, (forall t, t ∈ r -> from t < n) ->
  StronglySorted (fun t u => from t <= from u) r -> collecting p r st ->
  exists st', initial_loop aut branching preserve_divergences r st = Some st' /\ collecting (p ++ r) [] st'.
Proof.
  induction r as [|t r IH]; intros p st Hn Hs H; [exists st; by rewrite app_nil_r|].
  apply StronglySorted_inv in Hs as [Hs Hle]. rewrite Forall_forall in Hle. cbn [initial_loop].
  assert (Hn' : forall t, t ∈ r -> from t < n) by (intros x Hx; apply Hn; by right).
  assert (Happ : p ++ t :: r = (p ++ [t]) ++ r) by (by rewrite <- app_assoc). rewrite Happ.
  destruct (match r with [] => true | next :: _ => negb (from t =? from next) end) eqn:E.
  - destruct (collecting_store p t r st H) as (st1 & -> & H1).
    + apply Hn. left.
    + intros x Hx. destruct r as [|y r]; [by apply elem_of_nil in Hx|]. apply negb_true_iff, Nat.eqb_neq in E.
      pose proof (Hle y ltac:(left)). apply StronglySorted_inv in Hs as [_ Hf]. rewrite Forall_forall in Hf.
      apply elem_of_cons in Hx as [->|Hx]; [lia|]. specialize (Hf x Hx). lia.
    + cbn [mbind option_bind]. by apply IH.
  - destruct r as [|y r]; [done|]. apply negb_false_iff, Nat.eqb_eq in E. cbn [mbind option_bind].
    apply IH; [done|done|]. by apply collecting_continue.
Qed.

(** ** The initial partition *)

Lemma sorted_first ts style (key : transition -> nat) : (forall t, exists k, sort_key style (m_hidden_label_set aut) t = key t :: k) ->
  StronglySorted (fun t u => key t <= key u) (sort_transitions ts (m_hidden_label_set aut) style).
Proof.
  intros Hk. eapply StronglySorted_impl; [|apply sort_transitions_sorted]. intros t u H. unfold not_less in H.
  rewrite compare_transitions_key in H. destruct (Hk t) as [k1 E1], (Hk u) as [k2 E2]. rewrite E1, E2 in H. cbn in H.
  apply orb_false_iff in H as [H _]. apply Nat.ltb_ge in H. done.
Qed.

Lemma inert_of_silent ts s t : ts ≡ₚ m_transitions aut -> t ∈ inert_of ts s <-> silent s t.
Proof.
  intros Hp. unfold inert_of. rewrite silent_iff, list_elem_of_fmap. unfold tau_step, lstep. split.
  - intros (tr & -> & [[[Hs Hm] <-] Hin]%list_elem_of_filter). rewrite Hp in Hin. unfold BisimPartition.is_silent in Hs.
    apply andb_true_iff in Hs as [Hb Ht]. apply Nat.eqb_eq in Ht. split; [done|]. split; [by exists tr|done].
  - intros (Hb & (tr & Hin & <- & Hl & <-) & Hne). exists tr. split; [done|]. apply list_elem_of_filter. rewrite Hp. split; [|done].
    split; [|done]. split; [|done]. unfold BisimPartition.is_silent, is_tau. by rewrite Hb, Hl.
Qed.

Context (Hac : forall s, ~ tc silent s s) (Hpos : 0 < n).

Lemma collected ts : ts ≡ₚ m_transitions aut -> StronglySorted (fun t u => from t <= from u) ts ->
  exists st, initial_loop aut branching preserve_divergences ts (mk_initial 0 true [] [] [] []) = Some st /\
    init_bottom st ++ seq (last_non_stored st) (n - last_non_stored st) = filter (fun s => inert_of ts s = []) (seq 0 n) /\
    init_non_bottom st = (fun s => NonBottom s (inert_of ts s)) <$> filter (fun s => inert_of ts s <> []) (seq 0 n) /\
    init_non_inert st = loop_of <$> filter loops ts.
Proof.
  intros Hp Hs. assert (H0 : collecting [] ts (mk_initial 0 true [] [] [] [])).
  { split; try done; cbn; try lia. intros t Ht. by apply elem_of_nil in Ht. }
  assert (Hfr : forall t, t ∈ ts -> from t < n) by (intros t Ht; rewrite Hp in Ht; by apply (wf_from _ aut Hwf)).
  destruct (initial_loop_spec ts [] _ Hfr Hs H0) as (st & E & H).
  cbn [app] in H. exists st. split; [done|]. pose proof (c_le _ _ _ H) as Hle.
  assert (Hno : forall s, s ∈ seq (last_non_stored st) (n - last_non_stored st) -> inert_of ts s = []).
  { intros s Hs'%elem_of_seq. unfold inert_of. rewrite filter_none; [done|]. intros x Hx [_ Ex].
    destruct (c_open _ _ _ H x Hx) as [?|(y & r & ? & _)]; [lia|done]. }
  assert (En : seq 0 n = seq 0 (last_non_stored st) ++ seq (last_non_stored st) (n - last_non_stored st)).
  { rewrite <- (seq_app (last_non_stored st)). f_equal. unfold num_states in *. lia. }
  rewrite En, !filter_app, fmap_app, (c_bottom _ _ _ H), (c_non_bottom _ _ _ H), (c_loops _ _ _ H). split; [|split; [|done]].
  - f_equal. rewrite (filter_ext_elem _ (fun _ => True)) by (intros s Hs'; split; [done|intros _; by apply Hno]).
    generalize (seq (last_non_stored st) (n - last_non_stored st)). intros l. induction l as [|x l IH]; [done|].
    rewrite filter_cons, decide_True by done. by rewrite <- IH.
  - rewrite (filter_none _ (seq (last_non_stored st) _)) by (intros s Hs' Q; by apply Q, Hno). by rewrite app_nil_r.
Qed.

Abbreviation data := (data aut branching preserve_divergences).

(** The first block. *)
Section First.
Context (ts trans1 : list transition) (Hts : ts ≡ₚ m_transitions aut) (Htr1 : trans1 ≡ₚ m_transitions aut).
Context (Hsort : StronglySorted (fun t u => hid (label t) <= hid (label u)) trans1).
Context (L : list non_bottom_state) (HLn : NoDup (nb_state <$> L)).
Context (HL : forall k, k ∈ L <-> k ∈ (fun s => NonBottom s (inert_of ts s)) <$> filter (fun s => inert_of ts s <> []) (seq 0 n)).

Let bottom := filter (fun s => inert_of ts s = []) (seq 0 n).
Let non_inert := (loop_of <$> filter loops ts) ++ filter (fun t => is_silent t = false) trans1.
Let blk := mk_block 0 0 0 bottom L non_inert.
Context (HLo : ordered bottom L).
Let p := mk_bisim 1 [blk] (replicate n 0) [false] [false] (replicate n false) [] [].

Lemma first_block b b' : blocks p !! b = Some b' <-> b = 0 /\ b' = blk.
Proof. cbn. destruct b as [|b]; cbn; [naive_solver|]. split; [done|]. by intros []. Qed.

Lemma first_index s b : block_index_of_a_state p !! s = Some b <-> s < n /\ b = 0.
Proof. cbn. rewrite lookup_replicate. tauto. Qed.

Lemma first_non_bottom k : k ∈ L <-> nb_state k < n /\ nb_inert k = inert_of ts (nb_state k) /\ nb_inert k <> [].
Proof.
  rewrite HL, list_elem_of_fmap. split.
  - intros (s & -> & [H1 H2%elem_of_seq]%list_elem_of_filter). cbn. split; [lia|done].
  - intros (H1 & H2 & H3). exists (nb_state k). split; [destruct k; cbn in *; by rewrite <- H2|]. apply list_elem_of_filter. rewrite <- H2.
    split; [done|]. apply elem_of_seq. lia.
Qed.

Lemma first_members s : members blk s <-> s < n.
Proof.
  unfold members. cbn. unfold bottom. rewrite list_elem_of_filter, elem_of_seq, list_elem_of_fmap. split.
  - intros [[_ H]|(k & -> & (H & _)%first_non_bottom)]; [lia|done].
  - intros H. destruct (decide (inert_of ts s = [])) as [E|E]; [left; split; [done|lia]|right].
    exists (NonBottom s (inert_of ts s)). split; [done|]. by apply first_non_bottom.
Qed.

Lemma hid_tau0 : hid const_tau_label_index = const_tau_label_index.
Proof. unfold apply_hidden_label_map. by case_decide. Qed.

Lemma first_non_inert tr : tr ∈ non_inert ->
  lstep aut (from tr) (hid (label tr)) (to tr) /\ (hid (label tr) = const_tau_label_index -> ~ silent (from tr) (to tr)).
Proof.
  intros [H|[H1 H2]%list_elem_of_filter]%elem_of_app.
  - apply list_elem_of_fmap in H as (t & -> & [(H1 & H2 & H3) Hin]%list_elem_of_filter). rewrite Hts in Hin. cbn [loop_of from label to]. rewrite hid_tau0.
    unfold BisimPartition.is_silent in H1. apply andb_true_iff in H1 as [_ H1]. apply Nat.eqb_eq in H1. split; [by exists t|].
    intros _ (_ & _ & Q)%silent_iff. by apply Q.
  - rewrite Htr1 in H2. split; [by exists tr|]. intros E (Hb & _)%silent_iff. unfold BisimPartition.is_silent, is_tau in H1. by rewrite Hb, E in H1.
Qed.

Lemma first_complete s a t : lstep aut s a t -> (a = const_tau_label_index -> ~ silent s t) ->
  exists tr, tr ∈ non_inert /\ from tr = s /\ hid (label tr) = a /\ to tr = t.
Proof.
  intros (tr & Hin & <- & Hl & <-) Hn. destruct (is_silent tr) eqn:E.
  - assert (Hs : branching = true /\ a = const_tau_label_index).
    { unfold BisimPartition.is_silent, is_tau in E. apply andb_true_iff in E as [E1 E2%Nat.eqb_eq]. split; [done|congruence]. }
    destruct Hs as [Hb ->]. exists (loop_of tr). cbn [loop_of from label to]. rewrite hid_tau0. split; [|done]. apply elem_of_app. left.
    apply list_elem_of_fmap_2, list_elem_of_filter. rewrite Hts. split; [|done]. split; [done|].
    destruct (decide (preserve_divergences = true /\ from tr = to tr)) as [?|Hne]; [done|]. destruct (Hn eq_refl). apply silent_iff.
    split; [done|]. split; [by exists tr|done].
  - exists tr. split; [|done]. apply elem_of_app. right. apply list_elem_of_filter. by rewrite Htr1.
Qed.

Lemma first_data : data p.
Proof.
  split.
  - cbn. apply length_replicate.
  - intros s b [_ ->]%first_index. cbn. lia.
  - intros b b' s [-> ->]%first_block. rewrite first_members, first_index. tauto.
  - intros b b' s t [-> ->]%first_block [Hs _]%list_elem_of_filter Hst. apply (inert_of_silent ts s t Hts) in Hst. rewrite Hs in Hst. by apply elem_of_nil in Hst.
  - intros b b' k [-> ->]%first_block (_ & _ & ?)%first_non_bottom. done.
  - intros b b' k t [-> ->]%first_block (H1 & H2 & _)%first_non_bottom. rewrite H2, (inert_of_silent ts _ t Hts), first_index.
    split; [|tauto]. intros H. split; [done|]. split; [|done]. by apply (silent_bound tau_action _ _ _ Hwf) in H as [_ ?].
  - by intros b b' [-> ->]%first_block.
  - by intros b b' [-> ->]%first_block.
  - intros b b' tr [-> ->]%first_block Htr. apply first_non_inert in Htr as [H1 H2]. split; [done|]. rewrite !first_index.
    split; [|intros E Hs; by apply H2 in Hs]. by apply (lstep_bound tau_action aut Hwf) in H1 as [_ ?].
  - intros s a t b b' Hst [-> ->]%first_block _ Hc. apply first_complete; [done|]. intros E Hs. apply (Hc E Hs), first_index.
    by apply (lstep_bound tau_action aut Hwf) in Hst as [? _].
  - intros b b' [-> ->]%first_block. apply StronglySorted_app_2.
    + intros x y Hx _. apply list_elem_of_fmap in Hx as (t & -> & _). cbn [loop_of label]. rewrite hid_tau0. unfold const_tau_label_index. lia.
    + apply StronglySorted_all. intros x y Hx Hy. apply list_elem_of_fmap in Hx as (t & -> & _). apply list_elem_of_fmap in Hy as (u & -> & _). done.
    + by apply StronglySorted_filter.
  - intros b b' s [-> ->]%first_block _. cbn. lia.
  - by intros b c b' c' s t [-> _]%first_block [-> _]%first_block.
  - intros c Hc. exists 0, blk, 0. split; [done|]. split; [by apply first_members|]. cbn in Hc. cbn. lia.
  - done.
  - cbn. apply length_replicate.
  - done.
Qed.

Lemma first_ready : ready aut branching preserve_divergences (p, true).
Proof.
  split; cbn [fst snd]; try done; try apply first_data.
  - intros s t Hs Ht _. cbn. by rewrite !lookup_replicate_2.
  - intros s. cbn. rewrite lookup_replicate. by intros [? _].
  - intros b. cbn. by destruct b.
  - intros b Hb. by apply elem_of_nil in Hb.
  - by left.
Qed.

End First.

Lemma create_initial_partition_spec : exists p trans1, trans1 ≡ₚ m_transitions aut /\
  create_initial_partition aut branching preserve_divergences = Some (p, set_transitions trans1 aut) /\
  ready aut branching preserve_divergences (p, true) /\ max_state_index p = 1 /\ to_be_processed p = [].
Proof.
  set (ts := sort_transitions (m_transitions aut) (m_hidden_label_set aut) src_lbl_tgt).
  set (trans1 := sort_transitions ts (m_hidden_label_set aut) lbl_tgt_src).
  assert (Hts : ts ≡ₚ m_transitions aut) by apply sort_transitions_perm.
  assert (Htr1 : trans1 ≡ₚ m_transitions aut) by (unfold trans1; by rewrite sort_transitions_perm).
  assert (Hs1 : StronglySorted (fun t u => from t <= from u) ts) by (apply sorted_first; intros t; by eexists).
  assert (Hs2 : StronglySorted (fun t u => hid (label t) <= hid (label u)) trans1).
  { apply sorted_first. intros t. eexists. cbn. unfold apply_hidden_labels, apply_hidden_label_map. done. }
  destruct (collected ts Hts Hs1) as (st & E & E1 & E2 & E3).
  destruct (order_on_tau_reachability_spec (init_non_bottom st) (filter (fun s => inert_of ts s = []) (seq 0 n)) silent) as (L & EL & HL & HLn & HLo).
  - rewrite E2, <- list_fmap_compose. change (nb_state ∘ _) with (id : nat -> nat). rewrite list_fmap_id. apply NoDup_filter, NoDup_seq.
  - done.
  - rewrite E2. intros k t (s & -> & [H1 H2%elem_of_seq]%list_elem_of_filter)%list_elem_of_fmap Ht. cbn in *.
    apply (inert_of_silent ts s t Hts) in Ht. split; [done|]. rewrite <- list_fmap_compose. change (nb_state ∘ _) with (id : nat -> nat). rewrite list_fmap_id.
    apply (silent_bound tau_action _ _ _ Hwf) in Ht as [_ Ht]. rewrite !list_elem_of_filter, !elem_of_seq.
    destruct (decide (inert_of ts t = [])); [right|left]; split; try done; lia.
  - rewrite E2 in HL. eexists _, trans1. split; [done|]. split.
    + unfold create_initial_partition. fold ts. rewrite E. cbn [mbind option_bind]. rewrite EL. cbn [mbind option_bind]. fold trans1.
      by rewrite E1, E3.
    + split; [by apply first_ready|done].
Qed.

End Initial.
