(* ===== verification/BisimQuotient.v ===== *)
(** * Correctness of the bisimulation partitioner: the partition and the quotient

    The partition [make_bisim_partitioner] returns is bisimilarity, and the
    transition system [bisim_replace_transition_system] builds from it is bisimilar
    to the original and has no bisimilar states. *)

From Stdlib Require Import Lia.
From stdpp Require Import base numbers sets list gmap sorting relations.
From S2P Require Import Prelude Lts Scc SccTheorems Bisimulation LtsMerge BisimPartition BisimCorrect BisimRefine BisimInitial.

#[local] Arguments Nat.ltb : simpl never.
#[local] Arguments Nat.eqb : simpl never.

(** ** [std::set<transition>] *)

Lemma transition_lt_iff t u : transition_lt t u = true <->
  from t < from u \/ from t = from u /\ (label t < label u \/ label t = label u /\ to t < to u).
Proof. unfold transition_lt. rewrite !orb_true_iff, !andb_true_iff, !orb_true_iff, !andb_true_iff, !Nat.ltb_lt, !Nat.eqb_eq. tauto. Qed.

Lemma transition_lt_total t u : transition_lt t u = false -> transition_lt u t = false -> t = u.
Proof.
  intros H1 H2. apply not_true_iff_false in H1, H2. rewrite transition_lt_iff in H1, H2.
  destruct t as [a b c], u as [a' b' c']. cbn in *. f_equal; lia.
Qed.

Lemma set_insert_elem t l u : u ∈ set_insert t l <-> u = t \/ u ∈ l.
Proof.
  induction l as [|v l IH]; cbn [set_insert]; [rewrite list_elem_of_singleton, elem_of_nil; tauto|].
  destruct (transition_lt t v) eqn:E1; [by rewrite elem_of_cons|].
  destruct (transition_lt v t) eqn:E2; rewrite !elem_of_cons, ?IH; [tauto|].
  rewrite (transition_lt_total t v E1 E2). split; [tauto|]. intros [->|?]; [by left|done].
Qed.

Lemma transition_set_sorted t l :
  StronglySorted (fun t u => transition_lt t u = true) l -> StronglySorted (fun t u => transition_lt t u = true) (set_insert t l).
Proof.
  induction 1 as [|v l Hs IH Hv]; cbn [set_insert]; [repeat constructor|].
  assert (Hc : StronglySorted (fun t u => transition_lt t u = true) (v :: l)) by (by constructor).
  destruct (transition_lt t v) eqn:E1; [|destruct (transition_lt v t) eqn:E2; [|done]]; constructor; try done.
  - apply Forall_forall. intros u [->|Hu]%elem_of_cons; [done|]. rewrite Forall_forall in Hv. specialize (Hv u Hu).
    rewrite transition_lt_iff in *. lia.
  - apply Forall_forall. intros u [->|Hu]%set_insert_elem; [done|]. rewrite Forall_forall in Hv. auto.
Qed.

Lemma transition_sorted_nodup l : StronglySorted (fun t u => transition_lt t u = true) l -> NoDup l.
Proof.
  induction 1 as [|v l Hs IH Hv]; constructor; [|done]. intros Hin. rewrite Forall_forall in Hv. specialize (Hv v Hin).
  rewrite transition_lt_iff in Hv. lia.
Qed.

Section Quotient.
Context {SL AL : Type} `{!EqDecision SL} `{!EqDecision AL} (tau_action : AL).
Context (default_label : SL) (label_plus : SL -> SL -> SL).
Context (branching preserve_divergences : bool).

Abbreviation vtau := (vtau branching).
Abbreviation vstep l := (vstep l branching preserve_divergences).
Abbreviation silent l := (silent l branching preserve_divergences).

Lemma vstep_permute (aut : lts SL AL) ts s a t : ts ≡ₚ m_transitions aut -> vstep (set_transitions ts aut) s a t <-> vstep aut s a t.
Proof.
  intros Hp. unfold BisimCorrect.vstep, lstep. cbn [m_transitions set_transitions].
  split; intros [(tr & Htr & Hr) Hd]; (split; [exists tr; split; [|exact Hr]|exact Hd]); revert Htr; by rewrite Hp.
Qed.

(** ** The partition *)

(** The classes are those of bisimilarity. *)
Record classes_spec (aut : lts SL AL) (p : partitioner) : Prop := {
  class_count : bisim_num_eq_classes p <= num_states aut;
  class_range : forall s, s < num_states aut -> bisim_get_eq_class p s < bisim_num_eq_classes p;
  class_onto : forall c, c < bisim_num_eq_classes p -> exists s, s < num_states aut /\ bisim_get_eq_class p s = c;
  class_bisimilar : forall s t, s < num_states aut -> t < num_states aut ->
    bisim_get_eq_class p s = bisim_get_eq_class p t <-> bisimilar vtau (vstep aut) (vstep aut) s t
}.

Lemma make_bisim_partitioner_spec (aut : lts SL AL) : branching || negb preserve_divergences = true ->
  wf_lts tau_action aut -> (forall s, ~ tc (silent aut) s s) -> 0 < num_states aut ->
  exists p ts, ts ≡ₚ m_transitions aut /\
    make_bisim_partitioner aut branching preserve_divergences = Some (p, set_transitions ts aut) /\ classes_spec aut p.
Proof.
  intros Hopt Hw Hac Hpos.
  destruct (create_initial_partition_spec tau_action aut branching preserve_divergences Hw Hac Hpos)
    as (p0 & ts & Hts & E & Hr & Hm & Hq).
  destruct (refine_loop_spec tau_action aut branching preserve_divergences Hw (refine_fuel aut) (p0, true)) as (p & Ep & Hd & Hc & Hst); [|done|].
  { unfold potential, refine_fuel. cbn [fst snd]. rewrite Hm, Hq. cbn [length]. nia. }
  eexists _, ts. split; [done|]. unfold make_bisim_partitioner. rewrite Hopt, E. cbn [mbind option_bind fst snd].
  unfold refine_partition_until_it_becomes_stable. rewrite Ep. split; [done|]. set (p' := mk_bisim _ _ _ _ _ _ _ _).
  split; change (bisim_num_eq_classes p') with (bisim_num_eq_classes p); change (bisim_get_eq_class p') with (bisim_get_eq_class p).
  - by apply (max_state_index_bound aut branching preserve_divergences).
  - intros s Hs. destruct (class_of_state aut branching preserve_divergences p Hd s Hs) as (b & blk & _ & Hb & Hm' & ->).
    by apply (d_index _ _ _ _ Hd b blk s).
  - intros c Hcn. destruct (d_onto _ _ _ _ Hd c Hcn) as (b & blk & s & Hb & Hs & <-).
    assert (Hsn : s < num_states aut) by (by apply (member_bound aut branching preserve_divergences p Hd b blk)).
    exists s. split; [done|]. destruct (class_of_state aut branching preserve_divergences p Hd s Hsn) as (b' & blk' & E1 & Hb' & _ & ->).
    apply (d_member _ _ _ _ Hd b blk s Hb) in Hs. congruence.
  - intros s t Hs Ht. rewrite (class_same aut branching preserve_divergences p Hd s t Hs Ht).
    by apply (same_block_bisimilar tau_action aut branching preserve_divergences Hw p Hd Hst).
Qed.

(** ** The quotient *)

Section Result.
Context (aut : lts SL AL) (Hwf : wf_lts tau_action aut) (p : partitioner) (Hp : classes_spec aut p).

Abbreviation class := (bisim_get_eq_class p).

Lemma resulting_transitions_spec :
  (forall t', t' ∈ resulting_transitions aut branching preserve_divergences p <->
     exists t, t ∈ m_transitions aut /\ keeps_transition aut branching preserve_divergences p t = true /\ t' = quotient_transition aut p t) /\
  NoDup (resulting_transitions aut branching preserve_divergences p).
Proof.
  unfold resulting_transitions. set (ts := m_transitions aut). set (f := fun l t => _).
  assert (H : (forall t', t' ∈ foldl f [] ts <-> exists t, t ∈ ts /\ keeps_transition aut branching preserve_divergences p t = true /\
      t' = quotient_transition aut p t) /\ StronglySorted (fun t u => transition_lt t u = true) (foldl f [] ts)).
  { induction ts as [|t ts [IH1 IH2]] using rev_ind.
    - split; [|constructor]. intros t'. rewrite elem_of_nil. split; [done|]. by intros (t & Ht%elem_of_nil & _).
    - rewrite foldl_snoc. unfold f at 1 3. destruct (keeps_transition aut branching preserve_divergences p t) eqn:Ek.
      + split; [|by apply transition_set_sorted]. intros t'. rewrite set_insert_elem, IH1. setoid_rewrite elem_of_app.
        setoid_rewrite list_elem_of_singleton. naive_solver.
      + split; [|done]. intros t'. rewrite IH1. setoid_rewrite elem_of_app. setoid_rewrite list_elem_of_singleton. naive_solver congruence. }
  split; [apply H|apply transition_sorted_nodup, H].
Qed.

Lemma bisim_add_transitions ts us : 
  foldl (fun aut t => add_transition t aut) (set_transitions us aut) ts = set_transitions (us ++ ts) aut.
Proof.
  revert us. induction ts as [|t ts IH]; intros us; cbn [foldl]; [by rewrite app_nil_r|].
  change (add_transition t (set_transitions us aut)) with (set_transitions (us ++ [t]) aut). by rewrite IH, <- app_assoc.
Qed.

Record bisim_quotient (l' : lts SL AL) : Prop := {
  bq_states : num_states l' = bisim_num_eq_classes p;
  bq_init : m_init_state l' = class (m_init_state aut);
  bq_actions : m_action_labels l' = m_action_labels aut;
  bq_hidden : m_hidden_label_set l' = m_hidden_label_set aut;
  bq_transitions : forall t', t' ∈ m_transitions l' <-> exists t, t ∈ m_transitions aut /\
    keeps_transition aut branching preserve_divergences p t = true /\ t' = quotient_transition aut p t;
  bq_nodup : NoDup (m_transitions l');
  bq_label_count : length (m_state_labels l') = bisim_num_eq_classes p;
  bq_labels : has_state_info aut = true -> forall c, c < bisim_num_eq_classes p ->
    m_state_labels l' !! c = Some (class_label default_label label_plus aut class c (reverse (seq 0 (num_states aut))))
}.

Lemma bisim_merge_state_labels_spec ts : (has_state_info aut = true -> length (m_state_labels aut) = num_states aut) ->
  let l := set_transitions ts aut in
  exists sl, bisim_merge_state_labels default_label label_plus p l =
      Some (set_state_labels sl (set_nstates (bisim_num_eq_classes p) l)) /\
    length sl = bisim_num_eq_classes p /\
    (has_state_info aut = true -> forall c, c < bisim_num_eq_classes p ->
       sl !! c = Some (class_label default_label label_plus aut class c (reverse (seq 0 (num_states aut))))).
Proof.
  intros Hlabels l. unfold bisim_merge_state_labels. change (has_state_info l) with (has_state_info aut). set (m := bisim_num_eq_classes p).
  assert (Hset : exists sl, set_num_states default_label m true l = set_state_labels sl (set_nstates m l) /\ length sl = m).
  { unfold set_num_states. destruct (0 <? _); eexists; (split; [done|]); [apply length_resize|apply length_replicate]. }
  destruct Hset as (sl0 & -> & Hl0). destruct (decide (has_state_info aut = true)) as [Ei|Ei]; [rewrite Ei|].
  2: { exists sl0. rewrite (not_true_is_false _ Ei). by split_and!. }
  destruct (merge_labels_loop default_label label_plus aut class m (class_range _ _ Hp) l
    (reverse (seq 0 (num_states aut)))) as (nl & E & Hl & Hc); auto.
  { intros i Hi. apply elem_of_reverse, elem_of_seq in Hi. lia. }
  change (foldl (bisim_merge_label_step label_plus p l) (Some (replicate m default_label)) (reverse (seq 0 (num_states aut))) = Some nl) in E.
  change (num_states l) with (num_states aut). rewrite E. cbn [mbind option_bind].
  destruct (set_labels_loop m (set_state_labels sl0 (set_nstates m l)) nl m) as (sl & E' & Hl' & Hc'); auto.
  exists sl. split; [done|]. split; [done|]. intros _ c Hcn. by rewrite Hc', Hc.
Qed.

Lemma bisim_replace_spec :
  (has_state_info aut = true -> length (m_state_labels aut) = num_states aut) -> m_init_state aut < num_states aut -> exists l',
  bisim_replace_transition_system default_label label_plus p branching preserve_divergences aut = Some l' /\ bisim_quotient l'.
Proof.
  intros Hlabels Hinit. unfold bisim_replace_transition_system. change (clear_transitions aut) with (set_transitions [] aut).
  rewrite bisim_add_transitions. cbn [app]. set (ts := resulting_transitions _ _ _ _).
  destruct (bisim_merge_state_labels_spec ts Hlabels) as (sl & -> & Hl & Hc). cbn [mbind option_bind]. unfold set_initial_state. cbn.
  rewrite (proj2 (Nat.ltb_lt _ _) (class_range _ _ Hp _ Hinit)). eexists. split; [done|].
  split; cbn; try done; apply resulting_transitions_spec.
Qed.

Context (l' : lts SL AL) (Hq : bisim_quotient l').

Lemma bq_label t : apply_hidden_label_map (label (quotient_transition aut p t)) l' = apply_hidden_label_map (label t) aut.
Proof.
  unfold quotient_transition, apply_hidden_label_map, is_tau. cbn. rewrite (bq_hidden _ Hq).
  destruct (Nat.eqb_spec (if decide (label t ∈ m_hidden_label_set aut) then const_tau_label_index else label t) const_tau_label_index)
    as [E|E]; [rewrite E; by destruct (decide (const_tau_label_index ∈ _))|done].
Qed.

Lemma bq_wf : wf_lts tau_action l'.
Proof.
  destruct Hwf as [W1 W2 W3 W4 W5]. split; rewrite ?(bq_actions _ Hq); try done;
    intros t' (t & Ht & _ & ->)%(bq_transitions _ Hq); cbn; try change (m_nstates l') with (num_states l').
  - destruct (is_tau _); [by apply lookup_lt_Some in W1|auto].
  - rewrite (bq_states _ Hq). by apply (class_range _ _ Hp), W4.
  - rewrite (bq_states _ Hq). by apply (class_range _ _ Hp), W5.
Qed.

(** What is kept: everything but the inert transitions. *)
Lemma keeps_transition_iff t d :
  d = branching && preserve_divergences && is_tau (apply_hidden_label_map (label t) aut) && (from t =? to t) ->
  keeps_transition aut branching preserve_divergences p t = true <->
  ~ (vtau = Some (apply_hidden_label_map (label t) aut, d) /\ class (from t) = class (to t)).
Proof.
  intros ->. unfold keeps_transition, vtau. destruct branching; cbn [negb orb andb]; [|by split; [intros _ [? _]|]].
  unfold is_tau. destruct (Nat.eqb_spec (apply_hidden_label_map (label t) aut) const_tau_label_index) as [->|E]; cbn [negb orb andb].
  - destruct (Nat.eqb_spec (class (from t)) (class (to t))) as [E|E]; cbn [negb orb].
    + rewrite andb_true_r. destruct (preserve_divergences && (from t =? to t)); split; try done; intros H; try by destruct H.
      by intros [? _].
    + split; [|done]. intros _ [_ ?]. done.
  - split; [|done]. intros _ [[=] _]. congruence.
Qed.

Lemma bq_step c a c' : vstep l' c a c' <->
  exists s t, vstep aut s a t /\ class s = c /\ class t = c' /\ ~ (vtau = Some a /\ c = c').
Proof.
  assert (Hd : forall s t i, ~ (vtau = Some (i, branching && preserve_divergences && is_tau i && (s =? t)) /\ class s = class t) ->
    branching && preserve_divergences && is_tau i && (class s =? class t) = branching && preserve_divergences && is_tau i && (s =? t)).
  { intros s t i Hn. destruct (Nat.eqb_spec s t) as [->|Hst]; [by rewrite Nat.eqb_refl|]. rewrite andb_false_r in *.
    destruct (Nat.eqb_spec (class s) (class t)) as [E|E]; [|apply andb_false_r]. rewrite andb_true_r. unfold vtau, is_tau in *.
    destruct branching; [|done]. destruct (Nat.eqb_spec i const_tau_label_index) as [->|]; [|by rewrite andb_false_r]. by destruct Hn. }
  destruct a as [i d]. unfold BisimCorrect.vstep, lstep. cbn [fst snd]. split.
  - intros [(tr' & Htr' & <- & <- & <-) ->]. apply (bq_transitions _ Hq) in Htr' as (tr & Htr & Hk & ->). rewrite bq_label. cbn [from to quotient_transition].
    apply (keeps_transition_iff tr _ eq_refl) in Hk. rewrite Hd by done. exists (from tr), (to tr).
    split; [split; [by exists tr|done]|]. by split_and!.
  - intros (s & t & [(tr & Htr & <- & <- & <-) ->] & <- & <- & Hk). split; [|by rewrite Hd].
    exists (quotient_transition aut p tr). split; [|rewrite bq_label; by split_and!].
    apply (bq_transitions _ Hq). exists tr. split; [done|]. split; [|done]. by apply (keeps_transition_iff tr _ eq_refl).
Qed.

Definition in_bisim_class (s c : nat) : Prop := s < num_states aut /\ class s = c.

Lemma bq_bisimulation : bisimulation vtau (vstep aut) (vstep l') in_bisim_class.
Proof.
  assert (Hb : forall s a t, vstep aut s a t -> s < num_states aut /\ t < num_states aut).
  { intros s a t [H _]. by apply (lstep_bound tau_action aut Hwf) in H. }
  split.
  - intros s c a t [Hs <-] Hst. apply Hb in Hst as Hn. destruct Hn as [_ Ht].
    destruct (decide (vtau = Some a /\ class s = class t)) as [[Ea E]|Hk]; [left; by split|right].
    exists (class s), (class t). split; [apply rtc_refl|]. split; [done|]. split; [|done].
    apply bq_step. exists s, t. by split_and!.
  - intros c s a c' [Hs Hc] Hst. apply bq_step in Hst as (u & t & Hut & Hu & <- & _). apply Hb in Hut as Hn. destruct Hn as [Hun Htn].
    assert (Hus : bisimilar vtau (vstep aut) (vstep aut) u s) by (apply (class_bisimilar _ _ Hp); [done|done|congruence]).
    destruct (bisimilar_simulation _ _ u s a t Hus Hut) as [[Ea Hts]|(s' & t' & Hr & Hus' & Hst' & Htt')].
    + left. split; [done|]. split; [done|]. symmetry. by apply (class_bisimilar _ _ Hp).
    + apply Hb in Hst' as Hn. destruct Hn as [Hs' Ht']. right. exists s', t'. split; [done|].
      unfold flip, in_bisim_class. split_and!; try done; [|symmetry; by apply (class_bisimilar _ _ Hp)].
      rewrite <- Hu. symmetry. by apply (class_bisimilar _ _ Hp).
Qed.

(** No two states of the quotient are bisimilar. *)
Lemma bq_minimal c d : c < num_states l' -> d < num_states l' -> bisimilar vtau (vstep l') (vstep l') c d -> c = d.
Proof.
  rewrite (bq_states _ Hq). intros Hc Hd H. destruct (class_onto _ _ Hp c Hc) as (s & Hs & <-). destruct (class_onto _ _ Hp d Hd) as (t & Ht & <-).
  apply (class_bisimilar _ _ Hp); [done|done|]. by apply (bisimilar_transfer _ (vstep aut) (vstep l') in_bisim_class _ (class s) _ (class t) bq_bisimulation).
Qed.

(** The inert transitions of the quotient have no cycles. *)
Lemma bq_silent_down : (forall s t, silent aut s t -> t < s) ->
  forall c d, silent l' c d -> forall s, in_bisim_class s c -> exists t, in_bisim_class t d /\ t < s.
Proof.
  intros Hlow c d (a & Ea & H) s Hs. pose proof H as (u0 & t0 & _ & _ & _ & Hk)%bq_step.
  destruct (proj2 bq_bisimulation c s a d Hs H) as [[_ [_ E]]|(u & t & Hr & _ & Hut & Ht)].
  - destruct Hk. split; [done|]. destruct Hs. congruence.
  - exists t. split; [done|]. assert (Hsu : u <= s) by (clear -Hr Hlow; induction Hr as [|x y z Hxy _ IH]; [lia|]; specialize (Hlow x y Hxy); lia).
    assert (t < u) by (apply Hlow; by exists a). lia.
Qed.

Lemma bq_acyclic : (forall s t, silent aut s t -> t < s) -> forall c, ~ tc (silent l') c c.
Proof.
  intros Hlow c Hc.
  assert (Hdown : forall c d, tc (silent l') c d -> forall s, in_bisim_class s c -> exists t, in_bisim_class t d /\ t < s).
  { clear c Hc. intros c d H. induction H as [c d H|c d e H _ IH]; intros s Hs; [by apply (bq_silent_down Hlow c)|].
    destruct (bq_silent_down Hlow c d H s Hs) as (t & Ht & Hlt). destruct (IH t Ht) as (t' & Ht' & ?). exists t'. split; [done|lia]. }
  assert (Hno : forall s, ~ in_bisim_class s c).
  { intros s. induction s as [s IH] using lt_wf_ind. intros Hs. destruct (Hdown c c Hc s Hs) as (t & Ht & Hlt). by apply (IH t). }
  assert (exists d, silent l' c d) as (d & a & Ea & Hst) by (inversion Hc; eauto). apply bq_step in Hst as (s & t & [Hst _] & Hs & _).
  apply (Hno s). split; [|done]. by apply (lstep_bound tau_action aut Hwf) in Hst as [? _].
Qed.

End Result.

End Quotient.
