(* ===== verification/BisimTheorems.v ===== *)
(** * Correctness of the bisimulation reduction and comparison

    [bisimulation_reduce] and [destructive_bisimulation_compare] for strong,
    branching and divergence preserving branching bisimulation.  Divergence is an
    observable loop at the states that are on a cycle of tau steps ([dstep]). *)

From Stdlib Require Import Lia.
From stdpp Require Import base numbers sets list gmap sorting relations strings.
From S2P Require Import Prelude Lts Scc SccTheorems Bisimulation LtsMerge BisimPartition BisimCorrect BisimRefine BisimInitial BisimQuotient.

#[local] Arguments Nat.ltb : simpl never.
#[local] Arguments Nat.eqb : simpl never.

Section Theorems.
Context {SL AL : Type} `{!EqDecision SL} `{!EqDecision AL} (tau_action : AL).
Context (default_label : SL) (label_plus : SL -> SL -> SL).
Context (branching preserve_divergences : bool).

Abbreviation vtau := (vtau branching).
Abbreviation vstep l := (vstep l branching preserve_divergences).
Abbreviation silent l := (silent l branching preserve_divergences).

(** The transitions and divergences of a transition system, by label number. *)
Definition istep (l : lts SL AL) : nat -> nat * bool -> nat -> Prop :=
  dstep const_tau_label_index (branching && preserve_divergences) (lstep l).

Lemma vstep_istep (l : lts SL AL) s a t : vstep l s a t -> istep l s a t.
Proof.
  intros [H Hd]. destruct a as [i d]. cbn in *. unfold istep, dstep. cbn. subst d. case_match eqn:E; [|done].
  apply andb_true_iff in E as [[[-> ->]%andb_true_iff E]%andb_true_iff Est]. unfold is_tau in E. apply Nat.eqb_eq in E, Est. subst. split_and!; try done. by apply tc_once.
Qed.

(** ** Without cycles of inert transitions *)

Section Acyclic.
Context (l : lts SL AL) (Hac : forall s, ~ tc (silent l) s s).

Lemma tau_cycle_loop s : branching && preserve_divergences = true -> tc (tau_step l) s s -> tau_step l s s.
Proof.
  intros Hbp Hc. apply andb_true_iff in Hbp as [Hb Hpd].
  assert (H : forall s t, tc (tau_step l) s t -> (s = t /\ tau_step l s s) \/ tc (silent l) s t).
  { intros x y H. induction H as [x y H|x u y H _ IH].
    - destruct (decide (x = y)) as [->|Hne]; [by left|right]. apply tc_once, silent_iff. by split_and!; [|done|intros [_ ?]].
    - destruct (decide (x = u)) as [->|Hne]; [done|]. assert (Hs : silent l x u) by (apply silent_iff; by split_and!; [|done|intros [_ ?]]).
      right. destruct IH as [[-> _]|IH]; [by apply tc_once|by apply (tc_l _ x u)]. }
  destruct (H s s Hc) as [[_ ?]|H']; [done|by apply Hac in H'].
Qed.

Lemma istep_vstep s a t : istep l s a t -> vstep l s a t \/ (vtau = Some a /\ s = t).
Proof.
  destruct a as [i []]; unfold istep, dstep; cbn.
  - intros (E & -> & -> & Hc). left. split; [by apply tau_cycle_loop|]. cbn. rewrite E, Nat.eqb_refl. done.
  - intros H. destruct (branching && preserve_divergences && is_tau i && (s =? t)) eqn:E; [right|left].
    + apply andb_true_iff in E as [[[Hb _]%andb_true_iff E]%andb_true_iff Est]. unfold is_tau in E. apply Nat.eqb_eq in E, Est.
      unfold vtau. rewrite Hb. by subst i t.
    + split; [done|]. cbn. by rewrite E.
Qed.

Lemma rtc_inert_iff s t : rtc (inert vtau (vstep l)) s t <-> rtc (inert vtau (istep l)) s t.
Proof.
  split; (induction 1 as [s|s u t (a & Ha & Hs) _ IH]; [apply rtc_refl|]).
  - apply (rtc_l _ _ u); [exists a; split; [done|by apply vstep_istep]|done].
  - apply istep_vstep in Hs as [Hs|[_ ->]]; [|done]. apply (rtc_l _ _ u); [by exists a|done].
Qed.

End Acyclic.

Lemma simulation_istep (l1 l2 : lts SL AL) R : (forall s, ~ tc (silent l1) s s) -> (forall s, ~ tc (silent l2) s s) ->
  simulation vtau (vstep l1) (vstep l2) R -> simulation vtau (istep l1) (istep l2) R.
Proof.
  intros A1 A2 H s1 s2 a t1 HR Hs. apply (istep_vstep l1 A1) in Hs as [Hs|[Ha ->]]; [|by left].
  destruct (H s1 s2 a t1 HR Hs) as [?|(u2 & t2 & Hr & Hu & Hst & Ht)]; [by left|right].
  exists u2, t2. split_and!; [by apply rtc_inert_iff|done|by apply vstep_istep|done].
Qed.

Lemma bisimilar_istep (l : lts SL AL) s t : (forall s, ~ tc (silent l) s s) ->
  bisimilar vtau (vstep l) (vstep l) s t <-> bisimilar vtau (istep l) (istep l) s t.
Proof.
  intros Hac. split.
  - intros (R & [R1 R2] & HR). exists R. split; [|done]. split; by apply simulation_istep.
  - rewrite !bisimilar_semi. intros (R & [R1 R2] & HR). exists R. split; [|done].
    enough (H : forall R, semi_simulation vtau (istep l) (istep l) R -> semi_simulation vtau (vstep l) (vstep l) R) by (split; by apply H).
    clear -Hac. intros R H s1 s2 a t1 HR Hs. apply vstep_istep in Hs.
    destruct (H s1 s2 a t1 HR Hs) as (u2 & Hr & Hu & Ht). exists u2. split; [by apply rtc_inert_iff|]. split; [done|].
    destruct Ht as [?|(t2 & Hst & Ht)]; [by left|]. apply (istep_vstep l Hac) in Hst as [Hst|[Ha ->]]; [right; by exists t2|by left].
Qed.

(** ** Removing tau loops first *)

(** [l1] is what the partitioner is applied to, and [f] gives the state of [l1] for
    a state of [l]. *)
Record prepared (l l1 : lts SL AL) (f : nat -> nat) : Prop := {
  prep_wf : wf_lts tau_action l1;
  prep_labels : has_state_info l1 = true -> length (m_state_labels l1) = num_states l1;
  prep_range : forall s, s < num_states l -> f s < num_states l1;
  prep_onto : forall c, c < num_states l1 -> exists s, s < num_states l /\ f s = c;
  prep_init : m_init_state l1 = f (m_init_state l);
  prep_actions : m_action_labels l1 = m_action_labels l;
  prep_hidden : m_hidden_label_set l1 = m_hidden_label_set l;
  prep_bisimulation : bisimulation vtau (istep l) (istep l1) (fun s c => s < num_states l /\ f s = c);
  prep_down : forall s t, silent l1 s t -> t < s
}.

Lemma prepared_strong (l : lts SL AL) : branching = false -> wf_lts tau_action l ->
  (has_state_info l = true -> length (m_state_labels l) = num_states l) -> prepared l l (fun s => s).
Proof.
  intros Hb Hw Hl. assert (Hst : forall s a t, istep l s a t -> s < num_states l -> t < num_states l).
  { intros s [i d] t H _. unfold istep, dstep in H. rewrite Hb in H. destruct d; cbn in H; [by destruct H|].
    by apply (lstep_bound tau_action l Hw) in H as [_ ?]. }
  split; try done; eauto.
  - split; intros s c a t [Hs E] H; unfold flip in *; subst; right.
    + exists c, t. split_and!; [apply rtc_refl|done|done|done|by eapply Hst|done].
    + eexists s, t. split_and!; [apply rtc_refl|done|done|done|by eapply Hst|done].
  - intros s t (Hb' & _)%silent_iff. congruence.
Qed.

Section Scc.
Context (l : lts SL AL) (Hb : branching = true) (Hw : wf_lts tau_action l).
Context (p : scc_partitioner) (Hp : partition_spec l p) (l1 : lts SL AL).
Context (Hq : quotient_spec default_label label_plus l p preserve_divergences l1).

Lemma scc_down s t : silent l1 s t -> t < s.
Proof.
  intros (_ & Hst & Hne)%silent_iff. pose proof (quotient_tau_order _ _ l p Hp _ l1 Hq s t Hst) as Hle.
  apply (quotient_step _ _ l p _ l1 Hq) in Hst as (x & y & _ & _ & _ & Hk). specialize (Hk eq_refl).
  destruct preserve_divergences; [|specialize (Hk eq_refl); lia]. assert (s <> t) by (intros ->; by apply Hne). lia.
Qed.

Lemma scc_tau_cycle c : tc (tau_step l1) c c -> tau_step l1 c c.
Proof.
  assert (Hle : forall c d, tc (tau_step l1) c d -> d <= c).
  { intros x y H. induction H as [x y H|x u y H _ IH]; apply (quotient_tau_order _ _ l p Hp _ l1 Hq) in H; lia. }
  intros H. inversion H as [? ? Hcd|? d ? Hcd Hdc]; subst; [done|]. apply Hle in Hdc.
  pose proof (quotient_tau_order _ _ l p Hp _ l1 Hq c d Hcd). by replace d with c in Hcd by lia.
Qed.

Lemma scc_rtc (l0 : lts SL AL) s t : rtc (tau_step l0) s t -> rtc (inert vtau (istep l0)) s t.
Proof.
  apply (rtc_congruence (fun x => x)). intros x y H. exists (const_tau_label_index, false). split; [|done]. unfold vtau. by rewrite Hb.
Qed.

Lemma scc_istep_bisimulation : bisimulation vtau (istep l) (istep l1) (in_class l p).
Proof.
  split; intros s c [i d] t HR Hs; unfold flip in *; destruct d; unfold istep, dstep in Hs; cbn in Hs.
  - destruct Hs as (He & -> & -> & Hc). right. exists c, c. split_and!; try done.
    pose proof HR as [Hs Ecl]. unfold istep, dstep. cbn. split_and!; try done. apply tc_once.
    rewrite <- Ecl. apply (quotient_self_loop tau_action _ _ l Hw p Hp _ l1 Hq s Hs). apply andb_true_iff in He as [_ ->]. done.
  - destruct (proj1 (quotient_bisimulation tau_action _ _ l Hw p Hp _ l1 Hq s c HR) i t Hs) as [[-> ?]|(u & v & Hr & Hu & Huv & Hv)].
    + left. split; [|done]. unfold vtau. by rewrite Hb.
    + right. exists u, v. by split_and!; [apply scc_rtc|..].
  - destruct Hs as (He & -> & -> & Hc%scc_tau_cycle). right. exists c, c. split_and!; try done.
    pose proof HR as [Hc' <-]. unfold istep, dstep. cbn. split_and!; try done.
    by apply (quotient_self_loop tau_action _ _ l Hw p Hp _ l1 Hq c Hc') in Hc as [_ ?].
  - destruct (proj2 (quotient_bisimulation tau_action _ _ l Hw p Hp _ l1 Hq c s HR) i t Hs) as [[-> ?]|(u & v & Hr & Hu & Huv & Hv)].
    + left. split; [|done]. unfold vtau. by rewrite Hb.
    + right. exists u, v. by split_and!; [apply scc_rtc|..].
Qed.

Lemma prepared_scc : prepared l l1 (get_eq_class p).
Proof.
  pose proof (quotient_states _ _ _ _ _ _ Hq) as Es. split.
  - by apply (quotient_wf tau_action default_label label_plus l Hw p Hp preserve_divergences).
  - intros _. rewrite Es. apply Hq.
  - rewrite Es. apply Hp.
  - rewrite Es. apply Hp.
  - apply Hq.
  - apply Hq.
  - apply Hq.
  - apply scc_istep_bisimulation.
  - apply scc_down.
Qed.

End Scc.

(** The transitions may be sorted. *)
Lemma lstep_permute (l : lts SL AL) ts s a t : ts ≡ₚ m_transitions l -> lstep (set_transitions ts l) s a t <-> lstep l s a t.
Proof. intros Hp. unfold lstep. cbn. split; intros (tr & Htr & Hr); exists tr; (split; [|done]); revert Htr; by rewrite Hp. Qed.

Lemma prepared_permute (l l1 : lts SL AL) f ts : ts ≡ₚ m_transitions l1 -> prepared l l1 f -> prepared l (set_transitions ts l1) f.
Proof.
  intros Hp [[W1 W2 W3 W4 W5] H2 H3 H4 H5 H6 H7 H8 H9]. split; try done.
  - split; try done; intros t; cbn; rewrite Hp; auto.
  - assert (Hi : forall s a t, istep l1 s a t <-> istep (set_transitions ts l1) s a t).
    { intros s [i []] t; unfold istep, dstep; cbn; [|by rewrite lstep_permute].
      assert (Hc : tc (fun x y => lstep l1 x const_tau_label_index y) s s <->
                   tc (fun x y => lstep (set_transitions ts l1) x const_tau_label_index y) s s); [|by rewrite Hc].
      split; apply (tc_congruence (fun x => x)); intros x y; by rewrite lstep_permute. }
    split; [eapply simulation_ext; [by intros|exact Hi|apply H8]|eapply simulation_ext; [exact Hi|by intros|apply H8]].
  - intros s t Hst. apply H9. rewrite silent_iff in Hst |- *. unfold tau_step in *. by rewrite lstep_permute in Hst.
Qed.

Lemma down_acyclic (l1 : lts SL AL) : (forall s t, silent l1 s t -> t < s) -> forall s, ~ tc (silent l1) s s.
Proof.
  intros Hd s Hc. assert (H : forall s t, tc (silent l1) s t -> t < s); [|specialize (H s s Hc); lia].
  intros x y H. induction H as [x y H|x u y H _ IH]; apply Hd in H; lia.
Qed.

(** The assertion of the constructor. *)
Context (Hopt : branching || negb preserve_divergences = true).

(** The classes of the prepared transition system give bisimilarity of the
    original one. *)
Lemma partition_prepared (l l1 : lts SL AL) f : prepared l l1 f -> 0 < num_states l1 ->
  exists p l2, make_bisim_partitioner l1 branching preserve_divergences = Some (p, l2) /\ prepared l l2 f /\
    classes_spec branching preserve_divergences l2 p /\
    forall s t, s < num_states l -> t < num_states l ->
      bisim_get_eq_class p (f s) = bisim_get_eq_class p (f t) <-> bisimilar vtau (istep l) (istep l) s t.
Proof.
  intros H Hpos. pose proof (down_acyclic l1 (prep_down _ _ _ H)) as Hac.
  destruct (make_bisim_partitioner_spec tau_action branching preserve_divergences l1 Hopt (prep_wf _ _ _ H) Hac Hpos) as (p & ts & Hts & E & Hc).
  exists p, (set_transitions ts l1). split; [done|]. split; [by apply prepared_permute|]. split.
  - destruct Hc as [C1 C2 C3 C4]. split; try done. intros s t Hs Ht. rewrite C4 by done.
    apply bisimilar_ext; intros; symmetry; by apply vstep_permute.
  - intros s t Hs Ht. rewrite (class_bisimilar _ _ _ _ Hc) by (by apply (prep_range _ _ _ H)). rewrite bisimilar_istep by done. split.
    + by apply (bisimilar_transfer _ _ _ _ _ _ _ _ (prep_bisimulation _ _ _ H)).
    + by apply (bisimilar_transfer _ _ _ _ _ _ _ _ (bisimulation_flip _ _ _ _ (prep_bisimulation _ _ _ H))).
Qed.

Lemma prepare (l : lts SL AL) :
  branching = true -> wf_lts tau_action l -> (Z.of_nat (num_states l) < word_modulus - 1)%Z ->
  (has_state_info l = true -> length (m_state_labels l) = num_states l) -> m_init_state l < num_states l ->
  exists p l1, make_scc_partitioner l = Some p /\
    replace_transition_system default_label label_plus p preserve_divergences l = Some l1 /\ prepared l l1 (get_eq_class p).
Proof.
  intros Hb Hw Hn Hl Hi. destruct (make_scc_partitioner_spec tau_action l Hw Hn) as (p & E & Hp).
  destruct (replace_transition_system_spec default_label label_plus l Hl Hi p Hp preserve_divergences) as (l1 & E1 & Hq).
  exists p, l1. split; [done|]. split; [done|]. by apply prepared_scc.
Qed.

(** The quotient of a prepared transition system. *)
Lemma reduce_prepared (l l1 : lts SL AL) f :
  prepared l l1 f -> m_init_state l < num_states l ->
  exists p l2 l', make_bisim_partitioner l1 branching preserve_divergences = Some (p, l2) /\
    bisim_replace_transition_system default_label label_plus p branching preserve_divergences l2 = Some l' /\
    wf_lts tau_action l' /\ m_action_labels l' = m_action_labels l /\ m_hidden_label_set l' = m_hidden_label_set l /\
    m_init_state l' = bisim_get_eq_class p (f (m_init_state l)) /\
    num_states l' = bisim_num_eq_classes p /\ length (m_state_labels l') = num_states l' /\
    (forall s, s < num_states l -> bisim_get_eq_class p (f s) < num_states l') /\
    (forall c, c < num_states l' -> exists s, s < num_states l /\ bisim_get_eq_class p (f s) = c) /\
    bisimulation vtau (istep l) (istep l') (fun s c => s < num_states l /\ bisim_get_eq_class p (f s) = c) /\
    (forall c d, c < num_states l' -> d < num_states l' -> bisimilar vtau (istep l') (istep l') c d -> c = d) /\
    NoDup (m_transitions l').
Proof.
  intros H Hi. pose proof (prep_range _ _ _ H _ Hi) as Hpos.
  destruct (partition_prepared l l1 f H ltac:(lia)) as (p & l2 & E & H2 & Hc & _). exists p, l2.
  assert (Hi2 : m_init_state l2 < num_states l2) by (rewrite (prep_init _ _ _ H2); by apply (prep_range _ _ _ H2)).
  destruct (bisim_replace_spec default_label label_plus branching preserve_divergences l2 p Hc (prep_labels _ _ _ H2) Hi2) as (l' & E' & Hq).
  pose proof (prep_wf _ _ _ H2) as Hw2.
  pose proof (bq_acyclic tau_action _ _ _ _ l2 Hw2 p Hc l' Hq (prep_down _ _ _ H2)) as Hac'.
  pose proof (down_acyclic l2 (prep_down _ _ _ H2)) as Hac2. pose proof (bq_states _ _ _ _ _ _ _ Hq) as Es.
  exists l'. split_and!; try done.
  - by apply (bq_wf tau_action default_label label_plus branching preserve_divergences l2 Hw2 p Hc).
  - rewrite (bq_actions _ _ _ _ _ _ _ Hq). apply H2.
  - rewrite (bq_hidden _ _ _ _ _ _ _ Hq). apply H2.
  - rewrite (bq_init _ _ _ _ _ _ _ Hq). f_equal. apply H2.
  - rewrite Es. apply Hq.
  - intros s Hs. rewrite Es. apply (class_range _ _ _ _ Hc). by apply (prep_range _ _ _ H2).
  - intros c. rewrite Es. intros Hcn. destruct (class_onto _ _ _ _ Hc c Hcn) as (u & Hu & <-).
    destruct (prep_onto _ _ _ H2 u Hu) as (s & Hs & <-). by exists s.
  - pose proof (bq_bisimulation tau_action _ _ _ _ l2 Hw2 p Hc l' Hq) as [B1 B2].
    apply (simulation_istep l2 l' _ Hac2 Hac') in B1. apply (simulation_istep l' l2 _ Hac' Hac2) in B2.
    apply (bisimulation_iff _ _ _ (fun x z => exists y, (x < num_states l /\ f x = y) /\ in_bisim_class l2 p y z)).
    + intros s c. unfold in_bisim_class. split; [intros (y & [? <-] & ? & <-); done|]. intros [? <-]. exists (f s). split_and!; try done.
      by apply (prep_range _ _ _ H2).
    + apply (bisimulation_compose _ _ (istep l2)); [by intros ? ? ? [_ <-] [_ <-]|by intros ? ? ? [_ <-] [_ <-]|apply H2|done].
  - intros c d Hcn Hd Hb. apply (bq_minimal tau_action _ _ _ _ l2 Hw2 p Hc l' Hq c d Hcn Hd). by apply bisimilar_istep.
  - apply Hq.
Qed.

(** ** Actions instead of label numbers *)

Definition acts (l : lts SL AL) (s : nat) (a : AL) (t : nat) : Prop := (s, Some a, t) ∈ behaviour l.

(** The transitions and divergences of a transition system, by action. *)
Definition astep (l : lts SL AL) : nat -> AL * bool -> nat -> Prop :=
  dstep tau_action (branching && preserve_divergences) (acts l).

Lemma acts_lstep (l : lts SL AL) s a t : acts l s a t <-> exists i, lstep l s i t /\ m_action_labels l !! i = Some a.
Proof.
  unfold acts, behaviour, lstep, action_of. rewrite list_elem_of_fmap. split.
  - intros (tr & [= -> Ha ->] & Htr). eexists. split; [by exists tr|done].
  - intros (i & (tr & Htr & <- & <- & <-) & Ha). exists tr. by rewrite Ha.
Qed.

Lemma lstep_label (l : lts SL AL) s i t : wf_lts tau_action l -> lstep l s i t -> is_Some (m_action_labels l !! i).
Proof.
  intros Hw (tr & Htr & _ & <- & _). unfold apply_hidden_label_map. case_decide; [eexists; apply (wf_tau _ l Hw)|].
  by apply lookup_lt_is_Some_2, (wf_label _ l Hw).
Qed.

Lemma acts_tau (l : lts SL AL) s t : wf_lts tau_action l -> acts l s tau_action t <-> tau_step l s t.
Proof.
  intros Hw. rewrite acts_lstep. pose proof (wf_tau _ l Hw) as H0. split; [|by exists const_tau_label_index].
  intros (i & Hs & Hi). pose proof (NoDup_lookup _ _ _ _ (wf_unique _ l Hw) Hi H0) as ->. done.
Qed.

Lemma bisimilar_actions (l : lts SL AL) s t : wf_lts tau_action l ->
  bisimilar vtau (istep l) (istep l) s t <-> bisimilar (dtau tau_action branching) (astep l) (astep l) s t.
Proof.
  intros Hw. pose proof (wf_tau _ l Hw) as H0. pose proof (wf_unique _ l Hw) as Hu.
  set (L := fun (x : nat * bool) (y : AL * bool) => x.2 = y.2 /\ m_action_labels l !! x.1 = Some y.1).
  assert (L1 : forall x x' y, L x y -> L x' y -> x = x').
  { intros [i d] [i' d'] [a e] [E1 E2] [E3 E4]. cbn in *. f_equal; [by apply (NoDup_lookup _ _ _ _ Hu E2 E4)|congruence]. }
  assert (L2 : forall x y y', L x y -> L x y' -> y = y').
  { intros [i d] [a e] [a' e'] [E1 E2] [E3 E4]. cbn in *. f_equal; congruence. }
  assert (Ht : forall x y, L x y -> vtau = Some x <-> dtau tau_action branching = Some y).
  { intros [i d] [a e] [E1 E2]. cbn in *. unfold vtau, dtau. destruct branching; [|done]. split; intros [= E3 E4]; subst e a || subst d i.
    - assert (Some a = Some tau_action) as [= ->] by (rewrite <- E2; exact H0). congruence.
    - pose proof (NoDup_lookup _ _ _ _ Hu H0 E2). unfold const_tau_label_index. congruence. }
  assert (Htc : forall x, tc (fun x y => lstep l x const_tau_label_index y) x x <-> tc (fun x y => acts l x tau_action y) x x).
  { intros x. split; apply (tc_congruence (fun x => x)); intros y z; by rewrite acts_tau. }
  assert (S1 : forall x a y, istep l x a y -> exists b, L a b /\ astep l x b y).
  { intros x [i []] y; unfold istep, astep, dstep; cbn.
    - intros (He & -> & -> & Hc%Htc). by exists (tau_action, true).
    - intros H. destruct (lstep_label l x i y Hw H) as [a Ha]. exists (a, false). split; [done|]. cbn. apply acts_lstep. by exists i. }
  assert (S2 : forall x b y, astep l x b y -> exists a, L a b /\ istep l x a y).
  { intros x [a []] y; unfold istep, astep, dstep; cbn.
    - intros (He & -> & -> & Hc%Htc). by exists (const_tau_label_index, true).
    - intros (i & Hi & Ha)%acts_lstep. by exists (i, false). }
  split; [by apply (relabel_bisimilar _ _ _ _ L L2 Ht)|].
  apply (relabel_bisimilar _ _ _ _ (flip L)); unfold flip; [by intros a b b' ? ?; apply (L1 b b' a)|by intros a b Hab; symmetry; apply Ht|done|done].
Qed.

(** ** Comparing *)

Section Compare.
Context (l1 l2 l : lts SL AL) (Hw1 : wf_lts tau_action l1) (Hw2 : wf_lts tau_action l2).
Context (Hb : behaviour l = behaviour l1 ++ (shift (num_states l1) <$> behaviour l2)).

Lemma acts_bound (k : lts SL AL) s a t : wf_lts tau_action k -> acts k s a t -> s < num_states k /\ t < num_states k.
Proof. intros Hw (i & H & _)%acts_lstep. by apply (lstep_bound tau_action k Hw) in H. Qed.

Lemma merged_acts s a t : acts l s a t <->
  acts l1 s a t \/ exists s' t', s = s' + num_states l1 /\ t = t' + num_states l1 /\ acts l2 s' a t'.
Proof.
  unfold acts. rewrite Hb, elem_of_app, list_elem_of_fmap. split; (intros [?|H]; [by left|right]).
  - destruct H as ([[s' o] t'] & [= -> <- ->] & H). by exists s', t'.
  - destruct H as (s' & t' & -> & -> & H). by exists (s', Some a, t').
Qed.

Lemma embed_first : embedding (astep l1) (astep l) (fun s => s) (fun s => s < num_states l1).
Proof.
  apply embedding_dstep; [done|]. split.
  - intros s a t Hs H. split; [by apply (acts_bound l1 s a t Hw1)|]. apply merged_acts. by left.
  - intros s a t Hs [H|(s' & t' & -> & _)]%merged_acts; [|lia]. exists t. split; [by apply (acts_bound l1 s a t Hw1)|done].
Qed.

Lemma embed_second : embedding (astep l2) (astep l) (fun s => s + num_states l1) (fun s => s < num_states l2).
Proof.
  apply embedding_dstep; [lia|]. split.
  - intros s a t Hs H. split; [by apply (acts_bound l2 s a t Hw2)|]. apply merged_acts. right. by exists s, t.
  - intros s a t Hs [H|(s' & t' & E & -> & H)]%merged_acts; [apply (acts_bound l1 _ a t Hw1) in H as [? _]; lia|].
    exists t'. assert (s = s') as -> by lia. split; [by apply (acts_bound l2 s' a t' Hw2)|done].
Qed.

End Compare.

(** ** Theorems *)

(** C12: The partition refinement of [bisim_partitioner] ends and computes
    bisimilarity: for a transition system without cycles of inert transitions the
    class numbers are those below [num_eq_classes], and two states are in the same
    class if and only if they are strongly, branching, or divergence preserving
    branching bisimilar, depending on the options (divergence is preserved for
    branching bisimulation only, as the constructor asserts). *)
Theorem bisim_partitioner_correct (l : lts SL AL) :
  wf_lts tau_action l -> 0 < num_states l -> (forall s, ~ tc (silent l) s s) ->
  exists p l', make_bisim_partitioner l branching preserve_divergences = Some (p, l') /\
    (forall s, s < num_states l -> bisim_get_eq_class p s < bisim_num_eq_classes p) /\
    (forall c, c < bisim_num_eq_classes p -> exists s, s < num_states l /\ bisim_get_eq_class p s = c) /\
    (forall s t, s < num_states l -> t < num_states l ->
       bisim_in_same_class p s t = true <-> bisimilar vtau (istep l) (istep l) s t).
Proof.
  intros Hw Hpos Hac.
  destruct (make_bisim_partitioner_spec tau_action branching preserve_divergences l Hopt Hw Hac Hpos) as (p & ts & Hts & E & Hc).
  exists p, (set_transitions ts l). split_and!; [done|apply Hc|apply Hc|]. intros s t Hs Ht. unfold bisim_in_same_class.
  by rewrite Nat.eqb_eq, (class_bisimilar _ _ _ _ Hc), bisimilar_istep.
Qed.

Lemma bisimulation_reduce_spec (l : lts SL AL) :
  wf_lts tau_action l -> (Z.of_nat (num_states l) < word_modulus - 1)%Z ->
  (has_state_info l = true -> length (m_state_labels l) = num_states l) -> m_init_state l < num_states l ->
  exists l' class, bisimulation_reduce default_label label_plus branching preserve_divergences l = Some l' /\
    wf_lts tau_action l' /\ m_action_labels l' = m_action_labels l /\ m_hidden_label_set l' = m_hidden_label_set l /\
    m_init_state l' = class (m_init_state l) /\
    length (m_state_labels l') = num_states l' /\
    (forall s, s < num_states l -> class s < num_states l') /\
    (forall c, c < num_states l' -> exists s, s < num_states l /\ class s = c) /\
    bisimulation vtau (istep l) (istep l') (fun s c => s < num_states l /\ class s = c) /\
    (forall c d, c < num_states l' -> d < num_states l' -> bisimilar vtau (istep l') (istep l') c d -> c = d) /\
    NoDup (m_transitions l').
Proof.
  intros Hw Hn Hl Hi. unfold bisimulation_reduce. destruct (decide (branching = true)) as [Hb|Hb].
  - destruct (prepare l Hb Hw Hn Hl Hi) as (p & l1 & E & E1 & H). destruct (reduce_prepared l l1 _ H Hi) as (q & l2 & l' & E2 & E3 & R).
    exists l', (fun s => bisim_get_eq_class q (get_eq_class p s)). rewrite Hb in *. unfold scc_reduce. rewrite E. cbn [mbind option_bind].
    rewrite E1. cbn [mbind option_bind]. rewrite E2. cbn [mbind option_bind fst snd]. rewrite E3. split; [done|]. tauto.
  - apply not_true_is_false in Hb. destruct (reduce_prepared l l _ (prepared_strong l Hb Hw Hl) Hi) as (q & l2 & l' & E2 & E3 & R).
    exists l', (bisim_get_eq_class q). rewrite Hb in *. cbn [mbind option_bind]. rewrite E2. cbn [mbind option_bind fst snd]. rewrite E3.
    split; [done|]. tauto.
Qed.

(** C11: [bisimulation_reduce] replaces a transition system by a bisimilar one
    (strongly, branching or divergence preserving branching), relating every state
    to its class and the initial state to the initial state.  The result is
    well-formed and minimal: it has a state for every class, no two of its states
    are bisimilar, and no transition occurs twice. *)
Theorem bisimulation_reduce_correct (l : lts SL AL) :
  wf_lts tau_action l -> (Z.of_nat (num_states l) < word_modulus - 1)%Z ->
  (has_state_info l = true -> length (m_state_labels l) = num_states l) -> m_init_state l < num_states l ->
  exists l' class, bisimulation_reduce default_label label_plus branching preserve_divergences l = Some l' /\
    wf_lts tau_action l' /\ m_action_labels l' = m_action_labels l /\ m_hidden_label_set l' = m_hidden_label_set l /\
    m_init_state l' = class (m_init_state l) /\
    length (m_state_labels l') = num_states l' /\
    (forall s, s < num_states l -> class s < num_states l') /\
    (forall c, c < num_states l' -> exists s, s < num_states l /\ class s = c) /\
    bisimulation vtau (istep l) (istep l') (fun s c => s < num_states l /\ class s = c) /\
    (forall c d, c < num_states l' -> d < num_states l' -> bisimilar vtau (istep l') (istep l') c d -> c = d) /\
    NoDup (m_transitions l').
Proof. apply bisimulation_reduce_spec. Qed.

(** C28: [destructive_bisimulation_compare] throws the exception of [merge] if a
    label is hidden in one of the transition systems only - the message names a
    label that both have and what it is in each of them - and otherwise returns
    whether the initial states are strongly, branching or divergence preserving
    branching bisimilar.  The second transition system has no state labels: with
    them [merge] can leave fewer labels than states. *)
Theorem bisimulation_compare_correct (pp : AL -> string) (l1 l2 : lts SL AL) :
  wf_lts tau_action l1 -> wf_lts tau_action l2 ->
  (forall k, k ∈ m_hidden_label_set l1 -> k < num_action_labels l1) -> has_state_info l2 = false ->
  (Z.of_nat (num_states l1 + num_states l2) < word_modulus - 1)%Z ->
  m_init_state l1 < num_states l1 -> m_init_state l2 < num_states l2 ->
  (~ compatible l1 l2 -> exists j message,
     destructive_bisimulation_compare default_label label_plus tau_action pp branching preserve_divergences l1 l2
       = Some (Throws message) /\ incompatible_message tau_action pp l1 l2 j message) /\
  (compatible l1 l2 -> exists b,
     destructive_bisimulation_compare default_label label_plus tau_action pp branching preserve_divergences l1 l2
       = Some (Returns b) /\
     (b = true <-> bisimilar (dtau tau_action branching) (astep l1) (astep l2) (m_init_state l1) (m_init_state l2))).
Proof.
  intros Hw1 Hw2 Hh Hs2 Hn Hi1 Hi2. unfold destructive_bisimulation_compare.
  destruct (merge_spec default_label tau_action pp l1 l2 Hw1 Hw2 Hh ltac:(congruence))
    as [[Hc (j & message & -> & Hm)]|(Hc & l & -> & En & Ei & Eb & Hw & El)]; [split; [by exists j, message|tauto]|].
  split; [tauto|]. intros _. cbn [mbind option_bind]. specialize (El Hs2).
  assert (En' : num_states l = num_states l1 + num_states l2) by (rewrite En; unfold merged_states; rewrite Hs2; cbn; lia).
  assert (Hl : has_state_info l = true -> length (m_state_labels l) = num_states l) by (unfold has_state_info; by rewrite El).
  set (i2 := m_init_state l2 + num_states l1).
  assert (Hiff : bisimilar vtau (istep l) (istep l) (m_init_state l) i2 <->
    bisimilar (dtau tau_action branching) (astep l1) (astep l2) (m_init_state l1) (m_init_state l2)).
  { rewrite (bisimilar_actions l _ _ Hw), Ei. symmetry.
    by apply (embedding_bisimilar _ _ _ (astep l) (fun s => s) (fun s => s + num_states l1) _ _ _ _
      (embed_first l1 l2 l Hw1 Eb) (embed_second l1 l2 l Hw1 Hw2 Eb)). }
  assert (Hgo : forall l' f, prepared l l' f -> exists b,
    (p ← make_bisim_partitioner l' branching preserve_divergences; Some (Returns (bisim_in_same_class p.1 (m_init_state l') (f i2)))) = Some (Returns b) /\
    (b = true <-> bisimilar (dtau tau_action branching) (astep l1) (astep l2) (m_init_state l1) (m_init_state l2))).
  { intros l' f H. assert (Hi : m_init_state l < num_states l) by (rewrite Ei, En'; lia). pose proof (prep_range _ _ _ H _ Hi) as Hpos.
    destruct (partition_prepared l l' f H ltac:(lia)) as (p & lp & E & _ & _ & Hp). rewrite E. cbn [mbind option_bind fst].
    eexists. split; [done|]. unfold bisim_in_same_class. rewrite Nat.eqb_eq, (prep_init _ _ _ H), Hp; [done|done|]. unfold i2. lia. }
  destruct (decide (branching = true)) as [Hb|Hb].
  - destruct (prepare l Hb Hw ltac:(by rewrite En') Hl ltac:(rewrite Ei, En'; lia)) as (p & l' & E & E1 & H).
    destruct (Hgo l' _ H) as (b & Eq & Hbb). exists b. split; [|done]. rewrite Hb in *. rewrite E. cbn [mbind option_bind].
    rewrite E1. cbn [mbind option_bind fst snd]. exact Eq.
  - apply not_true_is_false in Hb. destruct (Hgo l _ (prepared_strong l Hb Hw Hl)) as (b & Eq & Hbb). exists b. split; [|done].
    rewrite Hb in *. exact Eq.
Qed.

End Theorems.

(** *** Examples and witnesses *)

(** [0 --tau--> 1], [0 <-tau-- 2], [0 --tau--> 2], [1 --a--> 3], [2 --a--> 3], [3 --tau--> 3] *)
Definition example_branching : lts nat string :=
  mk_lts 4 0 [Transition 0 0 1; Transition 0 0 2; Transition 2 0 0; Transition 1 1 3; Transition 2 1 3; Transition 3 0 3] []
    ["tau"; "a"]%string ∅.

(** [0 --a--> 1] and [0 --tau--> 1], [1 --b--> 2], where [b] is hidden, [2 --a--> 3] *)
Definition example_direct : lts nat string := mk_lts 2 0 [Transition 0 1 1] [] ["tau"; "a"]%string ∅.
Definition example_delayed : lts nat string :=
  mk_lts 4 0 [Transition 0 0 1; Transition 1 1 2; Transition 2 2 3] [] ["tau"; "b"; "a"]%string {[1]}.

Ltac solve_wf := split; [done|apply (bool_decide_unpack _); by vm_compute|..];
  intros t Ht; repeat (apply elem_of_cons in Ht as [->|Ht]; [cbn; lia|]); by apply elem_of_nil in Ht.

Lemma example_branching_wf : wf_lts "tau"%string example_branching.
Proof. solve_wf. Qed.
Lemma example_direct_wf : wf_lts "tau"%string example_direct.
Proof. solve_wf. Qed.
Lemma example_delayed_wf : wf_lts "tau"%string example_delayed.
Proof. solve_wf. Qed.

(** Without divergence the states 0, 1 and 2 are equal, with divergence 0 and 2
    are, and strongly none. *)
Lemma example_branching_reduced :
  map (option_map (fun l : lts nat string => (num_states l, m_init_state l, m_transitions l)))
    [bisimulation_reduce 0 Nat.add true false example_branching; bisimulation_reduce 0 Nat.add true true example_branching;
     bisimulation_reduce 0 Nat.add false false example_branching]
  = [Some (2, 0, [Transition 0 1 1]);
     Some (3, 0, [Transition 0 0 0; Transition 0 0 1; Transition 0 1 2; Transition 1 1 2; Transition 2 0 2]);
     Some (4, 2, [Transition 0 0 2; Transition 0 1 3; Transition 1 1 3; Transition 2 0 0; Transition 2 0 1; Transition 3 0 3])].
Proof. vm_compute. reflexivity. Qed.

Lemma example_compared :
  destructive_bisimulation_compare 0 Nat.add "tau"%string id true true example_direct example_delayed = Some (Returns true) /\
  destructive_bisimulation_compare 0 Nat.add "tau"%string id false false example_direct example_delayed = Some (Returns false).
Proof. vm_compute. done. Qed.

Lemma bisim_partitioner_correct_witness :
  exists p l', make_bisim_partitioner example_delayed true false = Some (p, l') /\ bisim_num_eq_classes p = 2 /\
    bisim_in_same_class p 0 2 = true /\ bisim_in_same_class p 2 3 = false.
Proof.
  assert (Hd : forall s t, silent example_delayed true false s t -> s < t).
  { intros s t (_ & (tr & Ht & <- & Hl & <-) & _)%silent_iff. revert Hl.
    repeat (apply elem_of_cons in Ht as [->|Ht]; [cbn; lia || done|]). by apply elem_of_nil in Ht. }
  assert (Hac : forall s t, tc (silent example_delayed true false) s t -> s < t).
  { intros s t H. induction H as [s t H|s u t H _ IH]; apply Hd in H; lia. }
  destruct (bisim_partitioner_correct "tau"%string true false eq_refl example_delayed example_delayed_wf ltac:(cbn; lia)
    ltac:(intros s Hs%Hac; lia)) as (p & l' & E & _).
  exists p, l'. split; [done|]. vm_compute in E. injection E as <- _. by vm_compute.
Defined.

Lemma bisimulation_reduce_correct_witness :
  exists l' class, bisimulation_reduce 0 Nat.add true true example_branching = Some l' /\
    bisimulation (vtau true) (istep true true example_branching) (istep true true l') (fun s c => s < 4 /\ class s = c).
Proof.
  destruct (bisimulation_reduce_correct "tau"%string 0 Nat.add true true eq_refl example_branching example_branching_wf ltac:(reflexivity)
    ltac:(done) ltac:(cbn; lia)) as (l' & class & E & _ & _ & _ & _ & _ & _ & _ & Hb & _).
  exists l', class. exact (conj E Hb).
Defined.

Lemma example_compatible : compatible example_direct example_delayed.
Proof.
  intros j Hj i a Hi Hja. destruct i as [|[|i]]; cbn in Hi; [| |by destruct i]; injection Hi as <-;
    (destruct j as [|[|[|j]]]; cbn in Hja; [..|by destruct j]); try done; by vm_compute.
Qed.

(** The same transition system with [a] hidden. *)
Definition example_hidden : lts nat string := mk_lts 2 0 [Transition 0 1 1] [] ["tau"; "a"]%string {[1]}.

Lemma example_hidden_wf : wf_lts "tau"%string example_hidden.
Proof. solve_wf. Qed.

Lemma example_incompatible : ~ compatible example_direct example_hidden.
Proof. intros H. specialize (H 1 ltac:(cbn; lia) 1 "a"%string eq_refl eq_refl). by vm_compute in H. Qed.

Lemma bisimulation_compare_correct_witness :
  bisimilar (dtau "tau"%string true) (astep "tau"%string true true example_direct) (astep "tau"%string true true example_delayed) 0 0 /\
  exists message, destructive_bisimulation_compare 0 Nat.add "tau"%string id true true example_direct example_hidden = Some (Throws message).
Proof.
  split.
  - destruct (bisimulation_compare_correct "tau"%string 0 Nat.add true true eq_refl id example_direct example_delayed example_direct_wf example_delayed_wf
      ltac:(set_solver) ltac:(reflexivity) ltac:(reflexivity) ltac:(cbn; lia) ltac:(cbn; lia)) as [_ H].
    destruct (H example_compatible) as (b & E & Hb). apply Hb. vm_compute in E. by injection E as <-.
  - destruct (bisimulation_compare_correct "tau"%string 0 Nat.add true true eq_refl id example_direct example_hidden example_direct_wf example_hidden_wf
      ltac:(set_solver) ltac:(reflexivity) ltac:(reflexivity) ltac:(cbn; lia) ltac:(cbn; lia)) as [H _].
    destruct (H example_incompatible) as (j & message & E & _). by exists message.
Defined.
