(* ===== verification/WeakBisimulation.v ===== *)
(** * Weak bisimulation and weak traces

    The theory behind the closure under internal steps; no code.  A weak step may
    be preceded and followed by internal ones.  Weak bisimulation is strong
    bisimulation on weak steps, and follows from branching bisimulation. *)

From Stdlib Require Import Lia.
From stdpp Require Import base list relations.
From S2P Require Import Prelude Bisimulation.

Section Weak.
Context {A : Type} `{!EqDecision A} (tau : A).

Section Steps.
Context {S : Type} (step : S -> A -> S -> Prop).

Definition internal (s t : S) : Prop := step s tau t.

Definition wstep (s : S) (a : A) (t : S) : Prop :=
  if decide (a = tau) then rtc internal s t
  else exists u v, rtc internal s u /\ step u a v /\ rtc internal v t.

Lemma wstep_tau s t : wstep s tau t <-> rtc internal s t.
Proof. unfold wstep. by rewrite decide_True. Qed.

Lemma wstep_visible s a t : a <> tau -> wstep s a t <-> exists u v, rtc internal s u /\ step u a v /\ rtc internal v t.
Proof. intros H. unfold wstep. by rewrite decide_False. Qed.

Lemma wstep_once s a t : step s a t -> wstep s a t.
Proof.
  intros H. unfold wstep. case_decide as E; [subst a; by apply rtc_once|]. exists s, t. by split_and!; [apply rtc_refl| |apply rtc_refl].
Qed.

Lemma wstep_extend s s' a t' t : rtc internal s s' -> wstep s' a t' -> rtc internal t' t -> wstep s a t.
Proof.
  intros H1 H2 H3. unfold wstep in *. case_decide; [by trans s'; [|trans t']|].
  destruct H2 as (u & v & ? & ? & ?). exists u, v. split_and!; [by trans s'|done|by trans t'].
Qed.

End Steps.

(** Weak steps of weak steps are weak steps. *)
Lemma wstep_idempotent {S : Type} (step : S -> A -> S -> Prop) s a t : wstep (wstep step) s a t <-> wstep step s a t.
Proof.
  assert (Hr : forall s t, rtc (internal (wstep step)) s t <-> rtc (internal step) s t).
  { intros x y. split.
    - induction 1 as [|x y z Hxy _ IH]; [apply rtc_refl|]. apply wstep_tau in Hxy. by trans y.
    - apply (rtc_congruence (fun x => x)). intros u v Huv. exact (wstep_once step u tau v Huv). }
  destruct (decide (a = tau)) as [->|Ha]; [by rewrite !wstep_tau|]. rewrite (wstep_visible (wstep step)) by done. split.
  - intros (u & v & H1 & H2 & H3). apply Hr in H1, H3. by apply (wstep_extend step s u a v t).
  - intros H. exists s, t. by split_and!; [apply rtc_refl| |apply rtc_refl].
Qed.

(** ** Weak bisimulation *)

Definition weak_simulation {S1 S2 : Type} (step1 : S1 -> A -> S1 -> Prop) (step2 : S2 -> A -> S2 -> Prop) (R : S1 -> S2 -> Prop) : Prop :=
  forall s1 s2 a t1, R s1 s2 -> step1 s1 a t1 -> exists t2, wstep step2 s2 a t2 /\ R t1 t2.

Definition weak_bisimulation {S1 S2 : Type} (step1 : S1 -> A -> S1 -> Prop) (step2 : S2 -> A -> S2 -> Prop) (R : S1 -> S2 -> Prop) : Prop :=
  weak_simulation step1 step2 R /\ weak_simulation step2 step1 (flip R).

Definition weak_bisimilar {S1 S2 : Type} (step1 : S1 -> A -> S1 -> Prop) (step2 : S2 -> A -> S2 -> Prop) (s1 : S1) (s2 : S2) : Prop :=
  exists R, weak_bisimulation step1 step2 R /\ R s1 s2.

Section Simulations.
Context {S1 S2 : Type} (step1 : S1 -> A -> S1 -> Prop) (step2 : S2 -> A -> S2 -> Prop).

Lemma weak_simulation_rtc R s1 s2 t1 : weak_simulation step1 step2 R -> R s1 s2 -> rtc (internal step1) s1 t1 ->
  exists t2, rtc (internal step2) s2 t2 /\ R t1 t2.
Proof.
  intros H HR Hs. revert s2 HR. induction Hs as [s1|s1 u1 t1 Hu _ IH]; intros s2 HR; [exists s2; by split; [apply rtc_refl|]|].
  destruct (H s1 s2 tau u1 HR Hu) as (u2 & Hu2%wstep_tau & Hr). destruct (IH u2 Hr) as (t2 & Ht & ?). exists t2. split; [by trans u2|done].
Qed.

(** Weak steps are answered by weak steps. *)
Lemma weak_simulation_wstep R s1 s2 a t1 : weak_simulation step1 step2 R -> R s1 s2 -> wstep step1 s1 a t1 ->
  exists t2, wstep step2 s2 a t2 /\ R t1 t2.
Proof.
  intros H HR Hs. destruct (decide (a = tau)) as [->|Ha].
  - apply wstep_tau in Hs. destruct (weak_simulation_rtc R s1 s2 t1 H HR Hs) as (t2 & Ht & ?). exists t2. split; [by apply wstep_tau|done].
  - apply wstep_visible in Hs as (u & v & H1 & H2 & H3); [|done].
    destruct (weak_simulation_rtc R s1 s2 u H HR H1) as (u2 & Hu & Hru). destruct (H u u2 a v Hru H2) as (v2 & Hv & Hrv).
    destruct (weak_simulation_rtc R v v2 t1 H Hrv H3) as (t2 & Ht & Hrt). exists t2. split; [by apply (wstep_extend step2 s2 u2 a v2 t2)|done].
Qed.

Lemma weak_strong_simulation R : weak_simulation step1 step2 R <-> simulation None (wstep step1) (wstep step2) R.
Proof.
  split.
  - intros H s1 s2 a t1 HR Hs. right. destruct (weak_simulation_wstep R s1 s2 a t1 H HR Hs) as (t2 & ? & ?).
    exists s2, t2. by split_and!; [apply rtc_refl|..].
  - intros H s1 s2 a t1 HR Hs. apply wstep_once in Hs. destruct (H s1 s2 a t1 HR Hs) as [[? _]|(u2 & t2 & Hr & _ & Ht & ?)]; [done|].
    exists t2. split; [|done]. apply rtc_inv in Hr as [->|(x & (b & ? & _) & _)]; [done|done].
Qed.

(** Branching and strong bisimulations are weak bisimulations. *)
Lemma branching_weak_simulation R ta : (forall b, ta = Some b -> b = tau) -> simulation ta step1 step2 R -> weak_simulation step1 step2 R.
Proof.
  intros Hta H s1 s2 a t1 HR Hs. destruct (H s1 s2 a t1 HR Hs) as [[Ha%Hta Ht]|(u2 & t2 & Hr & _ & Hst & Ht)].
  - subst a. exists s2. split; [by apply wstep_tau, rtc_refl|done].
  - exists t2. split; [|done]. apply (wstep_extend step2 s2 u2 a t2 t2); [|by apply wstep_once|apply rtc_refl].
    revert Hr. apply (rtc_congruence (fun x => x)). intros x y (b & Hb%Hta & Hxy). by subst b.
Qed.

End Simulations.

Lemma branching_weak_bisimulation {S1 S2 : Type} (step1 : S1 -> A -> S1 -> Prop) (step2 : S2 -> A -> S2 -> Prop) R ta :
  (forall b, ta = Some b -> b = tau) -> bisimulation ta step1 step2 R -> weak_bisimulation step1 step2 R.
Proof. intros Hta [H1 H2]. split; by apply (branching_weak_simulation _ _ _ ta). Qed.

Lemma weak_bisimilar_strong {S1 S2 : Type} (step1 : S1 -> A -> S1 -> Prop) (step2 : S2 -> A -> S2 -> Prop) s1 s2 :
  weak_bisimilar step1 step2 s1 s2 <-> bisimilar None (wstep step1) (wstep step2) s1 s2.
Proof.
  split; intros (R & [H1 H2] & HR); exists R; (split; [|done]); split; by apply weak_strong_simulation.
Qed.

(** Systems with the same weak steps. *)
Lemma same_wstep_bisimulation {S : Type} (step step' : S -> A -> S -> Prop) (P : S -> Prop) :
  (forall s a t, P s -> step s a t -> P t) -> (forall s a t, wstep step s a t <-> wstep step' s a t) ->
  weak_bisimulation step step' (fun s t => P s /\ s = t).
Proof.
  intros HP H. assert (HP' : forall s a t, P s -> wstep step s a t -> P t).
  { assert (Hr : forall s t, P s -> rtc (internal step) s t -> P t).
    { intros s t Hs Hst. induction Hst as [|s u t Hsu _ IH]; [done|]. apply IH. by apply (HP s tau). }
    intros s a t Hs Hst. unfold wstep in Hst. case_decide; [by apply (Hr s)|]. destruct Hst as (u & v & H1 & H2 & H3).
    apply (Hr v); [|done]. apply (HP u a); [|done]. by apply (Hr s). }
  split; intros s1 s2 a t1 [Hs E] Hst; unfold flip in *; subst.
  - exists t1. split; [by apply H, wstep_once|]. split; [by apply (HP s2 a)|done].
  - exists t1. assert (Hw : wstep step s1 a t1) by (by apply H, wstep_once). split; [done|]. split; [by apply (HP' s1 a)|done].
Qed.

Lemma weak_bisimulation_compose {S1 S2 S3 : Type} (step1 : S1 -> A -> S1 -> Prop) (step2 : S2 -> A -> S2 -> Prop)
    (step3 : S3 -> A -> S3 -> Prop) R Q :
  weak_bisimulation step1 step2 R -> weak_bisimulation step2 step3 Q ->
  weak_bisimulation step1 step3 (fun x z => exists y, R x y /\ Q y z).
Proof.
  intros [R1 R2] [Q1 Q2]. split.
  - intros x z a x' (y & Hxy & Hyz) Hx. destruct (R1 x y a x' Hxy Hx) as (y' & Hy & Hxy').
    destruct (weak_simulation_wstep step2 step3 Q y z a y' Q1 Hyz Hy) as (z' & Hz & Hyz'). exists z'. split; [done|by exists y'].
  - intros z x a z' (y & Hxy & Hyz) Hz. destruct (Q2 z y a z' Hyz Hz) as (y' & Hy & Hyz').
    destruct (weak_simulation_wstep step2 step1 (flip R) y x a y' R2 Hxy Hy) as (x' & Hx & Hxy'). exists x'. split; [done|by exists y'].
Qed.

Lemma weak_bisimulation_flip {S1 S2 : Type} (step1 : S1 -> A -> S1 -> Prop) (step2 : S2 -> A -> S2 -> Prop) R :
  weak_bisimulation step1 step2 R -> weak_bisimulation step2 step1 (flip R).
Proof. intros [H1 H2]. by split. Qed.

Lemma weak_bisimilar_transfer {S1 S2 : Type} (step1 : S1 -> A -> S1 -> Prop) (step2 : S2 -> A -> S2 -> Prop) R s1 s2 t1 t2 :
  weak_bisimulation step1 step2 R -> R s1 s2 -> R t1 t2 -> weak_bisimilar step2 step2 s2 t2 -> weak_bisimilar step1 step1 s1 t1.
Proof.
  intros HR Hs Ht (Q & HQ & HQs). pose proof (weak_bisimulation_compose _ _ _ _ _ HR HQ) as H1.
  pose proof (weak_bisimulation_compose _ _ _ _ _ H1 (weak_bisimulation_flip _ _ _ HR)) as H2.
  eexists. split; [exact H2|]. exists t2. split; [by exists s2|done].
Qed.

Lemma weak_bisimulation_iff {S1 S2 : Type} (step1 : S1 -> A -> S1 -> Prop) (step2 : S2 -> A -> S2 -> Prop) (R R' : S1 -> S2 -> Prop) :
  (forall s t, R s t <-> R' s t) -> weak_bisimulation step1 step2 R -> weak_bisimulation step1 step2 R'.
Proof.
  intros H [H1 H2]. split; intros s1 s2 a t1 HR Hs; unfold flip in *; apply H in HR.
  - destruct (H1 s1 s2 a t1 HR Hs) as (t2 & ? & ?%H). by exists t2.
  - destruct (H2 s1 s2 a t1 HR Hs) as (t2 & ? & ?%H). by exists t2.
Qed.

(** ** Weak traces *)

Section Traces.
Context {S : Type} (step : S -> A -> S -> Prop).

(** The visible actions along a run. *)
Inductive weak_trace : S -> list A -> S -> Prop :=
| weak_trace_nil s : weak_trace s [] s
| weak_trace_tau s u w t : step s tau u -> weak_trace u w t -> weak_trace s w t
| weak_trace_step s a u w t : a <> tau -> step s a u -> weak_trace u w t -> weak_trace s (a :: w) t.

Lemma weak_trace_rtc s u w t : rtc (internal step) s u -> weak_trace u w t -> weak_trace s w t.
Proof. induction 1; [done|]. intros H'. eapply weak_trace_tau; [done|auto]. Qed.

(** The traces without the internal actions: every visible action with the
    internal ones before it. *)
Lemma weak_trace_cons s a w : (exists t, weak_trace s (a :: w) t) <->
  exists u v t, rtc (internal step) s u /\ a <> tau /\ step u a v /\ weak_trace v w t.
Proof.
  split.
  - intros (t & H). remember (a :: w) as aw eqn:E. revert E. induction H as [|s u w' t Hs Ht IH|s b u w' t Hb Hs Ht IH]; intros E; [done| |].
    + destruct (IH E) as (u' & v & t' & Hr & ?). exists u', v, t'. split; [by apply (rtc_l _ s u)|done].
    + injection E as -> ->. exists s, u, t. by split_and!; [apply rtc_refl|..].
  - intros (u & v & t & Hr & Ha & Hs & Ht). exists t. apply (weak_trace_rtc s u); [done|]. by apply (weak_trace_step u a v).
Qed.

End Traces.

(** Embeddings keep the traces. *)
Lemma embedding_weak_trace {S1 S : Type} (step1 : S1 -> A -> S1 -> Prop) (step : S -> A -> S -> Prop) f dom s w :
  embedding step1 step f dom -> dom s -> (exists t, weak_trace step1 s w t) <-> exists y, weak_trace step (f s) w y.
Proof.
  intros [E1 E2] Hs. split.
  - intros (t & H). exists (f t). induction H as [s|s u w t Hu _ IH|s a u w t Ha Hu _ IH]; [constructor|..];
      destruct (E1 _ _ _ Hs Hu) as [Hdu Hu']; [by eapply weak_trace_tau; eauto|by eapply weak_trace_step; eauto].
  - intros (y & H). remember (f s) as x eqn:Ex. revert s Hs Ex. induction H as [x|x u w y Hu _ IH|x a u w y Ha Hu _ IH]; intros s Hs ->.
    + exists s. constructor.
    + destruct (E2 _ _ _ Hs Hu) as (v & Hv & -> & Hsv). destruct (IH v Hv eq_refl) as (t & Ht). exists t. by apply (weak_trace_tau _ s v).
    + destruct (E2 _ _ _ Hs Hu) as (v & Hv & -> & Hsv). destruct (IH v Hv eq_refl) as (t & Ht). exists t. by apply (weak_trace_step _ s a v).
Qed.

(** Steps that include the internal ones before them keep the traces. *)
Lemma absorbed_weak_trace {S : Type} (step step' : S -> A -> S -> Prop) :
  (forall s a t, step' s a t <-> a <> tau /\ exists u, rtc (internal step) s u /\ step u a t) ->
  forall w s, (exists t, weak_trace step s w t) <-> exists t, weak_trace step' s w t.
Proof.
  intros H. assert (Hno : forall s t, rtc (internal step') s t -> s = t).
  { intros s t Hst. apply rtc_inv in Hst as [->|(u & [? _]%H & _)]; done. }
  induction w as [|a w IH]; intros s; [split; intros _; exists s; constructor|]. rewrite !weak_trace_cons. split.
  - intros (u & v & t & Hr & Ha & Huv & Hv). destruct (proj1 (IH v) ltac:(by exists t)) as (t' & Ht').
    exists s, v, t'. split_and!; [apply rtc_refl|done|apply H; split; [done|by exists u]|done].
  - intros (u & v & t & <-%Hno & Ha & (_ & u' & Hr & Huv)%H & Hv). destruct (proj2 (IH v) ltac:(by exists t)) as (t' & Ht').
    exists u', v, t'. by split_and!.
Qed.

End Weak.
