(* ===== verification/TauClosure.v ===== *)
(** * The closure under tau steps
    ([detail/liblts_tau_star_reduce.h] of [libraries/lts])

    The transitive closure of the tau transitions as a map from states to sets,
    and the three functions that use or undo it.  A [std::map] that is read with
    [operator[]] gets an entry for a missing key; the loop over the map visits the
    keys in order, those that are added behind the current one included. *)

From Stdlib Require Import Lia.
From stdpp Require Import base numbers sets list gmap relations.
From S2P Require Import Prelude Lts Reachability BisimPartition.

Section Closure.
Context {SL AL : Type} `{!EqDecision SL} `{!EqDecision AL}.
Context (default_label : SL) (tau_action : AL).
Abbreviation lts := (lts SL AL).

(** ** [calculate_non_reflexive_transitive_tau_closure] *)

(** [map_from_states_to_states], and [operator[]] on it. *)
Abbreviation state_map := (gmap nat (gset nat)).
Definition entry (m : state_map) (s : nat) : gset nat := default ∅ (m !! s).
Definition touch (s : nat) (m : state_map) : state_map := <[s := entry m s]> m.

(** "Copy the internal transitions into the result." *)
Definition copy_internal (l : lts) (forward : bool) (m : state_map) (t : transition) : state_map :=
  if is_tau (apply_hidden_label_map (label t) l) then
    if forward then <[from t := {[to t]} ∪ entry m (from t)]> m else <[to t := {[from t]} ∪ entry m (to t)]> m
  else m.

(** "new_outgoing_states.insert(...)" *)
Definition insert_entry (v : state_map * gset nat) (outgoing_state : nat) : state_map * gset nat :=
  (touch outgoing_state v.1, v.2 ∪ entry (touch outgoing_state v.1) outgoing_state).

(** The body of the loop over the map for the key [i]. *)
Definition close_entry (st : state_map * bool) (i : nat) : state_map * bool :=
  match st.1 !! i with
  | None => st
  | Some outgoing_states =>
      let '(m, new_outgoing_states) :=
        foldl insert_entry (st.1, outgoing_states) (elements outgoing_states) in
      if size outgoing_states <? size new_outgoing_states then (<[i := new_outgoing_states]> m, true) else (m, st.2)
  end.

Fixpoint close_loop (n fuel : nat) (m : state_map) : option state_map :=
  match fuel with
  | 0 => None
  | S fuel =>
      let '(m, new_state_added) := foldl close_entry (m, false) (seq 0 n) in
      if (new_state_added : bool) then close_loop n fuel m else Some m
  end.

Definition calculate_non_reflexive_transitive_tau_closure (l : lts) (forward : bool) : option state_map :=
  let n := num_states l in
  close_loop n (S (n * n)) (foldl (copy_internal l forward) ∅ (m_transitions l)).

(** ** [reflexive_transitive_tau_closure] *)

Definition insert_sequences (backward_tau_closure forward_tau_closure : state_map) (new_transitions : list transition)
    (t : transition) : list transition :=
  let new_from_states := elements (entry backward_tau_closure (from t)) in
  let new_to_states := elements (entry forward_tau_closure (to t)) in
  let new_transitions := set_insert t new_transitions in
  let new_transitions :=
    foldl (fun new_transitions j_from =>
             let new_transitions := set_insert (Transition j_from (label t) (to t)) new_transitions in
             foldl (fun new_transitions j_to => set_insert (Transition j_from (label t) j_to) new_transitions)
               new_transitions new_to_states)
      new_transitions new_from_states in
  foldl (fun new_transitions j_to => set_insert (Transition (from t) (label t) j_to) new_transitions)
    new_transitions new_to_states.

Definition reflexive_transitive_tau_closure (l : lts) : option lts :=
  backward_tau_closure ← calculate_non_reflexive_transitive_tau_closure l false;
  forward_tau_closure ← calculate_non_reflexive_transitive_tau_closure l true;
  let new_transitions := foldl (insert_sequences backward_tau_closure forward_tau_closure) [] (m_transitions l) in
  let new_transitions :=
    foldl (fun ts i => set_insert (Transition i const_tau_label_index i) ts) new_transitions (seq 0 (num_states l)) in
  Some (foldl (fun l t => add_transition t l) (clear_transitions l) new_transitions).

(** ** [remove_redundant_transitions] *)

Section Redundant.
Context (l : lts) (outgoing_transitions : list (nat * nat) * list nat).

Definition hidden_label (a : nat) : bool := is_tau (apply_hidden_label_map a l).

(** The pairs of label and target of the transitions of [s]. *)
Definition pairs_of (s : nat) : list (nat * nat) :=
  let lower := lowerbound outgoing_transitions s in
  (fun j => get_transitions outgoing_transitions !!! j) <$> seq lower (upperbound outgoing_transitions s - lower).

(** The states reachable in one hidden action and those reachable with the label. *)
Definition collect_middle (label_ : nat) (v : option (gset nat * gset nat)) (j : nat * nat) : option (gset nat * gset nat) :=
  '(hidden, visible) ← v;
  if hidden_label j.1 then Some ({[j.2]} ∪ hidden, visible)
  else if label_ =? j.1 then
    (if hidden_label label_ then None else Some (hidden, {[j.2]} ∪ visible))
  else Some (hidden, visible).

(** "Now check whether to is reachable in one step from one of the two sets" *)
Definition found_alternative (label_ to_ : nat) (hidden visible : gset nat) : bool :=
  existsb (fun middle => existsb (fun j =>
    if hidden_label label_ then hidden_label j.1 && (j.2 =? to_) else (j.1 =? label_) && (j.2 =? to_)) (pairs_of middle))
    (elements hidden) ||
  (negb (hidden_label label_) &&
   existsb (fun middle => existsb (fun j => hidden_label j.1 && (j.2 =? to_)) (pairs_of middle)) (elements visible)).

Definition keep_pair (s : nat) (new : option lts) (p : nat * nat) : option lts :=
  new ← new;
  '(hidden, visible) ← foldl (collect_middle p.1) (Some (∅, ∅)) (pairs_of s);
  Some (if found_alternative p.1 p.2 hidden visible then new else add_transition (Transition s p.1 p.2) new).

End Redundant.

Definition remove_redundant_transitions (l : lts) : option lts :=
  let outgoing_transitions := outgoing_transitions_per_state l in
  foldl (fun new s => foldl (keep_pair l outgoing_transitions s) new (pairs_of outgoing_transitions s))
    (Some (clear_transitions l)) (seq 0 (num_states l)).

(** ** [tau_star_reduce] *)

Definition tau_star_reduce (l : lts) : option lts :=
  let visible := filter (fun t => is_tau (apply_hidden_label_map (label t) l) = false) (m_transitions l) in
  let new_transitions := foldl (fun ts t => set_insert t ts) [] visible in
  backward_tau_closure ← calculate_non_reflexive_transitive_tau_closure l false;
  let new_transitions :=
    foldl (fun ts t => foldl (fun ts j => set_insert (Transition j (label t) (to t)) ts) ts
                         (elements (entry backward_tau_closure (from t))))
      new_transitions visible in
  r ← reachability_check default_label tau_action
        (foldl (fun l t => add_transition t l) (clear_transitions l) new_transitions) true;
  Some r.2.

End Closure.
