(* ===== verification/TauClosureCorrect.v ===== *)
(** * Correctness of the closure under tau steps

    The closure ends and is exact; the transitions with tau steps before and after
    them are the weak steps, so that strong bisimilarity of the result is weak
    bisimilarity; removing redundant transitions keeps the weak steps; and
    [tau_star_reduce] keeps the weak traces. *)

From Stdlib Require Import Lia.
From stdpp Require Import base numbers sets list gmap sorting relations strings.
From S2P Require Import Prelude Lts SccTheorems Reachability Bisimulation WeakBisimulation BisimPartition BisimCorrect BisimQuotient BisimTheorems TauClosure.

#[local] Arguments Nat.ltb : simpl never.
#[local] Arguments Nat.eqb : simpl never.

(** ** Sums *)

Lemma sum_list_le {A} (f g : A -> nat) l : (forall x, x ∈ l -> f x <= g x) -> sum_list_with f l <= sum_list_with g l.
Proof.
  induction l as [|x l IH]; intros H; cbn; [lia|]. pose proof (H x ltac:(left)). specialize (IH (fun y Hy => H y ltac:(by right))). lia.
Qed.

Lemma sum_list_lt {A} (f g : A -> nat) l y : (forall x, x ∈ l -> f x <= g x) -> y ∈ l -> f y < g y ->
  sum_list_with f l < sum_list_with g l.
Proof.
  intros H Hy Hlt. induction l as [|x l IH]; [by apply elem_of_nil in Hy|]. cbn. pose proof (H x ltac:(left)).
  pose proof (sum_list_le f g l (fun y Hy => H y ltac:(by right))).
  apply elem_of_cons in Hy as [->|Hy]; [lia|]. specialize (IH (fun y Hy => H y ltac:(by right)) Hy). lia.
Qed.

Lemma sum_list_bound {A} (f : A -> nat) l b : (forall x, x ∈ l -> f x <= b) -> sum_list_with f l <= length l * b.
Proof.
  induction l as [|x l IH]; intros H; cbn; [lia|]. pose proof (H x ltac:(left)). specialize (IH (fun y Hy => H y ltac:(by right))). lia.
Qed.

(** ** Sets of transitions *)

Definition transition_set (ts : list transition) : Prop := StronglySorted (fun t u => transition_lt t u = true) ts.

Lemma insert_all_elem {A} (f : A -> transition) xs ts t :
  t ∈ foldl (fun ts x => set_insert (f x) ts) ts xs <-> t ∈ ts \/ exists x, x ∈ xs /\ t = f x.
Proof.
  revert ts. induction xs as [|x xs IH]; intros ts; cbn [foldl].
  - split; [by left|]. intros [?|(x & Hx & _)]; [done|by apply elem_of_nil in Hx].
  - rewrite IH, set_insert_elem. setoid_rewrite elem_of_cons. naive_solver.
Qed.

Lemma insert_all_set {A} (f : A -> transition) xs ts : transition_set ts -> transition_set (foldl (fun ts x => set_insert (f x) ts) ts xs).
Proof. revert ts. induction xs as [|x xs IH]; intros ts H; [done|]. apply IH. by apply transition_set_sorted. Qed.

(** Loops over transitions that insert other ones. *)
Lemma insert_loop_elem {A} (step : list transition -> A -> list transition) (P : A -> transition -> Prop) xs ts t :
  (forall ts x t, t ∈ step ts x <-> t ∈ ts \/ P x t) -> t ∈ foldl step ts xs <-> t ∈ ts \/ exists x, x ∈ xs /\ P x t.
Proof.
  intros H. revert ts. induction xs as [|x xs IH]; intros ts; cbn [foldl].
  - split; [by left|]. intros [?|(x & Hx & _)]; [done|by apply elem_of_nil in Hx].
  - rewrite IH, H. setoid_rewrite elem_of_cons. naive_solver.
Qed.

Lemma insert_loop_set {A} (step : list transition -> A -> list transition) xs ts :
  (forall ts x, transition_set ts -> transition_set (step ts x)) -> transition_set ts -> transition_set (foldl step ts xs).
Proof. intros H. revert ts. induction xs as [|x xs IH]; intros ts Hts; [done|]. by apply IH, H. Qed.

(** ** The closure of a relation *)

Section Loop.
Abbreviation state_map := (gmap nat (gset nat)).
Context (R : nat -> nat -> Prop) (n : nat) (HR : forall s t, R s t -> s < n /\ t < n).

Lemma entry_touch s m k : entry (touch s m) k = entry m k.
Proof.
  unfold entry, touch. destruct (decide (s = k)) as [->|Hne]; [rewrite lookup_insert_eq|rewrite lookup_insert_ne by done]; done.
Qed.

Lemma entry_insert m i X k : entry (<[i := X]> m) k = if decide (i = k) then X else entry m k.
Proof. unfold entry. case_decide as E; [subst; by rewrite lookup_insert_eq|by rewrite lookup_insert_ne]. Qed.

Lemma collect_spec ks : forall (m : state_map) (X : gset nat), exists m' X',
  foldl insert_entry (m, X) ks = (m', X') /\
  (forall k, entry m' k = entry m k) /\ (forall x, x ∈ X' <-> x ∈ X \/ exists o, o ∈ ks /\ x ∈ entry m o).
Proof.
  induction ks as [|o ks IH]; intros m X; cbn [foldl].
  - exists m, X. split_and!; [done|done|]. intros x. split; [by left|]. intros [?|(o & Ho & _)]; [done|by apply elem_of_nil in Ho].
  - unfold insert_entry at 2. cbn [fst snd]. destruct (IH (touch o m) (X ∪ entry (touch o m) o)) as (m' & X' & E & H1 & H2). exists m', X'.
    split; [exact E|]. split; [intros k; by rewrite H1, entry_touch|]. intros x. rewrite H2, elem_of_union. setoid_rewrite entry_touch.
    setoid_rewrite elem_of_cons. naive_solver.
Qed.

Definition closed_at (m : state_map) (i : nat) : Prop := forall o, o ∈ entry m i -> entry m o ⊆ entry m i.

Lemma close_entry_spec m b i : exists m' b', close_entry (m, b) i = (m', b') /\ (forall k, k <> i -> entry m' k = entry m k) /\
  (forall x, x ∈ entry m' i <-> x ∈ entry m i \/ exists o, o ∈ entry m i /\ x ∈ entry m o) /\
  ((b' = b /\ entry m' i = entry m i /\ closed_at m i) \/ (b' = true /\ size (entry m i) < size (entry m' i))).
Proof.
  unfold close_entry. change ((m, b).1) with m. change ((m, b).2) with b. destruct (m !! i) as [X|] eqn:E.
  - destruct (collect_spec (elements X) m X) as (m1 & X' & -> & H1 & H2). setoid_rewrite elem_of_elements in H2.
    assert (EX : entry m i = X) by (unfold entry; by rewrite E). rewrite EX.
    destruct (Nat.ltb_spec (size X) (size X')) as [Hlt|Hge].
    + exists (<[i := X']> m1), true. split; [done|]. split; [intros k Hk; by rewrite entry_insert, decide_False|].
      rewrite entry_insert, decide_True by done. split; [done|by right].
    + assert (X' = X) as ->.
      { symmetry. apply leibniz_equiv, set_subseteq_size_equiv; [|done]. intros x Hx. apply H2. by left. }
      exists m1, b. split; [done|]. split; [done|]. rewrite H1, EX. split; [done|]. left. split_and!; try done.
      intros o Ho x Hx. rewrite EX in *. apply H2. right. by exists o.
  - exists m, b. assert (EX : entry m i = ∅) by (unfold entry; by rewrite E). rewrite EX. split_and!; try done; [set_solver|].
    left. split_and!; try done. intros o. rewrite EX. set_solver.
Qed.

Record closing (m : state_map) : Prop := {
  closing_sound : forall s t, t ∈ entry m s -> tc R s t;
  closing_edges : forall s t, R s t -> t ∈ entry m s
}.

Definition total (m : state_map) : nat := sum_list_with (fun k => size (entry m k)) (seq 0 n).

Lemma tc_bound s t : tc R s t -> s < n /\ t < n.
Proof. induction 1 as [s t H|s u t H _ IH]; apply HR in H; [done|]. split; [tauto|tauto]. Qed.

Lemma total_bound m : closing m -> total m <= n * n.
Proof.
  intros H. unfold total. rewrite <- (length_seq n 0) at 2. apply sum_list_bound. intros k _. change n with (0 + n) at 1.
  rewrite <- (length_seq n 0) at 1. rewrite <- (size_list_to_set (C := gset nat) (seq 0 n)) by apply NoDup_seq. apply subseteq_size.
  intros x Hx. apply (closing_sound m H), tc_bound in Hx. apply elem_of_list_to_set, elem_of_seq. lia.
Qed.

Lemma close_entry_step m b i : i < n -> closing m -> exists m' b', close_entry (m, b) i = (m', b') /\ closing m' /\
  ((b' = b /\ (forall k, entry m' k = entry m k) /\ closed_at m i) \/ (b' = true /\ total m < total m')).
Proof.
  intros Hi [H1 H2]. destruct (close_entry_spec m b i) as (m' & b' & E & Ho & Hi' & Hc). exists m', b'. split; [done|].
  assert (Hle : forall k, entry m k ⊆ entry m' k).
  { intros k. destruct (decide (k = i)) as [->|Hk]; [intros x Hx; apply Hi'; by left|by rewrite Ho]. }
  split.
  - split; [|intros s t Hst; by apply Hle, H2]. intros s t. destruct (decide (s = i)) as [->|Hs]; [|rewrite Ho by done; apply H1].
    intros [?|(o & Hio & Hot)]%Hi'; [by apply H1|]. apply (tc_transitive i o t); by apply H1.
  - destruct Hc as [(-> & E1 & E2)|[-> Hlt]]; [left; split_and!; try done|right; split; [done|]].
    + intros k. destruct (decide (k = i)) as [->|Hk]; [done|by apply Ho].
    + apply (sum_list_lt _ _ _ i); [|apply elem_of_seq; lia|done]. intros k _. by apply subseteq_size.
Qed.

Lemma close_pass ids : forall m b, (forall i, i ∈ ids -> i < n) -> closing m -> exists m' b', foldl close_entry (m, b) ids = (m', b') /\
  closing m' /\ total m <= total m' /\ (b' = true -> b = true \/ total m < total m') /\
  (b' = false -> b = false /\ (forall k, entry m' k = entry m k) /\ forall i, i ∈ ids -> closed_at m i).
Proof.
  induction ids as [|i ids IH]; intros m b Hids H; cbn [foldl].
  - exists m, b. split_and!; try done; [auto|]. intros ->. split_and!; try done. intros i Hi. by apply elem_of_nil in Hi.
  - destruct (close_entry_step m b i (Hids i ltac:(left)) H) as (m1 & b1 & E1 & H1 & Hc1). rewrite E1.
    destruct (IH m1 b1 (fun i Hi => Hids i ltac:(by right)) H1) as (m' & b' & E & H' & Hle & Ht & Hf). exists m', b'.
    split; [done|]. split; [done|]. destruct Hc1 as [(-> & Es & Hcl)|[-> Hlt]].
    + assert (Et : total m1 = total m) by (apply Nat.le_antisymm; apply sum_list_le; intros k _; by rewrite Es).
      rewrite Et in *. split_and!; [done|done|]. intros Hb. destruct (Hf Hb) as (-> & Es' & Hcl').
      split_and!; [done|intros k; by rewrite Es'|]. intros j [->|Hj]%elem_of_cons; [done|]. intros o Ho. rewrite <- !Es. apply (Hcl' j Hj). by rewrite Es.
    + split_and!; [lia|intros; right; lia|]. intros Hb. by destruct (Hf Hb).
Qed.

Lemma close_loop_spec fuel : forall m, closing m -> n * n - total m < fuel -> exists m', close_loop n fuel m = Some m' /\
  forall s t, t ∈ entry m' s <-> tc R s t.
Proof.
  induction fuel as [|fuel IH]; intros m H Hf; [lia|]. cbn [close_loop].
  destruct (close_pass (seq 0 n) m false) as (m' & b' & E & H' & Hle & Ht & Hs); [intros i; rewrite elem_of_seq; lia|done|]. rewrite E.
  destruct b'.
  - destruct (Ht eq_refl) as [|Hlt]; [done|]. pose proof (total_bound m' H'). apply IH; [done|lia].
  - exists m'. split; [done|]. destruct (Hs eq_refl) as (_ & Es & Hc). intros s t. split; [apply (closing_sound m' H')|].
    intros Hst. induction Hst as [s t Hst|s u t Hsu Hut IHt]; [by apply (closing_edges m' H')|].
    rewrite Es. rewrite Es in IHt. apply HR in Hsu as Hn.
    apply (Hc s ltac:(apply elem_of_seq; lia) u); [by apply (closing_edges m H)|exact IHt].
Qed.

End Loop.

(** ** The closure of the tau steps *)

Section Correct.
Context {SL AL : Type} `{!EqDecision SL} `{!EqDecision AL} (tau_action : AL).
Context (default_label : SL) (l : lts SL AL) (Hwf : wf_lts tau_action l).

Abbreviation n := (num_states l).
Abbreviation hid i := (apply_hidden_label_map i l).

(** The steps of the closure, forward or backward. *)
Definition directed (forward : bool) (s t : nat) : Prop := if forward then tau_step l s t else tau_step l t s.

Lemma directed_bound forward s t : directed forward s t -> s < n /\ t < n.
Proof. destruct forward; intros H; apply (lstep_bound tau_action l Hwf) in H; tauto. Qed.

Lemma is_tau_hid i : is_tau (hid i) = true <-> hid i = const_tau_label_index.
Proof. apply Nat.eqb_eq. Qed.

Lemma copy_internal_spec forward ts m s t :
  t ∈ entry (foldl (copy_internal l forward) m ts) s <-> t ∈ entry m s \/
    exists tr, tr ∈ ts /\ is_tau (hid (label tr)) = true /\ (if forward then from tr = s /\ to tr = t else to tr = s /\ from tr = t).
Proof.
  revert m. induction ts as [|tr ts IH]; intros m; cbn [foldl].
  - split; [by left|]. intros [?|(tr & Htr & _)]; [done|by apply elem_of_nil in Htr].
  - rewrite IH. setoid_rewrite elem_of_cons. unfold copy_internal at 1. destruct (is_tau (hid (label tr))) eqn:E.
    + destruct forward; rewrite entry_insert; case_decide as Es; try subst s; rewrite ?elem_of_union, ?elem_of_singleton; naive_solver.
    + split; [intros [?|(x & ? & ?)]; [by left|right; exists x; by split; [right|]]|].
      intros [?|(x & [->|?] & Hx & ?)]; [by left|congruence|right; by exists x].
Qed.

Lemma closure_spec forward : exists m, calculate_non_reflexive_transitive_tau_closure l forward = Some m /\
  forall s t, t ∈ entry m s <-> tc (directed forward) s t.
Proof.
  unfold calculate_non_reflexive_transitive_tau_closure. set (m0 := foldl _ _ _).
  assert (Hm0 : forall s t, t ∈ entry m0 s <-> directed forward s t).
  { intros s t. unfold m0. rewrite copy_internal_spec. unfold directed, tau_step, lstep. setoid_rewrite is_tau_hid.
    assert (He : t ∉ entry (∅ : gmap nat (gset nat)) s) by (unfold entry; rewrite lookup_empty; set_solver).
    destruct forward; naive_solver. }
  apply (close_loop_spec (directed forward) n (directed_bound forward)); [|lia].
  split; intros s t; rewrite Hm0; [apply tc_once|done].
Qed.

Lemma tc_backward s t : tc (directed false) s t <-> tc (tau_step l) t s.
Proof.
  split; induction 1 as [s t H|s u t H _ IH]; try (by apply tc_once); by eapply tc_r.
Qed.

(** ** [reflexive_transitive_tau_closure] *)

Lemma insert_sequences_elem bw fw ts t t' : t' ∈ insert_sequences bw fw ts t <-> t' ∈ ts \/
  exists s u, (s = from t \/ s ∈ entry bw (from t)) /\ (u = to t \/ u ∈ entry fw (to t)) /\ t' = Transition s (label t) u.
Proof.
  unfold insert_sequences. rewrite insert_all_elem.
  rewrite (insert_loop_elem _ (fun j t' => exists u, (u = to t \/ u ∈ entry fw (to t)) /\ t' = Transition j (label t) u)).
  - rewrite set_insert_elem. setoid_rewrite elem_of_elements. destruct t as [a b c]. cbn. naive_solver.
  - intros ts' j t''. rewrite insert_all_elem, set_insert_elem. setoid_rewrite elem_of_elements. naive_solver.
Qed.

Lemma insert_sequences_set bw fw ts t : transition_set ts -> transition_set (insert_sequences bw fw ts t).
Proof.
  intros H. unfold insert_sequences. apply insert_all_set, insert_loop_set; [|by apply transition_set_sorted].
  intros ts' j Hts'. by apply insert_all_set, transition_set_sorted.
Qed.

(** A transition system with the same states and labels. *)
Definition same_frame (l' : lts SL AL) : Prop :=
  num_states l' = n /\ m_init_state l' = m_init_state l /\ m_action_labels l' = m_action_labels l /\
  m_hidden_label_set l' = m_hidden_label_set l /\ m_state_labels l' = m_state_labels l.

Lemma rtc_bound s t : s < n -> rtc (tau_step l) s t -> t < n.
Proof. intros Hs. induction 1 as [|s u t Hu _ IH]; [done|]. apply IH. by apply (lstep_bound tau_action l Hwf) in Hu as [_ ?]. Qed.

Lemma rtc_tc_or s t : rtc (tau_step l) s t <-> s = t \/ tc (tau_step l) s t.
Proof.
  split; [|intros [->|?]; [apply rtc_refl|by apply tc_rtc]]. intros H. apply rtc_tc in H as [?|?]; tauto.
Qed.

Lemma closure_transitions : exists l', reflexive_transitive_tau_closure l = Some l' /\ same_frame l' /\ NoDup (m_transitions l') /\
  forall t', t' ∈ m_transitions l' <-> (exists i, i < n /\ t' = Transition i const_tau_label_index i) \/
    exists t s u, t ∈ m_transitions l /\ rtc (tau_step l) s (from t) /\ rtc (tau_step l) (to t) u /\ t' = Transition s (label t) u.
Proof.
  destruct (closure_spec false) as (bw & E1 & H1). destruct (closure_spec true) as (fw & E2 & H2).
  unfold reflexive_transitive_tau_closure. rewrite E1. cbn [mbind option_bind]. rewrite E2. cbn [mbind option_bind].
  change (clear_transitions l) with (set_transitions [] l). rewrite bisim_add_transitions. cbn [app]. eexists. split; [done|].
  split; [done|]. cbn [m_transitions set_transitions]. split.
  - apply transition_sorted_nodup, insert_all_set, insert_loop_set; [|constructor]. intros. by apply insert_sequences_set.
  - intros t'. rewrite insert_all_elem, (insert_loop_elem _ _ _ _ _ (insert_sequences_elem bw fw)).
    setoid_rewrite elem_of_seq. setoid_rewrite H1. setoid_rewrite H2. setoid_rewrite tc_backward. setoid_rewrite rtc_tc_or.
    change (directed true) with (tau_step l). rewrite elem_of_nil. split.
    + intros [[[]|(t & Ht & s & u & Hs & Hu & ->)]|(i & Hi & ->)]; [right|left; exists i; split; [lia|done]].
      exists t, s, u. split_and!; [done|naive_solver|naive_solver|done].
    + intros [(i & Hi & ->)|(t & s & u & Ht & Hs & Hu & ->)]; [right; exists i; split; [lia|done]|left; right].
      exists t. split; [done|]. exists s, u. split_and!; [naive_solver|naive_solver|done].
Qed.

Abbreviation weak_step := (wstep const_tau_label_index (lstep l)).

Lemma closure_steps l' : same_frame l' ->
  (forall t', t' ∈ m_transitions l' <-> (exists i, i < n /\ t' = Transition i const_tau_label_index i) \/
    exists t s u, t ∈ m_transitions l /\ rtc (tau_step l) s (from t) /\ rtc (tau_step l) (to t) u /\ t' = Transition s (label t) u) ->
  wf_lts tau_action l' /\ forall s a t, lstep l' s a t <-> s < n /\ weak_step s a t.
Proof.
  intros (F1 & F2 & F3 & F4 & F5) Ht.
  assert (Hh : forall i, apply_hidden_label_map i l' = hid i) by (intros i; unfold apply_hidden_label_map; by rewrite F4).
  assert (Hback : forall s u, rtc (tau_step l) s u -> u < n -> s < n).
  { intros s u Hsu Hu. apply rtc_inv in Hsu as [->|(v & Hv & _)]; [done|]. by apply (lstep_bound tau_action l Hwf) in Hv as [? _]. }
  assert (Htau : hid const_tau_label_index = const_tau_label_index) by (unfold apply_hidden_label_map; by case_decide).
  split.
  - destruct Hwf as [W1 W2 W3 W4 W5]. split; rewrite ?F3; try done; intros t' [(i & Hi & ->)|(t & s & u & Hin & Hs & Hu & ->)]%Ht; cbn;
      change (m_nstates l') with (num_states l'); rewrite ?F1; auto.
    + by apply lookup_lt_Some in W1.
    + by apply (Hback s (from t)), W4.
    + by apply (rtc_bound (to t)); [apply W5|].
  - intros s a t. unfold lstep at 1. setoid_rewrite Hh. setoid_rewrite Ht. split.
    + intros (tr' & [(i & Hi & ->)|(tr & s' & u & Hin & Hs & Hu & ->)] & <- & <- & <-); cbn.
      * split; [done|]. rewrite Htau. apply wstep_tau, rtc_refl.
      * split; [by apply (Hback s' (from tr)), (wf_from _ l Hwf)|].
        apply (wstep_extend _ _ s' (from tr) _ (to tr) u); [done| |done]. apply wstep_once. by exists tr.
    + intros [Hs Hw]. unfold wstep in Hw. case_decide as Ea.
      * subst a. apply rtc_tc_or in Hw as [->|Hw]; [exists (Transition t const_tau_label_index t); split; [left; by exists t|done]|].
        assert (exists u, tau_step l s u /\ rtc (tau_step l) u t) as (u & (tr & Htr & E1 & E2 & E3) & Hu).
        { inversion Hw as [? ? Hxy|? y ? Hxy Hr]; subst; [exists t; by split; [|apply rtc_refl]|]. exists y. split; [done|by apply tc_rtc]. }
        exists (Transition s (label tr) t). split; [right|by cbn; split_and!]. exists tr, s, t. rewrite E1, E3.
        split_and!; [done|apply rtc_refl|done|done].
      * destruct Hw as (u & v & H1 & (tr & Htr & <- & <- & <-) & H3). exists (Transition s (label tr) t). split; [right|done]. by exists tr, s, t.
Qed.

(** [reflexive_transitive_tau_closure] leaves the states and labels and makes
    every weak step a transition, and nothing else.  Strong bisimilarity of the
    result is therefore weak bisimilarity of the original. *)
Lemma tau_closure_spec : exists l', reflexive_transitive_tau_closure l = Some l' /\ same_frame l' /\ wf_lts tau_action l' /\
  NoDup (m_transitions l') /\
  (forall s a t, lstep l' s a t <-> s < n /\ weak_step s a t) /\
  (forall s t, s < n -> t < n ->
     bisimilar None (lstep l') (lstep l') s t <-> weak_bisimilar const_tau_label_index (lstep l) (lstep l) s t).
Proof.
  destruct closure_transitions as (l' & E & HF & Hn & Ht). destruct (closure_steps l' HF Ht) as [Hw Hs]. exists l'.
  split_and!; try done; try apply HF. intros s t Hsn Htn. rewrite weak_bisimilar_strong.
  assert (He : embedding (lstep l') weak_step (fun s => s) (fun s => s < n)).
  { split; [|intros x a y Hx Hxy; exists y].
    - intros x a y Hx H. apply (lstep_bound tau_action l' Hw) in H as Hb. apply Hs in H as [_ H]. split; [|done]. destruct HF as (F & _). lia.
    - assert (H : lstep l' x a y) by (by apply Hs). apply (lstep_bound tau_action l' Hw) in H as Hb. destruct HF as (F & _). by split_and!; [lia|..]. }
  by apply (embedding_bisimilar None (lstep l') (lstep l') weak_step (fun s => s) (fun s => s) (fun s => s < n) (fun s => s < n)).
Qed.

(** ** [remove_redundant_transitions] *)

(** There is another way for the step. *)
Definition redundant (l : lts SL AL) (s a t : nat) : Prop :=
  if decide (a = const_tau_label_index) then exists m, tau_step l s m /\ tau_step l m t
  else (exists m, tau_step l s m /\ lstep l m a t) \/ (exists m, lstep l s a m /\ tau_step l m t).

Abbreviation out := (outgoing_transitions_per_state l).

Lemma pairs_of_spec s p : s < n -> p ∈ pairs_of out s <-> exists tr, tr ∈ m_transitions l /\ from tr = s /\ (label tr, to tr) = p.
Proof.
  intros Hs. pose proof (indexed_elem (fun _ => true) from outgoing_pair _ _ (out_from tau_action l Hwf) s p Hs) as He. fold out in He.
  destruct (out_targets tau_action l Hwf s Hs) as [Hout _].
  assert (E : p ∈ pairs_of out s <-> exists i, lowerbound out s <= i < upperbound out s /\ get_transitions out !! i = Some p).
  { unfold pairs_of. rewrite list_elem_of_fmap. split.
    - intros (i & -> & Hi). destruct (Hout i Hi) as (q & Eq & _). apply elem_of_seq in Hi. exists i.
      split; [lia|]. by rewrite (list_lookup_total_correct _ _ _ Eq).
    - intros (i & Hi & Ei). exists i. split; [by rewrite (list_lookup_total_correct _ _ _ Ei)|apply elem_of_seq; lia]. }
  rewrite E, He. unfold outgoing_pair. naive_solver.
Qed.

Lemma collect_middle_spec a ps : forall H V, exists H' V', foldl (collect_middle l a) (Some (H, V)) ps = Some (H', V') /\
  (forall x, x ∈ H' <-> x ∈ H \/ exists j, j ∈ ps /\ hidden_label l j.1 = true /\ j.2 = x) /\
  (forall x, x ∈ V' <-> x ∈ V \/ exists j, j ∈ ps /\ hidden_label l j.1 = false /\ j.1 = a /\ j.2 = x).
Proof.
  induction ps as [|j ps IH]; intros H V; cbn [foldl].
  - exists H, V. split; [done|]. setoid_rewrite elem_of_nil. naive_solver.
  - setoid_rewrite elem_of_cons. unfold collect_middle at 2. cbn [mbind option_bind]. destruct (hidden_label l j.1) eqn:Ej.
    + destruct (IH ({[j.2]} ∪ H) V) as (H' & V' & E & H1 & H2). exists H', V'. split; [done|].
      split; intros x; rewrite ?H1, ?H2, ?elem_of_union, ?elem_of_singleton; naive_solver congruence.
    + destruct (Nat.eqb_spec a j.1) as [->|Hne].
      * rewrite Ej. destruct (IH H ({[j.2]} ∪ V)) as (H' & V' & E & H1 & H2). exists H', V'. split; [done|].
        split; intros x; rewrite ?H1, ?H2, ?elem_of_union, ?elem_of_singleton; naive_solver congruence.
      * destruct (IH H V) as (H' & V' & E & H1 & H2). exists H', V'. split; [done|].
        split; intros x; rewrite ?H1, ?H2; naive_solver congruence.
Qed.

Lemma hidden_label_lstep s t : s < n -> (exists j, j ∈ pairs_of out s /\ hidden_label l j.1 = true /\ j.2 = t) <-> tau_step l s t.
Proof.
  intros Hs. setoid_rewrite pairs_of_spec; [|done]. unfold tau_step, lstep. split.
  - intros (j & (tr & Htr & Ef & <-) & Hh & <-). exists tr. split_and!; try done. by apply is_tau_hid.
  - intros (tr & Htr & Ef & Eh & Et). exists (label tr, to tr). split; [by exists tr|]. split; [by apply is_tau_hid|done].
Qed.

Lemma visible_label_lstep s a t : s < n -> hidden_label l a = false ->
  (exists j, j ∈ pairs_of out s /\ j.1 = a /\ j.2 = t) <-> lstep l s (hid a) t.
Proof.
  intros Hs Ha. setoid_rewrite pairs_of_spec; [|done]. unfold lstep. split.
  - intros (j & (tr & Htr & Ef & <-) & <- & <-). by exists tr.
  - intros (tr & Htr & Ef & Eh & Et). exists (label tr, to tr). split; [by exists tr|]. split; [|done]. cbn.
    unfold hidden_label, is_tau, apply_hidden_label_map in *. apply Nat.eqb_neq in Ha. repeat case_decide; congruence.
Qed.

Lemma found_alternative_spec s a t : s < n -> forall H V, foldl (collect_middle l a) (Some (∅, ∅)) (pairs_of out s) = Some (H, V) ->
  found_alternative l out a t H V = true <-> redundant l s (hid a) t.
Proof.
  intros Hs H V E. destruct (collect_middle_spec a (pairs_of out s) ∅ ∅) as (H' & V' & E' & H1 & H2). rewrite E in E'. injection E' as <- <-.
  assert (Hm : forall x, x ∈ H <-> tau_step l s x).
  { intros x. rewrite H1, <- (hidden_label_lstep s x Hs). set_solver. }
  assert (Hlt : forall x, tau_step l s x -> x < n) by (intros x Hx; by apply (lstep_bound tau_action l Hwf) in Hx as [_ ?]).
  unfold found_alternative, redundant. rewrite orb_true_iff, andb_true_iff, negb_true_iff, !existsb_exists.
  setoid_rewrite existsb_exists. setoid_rewrite <- list_elem_of_In. setoid_rewrite elem_of_elements. setoid_rewrite Hm.
  destruct (hidden_label l a) eqn:Ea.
  - rewrite decide_True by (by apply is_tau_hid). setoid_rewrite andb_true_iff. setoid_rewrite (Nat.eqb_eq _ t). split.
    + intros [(m & Hsm & Hmt)|[? _]]; [|done]. exists m. split; [done|]. by apply (hidden_label_lstep m t (Hlt m Hsm)).
    + intros (m & Hsm & Hmt). left. exists m. split; [done|]. by apply (hidden_label_lstep m t (Hlt m Hsm)).
  - rewrite decide_False by (intros Q; apply is_tau_hid in Q; unfold hidden_label in Ea; congruence).
    assert (Hv : forall x, x ∈ V <-> lstep l s (hid a) x).
    { intros x. rewrite H2, <- (visible_label_lstep s a x Hs Ea). split.
      2: { intros (j & Hj & Ej & Ex). right. exists j. by rewrite Ej. }
      intros [?|(j & ? & ? & ? & ?)]; [set_solver|by exists j]. }
    setoid_rewrite Hv. setoid_rewrite andb_true_iff. setoid_rewrite (Nat.eqb_eq _ t). setoid_rewrite (Nat.eqb_eq _ a). apply Morphisms_Prop.or_iff_morphism.
    + split; intros (m & Hsm & Hmt); exists m; (split; [done|]); by apply (visible_label_lstep m a t (Hlt m Hsm) Ea).
    + split; [intros [_ (m & Hsm & Hmt)]|intros (m & Hsm & Hmt); split; [done|]]; exists m; (split; [done|]);
        apply (lstep_bound tau_action l Hwf) in Hsm as [_ Hb]; by apply (hidden_label_lstep m t Hb).
Qed.

Lemma redundant_or_not s a t : lstep l s a t -> redundant l s a t \/ ~ redundant l s a t.
Proof.
  intros (tr & Htr & <- & <- & <-). destruct (collect_middle_spec (label tr) (pairs_of out (from tr)) ∅ ∅) as (H & V & E & _).
  pose proof (found_alternative_spec (from tr) (label tr) (to tr) (wf_from _ l Hwf tr Htr) H V E) as Hf.
  destruct (found_alternative l out (label tr) (to tr) H V); [left; by apply Hf|right; intros Q; by apply Hf in Q].
Qed.

Lemma keep_pairs s ps ts : s < n -> exists ts', foldl (keep_pair l out s) (Some (set_transitions ts l)) ps = Some (set_transitions ts' l) /\
  forall tr, tr ∈ ts' <-> tr ∈ ts \/ exists p, p ∈ ps /\ tr = Transition s p.1 p.2 /\ ~ redundant l s (hid p.1) p.2.
Proof.
  intros Hs. revert ts. induction ps as [|p ps IH]; intros ts; cbn [foldl].
  - exists ts. split; [done|]. setoid_rewrite elem_of_nil. naive_solver.
  - unfold keep_pair at 2. cbn [mbind option_bind].
    destruct (collect_middle_spec p.1 (pairs_of out s) ∅ ∅) as (H & V & E & _). rewrite E. cbn [mbind option_bind].
    pose proof (found_alternative_spec s p.1 p.2 Hs H V E) as Hf. setoid_rewrite elem_of_cons. destruct (found_alternative l out p.1 p.2 H V).
    + destruct (IH ts) as (ts' & E' & Hts'). exists ts'. split; [done|]. intros tr. rewrite Hts'.
      assert (redundant l s (hid p.1) p.2) by (by apply Hf). naive_solver.
    + assert (Hn : ~ redundant l s (hid p.1) p.2) by (intros Q; by apply Hf in Q).
      change (add_transition _ (set_transitions ts l)) with (set_transitions (ts ++ [Transition s p.1 p.2]) l).
      destruct (IH (ts ++ [Transition s p.1 p.2])) as (ts' & E' & Hts'). exists ts'. split; [done|]. intros tr.
      rewrite Hts', elem_of_app, list_elem_of_singleton. naive_solver.
Qed.

Lemma remove_redundant_transitions_elem : exists ts', remove_redundant_transitions l = Some (set_transitions ts' l) /\
  forall tr, tr ∈ ts' <-> tr ∈ m_transitions l /\ ~ redundant l (from tr) (hid (label tr)) (to tr).
Proof.
  unfold remove_redundant_transitions. change (clear_transitions l) with (set_transitions [] l).
  enough (Hk : forall k, k <= n -> exists ts', foldl (fun new s => foldl (keep_pair l out s) new (pairs_of out s)) (Some (set_transitions [] l)) (seq 0 k)
      = Some (set_transitions ts' l) /\
    forall tr, tr ∈ ts' <-> tr ∈ m_transitions l /\ from tr < k /\ ~ redundant l (from tr) (hid (label tr)) (to tr)).
  { destruct (Hk n (le_n _)) as (ts' & E & H). exists ts'. split; [done|]. intros tr. rewrite H.
    split; [tauto|]. intros [? ?]. split_and!; [done|by apply (wf_from _ l Hwf)|done]. }
  induction k as [|k IH]; intros Hk.
  - exists []. split; [done|]. intros tr. rewrite elem_of_nil. split; [done|lia].
  - destruct (IH ltac:(lia)) as (ts & E & H). rewrite seq_S, foldl_snoc, E. cbn [Nat.add].
    destruct (keep_pairs k (pairs_of out k) ts ltac:(lia)) as (ts' & E' & H'). exists ts'. split; [done|]. intros tr. rewrite H', H.
    setoid_rewrite pairs_of_spec; [|lia]. split.
    + intros [(? & ? & ?)|(p & (tr' & Htr' & Ef & <-) & -> & Hr)]; [split_and!; [done|lia|done]|]. cbn in *. subst k.
      split_and!; [by destruct tr'|lia|done].
    + intros (Ht & Hlt & Hr). destruct (decide (from tr = k)) as [<-|Hne]; [right|left; split_and!; [done|lia|done]].
      exists (label tr, to tr). split_and!; [by exists tr|by destruct tr|done].
Qed.

(** The steps that are left. *)
Lemma remove_redundant_steps ts' : (forall tr, tr ∈ ts' <-> tr ∈ m_transitions l /\ ~ redundant l (from tr) (hid (label tr)) (to tr)) ->
  forall s a t, lstep (set_transitions ts' l) s a t <-> lstep l s a t /\ ~ redundant l s a t.
Proof.
  intros H s a t. unfold lstep at 1. cbn [m_transitions set_transitions]. setoid_rewrite H. split.
  - intros (tr & [Htr Hr] & <- & <- & <-). split; [by exists tr|done].
  - intros [(tr & Htr & <- & <- & <-) Hr]. by exists tr.
Qed.

(** Without tau loops the weak steps are what they were. *)
Lemma remove_redundant_weak (step' : nat -> nat -> nat -> Prop) :
  (forall s t, tau_step l s t -> t < s) ->
  (forall s a t, step' s a t -> lstep l s a t) -> (forall s a t, lstep l s a t -> step' s a t \/ redundant l s a t) ->
  forall s a t, wstep const_tau_label_index step' s a t <-> weak_step s a t.
Proof.
  intros Hlow Hsub Hred.
  assert (Htau : forall k s t, s - t < k -> tau_step l s t -> rtc (internal const_tau_label_index step') s t).
  { induction k as [|k IH]; intros s t Hk Hst; [lia|]. destruct (Hred s _ t Hst) as [?|Hr]; [by apply rtc_once|].
    unfold redundant in Hr. rewrite decide_True in Hr by done. destruct Hr as (m & H1 & H2). pose proof (Hlow _ _ H1). pose proof (Hlow _ _ H2).
    trans m; apply IH; done || lia. }
  assert (Hrtc : forall s t, rtc (tau_step l) s t -> rtc (internal const_tau_label_index step') s t).
  { intros s t H. induction H as [|s u t H _ IH]; [apply rtc_refl|]. trans u; [|done]. by apply (Htau (S (s - u))); [lia|]. }
  assert (Hvis : forall k s a t, a <> const_tau_label_index -> s + (n - t) < k -> lstep l s a t -> wstep const_tau_label_index step' s a t).
  { induction k as [|k IH]; intros s a t Ha Hk Hst; [lia|]. destruct (Hred s a t Hst) as [?|Hr]; [by apply wstep_once|].
    unfold redundant in Hr. rewrite decide_False in Hr by done. destruct Hr as [(m & H1 & H2)|(m & H1 & H2)].
    - pose proof (Hlow _ _ H1). apply (wstep_extend _ _ s m a t t); [by apply Hrtc, rtc_once|apply IH; done || lia|apply rtc_refl].
    - pose proof (Hlow _ _ H2). apply (lstep_bound tau_action l Hwf) in H2 as Hb.
      apply (wstep_extend _ _ s s a m t); [apply rtc_refl|apply IH; done || lia|by apply Hrtc, rtc_once]. }
  intros s a t. split; intros H; unfold wstep in H; case_decide as Ea.
  - subst a. apply wstep_tau. revert H. apply (rtc_congruence (fun x => x)). intros x y. apply Hsub.
  - destruct H as (u & v & H1 & H2 & H3). apply (wstep_extend _ _ s u a v t); [|by apply wstep_once, Hsub|];
      [revert H1|revert H3]; apply (rtc_congruence (fun x => x)); intros x y; apply Hsub.
  - subst a. apply wstep_tau. by apply Hrtc.
  - destruct H as (u & v & H1 & H2 & H3). apply (wstep_extend _ _ s u a v t); [by apply Hrtc| |by apply Hrtc].
    by apply (Hvis (S (u + (n - v)))); [|lia|].
Qed.

Lemma remove_redundant_spec : (forall s t, tau_step l s t -> t < s) ->
  exists l', remove_redundant_transitions l = Some l' /\ same_frame l' /\ wf_lts tau_action l' /\
    (forall s a t, lstep l' s a t -> lstep l s a t /\ ~ redundant l s a t) /\
    (forall s a t, wstep const_tau_label_index (lstep l') s a t <-> weak_step s a t).
Proof.
  intros Hlow. destruct remove_redundant_transitions_elem as (ts' & E & H). pose proof (remove_redundant_steps ts' H) as Hs.
  exists (set_transitions ts' l). split_and!; try done.
  - destruct Hwf as [W1 W2 W3 W4 W5]. split; try done; intros t [Ht _]%H; auto.
  - by intros s a t ?%Hs.
  - apply remove_redundant_weak; [done|by intros s a t [? _]%Hs|]. intros s a t Hst.
    destruct (redundant_or_not s a t Hst); [by right|left; by apply Hs].
Qed.

(** ** [tau_star_reduce] *)

(** The transitions before unreachable states are removed. *)
Lemma tau_star_transitions : exists ts, tau_star_reduce default_label tau_action l =
    (r ← reachability_check default_label tau_action (set_transitions ts l) true; Some r.2) /\
  forall t', t' ∈ ts <-> exists t s, t ∈ m_transitions l /\ is_tau (hid (label t)) = false /\ rtc (tau_step l) s (from t) /\
    t' = Transition s (label t) (to t).
Proof.
  destruct (closure_spec false) as (bw & E1 & H1). unfold tau_star_reduce. rewrite E1. cbn [mbind option_bind].
  change (clear_transitions l) with (set_transitions [] l). rewrite bisim_add_transitions. cbn [app]. eexists. split; [done|].
  intros t'. rewrite (insert_loop_elem _ (fun t t' => exists s, s ∈ entry bw (from t) /\ t' = Transition s (label t) (to t))).
  2: { intros ts t t''. rewrite insert_all_elem. by setoid_rewrite elem_of_elements. }
  rewrite (insert_all_elem (fun t => t)), elem_of_nil. setoid_rewrite list_elem_of_filter. setoid_rewrite H1. setoid_rewrite tc_backward.
  setoid_rewrite rtc_tc_or. split.
  - intros [[[]|(t & [? ?] & ->)]|(t & [? ?] & s & ? & ->)]; [exists t, (from t)|exists t, s]; split_and!; try done; [by left|by destruct t|by right].
  - intros (t & s & ? & ? & [->|?] & ->); [left; right; exists t; split; [done|by destruct t]|right; exists t; split; [done|by exists s]].
Qed.

Lemma star_acts ts : (forall t', t' ∈ ts <-> exists t s, t ∈ m_transitions l /\ is_tau (hid (label t)) = false /\ rtc (tau_step l) s (from t) /\
    t' = Transition s (label t) (to t)) ->
  wf_lts tau_action (set_transitions ts l) /\
  (forall e, e ∈ raw_behaviour (set_transitions ts l) <-> e ∈ behaviour (set_transitions ts l)) /\
  forall s a t, acts (set_transitions ts l) s a t <-> a <> tau_action /\ exists u, rtc (internal tau_action (acts l)) s u /\ acts l u a t.
Proof.
  intros H. assert (Hvis : forall t, t ∈ m_transitions l -> is_tau (hid (label t)) = false -> hid (label t) = label t).
  { intros t _. unfold apply_hidden_label_map. by case_decide. }
  assert (Hw : wf_lts tau_action (set_transitions ts l)).
  { destruct Hwf as [W1 W2 W3 W4 W5]. split; try done; intros t' (t & s & Ht & _ & Hs & ->)%H; cbn; auto.
    apply rtc_inv in Hs as [->|(v & Hv & _)]; [auto|]. by apply (lstep_bound tau_action l Hwf) in Hv as [? _]. }
  assert (Hr : forall s u, rtc (internal tau_action (acts l)) s u <-> rtc (tau_step l) s u).
  { intros s u. split; apply (rtc_congruence (fun x => x)); intros x y; by apply acts_tau. }
  split; [done|]. split.
  - intros e. unfold raw_behaviour, behaviour. rewrite !list_elem_of_fmap. cbn [m_transitions set_transitions].
    assert (He : forall t', t' ∈ ts -> action_of (set_transitions ts l) (label t') = m_action_labels l !! label t').
    { intros t' (t & s & Ht & Hv & _ & ->)%H. unfold action_of. change (apply_hidden_label_map _ _) with (hid (label t)). cbn.
      by rewrite (Hvis t Ht Hv). }
    split; intros (t' & -> & Ht'); exists t'; by rewrite (He t' Ht').
  - intros s a t. rewrite acts_lstep. setoid_rewrite acts_lstep. setoid_rewrite Hr. cbn [m_action_labels set_transitions].
    pose proof (wf_tau _ l Hwf) as H0. split.
    + intros (i & (t' & (tr & s' & Htr & Hv & Hs & ->)%H & <- & <- & <-) & Ha). cbn in *.
      change (apply_hidden_label_map (label tr) (set_transitions ts l)) with (hid (label tr)) in Ha. split.
      * intros ->. pose proof (NoDup_lookup _ _ _ _ (wf_unique _ l Hwf) Ha H0) as E. unfold is_tau in Hv. apply Nat.eqb_neq in Hv. by apply Hv.
      * exists (from tr). split; [done|]. exists (hid (label tr)). split; [by exists tr|done].
    + intros (Ha & u & Hs & i & (tr & Htr & <- & <- & <-) & Hi). exists (hid (label tr)). split; [|done].
      exists (Transition s (label tr) (to tr)). split; [|done]. apply H. exists tr, s. split_and!; try done.
      unfold is_tau. apply Nat.eqb_neq. intros E. rewrite E in Hi. unfold const_tau_label_index in Hi. congruence.
Qed.

Lemma tau_star_reduce_spec : m_init_state l < n -> (has_state_info l = true -> length (m_state_labels l) = n) ->
  exists l', tau_star_reduce default_label tau_action l = Some l' /\ (forall s t, ~ acts l' s tau_action t) /\
    forall w, (exists t, weak_trace tau_action (acts l) (m_init_state l) w t) <->
      exists t, weak_trace tau_action (acts l') (m_init_state l') w t.
Proof.
  intros Hi Hl. destruct tau_star_transitions as (ts & E & Hts). destruct (star_acts ts Hts) as (Hw & Hraw & Hacts).
  pose proof (absorbed_weak_trace tau_action (acts l) _ Hacts) as Htr. set (l1 := set_transitions ts l) in *.
  destruct (reachability_check_spec default_label tau_action l1 Hw Hi Hl) as (r & l' & _ & _ & E' & Ht & Hf).
  exists l'. rewrite E, E'. split; [done|]. destruct r.
  - rewrite (Ht eq_refl). split; [|intros w; apply Htr]. by intros s t [? _]%Hacts.
  - destruct (Hf eq_refl) as (f & _ & Hinj & _ & Einit & Hbeh & Hhid).
    assert (Hacts' : forall x a y, acts l' x a y <-> exists s t, acts l1 s a t /\ is_reachable l1 s /\ x = f s /\ y = f t).
    { intros x a y. unfold acts at 1. assert (Eb : behaviour l' = raw_behaviour l').
      { unfold behaviour, raw_behaviour. apply list_fmap_ext. intros i t _. unfold action_of, apply_hidden_label_map.
        by rewrite Hhid, decide_False by set_solver. }
      rewrite Eb, Hbeh. setoid_rewrite Hraw. split; [intros (s & a' & t & ? & ? & [= -> <- ->]); by exists s, t|].
      intros (s & t & ? & ? & -> & ->). by exists s, (Some a), t. }
    split; [intros x y (s & t & [? _]%Hacts & _)%Hacts'; done|]. intros w. rewrite Htr, Einit.
    apply (embedding_weak_trace tau_action (acts l1) (acts l') f (is_reachable l1)); [|apply rtc_refl]. split.
    + intros s a t Hs Hst. assert (Hr : is_reachable l1 t).
      { apply rtc_r with s; [done|]. apply acts_lstep in Hst as (i & (tr & Htr' & <- & _ & <-) & _). by exists tr. }
      split; [done|]. apply Hacts'. by exists s, t.
    + intros s a y Hs (s' & t & Hst & Hs' & Es & ->)%Hacts'. apply Hinj in Es as <-; [|done|done]. exists t. split; [|done].
      apply rtc_r with s; [done|]. apply acts_lstep in Hst as (i & (tr & Htr' & <- & _ & <-) & _). by exists tr.
Qed.
End Correct.

Section Star.
Context {SL AL : Type} `{!EqDecision SL} `{!EqDecision AL} (tau_action : AL) (default_label : SL).

(** [tau_star_reduce] ends and leaves a transition system without internal
    actions that has the weak traces of the original: the sequences of visible
    actions from the initial state. *)
Lemma tau_star_reduce_correct (l : lts SL AL) :
  wf_lts tau_action l -> m_init_state l < num_states l ->
  (has_state_info l = true -> length (m_state_labels l) = num_states l) ->
  exists l', tau_star_reduce default_label tau_action l = Some l' /\ (forall s t, ~ acts l' s tau_action t) /\
    forall w, (exists t, weak_trace tau_action (acts l) (m_init_state l) w t) <->
      exists t, weak_trace tau_action (acts l') (m_init_state l') w t.
Proof. intros Hw. by apply tau_star_reduce_spec. Qed.

End Star.

(** *** Example and witness *)

(** Only two steps [a] are left of [0 <-tau-> 1], [1 --a--> 2], [2 --b--> 2] with
    [b] hidden, and [3 --tau--> 1]. *)
Lemma example_star :
  option_map (fun l : lts nat string => (num_states l, m_init_state l, m_transitions l)) (tau_star_reduce 0 "tau"%string example_loops)
  = Some (2, 1, [Transition 1 1 0]).
Proof. vm_compute. reflexivity. Qed.

