(* ===== verification/WeakReduce.v ===== *)
(** * Weak bisimulation reduction
    ([detail/liblts_weak_bisim.h] of [libraries/lts])

    [weak_bisimulation_reduce] reduces modulo branching bisimulation, closes under
    tau steps, reduces modulo strong bisimulation, and removes what the closure
    added.  The bisimulation reduction it calls is a parameter: what it has to do
    is the class [BisimulationReducer], and the algorithm of Groote and Vaandrager
    is an instance of it. *)

From Stdlib Require Import Lia.
From stdpp Require Import base numbers sets list gmap sorting relations strings.
From S2P Require Import Prelude Lts Scc SccTheorems LtsAlgorithm Bisimulation WeakBisimulation BisimPartition BisimCorrect BisimTheorems TauClosure TauClosureCorrect.

#[local] Arguments Nat.ltb : simpl never.
#[local] Arguments Nat.eqb : simpl never.

Section Definitions.
Context {SL AL : Type} `{!EqDecision SL} `{!EqDecision AL}.
Context (default_label : SL) (label_plus : SL -> SL -> SL) (tau_action divergence_action : AL).
Context (bisimulation_reduce_dnj : bool -> bool -> lts SL AL -> option (lts SL AL)).

Definition weak_bisimulation_reduce (preserve_divergences : bool) (l : lts SL AL) : option (lts SL AL) :=
  l ← (if 1 <? num_states l then bisimulation_reduce_dnj true preserve_divergences l else Some l);
  '(l, divergence_label) ←
    (if preserve_divergences then mark_explicit_divergence_transitions tau_action divergence_action l else Some (l, 0));
  l ← (if 1 <? num_states l
       then l ← reflexive_transitive_tau_closure l; bisimulation_reduce_dnj false false l else Some l);
  l ← scc_reduce default_label label_plus l false;
  l ← remove_redundant_transitions l;
  Some (if preserve_divergences then unmark_explicit_divergence_transitions divergence_label l else l).

End Definitions.

(** What a bisimulation reduction without preservation of divergence promises.
    The result has a label for every state, or none, as
    [bisim_partitioner_dnj] leaves it when there were none before. *)
Class BisimulationReducer {SL AL : Type} (tau_action : AL) (reduce : bool -> bool -> lts SL AL -> option (lts SL AL)) : Prop :=
  reducer_correct : forall branching l, wf_lts tau_action l -> (Z.of_nat (num_states l) < word_modulus - 1)%Z ->
    (has_state_info l = true -> length (m_state_labels l) = num_states l) -> m_init_state l < num_states l ->
    exists l' class, reduce branching false l = Some l' /\
      wf_lts tau_action l' /\ m_action_labels l' = m_action_labels l /\
      m_init_state l' = class (m_init_state l) /\
      (has_state_info l' = true -> length (m_state_labels l') = num_states l') /\
      (forall s, s < num_states l -> class s < num_states l') /\
      (forall c, c < num_states l' -> exists s, s < num_states l /\ class s = c) /\
      bisimulation (vtau branching) (istep branching false l) (istep branching false l')
        (fun s c => s < num_states l /\ class s = c) /\
      (forall c d, c < num_states l' -> d < num_states l' ->
         bisimilar (vtau branching) (istep branching false l') (istep branching false l') c d -> c = d).

#[export] Instance groote_vaandrager {SL AL : Type} (tau_action : AL) (default_label : SL) (label_plus : SL -> SL -> SL) :
  BisimulationReducer tau_action (bisimulation_reduce default_label label_plus).
Proof.
  intros branching l Hw Hn Hl Hi.
  destruct (bisimulation_reduce_spec tau_action default_label label_plus branching false (orb_true_r _) l Hw Hn Hl Hi)
    as (l' & class & E & R1 & R2 & _ & R3 & R4 & R5 & R6 & R7 & R8 & _).
  by exists l', class.
Qed.

(** ** Without explicit divergence *)

Definition ltau (branching : bool) : option nat := if branching then Some const_tau_label_index else None.

Section Plain.
Context {SL AL : Type} (branching : bool).

Lemma istep_plain (l : lts SL AL) s a t : istep branching false l s a t <-> a.2 = false /\ lstep l s a.1 t.
Proof. unfold istep, dstep. destruct a as [i []]; cbn; rewrite ?andb_false_r; [|tauto]. split; intros [? _]; done. Qed.

Lemma vtau_ltau i : vtau branching = Some (i, false) <-> ltau branching = Some i.
Proof. unfold vtau, ltau. destruct branching; [|done]. split; by intros [= <-]. Qed.

Lemma inert_plain (l : lts SL AL) s t : inert (vtau branching) (istep branching false l) s t <-> inert (ltau branching) (lstep l) s t.
Proof.
  split.
  - intros ([i d] & Ha & [E H]%istep_plain). cbn in *. subst d. exists i. split; [by apply vtau_ltau|done].
  - intros (i & Hi & H). exists (i, false). split; [by apply vtau_ltau|by apply istep_plain].
Qed.

Lemma simulation_plain (l1 l2 : lts SL AL) R :
  simulation (vtau branching) (istep branching false l1) (istep branching false l2) R <-> simulation (ltau branching) (lstep l1) (lstep l2) R.
Proof.
  assert (Hr : forall s t, rtc (inert (vtau branching) (istep branching false l2)) s t <-> rtc (inert (ltau branching) (lstep l2)) s t).
  { intros s t. split; apply (rtc_congruence (fun x => x)); intros x y; apply inert_plain. }
  split; intros H s1 s2.
  - intros i t1 HR Hs. destruct (H s1 s2 (i, false) t1 HR) as [[Hi Ht]|(u2 & t2 & Hu & Hru & [_ Hst]%istep_plain & Ht)]; [by apply istep_plain|left|right].
    + split; [by apply vtau_ltau|done].
    + exists u2, t2. split_and!; try done. by apply Hr.
  - intros [i d] t1 HR [E Hs]%istep_plain. cbn in E, Hs. subst d.
    destruct (H s1 s2 i t1 HR Hs) as [[Hi Ht]|(u2 & t2 & Hu & Hru & Hst & Ht)]; [left|right].
    + split; [by apply vtau_ltau|done].
    + exists u2, t2. split_and!; [by apply Hr|done|by apply istep_plain|done].
Qed.

Lemma bisimulation_plain (l1 l2 : lts SL AL) R :
  bisimulation (vtau branching) (istep branching false l1) (istep branching false l2) R <-> bisimulation (ltau branching) (lstep l1) (lstep l2) R.
Proof. unfold bisimulation. by rewrite !simulation_plain. Qed.

End Plain.

(** ** Steps of the reduction *)

Section Reduce.
Context {SL AL : Type} `{!EqDecision SL} `{!EqDecision AL} (tau_action : AL).
Context (default_label : SL) (label_plus : SL -> SL -> SL).

Abbreviation tau := const_tau_label_index.

(** What the steps need and keep. *)
Record usable (l : lts SL AL) : Prop := {
  us_wf : wf_lts tau_action l;
  us_size : (Z.of_nat (num_states l) < word_modulus - 1)%Z;
  us_labels : has_state_info l = true -> length (m_state_labels l) = num_states l;
  us_init : m_init_state l < num_states l
}.

(** [l'] is weakly bisimilar to [l] by a map onto its states. *)
Record reduces_to (l l' : lts SL AL) (class : nat -> nat) : Prop := {
  red_usable : usable l';
  red_actions : m_action_labels l' = m_action_labels l;
  red_init : m_init_state l' = class (m_init_state l);
  red_range : forall s, s < num_states l -> class s < num_states l';
  red_onto : forall c, c < num_states l' -> exists s, s < num_states l /\ class s = c;
  red_weak : weak_bisimulation tau (lstep l) (lstep l') (fun s c => s < num_states l /\ class s = c)
}.

Lemma onto_le n m (f : nat -> nat) : (forall c, c < m -> exists s, s < n /\ f s = c) -> m <= n.
Proof.
  intros H. rewrite <- (length_seq m 0), <- (length_seq n 0), <- (length_fmap f (seq 0 n)).
  apply NoDup_incl_length; [apply NoDup_ListNoDup, NoDup_seq|]. intros c Hc. apply in_seq in Hc. destruct (H c ltac:(lia)) as (s & Hs & <-).
  apply list_elem_of_In, list_elem_of_fmap. exists s. split; [done|]. apply elem_of_seq. lia.
Qed.

Lemma reduces_to_trans l1 l2 l3 f g : reduces_to l1 l2 f -> reduces_to l2 l3 g -> reduces_to l1 l3 (fun s => g (f s)).
Proof.
  intros [A1 A2 A3 A4 A5 A6] [B1 B2 B3 B4 B5 B6]. split; [done|congruence|congruence|auto| |].
  - intros c (u & Hu & <-)%B5. destruct (A5 u Hu) as (s & Hs & <-). by exists s.
  - apply (weak_bisimulation_iff _ _ _ (fun x z => exists y, (x < num_states l1 /\ f x = y) /\ (y < num_states l2 /\ g y = z))).
    + intros s c. split; [intros (y & [? <-] & _ & <-); done|]. intros [? <-]. exists (f s). split_and!; try done. by apply A4.
    + by apply (weak_bisimulation_compose _ _ (lstep l2)).
Qed.

Lemma reduces_to_refl l : usable l -> reduces_to l l (fun s => s).
Proof.
  intros H. split; try done; [by intros c Hc; exists c|].
  apply (same_wstep_bisimulation tau (lstep l) (lstep l) (fun s => s < num_states l)); [|done].
  intros s a t _ Hst. by apply (lstep_bound tau_action l (us_wf l H)) in Hst as [_ ?].
Qed.

(** A transition system on the same states with the same weak steps. *)
Lemma reduces_to_same l l' : usable l -> wf_lts tau_action l' -> same_frame l l' ->
  (forall s a t, s < num_states l -> wstep tau (lstep l) s a t <-> wstep tau (lstep l') s a t) -> reduces_to l l' (fun s => s).
Proof.
  intros [U1 U2 U3 U4] Hw (F1 & F2 & F3 & F4 & F5) Hs.
  assert (Hu : usable l') by (split; unfold has_state_info; rewrite ?F1, ?F2, ?F5; done).
  split; try done; rewrite ?F1; try done; [by intros c Hc; exists c|]. split.
  - intros s1 s2 a t1 [H1 <-] Hst. exists t1. split; [by apply Hs, wstep_once|]. split; [|done]. by apply (lstep_bound tau_action l U1) in Hst as [_ ?].
  - intros s1 s2 a t1 [H1 ->] Hst. exists t1. split; [by apply Hs, wstep_once|]. split; [|done].
    apply (lstep_bound tau_action l' Hw) in Hst as [_ ?]. by rewrite <- F1.
Qed.

Lemma scc_step l : usable l -> exists p l', scc_reduce default_label label_plus l false = Some l' /\ reduces_to l l' (get_eq_class p) /\
  (forall s t, s < num_states l -> t < num_states l -> get_eq_class p s = get_eq_class p t -> rtc (tau_step l) s t /\ rtc (tau_step l) t s) /\
  (forall s t, tau_step l' s t -> t < s).
Proof.
  intros [U1 U2 U3 U4]. destruct (make_scc_partitioner_spec tau_action l U1 U2) as (p & E & Hp).
  destruct (replace_transition_system_spec default_label label_plus l U3 U4 p Hp false) as (l' & E' & Hq).
  exists p, l'. unfold scc_reduce. rewrite E. cbn [mbind option_bind]. split; [done|].
  pose proof (quotient_states _ _ _ _ _ _ Hq) as Es. pose proof (part_range l p Hp) as Hr. pose proof (part_onto l p Hp) as Ho. split; [|split].
  - split; rewrite ?Es; try done; [|apply Hq|apply Hq|].
    + split; [by apply (quotient_wf tau_action default_label label_plus l U1 p Hp false)| | |].
      * pose proof (part_le l p Hp). lia.
      * intros _. rewrite Es. apply Hq.
      * rewrite Es, (quotient_init _ _ _ _ _ _ Hq). by apply Hr.
    + apply (branching_weak_bisimulation tau _ _ _ (Some tau)); [by intros b [= <-]|].
      pose proof (quotient_bisimulation tau_action default_label label_plus l U1 p Hp false l' Hq) as Hb.
      split; intros s1 s2 a t1 HR Hst.
      * destruct (proj1 (Hb s1 s2 HR) a t1 Hst) as [[-> ?]|(u & v & Hu & ?)]; [by left|right]. exists u, v. split; [|done].
        revert Hu. apply (rtc_congruence (fun x => x)). intros x y ?. by exists tau.
      * destruct (proj2 (Hb s2 s1 HR) a t1 Hst) as [[-> ?]|(u & v & Hu & ?)]; [by left|right]. exists u, v. split; [|done].
        revert Hu. apply (rtc_congruence (fun x => x)). intros x y ?. by exists tau.
  - intros s t Hs Ht. by apply (part_same l p Hp).
  - intros s t Hst. pose proof (quotient_tau_order _ _ l p Hp false l' Hq s t Hst) as Hle.
    apply (quotient_step _ _ l p false l' Hq) in Hst as (x & y & _ & _ & _ & Hk). specialize (Hk eq_refl eq_refl). lia.
Qed.

Lemma closure_step l : usable l -> exists l', reflexive_transitive_tau_closure l = Some l' /\ reduces_to l l' (fun s => s) /\
  (forall s a t, lstep l' s a t <-> s < num_states l /\ wstep tau (lstep l') s a t).
Proof.
  intros Hu. destruct (tau_closure_spec tau_action l (us_wf l Hu)) as (l' & E & HF & Hw & _ & Hs & _). exists l'. split; [done|].
  enough (Hsame : forall s a t, s < num_states l -> wstep tau (lstep l) s a t <-> wstep tau (lstep l') s a t).
  { split; [by apply (reduces_to_same l l' Hu Hw HF)|]. intros s a t. rewrite Hs. split; intros [? ?]; (split; [done|]); by apply Hsame. }
  intros s a t Hsn.
  assert (Hr : forall s t, s < num_states l -> rtc (internal tau (lstep l')) s t <-> rtc (internal tau (lstep l)) s t).
  { intros x y Hx. split.
    - intros H. clear Hx. induction H as [|x u y [_ H]%Hs _ IH]; [apply rtc_refl|]. apply wstep_tau in H. by trans u.
    - intros H. apply rtc_once. apply Hs. split; [done|]. by apply wstep_tau. }
  destruct (decide (a = tau)) as [->|Ha]; [by rewrite !wstep_tau, Hr|]. split.
  - intros H. apply wstep_once, Hs. done.
  - rewrite wstep_visible by done. intros (u & v & H1 & [Hun H2]%Hs & H3). apply Hr in H1; [|done].
    assert (Hv : v < num_states l'). { assert (H : lstep l' u a v) by (by apply Hs). by apply (lstep_bound tau_action l' Hw) in H as [_ ?]. }
    apply Hr in H3; [|by destruct HF as (<- & _)]. by apply (wstep_extend tau (lstep l) s u a v t).
Qed.

Lemma redundant_step l : usable l -> (forall s t, tau_step l s t -> t < s) -> exists l', remove_redundant_transitions l = Some l' /\
  reduces_to l l' (fun s => s) /\ (forall s a t, lstep l' s a t -> ~ redundant l s a t) /\
  (forall s a t, lstep l' s a t -> lstep l s a t) /\ (forall s a t, wstep tau (lstep l') s a t <-> wstep tau (lstep l) s a t).
Proof.
  intros Hu Hlow. destruct (remove_redundant_spec tau_action l (us_wf l Hu) Hlow) as (l' & E & HF & Hw & Hs & Hws). exists l'. split; [done|].
  split_and!; [|by intros s a t [_ ?]%Hs|by intros s a t [? _]%Hs|done]. apply (reduces_to_same l l' Hu Hw HF). intros s a t _. by rewrite Hws.
Qed.

(** ** The reduction *)

Context (reduce : bool -> bool -> lts SL AL -> option (lts SL AL)) `{!BisimulationReducer tau_action reduce}.

Lemma reduce_step branching (l : lts SL AL) : usable l -> exists l' class, reduce branching false l = Some l' /\ reduces_to l l' class /\
  bisimulation (ltau branching) (lstep l) (lstep l') (fun s c => s < num_states l /\ class s = c) /\
  (forall c d, c < num_states l' -> d < num_states l' -> bisimilar (ltau branching) (lstep l') (lstep l') c d -> c = d).
Proof.
  intros [U1 U2 U3 U4]. destruct (reducer_correct branching l U1 U2 U3 U4)
    as (l' & class & E & R1 & R2 & R3 & R4 & R5 & R6 & R7 & R8).
  exists l', class. apply bisimulation_plain in R7. split; [done|]. split; [|split; [done|]].
  - split; try done.
    + split; [done| |done|rewrite R3; auto]. pose proof (onto_le _ _ _ R6). lia.
    + apply (branching_weak_bisimulation tau _ _ _ (ltau branching)); [|done]. unfold ltau. destruct branching; [by intros b [= <-]|done].
  - intros c d Hc Hd (R & HR & Hcd). apply R8; [done|done|]. exists R. split; [by apply bisimulation_plain|done].
Qed.

(** After the second reduction weakly bisimilar states are equal. *)
Lemma saturated_minimal (l2 l3 : lts SL AL) class : usable l3 ->
  (forall s a t, lstep l2 s a t <-> s < num_states l2 /\ wstep tau (lstep l2) s a t) ->
  (forall c, c < num_states l3 -> exists s, s < num_states l2 /\ class s = c) ->
  bisimulation None (lstep l2) (lstep l3) (fun s c => s < num_states l2 /\ class s = c) ->
  (forall c d, c < num_states l3 -> d < num_states l3 -> bisimilar None (lstep l3) (lstep l3) c d -> c = d) ->
  forall c d, c < num_states l3 -> d < num_states l3 -> weak_bisimilar tau (lstep l3) (lstep l3) c d -> c = d.
Proof.
  intros Hu Hs Ho Hb Hm.
  assert (Hsat : forall c a d, c < num_states l3 -> wstep tau (lstep l3) c a d -> lstep l3 c a d).
  { intros c a d Hc H. destruct (Ho c Hc) as (s & Hsn & Es).
    assert (Hwb : weak_bisimulation tau (lstep l2) (lstep l3) (fun s c => s < num_states l2 /\ class s = c))
      by (by apply (branching_weak_bisimulation tau _ _ _ None)).
    destruct (weak_simulation_wstep tau _ _ _ c s a d (proj2 Hwb) (conj Hsn Es) H) as (t & Hst & Htn & Et).
    assert (Hl : lstep l2 s a t) by (by apply Hs).
    destruct (proj1 Hb s c a t (conj Hsn Es) Hl) as [[? _]|(u & d' & Hr & _ & Hud & _ & Ed)]; [done|].
    apply rtc_inv in Hr as [<-|(x & (b & ? & _) & _)]; [|done]. congruence. }
  assert (He : embedding (lstep l3) (wstep tau (lstep l3)) (fun s => s) (fun s => s < num_states l3)).
  { pose proof (lstep_bound tau_action l3 (us_wf l3 Hu)) as Hlt. split.
    - intros s a t Hsn H. split; [by apply Hlt in H as [_ ?]|by apply wstep_once].
    - intros s a t Hsn H%Hsat; [|done]. exists t. split; [by apply Hlt in H as [_ ?]|done]. }
  intros c d Hc Hd H. apply weak_bisimilar_strong in H. apply Hm; [done|done|].
  by apply (embedding_bisimilar None (lstep l3) (lstep l3) (wstep tau (lstep l3)) (fun s => s) (fun s => s) _ _ c d He He).
Qed.

(** The two bisimulation reductions. *)
Lemma first_steps (l : lts SL AL) : usable l -> exists l1 l3 class,
  (if 1 <? num_states l then reduce true false l else Some l) = Some l1 /\
  (if 1 <? num_states l1 then l ← reflexive_transitive_tau_closure l1; reduce false false l else Some l1) = Some l3 /\
  reduces_to l l3 class /\
  (forall c d, c < num_states l3 -> d < num_states l3 -> weak_bisimilar tau (lstep l3) (lstep l3) c d -> c = d).
Proof.
  intros Hu. assert (exists l1 f, (if 1 <? num_states l then reduce true false l else Some l) = Some l1 /\ reduces_to l l1 f) as (l1 & f & E1 & R1).
  { destruct (1 <? num_states l); [|exists l, (fun s => s); split; [done|by apply reduces_to_refl]].
    destruct (reduce_step true l Hu) as (l' & g & ? & ? & _). by exists l', g. }
  destruct (Nat.ltb_spec 1 (num_states l1)) as [Hlt|Hge].
  - pose proof (red_usable _ _ _ R1) as U1. destruct (closure_step l1 U1) as (l2 & E2 & R2 & Hs2).
    destruct (reduce_step false l2 (red_usable _ _ _ R2)) as (l3 & g & E3 & R3 & B3 & M3). exists l1, l3, (fun s => g (f s)).
    split; [done|]. rewrite (proj2 (Nat.ltb_lt 1 (num_states l1)) Hlt), E2. split; [exact E3|].
    split; [exact (reduces_to_trans _ _ _ _ _ R1 (reduces_to_trans _ _ _ _ _ R2 R3))|].
    assert (En : num_states l2 = num_states l1).
    { apply Nat.le_antisymm; [apply (onto_le _ _ _ (red_onto _ _ _ R2))|]. destruct (le_lt_dec (num_states l1) (num_states l2)) as [?|Q]; [done|].
      pose proof (red_range _ _ _ R2 _ Q). lia. }
    apply (saturated_minimal l2 l3 g); try done; [apply R3| |apply R3]. intros s a t. by rewrite En.
  - exists l1, l1, f. split; [done|]. rewrite (proj2 (Nat.ltb_ge 1 (num_states l1)) Hge). split; [done|]. split; [done|].
    intros c d Hc Hd _. lia.
Qed.

(** C29: [weak_bisimulation_reduce] (without preserving divergence) replaces a
    transition system by a weakly bisimilar one that has a state for every class,
    no two weakly bisimilar states, no tau loops, and no transition that can be
    replaced by a tau step and a step.  The bisimulation reduction it calls is any
    that returns a bisimilar transition system without bisimilar states, with or
    without state labels. *)
Theorem weak_bisimulation_reduce_correct (divergence_action : AL) (l : lts SL AL) :
  wf_lts tau_action l -> (Z.of_nat (num_states l) < word_modulus - 1)%Z ->
  (has_state_info l = true -> length (m_state_labels l) = num_states l) -> m_init_state l < num_states l ->
  exists l' class, weak_bisimulation_reduce default_label label_plus tau_action divergence_action reduce false l = Some l' /\
    wf_lts tau_action l' /\ m_action_labels l' = m_action_labels l /\ m_init_state l' = class (m_init_state l) /\
    (forall s, s < num_states l -> class s < num_states l') /\
    (forall c, c < num_states l' -> exists s, s < num_states l /\ class s = c) /\
    weak_bisimulation tau (lstep l) (lstep l') (fun s c => s < num_states l /\ class s = c) /\
    (forall c d, c < num_states l' -> d < num_states l' -> weak_bisimilar tau (lstep l') (lstep l') c d -> c = d) /\
    (forall s, ~ tc (tau_step l') s s) /\
    (forall s a t, lstep l' s a t -> ~ redundant l' s a t).
Proof.
  intros Hw Hn Hl Hi. assert (Hu : usable l) by done. destruct (first_steps l Hu) as (l1 & l3 & f & E1 & E3 & R3 & M3).
  destruct (scc_step l3 (red_usable _ _ _ R3)) as (p & l4 & E4 & R4 & _ & Hlow).
  destruct (redundant_step l4 (red_usable _ _ _ R4) Hlow) as (l5 & E5 & R5 & Hred & Hsub & Hws).
  pose proof (reduces_to_trans _ _ _ _ _ R3 (reduces_to_trans _ _ _ _ _ R4 R5)) as R. exists l5, (fun s => get_eq_class p (f s)).
  split. { unfold weak_bisimulation_reduce. rewrite E1. cbn [mbind option_bind]. rewrite E3. cbn [mbind option_bind]. rewrite E4. cbn [mbind option_bind]. by rewrite E5. }
  destruct R as [RU RA RI RR RO RW]. split_and!; try done; [apply RU| | |].
  - pose proof (red_onto _ _ _ (reduces_to_trans _ _ _ _ _ R4 R5)) as Ho. intros c d (s & Hs & <-)%Ho (t & Ht & <-)%Ho Hcd. f_equal. apply M3; [done|done|].
    apply (weak_bisimilar_transfer tau _ _ _ _ _ _ _ (red_weak _ _ _ R4) (conj Hs eq_refl) (conj Ht eq_refl)).
    apply weak_bisimilar_strong. apply weak_bisimilar_strong in Hcd. revert Hcd. apply bisimilar_ext; done.
  - intros s Hc. assert (Hd : forall s t, tc (tau_step l5) s t -> t < s); [|specialize (Hd s s Hc); lia].
    intros x y H. induction H as [x y H|x u y H _ IH]; apply Hsub, Hlow in H; lia.
  - intros s a t H Hr. apply (Hred s a t H). unfold redundant, tau_step in *. case_decide.
    + destruct Hr as (m & ? & ?). exists m. by split; apply Hsub.
    + destruct Hr as [(m & ? & ?)|(m & ? & ?)]; [left|right]; exists m; by split; apply Hsub.
Qed.

End Reduce.

(** *** Example and witness *)

(** [0 --a--> 1], [0 --a--> 2], [0 --tau--> 3], [1 --tau--> 2], [2 --b--> 3] and [3 --a--> 2] *)
Definition example_weak : lts nat string :=
  mk_lts 4 0 [Transition 0 1 1; Transition 0 1 2; Transition 0 0 3; Transition 1 0 2; Transition 2 2 3; Transition 3 1 2] []
    ["tau"; "a"; "b"]%string ∅.

Lemma example_weak_wf : wf_lts "tau"%string example_weak.
Proof. solve_wf. Qed.

Lemma example_weak_reduced :
  option_map (fun l : lts nat string => (num_states l, m_init_state l, m_transitions l))
    (weak_bisimulation_reduce 0 Nat.add "tau"%string "divergence"%string (bisimulation_reduce 0 Nat.add) false example_weak)
  = Some (2, 0, [Transition 0 1 1; Transition 1 2 0]).
Proof. vm_compute. reflexivity. Qed.

Lemma weak_bisimulation_reduce_correct_witness :
  exists l' class, weak_bisimulation_reduce 0 Nat.add "tau"%string "divergence"%string (bisimulation_reduce 0 Nat.add) false example_weak = Some l' /\
    weak_bisimulation const_tau_label_index (lstep example_weak) (lstep l') (fun s c => s < 4 /\ class s = c).
Proof.
  destruct (weak_bisimulation_reduce_correct "tau"%string 0 Nat.add (bisimulation_reduce 0 Nat.add) "divergence"%string example_weak
    example_weak_wf ltac:(reflexivity) ltac:(done) ltac:(cbn; lia)) as (l' & class & E & _ & _ & _ & _ & _ & H & _).
  exists l', class. exact (conj E H).
Defined.
