(* ===== verification/ActionLabelString.v ===== *)
(** * Action labels that are strings
    ([action_label_string.h] of [libraries/lts])

    The labels of the aut, fsm and dot formats.  [sort_multiactions] keeps its
    multiset in a static variable, which is passed explicitly; [hide_actions] scans
    the string with iterators, which are the remaining characters.  The theorems:
    the constructor gives permuted multi-actions the same label, hiding removes
    exactly the named actions, and what an exception leaves behind. *)

From Stdlib Require Import Lia Ascii String.
From stdpp Require Import base numbers sets list gmap sorting strings.
From S2P Require Import Prelude Lts.

Local Open Scope list_scope.

Definition chars : Type := list ascii.

Definition bar : ascii := "|"%char.
Definition lpar : ascii := "("%char.
Definition rpar : ascii := ")"%char.

(** ** [sort_multiactions] *)

(** [std::string::operator<] *)
Fixpoint chars_lt (s t : chars) : bool :=
  match s, t with
  | [], [] => false
  | [], _ :: _ => true
  | _ :: _, [] => false
  | x :: s, y :: t =>
      (nat_of_ascii x <? nat_of_ascii y) || ((nat_of_ascii x =? nat_of_ascii y) && chars_lt s t)
  end.

(** [std::multiset<std::string>::insert]: after the elements that are not
    greater. *)
Fixpoint multiset_insert (x : chars) (m : list chars) : list chars :=
  match m with
  | [] => [x]
  | y :: m => if chars_lt x y then x :: y :: m else y :: multiset_insert x m
  end.

Inductive label_error : Type := not_proper_1 | not_proper_2.

(** The loop over the characters: the current action is [current] (reversed),
    which starts at [start_of_current_action]. *)
Fixpoint split_loop (s : chars) (nested_bracket_counter : nat) (current : chars) (split_actions : list chars) :
    (label_error + chars) * list chars :=
  match s with
  | [] => (inr (reverse current), split_actions)
  | c :: s =>
      if decide (c = rpar) then
        match nested_bracket_counter with
        | 0 => (inl not_proper_1, split_actions)
        | S k => split_loop s k (c :: current) split_actions
        end
      else if decide (c = lpar) then split_loop s (S nested_bracket_counter) (c :: current) split_actions
      else if decide (c = bar /\ nested_bracket_counter = 0)
      then split_loop s nested_bracket_counter [] (multiset_insert (reverse current) split_actions)
      else split_loop s nested_bracket_counter (c :: current) split_actions
  end.

(** The concatenation at the end. *)
Definition append_action (result s : chars) : chars :=
  if 0 <? length result then result ++ [bar] ++ s else result ++ s.

(** The result and the static [split_actions] afterwards. *)
Definition sort_multiactions (s : chars) (split_actions : list chars) : (label_error + chars) * list chars :=
  match split_loop s 0 [] split_actions with
  | (inl e, split_actions) => (inl e, split_actions)
  | (inr last_action, split_actions) =>
      if decide (last_action = []) then (inl not_proper_2, split_actions)
      else if length split_actions =? 0 then (inr s, split_actions)
      else (inr (foldl append_action [] (multiset_insert last_action split_actions)), [])
  end.

(** ** [hide_actions] *)

(** "Parse action name into a": the name and the rest. *)
Fixpoint parse_name (c : chars) : chars * chars :=
  match c with
  | [] => ([], [])
  | x :: c' => if decide (x = lpar \/ x = bar) then ([], c) else let '(a, r) := parse_name c' in (x :: a, r)
  end.

(** The switch that counts brackets. *)
Definition bracket_depth (nd : nat) (x : ascii) : nat :=
  if decide (x = lpar) then S nd else if decide (x = rpar) then pred nd else nd.

(** "Skip over parameters of a": the do-while loop; what is skipped and the rest. *)
Fixpoint skip_parameters (nd : nat) (c : chars) : chars * chars :=
  match c with
  | [] => ([], [])
  | x :: c =>
      let nd := bracket_depth nd x in
      if 0 <? nd then let '(p, r) := skip_parameters nd c in (x :: p, r) else ([x], c)
  end.

(** "Search for the next occurrence of |" *)
Fixpoint skip_to_bar (c : chars) : chars * chars :=
  match c with
  | [] => ([], [])
  | x :: c' => if decide (x = bar) then ([], c) else let '(p, r) := skip_to_bar c' in (x :: p, r)
  end.

(** One action: its name, its text and what follows. *)
Definition scan_action (c : chars) : chars * chars * chars :=
  let '(a, c1) := parse_name c in
  let '(p, c2) :=
    match c1 with
    | x :: _ => if decide (x = lpar) then skip_parameters 0 c1 else ([], c1)
    | [] => ([], c1)
    end in
  let '(q, c3) := skip_to_bar c2 in
  (a, a ++ p ++ q, c3).

(** "Skip the multi-action operator, if any" *)
Definition skip_operator (c : chars) : chars :=
  match c with
  | x :: c' => if decide (x = bar) then c' else c
  | [] => []
  end.

Fixpoint hide_loop (fuel : nat) (string_vector : list chars) (c ns : chars) : option chars :=
  match c with
  | [] => Some ns
  | _ :: _ =>
      match fuel with
      | 0 => None
      | S fuel =>
          let '(a, text, c) := scan_action c in
          let ns := if decide (a ∈ string_vector) then ns else append_action ns text in
          hide_loop fuel string_vector (skip_operator c) ns
      end
  end.

Definition tau_action : chars := ["t"; "a"; "u"]%char.

Definition hide_actions (string_vector : list chars) (s : chars) : option chars :=
  ns ← hide_loop (length s) string_vector s [];
  Some (if decide (ns = []) then tau_action else ns).

(** ** Multi-actions *)

(** [a(args)]: the name and the arguments with their parentheses. *)
Record action : Type := mk_action { act_name : chars; act_args : chars }.

(** The parenthesis opened [nd] deep is closed by the last character. *)
Fixpoint closes (nd : nat) (l : chars) : bool :=
  match l with
  | [] => false
  | x :: l =>
      let nd := bracket_depth nd x in
      if nd =? 0 then match l with [] => true | _ :: _ => false end else closes nd l
  end.

Record wf_action (a : action) : Prop := {
  wf_name : act_name a <> [];
  wf_name_chars : forall c, c ∈ act_name a -> c <> lpar /\ c <> rpar /\ c <> bar;
  wf_args : act_args a = [] \/ exists body, act_args a = lpar :: body /\ closes 1 body = true
}.

Definition act_text (a : action) : chars := act_name a ++ act_args a.

(** The label of a multi-action as it is printed. *)
Fixpoint print (ms : list action) : chars :=
  match ms with
  | [] => []
  | a :: ms => act_text a ++ match ms with [] => [] | _ :: _ => bar :: print ms end
  end.

(** What may follow an action. *)
Definition ends_action (r : chars) : Prop := r = [] \/ exists r', r = bar :: r'.

(** *** Scanning *)

Lemma parse_name_spec nm r :
  (forall c, c ∈ nm -> c <> lpar /\ c <> rpar /\ c <> bar) -> (r = [] \/ exists x r', r = x :: r' /\ (x = lpar \/ x = bar)) ->
  parse_name (nm ++ r) = (nm, r).
Proof.
  intros Hn Hr. induction nm as [|c nm IH]; cbn.
  - destruct Hr as [->|(x & r' & -> & Hx)]; [done|]. cbn. by rewrite decide_True.
  - destruct (Hn c ltac:(left)) as (? & ? & ?). rewrite decide_False by (intros [?|?]; done).
    rewrite IH; [done|]. intros d Hd. apply Hn. by right.
Qed.

Lemma skip_parameters_spec nd body r :
  closes nd body = true -> skip_parameters nd (body ++ r) = (body, r).
Proof.
  revert nd. induction body as [|x body IH]; intros nd H; [done|]. cbn [closes skip_parameters app] in *.
  remember (bracket_depth nd x) as nd' eqn:E. clear E. destruct nd' as [|nd']; cbn in H |- *.
  - by destruct body.
  - by rewrite IH.
Qed.

Lemma scan_action_spec a r : wf_action a -> ends_action r -> scan_action (act_text a ++ r) = (act_name a, act_text a, r).
Proof.
  intros [H1 H2 H3] Hr. unfold scan_action, act_text. rewrite <- app_assoc.
  assert (Hb : skip_to_bar r = ([], r)) by (by destruct Hr as [->|[r' ->]]).
  rewrite parse_name_spec; [|done|].
  - destruct H3 as [->|(body & -> & Hc)]; cbn [app].
    + by destruct Hr as [->|[r' ->]].
    + rewrite decide_True by done. change (lpar :: body ++ r) with ((lpar :: body) ++ r).
      rewrite (skip_parameters_spec 0 (lpar :: body) r), Hb by done. by rewrite app_nil_r.
  - destruct H3 as [->|(body & -> & _)]; cbn; [|right; eauto]. destruct Hr as [->|[r' ->]]; [by left|right; eauto].
Qed.

Lemma act_text_nonempty a : wf_action a -> act_text a <> [].
Proof. intros [H _ _] E. apply app_eq_nil in E as [? _]. done. Qed.

(** *** Hiding *)

Lemma append_all_nonempty ns ts : ns <> [] -> foldl append_action ns ts = ns ++ concat ((cons bar) <$> ts).
Proof.
  revert ns. induction ts as [|t ts IH]; intros ns Hn; [by rewrite app_nil_r|]. cbn [foldl]. unfold append_action at 2.
  rewrite (proj2 (Nat.ltb_lt 0 (length ns))) by (destruct ns; [done|cbn; lia]).
  rewrite IH by (intros E; apply app_eq_nil in E as [? _]; done). cbn. by rewrite <- !app_assoc.
Qed.

Lemma print_append ms : (forall a, a ∈ ms -> wf_action a) -> foldl append_action [] (act_text <$> ms) = print ms.
Proof.
  destruct ms as [|a ms]; [done|]. intros Hw. cbn [foldl fmap list_fmap]. unfold append_action at 2. cbn [length Nat.ltb Nat.leb].
  rewrite append_all_nonempty by (apply act_text_nonempty, Hw; left). cbn [app print]. f_equal.
  clear Hw. revert a. induction ms as [|b ms IH]; intros a; [done|]. cbn [fmap list_fmap concat print].
  rewrite (IH b). done.
Qed.

Definition kept_actions (acts : list chars) (ms : list action) : list action :=
  filter (fun a => act_name a ∉ acts) ms.

Lemma hide_loop_spec acts ms : (forall a, a ∈ ms -> wf_action a) -> forall fuel ns, length (print ms) <= fuel ->
  hide_loop fuel acts (print ms) ns = Some (foldl append_action ns (act_text <$> kept_actions acts ms)).
Proof.
  induction ms as [|a ms IH]; intros Hw fuel ns Hf; [by destruct fuel|].
  assert (Ha : wf_action a) by (apply Hw; left). pose proof (act_text_nonempty a Ha) as Hne.
  set (r := match ms with [] => [] | _ :: _ => bar :: print ms end).
  assert (Er : ends_action r) by (unfold r; destruct ms; [by left|right; eauto]).
  assert (Ed : skip_operator r = print ms).
  { unfold r. by destruct ms. }
  assert (Hl : length (print ms) <= length r) by (unfold r; destruct ms; [done|apply le_S, le_n]).
  change (print (a :: ms)) with (act_text a ++ r) in *. rewrite length_app in Hf.
  destruct (act_text a) as [|x tx] eqn:Et; [done|]. destruct fuel as [|fuel]; [cbn in Hf; lia|].
  cbn [hide_loop app]. change (x :: tx ++ r) with ((x :: tx) ++ r). rewrite <- Et, scan_action_spec by done.
  cbv beta iota. rewrite Ed.
  cbn [length] in Hf. rewrite IH by (try lia; intros b Hb; apply Hw; by right).
  unfold kept_actions. rewrite filter_cons. destruct (decide (act_name a ∈ acts)) as [E1|E1], (decide (act_name a ∉ acts)) as [E2|E2]; try done.
Qed.

Lemma hide_actions_print acts ms :
  (forall a, a ∈ ms -> wf_action a) ->
  hide_actions acts (print ms) =
    Some (match kept_actions acts ms with [] => tau_action | _ :: _ => print (kept_actions acts ms) end).
Proof.
  intros Hw. unfold hide_actions. rewrite hide_loop_spec by (done || lia). cbn [mbind option_bind].
  assert (Hk : forall a, a ∈ kept_actions acts ms -> wf_action a).
  { intros a Ha. apply Hw. by apply list_elem_of_filter in Ha as [_ ?]. }
  rewrite print_append by done. destruct (kept_actions acts ms) as [|a ks]; [done|].
  rewrite decide_False; [done|]. cbn [print]. intros E%app_eq_nil. destruct E as [E _].
  by apply (act_text_nonempty a (Hk a ltac:(left))).
Qed.

(** *** Sorting *)

#[local] Arguments Nat.ltb : simpl never.
#[local] Arguments Nat.eqb : simpl never.

Definition chars_le (s t : chars) : Prop := chars_lt t s = false.

Lemma chars_lt_irrefl s : chars_lt s s = false.
Proof. induction s as [|x s IH]; cbn; [done|]. by rewrite Nat.ltb_irrefl, IH, andb_false_r. Qed.

Lemma chars_lt_antisym s t : chars_lt s t = false -> chars_lt t s = false -> s = t.
Proof.
  revert t. induction s as [|x s IH]; intros [|y t]; cbn; try done.
  intros [H1 H2]%orb_false_iff [H3 H4]%orb_false_iff. apply Nat.ltb_ge in H1, H3.
  assert (E : nat_of_ascii x = nat_of_ascii y) by lia. rewrite E, Nat.eqb_refl in H2, H4. cbn in H2, H4.
  f_equal; [|by apply IH]. by rewrite <- (ascii_nat_embedding x), E, ascii_nat_embedding.
Qed.

Lemma chars_lt_trans s t u : chars_lt s t = true -> chars_lt t u = true -> chars_lt s u = true.
Proof.
  revert t u. induction s as [|x s IH]; intros [|y t] [|z u]; cbn; try done.
  rewrite !orb_true_iff, !andb_true_iff, !Nat.ltb_lt, !Nat.eqb_eq.
  intros [H1|[H1 H1']] [H2|[H2 H2']]; try (left; lia). right. split; [lia|]. by apply (IH t u).
Qed.

Lemma chars_lt_asym s t : chars_lt s t = true -> chars_lt t s = false.
Proof.
  intros H. destruct (chars_lt t s) eqn:E; [|done]. by rewrite <- (chars_lt_irrefl s), (chars_lt_trans s t s).
Qed.

#[global] Instance chars_le_trans : Transitive chars_le.
Proof.
  unfold chars_le. intros s t u H1 H2. destruct (chars_lt u s) eqn:E; [|done].
  destruct (chars_lt t u) eqn:F; [by rewrite (chars_lt_trans t u s) in H1|].
  by rewrite (chars_lt_antisym t u) in H1 by done; rewrite E in H1.
Qed.

#[global] Instance chars_le_antisym : AntiSymm (=) chars_le.
Proof. intros s t H1 H2. by apply chars_lt_antisym. Qed.

Lemma multiset_insert_perm x m : multiset_insert x m ≡ₚ x :: m.
Proof. induction m as [|y m IH]; cbn; [done|]. destruct (chars_lt x y); [done|]. rewrite IH. apply Permutation_swap. Qed.

Lemma multiset_insert_sorted x m : StronglySorted chars_le m -> StronglySorted chars_le (multiset_insert x m).
Proof.
  induction 1 as [|y m Hs IH Hy]; cbn; [by repeat constructor|].
  destruct (chars_lt x y) eqn:E.
  - constructor; [by constructor|]. apply chars_lt_asym in E. constructor; [done|].
    eapply Forall_impl; [exact Hy|]. intros z Hz. by trans y.
  - constructor; [done|]. rewrite multiset_insert_perm. by constructor.
Qed.

(** The multiset after the actions of a label have been inserted. *)
Definition insert_all (m : list chars) (ts : list chars) : list chars := foldl (fun m t => multiset_insert t m) m ts.

Lemma insert_all_perm m ts : insert_all m ts ≡ₚ ts ++ m.
Proof.
  revert m. induction ts as [|t ts IH]; intros m; cbn; [done|]. etrans; [apply IH|].
  rewrite multiset_insert_perm. by rewrite Permutation_middle.
Qed.

Lemma insert_all_sorted m ts : StronglySorted chars_le m -> StronglySorted chars_le (insert_all m ts).
Proof. revert m. induction ts as [|t ts IH]; intros m Hm; cbn; [done|]. by apply IH, multiset_insert_sorted. Qed.

Lemma insert_all_canonical ts1 ts2 : ts1 ≡ₚ ts2 -> insert_all [] ts1 = insert_all [] ts2.
Proof.
  intros H. apply (StronglySorted_unique chars_le); try (apply insert_all_sorted; constructor).
  by rewrite !insert_all_perm, H.
Qed.

Lemma split_name nm r cur sp : (forall c, c ∈ nm -> c <> lpar /\ c <> rpar /\ c <> bar) ->
  split_loop (nm ++ r) 0 cur sp = split_loop r 0 (reverse nm ++ cur) sp.
Proof.
  revert cur. induction nm as [|c nm IH]; intros cur H; [done|]. cbn [app split_loop].
  destruct (H c ltac:(left)) as (? & ? & ?). rewrite !decide_False by naive_solver.
  rewrite IH by (intros d Hd; apply H; by right). by rewrite reverse_cons, <- app_assoc.
Qed.

Lemma split_args nd body r cur sp : closes (S nd) body = true ->
  split_loop (body ++ r) (S nd) cur sp = split_loop r 0 (reverse body ++ cur) sp.
Proof.
  revert nd cur. induction body as [|x body IH]; intros nd cur H; [done|]. cbn [app split_loop closes] in *.
  rewrite reverse_cons, <- app_assoc. cbn [app]. unfold bracket_depth in H.
  destruct (decide (x = rpar)) as [->|E1].
  - rewrite decide_False in H by done. cbn [pred] in H. destruct nd as [|nd]; simpl Nat.eqb in H.
    + by destruct body.
    + by apply IH.
  - destruct (decide (x = lpar)) as [->|E2]; cbn [Nat.eqb] in H; [by apply IH|].
    rewrite decide_False by naive_solver. by apply IH.
Qed.

Lemma split_text a r cur sp : wf_action a ->
  split_loop (act_text a ++ r) 0 cur sp = split_loop r 0 (reverse (act_text a) ++ cur) sp.
Proof.
  intros [_ H2 H3]. unfold act_text. rewrite <- app_assoc, split_name by done.
  destruct H3 as [->|(body & -> & Hc)]; [by rewrite app_nil_r|]. cbn [app split_loop].
  rewrite decide_False, decide_True, split_args by done. by rewrite reverse_app, reverse_cons, <- !app_assoc.
Qed.

Lemma split_bar r cur sp : split_loop (bar :: r) 0 cur sp = split_loop r 0 [] (multiset_insert (reverse cur) sp).
Proof. done. Qed.

(** All actions but the last are in the multiset when the label has been read. *)
Lemma split_print_app ms a r sp : (forall b, b ∈ ms ++ [a] -> wf_action b) ->
  split_loop (print (ms ++ [a]) ++ r) 0 [] sp = split_loop r 0 (reverse (act_text a)) (insert_all sp (act_text <$> ms)).
Proof.
  revert sp. induction ms as [|b ms IH]; intros sp Hw.
  - cbn [app print]. rewrite app_nil_r, split_text by (apply Hw; left). by rewrite app_nil_r.
  - assert (E : print ((b :: ms) ++ [a]) = act_text b ++ bar :: print (ms ++ [a])) by (by destruct ms).
    rewrite E, <- app_assoc, split_text by (apply Hw; left). cbn [app]. rewrite split_bar, app_nil_r, reverse_involutive.
    by rewrite IH by (intros c Hc; apply Hw; by right).
Qed.

Lemma split_print ms a sp : (forall b, b ∈ ms ++ [a] -> wf_action b) ->
  split_loop (print (ms ++ [a])) 0 [] sp = (inr (act_text a), insert_all sp (act_text <$> ms)).
Proof.
  intros Hw. rewrite <- (app_nil_r (print _)), split_print_app by done. cbn [split_loop]. by rewrite reverse_involutive.
Qed.

Lemma insert_all_snoc sp ms a :
  insert_all sp (act_text <$> (ms ++ [a])) = multiset_insert (act_text a) (insert_all sp (act_text <$> ms)).
Proof. unfold insert_all. by rewrite fmap_app, foldl_app. Qed.

Lemma sort_multiactions_print ms a sp : (forall b, b ∈ ms ++ [a] -> wf_action b) ->
  sort_multiactions (print (ms ++ [a])) sp =
    if length (insert_all sp (act_text <$> ms)) =? 0 then (inr (act_text a), [])
    else (inr (foldl append_action [] (insert_all sp (act_text <$> (ms ++ [a])))), []).
Proof.
  intros Hw. unfold sort_multiactions. rewrite split_print by done.
  rewrite decide_False by (apply act_text_nonempty, Hw, elem_of_app; right; left).
  rewrite insert_all_snoc. destruct (insert_all sp (act_text <$> ms)) as [|t m] eqn:E; cbn [length]; [|done].
  assert (Hms : act_text <$> ms = []).
  { pose proof (insert_all_perm sp (act_text <$> ms)) as Hp. rewrite E in Hp.
    apply Permutation_nil_l, eq_sym, app_eq_nil in Hp as [? _]. done. }
  apply fmap_nil_inv in Hms as ->. cbn. by rewrite app_nil_r.
Qed.

(** The sorted label is the printed form of a permutation. *)
Lemma insert_all_print sp ms : (forall a, a ∈ ms -> wf_action a) -> sp ≡ₚ act_text <$> ms -> StronglySorted chars_le sp ->
  exists ms', ms' ≡ₚ ms /\ StronglySorted chars_le (act_text <$> ms') /\ foldl append_action [] sp = print ms'.
Proof.
  intros Hw Hp Hs. apply Permutation_map_inv in Hp as (ms' & -> & Hp). exists ms'. split; [done|].
  split; [done|]. apply print_append. intros a Ha. apply Hw. by rewrite Hp.
Qed.

Lemma sort_multiactions_sorted ms : ms <> [] -> (forall a, a ∈ ms -> wf_action a) ->
  sort_multiactions (print ms) [] = (inr (foldl append_action [] (insert_all [] (act_text <$> ms))), []).
Proof.
  intros Hne Hw. destruct (exists_last Hne) as (ms' & a & ->). rewrite sort_multiactions_print by done.
  rewrite insert_all_snoc. destruct (insert_all [] (act_text <$> ms')) as [|t m]; done.
Qed.

(** The label that [sort_multiactions] makes of a multi-action as the pretty
    printer writes it is the printed form of a permutation with its actions in
    order; permuted multi-actions get the same label, sorting it again changes
    nothing, and the static multiset is empty again. *)
Lemma sort_multiactions_canonical ms1 ms2 :
  ms1 <> [] -> (forall a, a ∈ ms1 -> wf_action a) -> ms1 ≡ₚ ms2 ->
  exists ms, ms ≡ₚ ms1 /\ StronglySorted chars_le (act_text <$> ms) /\
    sort_multiactions (print ms1) [] = (inr (print ms), []) /\
    sort_multiactions (print ms2) [] = (inr (print ms), []) /\
    sort_multiactions (print ms) [] = (inr (print ms), []).
Proof.
  intros Hne Hw Hp.
  destruct (insert_all_print (insert_all [] (act_text <$> ms1)) ms1 Hw) as (ms & Hm & Hs & E).
  { by rewrite insert_all_perm, app_nil_r. }
  { apply insert_all_sorted. constructor. }
  assert (Hsort : forall ms', ms' ≡ₚ ms1 -> sort_multiactions (print ms') [] = (inr (print ms), [])).
  { intros ms' Hp'. rewrite sort_multiactions_sorted.
    - rewrite <- E. do 3 f_equal. apply insert_all_canonical. by rewrite Hp'.
    - intros ->. by apply Permutation_nil_l in Hp'.
    - intros a. rewrite Hp'. apply Hw. }
  exists ms. split; [done|]. split; [done|]. auto using Permutation_sym.
Qed.

(** A label that ends in a bar is rejected, but its actions stay in the static
    multiset: the next label of the thread is given them too. *)
Lemma sort_multiactions_residue ms1 ms2 :
  ms1 <> [] -> ms2 <> [] -> (forall a, a ∈ ms1 ++ ms2 -> wf_action a) ->
  let '(r, split_actions) := sort_multiactions (print ms1 ++ [bar]) [] in
  r = inl not_proper_2 /\ split_actions ≡ₚ act_text <$> ms1 /\
  sort_multiactions (print ms2) split_actions = sort_multiactions (print (ms1 ++ ms2)) [].
Proof.
  intros Hne1 Hne2 Hw. destruct (exists_last Hne1) as (ms1' & a & ->), (exists_last Hne2) as (ms2' & b & ->).
  unfold sort_multiactions at 1. rewrite split_print_app by (intros c Hc; apply Hw, elem_of_app; by left).
  cbn [split_loop]. rewrite decide_False, decide_False, decide_True, reverse_involutive by done.
  rewrite decide_True by done. split; [done|]. rewrite <- insert_all_snoc. split; [by rewrite insert_all_perm, app_nil_r|].
  rewrite sort_multiactions_sorted by (done || by destruct ms1').
  rewrite sort_multiactions_print by (intros c Hc; apply Hw, elem_of_app; by right).
  assert (E : forall ms, insert_all (insert_all [] (act_text <$> (ms1' ++ [a]))) (act_text <$> ms) =
    insert_all [] (act_text <$> ((ms1' ++ [a]) ++ ms))).
  { intros ms. unfold insert_all. by rewrite !fmap_app, !foldl_app. }
  rewrite !E. destruct (length _ =? 0) eqn:El; [|done]. apply Nat.eqb_eq in El.
  rewrite (Permutation_length (insert_all_perm _ _)), length_app, length_fmap, !length_app in El. cbn in El. lia.
Qed.

(** *** Hiding in a transition system *)

Lemma parse_name_app c : c = (parse_name c).1 ++ (parse_name c).2.
Proof. induction c as [|x c IH]; cbn; [done|]. case_decide; [done|]. destruct (parse_name c). cbn in *. by f_equal. Qed.

Lemma skip_parameters_length nd c : length (skip_parameters nd c).2 <= length c.
Proof.
  revert nd. induction c as [|x c IH]; intros nd; cbn; [done|]. destruct (0 <? _); [|cbn; lia].
  specialize (IH (bracket_depth nd x)). destruct (skip_parameters _ c). cbn in *. lia.
Qed.

Lemma skip_parameters_progress nd x c : length (skip_parameters nd (x :: c)).2 <= length c.
Proof.
  cbn. destruct (0 <? _); [|done]. pose proof (skip_parameters_length (bracket_depth nd x) c).
  by destruct (skip_parameters _ c).
Qed.

Lemma skip_to_bar_length c : length (skip_to_bar c).2 <= length c.
Proof. induction c as [|x c IH]; cbn; [done|]. case_decide; [done|]. destruct (skip_to_bar c). cbn in *. lia. Qed.

Lemma skip_operator_length c : length (skip_operator c) <= length c.
Proof. destruct c as [|x c]; cbn; [done|]. case_decide; cbn; lia. Qed.

(** Every round of the loop reads at least one character. *)
Lemma scan_action_progress x c : length (skip_operator (scan_action (x :: c)).2) <= length c.
Proof.
  unfold scan_action. pose proof (parse_name_app (x :: c)) as Ea. destruct (parse_name (x :: c)) as [a c1] eqn:En. cbn in Ea.
  set (pr := match c1 with y :: _ => if decide (y = lpar) then skip_parameters 0 c1 else ([], c1) | [] => ([], c1) end).
  assert (Hpr : length pr.2 <= length c \/ pr.2 = x :: c /\ x = bar).
  { unfold pr. destruct a as [|y a].
    - cbn in Ea. subst c1. cbn in En. case_decide as Ex; [|by destruct (parse_name c)].
      destruct Ex as [->| ->]; [left; apply skip_parameters_progress|by right].
    - apply (f_equal length) in Ea. cbn in Ea. rewrite length_app in Ea. left.
      destruct c1 as [|y' c1]; [cbn; lia|]. case_decide; [|cbn in *; lia].
      etrans; [apply skip_parameters_length|]. apply Nat.succ_inj in Ea. rewrite Ea. apply Nat.le_add_l. }
  destruct pr as [p c2]. cbn in Hpr. pose proof (skip_to_bar_length c2) as Hq.
  pose proof (skip_operator_length (skip_to_bar c2).2) as Ho. destruct Hpr as [Hl|[-> ->]]; [|done].
  destruct (skip_to_bar c2) as [q c3]. cbn in *. lia.
Qed.

Lemma hide_loop_total acts fuel c ns : length c <= fuel -> is_Some (hide_loop fuel acts c ns).
Proof.
  revert c ns. induction fuel as [|fuel IH]; intros [|x c] ns H; cbn in H; try (by eexists); [lia|].
  cbn [hide_loop]. pose proof (scan_action_progress x c) as Hp. destruct (scan_action (x :: c)) as [[a t] c3].
  apply IH. cbn in Hp. lia.
Qed.

(** [hide_actions] with the names as the tools give them: it always ends. *)
Definition hide_label (acts : list string) (s : chars) : chars :=
  match hide_actions (list_ascii_of_string <$> acts) s with Some s' => s' | None => s end.

Lemma hide_label_total acts s : hide_actions (list_ascii_of_string <$> acts) s = Some (hide_label acts s).
Proof.
  unfold hide_label. destruct (hide_actions _ s) eqn:E; [done|]. unfold hide_actions in E.
  by destruct (hide_loop_total (list_ascii_of_string <$> acts) (length s) s [] (le_n _)) as [ns En]; rewrite En in E.
Qed.

Definition printed (s : chars) : Prop := exists ms, (forall a, a ∈ ms -> wf_action a) /\ s = print ms.

Lemma hide_label_print acts ms : (forall a, a ∈ ms -> wf_action a) ->
  hide_label acts (print ms) =
    match kept_actions (list_ascii_of_string <$> acts) ms with
    | [] => tau_action
    | _ :: _ => print (kept_actions (list_ascii_of_string <$> acts) ms)
    end.
Proof. intros Hw. unfold hide_label. by rewrite hide_actions_print. Qed.

Lemma hide_label_tau acts : hide_label acts tau_action = tau_action.
Proof.
  change tau_action with (print [mk_action tau_action []]) at 1. rewrite hide_label_print.
  - unfold kept_actions. rewrite filter_cons. by case_decide.
  - intros a [->|[]%elem_of_nil]%elem_of_cons. split; [done| |by left]. cbn. intros c Hc.
    repeat (apply elem_of_cons in Hc as [->|Hc]; [done|]). by apply elem_of_nil in Hc.
Qed.

Lemma kept_actions_idem acts ms : kept_actions acts (kept_actions acts ms) = kept_actions acts ms.
Proof. unfold kept_actions. rewrite list_filter_filter. apply list_filter_iff. tauto. Qed.

Lemma hide_label_idem acts s : printed s -> hide_label acts (hide_label acts s) = hide_label acts s.
Proof.
  intros (ms & Hw & ->). rewrite (hide_label_print acts ms Hw).
  destruct (kept_actions _ ms) as [|a ks] eqn:E; [apply hide_label_tau|]. rewrite <- E, hide_label_print.
  - by rewrite kept_actions_idem, E.
  - intros b Hb. apply Hw. by apply list_elem_of_filter in Hb as [_ ?].
Qed.

(** Hiding actions in a transition system whose labels are strings that the
    pretty printer wrote, recorded ([record_hidden_actions]) or applied
    ([apply_hidden_actions]): every transition gets the label without the actions
    that are named, [tau] when none is left, and nothing else of the transition
    system changes; no assertion fails, and the scan of every label ends. *)
Lemma hide_actions_string {SL : Type} acts (l : lts SL chars) :
  acts <> [] -> wf_lts tau_action l -> m_hidden_label_set l = ∅ -> (forall s, s ∈ m_action_labels l -> printed s) ->
  (forall ms, (forall a, a ∈ ms -> wf_action a) ->
     hide_actions (list_ascii_of_string <$> acts) (print ms) = Some (hide_label acts (print ms)) /\
     hide_label acts (print ms) =
       match kept_actions (list_ascii_of_string <$> acts) ms with
       | [] => tau_action
       | _ :: _ => print (kept_actions (list_ascii_of_string <$> acts) ms)
       end) /\
  (exists l', record_hidden_actions tau_action hide_label acts l = Some l' /\ wf_lts tau_action l' /\
     behaviour l' = relabel (hide_label acts) <$> behaviour l /\
     m_nstates l' = m_nstates l /\ m_init_state l' = m_init_state l /\ m_state_labels l' = m_state_labels l) /\
  (exists l', apply_hidden_actions tau_action hide_label acts l = Some l' /\ wf_lts tau_action l' /\
     behaviour l' = relabel (hide_label acts) <$> behaviour l /\
     m_nstates l' = m_nstates l /\ m_init_state l' = m_init_state l /\ m_state_labels l' = m_state_labels l).
Proof.
  intros Hne Hw Hh Hl. split.
  - intros ms Hms. split; [apply hide_label_total|by apply hide_label_print].
  - apply (hide_actions_ok tau_action hide_label acts Hne (hide_label_tau acts) l Hw Hh).
    intros s Hs. by apply hide_label_idem, Hl.
Qed.

(** *** Witnesses *)

Definition action_a : action := mk_action ["a"]%char ["("; "1"; "|"; "2"; ")"]%char.
Definition action_b : action := mk_action ["b"]%char [].
Definition action_c : action := mk_action ["c"]%char [].

Lemma wf_examples a : a ∈ [action_c; action_b; action_a] -> wf_action a.
Proof.
  intros Ha. repeat (apply elem_of_cons in Ha as [->|Ha]; [|]); [..|by apply elem_of_nil in Ha];
    (split; [done| |first [by left|right; eexists; split; [done|by vm_compute]]]);
    intros c Hc; repeat (apply elem_of_cons in Hc as [->|Hc]; [done|]); by apply elem_of_nil in Hc.
Qed.

(** [0 --c|b--> 1] *)
Definition string_lts : lts nat chars :=
  mk_lts 2 0 [Transition 0 1 1] [] [tau_action; print [action_c; action_b]] ∅.

Lemma string_lts_ok : wf_lts tau_action string_lts /\ (forall s, s ∈ m_action_labels string_lts -> printed s).
Proof.
  split.
  - split; [done|by apply (bool_decide_unpack _); vm_compute|..];
      intros t Ht; (apply elem_of_cons in Ht as [->|Ht]; [cbn; lia|by apply elem_of_nil in Ht]).
  - intros s Hs. apply elem_of_cons in Hs as [->|Hs].
    + exists [mk_action tau_action []]. split; [|done]. intros a [->|[]%elem_of_nil]%elem_of_cons.
      split; [done| |by left]. cbn. intros c Hc. repeat (apply elem_of_cons in Hc as [->|Hc]; [done|]). by apply elem_of_nil in Hc.
    + apply elem_of_cons in Hs as [->|Hs]; [|by apply elem_of_nil in Hs]. exists [action_c; action_b]. split; [|done].
      intros a Ha. apply wf_examples. rewrite !elem_of_cons in *. tauto.
Qed.

